(* ===== verification/_CoqProject ===== *)
-Q . S2P
Prelude.v
Text.v
Json.v
Access.v
Claims.v
ClaimDiff.v
ClaimShape.v
ClaimServe.v
ClaimPublish.v
ClaimDoor.v
Merge.v
Fingerprint.v
Extcall.v
MutationLog.v
Username.v
Tables.v
Outbox.v
Lifecycle.v
Plans.v
Planapply.v
Policy.v
Holdings.v
Entitlement.v
Enqueue.v
Requests.v
Cascade.v
Bundles.v
Publish.v
PlanGate.v
Bindings.v
Transport.v
LogAnchor.v
Nas.v
NasApply.v
NasPlan.v
NasConverge.v
NasPlanned.v
NasReach.v
NasOps.v
NasOpsFacts.v
Drain.v
Delivery.v
Addon.v
