(* ===== verification/Prelude.v ===== *)
(** * Syndra: a verification development

    Syndra (src/backend) decides who may have which role and carries those
    decisions to the systems that hold the access: Zitadel, and add-on targets
    such as a TrueNAS (src/addons/truenas). This library models the core of both
    programs as executable Gallina functions and proves what makes each part
    correct.

    ** The program, and how its parts interact

    What a person holds is recorded as direct grants, as bundles they are pinned
    to a version of, and as what mapping rules derive from those. An action
    changes the records and, in the same transaction, writes what it owes
    Zitadel into propagation_outbox, cancelling what was queued and never sent;
    and it queues a convergence for every add-on target the changed roles are
    mapped to. The drains claim outbox rows, send each to Zitadel or to an
    add-on, and settle it. A convergence is sent only under a plan an operator
    or the system approved. The add-on plans and applies it on the NAS, answers
    one-shot operations, and keeps a hash-chained log of its mutations whose
    head the backend anchors. Separately, the claims path turns what a person
    holds into the token an app receives: an operator saves the shape of an app's
    token, the shape is published into Redis, a loader keeps a snapshot of what
    is published, and each of Zitadel's signed calls is answered from it.

    ** Which file models what

    Paths are under src/backend/internal, or under src/addons/truenas for the
    files from Username.v, MutationLog.v and Nas.v on. A function has the name it
    has in the code; a trailing underscore avoids a Rocq keyword.

    - Prelude.v (this file): notation, tactics, sorting by Go's comparisons,
      strings.TrimSpace, strconv.Itoa and the lemmas the rest share. Text.v:
      numbers, splitting and hexadecimal as strconv, strings and encoding/hex
      have them.
    - Json.v: json.Valid. Access.v (access/): [Closure], [Ends], [Later], [Fired],
      [Left]; an end date is an integer, zero meaning none. Claims.v
      (claims/claims.go): profiles, [Validate], [Shape]. ClaimDiff.v
      (claims/diff.go, templates.go) and ClaimShape.v (services/claim_shape.go,
      db/claim_shapes.go, claim_profiles.go): what a save changes, saving,
      restoring, seeding and reading back. ClaimServe.v (claimserve/config.go,
      lru.go, plane.go): the keyring, the remembered facts, [Answer].
      ClaimPublish.v (plane.go, handlers/claims_plane.go): [Publish], [Poll].
      ClaimDoor.v (signature.go, decode.go, door.go): the route, [Handler_].
      jsonb, encoding/json of what is published, and the keyed hash are
      parameters of these; their laws are [jsonb_literal] and [ConfigLaws]. Merge.v
      (services/merge): the three-way classifier. Fingerprint.v
      (services/fingerprint.go): the digests a plan is approved under. Extcall.v
      (extcall/): back-off, the retry loop [Do], the retry states.
    - Tables.v: the rows of every table beside the outbox. Outbox.v
      (db/propagations.go, propagation_memory.go, role_waits.go, targets.go): the
      record [Db], and each exported function as its SQL statement on it.
      Lifecycle.v: the outbox as a state machine, [step], a constructor per
      statement.
    - Plans.v (db/plans.go, snapshots.go, entitlement_enqueue.go,
      system_convergence.go): approvals and the work they authorise. Planapply.v
      (services/planapply): the gate of every apply.
    - Policy.v (db/mappings.go, allowances.go, target_project.go): mappings,
      their versions, holds and own values. Holdings.v (services/views.go,
      holding.go, expected.go and the reads of db/): what somebody holds.
      Entitlement.v (services/entitlement.go, lifecycle_trigger.go): what their
      roles mean on a target.
    - Enqueue.v (db/propagation_enqueue.go, withdraw.go, cancel_gate.go): the one
      outbox insert. The rules that follow a write are the class [EnqueueEnv]
      there; Cascade.v (services/cascade.go, rule_follow.go, db/cascade.go) gives
      the instance [live_rules] that keeps its laws. Requests.v
      (db/access_requests.go, handlers/access.go, request_kinds.go,
      grant_convergence.go): asking, deciding, giving by hand; the zone's calendar
      is the class [Zone].
    - Bundles.v (db/bundles.go, bundle_versions.go, bundle_includes.go) and
      Publish.v (services/bundle_publish.go): versions, publishing, moving
      holders. PlanGate.v (handlers/plan_gate.go, requests_bulk.go): a rehearsal
      becomes a plan and an apply cites it, for decisions in bulk.
    - Bindings.v (db/target_bindings.go, binding_conflicts.go, merge_bases.go):
      which account on a target is whose.
    - Transport.v (addons/): one call to an add-on, its breaker and health.
      Drain.v (services/propagation): the Zitadel drains; Zitadel is the class
      [Zitadel] with its documented behaviour [ZitadelLaws] and an instance of
      both. Delivery.v (services/delivery.go): what of the rows just written goes
      now and what waits. Addon.v (propagation/addon.go): the add-on drains.
    - MutationLog.v (mutationlog.go) and LogAnchor.v (db/log_anchor.go,
      services/drift/addon.go): the log and its anchor.
    - Username.v (username.go), Nas.v (store.go, lifecycle.go, identity.go,
      subjects.go, home.go), NasApply.v (apply.go), NasPlan.v (plan.go),
      NasReach.v (reach.go, storage_status.go, settings.go, handleHomes) and
      NasOps.v (operations.go): the add-on. Its [Server] is the target, the
      store, the log and the lifecycle; the middleware is the classes [Nas],
      [Shares] and [Ops] of typed calls. NasConverge.v, NasPlanned.v and
      NasOpsFacts.v hold the theorems, against the behaviour of those calls
      stated in [NasLog] (the calls made and what the answers told), [NasModel] and
      [OpsLog], and a concrete target. A computation that only reads is [steady]
      for every [Keeping] relation the reads observe.

    ** What the theorems show

    - To Zitadel: a dispatch leaves exactly the wanted roles and touches nothing
      else (Drain.classifyDispatch_effect); every claimed row has one outcome
      inside its retry budget, or was settled by another meanwhile
      (processRow_outcome); a row is marked applied last, and what applying wrote
      is said (applyRow_effects). Settled rows are final, the table
      invariant holds in every reachable state (Lifecycle.settled_rows_are_final,
      reachable_outbox_wf), and a claim never inverts a person's intent
      (Outbox.ClaimPendingPropagations_intent_order). A delivery keeps what waits,
      and says nothing only of what went (Delivery.Deliver_keeps_what_waits).
    - Requests: nobody waits twice for a role and a decision stands
      (Requests.requests_invariant); an approval gives what was asked and only more
      than is held, at once and in the ledger (approval_gives_only_more,
      asking_agrees_with_approving, approval_grants, direct_grant_gives_only_more).
    - What is applied is what was reviewed: a plan is claimed once, by whom it was
      issued to, and only if no fingerprint moved (PlanGate.claimed_as_reviewed);
      untouched, it is claimed with its rows (issued_plan_is_claimed); and what
      the rehearsal says is what deciding does, up to the writes the decision
      queues (rehearsal_agrees_with_decision).
    - What is owed: enqueueing is a run of the state machine, cancels only what
      was acknowledged and drops a write only when the role stands as it wants it,
      as far as the standing test sees
      (Enqueue.enqueueWrites_runs, enqueueWrites_gate, withdrawUndelivered_spec);
      every cascade, and every publish of a bundle whose includes are not nested,
      queues exactly the difference it makes
      (Cascade.cascades_queue_the_difference, Publish.PublishBundleVersion_spec);
      the closure is the least fixpoint of the rules, dated (Access.Ends_spec).
    - To add-ons: a convergence is queued only under a spent approval
      (Plans.convergences_are_authorised, Planapply.ApplyPlan_spec), what was
      approved is what is sent (Addon.approved_is_what_is_sent,
      dispatch_sends_the_approval), every dispatch ends in one outcome, an
      abandoned row's included, and keeps the invariants (dispatchEntitlement_outcome, DrainAddon_keeps_approvals);
      the breaker refuses exactly while it should (Transport.breaker_spec); the
      desired state is what the held roles map to, less the holds
      (Entitlement.ResolveEntitlements_spec).
    - On the NAS: an apply touches only a record the target told in that run, of the
      bound account under the approved fingerprint; it leaves groups, lock and SMB
      off as wanted and changes nothing else; it is made once; and it is not refused
      as stale after its own plan, the account not being renamed
      (NasConverge.apply_touches_only_what_was_approved,
      apply_reaches_the_desired_state, replay_repeats_the_answer,
      NasPlanned.planned_apply_is_not_stale); an operation changes the bound
      account or none, is made once, and keeps no password (NasOpsFacts); numbers
      are given once (NasPlanned.claimed_numbers_increase), names are valid
      (Username.DeriveUsername_valid), the page of what a group opens is right, and
      complete where shares let everyone pass (NasReach.group_reach_complete).
    - The record: while its clock moves on and a failed write can be taken back, the
      log verifies through crashes, rotations and failing writes
      (MutationLog.mutation_log_sound); the anchor never forgets a rewriting and
      never accuses an honest log (LogAnchor.anchor_remembers,
      honest_log_never_accused).
    - The tables: bundles, mappings and bindings keep their invariants under every
      sequence of operations (Bundles.catalog_invariant, Policy.policy_invariant,
      Bindings.accounts_invariant). Digests: Fingerprint.FingerprintUserAccess_binds.
      External calls: Extcall.Do_spec.
    - Tokens: a token carries what its shape says (Claims.Shape_delivers_rows);
      versions of a shape are numbered as they land and always validate, a save
      that warns of nothing takes nothing an app acts on, roles added later apart
      (ClaimShape.shapes_invariant, unwarned_save_takes_nothing), and no change is
      left out of the list shown (ClaimDiff.Diff_empty_iff). A save, published and
      polled, is what every later token of the app says
      (ClaimPublish.save_reaches_the_token, over ClaimShape.save_is_served and
      ClaimPublish.publish_reaches_the_plane). A call is answered only if it
      verifies, and with exactly the roles its payload lists
      (ClaimDoor.the_door_delivers_signed_roles); it is counted once and never
      limited when it verifies (every_call_is_counted_once), and a rotated key
      keeps verifying (rotation_refuses_no_call). What is answered from memory is
      the last Redis said (ClaimServe.lkg_answers_are_recent), and the memory keeps
      whom it should (lru_keeps_the_recent).
    - Theorems whose names state a shortcoming (lost_answer_leaves_access,
      nested_include_overgrants, purge_deletes_its_own_account, lost_index,
      all_on_hold_stays_enabled, plan_misses_a_rename, lost_rollback_breaks_the_log,
      given_back_keeps_the_old_end, exhausted_row_reads_as_sent,
      approved_row_disagrees_with_the_fresh_read and the like) run
      the code's own definitions to a state its comments rule out.

    ** Bounds, fuel and conventions

    [Ends] makes at most as many passes as there are rules, as the code does, and
    Ends_spec shows that is enough. [Do]'s fuel is the attempts the policy
    allows; Do_spec shows it always returns. [datasetAt] climbs with two steps
    more than the path has bytes; datasetAt_nearest shows it never runs out. The
    readers of texts ([runes], [Fields], [strip], [json_valid]) have the length
    of the text for fuel, and consume a byte a step. int64 arithmetic that can
    reach its bound is written out with its wrap-around. A row limit, a lock held
    by another transaction, the order in which UPDATE ... RETURNING yields rows,
    SHA-256, the random source and unicode.ToLower beyond ASCII are parameters.
    Text is ordered by bytes where SQL orders it. A NULL column is [None]. A uuid
    column compares by the lower-case text of the citation. A
    statement the connection loses changes nothing. Classes that stand for a
    system outside the code have an instance the witnesses run on.

    ** Not modelled

    HTTP routing, decoding and encoding, sessions and TLS, the web front end, the
    database driver and migrations, caches, telemetry and log lines: input and
    output around this core. The session with the TrueNAS middleware (nas.go),
    the manifest and the keys. Two calls that run at the same moment in one
    add-on: a call is one step here, as a transaction is. Not reached:
    services/planner.go and bulk.go (bulk decisions of requests among them), drift
    but its log pass, expiry and onboarding, the backend's side of operations
    (services/addonop), read models and reports. Of claimserve:
    waiting for a new key, the relay of telemetry, health and debug mode; a panic
    in the route. *)

From Stdlib Require Export ZArith Lia Ascii String.
From stdpp Require Export base gmap strings list sorting pretty.


(** ** Notation scope and automation *)

Declare Scope syndra_scope.
Delimit Scope syndra_scope with syndra.
Open Scope syndra_scope.

(** Go's short-circuiting "equal" test on comparable values. *)
Notation "a =? b" := (bool_decide (a = b)) (at level 70) : syndra_scope.
Notation "a <>? b" := (negb (bool_decide (a = b))) (at level 70) : syndra_scope.

Create HintDb syndra.

(** Case analysis on every [if]/[match]/[decide] in sight, then congruence. *)
Ltac crush_cases :=
  repeat (case_decide || case_bool_decide || case_match); simplify_eq/=; eauto with syndra.

(** ** Go's [sort.Strings] / [slices.Sort]: ascending byte order. *)
Definition sort_strings (l : list string) : list string := merge_sort String.le l.

Lemma sort_strings_perm l : sort_strings l ≡ₚ l.
Proof. apply merge_sort_Permutation. Qed.

Lemma sort_strings_sorted l : StronglySorted String.le (sort_strings l).
Proof. apply (StronglySorted_merge_sort _). Qed.

Lemma sort_strings_elem x l : x ∈ sort_strings l ↔ x ∈ l.
Proof. by rewrite sort_strings_perm. Qed.

(** Two enumerations of one collection sort to the same list: what makes a
    result computed by ranging over a Go map deterministic. *)
Lemma sort_strings_unique l1 l2 : l1 ≡ₚ l2 → sort_strings l1 = sort_strings l2.
Proof.
  intros Hp. apply (StronglySorted_unique String.le);
    [apply sort_strings_sorted..|]. by rewrite !sort_strings_perm.
Qed.

(** ** Go strings: byte strings ([string] is a list of 8-bit [ascii])

    [strings.TrimSpace] cuts every leading and trailing white-space rune
    (unicode.IsSpace), each given here by its UTF-8 bytes. *)
Definition bytes_of (l : list N) : list ascii := ascii_of_N <$> l.

Definition white_space : list (list ascii) :=
  bytes_of <$> ([[9]; [10]; [11]; [12]; [13]; [32]; [194; 133]; [194; 160]; [225; 154; 128];
    [226; 128; 128]; [226; 128; 129]; [226; 128; 130]; [226; 128; 131]; [226; 128; 132];
    [226; 128; 133]; [226; 128; 134]; [226; 128; 135]; [226; 128; 136]; [226; 128; 137];
    [226; 128; 138]; [226; 128; 168]; [226; 128; 169]; [226; 128; 175]; [226; 129; 159];
    [227; 128; 128]])%N.

Fixpoint drop_prefix (p l : list ascii) : option (list ascii) :=
  match p, l with
  | [], _ => Some l
  | a :: p, b :: l => if a =? b then drop_prefix p l else None
  | _ :: _, [] => None
  end.

Fixpoint strip_one (pats : list (list ascii)) (l : list ascii) : option (list ascii) :=
  match pats with
  | [] => None
  | p :: pats => match drop_prefix p l with Some l' => Some l' | None => strip_one pats l end
  end.

(** [fuel] bounds the runes cut: every one is at least a byte long. *)
Fixpoint strip (fuel : nat) (pats : list (list ascii)) (l : list ascii) : list ascii :=
  match fuel with
  | 0 => l
  | S fuel => match strip_one pats l with Some l' => strip fuel pats l' | None => l end
  end.

Definition trim_left (pats : list (list ascii)) (l : list ascii) : list ascii :=
  strip (length l) pats l.

Definition TrimSpace (s : string) : string :=
  string_of_list_ascii
    (reverse (trim_left (reverse <$> white_space)
      (reverse (trim_left white_space (list_ascii_of_string s))))).

(** [strings.ToLower], on ASCII: letters A-Z move by 32, other bytes stand. (Go
    lowers non-ASCII letters too, by the Unicode tables; the strings it is used
    on here are ASCII words and ASCII claim keys.) *)
Definition lower_byte (a : ascii) : ascii :=
  let n := N_of_ascii a in
  if (65 <=? n)%N && (n <=? 90)%N then ascii_of_N (n + 32) else a.
Definition ToLower (s : string) : string :=
  string_of_list_ascii (lower_byte <$> list_ascii_of_string s).

(** [strings.Join]. *)
Fixpoint Join (l : list string) (sep : string) : string :=
  match l with
  | [] => ""
  | [s] => s
  | s :: l => s +:+ sep +:+ Join l sep
  end.

Definition HasPrefix (s p : string) : bool := String.prefix p s.

(** *** Facts on trimming *)
Section strip_facts.
Context (pats : list (list ascii)) (Hne : [] ∉ pats).

Lemma drop_prefix_Some p l l' : drop_prefix p l = Some l' ↔ l = p ++ l'.
Proof.
  revert l; induction p as [|a p IH]; intros l; simpl; [naive_solver|].
  destruct l as [|b l]; [naive_solver|]. case_bool_decide; naive_solver.
Qed.

Lemma strip_one_Some l l' : strip_one pats l = Some l' → ∃ p, p ∈ pats ∧ l = p ++ l'.
Proof.
  clear Hne. induction pats as [|p ps IH]; simpl; [done|].
  destruct (drop_prefix p l) eqn:E; intros Hl; simplify_eq.
  - apply drop_prefix_Some in E. set_solver.
  - destruct IH as (q & ? & ?); [done|]. set_solver.
Qed.

Lemma strip_one_None l : strip_one pats l = None ↔ ∀ p l', p ∈ pats → l ≠ p ++ l'.
Proof.
  clear Hne. induction pats as [|p ps IH]; simpl; [set_solver|].
  destruct (drop_prefix p l) eqn:E.
  - apply drop_prefix_Some in E. split; [done|]. intros H. exfalso. eapply H; [left|done].
  - rewrite IH. split; [|set_solver]. intros H q l' [->|?]%elem_of_cons; [|auto].
    intros ->. by rewrite (proj2 (drop_prefix_Some p (p ++ l') l') eq_refl) in E.
Qed.

Lemma strip_one_shorter l l' : strip_one pats l = Some l' → length l' < length l.
Proof.
  intros (p & Hp & ->)%strip_one_Some. rewrite length_app.
  destruct p; [done|]. simpl. lia.
Qed.

Lemma strip_done n l : length l ≤ n → strip_one pats (strip n pats l) = None.
Proof.
  revert l; induction n as [|n IH]; intros l Hl; simpl.
  - destruct l; [|simpl in Hl; lia]. apply strip_one_None. intros [|??] l' ? ?; naive_solver.
  - destruct (strip_one pats l) as [l'|] eqn:E; [|done].
    apply IH. apply strip_one_shorter in E. lia.
Qed.

Lemma strip_None n l : strip_one pats l = None → strip n pats l = l.
Proof. destruct n; simpl; [done|]. by intros ->. Qed.

Lemma strip_suffix n l : ∃ p, l = p ++ strip n pats l.
Proof.
  clear Hne. revert l; induction n as [|n IH]; intros l; simpl; [by exists []|].
  destruct (strip_one pats l) as [l'|] eqn:E; [|by exists []].
  apply strip_one_Some in E as (p & _ & ->). destruct (IH l') as [q Hq].
  exists (p ++ q). rewrite <- app_assoc. by rewrite <- Hq.
Qed.

(** A prefix of a stripped list is stripped. *)
Lemma strip_one_prefix l l' : strip_one pats (l ++ l') = None → strip_one pats l = None.
Proof.
  rewrite !strip_one_None. intros H p q Hp ->. eapply H; [done|]. by rewrite <- app_assoc.
Qed.
End strip_facts.

Lemma TrimSpace_idem s : TrimSpace (TrimSpace s) = TrimSpace s.
Proof.
  unfold TrimSpace at 1. unfold TrimSpace at 1. rewrite list_ascii_of_string_of_list_ascii.
  set (l := trim_left white_space (list_ascii_of_string s)).
  set (r := trim_left (reverse <$> white_space) (reverse l)).
  assert (Hr : strip_one (reverse <$> white_space) r = None)
    by (apply strip_done; [vm_compute; set_solver|done]).
  assert (Hl : strip_one white_space (reverse r) = None).
  { destruct (strip_suffix (reverse <$> white_space) (length (reverse l)) (reverse l)) as [p Hp].
    apply (strip_one_prefix _ _ (reverse p)). rewrite <- reverse_app.
    unfold r, trim_left. rewrite <- Hp, reverse_involutive.
    apply strip_done; [vm_compute; set_solver|done]. }
  unfold trim_left at 2. rewrite (strip_None _ _ _ Hl), reverse_involutive.
  unfold trim_left at 1. by rewrite (strip_None _ _ _ Hr).
Qed.

(** ** Stable sorting by a three-way comparison ([slices.SortStableFunc]) *)
Section stable_sort.
Context {A : Type} (cmp : A → A → comparison).

Definition cmp_le (x y : A) : Prop := cmp x y ≠ Gt.

Fixpoint stable_insert (x : A) (l : list A) : list A :=
  match l with
  | [] => [x]
  | y :: l' => match cmp x y with Gt => y :: stable_insert x l' | _ => x :: l end
  end.
Definition stable_sort (l : list A) : list A := foldr stable_insert [] l.

Lemma stable_insert_perm x l : stable_insert x l ≡ₚ x :: l.
Proof.
  induction l as [|y l IH]; simpl; [done|]. destruct (cmp x y); [done..|].
  rewrite IH. constructor.
Qed.
Lemma stable_sort_perm l : stable_sort l ≡ₚ l.
Proof. induction l as [|x l IH]; simpl; [done|]. by rewrite stable_insert_perm, IH. Qed.
Lemma stable_sort_elem x l : x ∈ stable_sort l ↔ x ∈ l.
Proof. by rewrite stable_sort_perm. Qed.

(** With a comparison that is a total preorder, the result is ascending. *)
Lemma stable_sort_sorted l :
  (∀ x y, cmp x y = Gt → cmp_le y x) → Transitive cmp_le → StronglySorted cmp_le (stable_sort l).
Proof.
  intros Htot Htr. induction l as [|x l IH]; simpl; [constructor|].
  revert IH. generalize (stable_sort l) as k. clear l. intros k.
  induction 1 as [|y k Hs IH Hf]; simpl; [repeat constructor|].
  destruct (cmp x y) eqn:E.
  3: { constructor; [done|]. apply Forall_forall. intros z.
       rewrite stable_insert_perm, elem_of_cons. intros [->|Hz]; [auto|].
       rewrite Forall_forall in Hf. auto. }
  all: assert (cmp_le x y) by (unfold cmp_le; congruence).
  all: constructor; [by constructor|constructor; [done|]].
  all: eapply Forall_impl; [exact Hf|]; simpl; intros z ?; by transitivity y.
Qed.
End stable_sort.

(** ** Three-way comparisons that are total preorders

    [slices.SortStableFunc] asks its comparison to be a strict weak order. The
    class states it, and its instances build one from others the way the sources
    do: by a projection, one after another, and element by element on a list. *)
Class Comparison {A} (cmp : A → A → comparison) : Prop := {
  cmp_opp x y : cmp y x = CompOpp (cmp x y);
  cmp_lt_trans x y z : cmp x y = Lt → cmp y z = Lt → cmp x z = Lt;
  cmp_eq_l x y z : cmp x y = Eq → cmp x z = cmp y z;
}.

Definition cmp_on {A B} (f : A → B) (cmp : B → B → comparison) (x y : A) : comparison := cmp (f x) (f y).
Definition cmp_then {A} (c1 c2 : A → A → comparison) (x y : A) : comparison :=
  match c1 x y with Eq => c2 x y | c => c end.
Fixpoint cmp_list {A} (cmp : A → A → comparison) (a b : list A) : comparison :=
  match a, b with
  | [], [] => Eq
  | [], _ :: _ => Lt
  | _ :: _, [] => Gt
  | x :: a, y :: b => match cmp x y with Eq => cmp_list cmp a b | c => c end
  end.

Section comparison_facts.
Context {A : Type} {cmp : A → A → comparison} `{!Comparison cmp}.

Lemma cmp_refl x : cmp x x = Eq.
Proof. pose proof (cmp_opp x x) as Hx. destruct (cmp x x); simpl in *; congruence. Qed.
Lemma cmp_eq_r x y z : cmp x y = Eq → cmp z x = cmp z y.
Proof. intros Hxy. rewrite (cmp_opp x z), (cmp_opp y z). by rewrite (cmp_eq_l x y z). Qed.
Lemma cmp_gt_le x y : cmp x y = Gt → cmp_le cmp y x.
Proof. intros Hxy. unfold cmp_le. rewrite (cmp_opp x y), Hxy. done. Qed.
#[export] Instance cmp_le_trans : Transitive (cmp_le cmp).
Proof.
  intros x y z Hxy Hyz. unfold cmp_le in *.
  destruct (cmp x y) eqn:E1; [by rewrite (cmp_eq_l x y)| |done].
  destruct (cmp y z) eqn:E2; [by rewrite <- (cmp_eq_r y z x), E1| |done].
  by rewrite (cmp_lt_trans x y z).
Qed.
Lemma stable_sort_ascending l : StronglySorted (cmp_le cmp) (stable_sort cmp l).
Proof. apply stable_sort_sorted; [apply cmp_gt_le|apply _]. Qed.

#[export] Instance cmp_on_good {B} (f : B → A) : Comparison (cmp_on f cmp).
Proof.
  split; unfold cmp_on; intros;
    [apply cmp_opp|by eapply cmp_lt_trans|by apply cmp_eq_l].
Qed.
#[export] Instance cmp_list_good : Comparison (cmp_list cmp).
Proof.
  split.
  - intros x; induction x as [|a x IH]; intros [|b y]; simpl; try done.
    rewrite (cmp_opp (cmp := cmp) a b). destruct (cmp a b); simpl; auto.
  - intros x; induction x as [|a x IH]; intros [|b y] [|c z]; simpl; try done.
    destruct (cmp a b) eqn:E1; [| |done].
    + rewrite (cmp_eq_l (cmp := cmp) a b c) by done. destruct (cmp b c); eauto.
    + destruct (cmp b c) eqn:E2; [|by rewrite (cmp_lt_trans (cmp := cmp) a b c)|done].
      rewrite <- (cmp_eq_r b c a), E1 by done. done.
  - intros x; induction x as [|a x IH]; intros [|b y] [|c z]; simpl; try done.
    destruct (cmp a b) eqn:E1; try done. intros Hxy.
    rewrite (cmp_eq_l (cmp := cmp) a b c) by done. destruct (cmp b c); auto.
Qed.
End comparison_facts.

#[export] Instance cmp_then_good {A} (c1 c2 : A → A → comparison) :
  Comparison c1 → Comparison c2 → Comparison (cmp_then c1 c2).
Proof.
  intros H1 H2. split; unfold cmp_then.
  - intros x y. rewrite (cmp_opp (cmp := c1) x y). destruct (c1 x y); simpl; auto using cmp_opp.
  - intros x y z. destruct (c1 x y) eqn:E1; [| |done].
    + rewrite (cmp_eq_l (cmp := c1) x y z) by done. destruct (c1 y z); eauto using cmp_lt_trans.
    + destruct (c1 y z) eqn:E2; [|by rewrite (cmp_lt_trans (cmp := c1) x y z)|done].
      rewrite <- (cmp_eq_r (cmp := c1) y z x), E1 by done. done.
  - intros x y z. destruct (c1 x y) eqn:E1; try done. intros Hxy.
    rewrite (cmp_eq_l (cmp := c1) x y z) by done. destruct (c1 y z); auto using cmp_eq_l.
Qed.

(** The first [n] of an ascending list hold every element that comes strictly
    before one of them. *)
Lemma take_sorted_closed {A} (cmp : A → A → comparison) `{!Comparison cmp} n (l : list A) x y :
  StronglySorted (cmp_le cmp) l → x ∈ take n l → y ∈ l → cmp y x = Lt → y ∈ take n l.
Proof.
  intros Hs Hx Hy Hlt. rewrite <-(take_drop n l) in Hy, Hs. apply elem_of_app in Hy as [|Hy]; [done|].
  exfalso. apply StronglySorted_app in Hs as (Hs & _ & _). specialize (Hs _ _ Hx Hy).
  unfold cmp_le in Hs. by rewrite (cmp_opp y x), Hlt in Hs.
Qed.

#[export] Instance Z_compare_good : Comparison Z.compare.
Proof.
  split.
  - intros x y. apply Z.compare_antisym.
  - intros x y z. rewrite !Z.compare_lt_iff. lia.
  - intros x y z. rewrite Z.compare_eq_iff. by intros ->.
Qed.
#[export] Instance nat_compare_good : Comparison Nat.compare.
Proof.
  split.
  - intros x y. apply Nat.compare_antisym.
  - intros x y z. rewrite !Nat.compare_lt_iff. lia.
  - intros x y z. rewrite Nat.compare_eq_iff. by intros ->.
Qed.

#[export] Instance ascii_compare_good : Comparison Ascii.compare.
Proof.
  unfold Ascii.compare. split.
  - intros x y. apply N.compare_antisym.
  - intros x y z. rewrite !N.compare_lt_iff. lia.
  - intros x y z. rewrite N.compare_eq_iff. by intros ->.
Qed.

Lemma string_compare_bytes s t :
  String.compare s t = cmp_on list_ascii_of_string (cmp_list Ascii.compare) s t.
Proof. unfold cmp_on. revert t; induction s as [|a s IH]; intros [|b t]; simpl; try done. by rewrite IH. Qed.

#[export] Instance string_compare_good : Comparison String.compare.
Proof.
  split.
  - intros x y. rewrite !string_compare_bytes. apply cmp_opp.
  - intros x y z. rewrite !string_compare_bytes. apply cmp_lt_trans.
  - intros x y z. rewrite !string_compare_bytes. apply cmp_eq_l.
Qed.

(** ** Prefixes and separators *)
Lemma string_app_nil (t : string) : "" +:+ t = t.
Proof. reflexivity. Qed.
Lemma string_app_cons a (s t : string) : String a s +:+ t = String a (s +:+ t).
Proof. reflexivity. Qed.

Lemma string_app_assoc (s t u : string) : (s +:+ t) +:+ u = s +:+ t +:+ u.
Proof. induction s as [|a s IH]; [done|]. rewrite !string_app_cons. by rewrite IH. Qed.

Lemma string_app_inj (s t u : string) : s +:+ t = s +:+ u → t = u.
Proof. induction s as [|a s IH]; [done|]. rewrite !string_app_cons. intros [= E]. auto. Qed.

Lemma HasPrefix_iff s p : HasPrefix s p = true ↔ ∃ u, s = p +:+ u.
Proof.
  unfold HasPrefix. revert s; induction p as [|a p IH]; intros s.
  { simpl. split; [intros _; by exists s|by destruct s]. }
  destruct s as [|b s]; simpl; [split; [done|intros [? [=]]]|].
  destruct (ascii_dec a b) as [->|Hne]; [rewrite IH|].
  - split; intros [u Hu]; exists u; [by rewrite Hu|]. rewrite string_app_cons in Hu. congruence.
  - split; [done|]. intros [u Hu]. rewrite string_app_cons in Hu. congruence.
Qed.

(** ** Loops *)
Lemma existsb_elem {A} (f : A → bool) (l : list A) : existsb f l = true ↔ ∃ x, x ∈ l ∧ f x = true.
Proof.
  rewrite existsb_exists. split; intros (x & ? & ?); exists x; (split; [by apply list_elem_of_In|done]).
Qed.
Lemma existsb_dec {A} (P : A → Prop) `{!∀ x, Decision (P x)} (l : list A) :
  existsb (λ x, bool_decide (P x)) l = true ↔ ∃ x, x ∈ l ∧ P x.
Proof. rewrite existsb_elem. by setoid_rewrite bool_decide_eq_true. Qed.

Lemma filter_none {A} (P : A → Prop) `{!∀ x, Decision (P x)} (l : list A) : (∀ x, x ∈ l → ¬ P x) → filter P l = [].
Proof.
  induction l as [|x l IH]; intros Hno; [done|]. rewrite filter_cons_False; [|apply Hno; left].
  apply IH. intros y Hy. apply Hno. by right.
Qed.
Lemma filter_every {A} (P : A → Prop) `{!∀ x, Decision (P x)} (l : list A) : (∀ x, x ∈ l → P x) → filter P l = l.
Proof.
  induction l as [|x l IH]; intros Hall; [done|]. rewrite filter_cons_True; [|apply Hall; left]. f_equal.
  apply IH. intros y Hy. apply Hall. by right.
Qed.

(** ** Keys of a table *)
Lemma NoDup_fmap_snoc {A B} (f : A → B) l x : NoDup (f <$> l) → f x ∉ f <$> l → NoDup (f <$> (l ++ [x])).
Proof.
  intros Hl Hx. rewrite fmap_app. apply NoDup_app. split_and!; [done| |apply NoDup_singleton].
  intros y Hy ->%list_elem_of_singleton. done.
Qed.
Lemma NoDup_fmap_same {A B} (f : A → B) (h : A → A) l : (∀ x, f (h x) = f x) → NoDup (f <$> l) → NoDup (f <$> (h <$> l)).
Proof. intros Hf. by rewrite <-list_fmap_compose, (list_fmap_ext (f ∘ h) f l) by (intros; apply Hf). Qed.
Lemma NoDup_fmap_filter {A B} (f : A → B) (P : A → Prop) `{∀ x, Decision (P x)} l : NoDup (f <$> l) → NoDup (f <$> filter P l).
Proof. intros Hl. eapply sublist_NoDup; [exact Hl|]. apply fmap_sublist, sublist_filter. Qed.
Lemma filter_fmap {A B} (f : A → B) (P : B → Prop) `{∀ x, Decision (P x)} (l : list A) :
  filter P (f <$> l) = f <$> filter (λ x, P (f x)) l.
Proof.
  induction l as [|x l IH]; [done|]. csimpl. destruct (decide (P (f x))).
  - rewrite !filter_cons_True by done. csimpl. by f_equal.
  - by rewrite !filter_cons_False.
Qed.
Lemma NoDup_fewer {A B} (f : A → B) (P Q : A → Prop) `{∀ x, Decision (P x), ∀ x, Decision (Q x)} l :
  (∀ x, Q x → P x) → NoDup (f <$> filter P l) → NoDup (f <$> filter Q l).
Proof.
  intros Hq Hn. replace (filter Q l) with (filter Q (filter P l)); [by apply NoDup_fmap_filter|]. rewrite list_filter_filter.
  apply list_filter_iff. naive_solver.
Qed.
Lemma foldl_ext_in {A B} (f g : A → B → A) (l : list B) (a : A) :
  (∀ a x, x ∈ l → f a x = g a x) → foldl f a l = foldl g a l.
Proof.
  revert a; induction l as [|x l IH]; intros a Hfg; simpl; [done|].
  rewrite Hfg by left. apply IH. intros. apply Hfg. by right.
Qed.

(** ** Text up to a separator byte *)
Fixpoint lacks (c : ascii) (s : string) : Prop :=
  match s with EmptyString => True | String a s => a ≠ c ∧ lacks c s end.

Lemma lacks_split c x y a b :
  lacks c x → lacks c y → x +:+ String c a = y +:+ String c b → x = y ∧ a = b.
Proof.
  revert y; induction x as [|d x IH]; intros [|e y] Hx Hy;
    rewrite ?string_app_cons, ?string_app_nil; intros E; injection E.
  - intros ->. done.
  - intros _ <-. by destruct Hy.
  - intros _ ->. by destruct Hx.
  - intros E' ->. apply IH in E' as [-> ->]; [done|by destruct Hx|by destruct Hy].
Qed.
Lemma lacks_no_split c x y a : lacks c y → y ≠ x +:+ String c a.
Proof.
  revert y; induction x as [|d x IH]; intros [|e y] Hy E; rewrite ?string_app_cons in E; try done;
    injection E; destruct Hy as [? Hy]; [by intros _ ->|intros E' _; by eapply IH].
Qed.

(** The separator keys are joined on: ["\x00"], which no stored text holds. *)
Definition NUL : string := String (ascii_of_N 0) EmptyString.
Definition nul_free (s : string) : Prop := lacks (ascii_of_N 0) s.
Lemma nul_split x y a b :
  nul_free x → nul_free y → x +:+ NUL +:+ a = y +:+ NUL +:+ b → x = y ∧ a = b.
Proof. apply lacks_split. Qed.
Lemma nul_free_split x y a : nul_free y → y ≠ x +:+ NUL +:+ a.
Proof. apply lacks_no_split. Qed.

Lemma string_length_app a b : String.length (a +:+ b) = String.length a + String.length b.
Proof. induction a as [|c a IH]; [by rewrite string_app_nil|]. rewrite string_app_cons. simpl. by rewrite IH. Qed.
Lemma string_app_length_inj x y a b :
  String.length x = String.length y → x +:+ a = y +:+ b → x = y ∧ a = b.
Proof.
  revert y; induction x as [|c x IH]; intros [|d y] Hl E; try done.
  rewrite !string_app_cons in E. injection E as -> E. injection Hl as Hl.
  apply IH in E as [-> ->]; done.
Qed.

(** ** [strconv.Itoa] on a length: decimal digits, so never a colon *)
Definition Itoa (n : nat) : string := pretty n.

Lemma Itoa_inj n m : Itoa n = Itoa m → n = m.
Proof. apply (inj pretty). Qed.

Lemma pretty_N_go_lacks c n s :
  (∀ d, c ≠ pretty_N_char d) → lacks c s → lacks c (pretty_N_go n s).
Proof.
  intros Hc. revert s. induction (N.lt_wf_0 n) as [n _ IH]; intros s Hs.
  assert (n = 0 ∨ 0 < n)%N as [->|?] by lia; [by rewrite pretty_N_go_0|].
  rewrite pretty_N_go_step by done. apply IH; [by apply N.div_lt|]. split; [|done]. intros E. by apply (Hc _ (eq_sym E)).
Qed.
Lemma Itoa_lacks_colon n : lacks ":" (Itoa n).
Proof.
  unfold Itoa, pretty, pretty_nat, pretty, pretty_N. case_decide; [done|].
  apply pretty_N_go_lacks; [|done]. intros d. unfold pretty_N_char. by repeat case_match.
Qed.

(** Digits have no case. *)
Lemma ToLower_app x y : ToLower (x +:+ y) = ToLower x +:+ ToLower y.
Proof.
  induction x as [|a x IH]; [done|]. rewrite string_app_cons. unfold ToLower in *. cbn [list_ascii_of_string fmap list_fmap string_of_list_ascii].
  rewrite IH. by rewrite string_app_cons.
Qed.
Lemma pretty_N_go_lower n s : ToLower s = s → ToLower (pretty_N_go n s) = pretty_N_go n s.
Proof.
  revert s. induction (N.lt_wf_0 n) as [n _ IH]; intros s Hs.
  assert (n = 0 ∨ 0 < n)%N as [->|?] by lia; [by rewrite pretty_N_go_0|].
  rewrite pretty_N_go_step by done. apply IH; [by apply N.div_lt|]. 
  change (String (lower_byte (pretty_N_char (n `mod` 10))) (ToLower s) = String (pretty_N_char (n `mod` 10)) s).
  rewrite Hs. f_equal. unfold pretty_N_char. by repeat case_match.
Qed.
Lemma Itoa_lower n : ToLower (Itoa n) = Itoa n.
Proof. unfold Itoa, pretty, pretty_nat, pretty, pretty_N. case_decide; [done|]. by apply pretty_N_go_lower. Qed.
