(* ===== verification/Text.v ===== *)
(** * Text: what the program uses of strconv, strings and encoding/hex

    Decimal numbers read and printed, texts split on a byte, bytes as
    hexadecimal digits, and that each reading undoes its printing. *)

From S2P Require Import Prelude.

(** ** Bytes *)
Definition between (lo hi : N) (a : ascii) : bool := (lo <=? N_of_ascii a)%N && (N_of_ascii a <=? hi)%N.
Definition is_one_of (l : string) (a : ascii) : bool := bool_decide (a ∈ list_ascii_of_string l).

(** ** Numbers *)
(** strconv.ParseInt(s, 10, 64). *)
Definition digit_value (a : ascii) : option Z :=
  if between 48 57 a then Some (Z.of_N (N_of_ascii a) - 48)%Z else None.
Fixpoint parse_digits (acc : Z) (l : list ascii) : option Z :=
  match l with
  | [] => Some acc
  | a :: l => match digit_value a with Some d => parse_digits (10 * acc + d) l | None => None end
  end.
Definition ParseInt (s : string) : option Z :=
  let within (n : Z) := if bool_decide (- 2^63 <= n < 2^63)%Z then Some n else None in
  match list_ascii_of_string s with
  | [] => None
  | a :: l =>
      if is_one_of "+-" a then
        match l with [] => None | _ => n ← parse_digits 0 l; within (if a =? "-"%char then (- n)%Z else n) end
      else parse_digits 0 (a :: l) ≫= within
  end.

(** ** Splitting *)
Fixpoint split_on (c : ascii) (l : list ascii) : list (list ascii) :=
  match l with
  | [] => [[]]
  | a :: l => match split_on c l with
              | w :: ws => if a =? c then [] :: w :: ws else (a :: w) :: ws
              | [] => [[a]]
              end
  end.
(** strings.Split on one byte, and strings.Cut at its first occurrence. *)
Definition Split (s : string) (c : ascii) : list string := string_of_list_ascii <$> split_on c (list_ascii_of_string s).
Fixpoint cut_byte (c : ascii) (l : list ascii) : option (list ascii * list ascii) :=
  match l with
  | [] => None
  | a :: l => if a =? c then Some ([], l) else '(x, y) ← cut_byte c l; Some (a :: x, y)
  end.
Definition Cut (s : string) (c : ascii) : option (string * string) :=
  '(x, y) ← cut_byte c (list_ascii_of_string s); Some (string_of_list_ascii x, string_of_list_ascii y).

(** ** Hexadecimal *)
Definition hex_digit (n : N) : ascii := ascii_of_N (if (n <? 10)%N then 48 + n else 87 + n).
Definition hex_value (a : ascii) : option N :=
  if between 48 57 a then Some (N_of_ascii a - 48)%N
  else if between 97 102 a then Some (N_of_ascii a - 87)%N
  else if between 65 70 a then Some (N_of_ascii a - 55)%N
  else None.
Definition hex_encode (l : list ascii) : list ascii :=
  l ≫= λ a, [hex_digit (N_of_ascii a / 16); hex_digit (N_of_ascii a mod 16)].
Fixpoint hex_decode (l : list ascii) : option (list ascii) :=
  match l with
  | [] => Some []
  | h :: l => match l with
              | [] => None
              | o :: l => x ← hex_value h; y ← hex_value o; r ← hex_decode l; Some (ascii_of_N (16 * x + y) :: r)
              end
  end.
Definition EncodeToString (s : string) : string := string_of_list_ascii (hex_encode (list_ascii_of_string s)).
Definition DecodeString (s : string) : option string := string_of_list_ascii <$> hex_decode (list_ascii_of_string s).

(** ** Facts: splitting *)
Lemma split_on_ne c l : split_on c l ≠ [].
Proof. destruct l as [|a l]; [done|]. simpl. destruct (split_on c l); [done|]. by case_bool_decide. Qed.
Lemma split_on_snoc c l : split_on c (l ++ [c]) = split_on c l ++ [[]].
Proof.
  induction l as [|a l IH]; simpl; [by rewrite bool_decide_true|]. rewrite IH. destruct (split_on c l) as [|w ws] eqn:E; [by apply split_on_ne in E|].
  simpl. by case_bool_decide.
Qed.
Lemma list_ascii_app a b : list_ascii_of_string (a +:+ b) = list_ascii_of_string a ++ list_ascii_of_string b.
Proof. induction a as [|x a IH]; [done|]. change (x :: list_ascii_of_string (a +:+ b) = x :: (list_ascii_of_string a ++ list_ascii_of_string b)). by rewrite IH. Qed.
Lemma chars_inj s t : list_ascii_of_string s = list_ascii_of_string t → s = t.
Proof. intros E. by rewrite <- (string_of_list_ascii_of_string s), E, string_of_list_ascii_of_string. Qed.
Lemma split_on_one c l : c ∉ l → split_on c l = [l].
Proof.
  induction l as [|a l IH]; intros Hc; simpl; [done|]. rewrite IH by set_solver.
  by rewrite bool_decide_false by set_solver.
Qed.
Lemma split_on_app c x y : c ∉ x → split_on c (x ++ c :: y) = x :: split_on c y.
Proof.
  induction x as [|a x IH]; intros Hc; simpl.
  - destruct (split_on c y) as [|w ws] eqn:E; [by apply split_on_ne in E|]. by rewrite bool_decide_true.
  - rewrite IH by set_solver. by rewrite bool_decide_false by set_solver.
Qed.
Lemma cut_byte_app c x y : c ∉ x → cut_byte c (x ++ c :: y) = Some (x, y).
Proof.
  induction x as [|a x IH]; intros Hc; simpl; [by rewrite bool_decide_true|].
  rewrite bool_decide_false by set_solver. by rewrite IH by set_solver.
Qed.

(** ** Facts: every byte of these texts is a visible ASCII character *)
Definition visible (a : ascii) : Prop := between 33 126 a = true.
#[export] Instance visible_dec a : Decision (visible a).
Proof. unfold visible. apply _. Defined.

Definition not_visible (p : list ascii) : bool := match p with [] => false | a :: _ => negb (between 33 126 a) end.
Lemma strip_visible pats l :
  forallb not_visible pats = true → Forall visible l → strip_one pats l = None.
Proof.
  intros Hp Hl. apply strip_one_None. intros p l' Hin ->. rewrite forallb_forall in Hp.
  apply list_elem_of_In, Hp in Hin. destruct p as [|a p]; [done|]. simpl in Hin, Hl.
  inversion Hl as [|? ? Ha _]. by rewrite Ha in Hin.
Qed.
Lemma TrimSpace_visible s : Forall visible (list_ascii_of_string s) → TrimSpace s = s.
Proof.
  intros Hs. unfold TrimSpace, trim_left.
  rewrite (strip_None white_space) by (apply strip_visible; [by vm_compute|done]).
  rewrite (strip_None (reverse <$> white_space)) by (apply strip_visible; [by vm_compute|by apply Forall_reverse]).
  rewrite reverse_involutive. apply string_of_list_ascii_of_string.
Qed.

(** ** Facts: hexadecimal *)
Lemma all_bytes (P : ascii → Prop) `{!∀ a, Decision (P a)} :
  forallb (λ n, bool_decide (P (ascii_of_nat n))) (seq 0 256) = true → ∀ a, P a.
Proof.
  intros Hall a. rewrite forallb_forall in Hall. rewrite <- (ascii_nat_embedding a). eapply bool_decide_eq_true, Hall, in_seq.
  pose proof (nat_ascii_bounded a). lia.
Qed.
Lemma hex_byte a :
  (x ← hex_value (hex_digit (N_of_ascii a / 16)); y ← hex_value (hex_digit (N_of_ascii a mod 16)); Some (ascii_of_N (16 * x + y)))
    = Some a ∧
  (visible (hex_digit (N_of_ascii a / 16)) ∧ hex_digit (N_of_ascii a / 16) ≠ ","%char) ∧
  (visible (hex_digit (N_of_ascii a mod 16)) ∧ hex_digit (N_of_ascii a mod 16) ≠ ","%char).
Proof. revert a. apply (all_bytes (λ a, _ ∧ _ ∧ _)). vm_compute. reflexivity. Qed.
Lemma hex_decode_encode l : hex_decode (hex_encode l) = Some l.
Proof.
  induction l as [|a l IH]; [done|]. destruct (hex_byte a) as [E _].
  change (hex_encode (a :: l)) with
    (hex_digit (N_of_ascii a / 16) :: hex_digit (N_of_ascii a mod 16) :: hex_encode l).
  cbn [hex_decode]. rewrite IH. apply bind_Some in E as (x & -> & E). apply bind_Some in E as (y & -> & [= <-]). done.
Qed.
Lemma hex_visible l : Forall visible (hex_encode l) ∧ ","%char ∉ hex_encode l.
Proof.
  induction l as [|a l [IH1 IH2]]; [split; [constructor|set_solver]|].
  change (hex_encode (a :: l)) with
    (hex_digit (N_of_ascii a / 16) :: hex_digit (N_of_ascii a mod 16) :: hex_encode l).
  destruct (hex_byte a) as (_ & [H1 H3] & [H2 H4]). split; [by repeat constructor|]. set_solver.
Qed.

(** What encoding/hex writes it reads back. *)
Lemma DecodeString_EncodeToString s : DecodeString (EncodeToString s) = Some s.
Proof.
  unfold DecodeString, EncodeToString. rewrite list_ascii_of_string_of_list_ascii, hex_decode_encode. simpl.
  by rewrite string_of_list_ascii_of_string.
Qed.

(** ** Facts: decimals *)
Lemma digit_of_char d : (d < 10)%N → digit_value (pretty_N_char d) = Some (Z.of_N d) ∧ between 48 57 (pretty_N_char d) = true.
Proof.
  intros Hd. assert (H : forallb (λ n, let d := N.of_nat n in
    bool_decide (digit_value (pretty_N_char d) = Some (Z.of_N d) ∧ between 48 57 (pretty_N_char d) = true)) (seq 0 10) = true)
    by (vm_compute; reflexivity).
  rewrite forallb_forall in H. specialize (H (N.to_nat d) ltac:(apply in_seq; lia)). cbv zeta in H. rewrite N2Nat.id in H.
  by apply bool_decide_eq_true in H.
Qed.
Lemma parse_digits_pretty n s :
  parse_digits 0 (list_ascii_of_string (pretty_N_go n s)) = parse_digits (Z.of_N n) (list_ascii_of_string s).
Proof.
  revert s. induction (N.lt_wf_0 n) as [n _ IH]; intros s.
  assert (n = 0 ∨ 0 < n)%N as [->|Hn] by lia; [by rewrite pretty_N_go_0|].
  rewrite pretty_N_go_step by done. rewrite IH by (by apply N.div_lt). simpl.
  destruct (digit_of_char (n mod 10)%N) as [-> _]; [by apply N.mod_lt|]. f_equal.
  pose proof (N.div_mod n 10). lia.
Qed.
Lemma pretty_go_digits n s :
  Forall (λ a, between 48 57 a = true) (list_ascii_of_string s) →
  Forall (λ a, between 48 57 a = true) (list_ascii_of_string (pretty_N_go n s)).
Proof.
  revert s. induction (N.lt_wf_0 n) as [n _ IH]; intros s Hs.
  assert (n = 0 ∨ 0 < n)%N as [->|Hn] by lia; [by rewrite pretty_N_go_0|].
  rewrite pretty_N_go_step by done. apply IH; [by apply N.div_lt|]. constructor; [|done].
  apply digit_of_char. by apply N.mod_lt.
Qed.
Lemma pretty_digits (n : N) :
  Forall (λ a, between 48 57 a = true) (list_ascii_of_string (pretty n)) ∧ list_ascii_of_string (pretty n) ≠ [] ∧
  parse_digits 0 (list_ascii_of_string (pretty n)) = Some (Z.of_N n).
Proof.
  unfold pretty, pretty_N. case_decide as Hn; [subst; split_and!; [by repeat constructor|done|done]|].
  pose proof (parse_digits_pretty n "") as Hp. split_and!; [by apply pretty_go_digits| |done].
  intros E. rewrite E in Hp. injection Hp. lia.
Qed.
Lemma sign_not_digit a : between 48 57 a = true → is_one_of "+-" a = false.
Proof. revert a. apply (all_bytes (λ a, _ → _)). vm_compute. reflexivity. Qed.
Lemma digit_plain a : between 48 57 a = true → visible a ∧ a ≠ ","%char ∧ a ≠ "="%char.
Proof. revert a. apply (all_bytes (λ a, _ → _)). vm_compute. reflexivity. Qed.

(** What fmt prints of a 64-bit number strconv reads back. *)
Lemma ParseInt_pretty (z : Z) : (- 2 ^ 63 ≤ z < 2 ^ 63)%Z → ParseInt (pretty z) = Some z.
Proof.
  intros Hz. unfold ParseInt, pretty, pretty_Z. destruct z as [|p|p].
  - done.
  - change (pretty (N.pos p)) with (pretty (N.pos p)). destruct (pretty_digits (N.pos p)) as (Hd & Hne & Hp).
    destruct (list_ascii_of_string _) as [|a l]; [done|]. inversion Hd as [|? ? Ha _]. rewrite sign_not_digit by done.
    rewrite Hp. simpl. by rewrite bool_decide_true.
  - destruct (pretty_digits (N.pos p)) as (Hd & Hne & Hp). simpl.
    destruct (list_ascii_of_string _) as [|a l]; [done|]. rewrite Hp. simpl. by rewrite bool_decide_true.
Qed.
Lemma pretty_visible (z : Z) :
  Forall visible (list_ascii_of_string (pretty z)) ∧ ","%char ∉ list_ascii_of_string (pretty z) ∧ "="%char ∉ list_ascii_of_string (pretty z).
Proof.
  assert (H : ∀ n : N, Forall (λ a, visible a ∧ a ≠ ","%char ∧ a ≠ "="%char) (list_ascii_of_string (pretty n))).
  { intros n. destruct (pretty_digits n) as (Hd & _). eapply Forall_impl; [exact Hd|]. apply digit_plain. }
  assert (Hz : Forall (λ a, visible a ∧ a ≠ ","%char ∧ a ≠ "="%char) (list_ascii_of_string (pretty z))).
  { unfold pretty, pretty_Z. destruct z as [|p|p]; [by repeat constructor|apply H|]. simpl. constructor; [done|apply H]. }
  rewrite Forall_forall in Hz. split_and!; [apply Forall_forall; intros a Ha; by apply Hz|intros Ha..]; by destruct (Hz _ Ha) as (_ & ? & ?).
Qed.
