(* ===== verification/Json.v ===== *)
(** * Json: what the sources use of encoding/json

    [json_valid] is [json.Valid]: the recogniser of the JSON grammar as Go's
    scanner runs it (nesting at most 10000 deep, string bytes below 0x20
    refused, UTF-8 not checked). Claim rows use it on a fixed value. *)

From S2P Require Import Prelude.

Section recogniser.
Implicit Types l : list ascii.

Definition byte_is (n : N) (a : ascii) : bool := N_of_ascii a =? n.
Definition is_digit (a : ascii) : bool :=
  (48 <=? N_of_ascii a)%N && (N_of_ascii a <=? 57)%N.
Definition is_hex (a : ascii) : bool :=
  let n := N_of_ascii a in
  is_digit a || ((65 <=? n)%N && (n <=? 70)%N) || ((97 <=? n)%N && (n <=? 102)%N).
Definition is_json_space (a : ascii) : bool :=
  byte_is 32 a || byte_is 9 a || byte_is 13 a || byte_is 10 a.

Fixpoint skip_space l : list ascii :=
  match l with
  | a :: l' => if is_json_space a then skip_space l' else l
  | [] => []
  end.

Fixpoint skip_digits l : list ascii :=
  match l with
  | a :: l' => if is_digit a then skip_digits l' else l
  | [] => []
  end.

(** One digit or more. *)
Definition digits1 l : option (list ascii) :=
  match l with
  | a :: l' => if is_digit a then Some (skip_digits l') else None
  | [] => None
  end.

(** The rest of a string, after its opening quote. *)
Fixpoint string_rest l : option (list ascii) :=
  match l with
  | [] => None
  | a :: l' =>
      if byte_is 34 a then Some l'
      else if byte_is 92 a then
        match l' with
        | e :: l'' =>
            if existsb (λ n, byte_is n e) [98; 102; 110; 114; 116; 92; 47; 34]%N then string_rest l''
            else if byte_is 117 e then
              match l'' with
              | h1 :: h2 :: h3 :: h4 :: r =>
                  if is_hex h1 && is_hex h2 && is_hex h3 && is_hex h4 then string_rest r else None
              | _ => None
              end
            else None
        | [] => None
        end
      else if (N_of_ascii a <? 32)%N then None
      else string_rest l'
  end.

(** A number's optional fraction and exponent. *)
Definition exponent l : option (list ascii) :=
  match l with
  | e :: l' =>
      if byte_is 101 e || byte_is 69 e then
        match l' with
        | s :: l'' => if byte_is 43 s || byte_is 45 s then digits1 l'' else digits1 l'
        | [] => None
        end
      else Some l
  | [] => Some l
  end.
Definition fraction l : option (list ascii) :=
  match l with
  | d :: l' => if byte_is 46 d then digits1 l' ≫= exponent else exponent l
  | [] => Some l
  end.
Definition number l : option (list ascii) :=
  let body l :=
    match l with
    | a :: l' =>
        if byte_is 48 a then fraction l'
        else if is_digit a then fraction (skip_digits l')
        else None
    | [] => None
    end in
  match l with
  | a :: l' => if byte_is 45 a then body l' else body l
  | [] => None
  end.

Definition literal (w : string) l : option (list ascii) :=
  drop_prefix (list_ascii_of_string w) l.

Definition max_nesting : N := 10000.

(** One value, then the members of an array or object. [fuel] is
    twice the input's length plus one: two nested calls consume a byte. *)
Fixpoint value (fuel : nat) (depth : N) (l : list ascii) : option (list ascii) :=
  match fuel with
  | 0 => None
  | S fuel =>
      match skip_space l with
      | [] => None
      | a :: l' =>
          if byte_is 34 a then string_rest l'
          else if byte_is 91 a then
            if (max_nesting <=? depth)%N then None else
            match skip_space l' with
            | b :: r => if byte_is 93 b then Some r else elements fuel (depth + 1) l'
            | [] => None
            end
          else if byte_is 123 a then
            if (max_nesting <=? depth)%N then None else
            match skip_space l' with
            | b :: r => if byte_is 125 b then Some r else members fuel (depth + 1) l'
            | [] => None
            end
          else if byte_is 116 a then literal "rue" l'
          else if byte_is 102 a then literal "alse" l'
          else if byte_is 110 a then literal "ull" l'
          else number (a :: l')
      end
  end
with elements (fuel : nat) (depth : N) (l : list ascii) : option (list ascii) :=
  match fuel with
  | 0 => None
  | S fuel =>
      match value fuel depth l with
      | None => None
      | Some r =>
          match skip_space r with
          | b :: r' => if byte_is 44 b then elements fuel depth r'
                       else if byte_is 93 b then Some r' else None
          | [] => None
          end
      end
  end
with members (fuel : nat) (depth : N) (l : list ascii) : option (list ascii) :=
  match fuel with
  | 0 => None
  | S fuel =>
      match skip_space l with
      | q :: r =>
          if byte_is 34 q then
            match string_rest r with
            | None => None
            | Some r1 =>
                match skip_space r1 with
                | c :: r2 =>
                    if byte_is 58 c then
                      match value fuel depth r2 with
                      | None => None
                      | Some r3 =>
                          match skip_space r3 with
                          | b :: r4 => if byte_is 44 b then members fuel depth r4
                                       else if byte_is 125 b then Some r4 else None
                          | [] => None
                          end
                      end
                    else None
                | [] => None
                end
            end
          else None
      | [] => None
      end
  end.

Definition json_valid (s : string) : bool :=
  let l := list_ascii_of_string s in
  match value (S (2 * length l)) 0 l with
  | Some r => bool_decide (skip_space r = [])
  | None => false
  end.
End recogniser.

Definition json_quote : string := String (ascii_of_N 34) EmptyString.

Example json_valid_examples :
  json_valid <$>
    ["true"; " [1, -2.5e+3, null] "; json_quote +:+ "ab" +:+ json_quote; "{}"; "01"; "[1,]"; "tru";
     ""; json_quote; "[[],[[]]]"; "-"; "1."; "{" +:+ json_quote +:+ "a" +:+ json_quote +:+ ": 1}"] =
  [true; true; true; true; false; false; false; false; false; true; false; false; true].
Proof. vm_compute. reflexivity. Qed.
