(* ===== verification/Access.v ===== *)
(** * Access: the mapping-rule closure (backend/internal/access) *)

From S2P Require Import Prelude.

(** ** models.MappingRule, the fields the access core reads *)
Record MappingRule := {
  RuleID : string;
  SourceProject : string;
  SourceRole : string;
  TargetProject : string;
  TargetRole : string;
}.

#[export] Instance MappingRule_eq_dec : EqDecision MappingRule.
Proof. solve_decision. Defined.

(** ** time.Time as the access core uses it

    An instant, in nanoseconds since Go's zero time (1 January of year 1): the
    zero time is [0], [IsZero] is [= 0], [Equal] is [=] and [After] is [<].
    The location a [time.Time] also carries is never read here. *)
Abbreviation Time := Z.
Definition IsZero (t : Time) : bool := t =? 0%Z.

Definition Later (a b : Time) : Time :=
  if IsZero a || IsZero b then 0%Z
  else if (a <? b)%Z then b else a.

(** [lasts a b]: something that ends at [b] is held at least as long as
    something that ends at [a]; the zero time never ends. *)
Definition lasts (a b : Time) : Prop := b = 0%Z ∨ (a ≠ 0%Z ∧ (a ≤ b)%Z).

Section later_facts.
Implicit Types a b c : Time.

Lemma lasts_refl a : lasts a a.
Proof. unfold lasts. lia. Qed.
Lemma lasts_trans a b c : lasts a b → lasts b c → lasts a c.
Proof. unfold lasts. lia. Qed.
Lemma lasts_antisym a b : lasts a b → lasts b a → a = b.
Proof. unfold lasts. lia. Qed.

Lemma Later_cases a b : Later a b = a ∨ Later a b = b.
Proof. unfold Later, IsZero. repeat case_bool_decide; simpl; try case_match; auto. Qed.
Lemma Later_ub_l a b : lasts a (Later a b).
Proof.
  unfold Later, IsZero, lasts. repeat case_bool_decide; simpl; auto.
  destruct (Z.ltb_spec a b); lia.
Qed.
Lemma Later_ub_r a b : lasts b (Later a b).
Proof.
  unfold Later, IsZero, lasts. repeat case_bool_decide; simpl; auto.
  destruct (Z.ltb_spec a b); lia.
Qed.
Lemma Later_absorb a b : lasts b a → Later a b = a.
Proof.
  intros H. apply lasts_antisym; [|apply Later_ub_l].
  destruct (Later_cases a b) as [->| ->]; auto using lasts_refl.
Qed.
End later_facts.

#[export] Hint Resolve lasts_refl Later_ub_l Later_ub_r : syndra.

(** ** Ends, Closure and Fired

    Generic over the key type, as the Go functions are: [key] builds a key from
    a (project, role) pair. *)
Section closure.
Context {K : Type} `{Countable K} (key : string → string → K).

Definition src (r : MappingRule) : K := key (SourceProject r) (SourceRole r).
Definition tgt (r : MappingRule) : K := key (TargetProject r) (TargetRole r).

(** The body of the inner loop, on one rule: the map and the [changed] flag. *)
Definition ends_rule (st : gmap K Time * bool) (r : MappingRule) : gmap K Time * bool :=
  let '(out, changed) := st in
  match out !! src r with
  | None => (out, changed)
  | Some s =>
      match out !! tgt r with
      | None => (<[tgt r := s]> out, true)
      | Some cur =>
          let next := Later cur s in
          if next =? cur then (out, changed) else (<[tgt r := next]> out, true)
      end
  end.

(** One pass over the rules, [changed] starting false. *)
Definition ends_pass (rules : list MappingRule) (out : gmap K Time) : gmap K Time * bool :=
  foldl ends_rule (out, false) rules.

(** [for i := 0; i < n; i++ { ...; if !changed { break } }] *)
Fixpoint ends_loop (n : nat) (rules : list MappingRule) (out : gmap K Time) : gmap K Time :=
  match n with
  | 0 => out
  | S n =>
      let '(out', changed) := ends_pass rules out in
      if changed then ends_loop n rules out' else out'
  end.

Definition Ends (base : gmap K Time) (rules : list MappingRule) : gmap K Time :=
  ends_loop (length rules) rules base.

(** [held] keys of a Go [map[K]bool]: those mapped to true. *)
Definition dated_base (base : gmap K bool) : gmap K Time :=
  omap (λ held : bool, if held then Some 0%Z else None) base.

Definition Closure (base : gmap K bool) (rules : list MappingRule) : gmap K bool :=
  (λ _, true) <$> Ends (dated_base base) rules.

(** Indexing a Go [map[K]bool]: a missing key reads false. *)
Definition holds (m : gmap K bool) (k : K) : bool := default false (m !! k).

Definition Fired (closure : gmap K bool) (rules : list MappingRule) : list MappingRule :=
  List.filter (λ r, holds closure (src r)) rules.
End closure.

#[global] Arguments ends_rule : simpl never.

(** ** What the fixpoint means

    [derives rules base k e]: some base role that ends at [e] reaches [k] along
    a chain of rules. The specification of the closure, stated with no loop. *)
Section spec.
Context {K : Type} `{Countable K} (key : string → string → K).
Implicit Types (out base : gmap K Time) (rules : list MappingRule).

Inductive derives (rules : list MappingRule) (base : gmap K Time) : K → Time → Prop :=
| derives_base k e : base !! k = Some e → derives rules base k e
| derives_rule r e :
    r ∈ rules → derives rules base (src key r) e → derives rules base (tgt key r) e.

(** A chain of rules from [k] to [k']. *)
Fixpoint chain (k : K) (p : list MappingRule) (k' : K) : Prop :=
  match p with
  | [] => k = k'
  | r :: p => src key r = k ∧ chain (tgt key r) p k'
  end.

Lemma chain_app k p q k' : chain k (p ++ q) k' ↔ ∃ m, chain k p m ∧ chain m q k'.
Proof.
  revert k; induction p as [|r p IH]; simpl; intros k; [naive_solver|].
  rewrite IH. naive_solver.
Qed.

(** Every derivation follows a chain with no rule repeated, so one of at most
    [length rules] rules: the bound the loop relies on. *)
Lemma derives_simple_chain rules base k e :
  derives rules base k e →
  ∃ s p, base !! s = Some e ∧ chain s p k ∧ NoDup p ∧ p ⊆ rules.
Proof.
  induction 1 as [k e Hb|r e Hr _ (s & p & Hb & Hc & Hnd & Hin)].
  { exists k, []. repeat split; auto using NoDup_nil_2; set_solver. }
  destruct (decide (r ∈ p)) as [Hrp|Hrp].
  - apply list_elem_of_split in Hrp as (p1 & p2 & ->).
    apply chain_app in Hc as (m & Hc1 & Hm & _).
    exists s, (p1 ++ [r]). repeat split; [done| | |set_solver].
    + apply chain_app. exists m. simpl. naive_solver.
    + apply NoDup_app in Hnd as (? & Hd & ?). apply NoDup_app.
      repeat split; [done| |apply NoDup_singleton].
      intros x Hx ->%list_elem_of_singleton. eapply Hd; [done|]. left.
  - exists s, (p ++ [r]). repeat split; [done| | |set_solver].
    + apply chain_app. exists (src key r). simpl. naive_solver.
    + apply NoDup_app. repeat split; [done| |apply NoDup_singleton].
      intros x Hx ->%list_elem_of_singleton. done.
Qed.

Lemma derives_short_chain rules base k e :
  derives rules base k e →
  ∃ s p, base !! s = Some e ∧ chain s p k ∧ length p ≤ length rules ∧ p ⊆ rules.
Proof.
  intros (s & p & ? & ? & Hnd & ?)%derives_simple_chain. exists s, p.
  repeat split; auto. by apply submseteq_length, NoDup_submseteq.
Qed.

(** *** Monotonicity: [out ⊑ out'] when every role is held at least as long. *)
Definition covers out out' : Prop :=
  ∀ k e, out !! k = Some e → ∃ e', out' !! k = Some e' ∧ lasts e e'.

Lemma covers_refl out : covers out out.
Proof. intros k e ?. eauto with syndra. Qed.
Lemma covers_trans o1 o2 o3 : covers o1 o2 → covers o2 o3 → covers o1 o3.
Proof.
  intros H1 H2 k e (e' & ? & ?)%H1. edestruct H2 as (? & ? & ?); eauto using lasts_trans.
Qed.

Lemma ends_rule_covers out c r : covers out (ends_rule key (out, c) r).1.
Proof.
  intros k e Hk. unfold ends_rule. destruct (out !! src key r) as [s|] eqn:Hs; simpl; eauto with syndra.
  destruct (out !! tgt key r) as [cur|] eqn:Ht; simpl.
  - case_bool_decide; simpl; [eauto with syndra|].
    destruct (decide (tgt key r = k)) as [<-|]; simplify_map_eq; eauto with syndra.
  - destruct (decide (tgt key r = k)) as [<-|]; simplify_map_eq; eauto with syndra.
Qed.

Lemma foldl_ends_covers rules out c : covers out (foldl (ends_rule key) (out, c) rules).1.
Proof.
  revert out c; induction rules as [|r rules IH]; intros out c; simpl; [apply covers_refl|].
  destruct (ends_rule key (out, c) r) as [o' c'] eqn:E.
  eapply covers_trans; [|apply IH]. pose proof (ends_rule_covers out c r) as Hc. by rewrite E in Hc.
Qed.

(** A rule, once run, has carried its source's end to its target. *)
Lemma ends_rule_carries out c r s :
  out !! src key r = Some s →
  ∃ e, (ends_rule key (out, c) r).1 !! tgt key r = Some e ∧ lasts s e.
Proof.
  intros Hs. unfold ends_rule. rewrite Hs. destruct (out !! tgt key r) as [cur|] eqn:Ht; simpl.
  - case_bool_decide as Heq; simpl.
    + exists cur. split; [done|]. rewrite <- Heq. apply Later_ub_r.
    + rewrite lookup_insert_eq. eexists. split; [done|]. apply Later_ub_r.
  - simplify_map_eq. eauto with syndra.
Qed.

Lemma ends_pass_carries rules out r s :
  r ∈ rules → out !! src key r = Some s →
  ∃ e, (ends_pass key rules out).1 !! tgt key r = Some e ∧ lasts s e.
Proof.
  unfold ends_pass. generalize false as c.
  revert out s; induction rules as [|r' rules IH]; intros out s c Hr Hs; [set_solver|].
  simpl. apply elem_of_cons in Hr as [->|Hr].
  - destruct (ends_rule_carries out c r' s Hs) as (e & He & Hl).
    destruct (ends_rule key (out, c) r') as [o' c'].
    edestruct (foldl_ends_covers rules o' c') as (e' & ? & ?); [done|]. eauto using lasts_trans.
  - pose proof (ends_rule_covers out c r' _ _ Hs) as (s' & Hs' & Hl).
    destruct (ends_rule key (out, c) r') as [o' c'].
    edestruct (IH o' s' c') as (? & ? & ?); eauto using lasts_trans.
Qed.

(** *** The flag is sound: a pass that changed nothing is the identity. *)
Lemma ends_rule_false out c r o' :
  ends_rule key (out, c) r = (o', false) → o' = out ∧ c = false.
Proof. unfold ends_rule. repeat case_match; naive_solver. Qed.

Lemma foldl_ends_false rules out c o' :
  foldl (ends_rule key) (out, c) rules = (o', false) → o' = out.
Proof.
  revert out c; induction rules as [|r rules IH]; intros out c; [simpl; congruence|].
  simpl. destruct (ends_rule key (out, c) r) as [o1 c1] eqn:E. intros Hf.
  destruct c1.
  - exfalso. clear IH E. revert o1 Hf. induction rules as [|r' rules IH]; intros o1; [done|].
    simpl. destruct (ends_rule key (o1, true) r') as [o2 []] eqn:E'; [apply IH|].
    apply ends_rule_false in E' as [_ ?]. done.
  - apply ends_rule_false in E as [-> ->]. eauto.
Qed.

(** The early exit is only an optimisation: the loop is [n] whole passes. *)
Lemma ends_loop_iter n rules out :
  ends_loop key n rules out = Nat.iter n (λ o, (ends_pass key rules o).1) out.
Proof.
  revert out; induction n as [|n IH]; intros out; [done|].
  rewrite Nat.iter_succ_r. simpl. unfold ends_pass at 1.
  destruct (foldl _ _ rules) as [o' []] eqn:E; unfold ends_pass at 2; rewrite E; simpl; [apply IH|].
  apply foldl_ends_false in E as Ho. subst o'.
  symmetry. apply Nat.iter_invariant; [|done]. intros x ->. unfold ends_pass. by rewrite E.
Qed.

(** *** Soundness: no pass invents an end. *)
Lemma ends_rule_sound rules base out c r :
  r ∈ rules → (∀ k e, out !! k = Some e → derives rules base k e) →
  ∀ k e, (ends_rule key (out, c) r).1 !! k = Some e → derives rules base k e.
Proof.
  intros Hr Ho k e. unfold ends_rule. destruct (out !! src key r) as [s|] eqn:Hs; simpl; [|auto].
  assert (derives rules base (tgt key r) s) by (apply derives_rule; auto).
  destruct (out !! tgt key r) as [cur|] eqn:Ht; simpl; [case_bool_decide; simpl; [auto|]|].
  all: rewrite lookup_insert; case_decide; [|auto]; subst k; intros [= <-];
    try destruct (Later_cases cur s) as [->| ->]; auto.
Qed.

Lemma foldl_ends_sound rules base l out c :
  l ⊆ rules → (∀ k e, out !! k = Some e → derives rules base k e) →
  ∀ k e, (foldl (ends_rule key) (out, c) l).1 !! k = Some e → derives rules base k e.
Proof.
  revert out c; induction l as [|r l IH]; intros out c Hl Ho; [done|]. simpl.
  pose proof (ends_rule_sound rules base out c r ltac:(set_solver) Ho) as Hs.
  destruct (ends_rule key (out, c) r) as [o' c']. apply IH; [set_solver|exact Hs].
Qed.

Lemma Ends_sound rules base k e : Ends key base rules !! k = Some e → derives rules base k e.
Proof.
  unfold Ends. rewrite ends_loop_iter. generalize (length rules) as n. intros n. revert k e.
  induction n as [|n IH]; [by constructor|]. by apply foldl_ends_sound.
Qed.

(** *** Completeness: [i] passes carry every base end along [i] rules. *)
Lemma iter_complete rules base i s p k e :
  base !! s = Some e → chain s p k → p ⊆ rules → length p ≤ i →
  ∃ e', Nat.iter i (λ o, (ends_pass key rules o).1) base !! k = Some e' ∧ lasts e e'.
Proof.
  intros Hb. revert k p. induction i as [|i IH]; intros k p Hc Hp Hl.
  { destruct p; [|simpl in Hl; lia]. simpl in Hc. subst. eauto with syndra. }
  simpl. destruct (decide (p = [])) as [->|Hne].
  - edestruct (IH k []) as (e1 & He1 & Hl1); [done|done|simpl; lia|].
    apply (foldl_ends_covers rules _ false) in He1 as (? & ? & ?).
    eexists; split; eauto using lasts_trans.
  - destruct (exists_last Hne) as (q & r & ->). apply chain_app in Hc as (m & Hq & Hm & <-).
    rewrite length_app in Hl; simpl in Hl.
    edestruct (IH m q) as (e1 & He1 & Hl1); [done|set_solver|lia|].
    rewrite <- Hm in He1. apply (ends_pass_carries rules) in He1 as (? & ? & ?); [|set_solver].
    eexists; split; eauto using lasts_trans.
Qed.

Lemma Ends_complete rules base k e :
  derives rules base k e → ∃ e', Ends key base rules !! k = Some e' ∧ lasts e e'.
Proof.
  intros (s & p & Hb & Hc & Hl & Hp)%derives_short_chain.
  unfold Ends. rewrite ends_loop_iter. eauto using iter_complete.
Qed.

Lemma Ends_domain rules base k :
  is_Some (Ends key base rules !! k) ↔ ∃ e, derives rules base k e.
Proof.
  split; [intros [e ?]; eauto using Ends_sound|].
  intros [e (? & ? & _)%Ends_complete]. eauto.
Qed.
End spec.

(** The whole characterisation of one lookup. *)
Lemma Ends_lookup {K} `{Countable K} (key : string → string → K) base rules k e :
  Ends key base rules !! k = Some e ↔
  derives key rules base k e ∧ ∀ e', derives key rules base k e' → lasts e' e.
Proof.
  split.
  - intros He. split; [by apply Ends_sound|].
    intros e' (e2 & He2 & ?)%Ends_complete. by simplify_eq.
  - intros [Hd Hmax]. destruct (Ends_complete key rules base k e Hd) as (e' & He' & Hl).
    rewrite He'. f_equal. apply lasts_antisym; [|done]. eauto using Ends_sound.
Qed.

Lemma derives_ext {K} `{Countable K} (key : string → string → K) base rules rules' k e :
  (∀ r, r ∈ rules → r ∈ rules') → derives key rules base k e → derives key rules' base k e.
Proof. intros Hr. induction 1; [by constructor|apply derives_rule; auto]. Qed.

(** Reading the closure of a [map[K]bool]. *)
Section closure_facts.
Context {K : Type} `{Countable K} (key : string → string → K).
Implicit Types (base : gmap K bool) (rules : list MappingRule).

(** [reaches rules base k]: [k] is held in [base], or a chain of rules leads
    to it from something held. *)
Inductive reaches (rules : list MappingRule) (base : gmap K bool) : K → Prop :=
| reaches_base k : holds base k = true → reaches rules base k
| reaches_rule r : r ∈ rules → reaches rules base (src key r) → reaches rules base (tgt key r).

Lemma dated_base_lookup base k e :
  dated_base base !! k = Some e ↔ holds base k = true ∧ e = 0%Z.
Proof.
  unfold dated_base, holds. rewrite lookup_omap.
  destruct (base !! k) as [[]|]; simpl; naive_solver.
Qed.

Lemma derives_reaches rules base k :
  (∃ e, derives key rules (dated_base base) k e) ↔ reaches rules base k.
Proof.
  split.
  - intros [e Hd]. induction Hd as [k e Hb|]; [|by apply reaches_rule].
    apply dated_base_lookup in Hb as [? _]. by constructor.
  - induction 1 as [k Hb|r ? _ [e ?]].
    + exists 0%Z. constructor. by apply dated_base_lookup.
    + exists e. by apply derives_rule.
Qed.

Lemma holds_Closure base rules k :
  holds (Closure key base rules) k = true ↔ is_Some (Ends key (dated_base base) rules !! k).
Proof.
  unfold holds, Closure. rewrite lookup_fmap.
  destruct (Ends _ _ _ !! k); simpl; split; [eauto|done..|intros [? [=]]].
Qed.

Lemma Closure_reaches base rules k :
  holds (Closure key base rules) k = true ↔ reaches rules base k.
Proof. by rewrite holds_Closure, Ends_domain, derives_reaches. Qed.

Lemma Closure_lookup base rules k :
  Closure key base rules !! k = if holds (Closure key base rules) k then Some true else None.
Proof. unfold holds, Closure. rewrite lookup_fmap. by destruct (Ends _ _ _ !! k). Qed.

(** Two closures that hold the same keys are the same map. *)
Lemma Closure_ext b1 r1 b2 r2 :
  (∀ k, reaches r1 b1 k ↔ reaches r2 b2 k) → Closure key b1 r1 = Closure key b2 r2.
Proof.
  intros Hiff. apply map_eq. intros k. rewrite !Closure_lookup.
  enough (holds (Closure key b1 r1) k = holds (Closure key b2 r2) k) as -> by done.
  apply eq_true_iff_eq. by rewrite !Closure_reaches.
Qed.

Lemma reaches_mono rules rules' base base' k :
  rules ⊆ rules' → (∀ k, holds base k = true → holds base' k = true) →
  reaches rules base k → reaches rules' base' k.
Proof.
  intros Hr Hb. induction 1 as [k Hk|r ? _ ?]; [constructor; auto|apply reaches_rule; auto].
Qed.
End closure_facts.

(** ** people.go: who counts as gone *)
Definition gone_statuses : list string :=
  ["inactive"; "locked"; "deleted"; "departed"; "alumni"; "deactivated"].

Definition Left (status : string) : bool :=
  bool_decide (ToLower (TrimSpace status) ∈ gone_statuses).

(** The statuses Zitadel emits (directory.normalizeUserState), and none at all. *)
Example Left_zitadel :
  Left <$> ["active"; "inactive"; "initial"; "locked"; "deleted"; "unspecified"; ""; " Locked "] =
  [false; true; false; true; true; false; false; true].
Proof. vm_compute. reflexivity. Qed.

(** ** The role key functions *)
Definition Role : Type := string * string.
Definition NewRole (projectID roleKey : string) : Role := (projectID, roleKey).

(** ** Properties *)

(** C38. [Ends] is the declarative closure with dates: a role is in the result
    with end [e] exactly when some base role ending at [e] reaches it along a
    chain of rules and no chain carries a later end (the zero time, "never
    ends", being the latest). In particular the loop's bound of [len(rules)]
    passes and its early exit lose nothing, cycles included. *)
Theorem Ends_spec {K} `{Countable K} (key : string → string → K) base rules k e :
  Ends key base rules !! k = Some e ↔
  derives key rules base k e ∧ ∀ e', derives key rules base k e' → lasts e' e.
Proof. apply Ends_lookup. Qed.

(** [Closure] is reachability: a role is in the closure exactly when it is
    held in the base (mapped to true) or a chain of rules leads to it from a
    held role. *)
Theorem Closure_spec {K} `{Countable K} (key : string → string → K) base rules k :
  holds (Closure key base rules) k = true ↔ reaches key rules base k.
Proof. apply Closure_reaches. Qed.

(** The order rules are listed in, and rules listed twice, never change
    who holds what or until when: [Ends] depends on the set of rules only. *)
Theorem Ends_rule_order {K} `{Countable K} (key : string → string → K) base rules rules' :
  (∀ r, r ∈ rules ↔ r ∈ rules') → Ends key base rules = Ends key base rules'.
Proof.
  intros Hiff. apply map_eq. intros k. apply option_eq. intros e.
  assert (Hd : ∀ k e, derives key rules base k e ↔ derives key rules' base k e)
    by (split; apply derives_ext; naive_solver).
  rewrite !Ends_lookup. by setoid_rewrite Hd.
Qed.

(** The demo rules of the witness: A -> B -> C and a cycle C -> B. *)
Definition demo_rule (s t : string) : MappingRule :=
  {| RuleID := s; SourceProject := "p"; SourceRole := s; TargetProject := "p"; TargetRole := t |}.

Lemma Ends_rule_order_witness :
  Ends NewRole {[ ("p", "a") := 7%Z ]} [demo_rule "a" "b"; demo_rule "b" "c"; demo_rule "c" "b"] =
  Ends NewRole {[ ("p", "a") := 7%Z ]} [demo_rule "c" "b"; demo_rule "b" "c"; demo_rule "a" "b"].
Proof. apply Ends_rule_order. intros r. rewrite !elem_of_cons, elem_of_nil. tauto. Defined.
