(* ===== verification/Claims.v ===== *)
(** * Claims: the token shape (backend/internal/claims/claims.go)

    Profiles, facts and the ordered object a token's claims are rendered into;
    [Shape], [Words], [RolesOnly], [Normalize] and [Validate]. Error messages are
    kept as constructors carrying the values the Go text interpolates. *)

From S2P Require Import Prelude Json.

(** ** Constants *)
Definition FormatArray : string := "array".
Definition FormatCSV : string := "csv".
Definition FormatSpaceDelimited : string := "space_delimited".

Definition KindRoles : string := "roles".
Definition KindAttribute : string := "attribute".
Definition KindStatic : string := "static".
Definition KindIfRole : string := "if_role".
Definition KindBundles : string := "bundles".
Definition KindRoleEnds : string := "role_ends".

Definition LandsBoth : string := "both".
Definition LandsAccessToken : string := "access_token".
Definition LandsUserinfo : string := "userinfo".

Definition FunctionPreAccessToken : string := "function/preaccesstoken".
Definition FunctionPreUserinfo : string := "function/preuserinfo".

Definition AttrUserID : string := "user_id".
Definition AttrProjectID : string := "project_id".
Definition AttrEmail : string := "email".
Definition AttrName : string := "name".
Definition AttrGivenName : string := "given_name".
Definition AttrFamilyName : string := "family_name".
Definition AttrUsername : string := "username".
Definition AttrIsServiceAccount : string := "is_service_account".
Definition AttrTitle : string := "title".
Definition AttrTeam : string := "team".
Definition AttrRoleCount : string := "role_count".
Definition AttrCompiledAt : string := "compiled_at".

Definition DefaultClaimName : string := "roles".
Definition DefaultFormat : string := FormatArray.

(** ** Profiles *)
Record RoleMap := { Key : string; As : string; Included : bool }.

Record Claim := {
  Path : list string;
  Kind : string;
  Source : string;     (* attribute: an Attr* constant *)
  RawValue : string;   (* static: the literal's bytes *)
  IfRoles : list string;
  Format : string;
}.

Record Profile := {
  Claims : list Claim;
  Roles : list RoleMap;
  IncludeNew : bool;
  Lands : string;
}.

#[export] Instance RoleMap_eq_dec : EqDecision RoleMap.
Proof. solve_decision. Defined.
#[export] Instance Claim_eq_dec : EqDecision Claim.
Proof. solve_decision. Defined.

Definition roles_row (path : list string) (format : string) : Claim :=
  {| Path := path; Kind := KindRoles; Source := ""; RawValue := ""; IfRoles := []; Format := format |}.

Definition Builtin : Profile :=
  {| Claims := [roles_row [DefaultClaimName] DefaultFormat]; Roles := [];
     IncludeNew := true; Lands := LandsBoth |}.

Definition Effective (app projectDefault : option Profile) : Profile :=
  match app, projectDefault with
  | Some p, _ => p
  | None, Some p => p
  | None, None => Builtin
  end.

(** The keys of a Go map that are not blank, ascending. *)
Definition sortedKeys {V} (m : gmap string V) : list string :=
  sort_strings (List.filter (λ k, TrimSpace k <>? "") (map_to_list m).*1).

(** [marshal] is [json.Marshal] on the static values' type. *)
Definition FromFlat {A} (marshal : A → option string)
    (claimName format : string) (attrs : gmap string string) (statics : gmap string A) : Profile :=
  let claimName := if TrimSpace claimName =? "" then DefaultClaimName else claimName in
  let format := if format =? "" then DefaultFormat else format in
  let attr k := {| Path := [k]; Kind := KindAttribute; Source := default "" (attrs !! k);
                   RawValue := ""; IfRoles := []; Format := "" |} in
  let static k := raw ← statics !! k ≫= marshal;
                  Some {| Path := [k]; Kind := KindStatic; Source := ""; RawValue := raw;
                          IfRoles := []; Format := "" |} in
  {| Claims := roles_row [TrimSpace claimName] format
                 :: (attr <$> sortedKeys attrs) ++ omap static (sortedKeys statics);
     Roles := []; IncludeNew := true; Lands := LandsBoth |}.

(** ** Facts and identity *)
Record Facts := {
  f_Roles : list string;
  UserID : string;
  ProjectID : string;
  Email : string;
  Name : string;
  GivenName : string;
  FamilyName : string;
  Username : string;
  Title : string;
  Team : string;
  CompiledAt : string;
  Bundles : list string;
  RoleEnds : gmap string string;
  IsServiceAccount : bool;
  machine : bool;
}.

Record Identity := {
  Human : bool;
  Machine : bool;
  i_GivenName : string;
  i_FamilyName : string;
  i_Username : string;
  i_Email : string;
}.

(** [if new != "" { old = new }] *)
Definition or_keep (new old : string) : string := if new <>? "" then new else old.

Definition Identify (f : Facts) (id : Identity) : Facts :=
  let given := if Machine id then "" else if Human id then or_keep (i_GivenName id) (GivenName f) else GivenName f in
  let family := if Machine id then "" else if Human id then or_keep (i_FamilyName id) (FamilyName f) else FamilyName f in
  let name := if Machine id then "" else if Human id then given +:+ " " +:+ family else Name f in
  {| f_Roles := f_Roles f; UserID := UserID f; ProjectID := ProjectID f;
     Email := or_keep (i_Email id) (Email f);
     Name := name; GivenName := given; FamilyName := family;
     Username := or_keep (i_Username id) (Username f);
     Title := Title f; Team := Team f; CompiledAt := CompiledAt f; Bundles := Bundles f;
     RoleEnds := RoleEnds f; IsServiceAccount := IsServiceAccount f;
     machine := if Machine id then true else machine f |}.

(** ** Values and the ordered object

    A claim's value as the Go code boxes it into [any]. An object is its
    key/value pairs in first-set order ([Object.keys] with [Object.vals]). *)
Inductive Value :=
  | VStrings (l : list string)
  | VText (s : string)
  | VInt (n : Z)
  | VBool (b : bool)
  | VRaw (bytes : string)
  | VObject (o : list (string * Value)).

Abbreviation Object := (list (string * Value)).

Fixpoint Get {V} (o : list (string * V)) (k : string) : option V :=
  match o with
  | [] => None
  | (k', v) :: o => if k =? k' then Some v else Get o k
  end.

Fixpoint Set_ {V} (o : list (string * V)) (k : string) (v : V) : list (string * V) :=
  match o with
  | [] => [(k, v)]
  | (k', v') :: o => if k =? k' then (k', v) :: o else (k', v') :: Set_ o k v
  end.

Definition FormatRoles (roles : list string) (format : string) : Value :=
  if format =? FormatCSV then VText (Join roles ",")
  else if format =? FormatSpaceDelimited then VText (Join roles " ")
  else VStrings roles.

Definition LandsIn (p : Profile) (function : string) : bool :=
  if function =? FunctionPreAccessToken then Lands p <>? LandsUserinfo
  else if function =? FunctionPreUserinfo then Lands p <>? LandsAccessToken
  else true.

(** ** Roles in an application's words *)
Definition word (m : RoleMap) : string :=
  if TrimSpace (As m) <>? "" then TrimSpace (As m) else Key m.

(** The [add] closure: append unless seen ([seen] is always the set of [out]). *)
Definition add_word (out : list string) (w : string) : list string :=
  if bool_decide (w ∈ out) then out else out ++ [w].

Definition Words (p : Profile) (held : list string) : list string :=
  let out := foldl (λ out m, if Included m && bool_decide (Key m ∈ held) then add_word out (word m) else out)
                   [] (Roles p) in
  if IncludeNew p then
    foldl (λ out r, if negb (bool_decide (r ∈ (Key <$> Roles p))) then add_word out r else out) out held
  else out.

Fixpoint role_in (l : list RoleMap) (includeNew : bool) (key : string) : bool * string :=
  match l with
  | [] => (includeNew, key)
  | m :: l => if Key m =? key then (Included m, word m) else role_in l includeNew key
  end.
Definition role (p : Profile) (key : string) : bool * string := role_in (Roles p) (IncludeNew p) key.

(** [slices.Compact] on a list: runs of equal elements become one. *)
Fixpoint Compact (l : list string) : list string :=
  match l with
  | [] => []
  | x :: l' => match l' with
               | y :: _ => if x =? y then Compact l' else x :: Compact l'
               | [] => [x]
               end
  end.
Definition RoleSet (roles : list string) : list string := Compact (sort_strings roles).

(** The attributes the token's own payload carries. *)
Definition fromToken : list string :=
  [AttrUserID; AttrProjectID; AttrRoleCount; AttrGivenName; AttrFamilyName; AttrName; AttrUsername; AttrEmail].

(** A row that needs Syndra's facts. *)
Definition needs_facts (c : Claim) : bool :=
  (Kind c =? KindBundles) || (Kind c =? KindRoleEnds)
  || ((Kind c =? KindAttribute) && negb (bool_decide (Source c ∈ fromToken))).

Definition RolesOnly (p : Profile) : Profile :=
  {| Claims := List.filter (λ c, negb (needs_facts c)) (Claims p);
     Roles := Roles p; IncludeNew := IncludeNew p; Lands := Lands p |}.

(** ** Rendering *)
Definition text (s : string) : option Value := if s <>? "" then Some (VText s) else None.
Definition name_text (f : Facts) (s : string) : option Value :=
  if (s <>? "") || machine f then Some (VText s) else None.

Definition attributeValue (source : string) (f : Facts) : option Value :=
  if source =? AttrUserID then text (UserID f)
  else if source =? AttrProjectID then text (ProjectID f)
  else if source =? AttrEmail then text (Email f)
  else if source =? AttrName then name_text f (Name f)
  else if source =? AttrGivenName then name_text f (GivenName f)
  else if source =? AttrFamilyName then name_text f (FamilyName f)
  else if source =? AttrUsername then text (Username f)
  else if source =? AttrTitle then text (Title f)
  else if source =? AttrTeam then text (Team f)
  else if source =? AttrCompiledAt then text (CompiledAt f)
  else if source =? AttrRoleCount then Some (VInt (Z.of_nat (length (f_Roles f))))
  else if source =? AttrIsServiceAccount then Some (VBool (IsServiceAccount f))
  else None.

(** The role-ends object: for each held role that ends and that the app sees,
    its word with the latest date. *)
Definition add_role_end (p : Profile) (f : Facts) (ends : list (string * string)) (r : string)
    : list (string * string) :=
  match RoleEnds f !! r with
  | None => ends
  | Some date =>
      let '(included, w) := role p r in
      if included then
        match Get ends w with
        | None => Set_ ends w date
        | Some prev => if String.ltb prev date then Set_ ends w date else ends
        end
      else ends
  end.
Definition role_ends (p : Profile) (f : Facts) : list (string * string) :=
  foldl (add_role_end p f) [] (f_Roles f).

Definition claim_value (c : Claim) (p : Profile) (f : Facts) : option Value :=
  if Kind c =? KindRoles then Some (FormatRoles (Words p (f_Roles f)) (Format c))
  else if Kind c =? KindAttribute then attributeValue (Source c) f
  else if Kind c =? KindStatic then
    if RawValue c =? "" then None else Some (VRaw (RawValue c))
  else if Kind c =? KindIfRole then
    Some (VBool (existsb (λ r, existsb (λ want, r =? want) (IfRoles c)) (f_Roles f)))
  else if Kind c =? KindBundles then Some (VStrings (Bundles f))
  else if Kind c =? KindRoleEnds then
    Some (VObject (prod_map id VText <$> role_ends p f))
  else None.

(** [place]: set a leaf at a path, merging shared parents; a parent already
    holding a non-object is left alone, and so is a leaf already taken. *)
Fixpoint place (o : Object) (path : list string) (v : Value) : Object :=
  match path with
  | [] => o
  | seg :: rest =>
      match rest with
      | [] => match Get o seg with Some _ => o | None => Set_ o seg v end
      | _ :: _ =>
          match Get o seg with
          | None => Set_ o seg (VObject (place [] rest v))
          | Some (VObject child) => Set_ o seg (VObject (place child rest v))
          | Some _ => o
          end
      end
  end.

Fixpoint rolesKey_from (nested : string) (claims : list Claim) : string :=
  match claims with
  | [] => nested
  | c :: claims =>
      match Path c with
      | [] => rolesKey_from nested claims
      | [k] => if Kind c <>? KindRoles then rolesKey_from nested claims else k
      | k :: _ => if Kind c <>? KindRoles then rolesKey_from nested claims
                  else rolesKey_from (if nested =? "" then k else nested) claims
      end
  end.
Definition RolesKey (claims : list Claim) : string := rolesKey_from "" claims.

Definition keyLess (a b : string) : comparison :=
  match String.compare (ToLower a) (ToLower b) with
  | Eq => String.compare a b
  | c => c
  end.

(** The comparison's loop over the segments both paths have, then their lengths. *)
Fixpoint paths_compare (a b : list string) : comparison :=
  match a, b with
  | x :: a, y :: b => match keyLess x y with Eq => paths_compare a b | c => c end
  | _, _ => Nat.compare (length a) (length b)
  end.

Definition row_compare (hero : string) (a b : Claim) : comparison :=
  match Path a, Path b with
  | [], _ | _, [] => Nat.compare (length (Path a)) (length (Path b))
  | x :: _, y :: _ =>
      match x =? hero, y =? hero with
      | true, false => Lt
      | false, true => Gt
      | _, _ => paths_compare (Path a) (Path b)
      end
  end.

Definition ordered (claims : list Claim) : list Claim :=
  stable_sort (row_compare (RolesKey claims)) claims.

Definition place_row (p : Profile) (f : Facts) (out : Object) (c : Claim) : Object :=
  match claim_value c p f with
  | Some v => match Path c with [] => out | _ => place out (Path c) v end
  | None => out
  end.

Definition Shape (p : Profile) (f : Facts) : Object :=
  foldl (place_row p f) [] (ordered (Claims p)).

(** ** Attributes, normalisation and validation *)
Definition Attributes : list string :=
  [AttrGivenName; AttrFamilyName; AttrName; AttrUsername; AttrEmail; AttrIsServiceAccount;
   AttrTitle; AttrTeam; AttrRoleCount; AttrCompiledAt; AttrUserID; AttrProjectID].
Definition KnownAttribute (source : string) : bool := bool_decide (source ∈ Attributes).

Definition normalize_claim (c : Claim) : Claim :=
  {| Path := TrimSpace <$> Path c; Kind := Kind c; Source := Source c; RawValue := RawValue c;
     IfRoles := IfRoles c;
     Format := if (Kind c =? KindRoles) && (Format c =? "") then FormatArray else Format c |}.
Definition normalize_role (m : RoleMap) : RoleMap :=
  {| Key := TrimSpace (Key m); As := TrimSpace (As m); Included := Included m |}.
Definition Normalize (p : Profile) : Profile :=
  {| Claims := normalize_claim <$> Claims p;
     Roles := normalize_role <$> Roles p;
     IncludeNew := IncludeNew p;
     Lands := if TrimSpace (Lands p) =? "" then LandsBoth else TrimSpace (Lands p) |}.

(** What a refusal says; each carries what the Go message interpolates. *)
Inductive Msg :=
  | MsgLands (got : string)
  | MsgRoleNeedsKey
  | MsgRoleTwice (key : string)
  | MsgWordUnusable (key : string)
  | MsgNeedsName
  | MsgBadName (seg : string)
  | MsgZitadelOwns (key : string)
  | MsgFormat (got : string)
  | MsgUnknownSource (got : string)
  | MsgFixedValue
  | MsgChooseRole
  | MsgUnknownKind (got : string)
  | MsgSentTwice (path : list string)
  | MsgIsObject (parent child : string).

(** [Validate]'s result: accepted, refused at a row (-1: the profile as a
    whole), or an index out of range (a Go panic). *)
Inductive Verdict := Accepted | Refused (row : Z) (msg : Msg) | Panics.

Definition maxDepth : nat := 4.

Definition claim_key_byte (len i : nat) (a : ascii) : bool :=
  let n := N_of_ascii a in
  if ((97 <=? n)%N && (n <=? 122)%N) || ((65 <=? n)%N && (n <=? 90)%N) || ((48 <=? n)%N && (n <=? 57)%N) then true
  else if byte_is 95 a || byte_is 45 a || byte_is 47 a || byte_is 58 a then true
  else if byte_is 46 a then negb ((i =? 0)%nat || (i =? len - 1)%nat)
  else false.

(** Every byte in turn, with its index: a byte of 0x80 and above is no ASCII
    character, so its rune falls to the default case whatever follows. *)
Fixpoint claim_key_bytes (len i : nat) (l : list ascii) : bool :=
  match l with
  | [] => true
  | a :: l => claim_key_byte len i a && claim_key_bytes len (S i) l
  end.
Definition validClaimKey (key : string) : bool :=
  negb ((key =? "") || (128 <? String.length key)%nat)
  && claim_key_bytes (String.length key) 0 (list_ascii_of_string key).

Definition zitadelOwns : list string := ["sub"; "aud"; "iss"; "exp"; "iat"; "nbf"; "jti"; "client_id"].
Definition ZitadelOwns (key : string) : bool :=
  bool_decide (key ∈ zitadelOwns) || HasPrefix key "urn:zitadel:iam".

Definition validateKind (c : Claim) : option Msg :=
  if Kind c =? KindRoles then
    if (Format c =? FormatArray) || (Format c =? FormatCSV) || (Format c =? FormatSpaceDelimited)
    then None else Some (MsgFormat (Format c))
  else if Kind c =? KindAttribute then
    if KnownAttribute (Source c) then None else Some (MsgUnknownSource (Source c))
  else if Kind c =? KindStatic then
    let v := TrimSpace (RawValue c) in
    if (v =? "") || negb (json_valid v) || HasPrefix v "{" || (v =? "null")
    then Some MsgFixedValue else None
  else if Kind c =? KindIfRole then
    match IfRoles c with [] => Some MsgChooseRole | _ => None end
  else if (Kind c =? KindBundles) || (Kind c =? KindRoleEnds) then None
  else Some (MsgUnknownKind (Kind c)).

Fixpoint validate_roles (seen : list string) (l : list RoleMap) : option Msg :=
  match l with
  | [] => None
  | m :: l =>
      if Key m =? "" then Some MsgRoleNeedsKey
      else if bool_decide (Key m ∈ seen) then Some (MsgRoleTwice (Key m))
      else if (128 <? String.length (As m))%nat
              || existsb (λ a, (N_of_ascii a <? 32)%N) (list_ascii_of_string (As m))
      then Some (MsgWordUnusable (Key m))
      else validate_roles (Key m :: seen) l
  end.

Definition validate_row (c : Claim) : option Msg :=
  match Path c with
  | [] => Some MsgNeedsName
  | top :: _ =>
      if (maxDepth <? length (Path c))%nat then Some MsgNeedsName
      else match List.find (λ seg, negb (validClaimKey seg)) (Path c) with
           | Some seg => Some (MsgBadName seg)
           | None => if ZitadelOwns top then Some (MsgZitadelOwns top) else validateKind c
           end
  end.

Fixpoint validate_rows (i : nat) (l : list Claim) : option (nat * Msg) :=
  match l with
  | [] => None
  | c :: l => match validate_row c with
              | Some m => Some (i, m)
              | None => validate_rows (S i) l
              end
  end.

Definition joined (c : Claim) : string := Join (Path c) NUL.

(** One inner iteration of the pairwise check: rows [ci] at [i], [cj] at [j]. *)
Definition validate_pair (i : nat) (ci : Claim) (j : nat) (cj : Claim) : Verdict :=
  if (i =? j)%nat then Accepted
  else if (joined ci =? joined cj) && (j <? i)%nat then Refused (Z.of_nat i) (MsgSentTwice (Path ci))
  else if HasPrefix (joined cj) (joined ci +:+ NUL) then
    match last (Path ci), Path cj !! length (Path ci) with
    | Some parent, Some child => Refused (Z.of_nat i) (MsgIsObject parent child)
    | _, _ => Panics
    end
  else Accepted.

Fixpoint validate_inner (i : nat) (ci : Claim) (j : nat) (l : list Claim) : Verdict :=
  match l with
  | [] => Accepted
  | cj :: l => match validate_pair i ci j cj with
               | Accepted => validate_inner i ci (S j) l
               | v => v
               end
  end.
Fixpoint validate_outer (i : nat) (l : list Claim) (all : list Claim) : Verdict :=
  match l with
  | [] => Accepted
  | ci :: l => match validate_inner i ci 0 all with
               | Accepted => validate_outer (S i) l all
               | v => v
               end
  end.

Definition Validate (p : Profile) : Verdict :=
  if negb ((Lands p =? LandsBoth) || (Lands p =? LandsAccessToken) || (Lands p =? LandsUserinfo))
  then Refused (-1)%Z (MsgLands (Lands p))
  else match validate_roles [] (Roles p) with
       | Some m => Refused (-1)%Z m
       | None =>
           match validate_rows 0 (Claims p) with
           | Some (i, m) => Refused (Z.of_nat i) m
           | None => validate_outer 0 (Claims p) (Claims p)
           end
       end.

(** ** Facts: the ordered object *)
Section object.
Context {V : Type}.
Implicit Types o : list (string * V).

Lemma Get_Set_eq o k v : Get (Set_ o k v) k = Some v.
Proof.
  induction o as [|[k' v'] o IH]; simpl; [by rewrite bool_decide_true|].
  case_bool_decide as Hk; simpl; [by rewrite bool_decide_true|]. by rewrite bool_decide_false.
Qed.
Lemma Get_Set_ne o k k' v : k ≠ k' → Get (Set_ o k v) k' = Get o k'.
Proof.
  intros Hne. induction o as [|[k2 v2] o IH]; simpl.
  - by rewrite bool_decide_false.
  - case_bool_decide; subst; simpl; [by rewrite !bool_decide_false|]. by rewrite IH.
Qed.
Lemma Get_None o k : Get o k = None ↔ k ∉ o.*1.
Proof.
  induction o as [|[k' v] o IH]; simpl; [set_solver|].
  case_bool_decide; [|rewrite IH]; set_solver.
Qed.
(** A new key goes last; a known one keeps its position. *)
Lemma keys_Set o k v : (Set_ o k v).*1 = if bool_decide (k ∈ o.*1) then o.*1 else o.*1 ++ [k].
Proof.
  induction o as [|[k' v'] o IH]; [done|]. csimpl.
  destruct (decide (k = k')) as [->|Hne]; [rewrite bool_decide_true by done|rewrite bool_decide_false by done]; csimpl.
  - rewrite bool_decide_true; [done|set_solver].
  - rewrite IH. repeat case_bool_decide; try done; set_solver.
Qed.
End object.

(** The value at a path: every step but the last through an object. *)
Fixpoint get_path (o : Object) (path : list string) : option Value :=
  match path with
  | [] => None
  | seg :: rest =>
      match rest with
      | [] => Get o seg
      | _ :: _ => match Get o seg with Some (VObject child) => get_path child rest | _ => None end
      end
  end.

(** [free o path]: [place] at [path] would land. *)
Fixpoint free (o : Object) (path : list string) : Prop :=
  match path with
  | [] => False
  | seg :: rest =>
      match rest with
      | [] => Get o seg = None
      | _ :: _ => match Get o seg with
                  | None => True
                  | Some (VObject child) => free child rest
                  | Some _ => False
                  end
      end
  end.

Definition apart (p q : list string) : Prop := ¬ p `prefix_of` q ∧ ¬ q `prefix_of` p.

Lemma apart_cons k k' p q : apart (k :: p) (k' :: q) → k ≠ k' ∨ apart p q.
Proof.
  intros [H1 H2]. destruct (decide (k = k')) as [->|]; [right|by left].
  split; intros ?; [apply H1|apply H2]; by apply prefix_cons.
Qed.
Lemma apart_sym p q : apart p q → apart q p.
Proof. unfold apart. tauto. Qed.
Lemma not_apart_nil p : ¬ apart [] p.
Proof. intros [H _]. apply H, prefix_nil. Qed.

Lemma free_nil path : path ≠ [] → free [] path.
Proof. by destruct path as [|? [|??]]. Qed.
Lemma free_get_path o path : free o path → get_path o path = None.
Proof.
  revert o; induction path as [|k [|k2 rest] IH]; intros o; [done|simpl; done|].
  change (free o (k :: k2 :: rest)) with
    (match Get o k with None => True | Some (VObject c) => free c (k2 :: rest) | Some _ => False end).
  change (get_path o (k :: k2 :: rest)) with
    (match Get o k with Some (VObject c) => get_path c (k2 :: rest) | _ => None end).
  destruct (Get o k) as [[]|]; try done. apply IH.
Qed.

(** Unfolding at a path of two segments or more. *)
Lemma place_cons o k k2 rest v :
  place o (k :: k2 :: rest) v =
  match Get o k with
  | None => Set_ o k (VObject (place [] (k2 :: rest) v))
  | Some (VObject child) => Set_ o k (VObject (place child (k2 :: rest) v))
  | Some _ => o
  end.
Proof. reflexivity. Qed.
Lemma get_path_cons o k k2 rest :
  get_path o (k :: k2 :: rest) =
  match Get o k with Some (VObject child) => get_path child (k2 :: rest) | _ => None end.
Proof. reflexivity. Qed.
Lemma free_cons o k k2 rest :
  free o (k :: k2 :: rest) =
  match Get o k with None => True | Some (VObject child) => free child (k2 :: rest) | Some _ => False end.
Proof. reflexivity. Qed.

Lemma place_get_same o path v : free o path → get_path (place o path v) path = Some v.
Proof.
  revert o; induction path as [|k [|k2 rest] IH]; intros o; [done| |].
  - simpl. intros ->. apply Get_Set_eq.
  - rewrite free_cons, place_cons, get_path_cons. intros Hf.
    destruct (Get o k) as [[]|] eqn:E; try done; rewrite Get_Set_eq; apply IH; [done|by apply free_nil].
Qed.

Lemma place_Get_ne o k rest k' v : k ≠ k' → Get (place o (k :: rest) v) k' = Get o k'.
Proof.
  intros Hne. destruct rest as [|k2 rest]; simpl.
  - destruct (Get o k); [done|]. by apply Get_Set_ne.
  - destruct (Get o k) as [[]|]; try done; by apply Get_Set_ne.
Qed.

(** Placing at one path leaves every path apart from it as it was. *)
Lemma place_get_apart o path q v : apart path q → get_path (place o path v) q = get_path o q.
Proof.
  revert o q; induction path as [|k rest IH]; intros o q Ha; [by apply not_apart_nil in Ha|].
  destruct q as [|k' q]; [by apply apart_sym, not_apart_nil in Ha|].
  apply apart_cons in Ha as [Hne|Ha].
  - pose proof (place_Get_ne o k rest k' v Hne) as Hg.
    destruct q as [|k2 q]; [exact Hg|]. by rewrite !get_path_cons, Hg.
  - destruct rest as [|k2 rest]; [by apply not_apart_nil in Ha|].
    destruct q as [|q2 q]; [by apply apart_sym, not_apart_nil in Ha|].
    destruct (decide (k = k')) as [<-|Hne].
    + rewrite place_cons, !get_path_cons.
      destruct (Get o k) as [[]|] eqn:E; rewrite ?Get_Set_eq, ?E, ?IH by done; try done.
      by destruct q.
    + rewrite place_cons, !get_path_cons.
      destruct (Get o k) as [[]|] eqn:E; rewrite ?Get_Set_ne by done; done.
Qed.

Lemma place_free_apart o path q v : apart path q → free o q → free (place o path v) q.
Proof.
  revert o q; induction path as [|k rest IH]; intros o q Ha Hf; [by apply not_apart_nil in Ha|].
  destruct q as [|k' q]; [done|]. apply apart_cons in Ha as [Hne|Ha].
  - pose proof (place_Get_ne o k rest k' v Hne) as Hg.
    destruct q as [|k2 q]; [|by rewrite free_cons, Hg].
    change (Get (place o (k :: rest) v) k' = None). by rewrite Hg.
  - destruct rest as [|k2 rest]; [by apply not_apart_nil in Ha|].
    destruct q as [|q2 q]; [by apply apart_sym, not_apart_nil in Ha|].
    rewrite free_cons in Hf |- *. rewrite place_cons.
    destruct (decide (k = k')) as [<-|Hne].
    + destruct (Get o k) as [[]|] eqn:E; rewrite ?E, ?Get_Set_eq; try done; apply IH; try done.
      by apply free_nil.
    + destruct (Get o k) as [[]|] eqn:E; rewrite ?Get_Set_ne by done; done.
Qed.

(** ** Facts: rendering rows whose paths stand apart *)
Definition rows_apart (l : list Claim) : Prop :=
  (∀ c, c ∈ l → Path c ≠ []) ∧
  ∀ i j ci cj, l !! i = Some ci → l !! j = Some cj → i ≠ j → apart (Path ci) (Path cj).

Lemma rows_apart_cons c l :
  rows_apart (c :: l) ↔
  Path c ≠ [] ∧ (∀ c', c' ∈ l → apart (Path c) (Path c')) ∧ rows_apart l.
Proof.
  split.
  - intros [Hne Ha]. split_and!; [apply Hne; left| |split].
    + intros c' [j Hj]%list_elem_of_lookup. by apply (Ha 0 (S j)).
    + intros c' ?. apply Hne. by right.
    + intros i j ci cj Hi Hj ?. apply (Ha (S i) (S j)); auto.
  - intros (Hc & Hca & Hne & Ha). split; [set_solver|].
    intros [|i] [|j] ci cj Hi Hj ?; simplify_eq/=; [| |by apply (Ha i j); auto].
    + apply Hca, list_elem_of_lookup. eauto.
    + apply apart_sym, Hca, list_elem_of_lookup. eauto.
Qed.

#[export] Instance rows_apart_perm : Proper ((≡ₚ) ==> iff) rows_apart.
Proof.
  assert (∀ l l', l ≡ₚ l' → rows_apart l → rows_apart l').
  { induction 1 as [|c l l' Hp IH|c1 c2 l|]; auto.
    - rewrite !rows_apart_cons. intros (? & Hc & ?). split_and!; auto.
      intros c' Hc'. apply Hc. by rewrite Hp.
    - rewrite !rows_apart_cons. intros (H1 & H2 & H3 & H4 & H5).
      split_and!; [done| |done| |done].
      + intros c' [->|]%elem_of_cons; [apply apart_sym, H2; left|auto].
      + intros c' ?. apply H2. by right. }
  intros l l' Hp. split; eauto. symmetry in Hp. eauto.
Qed.

Lemma foldl_place_rows p f l o :
  rows_apart l → (∀ c, c ∈ l → free o (Path c)) →
  (∀ c, c ∈ l → get_path (foldl (place_row p f) o l) (Path c) = claim_value c p f) ∧
  (∀ q, (∀ c, c ∈ l → apart (Path c) q) → get_path (foldl (place_row p f) o l) q = get_path o q).
Proof.
  revert o; induction l as [|c l IH]; intros o Ha Hf; [set_solver|].
  apply rows_apart_cons in Ha as (Hne & Hca & Ha). simpl.
  assert (Hrow : place_row p f o c = match claim_value c p f with Some v => place o (Path c) v | None => o end).
  { unfold place_row. destruct (claim_value c p f); [|done]. by destruct (Path c). }
  destruct (IH (place_row p f o c) Ha) as [IH1 IH2].
  { intros c' Hc'. rewrite Hrow. destruct (claim_value c p f); [|apply Hf; by right].
    apply place_free_apart; [by apply Hca|]. apply Hf. by right. }
  split.
  - intros c' [->|Hc']%elem_of_cons; [|by apply IH1].
    rewrite IH2 by (intros; by apply apart_sym, Hca). rewrite Hrow.
    destruct (claim_value c p f); [apply place_get_same|apply free_get_path]; apply Hf; left.
  - intros q Hq. rewrite IH2 by set_solver. rewrite Hrow.
    destruct (claim_value c p f); [|done]. apply place_get_apart, Hq. left.
Qed.

Lemma Shape_get p f c :
  rows_apart (Claims p) → c ∈ Claims p → get_path (Shape p f) (Path c) = claim_value c p f.
Proof.
  intros Ha Hc. unfold Shape, ordered.
  destruct (foldl_place_rows p f (stable_sort (row_compare (RolesKey (Claims p))) (Claims p)) [])
    as [Hget _].
  - by rewrite stable_sort_perm.
  - intros c' Hc'. apply free_nil. apply Ha. by rewrite stable_sort_elem in Hc'.
  - apply Hget. by rewrite stable_sort_elem.
Qed.

(** ** Facts: Validate *)

(** No byte of a valid key is the separator paths are joined on. *)
Lemma validClaimKey_nul_free key : validClaimKey key = true → nul_free key.
Proof.
  unfold validClaimKey. intros [_ H]%andb_prop. revert H.
  generalize (String.length key) as n, 0 as i. induction key as [|a key IH]; intros n i; simpl; [done|].
  intros [Ha Hk]%andb_prop. split; [by intros ->|]. exact (IH _ _ Hk).
Qed.

Lemma Join_cons x y l sep : Join (x :: y :: l) sep = x +:+ sep +:+ Join (y :: l) sep.
Proof. reflexivity. Qed.

Lemma Join_NUL_inj p q :
  Forall nul_free p → Forall nul_free q → p ≠ [] → q ≠ [] → Join p NUL = Join q NUL → p = q.
Proof.
  revert q; induction p as [|x [|x2 p] IH]; intros [|y [|y2 q]] Hp Hq ? ? E; try done;
    rewrite ?Join_cons in E; inv Hp; inv Hq.
  - simpl in E. congruence.
  - by apply nul_free_split in E.
  - symmetry in E. by apply nul_free_split in E.
  - apply nul_split in E as [-> E]; [|done..]. f_equal. by apply IH.
Qed.

(** A path's joined text, followed by the separator, starts another's exactly
    when the path is a proper prefix of it, segment by segment. *)
Lemma Join_NUL_prefix p q :
  Forall nul_free p → Forall nul_free q → p ≠ [] →
  HasPrefix (Join q NUL) (Join p NUL +:+ NUL) = true ↔ ∃ k r, q = p ++ k :: r.
Proof.
  rewrite HasPrefix_iff. setoid_rewrite string_app_assoc.
  revert q; induction p as [|x [|x2 p] IH]; intros q Hp Hq ?; [done| |]; inv Hp.
  - simpl Join. destruct q as [|y [|y2 q]]; inv Hq.
    + split; [intros [u Hu]|by intros (?&?&?)]. destruct x; by rewrite ?string_app_nil, ?string_app_cons in Hu.
    + split; [intros [u Hu]; by apply nul_free_split in Hu|by intros (?&?&?)].
    + rewrite Join_cons. split.
      * intros [u [-> _]%nul_split]; [|done..]. by exists y2, q.
      * intros (k & r & [= -> -> ->]). eauto.
  - match goal with H : Forall _ (x2 :: p) |- _ => rename H into Hp end.
    rewrite Join_cons. destruct q as [|y [|y2 q]].
    + split; [intros [u Hu]|by intros (?&?&?)].
      rewrite string_app_assoc in Hu. destruct x; by rewrite ?string_app_nil, ?string_app_cons in Hu.
    + apply Forall_cons in Hq as [Hy _]. split; [intros [u Hu]|by intros (?&?&?)].
      rewrite string_app_assoc, string_app_assoc in Hu. by apply (nul_free_split x y) in Hu.
    + apply Forall_cons in Hq as [Hy Hq]. rewrite Join_cons.
      specialize (IH (y2 :: q) Hp Hq ltac:(done)). split.
      * intros [u Hu]. rewrite !string_app_assoc in Hu. apply nul_split in Hu as [-> Hu]; [|done..].
        destruct (proj1 IH) as (k & r & ->); [by exists u|]. by exists k, r.
      * intros (k & r & [= -> -> ->]). destruct (proj2 IH) as [u Hu]; [by exists k, r|].
        exists u. rewrite Hu. by rewrite !string_app_assoc.
Qed.

(** What a profile that may be saved looks like, stated with no loop. *)
Definition usable_word (w : string) : Prop :=
  String.length w ≤ 128 ∧ ∀ a, a ∈ list_ascii_of_string w → (32 ≤ N_of_ascii a)%N.

Record wf_profile (p : Profile) : Prop := {
  wf_lands : Lands p ∈ [LandsBoth; LandsAccessToken; LandsUserinfo];
  wf_keys : ∀ m, m ∈ Roles p → Key m ≠ "" ∧ usable_word (As m);
  wf_keys_once : NoDup (Key <$> Roles p);
  wf_rows : ∀ c, c ∈ Claims p → validate_row c = None;
  wf_apart : rows_apart (Claims p);
}.

Lemma usable_word_iff w :
  (128 <? String.length w)%nat || existsb (λ a, (N_of_ascii a <? 32)%N) (list_ascii_of_string w) = false
  ↔ usable_word w.
Proof.
  unfold usable_word. rewrite orb_false_iff, Nat.ltb_ge, <- not_true_iff_false, existsb_exists.
  setoid_rewrite N.ltb_lt. setoid_rewrite <- list_elem_of_In. split; intros [? H]; (split; [done|]).
  - intros a Ha. apply N.nlt_ge. intros ?. apply H. eauto.
  - intros (a & Ha & Hlt). specialize (H a Ha). lia.
Qed.

Lemma validate_roles_None seen l :
  validate_roles seen l = None ↔
  (∀ m, m ∈ l → Key m ≠ "" ∧ usable_word (As m)) ∧ NoDup (Key <$> l) ∧ (∀ m, m ∈ l → Key m ∉ seen).
Proof.
  revert seen; induction l as [|m l IH]; intros seen; csimpl.
  { split; [intros _; split_and!; [set_solver|constructor|set_solver]|done]. }
  rewrite NoDup_cons, list_elem_of_fmap. setoid_rewrite elem_of_cons.
  case_bool_decide as Hk. { naive_solver. }
  case_bool_decide as Hs. { naive_solver. }
  destruct ((128 <? _)%nat || _) eqn:E.
  { split; [done|]. intros (Hm & _). destruct (Hm m) as [_ Hw]; [by left|].
    apply usable_word_iff in Hw. congruence. }
  apply usable_word_iff in E. rewrite IH. setoid_rewrite elem_of_cons. naive_solver.
Qed.

Lemma validate_rows_None i l : validate_rows i l = None ↔ ∀ c, c ∈ l → validate_row c = None.
Proof.
  revert i; induction l as [|c l IH]; intros i; simpl; [set_solver|].
  setoid_rewrite elem_of_cons. destruct (validate_row c) eqn:E; [naive_solver|]. rewrite IH. naive_solver.
Qed.

Lemma validate_row_None c :
  validate_row c = None →
  Path c ≠ [] ∧ Forall nul_free (Path c) ∧ (∀ top, head (Path c) = Some top → ZitadelOwns top = false).
Proof.
  unfold validate_row. destruct (Path c) as [|top rest] eqn:Hp; [done|]. rewrite <- Hp.
  case_match; [done|]. case_match eqn:Hf; [done|]. case_match eqn:Hz; [done|]. intros _.
  rewrite Hp in *. split_and!; [done| |naive_solver].
  apply Forall_forall. intros seg Hseg. apply validClaimKey_nul_free.
  apply list_elem_of_In, (List.find_none _ _ Hf), negb_false_iff in Hseg. done.
Qed.

(** *** The pairwise check, for rows that each passed *)
Lemma validate_pair_cases i ci j cj :
  validate_row ci = None → validate_row cj = None →
  (validate_pair i ci j cj = Accepted ∧
     (i = j ∨ (¬ (Path ci = Path cj ∧ j < i) ∧ ¬ ∃ k r, Path cj = Path ci ++ k :: r))) ∨
  ((∃ m, validate_pair i ci j cj = Refused (Z.of_nat i) m) ∧
     i ≠ j ∧ ((Path ci = Path cj ∧ j < i) ∨ ∃ k r, Path cj = Path ci ++ k :: r)).
Proof.
  intros (Hi & Hni & _)%validate_row_None (Hj & Hnj & _)%validate_row_None.
  unfold validate_pair. destruct (Nat.eqb_spec i j); [by left; auto|].
  assert (Heq : joined ci = joined cj ↔ Path ci = Path cj).
  { unfold joined. split; [by apply Join_NUL_inj|by intros ->]. }
  assert (Hpre : HasPrefix (joined cj) (joined ci +:+ NUL) = true ↔ ∃ k r, Path cj = Path ci ++ k :: r)
    by (by apply Join_NUL_prefix).
  destruct ((joined ci =? joined cj) && (j <? i)%nat) eqn:E1.
  { apply andb_prop in E1 as [?%bool_decide_eq_true ?%Nat.ltb_lt]. right. naive_solver. }
  apply andb_false_iff in E1. rewrite bool_decide_eq_false, Nat.ltb_ge, Heq in E1.
  destruct (HasPrefix _ _) eqn:E2.
  - right. destruct (proj1 Hpre eq_refl) as (k & r & Hk). split; [|naive_solver].
    rewrite Hk, list_lookup_middle by done.
    destruct (last (Path ci)) as [parent|] eqn:El; [eauto|]. by apply last_None in El.
  - left. split; [done|right]. split; [naive_solver lia|]. rewrite <- Hpre. done.
Qed.

Lemma validate_inner_cases i ci j l :
  validate_row ci = None → (∀ c, c ∈ l → validate_row c = None) →
  (validate_inner i ci j l = Accepted ∧
     ∀ n cj, l !! n = Some cj → validate_pair i ci (j + n) cj = Accepted) ∨
  ((∃ m, validate_inner i ci j l = Refused (Z.of_nat i) m) ∧
     ∃ n cj, l !! n = Some cj ∧ validate_pair i ci (j + n) cj ≠ Accepted).
Proof.
  intros Hi. revert j; induction l as [|cj l IH]; intros j Hl; simpl; [left; naive_solver|].
  destruct (validate_pair_cases i ci j cj) as [[Hp _]|[[m Hp] _]]; [done|set_solver|rewrite Hp..].
  - destruct (IH (S j)) as [[Ha Hall]|[Hr (n & cn & Hn & Hp')]]; [set_solver|left|right].
    + split; [done|]. intros [|n] cj' ?; simplify_eq/=; [by rewrite Nat.add_0_r|].
      rewrite Nat.add_succ_r. by apply Hall.
    + split; [done|]. exists (S n), cn. by rewrite Nat.add_succ_r.
  - right. split; [eauto|]. exists 0, cj. rewrite Nat.add_0_r, Hp. done.
Qed.

Lemma validate_outer_cases i l all :
  (∀ c, c ∈ l → validate_row c = None) → (∀ c, c ∈ all → validate_row c = None) →
  (validate_outer i l all = Accepted ∧
     ∀ n ci j cj, l !! n = Some ci → all !! j = Some cj → validate_pair (i + n) ci j cj = Accepted) ∨
  ((∃ z m, validate_outer i l all = Refused z m) ∧
     ∃ n ci j cj, l !! n = Some ci ∧ all !! j = Some cj ∧ validate_pair (i + n) ci j cj ≠ Accepted).
Proof.
  intros Hl Hall. revert i Hl; induction l as [|ci l IH]; intros i Hl; simpl; [left; naive_solver|].
  destruct (validate_inner_cases i ci 0 all) as [[Hin Hi]|[[m Hin] (j & cj & Hj & Hp)]];
    [set_solver|done|rewrite Hin..].
  - destruct (IH (S i)) as [[Ho Hn]|[Ho (n & c & j & cj & ? & ? & Hp)]]; [set_solver|left|right].
    + split; [done|]. intros [|n] c j cj ??; simplify_eq/=; [rewrite Nat.add_0_r; by apply Hi|].
      rewrite Nat.add_succ_r. by apply Hn.
    + split; [done|]. exists (S n), c, j, cj. by rewrite Nat.add_succ_r.
  - right. split; [eauto|]. exists 0, ci, j, cj. by rewrite Nat.add_0_r.
Qed.

Lemma rows_apart_pairs l :
  (∀ c, c ∈ l → validate_row c = None) →
  rows_apart l ↔
  ∀ i j ci cj, l !! i = Some ci → l !! j = Some cj → validate_pair i ci j cj = Accepted.
Proof.
  intros Hl. split.
  - intros [_ Ha] i j ci cj Hi Hj.
    destruct (validate_pair_cases i ci j cj) as [[? _]|[_ (Hne & Hor)]];
      [eapply Hl, list_elem_of_lookup_2; done..|done|].
    exfalso. destruct (Ha i j ci cj Hi Hj Hne) as [H _]. apply H.
    destruct Hor as [[-> _]|(k & r & ->)]; [done|by eexists].
  - intros Hp. split; [intros c Hc; by apply Hl, validate_row_None in Hc as [? _]|].
    assert (H1 : ∀ i j ci cj, l !! i = Some ci → l !! j = Some cj → i ≠ j → ¬ Path ci `prefix_of` Path cj).
    { intros i j ci cj Hi Hj Hne [r Hr].
      assert (Hij : validate_pair i ci j cj = Accepted) by eauto.
      assert (Hji : validate_pair j cj i ci = Accepted) by eauto.
      assert (validate_row ci = None) by eauto using list_elem_of_lookup_2.
      assert (validate_row cj = None) by eauto using list_elem_of_lookup_2.
      destruct (validate_pair_cases i ci j cj) as [[_ [|[H1 H2]]]|[[m Hm] _]]; [done..| |congruence].
      destruct (validate_pair_cases j cj i ci) as [[_ [|[H3 _]]]|[[m Hm] _]]; [done..|lia| |congruence].
      destruct r as [|k r]; [|eauto]. rewrite app_nil_r in Hr.
      destruct (decide (j < i)); [|assert (i < j) by lia]; naive_solver. }
    intros i j ci cj Hi Hj Hne. split; eauto.
Qed.

Lemma Validate_wf p : Validate p = Accepted ↔ wf_profile p.
Proof.
  unfold Validate.
  assert (Hlands : (Lands p =? LandsBoth) || (Lands p =? LandsAccessToken) || (Lands p =? LandsUserinfo) = true
                   ↔ Lands p ∈ [LandsBoth; LandsAccessToken; LandsUserinfo]).
  { rewrite !orb_true_iff, !bool_decide_eq_true. set_solver. }
  destruct ((_ =? LandsBoth) || _ || _) eqn:El; simpl.
  2: { split; [done|]. intros [?%Hlands _ _ _ _]. congruence. }
  destruct (validate_roles [] (Roles p)) as [m|] eqn:Er.
  { split; [done|]. intros [_ Hk Ho _ _]. assert (validate_roles [] (Roles p) = None); [|congruence].
    apply validate_roles_None. split_and!; [done|done|]. intros ? _. apply not_elem_of_nil. }
  apply validate_roles_None in Er as (Hk & Ho & _).
  destruct (validate_rows 0 (Claims p)) as [[i m]|] eqn:Ec.
  { split; [done|]. intros [_ _ _ Hr _]. by rewrite (proj2 (validate_rows_None 0 (Claims p)) Hr) in Ec. }
  pose proof (proj1 (validate_rows_None _ _) Ec) as Hr.
  destruct (validate_outer_cases 0 (Claims p) (Claims p) Hr Hr)
    as [[-> Hp]|[(z & m & ->) (n & ci & j & cj & Hn & Hj & Hp)]].
  - split; [intros _|done]. split; auto; [by apply Hlands|].
    apply rows_apart_pairs; [done|]. intros i j ci cj ??. by eapply (Hp i).
  - split; [done|]. intros [_ _ _ _ Ha]. destruct Hp. rewrite rows_apart_pairs in Ha by done. eauto.
Qed.

Lemma Validate_total p : Validate p ≠ Panics.
Proof.
  unfold Validate. case_match; [done|]. case_match; [done|].
  destruct (validate_rows 0 (Claims p)) as [[i m]|] eqn:Ec; [done|].
  pose proof (proj1 (validate_rows_None _ _) Ec) as Hr.
  by destruct (validate_outer_cases 0 (Claims p) (Claims p) Hr Hr) as [[-> _]|[(z & m & ->) _]].
Qed.

(** ** Facts: the order of a token's keys *)
#[export] Instance keyLess_good : Comparison keyLess.
Proof. apply (cmp_then_good (cmp_on ToLower String.compare) String.compare); apply _. Qed.

Lemma keyLess_Eq a b : keyLess a b = Eq → a = b.
Proof. unfold keyLess. case_match; try done. by intros ?%String.compare_eq_iff. Qed.

(** The editor's order on top-level keys: the roles claim's key, then A to Z. *)
Definition top_compare (hero : string) : string → string → comparison :=
  cmp_then (cmp_on (λ k, if k =? hero then 0 else 1) Nat.compare) keyLess.
#[export] Instance top_compare_good hero : Comparison (top_compare hero) := _.

Lemma top_compare_Eq hero a b : top_compare hero a b = Eq → a = b.
Proof. unfold top_compare, cmp_then. case_match; try done. apply keyLess_Eq. Qed.

Definition row_rank (hero : string) (c : Claim) : nat :=
  match Path c with [] => 0 | k :: _ => if k =? hero then 1 else 2 end.

Lemma paths_compare_list a b : paths_compare a b = cmp_list keyLess a b.
Proof. revert b; induction a as [|x a IH]; intros [|y b]; simpl; try done. by rewrite IH. Qed.

Lemma row_compare_lex hero a b :
  row_compare hero a b =
  cmp_then (cmp_on (row_rank hero) Nat.compare) (cmp_on Path (cmp_list keyLess)) a b.
Proof.
  unfold row_compare, cmp_then, cmp_on, row_rank. rewrite <- paths_compare_list.
  destruct (Path a) as [|x pa], (Path b) as [|y pb]; simpl; try done; repeat case_bool_decide; done.
Qed.

(** [row_compare] meets what [slices.SortStableFunc] asks of it. *)
#[export] Instance row_compare_good hero : Comparison (row_compare hero).
Proof.
  split; intros *; rewrite !row_compare_lex; [apply cmp_opp|apply cmp_lt_trans|apply cmp_eq_l].
Qed.

Lemma row_compare_top hero a b k pa k' pb :
  Path a = k :: pa → Path b = k' :: pb → row_compare hero a b ≠ Gt → top_compare hero k k' ≠ Gt.
Proof.
  unfold row_compare, top_compare, cmp_then, cmp_on. intros -> ->. simpl.
  repeat case_bool_decide; simpl; try done; destruct (keyLess k k'); done.
Qed.

Lemma keys_place o k rest v :
  let keys := (place o (k :: rest) v).*1 in
  keys = o.*1 ∨ (¬ (k ∈ o.*1) ∧ keys = o.*1 ++ [k]).
Proof.
  cbv zeta. destruct rest as [|k2 rest]; [simpl|rewrite place_cons]; destruct (Get o k) as [w|] eqn:E; auto.
  - right. apply Get_None in E. rewrite keys_Set, bool_decide_false; auto.
  - left. destruct w; try done. rewrite keys_Set, bool_decide_true; [done|].
    destruct (decide (k ∈ o.*1)) as [|Hk]; [done|]. apply Get_None in Hk. congruence.
  - right. apply Get_None in E. rewrite keys_Set, bool_decide_false; auto.
Qed.

Lemma StronglySorted_snoc {A} (R : A → A → Prop) l x :
  StronglySorted R l → (∀ y, y ∈ l → R y x) → StronglySorted R (l ++ [x]).
Proof.
  induction 1 as [|y l Hs IH Hf]; intros Hx; simpl; [by repeat constructor|].
  constructor; [apply IH; set_solver|]. apply Forall_app; split; [done|]. constructor; [|done]. set_solver.
Qed.

Lemma foldl_place_keys p f hero l o :
  StronglySorted (cmp_le (row_compare hero)) l →
  StronglySorted (λ a b, top_compare hero a b = Lt) o.*1 →
  (∀ k c k' rest, k ∈ o.*1 → c ∈ l → Path c = k' :: rest → top_compare hero k k' ≠ Gt) →
  StronglySorted (λ a b, top_compare hero a b = Lt) (foldl (place_row p f) o l).*1.
Proof.
  revert o; induction l as [|c l IH]; intros o Hl Ho Hb; [done|]. apply StronglySorted_inv in Hl as [Hl Hc]. simpl.
  assert (Hkeys : ∀ k c' k' rest, k ∈ o.*1 → c' ∈ l → Path c' = k' :: rest → top_compare hero k k' ≠ Gt)
    by (intros; eapply Hb; [done|right|done]; done).
  unfold place_row at 2. destruct (claim_value c p f) as [v|]; [|by apply IH].
  destruct (Path c) as [|k rest] eqn:Hp; [by apply IH|].
  destruct (keys_place o k rest v) as [Hk|[Hnew Hk]]; apply IH; rewrite ?Hk; try done.
  - apply StronglySorted_snoc; [done|]. intros k' Hk'.
    specialize (Hb k' c k rest Hk' ltac:(left) Hp).
    destruct (top_compare hero k' k) eqn:E; [apply top_compare_Eq in E; by subst|done|done].
  - intros k' c' k'' rest' [Hk'| ->%list_elem_of_singleton]%elem_of_app Hc' Hp'; [eauto|].
    rewrite Forall_forall in Hc. by eapply row_compare_top; [..|apply Hc].
Qed.

Lemma Shape_keys_sorted p f :
  StronglySorted (λ a b, top_compare (RolesKey (Claims p)) a b = Lt) (Shape p f).*1.
Proof.
  unfold Shape, ordered. apply foldl_place_keys; [apply (stable_sort_ascending _)|constructor|set_solver].
Qed.

(** Every key comes from a row that has something to send. *)
Lemma foldl_place_source p f l o k :
  k ∈ (foldl (place_row p f) o l).*1 →
  k ∈ o.*1 ∨ ∃ c, c ∈ l ∧ head (Path c) = Some k ∧ is_Some (claim_value c p f).
Proof.
  revert o; induction l as [|c l IH]; intros o; simpl; [auto|].
  intros [Hk|(c' & ? & ?)]%IH; [|set_solver].
  unfold place_row in Hk. destruct (claim_value c p f) as [v|] eqn:Ev; [|auto].
  destruct (Path c) as [|k' rest] eqn:Hp; [auto|].
  destruct (keys_place o k' rest v) as [E|[_ E]]; rewrite E in Hk; [auto|].
  apply elem_of_app in Hk as [?| ->%list_elem_of_singleton]; [auto|right].
  exists c. split_and!; [left|by rewrite Hp|eauto].
Qed.

(** ** Facts: words *)
Lemma elem_of_add_word out w x : x ∈ add_word out w ↔ x ∈ out ∨ x = w.
Proof. unfold add_word. case_bool_decide; set_solver. Qed.
Lemma NoDup_add_word out w : NoDup out → NoDup (add_word out w).
Proof. unfold add_word. case_bool_decide; [done|]. intros. apply NoDup_app. split_and!; [done|set_solver|apply NoDup_singleton]. Qed.

(** Both loops of [Words] append what a test lets through. *)
Lemma foldl_add_word {A} (keep : A → bool) (w : A → string) (l : list A) out :
  NoDup out →
  let r := foldl (λ out x, if keep x then add_word out (w x) else out) out l in
  NoDup r ∧ ∀ x, x ∈ r ↔ x ∈ out ∨ ∃ a, a ∈ l ∧ keep a = true ∧ w a = x.
Proof.
  revert out; induction l as [|a l IH]; intros out Hnd; simpl; [set_solver|].
  destruct (IH (if keep a then add_word out (w a) else out)) as [Hr Hx].
  { destruct (keep a); auto using NoDup_add_word. }
  split; [done|]. intros x. rewrite Hx. split.
  - intros [Ho|(b & ? & ?)]; [|by right; exists b; split; [right|]].
    destruct (keep a) eqn:E; [|by left]. apply elem_of_add_word in Ho as [?| ->]; [by left|].
    right. exists a. split; [left|done].
  - intros [Ho|(b & [->|Hb]%elem_of_cons & Hk & <-)].
    + left. destruct (keep a); [apply elem_of_add_word|]; auto.
    + left. rewrite Hk. apply elem_of_add_word. auto.
    + right. eauto.
Qed.

Lemma Words_facts p held :
  NoDup (Words p held) ∧
  ∀ w, w ∈ Words p held ↔
    (∃ m, m ∈ Roles p ∧ Included m = true ∧ Key m ∈ held ∧ word m = w) ∨
    (IncludeNew p = true ∧ w ∈ held ∧ w ∉ (Key <$> Roles p)).
Proof.
  unfold Words.
  destruct (foldl_add_word (λ m, Included m && bool_decide (Key m ∈ held)) word (Roles p) [])
    as [Hnd Hx]; [constructor|]. cbv zeta in Hnd, Hx.
  set (out := foldl _ [] (Roles p)) in *.
  assert (Hout : ∀ w, w ∈ out ↔ ∃ m, m ∈ Roles p ∧ Included m = true ∧ Key m ∈ held ∧ word m = w).
  { intros w. rewrite Hx. split.
    - intros [[]%not_elem_of_nil|(m & ? & [? ?%bool_decide_eq_true]%andb_prop & ?)]; eauto 6.
    - intros (m & ? & Hi & Hk & ?). right. exists m. by rewrite Hi, bool_decide_true. }
  destruct (IncludeNew p).
  - destruct (foldl_add_word (λ r, negb (bool_decide (r ∈ (Key <$> Roles p)))) (λ r, r) held out Hnd)
      as [Hnd' Hx']. split; [exact Hnd'|]. intros w. etrans; [apply Hx'|]. rewrite Hout.
    apply or_iff_compat_l. split.
    + intros (r & ? & ?%negb_true_iff%bool_decide_eq_false & <-). auto.
    + intros (_ & ? & ?). exists w. by rewrite bool_decide_false.
  - split; [done|]. intros w. rewrite Hout. naive_solver.
Qed.

(** ** Facts: rows without facts *)

(** Two sets of facts a token's own payload cannot tell apart. *)
Definition same_token (f g : Facts) : Prop :=
  f_Roles f = f_Roles g ∧ UserID f = UserID g ∧ ProjectID f = ProjectID g ∧
  Email f = Email g ∧ Name f = Name g ∧ GivenName f = GivenName g ∧
  FamilyName f = FamilyName g ∧ Username f = Username g ∧ machine f = machine g.

Lemma claim_value_token c p p' f g :
  needs_facts c = false → same_token f g → Roles p = Roles p' → IncludeNew p = IncludeNew p' →
  claim_value c p f = claim_value c p' g.
Proof.
  intros [[Hb He]%orb_false_elim Ha]%orb_false_elim (HR & HU & HP & HE & HN & HG & HF & HUn & HM) HRs HIn.
  unfold claim_value, Words, attributeValue, name_text. rewrite HR, HU, HP, HE, HN, HG, HF, HUn, HM, HRs, HIn, Hb, He.
  destruct (Kind c =? KindRoles); [done|]. destruct (Kind c =? KindAttribute); [|done].
  simpl in Ha. apply negb_false_iff, bool_decide_eq_true in Ha.
  repeat (apply elem_of_cons in Ha as [->|Ha]; [reflexivity|]). set_solver.
Qed.

(** ** Properties *)

Definition demo_static (path : list string) (bytes : string) : Claim :=
  {| Path := path; Kind := KindStatic; Source := ""; RawValue := bytes; IfRoles := []; Format := "" |}.
Definition demo_attr (path : list string) (source : string) : Claim :=
  {| Path := path; Kind := KindAttribute; Source := source; RawValue := ""; IfRoles := []; Format := "" |}.
Definition demo_profile : Profile :=
  {| Claims := [demo_static ["zone"] "7"; demo_attr ["app"; "mail"] AttrEmail;
                roles_row ["app"; "groups"] FormatArray];
     Roles := [{| Key := "admin"; As := "root"; Included := true |};
               {| Key := "guest"; As := ""; Included := false |}];
     IncludeNew := true; Lands := LandsBoth |}.
Definition demo_facts : Facts :=
  {| f_Roles := ["admin"; "guest"; "laser"]; UserID := "u1"; ProjectID := "p1"; Email := "a@b"; Name := "";
     GivenName := ""; FamilyName := ""; Username := ""; Title := ""; Team := "ops"; CompiledAt := "";
     Bundles := ["Lab"]; RoleEnds := ∅; IsServiceAccount := false; machine := false |}.

Example demo_shape :
  Shape demo_profile demo_facts =
  [("app", VObject [("groups", VStrings ["root"; "laser"]); ("mail", VText "a@b")]); ("zone", VRaw "7")].
Proof. vm_compute. reflexivity. Qed.

(** [Validate] accepts exactly the well-formed profiles (lands known, role
    keys present, once each and with usable words, every row valid on its own,
    no row's path equal to or inside another's), and it never indexes a path out
    of range, whatever the profile. *)
Theorem Validate_spec p : (Validate p = Accepted ↔ wf_profile p) ∧ Validate p ≠ Panics.
Proof. split; [apply Validate_wf|apply Validate_total]. Qed.

(** A token carries what its shape says: for a validated profile, the value
    found at each row's path is that row's value, and nothing is there when the
    row has nothing to send. Rows never overwrite or hide each other. *)
Theorem Shape_delivers_rows p f c :
  Validate p = Accepted → c ∈ Claims p → get_path (Shape p f) (Path c) = claim_value c p f.
Proof. intros [_ _ _ _ Ha]%Validate_wf Hc. by apply Shape_get. Qed.

Lemma Shape_delivers_rows_witness :
  get_path (Shape demo_profile demo_facts) ["app"; "mail"] = Some (VText "a@b").
Proof.
  apply (Shape_delivers_rows demo_profile demo_facts (demo_attr ["app"; "mail"] AttrEmail)).
  - vm_compute. reflexivity.
  - right. left.
Defined.

(** The order of a token's keys is the editor's, for any profile: the roles
    claim's key first, then A to Z with case aside, no key twice. *)
Theorem Shape_key_order p f :
  StronglySorted (λ a b, top_compare (RolesKey (Claims p)) a b = Lt) (Shape p f).*1.
Proof. apply Shape_keys_sorted. Qed.

(** A validated profile never sends a top-level key Zitadel owns, and every
    key it does send is the top of a row with something to send. *)
Theorem Shape_keys_allowed p f k :
  Validate p = Accepted → k ∈ (Shape p f).*1 →
  ZitadelOwns k = false ∧
  ∃ c, c ∈ Claims p ∧ head (Path c) = Some k ∧ is_Some (claim_value c p f).
Proof.
  intros [_ _ _ Hr _]%Validate_wf Hk. unfold Shape, ordered in Hk.
  apply foldl_place_source in Hk as [[]%not_elem_of_nil|(c & Hc & Hhead & Hv)].
  rewrite stable_sort_elem in Hc. split; [|eauto].
  by apply (proj2 (proj2 (validate_row_None c (Hr c Hc)))).
Qed.

Lemma Shape_keys_allowed_witness :
  ZitadelOwns "zone" = false ∧
  ∃ c, c ∈ Claims demo_profile ∧ head (Path c) = Some "zone" ∧ is_Some (claim_value c demo_profile demo_facts).
Proof.
  apply (Shape_keys_allowed demo_profile demo_facts "zone").
  - vm_compute. reflexivity.
  - rewrite demo_shape. right. left.
Defined.

(** [Words] is exactly the roles the app sees, in its words, each once: the
    word of every included mapped role that is held, and, when roles added later
    are included, every held role the map does not name. *)
Theorem Words_spec p held :
  NoDup (Words p held) ∧
  ∀ w, w ∈ Words p held ↔
    (∃ m, m ∈ Roles p ∧ Included m = true ∧ Key m ∈ held ∧ word m = w) ∨
    (IncludeNew p = true ∧ w ∈ held ∧ w ∉ (Key <$> Roles p)).
Proof. apply Words_facts. Qed.

(** [RolesOnly] is the part of a shape that needs nothing Syndra stores: its
    token is the same for any two people the payload describes alike, and each
    of its rows renders as the whole profile would render it. *)
Theorem RolesOnly_needs_no_facts p f g :
  same_token f g →
  Shape (RolesOnly p) f = Shape (RolesOnly p) g ∧
  ∀ c, c ∈ Claims (RolesOnly p) → claim_value c (RolesOnly p) g = claim_value c p f.
Proof.
  intros Hfg.
  assert (Hv : ∀ q c, Roles q = Roles p → IncludeNew q = IncludeNew p →
               c ∈ Claims (RolesOnly p) → claim_value c (RolesOnly p) g = claim_value c q f).
  { intros q c HR HI Hc. symmetry. apply claim_value_token; [|done..].
    apply list_elem_of_In, filter_In in Hc as [_ Hn]. by apply negb_true_iff. }
  split; [|auto]. unfold Shape, ordered. apply foldl_ext_in. intros o c Hc. unfold place_row.
  rewrite stable_sort_elem in Hc. by rewrite <- (Hv (RolesOnly p) c).
Qed.

Lemma RolesOnly_needs_no_facts_witness :
  let g := {| f_Roles := f_Roles demo_facts; UserID := "u1"; ProjectID := "p1"; Email := "a@b"; Name := "";
     GivenName := ""; FamilyName := ""; Username := ""; Title := "Dr"; Team := ""; CompiledAt := "now";
     Bundles := []; RoleEnds := ∅; IsServiceAccount := true; machine := false |} in
  Shape (RolesOnly demo_profile) demo_facts = Shape (RolesOnly demo_profile) g.
Proof.
  intros g. destruct (RolesOnly_needs_no_facts demo_profile demo_facts g) as [Heq _]; [|exact Heq].
  repeat split; reflexivity.
Defined.
