(* ===== verification/ClaimDiff.v ===== *)
(** * ClaimDiff: what changes between two shapes, and the templates
      (backend/internal/claims/diff.go, templates.go)

    [Diff] lists every difference between two profiles, [Breaking] the ones a
    template's app acts on. A profile's slices are values here: [clone], which
    keeps a caller from editing the catalog, has nothing to do. *)

From S2P Require Import Prelude Json Claims.

(** ** Changes *)
Definition ChangeAdd : string := "add".
Definition ChangeRemove : string := "remove".
Definition ChangeRename : string := "rename".
Definition ChangeRetype : string := "retype".
Definition ChangeMove : string := "move".
Definition ChangeLands : string := "lands".
Definition ChangeIncludeNew : string := "include_new".

Record Change := {
  ch_Kind : string;
  ch_Role : string;
  ch_Path : list string;
  ch_NewPath : list string;
  ch_From : string;
  ch_To : string;
}.
#[export] Instance Change_eq_dec : EqDecision Change.
Proof. solve_decision. Defined.

Definition claim_change (kind : string) (path newPath : list string) (from to : string) : Change :=
  {| ch_Kind := kind; ch_Role := ""; ch_Path := path; ch_NewPath := newPath; ch_From := from; ch_To := to |}.
Definition role_change (kind role from to : string) : Change :=
  {| ch_Kind := kind; ch_Role := role; ch_Path := []; ch_NewPath := []; ch_From := from; ch_To := to |}.

Definition sendsRoles (p : Profile) : bool :=
  existsb (λ c, (Kind c =? KindRoles) || (Kind c =? KindRoleEnds)) (Claims p).

Definition pathKey (p : list string) : string := Join p NUL.
Definition rowKey (c : Claim) : string := pathKey (Path c).

Definition sameContent (a b : Claim) : bool :=
  (Kind a =? Kind b) && (Source a =? Source b) && (Format a =? Format b)
  && (TrimSpace (RawValue a) =? TrimSpace (RawValue b))
  && (Join (IfRoles a) NUL =? Join (IfRoles b) NUL).

(** The index in the list with the claim found there. *)
Definition indexSame (cs : list Claim) (c : Claim) : option (nat * Claim) :=
  list_find (λ o, sameContent o c = true) cs.

Definition describe (c : Claim) : string :=
  if Kind c =? KindRoles then Kind c +:+ ":" +:+ Format c
  else if Kind c =? KindAttribute then Kind c +:+ ":" +:+ Source c
  else if Kind c =? KindStatic then Kind c +:+ ":" +:+ TrimSpace (RawValue c)
  else Kind c.

Definition yesNo (b : bool) : string := if b then "true" else "false".

(** [oldBy] and [newBy]: the last row of a key stays. *)
Definition by_path (l : list Claim) : gmap string Claim :=
  foldl (λ m c, <[rowKey c := c]> m) ∅ l.

(** The loop over the new profile's rows, with what is gone so far unmatched
    and the changes so far. *)
Definition diff_row (oldBy : gmap string Claim) (st : list Claim * list Change) (c : Claim)
    : list Claim * list Change :=
  let '(gone, out) := st in
  match oldBy !! rowKey c with
  | Some prev =>
      if sameContent prev c then (gone, out)
      else (gone, out ++ [claim_change ChangeRetype (Path c) [] (describe prev) (describe c)])
  | None =>
      match indexSame gone c with
      | Some (i, o) => (delete i gone, out ++ [claim_change ChangeMove (Path o) (Path c) "" ""])
      | None => (gone, out ++ [claim_change ChangeAdd (Path c) [] "" (describe c)])
      end
  end.

Definition claim_changes (old new : list Claim) : list Change :=
  let newBy := by_path new in
  let gone := filter (λ c, newBy !! rowKey c = None) old in
  let '(gone, out) := foldl (diff_row (by_path old)) (gone, []) new in
  out ++ ((λ c, claim_change ChangeRemove (Path c) [] (describe c) "") <$> gone).

Definition changed_keys (old new : Profile) : list string :=
  foldl (λ keys m, add_word keys (Key m)) [] (Roles new ++ Roles old).

Definition role_diff (old new : Profile) (k : string) : list Change :=
  let '(oi, ow) := role old k in
  let '(ni, nw) := role new k in
  if oi && ni && (ow <>? nw) then [role_change ChangeRename k ow nw]
  else if oi && negb ni then [role_change ChangeRemove k ow ""]
  else if negb oi && ni then [role_change ChangeAdd k "" nw]
  else [].

Definition role_changes (old new : Profile) : list Change :=
  if sendsRoles old && sendsRoles new then changed_keys old new ≫= role_diff old new else [].

Definition Diff (old new : Profile) : list Change :=
  let old := Normalize old in
  let new := Normalize new in
  claim_changes (Claims old) (Claims new)
  ++ role_changes old new
  ++ (if Lands old <>? Lands new
      then [claim_change ChangeLands [] [] (Lands old) (Lands new)] else [])
  ++ (if IncludeNew old <>? IncludeNew new
      then [claim_change ChangeIncludeNew [] [] (yesNo (IncludeNew old)) (yesNo (IncludeNew new))] else []).

Definition ShapeOnly (changes : list Change) : list Change :=
  filter (λ c, ch_Role c = "") changes.

(** ** Templates *)
Definition BreaksRenameOrRemove : string := "rename_or_remove".
Definition BreaksAdminsUsers : string := "admins_users".
Definition BreaksNever : string := "".
Definition ReadsAccessToken : string := "access_token".
Definition ReadsIDToken : string := "id_token".
Definition ReadsUserinfo : string := "userinfo".

Definition ReachedBy (lands : string) (jwtAccessToken idTokenUserinfo : bool) : gmap string bool :=
  {[ ReadsAccessToken := (lands <>? LandsUserinfo) && jwtAccessToken;
     ReadsIDToken := (lands <>? LandsAccessToken) && idTokenUserinfo;
     ReadsUserinfo := lands <>? LandsAccessToken ]}.

Record Template := {
  ID : string;
  Version : Z;
  t_Name : string;
  Description : string;
  t_Profile : Profile;
  Reads : string;
  Breaks : string;
  t_match : string;
}.

Definition supabaseWhich : string :=
  "Which one? A `custom:` provider is the custom OIDC one. `GOTRUE_EXTERNAL_KEYCLOAK_*` settings mean the Keycloak one.".

Definition groups (path : list string) : list Claim := [roles_row path FormatArray].
Definition starts_from (claims : list Claim) (includeNew : bool) (lands : string) : Profile :=
  {| Claims := claims; Roles := []; IncludeNew := includeNew; Lands := lands |}.

Definition templates : list Template := [
  {| ID := "netbird"; Version := 1; t_Name := "NetBird"; Description := ""; t_match := "netbird";
     t_Profile := starts_from (groups ["groups"]) false LandsBoth;
     Reads := ReadsAccessToken; Breaks := BreaksRenameOrRemove |};
  {| ID := "gitlab"; Version := 1; t_Name := "GitLab"; Description := ""; t_match := "gitlab";
     t_Profile := starts_from (groups ["groups"]) true LandsUserinfo;
     Reads := ReadsUserinfo; Breaks := BreaksRenameOrRemove |};
  {| ID := "supabase-oidc"; Version := 1; t_Name := "Supabase, custom OIDC provider"; Description := supabaseWhich;
     t_match := "supabase"; t_Profile := starts_from (groups ["custom_claims"; "groups"]) true LandsUserinfo;
     Reads := ReadsIDToken; Breaks := BreaksRenameOrRemove |};
  {| ID := "supabase-keycloak"; Version := 1; t_Name := "Supabase, Keycloak provider"; Description := supabaseWhich;
     t_match := ""; t_Profile := starts_from (groups ["groups"]) true LandsUserinfo;
     Reads := ReadsUserinfo; Breaks := BreaksRenameOrRemove |};
  {| ID := "home-assistant"; Version := 1; t_Name := "Home Assistant"; Description := ""; t_match := "home assistant";
     t_Profile := starts_from (groups ["groups"]) true LandsUserinfo;
     Reads := ReadsIDToken; Breaks := BreaksAdminsUsers |};
  {| ID := "sign-in-only"; Version := 1; t_Name := "Sign-in only";
     Description := "For Vaultwarden, Kan and Navidrome. Who may sign in is Zitadel's role check.";
     t_match := ""; t_Profile := starts_from [] false LandsBoth; Reads := ""; Breaks := BreaksNever |};
  {| ID := "custom"; Version := 1; t_Name := "Custom";
     Description := "Every role, in Syndra's words. For in-house apps: SmartDB, Community Slicer, Inventory, Audio-Dash, Printer Config, Syndra.";
     t_match := ""; t_Profile := Builtin; Reads := ""; Breaks := BreaksNever |} ].

Definition Templates : list Template := templates.

Definition FindTemplate (id : string) : option Template := List.find (λ t, ID t =? id) Templates.

(** [strings.ToLower] as far as a search for ASCII text can tell: the ASCII
    letters, and the two other letters Unicode lowers to ASCII ones, the Kelvin
    sign and the capital I with a dot. Other letters stay outside ASCII. *)
Definition from_byte (n : N) (a : ascii) : bool := N_of_ascii a =? n.
Fixpoint lower_text (l : list ascii) : list ascii :=
  match l with
  | a :: ((b :: ((c :: l3) as l2)) as l1) =>
      if from_byte 226 a && from_byte 132 b && from_byte 170 c then "k"%char :: lower_text l3
      else if from_byte 196 a && from_byte 176 b then "i"%char :: lower_text l2
      else lower_byte a :: lower_text l1
  | [a; b] => if from_byte 196 a && from_byte 176 b then ["i"%char] else [lower_byte a; lower_byte b]
  | _ => lower_byte <$> l
  end.
Definition lower (s : string) : string := string_of_list_ascii (lower_text (list_ascii_of_string s)).

(** [strings.Contains]. *)
Definition Contains (s t : string) : bool := bool_decide (is_Some (String.index 0 t s)).

Definition Suggest (appName : string) : option Template :=
  List.find (λ t, (t_match t <>? "") && Contains (lower appName) (t_match t)) Templates.

Definition breaks (t : Template) (c : Change) : bool :=
  if Breaks t =? BreaksNever then false
  else if ch_Role c =? "" then
    bool_decide (ch_Kind c ∈ [ChangeRemove; ChangeMove; ChangeRetype; ChangeLands])
  else if (ch_Kind c <>? ChangeRename) && (ch_Kind c <>? ChangeRemove) then false
  else if Breaks t =? BreaksAdminsUsers then (ch_From c =? "admins") || (ch_From c =? "users")
  else true.

Definition Breaking (t : Template) (changes : list Change) : list Change :=
  filter (λ c, breaks t c = true) changes.

Definition ActionsV1 : Profile :=
  let attr k source := {| Path := ["custom_claims"; k]; Kind := KindAttribute; Source := source;
                          RawValue := ""; IfRoles := []; Format := "" |} in
  {| Claims := [roles_row ["groups"] FormatArray; roles_row ["custom_claims"; "groups"] FormatArray;
                attr "given_name" AttrGivenName; attr "family_name" AttrFamilyName; attr "name" AttrName];
     Roles := []; IncludeNew := true; Lands := LandsBoth |}.

(** ** On concrete shapes *)
Definition demo_attribute (k source : string) : Claim := demo_attr [k] source.
Definition demo_old : Profile :=
  {| Claims := [roles_row ["roles"] FormatArray; demo_attribute "team" AttrTeam; demo_attribute "email" AttrEmail];
     Roles := [{| Key := "staff"; As := "netbird-staff"; Included := true |};
               {| Key := "guest"; As := "netbird-guests"; Included := true |}];
     IncludeNew := false; Lands := LandsBoth |}.
Definition demo_new : Profile :=
  {| Claims := [roles_row ["groups"] FormatArray; demo_attribute "team" AttrTitle; demo_attribute "svc" AttrIsServiceAccount];
     Roles := [{| Key := "staff"; As := "network-staff"; Included := true |};
               {| Key := "guest"; As := "netbird-guests"; Included := false |};
               {| Key := "admin"; As := ""; Included := true |}];
     IncludeNew := true; Lands := LandsAccessToken |}.

Example demo_diff :
  Diff demo_old demo_new =
  [ claim_change ChangeMove ["roles"] ["groups"] "" "";
    claim_change ChangeRetype ["team"] [] "attribute:team" "attribute:title";
    claim_change ChangeAdd ["svc"] [] "" "attribute:is_service_account";
    claim_change ChangeRemove ["email"] [] "attribute:email" "";
    role_change ChangeRename "staff" "netbird-staff" "network-staff";
    role_change ChangeRemove "guest" "netbird-guests" "";
    role_change ChangeAdd "admin" "" "admin";
    claim_change ChangeLands [] [] "both" "access_token";
    claim_change ChangeIncludeNew [] [] "false" "true" ] ∧
  Diff demo_old demo_old = [].
Proof. split; vm_compute; reflexivity. Qed.

Example demo_suggest :
  ID <$> Suggest "Our NetBird (prod)" = Some "netbird" ∧ ID <$> Suggest "Home Assistant" = Some "home-assistant"
  ∧ Suggest "Vaultwarden" = None.
Proof. split_and!; vm_compute; reflexivity. Qed.

(** Every template, and the seed, is a shape that can be saved as it stands. *)
Example templates_are_valid :
  Forall (λ p, Normalize p = p ∧ Validate p = Accepted) (ActionsV1 :: (t_Profile <$> Templates)).
Proof. repeat constructor; vm_compute; reflexivity. Qed.

(** ** Facts: rows by their path *)
(** Rows a saved shape has: no key twice, and a key says the whole path. *)
Definition keyed (l : list Claim) : Prop := NoDup (rowKey <$> l).
Definition same_keys (a b : list Claim) : Prop :=
  ∀ c c', c ∈ a → c' ∈ b → rowKey c = rowKey c' → Path c = Path c'.

Lemma by_path_from l (m : gmap string Claim) k c :
  NoDup (rowKey <$> l) →
  (foldl (λ (m : gmap string Claim) c, <[rowKey c := c]> m) m l) !! k = Some c ↔
  (c ∈ l ∧ rowKey c = k) ∨ (¬ (k ∈ rowKey <$> l) ∧ m !! k = Some c).
Proof.
  revert m; induction l as [|x l IH]; intros m; csimpl.
  { intros _. setoid_rewrite elem_of_nil. naive_solver. }
  intros [Hx Hl]%NoDup_cons. rewrite (IH _ Hl), elem_of_cons, not_elem_of_cons.
  destruct (decide (rowKey x = k)) as [<-|Hne].
  - rewrite lookup_insert_eq. split.
    + intros [[? E]|[_ [= ->]]]; [|by left; auto]. destruct Hx. rewrite <- E. by apply list_elem_of_fmap_2.
    + intros [[[->|?] E]|[[] _]]; [by auto|by auto|done].
  - rewrite lookup_insert_ne by done. naive_solver.
Qed.

Lemma by_path_Some l k c : keyed l → by_path l !! k = Some c ↔ c ∈ l ∧ rowKey c = k.
Proof.
  intros Hl. unfold by_path. rewrite by_path_from by done. rewrite lookup_empty. naive_solver.
Qed.
Lemma by_path_None l k : keyed l → by_path l !! k = None ↔ k ∉ rowKey <$> l.
Proof.
  intros Hl. rewrite eq_None_not_Some. apply not_iff_compat. rewrite list_elem_of_fmap. unfold is_Some.
  setoid_rewrite (by_path_Some l k _ Hl). naive_solver.
Qed.

Lemma rowKey_path c c' :
  validate_row c = None → validate_row c' = None → rowKey c = rowKey c' → Path c = Path c'.
Proof.
  intros (? & ? & _)%validate_row_None (? & ? & _)%validate_row_None. by apply Join_NUL_inj.
Qed.

Lemma wf_same_keys p q : wf_profile p → wf_profile q → same_keys (Claims p) (Claims q).
Proof. intros Hp Hq c c' ? ?. apply rowKey_path; [by apply (wf_rows p)|by apply (wf_rows q)]. Qed.

Lemma wf_keyed p : wf_profile p → keyed (Claims p).
Proof.
  intros Hp. apply NoDup_alt. intros i j k.
  rewrite !list_lookup_fmap, !fmap_Some. intros (c & Hi & ->) (c' & Hj & E).
  destruct (decide (i = j)) as [|Hne]; [done|].
  destruct (wf_apart p Hp) as [_ Ha]. destruct (Ha i j c c' Hi Hj Hne) as [Hno _].
  destruct Hno. apply rowKey_path in E; [by rewrite E|apply (wf_rows p Hp)..]; eauto using list_elem_of_lookup_2.
Qed.

Lemma sameContent_iff a b :
  sameContent a b = true ↔
  Kind a = Kind b ∧ Source a = Source b ∧ Format a = Format b ∧
  TrimSpace (RawValue a) = TrimSpace (RawValue b) ∧ Join (IfRoles a) NUL = Join (IfRoles b) NUL.
Proof. unfold sameContent. rewrite !andb_true_iff, !bool_decide_eq_true. tauto. Qed.

(** ** Facts: the loop accounts for every row *)

(** The rows a kind of change is about, where they were and where they go. *)
Definition rows_of (kind : string) (d : list Change) : list (list string) :=
  ch_Path <$> filter (λ c, ch_Kind c = kind ∧ ch_Role c = "") d.
Definition moved_to (d : list Change) : list (list string) :=
  ch_NewPath <$> filter (λ c, ch_Kind c = ChangeMove) d.

(** A new row that stands where the old profile had the same content. *)
Definition kept_row (old : list Claim) (c : Claim) : Prop :=
  ∃ prev, by_path old !! rowKey c = Some prev ∧ sameContent prev c = true.
#[export] Instance kept_row_dec old c : Decision (kept_row old c).
Proof.
  destruct (by_path old !! rowKey c) as [prev|] eqn:E.
  - destruct (sameContent prev c) eqn:Es; [left; by exists prev|].
    right. intros (? & ? & ?). congruence.
  - right. intros (? & ? & ?). congruence.
Defined.
Definition kept_rows (old new : list Claim) : list Claim := filter (kept_row old) new.

Lemma rows_of_app k a b : rows_of k (a ++ b) = rows_of k a ++ rows_of k b.
Proof. unfold rows_of. by rewrite filter_app, fmap_app. Qed.
Lemma moved_to_app a b : moved_to (a ++ b) = moved_to a ++ moved_to b.
Proof. unfold moved_to. by rewrite filter_app, fmap_app. Qed.

Lemma rows_of_one k kind p q f t :
  rows_of k [claim_change kind p q f t] = if decide (kind = k) then [p] else [].
Proof. unfold rows_of. rewrite filter_cons. simpl. repeat case_decide; naive_solver. Qed.
Lemma moved_to_one kind p q f t :
  moved_to [claim_change kind p q f t] = if decide (kind = ChangeMove) then [q] else [].
Proof. unfold moved_to. rewrite filter_cons. simpl. by case_decide. Qed.

(** What the loop has written about the rows it has passed: [out] is about
    [seen], and every row gone at the start is still gone or has moved. *)
Record loop_inv (old gone0 seen gone : list Claim) (out : list Change) : Prop := {
  inv_gone : Path <$> gone0 ≡ₚ (Path <$> gone) ++ rows_of ChangeMove out;
  inv_retyped : rows_of ChangeRetype out =
    Path <$> filter (λ c, is_Some (by_path old !! rowKey c) ∧ ¬ kept_row old c) seen;
  inv_new : Path <$> filter (λ c, by_path old !! rowKey c = None) seen
    ≡ₚ moved_to out ++ rows_of ChangeAdd out;
  inv_claims : Forall (λ c, ch_Role c = "" ∧ ch_Kind c ∈ [ChangeRetype; ChangeMove; ChangeAdd]) out;
}.

Lemma delete_Permutation {A} (l : list A) i x : l !! i = Some x → l ≡ₚ x :: delete i l.
Proof. intros H. rewrite <- (take_drop_middle l i x H) at 1. rewrite delete_take_drop. by rewrite Permutation_middle. Qed.

Lemma diff_row_inv old gone0 seen gone out c :
  loop_inv old gone0 seen gone out →
  let '(gone', out') := diff_row (by_path old) (gone, out) c in
  loop_inv old gone0 (seen ++ [c]) gone' out'.
Proof.
  intros [Hg Hr Hn Hc]. unfold diff_row.
  destruct (by_path old !! rowKey c) as [prev|] eqn:Eo.
  - destruct (sameContent prev c) eqn:Es.
    + assert (kept_row old c) by (by exists prev).
      split; rewrite ?filter_app; simpl; rewrite ?fmap_app; [done| | |done].
      * rewrite Hr, filter_cons_False, app_nil_r; [done|naive_solver].
      * rewrite Hn, filter_cons_False by congruence. by rewrite app_nil_r.
    + assert (¬ kept_row old c) by (intros (? & ? & ?); congruence).
      split; rewrite ?filter_app, ?fmap_app, ?rows_of_app, ?moved_to_app.
      * rewrite Hg. rewrite rows_of_one. simpl. by rewrite app_nil_r.
      * rewrite Hr, filter_cons_True by (rewrite Eo; eauto). done.
      * rewrite Hn, filter_cons_False by congruence. rewrite rows_of_one, moved_to_one. simpl. by rewrite !app_nil_r.
      * apply Forall_app. split; [done|]. repeat constructor.
  - assert (Hno : ¬ (is_Some (by_path old !! rowKey c) ∧ ¬ kept_row old c)) by (rewrite Eo; intros [[? ?] _]; done).
    destruct (indexSame gone c) as [[i o]|] eqn:Ei.
    + apply list_find_Some in Ei as (Hi & _ & _).
      split; rewrite ?filter_app, ?fmap_app, ?rows_of_app, ?moved_to_app.
      * rewrite Hg, (fmap_Permutation Path _ _ (delete_Permutation gone i o Hi)).
        rewrite rows_of_one. csimpl. solve_Permutation.
      * rewrite Hr, (filter_cons_False _ c []) by done. done.
      * rewrite Hn, filter_cons_True by done. rewrite rows_of_one, moved_to_one. csimpl. solve_Permutation.
      * apply Forall_app. split; [done|]. repeat constructor.
    + split; rewrite ?filter_app, ?fmap_app, ?rows_of_app, ?moved_to_app.
      * rewrite Hg. rewrite rows_of_one. simpl. by rewrite app_nil_r.
      * rewrite Hr, (filter_cons_False _ c []) by done. done.
      * rewrite Hn, filter_cons_True by done. rewrite rows_of_one, moved_to_one. csimpl. solve_Permutation.
      * apply Forall_app. split; [done|]. repeat constructor.
Qed.

Lemma diff_rows_inv old gone0 seen gone out l :
  loop_inv old gone0 seen gone out →
  let '(gone', out') := foldl (diff_row (by_path old)) (gone, out) l in
  loop_inv old gone0 (seen ++ l) gone' out'.
Proof.
  revert seen gone out; induction l as [|c l IH]; intros seen gone out Hi; cbn [foldl]; [by rewrite app_nil_r|].
  apply (diff_row_inv _ _ _ _ _ c) in Hi. destruct (diff_row (by_path old) (gone, out) c) as [gone' out'].
  rewrite cons_middle, app_assoc. by apply IH.
Qed.

Lemma split_rows (P : Claim → Prop) `{∀ c, Decision (P c)} (l : list Claim) :
  Path <$> l ≡ₚ (Path <$> filter P l) ++ (Path <$> filter (λ c, ¬ P c) l).
Proof. rewrite <- fmap_app. apply fmap_Permutation. by rewrite filter_app_complement. Qed.

Lemma had_split (old new : list Claim) :
  Path <$> filter (λ c, is_Some (by_path old !! rowKey c)) new
  ≡ₚ (Path <$> kept_rows old new)
    ++ (Path <$> filter (λ c, is_Some (by_path old !! rowKey c) ∧ ¬ kept_row old c) new).
Proof.
  rewrite (split_rows (kept_row old)), !list_filter_filter. unfold kept_rows.
  rewrite (list_filter_iff (λ c, kept_row old c ∧ is_Some (by_path old !! rowKey c)) (kept_row old)).
  - f_equiv. apply reflexive_eq. f_equal. apply list_filter_iff. tauto.
  - intros c. split; [tauto|]. intros Hk. split; [done|]. destruct Hk as (p & Hp & _). eauto.
Qed.

(** The rows both profiles have stand at the same paths. *)
Lemma common_rows old new :
  keyed old → keyed new → same_keys old new →
  Path <$> filter (λ c, by_path new !! rowKey c ≠ None) old
  ≡ₚ Path <$> filter (λ c, is_Some (by_path old !! rowKey c)) new.
Proof.
  intros Ho Hn Hs.
  assert (Hnd : ∀ l (P : Claim → Prop) `{∀ c, Decision (P c)}, keyed l → NoDup (Path <$> filter P l)).
  { intros l P ? Hl. apply NoDup_fmap_filter. unfold keyed in Hl.
    assert (E : rowKey <$> l = pathKey <$> (Path <$> l)) by (by rewrite <- list_fmap_compose).
    rewrite E in Hl. by apply NoDup_fmap_1 in Hl. }
  apply NoDup_Permutation; [by apply Hnd..|]. intros p. rewrite !list_elem_of_fmap.
  setoid_rewrite list_elem_of_filter. split.
  - intros (c & -> & Hc & Hin). rewrite by_path_None in Hc by done. apply dec_stable in Hc.
    apply list_elem_of_fmap in Hc as (c' & E & Hc'). exists c'. split_and!; [by apply Hs| |done].
    exists c. by apply by_path_Some.
  - intros (c & -> & [c' [Hc' E]%by_path_Some] & Hin); [|done].
    exists c'. split_and!; [symmetry; by apply Hs| |done]. rewrite by_path_None by done. intros Hno.
    apply Hno. rewrite E. by apply list_elem_of_fmap_2.
Qed.

Definition claim_kinds : list string := [ChangeRetype; ChangeMove; ChangeAdd; ChangeRemove].

Lemma removed_rows (gone : list Claim) k :
  rows_of k ((λ c, claim_change ChangeRemove (Path c) [] (describe c) "") <$> gone)
  = if decide (k = ChangeRemove) then Path <$> gone else [].
Proof.
  induction gone as [|c gone IH]; csimpl; [by case_decide|].
  etrans; [apply (rows_of_app k [_])|]. rewrite rows_of_one, IH. repeat case_decide; by subst.
Qed.

Lemma claim_changes_account old new :
  keyed old → keyed new → same_keys old new →
  let d := claim_changes old new in
  let kept := Path <$> kept_rows old new in
  Path <$> old ≡ₚ kept ++ rows_of ChangeRetype d ++ rows_of ChangeMove d ++ rows_of ChangeRemove d ∧
  Path <$> new ≡ₚ kept ++ rows_of ChangeRetype d ++ moved_to d ++ rows_of ChangeAdd d ∧
  Forall (λ c, ch_Role c = "" ∧ ch_Kind c ∈ claim_kinds) d.
Proof.
  intros Ho Hn Hs. unfold claim_changes.
  set (gone0 := filter (λ c, by_path new !! rowKey c = None) old).
  pose proof (diff_rows_inv old gone0 [] gone0 [] new) as Hi.
  destruct (foldl (diff_row (by_path old)) (gone0, []) new) as [gone out].
  destruct Hi as [Hg Hr Hnew Hc]; [split; csimpl; rewrite ?app_nil_r; done|]. simpl in Hr, Hnew. cbv zeta.
  assert (Hm : moved_to ((λ c, claim_change ChangeRemove (Path c) [] (describe c) "") <$> gone) = []).
  { clear. induction gone as [|c gone IH]; csimpl; [done|].
    etrans; [apply (moved_to_app [_])|]. by rewrite moved_to_one, IH. }
  assert (Hrem : rows_of ChangeRemove out = []).
  { unfold rows_of. rewrite filter_none; [done|]. intros c Hin [Hk _].
    rewrite Forall_forall in Hc. apply Hc in Hin as [_ Hin]. rewrite Hk in Hin. set_solver. }
  rewrite !rows_of_app, !moved_to_app, !removed_rows, Hm, Hrem. simpl. rewrite !app_nil_r.
  split_and!.
  - rewrite (split_rows (λ c, by_path new !! rowKey c = None) old).
    rewrite (common_rows old new Ho Hn Hs), had_split, <- Hr.
    fold gone0. rewrite Hg. solve_Permutation.
  - rewrite (split_rows (λ c, by_path old !! rowKey c = None) new), Hnew.
    assert (E : filter (λ c, by_path old !! rowKey c ≠ None) new = filter (λ c, is_Some (by_path old !! rowKey c)) new)
      by (apply list_filter_iff; intros c; by rewrite not_eq_None_Some).
    rewrite E, had_split, <- Hr. solve_Permutation.
  - apply Forall_app. split; [eapply Forall_impl; [exact Hc|]; simpl; intros ? [? ?]; split; [done|]; set_solver|].
    apply Forall_fmap, Forall_true. intros c. split; [done|]. unfold claim_kinds. set_solver.
Qed.

(** ** Facts: roles *)
Lemma role_in_mapped l b m :
  NoDup (Key <$> l) → m ∈ l → role_in l b (Key m) = (Included m, word m).
Proof.
  induction l as [|x l IH]; [set_solver|]. csimpl. intros [Hx Hl]%NoDup_cons [->|Hm]%elem_of_cons.
  - by rewrite bool_decide_true.
  - rewrite bool_decide_false; [by apply IH|]. intros E. apply Hx. rewrite E. by apply list_elem_of_fmap_2.
Qed.
Lemma role_in_unmapped l b k : k ∉ Key <$> l → role_in l b k = (b, k).
Proof.
  induction l as [|x l IH]; csimpl; [done|]. intros [Hx Hl]%not_elem_of_cons.
  rewrite bool_decide_false by congruence. by apply IH.
Qed.

(** The words of a token are the words [role] gives the roles held. *)
Lemma Words_role p held w :
  NoDup (Key <$> Roles p) → w ∈ Words p held ↔ ∃ k, k ∈ held ∧ role p k = (true, w).
Proof.
  intros Hnd. destruct (Words_facts p held) as [_ ->]. unfold role. split.
  - intros [(m & Hm & Hi & Hk & <-)|(Hn & Hh & Hm)].
    + exists (Key m). rewrite role_in_mapped, Hi by done. done.
    + exists w. by rewrite role_in_unmapped, Hn by done.
  - intros (k & Hk & Hr). destruct (decide (k ∈ Key <$> Roles p)) as [(m & -> & Hm)%list_elem_of_fmap|Hm].
    + rewrite role_in_mapped in Hr by done. injection Hr as Hi Hw. left. eauto.
    + rewrite role_in_unmapped in Hr by done. injection Hr as Hi ->. by right.
Qed.

Lemma role_ends_words p f w :
  w ∈ (role_ends p f).*1 ↔ ∃ k, k ∈ f_Roles f ∧ is_Some (RoleEnds f !! k) ∧ role p k = (true, w).
Proof.
  unfold role_ends.
  assert (H : ∀ l ends, w ∈ (foldl (add_role_end p f) ends l).*1 ↔
    w ∈ ends.*1 ∨ ∃ k, k ∈ l ∧ is_Some (RoleEnds f !! k) ∧ role p k = (true, w)).
  2: { rewrite H. set_solver. }
  induction l as [|r l IH]; intros ends; simpl; [set_solver|]. rewrite IH. setoid_rewrite elem_of_cons.
  assert (Hr : w ∈ (add_role_end p f ends r).*1 ↔ w ∈ ends.*1 ∨ (is_Some (RoleEnds f !! r) ∧ role p r = (true, w))).
  2: { rewrite Hr. naive_solver. }
  unfold add_role_end. destruct (RoleEnds f !! r) as [date|]; [|split; [auto|intros [?|[[? ?] _]]; done]].
  destruct (role p r) as [[] w']; [|naive_solver].
  assert (Hset : w ∈ (Set_ ends w' date).*1 ↔ w ∈ ends.*1 ∨ w' = w).
  { rewrite keys_Set. case_bool_decide; [|set_solver]. split; [auto|]. by intros [?| <-]. }
  destruct (Get ends w') as [prev|] eqn:Eg; [|rewrite Hset; naive_solver].
  assert (w' ∈ ends.*1) by (destruct (decide (w' ∈ ends.*1)) as [|Hn]; [done|apply Get_None in Hn; congruence]).
  case_match; rewrite ?Hset; naive_solver.
Qed.

Lemma elem_of_changed_keys old new k : k ∈ changed_keys old new ↔ k ∈ Key <$> (Roles new ++ Roles old).
Proof.
  destruct (foldl_add_word (λ _, true) Key (Roles new ++ Roles old) [] ltac:(constructor)) as [_ H].
  etrans; [apply H|]. rewrite list_elem_of_fmap. set_solver.
Qed.

Lemma role_diff_role old new k c : c ∈ role_diff old new k → ch_Role c = k ∧ ch_Kind c ≠ ChangeMove.
Proof.
  unfold role_diff. destruct (role old k) as [oi ow], (role new k) as [ni nw].
  repeat case_match; try set_solver; intros ->%list_elem_of_singleton; by split.
Qed.

Lemma role_changes_keys old new c :
  wf_profile old → wf_profile new → c ∈ role_changes old new → ch_Role c ≠ "" ∧ ch_Kind c ≠ ChangeMove.
Proof.
  intros Ho Hn. unfold role_changes. case_match; [|set_solver].
  intros (k & Hc & Hk)%list_elem_of_bind. apply role_diff_role in Hc as [-> ?].
  apply elem_of_changed_keys, list_elem_of_fmap in Hk as (m & -> & Hm).
  split; [|done]. apply elem_of_app in Hm as [?|?]; [by apply (wf_keys new)|by apply (wf_keys old)].
Qed.

(** ** Facts: the whole difference *)
Lemma rows_of_Diff k old new :
  wf_profile (Normalize old) → wf_profile (Normalize new) → k ∈ claim_kinds →
  rows_of k (Diff old new) = rows_of k (claim_changes (Claims (Normalize old)) (Claims (Normalize new))).
Proof.
  intros Ho Hn Hk. unfold Diff. rewrite !rows_of_app.
  assert (E1 : rows_of k (role_changes (Normalize old) (Normalize new)) = []).
  { unfold rows_of. rewrite filter_none; [done|]. intros c Hc [_ Hr].
    apply role_changes_keys in Hc as [? _]; done. }
  rewrite E1. repeat case_match; rewrite ?rows_of_one; repeat case_decide; subst;
    rewrite ?app_nil_r; try done; unfold claim_kinds in Hk; set_solver.
Qed.

Lemma moved_to_Diff old new :
  wf_profile (Normalize old) → wf_profile (Normalize new) →
  moved_to (Diff old new) = moved_to (claim_changes (Claims (Normalize old)) (Claims (Normalize new))).
Proof.
  intros Ho Hn. unfold Diff. rewrite !moved_to_app.
  assert (E1 : moved_to (role_changes (Normalize old) (Normalize new)) = []).
  { unfold moved_to. rewrite filter_none; [done|]. intros c Hc Hr.
    apply role_changes_keys in Hc as [_ ?]; done. }
  rewrite E1. repeat case_match; by rewrite ?moved_to_one, ?app_nil_r.
Qed.

Section unbroken.
Context (t : Template) (old new : Profile).
Let o := Normalize old.
Let n := Normalize new.
Hypothesis Ho : wf_profile o.
Hypothesis Hn : wf_profile n.
Hypothesis Hacts : Breaks t ≠ BreaksNever.
Hypothesis Hquiet : Breaking t (Diff old new) = [].

(** The words this template's app acts on. *)
Definition protected (w : string) : Prop :=
  Breaks t = BreaksAdminsUsers → w = "admins" ∨ w = "users".

Lemma no_break c : c ∈ Diff old new → breaks t c = false.
Proof.
  intros Hc. apply not_true_iff_false. intros Hb. assert (c ∈ Breaking t (Diff old new)) as Hin.
  { apply list_elem_of_filter. by split. }
  rewrite Hquiet in Hin. set_solver.
Qed.

Lemma breaks_claim c :
  ch_Role c = "" → ch_Kind c ∈ [ChangeRemove; ChangeMove; ChangeRetype; ChangeLands] → breaks t c = true.
Proof. intros Hr Hk. unfold breaks. rewrite bool_decide_false by done. by rewrite !bool_decide_true. Qed.

Lemma quiet_rows k : k ∈ [ChangeRemove; ChangeMove; ChangeRetype] → rows_of k (Diff old new) = [].
Proof.
  intros Hk. unfold rows_of. rewrite filter_none; [done|]. intros c Hc [E Hr].
  apply no_break in Hc. rewrite breaks_claim in Hc; [done|done|]. rewrite E. set_solver.
Qed.

Lemma quiet_lands : Lands o = Lands n.
Proof.
  destruct (decide (Lands o = Lands n)) as [|Hne]; [done|].
  assert (Hc : claim_change ChangeLands [] [] (Lands o) (Lands n) ∈ Diff old new).
  { unfold Diff. fold o n. rewrite (bool_decide_false (Lands o = Lands n)) by done. simpl. set_solver. }
  apply no_break in Hc. rewrite breaks_claim in Hc; [done|done|]. simpl. set_solver.
Qed.

Lemma quiet_row c : c ∈ Claims o → ∃ c', c' ∈ Claims n ∧ Path c' = Path c ∧ sameContent c c' = true.
Proof.
  intros Hc.
  destruct (claim_changes_account (Claims o) (Claims n)) as (Hp & _ & _);
    [by apply wf_keyed|by apply wf_keyed|by apply wf_same_keys|].
  unfold o, n in Hp. rewrite <- !rows_of_Diff in Hp by (done || unfold claim_kinds; set_solver).
  rewrite !quiet_rows, !app_nil_r in Hp by set_solver. fold o n in Hp.
  assert (Hin : Path c ∈ Path <$> kept_rows (Claims o) (Claims n)).
  { rewrite <- Hp. by apply list_elem_of_fmap_2. }
  apply list_elem_of_fmap in Hin as (c' & E & [(prev & Hprev & Hs) Hc']%list_elem_of_filter).
  assert (Hk : by_path (Claims o) !! rowKey c' = Some c).
  { apply by_path_Some; [by apply wf_keyed|]. split; [done|]. unfold rowKey. by rewrite E. }
  rewrite Hprev in Hk. injection Hk as ->. eauto.
Qed.

Lemma quiet_sendsRoles : sendsRoles o = true → sendsRoles n = true.
Proof.
  unfold sendsRoles. rewrite !existsb_elem. intros (c & Hc & Hk).
  destruct (quiet_row c Hc) as (c' & ? & _ & (E & _)%sameContent_iff). exists c'. by rewrite <- E.
Qed.

(** A role the app sees keeps its word, when the word is one the app acts on. *)
Lemma quiet_role k w :
  sendsRoles o = true → (IncludeNew o = true → IncludeNew n = true ∨ k ∈ Key <$> (Roles n ++ Roles o)) →
  protected w → role o k = (true, w) → role n k = (true, w).
Proof.
  intros Hs Hi Hw Hr. destruct (decide (k ∈ Key <$> (Roles n ++ Roles o))) as [Hk|Hk].
  2: { rewrite fmap_app, not_elem_of_app in Hk. destruct Hk as [Hkn Hko]. unfold role in *.
       rewrite role_in_unmapped in Hr by done. injection Hr as Hinc <-.
       rewrite role_in_unmapped by done. destruct (Hi Hinc) as [->|Hkk]; [done|]. rewrite fmap_app, elem_of_app in Hkk. by destruct Hkk. }
  assert (Hd : ∀ c, c ∈ role_diff o n k → breaks t c = false).
  { intros c Hc. apply no_break. unfold Diff. fold o n. apply elem_of_app. right. apply elem_of_app. left.
    unfold role_changes. rewrite Hs, quiet_sendsRoles by done. simpl.
    apply list_elem_of_bind. exists k. split; [done|]. by apply elem_of_changed_keys. }
  assert (k ≠ "").
  { apply list_elem_of_fmap in Hk as (m & -> & [Hm|Hm]%elem_of_app); [by apply (wf_keys n)|by apply (wf_keys o)]. }
  assert (Hb : ∀ c, ch_Role c = k → ch_Kind c ∈ [ChangeRename; ChangeRemove] → ch_From c = w → breaks t c = true).
  { intros c E Hkind Hfrom. unfold breaks. rewrite (bool_decide_false (Breaks t = BreaksNever)) by done.
    rewrite bool_decide_false by congruence. destruct (ch_Kind c <>? ChangeRename) eqn:E1, (ch_Kind c <>? ChangeRemove) eqn:E2.
    { apply negb_true_iff, bool_decide_eq_false in E1, E2. set_solver. }
    all: clear E1 E2; simpl; case_bool_decide as Ha; [|done]; apply orb_true_iff; rewrite !bool_decide_eq_true, Hfrom; auto. }
  unfold role_diff in Hd. rewrite Hr in Hd. destruct (role n k) as [ni nw] eqn:E. simpl in Hd.
  destruct ni; simpl in Hd.
  - case_bool_decide as Hww; [by subst|]. simpl in Hd.
    specialize (Hd _ ltac:(left)). rewrite Hb in Hd; [done|done|simpl; set_solver|done].
  - specialize (Hd _ ltac:(left)). rewrite Hb in Hd; [done|done|simpl; set_solver|done].
Qed.
End unbroken.

(** ** Facts: when nothing changed *)
Record same_shape (o n : Profile) : Prop := {
  ss_lands : Lands o = Lands n;
  ss_new : IncludeNew o = IncludeNew n;
  ss_old_rows : ∀ c, c ∈ Claims o → ∃ c', c' ∈ Claims n ∧ Path c' = Path c ∧ sameContent c c' = true;
  ss_new_rows : ∀ c', c' ∈ Claims n → ∃ c, c ∈ Claims o ∧ Path c' = Path c ∧ sameContent c c' = true;
  ss_roles : sendsRoles o = true → sendsRoles n = true →
    ∀ k, role o k = role n k ∨ ((role o k).1 = false ∧ (role n k).1 = false);
}.

Lemma role_diff_nil o n k :
  role_diff o n k = [] ↔ role o k = role n k ∨ ((role o k).1 = false ∧ (role n k).1 = false).
Proof.
  unfold role_diff. destruct (role o k) as [oi ow], (role n k) as [ni nw].
  destruct oi, ni; simpl; [case_bool_decide; simpl|..]; naive_solver.
Qed.

Lemma role_changes_nil o n :
  IncludeNew o = IncludeNew n →
  role_changes o n = [] ↔
  (sendsRoles o = true → sendsRoles n = true →
   ∀ k, role o k = role n k ∨ ((role o k).1 = false ∧ (role n k).1 = false)).
Proof.
  intros Hi. unfold role_changes. destruct (sendsRoles o), (sendsRoles n); simpl; [|by split..].
  setoid_rewrite <- role_diff_nil. split.
  - intros Hd _ _ k. destruct (decide (k ∈ changed_keys o n)) as [Hk|Hk].
    + apply elem_of_nil_inv. intros c Hc. assert (Hin : c ∈ changed_keys o n ≫= role_diff o n).
      { apply list_elem_of_bind. by exists k. }
      rewrite Hd in Hin. set_solver.
    + rewrite elem_of_changed_keys, fmap_app, not_elem_of_app in Hk. destruct Hk as [Hkn Hko].
      apply role_diff_nil. left. unfold role. by rewrite !role_in_unmapped, Hi by done.
  - intros Hd. apply elem_of_nil_inv. intros c (k & Hc & _)%list_elem_of_bind.
    rewrite Hd in Hc by done. set_solver.
Qed.

Lemma kept_all old l gone out :
  Forall (kept_row old) l → foldl (diff_row (by_path old)) (gone, out) l = (gone, out).
Proof.
  induction 1 as [|c l (prev & Hp & Hs) _ IH]; [done|]. cbn [foldl].
  unfold diff_row at 2. by rewrite Hp, Hs.
Qed.

Lemma kept_row_iff old c :
  keyed old → kept_row old c ↔ ∃ p, p ∈ old ∧ rowKey p = rowKey c ∧ sameContent p c = true.
Proof. intros Ho. unfold kept_row. setoid_rewrite (by_path_Some old _ _ Ho). naive_solver. Qed.

Lemma claim_changes_nil old new :
  keyed old → keyed new → same_keys old new →
  claim_changes old new = [] ↔
  (∀ c, c ∈ old → ∃ c', c' ∈ new ∧ Path c' = Path c ∧ sameContent c c' = true) ∧
  (∀ c', c' ∈ new → ∃ c, c ∈ old ∧ Path c' = Path c ∧ sameContent c c' = true).
Proof.
  intros Ho Hn Hs. split.
  - intros Hd. destruct (claim_changes_account old new Ho Hn Hs) as (Hpo & Hpn & _).
    rewrite Hd in Hpo, Hpn. unfold rows_of, moved_to in Hpo, Hpn. simpl in Hpo, Hpn. rewrite app_nil_r in Hpo, Hpn.
    assert (Hkept : ∀ c, Path c ∈ Path <$> kept_rows old new →
      ∃ p c', p ∈ old ∧ c' ∈ new ∧ Path c' = Path c ∧ rowKey p = rowKey c' ∧ sameContent p c' = true).
    { intros c (c' & E & [Hk Hc']%list_elem_of_filter)%list_elem_of_fmap.
      apply kept_row_iff in Hk as (p & ? & ? & ?); [|done]. exists p, c'. by split_and!. }
    assert (Hinj : ∀ l a b, keyed l → a ∈ l → b ∈ l → rowKey a = rowKey b → a = b).
    { intros l a b Hl Ha Hb E. assert (by_path l !! rowKey a = Some a) by (by apply by_path_Some).
      assert (by_path l !! rowKey a = Some b) by (by apply by_path_Some). congruence. }
    split; intros c Hc.
    + destruct (Hkept c) as (p & c' & Hp & Hc' & E & Ek & Hsame); [rewrite <- Hpo; by apply list_elem_of_fmap_2|].
      exists c'. split_and!; [done..|]. rewrite <- (Hinj old p c); [done..|]. rewrite Ek. unfold rowKey. by rewrite E.
    + destruct (Hkept c) as (p & c' & Hp & Hc' & E & Ek & Hsame); [rewrite <- Hpn; by apply list_elem_of_fmap_2|].
      assert (c' = c) as ->. { apply (Hinj new); [done..|]. unfold rowKey. by rewrite E. }
      exists p. split_and!; [done| |done]. symmetry. by apply Hs.
  - intros [Hold Hnew]. unfold claim_changes.
    rewrite (filter_none _ old).
    2: { intros c (c' & Hc' & E & _)%Hold. rewrite by_path_None by done. intros Hno. apply Hno.
         apply list_elem_of_fmap. exists c'. split; [|done]. unfold rowKey. by rewrite E. }
    rewrite (kept_all old); [done|]. apply Forall_forall. intros c' Hc'.
    destruct (Hnew c' Hc') as (c & Hc & E & Hsame). apply kept_row_iff; [done|].
    exists c. split_and!; [done| |done]. unfold rowKey. by rewrite E.
Qed.

(** ** Properties *)

(** Which value a row still has for an app whose template acts on the words
    [protected] says: the same list of roles or a longer one, in the same
    format; an end date for every word that had one; the same value otherwise
    (a fixed value up to the white space around it). *)
Definition still_reads (t : Template) (o n : Profile) (f : Facts) (c c' : Claim) : Prop :=
  if Kind c =? KindRoles then
    claim_value c o f = Some (FormatRoles (Words o (f_Roles f)) (Format c)) ∧
    claim_value c' n f = Some (FormatRoles (Words n (f_Roles f)) (Format c)) ∧
    ∀ w, protected t w → w ∈ Words o (f_Roles f) → w ∈ Words n (f_Roles f)
  else if Kind c =? KindRoleEnds then
    ∀ w, protected t w → w ∈ (role_ends o f).*1 → w ∈ (role_ends n f).*1
  else if Kind c =? KindStatic then TrimSpace (RawValue c') = TrimSpace (RawValue c)
  else if Kind c =? KindIfRole then
    Forall nul_free (IfRoles c) → Forall nul_free (IfRoles c') → claim_value c' n f = claim_value c o f
  else claim_value c' n f = claim_value c o f.

Lemma Join_NUL_inj_nil p q :
  Forall nul_free p → Forall nul_free q → p ≠ [] ∧ q ≠ [] → Join p NUL = Join q NUL → p = q.
Proof. intros ?? [? ?]. by apply Join_NUL_inj. Qed.

Lemma valid_if_role c : validate_row c = None → Kind c = KindIfRole → IfRoles c ≠ [].
Proof.
  unfold validate_row. intros Hv Hk. repeat case_match; try done.
  unfold validateKind in Hv. rewrite Hk in Hv. vm_compute (KindIfRole =? _) in Hv. simpl in Hv.
  by destruct (IfRoles c).
Qed.

Lemma still_reads_row t o n f c c' :
  wf_profile o → wf_profile n → c ∈ Claims o → c' ∈ Claims n →
  sameContent c c' = true →
  (sendsRoles o = true → ∀ k w, k ∈ f_Roles f → protected t w → role o k = (true, w) → role n k = (true, w)) →
  still_reads t o n f c c'.
Proof.
  intros Ho Hn Hc Hc' (Ek & Es & Ef & Er & Ei)%sameContent_iff Hroles.
  assert (Hsend : Kind c = KindRoles ∨ Kind c = KindRoleEnds → sendsRoles o = true).
  { intros Hk. apply existsb_elem. exists c. split; [done|]. apply orb_true_iff. by rewrite !bool_decide_eq_true. }
  unfold still_reads, claim_value. rewrite <- Ek, <- Es, <- Ef.
  case_bool_decide as Hk1.
  { split_and!; [done..|]. intros w Hw. rewrite !Words_role by (by apply wf_keys_once).
    intros (k & Hk & Hr). exists k. split; [done|]. by apply Hroles; auto. }
  case_bool_decide as Hk2.
  { intros w Hw. rewrite !role_ends_words. intros (k & ? & ? & Hr). exists k. split_and!; [done..|].
    by apply Hroles; auto. }
  case_bool_decide as Hk3; [done|].
  case_bool_decide as Hk4.
  { intros H1 H2. assert (E : IfRoles c' = IfRoles c).
    { symmetry. apply Join_NUL_inj_nil; [done..| |done].
      split; eapply valid_if_role; [by apply (wf_rows o)|done|by apply (wf_rows n)|congruence]. }
    by rewrite Hk4, E. }
  by case_match.
Qed.

(** None of these roles is newly left out for having been added later: either
    roles added later stay in, or the old shape or the new one names each. *)
Definition later_kept (old new : Profile) (held : list string) : Prop :=
  IncludeNew old = true → IncludeNew new = true ∨ Forall (λ k, k ∈ Key <$> (Roles (Normalize new) ++ Roles (Normalize old))) held.
Lemma still_reads_unbroken t old new f c :
  Validate (Normalize old) = Accepted → Validate (Normalize new) = Accepted →
  Breaks t ≠ BreaksNever → Breaking t (Diff old new) = [] →
  later_kept old new (f_Roles f) →
  c ∈ Claims (Normalize old) →
  Lands (Normalize new) = Lands (Normalize old) ∧
  ∃ c', c' ∈ Claims (Normalize new) ∧ Path c' = Path c ∧
    get_path (Shape (Normalize new) f) (Path c) = claim_value c' (Normalize new) f ∧
    still_reads t (Normalize old) (Normalize new) f c c'.
Proof.
  intros Ho%Validate_wf Hn%Validate_wf Ht Hq Hi Hc.
  split; [symmetry; by apply (quiet_lands t)|].
  destruct (quiet_row t old new Ho Hn Ht Hq c Hc) as (c' & Hc' & E & Hs).
  exists c'. split_and!; [done..| |].
  - rewrite <- E. apply Shape_get; [by apply wf_apart|done].
  - apply still_reads_row; [done..|]. intros Hsr k w Hk Hw Hr.
    apply (quiet_role t old new Ho Hn Ht Hq k w Hsr); [|done|done].
    intros Hinc. destruct (Hi Hinc) as [?|Hall]; [by left|right]. by rewrite Forall_forall in Hall; apply Hall.
Qed.

(** The change list accounts for every row exactly once: each row of the old
    profile is kept, retyped, moved away or removed, each row of the new one
    is kept, retyped, moved there or added. *)
Theorem Diff_accounts_for_rows old new :
  Validate (Normalize old) = Accepted → Validate (Normalize new) = Accepted →
  let o := Normalize old in
  let n := Normalize new in
  let d := Diff old new in
  let kept := Path <$> kept_rows (Claims o) (Claims n) in
  Path <$> Claims o ≡ₚ kept ++ rows_of ChangeRetype d ++ rows_of ChangeMove d ++ rows_of ChangeRemove d ∧
  Path <$> Claims n ≡ₚ kept ++ rows_of ChangeRetype d ++ moved_to d ++ rows_of ChangeAdd d.
Proof.
  intros Ho%Validate_wf Hn%Validate_wf. cbv zeta.
  rewrite !rows_of_Diff, moved_to_Diff by first [done|unfold claim_kinds; set_solver].
  destruct (claim_changes_account (Claims (Normalize old)) (Claims (Normalize new))) as (H1 & H2 & _);
    [by apply wf_keyed|by apply wf_keyed|by apply wf_same_keys|by split].
Qed.

Lemma Diff_accounts_for_rows_witness :
  Path <$> Claims demo_new ≡ₚ [["team"]; ["groups"]; ["svc"]].
Proof.
  destruct (Diff_accounts_for_rows demo_old demo_new) as [_ H]; [vm_compute; reflexivity..|].
  assert (E : Normalize demo_new = demo_new) by (vm_compute; reflexivity). rewrite E in H.
  etrans; [exact H|]. vm_compute. reflexivity.
Defined.

(** The change list is empty exactly when nothing an app could see differs:
    where the claims land, what happens to roles added later, the rows with
    their contents, and, where both send roles, the word of every role that
    either shows. *)
Theorem Diff_empty_iff old new :
  Validate (Normalize old) = Accepted → Validate (Normalize new) = Accepted →
  Diff old new = [] ↔ same_shape (Normalize old) (Normalize new).
Proof.
  intros Ho%Validate_wf Hn%Validate_wf. unfold Diff. rewrite !app_nil.
  rewrite claim_changes_nil by first [by apply wf_keyed|by apply wf_same_keys].
  split.
  - intros ((H1 & H2) & Hr & Hl & Hi).
    assert (El : Lands (Normalize old) = Lands (Normalize new)) by (destruct (decide (Lands (Normalize old) = Lands (Normalize new))); [done|by rewrite bool_decide_false in Hl]).
    assert (Ei : IncludeNew (Normalize old) = IncludeNew (Normalize new)) by (destruct (decide (IncludeNew (Normalize old) = IncludeNew (Normalize new))); [done|by rewrite bool_decide_false in Hi]).
    split; [done|done|done|done|]. by apply role_changes_nil.
  - intros [El Ei H1 H2 Hr]. split_and!; [done..|by apply role_changes_nil|by rewrite bool_decide_true|by rewrite bool_decide_true].
Qed.

Lemma Diff_empty_iff_witness : same_shape (Normalize demo_old) (Normalize demo_old).
Proof. apply (Diff_empty_iff demo_old demo_old); vm_compute; reflexivity. Defined.

(** A save that warns of nothing takes nothing away. For a template whose app
    acts on changes, if no change is breaking (and no role the person holds is
    newly left out for having been added later), then the claims land where they landed and every claim of
    the old shape is still in the token, at its path, with its content: the
    list of roles only grows by the words the app acts on. *)
Theorem unbroken_app_still_reads t old new f c :
  Validate (Normalize old) = Accepted → Validate (Normalize new) = Accepted →
  Breaks t ≠ BreaksNever → Breaking t (Diff old new) = [] →
  later_kept old new (f_Roles f) →
  c ∈ Claims (Normalize old) →
  Lands (Normalize new) = Lands (Normalize old) ∧
  ∃ c', c' ∈ Claims (Normalize new) ∧ Path c' = Path c ∧
    get_path (Shape (Normalize new) f) (Path c) = claim_value c' (Normalize new) f ∧
    still_reads t (Normalize old) (Normalize new) f c c'.
Proof. apply still_reads_unbroken. Qed.

Definition demo_netbird : Profile :=
  {| Claims := groups ["groups"]; Roles := [{| Key := "staff"; As := "Staff"; Included := true |}];
     IncludeNew := false; Lands := LandsBoth |}.
Definition demo_netbird_more : Profile :=
  {| Claims := demo_attribute "email" AttrEmail :: groups ["groups"];
     Roles := [{| Key := "admin"; As := ""; Included := true |}; {| Key := "staff"; As := " Staff "; Included := true |}];
     IncludeNew := false; Lands := "" |}.

Lemma unbroken_app_still_reads_witness :
  Breaking (nth 0 Templates (nth 0 templates (Build_Template "" 0 "" "" Builtin "" "" "")))
    (Diff demo_netbird demo_netbird_more) = [] ∧
  Lands (Normalize demo_netbird_more) = LandsBoth.
Proof.
  split; [vm_compute; reflexivity|].
  destruct (unbroken_app_still_reads
    (nth 0 Templates (nth 0 templates (Build_Template "" 0 "" "" Builtin "" "" "")))
    demo_netbird demo_netbird_more demo_facts (roles_row ["groups"] FormatArray)) as [H _];
    [vm_compute; reflexivity..| |vm_compute; reflexivity|discriminate| |exact H].
  - vm_compute. discriminate.
  - left.
Defined.

(** Leaving out the roles added later is not among the breaking changes of any
    template. The shape every older app was seeded with names no role, so
    leaving them out there takes every role away, and no save warns of it. *)
Example later_roles_left_out_unwarned :
  let shut := {| Claims := Claims ActionsV1; Roles := Roles ActionsV1; IncludeNew := false; Lands := Lands ActionsV1 |} in
  Forall (λ t, Breaking t (Diff ActionsV1 shut) = []) Templates ∧
  Words ActionsV1 ["staff"; "laser"] = ["staff"; "laser"] ∧ Words shut ["staff"; "laser"] = [].
Proof. cbv zeta. split_and!; [repeat constructor|..]; vm_compute; reflexivity. Qed.

(** Where the claims reach is where the data plane answers: userinfo exactly
    when it answers the userinfo function, a JWT exactly when it answers the
    access token one. *)
Lemma ReachedBy_LandsIn p :
  ReachedBy (Lands p) true true !! ReadsUserinfo = Some (LandsIn p FunctionPreUserinfo) ∧
  ReachedBy (Lands p) true true !! ReadsAccessToken = Some (LandsIn p FunctionPreAccessToken).
Proof.
  unfold ReachedBy, LandsIn. split; [|by rewrite lookup_insert_eq, andb_true_r].
  rewrite !lookup_insert_ne by done. by rewrite lookup_singleton_eq.
Qed.
