(* ===== verification/ClaimShape.v ===== *)
(** * ClaimShape: saved shapes and what an application is told
      (backend/internal/services/claim_shape.go, db/claim_shapes.go,
      db/claim_profiles.go)

    The table of immutable shape versions and the projects' defaults; reading
    the shape that applies, saving, going back, drafting and seeding. No
    transaction spans a save: it reads the table, then one INSERT takes the next
    version in a snapshot of its own and lands on whatever is there by then, so
    a save has the table three times. Counting whom a breaking change reaches
    is left out of the refusal that carries it. *)

From S2P Require Import Prelude Json Claims ClaimDiff.

Inductive InvalidShape :=
  | InvMsg (m : Msg)
  | InvUnknownTemplate (id : string)
  | InvRoleNotHere (key : string)
  | InvNameOneSource
  | InvClaimNameRequired.

Inductive ShapeError :=
  | ErrRead                                  (* the directory or the database did not answer *)
  | ErrClaimShapeNotFound
  | ClaimShapeInvalid (row : Z) (what : InvalidShape)
  | BreakingUnacknowledged (breaking : list Change)
  | ErrClaimShapeRace
  | ErrPanic.                                (* [Validate] indexing out of range; see Validate_spec *)

Notation "'let?' p := r 'in' k" := (match r with inl e => inl e | inr p => k end)
  (at level 10, p pattern, k at level 200) : syndra_scope.

(** ** The directory's answers *)
Record Application := {
  app_ID : string;
  app_Name : string;
  app_ProjectID : string;
  app_ClientID : string;
  app_Created : option Z;     (* None: the zero time *)
}.
Record ProjectRole := { pr_Key : string; pr_Label : string }.

Record Dir := {
  FindApplication : string → ShapeError + option Application;
  RoleKeysForProject : string → ShapeError + list string;
  FindProject : string → ShapeError + (list ProjectRole * bool);
  Applications : ShapeError + list Application;
}.

(** ** The tables *)
Record ClaimShapeVersion := {
  v_ApplicationID : string;
  v_Version : Z;
  v_ProjectID : string;
  v_ClientID : string;
  v_Profile : Profile;
  v_TemplateID : string;
  v_TemplateVersion : Z;
  v_CopiedFromApp : string;
  v_CopiedFromVersion : Z;
  v_RestoredFrom : Z;
  v_Note : string;
  v_SavedBy : string;
  v_SavedAt : Z;
}.

Section tables.
(** [A] is what a JSON value decodes into, [marshal] its encoding; [jsonb] is
    the text a JSONB column gives back for a literal. *)
Context {A : Type} (marshal : A → option string) (jsonb : string → string).

Record ClaimProfileRow := {
  r_ProjectID : string;
  r_ClaimName : string;
  r_FormatType : string;
  r_AttributeClaims : gmap string string;
  r_StaticClaims : gmap string A;
}.

Record ShapeDb := {
  versions : list ClaimShapeVersion;            (* in the order they landed *)
  profiles : gmap string ClaimProfileRow;
  seed_cutoff : Z;
}.

(** Which statements the connection answers in this call, and the clock. *)
Record Answers := {
  profile_read : bool;
  shapes_read : bool;
  cutoff_read : bool;
  write_lands : bool;
  now : Z;
}.

Definition stored_claim (c : Claim) : Claim :=
  {| Path := Path c; Kind := Kind c; Source := Source c;
     RawValue := if RawValue c =? "" then "" else jsonb (RawValue c);
     IfRoles := IfRoles c; Format := Format c |}.
Definition stored (p : Profile) : Profile :=
  {| Claims := stored_claim <$> Claims p; Roles := Roles p; IncludeNew := IncludeNew p; Lands := Lands p |}.

Definition of_app (app : string) (v : ClaimShapeVersion) : Prop := v_ApplicationID v = app.
#[local] Instance of_app_dec app v : Decision (of_app app v) := decide (v_ApplicationID v = app).

(** [ORDER BY version DESC LIMIT 1]: the primary key leaves no tie. *)
Definition newer (a b : ClaimShapeVersion) : comparison := Z.compare (v_Version b) (v_Version a).
Definition by_version_desc (l : list ClaimShapeVersion) : list ClaimShapeVersion := stable_sort newer l.

Definition ClaimShapeHistory (a : Answers) (d : ShapeDb) (app : string) : ShapeError + list ClaimShapeVersion :=
  if shapes_read a then inr (by_version_desc (filter (of_app app) (versions d))) else inl ErrRead.

Definition ClaimShapeAt (a : Answers) (d : ShapeDb) (app : string) (version : Z) : ShapeError + option ClaimShapeVersion :=
  if shapes_read a then
    inr (head (by_version_desc (filter (λ v, of_app app v ∧ (version = 0%Z ∨ v_Version v = version)) (versions d))))
  else inl ErrRead.

Definition apps_sorted (l : list ClaimShapeVersion) : list string :=
  Compact (sort_strings (v_ApplicationID <$> l)).
Definition LatestClaimShapes (a : Answers) (d : ShapeDb) (projectID : string) : ShapeError + list ClaimShapeVersion :=
  if shapes_read a then
    let here := filter (λ v, v_ProjectID v = projectID) (versions d) in
    inr (omap (λ app, head (by_version_desc (filter (of_app app) here))) (apps_sorted here))
  else inl ErrRead.

Definition max_version (app : string) (d : ShapeDb) : Z :=
  foldr Z.max 0%Z (v_Version <$> filter (of_app app) (versions d)).

(** The statement reads [snap], the table as it was when it began, and its row
    lands on [d]; a row that was landed in between conflicts with its own. *)
Definition InsertClaimShapeVersion (a : Answers) (snap d : ShapeDb) (v : ClaimShapeVersion) (onlyIfNone : bool)
    : ShapeDb * (ShapeError + option ClaimShapeVersion) :=
  let app := v_ApplicationID v in
  let out := {| v_ApplicationID := app; v_Version := (max_version app snap + 1)%Z; v_ProjectID := v_ProjectID v;
                v_ClientID := v_ClientID v; v_Profile := stored (v_Profile v); v_TemplateID := v_TemplateID v;
                v_TemplateVersion := v_TemplateVersion v; v_CopiedFromApp := v_CopiedFromApp v;
                v_CopiedFromVersion := v_CopiedFromVersion v; v_RestoredFrom := v_RestoredFrom v;
                v_Note := v_Note v; v_SavedBy := v_SavedBy v; v_SavedAt := now a |} in
  if negb (write_lands a) then (d, inl ErrRead)
  else if (onlyIfNone && existsb (λ w, v_ApplicationID w =? app) (versions snap))
          || existsb (λ w, (v_ApplicationID w =? app) && (v_Version w =? v_Version out)) (versions d)
  then (d, if onlyIfNone then inr None else inl ErrClaimShapeRace)
  else ({| versions := versions d ++ [out]; profiles := profiles d; seed_cutoff := seed_cutoff d |}, inr (Some out)).

Definition GetClaimProfile (a : Answers) (d : ShapeDb) (projectID : string) : ShapeError + option ClaimProfileRow :=
  if profile_read a then inr (profiles d !! projectID) else inl ErrRead.

Definition UpsertClaimProfile (a : Answers) (d : ShapeDb) (r : ClaimProfileRow) : ShapeDb * (ShapeError + unit) :=
  if write_lands a && forallb (λ v, negb (bool_decide (marshal v = None))) (map_to_list (r_StaticClaims r)).*2
  then ({| versions := versions d; profiles := <[r_ProjectID r := r]> (profiles d); seed_cutoff := seed_cutoff d |}, inr ())
  else (d, inl ErrRead).

Definition ClaimShapeSeedCutoff (a : Answers) (d : ShapeDb) : ShapeError + Z :=
  if cutoff_read a then inr (seed_cutoff d) else inl ErrRead.

(** ** The shape that applies *)
Definition SourceApp : string := "app".
Definition SourceProjectDefault : string := "project_default".
Definition SourceBuiltin : string := "builtin".

Definition flat_profile (r : ClaimProfileRow) : Profile :=
  FromFlat marshal (r_ClaimName r) (r_FormatType r) (r_AttributeClaims r) (r_StaticClaims r).

Definition projectDefault (a : Answers) (d : ShapeDb) (projectID : string) : ShapeError + (Profile * string) :=
  let? row := GetClaimProfile a d projectID in
  match row with
  | None => inr (Builtin, SourceBuiltin)
  | Some r => inr (flat_profile r, SourceProjectDefault)
  end.

Record AppShape := { as_ApplicationID : string; as_Version : Z; as_TemplateID : string; as_Profile : Profile }.
Record ProjectShapes := { ps_Default : Profile; DefaultSource : string; ByClient : gmap string AppShape }.

Definition app_shape (v : ClaimShapeVersion) : AppShape :=
  {| as_ApplicationID := v_ApplicationID v; as_Version := v_Version v;
     as_TemplateID := v_TemplateID v; as_Profile := v_Profile v |}.
Definition ResolveProjectShapes (a : Answers) (d : ShapeDb) (projectID : string) : ShapeError + ProjectShapes :=
  let? (def, source) := projectDefault a d projectID in
  let? vs := LatestClaimShapes a d projectID in
  inr {| ps_Default := def; DefaultSource := source;
         ByClient := foldl (λ m v, if v_ClientID v =? "" then m else <[v_ClientID v := app_shape v]> m) ∅ vs |}.

(** [ProjectShapes.For] of claimserve/config.go. *)
Definition For (ps : ProjectShapes) (clientID : string) : AppShape * bool :=
  match ByClient ps !! clientID with
  | Some s => if clientID <>? "" then (s, true)
              else ({| as_ApplicationID := ""; as_Version := 0; as_TemplateID := ""; as_Profile := ps_Default ps |}, false)
  | None => ({| as_ApplicationID := ""; as_Version := 0; as_TemplateID := ""; as_Profile := ps_Default ps |}, false)
  end.

Record effective := {
  e_app : Application;
  e_profile : Profile;
  e_source : string;
  e_saved : option ClaimShapeVersion;
  e_def : Profile;
  e_defSrc : string;
}.

Definition resolveApp (dir : Dir) (a : Answers) (d : ShapeDb) (appID : string) : ShapeError + effective :=
  let? found := FindApplication dir appID in
  match found with
  | None => inl ErrClaimShapeNotFound
  | Some app =>
      let? (def, defSrc) := projectDefault a d (app_ProjectID app) in
      let? saved := ClaimShapeAt a d appID 0 in
      inr (match saved with
           | Some v => {| e_app := app; e_profile := v_Profile v; e_source := SourceApp; e_saved := Some v;
                          e_def := def; e_defSrc := defSrc |}
           | None => {| e_app := app; e_profile := def; e_source := defSrc; e_saved := None;
                        e_def := def; e_defSrc := defSrc |}
           end)
  end.

(** ** Saving *)

(** The rule that holds for this app: of the first of the templates named that
    acts on changes. *)
Definition ruling_template (e : effective) (newTemplateID : string) : option Template :=
  match e_saved e with
  | None => None
  | Some saved =>
      let ids := [newTemplateID; v_TemplateID saved]
                 ++ (match Suggest (app_Name (e_app e)) with Some t => [ID t] | None => [] end) in
      head (filter (λ t, Breaks t ≠ BreaksNever) (omap FindTemplate ids))
  end.
Definition breakingFor (e : effective) (newTemplateID : string) (changes : list Change) : list Change :=
  match ruling_template e newTemplateID with Some t => Breaking t changes | None => [] end.

Record CopiedFrom := { cf_ApplicationID : string; cf_Version : Z }.
Record SaveClaimShapeRequest := {
  q_Profile : Profile;
  q_TemplateID : string;
  q_TemplateVersion : Z;
  q_CopiedFrom : option CopiedFrom;
  q_Note : string;
  AcknowledgeBreaking : bool;
}.
Record SaveResult := { sr_Version : ClaimShapeVersion; sr_Changes : list Change; sr_Breaking : list Change }.

(** The first role a row names that the project does not have, with its row. *)
Fixpoint strange_role (here : list string) (i : Z) (l : list Claim) : option (Z * string) :=
  match l with
  | [] => None
  | c :: l => match head (filter (λ r, r ∉ here) (IfRoles c)) with
              | Some r => Some (i, r)
              | None => strange_role here (i + 1) l
              end
  end.

Definition validateForProject (dir : Dir) (projectID : string) (p : Profile) : ShapeError + unit :=
  match Validate p with
  | Panics => inl ErrPanic
  | Refused row m => inl (ClaimShapeInvalid row (InvMsg m))
  | Accepted =>
      let? have := RoleKeysForProject dir projectID in
      match head (filter (λ m, Key m ∉ have) (Roles p)) with
      | Some m => inl (ClaimShapeInvalid (-1) (InvRoleNotHere (Key m)))
      | None => match strange_role have 0 (Claims p) with
                | Some (i, r) => inl (ClaimShapeInvalid i (InvRoleNotHere r))
                | None => inr ()
                end
      end
  end.

Definition templateVersion (id : string) (version : Z) : ShapeError + Z :=
  if id =? "" then inr version
  else match FindTemplate id with
       | None => inl (ClaimShapeInvalid (-1) (InvUnknownTemplate id))
       | Some t => inr (if version =? 0%Z then Version t else version)
       end.

(** [d0] is the table when the save reads it, [snap] when its INSERT begins,
    [d] when the row lands. *)
Definition SaveAppClaimShape (dir : Dir) (a : Answers) (d0 snap d : ShapeDb) (appID actor : string)
    (req : SaveClaimShapeRequest) (restoredFrom : Z) : ShapeDb * (ShapeError + SaveResult) :=
  match
    let? e := resolveApp dir a d0 appID in
    let p := Normalize (q_Profile req) in
    let? _ := validateForProject dir (app_ProjectID (e_app e)) p in
    let? tv := templateVersion (q_TemplateID req) (q_TemplateVersion req) in
    let changes := Diff (e_profile e) p in
    let breaking := breakingFor e (q_TemplateID req) changes in
    if (0 <? length breaking)%nat && negb (AcknowledgeBreaking req) then inl (BreakingUnacknowledged breaking)
    else
      inr ({| v_ApplicationID := appID; v_Version := 0; v_ProjectID := app_ProjectID (e_app e);
              v_ClientID := app_ClientID (e_app e); v_Profile := p; v_TemplateID := q_TemplateID req;
              v_TemplateVersion := tv;
              v_CopiedFromApp := default "" (cf_ApplicationID <$> q_CopiedFrom req);
              v_CopiedFromVersion := default 0%Z (cf_Version <$> q_CopiedFrom req);
              v_RestoredFrom := restoredFrom; v_Note := TrimSpace (q_Note req); v_SavedBy := actor;
              v_SavedAt := 0 |}, changes, breaking)
  with
  | inl err => (d, inl err)
  | inr (v, changes, breaking) =>
      match InsertClaimShapeVersion a snap d v false with
      | (d, inl err) => (d, inl err)
      | (d, inr None) => (d, inl ErrClaimShapeRace)    (* never: only the seed answers so *)
      | (d, inr (Some saved)) => (d, inr {| sr_Version := saved; sr_Changes := changes; sr_Breaking := breaking |})
      end
  end.

(** Going back reads the old version first, in a table [d00] of its own. *)
Definition RestoreAppClaimShape (dir : Dir) (a : Answers) (d00 d0 snap d : ShapeDb) (appID actor : string)
    (n : Z) (acknowledge : bool) : ShapeDb * (ShapeError + SaveResult) :=
  match ClaimShapeAt a d00 appID n with
  | inl err => (d, inl err)
  | inr None => (d, inl ErrClaimShapeNotFound)
  | inr (Some old) =>
      if (n <=? 0)%Z then (d, inl ErrClaimShapeNotFound)
      else SaveAppClaimShape dir a d0 snap d appID actor
             {| q_Profile := v_Profile old; q_TemplateID := v_TemplateID old;
                q_TemplateVersion := v_TemplateVersion old; q_CopiedFrom := None; q_Note := "";
                AcknowledgeBreaking := acknowledge |} n
  end.

(** ** History *)
Fixpoint with_changes (l : list ClaimShapeVersion) : list (ClaimShapeVersion * list Change) :=
  match l with
  | [] => []
  | v :: l => (v, match l with older :: _ => Diff (v_Profile older) (v_Profile v) | [] => [] end) :: with_changes l
  end.
Definition AppClaimShapeHistory (a : Answers) (d : ShapeDb) (appID : string)
    : ShapeError + list (ClaimShapeVersion * list Change) :=
  let? vs := ClaimShapeHistory a d appID in inr (with_changes vs).

(** ** Drafts *)
Record RoleRef := { rr_RoleKey : string; rr_Name : string }.
Record Draft := {
  dr_Profile : Profile;
  dr_TemplateID : string;
  dr_TemplateVersion : Z;
  dr_CopiedFrom : option CopiedFrom;
  NotCopied : list RoleRef;
  MissingRoles : list (Z * RoleRef);
}.
Record DraftFromRequest := { df_TemplateID : string; df_ApplicationID : string }.

Fixpoint roleOf_in (l : list RoleMap) (includeNew : bool) (key : string) : bool * string :=
  match l with
  | [] => (includeNew, key)
  | m :: l => if Key m =? key then (if As m <>? "" then (Included m, As m) else (Included m, Key m))
              else roleOf_in l includeNew key
  end.
Definition roleOf (p : Profile) (key : string) : bool * string := roleOf_in (Roles p) (IncludeNew p) key.

(** A map by role key: the last label stays; a key not there reads as blank. *)
Definition roleNames (dir : Dir) (projectID : string) : gmap string string :=
  match FindProject dir projectID with
  | inr (roles, true) => foldl (λ m r, <[pr_Key r := pr_Label r]> m) ∅ roles
  | _ => ∅
  end.
Definition role_ref (names : gmap string string) (key : string) : RoleRef :=
  {| rr_RoleKey := key; rr_Name := default "" (names !! key) |}.

Definition kept_word (cur : Profile) (r : ProjectRole) : RoleMap :=
  let '(included, w) := roleOf cur (pr_Key r) in
  {| Key := pr_Key r; As := if w <>? pr_Key r then w else ""; Included := included |}.

Fixpoint missing_roles (here : list string) (names : gmap string string) (i : Z) (l : list Claim) : list (Z * RoleRef) :=
  match l with
  | [] => []
  | c :: l => ((λ r, (i, role_ref names r)) <$> filter (λ r, r ∉ here) (IfRoles c))
              ++ missing_roles here names (i + 1) l
  end.
Definition copied_claim (here : list string) (c : Claim) : Claim :=
  if Kind c =? KindIfRole then
    {| Path := Path c; Kind := Kind c; Source := Source c; RawValue := RawValue c;
       IfRoles := filter (λ r, r ∈ here) (IfRoles c); Format := Format c |}
  else c.

Definition DraftFrom (dir : Dir) (a : Answers) (d : ShapeDb) (appID : string) (req : DraftFromRequest) : ShapeError + Draft :=
  if bool_decide (df_TemplateID req = "") =? bool_decide (df_ApplicationID req = "")
  then inl (ClaimShapeInvalid (-1) InvNameOneSource)
  else
    let? e := resolveApp dir a d appID in
    let? (roles, _) := FindProject dir (app_ProjectID (e_app e)) in
    let here := pr_Key <$> roles in
    if df_TemplateID req <>? "" then
      match FindTemplate (df_TemplateID req) with
      | None => inl ErrClaimShapeNotFound
      | Some t =>
          let cur := Normalize (e_profile e) in
          inr {| dr_Profile := {| Claims := Claims (t_Profile t);
                                  Roles := Roles (t_Profile t) ++ (kept_word cur <$> roles);
                                  IncludeNew := IncludeNew (t_Profile t); Lands := Lands (t_Profile t) |};
                 dr_TemplateID := ID t; dr_TemplateVersion := Version t; dr_CopiedFrom := None;
                 NotCopied := []; MissingRoles := [] |}
      end
    else
      let? found := ClaimShapeAt a d (df_ApplicationID req) 0 in
      match found with
      | None => inl ErrClaimShapeNotFound
      | Some src =>
          let names := roleNames dir (v_ProjectID src) in
          let p := v_Profile src in
          inr {| dr_Profile := {| Claims := copied_claim here <$> Claims p;
                                  Roles := filter (λ m, Key m ∈ here) (Roles p);
                                  IncludeNew := IncludeNew p; Lands := Lands p |};
                 dr_TemplateID := v_TemplateID src; dr_TemplateVersion := v_TemplateVersion src;
                 dr_CopiedFrom := Some {| cf_ApplicationID := v_ApplicationID src; cf_Version := v_Version src |};
                 NotCopied := (role_ref names ∘ Key) <$> filter (λ m, Key m ∉ here) (Roles p);
                 MissingRoles := missing_roles here names 0 (Claims p) |}
      end.

(** ** The seed *)
Definition SeedNote : string := "As Actions v1 sent it".

Definition seed_version (app : Application) : ClaimShapeVersion :=
  {| v_ApplicationID := app_ID app; v_Version := 0; v_ProjectID := app_ProjectID app;
     v_ClientID := app_ClientID app; v_Profile := ActionsV1; v_TemplateID := "custom";
     v_TemplateVersion := 1; v_CopiedFromApp := ""; v_CopiedFromVersion := 0; v_RestoredFrom := 0;
     v_Note := SeedNote; v_SavedBy := "system"; v_SavedAt := 0 |}.

Definition seedApp (a : Answers) (snap d : ShapeDb) (app : Application) : ShapeDb * (ShapeError + bool) :=
  match ClaimShapeSeedCutoff a d with
  | inl err => (d, inl err)
  | inr cutoff =>
      match app_Created app with
      | Some created =>
          if negb (created <? cutoff)%Z then (d, inr false)
          else let '(d, r) := InsertClaimShapeVersion a snap d (seed_version app) true in
               (d, let? w := r in inr (bool_decide (is_Some w)))
      | None => let '(d, r) := InsertClaimShapeVersion a snap d (seed_version app) true in
                (d, let? w := r in inr (bool_decide (is_Some w)))
      end
  end.

(** Each app in turn, each statement answered or not on its own; the projects
    written into, and how many apps failed. *)
Definition seed_one (st : ShapeDb * list string * nat) (x : Application * Answers) : ShapeDb * list string * nat :=
  let '(d, touched, errs) := st in
  let '(app, a) := x in
  match seedApp a d d app with
  | (d, inl _) => (d, touched, S errs)
  | (d, inr wrote) => (d, if wrote then add_word touched (app_ProjectID app) else touched, errs)
  end.
Definition SeedClaimShapes (dir : Dir) (answers : list Answers) (d : ShapeDb) : ShapeDb * (ShapeError + (list string * nat)) :=
  match Applications dir with
  | inl err => (d, inl err)
  | inr apps =>
      let '(d, touched, errs) := foldl seed_one (d, [], 0) (zip apps answers) in
      (d, inr (touched, errs))
  end.

(** The app page's read seeds an app that has no shape first; a seed that
    fails is logged and read past. *)
Definition GetAppClaimShape (dir : Dir) (a : Answers) (d : ShapeDb) (appID : string)
    : ShapeDb * (ShapeError + (effective * bool)) :=
  match resolveApp dir a d appID with
  | inl err => (d, inl err)
  | inr e =>
      match e_saved e with
      | Some _ => (d, inr (e, false))
      | None =>
          match seedApp a d d (e_app e) with
          | (d, inr true) => (d, let? e := resolveApp dir a d appID in inr (e, true))
          | (d, _) => (d, inr (e, false))
          end
      end
  end.

(** What the app page shows of the template the app started from. *)
Definition template_state (e : effective) : option (Template * list Change * bool) :=
  saved ← e_saved e;
  if v_TemplateID saved =? "" then None
  else t ← FindTemplate (v_TemplateID saved);
       Some (t, ShapeOnly (Diff (t_Profile t) (v_Profile saved)), (v_TemplateVersion saved <? Version t)%Z).

(** ** The project's default *)
Record ProjectDefaultForm := {
  pf_ClaimName : string;
  pf_FormatType : string;
  pf_AttributeClaims : gmap string string;
  pf_StaticClaims : gmap string A;
}.
Definition SaveProjectClaimProfile (a : Answers) (d : ShapeDb) (projectID : string) (f : ProjectDefaultForm)
    : ShapeDb * (ShapeError + unit) :=
  let p := Normalize (FromFlat marshal (pf_ClaimName f) (pf_FormatType f) (pf_AttributeClaims f) (pf_StaticClaims f)) in
  if TrimSpace (pf_ClaimName f) =? "" then (d, inl (ClaimShapeInvalid (-1) InvClaimNameRequired))
  else match Validate p, Claims p with
       | Refused row m, _ => (d, inl (ClaimShapeInvalid row (InvMsg m)))
       | Accepted, c :: _ =>
           UpsertClaimProfile a d {| r_ProjectID := projectID; r_ClaimName := TrimSpace (pf_ClaimName f);
                                     r_FormatType := Format c; r_AttributeClaims := pf_AttributeClaims f;
                                     r_StaticClaims := pf_StaticClaims f |}
       | _, _ => (d, inl ErrPanic)
       end.
End tables.

(** ** What may be stored *)
Definition saved_ok (p : Profile) : Prop := Normalize p = p ∧ Validate p = Accepted.

(** A fixed value a row may send. *)
Definition literal (v : string) : Prop :=
  validateKind {| Path := []; Kind := KindStatic; Source := ""; RawValue := v; IfRoles := []; Format := "" |} = None.

(** ** Facts: profiles that were stored *)
Lemma normalize_idem p : Normalize (Normalize p) = Normalize p.
Proof.
  unfold Normalize. simpl. f_equal.
  - rewrite <- list_fmap_compose. apply list_fmap_ext. intros i c _. unfold normalize_claim. simpl. f_equal.
    + rewrite <- list_fmap_compose. apply list_fmap_ext. intros ? s _. apply TrimSpace_idem.
    + destruct ((Kind c =? KindRoles) && (Format c =? "")) eqn:E; [|by rewrite E].
      apply andb_prop in E as [-> _]. done.
  - rewrite <- list_fmap_compose. apply list_fmap_ext. intros i m _. unfold normalize_role. simpl.
    by rewrite !TrimSpace_idem.
  - destruct (TrimSpace (Lands p) =? "") eqn:E; [done|]. by rewrite TrimSpace_idem, E.
Qed.

Lemma literal_row c : Kind c = KindStatic → validateKind c = None ↔ literal (RawValue c).
Proof. intros Hk. unfold literal, validateKind. rewrite Hk. done. Qed.

Section stored.
Context (jsonb : string → string).
Hypothesis jsonb_literal : ∀ v, literal v → literal (jsonb v).

Lemma literal_nonblank v : literal v → v ≠ "".
Proof. intros Hl ->. vm_compute in Hl. discriminate. Qed.

Lemma stored_kind c : validateKind c = None → validateKind (stored_claim jsonb c) = None.
Proof.
  intros Hv. destruct (decide (Kind c = KindStatic)) as [Hk|Hk].
  - apply literal_row in Hv; [|done]. apply (literal_row (stored_claim jsonb c)); [done|]. simpl.
    rewrite bool_decide_false by (by apply literal_nonblank). by apply jsonb_literal.
  - unfold validateKind, stored_claim in *. cbn [Kind Source RawValue IfRoles Format]. by rewrite (bool_decide_false (Kind c = KindStatic)) in * by done.
Qed.

Lemma stored_row c : validate_row c = None → validate_row (stored_claim jsonb c) = None.
Proof.
  unfold validate_row. change (Path (stored_claim jsonb c)) with (Path c). destruct (Path c) as [|top rest]; [done|]. repeat case_match; try done. apply stored_kind.
Qed.

Lemma stored_apart l : rows_apart l → rows_apart (stored_claim jsonb <$> l).
Proof.
  intros [Hne Ha]. split.
  - intros c (c' & -> & Hc)%list_elem_of_fmap. exact (Hne c' Hc).
  - intros i j ci cj. rewrite !list_lookup_fmap, !fmap_Some. intros (x & Hi & ->) (y & Hj & ->) Hij. exact (Ha i j x y Hi Hj Hij).
Qed.

Lemma stored_ok p : saved_ok p → saved_ok (stored jsonb p).
Proof.
  intros [Hn Hv]. split.
  - unfold Normalize in *. destruct p as [cs rs i l]. simpl in *. injection Hn as Hc Hr Hl. unfold stored. simpl.
    f_equal; [|done|done]. rewrite <- list_fmap_compose. rewrite <- Hc at 2. rewrite <- list_fmap_compose.
    apply list_fmap_ext. intros k c _. unfold normalize_claim, stored_claim. simpl. done.
  - apply Validate_wf in Hv as [Hl Hk Ho Hr Ha]. apply Validate_wf. split; simpl; [done..| |by apply stored_apart].
    intros c (c' & -> & Hc)%list_elem_of_fmap. by apply stored_row, Hr.
Qed.
End stored.

(** ** The table's life: every statement may have read an earlier table *)
Section life.
Context {A : Type} (marshal : A → option string) (jsonb : string → string).
Abbreviation Db := (@ShapeDb A).
#[local] Existing Instance of_app_dec.

Definition empty_db (cutoff : Z) : Db := {| versions := []; profiles := ∅; seed_cutoff := cutoff |}.

(** The tables there have been, newest first. *)
Inductive history : list Db → Prop :=
  | h_start cutoff : history [empty_db cutoff]
  | h_save d h dir a d0 snap appID actor req from :
      history (d :: h) → d0 ∈ d :: h → snap ∈ d :: h →
      history ((SaveAppClaimShape marshal jsonb dir a d0 snap d appID actor req from).1 :: d :: h)
  | h_restore d h dir a d00 d0 snap appID actor n ack :
      history (d :: h) → d00 ∈ d :: h → d0 ∈ d :: h → snap ∈ d :: h →
      history ((RestoreAppClaimShape marshal jsonb dir a d00 d0 snap d appID actor n ack).1 :: d :: h)
  | h_seed d h a snap app :
      history (d :: h) → snap ∈ d :: h → history ((seedApp jsonb a snap d app).1 :: d :: h)
  | h_default d h a project f :
      history (d :: h) → history ((SaveProjectClaimProfile marshal a d project f).1 :: d :: h).

(** An application's versions are numbered 1, 2, 3 as they land, and each
    holds a shape that may be saved. *)
Definition numbered (l : list ClaimShapeVersion) : Prop :=
  ∀ app, v_Version <$> filter (of_app app) l = Z.of_nat <$> seq 1 (length (filter (of_app app) l)).
Record shapes_wf (d : Db) : Prop := {
  wf_numbered : numbered (versions d);
  wf_saved : ∀ v, v ∈ versions d → saved_ok (v_Profile v);
}.

Lemma numbered_max l app : numbered l → foldr Z.max 0%Z (v_Version <$> filter (of_app app) l) = Z.of_nat (length (filter (of_app app) l)).
Proof.
  intros Hl. rewrite (Hl app). generalize (length (filter (of_app app) l)) as n. intros n.
  induction n as [|n IH]; [done|]. rewrite seq_S, fmap_app, foldr_app. simpl.
  assert (Hf : ∀ l z, (0 ≤ z)%Z → foldr Z.max z l = Z.max z (foldr Z.max 0%Z l)).
  { clear. induction l as [|x l IH]; intros z Hz; simpl; [lia|]. rewrite IH by done. lia. }
  rewrite Hf by lia. rewrite IH. lia.
Qed.

Lemma numbered_taken l app n :
  numbered l →
  existsb (λ w, (v_ApplicationID w =? app) && (v_Version w =? Z.of_nat (S n))) l
  = (n <? length (filter (of_app app) l))%nat.
Proof.
  intros Hl. apply eq_true_iff_eq. rewrite existsb_elem, Nat.ltb_lt.
  assert (H : (∃ x, x ∈ l ∧ (v_ApplicationID x =? app) && (v_Version x =? Z.of_nat (S n)) = true)
              ↔ Z.of_nat (S n) ∈ v_Version <$> filter (of_app app) l).
  { rewrite list_elem_of_fmap. setoid_rewrite andb_true_iff. setoid_rewrite bool_decide_eq_true.
    setoid_rewrite list_elem_of_filter. unfold of_app. naive_solver. }
  rewrite H, (Hl app), list_elem_of_fmap. setoid_rewrite elem_of_seq. split.
  - intros (k & E & Hk). lia.
  - intros Hn. exists (S n). lia.
Qed.

Lemma numbered_snoc l v :
  numbered l → v_Version v = Z.of_nat (S (length (filter (of_app (v_ApplicationID v)) l))) → numbered (l ++ [v]).
Proof.
  intros Hl Hv app. rewrite filter_app, filter_cons. simpl.
  destruct (decide (v_ApplicationID v = app)) as [<-|Hne].
  - rewrite decide_True by done. rewrite fmap_app, length_app, (Hl (v_ApplicationID v)). simpl.
    rewrite Nat.add_1_r, seq_S, fmap_app, Hv. done.
  - rewrite decide_False by done. by rewrite app_nil_r.
Qed.

(** The insert as the numbering sees it. *)
Definition next_version (a : Answers) (d : Db) (v : ClaimShapeVersion) : ClaimShapeVersion :=
  {| v_ApplicationID := v_ApplicationID v; v_Version := max_version (v_ApplicationID v) d + 1;
     v_ProjectID := v_ProjectID v; v_ClientID := v_ClientID v; v_Profile := stored jsonb (v_Profile v);
     v_TemplateID := v_TemplateID v; v_TemplateVersion := v_TemplateVersion v;
     v_CopiedFromApp := v_CopiedFromApp v; v_CopiedFromVersion := v_CopiedFromVersion v;
     v_RestoredFrom := v_RestoredFrom v; v_Note := v_Note v; v_SavedBy := v_SavedBy v; v_SavedAt := now a |}.

Definition landed (d : Db) (v : ClaimShapeVersion) : Db :=
  {| versions := versions d ++ [v]; profiles := profiles d; seed_cutoff := seed_cutoff d |}.

(** A row lands exactly when no row of the application landed after the
    statement's snapshot (and, for the seed, none was there). *)
Lemma insert_outcome a snap d v onlyIfNone :
  numbered (versions snap) → numbered (versions d) → versions snap `prefix_of` versions d →
  let app := v_ApplicationID v in
  let fresh := length (filter (of_app app) (versions snap)) = length (filter (of_app app) (versions d)) in
  InsertClaimShapeVersion jsonb a snap d v onlyIfNone =
  if negb (write_lands a) then (d, inl ErrRead)
  else if decide (fresh ∧ (onlyIfNone = true → filter (of_app app) (versions d) = []))
  then (landed d (next_version a d v), inr (Some (next_version a d v)))
  else (d, if onlyIfNone then inr None else inl ErrClaimShapeRace).
Proof.
  intros Hs Hd [l Hl]. cbv zeta. unfold InsertClaimShapeVersion. destruct (write_lands a); [|done]. simpl.
  unfold max_version. rewrite (numbered_max _ (v_ApplicationID v) Hs).
  set (m := length (filter (of_app (v_ApplicationID v)) (versions snap))).
  set (n := length (filter (of_app (v_ApplicationID v)) (versions d))).
  assert (Hmn : m ≤ n). { unfold m, n. rewrite Hl, filter_app, length_app. lia. }
  replace (Z.of_nat m + 1)%Z with (Z.of_nat (S m)) by lia.
  rewrite (numbered_taken _ _ m Hd). fold n.
  assert (Hseed : existsb (λ w, v_ApplicationID w =? v_ApplicationID v) (versions snap) = (0 <? m)%nat).
  { apply eq_true_iff_eq. rewrite existsb_elem, Nat.ltb_lt. unfold m. split.
    - intros (w & Hw & E%bool_decide_eq_true).
      assert (Hin : w ∈ filter (of_app (v_ApplicationID v)) (versions snap)) by (by apply list_elem_of_filter).
      destruct (filter (of_app (v_ApplicationID v)) (versions snap)); [set_solver|simpl; lia].
    - intros Hpos. destruct (filter (of_app (v_ApplicationID v)) (versions snap)) as [|w ws] eqn:E; [simpl in Hpos; lia|].
      assert (w ∈ filter (of_app (v_ApplicationID v)) (versions snap)) as [Hw ?]%list_elem_of_filter by (rewrite E; left).
      exists w. split; [done|]. by apply bool_decide_eq_true. }
  rewrite Hseed. destruct (decide (m = n ∧ _)) as [[Hf Ho]|Hno].
  - rewrite Hf, Nat.ltb_irrefl, orb_false_r.
    assert (Hg : onlyIfNone && (0 <? n)%nat = false).
    { destruct onlyIfNone; [|done]. unfold n. by rewrite Ho. }
    rewrite Hg. unfold landed, next_version, max_version. rewrite (numbered_max _ _ Hd). fold n.
    by replace (Z.of_nat n + 1)%Z with (Z.of_nat (S n)) by lia.
  - destruct (m <? n)%nat eqn:Elt; [by rewrite orb_true_r|]. apply Nat.ltb_ge in Elt.
    assert (Hf : m = n) by lia. rewrite orb_false_r.
    destruct onlyIfNone; simpl; [|destruct Hno; split; [done|done]].
    destruct (0 <? m)%nat eqn:E0; [done|]. apply Nat.ltb_ge in E0. destruct Hno. split; [done|]. intros _.
    apply length_zero_iff_nil. fold n. lia.
Qed.

Hypothesis jsonb_literal : ∀ v, literal v → literal (jsonb v).

Lemma insert_wf a snap d v onlyIfNone :
  shapes_wf snap → shapes_wf d → versions snap `prefix_of` versions d → saved_ok (v_Profile v) →
  let d' := (InsertClaimShapeVersion jsonb a snap d v onlyIfNone).1 in
  shapes_wf d' ∧ versions d `prefix_of` versions d'.
Proof.
  intros [Hsn _] [Hdn Hds] Hp Hv. cbv zeta. rewrite insert_outcome by done.
  destruct (negb (write_lands a)); [by split|]. case_decide; [|by split]. simpl.
  split; [|by eexists]. split; simpl.
  - apply numbered_snoc; [done|]. simpl. unfold max_version. rewrite (numbered_max _ _ Hdn). lia.
  - intros w [Hw| ->%list_elem_of_singleton]%elem_of_app; [by apply Hds|]. simpl. by apply stored_ok.
Qed.

(** The row a save offers, when its checks pass. *)
Definition offered (dir : Dir) (a : Answers) (d0 : Db) (appID actor : string) (req : SaveClaimShapeRequest)
    (restoredFrom : Z) (e : effective) (tv : Z) : ClaimShapeVersion :=
  {| v_ApplicationID := appID; v_Version := 0; v_ProjectID := app_ProjectID (e_app e);
     v_ClientID := app_ClientID (e_app e); v_Profile := Normalize (q_Profile req);
     v_TemplateID := q_TemplateID req; v_TemplateVersion := tv;
     v_CopiedFromApp := default "" (cf_ApplicationID <$> q_CopiedFrom req);
     v_CopiedFromVersion := default 0%Z (cf_Version <$> q_CopiedFrom req);
     v_RestoredFrom := restoredFrom; v_Note := TrimSpace (q_Note req); v_SavedBy := actor; v_SavedAt := 0 |}.

Lemma save_cases dir a d0 snap d appID actor req from :
  let r := SaveAppClaimShape marshal jsonb dir a d0 snap d appID actor req from in
  (∃ err, r = (d, inl err)) ∨
  ∃ e tv, resolveApp marshal dir a d0 appID = inr e ∧ Validate (Normalize (q_Profile req)) = Accepted ∧
    (breakingFor e (q_TemplateID req) (Diff (e_profile e) (Normalize (q_Profile req))) = [] ∨
     AcknowledgeBreaking req = true) ∧
    let v := offered dir a d0 appID actor req from e tv in
    r = match InsertClaimShapeVersion jsonb a snap d v false with
        | (d, inl err) => (d, inl err)
        | (d, inr None) => (d, inl ErrClaimShapeRace)
        | (d, inr (Some saved)) =>
            (d, inr {| sr_Version := saved;
                       sr_Changes := Diff (e_profile e) (Normalize (q_Profile req));
                       sr_Breaking := breakingFor e (q_TemplateID req) (Diff (e_profile e) (Normalize (q_Profile req))) |})
        end.
Proof.
  cbv zeta. unfold SaveAppClaimShape. destruct (resolveApp marshal dir a d0 appID) as [err|e] eqn:Ee; [left; by eexists|].
  unfold validateForProject. destruct (Validate (Normalize (q_Profile req))) eqn:Ev; [|left; by eexists..].
  destruct (RoleKeysForProject dir (app_ProjectID (e_app e))) as [err|have]; [left; by eexists|].
  destruct (head (filter _ (Roles _))); [left; by eexists|].
  destruct (strange_role have 0 _) as [[? ?]|]; [left; by eexists|].
  destruct (templateVersion (q_TemplateID req) (q_TemplateVersion req)) as [err|tv]; [left; by eexists|].
  destruct (breakingFor e (q_TemplateID req) _) as [|b bs] eqn:Eb; simpl.
  - right. exists e, tv. split_and!; [done|done|auto|]. by rewrite ?Eb.
  - destruct (AcknowledgeBreaking req) eqn:Ea; [|left; by eexists].
    right. exists e, tv. split_and!; [done|done|auto|]. simpl. by rewrite ?Eb.
Qed.

Definition grows (d d' : Db) : Prop := shapes_wf d' ∧ versions d `prefix_of` versions d'.

Lemma save_wf dir a d0 snap d appID actor req from :
  shapes_wf snap → shapes_wf d → versions snap `prefix_of` versions d →
  grows d (SaveAppClaimShape marshal jsonb dir a d0 snap d appID actor req from).1.
Proof.
  intros Hs Hd Hp.
  destruct (save_cases dir a d0 snap d appID actor req from) as [[err ->]|(e & tv & _ & Hv & _ & ->)]; [by split|].
  pose proof (insert_wf a snap d (offered dir a d0 appID actor req from e tv) false Hs Hd Hp) as Hi.
  destruct (InsertClaimShapeVersion jsonb a snap d _ false) as [d' [err|[v|]]]; apply Hi;
    (split; [apply normalize_idem|done]).
Qed.

Lemma restore_wf dir a d00 d0 snap d appID actor n ack :
  shapes_wf snap → shapes_wf d → versions snap `prefix_of` versions d →
  grows d (RestoreAppClaimShape marshal jsonb dir a d00 d0 snap d appID actor n ack).1.
Proof.
  intros Hs Hd Hp. unfold RestoreAppClaimShape.
  destruct (ClaimShapeAt a d00 appID n) as [?|[?|]]; [by split| |by split].
  destruct (n <=? 0)%Z; [by split|]. by apply save_wf.
Qed.

Lemma ActionsV1_ok : saved_ok ActionsV1.
Proof. pose proof templates_are_valid as H. by apply Forall_cons in H as [? _]. Qed.

Lemma seed_wf a snap d app :
  shapes_wf snap → shapes_wf d → versions snap `prefix_of` versions d → grows d (seedApp jsonb a snap d app).1.
Proof.
  intros Hs Hd Hp. unfold seedApp.
  pose proof (insert_wf a snap d (seed_version app) true Hs Hd Hp ActionsV1_ok) as Hi.
  destruct (ClaimShapeSeedCutoff a d); [by split|].
  destruct (InsertClaimShapeVersion jsonb a snap d (seed_version app) true) as [d' r].
  destruct (app_Created app); [|done]. by case_match; [split|].
Qed.

Lemma default_versions a d project f :
  versions (SaveProjectClaimProfile marshal a d project f).1 = versions d.
Proof. unfold SaveProjectClaimProfile, UpsertClaimProfile. by repeat case_match. Qed.
Lemma default_wf a d project f : shapes_wf d → grows d (SaveProjectClaimProfile marshal a d project f).1.
Proof. intros [Hn Hs]. split; [split|]; by rewrite default_versions. Qed.

(** C22. Whatever the calls and however their reads are interleaved, the
    versions of every application are numbered 1, 2, 3 in the order they landed,
    no version is ever changed or lost, and every one of them holds a shape that
    passes validation as it stands. *)
Theorem shapes_invariant d h :
  history (d :: h) → shapes_wf d ∧ ∀ d0, d0 ∈ d :: h → shapes_wf d0 ∧ versions d0 `prefix_of` versions d.
Proof.
  intros Hh. remember (d :: h) as l eqn:El. revert d h El.
  assert (Hgrow : ∀ (d : Db) h d', (shapes_wf d ∧ ∀ d0, d0 ∈ d :: h → shapes_wf d0 ∧ versions d0 `prefix_of` versions d) →
    grows d d' → shapes_wf d' ∧ ∀ d0, d0 ∈ d' :: d :: h → shapes_wf d0 ∧ versions d0 `prefix_of` versions d').
  { intros d h d' [Hd Hall] [Hd' Hp]. split; [done|]. intros d0 [->|Hin]%elem_of_cons; [done|].
    destruct (Hall d0 Hin) as [? ?]. split; [done|]. by etrans. }
  induction Hh as [c|d h dir a d0 snap appID actor req from _ IH _ Hsnap|d h dir a d00 d0 snap appID actor n ack _ IH _ _ Hsnap
    |d h a snap app _ IH Hsnap|d h a project f _ IH]; intros d1 h1 [= <- <-].
  - assert (Hw : shapes_wf (empty_db c)) by (split; [by intros app|set_solver]).
    split; [done|]. intros d0 ->%list_elem_of_singleton. done.
  - specialize (IH _ _ eq_refl). apply (Hgrow d h); [done|]. destruct IH as [Hw Hall].
    destruct (Hall snap Hsnap). by apply save_wf.
  - specialize (IH _ _ eq_refl). apply (Hgrow d h); [done|]. destruct IH as [Hw Hall].
    destruct (Hall snap Hsnap). by apply restore_wf.
  - specialize (IH _ _ eq_refl). apply (Hgrow d h); [done|]. destruct IH as [Hw Hall].
    destruct (Hall snap Hsnap). by apply seed_wf.
  - specialize (IH _ _ eq_refl). apply (Hgrow d h); [done|]. apply default_wf, (proj1 IH).
Qed.
(** ** Facts: which version applies *)
#[local] Instance newer_good : Comparison newer.
Proof.
  unfold newer. split; intros *.
  - apply Z.compare_antisym.
  - rewrite !Z.compare_lt_iff. lia.
  - rewrite Z.compare_eq_iff. intros E. by rewrite E.
Qed.

Lemma head_newest l v :
  v ∈ l → (∀ w, w ∈ l → w = v ∨ (v_Version w < v_Version v)%Z) → head (by_version_desc l) = Some v.
Proof.
  intros Hv Hmax. unfold by_version_desc.
  pose proof (stable_sort_ascending (cmp:=newer) l) as Hs.
  assert (Hin : v ∈ stable_sort newer l) by (by rewrite stable_sort_elem).
  assert (Hel : ∀ w, w ∈ stable_sort newer l → w ∈ l) by (intros w; by rewrite stable_sort_elem).
  destruct (stable_sort newer l) as [|x t]; [set_solver|]. simpl.
  destruct (Hmax x) as [->|Hlt]; [apply Hel; left|done|].
  apply StronglySorted_inv in Hs as [_ Hall]. apply elem_of_cons in Hin as [->|Hin]; [lia|].
  rewrite Forall_forall in Hall. specialize (Hall v Hin). unfold cmp_le, newer in Hall.
  rewrite Z.compare_gt_iff in Hall. lia.
Qed.

Lemma numbered_bound l app w :
  numbered l → w ∈ l → v_ApplicationID w = app → (v_Version w ≤ Z.of_nat (length (filter (of_app app) l)))%Z.
Proof.
  intros Hn Hw Ha. assert (Hin : v_Version w ∈ v_Version <$> filter (of_app app) l).
  { apply list_elem_of_fmap_2, list_elem_of_filter. by split. }
  rewrite Hn, list_elem_of_fmap in Hin. destruct Hin as (k & -> & Hk%elem_of_seq). lia.
Qed.

Lemma apps_sorted_elem l app : app ∈ apps_sorted l ↔ app ∈ v_ApplicationID <$> l.
Proof.
  unfold apps_sorted. rewrite <- (sort_strings_elem app (v_ApplicationID <$> l)).
  generalize (sort_strings (v_ApplicationID <$> l)) as s. induction s as [|x [|y s] IH]; simpl; [done..|].
  case_bool_decide; [subst|]; set_solver.
Qed.

Lemma by_client (vs : list ClaimShapeVersion) (m : gmap string AppShape) client v :
  client ≠ "" → v_ClientID v = client → (∀ w, w ∈ vs → v_ClientID w = client → w = v) →
  v ∈ vs ∨ m !! client = Some (app_shape v) →
  foldl (λ (m : gmap string AppShape) v, if v_ClientID v =? "" then m else <[v_ClientID v := app_shape v]> m) m vs !! client
  = Some (app_shape v).
Proof.
  intros Hne Hc. revert m. induction vs as [|w vs IH]; intros m Hall Hin; cbn [foldl]; [set_solver|].
  apply IH; [set_solver|].
  destruct (decide (v_ClientID w = client)) as [E|E].
  - right. assert (w = v) as -> by (apply Hall; [left|done]).
    rewrite bool_decide_false by congruence. rewrite Hc. by rewrite lookup_insert_eq.
  - destruct Hin as [[->|?]%elem_of_cons|Hm]; [done|by left|right].
    case_bool_decide; [done|]. by rewrite lookup_insert_ne.
Qed.

Lemma save_lands dir a d0 snap d appID actor req from d' r :
  shapes_wf snap → shapes_wf d → versions snap `prefix_of` versions d →
  SaveAppClaimShape marshal jsonb dir a d0 snap d appID actor req from = (d', inr r) →
  ∃ e tv, resolveApp marshal dir a d0 appID = inr e ∧ Validate (Normalize (q_Profile req)) = Accepted ∧
    (breakingFor e (q_TemplateID req) (Diff (e_profile e) (Normalize (q_Profile req))) = [] ∨
     AcknowledgeBreaking req = true) ∧
    sr_Version r = next_version a d (offered dir a d0 appID actor req from e tv) ∧
    d' = landed d (sr_Version r) ∧
    length (filter (of_app appID) (versions snap)) = length (filter (of_app appID) (versions d)).
Proof.
  intros [Hs _] [Hd _] Hp. destruct (save_cases dir a d0 snap d appID actor req from)
    as [[err ->]|(e & tv & He & Hv & Hb & ->)]; [done|].
  rewrite insert_outcome by done. destruct (negb (write_lands a)); [done|].
  case_decide as Hf; [|done]. intros [= <- <-]. exists e, tv. split_and!; try done. apply Hf.
Qed.

(** ** Properties of a save *)

(** A save takes the next number of its application or changes nothing: when
    it succeeds its row is the only one added and is numbered one past the rows
    the application had, none of which landed after its INSERT began; when
    another save of the application came in between it is refused. *)
Theorem saves_take_the_next_number dir a d0 snap d appID actor req from :
  shapes_wf snap → shapes_wf d → versions snap `prefix_of` versions d →
  let n s := length (filter (of_app appID) (versions s)) in
  match SaveAppClaimShape marshal jsonb dir a d0 snap d appID actor req from with
  | (d', inl _) => d' = d
  | (d', inr r) => versions d' = versions d ++ [sr_Version r] ∧ v_ApplicationID (sr_Version r) = appID ∧
                   v_Version (sr_Version r) = Z.of_nat (S (n d)) ∧ n snap = n d
  end.
Proof.
  intros Hs Hd Hp. cbv zeta.
  destruct (SaveAppClaimShape marshal jsonb dir a d0 snap d appID actor req from) as [d' [err|r]] eqn:E.
  - destruct (save_cases dir a d0 snap d appID actor req from) as [[err' Hr]|(e & tv & _ & _ & _ & Hr)]; [congruence|].
    cbv zeta in Hr. rewrite E, insert_outcome in Hr by first [apply Hs|apply Hd|done].
    destruct (negb (write_lands a)); [congruence|]. case_decide; congruence.
  - apply save_lands in E as (e & tv & _ & _ & _ & Hv & -> & Hn); [|done..].
    rewrite Hv. simpl. unfold max_version. rewrite (numbered_max _ _ (wf_numbered d Hd)). split_and!; [done|done|lia|done].
Qed.

(** What is saved is what is served: after a save, the data plane's read for
    the project finds, at the application's client, the version just saved with
    the profile asked for (as the column stores it), when no other application
    has the same client. *)
Theorem save_is_served dir a a' d0 snap d appID actor req from d' r :
  shapes_wf snap → shapes_wf d → versions snap `prefix_of` versions d →
  SaveAppClaimShape marshal jsonb dir a d0 snap d appID actor req from = (d', inr r) →
  profile_read a' = true → shapes_read a' = true →
  v_ClientID (sr_Version r) ≠ "" →
  (∀ v, v ∈ versions d → v_ClientID v = v_ClientID (sr_Version r) → v_ApplicationID v = appID) →
  ∃ ps, ResolveProjectShapes marshal a' d' (v_ProjectID (sr_Version r)) = inr ps ∧
    For ps (v_ClientID (sr_Version r)) = (app_shape (sr_Version r), true) ∧
    v_Profile (sr_Version r) = stored jsonb (Normalize (q_Profile req)).
Proof.
  intros Hs Hd Hp Hsave Hpr Hsr Hne Hclient.
  assert (Hwf : shapes_wf d').
  { pose proof (save_wf dir a d0 snap d appID actor req from Hs Hd Hp) as [H _]. by rewrite Hsave in H. }
  apply save_lands in Hsave as (e & tv & _ & _ & _ & Hv & -> & _); [|done..].
  set (v := sr_Version r) in *.
  assert (Happ : v_ApplicationID v = appID) by (by rewrite Hv).
  assert (Hprof : v_Profile v = stored jsonb (Normalize (q_Profile req))) by (by rewrite Hv).
  assert (Hver : v_Version v = Z.of_nat (S (length (filter (of_app appID) (versions d))))).
  { rewrite Hv. simpl. unfold max_version. rewrite (numbered_max _ _ (wf_numbered d Hd)). lia. }
  assert (Hnew : ∀ w, w ∈ versions d ++ [v] → v_ApplicationID w = appID → w = v ∨ (v_Version w < v_Version v)%Z).
  { intros w [Hw| ->%list_elem_of_singleton]%elem_of_app Ha; [right|by left].
    apply (numbered_bound _ _ _ (wf_numbered d Hd) Hw) in Ha. lia. }
  unfold ResolveProjectShapes, projectDefault, GetClaimProfile, LatestClaimShapes. rewrite Hpr, Hsr.
  cbn [versions profiles landed].
  set (here := filter (λ w, v_ProjectID w = v_ProjectID v) (versions d ++ [v])).
  assert (Hhead : head (by_version_desc (filter (of_app appID) here)) = Some v).
  { apply head_newest; [apply list_elem_of_filter; split; [done|]; apply list_elem_of_filter; set_solver|].
    intros w [Ha [_ Hw]%list_elem_of_filter]%list_elem_of_filter. by apply Hnew. }
  set (vs := omap _ _). set (shapes := foldl _ ∅ vs).
  assert (Hlook : shapes !! v_ClientID v = Some (app_shape v)).
  { apply by_client; [done|done| |left].
    - intros w (app & _ & Hw)%list_elem_of_omap Hc. pose proof (head_Some_elem_of _ _ Hw) as Hin.
      unfold by_version_desc in Hin. rewrite stable_sort_elem in Hin.
      apply list_elem_of_filter in Hin as [Ha [_ [Hin| ->%list_elem_of_singleton]%elem_of_app]%list_elem_of_filter]; [|done].
      apply Hclient in Hin; [|done]. unfold of_app in Ha. rewrite Hin in Ha. subst app.
      rewrite Hhead in Hw. by injection Hw.
    - apply list_elem_of_omap. exists appID. split.
      + apply apps_sorted_elem. rewrite <- Happ. apply list_elem_of_fmap_2, list_elem_of_filter. set_solver.
      + done. }
  destruct (profiles d !! v_ProjectID v) as [row|]; (eexists; split_and!; [done| |done]);
    unfold For; simpl; fold shapes; rewrite Hlook; by rewrite bool_decide_false.
Qed.
End life.

(** ** Drafts *)
Section draft.
Context {A : Type} (marshal : A → option string).

Lemma roleOf_role p k :
  (∀ m, m ∈ Roles p → TrimSpace (As m) = As m) → roleOf p k = role p k.
Proof.
  unfold roleOf, role. induction (Roles p) as [|m l IH]; intros Ht; [done|]. simpl.
  rewrite IH by (intros; apply Ht; by right). unfold word. rewrite (Ht m) by left. by repeat case_match.
Qed.

Lemma templates_name_no_role id t : FindTemplate id = Some t → Roles (t_Profile t) = [].
Proof.
  intros Hf. apply List.find_some in Hf as [Hin%list_elem_of_In _]. unfold Templates, templates in Hin.
  repeat (apply elem_of_cons in Hin as [->|Hin]; [reflexivity|]). by apply not_elem_of_nil in Hin.
Qed.

Lemma kept_word_role cur (roles : list ProjectRole) b key :
  (∀ m, m ∈ Roles cur → TrimSpace (As m) = As m) → key ∈ pr_Key <$> roles →
  role_in (kept_word cur <$> roles) b key = role cur key.
Proof.
  intros Ht. induction roles as [|r l IH]; csimpl; [set_solver|]. intros Hk.
  assert (Hkey : Key (kept_word cur r) = pr_Key r) by (unfold kept_word; by destruct (roleOf cur (pr_Key r))).
  rewrite Hkey. case_bool_decide as E; [|apply IH; apply elem_of_cons in Hk as [?|?]; [congruence|done]].
  rewrite <- E, <- (roleOf_role cur) by done. unfold kept_word.
  destruct (roleOf cur (pr_Key r)) as [i w] eqn:Er. simpl. f_equal. unfold word. simpl.
  destruct (decide (w = pr_Key r)) as [->|Hne]; [rewrite (bool_decide_true (pr_Key r = pr_Key r)) by done; reflexivity|].
  rewrite (bool_decide_false (w = pr_Key r)) by done. simpl.
  assert (Hw : TrimSpace w = w ∧ w ≠ "").
  { revert Er Hne. unfold roleOf. induction (Roles cur) as [|m ms IHm]; simpl; [naive_solver|].
    case_bool_decide as Hm; [|apply IHm; intros m' Hm'; apply Ht; by right].
    case_bool_decide; simpl; intros [= <- <-] ?; [congruence|]. split; [apply Ht; left|done]. }
  destruct Hw as [-> Hw]. by rewrite bool_decide_false.
Qed.

(** Starting over from a template keeps every role of the project as the
    application sees it now: included or not, and in the same word. *)
Theorem template_draft_keeps_words dir a d appID req dr e roles found r :
  DraftFrom marshal dir a d appID req = inr dr → df_TemplateID req ≠ "" →
  resolveApp marshal dir a d appID = inr e → FindProject dir (app_ProjectID (e_app e)) = inr (roles, found) →
  r ∈ roles → role (dr_Profile dr) (pr_Key r) = role (Normalize (e_profile e)) (pr_Key r).
Proof.
  unfold DraftFrom. intros Hd Hreq He Hp Hr. rewrite He, Hp in Hd. case_bool_decide; [done|].
  rewrite (bool_decide_false (df_TemplateID req = "")) in Hd by done. simpl in Hd.
  destruct (FindTemplate (df_TemplateID req)) as [t|] eqn:Ef; [|done]. injection Hd as <-.
  apply templates_name_no_role in Ef. unfold role at 1. simpl. rewrite Ef. simpl.
  apply kept_word_role; [|by apply list_elem_of_fmap_2].
  intros m (m0 & -> & _)%list_elem_of_fmap. simpl. apply TrimSpace_idem.
Qed.

End draft.

(** ** The seed *)
Section seed.
Context {A : Type} (jsonb : string → string).
#[local] Existing Instance of_app_dec.

(** An application from before the cutoff that has no shape is given exactly
    what Actions v1 sent it, once: whoever reads it first writes it, and a seed
    never touches an application that has a shape. *)
Theorem seed_is_written_once a (snap d : @ShapeDb A) app :
  shapes_wf snap → shapes_wf d → versions snap `prefix_of` versions d →
  match seedApp jsonb a snap d app with
  | (d', inr true) => filter (of_app (app_ID app)) (versions d) = [] ∧
      ∃ v, versions d' = versions d ++ [v] ∧ v_ApplicationID v = app_ID app ∧ v_Version v = 1%Z ∧
           v_Profile v = stored jsonb ActionsV1
  | (d', _) => d' = d
  end.
Proof.
  intros Hs Hd Hp. unfold seedApp. destruct (ClaimShapeSeedCutoff a d) as [|cutoff]; [done|].
  assert (Hins : match (let '(d, r) := InsertClaimShapeVersion jsonb a snap d (seed_version app) true in
                        (d, match r with inl e => inl e | inr w => inr (bool_decide (is_Some w)) end)) with
    | (d', inr true) => filter (of_app (app_ID app)) (versions d) = [] ∧
      ∃ v, versions d' = versions d ++ [v] ∧ v_ApplicationID v = app_ID app ∧ v_Version v = 1%Z ∧
           v_Profile v = stored jsonb ActionsV1
    | (d', _) => d' = d
    end).
  { rewrite insert_outcome by first [apply Hs|apply Hd|done]. destruct (negb (write_lands a)); [done|].
    case_decide as Hf; [|done]. simpl in *. destruct Hf as [_ Hnone]. split; [by apply Hnone|].
    eexists. split_and!; [done|done| |done]. simpl. unfold max_version.
    rewrite (numbered_max _ _ (wf_numbered d Hd)), Hnone by done. done. }
  destruct (app_Created app) as [created|]; [|exact Hins]. destruct (negb (created <? cutoff)%Z); [done|exact Hins].
Qed.
End seed.

(** ** On a concrete table *)
Definition demo_jsonb (v : string) : string := v.
Definition demo_marshal (v : string) : option string := Some v.
Definition demo_app : Application :=
  {| app_ID := "aNB"; app_Name := "NetBird"; app_ProjectID := "pNet"; app_ClientID := "cNB"; app_Created := Some 5%Z |}.
Definition demo_roles : list ProjectRole :=
  [{| pr_Key := "staff"; pr_Label := "Staff" |}; {| pr_Key := "admin"; pr_Label := "Admins" |}].
Definition demo_dir : Dir :=
  {| FindApplication := λ i, inr (if i =? "aNB" then Some demo_app else None);
     RoleKeysForProject := λ _, inr (pr_Key <$> demo_roles);
     FindProject := λ _, inr (demo_roles, true);
     Applications := inr [demo_app] |}.
Definition demo_answers : Answers :=
  {| profile_read := true; shapes_read := true; cutoff_read := true; write_lands := true; now := 100 |}.
Definition demo_db0 : @ShapeDb string := empty_db 10.
Definition demo_db1 : @ShapeDb string := (seedApp demo_jsonb demo_answers demo_db0 demo_db0 demo_app).1.

Definition demo_request (roles : list RoleMap) (note : string) : SaveClaimShapeRequest :=
  {| q_Profile := {| Claims := Claims ActionsV1; Roles := roles; IncludeNew := true; Lands := "both" |};
     q_TemplateID := "custom"; q_TemplateVersion := 0; q_CopiedFrom := None; q_Note := note;
     AcknowledgeBreaking := false |}.
Definition demo_save (d0 snap d : @ShapeDb string) (req : SaveClaimShapeRequest) :=
  SaveAppClaimShape demo_marshal demo_jsonb demo_dir demo_answers d0 snap d "aNB" "op" req 0.

(** A save that renames nothing, and the same save losing to another. *)
Definition demo_same : SaveClaimShapeRequest := demo_request [] " first ".
Definition demo_db2 : @ShapeDb string := (demo_save demo_db1 demo_db1 demo_db1 demo_same).1.

Example demo_saves :
  (v_Version <$> versions demo_db2) = [1; 2]%Z ∧ (v_Note <$> versions demo_db2) = [SeedNote; "first"] ∧
  demo_save demo_db1 demo_db1 demo_db2 demo_same = (demo_db2, inl ErrClaimShapeRace).
Proof. split_and!; vm_compute; reflexivity. Qed.

(** The breaking check is made against the table the save read, and the race is
    only noticed when two INSERTs overlap. A save that reads, lets another save
    land whole, and inserts after it replaces that other shape unwarned: here
    one operator has given admins their own word and told NetBird so; the
    other's note takes the word away again, which on its own needs
    acknowledging. *)
Example stale_save_unwarned :
  let renamed := demo_request [{| Key := "admin"; As := "admins"; Included := true |}] "" in
  let renamed := {| q_Profile := q_Profile renamed; q_TemplateID := "custom"; q_TemplateVersion := 0;
                    q_CopiedFrom := None; q_Note := ""; AcknowledgeBreaking := true |} in
  let d2 := (demo_save demo_db1 demo_db1 demo_db1 renamed).1 in
  (demo_save d2 d2 d2 demo_same).2 = inl (BreakingUnacknowledged [role_change ChangeRename "admin" "admins" "admin"]) ∧
  (v_Version <$> versions (demo_save demo_db1 d2 d2 demo_same).1) = [1; 2; 3]%Z.
Proof. split; vm_compute; reflexivity. Qed.

(** A project's default is validated with its names trimmed and stored with
    them as they came, so what the data plane then reads is a shape validation
    refuses: the token carries the name with its spaces. *)
Example default_keeps_spaces :
  let form := {| pf_ClaimName := "groups"; pf_FormatType := ""; pf_AttributeClaims := {[ " mail " := AttrEmail ]};
                 pf_StaticClaims := ∅ |} in
  let d := (SaveProjectClaimProfile demo_marshal demo_answers demo_db0 "pNet" form).1 in
  match projectDefault demo_marshal demo_answers d "pNet" with
  | inr (p, source) => source = SourceProjectDefault ∧ Path <$> Claims p = [["groups"]; [" mail "]] ∧
                       Validate p = Refused 1 (MsgBadName " mail ")
  | inl _ => False
  end.
Proof. vm_compute. done. Qed.

Lemma demo_literal v : literal v → literal (demo_jsonb v).
Proof. done. Qed.
Lemma demo_history : history demo_marshal demo_jsonb [demo_db2; demo_db1; demo_db0].
Proof.
  apply (h_save demo_marshal demo_jsonb demo_db1 [demo_db0]); [|left|left].
  apply (h_seed demo_marshal demo_jsonb demo_db0 []); [constructor|left].
Qed.

Lemma shapes_invariant_witness : shapes_wf demo_db2 ∧ v_Version <$> versions demo_db2 = [1; 2]%Z.
Proof.
  destruct (shapes_invariant demo_marshal demo_jsonb demo_literal demo_db2 [demo_db1; demo_db0] demo_history) as [H _].
  split; [exact H|]. vm_compute. reflexivity.
Defined.

Lemma demo_wf : shapes_wf demo_db0 ∧ shapes_wf demo_db1 ∧ shapes_wf demo_db2.
Proof.
  assert (H0 : shapes_wf demo_db0) by (split; [by intros app|intros v Hv; by apply not_elem_of_nil in Hv]).
  assert (H1 : shapes_wf demo_db1) by (apply (seed_wf demo_jsonb demo_literal); done).
  split_and!; [done|done|]. apply (save_wf demo_marshal demo_jsonb demo_literal); done.
Qed.

Lemma itself (d : @ShapeDb string) : versions d `prefix_of` versions d.
Proof. reflexivity. Qed.
Lemma demo_prefix : versions demo_db1 `prefix_of` versions demo_db2.
Proof. exists (drop 1 (versions demo_db2)). vm_compute. reflexivity. Qed.

Lemma saves_take_the_next_number_witness :
  length (versions demo_db2) = 2 ∧ (demo_save demo_db1 demo_db1 demo_db2 demo_same).1 = demo_db2.
Proof.
  split; [reflexivity|].
  pose proof (saves_take_the_next_number demo_marshal demo_jsonb demo_dir demo_answers demo_db1 demo_db1 demo_db2
    "aNB" "op" demo_same 0 (proj1 (proj2 demo_wf)) (proj2 (proj2 demo_wf)) demo_prefix) as H.
  unfold demo_save. destruct (SaveAppClaimShape _ _ _ _ _ _ _ _ _ _ _) as [d' [err|r]] eqn:E; [exact H|].
  vm_compute in E. discriminate E.
Defined.


Lemma save_is_served_witness :
  ∃ ps, ResolveProjectShapes demo_marshal demo_answers demo_db2 "pNet" = inr ps ∧ (For ps "cNB").2 = true.
Proof.
  destruct demo_wf as (_ & H1 & _).
  destruct (demo_save demo_db1 demo_db1 demo_db1 demo_same) as [d' [err|r]] eqn:E;
    [vm_compute in E; discriminate E|].
  assert (Hd : d' = demo_db2) by (unfold demo_db2; rewrite E; reflexivity).
  assert (Hr : v_ProjectID (sr_Version r) = "pNet" ∧ v_ClientID (sr_Version r) = "cNB")
    by (vm_compute in E; injection E as <- <-; split; reflexivity).
  destruct Hr as [Hproj Hcl].
  destruct (save_is_served demo_marshal demo_jsonb demo_literal demo_dir demo_answers demo_answers demo_db1 demo_db1 demo_db1
    "aNB" "op" demo_same 0 d' r H1 H1 (itself _) E eq_refl eq_refl) as (ps & Hps & Hfor & _).
  - rewrite Hcl. discriminate.
  - intros v Hv _. apply list_elem_of_singleton in Hv as ->. reflexivity.
  - exists ps. rewrite Hproj, Hd in Hps. rewrite Hcl in Hfor. split; [exact Hps|]. by rewrite Hfor.
Defined.

Lemma template_draft_keeps_words_witness :
  match DraftFrom demo_marshal demo_dir demo_answers demo_db1 "aNB" {| df_TemplateID := "netbird"; df_ApplicationID := "" |} with
  | inr dr => role (dr_Profile dr) "staff" = (true, "staff") ∧ IncludeNew (dr_Profile dr) = false
  | inl _ => False
  end.
Proof.
  destruct (DraftFrom _ _ _ _ _ _) as [err|dr] eqn:E; [vm_compute in E; discriminate E|].
  destruct (resolveApp demo_marshal demo_dir demo_answers demo_db1 "aNB") as [err|e] eqn:He; [vm_compute in He; discriminate He|].
  split; [|vm_compute in E; injection E as <-; reflexivity].
  etrans; [apply (template_draft_keeps_words demo_marshal demo_dir demo_answers demo_db1 "aNB" _ dr e demo_roles true
    {| pr_Key := "staff"; pr_Label := "Staff" |} E)|]; [discriminate|exact He|reflexivity|left|].
  vm_compute in He. injection He as <-. reflexivity.
Defined.

Lemma seed_is_written_once_witness : ∃ v, versions demo_db1 = [v] ∧ v_Version v = 1%Z ∧ v_Profile v = ActionsV1.
Proof.
  destruct demo_wf as (H0 & _).
  pose proof (seed_is_written_once demo_jsonb demo_answers demo_db0 demo_db0 demo_app H0 H0 (itself _)) as H.
  destruct (seedApp demo_jsonb demo_answers demo_db0 demo_db0 demo_app) as [d' [err|[]]] eqn:E;
    [vm_compute in E; discriminate E| |vm_compute in E; discriminate E].
  destruct H as (_ & v & Hv & _ & Hn & Hp). exists v. unfold demo_db1. rewrite E.
  split; [exact Hv|]. split; [exact Hn|]. rewrite Hp. vm_compute. reflexivity.
Defined.
