(* ===== verification/ClaimServe.v ===== *)
(** * ClaimServe: answering a call (backend/internal/claimserve: config.go, lru.go,
      plane.go's Answer, facts and Welcome)

    The snapshot a call is answered from, the bounded copy of the facts last
    read, and the answer itself. What a call meets is an argument: whether each
    of its two Redis reads came back, the clock, and whether the call's context
    had ended when it was looked at (a context that has ended stays ended, so
    one answer does for both looks). encoding/json on a person's facts is a
    parameter. *)

From S2P Require Import Prelude Json Claims ClaimDiff ClaimShape.

(** ** Outcomes (claimtel/outcome.go) *)
Inductive Outcome :=
  | Served | ServedLKG | ServedWelcome | ServedRolesOnly
  | DegradedNoFacts | DegradedShapeUnreadable | DegradedMalformed
  | NoGrants | ContractFault | RefusedCrossProject | NotLanding | UnknownFunction
  | SigMissing | SigStale | SigMismatch | BadRequest | DeadlineExceeded | Panic.
#[export] Instance Outcome_eq_dec : EqDecision Outcome.
Proof. solve_decision. Defined.

Inductive Severity := Informational | Soft | Hard.
Definition severity (o : Outcome) : Severity :=
  match o with
  | SigStale | SigMismatch | ContractFault | BadRequest | Panic => Hard
  | ServedLKG | DegradedNoFacts | DegradedShapeUnreadable | DegradedMalformed | DeadlineExceeded | UnknownFunction => Soft
  | _ => Informational
  end.

(** ** Durations, in nanoseconds *)
Definition second : Z := 1000000000.
Definition minute : Z := (60 * second)%Z.
Definition hour : Z := (60 * minute)%Z.
Definition NewPersonWithin : Z := (10 * minute)%Z.
Definition PreviousKeyKeep : Z := (15 * minute)%Z.
Definition DefaultLKGMaxAge : Z := (6 * hour)%Z.
Definition LKGCap : nat := N.to_nat 20000.
(** [time.Time.Unix]: whole seconds, rounded down. *)
Definition Unix (t : Z) : Z := (t / second)%Z.
(** Arithmetic on a [time.Duration] is on 64 bits. *)
Definition wrap_duration (d : Z) : Z := ((d + 2 ^ 63) mod 2 ^ 64 - 2 ^ 63)%Z.

(** ** Signing keys *)
Record Keyring := { Current : string; Previous : string; PreviousUntil : Z; ChangedAt : Z }.
Definition no_keys : Keyring := {| Current := ""; Previous := ""; PreviousUntil := 0; ChangedAt := 0 |}.
Record SlotKey := { Slot : string; sk_Key : string }.
#[export] Instance SlotKey_eq_dec : EqDecision SlotKey.
Proof. solve_decision. Defined.

Definition Next (k : Keyring) (key : string) (now : Z) : Keyring :=
  if (key =? "") || (key =? Current k) || ((key =? Previous k) && (Unix now <? PreviousUntil k)%Z) then k
  else if Current k <>? ""
  then {| Current := key; Previous := Current k; PreviousUntil := Unix (now + PreviousKeyKeep); ChangedAt := Unix now |}
  else {| Current := key; Previous := ""; PreviousUntil := 0; ChangedAt := 0 |}.

Definition Hold (k : Keyring) (until : Z) : Keyring :=
  if (Previous k <>? "") && (PreviousUntil k <? Unix until)%Z
  then {| Current := Current k; Previous := Previous k; PreviousUntil := Unix until; ChangedAt := ChangedAt k |}
  else k.

Definition Keys (k : Keyring) (now : Z) : list SlotKey :=
  (if Current k <>? "" then [{| Slot := "current"; sk_Key := Current k |}] else [])
  ++ (if (Previous k <>? "") && (Unix now <? PreviousUntil k)%Z
      then [{| Slot := "previous"; sk_Key := Previous k |}] else []).

Definition KeysWithEnv (keyring : list SlotKey) (env : string) : list SlotKey :=
  if env =? "" then keyring
  else if existsb (λ k, sk_Key k =? env) keyring then keyring
  else keyring ++ [{| Slot := "env"; sk_Key := env |}].

Definition sameKeys (a b : list SlotKey) : bool := a =? b.

(** ** The last-known-good copy (lru.go)

    [order] is the linked list, front first, each element with its identity;
    [items] points into it. *)
Record lkgEntry := { le_key : string; le_facts : Facts; le_at : Z }.
Record lru := { cap : nat; order : list (nat * lkgEntry); items : gmap string nat; fresh_id : nat }.

Definition newLRU (capacity : nat) : lru := {| cap := capacity; order := []; items := ∅; fresh_id := 0 |}.

Definition remove_element (e : nat) (l : list (nat * lkgEntry)) : list (nat * lkgEntry) := filter (λ x, x.1 ≠ e) l.
Definition element (e : nat) (l : list (nat * lkgEntry)) : option lkgEntry :=
  snd <$> head (filter (λ x, x.1 = e) l).

Definition put (c : lru) (key : string) (f : Facts) (at_ : Z) : lru :=
  let v := {| le_key := key; le_facts := f; le_at := at_ |} in
  match items c !! key with
  | Some e => {| cap := cap c; order := (e, v) :: remove_element e (order c); items := items c; fresh_id := fresh_id c |}
  | None =>
      let pushed := (fresh_id c, v) :: order c in
      let its := <[key := fresh_id c]> (items c) in
      if (cap c <? length pushed)%nat then
        match last pushed with
        | Some oldest => {| cap := cap c; order := remove_element oldest.1 pushed;
                            items := delete (le_key oldest.2) its; fresh_id := S (fresh_id c) |}
        | None => {| cap := cap c; order := pushed; items := its; fresh_id := S (fresh_id c) |}   (* never *)
        end
      else {| cap := cap c; order := pushed; items := its; fresh_id := S (fresh_id c) |}
  end.

(** Nothing is found where the map points at no element, which never happens. *)
Definition get (c : lru) (key : string) : lru * option (Facts * Z) :=
  match items c !! key with
  | None => (c, None)
  | Some e =>
      match element e (order c) with
      | None => (c, None)
      | Some v => ({| cap := cap c; order := (e, v) :: remove_element e (order c); items := items c; fresh_id := fresh_id c |},
                   Some (le_facts v, le_at v))
      end
  end.

Definition drop (c : lru) (key : string) : lru :=
  match items c !! key with
  | Some e => {| cap := cap c; order := remove_element e (order c); items := delete key (items c); fresh_id := fresh_id c |}
  | None => c
  end.

Definition len (c : lru) : nat := length (order c).

(** ** A project's config and the snapshot *)
Section serving.
(** [A] is what a JSON value decodes into. *)
Context {A : Type}.

Definition FailClosed : string := "fail_closed".
Definition MinimalSafe : string := "minimal_safe".

(** A claim's value, as the shaper made it or as the failure mode gives it. *)
Record TokenClaim := { tc_Key : string; tc_Value : Value + A }.

Record Mode := { m_Mode : string; MinimalSafeClaims : gmap string A; LKGMaxAgeS : Z }.
Definition no_mode : Mode := {| m_Mode := ""; MinimalSafeClaims := ∅; LKGMaxAgeS := 0 |}.

Definition LKGMaxAge (m : Mode) : Z :=
  if (0 <? LKGMaxAgeS m)%Z then wrap_duration (LKGMaxAgeS m * second) else DefaultLKGMaxAge.

Definition mode_Claims (m : Mode) : list TokenClaim :=
  if m_Mode m <>? MinimalSafe then []
  else omap (λ k, v ← MinimalSafeClaims m !! k; Some {| tc_Key := k; tc_Value := inr v |})
            (sort_strings (map_to_list (MinimalSafeClaims m)).*1).

Record Project := { pj_Shapes : ProjectShapes; pj_Mode : Mode }.

Record Welcome := { On : bool; w_Facts : gmap string Facts; Clients : gmap string string }.
Definition no_welcome : Welcome := {| On := false; w_Facts := ∅; Clients := ∅ |}.

Record Config := {
  Gen : Z;
  BuiltAt : Z;
  Projects : gmap string Project;
  ClientProject : gmap string string;
  cfg_Keys : Keyring;
  cfg_Welcome : Welcome;
}.

Definition Envelope (o : Object) : list TokenClaim := (λ '(k, v), {| tc_Key := k; tc_Value := inl v |}) <$> o.

(** ** Redis as a call meets it *)
Definition FactsKey (userID : string) : string := "facts:" +:+ userID.
Definition LegacyFactsKey (userID projectID : string) : string := "mapping:" +:+ userID +:+ ":" +:+ projectID.

Record Store := { strings : gmap string string; hashes : gmap string (gmap string string) }.
(** Which of the reads come back within FactsTimeout, when the call looks at
    the clock, and whether its context has ended. *)
Record Meets := { hget_answers : bool; get_answers : bool; at_time : Z; expired : bool }.

Inductive Read := Found (raw : string) | Nil | Failed.
Definition redis_read (answers : bool) (v : option string) : Read :=
  if answers then match v with Some raw => Found raw | None => Nil end else Failed.

Definition rawFacts (st : Store) (mt : Meets) (userID projectID : string) : Read :=
  match redis_read (hget_answers mt) (hashes st !! FactsKey userID ≫= lookup projectID) with
  | Nil => redis_read (get_answers mt) (strings st !! LegacyFactsKey userID projectID)
  | r => r
  end.

(** [decode] is json.Unmarshal into Facts. *)
Context (decode : string → option Facts).

Definition no_facts : Facts :=
  {| f_Roles := []; UserID := ""; ProjectID := ""; Email := ""; Name := ""; GivenName := ""; FamilyName := "";
     Username := ""; Title := ""; Team := ""; CompiledAt := ""; Bundles := []; RoleEnds := ∅;
     IsServiceAccount := false; machine := false |}.
Definition with_roles (f : Facts) (roles : list string) : Facts :=
  {| f_Roles := roles; UserID := UserID f; ProjectID := ProjectID f; Email := Email f; Name := Name f;
     GivenName := GivenName f; FamilyName := FamilyName f; Username := Username f; Title := Title f; Team := Team f;
     CompiledAt := CompiledAt f; Bundles := Bundles f; RoleEnds := RoleEnds f;
     IsServiceAccount := IsServiceAccount f; machine := machine f |}.
Definition with_ids (f : Facts) (userID projectID : string) : Facts :=
  {| f_Roles := f_Roles f; UserID := userID; ProjectID := projectID; Email := Email f; Name := Name f;
     GivenName := GivenName f; FamilyName := FamilyName f; Username := Username f; Title := Title f; Team := Team f;
     CompiledAt := CompiledAt f; Bundles := Bundles f; RoleEnds := RoleEnds f;
     IsServiceAccount := IsServiceAccount f; machine := machine f |}.
(** A facts record that names no project or person is this one's. *)
Definition filled (f : Facts) (userID projectID : string) : Facts :=
  with_ids f (if UserID f =? "" then userID else UserID f) (if ProjectID f =? "" then projectID else ProjectID f).

Definition lkg_key (userID projectID : string) : string := userID +:+ NUL +:+ projectID.

Definition facts (st : Store) (mt : Meets) (c : lru) (userID projectID : string) (maxAge : Z)
    : lru * (Facts * Outcome * bool) :=
  let k := lkg_key userID projectID in
  match rawFacts st mt userID projectID with
  | Found raw =>
      match decode raw with
      | None => (c, (no_facts, DegradedMalformed, false))
      | Some f => let f := filled f userID projectID in (put c k f (at_time mt), (f, Served, false))
      end
  | Nil => (drop c k, (no_facts, ServedRolesOnly, true))
  | Failed =>
      match get c k with
      | (c, Some (f, at_)) =>
          if (at_time mt - at_ <=? maxAge)%Z then (c, (f, ServedLKG, false)) else (c, (no_facts, ServedRolesOnly, false))
      | (c, None) => (c, (no_facts, ServedRolesOnly, false))
      end
  end.

(** ** The answer *)
Record Result := { res_Claims : list TokenClaim; res_Outcome : Outcome; ClientKnown : bool; Miss : bool; res_Gen : Z }.
Definition no_answer : Result :=
  {| res_Claims := []; res_Outcome := DegradedShapeUnreadable; ClientKnown := false; Miss := false; res_Gen := 0 |}.

Definition Answer (cfg : option Config) (st : Store) (mt : Meets) (c : lru)
    (userID projectID clientID function : string) (roles : list string) (id : Identity) : lru * Result :=
  match cfg with
  | None => (c, no_answer)
  | Some cfg =>
      match Projects cfg !! projectID with
      | None => (c, {| res_Claims := []; res_Outcome := DegradedShapeUnreadable; ClientKnown := false; Miss := false;
                       res_Gen := Gen cfg |})
      | Some proj =>
          let '(shape, known) := For (pj_Shapes proj) clientID in
          let answer claims outcome miss :=
            {| res_Claims := claims; res_Outcome := outcome; ClientKnown := known; Miss := miss; res_Gen := Gen cfg |} in
          if negb (LandsIn (as_Profile shape) function) then (c, answer [] NotLanding false)
          else
            let '(c, (f, outcome, miss)) := facts st mt c userID projectID (LKGMaxAge (pj_Mode proj)) in
            let '(claims, outcome) :=
              if (outcome =? Served) || (outcome =? ServedLKG) then
                (Envelope (Shape (as_Profile shape) (Identify (with_roles f roles) id)), outcome)
              else if (outcome =? ServedRolesOnly) && negb (expired mt) then
                let prof := RolesOnly (as_Profile shape) in
                (Envelope (Shape prof (Identify (with_roles (with_ids no_facts userID projectID) roles) id)),
                 if length (Claims prof) =? length (Claims (as_Profile shape)) then Served else outcome)
              else (mode_Claims (pj_Mode proj), if expired mt then DeadlineExceeded else outcome) in
            (c, answer claims
                  (if (outcome =? Served) && (function <>? FunctionPreAccessToken) && (function <>? FunctionPreUserinfo)
                   then UnknownFunction else outcome) miss)
      end
  end.

(** ** A first sign-in *)
Record UserRef := { u_ID : string; u_CreatedAt : option Z; u_Human : bool; u_Identity : Identity }.

(** [now] is when the account's age is looked at. *)
Definition welcome (cfg : option Config) (st : Store) (mt : Meets) (now : Z) (user : UserRef) (clientID function : string)
    : option (Result * string) :=
  match cfg, u_CreatedAt user with
  | Some cfg, Some created =>
      if negb (On (cfg_Welcome cfg)) || negb (u_Human user) then None
      else if (now - created <? - minute)%Z || (NewPersonWithin <? now - created)%Z then None
      else
        let projectID := default "" (Clients (cfg_Welcome cfg) !! clientID) in
        match w_Facts (cfg_Welcome cfg) !! projectID, Projects cfg !! projectID with
        | Some f, Some proj =>
            if clientID =? "" then None
            else match rawFacts st mt (u_ID user) projectID with
                 | Nil =>
                     let '(shape, known) := For (pj_Shapes proj) clientID in
                     let answer claims outcome :=
                       {| res_Claims := claims; res_Outcome := outcome; ClientKnown := known; Miss := false; res_Gen := Gen cfg |} in
                     Some (if negb (LandsIn (as_Profile shape) function) then answer [] NotLanding
                           else answer (Envelope (Shape (as_Profile shape)
                                          (Identify (with_ids f (u_ID user) projectID) (u_Identity user)))) ServedWelcome,
                           projectID)
                 | _ => None
                 end
        | _, _ => None
        end
  | _, _ => None
  end.
End serving.

(** ** Facts: the copy is a bounded map, most recent first *)
Definition entries (c : lru) : list lkgEntry := (order c).*2.

Definition spec_put (capacity : nat) (l : list lkgEntry) (v : lkgEntry) : list lkgEntry :=
  take capacity (v :: filter (λ w, le_key w ≠ le_key v) l).
Definition spec_get (l : list lkgEntry) (k : string) : list lkgEntry * option (Facts * Z) :=
  match list_find (λ w, le_key w = k) l with
  | Some (_, v) => (v :: filter (λ w, le_key w ≠ k) l, Some (le_facts v, le_at v))
  | None => (l, None)
  end.
Definition spec_drop (l : list lkgEntry) (k : string) : list lkgEntry := filter (λ w, le_key w ≠ k) l.

(** The map points at the list's elements, one a key, and there are no more
    than the capacity. *)
Record lru_wf (c : lru) : Prop := {
  lru_ids : NoDup (order c).*1;
  lru_items : ∀ k e, items c !! k = Some e ↔ ∃ v, (e, v) ∈ order c ∧ le_key v = k;
  lru_fresh : ∀ x, x ∈ order c → x.1 < fresh_id c;
  lru_bound : length (order c) ≤ cap c;
}.

Lemma newLRU_wf n : lru_wf (newLRU n).
Proof. split; simpl; [constructor| |set_solver|lia]. intros k e. rewrite lookup_empty. set_solver. Qed.

Lemma order_unique c x y : lru_wf c → x ∈ order c → y ∈ order c → x.1 = y.1 → x = y.
Proof.
  intros Hc Hx Hy E. apply list_elem_of_lookup in Hx as [i Hi], Hy as [j Hj].
  assert (i = j) as ->; [|congruence].
  eapply (NoDup_lookup _ i j x.1 (lru_ids c Hc)); rewrite list_lookup_fmap; [by rewrite Hi|by rewrite Hj, E].
Qed.

Lemma element_Some c e v : lru_wf c → (e, v) ∈ order c → element e (order c) = Some v.
Proof.
  intros Hc Hin. unfold element. destruct (head (filter (λ x, x.1 = e) (order c))) as [y|] eqn:Eh.
  - pose proof (head_Some_elem_of _ _ Eh) as [Hy Hyo]%list_elem_of_filter.
    by rewrite (order_unique c y (e, v)).
  - destruct (filter (λ x, x.1 = e) (order c)) as [|y l] eqn:Ef; [|done].
    assert ((e, v) ∈ filter (λ x, x.1 = e) (order c)) as Hf by (by apply list_elem_of_filter). rewrite Ef in Hf. set_solver.
Qed.

(** The element a key points at is the only one with that key. *)
Lemma element_key c k e x : lru_wf c → items c !! k = Some e → x ∈ order c → x.1 = e ↔ le_key x.2 = k.
Proof.
  intros Hc He Hx. apply (lru_items c Hc) in He as (v & Hv & <-). split.
  - intros E. by rewrite (order_unique c x (e, v)).
  - intros E. destruct x as [e' v']. simpl in *.
    assert (H1 : items c !! le_key v = Some e') by (apply (lru_items c Hc); eauto).
    assert (H2 : items c !! le_key v = Some e) by (apply (lru_items c Hc); eauto). congruence.
Qed.

Lemma remove_entries c k e :
  lru_wf c → items c !! k = Some e → (remove_element e (order c)).*2 = spec_drop (entries c) k.
Proof.
  intros Hc He. unfold remove_element, spec_drop, entries. rewrite filter_fmap. f_equal.
  assert (H : ∀ l : list (nat * lkgEntry), (∀ x, x ∈ l → x ∈ order c) →
    filter (λ x, x.1 ≠ e) l = filter (λ x : nat * lkgEntry, le_key x.2 ≠ k) l).
  2: { by apply H. }
  induction l as [|x l IH]; intros Hl; [done|]. rewrite !filter_cons, IH by (intros; apply Hl; by right).
  pose proof (element_key c k e x Hc He (Hl x ltac:(left))). repeat case_decide; tauto.
Qed.

Lemma missing_key c k : lru_wf c → items c !! k = None → spec_drop (entries c) k = entries c.
Proof.
  intros Hc Hk. apply filter_every. intros w ([e w'] & -> & Hin)%list_elem_of_fmap E. simpl in E.
  assert (items c !! k = Some e) by (apply (lru_items c Hc); eauto). congruence.
Qed.

Lemma remove_wf c e : lru_wf c → NoDup (remove_element e (order c)).*1.
Proof. intros Hc. apply NoDup_fmap_filter, lru_ids, Hc. Qed.

Lemma elem_of_remove e x l : x ∈ remove_element e l ↔ x ∈ l ∧ x.1 ≠ e.
Proof. unfold remove_element. rewrite list_elem_of_filter. tauto. Qed.

(** Replacing the element of a key and moving it to the front. *)
Lemma touch_wf c k e v :
  lru_wf c → items c !! k = Some e → le_key v = k →
  let c' := {| cap := cap c; order := (e, v) :: remove_element e (order c); items := items c; fresh_id := fresh_id c |} in
  lru_wf c' ∧ entries c' = v :: spec_drop (entries c) k.
Proof.
  intros Hc He Hk. pose proof (proj1 (lru_items c Hc k e) He) as (v0 & Hv0 & Hk0). split.
  - split; simpl.
    + constructor; [|by apply remove_wf]. intros (x & E & Hx%elem_of_remove)%list_elem_of_fmap. by destruct Hx.
    + intros k' e'. rewrite (lru_items c Hc). split.
      * intros (w & Hw & <-). destruct (decide (e' = e)) as [->|Hne].
        -- exists v. split; [left|]. pose proof (order_unique c (e, w) (e, v0) Hc Hw Hv0 eq_refl). congruence.
        -- exists w. split; [right; by apply elem_of_remove|done].
      * intros (w & [[= -> ->]|[Hw _]%elem_of_remove]%elem_of_cons & <-); [|eauto].
        exists v0. split; [done|]. congruence.
    + intros x [->|[Hx _]%elem_of_remove]%elem_of_cons; [by apply (lru_fresh c Hc (e, v0))|by apply (lru_fresh c Hc)].
    + pose proof (lru_bound c Hc). apply list_elem_of_split in Hv0 as (l1 & l2 & El). rewrite El in *.
      rewrite length_app in *. simpl in *. unfold remove_element. rewrite filter_app, filter_cons_False, length_app by naive_solver.
      pose proof (length_filter (λ x : nat * lkgEntry, x.1 ≠ e) l1). pose proof (length_filter (λ x : nat * lkgEntry, x.1 ≠ e) l2). lia.
  - unfold entries at 1. csimpl. f_equal. by apply remove_entries.
Qed.

Lemma pushed_facts c k v :
  lru_wf c → items c !! k = None → le_key v = k →
  let o := (fresh_id c, v) :: order c in
  NoDup o.*1 ∧ (∀ k' e, <[k := fresh_id c]> (items c) !! k' = Some e ↔ ∃ w, (e, w) ∈ o ∧ le_key w = k') ∧
  (∀ x, x ∈ o → x.1 < S (fresh_id c)).
Proof.
  intros Hc Hk Hv. cbv zeta.
  assert (Hnew : ∀ w, (fresh_id c, w) ∉ order c).
  { intros w Hw. apply (lru_fresh c Hc) in Hw. simpl in Hw. lia. }
  split_and!.
  - constructor; [|by apply lru_ids]. intros ([e w] & E & Hw)%list_elem_of_fmap. simpl in E. subst e. by apply (Hnew w).
  - intros k' e. destruct (decide (k' = k)) as [->|Hne].
    + rewrite lookup_insert_eq. split.
      * intros [= <-]. exists v. split; [left|done].
      * intros (w & [[= -> ->]|Hw]%elem_of_cons & E); [done|].
        assert (items c !! k = Some e) by (apply (lru_items c Hc); eauto). congruence.
    + rewrite lookup_insert_ne by done. rewrite (lru_items c Hc). split.
      * intros (w & Hw & E). exists w. split; [by right|done].
      * intros (w & [[= -> ->]|Hw]%elem_of_cons & E); [congruence|eauto].
  - intros x [->|Hx]%elem_of_cons; [simpl; lia|]. apply (lru_fresh c Hc) in Hx. lia.
Qed.

Lemma put_refines c k f t :
  lru_wf c →
  let v := {| le_key := k; le_facts := f; le_at := t |} in
  lru_wf (put c k f t) ∧ cap (put c k f t) = cap c ∧ entries (put c k f t) = spec_put (cap c) (entries c) v.
Proof.
  intros Hc. cbv zeta. unfold put. set (v := {| le_key := k; le_facts := f; le_at := t |}).
  assert (Hlen : length (entries c) = length (order c)) by (by unfold entries; rewrite length_fmap).
  pose proof (lru_bound c Hc) as Hb.
  destruct (items c !! k) as [e|] eqn:He.
  - destruct (touch_wf c k e v Hc He eq_refl) as [Hw E]. cbv zeta in Hw, E. split; [done|]. split; [done|].
    etrans; [exact E|]. unfold spec_put. symmetry. apply take_ge.
    pose proof (lru_bound _ Hw) as Hw'. rewrite <- E. unfold entries. by rewrite length_fmap.
  - destruct (pushed_facts c k v Hc He eq_refl) as (Hnd & Hit & Hfr). cbv zeta in Hnd, Hit, Hfr.
    assert (Hspec : spec_put (cap c) (entries c) v = take (cap c) (((fresh_id c, v) :: order c).*2)).
    { unfold spec_put. csimpl. f_equal. f_equal. by apply missing_key. }
    rewrite Hspec. set (o := (fresh_id c, v) :: order c) in *.
    destruct (Nat.ltb_spec (cap c) (length o)) as [Hlt|Hge]; simpl.
    + destruct (last o) as [x|] eqn:El; [|by apply last_None in El].
      apply last_Some in El as [pre Eo].
      assert (Hpre : remove_element x.1 o = pre).
      { rewrite Eo. unfold remove_element. rewrite filter_app, (filter_cons_False _ x []), app_nil_r by naive_solver.
        apply filter_every. intros y Hy E. rewrite Eo, fmap_app in Hnd. apply NoDup_app in Hnd as (_ & Hd & _).
        apply (Hd y.1); [by apply list_elem_of_fmap_2|]. rewrite E. simpl. left. }
      assert (Hlo : length pre = cap c).
      { assert (length o = S (length pre)) by (rewrite Eo, length_app; simpl; lia). unfold o in *. simpl in *. lia. }
      split_and!; [|done|].
      * split; simpl; rewrite ?Hpre.
        -- rewrite Eo, fmap_app in Hnd. by apply NoDup_app in Hnd as [? _].
        -- intros k' e. rewrite lookup_delete_Some, Hit, Eo. split.
           ++ intros [Hne (w & [Hw|Hw%list_elem_of_singleton]%elem_of_app & E)]; [eauto|]. by rewrite <- Hw in Hne.
           ++ intros (w & Hw & E). split; [|exists w; split; [set_solver|done]].
              intros E2. assert (H1 : <[k:=fresh_id c]> (items c) !! le_key w = Some e)
                by (apply Hit; exists w; rewrite Eo; set_solver).
              assert (H2 : <[k:=fresh_id c]> (items c) !! le_key w = Some x.1).
              { apply Hit. exists x.2. rewrite Eo. split; [destruct x; set_solver|congruence]. }
              rewrite H1 in H2. injection H2 as ->. rewrite Eo, fmap_app in Hnd.
              apply NoDup_app in Hnd as (_ & Hd & _). apply (Hd x.1); [|left].
              by apply (list_elem_of_fmap_2 fst) in Hw.
        -- intros y Hy. apply Hfr. rewrite Eo. set_solver.
        -- lia.
      * change ((remove_element x.1 o).*2 = take (cap c) o.*2). rewrite Hpre, Eo, fmap_app, take_app_length'; [done|]. by rewrite length_fmap.
    + split_and!; [split; simpl; done|done|]. unfold entries. simpl. symmetry. apply take_ge.
      change (length o.*2 ≤ cap c). by rewrite length_fmap.
Qed.

Lemma get_refines c k :
  lru_wf c →
  lru_wf (get c k).1 ∧ cap (get c k).1 = cap c ∧
  (entries (get c k).1, (get c k).2) = spec_get (entries c) k.
Proof.
  intros Hc. unfold get, spec_get. destruct (items c !! k) as [e|] eqn:He.
  - pose proof (proj1 (lru_items c Hc k e) He) as (v & Hv & Hk). rewrite (element_Some c e v Hc Hv). simpl.
    destruct (touch_wf c k e v Hc He Hk) as [Hw E]. split; [done|]. split; [done|].
    assert (Hin : v ∈ entries c) by (by apply (list_elem_of_fmap_2 snd) in Hv).
    destruct (list_find_elem_of (λ w, le_key w = k) (entries c) v Hin Hk) as [[i w] Hf]. rewrite Hf.
    apply list_find_Some in Hf as (Hi & Hkw & _). apply list_elem_of_lookup_2 in Hi.
    apply list_elem_of_fmap in Hi as ([e' w'] & -> & Hin'). simpl in Hkw.
    assert (E1 : e' = e) by (by apply (element_key c k e (e', w') Hc He Hin')).
    assert (E2 : (e', w') = (e, v)) by (by apply (order_unique c)). injection E2 as _ ->. simpl. f_equal.
    exact E.
  - split; [done|]. split; [done|]. simpl. destruct (list_find (λ w, le_key w = k) (entries c)) as [[i w]|] eqn:Hf; [|done].
    apply list_find_Some in Hf as (Hi & Hkw & _). apply list_elem_of_lookup_2 in Hi.
    apply list_elem_of_fmap in Hi as ([e' w'] & -> & Hin'). simpl in Hkw.
    assert (items c !! k = Some e') by (apply (lru_items c Hc); eauto). congruence.
Qed.

Lemma drop_refines c k :
  lru_wf c → lru_wf (drop c k) ∧ cap (drop c k) = cap c ∧ entries (drop c k) = spec_drop (entries c) k.
Proof.
  intros Hc. unfold drop. destruct (items c !! k) as [e|] eqn:He.
  - split_and!; [|done|by apply remove_entries]. split; simpl.
    + by apply remove_wf.
    + intros k' e'. rewrite lookup_delete_Some, (lru_items c Hc). setoid_rewrite elem_of_remove.
      split.
      * intros [Hne (v & Hv & E)]. exists v. split_and!; [done| |done]. simpl. intros ->.
        apply (element_key c k e (e, v) Hc He) in Hv as H. simpl in H. naive_solver.
      * intros (v & [Hv Hne] & E). split; [|eauto]. intros <-.
        apply Hne. by apply (element_key c k e (e', v) Hc He).
    + intros x [Hx _]%elem_of_remove. by apply (lru_fresh c Hc).
    + pose proof (lru_bound c Hc). unfold remove_element.
      pose proof (length_filter (λ x : nat * lkgEntry, x.1 ≠ e) (order c)). lia.
  - split_and!; [done|done|]. symmetry. by apply missing_key.
Qed.

(** ** Facts: what stays *)
Lemma entries_keys c : lru_wf c → NoDup (le_key <$> entries c).
Proof.
  intros Hc. apply NoDup_alt. intros i j k. unfold entries. rewrite <- list_fmap_compose, !list_lookup_fmap, !fmap_Some.
  intros ([e v] & Hi & ->) ([e' v'] & Hj & E). simpl in E.
  assert (H1 : items c !! le_key v = Some e) by (apply (lru_items c Hc); eauto using list_elem_of_lookup_2).
  assert (H2 : items c !! le_key v = Some e').
  { apply (lru_items c Hc). exists v'. split; [by eapply list_elem_of_lookup_2|done]. }
  rewrite H1 in H2. injection H2 as <-.
  apply (NoDup_lookup _ i j e (lru_ids c Hc)); rewrite list_lookup_fmap; [by rewrite Hi|by rewrite Hj].
Qed.

Inductive LruOp := OpPut (k : string) (f : Facts) (t : Z) | OpGet (k : string) | OpDrop (k : string).
Definition op_key (o : LruOp) : string := match o with OpPut k _ _ | OpGet k | OpDrop k => k end.
Definition lru_step (c : lru) (o : LruOp) : lru :=
  match o with OpPut k f t => put c k f t | OpGet k => (get c k).1 | OpDrop k => drop c k end.

Lemma lru_step_wf c o : lru_wf c → lru_wf (lru_step c o) ∧ cap (lru_step c o) = cap c.
Proof.
  intros Hc. destruct o as [k f t|k|k]; simpl.
  - by destruct (put_refines c k f t Hc) as (? & ? & _).
  - by destruct (get_refines c k Hc) as (? & ? & _).
  - by destruct (drop_refines c k Hc) as (? & ? & _).
Qed.

(** [v] is there with only keys of [T] ahead of it. *)
Definition behind (T : gset string) (v : lkgEntry) (l : list lkgEntry) : Prop :=
  ∃ pre post, l = pre ++ v :: post ∧ ∀ w, w ∈ pre → le_key w ∈ T.

Lemma pre_length (T : gset string) (pre post : list lkgEntry) :
  NoDup (le_key <$> (pre ++ post)) → (∀ w, w ∈ pre → le_key w ∈ T) → length pre ≤ size T.
Proof.
  rewrite fmap_app. intros (Hnd & _ & _)%NoDup_app HT.
  rewrite <- (length_fmap le_key), <- (size_list_to_set (C:=gset string) (le_key <$> pre) Hnd).
  apply subseteq_size. intros k Hk%elem_of_list_to_set. apply list_elem_of_fmap in Hk as (w & -> & Hw). by apply HT.
Qed.

Lemma behind_filter T v l k :
  le_key v ≠ k → behind T v l → behind T v (filter (λ w, le_key w ≠ k) l).
Proof.
  intros Hv (pre & post & -> & HT). rewrite filter_app, filter_cons_True by done.
  eexists _, _. split; [done|]. intros w [_ Hw]%list_elem_of_filter. by apply HT.
Qed.
Lemma behind_cons T v l w : behind T v l → behind (T ∪ {[le_key w]}) v (w :: l).
Proof. intros (pre & post & -> & HT). exists (w :: pre), post. split; [done|]. set_solver. Qed.
Lemma behind_mono T T' v l : T ⊆ T' → behind T v l → behind T' v l.
Proof. intros Hs (pre & post & -> & HT). exists pre, post. set_solver. Qed.
Lemma behind_take T v l n :
  NoDup (le_key <$> l) → size T < n → behind T v l → behind T v (take n l).
Proof.
  intros Hnd Hn (pre & post & -> & HT). pose proof (pre_length T pre (v :: post) Hnd HT).
  rewrite take_app_ge by lia. destruct (n - length pre) as [|m] eqn:E; [lia|]. simpl. by exists pre, (take m post).
Qed.

Lemma spec_put_nodup (l : list lkgEntry) v : NoDup (le_key <$> l) → NoDup (le_key <$> v :: filter (λ w, le_key w ≠ le_key v) l).
Proof.
  intros Hnd. csimpl. constructor; [|by apply NoDup_fmap_filter].
  intros (w & E & [? _]%list_elem_of_filter)%list_elem_of_fmap. by destruct H.
Qed.

Lemma lru_step_behind T c v o :
  lru_wf c → op_key o ≠ le_key v → size (T ∪ {[op_key o]}) < cap c →
  behind T v (entries c) → behind (T ∪ {[op_key o]}) v (entries (lru_step c o)).
Proof.
  intros Hc Hk Hn Hb. destruct o as [k f t|k|k]; simpl in *.
  - destruct (put_refines c k f t Hc) as (_ & _ & ->). unfold spec_put.
    apply behind_take; [by apply spec_put_nodup, entries_keys|done|].
    apply (behind_cons T v _ {| le_key := k; le_facts := f; le_at := t |}), behind_filter; [by apply not_eq_sym|done].
  - destruct (get_refines c k Hc) as (_ & _ & E). unfold spec_get in E.
    destruct (list_find _ _) as [[i w]|] eqn:Hf; injection E as -> _; [|by eapply behind_mono, Hb; set_solver].
    apply list_find_Some in Hf as (_ & <- & _). apply behind_cons, behind_filter; [by apply not_eq_sym|done].
  - destruct (drop_refines c k Hc) as (_ & _ & ->). eapply behind_mono; [|by apply behind_filter; [apply not_eq_sym|]]. set_solver.
Qed.

Lemma get_behind T c v : lru_wf c → behind T v (entries c) → (get c (le_key v)).2 = Some (le_facts v, le_at v).
Proof.
  intros Hc (pre & post & E & _). destruct (get_refines c (le_key v) Hc) as (_ & _ & Hg).
  pose proof (entries_keys c Hc) as Hnd. unfold spec_get in Hg.
  assert (Hv : v ∈ entries c) by (rewrite E; set_solver).
  destruct (list_find_elem_of (λ w, le_key w = le_key v) (entries c) v Hv eq_refl) as [[i w] Hf]. rewrite Hf in Hg.
  injection Hg as _ ->. apply list_find_Some in Hf as (Hi & Hk & _).
  apply list_elem_of_lookup in Hv as [j Hj].
  assert (i = j) as ->; [|congruence].
  eapply (NoDup_lookup _ i j (le_key v) Hnd); rewrite list_lookup_fmap; [by rewrite Hi, <- Hk|by rewrite Hj].
Qed.

Definition touched (ops : list LruOp) : gset string := list_to_set (op_key <$> ops).

Lemma lru_steps_behind ops : ∀ T c v,
  lru_wf c → (∀ o, o ∈ ops → op_key o ≠ le_key v) → size (T ∪ touched ops) < cap c →
  behind T v (entries c) →
  lru_wf (foldl lru_step c ops) ∧ behind (T ∪ touched ops) v (entries (foldl lru_step c ops)).
Proof.
  induction ops as [|o ops IH]; intros T c v Hc Ho Hn Hb; simpl.
  { split; [done|]. eapply behind_mono, Hb. set_solver. }
  destruct (lru_step_wf c o Hc) as [Hw Hcap].
  assert (Hu : T ∪ touched (o :: ops) = (T ∪ {[op_key o]}) ∪ touched ops).
  { unfold touched. csimpl. set_solver. }
  rewrite Hu in *. apply IH; [done|intros o' Ho'; apply Ho; by right|by rewrite Hcap|].
  apply lru_step_behind; [done|by apply Ho; left| |done].
  eapply Nat.le_lt_trans; [|exact Hn]. apply subseteq_size. set_solver.
Qed.

(** ** Facts: where a copy came from *)
Section history.
Context (decode : string → option Facts).

(** A call as the copy sees it. *)
Record Call := { ca_User : string; ca_Project : string; ca_MaxAge : Z; ca_Store : Store; ca_Meets : Meets }.
Definition call_key (x : Call) : string := lkg_key (ca_User x) (ca_Project x).
Definition call_read (x : Call) : Read := rawFacts (ca_Store x) (ca_Meets x) (ca_User x) (ca_Project x).
Definition call_facts (c : lru) (x : Call) : lru * (Facts * Outcome * bool) :=
  facts decode (ca_Store x) (ca_Meets x) c (ca_User x) (ca_Project x) (ca_MaxAge x).

(** Redis gave this call these facts. *)
Definition gave (x : Call) (f : Facts) : Prop :=
  ∃ raw g, call_read x = Found raw ∧ decode raw = Some g ∧ f = filled g (ca_User x) (ca_Project x).
(** Redis told this call nothing: it failed, or what it held does not decode. *)
Definition silent (x : Call) : Prop := call_read x = Failed ∨ ∃ raw, call_read x = Found raw ∧ decode raw = None.

(** The copy of an entry is the last thing Redis said about its key. *)
Definition last_said (calls : list Call) (v : lkgEntry) : Prop :=
  ∃ before x after, calls = before ++ x :: after ∧ call_key x = le_key v ∧ gave x (le_facts v) ∧
    at_time (ca_Meets x) = le_at v ∧ ∀ y, y ∈ after → call_key y = le_key v → silent y.

Definition after_calls (n : nat) (calls : list Call) : lru := foldl (λ c x, (call_facts c x).1) (newLRU n) calls.

Lemma last_said_snoc calls v x :
  last_said calls v → (call_key x = le_key v → silent x) → last_said (calls ++ [x]) v.
Proof.
  intros (b & y & a & -> & ? & ? & ? & Ha) Hx. exists b, y, (a ++ [x]). split_and!; [by rewrite <- app_assoc|done..|].
  intros z [Hz| ->%list_elem_of_singleton]%elem_of_app; [by apply Ha|done].
Qed.

Lemma take_elem {B} n (l : list B) x : x ∈ take n l → x ∈ l.
Proof. intros (i & Hi & _)%elem_of_take. by eapply list_elem_of_lookup_2. Qed.

Lemma call_facts_entries c x v :
  lru_wf c → v ∈ entries (call_facts c x).1 →
  (v ∈ entries c ∧ (call_key x = le_key v → silent x)) ∨
  (call_key x = le_key v ∧ gave x (le_facts v) ∧ le_at v = at_time (ca_Meets x)).
Proof.
  intros Hc. unfold call_facts, facts. fold (call_read x) (call_key x).
  destruct (call_read x) as [raw| |] eqn:Er.
  - destruct (decode raw) as [f|] eqn:Ed.
    + simpl. destruct (put_refines c (call_key x) (filled f (ca_User x) (ca_Project x)) (at_time (ca_Meets x)) Hc) as (_ & _ & ->).
      intros [->|[Hne Hin]%list_elem_of_filter]%take_elem%elem_of_cons.
      * right. simpl. split_and!; [done|by exists raw, f|done].
      * left. split; [done|]. intros E. simpl in Hne. congruence.
    + simpl. intros Hin. left. split; [done|]. intros _. right. by exists raw.
  - simpl. destruct (drop_refines c (call_key x) Hc) as (_ & _ & ->).
    intros [Hne Hin]%list_elem_of_filter. left. split; [done|]. congruence.
  - destruct (get_refines c (call_key x) Hc) as (_ & _ & Hg).
    destruct (get c (call_key x)) as [c' r]. simpl in Hg. unfold spec_get in Hg.
    intros Hin. left. split; [|intros _; by left].
    assert (Hin' : v ∈ entries c') by (by repeat case_match). clear Hin.
    destruct (list_find _ _) as [[i w]|] eqn:Hf; injection Hg as E _; rewrite E in Hin'; [|done].
    apply list_find_Some in Hf as (Hi & _ & _). apply list_elem_of_lookup_2 in Hi.
    apply elem_of_cons in Hin' as [->|[_ ?]%list_elem_of_filter]; done.
Qed.

Lemma after_calls_wf n calls : lru_wf (after_calls n calls).
Proof.
  unfold after_calls. rewrite <- (rev_involutive calls). generalize (rev calls) as l. clear calls.
  induction l as [|x l IH]; simpl; [apply newLRU_wf|]. rewrite foldl_app. simpl. set (c := foldl _ _ _) in *.
  unfold call_facts, facts. destruct (rawFacts _ _ _ _) as [raw| |].
  - destruct (decode raw); [|done]. by apply put_refines.
  - by apply drop_refines.
  - pose proof (get_refines c (lkg_key (ca_User x) (ca_Project x)) IH) as (Hw & _).
    destruct (get c _) as [c' r]. simpl in Hw. by repeat case_match.
Qed.

Lemma after_calls_said n calls v : v ∈ entries (after_calls n calls) → last_said calls v.
Proof.
  rewrite <- (rev_involutive calls). generalize (rev calls) as l. clear calls.
  induction l as [|x l IH]; simpl; [intros []%not_elem_of_nil|].
  pose proof (after_calls_wf n (rev l)) as Hw. unfold after_calls in *. rewrite foldl_app. simpl.
  intros [[Hin Hs]|(Hk & Hg & Ht)]%call_facts_entries; [..|done].
  - apply last_said_snoc; [by apply IH|done].
  - exists (rev l), x, []. split_and!; [done..|]. intros y Hy. by apply not_elem_of_nil in Hy.
Qed.
End history.

(** ** Facts: the roles of a token *)
Lemma rows_apart_filter (P : Claim → bool) l : rows_apart l → rows_apart (List.filter P l).
Proof.
  induction l as [|c l IH]; simpl; [done|]. intros (Hne & Ha & Hl)%rows_apart_cons. specialize (IH Hl).
  destruct (P c); [|done]. apply rows_apart_cons. split_and!; [done| |done].
  intros c' [Hc' _]%list_elem_of_In%filter_In. apply Ha. by apply list_elem_of_In.
Qed.

(** What a token says at a row, given what a call answered. *)
Definition says {A} (claims : list (@TokenClaim A)) (path : list string) (v : Value) : Prop :=
  ∃ o, claims = Envelope o ∧ get_path o path = Some v.

Lemma roles_row_said p f id roles (c : Claim) :
  Validate p = Accepted → c ∈ Claims p → Kind c = KindRoles → f_Roles f = roles →
  get_path (Shape p (Identify f id)) (Path c) = Some (FormatRoles (Words p roles) (Format c)).
Proof.
  intros Hv Hc Hk <-. apply Validate_wf in Hv. rewrite Shape_get by (by destruct Hv || done).
  unfold claim_value. by rewrite Hk.
Qed.

Lemma roles_only_row_said p f id roles (c : Claim) :
  Validate p = Accepted → c ∈ Claims p → Kind c = KindRoles → f_Roles f = roles →
  get_path (Shape (RolesOnly p) (Identify f id)) (Path c) = Some (FormatRoles (Words p roles) (Format c)).
Proof.
  intros Hv Hc Hk <-. apply Validate_wf in Hv.
  rewrite Shape_get.
  - unfold claim_value. by rewrite Hk.
  - apply rows_apart_filter. by destruct Hv.
  - apply list_elem_of_In, filter_In. split; [by apply list_elem_of_In|]. unfold needs_facts. by rewrite Hk.
Qed.

(** A call's roles, on every path through the answer. *)
Lemma answer_roles {A} decode (cfg : @Config A) st mt c user project client function roles id proj :
  Projects cfg !! project = Some proj →
  let p := as_Profile (For (pj_Shapes proj) client).1 in
  let res := (Answer decode (Some cfg) st mt c user project client function roles id).2 in
  Validate p = Accepted →
  if bool_decide (res_Outcome res ∈ [Served; ServedLKG; ServedRolesOnly; UnknownFunction]) then
    ∀ row, row ∈ Claims p → Kind row = KindRoles →
      says (res_Claims res) (Path row) (FormatRoles (Words p roles) (Format row))
  else res_Claims res = [] ∨ res_Claims res = mode_Claims (pj_Mode proj).
Proof.
  intros Hp. cbv zeta. unfold Answer. rewrite Hp. destruct (For (pj_Shapes proj) client) as [shape known]. simpl.
  intros Hv. destruct (LandsIn (as_Profile shape) function); simpl; [|by left].
  destruct (facts decode st mt c user project (LKGMaxAge (pj_Mode proj))) as [c' [[f outcome] miss]] eqn:Ef.
  assert (Ho : outcome ∈ [Served; ServedLKG; ServedRolesOnly; DegradedMalformed]).
  { unfold facts in Ef. repeat case_match; simplify_eq; set_solver. }
  destruct ((outcome =? Served) || (outcome =? ServedLKG)) eqn:E1; simpl.
  { rewrite bool_decide_true.
    - intros row Hrow Hk. eexists. split; [reflexivity|]. by apply roles_row_said.
    - apply orb_true_iff in E1. rewrite !bool_decide_eq_true in E1. case_match; set_solver. }
  destruct ((outcome =? ServedRolesOnly) && negb (expired mt)) eqn:E2; simpl.
  { rewrite bool_decide_true.
    - intros row Hrow Hk. eexists. split; [reflexivity|]. by apply roles_only_row_said.
    - apply andb_true_iff in E2 as [->%bool_decide_eq_true _]. repeat case_match; set_solver. }
  apply orb_false_iff in E1. rewrite !bool_decide_eq_false in E1.
  destruct (expired mt) eqn:Ex; simpl; [by right|].
  rewrite andb_true_r in E2. apply bool_decide_eq_false in E2.
  assert (outcome = DegradedMalformed) as -> by set_solver. simpl. by right.
Qed.

(** ** Properties *)

(** The copy of a person's facts is kept until [cap] other people have been
    looked up since: after a put, and whatever follows on fewer other keys than
    the capacity, a get finds what was put. *)
Theorem lru_keeps_the_recent c k f t ops :
  lru_wf c → 0 < cap c → (∀ o, o ∈ ops → op_key o ≠ k) → size (touched ops) < cap c →
  (get (foldl lru_step (put c k f t) ops) k).2 = Some (f, t).
Proof.
  intros Hc Hpos Ho Hn. set (v := {| le_key := k; le_facts := f; le_at := t |}).
  destruct (put_refines c k f t Hc) as (Hw & Hcap & He).
  destruct (lru_steps_behind ops ∅ (put c k f t) v Hw Ho) as [Hw' Hb].
  - rewrite Hcap. by rewrite (left_id_L ∅ (∪)).
  - exists [], (take (cap c - 1) (filter (λ w, le_key w ≠ k) (entries c))). split; [|set_solver].
    rewrite He. unfold spec_put. destruct (cap c); [lia|]. simpl. by rewrite Nat.sub_0_r.
  - by apply (get_behind _ _ v) in Hb.
Qed.

(** C39. A token answered from memory is answered with what Redis last said of this
    person and project: the facts of one earlier call, no older than the
    project allows, after which Redis neither gave others nor said there are
    none. *)
Theorem lkg_answers_are_recent decode n calls x f miss :
  (call_facts decode (after_calls decode n calls) x).2 = (f, ServedLKG, miss) →
  call_read x = Failed ∧
  ∃ before y after, calls = before ++ y :: after ∧ call_key y = call_key x ∧ gave decode y f ∧
    (at_time (ca_Meets x) - at_time (ca_Meets y) ≤ ca_MaxAge x)%Z ∧
    ∀ z, z ∈ after → call_key z = call_key x → silent decode z.
Proof.
  unfold call_facts, facts. fold (call_read x) (call_key x). set (c := after_calls decode n calls).
  assert (Hc : lru_wf c) by apply after_calls_wf.
  destruct (call_read x) as [raw| |]; simpl; [by destruct (decode raw)|done|].
  destruct (get_refines c (call_key x) Hc) as (_ & _ & Hg).
  destruct (get c (call_key x)) as [c' [[g at_]|]]; simpl in *; [|done].
  case_match eqn:Hage; simpl; [|done]. intros [= -> <-]. split; [done|].
  unfold spec_get in Hg. destruct (list_find _ _) as [[i v]|] eqn:Hf; [|done]. injection Hg as _ -> ->.
  apply list_find_Some in Hf as (Hi & Hk & _). apply list_elem_of_lookup_2, after_calls_said in Hi.
  destruct Hi as (b & y & a & -> & Hky & Hgave & Ht & Ha). exists b, y, a.
  split_and!; [done|congruence|done|apply Z.leb_le in Hage; by rewrite Ht|].
  intros z Hz Hkz. apply Ha; [done|congruence].
Qed.

(** The roles of a token are Zitadel's. Whatever Redis and the copy hold,
    when the answer is delivered every roles row of the shape carries exactly the
    words of the roles Zitadel listed; otherwise the answer is the project's
    failure mode, or nothing. *)
Theorem zitadel_decides_the_roles {A} decode (cfg : @Config A) st mt c user project client function roles id proj :
  Projects cfg !! project = Some proj →
  let p := as_Profile (For (pj_Shapes proj) client).1 in
  let res := (Answer decode (Some cfg) st mt c user project client function roles id).2 in
  Validate p = Accepted →
  if bool_decide (res_Outcome res ∈ [Served; ServedLKG; ServedRolesOnly; UnknownFunction]) then
    ∀ row, row ∈ Claims p → Kind row = KindRoles →
      says (res_Claims res) (Path row) (FormatRoles (Words p roles) (Format row))
  else res_Claims res = [] ∨ res_Claims res = mode_Claims (pj_Mode proj).
Proof. apply answer_roles. Qed.

(** A key Syndra moves off keeps verifying for as long as calls signed with it
    may arrive, whatever the read that moved it, and a read of the key just
    left never brings it back. *)
Theorem keyring_overlap k key now u :
  Current k ≠ "" → (now ≤ u)%Z → (Unix u < Unix (now + PreviousKeyKeep))%Z →
  let k' := Next k key now in
  Current k ∈ sk_Key <$> Keys k' u ∧
  (key ≠ "" → key ∈ sk_Key <$> Keys k' now) ∧
  (key = Previous k → (Unix now < PreviousUntil k)%Z → k' = k).
Proof.
  intros Hc Hu Hw. cbv zeta. unfold Next.
  destruct ((key =? "") || (key =? Current k) || _) eqn:E.
  - split_and!.
    + unfold Keys. rewrite (bool_decide_false (Current k = "")) by done. simpl. left.
    + intros Hk. rewrite !orb_true_iff, andb_true_iff, !bool_decide_eq_true, Z.ltb_lt in E.
      unfold Keys. rewrite (bool_decide_false (Current k = "")) by done.
      destruct E as [[?| ->]|[-> Hl]]; [done|simpl; left|].
      rewrite (bool_decide_false (Previous k = "")) by done. apply Z.ltb_lt in Hl. rewrite Hl. simpl. right. left.
    + done.
  - rewrite !orb_false_iff, !bool_decide_eq_false in E. destruct E as [[Hk Hne] Hprev].
    rewrite (bool_decide_false (Current k = "")) by done. simpl. split_and!.
    + unfold Keys. simpl. rewrite (bool_decide_false (key = "")), (bool_decide_false (Current k = "")) by done.
      apply Z.ltb_lt in Hw. rewrite Hw. simpl. right. left.
    + intros _. unfold Keys. simpl. rewrite (bool_decide_false (key = "")) by done. simpl. left.
    + intros -> Hl%Z.ltb_lt. by rewrite bool_decide_true, Hl in Hprev.
Qed.

(** ** On a concrete snapshot *)
Definition demo_decode (raw : string) : option Facts := if raw =? "f" then Some demo_facts else None.
Definition demo_store : Store :=
  {| strings := ∅; hashes := {[ "facts:u1" := {[ "p1" := "f" ]} ]} |}.
Definition demo_meets (answers : bool) (t : Z) : Meets :=
  {| hget_answers := answers; get_answers := answers; at_time := t; expired := false |}.
Definition demo_shapes : ProjectShapes :=
  {| ps_Default := demo_profile; DefaultSource := "project_default"; ByClient := ∅ |}.
Definition demo_config : @Config string :=
  {| Gen := 7; BuiltAt := 0; Projects := {[ "p1" := {| pj_Shapes := demo_shapes; pj_Mode := no_mode |} ]};
     ClientProject := ∅; cfg_Keys := no_keys; cfg_Welcome := no_welcome |}.
Definition nobody : Identity :=
  {| Human := false; Machine := false; i_GivenName := ""; i_FamilyName := ""; i_Username := ""; i_Email := "" |}.
Definition demo_answer (c : lru) (mt : Meets) : lru * Result :=
  Answer demo_decode (Some demo_config) demo_store mt c "u1" "p1" "c1" FunctionPreUserinfo ["admin"] nobody.
Definition demo_warm : lru := (demo_answer (newLRU 2) (demo_meets true 0)).1.

(** Served, then served from memory while Redis is out, then, once the copy is
    too old, the roles alone. *)
Example demo_ladder :
  res_Outcome (demo_answer (newLRU 2) (demo_meets true 0)).2 = Served ∧
  res_Outcome (demo_answer demo_warm (demo_meets false hour)).2 = ServedLKG ∧
  res_Outcome (demo_answer demo_warm (demo_meets false (7 * hour))).2 = Served ∧
  res_Claims (demo_answer demo_warm (demo_meets false (7 * hour))).2 =
    [ {| tc_Key := "app"; tc_Value := inl (VObject [("groups", VStrings ["root"])]) |};
      {| tc_Key := "zone"; tc_Value := inl (VRaw "7") |} ].
Proof. split_and!; vm_compute; reflexivity. Qed.

Lemma lru_keeps_the_recent_witness :
  (get (foldl lru_step (put (newLRU 2) "a" demo_facts 1) [OpPut "b" no_facts 2; OpGet "b"]) "a").2 = Some (demo_facts, 1%Z).
Proof.
  apply lru_keeps_the_recent; [apply newLRU_wf|simpl; lia| |vm_compute; lia].
  intros o Ho. repeat (apply elem_of_cons in Ho as [->|Ho]; [discriminate|]). by apply not_elem_of_nil in Ho.
Defined.

Definition demo_call (answers : bool) (t : Z) : Call :=
  {| ca_User := "u1"; ca_Project := "p1"; ca_MaxAge := DefaultLKGMaxAge; ca_Store := demo_store; ca_Meets := demo_meets answers t |}.
Lemma lkg_answers_are_recent_witness :
  call_read (demo_call false hour) = Failed ∧ ∃ y f, y ∈ [demo_call true 0] ∧ gave demo_decode y f.
Proof.
  destruct (lkg_answers_are_recent demo_decode 2 [demo_call true 0] (demo_call false hour) demo_facts false)
    as [H (b & y & a & E & _ & Hg & _)]; [vm_compute; reflexivity|].
  split; [exact H|]. exists y, demo_facts. split; [|exact Hg]. rewrite E. apply elem_of_app. right. left.
Defined.

Lemma zitadel_decides_the_roles_witness :
  says (res_Claims (demo_answer demo_warm (demo_meets false hour)).2) ["app"; "groups"] (VStrings ["root"]).
Proof.
  pose proof (zitadel_decides_the_roles demo_decode demo_config demo_store (demo_meets false hour) demo_warm "u1" "p1" "c1"
    FunctionPreUserinfo ["admin"] nobody {| pj_Shapes := demo_shapes; pj_Mode := no_mode |} eq_refl) as H.
  apply (H ltac:(vm_compute; reflexivity) (roles_row ["app"; "groups"] FormatArray)); [right; right; left|reflexivity].
Defined.

Lemma keyring_overlap_witness :
  "old" ∈ sk_Key <$> Keys (Next {| Current := "old"; Previous := ""; PreviousUntil := 0; ChangedAt := 0 |} "new" 0) minute.
Proof.
  destruct (keyring_overlap {| Current := "old"; Previous := ""; PreviousUntil := 0; ChangedAt := 0 |} "new" 0 minute)
    as [H _]; [discriminate|vm_compute; discriminate|vm_compute; reflexivity|exact H].
Defined.
