(* ===== verification/ClaimPublish.v ===== *)
(** * ClaimPublish: from a save to the snapshot (backend/internal/claimserve/plane.go's
      Publish, Poll and load; handlers/claims_plane.go's publishProjects)

    The write side puts every project's shapes and failure mode into Redis and
    moves claims:gen last; the loader polls it and builds a new snapshot. Each
    command reaches Redis or not on its own, and one that was carried out may
    still have its answer lost. The reads of one poll see Redis at different
    moments. encoding/json is a parameter with the law of its round trip:
    json.Marshal writes a fixed value without its white space. *)

From S2P Require Import Prelude Json Claims ClaimDiff ClaimShape ClaimServe.

(** ** Redis *)
Record Redis := { r_gen : option Z; r_values : gmap string string; r_projects : gset string }.

(** How a command went: answered, carried out with the answer lost, or not
    carried out. *)
Inductive Reach := Answers | Lost | Down.
Definition effect {X} (r : Reach) (before after : X) : X := match r with Down => before | _ => after end.
Definition answered (r : Reach) : bool := match r with Answers => true | _ => false end.

Definition ShapesKey (projectID : string) : string := "claim_shapes:" +:+ projectID.
Definition ModeKey (projectID : string) : string := "claim_mode:" +:+ projectID.
Definition KeyringKey : string := "claims:keyring".
Definition WelcomeKey : string := "claims:welcome".

Definition ReloadAtLeast : Z := minute.

Definition mset (r : Redis) (kvs : list (string * string)) : Redis :=
  {| r_gen := r_gen r; r_values := foldl (λ m kv, <[kv.1 := kv.2]> m) (r_values r) kvs; r_projects := r_projects r |}.
Definition sadd (r : Redis) (ids : list string) : Redis :=
  {| r_gen := r_gen r; r_values := r_values r; r_projects := list_to_set ids ∪ r_projects r |}.
Definition incr (r : Redis) : Redis :=
  {| r_gen := Some (default 0 (r_gen r) + 1)%Z; r_values := r_values r; r_projects := r_projects r |}.

Inductive PublishError := ErrEncode | ErrRedisRead | ErrRedisWrite | ErrRedisIndex | ErrRedisGen.

(** ** encoding/json on what is published *)
Class ConfigCodec (A : Type) := {
  enc_shapes : ProjectShapes → option string;
  enc_mode : @Mode A → option string;
  enc_keyring : Keyring → option string;
  enc_welcome : Welcome → option string;
  dec_shapes : string → option ProjectShapes;
  dec_mode : string → option (@Mode A);
  dec_keyring : string → option Keyring;
  dec_welcome : string → option Welcome;
}.

(** What comes back of shapes: the same, each fixed value rewritten. *)
Definition reread_shape (compact : string → string) (s : AppShape) : AppShape :=
  {| as_ApplicationID := as_ApplicationID s; as_Version := as_Version s; as_TemplateID := as_TemplateID s;
     as_Profile := stored compact (as_Profile s) |}.
Definition reread (compact : string → string) (ps : ProjectShapes) : ProjectShapes :=
  {| ps_Default := stored compact (ps_Default ps); DefaultSource := DefaultSource ps;
     ByClient := reread_shape compact <$> ByClient ps |}.

Class ConfigLaws (A : Type) `{ConfigCodec A} (compact : string → string) := {
  shapes_round_trip ps s : enc_shapes ps = Some s → s ≠ "" ∧ dec_shapes s = Some (reread compact ps);
  mode_round_trip m s : enc_mode m = Some s → s ≠ "" ∧ dec_mode s = Some m;
}.

Section publish.
Context {A : Type} `{Codec : ConfigCodec A}.
Abbreviation Proj := (@Project A).
Abbreviation Cfg := (@Config A).

(** ** Publishing *)

(** A project's two entries as they are to be. *)
Definition entries_of (id : string) (p : Proj) : option (list (string * string)) :=
  s ← enc_shapes (pj_Shapes p); m ← enc_mode (pj_Mode p); Some [(ShapesKey id, s); (ModeKey id, m)].

(** The loop: what has to be written, with the projects it is of; [None] when
    one does not encode. A missing entry reads as blank. *)
Fixpoint differing (cur : gmap string string) (l : list (string * Proj)) : option (list (string * string) * list string) :=
  match l with
  | [] => Some ([], [])
  | (id, p) :: l =>
      es ← entries_of id p;
      '(sets, ids) ← differing cur l;
      if forallb (λ '(k, v), default "" (cur !! k) =? v) es then Some (sets, ids) else Some (es ++ sets, id :: ids)
  end.

Record PublishReach := { pr_read : Reach; pr_set : Reach; pr_index : Reach; pr_gen : Reach }.

Definition Publish (w : PublishReach) (r : Redis) (projects : gmap string Proj) : Redis * (PublishError + nat) :=
  if bool_decide (projects = ∅) then (r, inr 0)
  else if negb (answered (pr_read w)) then (r, inl ErrRedisRead)
  else match differing (r_values r) (map_to_list projects) with
       | None => (r, inl ErrEncode)
       | Some (_, []) => (r, inr 0)
       | Some (sets, ids) =>
           let r := effect (pr_set w) r (mset r sets) in
           if negb (answered (pr_set w)) then (r, inl ErrRedisWrite)
           else
             let r := effect (pr_index w) r (sadd r ids) in
             if negb (answered (pr_index w)) then (r, inl ErrRedisIndex)
             else
               let r := effect (pr_gen w) r (incr r) in
               if negb (answered (pr_gen w)) then (r, inl ErrRedisGen) else (r, inr (length ids))
       end.

Definition publishKeyringAt (ws wg : Reach) (r : Redis) (key : string) (k : Keyring) : Redis * (PublishError + unit) :=
  match enc_keyring k with
  | None => (r, inl ErrEncode)
  | Some v =>
      let r := effect ws r (mset r [(key, v)]) in
      if negb (answered ws) then (r, inl ErrRedisWrite)
      else let r := effect wg r (incr r) in (r, if answered wg then inr () else inl ErrRedisGen)
  end.
Definition PublishKeyring (ws wg : Reach) (r : Redis) (k : Keyring) := publishKeyringAt ws wg r KeyringKey k.

Definition PublishWelcome (wr ws wg : Reach) (r : Redis) (w : Welcome) : Redis * (PublishError + unit) :=
  match enc_welcome w with
  | None => (r, inl ErrEncode)
  | Some v =>
      if negb (answered wr) then (r, inl ErrRedisRead)
      else match (match r_values r !! WelcomeKey with Some c => Some c | None => enc_welcome no_welcome end) with
           | None => (r, inl ErrRedisRead)
           | Some cur =>
               if cur =? v then (r, inr ())
               else
                 let r := effect ws r (mset r [(WelcomeKey, v)]) in
                 if negb (answered ws) then (r, inl ErrRedisWrite)
                 else let r := effect wg r (incr r) in (r, if answered wg then inr () else inl ErrRedisGen)
           end
  end.

(** ** The pass that resolves and publishes

    [resolve] reads one project's shapes and [mode_of] its failure mode from
    Postgres; a project that cannot be read is left out and reported. *)
Definition resolved (resolve : string → ShapeError + ProjectShapes) (mode_of : string → ShapeError + Mode)
    (st : gmap string Proj * nat) (id : string) : gmap string Proj * nat :=
  let '(projects, errs) := st in
  if id =? "" then st
  else match resolve id with
       | inl _ => (projects, S errs)
       | inr shapes =>
           match mode_of id with
           | inl _ => (projects, S errs)
           | inr m => (<[id := {| pj_Shapes := shapes; pj_Mode := m |}]> projects, errs)
           end
       end.
Definition publishProjects (resolve : string → ShapeError + ProjectShapes) (mode_of : string → ShapeError + Mode)
    (w : PublishReach) (r : Redis) (extra : gmap string Proj) (ids : list string) : Redis * (PublishError + nat) * nat :=
  let '(projects, errs) := foldl (resolved resolve mode_of) (extra, 0) ids in
  (Publish w r projects, errs).

(** ** Polling *)
Record Plane := { pl_cfg : option Cfg; lastCheck : option Z; failures : nat; reloads : nat }.
Definition new_plane : Plane := {| pl_cfg := None; lastCheck := None; failures := 0; reloads := 0 |}.

(** Redis as each read of a poll saw it; [None] when the read failed. *)
Record Reads := {
  rd_gen : option Redis;
  rd_members : option Redis;
  rd_keyring : option Redis;
  rd_debug : option Redis;
  rd_welcome : option Redis;
  rd_config : option Redis;
}.

Definition read_project (values : gmap string string) (id : string) : option Proj :=
  let s := default "" (values !! ShapesKey id) in
  if s =? "" then None
  else match dec_shapes s with
       | None => None
       | Some shapes =>
           if Lands (ps_Default shapes) =? "" then None
           else
             let m := default "" (values !! ModeKey id) in
             Some {| pj_Shapes := shapes;
                     pj_Mode := if m =? "" then no_mode else default no_mode (dec_mode m) |}
       end.

(** The projects that read, with the project each client's own shape is of. *)
Definition add_project (values : gmap string string) (st : gmap string Proj * gmap string string) (id : string) :=
  match read_project values id with
  | None => st
  | Some p => (<[id := p]> st.1, foldl (λ m c, <[c := id]> m) st.2 (map_to_list (ByClient (pj_Shapes p))).*1)
  end.

Definition load (now : Z) (gen : Z) (rd : Reads) : option Cfg :=
  members ← rd_members rd;
  keyring ← rd_keyring rd;
  _ ← rd_debug rd;
  welcome ← rd_welcome rd;
  let ids := base.elements (r_projects members) in
  let keys := match r_values keyring !! KeyringKey with
              | None => no_keys
              | Some v => default no_keys (dec_keyring v)
              end in
  let wel := match r_values welcome !! WelcomeKey with
             | None => no_welcome
             | Some v => default no_welcome (dec_welcome v)
             end in
  let cfg '(projects, clients) :=
    {| Gen := gen; BuiltAt := now; Projects := projects; ClientProject := clients; cfg_Keys := keys; cfg_Welcome := wel |} in
  match ids with
  | [] => Some (cfg (∅, ∅))
  | _ => config ← rd_config rd; Some (cfg (foldl (add_project (r_values config)) (∅, ∅) ids))
  end.

Definition poll_ok (p : Plane) (cfg : option Cfg) (n : nat) (now : Z) : Plane :=
  {| pl_cfg := cfg; lastCheck := Some now; failures := 0; reloads := n |}.
Definition poll_fail (p : Plane) : Plane :=
  {| pl_cfg := pl_cfg p; lastCheck := lastCheck p; failures := S (failures p); reloads := reloads p |}.

(** The plane after the poll, and whether it succeeded. *)
Definition Poll (now : Z) (rd : Reads) (p : Plane) : Plane * bool :=
  match rd_gen rd with
  | None => (poll_fail p, false)
  | Some g =>
      let gen := default 0%Z (r_gen g) in
      let current := match pl_cfg p with
                     | Some cur => (Gen cur =? gen) && (now - BuiltAt cur <? ReloadAtLeast)%Z
                     | None => false
                     end in
      if current then (poll_ok p (pl_cfg p) (reloads p) now, true)
      else match load now gen rd with
           | None => (poll_fail p, false)
           | Some cfg => (poll_ok p (Some cfg) (S (reloads p)) now, true)
           end
  end.

(** The signing keys a door verifies with. *)
Definition SigningKeys (p : Plane) (now : Z) : list SlotKey :=
  match pl_cfg p with Some cfg => Keys (cfg_Keys cfg) now | None => [] end.
End publish.

(** ** Facts: keys *)
Lemma ShapesKey_inj i j : ShapesKey i = ShapesKey j → i = j.
Proof. apply string_app_inj. Qed.
Lemma ModeKey_inj i j : ModeKey i = ModeKey j → i = j.
Proof. apply string_app_inj. Qed.
Lemma ShapesKey_ModeKey i j : ShapesKey i ≠ ModeKey j.
Proof. discriminate. Qed.

Section facts.
Context {A : Type} `{Laws : ConfigLaws A compact}.
Abbreviation Proj := (@Project A).
Abbreviation Cfg := (@Config A).

(** Redis holds a project's config as it is to be. *)
Definition holds (r : Redis) (id : string) (p : Proj) : Prop :=
  ∃ es, entries_of id p = Some es ∧ ∀ k v, (k, v) ∈ es → r_values r !! k = Some v.

Definition reread_project (p : Proj) : Proj := {| pj_Shapes := reread compact (pj_Shapes p); pj_Mode := pj_Mode p |}.

Lemma entries_cases id p es :
  entries_of id p = Some es →
  ∃ s m, enc_shapes (pj_Shapes p) = Some s ∧ enc_mode (pj_Mode p) = Some m ∧ es = [(ShapesKey id, s); (ModeKey id, m)].
Proof.
  unfold entries_of. destruct (enc_shapes (pj_Shapes p)) as [s|]; [|done].
  destruct (enc_mode (pj_Mode p)) as [m|]; [|done]. intros [= <-]. eauto 6.
Qed.

Lemma entries_keys_of id p es k v : entries_of id p = Some es → (k, v) ∈ es → k = ShapesKey id ∨ k = ModeKey id.
Proof. intros (s & m & _ & _ & ->)%entries_cases. set_solver. Qed.

(** A project that Redis holds is what a load reads. *)
Lemma holds_read r id p :
  holds r id p → Lands (ps_Default (pj_Shapes p)) ≠ "" → read_project (r_values r) id = Some (reread_project p).
Proof.
  intros (es & He & Hes) Hl. apply entries_cases in He as (s & m & Hs & Hm & ->).
  destruct (shapes_round_trip _ _ Hs) as [Hs0 Hds]. destruct (mode_round_trip _ _ Hm) as [Hm0 Hdm].
  unfold read_project. rewrite (Hes (ShapesKey id) s), (Hes (ModeKey id) m) by set_solver. simpl.
  rewrite (bool_decide_false (s = "")), Hds by done. simpl. rewrite (bool_decide_false (Lands _ = "")) by done.
  by rewrite (bool_decide_false (m = "")), Hdm by done.
Qed.

(** ** Facts: what a publish writes *)
Lemma differing_entries cur l sets ids :
  differing cur l = Some (sets, ids) →
  (∀ k v, (k, v) ∈ sets → ∃ id p es, (id, p) ∈ l ∧ id ∈ ids ∧ entries_of id p = Some es ∧ (k, v) ∈ es) ∧
  ∀ id p, (id, p) ∈ l → ∃ es, entries_of id p = Some es ∧
    ((id ∈ ids ∧ ∀ kv, kv ∈ es → kv ∈ sets) ∨ (∀ k v, (k, v) ∈ es → default "" (cur !! k) = v)).
Proof.
  revert sets ids. induction l as [|[id p] l IH]; intros sets ids; simpl; [intros [= <- <-]; set_solver|].
  destruct (entries_of id p) as [es|] eqn:Ee; [|done]. simpl.
  destruct (differing cur l) as [[sets' ids']|]; [|done]. simpl. specialize (IH _ _ eq_refl) as [IH1 IH2].
  destruct (forallb _ es) eqn:Ef; intros [= <- <-]; split.
  - intros k v (i & q & e & ? & ? & ? & ?)%IH1. exists i, q, e. split_and!; [by right|done..].
  - intros i q [[= -> ->]|Hin]%elem_of_cons; [|by apply IH2]. exists es. split; [done|right].
    intros k v Hkv. rewrite forallb_forall in Ef. apply list_elem_of_In, Ef in Hkv. by apply bool_decide_eq_true in Hkv.
  - intros k v [Hkv|(i & q & e & ? & ? & ? & ?)%IH1]%elem_of_app.
    + exists id, p, es. split_and!; [left|left|done|done].
    + exists i, q, e. split_and!; [by right|by right|done|done].
  - intros i q [[= -> ->]|(e & He & Hor)%IH2]%elem_of_cons.
    + exists es. split; [done|left]. split; [left|]. intros kv ?. apply elem_of_app. by left.
    + exists e. split; [done|]. destruct Hor as [[Hi He']|Hc]; [left|by right].
      split; [by right|]. intros kv Hkv. apply elem_of_app. right. by apply He'.
Qed.

Lemma mset_lookup (kvs : list (string * string)) (m : gmap string string) k v :
  (k, v) ∈ kvs → (∀ v', (k, v') ∈ kvs → v' = v) →
  foldl (λ m (kv : string * string), <[kv.1 := kv.2]> m) m kvs !! k = Some v.
Proof.
  revert m. induction kvs as [|[k' v'] kvs IH] using rev_ind; intros m Hin Hu; [set_solver|].
  rewrite foldl_app. simpl. destruct (decide (k' = k)) as [->|Hne].
  - rewrite lookup_insert_eq. f_equal. apply Hu. set_solver.
  - rewrite lookup_insert_ne by done. apply IH; [set_solver|]. intros w Hw. apply Hu. set_solver.
Qed.
Lemma mset_other (kvs : list (string * string)) (m : gmap string string) k :
  (∀ v, (k, v) ∉ kvs) → foldl (λ m (kv : string * string), <[kv.1 := kv.2]> m) m kvs !! k = m !! k.
Proof.
  revert m. induction kvs as [|[k' v'] kvs IH]; intros m Hno; simpl; [done|].
  rewrite IH by set_solver. apply lookup_insert_ne. intros ->. apply (Hno v'). left.
Qed.

(** Every project is held once the values of a publish are written. *)
Lemma mset_holds r (projects : gmap string Proj) sets ids id p :
  differing (r_values r) (map_to_list projects) = Some (sets, ids) → projects !! id = Some p →
  holds (mset r sets) id p ∧ (id ∈ ids ∨ holds r id p).
Proof.
  intros Hd Hp. apply differing_entries in Hd as [Hsets Hall].
  apply elem_of_map_to_list in Hp as Hin. destruct (Hall id p Hin) as (es & He & Hor).
  assert (Huniq : ∀ k v, (k, v) ∈ es → ∀ v', (k, v') ∈ sets → v' = v).
  { intros k v Hkv v' (i & q & e & Hiq & _ & He' & Hkv')%Hsets.
    assert (i = id) as ->.
    { destruct (entries_keys_of _ _ _ _ _ He Hkv) as [->| ->], (entries_keys_of _ _ _ _ _ He' Hkv') as [E|E];
        [by apply ShapesKey_inj in E|by apply ShapesKey_ModeKey in E|symmetry in E; by apply ShapesKey_ModeKey in E|by apply ModeKey_inj in E]. }
    apply elem_of_map_to_list in Hiq. assert (q = p) as -> by congruence. rewrite He in He'. injection He' as <-.
    apply entries_cases in He as (s & m & _ & _ & ->).
    repeat (apply elem_of_cons in Hkv as [[= -> ->]|Hkv]); [..|by apply not_elem_of_nil in Hkv];
      repeat (apply elem_of_cons in Hkv' as [[= ->]|Hkv']); try done; by apply not_elem_of_nil in Hkv'. }
  assert (Hvals : ∀ k v, (k, v) ∈ es → (∀ kv, kv ∈ es → kv ∈ sets) ∨ r_values r !! k = Some v →
    r_values (mset r sets) !! k = Some v).
  { intros k v Hkv Hk. simpl. destruct (decide ((k, v) ∈ sets)) as [Hs|Hs]; [apply mset_lookup; [done|by apply Huniq]|].
    rewrite mset_other; [destruct Hk as [Hk|Hk]; [by apply Hk in Hkv|done]|].
    intros v' Hv'. apply Hs. by rewrite <- (Huniq k v Hkv v' Hv'). }
  destruct Hor as [[Hi He']|Hc].
  - split; [|by left]. exists es. split; [done|]. intros k v Hkv. apply Hvals; auto.
  - assert (Hr : ∀ k v, (k, v) ∈ es → r_values r !! k = Some v).
    { intros k v Hkv. specialize (Hc k v Hkv). apply entries_cases in He as (s & m & Hs & Hm & ->).
      destruct (shapes_round_trip _ _ Hs) as [Hs0 _], (mode_round_trip _ _ Hm) as [Hm0 _].
      destruct (r_values r !! k) as [w|]; simpl in Hc; [by subst|].
      repeat (apply elem_of_cons in Hkv as [[= -> ->]|Hkv]); [congruence|congruence|by apply not_elem_of_nil in Hkv]. }
    split; [|right]; exists es; (split; [done|]); [|done]. intros k v Hkv. apply Hvals; auto.
Qed.

(** ** Facts: a publish that succeeded, a load that read *)

(** Every project whose entries are there is in the set the loader starts from. *)
Definition indexed (r : Redis) : Prop := ∀ id (p : Proj), holds r id p → id ∈ r_projects r.

Lemma Publish_done w r (projects : gmap string Proj) r' n id p :
  Publish w r projects = (r', inr n) → projects !! id = Some p → indexed r →
  holds r' id p ∧ id ∈ r_projects r' ∧ (0 < n → r_gen r' = Some (default 0 (r_gen r) + 1)%Z).
Proof.
  unfold Publish. intros HP Hp Hi. rewrite (bool_decide_false (projects = ∅)) in HP by (intros ->; set_solver).
  destruct (pr_read w); simpl in HP; try done.
  destruct (differing (r_values r) (map_to_list projects)) as [[sets ids]|] eqn:Ed; [|done].
  destruct (mset_holds r projects sets ids id p Ed Hp) as [Hh Hor].
  destruct ids as [|i ids].
  - injection HP as <- <-. destruct Hor as [?|Hr]; [set_solver|]. split_and!; [done|by apply (Hi id p)|lia].
  - destruct (pr_set w), (pr_index w), (pr_gen w); simpl in HP; try done. injection HP as <- <-. split_and!.
    + destruct Hh as (es & ? & ?). exists es. by split.
    + unfold r_projects at 1. simpl r_projects. apply elem_of_union.
      destruct Hor as [Hin|Hr]; [left; by apply elem_of_list_to_set|right; by apply (Hi id p)].
    + done.
Qed.

Lemma fold_projects values ids id (st : gmap string Proj * gmap string string) :
  (foldl (add_project values) st ids).1 !! id =
  if bool_decide (id ∈ ids) then match read_project values id with Some p => Some p | None => st.1 !! id end else st.1 !! id.
Proof.
  revert st. induction ids as [|i ids IH]; intros st; simpl; [done|]. rewrite IH.
  unfold add_project. destruct (decide (i = id)) as [->|Hne].
  - rewrite (bool_decide_true (id ∈ id :: ids)) by left.
    destruct (read_project values id) as [p|] eqn:E; case_bool_decide; simpl; try done. by rewrite lookup_insert_eq.
  - assert (Hd : bool_decide (id ∈ i :: ids) = bool_decide (id ∈ ids)) by (apply bool_decide_ext; set_solver).
    rewrite Hd. destruct (read_project values i); simpl; [by rewrite lookup_insert_ne|done].
Qed.

(** Redis as a read saw it, with this project as it was published. *)
Definition unchanged (r : Redis) (id : string) (s : Redis) : Prop :=
  r_values s !! ShapesKey id = r_values r !! ShapesKey id ∧ r_values s !! ModeKey id = r_values r !! ModeKey id ∧
  (id ∈ r_projects r → id ∈ r_projects s) ∧ (default 0 (r_gen r) ≤ default 0 (r_gen s))%Z.
Definition reads_after (r : Redis) (id : string) (rd : Reads) : Prop :=
  ∀ s, Some s ∈ [rd_gen rd; rd_members rd; rd_config rd] → unchanged r id s.

Lemma load_project now gen rd r id (p : Proj) cfg :
  holds r id p → id ∈ r_projects r → Lands (ps_Default (pj_Shapes p)) ≠ "" → reads_after r id rd →
  load now gen rd = Some cfg → Gen cfg = gen ∧ Projects cfg !! id = Some (reread_project p).
Proof.
  intros Hh Hid Hl Hrd. unfold load.
  destruct (rd_members rd) as [m|] eqn:Em; [|done]. destruct (rd_keyring rd); [|done].
  destruct (rd_debug rd); [|done]. destruct (rd_welcome rd); [|done]. simpl.
  destruct (Hrd m ltac:(rewrite Em; set_solver)) as (_ & _ & Hm & _).
  specialize (Hm Hid). apply elem_of_elements in Hm.
  destruct (base.elements (r_projects m)) as [|i ids] eqn:Ee; [by apply not_elem_of_nil in Hm|].
  destruct (rd_config rd) as [c|] eqn:Ec; [|done]. simpl.
  destruct (Hrd c ltac:(rewrite Ec; set_solver)) as (Hs & Hmo & _ & _).
  assert (Hc : holds c id p).
  { destruct Hh as (es & He & Hes). exists es. split; [done|]. intros k v Hkv. rewrite <- (Hes k v Hkv).
    by destruct (entries_keys_of _ _ _ _ _ He Hkv) as [->| ->]. }
  destruct (foldl _ _ _) as [projects clients] eqn:Ef. intros [= <-]. simpl. split; [done|].
  assert (Hp : projects = (foldl (add_project (r_values c)) (∅, ∅) (i :: ids)).1) by (simpl in *; by rewrite Ef).
  rewrite Hp, fold_projects, bool_decide_true by done. by rewrite (holds_read c id p Hc Hl).
Qed.

(** What is published is what calls are answered from: when a publish
    succeeded, the next poll that succeeds leaves a snapshot that has the project
    with the shapes and mode published, if it was published because it differed
    (the snapshot then is of an older generation) or the snapshot is a minute
    old. The poll's reads may fall anywhere after the publish. *)
Lemma published_reaches_the_plane w r (projects : gmap string Proj) r' n id p now rd pl pl' :
  Publish w r projects = (r', inr n) → projects !! id = Some p → Lands (ps_Default (pj_Shapes p)) ≠ "" →
  indexed r → reads_after r' id rd →
  (∀ cfg, pl_cfg pl = Some cfg →
    (0 < n ∧ (Gen cfg ≤ default 0 (r_gen r))%Z) ∨ (ReloadAtLeast ≤ now - BuiltAt cfg)%Z) →
  Poll now rd pl = (pl', true) →
  ∃ cfg, pl_cfg pl' = Some cfg ∧ Projects cfg !! id = Some (reread_project p).
Proof.
  intros HP Hp Hl Hi Hrd Hold. destruct (Publish_done w r projects r' n id p HP Hp Hi) as (Hh & Hid & Hgen).
  unfold Poll. destruct (rd_gen rd) as [g|] eqn:Eg; [|done].
  destruct (Hrd g ltac:(rewrite Eg; set_solver)) as (_ & _ & _ & Hg).
  match goal with |- context [if ?b then _ else _] => assert (Hb : b = false) end.
  { destruct (pl_cfg pl) as [cfg|]; [|done]. apply andb_false_iff. rewrite bool_decide_eq_false, Z.ltb_ge.
    destruct (Hold cfg eq_refl) as [[Hn Hle]|?]; [left|by right]. rewrite Hgen in Hg by done. simpl in Hg. lia. }
  rewrite Hb. destruct (load now _ rd) as [cfg|] eqn:El; [|done]. intros [= <-]. exists cfg. split; [done|].
  eapply load_project in El as [_ ?]; done.
Qed.
(** A publish that writes values also writes their projects' names, unless the
    index write is the one that fails. *)
Lemma Publish_indexed w r (projects : gmap string Proj) :
  pr_set w = Down ∨ (pr_set w = Answers ∧ pr_index w ≠ Down) → indexed r → indexed (Publish w r projects).1.
Proof.
  intros Hw Hi. unfold Publish. case_match; [done|]. destruct (pr_read w); simpl; try done.
  destruct (differing (r_values r) (map_to_list projects)) as [[sets ids]|] eqn:Ed; [|done].
  destruct ids as [|i ids]; [done|]. apply differing_entries in Ed as [Hsets _].
  assert (Hx : ∀ g, indexed {| r_gen := g; r_values := r_values (mset r sets); r_projects := r_projects (sadd r (i :: ids)) |}).
  { intros g id p (es & He & Hes). apply elem_of_union.
    destruct (decide (id ∈ i :: ids)) as [Hin|Hn]; [left; by apply elem_of_list_to_set|right].
    apply (Hi id p). exists es. split; [done|]. intros k v Hkv. rewrite <- (Hes k v Hkv). symmetry. apply mset_other.
    intros v' (j & q & e & _ & Hj & He' & Hkv')%Hsets.
    assert (j = id) as ->; [|done].
    destruct (entries_keys_of _ _ _ _ _ He Hkv) as [->| ->], (entries_keys_of _ _ _ _ _ He' Hkv') as [E|E];
      [by apply ShapesKey_inj in E|by apply ShapesKey_ModeKey in E|symmetry in E; by apply ShapesKey_ModeKey in E|by apply ModeKey_inj in E]. }
  destruct Hw as [Hs|[Hs Hn]]; rewrite Hs; simpl; [done|].
  destruct (pr_index w); [|by apply (Hx (r_gen r))|done]. destruct (pr_gen w); simpl; [apply Hx..|by apply (Hx (r_gen r))].
Qed.

Lemma indexed_empty : indexed {| r_gen := None; r_values := ∅; r_projects := ∅ |}.
Proof.
  intros id p (es & He & Hes). apply entries_cases in He as (s & m & _ & _ & ->).
  specialize (Hes (ShapesKey id) s ltac:(left)). cbn [r_values] in Hes. by rewrite lookup_empty in Hes.
Qed.
End facts.

(** ** From a save to a token *)
Lemma ProfileOf_reread compact ps client :
  as_Profile (For (reread compact ps) client).1 = stored compact (as_Profile (For ps client).1).
Proof. unfold For, reread. simpl. rewrite lookup_fmap. destruct (ByClient ps !! client); simpl; [by case_match|done]. Qed.

Lemma rows_stored f p row : row ∈ Claims p → stored_claim f row ∈ Claims (stored f p).
Proof. intros Hr. by apply list_elem_of_fmap_2. Qed.

(** ** Properties *)

(** What is published is what calls are answered from: when a publish
    succeeded, the next poll that succeeds leaves a snapshot that has the project
    with the shapes and mode published, if it was published because it differed
    (the snapshot then is of an older generation) or the snapshot is a minute
    old. The poll's reads may fall anywhere after the publish. *)
Theorem publish_reaches_the_plane {A} `{Laws : ConfigLaws A compact} w r (projects : gmap string (@Project A)) r' n id p
    now rd pl pl' :
  Publish w r projects = (r', inr n) → projects !! id = Some p → Lands (ps_Default (pj_Shapes p)) ≠ "" →
  indexed r → reads_after r' id rd →
  (∀ cfg, pl_cfg pl = Some cfg →
    (0 < n ∧ (Gen cfg ≤ default 0 (r_gen r))%Z) ∨ (ReloadAtLeast ≤ now - BuiltAt cfg)%Z) →
  Poll now rd pl = (pl', true) →
  ∃ cfg, pl_cfg pl' = Some cfg ∧ Projects cfg !! id = Some (reread_project (compact := compact) p).
Proof. apply published_reaches_the_plane. Qed.

(** C13. A save reaches the token. An app's shape is saved, its project's shapes are
    resolved and published, and a poll reads what was published. From then on,
    whatever Redis holds of the person and whatever the copy remembers, each
    token of the app that is delivered carries, at every roles row of the shape
    the operator saved, the operator's words for exactly the roles Zitadel
    listed; and one that is not delivered is the project's failure mode, or
    empty. *)
Theorem save_reaches_the_token {A} `{Laws : ConfigLaws A compact} (marshal : A → option string) jsonb decode
    dir a a' d0 snap d appID actor req from d' s ps m w r (projects : gmap string (@Project A)) r' n now rd pl pl'
    st mt c user function roles id :
  (∀ v, literal v → literal (jsonb v)) → (∀ v, literal v → literal (compact v)) →
  shapes_wf snap → shapes_wf d → versions snap `prefix_of` versions d →
  SaveAppClaimShape marshal jsonb dir a d0 snap d appID actor req from = (d', inr s) →
  let project := v_ProjectID (sr_Version s) in
  let client := v_ClientID (sr_Version s) in
  client ≠ "" → (∀ v, v ∈ versions d → v_ClientID v = client → v_ApplicationID v = appID) →
  profile_read a' = true → shapes_read a' = true →
  ResolveProjectShapes marshal a' d' project = inr ps → Lands (ps_Default ps) ≠ "" →
  projects !! project = Some {| pj_Shapes := ps; pj_Mode := m |} →
  Publish w r projects = (r', inr n) → indexed r → reads_after r' project rd →
  (∀ cfg, pl_cfg pl = Some cfg →
    (0 < n ∧ (Gen cfg ≤ default 0 (r_gen r))%Z) ∨ (ReloadAtLeast ≤ now - BuiltAt cfg)%Z) →
  Poll now rd pl = (pl', true) →
  let p := Normalize (q_Profile req) in
  let res := (Answer decode (pl_cfg pl') st mt c user project client function roles id).2 in
  if bool_decide (res_Outcome res ∈ [Served; ServedLKG; ServedRolesOnly; UnknownFunction]) then
    ∀ row, row ∈ Claims p → Kind row = KindRoles →
      says (res_Claims res) (Path row) (FormatRoles (Words p roles) (Format row))
  else res_Claims res = [] ∨ res_Claims res = mode_Claims m.
Proof.
  intros Hjl Hcl Hs Hd Hpre Hsave project client Hne Hclient Hpr Hsr Hps Hl Hproj HP Hi Hrd Hage Hpoll p.
  destruct (published_reaches_the_plane w r projects r' n project _ now rd pl pl' HP Hproj Hl Hi Hrd Hage Hpoll)
    as (cfg & -> & Hcfg).
  destruct (save_is_served marshal jsonb Hjl dir a a' d0 snap d appID actor req from d' s Hs Hd Hpre Hsave Hpr Hsr Hne Hclient)
    as (ps' & Hps' & Hfor & Hprof).
  fold project in Hps'. rewrite Hps in Hps'. injection Hps' as <-. fold client in Hfor.
  pose proof (save_lands marshal jsonb dir a d0 snap d appID actor req from d' s Hs Hd Hpre Hsave) as (_ & _ & _ & Hv & _).
  pose proof (answer_roles decode cfg st mt c user project client function roles id _ Hcfg) as Ha. cbv zeta in Ha |- *.
  cbn [pj_Shapes pj_Mode reread_project] in Ha. rewrite ProfileOf_reread, Hfor in Ha. cbn [fst app_shape as_Profile] in Ha.
  rewrite Hprof in Ha. fold p in Ha, Hv.
  specialize (Ha ltac:(apply stored_ok; [done|]; apply stored_ok; [done|]; split; [apply normalize_idem|done])).
  case_bool_decide; [|done]. intros row Hrow Hk.
  apply (Ha (stored_claim compact (stored_claim jsonb row))); [|done]. by do 2 apply rows_stored.
Qed.

(** Publishing again what is there changes nothing, so a pass over everything
    leaves the snapshot alone. *)
Theorem publish_again_is_quiet {A} `{Laws : ConfigLaws A compact} w w' r (projects : gmap string (@Project A)) r' n :
  Publish w r projects = (r', inr n) → answered (pr_read w') = true → Publish w' r' projects = (r', inr 0).
Proof.
  intros HP Hw'. unfold Publish. destruct (decide (projects = ∅)) as [->|Hne]; [done|].
  rewrite (bool_decide_false (projects = ∅)), Hw' by done. simpl.
  assert (Hall : ∀ id p, projects !! id = Some p → holds r' id p).
  { intros id p Hp. unfold Publish in HP. rewrite (bool_decide_false (projects = ∅)) in HP by done.
    destruct (pr_read w); simpl in HP; try done.
    destruct (differing (r_values r) (map_to_list projects)) as [[sets ids]|] eqn:Ed; [|done].
    destruct (mset_holds r projects sets ids id p Ed Hp) as [Hh Hor]. destruct ids as [|i ids].
    - injection HP as <- _. destruct Hor as [?|?]; [set_solver|done].
    - destruct (pr_set w), (pr_index w), (pr_gen w); simpl in HP; try done. injection HP as <- _.
      destruct Hh as (es & ? & ?). exists es. by split. }
  assert (Hd : ∀ l, (∀ id p, (id, p) ∈ l → holds r' id p) → differing (r_values r') l = Some ([], [])).
  { induction l as [|[id p] l IH]; intros Hl; simpl; [done|].
    destruct (Hl id p ltac:(left)) as (es & He & Hes). rewrite He. simpl.
    rewrite IH by (intros; apply Hl; by right). simpl.
    assert (Hf : forallb (λ '(k, v), default "" (r_values r' !! k) =? v) es = true).
    { apply forallb_forall. intros [k v] Hkv%list_elem_of_In. apply bool_decide_eq_true. by rewrite (Hes k v Hkv). }
    by rewrite Hf. }
  rewrite Hd; [done|]. intros id p Hin. apply Hall. by apply elem_of_map_to_list.
Qed.

(** ** On a concrete project *)
#[local] Instance Profile_eq_dec : EqDecision Profile.
Proof. solve_decision. Defined.
#[local] Instance AppShape_eq_dec : EqDecision AppShape.
Proof. solve_decision. Defined.
#[local] Instance ProjectShapes_eq_dec : EqDecision ProjectShapes.
Proof. solve_decision. Defined.
#[local] Instance Mode_eq_dec : EqDecision (@Mode string).
Proof. solve_decision. Defined.

(** Two projects' shapes can be written: the built-in one, and the project of
    the app whose shape was saved. *)
Definition demo_builtin : ProjectShapes := {| ps_Default := Builtin; DefaultSource := "builtin"; ByClient := ∅ |}.
Definition demo_ps : ProjectShapes :=
  match ResolveProjectShapes demo_marshal demo_answers demo_db2 "pNet" with inr ps => ps | inl _ => demo_builtin end.
#[local] Instance demo_codec : ConfigCodec string := {|
  enc_shapes ps := if decide (ps = demo_ps) then Some "net" else if decide (ps = demo_builtin) then Some "builtin" else None;
  enc_mode m := if decide (m = no_mode) then Some "{}" else None;
  enc_keyring _ := None;
  enc_welcome _ := None;
  dec_shapes s := if s =? "net" then Some demo_ps else if s =? "builtin" then Some demo_builtin else None;
  dec_mode s := if s =? "{}" then Some no_mode else None;
  dec_keyring _ := None;
  dec_welcome _ := None;
|}.
#[local] Instance demo_laws : ConfigLaws string (λ v, v).
Proof.
  split.
  - intros ps s. unfold enc_shapes, demo_codec.
    destruct (decide (ps = demo_ps)) as [->|_]; [intros [= <-]; split; [discriminate|vm_compute; reflexivity]|].
    destruct (decide (ps = demo_builtin)) as [->|_]; [intros [= <-]; split; [discriminate|vm_compute; reflexivity]|done].
  - intros m s. unfold enc_mode, demo_codec.
    destruct (decide (m = no_mode)) as [->|_]; [intros [= <-]; by split|done].
Qed.

Definition demo_redis : Redis := {| r_gen := None; r_values := ∅; r_projects := ∅ |}.
Definition all_answer : PublishReach := {| pr_read := Answers; pr_set := Answers; pr_index := Answers; pr_gen := Answers |}.
Definition demo_published : gmap string (@Project string) := {[ "pNet" := {| pj_Shapes := demo_ps; pj_Mode := no_mode |} ]}.
Definition demo_redis1 : Redis := (Publish all_answer demo_redis demo_published).1.
Definition all_reads (r : Redis) : Reads :=
  {| rd_gen := Some r; rd_members := Some r; rd_keyring := Some r; rd_debug := Some r; rd_welcome := Some r; rd_config := Some r |}.
Definition demo_plane : @Plane string := (Poll 5 (all_reads demo_redis1) new_plane).1.

(** The index write is lost once. Every later publish finds the values in
    place, writes nothing, and reports success; no poll ever has the project,
    so its tokens are answered as of a project nobody knows. *)
Example lost_index :
  let w := {| pr_read := Answers; pr_set := Answers; pr_index := Down; pr_gen := Answers |} in
  let r1 := (Publish w demo_redis demo_published).1 in
  (Publish w demo_redis demo_published).2 = inl ErrRedisIndex ∧
  Publish all_answer r1 demo_published = (r1, inr 0) ∧
  res_Outcome (Answer demo_decode (pl_cfg (Poll minute (all_reads r1) new_plane).1) demo_store (demo_meets true 0) (newLRU 2)
    "u1" "pNet" "cNB" FunctionPreUserinfo ["admin"] nobody).2 = DegradedShapeUnreadable.
Proof. split_and!; vm_compute; reflexivity. Qed.

(** A reader of what was just published. *)
Lemma reads_itself r id : reads_after r id (all_reads r).
Proof.
  intros s Hs. assert (s = r) as -> by (simpl in Hs; set_solver). split_and!; [done..|lia].
Qed.

Lemma publish_reaches_the_plane_witness :
  ∃ cfg, pl_cfg demo_plane = Some cfg ∧ is_Some (Projects cfg !! "pNet").
Proof.
  destruct (publish_reaches_the_plane (compact := λ v, v) all_answer demo_redis demo_published demo_redis1 1 "pNet"
    {| pj_Shapes := demo_ps; pj_Mode := no_mode |} 5 (all_reads demo_redis1) new_plane demo_plane) as (cfg & H & Hp).
  - vm_compute. reflexivity.
  - vm_compute. reflexivity.
  - vm_compute. discriminate.
  - apply indexed_empty.
  - apply reads_itself.
  - intros cfg H. discriminate H.
  - vm_compute. reflexivity.
  - exists cfg. split; [exact H|]. rewrite Hp. by eexists.
Defined.

Lemma publish_again_is_quiet_witness : Publish all_answer demo_redis1 demo_published = (demo_redis1, inr 0).
Proof.
  apply (publish_again_is_quiet (compact := λ v, v) all_answer all_answer demo_redis demo_published demo_redis1 1);
    [vm_compute; reflexivity|reflexivity].
Defined.

(** The app's first save, its token while Redis has nothing of the person. *)
Definition demo_token (st : Store) (mt : Meets) : Result :=
  (Answer demo_decode (pl_cfg demo_plane) st mt (newLRU 2) "u1" "pNet" "cNB" FunctionPreUserinfo ["staff"] nobody).2.
Lemma save_reaches_the_token_witness :
  res_Outcome (demo_token demo_store (demo_meets true 0)) = Served ∧
  ∀ row, row ∈ Claims (Normalize (q_Profile demo_same)) → Kind row = KindRoles →
    says (res_Claims (demo_token demo_store (demo_meets true 0))) (Path row)
      (FormatRoles (Words (Normalize (q_Profile demo_same)) ["staff"]) (Format row)).
Proof.
  destruct demo_wf as (_ & H1 & _).
  destruct (demo_save demo_db1 demo_db1 demo_db1 demo_same) as [d' [err|s]] eqn:E;
    [vm_compute in E; discriminate E|].
  assert (Hd : d' = demo_db2) by (unfold demo_db2; rewrite E; reflexivity).
  assert (Hr : v_ProjectID (sr_Version s) = "pNet" ∧ v_ClientID (sr_Version s) = "cNB")
    by (vm_compute in E; injection E as <- <-; split; reflexivity).
  destruct Hr as [Hproj Hcl].
  pose proof (save_reaches_the_token (compact := λ v, v) demo_marshal demo_jsonb demo_decode demo_dir demo_answers demo_answers
    demo_db1 demo_db1 demo_db1 "aNB" "op" demo_same 0 d' s demo_ps no_mode all_answer demo_redis demo_published demo_redis1 1
    5 (all_reads demo_redis1) new_plane demo_plane demo_store (demo_meets true 0) (newLRU 2) "u1" FunctionPreUserinfo ["staff"]
    nobody demo_literal demo_literal H1 H1 (itself _) E) as H.
  cbv zeta in H. rewrite Hproj, Hcl, Hd in H.
  assert (Ho : res_Outcome (demo_token demo_store (demo_meets true 0)) = Served) by (vm_compute; reflexivity).
  split; [exact Ho|]. fold (demo_token demo_store (demo_meets true 0)) in H. rewrite Ho in H.
  rewrite bool_decide_true in H by left. apply H.
  - discriminate.
  - intros v Hv _. apply list_elem_of_singleton in Hv as ->. reflexivity.
  - reflexivity.
  - reflexivity.
  - vm_compute. reflexivity.
  - vm_compute. discriminate.
  - reflexivity.
  - vm_compute. reflexivity.
  - apply indexed_empty.
  - apply reads_itself.
  - intros cfg Hc. discriminate Hc.
  - vm_compute. reflexivity.
Defined.
