(* ===== verification/ClaimDoor.v ===== *)
(** * ClaimDoor: a call from Zitadel, from its bytes to its answer
      (backend/internal/claimserve: signature.go, decode.go, door.go)

    The route checks the call's signature, reads its payload, answers it from
    the snapshot and reports it to telemetry, once. The keyed hash, the reading
    of one JSON value and of a time are parameters; a JSON value is a tree
    whose objects keep their keys in document order, so that what encoding/json
    does with them (last duplicate wins, struct fields match whatever the case)
    is written out. What the limiter and the second look at the keys answer is
    an argument. A panic, the debug capture and the payload kept for
    telemetry are left out. *)

From S2P Require Import Prelude Text Claims ClaimShape ClaimServe.

(** ** Signatures (signature.go) *)
Definition SignatureTolerance : Z := (300 * second)%Z.
Definition MinKeyLen : nat := 32.

Inductive SigError := ErrSignatureMissing | ErrSignatureStale | ErrSignatureMismatch.
Definition SignatureOutcome (e : SigError) : Outcome :=
  match e with ErrSignatureMissing => SigMissing | ErrSignatureStale => SigStale | ErrSignatureMismatch => SigMismatch end.

Definition KeyProblem (key : string) : bool :=
  (String.length key <? MinKeyLen)%nat || existsb (λ a, negb (between 33 126 a)) (list_ascii_of_string key).

(** What the header's pairs said so far: the last timestamp, the signatures. *)
Record SigHeader := { sh_ts : option Z; sh_sigs : list string }.
Definition read_pair (h : SigHeader) (pair : string) : SigError + SigHeader :=
  match Cut pair "=" with
  | None => inl ErrSignatureMismatch
  | Some (key, value) =>
      let key := TrimSpace key in
      if key =? "t" then
        match ParseInt (TrimSpace value) with
        | None => inl ErrSignatureMismatch
        | Some n => inr {| sh_ts := Some n; sh_sigs := sh_sigs h |}
        end
      else if key =? "v1" then
        match DecodeString (TrimSpace value) with
        | None => inr h
        | Some sig => inr {| sh_ts := sh_ts h; sh_sigs := sh_sigs h ++ [sig] |}
        end
      else inr h
  end.
Fixpoint read_pairs (h : SigHeader) (pairs : list string) : SigError + SigHeader :=
  match pairs with
  | [] => inr h
  | p :: pairs => match read_pair h p with inl e => inl e | inr h => read_pairs h pairs end
  end.

Section signature.
(** HMAC-SHA256 of a message under a secret. *)
Context (hmac : string → string → string).

(** Here a timestamp is whole seconds. *)
Definition ComputeSignature (ts : Z) (body secret : string) : string := hmac secret (pretty ts +:+ "." +:+ body).

Definition VerifySignature (body header : string) (keys : list SlotKey) (tolerance now : Z) : SigError + string :=
  if header =? "" then inl ErrSignatureMissing
  else match read_pairs {| sh_ts := None; sh_sigs := [] |} (Split header ",") with
       | inl e => inl e
       | inr h =>
           match sh_ts h with
           | None => inl ErrSignatureMismatch
           | Some ts =>
               if bool_decide (sh_sigs h = []) then inl ErrSignatureMismatch
               else if (tolerance <? now - ts * second)%Z || (tolerance <? ts * second - now)%Z then inl ErrSignatureStale
               else match find (λ k, existsb (λ sig, ComputeSignature ts body (sk_Key k) =? sig) (sh_sigs h)) keys with
                    | Some k => inr (Slot k)
                    | None => inl ErrSignatureMismatch
                    end
           end
       end.

Definition SignatureHeaderValue (ts : Z) (body secret : string) : string :=
  "t=" +:+ pretty ts +:+ ",v1=" +:+ EncodeToString (ComputeSignature ts body secret).

(** *** Facts *)

(** The header has a pair that reads as this timestamp. *)
Definition dated (pairs : list string) (ts : Z) : Prop :=
  ∃ p key value, p ∈ pairs ∧ Cut p "=" = Some (key, value) ∧ TrimSpace key = "t" ∧ ParseInt (TrimSpace value) = Some ts.
(** The header has a pair that reads as this signature. *)
Definition signed (pairs : list string) (sig : string) : Prop :=
  ∃ p key value, p ∈ pairs ∧ Cut p "=" = Some (key, value) ∧ TrimSpace key = "v1" ∧ DecodeString (TrimSpace value) = Some sig.

(** What a verified call shows of its sender: its header carries the keyed hash
    of the timestamp it names and of the body, under a key the door holds, and
    the timestamp is within tolerance. *)
Definition authentic (body header : string) (keys : list SlotKey) (tolerance now : Z) (slot : string) : Prop :=
  ∃ ts k, k ∈ keys ∧ Slot k = slot ∧ dated (Split header ",") ts ∧
    signed (Split header ",") (hmac (sk_Key k) (pretty ts +:+ "." +:+ body)) ∧
    (- tolerance ≤ now - ts * second ≤ tolerance)%Z.

Lemma read_pairs_from pairs h h' :
  read_pairs h pairs = inr h' →
  (∀ ts, sh_ts h' = Some ts → sh_ts h = Some ts ∨ dated pairs ts) ∧
  (∀ sig, sig ∈ sh_sigs h' → sig ∈ sh_sigs h ∨ signed pairs sig).
Proof.
  revert h. induction pairs as [|p pairs IH]; intros h; cbn [read_pairs]; [intros [= <-]; auto|].
  destruct (read_pair h p) as [e|h1] eqn:E; [done|]. intros [Ht Hs]%IH.
  assert (Hd : ∀ ts, dated pairs ts → dated (p :: pairs) ts)
    by (intros ts (q & k & v & ? & ?); exists q, k, v; split; [by right|done]).
  assert (Hg : ∀ sig, signed pairs sig → signed (p :: pairs) sig)
    by (intros sig (q & k & v & ? & ?); exists q, k, v; split; [by right|done]).
  assert (H1 : (∀ ts, sh_ts h1 = Some ts → sh_ts h = Some ts ∨ dated (p :: pairs) ts) ∧
               (∀ sig, sig ∈ sh_sigs h1 → sig ∈ sh_sigs h ∨ signed (p :: pairs) sig)).
  { unfold read_pair in E. destruct (Cut p "=") as [[key value]|] eqn:Ec; [|done].
    case_bool_decide as Hk; [|case_bool_decide as Hk'; [|injection E as <-; auto]].
    - destruct (ParseInt _) as [n|] eqn:Ep; [|done]. injection E as <-. split; [|auto]. intros ts [= <-]. right.
      exists p, key, value. split_and!; [left|done..].
    - destruct (DecodeString _) as [x|] eqn:Ep; [|injection E as <-; auto]. injection E as <-. split; [auto|]. intros sig.
      cbn [sh_sigs]. rewrite elem_of_app, list_elem_of_singleton. intros [?| ->]; [auto|]. right.
      exists p, key, value. split_and!; [left|done..]. }
  destruct H1 as [Ht1 Hs1]. split; [intros ts [H|H]%Ht|intros sig [H|H]%Hs]; auto.
Qed.
Lemma Verify_authentic body header keys tolerance now slot :
  VerifySignature body header keys tolerance now = inr slot → authentic body header keys tolerance now slot.
Proof.
  unfold VerifySignature. case_match; [done|]. destruct (read_pairs _ _) as [|h] eqn:Er; [done|].
  apply read_pairs_from in Er as [Hts Hsig].
  destruct (sh_ts h) as [ts|]; [|done]. case_match; [done|].
  destruct (_ || _) eqn:Et; [done|]. apply orb_false_iff in Et as [H1%Z.ltb_ge H2%Z.ltb_ge].
  destruct (find _ keys) as [k|] eqn:Ef; [|done]. intros [= <-].
  apply find_some in Ef as [Hk (sig & Hs & E)%existsb_elem]. apply bool_decide_eq_true in E.
  destruct (Hts ts eq_refl) as [?|Hd]; [done|]. destruct (Hsig sig Hs) as [Hn|Hg]; [by apply not_elem_of_nil in Hn|].
  exists ts, k. split_and!; [by apply list_elem_of_In|done|done| |lia|lia]. unfold ComputeSignature in E. by rewrite E.
Qed.

(** The header Zitadel would send reads back. *)
Lemma Split_header ts body secret :
  Split (SignatureHeaderValue ts body secret) "," =
    ["t=" +:+ pretty ts; "v1=" +:+ EncodeToString (ComputeSignature ts body secret)].
Proof.
  destruct (pretty_visible ts) as (_ & Hc & _).
  set (x := EncodeToString (ComputeSignature ts body secret)).
  assert (Hx : ","%char ∉ list_ascii_of_string x).
  { unfold x, EncodeToString. rewrite list_ascii_of_string_of_list_ascii. apply hex_visible. }
  unfold SignatureHeaderValue, Split. fold x. rewrite !list_ascii_app.
  change (list_ascii_of_string ",v1=") with (","%char :: list_ascii_of_string "v1="). rewrite app_assoc.
  rewrite <- app_comm_cons, split_on_app, split_on_one.
  - cbn [fmap list_fmap]. f_equal; [|f_equal]; rewrite <- list_ascii_app; apply string_of_list_ascii_of_string.
  - intros [Hin|Hin]%elem_of_app; [|done]. revert Hin. vm_compute. set_solver.
  - intros [Hin|Hin]%elem_of_app; [|done]. revert Hin. vm_compute. set_solver.
Qed.

Lemma Cut_pair (key value : string) :
  "="%char ∉ list_ascii_of_string key → Cut (key +:+ "=" +:+ value) "=" = Some (key, value).
Proof.
  intros Hk. unfold Cut. rewrite !list_ascii_app. change (list_ascii_of_string "=") with ["="%char]. simpl.
  rewrite cut_byte_app by done. simpl. by rewrite !string_of_list_ascii_of_string.
Qed.

Lemma read_header ts body secret :
  (- 2 ^ 63 ≤ ts < 2 ^ 63)%Z →
  read_pairs {| sh_ts := None; sh_sigs := [] |} (Split (SignatureHeaderValue ts body secret) ",") =
    inr {| sh_ts := Some ts; sh_sigs := [ComputeSignature ts body secret] |}.
Proof.
  intros Hts. rewrite Split_header. cbn [read_pairs]. unfold read_pair.
  change ("t=" +:+ pretty ts) with ("t" +:+ "=" +:+ pretty ts). rewrite Cut_pair by (vm_compute; set_solver).
  rewrite (bool_decide_true (TrimSpace "t" = "t")) by (vm_compute; reflexivity).
  destruct (pretty_visible ts) as (Hv & _). rewrite (TrimSpace_visible (pretty ts)), ParseInt_pretty by done. cbn [sh_sigs].
  set (x := EncodeToString _). change ("v1=" +:+ x) with ("v1" +:+ "=" +:+ x). rewrite Cut_pair by (vm_compute; set_solver).
  rewrite (bool_decide_false (TrimSpace "v1" = "t")) by (vm_compute; discriminate).
  rewrite (bool_decide_true (TrimSpace "v1" = "v1")) by (vm_compute; reflexivity).
  rewrite TrimSpace_visible.
  - unfold x. by rewrite DecodeString_EncodeToString.
  - unfold x, EncodeToString. rewrite list_ascii_of_string_of_list_ascii. apply hex_visible.
Qed.

Lemma header_verifies body keys ts now k :
  (- 2 ^ 63 ≤ ts < 2 ^ 63)%Z → (- SignatureTolerance ≤ now - ts * second ≤ SignatureTolerance)%Z → k ∈ keys →
  ∃ k', k' ∈ keys ∧ VerifySignature body (SignatureHeaderValue ts body (sk_Key k)) keys SignatureTolerance now = inr (Slot k').
Proof.
  intros Hts Hnow Hk. unfold VerifySignature. rewrite bool_decide_false by done. rewrite read_header by done. cbn [sh_ts sh_sigs].
  rewrite bool_decide_false by done.
  assert (Ht : ((SignatureTolerance <? now - ts * second) || (SignatureTolerance <? ts * second - now))%Z = false)
    by (apply orb_false_iff; rewrite !Z.ltb_ge; lia).
  rewrite Ht. destruct (find _ keys) as [k'|] eqn:Ef.
  - exists k'. apply find_some in Ef as [? _]. split; [by apply list_elem_of_In|done].
  - exfalso. apply list_elem_of_In in Hk. apply (find_none _ _ Ef) in Hk. simpl in Hk. by rewrite bool_decide_true in Hk.
Qed.
End signature.

(** ** Payloads (decode.go) *)
Inductive J := JNull | JBool (b : bool) | JNum (text : string) | JStr (s : string) | JArr (l : list J) | JObj (o : list (string * J)).

(** A key of an object read into a map: the last of that name. *)
Definition to_map (o : list (string * J)) : gmap string J := foldl (λ m kv, <[kv.1 := kv.2]> m) ∅ o.

(** The name of a struct's field and a key match when they fold alike: letters
    in either case, and the two other runes that fold onto ASCII letters. *)
Fixpoint fold_name (l : list ascii) : list ascii :=
  match l with
  | [] => []
  | a :: l =>
      match N_of_ascii a, l with
      | 197%N, b :: l' => if N_of_ascii b =? 191%N then "s"%char :: fold_name l' else a :: fold_name l
      | 226%N, b :: ((c :: l'') as l') =>
          if (N_of_ascii b =? 132%N) && (N_of_ascii c =? 170%N) then "k"%char :: fold_name l'' else a :: fold_name l
      | _, _ => lower_byte a :: fold_name l
      end
  end.
Definition names (field key : string) : bool :=
  fold_name (list_ascii_of_string key) =? fold_name (list_ascii_of_string field).

(** A string field takes the last string under its name, other values leave it;
    a raw field takes the last value. *)
Definition string_of (j : option J) : string := match j with Some (JStr s) => s | _ => "" end.
Definition string_field (name : string) (o : list (string * J)) : string :=
  foldl (λ old '(k, v), if names name k then match v with JStr s => s | _ => old end else old) "" o.
Definition raw_field (name : string) (o : list (string * J)) : option J :=
  foldl (λ old '(k, v), if names name k then Some v else old) None o.
Definition fields_of (j : option J) : list (string * J) := match j with Some (JObj o) => o | _ => [] end.
Definition isObject (j : option J) : bool := match j with Some (JObj _) => true | _ => false end.

Record GrantRef := { g_ProjectID : string; g_Roles : list string }.
Record ClaimRequest := { rq_Function : string; rq_User : UserRef; UserGrants : list GrantRef; rq_ClientID : string }.

Definition KnownTopLevel : list string :=
  ["function"; "userinfo"; "user"; "user_metadata"; "org"; "user_grants"; "application"; "actor"; "response"].

(** A value read into a list of strings, null being none and a null element blank. *)
Definition strings_of (j : J) : option (list string) :=
  match j with
  | JNull => Some []
  | JArr l => mapM (λ x, match x with JStr s => Some s | JNull => Some "" | _ => None end) l
  | _ => None
  end.

(** The loop over the two spellings: the project so far and whether one was
    there; [None] when one is not a string. *)
Definition read_project_key (raw : gmap string J) (st : option (string * bool)) (k : string) : option (string * bool) :=
  '(id, found) ← st;
  match raw !! k with
  | None => Some (id, found)
  | Some (JStr s) => Some (if id =? "" then s else id, true)
  | Some JNull => Some (id, true)
  | Some _ => None
  end.
Definition grantFromJSON (j : J) : option GrantRef :=
  match j with
  | JObj o =>
      let raw := to_map o in
      roles ← match raw !! "roles" with Some r => strings_of r | None => Some [] end;
      '(id, found) ← foldl (read_project_key raw) (Some ("", false)) ["project_id"; "projectId"];
      if (found : bool) then Some {| g_ProjectID := id; g_Roles := roles |} else None
  | _ => None
  end.

Definition isArrayOfObjects (j : J) : bool :=
  match j with
  | JArr ((_ :: _) as l) => forallb (λ x, match x with JObj _ | JNull => true | _ => false end) l
  | _ => false
  end.

(** The rows up to the first that does not read, and whether all did. *)
Fixpoint read_grants (rows : list J) : list GrantRef * bool :=
  match rows with
  | [] => ([], true)
  | row :: rows => match grantFromJSON row with
                   | None => ([], false)
                   | Some g => let '(gs, ok) := read_grants rows in (g :: gs, ok)
                   end
  end.

Section decode.
(** The body's one JSON value, none when it is not exactly one; the time a
    string spells, none when it spells none or the zero time. *)
Context (decode_one : string → option J) (parse_time : string → option Z).

Definition decode_user (j : option J) : UserRef :=
  let user := fields_of j in
  let human := raw_field "human" user in
  let machine := raw_field "machine" user in
  let is_human := isObject human && negb (isObject machine) in
  let h := fields_of human in
  let text name := if is_human then string_of (raw_field name h) else "" in
  {| u_ID := string_of (raw_field "id" user);
     u_CreatedAt := match raw_field "creation_date" user with Some (JStr s) => parse_time s | _ => None end;
     u_Human := is_human;
     u_Identity := {| Human := is_human; Machine := isObject machine && negb (isObject human);
                      i_GivenName := text "first_name"; i_FamilyName := text "last_name";
                      i_Username := string_of (raw_field "username" user); i_Email := text "email" |} |}.

Definition no_user : UserRef :=
  {| u_ID := ""; u_CreatedAt := None; u_Human := false;
     u_Identity := {| Human := false; Machine := false; i_GivenName := ""; i_FamilyName := ""; i_Username := ""; i_Email := "" |} |}.
Definition no_request : ClaimRequest := {| rq_Function := ""; rq_User := no_user; UserGrants := []; rq_ClientID := "" |}.

Definition Decode (body : string) : ClaimRequest * option Outcome :=
  match decode_one body with
  | Some (JObj o) =>
      let top := to_map o in
      let req grants :=
        {| rq_Function := string_of (top !! "function"); rq_User := decode_user (top !! "user"); UserGrants := grants;
           rq_ClientID := string_field "client_id" (fields_of (top !! "application")) |} in
      if TrimSpace (u_ID (rq_User (req []))) =? "" then (req [], Some ContractFault)
      else match top !! "user_grants" with
           | None =>
               if existsb (λ '(k, v), negb (bool_decide (k ∈ KnownTopLevel)) && isArrayOfObjects v) (map_to_list top)
               then (req [], Some ContractFault) else (req [], None)
           | Some JNull => (req [], None)
           | Some (JArr rows) =>
               let '(grants, ok) := read_grants rows in (req grants, if ok then None else Some ContractFault)
           | Some _ => (req [], Some ContractFault)
           end
  | _ => (no_request, Some BadRequest)
  end.

Definition Projects_ (r : ClaimRequest) : list string :=
  foldl (λ out g, let id := TrimSpace (g_ProjectID g) in
                  if (id <>? "") && negb (bool_decide (id ∈ out)) then out ++ [id] else out) [] (UserGrants r).
Definition Roles_ (r : ClaimRequest) (projectID : string) : list string :=
  RoleSet (UserGrants r ≫= λ g, if TrimSpace (g_ProjectID g) =? projectID then g_Roles g else []).

(** ** The route (door.go)

    [Heard] is what the door's hooks are told. *)
Definition None_ : string := "-".
Definition BodyCap : nat := N.to_nat 1048576.
Definition CanaryUserID : string := "syndra-canary".

Record TelCall := {
  tc_Outcome : Outcome;
  tc_ProjectID : string;
  tc_ClientID : string;
  tc_Function : string;
  tc_KeySlot : string;
  tc_UserID : string;
  tc_ClientKnown : bool;
  tc_Gen : Z;
  tc_Probe : bool;
}.
Definition new_call : TelCall :=
  {| tc_Outcome := BadRequest; tc_ProjectID := ""; tc_ClientID := ""; tc_Function := ""; tc_KeySlot := ""; tc_UserID := "";
     tc_ClientKnown := false; tc_Gen := 0; tc_Probe := false |}.
Definition Set_ (c : TelCall) (o : Outcome) : TelCall :=
  {| tc_Outcome := o; tc_ProjectID := tc_ProjectID c; tc_ClientID := tc_ClientID c; tc_Function := tc_Function c;
     tc_KeySlot := tc_KeySlot c; tc_UserID := tc_UserID c; tc_ClientKnown := tc_ClientKnown c; tc_Gen := tc_Gen c;
     tc_Probe := tc_Probe c |}.
Definition with_slot (c : TelCall) (slot : string) : TelCall :=
  {| tc_Outcome := tc_Outcome c; tc_ProjectID := tc_ProjectID c; tc_ClientID := tc_ClientID c; tc_Function := tc_Function c;
     tc_KeySlot := slot; tc_UserID := tc_UserID c; tc_ClientKnown := tc_ClientKnown c; tc_Gen := tc_Gen c;
     tc_Probe := tc_Probe c |}.
Definition of_request (c : TelCall) (r : ClaimRequest) : TelCall :=
  {| tc_Outcome := tc_Outcome c; tc_ProjectID := tc_ProjectID c; tc_ClientID := rq_ClientID r;
     tc_Function := if rq_Function r =? "" then None_ else rq_Function r; tc_KeySlot := tc_KeySlot c;
     tc_UserID := u_ID (rq_User r); tc_ClientKnown := tc_ClientKnown c; tc_Gen := tc_Gen c;
     tc_Probe := u_ID (rq_User r) =? CanaryUserID |}.

Inductive Heard := MissOf (userID : string) | Mismatch | FailureCounted | Recorded (c : TelCall).

(** The claims appended with a 200, or a refusal. *)
Inductive Reply (C : Type) := Append (claims : list C) | Refused (status : Z) (code : string).
#[global] Arguments Append {_} _.
#[global] Arguments Refused {_} _ _.

Record DoorAnswer {C : Type} := {
  da_Claims : list C; da_ProjectID : string; da_Outcome : Outcome; da_ClientKnown : bool; da_Gen : Z;
}.
Arguments DoorAnswer : clear implicits.

(** A request as the server hands it over: no body when it does not read. *)
Record HttpRequest := { Method : string; Header : string; Body : option string }.

Section door.
Context {A : Type} (decode : string → option Facts).
Abbreviation Cfg := (@Config A).
Abbreviation Claims_ := (@TokenClaim A).

(** What a call meets besides: the snapshot, Redis, the clocks. [keys] is what
    the door's Keys gives, [refresh] what a second look gives when there is one
    to take, [wait] how long the limiter has its sender wait when there is one. *)
Record Around := {
  ar_cfg : option Cfg;
  ar_store : Store;
  ar_meets : Meets;
  ar_now : Z;
  ar_keys : list SlotKey;
  ar_refresh : option (list SlotKey);
  ar_dev : bool;
  ar_wait : option Z;
}.

Definition Answer_ (ar : Around) (c : lru) (req : ClaimRequest) : lru * (DoorAnswer Claims_ * list Heard) :=
  let none outcome : DoorAnswer Claims_ :=
    {| da_Claims := []; da_ProjectID := ""; da_Outcome := outcome; da_ClientKnown := false; da_Gen := 0 |} in
  let from (r : Result) project : DoorAnswer Claims_ :=
    {| da_Claims := res_Claims r; da_ProjectID := project; da_Outcome := res_Outcome r; da_ClientKnown := ClientKnown r; da_Gen := res_Gen r |} in
  match Projects_ req with
  | [] =>
      match welcome (ar_cfg ar) (ar_store ar) (ar_meets ar) (ar_now ar) (rq_User req) (rq_ClientID req) (rq_Function req) with
      | Some (res, project) => (c, (from res project, []))
      | None => (c, (none NoGrants, []))
      end
  | [project] =>
      let '(c, res) := Answer decode (ar_cfg ar) (ar_store ar) (ar_meets ar) c (u_ID (rq_User req)) project (rq_ClientID req)
                         (rq_Function req) (Roles_ req project) (u_Identity (rq_User req)) in
      (c, (from res project, if Miss res then [MissOf (u_ID (rq_User req))] else []))
  | _ => (c, (none RefusedCrossProject, []))
  end.

(** A handler: the copy, the call's telemetry so far, to both after it, the
    reply, and what the hooks heard. *)
Definition Handler : Type := HttpRequest → TelCall → lru → lru * (Reply Claims_ * TelCall * list Heard).

Definition Inject (ar : Around) : Handler := λ r call c,
  if Method r <>? "POST" then (c, (Refused 405 "METHOD_NOT_ALLOWED", call, []))
  else match Body r with
       | None => (c, (Refused 400 "VALIDATION_FAILED", Set_ call BadRequest, []))
       | Some body =>
           let '(req, fault) := Decode (substring 0 BodyCap body) in
           if fault =? Some BadRequest then (c, (Refused 400 "VALIDATION_FAILED", Set_ call BadRequest, []))
           else
             let call := of_request call req in
             if fault =? Some ContractFault then
               (c, (if TrimSpace (u_ID (rq_User req)) =? "" then Refused 400 "VALIDATION_FAILED" else Append [],
                    Set_ call ContractFault, []))
             else
               let '(c, (ans, heard)) := Answer_ ar c req in
               (c, (Append (da_Claims ans),
                    {| tc_Outcome := da_Outcome ans; tc_ProjectID := da_ProjectID ans; tc_ClientID := tc_ClientID call;
                       tc_Function := tc_Function call; tc_KeySlot := tc_KeySlot call; tc_UserID := tc_UserID call;
                       tc_ClientKnown := da_ClientKnown ans; tc_Gen := da_Gen ans; tc_Probe := tc_Probe call |}, heard))
       end.

Context (hmac : string → string → string).

(** The check against the keys, and against a second look at them. *)
Definition verified (ar : Around) (header body : string) : SigError + string :=
  let verify keys := VerifySignature hmac body header keys SignatureTolerance (ar_now ar) in
  match verify (ar_keys ar), ar_refresh ar with
  | inl e, Some ((_ :: _) as again) => if SignatureOutcome e =? SigMismatch then verify again else inl e
  | first, _ => first
  end.

Definition SignatureCheck (ar : Around) (next : Handler) : Handler := λ r call c,
  match ar_keys ar with
  | [] =>
      if ar_dev ar then next r call c
      else (c, (Refused 503 "MISCONFIGURED", Set_ call SigMismatch, []))
  | _ =>
      match Body r with
      | None => (c, (Refused 400 "BAD_REQUEST", Set_ call BadRequest, []))
      | Some body =>
          match verified ar (Header r) body with
          | inl e =>
              let o := SignatureOutcome e in
              let told := if o =? SigMismatch then [Mismatch] else [] in
              match ar_wait ar with
              | Some wait =>
                  (c, (if (0 <? wait)%Z then Refused 429 "RATE_LIMITED" else Refused 401 "INVALID_SIGNATURE",
                       Set_ call o, told ++ [FailureCounted]))
              | None => (c, (Refused 401 "INVALID_SIGNATURE", Set_ call o, told))
              end
          | inr slot => next r (with_slot call slot) c
          end
      end
  end.

Definition Delivery (next : Handler) (r : HttpRequest) (c : lru) : lru * (Reply Claims_ * list Heard) :=
  let '(c, (reply, call, heard)) := next r new_call c in (c, (reply, heard ++ [Recorded call])).

(** The whole route. *)
Definition Handler_ (ar : Around) : HttpRequest → lru → lru * (Reply Claims_ * list Heard) :=
  Delivery (SignatureCheck ar (Inject ar)).
End door.
End decode.

(** ** Facts: the roles a payload lists *)
Lemma Compact_elem x l : x ∈ Compact l ↔ x ∈ l.
Proof.
  induction l as [|a l IH]; [done|]. simpl. destruct l as [|b l]; [done|].
  case_bool_decide; [subst; rewrite IH; set_solver|]. rewrite !elem_of_cons in *. naive_solver.
Qed.

(** A role the payload lists for a project. *)
Definition listed (req : ClaimRequest) (project role : string) : Prop :=
  ∃ g, g ∈ UserGrants req ∧ TrimSpace (g_ProjectID g) = project ∧ role ∈ g_Roles g.

Lemma Roles_listed req project role : role ∈ Roles_ req project ↔ listed req project role.
Proof.
  unfold Roles_, RoleSet. rewrite Compact_elem, sort_strings_elem, list_elem_of_bind. split.
  - intros (g & Hin & Hg). case_bool_decide; [by exists g|by apply not_elem_of_nil in Hin].
  - intros (g & Hg & <- & Hr). exists g. by rewrite bool_decide_true.
Qed.

(** ** Facts: the route *)
Section route.
Context (decode_one : string → option J) (parse_time : string → option Z) {A : Type} (decode : string → option Facts)
  (hmac : string → string → string).
Abbreviation route := (Handler_ (A := A) decode_one parse_time decode hmac).

(** The keys a call of this body and header was verified with. *)
Definition verified_by (ar : @Around A) (r : HttpRequest) (body : string) (keys : list SlotKey) (slot : string) : Prop :=
  (keys = ar_keys ar ∨ ar_refresh ar = Some keys) ∧
  VerifySignature hmac body (Header r) keys SignatureTolerance (ar_now ar) = inr slot.

Lemma verified_cases ar r body :
  (∃ keys slot, verified hmac ar (Header r) body = inr slot ∧ verified_by ar r body keys slot) ∨
  (∃ e e', verified hmac ar (Header r) body = inl e ∧
     VerifySignature hmac body (Header r) (ar_keys ar) SignatureTolerance (ar_now ar) = inl e').
Proof.
  unfold verified, verified_by. destruct (VerifySignature hmac body (Header r) (ar_keys ar) _ _) as [e|slot] eqn:Ev.
  - destruct (ar_refresh ar) as [[|k' ks']|]; [right; by do 2 eexists| |right; by do 2 eexists].
    case_bool_decide; [|right; by do 2 eexists].
    destruct (VerifySignature hmac body (Header r) (k' :: ks') _ _) as [e'|slot] eqn:Ev'; [right; by do 2 eexists|left].
    exists (k' :: ks'), slot. split; [done|]. split; [by right|done].
  - left. exists (ar_keys ar), slot. split; [done|]. split; [by left|done].
Qed.

(** What the check does with a call: lets it through unsigned, through
    verified, or refuses it, with what its hooks heard. *)
Lemma SignatureCheck_cases ar next (r : HttpRequest) call c :
  (ar_keys ar = [] ∧ ar_dev ar = true ∧ SignatureCheck hmac ar next r call c = next r call c) ∨
  (∃ body keys slot, Body r = Some body ∧ verified_by ar r body keys slot ∧
     SignatureCheck (A := A) hmac ar next r call c = next r (with_slot call slot) c) ∨
  (∃ status code o told, SignatureCheck hmac ar next r call c = (c, (Refused status code, Set_ call o, told)) ∧
     (∀ x, Recorded x ∉ told) ∧
     ((Mismatch ∈ told ∨ FailureCounted ∈ told) →
        ∃ body e, Body r = Some body ∧ VerifySignature hmac body (Header r) (ar_keys ar) SignatureTolerance (ar_now ar) = inl e)).
Proof.
  unfold SignatureCheck. destruct (ar_keys ar) as [|k ks] eqn:Ek.
  { destruct (ar_dev ar); [by left|]. right; right. do 4 eexists. split; [done|]. split; set_solver. }
  destruct (Body r) as [body|] eqn:Eb; [|right; right; do 4 eexists; split; [done|]; split; set_solver].
  right. rewrite <- Ek. clear Ek. pose proof (verified_cases ar r body) as Hv.
  destruct Hv as [(keys & slot & -> & Hb)|(e & e' & -> & Hf)].
  - left. by exists body, keys, slot.
  - right. exists (match ar_wait ar with Some w => if (0 <? w)%Z then 429%Z else 401%Z | None => 401%Z end).
    exists (match ar_wait ar with Some w => if (0 <? w)%Z then "RATE_LIMITED" else "INVALID_SIGNATURE" | None => "INVALID_SIGNATURE" end).
    exists (SignatureOutcome e).
    exists ((if SignatureOutcome e =? SigMismatch then [Mismatch] else []) ++ match ar_wait ar with Some _ => [FailureCounted] | None => [] end).
    split_and!.
    + destruct (ar_wait ar) as [w|]; [by destruct (0 <? w)%Z|by rewrite app_nil_r].
    + intros x. repeat case_match; set_solver.
    + intros _. by exists body, e'.
Qed.

(** What the handler behind the check does: nothing is appended but a posted,
    readable payload's answer. *)
Lemma Inject_cases ar (r : HttpRequest) call c :
  let '(c', (reply, _, told)) := Inject (A := A) decode_one parse_time decode ar r call c in
  (∀ h, h ∈ told → ∃ u, h = MissOf u) ∧
  ((∀ claims, reply = Append claims → claims = []) ∨
   Method r = "POST" ∧ ∃ body req, Body r = Some body ∧
     Decode decode_one parse_time (substring 0 BodyCap body) = (req, None) ∧
     reply = Append (da_Claims (Answer_ decode ar c req).2.1)).
Proof.
  unfold Inject. case_bool_decide as Hm; simpl; [|split; [set_solver|by left]].
  destruct (Body r) as [body|]; [|split; [set_solver|by left]].
  destruct (Decode _ _ _) as [req fault] eqn:Ed. case_bool_decide as Hb; [split; [set_solver|by left]|].
  case_bool_decide as Hc.
  { split; [set_solver|]. left. case_bool_decide; [done|]. by intros claims [= <-]. }
  assert (fault = None) as ->.
  { unfold Decode in Ed. repeat case_match; simplify_eq; done. }
  unfold Answer_. destruct (Projects_ req) as [|p [|q ps]] eqn:Ep.
  - destruct (welcome _ _ _ _ _ _) as [[res p]|] eqn:Ew; (split; [set_solver|]); right; (split; [done|]);
      exists body, req; (split_and!; [done|done|]); by rewrite Ep, ?Ew.
  - destruct (Answer _ _ _ _ _ _ _ _ _ _ _) as [c' res] eqn:Ea. split; [case_match; set_solver|]. right. split; [done|].
    exists body, req. split_and!; [done|done|]. by rewrite Ep, Ea.
  - split; [set_solver|]. right. split; [done|]. exists body, req. split_and!; [done|done|]. by rewrite Ep.
Qed.

(** The answer of a call that names one project. *)
Lemma Answer_one (ar : @Around A) c req project :
  Projects_ req = [project] →
  da_Claims (Answer_ (A := A) decode ar c req).2.1 =
    res_Claims (Answer decode (ar_cfg ar) (ar_store ar) (ar_meets ar) c (u_ID (rq_User req)) project (rq_ClientID req)
                  (rq_Function req) (Roles_ req project) (u_Identity (rq_User req))).2.
Proof. intros Hp. unfold Answer_. rewrite Hp. by destruct (Answer _ _ _ _ _ _ _ _ _ _ _). Qed.

Lemma Answer_known (cfg : option (@Config A)) st mt c user project client function roles id :
  res_Claims (Answer decode cfg st mt c user project client function roles id).2 ≠ [] →
  ∃ (cfg' : @Config A) proj, cfg = Some cfg' ∧ ClaimServe.Projects cfg' !! project = Some proj.
Proof.
  unfold Answer. destruct cfg as [cfg|]; [|done]. destruct (ClaimServe.Projects cfg !! project) as [proj|] eqn:E; [|done]. by eauto.
Qed.

(** A call that has claims appended. *)
Definition let_through (ar : @Around A) (r : HttpRequest) (body : string) : Prop :=
  (ar_keys ar = [] ∧ ar_dev ar = true) ∨
  ∃ keys slot, (keys = ar_keys ar ∨ ar_refresh ar = Some keys) ∧
    authentic hmac body (Header r) keys SignatureTolerance (ar_now ar) slot.

Lemma route_cases ar r c c' claims heard :
  route ar r c = (c', (Append claims, heard)) → claims ≠ [] →
  ∃ body req, Method r = "POST" ∧ Body r = Some body ∧ let_through ar r body ∧
    Decode decode_one parse_time (substring 0 BodyCap body) = (req, None) ∧
    claims = da_Claims (Answer_ decode ar c req).2.1.
Proof.
  unfold Handler_, Delivery. intros Hr Hne.
  assert (Hn : ∃ call told x, Inject decode_one parse_time decode ar r call c = (c', (Append claims, x, told)) ∧
                ∀ body, Body r = Some body → let_through ar r body).
  { destruct (SignatureCheck_cases ar (Inject decode_one parse_time decode ar) r new_call c)
      as [(Hk & Hdev & Hs)|[(body & keys & slot & Hb & [Hkeys Hv] & Hs)|(status & code & o & told & Hs & _)]];
      rewrite Hs in Hr; clear Hs; [| |done];
      match type of Hr with context [Inject _ _ _ _ _ ?call c] =>
        exists call; destruct (Inject _ _ _ ar r call c) as [c'' [[reply x] told]] end;
      injection Hr as <- -> <-; exists told, x; (split; [done|]); intros b Hb'; [by left|right].
    exists keys, slot. split; [done|]. assert (b = body) as -> by congruence. by eapply Verify_authentic. }
  destruct Hn as (call & told & x & Hi & Hl). pose proof (Inject_cases ar r call c) as H. rewrite Hi in H.
  destruct H as [_ [H|(Hm & body & req & Hb & Hd & [= Ha])]]; [by rewrite (H claims eq_refl) in Hne|].
  exists body, req. split_and!; auto.
Qed.

(** ** Properties *)


(** Every call is counted, once, whatever stops it, and only a call that
    matched no key the door held is reported as a mismatch or held against its
    sender: no limit stands between Zitadel and a sign-in. *)
Theorem every_call_is_counted_once ar r c c' reply heard :
  route ar r c = (c', (reply, heard)) →
  ∃ told call, heard = told ++ [Recorded call] ∧ (∀ x, Recorded x ∉ told) ∧
    ((Mismatch ∈ told ∨ FailureCounted ∈ told) →
      (∃ status code, reply = Refused status code) ∧
      ∃ body e, Body r = Some body ∧ VerifySignature hmac body (Header r) (ar_keys ar) SignatureTolerance (ar_now ar) = inl e).
Proof.
  unfold Handler_, Delivery. intros Hr.
  destruct (SignatureCheck_cases ar (Inject decode_one parse_time decode ar) r new_call c)
    as [(_ & _ & Hs)|[(body & keys & slot & _ & _ & Hs)|(status & code & o & told & Hs & Hrec & Hf)]];
    rewrite Hs in Hr; clear Hs; [| |injection Hr as <- <- <-; exists told, (Set_ new_call o); split_and!; [done|done|]; intros Hm; split; [by do 2 eexists|by apply Hf]];
    match type of Hr with context [Inject _ _ _ _ _ ?call c] =>
      pose proof (Inject_cases ar r call c) as Hi; destruct (Inject _ _ _ ar r call c) as [c'' [[rep x] told]] end;
    destruct Hi as [Hi _];
    injection Hr as <- <- <-; exists told, x; (split; [done|]); split;
    [intros y Hy|intros [Hy|Hy]|intros y Hy|intros [Hy|Hy]]; by apply Hi in Hy as [? ?].
Qed.
End route.

(** C40. A rotation refuses no call: one signed with the key Syndra moves off, for
    as long as it may arrive, verifies, whatever else the door holds. *)
Theorem rotation_refuses_no_call hmac k key now u env ts body :
  Current k ≠ "" → (now ≤ u)%Z → (Unix u < Unix (now + PreviousKeyKeep))%Z →
  (- 2 ^ 63 ≤ ts < 2 ^ 63)%Z → (- SignatureTolerance ≤ u - ts * second ≤ SignatureTolerance)%Z →
  ∃ slot, VerifySignature hmac body (SignatureHeaderValue hmac ts body (Current k))
    (KeysWithEnv (Keys (Next k key now) u) env) SignatureTolerance u = inr slot.
Proof.
  intros Hk Hu Hw Hts Hnow.
  assert (Hin : Current k ∈ sk_Key <$> KeysWithEnv (Keys (Next k key now) u) env).
  { assert (H : Current k ∈ sk_Key <$> Keys (Next k key now) u) by (by destruct (keyring_overlap k key now u Hk Hu Hw) as [? _]).
    unfold KeysWithEnv. repeat case_match; [done|done|]. rewrite fmap_app. apply elem_of_app. by left. }
  apply list_elem_of_fmap in Hin as (sk & -> & Hin).
  destruct (header_verifies hmac body _ ts u sk Hts Hnow Hin) as (k' & _ & ->). by eexists.
Qed.

(** ** On a concrete call *)
Definition demo_json (grants : J) : J :=
  JObj [("function", JStr FunctionPreUserinfo); ("user", JObj [("id", JStr "u1"); ("username", JStr "ana"); ("human", JObj [("FIRST_NAME", JStr "Ana")])]);
        ("user_grants", grants); ("application", JObj [("Client_ID", JStr "c1"); ("client_id", JNum "1")])].
Definition demo_grant (key project : string) (roles : list string) : J := JObj [(key, JStr project); ("roles", JArr (JStr <$> roles))].
Definition demo_one (body : string) : option J :=
  if body =? "b" then Some (demo_json (JArr [demo_grant "project_id" "p1" ["admin"]; demo_grant "projectId" " p1" ["laser"; "admin"]]))
  else if body =? "two" then Some (demo_json (JArr [demo_grant "project_id" "p1" ["admin"]; demo_grant "project_id" "p2" ["admin"]]))
  else if body =? "renamed" then Some (demo_json (JArr [demo_grant "project" "p1" ["admin"]]))
  else None.
Definition no_time (s : string) : option Z := None.
Definition demo_hmac (key msg : string) : string := key +:+ "|" +:+ msg.
Definition demo_around (keys : list SlotKey) (refresh : option (list SlotKey)) (wait : option Z) : @Around string :=
  {| ar_cfg := Some demo_config; ar_store := demo_store; ar_meets := demo_meets true 0; ar_now := (100 * second)%Z;
     ar_keys := keys; ar_refresh := refresh; ar_dev := false; ar_wait := wait |}.
Definition demo_key (key : string) : SlotKey := {| Slot := "current"; sk_Key := key |}.
Definition demo_http (key body : string) : HttpRequest :=
  {| Method := "POST"; Header := SignatureHeaderValue demo_hmac 90 body key; Body := Some body |}.
Definition demo_route (ar : @Around string) (r : HttpRequest) := Handler_ demo_one no_time demo_decode demo_hmac ar r (newLRU 2).

(** Both spellings of a project, and a key of another case, are read; the
    roles of the rows are one set. *)
Example demo_decodes :
  let req := (Decode demo_one no_time "b").1 in
  Projects_ req = ["p1"] ∧ Roles_ req "p1" = ["admin"; "laser"] ∧ rq_ClientID req = "c1" ∧
  i_GivenName (u_Identity (rq_User req)) = "Ana" ∧
  (Decode demo_one no_time "renamed").2 = Some ContractFault ∧ (Decode demo_one no_time "x").2 = Some BadRequest.
Proof. split_and!; vm_compute; reflexivity. Qed.

(** Refusals: a payload that spans projects, a wrong key, a wrong key of a
    sender over the limit, a key replaced a moment ago. *)
Example demo_refusals :
  (demo_route (demo_around [demo_key "k"] None None) (demo_http "k" "two")).2.1 = Append [] ∧
  (demo_route (demo_around [demo_key "k"] None (Some 0%Z)) (demo_http "j" "b")).2.1 = Refused 401 "INVALID_SIGNATURE" ∧
  (demo_route (demo_around [demo_key "k"] None (Some 5%Z)) (demo_http "j" "b")).2.1 = Refused 429 "RATE_LIMITED" ∧
  (demo_route (demo_around [demo_key "k"] (Some [demo_key "j"]) (Some 5%Z)) (demo_http "j" "b")).2.1 =
    (demo_route (demo_around [demo_key "k"] None None) (demo_http "k" "b")).2.1.
Proof. split_and!; vm_compute; reflexivity. Qed.

Definition demo_good : Around := demo_around [demo_key "k"] None (Some 5%Z).

Lemma every_call_is_counted_once_witness :
  ∃ told call, (demo_route demo_good (demo_http "j" "b")).2.2 = told ++ [Recorded call] ∧ tc_Outcome call = SigMismatch.
Proof.
  destruct (demo_route demo_good (demo_http "j" "b")) as [c' [reply heard]] eqn:E.
  destruct (every_call_is_counted_once demo_one no_time demo_decode demo_hmac demo_good (demo_http "j" "b") (newLRU 2) c'
    reply heard E) as (told & call & Hh & _).
  exists told, call. split; [exact Hh|]. vm_compute in E. injection E as _ _ <-.
  apply (f_equal last) in Hh. rewrite last_snoc in Hh. injection Hh as <-. reflexivity.
Defined.

Lemma rotation_refuses_no_call_witness :
  ∃ slot, VerifySignature demo_hmac "b" (SignatureHeaderValue demo_hmac 50 "b" "old")
    (KeysWithEnv (Keys (Next {| Current := "old"; Previous := ""; PreviousUntil := 0; ChangedAt := 0 |} "new" 0) minute) "env")
    SignatureTolerance minute = inr slot.
Proof.
  apply (rotation_refuses_no_call demo_hmac {| Current := "old"; Previous := ""; PreviousUntil := 0; ChangedAt := 0 |} "new" 0);
    [discriminate|vm_compute; discriminate|vm_compute; reflexivity|vm_compute; split; [discriminate|reflexivity]|vm_compute; split; discriminate].
Defined.
