(* ===== verification/Merge.v ===== *)
(** * Merge: a three-way classification (backend/internal/services/merge/classify.go)

    What Syndra wants ([ours]), what the target has ([theirs]) and what it
    reported after the last apply ([base]), field by field. encoding/json is an
    interface here ([JsonCodec]): decoding turns numbers into float64 and
    encoding prints them, which no theorem below depends on. [plain_codec] is a
    concrete instance, exact on arrays of plain strings and booleans. *)

From S2P Require Import Prelude Json.

(** ** What classify.go uses of encoding/json *)
Class JsonCodec := {
  JV : Type;
  unmarshal : string → option JV;            (* json.Unmarshal into any *)
  as_list : JV → option (list JV);           (* v.([]any) *)
  marshal : JV → option string;              (* json.Marshal *)
  marshal_strings : list string → string;    (* json.Marshal of a []string *)
  (** A value Unmarshal produced can be encoded again, and so can its items. *)
  marshal_decoded raw v : unmarshal raw = Some v → is_Some (marshal v);
  marshal_items raw v l : unmarshal raw = Some v → as_list v = Some l → Forall (λ x, is_Some (marshal x)) l;
  (** Encoding a list of strings loses nothing. *)
  marshal_strings_inj : Inj (=) (=) marshal_strings;
}.

Inductive Outcome :=
  | Unchanged | FastForward | AlreadyMerged | TheirsOnly | Conflict | NoBase | DeletedUpstream.

#[export] Instance Outcome_eq_dec : EqDecision Outcome.
Proof. solve_decision. Defined.

Definition AllOutcomes : list Outcome :=
  [Unchanged; FastForward; AlreadyMerged; TheirsOnly; Conflict; NoBase; DeletedUpstream].

Record SubjectFinding := {
  sf_SubjectID : string;
  sf_Field : string;
  sf_Outcome : Outcome;
  sf_Base : string;
  sf_Ours : string;
  sf_Theirs : string;
}.

(** A [json.RawMessage] is its bytes; nil is the empty string. *)
Record FieldOutcome := {
  Field : string;
  fo_Outcome : Outcome;
  fo_Base : string;
  fo_Ours : string;
  fo_Theirs : string;
}.

Record Subject := { SubjectID : string; Fields : list FieldOutcome; IsAbsent : bool }.

Definition resolvable (o : Outcome) : bool :=
  match o with Unchanged | FastForward | AlreadyMerged | NoBase => true | _ => false end.

Definition Convergeable (s : Subject) : bool :=
  if IsAbsent s then false else forallb (λ f, resolvable (fo_Outcome f)) (Fields s).

Definition Findings (s : Subject) : list SubjectFinding :=
  if IsAbsent s then
    [{| sf_SubjectID := SubjectID s; sf_Field := ""; sf_Outcome := DeletedUpstream;
        sf_Base := ""; sf_Ours := ""; sf_Theirs := "" |}]
  else
    (λ f, {| sf_SubjectID := SubjectID s; sf_Field := Field f; sf_Outcome := fo_Outcome f;
             sf_Base := fo_Base f; sf_Ours := fo_Ours f; sf_Theirs := fo_Theirs f |}) <$>
    List.filter (λ f, (fo_Outcome f =? Conflict) || (fo_Outcome f =? TheirsOnly)) (Fields s).

Definition Absent (subjectID : string) : Subject :=
  {| SubjectID := subjectID; Fields := []; IsAbsent := true |}.

Section classify.
Context `{JsonCodec}.

Definition canonical (raw : string) : option string :=
  match unmarshal raw with
  | None => None
  | Some v =>
      match as_list v with
      | Some l => encoded ← mapM marshal l; Some (marshal_strings (sort_strings encoded))
      | None => marshal v
      end
  end.

Definition sameValue (a b : string) : bool :=
  if (a =? "") || (b =? "") then (String.length a =? String.length b)%nat
  else match canonical a, canonical b with
       | Some ca, Some cb => ca =? cb
       | _, _ => a =? b
       end.

(** One field. [t] and [b] are the comma-ok reads of [theirs] and [base]. *)
Definition classify_field (o : string) (t b : option string) : Outcome :=
  match b, t with
  | None, Some t => if sameValue o t then Unchanged else NoBase
  | None, None => NoBase
  | Some _, None => TheirsOnly
  | Some b, Some t =>
      if sameValue o t then (if sameValue b t then Unchanged else AlreadyMerged)
      else if sameValue b t then FastForward
      else if sameValue b o then TheirsOnly
      else Conflict
  end.

Definition field_outcome (ours theirs base : gmap string string) (field : string) : FieldOutcome :=
  let o := default "" (ours !! field) in
  {| Field := field;
     fo_Outcome := classify_field o (theirs !! field) (base !! field);
     fo_Base := default "" (base !! field);
     fo_Ours := o;
     fo_Theirs := default "" (theirs !! field) |}.

(** The managed fields, ascending: ranging over [ours], then sorting. *)
Definition Classify (subjectID : string) (ours theirs base : gmap string string) : Subject :=
  {| SubjectID := subjectID;
     Fields := field_outcome ours theirs base <$> sort_strings (map_to_list ours).*1;
     IsAbsent := false |}.

(** ** Facts *)

(** What two equal values share: both empty, one canonical text, or the bytes. *)
Definition meaning (a : string) : option string + string :=
  if a =? "" then inl None
  else match canonical a with Some c => inl (Some c) | None => inr a end.

Lemma sameValue_meaning a b : sameValue a b = true ↔ meaning a = meaning b.
Proof.
  unfold sameValue, meaning. destruct (decide (a = "")) as [->|Ha].
  { destruct b as [|x b]; simpl; [done|]. by destruct (canonical _). }
  destruct (decide (b = "")) as [->|Hb].
  { destruct a as [|x a]; [done|]. simpl. by destruct (canonical _). }
  rewrite !(bool_decide_false (_ = "")) by done. simpl.
  destruct (canonical a) eqn:Ea, (canonical b) eqn:Eb; rewrite bool_decide_eq_true; split; try congruence.
Qed.

(** [sameValue] is an equivalence: "the same value" is well defined. *)
Lemma sameValue_refl a : sameValue a a = true.
Proof. by apply sameValue_meaning. Qed.
Lemma sameValue_sym a b : sameValue a b = sameValue b a.
Proof. apply eq_true_iff_eq. rewrite !sameValue_meaning. done. Qed.
Lemma sameValue_trans a b c : sameValue a b = true → sameValue b c = true → sameValue a c = true.
Proof. rewrite !sameValue_meaning. congruence. Qed.

Lemma resolvable_findings o :
  o ≠ DeletedUpstream → resolvable o = negb ((o =? Conflict) || (o =? TheirsOnly)).
Proof. by destruct o. Qed.

Lemma classify_field_not_deleted o t b : classify_field o t b ≠ DeletedUpstream.
Proof. unfold classify_field. repeat case_match; done. Qed.

Lemma Classify_fields id ours theirs base fo :
  fo ∈ Fields (Classify id ours theirs base) ↔
  ∃ f o, ours !! f = Some o ∧
         fo = {| Field := f; fo_Outcome := classify_field o (theirs !! f) (base !! f);
                 fo_Base := default "" (base !! f); fo_Ours := o;
                 fo_Theirs := default "" (theirs !! f) |}.
Proof.
  simpl. rewrite list_elem_of_fmap. setoid_rewrite sort_strings_elem. setoid_rewrite list_elem_of_fmap.
  split.
  - intros (f & -> & [f' o] & -> & Ho%elem_of_map_to_list). exists f', o.
    split; [done|]. unfold field_outcome. simpl. by rewrite Ho.
  - intros (f & o & Ho & ->). exists f. split; [|exists (f, o); by rewrite elem_of_map_to_list].
    unfold field_outcome. by rewrite Ho.
Qed.
End classify.

Section array_facts.
Context `{JsonCodec}.

Lemma mapM_marshal_perm (l l' : list JV) e e' :
  mapM marshal l = Some e → mapM marshal l' = Some e' → l ≡ₚ l' → e ≡ₚ e'.
Proof.
  intros He%mapM_Some He'%mapM_Some Hp. revert e e' He He'.
  induction Hp as [|x l l' Hp IH|x y l|l1 l2 l3 H12 IH12 H23 IH23]; intros e e' He He'.
  - by apply Forall2_nil_inv_l in He as ->; apply Forall2_nil_inv_l in He' as ->.
  - apply Forall2_cons_inv_l in He as (z & k & ? & ? & ->).
    apply Forall2_cons_inv_l in He' as (z' & k' & ? & ? & ->). simplify_eq. constructor. auto.
  - apply Forall2_cons_inv_l in He as (z & k & ? & Hk & ->).
    apply Forall2_cons_inv_l in Hk as (z2 & k2 & ? & Hk%mapM_Some & ->).
    apply Forall2_cons_inv_l in He' as (z' & k' & ? & Hk' & ->).
    apply Forall2_cons_inv_l in Hk' as (z3 & k3 & ? & Hk3%mapM_Some & ->). simplify_eq. constructor.
  - assert (is_Some (mapM marshal l2)) as [e2 He2%mapM_Some].
    { apply mapM_is_Some. rewrite <- H12. apply mapM_is_Some. exists e. by apply mapM_Some. }
    transitivity e2; auto.
Qed.

Lemma canonical_list raw v l :
  unmarshal raw = Some v → as_list v = Some l →
  ∃ e, mapM marshal l = Some e ∧ canonical raw = Some (marshal_strings (sort_strings e)).
Proof.
  intros Hu Hl. destruct (proj2 (mapM_is_Some marshal l) (marshal_items raw v l Hu Hl)) as [e He].
  exists e. split; [done|]. unfold canonical. by rewrite Hu, Hl, He.
Qed.

Lemma sameValue_arrays a b va vb la lb ea eb :
  a ≠ "" → b ≠ "" → unmarshal a = Some va → unmarshal b = Some vb →
  as_list va = Some la → as_list vb = Some lb →
  mapM marshal la = Some ea → mapM marshal lb = Some eb →
  sameValue a b = true ↔ ea ≡ₚ eb.
Proof.
  intros Ha Hb Hua Hub Hla Hlb Hea Heb.
  destruct (canonical_list a va la Hua Hla) as (? & ? & Ca).
  destruct (canonical_list b vb lb Hub Hlb) as (? & ? & Cb). simplify_eq.
  unfold sameValue. rewrite !(bool_decide_false (_ = "")) by done. simpl.
  rewrite Ca, Cb, bool_decide_eq_true. split.
  - intros He%marshal_strings_inj. by rewrite <- (sort_strings_perm ea), He, sort_strings_perm.
  - intros Hp. f_equal. by apply sort_strings_unique.
Qed.
End array_facts.

(** ** A concrete codec: plain strings, booleans and arrays of them

    Exact for the text it accepts: quotes with no escape inside, [true], [false]
    and arrays, with no white space; every other text is refused as malformed
    would be. *)
Inductive plain := PStr (s : string) | PBool (b : bool) | PArr (l : list plain).

Section plain_codec.
Implicit Types l : list ascii.

Fixpoint plain_chars l : option (string * list ascii) :=
  match l with
  | [] => None
  | a :: l =>
      if byte_is 34 a then Some ("", l)
      else if byte_is 92 a || (N_of_ascii a <? 32)%N || (126 <? N_of_ascii a)%N
              || byte_is 60 a || byte_is 62 a || byte_is 38 a then None
      else '(s, r) ← plain_chars l; Some (String a s, r)
  end.

Definition plain_atom l : option (plain * list ascii) :=
  match l with
  | a :: r =>
      if byte_is 34 a then '(s, r) ← plain_chars r; Some (PStr s, r)
      else if byte_is 116 a then r ← literal "rue" r; Some (PBool true, r)
      else if byte_is 102 a then r ← literal "alse" r; Some (PBool false, r)
      else None
  | [] => None
  end.

(** Items separated by commas, up to the closing bracket. *)
Fixpoint plain_items (fuel : nat) l : option (list plain * list ascii) :=
  match fuel with
  | 0 => None
  | S fuel =>
      '(v, r) ← plain_atom l;
      match r with
      | c :: r =>
          if byte_is 93 c then Some ([v], r)
          else if byte_is 44 c then '(vs, r) ← plain_items fuel r; Some (v :: vs, r)
          else None
      | [] => None
      end
  end.

Definition plain_unmarshal (raw : string) : option plain :=
  let l := list_ascii_of_string raw in
  match
    match l with
    | a :: r => if byte_is 91 a then
                  match r with
                  | c :: r' => if byte_is 93 c then Some (PArr [], r')
                               else '(vs, r) ← plain_items (length r) r; Some (PArr vs, r)
                  | [] => None
                  end
                else plain_atom l
    | [] => None
    end
  with
  | Some (v, []) => Some v
  | _ => None
  end.

Definition quoted (s : string) : string := json_quote +:+ s +:+ json_quote.

Definition plain_list (v : plain) : option (list plain) :=
  match v with PArr l => Some l | _ => None end.
Fixpoint plain_marshal (v : plain) : string :=
  match v with
  | PStr s => quoted s
  | PBool b => if b then "true" else "false"
  | PArr l => "[" +:+ Join (plain_marshal <$> l) "," +:+ "]"
  end.

(** A string of printable ASCII as encoding/json quotes it. *)
Fixpoint escape (s : string) : string :=
  match s with
  | EmptyString => json_quote
  | String a s => if byte_is 34 a || byte_is 92 a then String (ascii_of_N 92) (String a (escape s))
                  else String a (escape s)
  end.
Fixpoint escaped_items (l : list string) : string :=
  match l with
  | [] => "]"
  | s :: l => "," +:+ json_quote +:+ escape s +:+ escaped_items l
  end.
Definition plain_strings (l : list string) : string :=
  match l with
  | [] => "[]"
  | s :: l => "[" +:+ json_quote +:+ escape s +:+ escaped_items l
  end.

Lemma byte_is_iff n a : byte_is n a = true ↔ N_of_ascii a = n.
Proof. apply bool_decide_eq_true. Qed.

Lemma escape_inj s t a b : escape s +:+ a = escape t +:+ b → s = t ∧ a = b.
Proof.
  revert t; induction s as [|c s IH]; intros [|d t]; simpl;
    repeat match goal with |- context [if ?b then _ else _] => destruct b eqn:? end;
    intros E; try (unfold json_quote in E; rewrite ?string_app_cons in E).
  all: try (injection E as E; by split).
  all: try (injection E as -> E; apply IH in E as [-> ->]; by split).
  all: exfalso; injection E; intros; subst; done.
Qed.

Lemma escaped_items_inj (l l' : list string) : escaped_items l = escaped_items l' → l = l'.
Proof.
  revert l'; induction l as [|s l IH]; intros [|t l'] E; try done.
  simpl in E. apply string_app_inj, string_app_inj, escape_inj in E as [-> E]. f_equal. auto.
Qed.

#[export] Instance plain_strings_inj : Inj (=) (=) plain_strings.
Proof.
  intros [|s l] [|t l'] E; try done. simpl in E.
  apply string_app_inj, string_app_inj, escape_inj in E as [-> E]. f_equal. by apply escaped_items_inj.
Qed.
End plain_codec.

#[export, program] Instance plain_codec : JsonCodec := {|
  JV := plain; unmarshal := plain_unmarshal; as_list := plain_list;
  marshal v := Some (plain_marshal v); marshal_strings := plain_strings;
|}.
Next Obligation. done. Qed.
Next Obligation. intros. apply Forall_true. done. Qed.

(** ** Properties *)

(** The classifier is the three-way merge: for a field with a base that the
    target reports, who moved (away from the base) decides. Nobody: unchanged;
    Syndra alone: fast-forward; the target alone: theirs only; both, to one
    value: already merged; both, differently: conflict. The code asks whether the
    two sides agree first; the order of its questions never changes the answer. *)
Theorem classify_field_three_way `{JsonCodec} o t b :
  classify_field o (Some t) (Some b) =
  match sameValue b o, sameValue b t with
  | true, true => Unchanged
  | false, true => FastForward
  | true, false => TheirsOnly
  | false, false => if sameValue o t then AlreadyMerged else Conflict
  end.
Proof.
  simpl. destruct (sameValue o t) eqn:Eot, (sameValue b t) eqn:Ebt, (sameValue b o) eqn:Ebo; try done; exfalso.
  - rewrite sameValue_sym in Eot. pose proof (sameValue_trans _ _ _ Ebt Eot). congruence.
  - pose proof (sameValue_trans _ _ _ Ebo Eot). congruence.
  - rewrite sameValue_sym in Ebo. pose proof (sameValue_trans _ _ _ Ebo Ebt). congruence.
Qed.

(** What an unattended pass may write, exactly: a classified subject is
    convergeable if and only if, for every managed field with a base, the target
    still reports the field and holds there either what it last reported or what
    Syndra wants. So a hand edit is never overwritten without a person, and what
    is refused is always surfaced: there is a finding if and only if the subject
    is not convergeable. *)
Theorem Convergeable_spec `{JsonCodec} id ours theirs base :
  let s := Classify id ours theirs base in
  (Convergeable s = true ↔
     ∀ f o b, ours !! f = Some o → base !! f = Some b →
              ∃ t, theirs !! f = Some t ∧ (sameValue b t = true ∨ sameValue o t = true)) ∧
  (Findings s = [] ↔ Convergeable s = true).
Proof.
  intros s.
  assert (Hconv : Convergeable s = true ↔ ∀ fo, fo ∈ Fields s → resolvable (fo_Outcome fo) = true).
  { unfold Convergeable, s. simpl. rewrite forallb_forall. by setoid_rewrite <- list_elem_of_In. }
  split.
  - rewrite Hconv. split.
    + intros Hall f o b Ho Hb.
      specialize (Hall _ (proj2 (Classify_fields id ours theirs base _) (ex_intro _ f (ex_intro _ o (conj Ho eq_refl))))).
      simpl in Hall. rewrite Hb in Hall. destruct (theirs !! f) as [t|]; [|done]. exists t. split; [done|].
      simpl in Hall. destruct (sameValue o t); [by right|]. destruct (sameValue b t); [by left|].
      by destruct (sameValue b o).
    + intros Hall fo (f & o & Ho & ->)%Classify_fields. simpl.
      destruct (base !! f) as [b|] eqn:Hb; [|simpl; by repeat case_match].
      destruct (Hall f o b Ho Hb) as (t & -> & Hor). simpl.
      by destruct Hor as [-> | ->]; repeat case_match.
  - rewrite Hconv. unfold Findings, s. simpl IsAbsent. cbv iota.
    split.
    + intros Hnil%fmap_nil_inv fo Hfo. rewrite resolvable_findings.
      2: { apply Classify_fields in Hfo as (f & o & _ & ->). apply classify_field_not_deleted. }
      apply negb_true_iff, not_true_iff_false. intros Hb.
      assert (Hin : fo ∈ List.filter (λ f, (fo_Outcome f =? Conflict) || (fo_Outcome f =? TheirsOnly))
                      (Fields (Classify id ours theirs base)))
        by (apply list_elem_of_In, filter_In; split; [by apply list_elem_of_In|done]).
      rewrite Hnil in Hin. by apply not_elem_of_nil in Hin.
    + intros Hall. rewrite (elem_of_nil_inv (List.filter _ _)); [done|]. intros fo [Hfo%list_elem_of_In Hb]%list_elem_of_In%filter_In.
      pose proof (Hall fo Hfo) as Hr. destruct (fo_Outcome fo); done.
Qed.

(** Arrays are compared as collections: two encoded arrays are the same
    value exactly when their items are the same up to order. (As many times:
    an array with an item repeated is not the array without the repeat.) *)
Theorem sameValue_array_spec `{JsonCodec} a b va vb la lb ea eb :
  a ≠ "" → b ≠ "" → unmarshal a = Some va → unmarshal b = Some vb →
  as_list va = Some la → as_list vb = Some lb →
  mapM marshal la = Some ea → mapM marshal lb = Some eb →
  sameValue a b = true ↔ ea ≡ₚ eb.
Proof. apply sameValue_arrays. Qed.

Definition demo_array (l : list string) : string := "[" +:+ Join (quoted <$> l) "," +:+ "]".

Lemma sameValue_array_spec_witness :
  @sameValue plain_codec (demo_array ["a"; "b"]) (demo_array ["b"; "a"]) = true ∧
  @sameValue plain_codec (demo_array ["a"; "a"]) (demo_array ["a"]) = false.
Proof.
  split.
  - apply (@sameValue_array_spec plain_codec _ _ (PArr [PStr "a"; PStr "b"]) (PArr [PStr "b"; PStr "a"])
             [PStr "a"; PStr "b"] [PStr "b"; PStr "a"] [quoted "a"; quoted "b"] [quoted "b"; quoted "a"]);
      try (vm_compute; (reflexivity || discriminate)). constructor.
  - vm_compute. reflexivity.
Defined.
