(* ===== verification/Fingerprint.v ===== *)
(** * Fingerprint: digests of what was reviewed (backend/internal/services/fingerprint.go)

    A digest is SHA-256, in hex, of length-prefixed fields. The hash is a
    parameter; every theorem says either that what was digested agrees, or that
    two distinct byte strings with one digest are at hand (a SHA-256 collision).
    Times enter as the text the code formats them to. *)

From S2P Require Import Prelude.

(** What is written to the hash for one field, and for all of them. *)
Definition field_bytes (f : string) : string := Itoa (String.length f) +:+ ":" +:+ f.
Fixpoint encode_fields (fields : list string) : string :=
  match fields with [] => "" | f :: fields => field_bytes f +:+ encode_fields fields end.

Record DirectGrant := {
  g_ID : string;
  g_ProjectID : string;
  g_RoleKey : string;
  g_Source : string;
  g_ExpiresAt : option string;   (* UTC, to the second *)
}.

Record DriftItem := {
  d_ID : string;
  d_Target : string;
  d_Status : string;
  d_UserID : string;
  d_ProjectID : string;
  d_RoleKeys : list string;
}.

Record AccessRequest := {
  r_ID : string;
  r_Status : string;
  r_RequesterID : string;
  r_ProjectID : string;
  r_RoleKey : string;
  r_DurationDays : option Z;
  r_AskedUntil : option string;  (* UTC, RFC3339Nano *)
}.

Record BulkRequest := {
  b_Op : string;
  b_UserIDs : list string;
  b_ProjectID : string;
  b_RoleKey : string;
  b_BundleID : string;
  b_Reason : string;
  b_DurationDays : Z;
  b_GrantIDs : list string;
  b_Actor : string;
}.

(** Trimmed, not blank, each once, first position kept. *)
Fixpoint dedupe_from (seen : list string) (ids : list string) : list string :=
  match ids with
  | [] => []
  | id :: ids =>
      let id := TrimSpace id in
      if (id =? "") || bool_decide (id ∈ seen) then dedupe_from seen ids
      else id :: dedupe_from (id :: seen) ids
  end.
Definition dedupeIDs (ids : list string) : list string := dedupe_from [] ids.

(** Grants by id. The database's ids are unique, so [sort.Slice] has one result. *)
Definition sort_grants (l : list DirectGrant) : list DirectGrant :=
  stable_sort (cmp_on g_ID String.compare) l.

Section digests.
(** hex(SHA-256(bytes)) *)
Context (sha256hex : string → string).

Definition Fingerprint (fields : list string) : string := sha256hex (encode_fields fields).

Definition grant_fields (g : DirectGrant) : list string :=
  [g_ID g; g_ProjectID g; g_RoleKey g; g_Source g; default "" (g_ExpiresAt g)].
Definition user_access_fields (userID status : string) (roles : list string) (grants : list DirectGrant)
    : list string :=
  ["user"; userID; "status"; status; "roles"] ++ sort_strings roles ++
  "grants" :: (sort_grants grants ≫= grant_fields).
Definition FingerprintUserAccess userID status roles grants : string :=
  Fingerprint (user_access_fields userID status roles grants).

(** [effectiveRoleKeys]: the non-nil entries of the role map, as project/role. *)
Definition effectiveRoleKeys {V} (roleMap : gmap (string * string) (option V)) : list string :=
  omap (λ '(k, r), match r with Some _ => Some (k.1 +:+ "/" +:+ k.2) | None => None end)
       (map_to_list roleMap).

Definition FingerprintDriftItem (item : DriftItem) : string :=
  Fingerprint (["drift"; d_ID item; d_Target item; d_Status item; d_UserID item; d_ProjectID item; "roles"]
               ++ sort_strings (d_RoleKeys item)).

Definition FingerprintAccessRequest (r : AccessRequest) : string :=
  let duration := match r_DurationDays r with Some n => pretty n | None => "" end in
  Fingerprint (["request"; r_ID r; r_Status r; r_RequesterID r; r_ProjectID r; r_RoleKey r; duration]
               ++ match r_AskedUntil r with Some t => ["until"; t] | None => [] end).

Definition bulk_fields (req : BulkRequest) : list string :=
  ["bulk"; b_Op req; b_ProjectID req; b_RoleKey req; b_BundleID req; pretty (b_DurationDays req); "users"]
  ++ sort_strings (dedupeIDs (b_UserIDs req)) ++ "grants" :: sort_strings (b_GrantIDs req).
Definition FingerprintBulkRequest (req : BulkRequest) : string := Fingerprint (bulk_fields req).

Definition FingerprintIDCohort (op : string) (ids params : list string) : string :=
  Fingerprint (["cohort"; op] ++ params ++ "ids" :: sort_strings (dedupeIDs ids)).

(** These two byte strings are different and have one digest. *)
Definition collision (a b : string) : Prop := a ≠ b ∧ sha256hex a = sha256hex b.
End digests.

(** ** Facts: the encoding is injective *)
Lemma field_bytes_inj f g a b : field_bytes f +:+ a = field_bytes g +:+ b → f = g ∧ a = b.
Proof.
  unfold field_bytes. rewrite !string_app_assoc. intros E.
  apply (lacks_split ":" _ _ (f +:+ a) (g +:+ b)) in E as [Hl E]; [|apply Itoa_lacks_colon..].
  apply Itoa_inj in Hl. by apply string_app_length_inj.
Qed.

Lemma encode_fields_inj l l' : encode_fields l = encode_fields l' → l = l'.
Proof.
  revert l'; induction l as [|f l IH]; intros [|g l'] E; simpl in E; [done| | |].
  - unfold field_bytes in E. rewrite !string_app_assoc in E. exfalso.
    by eapply (lacks_no_split ":" _ "" _ I).
  - unfold field_bytes in E. rewrite !string_app_assoc in E. exfalso.
    by eapply (lacks_no_split ":" _ "" _ I).
  - apply field_bytes_inj in E as [-> E]. f_equal. auto.
Qed.

Lemma Fingerprint_inj h l l' : Fingerprint h l = Fingerprint h l' → l = l' ∨ collision h (encode_fields l) (encode_fields l').
Proof.
  intros E. destruct (decide (l = l')) as [|Hne]; [by left|right]. split; [|done]. by intros ?%encode_fields_inj.
Qed.

(** Splitting a list at the first occurrence of a tag. *)
Lemma tag_split {A} (x : A) (l1 l2 r1 r2 : list A) :
  x ∉ l1 → x ∉ l2 → l1 ++ x :: r1 = l2 ++ x :: r2 → l1 = l2 ∧ r1 = r2.
Proof.
  revert l2; induction l1 as [|a l1 IH]; intros [|b l2] H1 H2 E; simplify_eq/=; try set_solver.
  destruct (IH l2) as [-> ->]; set_solver.
Qed.

(** An effective role's text holds a slash, so it is never the tag that follows the roles. *)
Lemma lacks_app_inv c x y : lacks c (x +:+ y) → lacks c y.
Proof.
  induction x as [|a x IH]; [done|]. rewrite string_app_cons. intros [_ H]. auto.
Qed.
Lemma grants_not_role {V} (m : gmap (string * string) (option V)) :
  "grants" ∉ sort_strings (effectiveRoleKeys m).
Proof.
  rewrite sort_strings_elem. unfold effectiveRoleKeys. rewrite list_elem_of_omap.
  intros ([[p r] [v|]] & _ & E); [|done]. injection E as E. simpl in E.
  assert (Hl : lacks "/" (p +:+ "/" +:+ r)).
  { rewrite E. by repeat split. }
  apply lacks_app_inv in Hl. by destruct Hl.
Qed.

Lemma concat_fields_inj {A} (f : A → list string) (n : nat) (l l' : list A) :
  n ≠ 0 → (∀ x, length (f x) = n) → l ≫= f = l' ≫= f → f <$> l = f <$> l'.
Proof.
  intros Hn Hf. revert l'; induction l as [|x l IH]; intros [|y l'] E; csimpl in *; [done| | |].
  - specialize (Hf y). destruct (f y); simpl in *; [lia|done].
  - specialize (Hf x). destruct (f x); simpl in *; [lia|done].
  - apply app_inj_1 in E as [-> E]; [|by rewrite !Hf]. f_equal. auto.
Qed.

(** Lists sorted to one list were permutations of each other. *)
Lemma sort_strings_eq_perm l l' : sort_strings l = sort_strings l' → l ≡ₚ l'.
Proof. intros E. by rewrite <-(sort_strings_perm l), E, sort_strings_perm. Qed.

Lemma grants_fields_perm l l' :
  sort_grants l ≫= grant_fields = sort_grants l' ≫= grant_fields →
  grant_fields <$> l ≡ₚ grant_fields <$> l'.
Proof.
  intros E. apply (concat_fields_inj _ 5) in E; [|done..].
  transitivity (grant_fields <$> sort_grants l); [symmetry; apply fmap_Permutation, stable_sort_perm|].
  rewrite E. apply fmap_Permutation, stable_sort_perm.
Qed.

(** ** Properties *)

(** A bulk rehearsal's digest binds the whole object reviewed: if two
    digests of a person's access agree, then, unless the two encodings are a
    collision of SHA-256, it is the same person in the same directory state, holding the same effective
    roles, with the same grant rows by id, project, role, source and end. *)
Theorem FingerprintUserAccess_binds {V} (h : string → string) (u u' s s' : string)
    (m m' : gmap (string * string) (option V)) (gs gs' : list DirectGrant) :
  FingerprintUserAccess h u s (effectiveRoleKeys m) gs =
  FingerprintUserAccess h u' s' (effectiveRoleKeys m') gs' →
  (u = u' ∧ s = s' ∧ effectiveRoleKeys m ≡ₚ effectiveRoleKeys m' ∧
   grant_fields <$> gs ≡ₚ grant_fields <$> gs') ∨
  collision h (encode_fields (user_access_fields u s (effectiveRoleKeys m) gs))
              (encode_fields (user_access_fields u' s' (effectiveRoleKeys m') gs')).
Proof.
  intros [E|?]%Fingerprint_inj; [left|by right].
  unfold user_access_fields in E. simpl in E. injection E as -> -> E.
  apply tag_split in E as [Er Eg]; [|apply grants_not_role..].
  by repeat split; [apply sort_strings_eq_perm|apply grants_fields_perm].
Qed.

Definition demo_grant (id : string) : DirectGrant :=
  {| g_ID := id; g_ProjectID := "p"; g_RoleKey := "viewer"; g_Source := "operator"; g_ExpiresAt := None |}.
Lemma FingerprintUserAccess_binds_witness :
  ("u" = "u" ∧ "active" = "active" ∧
    effectiveRoleKeys {[("p", "viewer") := Some tt]} ≡ₚ effectiveRoleKeys {[("p", "viewer") := Some tt]} ∧
    grant_fields <$> [demo_grant "g2"; demo_grant "g1"] ≡ₚ grant_fields <$> [demo_grant "g1"; demo_grant "g2"]).
Proof.
  destruct (FingerprintUserAccess_binds (V:=unit) (λ b, b) "u" "u" "active" "active" {[("p", "viewer") := Some tt]} {[("p", "viewer") := Some tt]}
    [demo_grant "g2"; demo_grant "g1"] [demo_grant "g1"; demo_grant "g2"]) as [Hs|[Hne E]].
  - vm_compute. reflexivity.
  - exact Hs.
  - destruct (Hne E).
Defined.

(** A bulk request's digest binds everything that changes its effect, for
    selections in which no user id is the word grants: agreeing digests mean
    the same operation, project, role, bundle and duration, the same users and
    the same grant ids. *)
Theorem FingerprintBulkRequest_binds (h : string → string) (req req' : BulkRequest) :
  "grants" ∉ dedupeIDs (b_UserIDs req) → "grants" ∉ dedupeIDs (b_UserIDs req') →
  FingerprintBulkRequest h req = FingerprintBulkRequest h req' →
  (b_Op req = b_Op req' ∧ b_ProjectID req = b_ProjectID req' ∧ b_RoleKey req = b_RoleKey req' ∧
   b_BundleID req = b_BundleID req' ∧ b_DurationDays req = b_DurationDays req' ∧
   dedupeIDs (b_UserIDs req) ≡ₚ dedupeIDs (b_UserIDs req') ∧ b_GrantIDs req ≡ₚ b_GrantIDs req')
  ∨ collision h (encode_fields (bulk_fields req)) (encode_fields (bulk_fields req')).
Proof.
  intros H1 H2 [E|?]%Fingerprint_inj; [left|by right].
  unfold bulk_fields in E. cbn [app] in E. injection E as ? ? ? ? Ed E. apply (inj pretty) in Ed.
  apply tag_split in E as [Eu Eg]; [|by rewrite sort_strings_elem..].
  by repeat split; try apply sort_strings_eq_perm.
Qed.

Definition demo_bulk (users grants : list string) : BulkRequest :=
  {| b_Op := "extend"; b_UserIDs := users; b_ProjectID := ""; b_RoleKey := ""; b_BundleID := "";
     b_Reason := ""; b_DurationDays := 30; b_GrantIDs := grants; b_Actor := "" |}.
Lemma FingerprintBulkRequest_binds_witness :
  dedupeIDs [" b"; "a"; "b"] ≡ₚ dedupeIDs ["a"; "b"].
Proof.
  destruct (FingerprintBulkRequest_binds (λ b, b)
              (demo_bulk [" b"; "a"; "b"] ["g"]) (demo_bulk ["a"; "b"] ["g"]))
    as [(_&_&_&_&_&Hs&_)|[Hne E]].
  - vm_compute. set_solver.
  - vm_compute. set_solver.
  - vm_compute. reflexivity.
  - exact Hs.
  - destruct (Hne E).
Defined.

(** The word grants separates users from grants without being escaped, so
    two bulk requests naming different users and different grants can carry one
    digest whatever the hash: the encoding of a request is not injective. *)
Theorem FingerprintBulkRequest_ambiguous (h : string → string) :
  ∃ req req', dedupeIDs (b_UserIDs req) ≢ₚ dedupeIDs (b_UserIDs req') ∧
    b_GrantIDs req ≢ₚ b_GrantIDs req' ∧
    FingerprintBulkRequest h req = FingerprintBulkRequest h req'.
Proof.
  exists (demo_bulk ["a"] ["grants"; "h"]), (demo_bulk ["a"; "grants"] ["h"]). split_and!.
  - by intros ?%Permutation_length.
  - by intros ?%Permutation_length.
  - unfold FingerprintBulkRequest, Fingerprint. f_equal.
Qed.
