(* ===== verification/Extcall.v ===== *)
(** * Extcall: calling a system Syndra does not own (backend/internal/extcall)

    extcall.go's retry loop and back-off, and retry.go's retry states. Durations
    and times are int64 nanoseconds. What one attempt answers, whether the
    caller gave up, what the read-back says and what the random source draws are
    an environment indexed by the attempt: the loop is a function of it that
    also records, in order, every send, wait, read-back and closed body. *)

From S2P Require Import Prelude.

(** ** Data *)
Record Policy := {
  Attempts : Z;
  Base : Z;
  Max : Z;
  Timeout : Z;
}.

(** An error chain, by what [errors.Is] and [errors.As] find in it. *)
Record Err := {
  is_Canceled : bool;
  as_NetError : bool;
  is_DeadlineExceeded : bool;
  is_UnexpectedEOF : bool;
  is_EOF : bool;
}.

Record Response := {
  StatusCode : Z;
  from_ReadBack : bool;   (* the X-Syndra-Read-Back header of [landed] *)
}.

#[export] Instance Response_eq_dec : EqDecision Response.
Proof. solve_decision. Defined.
#[export] Instance Err_eq_dec : EqDecision Err.
Proof. solve_decision. Defined.

Record Call := {
  Idempotent : bool;
  ReadBack : option (nat → bool * option Err);   (* landed, err; at attempt n *)
}.

Definition wrap64 (z : Z) : Z := (z + 2^63) `mod` 2^64 - 2^63.

(** ** Back-off *)
Fixpoint doubled (spent : nat) (max d : Z) : Z :=
  match spent with
  | O => d
  | S spent => if (d <? max)%Z then doubled spent max (wrap64 (d * 2)) else d
  end.

(** [Int64N n] is one draw of [rand.Int64N]. *)
Definition Backoff (Int64N : Z → Z) (p : Policy) (spent : Z) : Z :=
  let d := doubled (Z.to_nat spent) (Max p) (Base p) in
  let d := if (0 <? Max p)%Z && (Max p <? d)%Z then Max p else d in
  if (d <=? 1)%Z then d
  else let half := Z.quot d 2 in wrap64 (half + Int64N (wrap64 (wrap64 (d - half) + 1))).

(** The documented contract of [rand.Int64N]: uniform in [[0, n)]. *)
Class RandLaw (Int64N : Z → Z) :=
  Int64N_range : ∀ n, (0 < n)%Z → (0 <= Int64N n < n)%Z.

(** ** Classification *)
Definition RetryableStatus (code : Z) : bool :=
  (code =? 408)%Z || (code =? 429)%Z || (500 <=? code)%Z.

Definition NoAnswer (err : option Err) : bool :=
  match err with
  | None => false
  | Some e =>
      if is_Canceled e then false
      else as_NetError e || is_DeadlineExceeded e || is_UnexpectedEOF e || is_EOF e
  end.

(** ** The loop *)
Inductive Event :=
  | Sent (n : nat)
  | ReadBackAsked (n : nat)
  | Closed (n : nat)      (* the body of attempt n's answer *)
  | Waited (d : Z).

Definition Answer : Type := (Response + Err).
Definition answer_err (a : Answer) : option Err := match a with inl _ => None | inr e => Some e end.
Definition answer_resp (a : Answer) : option Response := match a with inl r => Some r | inr _ => None end.

Record Env := {
  op : nat → option Z → Answer;      (* attempt n under a timeout *)
  ctx_Err : nat → option Err;        (* ctx.Err() after attempt n *)
  sleep : nat → Z → option Err;
  Int64N : nat → Z → Z;
}.

Definition landed : Response := {| StatusCode := 200; from_ReadBack := true |}.

Definition attempt (w : Env) (p : Policy) (n : nat) : Answer :=
  op w n (if (Timeout p <=? 0)%Z then None else Some (Timeout p)).

Definition closeBody (n : nat) (a : Answer) : list Event :=
  match a with inl _ => [Closed n] | inr _ => [] end.

Definition status_of (a : Answer) : Z := match a with inl r => StatusCode r | inr _ => 0 end.

Definition Result : Type := (option Response * option Err).
Definition returned (a : Answer) : Result := (answer_resp a, answer_err a).

(** One turn of the loop: what it did, and the result or the wait to make. *)
Definition turn (w : Env) (p : Policy) (c : Call) (attempts : Z) (n : nat)
    : list Event * (Result + Z) :=
  let a := attempt w p n in
  let status := status_of a in
  if match a with inl _ => negb (RetryableStatus status) | inr _ => false end
  then ([Sent n], inl (returned a))
  else match ctx_Err w n with
  | Some e => (Sent n :: closeBody n a, inl (None, Some e))
  | None =>
      if match a with inr e => negb (NoAnswer (Some e)) | inl _ => false end
      then ([Sent n], inl (None, answer_err a))
      else
        let ambiguous := negb (Idempotent c) && negb (status =? 429)%Z in
        if ambiguous then
          match ReadBack c with
          | None => ([Sent n], inl (returned a))
          | Some readBack =>
              match readBack n with
              | (true, None) => (Sent n :: ReadBackAsked n :: closeBody n a, inl (Some landed, None))
              | _ => ([Sent n; ReadBackAsked n], inl (returned a))
              end
          end
        else if (attempts <=? Z.of_nat n + 1)%Z then ([Sent n], inl (returned a))
        else (Sent n :: closeBody n a, inr (Backoff (Int64N w n) p (Z.of_nat n)))
  end.

Fixpoint do_loop (fuel : nat) (w : Env) (p : Policy) (c : Call) (attempts : Z) (n : nat)
    : option (list Event * Result) :=
  match fuel with
  | O => None
  | S fuel =>
      match turn w p c attempts n with
      | (evs, inl r) => Some (evs, r)
      | (evs, inr wait) =>
          let evs := evs ++ [Waited wait] in
          match sleep w n wait with
          | Some e => Some (evs, (None, Some e))
          | None =>
              match do_loop fuel w p c attempts (S n) with
              | Some (evs', r) => Some (evs ++ evs', r)
              | None => None
              end
          end
      end
  end.

Definition Do (w : Env) (p : Policy) (c : Call) : option (list Event * Result) :=
  let attempts := Z.max (Attempts p) 1 in
  do_loop (Z.to_nat attempts) w p c attempts 0.

(** ** Retry states *)
Definition minute : Z := 60 * 10^9.
Definition OutboxRetry : Policy :=
  {| Attempts := 6; Base := minute; Max := 30 * minute; Timeout := 0 |}.
Definition AddonResend : Policy :=
  {| Attempts := 2; Base := 10 * 10^9; Max := 10 * 10^9; Timeout := 0 |}.

Definition RetryRetrying : string := "retrying".
Definition RetryWaiting : string := "waiting".

Record RetryState := {
  State : string;
  Try : Z;
  Of : Z;
  NextTry : option Z;
}.

Definition Retrying (p : Policy) (tried : Z) (next : option Z) : RetryState :=
  if (Attempts p <=? tried)%Z
  then {| State := RetryWaiting; Try := tried; Of := Attempts p; NextTry := None |}
  else {| State := RetryRetrying; Try := tried + 1; Of := Attempts p; NextTry := next |}.

Definition NextTryAfter (Int64N : Z → Z) (p : Policy) (now tried : Z) : Z :=
  now + Backoff Int64N p (tried - 1).

Definition AuditMark (p : Policy) (try : Z) : gmap string (string + Z) :=
  <["retried_by" := inl "automatic"]> (<["try" := inr try]> (<["of" := inr (Attempts p)]> ∅)).

(** ** Facts *)
Lemma wrap64_id z : (- 2^63 <= z < 2^63)%Z → wrap64 z = z.
Proof. unfold wrap64. intros. rewrite Z.mod_small by lia. lia. Qed.

Lemma doubled_spec spent max d :
  (0 < d)%Z → (max <= 2^62)%Z →
  ((d <= max → doubled spent max d <= 2 * max)%Z ∧
   Z.min max (doubled spent max d) = Z.min max (d * 2 ^ Z.of_nat spent))%Z.
Proof.
  intros Hd Hmax. revert d Hd; induction spent as [|spent IH]; intros d Hd; simpl doubled.
  { change (2 ^ Z.of_nat 0)%Z with 1%Z. lia. }
  assert (Hp : (2 ^ Z.of_nat (S spent) = 2 * 2 ^ Z.of_nat spent)%Z).
  { rewrite Nat2Z.inj_succ, Z.pow_succ_r; lia. }
  pose proof (Z.pow_pos_nonneg 2 (Z.of_nat spent) ltac:(lia) ltac:(lia)).
  destruct (Z.ltb_spec d max) as [Hlt|Hge].
  - rewrite wrap64_id by lia. destruct (IH (d * 2)%Z ltac:(lia)) as [Hle Hmin]. split.
    + intros _. destruct (Z.le_gt_cases (d * 2) max) as [|Hgt]; [auto|].
      destruct spent; simpl; [lia|]. destruct (Z.ltb_spec (d * 2) max); lia.
    + rewrite Hmin, Hp. f_equal. lia.
  - split; [lia|]. rewrite Hp. rewrite !Z.min_l; nia.
Qed.

(** The wait before jitter. *)
Definition cap (p : Policy) (spent : Z) : Z := Z.min (Max p) (Base p * 2 ^ Z.max 0 spent).

Lemma Backoff_within Int64N `{!RandLaw Int64N} p spent :
  (0 < Base p)%Z → (0 < Max p <= 2^62)%Z →
  (cap p spent / 2 <= Backoff Int64N p spent <= cap p spent)%Z.
Proof.
  intros Hb Hm. unfold Backoff, cap.
  destruct (doubled_spec (Z.to_nat spent) (Max p) (Base p) Hb ltac:(lia)) as [_ Hmin].
  replace (Z.of_nat (Z.to_nat spent)) with (Z.max 0 spent) in Hmin by lia.
  set (c := Z.min (Max p) (Base p * 2 ^ Z.max 0 spent)) in *.
  assert (Hc : (if (0 <? Max p)%Z && (Max p <? doubled (Z.to_nat spent) (Max p) (Base p))%Z
               then Max p else doubled (Z.to_nat spent) (Max p) (Base p)) = c).
  { destruct (Z.ltb_spec 0 (Max p)), (Z.ltb_spec (Max p) (doubled (Z.to_nat spent) (Max p) (Base p)));
      simpl; lia. }
  rewrite Hc. assert (Hcpos : (1 <= c <= 2^62)%Z).
  { pose proof (Z.pow_pos_nonneg 2 (Z.max 0 spent) ltac:(lia) ltac:(lia)). subst c. nia. }
  destruct (Z.leb_spec c 1) as [|Hgt]; [assert (c = 1)%Z as -> by lia; by vm_compute|].
  rewrite (Z.quot_div_nonneg c 2) by lia.
  pose proof (Z.div_mod c 2 ltac:(lia)). pose proof (Z.mod_pos_bound c 2 ltac:(lia)).
  rewrite (wrap64_id (c - c / 2)) by lia. rewrite (wrap64_id (c - c / 2 + 1)) by lia.
  pose proof (Int64N_range (c - c / 2 + 1) ltac:(lia)). rewrite wrap64_id by lia. lia.
Qed.

(** An attempt another try may follow: a read that got no final answer, or a
    write the other side said it did not process. *)
Definition may_resend (c : Call) (a : Answer) : bool :=
  match a with
  | inl r => RetryableStatus (StatusCode r) && (Idempotent c || (StatusCode r =? 429)%Z)
  | inr e => NoAnswer (Some e) && Idempotent c
  end.

(** A read-back proved that the unanswered write of attempt [n] landed. *)
Definition proved_landed (c : Call) (n : nat) (a : Answer) : Prop :=
  Idempotent c = false ∧ status_of a ≠ 429%Z ∧ ∃ f, ReadBack c = Some f ∧ f n = (true, None).

Definition sends (evs : list Event) : list nat :=
  omap (λ e, match e with Sent n => Some n | _ => None end) evs.
Definition closes (evs : list Event) : list nat :=
  omap (λ e, match e with Closed n => Some n | _ => None end) evs.

(** How a call whose last attempt is [n] may end. *)
Inductive ends_with (w : Env) (p : Policy) (c : Call) (n : nat) : Result → Prop :=
  | ends_answer :
      may_resend c (attempt w p n) = false ∨ (Z.max (Attempts p) 1 = Z.of_nat n + 1)%Z →
      ends_with w p c n (returned (attempt w p n))
  | ends_landed :
      proved_landed c n (attempt w p n) → ends_with w p c n (Some landed, None)
  | ends_given_up e :
      ctx_Err w n = Some e → ends_with w p c n (None, Some e)
  | ends_interrupted d e :
      sleep w n d = Some e → may_resend c (attempt w p n) = true → ends_with w p c n (None, Some e).

(** The bodies closed after attempt [n]: its own, unless it is the answer returned. *)
Definition last_closes (w : Env) (p : Policy) (n : nat) (r : Result) : list nat :=
  match attempt w p n with
  | inl a => if bool_decide (r.1 = Some a ∧ r.2 = None) then [] else [n]
  | inr _ => []
  end.
Definition opened (w : Env) (p : Policy) (ns : list nat) : list nat :=
  filter (λ n, is_Some (answer_resp (attempt w p n))) ns.

Lemma closes_closeBody w p n : closes (closeBody n (attempt w p n)) = opened w p [n].
Proof. unfold opened, closeBody. rewrite filter_cons. destruct (attempt w p n); [by rewrite decide_True by done|].
  rewrite decide_False; [done|]. by intros [??]. Qed.

Lemma turn_waits w p c attempts n evs d :
  turn w p c attempts n = (evs, inr d) →
  evs = Sent n :: closeBody n (attempt w p n) ∧ may_resend c (attempt w p n) = true ∧
  (Z.of_nat n + 1 < attempts)%Z ∧ d = Backoff (Int64N w n) p (Z.of_nat n).
Proof.
  unfold turn, may_resend, status_of. destruct (attempt w p n) as [r|e]; cbn zeta.
  - destruct (RetryableStatus (StatusCode r)); simpl; [|done]. destruct (ctx_Err w n); [done|].
    destruct (Idempotent c), (Z.eqb_spec (StatusCode r) 429); simpl;
      try (intros; by repeat case_match);
      destruct (Z.leb_spec attempts (Z.of_nat n + 1)); intros; simplify_eq; done.
  - destruct (ctx_Err w n); [done|]. destruct (NoAnswer (Some e)); simpl; [|done].
    destruct (Idempotent c); simpl; [|intros; by repeat case_match].
    destruct (Z.leb_spec attempts (Z.of_nat n + 1)); intros; simplify_eq; done.
Qed.

Lemma returned_closes w p n : last_closes w p n (returned (attempt w p n)) = [].
Proof. unfold last_closes. destruct (attempt w p n); simpl; [by rewrite bool_decide_true|done]. Qed.
Lemma failed_closes w p n e : last_closes w p n (None, Some e) = opened w p [n].
Proof.
  rewrite <-closes_closeBody. unfold last_closes. by destruct (attempt w p n).
Qed.
Lemma landed_closes w p n :
  RetryableStatus (status_of (attempt w p n)) = true ∨ is_Some (answer_err (attempt w p n)) →
  last_closes w p n (Some landed, None) = opened w p [n].
Proof.
  rewrite <-closes_closeBody. unfold last_closes. destruct (attempt w p n); simpl; [|done].
  intros [Hr|[??]]; [|done]. rewrite bool_decide_false; [done|]. intros [[= <-] _]. by vm_compute in Hr.
Qed.

Lemma turn_ends w p c n evs r :
  (Z.of_nat n < Z.max (Attempts p) 1)%Z →
  turn w p c (Z.max (Attempts p) 1) n = (evs, inl r) →
  ends_with w p c n r ∧ sends evs = [n] ∧ closes evs = last_closes w p n r.
Proof.
  intros Hn. unfold turn. cbn zeta.
  assert (Hret : may_resend c (attempt w p n) = false ∨ (Z.max (Attempts p) 1 = Z.of_nat n + 1)%Z →
                 ends_with w p c n (returned (attempt w p n)) ∧ sends [Sent n] = [n] ∧
                 closes [Sent n] = last_closes w p n (returned (attempt w p n))).
  { intros. rewrite returned_closes. split_and!; [by apply ends_answer|done..]. }
  pose proof (closes_closeBody w p n) as Hcb. pose proof (failed_closes w p n) as Hfail.
  pose proof (landed_closes w p n) as Hland.
  assert (Hsends : sends (closeBody n (attempt w p n)) = []) by (by destruct (attempt w p n)).
  assert (Hgiven : ∀ e, ctx_Err w n = Some e → ends_with w p c n (None, Some e)) by (intros; by apply ends_given_up).
  assert (Hlanded : proved_landed c n (attempt w p n) → ends_with w p c n (Some landed, None)) by apply ends_landed.
  revert Hret Hcb Hfail Hland Hsends Hgiven Hlanded.
  unfold may_resend, proved_landed. destruct (attempt w p n) as [a|e]; simpl; intros Hret Hcb Hfail Hland Hsends Hgiven Hlanded.
  - destruct (RetryableStatus (StatusCode a)); simpl; [|intros; simplify_eq; by apply Hret; left].
    destruct (ctx_Err w n) as [e|] eqn:Hc; [intros; simplify_eq/=; rewrite Hfail; auto|].
    destruct (Idempotent c), (Z.eqb_spec (StatusCode a) 429); simpl in *;
      try (destruct (Z.leb_spec (Z.max (Attempts p) 1) (Z.of_nat n + 1)); intros; simplify_eq; apply Hret; right; lia).
    destruct (ReadBack c) as [f|]; [destruct (f n) as [[] [e|]] eqn:Hf|]; intros; simplify_eq/=;
      try (by apply Hret; left). rewrite Hland by auto. eauto 10.
  - destruct (ctx_Err w n) as [e'|] eqn:Hc; [intros; simplify_eq/=; rewrite Hfail; auto|].
    simpl in *. destruct (if is_Canceled e then _ else _); simpl; [|intros; simplify_eq; by apply Hret; left].
    destruct (Idempotent c); simpl in *.
    { destruct (Z.leb_spec (Z.max (Attempts p) 1) (Z.of_nat n + 1)); intros; simplify_eq; apply Hret; right; lia. }
    destruct (ReadBack c) as [f|]; [destruct (f n) as [[] [e'|]] eqn:Hf|]; intros; simplify_eq/=;
      try (by apply Hret; left). rewrite Hland by eauto. eauto 10.
Qed.

(** The loop from attempt [n] with enough fuel: it ends at some attempt [m],
    having sent each of [n..m] once and closed every earlier body. *)
Lemma do_loop_spec w p c fuel n :
  (Z.of_nat n + Z.of_nat fuel = Z.max (Attempts p) 1)%Z → fuel ≠ 0 →
  ∃ evs r k, do_loop fuel w p c (Z.max (Attempts p) 1) n = Some (evs, r) ∧ k < fuel ∧
    ends_with w p c (n + k) r ∧ sends evs = seq n (S k) ∧
    (∀ i, n ≤ i < n + k → may_resend c (attempt w p i) = true) ∧
    closes evs = opened w p (seq n k) ++ last_closes w p (n + k) r.
Proof.
  revert n; induction fuel as [|fuel IH]; intros n Hf ?; [done|]. simpl do_loop.
  destruct (turn w p c (Z.max (Attempts p) 1) n) as [evs [r|d]] eqn:Ht.
  - apply turn_ends in Ht as (He & Hs & Hc); [|lia].
    exists evs, r, 0. rewrite Nat.add_0_r. split_and!; try done; lia.
  - apply turn_waits in Ht as (-> & Hm & Hlt & ->). set (d := Backoff _ _ _).
    assert (Hsnd : sends (closeBody n (attempt w p n)) = []) by (by destruct (attempt w p n)).
    pose proof (closes_closeBody w p n) as Hcb. unfold sends, closes in *.
    destruct (sleep w n d) as [e|] eqn:Hsl.
    + eexists _, (None, Some e), 0. rewrite Nat.add_0_r, failed_closes. split_and!; [done|lia| | |lia|].
      * by eapply ends_interrupted.
      * simpl. by rewrite omap_app, Hsnd.
      * simpl. by rewrite omap_app, Hcb, app_nil_r.
    + destruct (IH (S n)) as (evs & r & k & -> & Hk & He & Hs & Hr & Hc); [lia..|].
      eexists _, r, (S k). rewrite <-Nat.add_succ_comm.
      split_and!; [done|lia|done| | |].
      * simpl. by rewrite !omap_app, Hsnd, Hs.
      * intros i Hi. destruct (decide (i = n)) as [->|]; [done|]. apply Hr. lia.
      * simpl. rewrite !omap_app, Hcb, Hc, app_nil_r. simpl. unfold opened. by rewrite app_assoc, <-filter_app.
Qed.

(** ** Properties *)

(** The n-th retry of a change is due within the policy's own window:
    after half of min(Max, Base doubled n-1 times) at the earliest and that
    whole wait at the latest, for every draw of the random source and with no
    int64 overflow while Max is at most 2^62 nanoseconds. *)
Theorem NextTryAfter_window (draw : Z → Z) (p : Policy) (now tried : Z) :
  RandLaw draw → (0 < Base p)%Z → (0 < Max p <= 2^62)%Z → (1 <= tried)%Z →
  (now + cap p (tried - 1) / 2 <= NextTryAfter draw p now tried <= now + cap p (tried - 1))%Z.
Proof. intros. unfold NextTryAfter. pose proof (Backoff_within draw p (tried - 1)). lia. Qed.

Lemma NextTryAfter_window_witness :
  (0 + 4 * minute / 2 <= NextTryAfter (λ n, n - 1) OutboxRetry 0 3 <= 0 + 4 * minute)%Z.
Proof.
  apply (NextTryAfter_window (λ n, n - 1)%Z OutboxRetry 0 3); [|by vm_compute..].
  unfold RandLaw. lia.
Defined.

(** Do always returns, after sending each of the attempts 0..n once and no
    other, with n below the policy's limit. Every attempt that was followed by
    another was one it is harmless to repeat: a read with no final answer, or
    an answer 429 ("not processed"). So no write is ever sent again after an
    ambiguous failure. The result is the last attempt's own answer or error,
    the caller's own cancellation, or success proved by the read-back. *)
Theorem Do_spec (w : Env) (p : Policy) (c : Call) :
  ∃ evs r n, Do w p c = Some (evs, r) ∧ (Z.of_nat n < Z.max (Attempts p) 1)%Z ∧
    sends evs = seq 0 (S n) ∧ ends_with w p c n r ∧
    (∀ i, i < n → may_resend c (attempt w p i) = true) ∧
    (Idempotent c = false → ∀ i, i < n → status_of (attempt w p i) = 429%Z).
Proof.
  destruct (do_loop_spec w p c (Z.to_nat (Z.max (Attempts p) 1)) 0) as (evs & r & n & H & ? & ? & ? & Hr & _);
    [lia..|].
  exists evs, r, n. split_and!; [done|lia|done|done|intros; apply Hr; lia|].
  intros Hi i Hin. specialize (Hr i ltac:(lia)). revert Hr. unfold may_resend. rewrite Hi.
  destruct (attempt w p i); simpl; [|by rewrite andb_false_r]. intros [_ ?]%andb_prop. lia.
Qed.

(** No answer's body is leaked: when Do returns, the bodies it closed are
    exactly those of the attempts that got an answer, except the answer it
    hands to the caller. *)
Theorem Do_closes_bodies (w : Env) (p : Policy) (c : Call) :
  ∃ evs r n, Do w p c = Some (evs, r) ∧ sends evs = seq 0 (S n) ∧
    closes evs = opened w p (seq 0 n) ++ last_closes w p n r.
Proof.
  destruct (do_loop_spec w p c (Z.to_nat (Z.max (Attempts p) 1)) 0) as (evs & r & n & H & _ & _ & ? & _ & ?);
    [lia..|].
  by exists evs, r, n.
Qed.
