(* ===== verification/MutationLog.v ===== *)
(** * MutationLog: the add-on's hash-chained record of what it did

    addons/truenas/mutationlog.go. The directory is a map from file names to
    bytes; a call that the operating system may fail has a flag in [Faults]. The
    JSON encoding of a record and the texts of a time are classes with the
    behaviour the code relies on; SHA-256 is a parameter. Creating the directory
    and the mode of the files are not modelled. *)

From S2P Require Import Prelude Fingerprint.

Record Record_ := {
  Seq : N;                              (* uint64 *)
  At : string;
  Operation : string;
  Subject : string;
  Actor : string;
  CallID : string;
  Outcome : string;
  Prev : string;
  Digest : string;
}.

Definition newline : ascii := ascii_of_N 10.
Definition logFileName : string := "mutations.log".
Definition defaultLogMaxSize : Z := 8 * 2^20.
Definition defaultLogKeep : nat := 24.

(** encoding/json on a record: one line, read back as it was written. The
    decoder replaces invalid UTF-8, so this holds of texts that are valid. *)
Class LogCodec := {
  Marshal : Record_ → string;
  Unmarshal : string → option Record_;
  utf8 : string → bool;
  Marshal_one_line r : lacks newline (Marshal r);
  Marshal_trimmed r : TrimSpace (Marshal r) = Marshal r;
  Marshal_object r : Marshal r ≠ "";
  Unmarshal_Marshal r :
    forallb utf8 [At r; Operation r; Subject r; Actor r; CallID r; Outcome r; Prev r; Digest r] = true →
    Unmarshal (Marshal r) = Some r;
}.
(** The texts of a time, in nanoseconds since 1970: RFC3339Nano, and the
    zero-padded UTC suffix of a rotated file, whose byte order is that of the
    times an int64 holds. *)
Class Clock := {
  rfc3339 : Z → string;
  stamp : Z → string;
  stamp_later t u : (0 <= t < u)%Z → (u < 2^63)%Z → String.compare (stamp t) (stamp u) = Lt;
}.

(** ** Lines *)
Fixpoint split_lines (s : string) : list string * string :=
  match s with
  | "" => ([], "")
  | String c s =>
      let '(ls, rest) := split_lines s in
      if bool_decide (c = newline) then ("" :: ls, rest)
      else match ls with [] => ([], String c rest) | l :: ls => (String c l :: ls, rest) end
  end.
Fixpoint unlines (ls : list string) : string :=
  match ls with [] => "" | l :: ls => l +:+ String newline (unlines ls) end.
(** bufio.Scanner with a buffer of a mebibyte: the lines up to the first that
    does not fit, and whether there was one. *)
Definition maxLine : nat := Z.to_nat (2^20).
Fixpoint fitting (ls : list string) : list string * bool :=
  match ls with
  | [] => ([], true)
  | l :: ls => if maxLine <=? String.length l then ([], false) else let '(xs, ok) := fitting ls in (l :: xs, ok)
  end.
Definition scan (data : string) : list string * bool :=
  let '(ls, rest) := split_lines data in fitting (ls ++ if rest =? "" then [] else [rest]).

(** ** The log *)
Notation Dir := (gmap string string).
Record MutationLog := {
  maxBytes : Z;
  keep : nat;
  open_ : bool;                         (* the handle works *)
  size_ : Z;
  seq : N;
  head_ : string;
}.
Record Faults := {
  f_open : bool; f_truncate : bool; f_stat : bool;
  f_write : option nat;                 (* failed after so many bytes *)
  f_sync : bool;
  f_rollback : bool;
  f_rotate_sync : bool; f_close : bool; f_rename : bool; f_reopen : bool; f_create : bool;
  f_remove : string → bool;
}.
Inductive LogError :=
  | err_open | err_truncate | err_stat | err_scan | err_sync | err_close | err_rename | err_create | err_prune
  | err_write | err_fsync.

Definition rotated_files (d : Dir) : list string :=
  sort_strings (filter (λ n, HasPrefix n (logFileName +:+ ".") = true) (elements (dom d))).
Definition segmentsNewestFirst (d : Dir) : list string := logFileName :: rev (rotated_files d).

Section log.
Context (sha256hex : string → string) `{!LogCodec, !Clock}.

Definition digested (r : Record_) : list string :=
  [pretty (Seq r); At r; Operation r; Subject r; Actor r; CallID r; Outcome r; Prev r].
Definition digestOf (r : Record_) : string := Fingerprint sha256hex (digested r).
(** Two records of these lists are a collision of SHA-256. *)
Definition collide (rs rs' : list Record_) : Prop :=
  ∃ x y, x ∈ rs ∧ y ∈ rs' ∧ collision sha256hex (encode_fields (digested x)) (encode_fields (digested y)).

(** ** Opening *)
Definition keeps_line (l : string) : bool :=
  let line := TrimSpace l in (line =? "") || bool_decide (is_Some (Unmarshal line)).
Fixpoint good_lines (ls : list string) : list string :=
  match ls with
  | [] => []
  | l :: ls => match good_lines ls with [] => if keeps_line l then [l] else [] | xs => l :: xs end
  end.
Definition truncateTornTail (d : Dir) (f : Faults) : Dir * option LogError :=
  let data := default "" (d !! logFileName) in
  let kept := unlines (good_lines (split_lines data).1) in
  if kept =? data then (d, None)
  else if f_truncate f then (d, Some err_truncate)
  else (<[logFileName := kept]> d, if f_sync f then Some err_sync else None).
Definition last_record (ls : list string) : option Record_ :=
  last (omap (λ l, let line := TrimSpace l in if line =? "" then None else Unmarshal line) ls).
Definition lastRecordIn (d : Dir) (name : string) : LogError + option Record_ :=
  match d !! name with
  | None => inr None
  | Some data => let '(ls, ok) := scan data in if ok then inr (last_record ls) else inl err_scan
  end.
Fixpoint recoverHead (d : Dir) (segments : list string) : LogError + N * string :=
  match segments with
  | [] => inr (0%N, "")
  | name :: segments =>
      match lastRecordIn d name with
      | inl e => inl e
      | inr (Some r) => inr (Seq r, Digest r)
      | inr None => recoverHead d segments
      end
  end.
Definition OpenMutationLog (d : Dir) (max : Z) (k : nat) (f : Faults) : Dir * (LogError + MutationLog) :=
  if f_open f then (d, inl err_open)
  else
    let d := match d !! logFileName with None => <[logFileName := ""]> d | Some _ => d end in
    match truncateTornTail d f with
    | (d, Some e) => (d, inl e)
    | (d, None) =>
        if f_stat f then (d, inl err_stat)
        else match recoverHead d (segmentsNewestFirst d) with
        | inl e => (d, inl e)
        | inr (n, h) =>
            (d, inr {| maxBytes := if (max <=? 0)%Z then defaultLogMaxSize else max;
                       keep := if k =? 0 then defaultLogKeep else k; open_ := true;
                       size_ := Z.of_nat (String.length (default "" (d !! logFileName))); seq := n; head_ := h |})
        end
    end.

(** ** Rotation *)
Fixpoint remove_files (d : Dir) (f : Faults) (names : list string) : Dir * bool :=
  match names with
  | [] => (d, true)
  | n :: names => if f_remove f n then (d, false) else remove_files (delete n d) f names
  end.
Definition pruneLocked (d : Dir) (k : nat) (f : Faults) : Dir * option LogError :=
  let entries := rotated_files d in
  if length entries <=? k then (d, None)
  else let '(d, ok) := remove_files d f (take (length entries - k) entries) in (d, if ok then None else Some err_prune).
Definition with_handle (l : MutationLog) (o : bool) (n : Z) : MutationLog :=
  {| maxBytes := maxBytes l; keep := keep l; open_ := o; size_ := n; seq := seq l; head_ := head_ l |}.
Definition rotateIfNeededLocked (d : Dir) (l : MutationLog) (now : Z) (f : Faults) : Dir * MutationLog * option LogError :=
  if (size_ l <? maxBytes l)%Z then (d, l, None)
  else if negb (open_ l) || f_rotate_sync f then (d, l, Some err_sync)
  else if f_close f then (d, with_handle l false (size_ l), Some err_close)
  else
    let data := default "" (d !! logFileName) in
    if f_rename f then
      (d, if f_reopen f then with_handle l false (size_ l)
          else with_handle l true (if f_stat f then size_ l else Z.of_nat (String.length data)), Some err_rename)
    else
      let d := <[logFileName +:+ "." +:+ stamp now := data]> (delete logFileName d) in
      if f_create f then (d, with_handle l false (size_ l), Some err_create)
      else
        let '(d, e) := pruneLocked (<[logFileName := ""]> d) (keep l) f in
        (d, with_handle l true 0, e).

(** ** Appending *)
Definition wrap64 (n : N) : N := (n mod 2^64)%N.
Definition next_record (l : MutationLog) (now : Z) (operation subject actor callID outcome : string) : Record_ :=
  let r d := {| Seq := wrap64 (seq l + 1); At := rfc3339 now; Operation := operation; Subject := subject; Actor := actor;
                CallID := callID; Outcome := outcome; Prev := head_ l; Digest := d |} in
  r (digestOf (r "")).
Definition write_live (d : Dir) (bytes : string) : Dir := <[logFileName := default "" (d !! logFileName) +:+ bytes]> d.
Definition rollbackLocked (d : Dir) (l : MutationLog) (f : Faults) : Dir :=
  if f_rollback f || negb (open_ l) then d
  else <[logFileName := substring 0 (Z.to_nat (size_ l)) (default "" (d !! logFileName))]> d.
Definition Append (d : Dir) (l : MutationLog) (now : Z) (f : Faults) (operation subject actor callID outcome : string)
    : Dir * MutationLog * (LogError + Record_) :=
  match rotateIfNeededLocked d l now f with
  | (d, l, Some e) => (d, l, inl e)
  | (d, l, None) =>
      let r := next_record l now operation subject actor callID outcome in
      let line := Marshal r +:+ String newline "" in
      if negb (open_ l) then (rollbackLocked d l f, l, inl err_write)
      else match f_write f with
      | Some n => (rollbackLocked (write_live d (substring 0 n line)) l f, l, inl err_write)
      | None =>
          let d := write_live d line in
          if f_sync f then (rollbackLocked d l f, l, inl err_fsync)
          else (d, {| maxBytes := maxBytes l; keep := keep l; open_ := open_ l;
                      size_ := size_ l + Z.of_nat (String.length line); seq := Seq r; head_ := Digest r |}, inr r)
      end
  end.
Definition Head (l : MutationLog) : string * N := (head_ l, seq l).

(** ** Verifying *)
Inductive Broken := not_readable (n : N) | missing_record (n m : N) | does_not_follow (n : N) | altered (n : N) | too_long.
Fixpoint verify_lines (prev : string) (expectSeq : N) (ls : list string) : Broken + string * N :=
  match ls with
  | [] => inr (prev, expectSeq)
  | l :: ls =>
      let line := TrimSpace l in
      if line =? "" then verify_lines prev expectSeq ls
      else match Unmarshal line with
      | None => inl (not_readable expectSeq)
      | Some r =>
          let '(expectSeq, prev) := if (expectSeq =? 0)%N then (Seq r, Prev r) else (expectSeq, prev) in
          if negb (Seq r =? expectSeq)%N then inl (missing_record expectSeq (Seq r))
          else if Prev r <>? prev then inl (does_not_follow (Seq r))
          else if Digest r <>? digestOf r then inl (altered (Seq r))
          else verify_lines (Digest r) (wrap64 (expectSeq + 1)) ls
      end
  end.
Definition verifySegment (d : Dir) (name prev : string) (expectSeq : N) : Broken + string * N :=
  match d !! name with
  | None => inr (prev, expectSeq)
  | Some data =>
      let '(ls, ok) := scan data in
      match verify_lines prev expectSeq ls with
      | inl e => inl e
      | inr x => if ok then inr x else inl too_long
      end
  end.
Fixpoint verify_segments (d : Dir) (names : list string) (prev : string) (expectSeq : N) : Broken + string * N :=
  match names with
  | [] => inr (prev, expectSeq)
  | n :: names =>
      match verifySegment d n prev expectSeq with
      | inl e => inl e
      | inr (prev, expectSeq) => verify_segments d names prev expectSeq
      end
  end.
Definition VerifyLog (d : Dir) : option Broken :=
  match verify_segments d (rotated_files d ++ [logFileName]) "" 0 with inl e => Some e | inr _ => None end.
Definition VerifyChain (d : Dir) (name : string) : option Broken :=
  match verifySegment d name "" 0 with inl e => Some e | inr _ => None end.

(** ** Facts: lines *)
Lemma split_lines_app l s :
  lacks newline l → split_lines (l +:+ String newline s) = let '(ls, rest) := split_lines s in (l :: ls, rest).
Proof.
  intros Hl. induction l as [|c l IH]; cbn [String.app].
  - rewrite string_app_nil. cbn [split_lines]. by destruct (split_lines s).
  - destruct Hl as [Hc Hl]. rewrite string_app_cons. cbn [split_lines]. rewrite (IH Hl). destruct (split_lines s).
    by rewrite bool_decide_false.
Qed.
Lemma split_lines_tail s : lacks newline s → split_lines s = ([], s).
Proof.
  induction s as [|c s IH]; [done|]. intros [Hc Hs]. cbn [split_lines]. rewrite IH by done. by rewrite bool_decide_false.
Qed.
Lemma split_unlines ls rest :
  Forall (lacks newline) ls → lacks newline rest → split_lines (unlines ls +:+ rest) = (ls, rest).
Proof.
  induction ls as [|l ls IH]; intros Hls Hr; cbn [unlines]; [rewrite string_app_nil; by apply split_lines_tail|].
  apply Forall_cons in Hls as [Hl Hls]. rewrite string_app_assoc, string_app_cons, split_lines_app by done. by rewrite IH.
Qed.
Lemma unlines_app ls ls' : unlines (ls ++ ls') = unlines ls +:+ unlines ls'.
Proof.
  induction ls as [|l ls IH]; cbn [unlines app]; [by rewrite string_app_nil|].
  by rewrite IH, string_app_assoc, string_app_cons.
Qed.
Lemma fitting_all ls : Forall (λ l, String.length l < maxLine) ls → fitting ls = (ls, true).
Proof.
  induction 1 as [|l ls Hl _ IH]; [done|]. cbn [fitting]. rewrite (proj2 (Nat.leb_gt _ _)) by done. by rewrite IH.
Qed.

Lemma string_nil_r (s : string) : s +:+ "" = s.
Proof. induction s as [|c s IH]; [done|]. by rewrite string_app_cons, IH. Qed.

(** ** Facts: a chain as lines *)
Definition encodable (r : Record_) : Prop :=
  forallb utf8 [At r; Operation r; Subject r; Actor r; CallID r; Outcome r; Prev r; Digest r] = true ∧
  String.length (Marshal r) < maxLine.
Definition text (rs : list Record_) : string := unlines (Marshal <$> rs).
Fixpoint chained (prev : string) (n : N) (rs : list Record_) : Prop :=
  match rs with
  | [] => True
  | r :: rs => Seq r = (n + 1)%N ∧ Prev r = prev ∧ Digest r = digestOf r ∧ chained (Digest r) (Seq r) rs
  end.
(** Where a chain that starts from these leaves off. *)
Definition chain_end (prev : string) (n : N) (rs : list Record_) : string * N :=
  match last rs with Some r => (Digest r, Seq r) | None => (prev, n) end.

Lemma chained_app prev n rs rs' :
  chained prev n (rs ++ rs') ↔ chained prev n rs ∧ chained (chain_end prev n rs).1 (chain_end prev n rs).2 rs'.
Proof.
  revert prev n. induction rs as [|r rs IH]; intros prev n; simpl; [tauto|]. rewrite IH. unfold chain_end.
  rewrite last_cons. destruct (last rs); simpl; tauto.
Qed.
Lemma chained_seq prev n rs : chained prev n rs → (chain_end prev n rs).2 = (n + N.of_nat (length rs))%N.
Proof.
  revert prev n. induction rs as [|r rs IH]; intros prev n; simpl; [intros; unfold chain_end; simpl; lia|].
  intros (Hs & _ & _ & Hc%IH). revert Hc. unfold chain_end. rewrite last_cons. destruct (last rs); simpl; lia.
Qed.

Lemma Marshal_lines rs : Forall (lacks newline) (Marshal <$> rs).
Proof. apply Forall_fmap, Forall_true. intros r. apply Marshal_one_line. Qed.
Lemma encodable_fit rs : Forall encodable rs → Forall (λ l, String.length l < maxLine) (Marshal <$> rs).
Proof. intros He. apply Forall_fmap. eapply Forall_impl; [exact He|]. intros r [_ Hl]. exact Hl. Qed.
Lemma scan_text rs : Forall encodable rs → scan (text rs) = (Marshal <$> rs, true).
Proof.
  intros He. unfold scan, text. rewrite <-(string_nil_r (unlines _)). rewrite split_unlines by (apply Marshal_lines || done).
  rewrite app_nil_r. by apply fitting_all, encodable_fit.
Qed.
Lemma read_line r : encodable r →
  TrimSpace (Marshal r) = Marshal r ∧ (Marshal r =? "") = false ∧ Unmarshal (Marshal r) = Some r.
Proof.
  intros [Hu _]. split_and!; [apply Marshal_trimmed| |by apply Unmarshal_Marshal].
  apply bool_decide_eq_false, Marshal_object.
Qed.
Lemma last_record_text rs : Forall encodable rs → last_record (Marshal <$> rs) = last rs.
Proof.
  intros He. unfold last_record. f_equal. induction He as [|r rs Hr _ IH]; [done|]. csimpl.
  destruct (read_line r Hr) as (-> & -> & ->). by rewrite IH.
Qed.
Lemma good_lines_text rs rest : Forall encodable rs → good_lines rest = [] → good_lines ((Marshal <$> rs) ++ rest) = Marshal <$> rs.
Proof.
  intros He Hr. induction He as [|r rs Hx _ IH]; csimpl; [done|]. rewrite IH. unfold keeps_line.
  destruct (read_line r Hx) as (-> & -> & ->). simpl. by destruct (Marshal <$> rs).
Qed.
(** Verifying a chain's lines: from where the chain starts, or from nowhere. *)
Lemma verify_lines_text prev n rs rest :
  Forall encodable rs → chained prev n rs → (n + N.of_nat (length rs) + 1 < 2^64)%N → n ≠ 0%N ∨ prev = "" →
  verify_lines prev (n + 1) ((Marshal <$> rs) ++ rest) =
    verify_lines (chain_end prev n rs).1 ((chain_end prev n rs).2 + 1) rest.
Proof.
  intros He. revert prev n. induction He as [|r rs Hx _ IH]; intros prev n Hc Hb Hz; [done|].
  destruct Hc as (Hs & Hp & Hd & Hc). csimpl. destruct (read_line r Hx) as (-> & -> & ->). cbv zeta.
  replace (n + 1 =? 0)%N with false by (symmetry; apply N.eqb_neq; lia).
  rewrite Hs, N.eqb_refl, Hp, Hd. cbn [negb]. rewrite !bool_decide_true by done. cbn [negb].
  simpl in Hb. unfold wrap64. rewrite N.mod_small by lia. rewrite <-Hs in *. rewrite <-Hd.
  rewrite IH; [|done|lia|left; lia]. unfold chain_end. rewrite last_cons. by destruct (last rs).
Qed.
Lemma verify_lines_adopt rs rest prev n :
  Forall encodable rs → chained prev n rs → (n + N.of_nat (length rs) + 1 < 2^64)%N → rs ≠ [] →
  verify_lines "" 0 ((Marshal <$> rs) ++ rest) = verify_lines (chain_end prev n rs).1 ((chain_end prev n rs).2 + 1) rest.
Proof.
  intros He Hc Hb Hne. destruct rs as [|r rs]; [done|]. pose proof He as [Hx Hrs]%Forall_cons. destruct Hc as (Hs & Hp & Hd & Hc).
  csimpl. destruct (read_line r Hx) as (-> & -> & ->). cbv zeta. cbn [N.eqb].
  rewrite N.eqb_refl, Hd. cbn [negb]. rewrite !bool_decide_true by done. cbn [negb].
  simpl in Hb. unfold wrap64. rewrite N.mod_small by lia. rewrite <-Hd. rewrite verify_lines_text; [|done|done|lia|left; lia].
  unfold chain_end. rewrite last_cons. by destruct (last rs).
Qed.

(** ** Facts: what a verified log pins down *)
Definition read_lines (ls : list string) : list Record_ :=
  omap (λ l, let line := TrimSpace l in if line =? "" then None else Unmarshal line) ls.
Lemma read_lines_text rs : Forall encodable rs → read_lines (Marshal <$> rs) = rs.
Proof. induction 1 as [|r rs Hr _ IH]; [done|]. csimpl. destruct (read_line r Hr) as (-> & -> & ->). by rewrite IH. Qed.
Definition segment_records (d : Dir) (name : string) : list Record_ :=
  match d !! name with Some data => read_lines (scan data).1 | None => [] end.
Definition log_records (d : Dir) : list Record_ := (rotated_files d ++ [logFileName]) ≫= segment_records d.

Definition follows (x y : Record_) : Prop := Prev y = Digest x ∧ Seq y = (Seq x + 1)%N.
(** Each record digests itself and follows the one before it. *)
Fixpoint linked (rs : list Record_) : Prop :=
  match rs with
  | [] => True
  | r :: rs => Digest r = digestOf r ∧ (∀ y, head rs = Some y → follows r y) ∧ linked rs
  end.
Lemma linked_app rs rs' :
  linked (rs ++ rs') ↔ linked rs ∧ linked rs' ∧ ∀ x y, last rs = Some x → head rs' = Some y → follows x y.
Proof.
  induction rs as [|r rs IH]; simpl; [split; [intros ?; split_and!; done|tauto]|]. rewrite IH. destruct rs as [|r0 rs].
  - simpl. split; [|naive_solver]. intros (? & Hh & _ & ? & _). split_and!; try done. intros x y [= <-]. apply Hh.
  - change (last (r :: r0 :: rs)) with (last (r0 :: rs)). simpl. naive_solver.
Qed.
Definition below_wrap (rs : list Record_) : Prop := ∀ r, r ∈ rs → (Seq r + 1 < 2^64)%N.
Lemma verify_lines_sound ls prev n p' n' :
  verify_lines prev n ls = inr (p', n') → below_wrap (read_lines ls) →
  linked (read_lines ls) ∧ (n ≠ 0%N → ∀ y, head (read_lines ls) = Some y → Prev y = prev ∧ Seq y = n) ∧
  (p', n') = match last (read_lines ls) with Some r => (Digest r, (Seq r + 1)%N) | None => (prev, n) end.
Proof.
  revert prev n. induction ls as [|l ls IH]; intros prev n; csimpl; [by intros [= <- <-]|].
  destruct (TrimSpace l =? ""); [apply IH|]. destruct (Unmarshal (TrimSpace l)) as [r|]; [|done]. intros E Hb.
  assert (Seq r + 1 < 2^64)%N as Hr by (apply Hb; left).
  set (st := if (n =? 0)%N then (Seq r, Prev r) else (n, prev)) in E.
  assert (st = (Seq r, Prev r) ∧ (n ≠ 0%N → Prev r = prev ∧ Seq r = n) ∧ Digest r = digestOf r ∧
    verify_lines (Digest r) (Seq r + 1) ls = inr (p', n')) as (_ & Hn & Hd & E').
  { unfold st in *. destruct (N.eqb_spec n 0) as [->|Hne]; cbv iota beta in E.
    - rewrite N.eqb_refl in E. cbn [negb] in E. rewrite bool_decide_true in E by done. cbn [negb] in E.
      destruct (Digest r =? digestOf r) eqn:Ed; [|done]. apply bool_decide_eq_true in Ed. cbn [negb] in E.
      unfold wrap64 in E. rewrite N.mod_small in E by lia. by split_and!.
    - destruct (N.eqb_spec (Seq r) n) as [En|]; [|done]. cbn [negb] in E. destruct (Prev r =? prev) eqn:Ep; [|done]. apply bool_decide_eq_true in Ep.
      cbn [negb] in E. destruct (Digest r =? digestOf r) eqn:Ed; [|done]. apply bool_decide_eq_true in Ed. cbn [negb] in E.
      unfold wrap64 in E. rewrite N.mod_small in E by lia. rewrite <-En in E. split_and!; congruence || done. }
  destruct (IH _ _ E') as (Hl & Hh & Ht). { intros x Hx. apply Hb. by right. }
  split_and!.
  - split; [done|]. split; [|done]. intros y Hy. apply Hh; [lia|done].
  - intros Hn0 y [= <-]. auto.
  - rewrite Ht, last_cons. by destruct (last (read_lines ls)).
Qed.
Lemma verify_segments_sound d names prev n p' n' :
  verify_segments d names prev n = inr (p', n') → below_wrap (names ≫= segment_records d) →
  linked (names ≫= segment_records d) ∧
  (n ≠ 0%N → ∀ y, head (names ≫= segment_records d) = Some y → Prev y = prev ∧ Seq y = n) ∧
  (p', n') = match last (names ≫= segment_records d) with Some r => (Digest r, (Seq r + 1)%N) | None => (prev, n) end.
Proof.
  revert prev n. induction names as [|name names IH]; intros prev n; csimpl; [by intros [= <- <-]|].
  intros E Hb. destruct (verifySegment d name prev n) as [|[p1 n1]] eqn:E1; [done|].
  assert (below_wrap (segment_records d name)) as Hb1 by (intros x Hx; apply Hb, elem_of_app; by left).
  destruct (IH _ _ E) as (Hl & Hh & Ht). { intros x Hx. apply Hb, elem_of_app. by right. }
  assert (linked (segment_records d name) ∧
    (n ≠ 0%N → ∀ y, head (segment_records d name) = Some y → Prev y = prev ∧ Seq y = n) ∧
    (p1, n1) = match last (segment_records d name) with Some r => (Digest r, (Seq r + 1)%N) | None => (prev, n) end)
    as (Hl1 & Hh1 & Ht1).
  { unfold verifySegment in E1. unfold segment_records in *. destruct (d !! name) as [data|]; [|by injection E1 as <- <-].
    destruct (scan data) as [ls ok]. simpl in *. destruct (verify_lines prev n ls) as [|[p2 n2]] eqn:E2; [done|].
    destruct ok; [|done]. injection E1 as <- <-. by apply verify_lines_sound. }
  split_and!.
  - apply linked_app. split_and!; try done. intros x y Hx Hy. rewrite Hx in Ht1. injection Ht1 as -> ->. apply Hh; [lia|done].
  - intros Hn y. destruct (segment_records d name) as [|z zs]; [|intros [= <-]; by apply Hh1].
    injection Ht1 as -> ->. by apply Hh.
  - rewrite Ht, last_app. destruct (last (names ≫= segment_records d)); [done|]. done.
Qed.
Lemma VerifyLog_linked d : VerifyLog d = None → below_wrap (log_records d) → linked (log_records d).
Proof.
  unfold VerifyLog. destruct (verify_segments _ _ _ _) as [|[p n]] eqn:E; [done|]. intros _ Hb. exact (proj1 (verify_segments_sound _ _ _ _ _ _ E Hb)).
Qed.
Lemma digestOf_inj r r' : digestOf r = digestOf r' →
  collision sha256hex (encode_fields (digested r)) (encode_fields (digested r')) ∨ (Seq r = Seq r' ∧ At r = At r' ∧ Operation r = Operation r' ∧ Subject r = Subject r' ∧
    Actor r = Actor r' ∧ CallID r = CallID r' ∧ Outcome r = Outcome r' ∧ Prev r = Prev r').
Proof.
  unfold digestOf. intros [E|Hc]%Fingerprint_inj; [|by left]. right. injection E as E1 E2 E3 E4 E5 E6 E7 E8.
  apply (inj pretty) in E1. by split_and!.
Qed.
Lemma linked_suffix l1 l2 r1 r2 :
  linked l1 → linked l2 → last l1 = Some r1 → last l2 = Some r2 → Digest r1 = Digest r2 →
  collide l1 l2 ∨ l1 `suffix_of` l2 ∨ l2 `suffix_of` l1.
Proof.
  revert l2 r1 r2. induction l1 as [|r1 a IH] using rev_ind; [done|]. intros l2 r1' r2 H1 H2.
  rewrite last_snoc. intros [= <-] Hl2 Ed. destruct l2 as [|r2' b _] using rev_ind; [done|]. rewrite last_snoc in Hl2. injection Hl2 as ->.
  apply linked_app in H1 as (Ha & (Hd1 & _) & Hf1). apply linked_app in H2 as (Hb & (Hd2 & _) & Hf2).
  destruct (digestOf_inj r1 r2) as [?|(E1 & E2 & E3 & E4 & E5 & E6 & E7 & E8)]; [congruence|left; exists r1, r2; set_solver|].
  assert (r1 = r2) as ->. { destruct r1, r2. simpl in *. congruence. }
  destruct (last a) as [x|] eqn:Ea; [|apply last_None in Ea as ->; right; left; by exists b].
  destruct (last b) as [y|] eqn:Eb; [|apply last_None in Eb as ->; right; right; by exists a].
  destruct (Hf1 x r2 eq_refl eq_refl) as [Hp1 _]. destruct (Hf2 y r2 eq_refl eq_refl) as [Hp2 _].
  destruct (IH b x y Ha Hb eq_refl Eb) as [(u & v & ? & ? & ?)|[[k ->]|[k ->]]]; [congruence|left; exists u, v; set_solver| |].
  - right; left. exists k. by rewrite (assoc_L (++)).
  - right; right. exists k. by rewrite (assoc_L (++)).
Qed.

(** ** Facts: the directory *)
Definition name_at (t : Z) : string := logFileName +:+ "." +:+ stamp t.
Lemma name_at_rotated t : HasPrefix (name_at t) (logFileName +:+ ".") = true.
Proof. apply HasPrefix_iff. exists (stamp t). unfold name_at. by rewrite string_app_assoc. Qed.
Lemma live_not_rotated : HasPrefix logFileName (logFileName +:+ ".") = false.
Proof. by vm_compute. Qed.
Lemma compare_app p a b : String.compare (p +:+ a) (p +:+ b) = String.compare a b.
Proof.
  induction p as [|c p IH]; [by rewrite !string_app_nil|]. rewrite !string_app_cons. cbn [String.compare].
  assert (Ascii.compare c c = Eq) as -> by apply N.compare_refl. done.
Qed.
Lemma name_at_later t u : (0 <= t < u)%Z → (u < 2^63)%Z → String.le (name_at t) (name_at u) ∧ name_at t ≠ name_at u.
Proof.
  intros Hlt Hu. assert (String.compare (name_at t) (name_at u) = Lt) as E.
  { unfold name_at. rewrite compare_app, compare_app. by apply stamp_later. }
  split; [unfold String.le, String.leb; by rewrite E|]. intros Eq. rewrite Eq in E.
  rewrite <-(string_nil_r (name_at u)), compare_app in E. done.
Qed.
Lemma sorted_is l l' : StronglySorted String.le l' → l' ≡ₚ l → sort_strings l = l'.
Proof.
  intros Hs Hp. apply (StronglySorted_unique String.le); [apply sort_strings_sorted|done|]. by rewrite sort_strings_perm.
Qed.
Lemma rotated_elem d n : n ∈ rotated_files d ↔ HasPrefix n (logFileName +:+ ".") = true ∧ is_Some (d !! n).
Proof. unfold rotated_files. by rewrite sort_strings_elem, list_elem_of_filter, elem_of_elements, elem_of_dom. Qed.
Lemma rotated_sorted d : StronglySorted String.le (rotated_files d) ∧ NoDup (rotated_files d).
Proof.
  split; [apply sort_strings_sorted|]. unfold rotated_files. rewrite sort_strings_perm. apply NoDup_filter, NoDup_elements.
Qed.
(** The rotated files are told by their names alone. *)
Lemma rotated_are d l :
  StronglySorted String.le l → NoDup l →
  (∀ n, n ∈ l ↔ HasPrefix n (logFileName +:+ ".") = true ∧ is_Some (d !! n)) → rotated_files d = l.
Proof.
  intros Hs Hnd Hl. apply sorted_is; [done|]. apply NoDup_Permutation; [done|apply NoDup_filter, NoDup_elements|].
  intros n. rewrite Hl, list_elem_of_filter, elem_of_elements, elem_of_dom. done.
Qed.
Lemma rotated_same d d' :
  (∀ n, HasPrefix n (logFileName +:+ ".") = true → is_Some (d' !! n) ↔ is_Some (d !! n)) → rotated_files d' = rotated_files d.
Proof.
  intros Hd. destruct (rotated_sorted d). apply rotated_are; [done..|]. intros n. rewrite rotated_elem. split; intros [Hp Hx]; (split; [done|]); by apply Hd.
Qed.
Lemma live_name n : HasPrefix n (logFileName +:+ ".") = true → n ≠ logFileName.
Proof. intros Hp ->. by rewrite live_not_rotated in Hp. Qed.
Lemma rotated_live d x : rotated_files (<[logFileName := x]> d) = rotated_files d.
Proof. apply rotated_same. intros n Hn%live_name. by rewrite lookup_insert_ne. Qed.
Lemma rotated_new d n x y :
  HasPrefix n (logFileName +:+ ".") = true → Forall (λ m, String.le m n ∧ m ≠ n) (rotated_files d) →
  rotated_files (<[n := x]> (delete logFileName d)) = rotated_files d ++ [n] ∧
  rotated_files (<[logFileName := y]> (<[n := x]> (delete logFileName d))) = rotated_files d ++ [n].
Proof.
  intros Hn Hle. rewrite rotated_live. destruct (rotated_sorted d) as [Hs Hnd]. rewrite Forall_forall in Hle.
  assert (rotated_files (<[n := x]> (delete logFileName d)) = rotated_files d ++ [n]) as ->; [|done]. apply rotated_are.
  - apply StronglySorted_app_2; [|done|by repeat constructor]. intros a b Ha ->%list_elem_of_singleton. by apply Hle.
  - apply NoDup_app. split_and!; [done| |apply NoDup_singleton]. intros a Ha ->%list_elem_of_singleton. by destruct (Hle n Ha).
  - intros m. rewrite elem_of_app, list_elem_of_singleton, rotated_elem. destruct (decide (m = n)) as [->|Hne].
    + rewrite lookup_insert_eq. naive_solver.
    + rewrite lookup_insert_ne by done. split.
      * intros [[Hp Hx]|?]; [|done]. split; [done|]. by rewrite lookup_delete_ne by (symmetry; by apply live_name).
      * intros [Hp Hx]. left. split; [done|]. by rewrite lookup_delete_ne in Hx by (symmetry; by apply live_name).
Qed.

(** ** Facts: a directory that holds a history *)

(** [hist]: every record ever written; [segs], [live]: those the rotated files
    and the live file still have; [torn]: the bytes of a line a crash cut off. *)
Record holds (d : Dir) (T : Z) (hist : list Record_) (segs : list (string * list Record_)) (live : list Record_)
    (torn : string) : Prop := {
  h_names : rotated_files d = segs.*1;
  h_times : Forall (λ n, ∃ t, (0 <= t <= T)%Z ∧ n = name_at t) segs.*1;
  h_segs : Forall (λ x, d !! x.1 = Some (text x.2) ∧ x.2 ≠ []) segs;
  h_live : default "" (d !! logFileName) = text live +:+ torn;
  h_torn : lacks newline torn;
  h_hist : ∃ dropped, hist = dropped ++ concat segs.*2 ++ live ∧ (segs = [] → dropped = []);
  h_chain : chained "" 0 hist;
  h_enc : Forall encodable hist;
  h_bound : (N.of_nat (length hist) + 1 < 2^64)%N;
}.
(** What the writer remembers of it. *)
Record ready (l : MutationLog) (hist live : list Record_) : Prop := {
  r_seq : seq l = N.of_nat (length hist);
  r_head : head_ l = (chain_end "" 0 hist).1;
  r_max : (0 < maxBytes l)%Z;
  r_keep : keep l ≠ 0;
  r_size : open_ l = true → size_ l = Z.of_nat (String.length (text live));
}.

Lemma text_app rs rs' : text (rs ++ rs') = text rs +:+ text rs'.
Proof. unfold text. by rewrite fmap_app, unlines_app. Qed.
Lemma text_one r : text [r] = Marshal r +:+ String newline "".
Proof. done. Qed.
Lemma text_empty rs : "" = text rs → rs = [].
Proof.
  destruct rs as [|r rs]; [done|]. unfold text. csimpl. destruct (Marshal r) as [|c m] eqn:Em; [by apply (Marshal_object r) in Em|].
  by rewrite string_app_cons.
Qed.
Lemma text_nonempty rs : (0 < Z.of_nat (String.length (text rs)))%Z → rs ≠ [].
Proof. by intros Hs ->. Qed.

Lemma verify_rest (l : list (string * list Record_)) d prev n :
  Forall (λ x, default "" (d !! x.1) = text x.2 ∧ Forall encodable x.2) l → chained prev n (concat l.*2) →
  (n + N.of_nat (length (concat l.*2)) + 1 < 2^64)%N → n ≠ 0%N ∨ prev = "" →
  verify_segments d l.*1 prev (n + 1) =
    inr ((chain_end prev n (concat l.*2)).1, ((chain_end prev n (concat l.*2)).2 + 1)%N).
Proof.
  revert prev n. induction l as [|[name rs] l IH]; intros prev n Hl Hc Hb Hz; [done|].
  apply Forall_cons in Hl as [[Hd He] Hl]. csimpl in *. simpl concat in *. rewrite length_app in Hb.
  apply chained_app in Hc as [Hc1 Hc2]. pose proof (chained_seq _ _ _ Hc1) as Hseq. csimpl.
  assert (verifySegment d name prev (n + 1) = inr ((chain_end prev n rs).1, ((chain_end prev n rs).2 + 1)%N)) as ->.
  { unfold verifySegment. simpl in Hd. destruct (d !! name) as [data|]; simpl in Hd.
    - subst data. rewrite scan_text by done. rewrite <-(app_nil_r (Marshal <$> rs)), verify_lines_text by (done || lia). done.
    - by rewrite (text_empty rs). }
  rewrite IH; [|done|done|lia|].
  - unfold chain_end. rewrite last_app. destruct (last (concat l.*2)); done.
  - destruct (decide ((chain_end prev n rs).2 = 0%N)) as [E|]; [|by left]. right.
    rewrite Hseq in E. assert (rs = []) as -> by (destruct rs; [done|simpl in E; lia]). simpl in *. destruct Hz; [lia|done].
Qed.
Lemma verify_first (l : list (string * list Record_)) d prev n :
  Forall (λ x, default "" (d !! x.1) = text x.2 ∧ Forall encodable x.2) l → chained prev n (concat l.*2) →
  (n + N.of_nat (length (concat l.*2)) + 1 < 2^64)%N → ∃ x, verify_segments d l.*1 "" 0 = inr x.
Proof.
  intros Hl Hc Hb. induction l as [|[name rs] l IH]; [by eexists|].
  apply Forall_cons in Hl as [[Hd He] Hl]. csimpl in *. simpl concat in *. rewrite length_app in Hb.
  apply chained_app in Hc as [Hc1 Hc2]. pose proof (chained_seq _ _ _ Hc1) as Hseq. unfold verifySegment. simpl in Hd.
  destruct rs as [|r rs].
  - assert (match d !! name with Some data => let '(ls, ok) := scan data in
      match verify_lines "" 0 ls with inl e => inl e | inr x => if ok then inr x else inl too_long end | None => inr ("", 0%N) end = inr ("", 0%N)) as ->.
    { destruct (d !! name) as [data|]; [|done]. simpl in Hd. subst data. done. }
    apply IH; [done|exact Hc2|simpl in Hb; lia].
  - destruct (d !! name) as [data|]; simpl in Hd.
    + subst data. rewrite scan_text by done. rewrite <-(app_nil_r (Marshal <$> _)).
      rewrite (verify_lines_adopt _ _ prev n) by (done || lia). cbn [verify_lines]. eexists. apply verify_rest; [done|done|lia|].
      left. rewrite Hseq. simpl. lia.
    + by apply (text_empty (r :: rs)) in Hd.
Qed.
Lemma holds_parts d T hist segs live :
  holds d T hist segs live "" → Forall (λ x, default "" (d !! x.1) = text x.2 ∧ Forall encodable x.2) (segs ++ [(logFileName, live)]).
Proof.
  intros [_ _ Hs Hl _ (dr & -> & _) _ He _]. rewrite !Forall_app in He. destruct He as (_ & He & Hel). apply Forall_app. split.
  - rewrite Forall_forall in Hs |- *. intros x Hx. destruct (Hs x Hx) as [-> _]. split; [done|].
    rewrite Forall_concat, Forall_forall in He. apply He. by apply list_elem_of_fmap_2.
  - apply Forall_singleton. simpl. by rewrite Hl, string_nil_r.
Qed.
Lemma holds_verifies d T hist segs live : holds d T hist segs live "" → VerifyLog d = None.
Proof.
  intros Hh. pose proof (holds_parts _ _ _ _ _ Hh) as Hp. destruct Hh as [Hn _ _ _ _ (dr & -> & _) Hc _ Hb].
  apply chained_app in Hc as [Hc1 Hc2]. pose proof (chained_seq _ _ _ Hc1) as Hseq.
  unfold VerifyLog. rewrite Hn. replace (segs.*1 ++ [logFileName]) with ((segs ++ [(logFileName, live)]).*1) by by rewrite fmap_app.
  destruct (verify_first _ d (chain_end "" 0 dr).1 (chain_end "" 0 dr).2 Hp) as [x ->]; [| |done].
  - rewrite fmap_app, concat_app. simpl. rewrite app_nil_r. exact Hc2.
  - rewrite fmap_app, concat_app. simpl. rewrite app_nil_r, Hseq. rewrite length_app in Hb. lia.
Qed.

(** Recovering the head from the newest file that has a record. *)
Lemma lastRecordIn_text d name rs :
  default "" (d !! name) = text rs → Forall encodable rs → lastRecordIn d name = inr (last rs).
Proof.
  intros Hd He. unfold lastRecordIn. destruct (d !! name) as [data|]; simpl in Hd.
  - subst data. rewrite scan_text, last_record_text by done. done.
  - by rewrite (text_empty rs).
Qed.
Lemma holds_recovers d T hist segs live :
  holds d T hist segs live "" →
  recoverHead d (segmentsNewestFirst d) = inr (N.of_nat (length hist), (chain_end "" 0 hist).1).
Proof.
  intros Hh. pose proof (holds_parts _ _ _ _ _ Hh) as Hp. apply Forall_app in Hp as [Hp [Hpl Hel]%Forall_singleton].
  destruct Hh as [Hn _ Hs _ _ (dr & Eh & Hdr) Hc _ _]. pose proof (chained_seq _ _ _ Hc) as Hseq.
  assert (∀ r, last hist = Some r → inr (Seq r, Digest r) = inr (N.of_nat (length hist), (chain_end "" 0 hist).1) :> LogError + N * string) as Hend.
  { intros r Hr. unfold chain_end in *. rewrite Hr in *. simpl in *. by rewrite Hseq. }
  unfold segmentsNewestFirst. rewrite Hn. cbn [recoverHead]. simpl in Hpl, Hel. rewrite (lastRecordIn_text _ _ _ Hpl Hel).
  destruct live as [|r0 live0 _] using rev_ind.
  - destruct segs as [|[name rs] segs _] using rev_ind.
    + rewrite Hdr in Eh by done. subst hist. done.
    + rewrite fmap_app, rev_app_distr. csimpl. apply Forall_app in Hp as [_ [Hpr Her]%Forall_singleton].
      rewrite (lastRecordIn_text d name rs Hpr Her). apply Forall_app in Hs as [_ [_ Hne]%Forall_singleton]. simpl in Hne.
      destruct rs as [|r rs _] using rev_ind; [done|]. rewrite last_snoc. apply Hend. subst hist.
      rewrite app_nil_r, fmap_app, concat_app. simpl. rewrite app_nil_r, !(assoc_L (++)). apply last_snoc.
  - rewrite last_snoc. apply Hend. subst hist. rewrite !(assoc_L (++)). apply last_snoc.
Qed.

(** ** Facts: what each operation does to a history *)
Lemma holds_time d T T' hist segs live torn : (T <= T')%Z → holds d T hist segs live torn → holds d T' hist segs live torn.
Proof.
  intros Hle []. split; try done. eapply Forall_impl; [done|]. intros n (t & ? & ->). exists t. split; [lia|done].
Qed.
Lemma holds_drop_first d T hist x segs live torn :
  holds d T hist (x :: segs) live torn → segs ≠ [] → holds (delete x.1 d) T hist segs live torn.
Proof.
  intros [Hn Ht Hs Hl Htn (dr & Eh & Hdr) Hc He Hb] Hne. csimpl in *. apply Forall_cons in Ht as [(t & _ & Ex) Ht]. apply Forall_cons in Hs as [_ Hs].
  destruct (rotated_sorted d) as [Hsd Hnd]. rewrite Hn in Hsd, Hnd. apply NoDup_cons in Hnd as [Hni Hnd]. apply StronglySorted_inv in Hsd as [Hsd _].
  assert (∀ n, n ∈ x.1 :: segs.*1 ↔ HasPrefix n (logFileName +:+ ".") = true ∧ is_Some (d !! n)) as Hel
    by (intros n; by rewrite <-Hn, rotated_elem).
  split; try done.
  - apply rotated_are; [done..|]. intros n. specialize (Hel n). rewrite elem_of_cons in Hel. split.
    + intros Hin. assert (n ≠ x.1) by (by intros ->). rewrite lookup_delete_ne by done. tauto.
    + intros [Hp Hx]. destruct (decide (n = x.1)) as [->|]; [by rewrite lookup_delete_eq in Hx; destruct Hx|].
      rewrite lookup_delete_ne in Hx by done. tauto.
  - rewrite Forall_forall in Hs |- *. intros y Hy. destruct (Hs y Hy). split; [|done]. rewrite lookup_delete_ne; [done|].
    intros E. apply Hni. rewrite E. by apply list_elem_of_fmap_2.
  - rewrite lookup_delete_ne; [done|]. rewrite Ex. apply live_name, name_at_rotated.
  - exists (dr ++ x.2). split; [|done]. by rewrite Eh, <-!(assoc_L (++)).
Qed.
Lemma remove_holds f k d T hist segs live torn d' ok :
  holds d T hist segs live torn → k < length segs → remove_files d f (take k segs.*1) = (d', ok) →
  ∃ segs', holds d' T hist segs' live torn ∧ segs' ≠ [].
Proof.
  revert d segs. induction k as [|k IH]; intros d segs Hh Hk; simpl.
  { intros [= <- <-]. exists segs. split; [done|]. by destruct segs; [simpl in Hk; lia|]. }
  destruct segs as [|x segs]; [simpl in Hk; lia|]. csimpl in *. destruct (f_remove f x.1); [intros [= <- <-]; eauto|].
  apply IH; [|lia]. apply holds_drop_first; [done|]. by destruct segs; [simpl in Hk; lia|].
Qed.
Lemma prune_holds f k d T hist segs live torn d' e :
  holds d T hist segs live torn → k ≠ 0 → pruneLocked d k f = (d', e) → ∃ segs', holds d' T hist segs' live torn.
Proof.
  intros Hh Hk. unfold pruneLocked. rewrite (h_names _ _ _ _ _ _ Hh). destruct (Nat.leb_spec (length segs.*1) k) as [|Hlt]; [intros [= <- <-]; eauto|].
  destruct (remove_files _ _ _) as [d1 ok] eqn:E. intros [= <- _]. rewrite length_fmap in *.
  apply (remove_holds _ _ _ _ _ _ _ _ _ _ Hh) in E as (segs' & ? & _); [eauto|lia].
Qed.
Lemma holds_rotate d T now hist segs live :
  holds d T hist segs live "" → live ≠ [] → (T < now < 2^63)%Z → (0 <= now)%Z →
  let d1 := <[name_at now := text live]> (delete logFileName d) in
  holds d1 now hist (segs ++ [(name_at now, live)]) [] "" ∧ holds (<[logFileName := ""]> d1) now hist (segs ++ [(name_at now, live)]) [] "".
Proof.
  intros [Hn Ht Hs Hl Htn (dr & Eh & Hdr) Hc He Hb] Hne Hlt Hnow d1.
  assert (Forall (λ m, String.le m (name_at now) ∧ m ≠ name_at now) (rotated_files d)) as Hbef.
  { rewrite Hn. eapply Forall_impl; [exact Ht|]. intros n (t & ? & ->). apply name_at_later; lia. }
  destruct (rotated_new d (name_at now) (text live) "" (name_at_rotated now) Hbef) as [Hr _].
  assert (name_at now ≠ logFileName) as Hnl by (apply live_name, name_at_rotated).
  assert (∀ d2, rotated_files d2 = rotated_files d1 → (∀ n, n ≠ logFileName → d2 !! n = d1 !! n) → default "" (d2 !! logFileName) = "" →
    holds d2 now hist (segs ++ [(name_at now, live)]) [] "") as Hgo.
  { intros d2 Hr2 Hd2 Hl2. split; try done.
    - rewrite Hr2. unfold d1. by rewrite Hr, Hn, fmap_app.
    - rewrite fmap_app. apply Forall_app. split; [|apply Forall_singleton; exists now; split; [lia|done]].
      eapply Forall_impl; [exact Ht|]. intros n (t & ? & ->). exists t. split; [lia|done].
    - apply Forall_app. split.
      + rewrite Forall_forall in Hs. rewrite Forall_forall in Hbef. apply Forall_forall. intros x Hx. destruct (Hs x Hx) as [Hdx ?]. split; [|done].
        assert (x.1 ∈ rotated_files d) as Hin by (rewrite Hn; by apply list_elem_of_fmap_2).
        assert (x.1 ≠ logFileName) by (apply live_name; by apply rotated_elem in Hin as [? _]).
        rewrite Hd2 by done. unfold d1. rewrite lookup_insert_ne by (symmetry; by apply (Hbef x.1)). by rewrite lookup_delete_ne.
      + apply Forall_singleton. simpl. rewrite Hd2 by done. unfold d1. by rewrite lookup_insert_eq.
    - exists dr. rewrite fmap_app, concat_app. simpl. rewrite !app_nil_r. split; [done|]. by destruct segs. }
  split; apply Hgo.
  - done.
  - done.
  - unfold d1. by rewrite lookup_insert_ne, lookup_delete_eq by done.
  - apply rotated_live.
  - intros n Hnn. by rewrite lookup_insert_ne.
  - by rewrite lookup_insert_eq.
Qed.

Lemma ready_handle l hist live o n :
  ready l hist live → (o = true → n = Z.of_nat (String.length (text live))) → ready (with_handle l o n) hist live.
Proof. intros [] Hn. by split. Qed.
Lemma rotate_holds d l now f T hist segs live d' l' e :
  holds d T hist segs live "" → ready l hist live → (T < now < 2^63)%Z → (0 <= now)%Z → rotateIfNeededLocked d l now f = (d', l', e) →
  ∃ segs' live', holds d' now hist segs' live' "" ∧ ready l' hist live'.
Proof.
  intros Hh Hr Hlt Hnow. pose proof (holds_time _ _ now _ _ _ _ (Z.lt_le_incl _ _ (proj1 Hlt)) Hh) as Hh'. unfold rotateIfNeededLocked.
  destruct (Z.ltb_spec (size_ l) (maxBytes l)) as [|Hge]; [intros [= <- <- <-]; eauto|].
  destruct (open_ l) eqn:Eo; [|intros [= <- <- <-]; eauto]. destruct (f_rotate_sync f); [intros [= <- <- <-]; eauto|]. cbn [negb orb].
  destruct (f_close f); [intros [= <- <- <-]; exists segs, live; split; [done|]; by apply ready_handle|].
  pose proof (r_size _ _ _ Hr Eo) as Hsz. pose proof (r_max _ _ _ Hr) as Hmax.
  assert (default "" (d !! logFileName) = text live) as Hd by (rewrite (h_live _ _ _ _ _ _ Hh); apply string_nil_r). rewrite Hd.
  destruct (f_rename f).
  { intros [= <- <- <-]. exists segs, live. split; [done|]. destruct (f_reopen f); apply ready_handle; try done.
    intros _. by destruct (f_stat f). }
  fold (name_at now). destruct (holds_rotate _ _ _ _ _ _ Hh (text_nonempty live ltac:(lia)) Hlt Hnow) as [H1 H2].
  destruct (f_create f).
  { intros [= <- <- <-]. eexists _, []. split; [exact H1|]. destruct Hr. by split. }
  destruct (pruneLocked _ _ _) as [d1 e1] eqn:Ep. intros [= <- <- <-].
  apply (prune_holds _ _ _ _ _ _ _ _ _ _ H2) in Ep as [segs' H3]; [|by destruct Hr]. exists segs', []. split; [done|].
  destruct Hr. by split.
Qed.

Lemma substring_app a b : substring 0 (String.length a) (a +:+ b) = a.
Proof. induction a as [|c a IH]; [by destruct b|]. rewrite string_app_cons. simpl. by rewrite IH. Qed.
Lemma write_twice (d : Dir) (x y : string) : <[logFileName := y]> (<[logFileName := x]> d) = <[logFileName := y]> d.
Proof. apply insert_insert_eq. Qed.
Lemma holds_live d T hist segs live torn x live' torn' hist' :
  holds d T hist segs live torn → x = text live' +:+ torn' → lacks newline torn' →
  (∃ dropped, hist' = dropped ++ concat segs.*2 ++ live' ∧ (segs = [] → dropped = [])) →
  chained "" 0 hist' → Forall encodable hist' → (N.of_nat (length hist') + 1 < 2^64)%N →
  holds (<[logFileName := x]> d) T hist' segs live' torn'.
Proof.
  intros [Hn Ht Hs Hl Htn _ _ _ _] -> Htn' Hh' Hc' He' Hb'. split; try done.
  - by rewrite rotated_live.
  - rewrite Forall_forall in Hs |- *. intros y Hy. destruct (Hs y Hy) as [Hd ?]. split; [|done]. rewrite lookup_insert_ne; [done|].
    symmetry. apply live_name. assert (y.1 ∈ rotated_files d) as [? _]%rotated_elem; [|done]. rewrite Hn. by apply list_elem_of_fmap_2.
  - by rewrite lookup_insert_eq.
Qed.
Lemma holds_reset d T hist segs live torn torn' x :
  holds d T hist segs live torn → x = text live +:+ torn' → lacks newline torn' → holds (<[logFileName := x]> d) T hist segs live torn'.
Proof. intros Hh Hx Ht. eapply holds_live; [done..| | | |]; by destruct Hh. Qed.
(** A whole line more is a record more. *)
Lemma holds_append d T hist segs live r :
  holds d T hist segs live "" → encodable r → Seq r = (N.of_nat (length hist) + 1)%N → Prev r = (chain_end "" 0 hist).1 →
  Digest r = digestOf r → (N.of_nat (length hist) + 2 < 2^64)%N →
  holds (write_live d (Marshal r +:+ String newline "")) T (hist ++ [r]) segs (live ++ [r]) "".
Proof.
  intros Hh He Hs Hp Hd Hb. unfold write_live. eapply holds_live; [exact Hh| |done| | | |].
  - rewrite (h_live _ _ _ _ _ _ Hh), text_app, text_one, !string_nil_r. done.
  - destruct (h_hist _ _ _ _ _ _ Hh) as (dr & -> & Hdr). exists dr. split; [by rewrite <-!(assoc_L (++))|done].
  - apply chained_app. split; [apply Hh|]. simpl. split_and!; try done. rewrite Hs.
    rewrite (chained_seq _ _ _ (h_chain _ _ _ _ _ _ Hh)). lia.
  - apply Forall_app. split; [apply Hh|by apply Forall_singleton].
  - rewrite length_app. simpl. lia.
Qed.
Definition recordable (l : MutationLog) (now : Z) (operation subject actor callID outcome : string) : Prop :=
  encodable (next_record l now operation subject actor callID outcome).
Lemma next_record_links l now hist live operation subject actor callID outcome :
  ready l hist live → (N.of_nat (length hist) + 2 < 2^64)%N →
  let r := next_record l now operation subject actor callID outcome in
  Seq r = (N.of_nat (length hist) + 1)%N ∧ Prev r = (chain_end "" 0 hist).1 ∧ Digest r = digestOf r.
Proof.
  intros [Hs Hh _ _ _] Hb r. split_and!; [|exact Hh|reflexivity]. simpl. rewrite Hs. unfold wrap64. apply N.mod_small. lia.
Qed.
Lemma rollback_holds d T hist segs live l f p x :
  holds d T hist segs live "" → ready l hist live → f_rollback f = false → open_ l = true →
  x = text live +:+ p →
  holds (rollbackLocked (<[logFileName := x]> d) l f) T hist segs live "".
Proof.
  intros Hh Hr Hf Ho ->. unfold rollbackLocked. rewrite Hf, Ho, (r_size _ _ _ Hr Ho), Nat2Z.id, lookup_insert_eq. simpl.
  rewrite substring_app, write_twice. eapply holds_reset; [exact Hh| |done]. by rewrite string_nil_r.
Qed.
Lemma Append_holds d l now f T hist segs live operation subject actor callID outcome d' l' res :
  holds d T hist segs live "" → ready l hist live → (T < now < 2^63)%Z → (0 <= now)%Z → f_rollback f = false → (N.of_nat (length hist) + 2 < 2^64)%N →
  recordable l now operation subject actor callID outcome →
  Append d l now f operation subject actor callID outcome = (d', l', res) →
  ∃ segs' live', let hist' := hist ++ match res with inr r => [r] | inl _ => [] end in
    holds d' now hist' segs' live' "" ∧ ready l' hist' live'.
Proof.
  intros Hh Hr Hlt Hnow Hf Hb Hrec. unfold Append. destruct (rotateIfNeededLocked d l now f) as [[d1 l1] e] eqn:Er.
  assert (next_record l1 now operation subject actor callID outcome = next_record l now operation subject actor callID outcome) as Hsame.
  { revert Er. unfold rotateIfNeededLocked, next_record. intros Er. by repeat (case_match || simplify_eq/=). }
  destruct (rotate_holds _ _ _ _ _ _ _ _ _ _ _ Hh Hr Hlt Hnow Er) as (segs1 & live1 & Hh1 & Hr1). clear Er.
  destruct e as [e|]; [intros [= <- <- <-]; exists segs1, live1; by rewrite app_nil_r|].
  unfold recordable in Hrec. rewrite <-Hsame in Hrec. destruct (next_record_links l1 now hist live1 operation subject actor callID outcome Hr1 Hb) as (Hs & Hp & Hd).
  set (r := next_record l1 now operation subject actor callID outcome) in *. clearbody r.
  assert (default "" (d1 !! logFileName) = text live1) as Hd1 by (rewrite (h_live _ _ _ _ _ _ Hh1); apply string_nil_r).
  destruct (open_ l1) eqn:Eo; cbn [negb].
  2: { intros [= <- <- <-]. unfold rollbackLocked. rewrite Eo, orb_true_r. exists segs1, live1. by rewrite app_nil_r. }
  destruct (f_write f) as [n|].
  { intros [= <- <- <-]. exists segs1, live1. rewrite app_nil_r. split; [|done]. unfold write_live. rewrite Hd1. by eapply rollback_holds. }
  destruct (f_sync f).
  { intros [= <- <- <-]. exists segs1, live1. rewrite app_nil_r. split; [|done]. unfold write_live. rewrite Hd1. by eapply rollback_holds. }
  intros [= <- <- <-]. exists segs1, (live1 ++ [r]). split; [by apply holds_append|].
  destruct Hr1 as [R1 R2 R3 R4 R5]. split; try done; simpl.
  - rewrite Hs, length_app. simpl. lia.
  - unfold chain_end. by rewrite last_snoc.
  - intros _. rewrite R5, text_app, text_one by done. rewrite !string_length_app. lia.
Qed.

Lemma truncate_holds d f T hist segs live torn d' e :
  holds d T hist segs live torn → truncateTornTail d f = (d', e) →
  match e with Some _ => ∃ torn', holds d' T hist segs live torn' | None => holds d' T hist segs live "" end.
Proof.
  intros Hh. unfold truncateTornTail. rewrite (h_live _ _ _ _ _ _ Hh). 
  assert (split_lines (text live +:+ torn) = (Marshal <$> live, torn)) as -> by (apply split_unlines; [apply Marshal_lines|apply Hh]).
  assert (Forall encodable live) as He.
  { destruct (h_hist _ _ _ _ _ _ Hh) as (dr & Eh & _). pose proof (h_enc _ _ _ _ _ _ Hh) as He. rewrite Eh, !Forall_app in He. tauto. }
  cbn [fst]. pose proof (good_lines_text live [] He eq_refl) as Hg. rewrite app_nil_r in Hg. rewrite Hg. fold (text live).
  destruct (text live =? text live +:+ torn) eqn:Et.
  - intros [= <- <-]. apply bool_decide_eq_true in Et.
    assert (torn = "") as ->; [|done]. rewrite <-(string_nil_r (text live)) in Et at 1. by apply string_app_inj in Et.
  - destruct (f_truncate f); [intros [= <- <-]; eauto|]. intros [= <- <-].
    assert (holds (<[logFileName := text live]> d) T hist segs live "") as Hc.
    { eapply holds_reset; [exact Hh| |done]. by rewrite string_nil_r. }
    destruct (f_sync f); eauto.
Qed.
Lemma Open_holds d max k f T hist segs live torn d' r :
  holds d T hist segs live torn → OpenMutationLog d max k f = (d', r) →
  match r with
  | inl _ => ∃ torn', holds d' T hist segs live torn'
  | inr l => holds d' T hist segs live "" ∧ ready l hist live
  end.
Proof.
  intros Hh. unfold OpenMutationLog. destruct (f_open f); [intros [= <- <-]; eauto|].
  set (d0 := match d !! logFileName with None => _ | Some _ => d end).
  assert (holds d0 T hist segs live torn) as Hh0.
  { unfold d0. pose proof (h_live _ _ _ _ _ _ Hh) as Hl. destruct (d !! logFileName) eqn:E; [done|].
    simpl in Hl. eapply holds_reset; [exact Hh|exact Hl|by destruct Hh]. }
  clearbody d0. destruct (truncateTornTail d0 f) as [d1 e] eqn:Et. apply (truncate_holds _ _ _ _ _ _ _ _ _ Hh0) in Et.
  destruct e as [e|]; [intros [= <- <-]; exact Et|]. destruct (f_stat f); [intros [= <- <-]; eauto|].
  rewrite (holds_recovers _ _ _ _ _ Et). intros [= <- <-]. split; [done|].
  assert (default "" (d1 !! logFileName) = text live) as Hd1 by (rewrite (h_live _ _ _ _ _ _ Et); apply string_nil_r). split; simpl; try done.
  - destruct (Z.leb_spec max 0); [done|lia].
  - by destruct (decide (k = 0)) as [->|Hk]; [|rewrite bool_decide_false].
  - intros _. by rewrite Hd1.
Qed.

(** ** The log over time *)

(** A process may run ([s_log]), its clock only moves on, and [s_hist] is what
    was ever written whole. *)
Record LogState := { s_dir : Dir; s_log : option MutationLog; s_time : Z; s_hist : list Record_ }.
Inductive log_step (s : LogState) : LogState → Prop :=
  | log_opens max k f d r :
      s_log s = None → OpenMutationLog (s_dir s) max k f = (d, r) →
      log_step s {| s_dir := d; s_log := match r with inr l => Some l | inl _ => None end; s_time := s_time s; s_hist := s_hist s |}
  | log_appends l now f operation subject actor callID outcome d l' res :
      s_log s = Some l → (s_time s < now < 2^63)%Z → f_rollback f = false → (N.of_nat (length (s_hist s)) + 2 < 2^64)%N →
      recordable l now operation subject actor callID outcome →
      Append (s_dir s) l now f operation subject actor callID outcome = (d, l', res) →
      log_step s {| s_dir := d; s_log := Some l'; s_time := now;
                    s_hist := s_hist s ++ match res with inr r => [r] | inl _ => [] end |}
  (** The process dies, idle or in a rotation. *)
  | log_dies l now f d l' e :
      s_log s = Some l → (s_time s < now < 2^63)%Z → rotateIfNeededLocked (s_dir s) l now f = (d, l', e) →
      log_step s {| s_dir := d; s_log := None; s_time := now; s_hist := s_hist s |}
  (** It dies after so many bytes of a line. *)
  | log_dies_writing l now f operation subject actor callID outcome d l' n :
      s_log s = Some l → (s_time s < now < 2^63)%Z → (N.of_nat (length (s_hist s)) + 2 < 2^64)%N →
      recordable l now operation subject actor callID outcome → rotateIfNeededLocked (s_dir s) l now f = (d, l', None) →
      open_ l' = true →
      let r := next_record l' now operation subject actor callID outcome in
      let line := Marshal r +:+ String newline "" in
      log_step s {| s_dir := write_live d (substring 0 n line); s_log := None; s_time := now;
                    s_hist := s_hist s ++ if n <? String.length line then [] else [r] |}.

Definition log_sound (s : LogState) : Prop :=
  (0 <= s_time s)%Z ∧ ∃ segs live torn, holds (s_dir s) (s_time s) (s_hist s) segs live torn ∧
    match s_log s with Some l => torn = "" ∧ ready l (s_hist s) live | None => True end.

Lemma substring_prefix n a b : n ≤ String.length a → substring 0 n (a +:+ b) = substring 0 n a.
Proof.
  revert n. induction a as [|c a IH]; intros [|n] Hn; simpl in *; try done; [by destruct b|lia|]. by rewrite IH by lia.
Qed.
Lemma substring_all n a : String.length a ≤ n → substring 0 n a = a.
Proof. revert n. induction a as [|c a IH]; intros [|n] Hn; simpl in *; try done; [lia|]. by rewrite IH by lia. Qed.
Lemma lacks_substring c n a : lacks c a → lacks c (substring 0 n a).
Proof. revert n. induction a as [|x a IH]; intros [|n]; simpl; try done. intros [? ?]. split; auto. Qed.

Lemma log_step_sound s s' : log_sound s → log_step s s' → log_sound s'.
Proof.
  intros (Hz & segs & live & torn & Hh & Hl). destruct 1 as [max k f d r Hnone E|l now f op sub act ci out d l' res Hs Hlt Hf Hb Hrec E
    |l now f d l' e Hs Hlt E|l now f op sub act ci out d l' n Hs Hlt Hb Hrec E Ho r line]; (split; [simpl; lia|]); simpl.
  - apply (Open_holds _ _ _ _ _ _ _ _ _ _ _ Hh) in E. destruct r as [e|l]; [destruct E as [torn' ?]; by exists segs, live, torn'|].
    destruct E as [? ?]. by exists segs, live, "".
  - rewrite Hs in Hl. destruct Hl as [-> Hr].
    destruct (Append_holds _ _ _ _ _ _ _ _ _ _ _ _ _ _ _ _ Hh Hr Hlt ltac:(lia) Hf Hb Hrec E) as (segs' & live' & ? & ?). by exists segs', live', "".
  - rewrite Hs in Hl. destruct Hl as [-> Hr].
    destruct (rotate_holds _ _ _ _ _ _ _ _ _ _ _ Hh Hr Hlt ltac:(lia) E) as (segs' & live' & ? & ?). by exists segs', live', "".
  - rewrite Hs in Hl. destruct Hl as [-> Hr].
    assert (next_record l' now op sub act ci out = next_record l now op sub act ci out) as Hsame.
    { revert E. unfold rotateIfNeededLocked, next_record. intros E. by repeat (case_match || simplify_eq/=). }
    destruct (rotate_holds _ _ _ _ _ _ _ _ _ _ _ Hh Hr Hlt ltac:(lia) E) as (segs1 & live1 & Hh1 & Hr1).
    unfold recordable in Hrec. rewrite <-Hsame in Hrec. destruct (next_record_links l' now (s_hist s) live1 op sub act ci out Hr1 Hb) as (Hsq & Hp & Hd).
    fold r in Hrec, Hsq, Hp, Hd. clearbody r. destruct (Nat.ltb_spec n (String.length line)) as [Hn|Hn].
    + exists segs1, live1, (substring 0 n (Marshal r)). rewrite app_nil_r. split; [|done]. unfold write_live.
      eapply holds_reset; [exact Hh1| |apply lacks_substring, Marshal_one_line]. rewrite (h_live _ _ _ _ _ _ Hh1), string_nil_r. f_equal.
      apply substring_prefix. unfold line in Hn. rewrite string_length_app in Hn. simpl in Hn. lia.
    + exists segs1, (live1 ++ [r]), "". rewrite substring_all by done. split; [by apply holds_append|done].
Qed.
Lemma log_empty_sound s : s_dir s = ∅ → s_log s = None → s_hist s = [] → s_time s = 0%Z → log_sound s.
Proof.
  intros Ed El Eh Et. split; [lia|]. exists [], [], "". rewrite Ed, El, Eh, Et. split; [|done]. split; try done. by exists [].
Qed.
Lemma holds_records d T hist segs live : holds d T hist segs live "" → log_records d = concat segs.*2 ++ live.
Proof.
  intros Hh. pose proof (holds_parts _ _ _ _ _ Hh) as Hp. unfold log_records. rewrite (h_names _ _ _ _ _ _ Hh).
  replace (segs.*1 ++ [logFileName]) with ((segs ++ [(logFileName, live)]).*1) by by rewrite fmap_app.
  replace (concat segs.*2 ++ live) with (concat (segs ++ [(logFileName, live)]).*2) by (rewrite fmap_app, concat_app; simpl; by rewrite app_nil_r).
  induction Hp as [|[name rs] l [Hd He] _ IH]; [done|]. csimpl. rewrite IH. f_equal. simpl in Hd. unfold segment_records.
  destruct (d !! name) as [data|]; simpl in Hd.
  - subst data. rewrite scan_text by done. by apply read_lines_text.
  - by rewrite (text_empty rs).
Qed.
Lemma log_sound_head s l : log_sound s → s_log s = Some l →
  Head l = match last (s_hist s) with Some r => (Digest r, N.of_nat (length (s_hist s))) | None => ("", 0%N) end.
Proof.
  intros (_ & segs & live & torn & _ & Hm) Hl. rewrite Hl in Hm. destruct Hm as [_ [R1 R2 _ _ _]]. unfold Head. rewrite R1, R2. unfold chain_end.
  destruct (last (s_hist s)) eqn:E; [done|]. by apply last_None in E as ->.
Qed.
Lemma log_steps_sound s s' : rtc log_step s s' → log_sound s → log_sound s'.
Proof. induction 1; eauto using log_step_sound. Qed.
End log.

(** ** Properties *)

(** C19. While its clock moves on and a failed write can be taken back, the log
    loses nothing and never breaks its own chain. From an empty directory, through
    any sequence of starts, appends and crashes: each append and crash at a time
    strictly after every earlier one, each record one the codec prints and reads
    back and numbered below 2^64 - 1; writes, syncs and rotations may fail, the
    truncation after a failed append may not; crashes come idle, in a rotation or
    after any number of bytes of a line. Then, whenever a process has the log open,
    the whole log verifies, the head and the count it reports are those of
    everything ever written, and what the files hold is the most recent part of
    that, never empty while there is anything. What an append reported as written is
    in it; what it reported as failed is not. Both conditions are needed:
    [clock_set_back_breaks_the_log], [lost_rollback_breaks_the_log]. *)
Theorem mutation_log_sound sha256hex `{!LogCodec, !Clock} s0 s l :
  s_dir s0 = ∅ → s_log s0 = None → s_hist s0 = [] → s_time s0 = 0%Z → rtc (log_step sha256hex) s0 s → s_log s = Some l →
  VerifyLog sha256hex (s_dir s) = None ∧
  Head l = match last (s_hist s) with Some r => (Digest r, N.of_nat (length (s_hist s))) | None => ("", 0%N) end ∧
  log_records (s_dir s) `suffix_of` s_hist s ∧ last (log_records (s_dir s)) = last (s_hist s).
Proof.
  intros Ed El Eh Et Hst Hl. assert (log_sound sha256hex s) as Hs by eauto using log_steps_sound, log_empty_sound.
  pose proof (log_sound_head _ _ _ Hs Hl) as Hhd. destruct Hs as (_ & segs & live & torn & Hh & Hm). rewrite Hl in Hm. destruct Hm as [-> _].
  rewrite (holds_records _ _ _ _ _ _ Hh). pose proof (holds_verifies _ _ _ _ _ _ Hh) as Hv. split_and!; [done|done| |].
  - destruct (h_hist _ _ _ _ _ _ _ Hh) as (dr & -> & _). by exists dr.
  - destruct (h_hist _ _ _ _ _ _ _ Hh) as (dr & -> & Hdr). rewrite (last_app dr). destruct (last (concat segs.*2 ++ live)) eqn:E; [done|].
    apply last_None, app_nil in E as [E ->]. destruct segs as [|x segs]; [by rewrite Hdr|].
    pose proof (h_segs _ _ _ _ _ _ _ Hh) as [[_ Hne] _]%Forall_cons. csimpl in E. apply app_nil in E as [E _]. by rewrite E in Hne.
Qed.

(** The head pins the whole log down. Two logs that verify and end in
    records with one digest hold the same records as far back as both go: no
    field of any of them can differ and none can be missing in between, unless
    two records of theirs are a collision of SHA-256. *)
Theorem head_pins_the_log sha256hex `{!LogCodec} d d' r r' :
  VerifyLog sha256hex d = None → VerifyLog sha256hex d' = None → below_wrap (log_records d) → below_wrap (log_records d') →
  last (log_records d) = Some r → last (log_records d') = Some r' → Digest r = Digest r' →
  collide sha256hex (log_records d) (log_records d') ∨ log_records d `suffix_of` log_records d' ∨ log_records d' `suffix_of` log_records d.
Proof.
  intros Hv Hv' Hb Hb' Hr Hr' Ed. by eapply linked_suffix; [apply VerifyLog_linked|apply VerifyLog_linked|..].
Qed.

(** ** A codec and a clock that keep these promises *)
Fixpoint bits_text (p : positive) : string :=
  match p with xH => "1" | xO p => String "a" (bits_text p) | xI p => String "b" (bits_text p) end.
Fixpoint bits_read (s : string) : option positive :=
  match s with
  | "1}" => Some xH
  | String "a" s => xO <$> bits_read s
  | String "b" s => xI <$> bits_read s
  | _ => None
  end.
#[export] Instance Record_eq_dec : EqDecision Record_.
Proof. solve_decision. Defined.
#[export] Instance Record_countable : Countable Record_.
Proof.
  refine (inj_countable' (λ r, (Seq r, At r, Operation r, Subject r, Actor r, CallID r, Outcome r, Prev r, Digest r))
    (λ '(n, a, o, s, c, i, u, p, d), {| Seq := n; At := a; Operation := o; Subject := s; Actor := c; CallID := i; Outcome := u;
                                        Prev := p; Digest := d |}) _).
  by intros [].
Defined.
Definition bits_marshal (r : Record_) : string := String "{" (bits_text (encode r) +:+ "}").
Definition bits_unmarshal (s : string) : option Record_ :=
  match s with String "{" s => bits_read s ≫= decode | _ => None end.
Lemma lacks_app c a b : lacks c a → lacks c b → lacks c (a +:+ b).
Proof. induction a as [|x a IH]; [by rewrite string_app_nil|]. intros [? ?] ?. rewrite string_app_cons. split; auto. Qed.
Lemma bits_read_text p : bits_read (bits_text p +:+ "}") = Some p.
Proof. induction p as [p IH|p IH|]; [| |done]; simpl bits_text; rewrite string_app_cons; simpl; by rewrite IH. Qed.
Lemma bits_marshal_trimmed r : TrimSpace (bits_marshal r) = bits_marshal r.
Proof.
  unfold bits_marshal. assert (∀ a b, list_ascii_of_string (a +:+ b) = list_ascii_of_string a ++ list_ascii_of_string b) as Happ.
  { intros a b. induction a as [|c a IH]; [by rewrite string_app_nil|]. rewrite string_app_cons. simpl. by rewrite IH. }
  generalize (bits_text (encode r)). intros x. unfold TrimSpace. simpl list_ascii_of_string. rewrite Happ. simpl list_ascii_of_string.
  set (l := list_ascii_of_string x). unfold trim_left at 2. rewrite strip_None by by vm_compute.
  assert (reverse ("{"%char :: l ++ ["}"%char]) = "}"%char :: reverse ("{"%char :: l)) as ->
    by (change ("{"%char :: l ++ ["}"%char]) with (("{"%char :: l) ++ ["}"%char]); by rewrite reverse_app).
  unfold trim_left. rewrite strip_None by (generalize (reverse ("{"%char :: l)); intros y; by vm_compute).
  rewrite reverse_cons, reverse_involutive. simpl. f_equal. unfold l. rewrite <-(string_of_list_ascii_of_string (x +:+ "}")), Happ. done.
Qed.
#[export, refine] Instance bits_codec : LogCodec := {| Marshal := bits_marshal; Unmarshal := bits_unmarshal; utf8 := λ _, true |}.
Proof.
  - intros r. split; [done|]. apply lacks_app; [|by repeat split]. generalize (encode r). intros p. by induction p; repeat split.
  - apply bits_marshal_trimmed.
  - done.
  - intros r _. simpl. rewrite bits_read_text. simpl. apply decode_encode.
Defined.
(** Sixty-three binary digits. *)
Fixpoint digits (w : nat) (t : Z) : string :=
  match w with
  | 0 => ""
  | S w => if (t <? 2 ^ Z.of_nat w)%Z then String "0" (digits w t) else String "1" (digits w (t - 2 ^ Z.of_nat w))
  end.
Lemma digits_later w t u : (0 <= t < u)%Z → (u < 2 ^ Z.of_nat w)%Z → String.compare (digits w t) (digits w u) = Lt.
Proof.
  revert t u. induction w as [|w IH]; intros t u Ht Hu; [simpl in Hu; lia|]. rewrite Nat2Z.inj_succ, Z.pow_succ_r in Hu by lia. cbn [digits].
  destruct (Z.ltb_spec t (2 ^ Z.of_nat w)), (Z.ltb_spec u (2 ^ Z.of_nat w)); cbn; try done; try lia; apply IH; lia.
Qed.
#[export, refine] Instance digit_clock : Clock := {| rfc3339 := λ t, pretty t; stamp := digits 63 |}.
Proof. intros t u ? ?. by apply digits_later. Defined.

Definition no_faults : Faults :=
  {| f_open := false; f_truncate := false; f_stat := false; f_write := None; f_sync := false; f_rollback := false;
     f_rotate_sync := false; f_close := false; f_rename := false; f_reopen := false; f_create := false; f_remove := λ _, false |}.
Definition no_hash (s : string) : string := s.
(** A log that rotates on every append. *)
Definition demo_unopened : LogState := {| s_dir := ∅; s_log := None; s_time := 0; s_hist := [] |}.
Definition reopened (s : LogState) : LogState :=
  let '(d, r) := OpenMutationLog (s_dir s) 1 4 no_faults in
  {| s_dir := d; s_log := match r with inr l => Some l | inl _ => None end; s_time := s_time s; s_hist := s_hist s |}.
Definition appended (s : LogState) (now : Z) (subject : string) : LogState :=
  match s_log s with
  | None => s
  | Some l =>
      let '(d, l', res) := Append no_hash (s_dir s) l now no_faults "apply" subject "op" "c" "ok" in
      {| s_dir := d; s_log := Some l'; s_time := now; s_hist := s_hist s ++ match res with inr r => [r] | inl _ => [] end |}
  end.
Lemma reopened_step s : s_log s = None → log_step no_hash s (reopened s).
Proof. intros Hn. unfold reopened. destruct (OpenMutationLog _ _ _ _) as [d r] eqn:E. by eapply log_opens. Qed.
Lemma appended_step s now subject :
  match s_log s with
  | Some l => (s_time s < now < 2^63)%Z ∧ (N.of_nat (length (s_hist s)) + 2 < 2^64)%N ∧
      (Z.of_nat (String.length (Marshal (next_record no_hash l now "apply" subject "op" "c" "ok"))) < 2^20)%Z
  | None => False
  end → log_step no_hash s (appended s now subject).
Proof.
  destruct (s_log s) as [l|] eqn:El; [|done]. intros (Ht & Hb & Hlen). unfold appended. rewrite El.
  destruct (Append _ _ _ _ _ _ _ _ _ _) as [[d l'] res] eqn:E. eapply (log_appends _ _ l now no_faults "apply" subject "op" "c" "ok"); [done|done|done|done| |exact E]. unfold recordable, encodable, maxLine. split_and?; first [done|lia].
Qed.
Definition demo_log : LogState := appended (appended (reopened demo_unopened) 3 "ada") 5 "bob".
Lemma demo_log_steps : rtc (log_step no_hash) demo_unopened demo_log.
Proof.
  apply rtc_l with (reopened demo_unopened); [by apply reopened_step|].
  apply rtc_l with (appended (reopened demo_unopened) 3 "ada"); [apply appended_step; by vm_compute|].
  apply rtc_once, appended_step. by vm_compute.
Qed.
Lemma mutation_log_sound_witness :
  ∃ l, s_log demo_log = Some l ∧ VerifyLog no_hash (s_dir demo_log) = None ∧ (Head l).2 = 2%N.
Proof.
  destruct (s_log demo_log) as [l|] eqn:El; [|by vm_compute in El].
  destruct (mutation_log_sound no_hash demo_unopened demo_log l eq_refl eq_refl eq_refl eq_refl demo_log_steps El) as (Hv & Hh & _).
  exists l. split_and!; [reflexivity|exact Hv|]. rewrite Hh. by vm_compute.
Defined.
Lemma head_pins_the_log_witness :
  log_records (s_dir demo_log) `suffix_of` log_records (s_dir demo_log) ∨
    log_records (s_dir demo_log) `suffix_of` log_records (s_dir demo_log).
Proof.
  assert (VerifyLog no_hash (s_dir demo_log) = None) as Hv by by vm_compute.
  assert (below_wrap (log_records (s_dir demo_log))) as Hb.
  { assert (forallb (λ r, (Seq r + 1 <? 2^64)%N) (log_records (s_dir demo_log)) = true) as Hf by by vm_compute.
    intros r Hr. rewrite forallb_forall in Hf. apply N.ltb_lt, Hf. by apply list_elem_of_In. }
  destruct (last (log_records (s_dir demo_log))) as [r|] eqn:Er; [|by vm_compute in Er].
  destruct (head_pins_the_log no_hash _ _ r r Hv Hv Hb Hb Er Er eq_refl) as [(x & y & _ & _ & Hne & E)|Hs]; [destruct (Hne E)|exact Hs].
Defined.
(** The suffix of a rotated file orders the files by the clock, not by when they
    were written. When the clock was set back between two rotations, the newest
    file is not the last one: a restart takes up an old head, and the log no
    longer verifies. *)
Example clock_set_back_breaks_the_log :
  let s := demo_log in
  let dir := match s_log s with Some l => (rotateIfNeededLocked (s_dir s) l 4 no_faults).1.1 | None => s_dir s end in
  let after := reopened {| s_dir := dir; s_log := None; s_time := 5; s_hist := s_hist s |} in
  length (s_hist s) = 2 ∧ (seq <$> s_log after) = Some 1%N ∧ VerifyLog no_hash (s_dir after) ≠ None.
Proof. by vm_compute. Qed.
(** A line was written, its sync failed, and so did the truncation that takes it
    back: the append is reported as failed and its record stays in the file. The
    next record repeats its number, and the log no longer verifies. *)
Example lost_rollback_breaks_the_log :
  let f := {| f_open := false; f_truncate := false; f_stat := false; f_write := None; f_sync := true; f_rollback := true;
     f_rotate_sync := false; f_close := false; f_rename := false; f_reopen := false; f_create := false; f_remove := λ _, false |} in
  match s_log demo_log with
  | Some l =>
      let '(d, l', res) := Append no_hash (s_dir demo_log) l 7 f "apply" "eve" "op" "c" "ok" in
      let '(d', _, res') := Append no_hash d l' 9 no_faults "apply" "fay" "op" "c" "ok" in
      res = inl err_fsync ∧ (Seq <$> last (log_records d)) = Some 3%N ∧ (∃ r, res' = inr r ∧ Seq r = 3%N) ∧ VerifyLog no_hash d' ≠ None
  | None => False
  end.
Proof. vm_compute. split_and!; try done. by eexists. Qed.
