(* ===== verification/Username.v ===== *)
(** * Username: the account name a person gets on the NAS

    addons/truenas/username.go. Names are byte lists here; an address is read
    rune by rune as Go ranges over a string, invalid bytes as one replacement
    rune each. unicode.ToLower outside ASCII and SHA-256 are parameters. *)

From S2P Require Import Prelude Text.

Class Unicode := {
  to_lower : N → N;
  to_lower_ascii r : (r < 128)%N → to_lower r = if (65 <=? r)%N && (r <=? 90)%N then (r + 32)%N else r;
}.

(** ** Runes *)
Definition RuneError : N := 65533.
Definition tail_bits (a : ascii) : N := N.land (N_of_ascii a) 63.
Definition decode_rune (b : ascii) (l : list ascii) : N * list ascii :=
  let n := N_of_ascii b in
  let two lo hi := match l with c :: r => if between lo hi c then Some (c, r) else None | [] => None end in
  let three lo hi :=
    match l with
    | c :: d :: r => if between lo hi c && between 128 191 d then Some (c, d, r) else None
    | _ => None
    end in
  let four lo hi :=
    match l with
    | c :: d :: e :: r => if between lo hi c && between 128 191 d && between 128 191 e then Some (c, d, e, r) else None
    | _ => None
    end in
  let second (first : N) := (n =? first)%N in
  if (n <? 128)%N then (n, l)
  else if between 194 223 b then
    match two 128%N 191%N with Some (c, r) => (N.lor (N.shiftl (N.land n 31) 6) (tail_bits c), r)%N | None => (RuneError, l) end
  else if between 224 239 b then
    match three (if second 224 then 160 else 128)%N (if second 237 then 159 else 191)%N with
    | Some (c, d, r) => (N.lor (N.shiftl (N.land n 15) 12) (N.lor (N.shiftl (tail_bits c) 6) (tail_bits d)), r)%N
    | None => (RuneError, l)
    end
  else if between 240 244 b then
    match four (if second 240 then 144 else 128)%N (if second 244 then 143 else 191)%N with
    | Some (c, d, e, r) =>
        (N.lor (N.shiftl (N.land n 7) 18) (N.lor (N.shiftl (tail_bits c) 12) (N.lor (N.shiftl (tail_bits d) 6) (tail_bits e))), r)%N
    | None => (RuneError, l)
    end
  else (RuneError, l).
(** Each rune takes a byte or more, so the bytes bound the runes. *)
Fixpoint runes_from (fuel : nat) (l : list ascii) : list N :=
  match fuel, l with
  | S fuel, b :: l => let '(r, l) := decode_rune b l in r :: runes_from fuel l
  | _, _ => []
  end.
Definition runes (s : string) : list N := let l := list_ascii_of_string s in runes_from (length l) l.

(** ** Bytes of a name *)
Definition is_lower_alnum (a : ascii) : bool := between 97 122 a || between 48 57 a.
Definition is_alnum (a : ascii) : bool := is_lower_alnum a || between 65 90 a.
Fixpoint cut_at {A} (p : A → bool) (l : list A) : list A :=
  match l with [] => [] | x :: l => if p x then [] else x :: cut_at p l end.
Fixpoint drop_while {A} (p : A → bool) (l : list A) : list A :=
  match l with [] => [] | x :: r => if p x then drop_while p r else l end.
Definition TrimRight (cut : string) (l : list ascii) : list ascii := reverse (drop_while (is_one_of cut) (reverse l)).

Definition usernameMaxLen : nat := 32.
Definition suffixLen : nat := 5.

Section derivation.
Context `{!Unicode} (sha256 : string → string).

(** A rune of the pattern, or an underscore. *)
Definition name_byte (r : N) : ascii :=
  if ((97 <=? r) && (r <=? 122) || (48 <=? r) && (r <=? 57) || (r =? 95) || (r =? 46) || (r =? 45))%N
  then ascii_of_N r else "_"%char.
Definition normalizeLocalpart (email : string) : list ascii :=
  let local := TrimSpace (string_of_list_ascii (cut_at (is_one_of "@") (list_ascii_of_string email))) in
  let out := name_byte <$> cut_at (λ r, (r =? 43)%N) (to_lower <$> runes local) in
  if negb (existsb is_lower_alnum out) then []
  else match out with
  | c :: _ => if negb (is_lower_alnum c) && negb (is_one_of "_" c) then "u"%char :: out else out
  | [] => out
  end.
Definition clampUsername (s : list ascii) (n : nat) : list ascii :=
  TrimRight ".-" (take (if n <? 1 then 1 else n) s).

(** Base32 without padding, lower case. *)
Definition symbol (n : N) : ascii := if (n <? 26)%N then ascii_of_N (97 + n) else ascii_of_N (24 + n).
Definition bits_value (bs : list bool) : N := foldl (λ acc b, (2 * acc + N.b2n b)%N) 0%N bs.
Fixpoint base32 (bs : list bool) : list ascii :=
  match bs with
  | a :: b :: c :: d :: e :: rest => symbol (bits_value [a; b; c; d; e]) :: base32 rest
  | [] => []
  | part => [symbol (bits_value (take 5 (part ++ repeat false 4)))]
  end.
Definition byte_bits (a : ascii) : list bool :=
  (λ i, N.testbit (N_of_ascii a) i) <$> [7; 6; 5; 4; 3; 2; 1; 0]%N.
Definition digestSuffix (subjectID : string) (n : nat) : list ascii :=
  let encoded := base32 (list_ascii_of_string (sha256 subjectID) ≫= byte_bits) in
  if length encoded <? n then encoded else take n encoded.

Definition DeriveUsername (email subjectID : string) (collides : string → bool) : string :=
  let local := normalizeLocalpart email in
  let base := if bool_decide (local = []) then "u"%char :: digestSuffix subjectID 8 else local in
  let candidate := string_of_list_ascii (clampUsername base usernameMaxLen) in
  if negb (collides candidate) then candidate
  else string_of_list_ascii (clampUsername base (usernameMaxLen - suffixLen) ++ "_"%char :: digestSuffix subjectID 4).
End derivation.

Definition valid_body (body : list ascii) : bool :=
  match body with
  | [] => false
  | first :: rest => (is_alnum first || is_one_of "_" first) && forallb (λ c, is_alnum c || is_one_of "_.-" c) rest
  end.
Definition ValidUsername (s : string) : bool :=
  let l := list_ascii_of_string s in
  if (s =? "") || (usernameMaxLen <? length l) then false
  else valid_body (if bool_decide (last l = Some "$"%char) then take (length l - 1) l else l).

(** ** Facts *)
Definition name_rest (c : ascii) : bool := is_alnum c || is_one_of "_.-" c.
Definition name_first (c : ascii) : bool := is_alnum c || is_one_of "_" c.
(** What a name is made of: a first byte of the narrow set, the rest of the wide. *)
Definition shaped (l : list ascii) : Prop := ∃ c r, l = c :: r ∧ name_first c = true ∧ Forall (λ c, name_rest c = true) r.
Lemma name_first_rest c : name_first c = true → name_rest c = true.
Proof.
  unfold name_first, name_rest. intros [->|E]%orb_true_iff; [done|]. apply orb_true_iff; right.
  apply bool_decide_eq_true in E. apply bool_decide_eq_true. simpl in *. set_solver.
Qed.
Lemma name_first_kept c : name_first c = true → is_one_of ".-" c = false.
Proof.
  intros Hc. apply bool_decide_eq_false. simpl. intros [->|[->|[]%elem_of_nil]%elem_of_cons]%elem_of_cons; by vm_compute in Hc.
Qed.
Lemma name_rest_dollar : name_rest "$" = false.
Proof. done. Qed.
Lemma ascii_of_N_small r : (r < 256)%N → N_of_ascii (ascii_of_N r) = r.
Proof. apply N_ascii_embedding. Qed.
Lemma name_byte_rest r : name_rest (name_byte r) = true.
Proof.
  unfold name_byte. destruct (_ || _)%bool eqn:E; [|done]. rewrite !orb_true_iff, !andb_true_iff, !N.leb_le, !N.eqb_eq in E.
  unfold name_rest, is_alnum, is_lower_alnum, between. rewrite ascii_of_N_small by lia.
  destruct E as [[[[? | ?]| ->]| ->]| ->]; try done; apply orb_true_iff; left; rewrite !orb_true_iff, !andb_true_iff, !N.leb_le; lia.
Qed.
Lemma symbol_rest n : (n < 32)%N → name_rest (symbol n) = true.
Proof.
  intros Hn. unfold symbol, name_rest, is_alnum, is_lower_alnum, between. destruct (N.ltb_spec n 26);
    rewrite ascii_of_N_small by lia; apply orb_true_iff; left; rewrite !orb_true_iff, !andb_true_iff, !N.leb_le; lia.
Qed.
Lemma bits_value_bound bs : (bits_value bs < 2 ^ N.of_nat (length bs))%N.
Proof.
  unfold bits_value. induction bs as [|b bs IH] using rev_ind; [done|]. rewrite foldl_app, length_app. simpl.
  replace (N.of_nat (length bs + 1)) with (N.succ (N.of_nat (length bs))) by lia. rewrite N.pow_succ_r'. destruct b; simpl N.b2n; lia.
Qed.
Lemma base32_rest bs : Forall (λ c, name_rest c = true) (base32 bs).
Proof.
  assert (∀ n bs, length bs ≤ n → Forall (λ c, name_rest c = true) (base32 bs)) as H; [|by eapply H].
  clear bs. intros n. induction n as [|n IH]; intros bs Hn; [by destruct bs; [constructor|simpl in Hn; lia]|].
  assert (∀ l : list bool, length l ≤ 5 → name_rest (symbol (bits_value l)) = true) as Hs.
  { intros l Hl. apply symbol_rest. eapply N.lt_le_trans; [apply bits_value_bound|].
    change 32%N with (2 ^ 5)%N. apply N.pow_le_mono_r; lia. }
  destruct bs as [|b1 [|b2 [|b3 [|b4 [|b5 bs]]]]]; cbn [base32]; [constructor|..]; try (constructor; [apply Hs; rewrite length_take; lia|constructor]).
  constructor; [by apply Hs|]. apply IH. simpl in Hn. lia.
Qed.
Lemma digestSuffix_rest sha256 s n : Forall (λ c, name_rest c = true) (digestSuffix sha256 s n).
Proof. unfold digestSuffix. case_match; [apply base32_rest|apply Forall_take, base32_rest]. Qed.
Lemma digestSuffix_length sha256 s n : length (digestSuffix sha256 s n) ≤ n.
Proof. unfold digestSuffix. destruct (Nat.ltb_spec (length (base32 (list_ascii_of_string (sha256 s) ≫= byte_bits))) n); [lia|]. rewrite length_take. lia. Qed.
Lemma drop_while_suffix {A} (p : A → bool) l : ∃ k, l = k ++ drop_while p l ∧ Forall (λ x, p x = true) k.
Proof.
  induction l as [|x l (k & E & Hk)]; [by exists []|]. simpl. destruct (p x) eqn:Ex; [|by exists []].
  exists (x :: k). simpl. by rewrite <-E; auto.
Qed.
Lemma TrimRight_prefix cut l : ∃ k, l = TrimRight cut l ++ k ∧ Forall (λ c, is_one_of cut c = true) k.
Proof.
  unfold TrimRight. destruct (drop_while_suffix (is_one_of cut) (reverse l)) as (k & E & Hk). exists (reverse k).
  split; [|by apply Forall_reverse]. rewrite <-reverse_app, <-E. by rewrite reverse_involutive.
Qed.
Lemma shaped_clamp l n : shaped l → shaped (clampUsername l n) ∧ length (clampUsername l n) ≤ n `max` 1.
Proof.
  intros (c & r & -> & Hc & Hr). unfold clampUsername. set (m := if n <? 1 then 1 else n).
  assert (1 ≤ m ≤ n `max` 1) as Hm by (subst m; destruct (Nat.ltb_spec n 1); lia).
  destruct (TrimRight_prefix ".-" (take m (c :: r))) as (k & E & Hk). destruct m as [|m]; [lia|]. cbn [take] in E.
  destruct (TrimRight ".-" _) as [|c' r'] eqn:Et.
  { simpl in E. subst k. apply Forall_cons in Hk as [Hk _]. by rewrite name_first_kept in Hk. }
  simpl in E. injection E as <- Er. split.
  - exists c, r'. split_and!; [done|done|]. assert (Forall (λ c, name_rest c = true) (take m r)) as Ht by by apply Forall_take. rewrite Er in Ht. clear Hr. rename Ht into Hr. by apply Forall_app in Hr as [? _].
  - assert (length (take m r) ≤ m) as Hl by (rewrite length_take; lia). rewrite Er, length_app in Hl. simpl. lia.
Qed.
Lemma shaped_app l k : shaped l → Forall (λ c, name_rest c = true) k → shaped (l ++ k).
Proof. intros (c & r & -> & Hc & Hr) Hk. exists c, (r ++ k). split_and!; [done|done|]. by apply Forall_app. Qed.
Lemma normalize_shaped `{!Unicode} email : normalizeLocalpart email ≠ [] → shaped (normalizeLocalpart email).
Proof.
  unfold normalizeLocalpart. set (out := name_byte <$> _). intros Hne. destruct (negb _) eqn:Ea; [done|].
  assert (Forall (λ c, name_rest c = true) out) as Ho. { apply Forall_fmap, Forall_true. intros r. apply name_byte_rest. }
  destruct out as [|c r]; [done|]. destruct (_ && _) eqn:Ec; [by exists "u"%char, (c :: r)|].
  exists c, r. apply Forall_cons in Ho as [? ?]. split_and!; [done| |done]. unfold name_first, is_alnum.
  apply andb_false_iff in Ec as [->%negb_false_iff| ->%negb_false_iff]; [done|]. by rewrite orb_true_r.
Qed.
Lemma shaped_valid l : shaped l → length l ≤ usernameMaxLen → ValidUsername (string_of_list_ascii l) = true.
Proof.
  intros (c & r & -> & Hc & Hr) Hl. unfold ValidUsername. rewrite list_ascii_of_string_of_list_ascii.
  rewrite bool_decide_false by done. destruct (Nat.ltb_spec usernameMaxLen (length (c :: r))); [lia|]. simpl.
  rewrite bool_decide_false.
  - simpl. apply andb_true_iff. split; [exact Hc|]. apply forallb_forall. intros x Hx%list_elem_of_In. rewrite Forall_forall in Hr. by apply Hr.
  - intros E. assert (Forall (λ c, name_rest c = true) (c :: r)) as Ha by (constructor; [by apply name_first_rest|done]).
    rewrite Forall_forall in Ha. assert ("$"%char ∈ c :: r) as Hin by (by apply last_Some_elem_of). apply Ha in Hin. done.
Qed.

(** ** Properties *)

(** The account name is always one TrueNAS accepts. For every address,
    however it is encoded, every subject and every set of names taken, the
    derived name has between one and thirty-two bytes of the target's pattern,
    and it is the plain name unless that is taken. *)
Theorem DeriveUsername_valid `{!Unicode} sha256 email subject collides :
  let name := DeriveUsername sha256 email subject collides in
  ValidUsername name = true ∧ 0 < String.length name ≤ usernameMaxLen ∧
  (name = DeriveUsername sha256 email subject (λ _, false) ∨ collides (DeriveUsername sha256 email subject (λ _, false)) = true).
Proof.
  assert (∀ s, ValidUsername s = true → 0 < String.length s ≤ usernameMaxLen) as Hlen.
  { intros s. unfold ValidUsername. case_bool_decide as Hs; [done|]. destruct (Nat.ltb_spec usernameMaxLen (length (list_ascii_of_string s))) as [|Hl]; [done|].
    intros _. assert (length (list_ascii_of_string s) = String.length s) as E by by (clear; induction s; simpl; congruence).
    rewrite E in Hl. split; [|done]. destruct s; [done|simpl; lia]. }
  intros name. assert (ValidUsername name = true) as Hv; [|split_and!; [done|by apply Hlen..|]].
  - unfold name, DeriveUsername. set (base := if bool_decide _ then _ else _).
    assert (shaped base) as Hb.
    { unfold base. case_bool_decide as Hn; [|by apply normalize_shaped]. exists "u"%char, (digestSuffix sha256 subject 8).
      split_and!; [done|done|apply digestSuffix_rest]. }
    destruct (negb _).
    + destruct (shaped_clamp base usernameMaxLen Hb). by apply shaped_valid.
    + destruct (shaped_clamp base (usernameMaxLen - suffixLen) Hb) as [Hs Hl]. apply shaped_valid.
      * apply shaped_app; [done|]. constructor; [done|apply digestSuffix_rest].
      * rewrite length_app, length_cons. pose proof (digestSuffix_length sha256 subject 4). change (usernameMaxLen - suffixLen) with 27 in *. change usernameMaxLen with 32. lia.
  - unfold name, DeriveUsername. set (cand := string_of_list_ascii (clampUsername _ usernameMaxLen)). cbn [negb]. destruct (collides cand); [by right|by left].
Qed.
