(* ===== verification/Tables.v ===== *)
(** * Tables: what Syndra records beside the outbox

    The rows of bundles, bundle versions, assignments, mapping rules, plans,
    desired-state snapshots, role mappings with their versions, allowances, and
    accounts bound on add-on targets, as the statements of
    backend/internal/db read and write them (the Go structs are in
    models/models.go, db/plans.go, db/mappings.go, db/allowances.go,
    db/target_bindings.go, db/binding_conflicts.go and db/merge_bases.go). A
    nullable column is an option, a timestamp a Z in nanoseconds. The outbox and
    the ledger are in Outbox.v, whose [Db] carries these tables. *)

From S2P Require Import Prelude Access.

(** ** Bundles and rules *)
Record Bundle := {
  b_ID : string;
  b_Name : string;
  b_Description : string;
  b_IsWelcome : bool;
  b_CreatedAt : Z;
  b_RetiredAt : option Z;
  b_RetiredBy : option string;
}.

Record BundleVersion := {
  v_ID : string;
  v_BundleID : string;
  v_Version : Z;
  v_Note : string;
  v_PublishedBy : string;
}.

(** A role a bundle or one of its versions carries; [Some] owner names the
    included bundle it comes through. *)
Record BundleRole := {
  br_ProjectID : string;
  br_RoleKey : string;
  br_ViaBundleID : option string;
}.

(** bundle_includes (the owner is the parent bundle) and
    bundle_version_includes (the owner is a version). *)
Record BundleInclude := {
  in_Owner : string;
  in_ChildBundleID : string;
  in_ChildVersionID : string;
}.

Record Assignment := {
  as_UserID : string;
  as_BundleID : string;
  as_VersionID : string;
  as_Source : string;
  as_AssignedBy : option string;
  as_MovedFrom : option Z;
}.

(** mapping_rules: a rule with when and by whom it was retired. *)
Record RuleRow := {
  rule : MappingRule;
  rule_RetiredAt : option Z;
  rule_RetiredBy : option string;
}.

Record Catalog := {
  bundles : list Bundle;
  bundle_roles : list (string * Role);       (* working copies: bundle, role *)
  versions : list BundleVersion;
  version_roles : list (string * Role);      (* version, role *)
  includes : list BundleInclude;
  version_includes : list BundleInclude;
  assignments : list Assignment;
  rules : list RuleRow;
}.

(** ** The entitlement plane *)

(** What one field of a desired state says: a JSON array of texts, or a flag. *)
Inductive FieldValue := Values (vs : list string) | Flag (b : bool).
#[export] Instance FieldValue_eq_dec : EqDecision FieldValue.
Proof. solve_decision. Defined.

Record SnapshotRow := {
  sn_ID : string;
  sn_SubjectID : string;
  sn_Target : string;
  sn_Version : Z;
  sn_State : gmap string FieldValue;
  sn_CreatedBy : string;
}.

Record PlanOutcome := { o_Effect : string; o_GrantIDs : list string; o_CancelIDs : list string }.

Record Plan := {
  pl_ID : string;
  pl_Target : string;
  pl_Surface : string;
  pl_CreatedBy : string;
  pl_CreatedAt : Z;
  pl_ExpiresAt : option Z;
  pl_Provisional : bool;
  pl_StateReadAt : option Z;
  pl_AppliedAt : option Z;
  pl_RequestFingerprint : string;
}.

Record PlanSubject := {
  ps_ID : string;
  ps_PlanID : string;
  ps_SubjectID : string;
  ps_SnapshotID : option string;
  ps_Fingerprint : string;
  ps_Outcome : PlanOutcome;
}.

Record RoleMapping := {
  m_ID : string;
  m_Target : string;
  m_ProjectID : string;
  m_RoleKey : string;
  m_Field : string;
  m_Value : string;
  m_CreatedBy : string;
  m_UpdatedBy : string;
  m_CreatedAt : Z;
  m_UpdatedAt : Z;
}.
#[export] Instance RoleMapping_eq_dec : EqDecision RoleMapping.
Proof. solve_decision. Defined.

(** target_mapping_versions with their entries. *)
Record MappingVersionEntry := {
  me_ProjectID : string;
  me_RoleKey : string;
  me_Field : string;
  me_Value : string;
}.
#[export] Instance MappingVersionEntry_eq_dec : EqDecision MappingVersionEntry.
Proof. solve_decision. Defined.
Record MappingVersion := {
  mv_ID : string;
  mv_Target : string;
  mv_Version : Z;
  mv_Note : string;
  mv_PublishedBy : string;
  mv_Entries : list MappingVersionEntry;
}.

(** Directions an allowance may carry. *)
Definition AllowanceDeny : string := "deny".
Definition AllowanceAllow : string := "allow".
Definition AllowanceSet : string := "set".

Record Allowance := {
  al_ID : string;
  al_SubjectID : string;
  al_Target : string;
  al_Field : string;
  al_Value : string;
  al_Direction : string;
  al_ActorID : string;
  al_Reason : string;
  al_CreatedAt : Z;
  al_ExpiresAt : option Z;
  al_ReviewDate : option Z;
  al_LiftedAt : option Z;
  al_LiftedBy : option string;
}.

(** ** Accounts on add-on targets *)
Record TargetBinding := {
  tb_Target : string;
  tb_SubjectID : string;
  tb_Username : string;
  tb_AccountUID : option Z;
  tb_BoundBy : string;
  tb_BoundAt : Z;
  tb_LastSeenAt : Z;
}.
Record BindingConflict := {
  bc_ID : string;
  bc_Target : string;
  bc_Username : string;
  bc_AccountUID : option Z;
  bc_ConvergedSubjectID : string;
  bc_BoundSubjectID : string;
  bc_OutboxID : string;
  bc_DetectedAt : Z;
  bc_Resolved : option (Z * string * string);   (* when, by whom, the note *)
}.
(** What a target reported of a subject, field by field as raw JSON. *)
Record MergeBase := { mb_Base : gmap string string; mb_ObservedAt : Z }.

Record Tables := {
  catalog : Catalog;
  plans : list Plan;
  plan_subjects : list PlanSubject;
  snapshots : list SnapshotRow;
  mappings : list RoleMapping;
  mapping_versions : list MappingVersion;
  target_projects : gmap string string;      (* targets.project_id *)
  allowances : list Allowance;
  bindings : list TargetBinding;
  conflicts : list BindingConflict;
  merge_bases : gmap (string * string) MergeBase;   (* target, subject *)
}.

Definition empty_catalog : Catalog :=
  {| bundles := []; bundle_roles := []; versions := []; version_roles := []; includes := [];
     version_includes := []; assignments := []; rules := [] |}.
Definition empty_tables : Tables :=
  {| catalog := empty_catalog; plans := []; plan_subjects := []; snapshots := []; mappings := [];
     mapping_versions := []; target_projects := ∅; allowances := []; bindings := []; conflicts := []; merge_bases := ∅ |}.

(** The policy tables: neither the plans with the snapshots they freeze, nor
    what is recorded about accounts on targets. *)
Definition standing_policy (t : Tables) :=
  (catalog t, mappings t, mapping_versions t, target_projects t, allowances t).

(** ** Replacing one table *)
Definition with_catalog (t : Tables) (c : Catalog) : Tables :=
  {| catalog := c; plans := plans t; plan_subjects := plan_subjects t; snapshots := snapshots t;
     mappings := mappings t; mapping_versions := mapping_versions t; target_projects := target_projects t;
     allowances := allowances t; bindings := bindings t; conflicts := conflicts t; merge_bases := merge_bases t |}.
Definition with_plans (t : Tables) (ps : list Plan) (ss : list PlanSubject) : Tables :=
  {| catalog := catalog t; plans := ps; plan_subjects := ss; snapshots := snapshots t;
     mappings := mappings t; mapping_versions := mapping_versions t; target_projects := target_projects t;
     allowances := allowances t; bindings := bindings t; conflicts := conflicts t; merge_bases := merge_bases t |}.
Definition with_snapshots (t : Tables) (ss : list SnapshotRow) : Tables :=
  {| catalog := catalog t; plans := plans t; plan_subjects := plan_subjects t; snapshots := ss;
     mappings := mappings t; mapping_versions := mapping_versions t; target_projects := target_projects t;
     allowances := allowances t; bindings := bindings t; conflicts := conflicts t; merge_bases := merge_bases t |}.
Definition with_mappings (t : Tables) (ms : list RoleMapping) (vs : list MappingVersion) : Tables :=
  {| catalog := catalog t; plans := plans t; plan_subjects := plan_subjects t; snapshots := snapshots t;
     mappings := ms; mapping_versions := vs; target_projects := target_projects t;
     allowances := allowances t; bindings := bindings t; conflicts := conflicts t; merge_bases := merge_bases t |}.
Definition with_target_projects (t : Tables) (m : gmap string string) : Tables :=
  {| catalog := catalog t; plans := plans t; plan_subjects := plan_subjects t; snapshots := snapshots t;
     mappings := mappings t; mapping_versions := mapping_versions t; target_projects := m;
     allowances := allowances t; bindings := bindings t; conflicts := conflicts t; merge_bases := merge_bases t |}.
Definition with_allowances (t : Tables) (al : list Allowance) : Tables :=
  {| catalog := catalog t; plans := plans t; plan_subjects := plan_subjects t; snapshots := snapshots t;
     mappings := mappings t; mapping_versions := mapping_versions t; target_projects := target_projects t;
     allowances := al; bindings := bindings t; conflicts := conflicts t; merge_bases := merge_bases t |}.
Definition with_bindings (t : Tables) (bs : list TargetBinding) (cs : list BindingConflict) : Tables :=
  {| catalog := catalog t; plans := plans t; plan_subjects := plan_subjects t; snapshots := snapshots t;
     mappings := mappings t; mapping_versions := mapping_versions t; target_projects := target_projects t;
     allowances := allowances t; bindings := bs; conflicts := cs; merge_bases := merge_bases t |}.
Definition with_merge_bases (t : Tables) (m : gmap (string * string) MergeBase) : Tables :=
  {| catalog := catalog t; plans := plans t; plan_subjects := plan_subjects t; snapshots := snapshots t;
     mappings := mappings t; mapping_versions := mapping_versions t; target_projects := target_projects t;
     allowances := allowances t; bindings := bindings t; conflicts := conflicts t; merge_bases := m |}.

Definition with_bundles (c : Catalog) (bs : list Bundle) : Catalog :=
  {| bundles := bs; bundle_roles := bundle_roles c; versions := versions c; version_roles := version_roles c;
     includes := includes c; version_includes := version_includes c; assignments := assignments c;
     rules := rules c |}.
Definition with_working (c : Catalog) (rs : list (string * Role)) (ins : list BundleInclude) : Catalog :=
  {| bundles := bundles c; bundle_roles := rs; versions := versions c; version_roles := version_roles c;
     includes := ins; version_includes := version_includes c; assignments := assignments c;
     rules := rules c |}.
Definition with_versions (c : Catalog) (vs : list BundleVersion) (rs : list (string * Role))
    (ins : list BundleInclude) : Catalog :=
  {| bundles := bundles c; bundle_roles := bundle_roles c; versions := vs; version_roles := rs;
     includes := includes c; version_includes := ins; assignments := assignments c; rules := rules c |}.
Definition with_assignments (c : Catalog) (l : list Assignment) : Catalog :=
  {| bundles := bundles c; bundle_roles := bundle_roles c; versions := versions c;
     version_roles := version_roles c; includes := includes c; version_includes := version_includes c;
     assignments := l; rules := rules c |}.
Definition with_rules (c : Catalog) (l : list RuleRow) : Catalog :=
  {| bundles := bundles c; bundle_roles := bundle_roles c; versions := versions c;
     version_roles := version_roles c; includes := includes c; version_includes := version_includes c;
     assignments := assignments c; rules := l |}.
