(* ===== verification/Outbox.v ===== *)
(** * Outbox: the propagation outbox and what the drain does to it

    backend/internal/db/propagations.go, propagation_memory.go, role_waits.go
    and the deregistration in targets.go. A table is a list of rows; each
    function is its SQL statement, evaluated: a WHERE clause is a boolean on the
    row, a NULL column is [None] and a comparison with it is not true. A row's
    columns are in two records: those fixed when it is inserted, and those a
    statement here changes. NOW() is the clock of the database state; times are
    in nanoseconds. Connection failures are the callers' concern (Drain.v): a
    statement that fails changes nothing. *)

From S2P Require Import Prelude Access Tables Extcall.

(** ** The tables *)
Inductive OpType := op_add | op_revoke | op_replace | op_apply.
Inductive Status := pending | in_flight | applied | failed | superseded | abandoned.
#[export] Instance OpType_eq_dec : EqDecision OpType.
Proof. solve_decision. Defined.
#[export] Instance Status_eq_dec : EqDecision Status.
Proof. solve_decision. Defined.

(** The approved snapshot behind a row, through its plan subject. *)
Record Snapshot := { s_subject : string; s_target : string; s_version : Z }.

Record Progress := {
  status : Status;
  attempts : nat;
  last_error : option string;
  started_at : option Z;
  completed_at : option Z;
  confirmed_at : option Z;
  not_before : option Z;
  wait_reason : option string;
}.

Record Row := {
  id : string;
  target : string;
  op_type : OpType;
  user_id : string;
  project_id : option string;
  role_keys : option (list string);
  source : string;
  source_ref : option string;
  cascade_id : option string;
  zitadel_grant_id : option string;
  payload_json : string;
  idempotency_key : string;
  initiated_by : string;
  reason : option string;
  withdraws_only : bool;
  intent_seq : Z;
  created_at : Z;
  plan_subject_id : option string;
  snapshot : option Snapshot;
  progress : Progress;
}.

(** A row of direct_role_grants, the intent ledger. *)
Record Grant := {
  g_id : string;
  g_user : string;
  g_project : string;
  g_role : string;
  g_granted_by : string;
  g_reason : string;
  g_expires_at : option Z;
  g_source : string;
  g_source_ref : option string;
}.

Record AuditLog := { a_actor : string; a_subject : string; a_action : string; a_resource : string;
                     a_cascade : option string; a_details : string }.
Record Propagation := { p_applied_at : Z; p_outbox_id : option string; p_actor : string }.
(** What a request asks: to have a role, or to keep one longer; for so many
    days, or until a date; no time being for good. *)
Record Ask := { k_kind : string; k_justification : string; k_days : option Z; k_until : option Z; k_created : Z }.
Record AccessRequest := { q_id : string; q_user : string; q_project : string; q_role : string;
                          q_status : string; q_reviewer : string; q_note : string; q_ask : Ask;
                          q_resolved : option Z; q_ended_before : option Z; q_ends_after : option Z }.

Record Db := {
  now : Z;
  outbox : list Row;
  targets : gmap string bool;                    (* registered; true when active *)
  role_waits : list (string * string);
  ledger : list Grant;
  audit_logs : list AuditLog;
  memory : gmap (string * string * string) Propagation;   (* target, subject, field *)
  requests : list AccessRequest;
  grant_index : gmap (string * string) string;   (* user, project -> grant id *)
  gave_up_seen : gmap string Z;
  tables : Tables;
  next_intent : Z;
  next_uuid : nat;
}.

Definition with_progress (r : Row) (p : Progress) : Row :=
  {| id := id r; target := target r; op_type := op_type r; user_id := user_id r;
     project_id := project_id r; role_keys := role_keys r; source := source r;
     source_ref := source_ref r; cascade_id := cascade_id r; zitadel_grant_id := zitadel_grant_id r;
     payload_json := payload_json r; idempotency_key := idempotency_key r;
     initiated_by := initiated_by r; reason := reason r; withdraws_only := withdraws_only r;
     intent_seq := intent_seq r; created_at := created_at r;
     plan_subject_id := plan_subject_id r; snapshot := snapshot r; progress := p |}.
Definition with_outbox (d : Db) (t : list Row) (logs : list AuditLog) : Db :=
  {| now := now d; outbox := t; targets := targets d; role_waits := role_waits d; ledger := ledger d;
     audit_logs := audit_logs d ++ logs; memory := memory d; requests := requests d;
     grant_index := grant_index d; gave_up_seen := gave_up_seen d;
     tables := tables d; next_intent := next_intent d; next_uuid := next_uuid d |}.
Definition with_ledger (d : Db) (l : list Grant) : Db :=
  {| now := now d; outbox := outbox d; targets := targets d; role_waits := role_waits d; ledger := l;
     audit_logs := audit_logs d; memory := memory d; requests := requests d;
     grant_index := grant_index d; gave_up_seen := gave_up_seen d;
     tables := tables d; next_intent := next_intent d; next_uuid := next_uuid d |}.
Definition with_memory (d : Db) (m : gmap (string * string * string) Propagation) : Db :=
  {| now := now d; outbox := outbox d; targets := targets d; role_waits := role_waits d; ledger := ledger d;
     audit_logs := audit_logs d; memory := m; requests := requests d;
     grant_index := grant_index d; gave_up_seen := gave_up_seen d;
     tables := tables d; next_intent := next_intent d; next_uuid := next_uuid d |}.
Definition with_registry (d : Db) (ts : gmap string bool) (ws : list (string * string)) : Db :=
  {| now := now d; outbox := outbox d; targets := ts; role_waits := ws; ledger := ledger d;
     audit_logs := audit_logs d; memory := memory d; requests := requests d;
     grant_index := grant_index d; gave_up_seen := gave_up_seen d;
     tables := tables d; next_intent := next_intent d; next_uuid := next_uuid d |}.

Definition row_status (r : Row) : Status := status (progress r).
Definition ProjectID (r : Row) : string := default "" (project_id r).
Definition RoleKeys (r : Row) : list string := default [] (role_keys r).
Definition WaitReason (r : Row) : string := default "" (wait_reason (progress r)).

Definition with_tables (d : Db) (t : Tables) : Db :=
  {| now := now d; outbox := outbox d; targets := targets d; role_waits := role_waits d; ledger := ledger d;
     audit_logs := audit_logs d; memory := memory d; requests := requests d;
     grant_index := grant_index d; gave_up_seen := gave_up_seen d;
     tables := t; next_intent := next_intent d; next_uuid := next_uuid d |}.

(** [status IN ('pending','in_flight')]: the row is not settled. *)
Definition unresolved (r : Row) : bool := (row_status r =? pending) || (row_status r =? in_flight).

(** [UPDATE propagation_outbox SET ... WHERE ...] *)
Definition update (where_ : Row → bool) (set_ : Row → Progress) (t : list Row) : list Row :=
  map (λ r, if where_ r then with_progress r (set_ r) else r) t.
Definition affected (where_ : Row → bool) (t : list Row) : list Row := filter (λ r, where_ r = true) t.

Definition set_status (s : Status) (p : Progress) : Progress :=
  {| status := s; attempts := attempts p; last_error := last_error p; started_at := started_at p;
     completed_at := completed_at p; confirmed_at := confirmed_at p; not_before := not_before p;
     wait_reason := wait_reason p |}.
(** A terminal write: its status, NOW() and the error. *)
Definition terminate (now : Z) (s : Status) (err : option string) (p : Progress) : Progress :=
  {| status := s; attempts := attempts p; last_error := err; started_at := started_at p;
     completed_at := Some now; confirmed_at := confirmed_at p; not_before := not_before p;
     wait_reason := wait_reason p |}.

Definition TargetZitadel : string := "zitadel".
Definition active (d : Db) (t : string) : bool := default false (targets d !! t).

Definition GetPropagationStatus (d : Db) (i : string) : option Status :=
  row_status <$> head (filter (λ r, id r = i) (outbox d)).

(** ** Rows overtaken by a later approved version *)
Definition supersededByLaterVersion (t : list Row) (p : Row) : bool :=
  match snapshot p with
  | None => false
  | Some s =>
      existsb (λ q, (row_status q =? applied) &&
                    match snapshot q with
                    | Some qs => (s_subject qs =? s_subject s) && (s_target qs =? s_target s)
                                 && (s_version s <? s_version qs)%Z
                    | None => false
                    end) t
  end.
Definition supersededReason : string := "a newer desired state for this subject has already been applied".

Definition terminateSuperseded (d : Db) (tgt onlyID : string) : Db :=
  let where_ p := (target p =? tgt) && unresolved p && ((onlyID =? "") || (id p =? onlyID))
                  && supersededByLaterVersion (outbox d) p in
  with_outbox d
    (update where_ (λ r, terminate (now d) superseded (Some supersededReason) (progress r)) (outbox d))
    (map (λ r, {| a_actor := "system"; a_subject := user_id r; a_action := "entitlement." +:+ tgt +:+ ".superseded";
                  a_resource := id r; a_cascade := None; a_details := "" |})
         (affected where_ (outbox d))).

(** ** Claims *)
Definition holds_revocation (t : list Row) (p : Row) : bool :=
  existsb (λ r, (target r =? target p) && (user_id r =? user_id p) && (op_type r =? op_revoke) && unresolved r) t.
(** [ORDER BY (EXISTS ...) DESC, intent_seq] *)
Definition revocationFirst (t : list Row) : Row → Row → comparison :=
  cmp_then (cmp_on (λ r, if holds_revocation t r then 0 else 1) Nat.compare)
           (cmp_on intent_seq Z.compare).
#[export] Instance revocationFirst_good t : Comparison (revocationFirst t).
Proof. unfold revocationFirst. apply _. Qed.
Definition by_intent : Row → Row → comparison := cmp_on intent_seq Z.compare.

Definition notBeforeDue (d : Db) (p : Row) : bool :=
  match not_before (progress p) with None => true | Some t => (t <=? now d)%Z end.

(** The row names a role marked to wait. *)
Definition role_waits_now (d : Db) (p : Row) : bool :=
  match project_id p, role_keys p with
  | Some proj, Some ks => existsb (λ '(wp, wk), (wp =? proj) && bool_decide (wk ∈ ks)) (role_waits d)
  | _, _ => false
  end.
Definition stamped (reason : string) (p : Row) : bool := bool_decide (wait_reason (progress p) = Some reason).

Definition withdraws (p : Row) : bool := (op_type p =? op_revoke) || withdraws_only p.
Definition confers (p : Row) : bool :=
  (op_type p =? op_add) || (op_type p =? op_replace) || ((op_type p =? op_apply) && negb (withdraws_only p)).

(** An older unresolved row that could confer, for the same subject and project. *)
Definition older_conferring (t : list Row) (p : Row) : bool :=
  existsb (λ e, (target e =? target p) && (user_id e =? user_id p) && (project_id e =? project_id p)
                && confers e && unresolved e && (intent_seq e <? intent_seq p)%Z) t.

(** Rows another transaction holds locked are skipped, the order is the
    statement's, and the number of rows is at most the limit (100 if it is not
    positive). *)
Definition row_limit (limit : Z) : nat := if (limit <=? 0)%Z then 100 else Z.to_nat limit.
Definition chosen (locked : Row → bool) (where_ : Row → bool) (order : Row → Row → comparison)
    (limit : Z) (t : list Row) : list Row :=
  take (row_limit limit) (stable_sort order (filter (λ r, where_ r = true ∧ locked r = false) t)).

Definition start (d : Db) (p : Progress) : Progress :=
  {| status := in_flight; attempts := attempts p; last_error := last_error p; started_at := Some (now d);
     completed_at := completed_at p; confirmed_at := confirmed_at p; not_before := not_before p;
     wait_reason := wait_reason p |}.
(** [UPDATE ... FROM claimed WHERE p.id = claimed.id RETURNING ...] *)
Definition claim_rows (d : Db) (rows : list Row) : Db * list Row :=
  let in_claim r := bool_decide (id r ∈ (id <$> rows)) in
  (with_outbox d (update in_claim (λ r, start d (progress r)) (outbox d)) [],
   (λ r, with_progress r (start d (progress r))) <$> affected in_claim (outbox d)).

(** The order in which [UPDATE ... RETURNING] yields its rows, which SQL leaves open. *)
Class Returning := {
  returning : list Row → list Row;
  returning_perm : ∀ l, returning l ≡ₚ l;
}.

Definition claimable (d : Db) (tgt : string) (p : Row) : bool :=
  unresolved p && (target p =? tgt) && active d (target p).

Definition revocation_claimable (d : Db) (tgt : string) (p : Row) : bool :=
  claimable d tgt p && withdraws p && notBeforeDue d p && negb (stamped "role_waits" p)
  && negb (role_waits_now d p) && negb (older_conferring (outbox d) p).

Definition retry_claimable (d : Db) (tgt : string) (p : Row) : bool :=
  claimable d tgt p
  && ((row_status p =? in_flight) || ((row_status p =? pending) && bool_decide (is_Some (not_before (progress p)))))
  && notBeforeDue d p && negb (withdraws p) && negb (stamped "role_waits" p) && negb (stamped "manual" p)
  && negb (role_waits_now d p).

Section claims.
Context `{!Returning} (locked : Row → bool).

Definition claim_chosen (d : Db) (rows : list Row) : Db * list Row :=
  let '(d', out) := claim_rows d rows in (d', returning out).

Definition ClaimPendingPropagations (d : Db) (tgt : string) (limit : Z) : Db * list Row :=
  let d := terminateSuperseded d tgt "" in
  claim_chosen d (chosen locked (claimable d tgt) (revocationFirst (outbox d)) limit (outbox d)).

Definition ClaimPendingRevocations (d : Db) (tgt : string) (limit : Z) : Db * list Row :=
  let d := terminateSuperseded d tgt "" in
  claim_chosen d (chosen locked (revocation_claimable d tgt) by_intent limit (outbox d)).

Definition ClaimDueRetries (d : Db) (tgt : string) (limit : Z) : Db * list Row :=
  let d := terminateSuperseded d tgt "" in
  claim_chosen d (chosen locked (retry_claimable d tgt) (revocationFirst (outbox d)) limit (outbox d)).
End claims.

Definition ClaimPropagationByID (d : Db) (tgt i : string) : Db * option Row :=
  let d := terminateSuperseded d tgt i in
  let '(d', out) := claim_rows d (filter (λ r, id r = i ∧ claimable d tgt r = true) (outbox d)) in
  (d', head out).

Definition TargetsAwaitingDispatch (d : Db) (drained : string) : list string :=
  sort_strings (remove_dups (target <$> filter (λ p, unresolved p && active d (target p)
                                                       && (target p <>? drained) = true) (outbox d))).
Definition UndispatchableTarget (d : Db) (dispatcher i : string) : string :=
  default "" (target <$> head (filter (λ p, id p = i ∧ active d (target p) && (target p <>? dispatcher)
                                              && unresolved p = true) (outbox d))).

(** ** Settling *)
Inductive Error :=
  | ErrPropagationNotInFlight
  | ErrSupersededByRevocation
  | ErrNothingWritten (what : string).

(** Every finalizer acts only on the in-flight row with this id. *)
Definition in_flight_row (i : string) (r : Row) : bool := (id r =? i) && (row_status r =? in_flight).
Definition settleOne (d : Db) (i : string) (set_ : Progress → Progress) : Error + Db :=
  if bool_decide (affected (in_flight_row i) (outbox d) = []) then inl ErrPropagationNotInFlight
  else inr (with_outbox d (update (in_flight_row i) (λ r, set_ (progress r)) (outbox d)) []).

Definition MarkPropagationApplied (d : Db) (i : string) : Error + Db :=
  settleOne d i (terminate (now d) applied None).

Definition set_confirmed (now : Z) (p : Progress) : Progress :=
  {| status := status p; attempts := attempts p; last_error := last_error p; started_at := started_at p;
     completed_at := completed_at p; confirmed_at := Some now; not_before := not_before p;
     wait_reason := wait_reason p |}.
Definition MarkPropagationConfirmed (d : Db) (i : string) : Db :=
  let where_ r := (id r =? i) && (row_status r =? applied) && (confirmed_at (progress r) =? None) in
  with_outbox d (update where_ (λ r, set_confirmed (now d) (progress r)) (outbox d)) [].

Definition MarkPropagationFailed (d : Db) (i errMsg : string) : Error + Db :=
  settleOne d i (terminate (now d) failed (Some errMsg)).

Definition WaitReasonHalted (why : string) : string := "halted:" +:+ why.
Definition WaitReasonRefused (cause : string) : string := "refused:" +:+ cause.
Definition set_wait (w : option string) (p : Progress) : Progress :=
  {| status := status p; attempts := attempts p; last_error := last_error p; started_at := started_at p;
     completed_at := completed_at p; confirmed_at := confirmed_at p; not_before := not_before p;
     wait_reason := w |}.
Definition MarkPropagationRefused (d : Db) (i errMsg cause : string) : Error + Db :=
  settleOne d i (λ p, set_wait (Some (WaitReasonRefused cause)) (terminate (now d) failed (Some errMsg) p)).

(** The waits after 0..15 spent tries, one draw of the random source each. *)
Definition backoffSchedule (draw : nat → Z → Z) : list Z :=
  (λ n, Backoff (draw n) OutboxRetry (Z.of_nat n)) <$> seq 0 16.
(** [schedule[LEAST(attempts+1, cardinality(schedule))]], counted from 1. *)
Definition backoff_at (schedule : list Z) (attempts : nat) : Z :=
  nth (Nat.min (attempts + 1) (length schedule) - 1) schedule 0%Z.

Definition requeued (d : Db) (schedule : list Z) (errMsg : string) (p : Progress) : Progress :=
  {| status := pending; attempts := attempts p + 1; last_error := Some errMsg; started_at := None;
     completed_at := completed_at p; confirmed_at := confirmed_at p;
     not_before := Some (now d + backoff_at schedule (attempts p))%Z; wait_reason := wait_reason p |}.
Definition RequeuePropagation (draw : nat → Z → Z) (d : Db) (i errMsg : string) : Error + (Db * nat) :=
  match settleOne d i (requeued d (backoffSchedule draw) errMsg) with
  | inl e => inl e
  | inr d' => inr (d', from_option (λ r, attempts (progress r)) 0
                        (head (filter (λ r, id r = i) (outbox d'))))
  end.

Definition HaltRetrying : string := "retrying".
Definition ScheduleRetry (draw : nat → Z → Z) (d : Db) (ids : list string) (errMsg : string)
    : Db * list string :=
  let where_ r := bool_decide (id r ∈ ids) && (row_status r =? pending) && (not_before (progress r) =? None)
                  && negb (stamped "role_waits" r) && negb (stamped "manual" r) in
  let set_ r :=
    let p := progress r in
    {| status := status p; attempts := attempts p + 1; last_error := Some errMsg; started_at := started_at p;
       completed_at := completed_at p; confirmed_at := confirmed_at p;
       not_before := Some (now d + backoff_at (backoffSchedule draw) (attempts p))%Z;
       wait_reason := Some (WaitReasonHalted HaltRetrying) |} in
  (with_outbox d (update where_ set_ (outbox d)) [], id <$> affected where_ (outbox d)).

Definition released (reason : string) (p : Progress) : Progress :=
  {| status := pending; attempts := attempts p; last_error := Some reason; started_at := None;
     completed_at := completed_at p; confirmed_at := confirmed_at p; not_before := not_before p;
     wait_reason := wait_reason p |}.
Definition ReleasePropagation (d : Db) (i reason : string) : Error + Db := settleOne d i (released reason).

(** ** Reading the queue *)
Definition AppliedButUnobserved (d : Db) (olderThan : Z) : list Row :=
  take 200 (stable_sort (cmp_on (λ r, default 0%Z (completed_at (progress r))) Z.compare)
    (filter (λ r, (row_status r =? applied) && (confirmed_at (progress r) =? None)
                  && from_option (λ t, t <? now d - olderThan)%Z false (completed_at (progress r)) = true) (outbox d))).

Definition GetPendingPropagations (d : Db) : list Row :=
  stable_sort (cmp_then (cmp_on (λ r, if cascade_id r is Some _ then 0 else 1) Nat.compare)
                (cmp_then (cmp_on (λ r, default "" (cascade_id r)) String.compare)
                          (cmp_on created_at Z.compare)))
    (filter (λ r, unresolved r = true) (outbox d)).
Definition CountPendingPropagations (d : Db) : nat := length (filter (λ r, unresolved r = true) (outbox d)).

(** A pending row the background drain sends again on its own. *)
Definition retryingRow (d : Db) (r : Row) : bool :=
  (row_status r =? pending) && (0 <? attempts (progress r))%nat && bool_decide (is_Some (not_before (progress r)))
  && negb (stamped "role_waits" r) && negb (stamped "manual" r) && negb (role_waits_now d r).
Definition day : Z := 24 * 60 * 60 * 10^9.
Definition gaveUpRow (d : Db) (actor : string) (r : Row) : bool :=
  (row_status r =? failed)
  && from_option (λ t, default (now d - 7 * day) (gave_up_seen d !! actor) <? t)%Z false (completed_at (progress r)).
Definition CountRetries (d : Db) (actor tgt : string) : nat * nat :=
  (length (filter (λ r, (target r =? tgt) && retryingRow d r = true) (outbox d)),
   length (filter (λ r, (target r =? tgt) && gaveUpRow d actor r = true) (outbox d))).
Definition MarkGaveUpSeen (d : Db) (actor : string) : Db :=
  {| now := now d; outbox := outbox d; targets := targets d; role_waits := role_waits d; ledger := ledger d;
     audit_logs := audit_logs d; memory := memory d; requests := requests d;
     grant_index := grant_index d; gave_up_seen := <[actor := now d]> (gave_up_seen d);
     tables := tables d; next_intent := next_intent d; next_uuid := next_uuid d |}.
Definition ListGaveUp (d : Db) (actor : string) : list Row :=
  take 200 (stable_sort (cmp_on (λ r, (- default 0 (completed_at (progress r)))%Z) Z.compare)
    (filter (λ r, gaveUpRow d actor r = true) (outbox d))).

(** ** Retention *)
Definition terminal (s : Status) : bool := negb ((s =? pending) || (s =? in_flight)).
Definition PruneTerminalPropagations (d : Db) (retentionDays : Z) : Db * nat :=
  let gone r := terminal (row_status r)
                && from_option (λ t, t <? now d - retentionDays * day)%Z false (completed_at (progress r)) in
  (with_outbox d (filter (λ r, gone r = false) (outbox d)) [], length (affected gone (outbox d))).

(** ** The intent ledger after an applied revoke or replace *)
Definition newer_add (t : list Row) (g : Grant) (seq : Z) : bool :=
  existsb (λ o, (op_type o =? op_add) && unresolved o && (user_id o =? g_user g)
                && bool_decide (project_id o = Some (g_project g))
                && from_option (λ ks, bool_decide (g_role g ∈ ks)) false (role_keys o)
                && (source o =? g_source g) && (seq <? intent_seq o)%Z) t.

Definition reconciled_away (t : list Row) (r : Row) (g : Grant) : bool :=
  (g_user g =? user_id r) && (g_project g =? ProjectID r)
  && match op_type r with
     | op_revoke => bool_decide (g_role g ∈ RoleKeys r) && (g_source g =? source r)
     | op_replace => (g_source g =? "direct") && bool_decide (g_role g ∉ RoleKeys r)
     | _ => false
     end
  && negb (newer_add t g (intent_seq r)).
Definition ReconcileLedgerOnApplied (d : Db) (outboxID : string) : Db :=
  match head (filter (λ r, id r = outboxID) (outbox d)) with
  | None => d
  | Some r => with_ledger d (filter (λ g, reconciled_away (outbox d) r g = false) (ledger d))
  end.

Record RoleRef := { ref_ProjectID : string; ref_RoleKey : string }.
#[export] Instance RoleRef_eq_dec : EqDecision RoleRef.
Proof. solve_decision. Defined.

(** The roles one unresolved row takes away: a revoke names them, a replace
    leaves out the direct ledger roles it omits. *)
Definition row_revokes (d : Db) (userID : string) (o : Row) : list RoleRef :=
  if negb ((user_id o =? userID) && unresolved o) then []
  else match op_type o, project_id o, role_keys o with
  | op_revoke, Some proj, Some ks => (λ k, {| ref_ProjectID := proj; ref_RoleKey := k |}) <$> ks
  | op_replace, Some proj, Some ks =>
      (λ g, {| ref_ProjectID := g_project g; ref_RoleKey := g_role g |}) <$>
      filter (λ g, g_user g = userID ∧ g_project g = proj ∧ g_source g = "direct" ∧ g_role g ∉ ks) (ledger d)
  | _, _, _ => []
  end.
(** [UNION] removes duplicates; the result is read as a set. *)
Definition QueuedRevocations (d : Db) (userID : string) : list RoleRef :=
  remove_dups (outbox d ≫= row_revokes d userID).

(** ** Inserting a replay *)
Class Uuids := {
  uuid : nat → string;
  uuid_inj : Inj (=) (=) uuid;
  (** A uuid is written in lower case. *)
  uuid_lower n : ToLower (uuid n) = uuid n;
}.

Definition fresh_progress (wait : option string) : Progress :=
  {| status := pending; attempts := 0; last_error := None; started_at := None; completed_at := None;
     confirmed_at := None; not_before := None; wait_reason := wait |}.
Definition NULLIF (s : string) : option string := if s =? "" then None else Some s.

(** [INSERT INTO propagation_outbox ... RETURNING id]: the id, the intent number
    and the time are the column defaults. *)
Definition insert_row `{!Uuids} (d : Db) (mk : string → Z → Z → Row) : Db * string :=
  let i := uuid (next_uuid d) in
  ({| now := now d; outbox := outbox d ++ [mk i (next_intent d) (now d)]; targets := targets d;
      role_waits := role_waits d; ledger := ledger d; audit_logs := audit_logs d; memory := memory d;
      requests := requests d; grant_index := grant_index d; gave_up_seen := gave_up_seen d;
      tables := tables d; next_intent := next_intent d + 1; next_uuid := S (next_uuid d) |}, i).

(** [uuid_generate_v4()], and the keys the code draws: an id never drawn before. *)
Definition mint `{!Uuids} (d : Db) : Db * string :=
  ({| now := now d; outbox := outbox d; targets := targets d; role_waits := role_waits d; ledger := ledger d;
      audit_logs := audit_logs d; memory := memory d; requests := requests d; grant_index := grant_index d;
      gave_up_seen := gave_up_seen d; tables := tables d; next_intent := next_intent d; next_uuid := S (next_uuid d) |},
   uuid (next_uuid d)).

(** An unresolved row that is taking one of these roles away. *)
Definition removes_any (userID projectID : string) (roleKeys : list string) (o : Row) : bool :=
  (user_id o =? userID) && bool_decide (project_id o = Some projectID) && unresolved o
  && match op_type o with
     | op_revoke => from_option (λ ks, existsb (λ k, bool_decide (k ∈ roleKeys)) ks) false (role_keys o)
     | op_replace => from_option (λ ks, existsb (λ rk, bool_decide (rk ∉ ks)) roleKeys) false (role_keys o)
     | _ => false
     end.

Definition InsertPendingPropagation `{!Uuids} (d : Db) (opType : OpType) (userID projectID : string)
    (roleKeys : list string) (zitadelGrantID payloadJSON idempotencyKey initiatedBy : string)
    : Error + (Db * string) :=
  if existsb (removes_any userID projectID roleKeys) (outbox d) then inl ErrSupersededByRevocation
  else inr (insert_row d (λ i seq t,
    {| id := i; target := "zitadel"; op_type := opType; user_id := userID; project_id := Some projectID;
       role_keys := Some roleKeys; source := "direct"; source_ref := None; cascade_id := None;
       zitadel_grant_id := NULLIF zitadelGrantID; payload_json := payloadJSON;
       idempotency_key := idempotencyKey; initiated_by := initiatedBy; reason := None;
       withdraws_only := false; intent_seq := seq; created_at := t; plan_subject_id := None; snapshot := None;
       progress := fresh_progress None |})).

Definition PendingOutboxAddExists (d : Db) (tgt userID projectID roleKey : string) : bool :=
  existsb (λ o, (op_type o =? op_add) && (target o =? tgt) && (user_id o =? userID)
                && bool_decide (project_id o = Some projectID)
                && from_option (λ ks, bool_decide (roleKey ∈ ks)) false (role_keys o) && unresolved o) (outbox d).

(** ** The memory that a write landed *)
Definition RecordPropagation (d : Db) (tgt subject field outboxID actor : string) : Error + Db :=
  if TrimSpace tgt =? "" then inl (ErrNothingWritten "no target")
  else if TrimSpace subject =? "" then inl (ErrNothingWritten "no subject")
  else if TrimSpace field =? "" then inl (ErrNothingWritten "nothing was written")
  else inr (with_memory d (<[(tgt, subject, field) :=
              {| p_applied_at := now d; p_outbox_id := NULLIF outboxID; p_actor := actor |}]> (memory d))).

Definition ForgetPropagatedFields (d : Db) (tgt subject : string) (fields : list string) : Db :=
  with_memory d (filter (λ '(k, _), ¬ (k.1.1 = tgt ∧ k.1.2 = subject ∧ k.2 ∈ fields)) (memory d)).

(** SQL [LIKE]: % any text, _ any byte, a backslash quotes the next. *)
Fixpoint LIKE (s pat : string) {struct pat} : bool :=
  match pat with
  | EmptyString => s =? ""
  | String c pat' =>
      if Ascii.eqb c "%" then
        (fix any (s : string) : bool :=
           LIKE s pat' || match s with EmptyString => false | String _ s' => any s' end) s
      else if Ascii.eqb c "_" then match s with EmptyString => false | String _ s' => LIKE s' pat' end
      else if Ascii.eqb c "\" then
        match pat' with
        | EmptyString => false
        | String c' pat'' => match s with EmptyString => false | String a s' => Ascii.eqb a c' && LIKE s' pat'' end
        end
      else match s with EmptyString => false | String a s' => Ascii.eqb a c && LIKE s' pat' end
  end.
Definition ForgetPropagatedFieldsExcept (d : Db) (tgt subject prefix : string) (keep : list string) : Error + Db :=
  if TrimSpace prefix =? "" then inl (ErrNothingWritten "no prefix")
  else inr (with_memory d (filter (λ '(k, _), ¬ (k.1.1 = tgt ∧ k.1.2 = subject
              ∧ LIKE k.2 (prefix +:+ "/%") = true ∧ k.2 ∉ keep)) (memory d))).
Definition ForgetPropagations (d : Db) (tgt subject : string) : Db :=
  with_memory d (filter (λ '(k, _), ¬ (k.1.1 = tgt ∧ k.1.2 = subject)) (memory d)).

(** ** Roles that wait, and deregistration *)
Definition MarkRoleWaits (d : Db) (projectID roleKey : string) : Db * bool :=
  if bool_decide ((projectID, roleKey) ∈ role_waits d) then (d, false)
  else (with_registry d (targets d) (role_waits d ++ [(projectID, roleKey)]), true).
Definition UnmarkRoleWaits (d : Db) (projectID roleKey : string) : Db * bool :=
  (with_registry d (targets d) (filter (λ w, w ≠ (projectID, roleKey)) (role_waits d)),
   bool_decide ((projectID, roleKey) ∈ role_waits d)).
Definition OutboxRowsWaitForRole (d : Db) (ids : list string) : gmap string bool :=
  list_to_map ((λ r, (id r, role_waits_now d r)) <$> filter (λ r, id r ∈ ids) (outbox d)).
Definition SetWaitReason (d : Db) (ids : list string) (why : string) : Db :=
  let where_ r := bool_decide (id r ∈ ids) && (row_status r =? pending) in
  with_outbox d (update where_ (λ r, set_wait (Some why) (progress r)) (outbox d)) [].

Record AbandonedWork := { w_OutboxID : string; w_SubjectID : string; w_Dispatched : bool }.
Definition abandonQueuedWorkTx (d : Db) (tgt : string) : Db * list AbandonedWork :=
  let where_ r := (target r =? tgt) && unresolved r in
  let why r := if started_at (progress r) is Some _
               then "the target was deregistered with this row in flight; whether it applied is unknown"
               else "the target was deregistered before this row was dispatched" in
  (with_outbox d (update where_ (λ r, terminate (now d) abandoned (Some (why r)) (progress r)) (outbox d))
     (map (λ r, {| a_actor := "system"; a_subject := user_id r; a_action := "entitlement." +:+ tgt +:+ ".abandoned";
                   a_resource := id r; a_cascade := None; a_details := "" |}) (affected where_ (outbox d))),
   (λ r, {| w_OutboxID := id r; w_SubjectID := user_id r;
            w_Dispatched := bool_decide (is_Some (started_at (progress r))) |})
   <$> stable_sort (cmp_on user_id String.compare) (affected where_ (outbox d))).

Definition UpsertTarget (d : Db) (tgt : string) : Db :=
  with_registry d (<[tgt := true]> (targets d)) (role_waits d).
Definition unconfigured (d : Db) (configured : list string) : list string :=
  (map_to_list (filter (λ '(t, act), act = true ∧ t ≠ TargetZitadel ∧ t ∉ configured) (targets d))).*1.
Definition disable (d : Db) (names : list string) : Db :=
  with_registry d (foldr (λ t m, <[t := false]> m) (targets d) names) (role_waits d).
Fixpoint abandon_all (d : Db) (names : list string) : Db * list (string * list AbandonedWork) :=
  match names with
  | [] => (d, [])
  | t :: names =>
      let '(d, work) := abandonQueuedWorkTx d t in
      let '(d, rest) := abandon_all d names in (d, (t, work) :: rest)
  end.
Definition DisableUnconfiguredTargets (d : Db) (configured : list string)
    : Db * list (string * list AbandonedWork) :=
  let names := unconfigured d configured in abandon_all (disable d names) names.

(** ** Facts: updates and claims *)
Lemma with_progress_id r p : id (with_progress r p) = id r.
Proof. done. Qed.
Lemma update_ids where_ set_ t : id <$> update where_ set_ t = id <$> t.
Proof. unfold update. induction t as [|r t IH]; csimpl; [done|]. rewrite IH. by destruct (where_ r). Qed.
Lemma update_elem where_ set_ t r' :
  r' ∈ update where_ set_ t ↔
  ∃ r, r ∈ t ∧ r' = if where_ r then with_progress r (set_ r) else r.
Proof. unfold update. rewrite list_elem_of_fmap. naive_solver. Qed.
Lemma affected_elem where_ t r : r ∈ affected where_ t ↔ where_ r = true ∧ r ∈ t.
Proof. unfold affected. by rewrite list_elem_of_filter. Qed.

(** Rows are told apart by their id. *)
Lemma same_id t r r' : NoDup (id <$> t) → r ∈ t → r' ∈ t → id r = id r' → r = r'.
Proof.
  intros Hnd Hr Hr' E. apply list_elem_of_lookup in Hr as [i Hi]. apply list_elem_of_lookup in Hr' as [j Hj].
  assert (i = j) as <-; [|congruence].
  apply (NoDup_lookup (id <$> t) i j (id r) Hnd); rewrite list_lookup_fmap; [by rewrite Hi|].
  rewrite Hj. simpl. by f_equal.
Qed.

Lemma affected_ids rows t :
  NoDup (id <$> t) → NoDup rows → rows ⊆ t →
  affected (λ r, bool_decide (id r ∈ (id <$> rows))) t ≡ₚ rows.
Proof.
  intros Hnd Hr Hsub. apply NoDup_Permutation; [|done|].
  - apply NoDup_filter. by eapply NoDup_fmap_1.
  - intros r. rewrite affected_elem, bool_decide_eq_true, list_elem_of_fmap. split.
    + intros [(r' & E & Hr') Ht]. rewrite (same_id t r r'); auto.
    + intros Hin. split; [by exists r|auto].
Qed.

Lemma chosen_elem locked where_ order limit t r :
  r ∈ chosen locked where_ order limit t → r ∈ t ∧ where_ r = true ∧ locked r = false.
Proof.
  unfold chosen. intros Hr%elem_of_take. destruct Hr as (i & Hi & _).
  apply list_elem_of_lookup_2 in Hi. rewrite stable_sort_elem, list_elem_of_filter in Hi. tauto.
Qed.
Lemma chosen_NoDup locked where_ order limit t : NoDup (id <$> t) → NoDup (chosen locked where_ order limit t).
Proof.
  intros Hnd. unfold chosen. eapply sublist_NoDup; [|apply sublist_take].
  rewrite stable_sort_perm. apply NoDup_filter. by eapply NoDup_fmap_1.
Qed.
Lemma chosen_length locked where_ order limit t : length (chosen locked where_ order limit t) ≤ row_limit limit.
Proof. unfold chosen. rewrite length_take. lia. Qed.

Lemma terminateSuperseded_ids d tgt i : id <$> outbox (terminateSuperseded d tgt i) = id <$> outbox d.
Proof. apply update_ids. Qed.

(** What a claim returns: the chosen rows, started, in some order. *)
Lemma claim_chosen_out `{!Returning} d rows :
  NoDup (id <$> outbox d) → NoDup rows → rows ⊆ outbox d →
  (claim_chosen d rows).2 ≡ₚ (λ r, with_progress r (start d (progress r))) <$> rows.
Proof.
  intros. unfold claim_chosen, claim_rows. simpl. rewrite returning_perm. apply fmap_Permutation.
  by apply affected_ids.
Qed.
Lemma claim_chosen_outbox `{!Returning} d rows :
  outbox (claim_chosen d rows).1 =
  update (λ r, bool_decide (id r ∈ (id <$> rows))) (λ r, start d (progress r)) (outbox d).
Proof. done. Qed.

Lemma unresolved_status r : unresolved r = true ↔ row_status r = pending ∨ row_status r = in_flight.
Proof. unfold unresolved. by rewrite orb_true_iff, !bool_decide_eq_true. Qed.

(** A row of the table before the claim, as it stands after it. *)
Lemma claimed_row `{!Returning} d rows e' :
  NoDup (id <$> outbox d) → rows ⊆ outbox d → (∀ r, r ∈ rows → unresolved r = true) →
  e' ∈ outbox (claim_chosen d rows).1 →
  ∃ e, e ∈ outbox d ∧ e' = with_progress e (progress e') ∧ unresolved e' = unresolved e ∧
       (e ∈ rows → e' = with_progress e (start d (progress e))).
Proof.
  intros Hnd Hsub Hun. rewrite claim_chosen_outbox, update_elem. intros (e & He & ->).
  exists e. case_bool_decide as Hin.
  - split_and!; [done|done| |done]. apply list_elem_of_fmap in Hin as (r & E & Hr).
    rewrite (same_id (outbox d) e r) by auto. rewrite (Hun r) by done. done.
  - split_and!; [done|by destruct e|done|]. intros Hrow. destruct Hin. by apply list_elem_of_fmap_2.
Qed.

(** The table's primary key, and the check that only an add-on convergence
    declares itself a withdrawal. *)
Definition schema (t : list Row) : Prop :=
  NoDup (id <$> t) ∧ ∀ r, r ∈ t → withdraws_only r = true → op_type r = op_apply.

Lemma terminateSuperseded_elem d tgt i r :
  r ∈ outbox (terminateSuperseded d tgt i) → unresolved r = true → r ∈ outbox d.
Proof.
  unfold terminateSuperseded. simpl. rewrite update_elem. intros (r0 & Hr0 & ->).
  by destruct (_ && _).
Qed.
Lemma terminateSuperseded_schema d tgt i : schema (outbox d) → schema (outbox (terminateSuperseded d tgt i)).
Proof.
  intros [Hnd Hw]. split; [by rewrite terminateSuperseded_ids|].
  unfold terminateSuperseded. simpl. intros r. rewrite update_elem. intros (r0 & Hr0 & ->).
  specialize (Hw r0 Hr0). by destruct (_ && _).
Qed.

Lemma withdraws_confers t r : schema t → r ∈ t → withdraws r = true → confers r = false.
Proof.
  intros [_ Hw] Hr. specialize (Hw r Hr). unfold withdraws, confers.
  destruct (op_type r), (withdraws_only r); simpl; try done; by specialize (Hw eq_refl).
Qed.

(** Everything a claim returns: rows that met its condition, now in flight. *)
Lemma claim_returns `{!Returning} locked d (where_ : Row → bool) order limit r :
  schema (outbox d) →
  r ∈ (claim_chosen d (chosen locked where_ order limit (outbox d))).2 →
  r ∈ outbox (claim_chosen d (chosen locked where_ order limit (outbox d))).1 ∧ row_status r = in_flight ∧
  ∃ r0, r0 ∈ chosen locked where_ order limit (outbox d) ∧ r0 ∈ outbox d ∧ where_ r0 = true ∧
        r = with_progress r0 (start d (progress r0)).
Proof.
  intros [Hnd _]. set (rows := chosen locked where_ order limit (outbox d)).
  assert (Hsub : rows ⊆ outbox d) by (by intros x [? _]%chosen_elem).
  rewrite claim_chosen_out by (try apply chosen_NoDup; done). rewrite list_elem_of_fmap.
  intros (r0 & -> & Hr0). split_and!; [|done|].
  - rewrite claim_chosen_outbox, update_elem. exists r0. split; [auto|].
    rewrite bool_decide_true; [done|]. by apply list_elem_of_fmap_2.
  - exists r0. pose proof (chosen_elem _ _ _ _ _ _ Hr0). naive_solver.
Qed.

Lemma claim_length `{!Returning} locked d (where_ : Row → bool) order limit :
  schema (outbox d) →
  length (claim_chosen d (chosen locked where_ order limit (outbox d))).2 ≤ row_limit limit.
Proof.
  intros [Hnd _]. erewrite Permutation_length; [|apply claim_chosen_out; [done|by apply chosen_NoDup|]].
  - rewrite length_fmap. apply chosen_length.
  - by intros x [? _]%chosen_elem.
Qed.

(** ** Properties *)

(** The background revocation claim confers nothing and overtakes nothing:
    it returns at most the limit of rows, each in flight for the asked target,
    each only withdrawing access, none whose role waits for the operator, and
    when it returns no older row that could confer access on the same person
    and project is still unresolved. *)
Theorem ClaimPendingRevocations_spec `{!Returning} (locked : Row → bool) d tgt limit d' out :
  schema (outbox d) → ClaimPendingRevocations locked d tgt limit = (d', out) →
  length out ≤ row_limit limit ∧ ∀ r, r ∈ out →
    r ∈ outbox d' ∧ row_status r = in_flight ∧ target r = tgt ∧ active d tgt = true ∧
    confers r = false ∧ role_waits_now d' r = false ∧ stamped "role_waits" r = false ∧
    ∀ e, e ∈ outbox d' → target e = target r → user_id e = user_id r → project_id e = project_id r →
         confers e = true → (intent_seq e < intent_seq r)%Z → unresolved e = false.
Proof.
  intros Hs E. unfold ClaimPendingRevocations in E. apply (terminateSuperseded_schema _ tgt "") in Hs.
  set (d1 := terminateSuperseded d tgt "") in *.
  set (rows := chosen locked (revocation_claimable d1 tgt) by_intent limit (outbox d1)) in *.
  replace d' with (claim_chosen d1 rows).1 by (by rewrite E).
  replace out with (claim_chosen d1 rows).2 by (by rewrite E).
  split; [by apply claim_length|]. intros r Hr.
  apply claim_returns in Hr as (Hin & Hst & r0 & Hrow & Hr0 & Hw & ->); [|done].
  pose proof Hw as Hw'. unfold revocation_claimable, claimable in Hw'.
  rewrite !andb_true_iff, !negb_true_iff, !bool_decide_eq_true in Hw'.
  destruct Hw' as ((((([[Hun Ht] Hact] & Hwd) & Hdue) & Hstamp) & Hwait) & Hold).
  split_and!; try done; [by rewrite <-Ht|exact (withdraws_confers (outbox d1) r0 Hs Hr0 Hwd)|].
  intros e He Et Eu Ep Hc Hlt. apply claimed_row in He as (e0 & He0 & Ee & Hu & _); [|by destruct Hs| |].
  - rewrite Hu. destruct (unresolved e0) eqn:Hue; [|done]. exfalso.
    assert (older_conferring (outbox d1) r0 = true); [|congruence].
    unfold older_conferring. apply existsb_elem. exists e0. rewrite Ee in Et, Eu, Ep, Hc, Hlt. simpl in *.
    split; [done|]. rewrite !andb_true_iff, !bool_decide_eq_true. split_and!; try done. lia.
  - by intros x [? _]%chosen_elem.
  - intros x (_ & Hx & _)%chosen_elem. unfold revocation_claimable, claimable in Hx.
    rewrite !andb_true_iff in Hx. tauto.
Qed.

(** A small outbox: a queued grant and its later withdrawal for ada, and a
    withdrawal for bob. *)
Definition demo_row (i u : string) (op : OpType) (seq : Z) (p : Progress) : Row :=
  {| id := i; target := "zitadel"; op_type := op; user_id := u; project_id := Some "lab";
     role_keys := Some ["viewer"]; source := "direct"; source_ref := None; cascade_id := None;
     zitadel_grant_id := None; payload_json := "{}"; idempotency_key := i; initiated_by := "op";
     reason := None; withdraws_only := false; intent_seq := seq; created_at := seq; plan_subject_id := None;
     snapshot := None;
     progress := p |}.
Definition demo_db (t : list Row) : Db :=
  {| now := 1000; outbox := t; targets := {["zitadel" := true]}; role_waits := []; ledger := [];
     audit_logs := []; memory := ∅; requests := []; grant_index := ∅; gave_up_seen := ∅;
     tables := empty_tables; next_intent := 10; next_uuid := 0 |}.
#[export] Instance table_order : Returning | 100 := {| returning := λ l, l; returning_perm := λ l, reflexivity l |}.
Definition demo_queue : Db :=
  demo_db [demo_row "1" "ada" op_add 1 (fresh_progress None);
           demo_row "2" "ada" op_revoke 2 (fresh_progress None);
           demo_row "3" "bob" op_revoke 3 (fresh_progress None)].
Lemma demo_queue_schema : schema (outbox demo_queue).
Proof.
  split; [apply (bool_decide_unpack _); by vm_compute|].
  intros r Hr. simpl in Hr. repeat (apply elem_of_cons in Hr as [->|Hr]; [done|]). by apply elem_of_nil in Hr.
Defined.

Lemma ClaimPendingRevocations_spec_witness :
  id <$> (ClaimPendingRevocations (λ _, false) demo_queue "zitadel" 10).2 = ["3"] ∧
  length (ClaimPendingRevocations (λ _, false) demo_queue "zitadel" 10).2 ≤ row_limit 10.
Proof.
  split; [by vm_compute|].
  by eapply ClaimPendingRevocations_spec; [apply demo_queue_schema|apply surjective_pairing].
Defined.

(** C32. The operator's claim never inverts a person's own intent order, not
    even where the limit cuts the queue: if it takes a row, it has taken every
    older unresolved row of the same person on that target that no other
    transaction holds. *)
Theorem ClaimPendingPropagations_intent_order `{!Returning} (locked : Row → bool) d tgt limit d' out r e :
  schema (outbox d) → ClaimPendingPropagations locked d tgt limit = (d', out) →
  r ∈ out → e ∈ outbox (terminateSuperseded d tgt "") → unresolved e = true → locked e = false →
  target e = tgt → user_id e = user_id r → (intent_seq e < intent_seq r)%Z →
  id e ∈ (id <$> out).
Proof.
  intros Hs E Hr He Hun Hl Et Eu Hlt. unfold ClaimPendingPropagations in E.
  apply (terminateSuperseded_schema _ tgt "") in Hs. set (d1 := terminateSuperseded d tgt "") in *.
  set (order := revocationFirst (outbox d1)) in *.
  set (rows := chosen locked (claimable d1 tgt) order limit (outbox d1)) in *.
  replace out with (claim_chosen d1 rows).2 in * by (by rewrite E).
  apply claim_returns in Hr as (_ & _ & r0 & Hrow & Hr0 & Hw & ->); [|done]. simpl in Eu, Hlt.
  rewrite claim_chosen_out, list_elem_of_fmap;
    [|by destruct Hs|apply chosen_NoDup; by destruct Hs|by intros x [? _]%chosen_elem].
  exists (with_progress e (start d1 (progress e))). split; [done|].
  apply (list_elem_of_fmap_2 (λ r, with_progress r (start d1 (progress r)))).
  unfold claimable in Hw. rewrite !andb_true_iff, bool_decide_eq_true in Hw. destruct Hw as [[_ Ht] Hact].
  subst rows order. unfold chosen in *.
  apply (take_sorted_closed (revocationFirst (outbox d1)) _ _ r0); [apply stable_sort_ascending|exact Hrow| |].
  - apply stable_sort_elem, list_elem_of_filter. split; [split; [|done]|done].
    unfold claimable. by rewrite Hun, bool_decide_true, Et, <-Ht, Hact by done.
  - unfold revocationFirst, cmp_then, cmp_on.
    assert (holds_revocation (outbox d1) e = holds_revocation (outbox d1) r0) as ->.
    { unfold holds_revocation. by rewrite Eu, Et, Ht. }
    rewrite Nat.compare_refl. by apply Z.compare_lt_iff.
Qed.

Lemma ClaimPendingPropagations_intent_order_witness :
  "1" ∈ (id <$> (ClaimPendingPropagations (λ _, false) demo_queue "zitadel" 2).2).
Proof.
  assert (Hs := demo_queue_schema).
  apply (ClaimPendingPropagations_intent_order (λ _, false) demo_queue "zitadel" 2 _ _
           (demo_row "2" "ada" op_revoke 2 (start demo_queue (fresh_progress None)))
           (demo_row "1" "ada" op_add 1 (fresh_progress None)) Hs (surjective_pairing _));
    try done; [vm_compute; set_solver|vm_compute; set_solver].
Defined.

(** The background retry claim takes only what somebody already sent: each
    row it returns was in flight or waiting out its backoff, now due, is not a
    withdrawal, and neither it nor its role waits for the operator. *)
Theorem ClaimDueRetries_spec `{!Returning} (locked : Row → bool) d tgt limit d' out :
  schema (outbox d) → ClaimDueRetries locked d tgt limit = (d', out) →
  length out ≤ row_limit limit ∧ ∀ r, r ∈ out →
    row_status r = in_flight ∧ target r = tgt ∧ withdraws r = false ∧
    stamped "role_waits" r = false ∧ stamped "manual" r = false ∧ role_waits_now d' r = false ∧
    ∃ r0, r0 ∈ outbox d ∧ r = with_progress r0 (progress r) ∧
      (row_status r0 = in_flight ∧ not_before (progress r0) = None ∨
       ∃ t, not_before (progress r0) = Some t ∧ (t <= now d)%Z).
Proof.
  intros Hs E. unfold ClaimDueRetries in E. apply (terminateSuperseded_schema _ tgt "") in Hs.
  pose proof (terminateSuperseded_elem d tgt "") as Hback.
  set (d1 := terminateSuperseded d tgt "") in *.
  set (rows := chosen locked (retry_claimable d1 tgt) (revocationFirst (outbox d1)) limit (outbox d1)) in *.
  replace d' with (claim_chosen d1 rows).1 by (by rewrite E).
  replace out with (claim_chosen d1 rows).2 by (by rewrite E).
  split; [by apply claim_length|]. intros r Hr.
  apply claim_returns in Hr as (Hin & Hst & r0 & Hrow & Hr0 & Hw & ->); [|done].
  unfold retry_claimable, claimable in Hw.
  rewrite !andb_true_iff, !negb_true_iff, orb_true_iff, andb_true_iff, !bool_decide_eq_true in Hw.
  destruct Hw as (((((([[Hun Ht] Hact] & Hsent) & Hdue) & Hwd) & Hw1) & Hw2) & Hw3).
  split_and!; try done. exists r0. split_and!; [by apply Hback|done|].
  unfold notBeforeDue in Hdue. destruct (not_before (progress r0)) as [t|].
  - right. exists t. split; [done|]. by apply Z.leb_le in Hdue.
  - left. split; [|done]. destruct Hsent as [?|[_ [? ?]]]; done.
Qed.

Definition demo_retry : Db :=
  demo_db [demo_row "1" "ada" op_add 1
             {| status := pending; attempts := 1; last_error := Some "503"; started_at := None;
                completed_at := None; confirmed_at := None; not_before := Some 900%Z; wait_reason := None |};
           demo_row "2" "bob" op_add 2 (fresh_progress None)].
Lemma ClaimDueRetries_spec_witness :
  id <$> (ClaimDueRetries (λ _, false) demo_retry "zitadel" 10).2 = ["1"] ∧
  length (ClaimDueRetries (λ _, false) demo_retry "zitadel" 10).2 ≤ row_limit 10.
Proof.
  split; [by vm_compute|].
  eapply ClaimDueRetries_spec; [|apply surjective_pairing].
  split; [apply (bool_decide_unpack _); by vm_compute|].
  intros r Hr. simpl in Hr. repeat (apply elem_of_cons in Hr as [->|Hr]; [done|]). by apply elem_of_nil in Hr.
Defined.

Lemma removes_any_spec u p ks o :
  removes_any u p ks o = true ↔
  user_id o = u ∧ project_id o = Some p ∧ unresolved o = true ∧ ∃ rks, role_keys o = Some rks ∧
    (op_type o = op_revoke ∧ (∃ k, k ∈ rks ∧ k ∈ ks) ∨ op_type o = op_replace ∧ ∃ k, k ∈ ks ∧ k ∉ rks).
Proof.
  unfold removes_any. rewrite !andb_true_iff, !bool_decide_eq_true.
  destruct (op_type o), (role_keys o) as [rks|]; simpl;
    rewrite ?(existsb_dec (λ k, k ∈ ks)), ?(existsb_dec (λ rk, rk ∉ rks)); naive_solver.
Qed.

Lemma QueuedRevocations_elem d u x :
  x ∈ QueuedRevocations d u ↔ ∃ o, o ∈ outbox d ∧ x ∈ row_revokes d u o.
Proof. unfold QueuedRevocations. rewrite elem_of_remove_dups, list_elem_of_bind. naive_solver. Qed.

Lemma row_revokes_elem d u o p k :
  ({| ref_ProjectID := p; ref_RoleKey := k |} ∈ row_revokes d u o) ↔
  user_id o = u ∧ unresolved o = true ∧ project_id o = Some p ∧ ∃ ks, role_keys o = Some ks ∧
    (op_type o = op_revoke ∧ k ∈ ks ∨
     op_type o = op_replace ∧ k ∉ ks ∧
       ∃ g, g ∈ ledger d ∧ g_user g = u ∧ g_project g = p ∧ g_role g = k ∧ g_source g = "direct").
Proof.
  unfold row_revokes. destruct (decide (user_id o = u)) as [Hu|Hu].
  2: { rewrite bool_decide_false by done. simpl. rewrite elem_of_nil. naive_solver. }
  rewrite bool_decide_true by done. destruct (unresolved o); simpl; [|rewrite elem_of_nil; naive_solver].
  destruct (op_type o), (project_id o) as [proj|], (role_keys o) as [ks|]; simpl;
    rewrite ?elem_of_nil, ?list_elem_of_fmap; try naive_solver.
  split.
  - intros (g & [= -> ->] & Hg). rewrite list_elem_of_filter in Hg. naive_solver.
  - intros (_ & _ & [= ->] & ks' & [= <-] & [[? _]|(_ & Hk & g & Hg & ? & ? & ? & ?)]); [done|].
    exists g. rewrite list_elem_of_filter. naive_solver.
Qed.

(** A replay is subordinate to every unresolved removal: inserting is
    refused exactly when some unresolved revoke names one of its roles or some
    unresolved replace omits one, and a row that is inserted names no role the
    person has a queued revocation for. *)
Theorem InsertPendingPropagation_spec `{!Uuids} d op u p ks grantID payload key by_ :
  match InsertPendingPropagation d op u p ks grantID payload key by_ with
  | inl e =>
      e = ErrSupersededByRevocation ∧
      ∃ o, o ∈ outbox d ∧ user_id o = u ∧ project_id o = Some p ∧ unresolved o = true ∧
        ∃ rks, role_keys o = Some rks ∧
          (op_type o = op_revoke ∧ (∃ k, k ∈ rks ∧ k ∈ ks) ∨ op_type o = op_replace ∧ ∃ k, k ∈ ks ∧ k ∉ rks)
  | inr (d', i) =>
      (∀ k, k ∈ ks → {| ref_ProjectID := p; ref_RoleKey := k |} ∉ QueuedRevocations d u) ∧
      ∃ r, outbox d' = outbox d ++ [r] ∧ id r = i ∧ role_keys r = Some ks ∧ row_status r = pending
  end.
Proof.
  unfold InsertPendingPropagation. destruct (existsb _ _) eqn:E.
  - split; [done|]. apply existsb_elem in E as (o & Ho & Hr). exists o.
    split; [done|]. by apply removes_any_spec.
  - simpl. split; [|by eexists]. intros k Hk (o & Ho & Hro)%QueuedRevocations_elem.
    apply row_revokes_elem in Hro as (Hu & Hun & Hp & rks & Hrks & Hcase).
    enough (existsb (removes_any u p ks) (outbox d) = true) by congruence.
    apply existsb_elem. exists o. split; [done|]. apply removes_any_spec.
    split_and!; try done. exists rks. naive_solver.
Qed.

(** What a settled removal deletes from the ledger was already discounted
    while it was queued: every grant ReconcileLedgerOnApplied removes for an
    unresolved row is among that person's queued revocations beforehand. *)
Theorem reconciled_grants_were_queued d r g :
  NoDup (id <$> outbox d) → r ∈ outbox d → unresolved r = true → is_Some (project_id r) → is_Some (role_keys r) →
  g ∈ ledger d → g ∉ ledger (ReconcileLedgerOnApplied d (id r)) →
  g_user g = user_id r ∧
  {| ref_ProjectID := g_project g; ref_RoleKey := g_role g |} ∈ QueuedRevocations d (user_id r).
Proof.
  intros Hnd Hr Hun [p Hp] [ks Hks] Hg Hgone. unfold ReconcileLedgerOnApplied in Hgone.
  destruct (head _) as [r'|] eqn:Hh; [|done].
  assert (r' = r) as ->.
  { destruct (filter (λ r0, id r0 = id r) (outbox d)) as [|x l] eqn:Ef; [done|]. injection Hh as ->.
    assert (r' ∈ filter (λ r0, id r0 = id r) (outbox d)) as Hx by (rewrite Ef; left).
    apply list_elem_of_filter in Hx as [? ?]. by apply (same_id (outbox d)). }
  simpl in Hgone. rewrite list_elem_of_filter in Hgone.
  destruct (reconciled_away (outbox d) r g) eqn:Ha; [|by destruct Hgone].
  unfold reconciled_away, ProjectID, RoleKeys in Ha. rewrite Hp, Hks in Ha. simpl in Ha.
  rewrite !andb_true_iff, !bool_decide_eq_true in Ha. destruct Ha as [[[Hu Hpr] Hcase] _].
  split; [done|]. apply QueuedRevocations_elem. exists r. split; [done|]. apply row_revokes_elem.
  split_and!; [done..|by rewrite Hpr|]. exists ks. split; [done|].
  destruct (op_type r); try done; rewrite andb_true_iff, !bool_decide_eq_true in Hcase; naive_solver.
Qed.

Definition demo_grant (u role src : string) : Grant :=
  {| g_id := "g"; g_user := u; g_project := "lab"; g_role := role; g_granted_by := "op"; g_reason := "";
     g_expires_at := None; g_source := src; g_source_ref := None |}.
Definition demo_ledger : Db := with_ledger demo_queue [demo_grant "bob" "viewer" "direct"].
Lemma reconciled_grants_were_queued_witness :
  {| ref_ProjectID := "lab"; ref_RoleKey := "viewer" |} ∈ QueuedRevocations demo_ledger "bob".
Proof.
  refine (proj2 (reconciled_grants_were_queued demo_ledger (demo_row "3" "bob" op_revoke 3 (fresh_progress None))
            (demo_grant "bob" "viewer" "direct") _ _ _ _ _ _ _)); try done.
  - apply (bool_decide_unpack _); by vm_compute.
  - simpl. set_solver.
  - simpl. set_solver.
  - vm_compute. set_solver.
Defined.

(** ** Facts: settling one row *)
Lemma settle_one_row d i set_ r :
  NoDup (id <$> outbox d) → r ∈ outbox d → id r = i → row_status r = in_flight →
  settleOne d i set_ =
  inr (with_outbox d (update (in_flight_row i) (λ r, set_ (progress r)) (outbox d)) []).
Proof.
  intros Hnd Hr <- Hs. unfold settleOne. rewrite bool_decide_false; [done|]. intros E.
  assert (r ∈ affected (in_flight_row (id r)) (outbox d)) as Hin.
  { rewrite affected_elem. unfold in_flight_row. by rewrite !bool_decide_true. }
  rewrite E in Hin. by apply elem_of_nil in Hin.
Qed.

(** The table after a settle: that row moved, no other did. *)
Definition only_moved (d d' : Db) (r : Row) (p : Progress) : Prop :=
  id <$> outbox d' = id <$> outbox d ∧ with_progress r p ∈ outbox d' ∧
  ∀ x, x ∈ outbox d → id x ≠ id r → x ∈ outbox d'.
Lemma update_only_moved d r (where_ : Row → bool) (set_ : Progress → Progress) d' :
  r ∈ outbox d → where_ r = true → (∀ x, where_ x = true → id x = id r) →
  outbox d' = update where_ (λ r, set_ (progress r)) (outbox d) → only_moved d d' r (set_ (progress r)).
Proof.
  intros Hr Hw Hid E. unfold only_moved. rewrite E, update_ids. split_and!; [done|..].
  - apply update_elem. exists r. by rewrite Hw.
  - intros x Hx Hne. apply update_elem. exists x. split; [done|].
    destruct (where_ x) eqn:Hwx; [|done]. by apply Hid in Hwx.
Qed.
Lemma settle_only_moved d d1 i set_ r :
  NoDup (id <$> outbox d) → outbox d1 = outbox d → r ∈ outbox d → id r = i → row_status r = in_flight →
  ∃ d', settleOne d1 i set_ = inr d' ∧ only_moved d d' r (set_ (progress r)) ∧ ledger d' = ledger d1 ∧
        memory d' = memory d1.
Proof.
  intros Hnd E Hr <- Hs. rewrite <-E in Hr, Hnd. erewrite settle_one_row by done. eexists. split; [done|].
  split; [|done]. unfold only_moved. rewrite <-E. apply (update_only_moved d1 r (in_flight_row (id r))); [done| | |done].
  - unfold in_flight_row. by rewrite !bool_decide_true.
  - intros x. unfold in_flight_row. rewrite andb_true_iff, !bool_decide_eq_true. tauto.
Qed.

(** A requeue forgets that the row was sent: if its target is deregistered
    while it waits for the retry, the row is reported, and recorded, as never
    dispatched, though whether it applied is unknown. *)
Theorem requeued_row_reported_unsent (draws : nat → Z → Z) d r msg d' n :
  NoDup (id <$> outbox d) → r ∈ outbox d → row_status r = in_flight →
  RequeuePropagation draws d (id r) msg = inr (d', n) →
  ∃ work, work ∈ (abandonQueuedWorkTx d' (target r)).2 ∧ w_OutboxID work = id r ∧ w_Dispatched work = false.
Proof.
  intros Hnd Hr Hs. unfold RequeuePropagation.
  destruct (settle_only_moved d d (id r) (requeued d (backoffSchedule draws) msg) r Hnd eq_refl Hr eq_refl Hs)
    as (d1 & -> & (_ & Hin & _) & _). intros [= <- _].
  eexists. split; [|split].
  - unfold abandonQueuedWorkTx. simpl. apply list_elem_of_fmap. eexists. split; [reflexivity|].
    apply stable_sort_elem, affected_elem. split; [|exact Hin]. simpl. rewrite bool_decide_true by done. done.
  - done.
  - done.
Qed.

Definition sent_row : Row := demo_row "2" "ada" op_revoke 2 (start demo_queue (fresh_progress None)).
Lemma requeued_row_reported_unsent_witness :
  ∃ work, work ∈ (abandonQueuedWorkTx
      (match RequeuePropagation (λ _ n, (n - 1)%Z) (demo_db [sent_row]) "2" "503" with
       | inr (d, _) => d | inl _ => demo_db [] end) "zitadel").2 ∧
    w_OutboxID work = "2" ∧ w_Dispatched work = false.
Proof.
  destruct (RequeuePropagation (λ _ n, (n - 1)%Z) (demo_db [sent_row]) "2" "503") as [e|[d n]] eqn:E;
    [by vm_compute in E|].
  apply (requeued_row_reported_unsent (λ _ n, (n - 1)%Z) (demo_db [sent_row]) sent_row "503" d n
           (NoDup_singleton "2")); [simpl; left|done|exact E].
Defined.
