(* ===== verification/Lifecycle.v ===== *)
(** * Lifecycle: the outbox as a state machine

    Every statement of Outbox.v that touches propagation_outbox, as a step; the
    edges a row's status may take; and the invariants of every reachable table.
    The enqueue (Enqueue.v) inserts and cancels through two of the steps. *)

From S2P Require Import Prelude Access Tables Extcall Outbox.

(** pending -> in_flight -> applied | failed, back to pending on a requeue or a
    release, and superseded or abandoned only while unresolved. *)
Definition edge (s s' : Status) : bool :=
  (s =? s') || match s, s' with
  | pending, (in_flight | superseded | abandoned) => true
  | in_flight, _ => true
  | _, _ => false
  end.

(** What one statement may do to one row. *)
Record evolves (now : Z) (r r' : Row) : Prop := {
  ev_intent : r' = with_progress r (progress r');
  ev_edge : edge (row_status r) (row_status r') = true;
  ev_attempts : attempts (progress r) ≤ attempts (progress r');
  ev_settled : terminal (row_status r) = true →
    progress r' = progress r ∨
    row_status r = applied ∧ confirmed_at (progress r) = None ∧ progress r' = set_confirmed now (progress r);
  ev_settles : terminal (row_status r) = false → terminal (row_status r') = true →
    completed_at (progress r') = Some now;
  ev_open : terminal (row_status r') = false → completed_at (progress r') = completed_at (progress r) ∧
    confirmed_at (progress r') = confirmed_at (progress r);
  ev_confirm : row_status r' ≠ applied → confirmed_at (progress r') = confirmed_at (progress r);
}.

(** A row as it is inserted. *)
Definition inserted `{!Uuids} (d : Db) (r : Row) : Prop :=
  id r = uuid (next_uuid d) ∧ intent_seq r = next_intent d ∧ created_at r = now d ∧
  (∃ w, progress r = fresh_progress w) ∧ (withdraws_only r = true → op_type r = op_apply).

Inductive step `{!Returning, !Uuids} : Db → Db → Prop :=
  | step_supersede d tgt i : step d (terminateSuperseded d tgt i)
  | step_claim d rows :
      (∀ r, r ∈ outbox d → id r ∈ (id <$> rows) → unresolved r = true) → step d (claim_rows d rows).1
  | step_applied d d' i : MarkPropagationApplied d i = inr d' → step d d'
  | step_confirmed d i : step d (MarkPropagationConfirmed d i)
  | step_failed d d' i e : MarkPropagationFailed d i e = inr d' → step d d'
  | step_refused d d' i e cause : MarkPropagationRefused d i e cause = inr d' → step d d'
  | step_requeue draw d d' i e n : RequeuePropagation draw d i e = inr (d', n) → step d d'
  | step_schedule draw d ids e : step d (ScheduleRetry draw d ids e).1
  | step_release d d' i why : ReleasePropagation d i why = inr d' → step d d'
  | step_prune d days : (0 <= days)%Z → step d (PruneTerminalPropagations d days).1
  | step_wait_reason d ids why : step d (SetWaitReason d ids why)
  | step_abandon d tgt : step d (abandonQueuedWorkTx d tgt).1
  | step_cancel d (ids : list string) why logs :
      step d (with_outbox d (update (λ r, bool_decide (id r ∈ ids) && (row_status r =? pending))
                (λ r, terminate (now d) superseded (Some why) (progress r)) (outbox d)) logs)
  | step_insert d mk :
      inserted d (mk (uuid (next_uuid d)) (next_intent d) (now d)) → step d (insert_row d mk).1
  | step_other d d' :
      outbox d' = outbox d → next_intent d' = next_intent d → next_uuid d ≤ next_uuid d' →
      (now d <= now d')%Z → step d d'.

Definition steps `{!Returning, !Uuids} : Db → Db → Prop := rtc step.

(** A state reached by queueing convergences for add-on targets: fresh pending
    rows that are not Zitadel's, and rows of other tables. *)
Record converges `{!Uuids} (d d' : Db) : Prop := {
  cv_now : now d' = now d;
  cv_ledger : ledger d' = ledger d;
  cv_uuid : next_uuid d ≤ next_uuid d';
  cv_targets : targets d' = targets d;
  cv_policy : standing_policy (tables d') = standing_policy (tables d);
  cv_rows : ∃ new, outbox d' = outbox d ++ new ∧
    Forall (λ r, target r ≠ TargetZitadel ∧ op_type r = op_apply ∧ project_id r = None ∧
                 row_status r = pending) new;
  cv_requests : requests d' = requests d;
}.
Lemma converges_refl `{!Uuids} d : converges d d.
Proof. split; try done. exists []. by rewrite app_nil_r. Qed.

(** ** Facts: each statement is a step of the row machine *)
Lemma with_progress_self r : r = with_progress r (progress r).
Proof. by destruct r. Qed.

Lemma evolves_refl now r : evolves now r r.
Proof.
  split; auto using with_progress_self.
  - unfold edge. by rewrite bool_decide_true.
  - congruence.
Qed.

Lemma evolved_update now t where_ set_ :
  (∀ r, r ∈ t → where_ r = true → evolves now r (with_progress r (set_ r))) →
  Forall2 (evolves now) t (update where_ set_ t).
Proof.
  intros H. unfold update. apply Forall2_fmap_r, Forall_Forall2_diag, Forall_forall. intros r Hr.
  simpl. destruct (where_ r) eqn:E; [by apply H|apply evolves_refl].
Qed.

Lemma evolves_unresolved now r p :
  unresolved r = true → edge (row_status r) (status p) = true → attempts (progress r) ≤ attempts p →
  confirmed_at p = confirmed_at (progress r) →
  completed_at p = (if terminal (status p) then Some now else completed_at (progress r)) →
  evolves now r (with_progress r p).
Proof.
  intros Hun He Ha Hc Hd.
  assert (Ht : terminal (row_status r) = false) by (unfold terminal, unresolved in *; by rewrite Hun).
  split; simpl; try done; try congruence.
  - intros _ Hp. unfold row_status in Hp. simpl in Hp. by rewrite Hp in Hd.
  - intros Hp. unfold row_status in Hp. simpl in Hp. by rewrite Hp in Hd.
Qed.

Lemma terminateSuperseded_evolved d tgt i :
  Forall2 (evolves (now d)) (outbox d) (outbox (terminateSuperseded d tgt i)).
Proof.
  apply evolved_update. intros r _ Hw. rewrite !andb_true_iff in Hw. destruct Hw as [[[_ Hun] _] _].
  apply evolves_unresolved; try done. apply unresolved_status in Hun as [->| ->]; done.
Qed.


Lemma settle_evolved d d' i set_ :
  settleOne d i set_ = inr d' →
  (∀ p, status p = in_flight → attempts p ≤ attempts (set_ p) ∧ confirmed_at (set_ p) = confirmed_at p ∧
        completed_at (set_ p) = (if terminal (status (set_ p)) then Some (now d) else completed_at p)) →
  Forall2 (evolves (now d)) (outbox d) (outbox d') ∧ next_intent d' = next_intent d ∧
  next_uuid d' = next_uuid d ∧ now d' = now d.
Proof.
  unfold settleOne. intros E Hset. case_bool_decide; [done|]. injection E as <-. simpl. split; [|done].
  apply evolved_update. intros r _ Hw. unfold in_flight_row in Hw.
  rewrite andb_true_iff, !bool_decide_eq_true in Hw. destruct Hw as [_ Hs].
  destruct (Hset (progress r) Hs) as (? & ? & ?).
  apply evolves_unresolved; try done; [apply unresolved_status; by right|].
  unfold edge. rewrite Hs. by destruct (_ =? _).
Qed.

(** One step: rows evolve in place, one is appended, or settled ones are dropped. *)
Inductive table_step `{!Uuids} (d d' : Db) : Prop :=
  | table_evolves :
      Forall2 (evolves (now d)) (outbox d) (outbox d') →
      next_intent d' = next_intent d → next_uuid d ≤ next_uuid d' → (now d <= now d')%Z → table_step d d'
  | table_inserts r :
      inserted d r → outbox d' = outbox d ++ [r] → next_intent d' = (next_intent d + 1)%Z →
      next_uuid d' = S (next_uuid d) → now d' = now d → table_step d d'
  | table_prunes keep :
      outbox d' = filter (λ r, keep r = true) (outbox d) →
      (∀ r, keep r = false → terminal (row_status r) = true) →
      next_intent d' = next_intent d → next_uuid d' = next_uuid d → now d' = now d → table_step d d'.

Lemma step_table `{!Returning, !Uuids} d d' : step d d' → table_step d d'.
Proof.
  destruct 1 as [d tgt i|d rows Hun|d d' i E|d i|d d' i e E|d d' i e cause E|draw d d' i e n E|draw d ids e
                |d d' i why E|d days Hd|d ids why|d tgt|d ids why logs|d mk Hins|d d' Eo En Eu Et].
  - apply table_evolves; [apply terminateSuperseded_evolved|done..].
  - apply table_evolves; [|done..]. apply evolved_update. intros r Hr Hw%bool_decide_eq_true.
    apply evolves_unresolved; auto. specialize (Hun r Hr Hw). apply unresolved_status in Hun as [->| ->]; done.
  - apply settle_evolved in E as (? & ? & ? & ?); [apply table_evolves; lia || done|done].
  - apply table_evolves; [|done..]. apply evolved_update. intros r _ Hw.
    rewrite !andb_true_iff, !bool_decide_eq_true in Hw. destruct Hw as [[_ Hs] Hc].
    split; simpl; try done; unfold row_status in *; simpl; rewrite ?Hs; try done. naive_solver.
  - apply settle_evolved in E as (? & ? & ? & ?); [apply table_evolves; lia || done|done].
  - apply settle_evolved in E as (? & ? & ? & ?); [apply table_evolves; lia || done|done].
  - unfold RequeuePropagation in E. destruct (settleOne _ _ _) eqn:Es; [done|]. injection E as <- _.
    apply settle_evolved in Es as (? & ? & ? & ?); [apply table_evolves; lia || done|]. simpl. intros. split_and!; [lia|done..].
  - apply table_evolves; [|done..]. apply evolved_update. intros r _ Hw.
    rewrite !andb_true_iff, !bool_decide_eq_true in Hw. destruct Hw as [[[[_ Hs] _] _] _].
    apply evolves_unresolved; simpl; unfold row_status in *; rewrite ?Hs; try done; [|lia].
    apply unresolved_status. by left.
  - apply settle_evolved in E as (? & ? & ? & ?); [apply table_evolves; lia || done|done].
  - eapply (table_prunes _ _ (λ r, negb (terminal (row_status r) && from_option (λ t, t <? now d - days * day)%Z false (completed_at (progress r))))).
    + simpl. apply list_filter_iff. intros r. by destruct (_ && _).
    + intros r. by destruct (terminal (row_status r)).
    + done.
    + done.
    + done.
  - apply table_evolves; [|done..]. apply evolved_update. intros r _ Hw.
    rewrite !andb_true_iff, !bool_decide_eq_true in Hw. destruct Hw as [_ Hs].
    apply evolves_unresolved; simpl; unfold row_status in *; rewrite ?Hs; try done.
    apply unresolved_status. by left.
  - apply table_evolves; [|done..]. apply evolved_update. intros r _ Hw.
    rewrite !andb_true_iff in Hw. destruct Hw as [_ Hun].
    apply evolves_unresolved; try done. apply unresolved_status in Hun as [->| ->]; done.
  - apply table_evolves; [|done..]. apply evolved_update. intros r _ Hw.
    rewrite !andb_true_iff, !bool_decide_eq_true in Hw. destruct Hw as [_ Hs].
    apply evolves_unresolved; simpl; unfold row_status in *; rewrite ?Hs; try done.
    apply unresolved_status. by left.
  - by eapply table_inserts.
  - apply table_evolves; [|done..]. rewrite Eo. apply Forall_Forall2_diag, Forall_forall.
    intros; apply evolves_refl.
Qed.

(** The operations of Outbox.v that are several statements. *)
Lemma claim_chosen_steps `{!Returning, !Uuids} d tgt i rows :
  (∀ r, r ∈ outbox (terminateSuperseded d tgt i) → id r ∈ (id <$> rows) → unresolved r = true) →
  steps d (claim_rows (terminateSuperseded d tgt i) rows).1.
Proof. intros. eapply rtc_l; [apply step_supersede|]. apply rtc_once. by apply step_claim. Qed.

(** ** The table invariant *)
Record wf `{!Uuids} (d : Db) : Prop := {
  wf_schema : schema (outbox d);
  wf_ids : ∀ r, r ∈ outbox d → ∃ n, n < next_uuid d ∧ id r = uuid n;
  wf_seq : NoDup (intent_seq <$> outbox d) ∧ ∀ r, r ∈ outbox d → (intent_seq r < next_intent d)%Z;
  wf_done : ∀ r, r ∈ outbox d →
    match completed_at (progress r) with
    | Some t => terminal (row_status r) = true ∧ (t <= now d)%Z
    | None => terminal (row_status r) = false
    end;
  wf_confirmed : ∀ r, r ∈ outbox d → is_Some (confirmed_at (progress r)) → row_status r = applied;
}.

Lemma evolves_done now r r' :
  evolves now r r' →
  match completed_at (progress r) with
  | Some t => terminal (row_status r) = true ∧ (t <= now)%Z
  | None => terminal (row_status r) = false
  end →
  match completed_at (progress r') with
  | Some t => terminal (row_status r') = true ∧ (t <= now)%Z
  | None => terminal (row_status r') = false
  end.
Proof.
  intros [_ He _ Hset Hs Ho _]. destruct (terminal (row_status r)) eqn:Ht.
  - intros Hc. destruct (Hset eq_refl) as [E|(Ha & _ & E)]; unfold row_status in *; rewrite E; simpl; [|by rewrite Ha in *].
    by rewrite Ht.
  - intros Hc. assert (completed_at (progress r) = None) as Hn by (by destruct (completed_at (progress r)) as [t|]; [destruct Hc|]).
    destruct (terminal (row_status r')) eqn:Ht'; [rewrite Hs by done; split; [done|lia]|].
    destruct (Ho eq_refl) as [-> _]. by rewrite Hn.
Qed.

Lemma evolves_confirmed now r r' :
  evolves now r r' → (is_Some (confirmed_at (progress r)) → row_status r = applied) →
  is_Some (confirmed_at (progress r')) → row_status r' = applied.
Proof.
  intros [_ He _ Hset _ _ Hc] H Hs. destruct (decide (row_status r' = applied)) as [|Hne]; [done|].
  rewrite (Hc Hne) in Hs. specialize (H Hs). rewrite H in He.
  unfold edge in He. destruct (row_status r'); try done.
Qed.

Lemma Forall2_ids now t t' : Forall2 (evolves now) t t' →
  id <$> t' = id <$> t ∧ intent_seq <$> t' = intent_seq <$> t.
Proof.
  induction 1 as [|r r' t t' H _ [IH1 IH2]]; csimpl; [done|].
  rewrite IH1, IH2. by rewrite (ev_intent _ _ _ H).
Qed.
Lemma Forall2_back now t t' r' : Forall2 (evolves now) t t' → r' ∈ t' → ∃ r, r ∈ t ∧ evolves now r r'.
Proof.
  intros H Hr'. apply list_elem_of_lookup in Hr' as [i Hi].
  destruct (Forall2_lookup_r _ _ _ _ _ H Hi) as (r & Hr & He). exists r. split; [by eapply list_elem_of_lookup_2|done].
Qed.

Lemma wf_evolves `{!Uuids} d d' :
  wf d → Forall2 (evolves (now d)) (outbox d) (outbox d') → next_intent d' = next_intent d →
  next_uuid d ≤ next_uuid d' → (now d <= now d')%Z → wf d'.
Proof.
  intros [[Hnd Hw] Hi [Hq Hql] Hdone Hc] HF En Eu Et. destruct (Forall2_ids _ _ _ HF) as [E1 E2].
  pose proof Forall2_back as Hb. split; [split| |split| |].
  - by rewrite E1.
  - intros r' Hr'. destruct (Hb _ _ _ _ HF Hr') as (r & Hr & He). rewrite (ev_intent _ _ _ He). exact (Hw r Hr).
  - intros r' Hr'. destruct (Hb _ _ _ _ HF Hr') as (r & Hr & He). rewrite (ev_intent _ _ _ He).
    destruct (Hi r Hr) as (n & ? & ?). exists n. split; [lia|done].
  - by rewrite E2.
  - intros r' Hr'. destruct (Hb _ _ _ _ HF Hr') as (r & Hr & He). rewrite (ev_intent _ _ _ He), En. exact (Hql r Hr).
  - intros r' Hr'. destruct (Hb _ _ _ _ HF Hr') as (r & Hr & He).
    pose proof (evolves_done _ _ _ He (Hdone r Hr)) as Hd'.
    destruct (completed_at (progress r')); [split; [tauto|lia]|done].
  - intros r' Hr'. destruct (Hb _ _ _ _ HF Hr') as (r & Hr & He).
    by apply (evolves_confirmed _ _ _ He), Hc.
Qed.

Lemma wf_insert `{!Uuids} d d' r :
  wf d → inserted d r → outbox d' = outbox d ++ [r] → next_intent d' = (next_intent d + 1)%Z →
  next_uuid d' = S (next_uuid d) → now d' = now d → wf d'.
Proof.
  intros [[Hnd Hw] Hi [Hq Hql] Hdone Hc] (Hid & Hseq & _ & [w Hp] & Hwo) Eo En Eu Et.
  assert (Hin : ∀ x, x ∈ outbox d' → x ∈ outbox d ∨ x = r).
  { intros x. rewrite Eo, elem_of_app, list_elem_of_singleton. done. }
  split; [split| |split| |].
  - rewrite Eo, fmap_app. apply NoDup_app. split_and!; [done| |apply NoDup_singleton].
    intros x Hx. apply list_elem_of_fmap in Hx as (y & -> & Hy). csimpl. rewrite list_elem_of_singleton, Hid.
    destruct (Hi y Hy) as (n & ? & ->). intros ?%uuid_inj. lia.
  - intros x Hx. destruct (Hin x Hx) as [?| ->]; auto.
  - intros x Hx. rewrite Eu. destruct (Hin x Hx) as [Hy| ->]; [|eauto].
    destruct (Hi x Hy) as (n & ? & ?). exists n. split; [lia|done].
  - rewrite Eo, fmap_app. apply NoDup_app. split_and!; [done| |apply NoDup_singleton].
    intros x Hx. apply list_elem_of_fmap in Hx as (y & -> & Hy). csimpl. rewrite list_elem_of_singleton, Hseq.
    specialize (Hql y Hy). lia.
  - intros x Hx. rewrite En. destruct (Hin x Hx) as [Hy| ->]; [specialize (Hql x Hy); lia|lia].
  - intros x Hx. rewrite Et. destruct (Hin x Hx) as [Hy| ->]; [by apply Hdone|]. unfold row_status. by rewrite Hp.
  - intros x Hx. destruct (Hin x Hx) as [Hy| ->]; [by apply Hc|]. rewrite Hp. by intros [??].
Qed.

Lemma wf_step `{!Returning, !Uuids} d d' : wf d → step d d' → wf d'.
Proof.
  intros Hwf Hst%step_table. destruct Hst as [HF En Eu Et|r Hins Eo En Eu Et|keep Eo Hk En Eu Et].
  - by eapply wf_evolves.
  - by eapply wf_insert.
  - destruct Hwf as [[Hnd Hw] Hi [Hq Hql] Hdone Hc].
    assert (Hsub : outbox d' `sublist_of` outbox d) by (rewrite Eo; apply sublist_filter).
    assert (Hin : ∀ x, x ∈ outbox d' → x ∈ outbox d) by (intros x; rewrite Eo, list_elem_of_filter; tauto).
    split; [split| |split| |]; rewrite ?En, ?Eu, ?Et;
      try (intros x Hx; by (apply Hw || apply Hi || apply Hql || apply Hdone || apply Hc); apply Hin).
    + eapply sublist_NoDup; [exact Hnd|]. by apply fmap_sublist.
    + eapply sublist_NoDup; [exact Hq|]. by apply fmap_sublist.
Qed.

Lemma wf_steps `{!Returning, !Uuids} d d' : wf d → steps d d' → wf d'.
Proof. intros Hwf Hs. induction Hs; eauto using wf_step. Qed.
Lemma wf_empty `{!Uuids} d : outbox d = [] → wf d.
Proof. intros E. split; [split| |split| |]; rewrite E; csimpl; try (by constructor); by intros r ?%elem_of_nil. Qed.

(** Each compound operation is a sequence of steps from a well-formed table. *)
Lemma chosen_claim_steps `{!Returning, !Uuids} d tgt locked (where_ : Row → bool) order limit :
  NoDup (id <$> outbox d) → (∀ r, where_ r = true → unresolved r = true) →
  steps d (claim_chosen (terminateSuperseded d tgt "")
             (chosen locked where_ order limit (outbox (terminateSuperseded d tgt "")))).1.
Proof.
  intros Hnd Hun. apply claim_chosen_steps. intros r Hr (r0 & E & Hr0)%list_elem_of_fmap.
  apply chosen_elem in Hr0 as (Hin & Hw & _).
  rewrite (same_id (outbox (terminateSuperseded d tgt "")) r r0); auto. by rewrite terminateSuperseded_ids.
Qed.
Lemma claimable_unresolved d tgt r : claimable d tgt r = true → unresolved r = true.
Proof. unfold claimable. rewrite !andb_true_iff. tauto. Qed.

Lemma claims_step `{!Returning, !Uuids} locked d tgt limit :
  NoDup (id <$> outbox d) →
  steps d (ClaimPendingPropagations locked d tgt limit).1 ∧
  steps d (ClaimPendingRevocations locked d tgt limit).1 ∧
  steps d (ClaimDueRetries locked d tgt limit).1.
Proof.
  intros Hnd. split_and!; apply chosen_claim_steps; try done; intros r.
  - apply claimable_unresolved.
  - unfold revocation_claimable. rewrite !andb_true_iff. intros [[[[[Hc _] _] _] _] _]. by eapply claimable_unresolved.
  - unfold retry_claimable. rewrite !andb_true_iff. intros [[[[[[Hc _] _] _] _] _] _]. by eapply claimable_unresolved.
Qed.
Lemma claim_one_steps `{!Returning, !Uuids} d tgt i :
  NoDup (id <$> outbox d) → steps d (ClaimPropagationByID d tgt i).1.
Proof.
  intros Hnd. unfold ClaimPropagationByID. destruct (claim_rows _ _) as [d' out] eqn:E. simpl.
  replace d' with (claim_rows (terminateSuperseded d tgt i)
    (filter (λ r, id r = i ∧ claimable (terminateSuperseded d tgt i) tgt r = true)
       (outbox (terminateSuperseded d tgt i)))).1 by (by rewrite E).
  apply claim_chosen_steps. intros r Hr (r0 & Ei & Hr0)%list_elem_of_fmap.
  apply list_elem_of_filter in Hr0 as [[_ Hc] Hin].
  rewrite (same_id (outbox (terminateSuperseded d tgt i)) r r0); auto; [by eapply claimable_unresolved|].
  by rewrite terminateSuperseded_ids.
Qed.
Lemma abandon_all_steps `{!Returning, !Uuids} names d : steps d (abandon_all d names).1.
Proof.
  revert d; induction names as [|t names IH]; intros d; cbn [abandon_all]; [apply rtc_refl|].
  destruct (abandonQueuedWorkTx d t) as [d1 w] eqn:E1. specialize (IH d1).
  destruct (abandon_all d1 names) as [d2 ws]. cbn [fst] in *.
  eapply rtc_l; [|exact IH]. replace d1 with (abandonQueuedWorkTx d t).1 by (by rewrite E1). apply step_abandon.
Qed.

(** ** Properties *)

(** C5. From an empty outbox, whatever sequence of operations runs, the table
    stays well formed: ids and intent numbers are unique, a row carries a
    completion time (never in the future) exactly when it is settled, and only
    an applied row is ever marked as seen in Zitadel. *)
Theorem reachable_outbox_wf `{!Returning, !Uuids} d0 d :
  outbox d0 = [] → steps d0 d → wf d.
Proof. intros. eapply wf_steps; [by apply wf_empty|done]. Qed.

#[export] Instance decimal_uuids : Uuids | 100 := {| uuid := Itoa; uuid_inj := Itoa_inj; uuid_lower := Itoa_lower |}.
Definition demo_insert (op : OpType) (i : string) (seq t : Z) : Row :=
  {| id := i; target := "zitadel"; op_type := op; user_id := "ada"; project_id := Some "lab"; role_keys := Some ["viewer"];
     source := "direct"; source_ref := None; cascade_id := None; zitadel_grant_id := None; payload_json := "{}";
     idempotency_key := i; initiated_by := "op"; reason := None; withdraws_only := false; intent_seq := seq; created_at := t;
     plan_subject_id := None; snapshot := None; progress := fresh_progress None |}.
(** Two rows are queued, the first is claimed, applied and seen in Zitadel. *)
Definition demo_two : Db := (insert_row (insert_row (demo_db []) (demo_insert op_add)).1 (demo_insert op_revoke)).1.
Definition demo_sent : Db := (claim_rows demo_two (take 1 (outbox demo_two))).1.
Definition demo_done : Db := match MarkPropagationApplied demo_sent "0" with inr d => MarkPropagationConfirmed d "0" | inl _ => demo_sent end.
Lemma reachable_outbox_wf_witness :
  wf demo_done ∧
  ((λ r, (id r, intent_seq r, row_status r, completed_at (progress r), confirmed_at (progress r))) <$> outbox demo_done) =
    [("0", 10, applied, Some 1000, Some 1000); ("1", 11, pending, None, None)]%Z.
Proof.
  split; [|vm_compute; reflexivity]. apply (reachable_outbox_wf (demo_db [])); [reflexivity|].
  destruct (MarkPropagationApplied demo_sent "0") as [e|d] eqn:E; [vm_compute in E; discriminate E|].
  assert (demo_done = MarkPropagationConfirmed d "0") as -> by (unfold demo_done; rewrite E; reflexivity).
  eapply rtc_l; [apply (step_insert _ (demo_insert op_add)); split_and!; try done; eexists; reflexivity|].
  eapply rtc_l; [apply (step_insert _ (demo_insert op_revoke)); split_and!; try done; eexists; reflexivity|].
  eapply rtc_l; [apply (step_claim _ (take 1 (outbox demo_two)))|].
  - intros r Hr _. simpl in Hr. repeat (apply elem_of_cons in Hr as [->|Hr]; [vm_compute; reflexivity|]). by apply elem_of_nil in Hr.
  - eapply rtc_l; [exact (step_applied _ _ "0" E)|]. apply rtc_once, step_confirmed.
Defined.

(** How a row stands against an earlier state of itself. *)
Record tracked (r r' : Row) : Prop := {
  tr_intent : r' = with_progress r (progress r');
  tr_attempts : attempts (progress r) ≤ attempts (progress r');
  tr_edges : rtc (λ s s', edge s s' = true) (row_status r) (row_status r');
  tr_final : terminal (row_status r) = true →
    row_status r' = row_status r ∧ attempts (progress r') = attempts (progress r) ∧
    last_error (progress r') = last_error (progress r) ∧
    completed_at (progress r') = completed_at (progress r) ∧ wait_reason (progress r') = wait_reason (progress r);
}.
Lemma tracked_refl r : tracked r r.
Proof. split; [apply with_progress_self|lia|apply rtc_refl|done]. Qed.
Lemma tracked_evolves now r r1 r' : tracked r r1 → evolves now r1 r' → tracked r r'.
Proof.
  intros [Hi Ha He Hf] [Ei Ee Ea Es _ _ _]. split.
  - rewrite Ei, Hi. done.
  - lia.
  - by eapply rtc_r.
  - intros Ht. destruct (Hf Ht) as (Hs & H1 & H2 & H3 & H4).
    rewrite Hs in Es. destruct (Es Ht) as [E|(_ & _ & E)]; unfold row_status in *; rewrite E; simpl; auto.
Qed.

Lemma rows_tracked `{!Returning, !Uuids} d d' r r' :
  wf d → steps d d' → r ∈ outbox d → r' ∈ outbox d' → id r' = id r → tracked r r'.
Proof.
  intros Hwf Hs Hr. revert r'.
  assert (Hu : next_uuid d ≤ next_uuid d' ∧ wf d' ∧ ∀ r', r' ∈ outbox d' → id r' = id r → tracked r r').
  2: { intros. by apply Hu. }
  pattern d'. refine (rtc_ind_r _ d _ _ d' Hs).
  - split_and!; [lia|done|]. intros r' Hr' E. rewrite (same_id (outbox d) r' r); [apply tracked_refl|by destruct Hwf as [[]]|done..].
  - intros d1 d2 Hs1 Hst (Hle & Hwf1 & IH).
    split_and!; [|by eapply wf_step|]; apply step_table in Hst as [HF En Eu Et|rn (Hid & _) Eo En Eu Et|keep Eo Hk En Eu Et]; try lia.
    + intros r' Hr' E. destruct (Forall2_back _ _ _ _ HF Hr') as (r1 & Hr1 & He).
      eapply tracked_evolves; [|exact He]. apply IH; [done|]. rewrite <-E. by rewrite (ev_intent _ _ _ He).
    + intros r' Hr' E. rewrite Eo, elem_of_app, list_elem_of_singleton in Hr'. destruct Hr' as [?| ->]; [by apply IH|].
      exfalso. destruct (wf_ids _ Hwf r Hr) as (n & Hn & En'). rewrite Hid, En' in E. apply uuid_inj in E. lia.
    + intros r' Hr' E. rewrite Eo, list_elem_of_filter in Hr'. apply IH; tauto.
Qed.

(** No row comes back: one whose id an earlier state had drawn was in its table. *)
Lemma rows_back `{!Returning, !Uuids} d d' r' n :
  steps d d' → r' ∈ outbox d' → id r' = uuid n → n < next_uuid d → ∃ r, r ∈ outbox d ∧ id r = id r'.
Proof.
  intros Hs Hr Hid Hn. revert r' Hr Hid.
  assert (next_uuid d ≤ next_uuid d' ∧ ∀ r', r' ∈ outbox d' → id r' = uuid n → ∃ r, r ∈ outbox d ∧ id r = id r') as [_ ?]; [|done].
  pattern d'. refine (rtc_ind_r _ d _ _ d' Hs); [split; [lia|eauto]|].
  intros d1 d2 _ Hst [Hle IH]. apply step_table in Hst as [HF En Eu Et|rn (Hid & _) Eo En Eu Et|keep Eo Hk En Eu Et]; (split; [lia|]).
  - intros r' Hr' E. destruct (Forall2_back _ _ _ _ HF Hr') as (r1 & Hr1 & He).
    assert (id r1 = id r') as E1 by (by rewrite (ev_intent _ _ _ He)). rewrite <-E1. apply IH; congruence.
  - intros r'. rewrite Eo, elem_of_app, list_elem_of_singleton. intros [?| ->] E; [by apply IH|].
    exfalso. rewrite Hid in E. apply uuid_inj in E. lia.
  - intros r'. rewrite Eo, list_elem_of_filter. intros [_ ?]. by apply IH.
Qed.

(** C4. A row is never rewritten and a settled row is final: between any two
    reachable states a row keeps its person, roles, operation and every other
    column it was inserted with, its attempts never decrease, its status moves
    only along pending, in flight and the settled states, and once it is
    applied, failed, superseded or abandoned nothing changes its status, error
    or completion time again. *)
Theorem settled_rows_are_final `{!Returning, !Uuids} d d' r r' :
  wf d → steps d d' → r ∈ outbox d → r' ∈ outbox d' → id r' = id r → tracked r r'.
Proof. apply rows_tracked. Qed.

Definition demo_inflight : Db := (claim_rows demo_queue (outbox demo_queue)).1.
Lemma settled_rows_are_final_witness :
  tracked (demo_row "3" "bob" op_revoke 3 (start demo_queue (fresh_progress None)))
          (demo_row "3" "bob" op_revoke 3 (terminate 1000 applied None (start demo_queue (fresh_progress None)))).
Proof.
  set (d := {| now := 1000; outbox := outbox demo_inflight; targets := ∅; role_waits := []; ledger := [];
     audit_logs := []; memory := ∅; requests := []; grant_index := ∅; gave_up_seen := ∅;
     tables := empty_tables; next_intent := 10; next_uuid := 4 |}).
  assert (Hwf : wf d).
  { split; [split| |split| |]; try (apply (bool_decide_unpack _); by vm_compute);
      intros r Hr; simpl in Hr; repeat (apply elem_of_cons in Hr as [->|Hr]; [|]); try (by apply elem_of_nil in Hr); try done.
    - exists 1; split; [simpl; lia|by vm_compute].
    - exists 2; split; [simpl; lia|by vm_compute].
    - exists 3; split; [simpl; lia|by vm_compute].
    - by intros [??].
    - by intros [??].
    - by intros [??]. }
  destruct (MarkPropagationApplied d "3") as [e|d'] eqn:E; [by vm_compute in E|].
  apply (settled_rows_are_final d d'); [done|eapply rtc_once, step_applied; exact E| | |done].
  - simpl. set_solver.
  - injection E as <-. vm_compute. set_solver.
Defined.

(** No queued change is lost: an unresolved row is still there after any
    sequence of operations, unless at some point in between it was settled. *)
Theorem unresolved_rows_are_kept `{!Returning, !Uuids} d d' r :
  wf d → steps d d' → r ∈ outbox d →
  (∃ r', r' ∈ outbox d' ∧ tracked r r') ∨
  ∃ d1 r1, steps d d1 ∧ steps d1 d' ∧ r1 ∈ outbox d1 ∧ tracked r r1 ∧ terminal (row_status r1) = true.
Proof.
  intros Hwf Hs Hr. pattern d'. refine (rtc_ind_r _ d _ _ d' Hs).
  - left. exists r. split; [done|apply tracked_refl].
  - intros d1 d2 Hs1 Hst [(r1 & Hr1 & Ht)|(d0 & r0 & Hd0 & Hd1 & ? & ? & ?)].
    2: { right. exists d0, r0. split_and!; try done. by eapply rtc_r. }
    pose proof (rtc_once _ _ Hst) as Hlast.
    apply step_table in Hst as [HF _ _ _|rn _ Eo _ _ _|keep Eo Hk _ _ _].
    + left. apply list_elem_of_lookup in Hr1 as [i Hi].
      destruct (Forall2_lookup_l _ _ _ _ _ HF Hi) as (r2 & Hr2 & He). exists r2.
      split; [by eapply list_elem_of_lookup_2|by eapply tracked_evolves].
    + left. exists r1. rewrite Eo, elem_of_app. auto.
    + destruct (keep r1) eqn:Ek.
      * left. exists r1. rewrite Eo, list_elem_of_filter. auto.
      * right. exists d1, r1. split_and!; auto.
Qed.

Lemma unresolved_rows_are_kept_witness :
  (∃ r', r' ∈ outbox (insert_row (demo_db []) (demo_insert op_add)).1 ∧
     tracked (demo_insert op_add "0" 10 1000) r') ∨
  ∃ d1 r1, steps (insert_row (demo_db []) (demo_insert op_add)).1 d1 ∧
    steps d1 (insert_row (demo_db []) (demo_insert op_add)).1 ∧ r1 ∈ outbox d1 ∧
    tracked (demo_insert op_add "0" 10 1000) r1 ∧ terminal (row_status r1) = true.
Proof.
  apply unresolved_rows_are_kept; [|apply rtc_refl|vm_compute; set_solver].
  split; [split| |split| |]; try (apply (bool_decide_unpack _); by vm_compute);
    intros r [->|?%elem_of_nil]%elem_of_cons; try done.
  - exists 0. split; [simpl; lia|done].
  - by intros [??].
Defined.
