(* ===== verification/Plans.v ===== *)
(** * Plans: approvals, and the queued work they authorise

    backend/internal/db/plans.go, snapshots.go, entitlement_enqueue.go and
    system_convergence.go. A rehearsal is stored as a plan with a row per
    subject; an apply cites the plan and spends it; a convergence on an add-on
    target is queued only under a spent approval. A function on a transaction
    returns an error, and then nothing is written, or the new state. Errors are
    kept as their kind; the texts are not modelled. The digest of a request is
    SHA-256, a parameter. *)

From S2P Require Import Prelude Access Tables Fingerprint Extcall Outbox Lifecycle.

Inductive PlanError :=
  | ErrPlanNotFound
  | ErrPlanExpired
  | ErrPlanAlreadyApplied
  | ErrPlanNotCitableHere
  | ErrPlanNotYours
  | ErrPlanRequestMismatch
  | ErrPlanNoSubject
  | ErrInvalidPlan
  | ErrInvalidSnapshot
  | ErrPlanUnexplained          (* "could not be claimed and no longer says why" *)
  | ErrForeignKey               (* plans.target REFERENCES targets *)
  | ErrInvalidEnqueue
  | ErrNoClaimedApproval
  | ErrAlreadyQueued
  | ErrNotAnEntitlementTarget
  | ErrTargetNotActive
  | ErrEnqueueUnexplained
  | ErrNoApprovedIntent
  | ErrNotASystemConvergence.
#[export] Instance PlanError_eq_dec : EqDecision PlanError.
Proof. solve_decision. Defined.

(** ** The shape of an identifier *)
Definition hex_byte (a : ascii) : bool :=
  let n := N_of_ascii a in
  ((48 <=? n) && (n <=? 57) || (97 <=? n) && (n <=? 102) || (65 <=? n) && (n <=? 70))%N.
Definition uuid_byte (i : nat) (a : ascii) : bool :=
  if bool_decide (i ∈ [8; 13; 18; 23]) then Ascii.eqb a "-" else hex_byte a.
Definition looksLikeUUID (s : string) : bool :=
  (String.length s =? 36) &&
  forallb (λ '(i, a), uuid_byte i a) (imap pair (list_ascii_of_string s)).

(** ** A rehearsal about to become durable *)
Record NewPlanSubject := {
  np_SubjectID : string;
  np_SnapshotID : string;
  np_DesiredState : option (gmap string FieldValue);
  np_Fingerprint : string;
  np_Outcome : PlanOutcome;
}.
Record NewPlan := {
  n_Target : string;
  n_Surface : string;
  n_CreatedBy : string;
  n_Lifetime : Z;
  n_Provisional : bool;
  n_StateReadAt : Z;                  (* the zero time when not known *)
  n_RequestFingerprint : string;
  n_Subjects : list NewPlanSubject;
}.
Record PlanCitation := {
  ci_PlanID : string;
  ci_Target : string;
  ci_Surface : string;
  ci_Actor : string;
  ci_RequestFingerprint : string;
}.

Definition PlanEffectApply : string := "apply".
Definition PlanEffectNoChange : string := "no_change".
Definition PlanEffectBlocked : string := "blocked".
Definition validPlanEffect (e : string) : bool :=
  (e =? PlanEffectApply) || (e =? PlanEffectNoChange) || (e =? PlanEffectBlocked).
Definition outcome_valid (o : PlanOutcome) : bool :=
  validPlanEffect (o_Effect o) && forallb looksLikeUUID (o_GrantIDs o) && forallb looksLikeUUID (o_CancelIDs o).

Definition blank (s : string) : bool := TrimSpace s =? "".

(** The checks on one subject row, in their order; every one is ErrInvalidPlan. *)
Definition subject_valid (p : NewPlan) (s : NewPlanSubject) : bool :=
  negb (blank (np_SubjectID s)) && negb (blank (np_Fingerprint s))
  && ((np_SnapshotID s =? "") || looksLikeUUID (np_SnapshotID s))
  && ((np_SnapshotID s =? "") || (np_DesiredState s =? None))
  && ((np_DesiredState s =? None) || (n_Target p <>? TargetZitadel))
  && outcome_valid (np_Outcome s).
Definition validate (p : NewPlan) : bool :=
  negb (blank (n_Target p)) && negb (blank (n_Surface p)) && negb (blank (n_CreatedBy p))
  && negb (bool_decide (n_Subjects p = []))
  && (if n_Provisional p then negb (IsZero (n_StateReadAt p)) && (n_Lifetime p =? 0%Z)
      else (0 <? n_Lifetime p)%Z)
  && forallb (subject_valid p) (n_Subjects p)
  && bool_decide (NoDup (np_SubjectID <$> n_Subjects p)).

Definition canonical_outcome (o : PlanOutcome) : PlanOutcome :=
  {| o_Effect := o_Effect o; o_GrantIDs := ToLower <$> o_GrantIDs o; o_CancelIDs := ToLower <$> o_CancelIDs o |}.
Definition canonicalSubjects (l : list NewPlanSubject) : list NewPlanSubject :=
  (λ s, {| np_SubjectID := np_SubjectID s; np_SnapshotID := ToLower (np_SnapshotID s);
           np_DesiredState := np_DesiredState s; np_Fingerprint := np_Fingerprint s;
           np_Outcome := canonical_outcome (np_Outcome s) |}) <$> l.

(** ** Provenance: what a plan cites was allocated here, for this person *)
Definition matchGrantOwners (subjects : list NewPlanSubject) (owner : gmap string string) : bool :=
  forallb (λ s, forallb (λ i, bool_decide (owner !! i = Some (np_SubjectID s))) (o_GrantIDs (np_Outcome s))) subjects.
Definition verifyGrantProvenance (d : Db) (subjects : list NewPlanSubject) : bool :=
  matchGrantOwners subjects (list_to_map ((λ g, (ToLower (g_id g), g_user g)) <$> ledger d)).
Definition verifyCancelProvenance (d : Db) (subjects : list NewPlanSubject) : bool :=
  let owner : gmap string string := list_to_map ((λ r, (ToLower (id r), user_id r)) <$> outbox d) in
  forallb (λ s, forallb (λ i, bool_decide (owner !! i = Some (np_SubjectID s))) (o_CancelIDs (np_Outcome s))) subjects.
Definition matchSnapshotSubjects (subjects : list NewPlanSubject) (tgt : string)
    (taken : gmap string (string * string)) : bool :=
  forallb (λ s, (np_SnapshotID s =? "") ||
                bool_decide (taken !! np_SnapshotID s = Some (np_SubjectID s, tgt))) subjects.
Definition verifySnapshotProvenance (d : Db) (tgt : string) (subjects : list NewPlanSubject) : bool :=
  matchSnapshotSubjects subjects tgt
    (list_to_map ((λ s, (ToLower (sn_ID s), (sn_SubjectID s, sn_Target s))) <$> snapshots (tables d))).

Section plans.
Context `{!Uuids}.

(** The version trigger: one more than the pair's highest. *)
Definition last_version (d : Db) (subject tgt : string) : Z :=
  foldr Z.max 0%Z (sn_Version <$> filter (λ s, sn_SubjectID s = subject ∧ sn_Target s = tgt) (snapshots (tables d))).
Definition WriteDesiredStateSnapshotTx (d : Db) (subject tgt createdBy : string)
    (state : option (gmap string FieldValue)) : PlanError + (Db * string) :=
  if blank subject || blank tgt || (tgt =? TargetZitadel) || blank createdBy then inl ErrInvalidSnapshot
  else match state with
  | None => inl ErrInvalidSnapshot
  | Some st =>
      let '(d, i) := mint d in
      inr (with_tables d (with_snapshots (tables d) (snapshots (tables d) ++
        [{| sn_ID := i; sn_SubjectID := subject; sn_Target := tgt; sn_Version := last_version d subject tgt + 1;
            sn_State := st; sn_CreatedBy := createdBy |}])), i)
  end.

Definition insert_subject (d : Db) (planID : string) (s : NewPlanSubject) (snap : option string) : Db :=
  let '(d, i) := mint d in
  with_tables d (with_plans (tables d) (plans (tables d)) (plan_subjects (tables d) ++
    [{| ps_ID := i; ps_PlanID := planID; ps_SubjectID := np_SubjectID s; ps_SnapshotID := snap;
        ps_Fingerprint := np_Fingerprint s; ps_Outcome := np_Outcome s |}])).
Fixpoint insert_subjects (d : Db) (planID tgt createdBy : string) (l : list NewPlanSubject) : PlanError + Db :=
  match l with
  | [] => inr d
  | s :: l =>
      match np_DesiredState s with
      | Some st =>
          match WriteDesiredStateSnapshotTx d (np_SubjectID s) tgt createdBy (Some st) with
          | inl e => inl e
          | inr (d, i) => insert_subjects (insert_subject d planID s (Some i)) planID tgt createdBy l
          end
      | None => insert_subjects (insert_subject d planID s (NULLIF (np_SnapshotID s))) planID tgt createdBy l
      end
  end.

Definition second : Z := 10^9.
(** The lifetime is sent in whole seconds. *)
Definition new_plan (d : Db) (p : NewPlan) (i : string) : Plan :=
  {| pl_ID := i; pl_Target := n_Target p; pl_Surface := n_Surface p; pl_CreatedBy := n_CreatedBy p;
     pl_CreatedAt := now d;
     pl_ExpiresAt := if n_Provisional p then None else Some (now d + Z.quot (n_Lifetime p) second * second)%Z;
     pl_Provisional := n_Provisional p;
     pl_StateReadAt := if IsZero (n_StateReadAt p) then None else Some (n_StateReadAt p);
     pl_AppliedAt := None; pl_RequestFingerprint := n_RequestFingerprint p |}.
Definition createPlanTx (d : Db) (p : NewPlan) : PlanError + (Db * Plan) :=
  if negb (validate p) then inl ErrInvalidPlan
  else
    let subjects := canonicalSubjects (n_Subjects p) in
    if negb (verifyGrantProvenance d subjects && verifyCancelProvenance d subjects
             && verifySnapshotProvenance d (n_Target p) subjects) then inl ErrInvalidPlan
    else if bool_decide (targets d !! n_Target p = None) then inl ErrForeignKey
    else
      let '(d, i) := mint d in
      let pl := new_plan d p i in
      let d := with_tables d (with_plans (tables d) (plans (tables d) ++ [pl]) (plan_subjects (tables d))) in
      match insert_subjects d i (n_Target p) (n_CreatedBy p) subjects with
      | inl e => inl e
      | inr d => inr (d, pl)
      end.
Definition CreatePlan (d : Db) (p : NewPlan) : PlanError + (Db * Plan) :=
  if negb (validate p) then inl ErrInvalidPlan else createPlanTx d p.
End plans.

(** ** Spending an approval *)

(** Why a plan is not claimable, on the clock of whoever asks; [None] if it is. *)
Definition planRefusal (p : Plan) (c : PlanCitation) (clock : Z) : option PlanError :=
  if (pl_Target p <>? ci_Target c) || (pl_Surface p <>? ci_Surface c) then Some ErrPlanNotCitableHere
  else if pl_CreatedBy p <>? ci_Actor c then Some ErrPlanNotYours
  else if pl_RequestFingerprint p <>? ci_RequestFingerprint c then Some ErrPlanRequestMismatch
  else if bool_decide (is_Some (pl_AppliedAt p)) then Some ErrPlanAlreadyApplied
  else match pl_ExpiresAt p with
       | Some t => if negb (clock <? t)%Z then Some ErrPlanExpired else None
       | None => None
       end.
Definition find_plan (d : Db) (i : string) : option Plan := head (filter (λ p, pl_ID p = i) (plans (tables d))).
Definition explainPlanRefusal (d : Db) (c : PlanCitation) (clock : Z) : PlanError :=
  match find_plan d (ToLower (ci_PlanID c)) with
  | None => ErrPlanNotFound
  | Some p => default ErrPlanUnexplained (planRefusal p c clock)
  end.

(** The WHERE clause of the claim. A uuid column holds a value, written in lower
    case; the text it is compared with may name it in either. *)
Definition claim_where (d : Db) (c : PlanCitation) (p : Plan) : bool :=
  (pl_ID p =? ToLower (ci_PlanID c)) && (pl_Target p =? ci_Target c) && (pl_Surface p =? ci_Surface c)
  && (pl_CreatedBy p =? ci_Actor c) && (pl_RequestFingerprint p =? ci_RequestFingerprint c)
  && (pl_AppliedAt p =? None) && from_option (λ t, now d <? t)%Z true (pl_ExpiresAt p).
Definition spent (t : Z) (p : Plan) : Plan :=
  {| pl_ID := pl_ID p; pl_Target := pl_Target p; pl_Surface := pl_Surface p; pl_CreatedBy := pl_CreatedBy p;
     pl_CreatedAt := pl_CreatedAt p; pl_ExpiresAt := pl_ExpiresAt p; pl_Provisional := pl_Provisional p;
     pl_StateReadAt := pl_StateReadAt p; pl_AppliedAt := Some t; pl_RequestFingerprint := pl_RequestFingerprint p |}.
Definition planSubjectsTx (d : Db) (planID : string) : list PlanSubject :=
  stable_sort (cmp_on ps_SubjectID String.compare) (filter (λ s, ps_PlanID s = planID) (plan_subjects (tables d))).
Definition ClaimPlanTx (d : Db) (c : PlanCitation) (clock : Z) : PlanError + (Db * Plan * list PlanSubject) :=
  if negb (looksLikeUUID (ci_PlanID c)) then inl ErrPlanNotFound
  else match filter (λ p, claim_where d c p = true) (plans (tables d)) with
  | [] => inl (explainPlanRefusal d c clock)
  | p :: _ =>
      let d := with_tables d (with_plans (tables d)
        ((λ p, if claim_where d c p then spent (now d) p else p) <$> plans (tables d)) (plan_subjects (tables d))) in
      match planSubjectsTx d (pl_ID p) with
      | [] => inl ErrPlanNoSubject
      | subjects => inr (d, spent (now d) p, subjects)
      end
  end.
(** [verify] runs inside the transaction: what it refuses is not spent. *)
Definition ClaimPlanVerified (d : Db) (c : PlanCitation) (clock : Z) (verify : list PlanSubject → option PlanError)
    : PlanError + (Db * Plan * list PlanSubject) :=
  match ClaimPlanTx d c clock with
  | inl e => inl e
  | inr (d', p, subjects) => match verify subjects with Some e => inl e | None => inr (d', p, subjects) end
  end.

Definition cited_plan (d : Db) (p : Plan) : bool :=
  existsb (λ o, from_option (λ i, existsb (λ s, (ps_ID s =? i) && (ps_PlanID s =? pl_ID p)) (plan_subjects (tables d)))
                  false (plan_subject_id o)) (outbox d).
Definition prunable (d : Db) (retentionDays : Z) (p : Plan) : bool :=
  negb (pl_Provisional p) && (pl_CreatedAt p <? now d - retentionDays * day)%Z
  && (bool_decide (is_Some (pl_AppliedAt p)) || from_option (λ t, t <? now d)%Z false (pl_ExpiresAt p))
  && negb (cited_plan d p).
Definition PruneSpentPlans (d : Db) (retentionDays : Z) : Db * nat :=
  if (retentionDays <=? 0)%Z then (d, 0)
  else
    let ids := pl_ID <$> filter (λ p, prunable d retentionDays p = true) (plans (tables d)) in
    (with_tables d (with_plans (tables d) (filter (λ p, pl_ID p ∉ ids) (plans (tables d)))
                      (filter (λ s, ps_PlanID s ∉ ids) (plan_subjects (tables d)))),
     length (filter (λ p, pl_ID p ∈ ids) (plans (tables d)))).

(** ** Queueing work under a spent approval *)
Record EntitlementApply := {
  ea_PlanSubjectID : string;
  ea_Source : string;
  ea_WithdrawsOnly : bool;
  ea_Reason : string;
}.
Definition validOutboxSource (s : string) : bool :=
  bool_decide (s ∈ ["direct"; "bundle"; "rule"; "external_backfill"; "lifecycle_cascade"]).

Definition find_subject (d : Db) (i : string) : option PlanSubject :=
  head (filter (λ s, ps_ID s = i) (plan_subjects (tables d))).
(** The approval behind a plan subject: the row, its plan and the plan's
    target's state, [Some true] being active. *)
Definition approval (d : Db) (i : string) : option (PlanSubject * Plan) :=
  s ← find_subject d i; p ← find_plan d (ps_PlanID s); Some (s, p).
Definition already_queued (d : Db) (i : string) : bool :=
  existsb (λ o, bool_decide (plan_subject_id o = Some i)) (outbox d).

Record approvalRef := {
  ar_found : bool;
  ar_target : string;
  ar_active : bool;
  ar_claimed : bool;
  ar_alreadyQueued : bool;
}.
Definition enqueueRefusal (r : approvalRef) : option PlanError :=
  if negb (ar_found r) then Some ErrNoClaimedApproval
  else if ar_target r =? TargetZitadel then Some ErrNotAnEntitlementTarget
  else if negb (ar_claimed r) then Some ErrNoClaimedApproval
  else if negb (ar_active r) then Some ErrTargetNotActive
  else if ar_alreadyQueued r then Some ErrAlreadyQueued
  else None.
Definition explainEnqueueRefusal (d : Db) (i : string) : PlanError :=
  match approval d i with
  | None => ErrNoClaimedApproval
  | Some (s, p) =>
      default ErrEnqueueUnexplained
        (enqueueRefusal {| ar_found := true; ar_target := pl_Target p; ar_active := active d (pl_Target p);
                           ar_claimed := bool_decide (is_Some (pl_AppliedAt p));
                           ar_alreadyQueued := already_queued d i |})
  end.

(** The snapshot a plan subject approved, as the claim's predicate joins it. *)
Definition approved_snapshot (d : Db) (s : PlanSubject) : option Snapshot :=
  i ← ps_SnapshotID s; n ← head (filter (λ n, sn_ID n = i) (snapshots (tables d)));
  Some {| s_subject := sn_SubjectID n; s_target := sn_Target n; s_version := sn_Version n |}.
Definition apply_row (d : Db) (s : PlanSubject) (pl : Plan) (source_ key why : string) (withdraws : bool)
    (i : string) (seq t : Z) : Row :=
  {| id := i; target := pl_Target pl; op_type := op_apply; user_id := ps_SubjectID s; project_id := None;
     role_keys := None; source := source_; source_ref := None; cascade_id := None; zitadel_grant_id := None;
     payload_json := "{}"; idempotency_key := key; initiated_by := pl_CreatedBy pl; reason := NULLIF why;
     withdraws_only := withdraws; intent_seq := seq; created_at := t; plan_subject_id := Some (ps_ID s);
     snapshot := approved_snapshot d s; progress := fresh_progress None |}.

Section enqueue_apply.
Context `{!Uuids}.

Definition EnqueueEntitlementApplyTx (d : Db) (p : EntitlementApply) : PlanError + (Db * string) :=
  let source_ := if ea_Source p =? "" then "direct" else ea_Source p in
  if negb (looksLikeUUID (ea_PlanSubjectID p)) then inl ErrInvalidEnqueue
  else if negb (validOutboxSource source_) then inl ErrInvalidEnqueue
  else
    let '(d, key) := mint d in
    match approval d (ToLower (ea_PlanSubjectID p)) with
    | Some (s, pl) =>
        if active d (pl_Target pl) && bool_decide (is_Some (pl_AppliedAt pl)) && (pl_Target pl <>? TargetZitadel)
           && negb (already_queued d (ToLower (ea_PlanSubjectID p)))
        then
          let '(d, i) := insert_row d (apply_row d s pl source_ key (ea_Reason p) (ea_WithdrawsOnly p)) in
          inr (with_outbox d (outbox d)
                 [{| a_actor := pl_CreatedBy pl; a_subject := ps_SubjectID s;
                     a_action := "entitlement." +:+ pl_Target pl +:+ ".enqueued"; a_resource := i;
                     a_cascade := None; a_details := "" |}], i)
        else inl (explainEnqueueRefusal d (ToLower (ea_PlanSubjectID p)))
    | None => inl (explainEnqueueRefusal d (ToLower (ea_PlanSubjectID p)))
    end.

(** ** A convergence nobody approved *)
Definition SystemFingerprint : string := "system:re-verified-at-dispatch".
Definition SystemConvergenceSurface : string := "entitlements.lifecycle".
Record SystemConvergence := {
  sc_Target : string;
  sc_SubjectID : string;
  sc_Actor : string;
  sc_Reason : string;
  sc_Desired : option (gmap string FieldValue);
  sc_WithdrawsOnly : bool;
}.
Context (sha256hex : string → string).
Definition systemRequestFingerprint (tgt subject : string) : string :=
  Fingerprint sha256hex ["system_convergence"; tgt; subject].
Definition system_plan (c : SystemConvergence) (t : Z) : NewPlan :=
  {| n_Target := sc_Target c; n_Surface := SystemConvergenceSurface; n_CreatedBy := sc_Actor c;
     n_Lifetime := minute; n_Provisional := false; n_StateReadAt := t;
     n_RequestFingerprint := systemRequestFingerprint (sc_Target c) (sc_SubjectID c);
     n_Subjects := [{| np_SubjectID := sc_SubjectID c; np_SnapshotID := ""; np_DesiredState := sc_Desired c;
                       np_Fingerprint := SystemFingerprint;
                       np_Outcome := {| o_Effect := PlanEffectApply; o_GrantIDs := []; o_CancelIDs := [] |} |}] |}.
Definition system_citation (c : SystemConvergence) (planID : string) : PlanCitation :=
  {| ci_PlanID := planID; ci_Target := sc_Target c; ci_Surface := SystemConvergenceSurface;
     ci_Actor := sc_Actor c;
     ci_RequestFingerprint := systemRequestFingerprint (sc_Target c) (sc_SubjectID c) |}.
(** [clock] is time.Now(), which the plan records and a refusal is explained by. *)
Definition RecordSystemConvergence (d : Db) (clock : Z) (c : SystemConvergence) : PlanError + (Db * string * string) :=
  if blank (sc_Target c) || (sc_Target c =? TargetZitadel) || blank (sc_SubjectID c) || blank (sc_Actor c)
     || (sc_Desired c =? None)
  then inl ErrNotASystemConvergence
  else
    match createPlanTx d (system_plan c clock) with
    | inl e => inl e
    | inr (d, plan) =>
        match ClaimPlanTx d (system_citation c (pl_ID plan)) clock with
        | inl e => inl e
        | inr (d, _, [s]) =>
            match EnqueueEntitlementApplyTx d {| ea_PlanSubjectID := ps_ID s; ea_Source := "";
                    ea_WithdrawsOnly := sc_WithdrawsOnly c; ea_Reason := sc_Reason c |} with
            | inl e => inl e
            | inr (d, i) => inr (d, pl_ID plan, i)
            end
        | inr (_, _, _) => inl ErrNotASystemConvergence
        end
    end.
End enqueue_apply.

Definition HasUnfinishedConvergence (d : Db) (subject tgt : string) : bool :=
  existsb (λ r, (user_id r =? subject) && (target r =? tgt) && (op_type r =? op_apply) && withdraws_only r
                && unresolved r) (outbox d).

(** ** Reading the intent behind a queued row *)
Record EntitlementIntent := {
  ei_OutboxID : string;
  ei_Target : string;
  ei_PlanID : string;
  ei_SubjectID : string;
  ei_Fingerprint : string;
  ei_Desired : gmap string FieldValue;
  ei_Version : Z;
  ei_Surface : string;
}.
Definition ReadEntitlementIntent (d : Db) (outboxID : string) : PlanError + EntitlementIntent :=
  match (o ← head (filter (λ r, id r = outboxID) (outbox d));
         i ← plan_subject_id o; sp ← approval d i;
         n ← (k ← ps_SnapshotID sp.1; head (filter (λ n, sn_ID n = k) (snapshots (tables d))));
         Some (o, sp, n)) with
  | None => inl ErrNoApprovedIntent
  | Some (o, (s, p), n) =>
      inr {| ei_OutboxID := id o; ei_Target := target o; ei_PlanID := ps_PlanID s; ei_SubjectID := sn_SubjectID n;
             ei_Fingerprint := ps_Fingerprint s; ei_Desired := sn_State n; ei_Version := sn_Version n;
             ei_Surface := pl_Surface p |}
  end.

(** ** Facts: what the plan statements leave alone *)

(** Only plans, their subjects and snapshots moved. *)
Record keeps (d d' : Db) : Prop := {
  k_now : now d' = now d;
  k_outbox : outbox d' = outbox d;
  k_targets : targets d' = targets d;
  k_ledger : ledger d' = ledger d;
  k_intent : next_intent d' = next_intent d;
  k_uuid : next_uuid d ≤ next_uuid d';
  k_policy : standing_policy (tables d') = standing_policy (tables d);
  k_requests : requests d' = requests d;
}.
#[export] Instance keeps_preorder : PreOrder keeps.
Proof.
  split; [by split|]. intros d1 d2 d3 [] []. split; congruence || lia.
Qed.
Lemma keeps_step `{!Returning, !Uuids} d d' : keeps d d' → step d d'.
Proof. intros []. apply step_other; congruence || lia. Qed.

(** Snapshots are only added, under fresh ids. *)
Definition snapshots_grow `{!Uuids} (d d' : Db) : Prop :=
  ∃ new, snapshots (tables d') = snapshots (tables d) ++ new ∧
    ∀ n, n ∈ new → ∃ k, next_uuid d ≤ k < next_uuid d' ∧ sn_ID n = uuid k.
Lemma snapshots_grow_trans `{!Uuids} d1 d2 d3 :
  next_uuid d1 ≤ next_uuid d2 ≤ next_uuid d3 → snapshots_grow d1 d2 → snapshots_grow d2 d3 → snapshots_grow d1 d3.
Proof.
  intros Hle (l & E & Hl) (m & E' & Hm). exists (l ++ m). rewrite E', E, (assoc_L (++)). split; [done|].
  intros n [(k & ? & ?)%Hl|(k & ? & ?)%Hm]%elem_of_app; exists k; (split; [lia|done]).
Qed.
Lemma snapshots_grow_same `{!Uuids} d d' : snapshots (tables d') = snapshots (tables d) → snapshots_grow d d'.
Proof. intros E. exists []. rewrite app_nil_r. split; [done|]. by intros n ?%elem_of_nil. Qed.

(** Ids drawn between two states: none repeats, none was drawn before. *)
Definition minted `{!Uuids} (d d' : Db) (ids : list string) : Prop :=
  NoDup ids ∧ ∀ i, i ∈ ids → ∃ n, next_uuid d ≤ n < next_uuid d' ∧ i = uuid n.
Lemma minted_nil `{!Uuids} d d' : minted d d' [].
Proof. split; [constructor|]. by intros i ?%elem_of_nil. Qed.
Lemma minted_cons `{!Uuids} d d1 d2 n ids :
  next_uuid d ≤ n < next_uuid d1 → next_uuid d1 ≤ next_uuid d2 → minted d1 d2 ids → minted d d2 (uuid n :: ids).
Proof.
  intros Hn Hle [Hnd Hi]. split.
  - constructor; [|done]. intros (m & ? & ->%uuid_inj)%Hi. lia.
  - intros i [->|(m & ? & ->)%Hi]%elem_of_cons; [exists n|exists m]; (split; [lia|done]).
Qed.

Lemma WriteDesiredStateSnapshotTx_ok `{!Uuids} d subject tgt by_ st d' i :
  WriteDesiredStateSnapshotTx d subject tgt by_ st = inr (d', i) →
  keeps d d' ∧ i = uuid (next_uuid d) ∧ next_uuid d' = S (next_uuid d) ∧
  plans (tables d') = plans (tables d) ∧ plan_subjects (tables d') = plan_subjects (tables d) ∧
  ∃ state, st = Some state ∧ snapshots (tables d') = snapshots (tables d) ++
    [{| sn_ID := i; sn_SubjectID := subject; sn_Target := tgt; sn_Version := last_version d subject tgt + 1;
        sn_State := state; sn_CreatedBy := by_ |}].
Proof.
  unfold WriteDesiredStateSnapshotTx. destruct (_ || _); [done|]. destruct st as [st|]; [|done].
  simpl. intros [= <- <-]. split_and!; try done; [split; simpl; done || lia|]. eauto.
Qed.
Lemma last_version_max d subject tgt n :
  n ∈ snapshots (tables d) → sn_SubjectID n = subject → sn_Target n = tgt → (sn_Version n <= last_version d subject tgt)%Z.
Proof.
  intros Hn Hs Ht. unfold last_version. induction Hn as [x l|x m l Hin IH]; csimpl.
  - rewrite filter_cons_True by done. csimpl. lia.
  - rewrite filter_cons. case_decide; csimpl; [|by apply IH]. etrans; [by apply IH|apply Z.le_max_r].
Qed.
Lemma insert_subject_ok `{!Uuids} d planID s snap :
  let d' := insert_subject d planID s snap in
  keeps d d' ∧ next_uuid d' = S (next_uuid d) ∧ plans (tables d') = plans (tables d) ∧
  snapshots (tables d') = snapshots (tables d) ∧
  plan_subjects (tables d') = plan_subjects (tables d) ++
    [{| ps_ID := uuid (next_uuid d); ps_PlanID := planID; ps_SubjectID := np_SubjectID s; ps_SnapshotID := snap;
        ps_Fingerprint := np_Fingerprint s; ps_Outcome := np_Outcome s |}].
Proof. split_and!; try done. split; simpl; done || lia. Qed.

Lemma insert_subjects_ok `{!Uuids} l d planID tgt by_ d' :
  insert_subjects d planID tgt by_ l = inr d' →
  keeps d d' ∧ plans (tables d') = plans (tables d) ∧
  ∃ new, plan_subjects (tables d') = plan_subjects (tables d) ++ new ∧
    ps_SubjectID <$> new = np_SubjectID <$> l ∧ Forall (λ s, ps_PlanID s = planID) new ∧
    minted d d' (ps_ID <$> new) ∧ snapshots_grow d d'.
Proof.
  assert (Hone : ∀ d0 d1 d2 s snap new, next_uuid d0 ≤ next_uuid d1 →
    keeps (insert_subject d1 planID s snap) d2 →
    plans (tables d2) = plans (tables (insert_subject d1 planID s snap)) →
    plan_subjects (tables d2) = plan_subjects (tables (insert_subject d1 planID s snap)) ++ new →
    Forall (λ s, ps_PlanID s = planID) new →
    minted (insert_subject d1 planID s snap) d2 (ps_ID <$> new) ∧ snapshots_grow (insert_subject d1 planID s snap) d2 →
    keeps d1 d2 ∧ plans (tables d2) = plans (tables d1) ∧
    ∃ s', plan_subjects (tables d2) = plan_subjects (tables d1) ++ s' :: new ∧
      ps_SubjectID s' = np_SubjectID s ∧ Forall (λ s, ps_PlanID s = planID) (s' :: new) ∧
      minted d0 d2 (ps_ID <$> s' :: new) ∧ snapshots_grow d1 d2).
  { intros d0 d1 d2 s snap new Hle Hk Hp Hs HF [Hm Hg].
    destruct (insert_subject_ok d1 planID s snap) as (Hk1 & Hu & Hp1 & Hn1 & Hs1).
    split; [by etrans|]. split; [congruence|]. eexists. split_and!.
    - rewrite Hs, Hs1, <-(assoc_L (++)). done.
    - done.
    - by constructor.
    - csimpl. eapply minted_cons; [|by apply k_uuid|exact Hm]. lia.
    - eapply snapshots_grow_trans; [| |exact Hg]; [split; by apply k_uuid|by apply snapshots_grow_same]. }
  revert d d'; induction l as [|s l IH]; intros d d'; cbn [insert_subjects].
  { intros [= <-]. split; [done|]. split; [done|]. exists []. rewrite app_nil_r.
    split_and!; auto using minted_nil, snapshots_grow_same. }
  destruct (np_DesiredState s) as [st|].
  - destruct (WriteDesiredStateSnapshotTx _ _ _ _ _) as [e|[d1 i]] eqn:Hw; [done|].
    apply WriteDesiredStateSnapshotTx_ok in Hw as (Hk & -> & Hu & Hp & Hs & state & _ & Hn0).
    assert (snapshots_grow d d1) as Hg0.
    { eexists. split; [exact Hn0|]. intros n ->%list_elem_of_singleton. exists (next_uuid d). simpl. split; [lia|done]. }
    intros E%IH. destruct E as (Hk2 & Hp2 & new & Hs2 & Hsub & HF & Hm).
    destruct (Hone d d1 d' s _ new ltac:(lia) Hk2 Hp2 Hs2 HF Hm) as (Hk3 & Hp3 & s' & Hs3 & Hn & HF' & Hm' & Hg').
    split; [by etrans|]. split; [congruence|]. exists (s' :: new). csimpl. rewrite Hs3, Hs, Hn, Hsub. split_and!; auto.
    eapply snapshots_grow_trans; [|exact Hg0|exact Hg']. split; by apply k_uuid.
  - intros E%IH. destruct E as (Hk2 & Hp2 & new & Hs2 & Hsub & HF & Hm).
    destruct (Hone d d d' s _ new ltac:(lia) Hk2 Hp2 Hs2 HF Hm) as (Hk3 & Hp3 & s' & Hs3 & Hn & HF' & Hm').
    split; [done|]. split; [congruence|]. exists (s' :: new). csimpl. rewrite Hs3, Hn, Hsub. auto.
Qed.

Lemma validate_subjects p : validate p = true → n_Subjects p ≠ [].
Proof. unfold validate. rewrite !andb_true_iff, !negb_true_iff, bool_decide_eq_false. tauto. Qed.

(** A created plan: one unspent plan and its subjects, all under fresh ids. *)
Lemma createPlanTx_ok `{!Uuids} d p d' pl :
  createPlanTx d p = inr (d', pl) →
  keeps d d' ∧ plans (tables d') = plans (tables d) ++ [pl] ∧
  pl_ID pl = uuid (next_uuid d) ∧ pl_AppliedAt pl = None ∧
  pl = new_plan d p (uuid (next_uuid d)) ∧
  ∃ new, plan_subjects (tables d') = plan_subjects (tables d) ++ new ∧ new ≠ [] ∧
    ps_SubjectID <$> new = np_SubjectID <$> n_Subjects p ∧ Forall (λ s, ps_PlanID s = pl_ID pl) new ∧
    minted d d' (pl_ID pl :: (ps_ID <$> new)) ∧ snapshots_grow d d'.
Proof.
  unfold createPlanTx. destruct (validate p) eqn:Hv; [|done]. apply validate_subjects in Hv. cbn [negb].
  destruct (_ && _ && _); [|done]. cbn [negb]. case_bool_decide; [done|]. cbn [mint].
  destruct (insert_subjects _ _ _ _ _) as [e|d2] eqn:Hi; [done|]. intros [= <- <-].
  apply insert_subjects_ok in Hi as (Hk & Hp & new & Hs & Hsub & HF & Hm & Hg). simpl in Hp, Hs.
  pose proof (k_uuid _ _ Hk) as Hu. simpl in Hu.
  assert (Hsub' : ps_SubjectID <$> new = np_SubjectID <$> n_Subjects p).
  { rewrite Hsub. unfold canonicalSubjects. by rewrite <-list_fmap_compose. }
  split_and!; try done.
  - etrans; [|exact Hk]. split; simpl; done || lia.
  - exists new. split_and!; try done.
    + intros ->. by destruct (n_Subjects p).
    + eapply minted_cons; [| |exact Hm]; simpl; lia.
    + eapply snapshots_grow_trans; [| |exact Hg]; [simpl; lia|by apply snapshots_grow_same].
Qed.

Lemma insert_subjects_effects `{!Uuids} l d planID tgt by_ d' s :
  insert_subjects d planID tgt by_ l = inr d' → s ∈ plan_subjects (tables d') →
  s ∈ plan_subjects (tables d) ∨ ∃ n, n ∈ l ∧ ps_Outcome s = np_Outcome n.
Proof.
  revert d; induction l as [|n l IH]; intros d; cbn [insert_subjects]; [intros [= <-]; by left|].
  assert (∀ d1 snap, plan_subjects (tables d1) = plan_subjects (tables d) →
    insert_subjects (insert_subject d1 planID n snap) planID tgt by_ l = inr d' → s ∈ plan_subjects (tables d') →
    s ∈ plan_subjects (tables d) ∨ ∃ m, m ∈ n :: l ∧ ps_Outcome s = np_Outcome m) as Hone.
  { intros d1 snap E1 E Hs. destruct (IH _ E Hs) as [Hin|(m & ? & ?)]; [|right; exists m; split; [by right|done]].
    simpl in Hin. rewrite E1 in Hin. apply elem_of_app in Hin as [?| ->%list_elem_of_singleton]; [by left|right].
    exists n. split; [left|done]. }
  destruct (np_DesiredState n) as [st|]; [|by apply Hone].
  destruct (WriteDesiredStateSnapshotTx _ _ _ _ _) as [e|[d1 i]] eqn:Hw; [done|]. apply Hone.
  by apply WriteDesiredStateSnapshotTx_ok in Hw as (_ & _ & _ & _ & -> & _).
Qed.
Lemma createPlanTx_effects `{!Uuids} d p d' pl s :
  createPlanTx d p = inr (d', pl) → s ∈ plan_subjects (tables d') →
  s ∈ plan_subjects (tables d) ∨ validPlanEffect (o_Effect (ps_Outcome s)) = true.
Proof.
  unfold createPlanTx. destruct (validate p) eqn:Hv; [|done]. destruct (_ && _ && _); [|done]. cbn [negb].
  case_bool_decide; [done|]. cbn [mint]. destruct (insert_subjects _ _ _ _ _) as [e|d2] eqn:Hi; [done|].
  intros [= <- <-] Hs. destruct (insert_subjects_effects _ _ _ _ _ _ _ Hi Hs) as [Hin|(n & Hn & ->)]; [by left|right].
  apply list_elem_of_fmap in Hn as (m & -> & Hm). unfold validate in Hv. rewrite !andb_true_iff in Hv.
  destruct Hv as [[_ Hv] _]. rewrite forallb_forall in Hv. specialize (Hv m (proj1 (list_elem_of_In _ _) Hm)).
  unfold subject_valid, outcome_valid in Hv. rewrite !andb_true_iff in Hv. simpl. tauto.
Qed.

(** ** Facts: the claim *)
Record plans_wf `{!Uuids} (d : Db) : Prop := {
  pw_plans : NoDup (pl_ID <$> plans (tables d));
  pw_subjects : NoDup (ps_ID <$> plan_subjects (tables d));
  pw_plan_ids : ∀ p, p ∈ plans (tables d) → ∃ n, n < next_uuid d ∧ pl_ID p = uuid n;
  pw_subject_ids : ∀ s, s ∈ plan_subjects (tables d) → ∃ n, n < next_uuid d ∧ ps_ID s = uuid n;
  pw_has_subject : ∀ p, p ∈ plans (tables d) → ∃ s, s ∈ plan_subjects (tables d) ∧ ps_PlanID s = pl_ID p;
  pw_has_plan : ∀ s, s ∈ plan_subjects (tables d) → ∃ p, p ∈ plans (tables d) ∧ pl_ID p = ps_PlanID s;
  pw_snapshot_ids : ∀ n, n ∈ snapshots (tables d) → ∃ k, k < next_uuid d ∧ sn_ID n = uuid k;
  pw_effects : ∀ s, s ∈ plan_subjects (tables d) → validPlanEffect (o_Effect (ps_Outcome s)) = true;
}.

(** Looking a row up by a column no two rows share. *)
Lemma head_filter_key {A K} `{EqDecision K} (key : A → K) (l : list A) k x :
  NoDup (key <$> l) → head (filter (λ y, key y = k) l) = Some x ↔ x ∈ l ∧ key x = k.
Proof.
  intros Hnd. assert (Huniq : ∀ y z, y ∈ l → z ∈ l → key y = key z → y = z).
  { intros y z [i Hi]%list_elem_of_lookup [j Hj]%list_elem_of_lookup E.
    assert (i = j) as <-; [|congruence]. eapply NoDup_lookup; [exact Hnd| |]; rewrite list_lookup_fmap.
    - by rewrite Hi.
    - simpl. rewrite Hj. simpl. by rewrite E. }
  destruct (filter (λ y, key y = k) l) as [|y l'] eqn:Ef; simpl.
  - split; [done|]. intros [Hx Hk]. assert (x ∈ filter (λ y, key y = k) l) as Hin by (by apply list_elem_of_filter).
    rewrite Ef in Hin. by apply elem_of_nil in Hin.
  - assert (y ∈ filter (λ y, key y = k) l) as Hy by (rewrite Ef; left). apply list_elem_of_filter in Hy as [Hk Hy].
    split; [intros [= <-]; done|]. intros [Hx Hkx]. f_equal. apply Huniq; congruence.
Qed.
Lemma head_filter_new {A} (P : A → Prop) `{!∀ x, Decision (P x)} (l : list A) y :
  (∀ x, x ∈ l → ¬ P x) → P y → head (filter P (l ++ [y])) = Some y.
Proof. intros Hno Hy. by rewrite filter_app, filter_none, filter_cons_True. Qed.
Lemma find_plan_Some `{!Uuids} d i p : plans_wf d → find_plan d i = Some p ↔ p ∈ plans (tables d) ∧ pl_ID p = i.
Proof. intros Hwf. apply head_filter_key, Hwf. Qed.
Lemma find_subject_Some `{!Uuids} d i s :
  plans_wf d → find_subject d i = Some s ↔ s ∈ plan_subjects (tables d) ∧ ps_ID s = i.
Proof. intros Hwf. apply head_filter_key, Hwf. Qed.
Lemma approval_Some `{!Uuids} d i s p : plans_wf d →
  approval d i = Some (s, p) ↔
  s ∈ plan_subjects (tables d) ∧ ps_ID s = i ∧ p ∈ plans (tables d) ∧ pl_ID p = ps_PlanID s.
Proof.
  intros Hwf. unfold approval. rewrite bind_Some. split.
  - intros (s' & Hs & Hp). apply bind_Some in Hp as (p' & Hp & [= -> ->]).
    apply find_subject_Some in Hs; [|done]. apply find_plan_Some in Hp; [|done]. tauto.
  - intros (Hs & Hi & Hp & Hq). exists s. split; [by apply find_subject_Some|]. apply bind_Some. exists p.
    split; [by apply find_plan_Some|done].
Qed.

(** The WHERE clause is the explanation's complement. *)
Lemma claim_where_refusal d c p :
  claim_where d c p = (pl_ID p =? ToLower (ci_PlanID c)) && bool_decide (planRefusal p c (now d) = None).
Proof.
  unfold claim_where, planRefusal. rewrite <-!andb_assoc. f_equal. symmetry.
  destruct (pl_Target p =? _), (pl_Surface p =? _), (pl_CreatedBy p =? _), (pl_RequestFingerprint p =? _); simpl; try done.
  destruct (pl_AppliedAt p) as [t|]; [by rewrite (bool_decide_eq_true_2 (is_Some _)) by eauto|].
  rewrite (bool_decide_eq_false_2 (is_Some None)) by (by intros [? [=]]). rewrite (bool_decide_eq_true_2 (None = None)) by done. simpl.
  destruct (pl_ExpiresAt p) as [t|]; simpl; [|done]. by destruct (now d <? t)%Z.
Qed.

Lemma claim_filter `{!Uuids} d c p :
  plans_wf d → p ∈ filter (λ p, claim_where d c p = true) (plans (tables d)) ↔
  find_plan d (ToLower (ci_PlanID c)) = Some p ∧ planRefusal p c (now d) = None.
Proof.
  intros Hwf. rewrite list_elem_of_filter, claim_where_refusal, andb_true_iff, !bool_decide_eq_true.
  rewrite find_plan_Some by done. tauto.
Qed.
Lemma subjects_nonempty `{!Uuids} d p : plans_wf d → p ∈ plans (tables d) → planSubjectsTx d (pl_ID p) ≠ [].
Proof.
  intros Hwf Hp. destruct (pw_has_subject _ Hwf p Hp) as (s & Hs & Hsp).
  assert (s ∈ planSubjectsTx d (pl_ID p)) as Hin by (by apply stable_sort_elem, list_elem_of_filter).
  intros E. rewrite E in Hin. by apply elem_of_nil in Hin.
Qed.
(** A claim that fails: there is no such plan, or the rules refuse it. *)
Lemma ClaimPlanTx_refused `{!Uuids} d c clock e :
  plans_wf d → ClaimPlanTx d c clock = inl e →
  e = ErrPlanNotFound ∧ (looksLikeUUID (ci_PlanID c) = false ∨ find_plan d (ToLower (ci_PlanID c)) = None) ∨
  e = explainPlanRefusal d c clock ∧
  ∃ p0 why, find_plan d (ToLower (ci_PlanID c)) = Some p0 ∧ planRefusal p0 c (now d) = Some why.
Proof.
  intros Hwf E. unfold ClaimPlanTx in E. destruct (looksLikeUUID _) eqn:Hl; [|left; injection E as <-; auto].
  cbn [negb] in E. pose proof (λ p, claim_filter d c p Hwf) as Hf.
  destruct (filter _ _) as [|q l] eqn:Ef.
  - injection E as <-. unfold explainPlanRefusal. destruct (find_plan d (ToLower (ci_PlanID c))) as [p0|] eqn:Hp; [|auto].
    right. split; [done|]. exists p0. destruct (planRefusal p0 c (now d)) as [why|] eqn:Hr; [eauto|].
    pose proof (proj2 (Hf p0) (conj eq_refl Hr)) as Hin. by apply elem_of_nil in Hin.
  - exfalso. destruct (proj1 (Hf q) ltac:(left)) as [Hq _]. apply find_plan_Some in Hq as [Hq _]; [|done].
    apply (subjects_nonempty d q Hwf) in Hq. revert E. set (t := with_plans _ _ _).
    change (planSubjectsTx (with_tables d t) (pl_ID q)) with (planSubjectsTx d (pl_ID q)).
    by destruct (planSubjectsTx d (pl_ID q)).
Qed.

Lemma ClaimPlanTx_ok `{!Uuids} d c clock d' p subjects :
  plans_wf d → ClaimPlanTx d c clock = inr (d', p, subjects) →
  ∃ p0, p0 ∈ plans (tables d) ∧ pl_ID p0 = ToLower (ci_PlanID c) ∧ planRefusal p0 c (now d) = None ∧ p = spent (now d) p0 ∧
    subjects = planSubjectsTx d (pl_ID p0) ∧ subjects ≠ [] ∧
    d' = with_tables d (with_plans (tables d)
           ((λ q, if pl_ID q =? pl_ID p0 then spent (now d) q else q) <$> plans (tables d)) (plan_subjects (tables d))).
Proof.
  intros Hwf. unfold ClaimPlanTx. destruct (looksLikeUUID _); [|done]. cbn [negb].
  destruct (filter _ (plans (tables d))) as [|p0 l] eqn:Ef; [done|].
  assert (p0 ∈ filter (λ p, claim_where d c p = true) (plans (tables d))) as Hin by (rewrite Ef; left).
  apply list_elem_of_filter in Hin as [Hw Hin].
  rewrite claim_where_refusal, andb_true_iff, !bool_decide_eq_true in Hw. destruct Hw as [Hid Hr].
  set (t := with_plans _ _ _). change (planSubjectsTx (with_tables d t) (pl_ID p0)) with (planSubjectsTx d (pl_ID p0)).
  destruct (planSubjectsTx d (pl_ID p0)) as [|s ss] eqn:Hs; [done|]. intros [= <- <- <-].
  exists p0. split_and!; try done. f_equal. unfold t. f_equal.
  apply list_fmap_ext. intros i q Hq. f_equal. apply list_elem_of_lookup_2 in Hq.
  rewrite claim_where_refusal, Hid. destruct (pl_ID q =? ToLower (ci_PlanID c)) eqn:Eq; [|done]. simpl.
  apply bool_decide_eq_true in Eq. rewrite bool_decide_eq_true_2; [done|].
  assert (find_plan d (ToLower (ci_PlanID c)) = Some q) by (by apply find_plan_Some).
  assert (find_plan d (ToLower (ci_PlanID c)) = Some p0) by (by apply find_plan_Some). congruence.
Qed.

(** A claimed plan is spent: nothing else claims it. *)
Lemma ClaimPlanTx_spent `{!Uuids} d c clock d' p subjects c' clock' :
  plans_wf d → ClaimPlanTx d c clock = inr (d', p, subjects) → ci_PlanID c' = ci_PlanID c →
  ∃ e, ClaimPlanTx d' c' clock' = inl e.
Proof.
  intros Hwf E Hc. apply ClaimPlanTx_ok in E as (p0 & Hp & Hid & Hr & -> & -> & Hne & ->); [|done].
  unfold ClaimPlanTx. destruct (looksLikeUUID _); [|eauto]. cbn [negb].
  destruct (filter _ _) as [|q l] eqn:Ef; [eauto|]. exfalso.
  match type of Ef with filter ?P ?L = _ => assert (q ∈ filter P L) as Hq by (rewrite Ef; left) end.
  apply list_elem_of_filter in Hq as [Hw (q0 & -> & Hq0)%list_elem_of_fmap].
  rewrite claim_where_refusal, andb_true_iff, !bool_decide_eq_true in Hw. destruct Hw as [Hqi Hqr].
  destruct (pl_ID q0 =? pl_ID p0) eqn:Eq.
  - revert Hqr. unfold planRefusal. simpl. by repeat (destruct (_ || _) || destruct (negb _)).
  - apply bool_decide_eq_false in Eq. congruence.
Qed.
Lemma claim_keeps d t : keeps d (with_tables d (with_plans (tables d) t (plan_subjects (tables d)))).
Proof. by split. Qed.

(** ** Facts: queueing work *)
Lemma EnqueueEntitlementApplyTx_ok `{!Uuids} d p d' i :
  EnqueueEntitlementApplyTx d p = inr (d', i) →
  ∃ s pl key, approval d (ToLower (ea_PlanSubjectID p)) = Some (s, pl) ∧ active d (pl_Target pl) = true ∧
    is_Some (pl_AppliedAt pl) ∧ pl_Target pl ≠ TargetZitadel ∧ already_queued d (ToLower (ea_PlanSubjectID p)) = false ∧
    tables d' = tables d ∧ now d' = now d ∧ targets d' = targets d ∧ ledger d' = ledger d ∧ next_uuid d' = S (S (next_uuid d)) ∧
    i = uuid (S (next_uuid d)) ∧
    outbox d' = outbox d ++ [apply_row d s pl (if ea_Source p =? "" then "direct" else ea_Source p) key
                               (ea_Reason p) (ea_WithdrawsOnly p) i (next_intent d) (now d)].
Proof.
  unfold EnqueueEntitlementApplyTx. destruct (looksLikeUUID _); [|done]. destruct (validOutboxSource _); [|done].
  cbn [negb mint]. set (d1 := {| now := now d |}).
  change (approval d1) with (approval d). change (already_queued d1) with (already_queued d).
  destruct (approval d _) as [[s pl]|] eqn:Ha; [|done]. change (active d1) with (active d).
  destruct (_ && _ && _ && _) eqn:Hc; [|done].
  rewrite !andb_true_iff, !negb_true_iff, bool_decide_eq_true, bool_decide_eq_false in Hc.
  destruct Hc as [[[H1 H2] H3] H4]. simpl. intros [= <- <-]. exists s, pl, (uuid (next_uuid d)). by split_and!.
Qed.
Lemma EnqueueEntitlementApplyTx_requests `{!Uuids} d p d' i :
  EnqueueEntitlementApplyTx d p = inr (d', i) → requests d' = requests d.
Proof.
  unfold EnqueueEntitlementApplyTx. destruct (looksLikeUUID _); [|done]. destruct (validOutboxSource _); [|done].
  cbn [negb mint]. destruct (approval _ _) as [[s pl]|]; [|done]. destruct (_ && _); [|done]. by intros [= <- _].
Qed.
Lemma EnqueueEntitlementApplyTx_steps `{!Returning, !Uuids} d p d' i :
  EnqueueEntitlementApplyTx d p = inr (d', i) → steps d d'.
Proof.
  unfold EnqueueEntitlementApplyTx. destruct (looksLikeUUID _); [|done]. destruct (validOutboxSource _); [|done].
  cbn [negb]. destruct (mint d) as [d1 key] eqn:Hm. injection Hm as <- <-.
  destruct (approval _ _) as [[s pl]|]; [|done]. destruct (_ && _); [|done].
  destruct (insert_row _ _) as [d2 j] eqn:Hi. intros [= <- <-].
  match type of Hi with insert_row ?a ?mk = _ =>
    apply rtc_l with a; [apply step_other; try done; simpl; lia|];
    apply rtc_l with (insert_row a mk).1; [apply (step_insert a mk)|] end.
  - split_and!; try done. by exists None.
  - rewrite Hi. apply rtc_once. by apply step_other.
Qed.

Lemma EnqueueEntitlementApplyTx_total `{!Uuids} d p s pl :
  looksLikeUUID (ea_PlanSubjectID p) = true → ea_Source p = "" → approval d (ToLower (ea_PlanSubjectID p)) = Some (s, pl) →
  active d (pl_Target pl) = true → is_Some (pl_AppliedAt pl) → pl_Target pl ≠ TargetZitadel →
  already_queued d (ToLower (ea_PlanSubjectID p)) = false → ∃ d' i, EnqueueEntitlementApplyTx d p = inr (d', i).
Proof.
  intros Hl Hs Ha Hact Happ Hz Hq. unfold EnqueueEntitlementApplyTx. rewrite Hl, Hs. cbn [negb mint].
  set (d1 := {| now := now d |}).
  change (approval d1) with (approval d). change (already_queued d1) with (already_queued d). rewrite Ha, Hq.
  change (active d1) with (active d). rewrite Hact, (bool_decide_eq_true_2 (is_Some _)) by done.
  rewrite (bool_decide_eq_false_2 (pl_Target pl = _)) by done. simpl. eauto.
Qed.

(** ** Every queued convergence has its approval *)

(** What authorises a row: a spent plan's row for this very person and target. *)
Definition authorises (d : Db) (r : Row) (s : PlanSubject) (p : Plan) : Prop :=
  s ∈ plan_subjects (tables d) ∧ p ∈ plans (tables d) ∧ ps_PlanID s = pl_ID p ∧
  plan_subject_id r = Some (ps_ID s) ∧ user_id r = ps_SubjectID s ∧ target r = pl_Target p ∧
  initiated_by r = pl_CreatedBy p ∧ is_Some (pl_AppliedAt p).
Record authorised `{!Uuids} (d : Db) : Prop := {
  au_plans : plans_wf d;
  au_row : ∀ r, r ∈ outbox d → op_type r = op_apply ∨ is_Some (plan_subject_id r) → ∃ s p, authorises d r s p;
  au_once : ∀ r r' i, r ∈ outbox d → r' ∈ outbox d → plan_subject_id r = Some i → plan_subject_id r' = Some i →
    id r = id r';
}.

(** The statements that touch plans, and every other statement on the outbox:
    those keep a row's citation and insert none. *)
Inductive plan_step `{!Returning, !Uuids} : Db → Db → Prop :=
  | plan_create d p d' pl : createPlanTx d p = inr (d', pl) → plan_step d d'
  | plan_claim d c clock d' p subjects : ClaimPlanTx d c clock = inr (d', p, subjects) → plan_step d d'
  | plan_enqueue d p d' i : EnqueueEntitlementApplyTx d p = inr (d', i) → plan_step d d'
  | plan_prune d days : plan_step d (PruneSpentPlans d days).1
  | plan_other d d' : step d d' → plans (tables d') = plans (tables d) →
      plan_subjects (tables d') = plan_subjects (tables d) → snapshots (tables d') = snapshots (tables d) →
      (∀ r, r ∈ outbox d' → op_type r = op_apply ∨ is_Some (plan_subject_id r) →
         ∃ r0, r0 ∈ outbox d ∧ r = with_progress r0 (progress r)) → plan_step d d'.

Lemma authorises_mono d d' r s p :
  (∀ s, s ∈ plan_subjects (tables d) → s ∈ plan_subjects (tables d')) →
  (∀ p, p ∈ plans (tables d) → is_Some (pl_AppliedAt p) → p ∈ plans (tables d')) →
  authorises d r s p → authorises d' r s p.
Proof. intros Hs Hp (? & ? & ? & ? & ? & ? & ? & ?). split_and!; auto. Qed.

Lemma NoDup_minted `{!Uuids} d d' l new :
  NoDup l → (∀ i, i ∈ l → ∃ n, n < next_uuid d ∧ i = uuid n) → minted d d' new → NoDup (l ++ new).
Proof.
  intros Hl Hb [Hn Hm]. apply NoDup_app. split_and!; [done| |done].
  intros i (n & ? & ->)%Hb (m & ? & E%uuid_inj)%Hm. lia.
Qed.

Lemma authorised_create `{!Uuids} d p d' pl : authorised d → createPlanTx d p = inr (d', pl) → authorised d'.
Proof.
  intros [[H1 H2 H3 H4 H5 H6 H7 H8] Hr Ho] E. pose proof (λ s, createPlanTx_effects d p d' pl s E) as Heff.
  apply createPlanTx_ok in E as (Hk & Hp & Hid & _ & _ & new & Hs & Hne & _ & HF & Hm & Hg).
  rewrite Forall_forall in HF. pose proof (k_uuid _ _ Hk) as Hu. destruct Hm as [Hnd Hm].
  apply NoDup_cons in Hnd as [Hni Hnd].
  assert (Hmp : minted d d' [pl_ID pl]).
  { split; [apply NoDup_singleton|]. intros i ->%list_elem_of_singleton. apply Hm. left. }
  assert (Hms : minted d d' (ps_ID <$> new)) by (split; [done|]; intros i Hi; apply Hm; by right).
  split; [split|..].
  - rewrite Hp, fmap_app. eapply NoDup_minted; [done| |exact Hmp]. intros i (q & -> & ?)%list_elem_of_fmap. auto.
  - rewrite Hs, fmap_app. eapply NoDup_minted; [done| |exact Hms]. intros i (q & -> & ?)%list_elem_of_fmap. auto.
  - rewrite Hp. intros q [Hq| ->%list_elem_of_singleton]%elem_of_app.
    + destruct (H3 q Hq) as (n & ? & ?). exists n. split; [lia|done].
    + destruct (Hm (pl_ID pl) ltac:(left)) as (n & ? & ?). exists n. split; [lia|done].
  - rewrite Hs. intros s [Hq|Hq]%elem_of_app.
    + destruct (H4 s Hq) as (n & ? & ?). exists n. split; [lia|done].
    + destruct (Hm (ps_ID s)) as (n & ? & ?); [right; by apply list_elem_of_fmap_2|]. exists n. split; [lia|done].
  - rewrite Hp, Hs. intros q [Hq| ->%list_elem_of_singleton]%elem_of_app.
    + destruct (H5 q Hq) as (s & ? & ?). exists s. rewrite elem_of_app. auto.
    + destruct new as [|s new]; [done|]. exists s. rewrite elem_of_app, (HF s) by left. split; [right; left|done].
  - rewrite Hp, Hs. intros s [Hq|Hq]%elem_of_app.
    + destruct (H6 s Hq) as (q & ? & ?). exists q. rewrite elem_of_app. auto.
    + exists pl. rewrite elem_of_app, (HF s) by done. split; [right; left|done].
  - destruct Hg as (l & El & Hg). intros n. rewrite El. intros [Hn|(k & ? & ?)%Hg]%elem_of_app; [destruct (H7 n Hn) as (k & ? & ?)|]; exists k; (split; [lia|done]).
  - intros s [?|?]%Heff; auto.
  - intros r. rewrite (k_outbox _ _ Hk). intros Hin Hop. destruct (Hr r Hin Hop) as (s & q & Ha). exists s, q.
    eapply authorises_mono; [| |exact Ha]; intros x; rewrite ?Hs, ?Hp, elem_of_app; auto.
  - rewrite (k_outbox _ _ Hk). exact Ho.
Qed.

Lemma authorised_claim `{!Uuids} d c clock d' p subjects :
  authorised d → ClaimPlanTx d c clock = inr (d', p, subjects) → authorised d'.
Proof.
  intros [Hwf Hr Ho] E. apply ClaimPlanTx_ok in E as (p0 & Hp & _ & Href & _ & _ & _ & ->); [|done].
  destruct Hwf as [H1 H2 H3 H4 H5 H6 H7 H8]. set (f q := if pl_ID q =? pl_ID p0 then spent (now d) q else q).
  assert (Hf : ∀ q, pl_ID (f q) = pl_ID q ∧ pl_Target (f q) = pl_Target q ∧ pl_CreatedBy (f q) = pl_CreatedBy q ∧
                    (is_Some (pl_AppliedAt q) → is_Some (pl_AppliedAt (f q)))).
  { intros q. unfold f. destruct (_ =? _); split_and!; done || eauto. }
  split; [split|..]; simpl; fold f; try done.
  - rewrite <-list_fmap_compose. erewrite list_fmap_ext; [exact H1|]. intros i q _. apply Hf.
  - intros q (q0 & -> & Hq)%list_elem_of_fmap. rewrite (proj1 (Hf q0)). auto.
  - intros q (q0 & -> & Hq)%list_elem_of_fmap. rewrite (proj1 (Hf q0)). auto.
  - intros s Hs. destruct (H6 s Hs) as (q & Hq & E). exists (f q). rewrite (proj1 (Hf q)).
    split; [by apply list_elem_of_fmap_2|done].
  - intros r Hin Hop. destruct (Hr r Hin Hop) as (s & q & Ha). exists s, (f q).
    destruct Ha as (? & ? & ? & ? & ? & ? & ? & ?), (Hf q) as (? & ? & ? & ?). split_and!; try done; simpl; try congruence; auto.
    by apply list_elem_of_fmap_2.
Qed.

Lemma authorised_enqueue `{!Uuids} d p d' i :
  authorised d → EnqueueEntitlementApplyTx d p = inr (d', i) → authorised d'.
Proof.
  intros [Hwf Hr Ho] E.
  apply EnqueueEntitlementApplyTx_ok in E as (s & pl & key & Ha & _ & Happ & _ & Hq & Et & _ & _ & _ & Eu & -> & Eo).
  apply approval_Some in Ha as (Hs & Hi & Hp & Hsp); [|done].
  assert (Hnew : ∀ r, r ∈ outbox d → plan_subject_id r ≠ Some (ToLower (ea_PlanSubjectID p))).
  { intros r Hin E. unfold already_queued in Hq. apply not_true_iff_false in Hq. apply Hq, existsb_elem. exists r.
    by rewrite bool_decide_eq_true. }
  split.
  - destruct Hwf as [H1 H2 H3 H4 H5 H6 H7 H8]. split; rewrite Et, ?Eu; try done.
    + intros q Hin. destruct (H3 q Hin) as (n & ? & ?). exists n. split; [lia|done].
    + intros q Hin. destruct (H4 q Hin) as (n & ? & ?). exists n. split; [lia|done].
    + intros q Hin. destruct (H7 q Hin) as (n & ? & ?). exists n. split; [lia|done].
  - intros r. rewrite Eo, elem_of_app, list_elem_of_singleton. unfold authorises. rewrite Et.
    intros [Hin| ->] Hop; [by apply Hr|]. exists s, pl. by split_and!.
  - intros r r' j. rewrite Eo, !elem_of_app, !list_elem_of_singleton.
    intros [Hin| ->] [Hin'| ->]; simpl; intros E1 E2; [by eapply Ho| | |done]; exfalso.
    + apply (Hnew r Hin). congruence.
    + apply (Hnew r' Hin'). congruence.
Qed.

Lemma authorised_prune `{!Uuids} d days : authorised d → authorised (PruneSpentPlans d days).1.
Proof.
  intros [Hwf Hr Ho]. unfold PruneSpentPlans. destruct (days <=? 0)%Z; [by split|]. simpl.
  set (ids := pl_ID <$> filter _ _). destruct Hwf as [H1 H2 H3 H4 H5 H6 H7 H8].
  assert (Hsub : ∀ {A} (P : A → Prop) `{∀ x, Decision (P x)} (key : A → string) l,
    NoDup (key <$> l) → NoDup (key <$> filter P l)).
  { intros A P ? key l Hl. eapply sublist_NoDup; [exact Hl|]. apply fmap_sublist, sublist_filter. }
  split; [split|..]; simpl; auto.
  - intros q [_ ?]%list_elem_of_filter. auto.
  - intros q [_ ?]%list_elem_of_filter. auto.
  - intros q [Hq Hin]%list_elem_of_filter. destruct (H5 q Hin) as (s & Hs & E). exists s.
    rewrite list_elem_of_filter, E. auto.
  - intros s [Hs Hin]%list_elem_of_filter. destruct (H6 s Hin) as (q & Hq & E). exists q.
    rewrite list_elem_of_filter, E. auto.
  - intros s [_ ?]%list_elem_of_filter. auto.
  - intros r Hin Hop. destruct (Hr r Hin Hop) as (s & q & Hs & Hq & E & Hc & Ha). exists s, q.
    assert (pl_ID q ∉ ids) as Hni.
    { intros (q' & Eq & [Hq' Hin']%list_elem_of_filter)%list_elem_of_fmap.
      unfold prunable in Hq'. rewrite !andb_true_iff, !negb_true_iff in Hq'. destruct Hq' as [_ Hcite].
      apply not_true_iff_false in Hcite. apply Hcite. unfold cited_plan. apply existsb_elem. exists r. split; [done|].
      rewrite Hc. simpl. apply existsb_elem. exists s. rewrite !bool_decide_eq_true_2 by congruence. done. }
    unfold authorises. simpl. rewrite !list_elem_of_filter, E. split_and!; try done; apply Ha.
Qed.

Lemma authorised_step `{!Returning, !Uuids} d d' : authorised d → plan_step d d' → authorised d'.
Proof.
  intros Hd Hs. destruct Hs as [| | | |d1 d2 Hst Ep Es En Hback];
    [by eapply authorised_create|by eapply authorised_claim|by eapply authorised_enqueue|by apply authorised_prune|].
  destruct Hd as [Hwf Hr Ho]. assert (Hu : next_uuid d1 ≤ next_uuid d2).
  { apply step_table in Hst as []; lia. }
  split.
  - destruct Hwf as [H1 H2 H3 H4 H5 H6 H7 H8]. split; rewrite ?Ep, ?Es, ?En; try done.
    + intros q Hin. destruct (H3 q Hin) as (n & ? & ?). exists n. split; [lia|done].
    + intros q Hin. destruct (H4 q Hin) as (n & ? & ?). exists n. split; [lia|done].
    + intros q Hin. destruct (H7 q Hin) as (n & ? & ?). exists n. split; [lia|done].
  - intros r Hin Hop. destruct (Hback r Hin Hop) as (r0 & Hin0 & Er). rewrite Er in Hop.
    destruct (Hr r0 Hin0 Hop) as (s & p & Ha).
    exists s, p. unfold authorises. rewrite Ep, Es, Er. exact Ha.
  - intros r r' i Hin Hin' E E'. destruct (Hback r Hin) as (r0 & Hin0 & Er); [eauto|].
    destruct (Hback r' Hin') as (r0' & Hin0' & Er'); [eauto|]. rewrite Er in E. rewrite Er' in E'.
    rewrite Er, Er'. by eapply (Ho r0 r0').
Qed.

(** ** Facts: a convergence nobody approved *)
Section system.
Context `{!Uuids} (sha256hex : string → string).

(** The state its plan is created in, ids drawn in order: plan, snapshot, row. *)
Definition system_subject (d : Db) (c : SystemConvergence) : PlanSubject :=
  {| ps_ID := uuid (S (S (next_uuid d))); ps_PlanID := uuid (next_uuid d); ps_SubjectID := sc_SubjectID c;
     ps_SnapshotID := Some (uuid (S (next_uuid d))); ps_Fingerprint := SystemFingerprint;
     ps_Outcome := canonical_outcome {| o_Effect := PlanEffectApply; o_GrantIDs := []; o_CancelIDs := [] |} |}.
Lemma system_create d clock c st :
  blank (sc_Target c) = false → sc_Target c ≠ TargetZitadel → blank (sc_SubjectID c) = false →
  blank (sc_Actor c) = false → sc_Desired c = Some st → active d (sc_Target c) = true →
  ∃ d1, let pl := new_plan d (system_plan sha256hex c clock) (uuid (next_uuid d)) in
    createPlanTx d (system_plan sha256hex c clock) = inr (d1, pl) ∧ keeps d d1 ∧ next_uuid d1 = 3 + next_uuid d ∧
    plans (tables d1) = plans (tables d) ++ [pl] ∧
    plan_subjects (tables d1) = plan_subjects (tables d) ++ [system_subject d c] ∧
    snapshots (tables d1) = snapshots (tables d) ++
      [{| sn_ID := uuid (S (next_uuid d)); sn_SubjectID := sc_SubjectID c; sn_Target := sc_Target c;
          sn_Version := last_version d (sc_SubjectID c) (sc_Target c) + 1; sn_State := st;
          sn_CreatedBy := sc_Actor c |}].
Proof.
  intros Ht Hz Hs Ha Hd Hact.
  assert (Htb : (sc_Target c =? TargetZitadel) = false) by (by apply bool_decide_eq_false).
  assert (validate (system_plan sha256hex c clock) = true) as Hv.
  { unfold validate, subject_valid. simpl. rewrite Ht, Hs, Ha, Htb. simpl. by rewrite orb_true_r. }
  unfold createPlanTx. rewrite Hv. cbn [negb]. cbn -[mint insert_subjects].
  rewrite (bool_decide_eq_true_2 ("" = "")) by done. cbn -[mint insert_subjects].
  rewrite (bool_decide_eq_false_2 (targets d !! sc_Target c = None)).
  2:{ intros E. unfold active in Hact. by rewrite E in Hact. }
  unfold mint at 1. cbn -[WriteDesiredStateSnapshotTx]. rewrite Hd. unfold WriteDesiredStateSnapshotTx.
  rewrite Ht, Htb, Hs, Ha. cbn. eexists. split; [done|]. split; [by split; simpl; done || lia|]. by split_and!.
Qed.
(** The plan it claims is the one it has just created, with its one row. *)
Lemma system_claim d d1 clock c st pl :
  authorised d → looksLikeUUID (uuid (next_uuid d)) = true → sc_Desired c = Some st →
  keeps d d1 → plans_wf d1 → pl = new_plan d (system_plan sha256hex c clock) (uuid (next_uuid d)) →
  plans (tables d1) = plans (tables d) ++ [pl] →
  plan_subjects (tables d1) = plan_subjects (tables d) ++ [system_subject d c] →
  ∃ d2, ClaimPlanTx d1 (system_citation sha256hex c (uuid (next_uuid d))) clock =
          inr (d2, spent (now d1) pl, [system_subject d c]) ∧
    spent (now d1) pl ∈ plans (tables d2) ∧ plan_subjects (tables d2) = plan_subjects (tables d1) ∧
    snapshots (tables d2) = snapshots (tables d1) ∧ keeps d1 d2 ∧ next_uuid d2 = next_uuid d1.
Proof.
  intros Hd Hl Hst Hk Hwf Hpl Ep Es. set (ci := system_citation _ _ _).
  assert (find_plan d1 (ToLower (ci_PlanID ci)) = Some pl) as Hf.
  { simpl. rewrite uuid_lower. apply find_plan_Some; [done|]. rewrite Ep, elem_of_app, list_elem_of_singleton, Hpl. auto. }
  assert (planRefusal pl ci (now d1) = None) as Hr.
  { rewrite Hpl, (k_now _ _ Hk). unfold planRefusal. simpl. rewrite !bool_decide_eq_true_2 by done. simpl.
    change (Z.quot minute second * second)%Z with minute. destruct (Z.ltb_spec (now d) (now d + minute)); [done|].
    unfold minute in *. lia. }
  destruct (ClaimPlanTx d1 ci clock) as [e|[[d2 p] subjects]] eqn:E.
  - apply ClaimPlanTx_refused in E as [(_ & [E|E])|(_ & p0 & why & E & ?)]; [| | |done]; simpl in *; congruence.
  - apply ClaimPlanTx_ok in E as (p0 & Hp0 & Hi & _ & -> & -> & _ & ->); [|done].
    assert (p0 = pl) as ->. { assert (find_plan d1 (ToLower (ci_PlanID ci)) = Some p0) by (by apply find_plan_Some). congruence. }
    assert (planSubjectsTx d1 (pl_ID pl) = [system_subject d c]) as ->.
    { unfold planSubjectsTx. rewrite Es, filter_app, filter_none.
      - rewrite Hpl. unfold system_subject. rewrite filter_cons_True by done. done.
      - intros s Hs Eq. destruct (pw_has_plan _ (au_plans _ Hd) s Hs) as (q & Hq & E).
        destruct (pw_plan_ids _ (au_plans _ Hd) q Hq) as (n & Hn & En). rewrite Eq, Hpl in E. simpl in E.
        rewrite En in E. apply uuid_inj in E. lia. }
    eexists. split; [done|]. split_and!; try done.
    simpl. apply list_elem_of_fmap. exists pl. rewrite bool_decide_eq_true_2 by done. split; [done|].
    rewrite Ep, elem_of_app, list_elem_of_singleton. auto.
Qed.
Lemma system_enqueue d d2 pl c :
  authorised d → looksLikeUUID (uuid (S (S (next_uuid d)))) = true → plans_wf d2 →
  outbox d2 = outbox d → active d2 (sc_Target c) = true → sc_Target c ≠ TargetZitadel →
  pl ∈ plans (tables d2) → pl_ID pl = uuid (next_uuid d) → pl_Target pl = sc_Target c → is_Some (pl_AppliedAt pl) →
  system_subject d c ∈ plan_subjects (tables d2) →
  let p := {| ea_PlanSubjectID := uuid (S (S (next_uuid d))); ea_Source := "";
              ea_WithdrawsOnly := sc_WithdrawsOnly c; ea_Reason := sc_Reason c |} in
  approval d2 (ea_PlanSubjectID p) = Some (system_subject d c, pl) ∧
  ∃ d3 i, EnqueueEntitlementApplyTx d2 p = inr (d3, i).
Proof.
  intros Hd Hl Hwf Eo Hact Hz Hpl Hi Ht Happ Hs p.
  assert (approval d2 (ea_PlanSubjectID p) = Some (system_subject d c, pl)) as Ha.
  { apply approval_Some; [done|]. by split_and!. }
  split; [done|]. eapply (EnqueueEntitlementApplyTx_total d2 p); simpl; rewrite ?uuid_lower; try done; try congruence.
  unfold already_queued. rewrite Eo. apply not_true_iff_false. rewrite existsb_dec. intros (r & Hr & E).
  destruct (au_row _ Hd r Hr ltac:(rewrite E; eauto)) as (s & q & Hin & _ & _ & Es & _).
  destruct (pw_subject_ids _ (au_plans _ Hd) s Hin) as (n & Hn & En). rewrite E in Es. simplify_eq.
  rewrite En in *. apply uuid_inj in Es. lia.
Qed.
(** Whatever it does, it only adds plans and convergences for add-on targets. *)
Lemma ClaimPlanTx_keeps d ci clock d' p subjects : ClaimPlanTx d ci clock = inr (d', p, subjects) → keeps d d'.
Proof.
  unfold ClaimPlanTx. destruct (looksLikeUUID _); [|done]. cbn [negb]. destruct (filter _ _) as [|q l]; [done|].
  destruct (planSubjectsTx _ _); [done|]. by intros [= <- _ _].
Qed.
Lemma RecordSystemConvergence_ok `{!Returning} d clock c d' planID i :
  RecordSystemConvergence sha256hex d clock c = inr (d', planID, i) → steps d d' ∧ converges d d'.
Proof.
  unfold RecordSystemConvergence. destruct (_ || _); [done|].
  destruct (createPlanTx _ _) as [e|[d1 pl]] eqn:Ec; [done|]. apply createPlanTx_ok in Ec as (Hk1 & _).
  destruct (ClaimPlanTx _ _ _) as [e|[[d2 p] [|s [|]]]] eqn:Ec2; try done. apply ClaimPlanTx_keeps in Ec2 as Hk2.
  destruct (EnqueueEntitlementApplyTx _ _) as [e|[d3 j]] eqn:Ee; [done|]. intros [= <- <- <-].
  assert (keeps d d2) as Hk by (by etrans). split.
  - apply rtc_l with d2; [by apply keeps_step|]. by eapply EnqueueEntitlementApplyTx_steps.
  - apply EnqueueEntitlementApplyTx_requests in Ee as Er.
    apply EnqueueEntitlementApplyTx_ok in Ee as (s' & q & key & _ & _ & _ & Hz & _ & Et & En & Eg & El & Eu & _ & Eo).
    destruct Hk. split; [congruence..|lia|congruence|congruence| |congruence]. eexists. rewrite Eo, k_outbox0. split; [done|].
    by apply Forall_singleton.
Qed.
End system.

(** ** Identifiers of the database's shape *)
Definition hex_digit (n : N) : ascii := ascii_of_N (if (n <? 10)%N then 48 + n else 87 + n).
Fixpoint hex (k : nat) (n : N) : string :=
  match k with O => "" | S k => String (hex_digit (n `mod` 16)) (hex k (n `div` 16)) end.
Definition hex_uuid (n : nat) : string :=
  if (N.of_nat n <? 16^12)%N then "00000000-0000-4000-8000-" +:+ hex 12 (N.of_nat n) else "x" +:+ Itoa n.

Lemma hex_digit_code n : (n < 16)%N → N_of_ascii (hex_digit n) = (if (n <? 10)%N then 48 + n else 87 + n)%N.
Proof. intros. apply N_ascii_embedding. destruct (N.ltb_spec n 10); lia. Qed.
Lemma hex_digit_inj n m : (n < 16)%N → (m < 16)%N → hex_digit n = hex_digit m → n = m.
Proof.
  intros Hn Hm E%(f_equal N_of_ascii). rewrite !hex_digit_code in E by done.
  destruct (N.ltb_spec n 10), (N.ltb_spec m 10); lia.
Qed.
Lemma hex_digit_byte n : hex_byte (hex_digit (n `mod` 16)) = true.
Proof.
  unfold hex_byte. pose proof (N.mod_lt n 16 ltac:(done)) as Hm. rewrite hex_digit_code by done.
  revert Hm. generalize (n `mod` 16)%N. intros m Hm.
  destruct (N.ltb_spec m 10); rewrite !orb_true_iff, !andb_true_iff, !N.leb_le. all: lia.
Qed.
Lemma hex_inj k n m : (n < 16 ^ N.of_nat k)%N → (m < 16 ^ N.of_nat k)%N → hex k n = hex k m → n = m.
Proof.
  revert n m; induction k as [|k IH]; intros n m Hn Hm; [simpl in *; lia|]. cbn [hex].
  rewrite Nat2N.inj_succ, N.pow_succ_r' in Hn, Hm. intros [= Ed Et].
  apply hex_digit_inj in Ed; [|by apply N.mod_lt..].
  apply IH in Et; [|by apply N.Div0.div_lt_upper_bound..].
  rewrite (N.div_mod n 16), (N.div_mod m 16) by done. congruence.
Qed.
Lemma hex_uuid_inj : Inj (=) (=) hex_uuid.
Proof.
  intros n m. unfold hex_uuid. destruct (N.ltb_spec (N.of_nat n) (16^12)), (N.ltb_spec (N.of_nat m) (16^12)).
  - intros E%(inj _)%hex_inj; [lia|done..].
  - by intros [=].
  - by intros [=].
  - intros [= E]. by apply Itoa_inj.
Qed.
Lemma hex_digit_lower n : lower_byte (hex_digit (n `mod` 16)) = hex_digit (n `mod` 16).
Proof.
  unfold lower_byte. pose proof (N.mod_lt n 16 ltac:(done)) as Hm. rewrite hex_digit_code by done.
  revert Hm. generalize (n `mod` 16)%N. intros m Hm. destruct (N.ltb_spec m 10).
  - by rewrite (proj2 (N.leb_gt 65 (48 + m))) by lia.
  - rewrite (proj2 (N.leb_gt (87 + m) 90)) by lia. by rewrite andb_false_r.
Qed.
Lemma hex_lower k n : ToLower (hex k n) = hex k n.
Proof.
  revert n. induction k as [|k IH]; intros n; [done|]. cbn [hex]. unfold ToLower in *. cbn [list_ascii_of_string fmap list_fmap string_of_list_ascii].
  by rewrite hex_digit_lower, IH.
Qed.
Lemma hex_uuid_lower n : ToLower (hex_uuid n) = hex_uuid n.
Proof. unfold hex_uuid. case_match; rewrite ToLower_app, ?hex_lower, ?Itoa_lower; by f_equal. Qed.
Definition hex_uuids : Uuids := {| uuid := hex_uuid; uuid_inj := hex_uuid_inj; uuid_lower := hex_uuid_lower |}.
Lemma hex_uuid_shape n : (N.of_nat n < 16^12)%N → looksLikeUUID (hex_uuid n) = true.
Proof.
  intros H%N.ltb_lt. unfold hex_uuid. rewrite H. unfold looksLikeUUID. lazy -[hex_byte hex_digit N.modulo N.div N.of_nat].
  by rewrite !hex_digit_byte.
Qed.

(** ** A registered add-on target, and a plan for it *)
#[local] Existing Instance hex_uuids.
Definition demo_addons : Db :=
  {| now := 1000; outbox := []; targets := {["zitadel" := true; "nas" := true]}; role_waits := []; ledger := [];
     audit_logs := []; memory := ∅; requests := []; grant_index := ∅; gave_up_seen := ∅;
     tables := empty_tables; next_intent := 10; next_uuid := 0 |}.
Lemma demo_authorised : authorised demo_addons.
Proof. split; [split|..]; simpl; try apply NoDup_nil_2; try (by intros ? ?%elem_of_nil). by intros ? ? ? ?%elem_of_nil. Defined.
Definition demo_convergence : SystemConvergence :=
  {| sc_Target := "nas"; sc_SubjectID := "ada"; sc_Actor := "op"; sc_Reason := "bundle"; sc_WithdrawsOnly := false;
     sc_Desired := Some {["enabled" := Flag true]} |}.
Definition demo_new_plan : NewPlan := system_plan (λ s, s) demo_convergence 1000.
Definition demo_citation : PlanCitation := system_citation (λ s, s) demo_convergence (uuid 0).
Definition demo_created : Db := match createPlanTx demo_addons demo_new_plan with inr (d, _) => d | inl _ => demo_addons end.
Lemma demo_created_from : ∃ pl, createPlanTx demo_addons demo_new_plan = inr (demo_created, pl).
Proof. eexists. by vm_compute. Defined.

(** ** Properties *)

(** A plan is spent once, by the one request it was approved for. The
    claim succeeds exactly when the plan exists and the refusal rules find no
    reason (same target, surface, operator and request, unspent, not expired on
    the database's clock); it then spends that plan alone and returns every
    subject row of it, at least one, and no later claim of it succeeds. A
    refused claim names the first reason the rules give, when the explaining
    clock agrees with the database's. *)
Theorem ClaimPlanTx_spec `{!Uuids} d c clock :
  plans_wf d →
  match ClaimPlanTx d c clock with
  | inr (d', p, subjects) =>
      ∃ p0, find_plan d (ToLower (ci_PlanID c)) = Some p0 ∧ planRefusal p0 c (now d) = None ∧ p = spent (now d) p0 ∧
        subjects ≠ [] ∧ (∀ s, s ∈ subjects ↔ s ∈ plan_subjects (tables d) ∧ ps_PlanID s = pl_ID p0) ∧
        plans (tables d') = ((λ q, if pl_ID q =? pl_ID p0 then spent (now d) q else q) <$> plans (tables d)) ∧
        outbox d' = outbox d ∧
        ∀ c' clock', ci_PlanID c' = ci_PlanID c → ∃ e, ClaimPlanTx d' c' clock' = inl e
  | inl e =>
      e = ErrPlanNotFound ∧ (looksLikeUUID (ci_PlanID c) = false ∨ find_plan d (ToLower (ci_PlanID c)) = None) ∨
      ∃ p0 why, find_plan d (ToLower (ci_PlanID c)) = Some p0 ∧ planRefusal p0 c (now d) = Some why ∧
        (clock = now d → e = why)
  end.
Proof.
  intros Hwf. destruct (ClaimPlanTx d c clock) as [e|[[d' p] subjects]] eqn:E.
  - apply ClaimPlanTx_refused in E as [?|(-> & p0 & why & Hf & Hr)]; [by left| |done].
    right. exists p0, why. split_and!; [done..|]. intros ->. unfold explainPlanRefusal. by rewrite Hf, Hr.
  - pose proof E as E'. apply ClaimPlanTx_ok in E as (p0 & Hp & Hid & Hr & -> & -> & Hne & ->); [|done].
    exists p0. split_and!; try done.
    + by apply find_plan_Some.
    + intros s. unfold planSubjectsTx. rewrite stable_sort_elem, list_elem_of_filter. tauto.
    + intros c' clock' Hc. by eapply ClaimPlanTx_spent.
Qed.

Lemma ClaimPlanTx_spec_witness :
  ∃ d' p s, ClaimPlanTx demo_created demo_citation 1000 = inr (d', p, [s]) ∧ ps_SubjectID s = "ada" ∧
    ∃ e, ClaimPlanTx d' demo_citation 1000 = inl e.
Proof.
  assert (plans_wf demo_created) as Hwf.
  { destruct demo_created_from as [pl E]. by eapply au_plans, authorised_create, E; apply demo_authorised. }
  assert (match ClaimPlanTx demo_created demo_citation 1000 with
          | inr (_, _, [s]) => ps_SubjectID s =? "ada" | _ => false end = true) as Hone by by vm_compute.
  pose proof (ClaimPlanTx_spec demo_created demo_citation 1000 Hwf) as H.
  destruct (ClaimPlanTx demo_created demo_citation 1000) as [e|[[d' p] [|s [|]]]]; try discriminate Hone.
  apply bool_decide_eq_true in Hone.
  destruct H as (p0 & _ & _ & _ & _ & _ & _ & _ & Hno). exists d', p, s. split_and!; [reflexivity|exact Hone|].
  apply Hno. reflexivity.
Defined.

(** C28. No convergence without its approval: from tables with no plans and no
    queued rows, whatever sequence of plans created, claimed and pruned, work
    queued and outbox statements runs, every queued convergence cites the row
    of a spent plan that names this very person, target and operator, and no
    approval is behind two rows. *)
Theorem convergences_are_authorised `{!Returning, !Uuids} d0 d :
  outbox d0 = [] → plans (tables d0) = [] → plan_subjects (tables d0) = [] → snapshots (tables d0) = [] →
  rtc plan_step d0 d → authorised d.
Proof.
  intros Eo Ep Es En Hs. assert (authorised d0) as Hd0.
  { split; [split|..]; rewrite ?Eo, ?Ep, ?Es, ?En; csimpl; try (by apply NoDup_nil); try (by intros ? ?%elem_of_nil).
    by intros ? ? ? ?%elem_of_nil. }
  clear Eo Ep Es En. induction Hs; eauto using authorised_step.
Qed.

Lemma convergences_are_authorised_witness : ∃ d, d ≠ demo_addons ∧ authorised d.
Proof.
  exists demo_created. split; [by vm_compute|].
  apply (convergences_are_authorised demo_addons); [done..|]. apply rtc_once.
  destruct demo_created_from as [pl E]. by eapply plan_create.
Defined.

(** A role change converges its target without an operator: on an active
    registered add-on target, for a named person and actor, the system's own
    plan is created, spent and cited in one go. Exactly one row is queued, it
    is pending and carries the actor, and what the dispatcher reads back
    through it is the state that was resolved, at a version above every
    earlier one, under the marker that makes the dispatcher re-read the world. *)
Theorem RecordSystemConvergence_spec `{!Uuids} sha256hex d clock c st :
  wf d → authorised d → (∀ n, next_uuid d ≤ n < 3 + next_uuid d → looksLikeUUID (uuid n) = true) →
  blank (sc_Target c) = false → sc_Target c ≠ TargetZitadel → blank (sc_SubjectID c) = false →
  blank (sc_Actor c) = false → sc_Desired c = Some st → active d (sc_Target c) = true →
  ∃ d' r intent,
    RecordSystemConvergence sha256hex d clock c = inr (d', ei_PlanID intent, id r) ∧
    outbox d' = outbox d ++ [r] ∧ op_type r = op_apply ∧ row_status r = pending ∧ user_id r = sc_SubjectID c ∧
    target r = sc_Target c ∧ initiated_by r = sc_Actor c ∧ withdraws_only r = sc_WithdrawsOnly c ∧
    ReadEntitlementIntent d' (id r) = inr intent ∧
    ei_Desired intent = st ∧ ei_SubjectID intent = sc_SubjectID c ∧ ei_Target intent = sc_Target c ∧
    ei_Surface intent = SystemConvergenceSurface ∧ ei_Fingerprint intent = SystemFingerprint ∧
    Forall (λ n, sn_SubjectID n = sc_SubjectID c → sn_Target n = sc_Target c → (sn_Version n < ei_Version intent)%Z)
      (snapshots (tables d)).
Proof.
  intros Hw Hd Hl Ht Hz Hs Ha Hst Hact.
  destruct (system_create sha256hex d clock c st Ht Hz Hs Ha Hst Hact) as (d1 & Ec & Hk1 & Eu & Ep & Es & En).
  set (pl := new_plan _ _ _) in *. pose proof (authorised_create _ _ _ _ Hd Ec) as Hd1.
  destruct (system_claim sha256hex d d1 clock c st pl Hd (Hl (next_uuid d) ltac:(lia)) Hst Hk1 (au_plans _ Hd1) eq_refl Ep Es)
    as (d2 & Eq & Hpl & Es2 & En2 & Hk2 & Eu2).
  pose proof (authorised_claim _ _ _ _ _ _ Hd1 Eq) as Hd2.
  destruct (system_enqueue d d2 (spent (now d1) pl) c Hd (Hl (S (S (next_uuid d))) ltac:(lia)) (au_plans _ Hd2)) as (Hap & d3 & i & Ee);
    try done; [by rewrite (k_outbox _ _ Hk2), (k_outbox _ _ Hk1)| | |].
  { unfold active. by rewrite (k_targets _ _ Hk2), (k_targets _ _ Hk1). }
  { rewrite Es2, Es. apply elem_of_app. right. by apply list_elem_of_singleton. }
  pose proof (EnqueueEntitlementApplyTx_ok _ _ _ _ Ee) as (s & q & key & Hap' & _ & _ & _ & _ & Et & _ & _ & _ & _ & Hi & Eo).
  simpl in Hap, Hap'. rewrite uuid_lower, Hap in Hap'. simplify_eq Hap'. intros <- <-.
  rewrite (k_outbox _ _ Hk2), (k_outbox _ _ Hk1) in Eo.
  set (r := apply_row d2 _ _ _ _ _ _ _ _ _) in Eo.
  set (intent := {| ei_OutboxID := i; ei_Target := sc_Target c; ei_PlanID := uuid (next_uuid d);
    ei_SubjectID := sc_SubjectID c; ei_Fingerprint := SystemFingerprint; ei_Desired := st;
    ei_Version := last_version d (sc_SubjectID c) (sc_Target c) + 1; ei_Surface := SystemConvergenceSurface |}).
  exists d3, r, intent. split.
  { unfold RecordSystemConvergence. rewrite Ht, Hs, Ha, Hst, (bool_decide_eq_false_2 (sc_Target c = _)) by done. simpl.
    rewrite Ec. simpl. rewrite Eq. simpl. by rewrite Ee. }
  split_and!; try done.
  - unfold ReadEntitlementIntent. rewrite Eo, (head_filter_new (λ r0, id r0 = id r)); [|..]; [|intros r0 Hr0|done].
    2:{ destruct (wf_ids _ Hw r0 Hr0) as (n & Hn & ->). subst i. intros E%uuid_inj. lia. }
    simpl. unfold approval, find_subject, find_plan in *. rewrite Et. simpl in Hap. rewrite Hap. simpl.
    rewrite En2, En, (head_filter_new (λ n, sn_ID n = uuid (S (next_uuid d)))); [done| |done].
    intros n Hn. destruct (pw_snapshot_ids _ (au_plans _ Hd) n Hn) as (k & Hk & ->). intros E%uuid_inj. lia.
  - apply Forall_forall. intros n Hn Hsub Htgt. simpl.
    pose proof (last_version_max d _ _ n Hn Hsub Htgt). lia.
Qed.
Lemma RecordSystemConvergence_spec_witness :
  ∃ d' planID r, RecordSystemConvergence (λ s, s) demo_addons 1000 demo_convergence = inr (d', planID, id r) ∧
    outbox d' = [r].
Proof.
  destruct (RecordSystemConvergence_spec (λ s, s) demo_addons 1000 demo_convergence {["enabled" := Flag true]})
    as (d' & r & intent & E & Eo & _); [..|reflexivity|reflexivity|].
  - by apply wf_empty.
  - apply demo_authorised.
  - intros n [_ Hn]. apply hex_uuid_shape. simpl in Hn. lia.
  - reflexivity.
  - discriminate.
  - reflexivity.
  - reflexivity.
  - exists d', (ei_PlanID intent), r. auto.
Defined.
