(* ===== verification/Planapply.v ===== *)
(** * Planapply: the gate every operator's apply passes

    backend/internal/services/planapply/apply.go, and what becomes of the work
    it queues until the dispatcher reads it. One transaction: an error leaves
    nothing behind. The texts of errors are not modelled. *)

From S2P Require Import Prelude Access Tables Extcall Outbox Lifecycle Plans.

Record Request := {
  rq_PlanID : string;
  rq_Target : string;
  rq_Surface : string;
  rq_Actor : string;
  rq_RequestFingerprint : string;
}.
Record QueuedSubject := { qs_SubjectID : string; qs_OutboxID : string }.
Record ApplySummary := { sm_Total : nat; sm_Queued : nat; sm_NoChange : nat; sm_Blocked : nat; sm_Succeeded : nat }.
Record Result := {
  rs_PlanID : string;
  rs_Target : string;
  rs_Provisional : bool;
  rs_Queued : list QueuedSubject;
  rs_Disclosure : string;
  rs_Summary : ApplySummary;
}.
Inductive GateError :=
  | ErrPlanRequired
  | ErrUnknownTarget                  (* db.ErrNoSuchTarget *)
  | ErrInactiveTarget                 (* db.ErrTargetNotActive *)
  | plan_refused (e : PlanError)
  | queue_refused (e : PlanError).

(** A target's state, held until the transaction ends; [true] is active. *)
Definition LockTargetStateTx (d : Db) (tgt : string) : option bool := targets d !! tgt.
Definition disclose (queued : nat) (provisional : bool) : string :=
  if queued =? 0 then "Nothing was queued: the plan you approved said none of these people would change."
  else if provisional then
    "Recorded against the target's last-known state while it was unreachable. "
    +:+ "It will be re-checked when the target comes back, and applied only if nothing moved."
  else "Queued. These changes reach the target when an operator resumes the drain — "
       +:+ "access is never granted without somebody deciding to.".
Definition citation_of (req : Request) : PlanCitation :=
  {| ci_PlanID := rq_PlanID req; ci_Target := rq_Target req; ci_Surface := rq_Surface req; ci_Actor := rq_Actor req;
     ci_RequestFingerprint := rq_RequestFingerprint req |}.

Section gate.
Context `{!Uuids}.
Definition counted_subject (m : ApplySummary) (effect : string) : ApplySummary :=
  {| sm_Total := sm_Total m; sm_Queued := sm_Queued m;
     sm_NoChange := sm_NoChange m + (if effect =? PlanEffectNoChange then 1 else 0);
     sm_Blocked := sm_Blocked m + (if effect =? PlanEffectBlocked then 1 else 0); sm_Succeeded := sm_Succeeded m |}.
Definition queued_one (m : ApplySummary) : ApplySummary :=
  {| sm_Total := sm_Total m; sm_Queued := S (sm_Queued m); sm_NoChange := sm_NoChange m; sm_Blocked := sm_Blocked m;
     sm_Succeeded := sm_Succeeded m |}.
Fixpoint queue_subjects (d : Db) (queued : list QueuedSubject) (m : ApplySummary) (subjects : list PlanSubject)
    : GateError + Db * list QueuedSubject * ApplySummary :=
  match subjects with
  | [] => inr (d, queued, m)
  | s :: subjects =>
      let effect := o_Effect (ps_Outcome s) in
      if effect <>? PlanEffectApply then queue_subjects d queued (counted_subject m effect) subjects
      else match EnqueueEntitlementApplyTx d {| ea_PlanSubjectID := ps_ID s; ea_Source := ""; ea_WithdrawsOnly := false; ea_Reason := "" |} with
      | inl e => inl (queue_refused e)
      | inr (d, i) => queue_subjects d (queued ++ [{| qs_SubjectID := ps_SubjectID s; qs_OutboxID := i |}]) (queued_one m) subjects
      end
  end.
(** [clock]: time.Now(), which only words a refusal. *)
Definition ApplyPlan (d : Db) (clock : Z) (req : Request) : GateError + Db * Result :=
  if blank (rq_PlanID req) then inl ErrPlanRequired
  else match LockTargetStateTx d (rq_Target req) with
  | None => inl ErrUnknownTarget
  | Some false => inl ErrInactiveTarget
  | Some true =>
      match ClaimPlanTx d (citation_of req) clock with
      | inl e => inl (plan_refused e)
      | inr (d, plan, subjects) =>
          match queue_subjects d [] {| sm_Total := length subjects; sm_Queued := 0; sm_NoChange := 0; sm_Blocked := 0; sm_Succeeded := 0 |}
                  subjects with
          | inl e => inl e
          | inr (d, queued, summary) =>
              inr (d, {| rs_PlanID := pl_ID plan; rs_Target := pl_Target plan; rs_Provisional := pl_Provisional plan;
                         rs_Queued := queued; rs_Disclosure := disclose (length queued) (pl_Provisional plan); rs_Summary := summary |})
          end
      end
  end.
End gate.

(** ** Facts: queueing what the plan approved *)
Definition wants_apply (s : PlanSubject) : Prop := o_Effect (ps_Outcome s) = PlanEffectApply.
#[export] Instance wants_apply_dec s : Decision (wants_apply s).
Proof. unfold wants_apply. apply _. Defined.
(** A fresh row that carries out one subject of a plan, and nothing else. *)
Definition carries_out (d : Db) (p : Plan) (s : PlanSubject) (r : Row) : Prop :=
  authorises d r s p ∧ op_type r = op_apply ∧ row_status r = pending ∧ attempts (progress r) = 0 ∧
  withdraws_only r = false.
Definition queued_as (r : Row) : QueuedSubject := {| qs_SubjectID := user_id r; qs_OutboxID := id r |}.

Lemma authorises_tables d d' r s p : tables d' = tables d → authorises d r s p → authorises d' r s p.
Proof. unfold authorises. by intros ->. Qed.

Section queue.
Context `{!Uuids} (p : Plan).
(** What the claim establishes for the subjects still to be queued. *)
Record queueable (d : Db) (subjects : list PlanSubject) : Prop := {
  qu_authorised : authorised d;
  qu_plan : p ∈ plans (tables d) ∧ is_Some (pl_AppliedAt p);
  qu_active : active d (pl_Target p) = true;
  qu_once : NoDup (ps_ID <$> subjects);
  qu_subject : ∀ s, s ∈ subjects → s ∈ plan_subjects (tables d) ∧ ps_PlanID s = pl_ID p ∧
    looksLikeUUID (ps_ID s) = true ∧ already_queued d (ps_ID s) = false;
}.
Lemma queueable_tail d s subjects : queueable d (s :: subjects) → queueable d subjects.
Proof.
  intros [H1 H2 H3 H4 H5]. split; try done; [by apply NoDup_cons in H4 as [_ ?]|]. intros x Hx. apply H5. by right.
Qed.
Lemma queue_one d s subjects :
  pl_Target p ≠ TargetZitadel → queueable d (s :: subjects) →
  ∃ d' r, EnqueueEntitlementApplyTx d {| ea_PlanSubjectID := ps_ID s; ea_Source := ""; ea_WithdrawsOnly := false; ea_Reason := "" |}
            = inr (d', id r) ∧
    outbox d' = outbox d ++ [r] ∧ tables d' = tables d ∧ targets d' = targets d ∧ carries_out d' p s r ∧ queueable d' subjects.
Proof.
  intros Hz [Ha [Hp Happ] Hact Hnd Hs]. destruct (Hs s ltac:(left)) as (Hin & Hpid & Hl & Hq).
  assert (approval d (ps_ID s) = Some (s, p)) as Hap by (apply approval_Some; [by apply au_plans|]; by split_and!).
  set (e := {| ea_PlanSubjectID := ps_ID s; ea_Source := ""; ea_WithdrawsOnly := false; ea_Reason := "" |}).
  assert (Hlow : ToLower (ps_ID s) = ps_ID s).
  { destruct (pw_subject_ids _ (au_plans _ Ha) s Hin) as (n & _ & ->). apply uuid_lower. }
  destruct (EnqueueEntitlementApplyTx_total d e s p) as (d' & i & E); simpl; rewrite ?Hlow; try done.
  pose proof (authorised_enqueue _ _ _ _ Ha E) as Ha'.
  apply EnqueueEntitlementApplyTx_ok in E as Hok. destruct Hok as (s0 & p0 & key & Hap0 & _ & _ & _ & _ & Et & _ & Etg & _ & _ & -> & Eo).
  assert ((s0, p0) = (s, p)) as [= -> ->] by (simpl in Hap0; rewrite Hlow in Hap0; congruence). simpl in Eo.
  set (r := apply_row _ _ _ _ _ _ _ _ _ _) in Eo. exists d', r. split_and!; [exact E|done..| |].
  - split; [|done]. unfold authorises. rewrite Et. by split_and!.
  - apply NoDup_cons in Hnd as [Hni Hnd]. split; try done; rewrite ?Et; [done| |].
    + unfold active. by rewrite Etg.
    + intros x Hx. destruct (Hs x ltac:(by right)) as (? & ? & ? & Hqx). split_and!; try done.
      unfold already_queued in *. rewrite Eo, existsb_app, Hqx. simpl. rewrite orb_false_r. apply bool_decide_eq_false.
      intros [= E2]. apply Hni. rewrite E2. by apply list_elem_of_fmap_2.
Qed.
Lemma queue_subjects_ok subjects d queued m :
  pl_Target p ≠ TargetZitadel → queueable d subjects →
  ∃ d' rows m', queue_subjects d queued m subjects = inr (d', queued ++ (queued_as <$> rows), m') ∧
    outbox d' = outbox d ++ rows ∧ tables d' = tables d ∧ Forall2 (carries_out d' p) (filter wants_apply subjects) rows ∧
    sm_Total m' = sm_Total m ∧ sm_Queued m' = sm_Queued m + length rows ∧ sm_Succeeded m' = sm_Succeeded m ∧
    sm_Queued m' + sm_NoChange m' + sm_Blocked m' = sm_Queued m + sm_NoChange m + sm_Blocked m + length subjects.
Proof.
  intros Hz. revert d queued m. induction subjects as [|s subjects IH]; intros d queued m Hq; cbn [queue_subjects].
  { exists d, [], m. rewrite !app_nil_r. split_and!; try done; simpl; lia. }
  rewrite filter_cons. unfold wants_apply at 1. destruct (o_Effect (ps_Outcome s) =? PlanEffectApply) eqn:Ee; cbn [negb].
  - apply bool_decide_eq_true in Ee. rewrite decide_True by done.
    destruct (queue_one d s subjects Hz Hq) as (d1 & r & -> & Eo & Et & Etg & Hc & Hq1). cbv iota beta.
    destruct (IH d1 (queued ++ [queued_as r]) (queued_one m) Hq1) as (d' & rows & m' & E & Eo' & Et' & HF & ? & Hqd & ? & ?).
    exists d', (r :: rows), m'. replace (ps_SubjectID s) with (user_id r) by apply Hc. fold (queued_as r). simpl in *.
    rewrite E, Eo', Eo, <-!(assoc_L (++)), Et', Et. split_and!; try done; try lia.
    constructor; [|done]. destruct Hc as (Ha & Hc). split; [|done]. by eapply authorises_tables.
  - apply bool_decide_eq_false in Ee. rewrite decide_False by done.
    pose proof (pw_effects _ (au_plans _ (qu_authorised _ _ Hq)) s (proj1 (qu_subject _ _ Hq s ltac:(left)))) as Hv.
    destruct (IH d queued (counted_subject m (o_Effect (ps_Outcome s))) (queueable_tail _ _ _ Hq))
      as (d' & rows & m' & E & Eo & Et & HF & ? & Hqd & ? & Hsum). exists d', rows, m'. split_and!; try done.
    rewrite Hsum. unfold validPlanEffect in Hv. simpl.
    destruct (o_Effect (ps_Outcome s) =? PlanEffectApply) eqn:E1; [by apply bool_decide_eq_true in E1|].
    destruct (o_Effect (ps_Outcome s) =? PlanEffectNoChange) eqn:E2; destruct (o_Effect (ps_Outcome s) =? PlanEffectBlocked) eqn:E3; try done; try lia.
    apply bool_decide_eq_true in E2, E3. rewrite E2 in E3. done.
Qed.
End queue.

Lemma planSubjects_NoDup `{!Uuids} d i : plans_wf d → NoDup (ps_ID <$> planSubjectsTx d i).
Proof.
  intros Hwf. unfold planSubjectsTx. rewrite stable_sort_perm.
  eapply sublist_NoDup; [apply (pw_subjects _ Hwf)|]. apply fmap_sublist, sublist_filter.
Qed.
(** Work is queued only under a plan that is already spent. *)
Lemma unspent_not_queued `{!Uuids} d s p :
  authorised d → s ∈ plan_subjects (tables d) → p ∈ plans (tables d) → ps_PlanID s = pl_ID p → pl_AppliedAt p = None →
  already_queued d (ps_ID s) = false.
Proof.
  intros Ha Hs Hp Hid Hun. apply not_true_iff_false. unfold already_queued. rewrite existsb_elem.
  intros (r & Hr & Hc%bool_decide_eq_true). destruct (au_row _ Ha r Hr) as (s' & p' & Hs' & Hp' & Hid' & Hc' & _ & _ & _ & Happ); [by right; eauto|].
  assert (approval d (ps_ID s) = Some (s, p)) as E1 by (apply approval_Some; [by apply au_plans|]; by split_and!).
  assert (approval d (ps_ID s) = Some (s', p')) as E2 by (apply approval_Some; [by apply au_plans|]; split_and!; try done; congruence).
  rewrite E1 in E2. injection E2 as <- <-. rewrite Hun in Happ. by destruct Happ.
Qed.
Lemma claim_queueable `{!Uuids} d c clock d1 p subjects :
  authorised d → (∀ n, n < next_uuid d → looksLikeUUID (uuid n) = true) → active d (ci_Target c) = true →
  ClaimPlanTx d c clock = inr (d1, p, subjects) → queueable p d1 subjects ∧ pl_Target p = ci_Target c ∧ outbox d1 = outbox d.
Proof.
  intros Ha Hl Hact E. pose proof (authorised_claim _ _ _ _ _ _ Ha E) as Ha1. pose proof (au_plans _ Ha) as Hwf.
  apply ClaimPlanTx_ok in E as (p0 & Hp0 & Hid & Href & -> & -> & _ & ->); [|done].
  assert (pl_Target p0 = ci_Target c ∧ pl_AppliedAt p0 = None) as [Ht Hun].
  { unfold planRefusal in Href. destruct (pl_Target p0 =? ci_Target c) eqn:E1; [|done]. apply bool_decide_eq_true in E1.
    destruct (pl_AppliedAt p0) eqn:E2; [|done]. revert Href. by repeat (destruct (_ || _) || destruct (negb _)). }
  split_and!; try done. split; try done.
  - simpl. split; [|eauto]. apply list_elem_of_fmap. exists p0. by rewrite bool_decide_true.
  - unfold active in *. simpl. by rewrite Ht.
  - by apply planSubjects_NoDup.
  - intros s. unfold planSubjectsTx at 1. rewrite stable_sort_elem, list_elem_of_filter. simpl. intros [Hs Hin]. split_and!; try done.
    + destruct (pw_subject_ids _ Hwf s Hin) as (n & Hn & ->). by apply Hl.
    + by eapply (unspent_not_queued d).
Qed.

(** ** Facts: the intent behind a row does not move *)
Section intent.
Context `{!Returning, !Uuids}.
Implicit Types (d : Db) (r : Row) (s : PlanSubject) (p : Plan).

Lemma plan_step_steps d d' : plan_step d d' → steps d d'.
Proof.
  destruct 1 as [d q d' pl E|d c clock d' q subjects E|d q d' i E|d days|d d' Hst _ _ _ _].
  - apply createPlanTx_ok in E as (Hk & _). by apply rtc_once, keeps_step.
  - apply ClaimPlanTx_keeps in E. by apply rtc_once, keeps_step.
  - by eapply EnqueueEntitlementApplyTx_steps.
  - apply rtc_once, step_other; unfold PruneSpentPlans; destruct (_ <=? _)%Z; done.
  - by apply rtc_once.
Qed.
Lemma plan_steps_steps d d' : rtc plan_step d d' → steps d d'.
Proof. induction 1; [apply rtc_refl|]. unfold steps in *. etrans; [by apply plan_step_steps|done]. Qed.
Lemma authorised_steps d d' : authorised d → rtc plan_step d d' → authorised d'.
Proof. intros Ha Hs. induction Hs; eauto using authorised_step. Qed.
Lemma RecordSystemConvergence_plan_steps sha256hex d clock c d' planID i :
  RecordSystemConvergence sha256hex d clock c = inr (d', planID, i) → rtc plan_step d d'.
Proof.
  unfold RecordSystemConvergence. destruct (_ || _ || _ || _ || _); [done|].
  destruct (createPlanTx _ _) as [e|[d1 plan]] eqn:E1; [done|]. destruct (ClaimPlanTx _ _ _) as [e|[[d2 p] [|s [|]]]] eqn:E2; try done.
  destruct (EnqueueEntitlementApplyTx _ _) as [e|[d3 j]] eqn:E3; [done|]. intros [= <- _ _].
  eapply rtc_l; [by eapply plan_create|]. eapply rtc_l; [by eapply plan_claim|]. apply rtc_once. by eapply plan_enqueue.
Qed.
(** Plans, their rows and snapshots are only added, under fresh ids, spent or dropped. *)
Lemma plan_step_tables d d' :
  authorised d → plan_step d d' →
  (∀ s, s ∈ plan_subjects (tables d') → s ∈ plan_subjects (tables d) ∨ ∃ n, next_uuid d ≤ n ∧ ps_ID s = uuid n) ∧
  (∀ p, p ∈ plans (tables d') →
     (∃ q, q ∈ plans (tables d) ∧ pl_ID q = pl_ID p ∧ pl_Surface q = pl_Surface p) ∨ ∃ n, next_uuid d ≤ n ∧ pl_ID p = uuid n) ∧
  ∃ l, snapshots (tables d') = snapshots (tables d) ++ l.
Proof.
  intros Ha. destruct 1 as [d q d' pl E|d c clock d' q subjects E|d q d' i E|d days|d d' Hst Ep Es En _].
  - apply createPlanTx_ok in E as (_ & Ep & _ & _ & _ & new & Es & _ & _ & _ & [_ Hm] & (l & El & _)).
    rewrite Ep, Es, El. split_and!; [| |eauto].
    + intros s [?|Hs]%elem_of_app; [by left|right]. destruct (Hm (ps_ID s)) as (n & ? & ?); [right; by apply list_elem_of_fmap_2|].
      exists n. split; [lia|done].
    + intros p [?| ->%list_elem_of_singleton]%elem_of_app; [left; eauto|right].
      destruct (Hm (pl_ID pl)) as (n & ? & ?); [left|]. exists n. split; [lia|done].
  - apply ClaimPlanTx_ok in E as (p0 & _ & _ & _ & _ & _ & _ & ->); [|by apply au_plans]. simpl. split_and!; [by left| |by exists []; rewrite app_nil_r].
    intros p (q0 & -> & Hq)%list_elem_of_fmap. left. exists q0. split; [done|]. by destruct (_ =? _).
  - apply EnqueueEntitlementApplyTx_ok in E as (? & ? & ? & _ & _ & _ & _ & _ & -> & _).
    split_and!; [by left|by left; eauto|by exists []; rewrite app_nil_r].
  - unfold PruneSpentPlans. destruct (_ <=? _)%Z; simpl; (split_and!; [| |by exists []; rewrite app_nil_r]).
    + by left.
    + by left; eauto.
    + intros s [_ ?]%list_elem_of_filter. by left.
    + intros p [_ ?]%list_elem_of_filter. left; eauto.
  - rewrite Ep, Es, En. split_and!; [by left|by left; eauto|by exists []; rewrite app_nil_r].
Qed.

(** The intent read through a row, as the join it is. *)
Definition intent_of (d : Db) (r : Row) (e : EntitlementIntent) : Prop :=
  ∃ s p k n, s ∈ plan_subjects (tables d) ∧ p ∈ plans (tables d) ∧ ps_PlanID s = pl_ID p ∧
    plan_subject_id r = Some (ps_ID s) ∧ ps_SnapshotID s = Some k ∧
    head (filter (λ n, sn_ID n = k) (snapshots (tables d))) = Some n ∧
    e = {| ei_OutboxID := id r; ei_Target := target r; ei_PlanID := ps_PlanID s; ei_SubjectID := sn_SubjectID n;
           ei_Fingerprint := ps_Fingerprint s; ei_Desired := sn_State n; ei_Version := sn_Version n; ei_Surface := pl_Surface p |}.
Lemma ReadEntitlementIntent_row d i r e :
  wf d → plans_wf d → r ∈ outbox d → id r = i → ReadEntitlementIntent d i = inr e ↔ intent_of d r e.
Proof.
  intros Hwf Hp Hr Hi. unfold ReadEntitlementIntent.
  assert (head (filter (λ r, id r = i) (outbox d)) = Some r) as ->.
  { apply (head_filter_key id); [|done]. by destruct Hwf as [[]]. }
  simpl. split.
  - destruct (plan_subject_id r) as [j|] eqn:Ec; [|done]. simpl. destruct (approval d j) as [[s p]|] eqn:Ea; [|done].
    apply approval_Some in Ea as (Hs & <- & Hpl & E); [|done]. simpl. destruct (ps_SnapshotID s) as [k|] eqn:Ek; [|done]. simpl.
    destruct (head (filter _ (snapshots _))) as [n|] eqn:En; [|done]. intros [= <-].
    exists s, p, k, n. by split_and!.
  - intros (s & p & k & n & Hs & Hpl & E & -> & Ek & En & ->). simpl.
    assert (approval d (ps_ID s) = Some (s, p)) as -> by (apply approval_Some; [done|]; by split_and!).
    simpl. rewrite Ek. simpl. by rewrite En.
Qed.
Lemma head_filter_app {A} (P : A → Prop) `{!∀ x, Decision (P x)} (l m : list A) x :
  head (filter P l) = Some x → head (filter P (l ++ m)) = Some x.
Proof. rewrite filter_app. by destruct (filter P l). Qed.
Lemma intent_step d d' r r' e :
  authorised d → plan_step d d' → r' ∈ outbox d' → r' = with_progress r (progress r') →
  intent_of d r e → intent_of d' r' e.
Proof.
  intros Ha Hst Hr' Er (s & p & k & n & Hs & Hp & Hid & Hc & Hk & Hn & ->).
  pose proof (authorised_step _ _ Ha Hst) as Ha'. destruct (plan_step_tables d d' Ha Hst) as (Hss & Hps & l & El).
  assert (plan_subject_id r' = Some (ps_ID s)) as Hc' by (by rewrite Er).
  destruct (au_row _ Ha' r' Hr') as (s' & p' & Hs' & Hp' & Hid' & Hcite & _); [right; eauto|].
  assert (s' = s) as ->.
  { rewrite Hc' in Hcite. injection Hcite as Hcite. destruct (Hss s' Hs') as [Hin|(m & Hm & Em)].
    - pose proof (pw_subjects _ (au_plans _ Ha)) as Hnd.
      apply (head_filter_key ps_ID _ (ps_ID s) s) in Hnd as [_ H1]. pose proof (pw_subjects _ (au_plans _ Ha)) as Hnd.
      apply (head_filter_key ps_ID _ (ps_ID s) s') in Hnd as [_ H2]. rewrite H1 in H2 by done. by injection (H2 (conj Hin (eq_sym Hcite))).
    - destruct (pw_subject_ids _ (au_plans _ Ha) s Hs) as (m' & ? & E'). rewrite <-Hcite, E' in Em. apply uuid_inj in Em. lia. }
  assert (pl_Surface p' = pl_Surface p) as Hsf.
  { destruct (Hps p' Hp') as [(q & Hq & Eq & <-)|(m & Hm & Em)].
    - f_equal. assert (find_plan d (pl_ID p) = Some p) as E1 by (apply find_plan_Some; [by apply au_plans|]; done).
      assert (find_plan d (pl_ID p) = Some q) as E2 by (apply find_plan_Some; [by apply au_plans|]; split; [done|congruence]). congruence.
    - destruct (pw_plan_ids _ (au_plans _ Ha) p Hp) as (m' & ? & E'). rewrite <-Hid', Hid, E' in Em. apply uuid_inj in Em. lia. }
  exists s, p', k, n. split_and!; try done.
  - rewrite El. by apply head_filter_app.
  - rewrite Er, Hsf. done.
Qed.
Lemma intent_steps d d' r r' e :
  wf d → authorised d → rtc plan_step d d' → r ∈ outbox d → r' ∈ outbox d' → id r' = id r →
  intent_of d r e → authorised d' ∧ intent_of d' r' e.
Proof.
  intros Hwf Ha Hst Hr Hr' Hid Hi. destruct (wf_ids _ Hwf r Hr) as (n & Hn & En).
  assert (authorised d' ∧ ∀ r', r' ∈ outbox d' → id r' = id r → intent_of d' r' e) as [? Hall]; [|by auto]. clear r' Hr' Hid.
  pattern d'. refine (rtc_ind_r _ d _ _ d' Hst).
  - split; [done|]. intros r' Hr' Hid. rewrite (same_id (outbox d) r' r); [done|by destruct Hwf as [[]]|done..].
  - intros d1 d2 H1 Hst2 [Ha1 IH]. split; [by eapply authorised_step|]. intros r2 Hr2 Hid2.
    pose proof (plan_steps_steps _ _ H1) as Hs1. pose proof (plan_step_steps _ _ Hst2) as Hs2.
    pose proof (wf_steps _ _ Hwf Hs1) as Hwf1.
    assert (next_uuid d ≤ next_uuid d1) as Hle.
    { clear -Hs1. induction Hs1 as [|a b c Hab _ IH]; [lia|]. apply step_table in Hab as []; lia. }
    destruct (rows_back d1 d2 r2 n Hs2 Hr2 ltac:(congruence) ltac:(lia)) as (r1 & Hr1 & Hid1).
    eapply (intent_step d1 d2 r1); try done; [|apply IH; congruence].
    apply tr_intent. by eapply rows_tracked.
Qed.
End intent.
Lemma ReadEntitlementIntent_stable `{!Returning, !Uuids} d d' i e r' :
  wf d → authorised d → ReadEntitlementIntent d i = inr e → rtc plan_step d d' → r' ∈ outbox d' → id r' = i →
  ReadEntitlementIntent d' i = inr e.
Proof.
  intros Hwf Ha Hi Hst Hr' Hid.
  assert (∃ r, r ∈ outbox d ∧ id r = i) as (r & Hr & Er).
  { unfold ReadEntitlementIntent in Hi. destruct (head (filter (λ r, id r = i) (outbox d))) as [r|] eqn:E; [|done].
    exists r. assert (r ∈ filter (λ r, id r = i) (outbox d)) as [? ?]%list_elem_of_filter; [|done].
    destruct (filter _ _); [done|]. injection E as ->. left. }
  apply (ReadEntitlementIntent_row d i r e Hwf (au_plans _ Ha) Hr Er) in Hi.
  destruct (intent_steps d d' r r' e Hwf Ha Hst Hr Hr' ltac:(congruence) Hi) as [Ha' Hi'].
  apply (ReadEntitlementIntent_row d' i r' e); try done; [|by apply au_plans].
  eapply wf_steps; [done|]. by apply plan_steps_steps.
Qed.

(** ** Properties *)

(** C30. The gate spends an approval on exactly the work it approved. For a
    target with add-on work, an apply is refused only for a missing citation, an
    unknown or inactive target, or because the plan cannot be claimed; queueing
    never fails after the claim. Accepted, it queues one fresh pending row for
    each subject the plan said would change, in the order of the plan, each
    authorised by that subject's row of the spent plan, and no row for a subject
    said to be unchanged or blocked; the summary adds up, and counts nothing as
    succeeded. *)
Theorem ApplyPlan_spec `{!Uuids} d clock req :
  authorised d → (∀ n, n < next_uuid d → looksLikeUUID (uuid n) = true) → rq_Target req ≠ TargetZitadel →
  match ApplyPlan d clock req with
  | inl e =>
      e = ErrPlanRequired ∧ blank (rq_PlanID req) = true ∨
      e = ErrUnknownTarget ∧ targets d !! rq_Target req = None ∨
      e = ErrInactiveTarget ∧ targets d !! rq_Target req = Some false ∨
      ∃ e', e = plan_refused e' ∧ ClaimPlanTx d (citation_of req) clock = inl e'
  | inr (d', res) =>
      ∃ d1 p subjects rows, ClaimPlanTx d (citation_of req) clock = inr (d1, p, subjects) ∧ tables d' = tables d1 ∧
        outbox d' = outbox d ++ rows ∧ Forall2 (carries_out d' p) (filter wants_apply subjects) rows ∧
        rs_PlanID res = pl_ID p ∧ rs_Target res = rq_Target req ∧ rs_Queued res = queued_as <$> rows ∧
        let m := rs_Summary res in
        sm_Total m = length subjects ∧ sm_Queued m = length rows ∧ sm_Succeeded m = 0 ∧
        sm_Queued m + sm_NoChange m + sm_Blocked m = sm_Total m
  end.
Proof.
  intros Ha Hl Hz. unfold ApplyPlan, LockTargetStateTx. destruct (blank (rq_PlanID req)) eqn:Eb; [by left|].
  destruct (targets d !! rq_Target req) as [[]|] eqn:Et; [|by right; right; left|by right; left].
  destruct (ClaimPlanTx d (citation_of req) clock) as [e|[[d1 p] subjects]] eqn:Ec; [right; right; right; eauto|].
  destruct (claim_queueable d (citation_of req) clock d1 p subjects Ha Hl) as (Hq & Ht & Eo); [|done|].
  { unfold active. simpl. by rewrite Et. }
  set (m0 := {| sm_Total := length subjects |}).
  destruct (queue_subjects_ok p subjects d1 [] m0) as (d' & rows & m & -> & Eo' & Et' & HF & H1 & H2 & H3 & H4);
    [rewrite Ht; done|done|].
  exists d1, p, subjects, rows. simpl in *. rewrite Eo', Eo. split_and!; try done; try lia.
Qed.

#[local] Existing Instance hex_uuids.
Definition demo_request : Request :=
  {| rq_PlanID := ci_PlanID demo_citation; rq_Target := ci_Target demo_citation; rq_Surface := ci_Surface demo_citation;
     rq_Actor := ci_Actor demo_citation; rq_RequestFingerprint := ci_RequestFingerprint demo_citation |}.
Lemma demo_created_authorised : authorised demo_created.
Proof. destruct demo_created_from as [pl E]. by eapply authorised_create, E; apply demo_authorised. Qed.
Lemma ApplyPlan_spec_witness :
  ∃ d' res rows, ApplyPlan demo_created 1000 demo_request = inr (d', res) ∧ outbox d' = rows ∧ length rows = 1 ∧
    sm_Queued (rs_Summary res) = 1.
Proof.
  assert (∀ n, n < next_uuid demo_created → looksLikeUUID (uuid n) = true) as Hl.
  { intros n Hn. apply hex_uuid_shape. change (next_uuid demo_created) with 3 in Hn. lia. }
  pose proof (ApplyPlan_spec demo_created 1000 demo_request demo_created_authorised Hl ltac:(discriminate)) as Hok.
  assert (match ApplyPlan demo_created 1000 demo_request with inr (_, res) => sm_Queued (rs_Summary res) | inl _ => 0 end = 1) as Hone by by vm_compute.
  destruct (ApplyPlan demo_created 1000 demo_request) as [e|[d' res]]; [discriminate Hone|].
  destruct Hok as (d1 & p & subjects & rows & _ & _ & Ho & _ & _ & _ & _ & _ & Hq & _).
  exists d', res, rows. split_and!; [reflexivity|exact Ho|congruence|exact Hone].
Defined.
