(* ===== verification/Policy.v ===== *)
(** * Policy: role mappings, their versions, allowances and a target's project

    backend/internal/db/mappings.go, allowances.go and target_project.go. The
    schema's constraints are part of each statement: a mapping's (target,
    project) must be its target's own, a term is stored in its canonical form
    (the migration's list of space characters is Go's), a mapping's (target,
    project, role, field) and a target's project are unique. A refused statement
    rolls its transaction back. *)

From S2P Require Import Prelude Access Tables Extcall Outbox Lifecycle Plans.

Inductive PolicyError :=
  | ErrMappingInvalid
  | ErrMappingExists
  | ErrMappingNotFound
  | ErrNothingToPublish
  | ErrAllowanceInvalid
  | ErrAllowanceUnbounded
  | ErrAllowanceAdditiveUnsupported
  | ErrAllowanceNotFound
  | ErrAllowanceAlreadyInForce (inForce : Allowance)
  | ErrProjectRequired
  | ErrProjectTaken (holder : string)
  | ErrMappingsExist (count : nat)
  | ErrNoTarget
  | ErrConstraint.             (* a CHECK, UNIQUE or FOREIGN KEY refused the row *)

(** ** Mappings *)
Definition canonical_term (s : string) : bool := TrimSpace s =? s.
Definition mapping_valid (m : RoleMapping) : bool :=
  forallb (λ s, negb (blank s)) [m_Target m; m_ProjectID m; m_RoleKey m; m_Field m; m_Value m].
Definition binds_same (a b : RoleMapping) : bool :=
  (m_Target a =? m_Target b) && (m_ProjectID a =? m_ProjectID b) && (m_RoleKey a =? m_RoleKey b) && (m_Field a =? m_Field b).
(** The composite foreign key: the row's project is its target's. *)
Definition project_fkey (d : Db) (m : RoleMapping) : bool :=
  bool_decide (is_Some (targets d !! m_Target m)) &&
  bool_decide (target_projects (tables d) !! m_Target m = Some (m_ProjectID m)).
Definition mapping_by_id (d : Db) (i : string) : option RoleMapping :=
  head (filter (λ m, m_ID m = i) (mappings (tables d))).
Definition set_mappings (d : Db) (ms : list RoleMapping) : Db :=
  with_tables d (with_mappings (tables d) ms (mapping_versions (tables d))).

Section mappings.
Context `{!Uuids}.

Definition CreateRoleMapping (d : Db) (m : RoleMapping) : PolicyError + (Db * RoleMapping) :=
  if negb (mapping_valid m) then inl ErrMappingInvalid
  else if negb (canonical_term (m_Field m) && canonical_term (m_Value m)) then inl ErrConstraint
  else if existsb (binds_same m) (mappings (tables d)) then inl ErrMappingExists
  else if negb (project_fkey d m) then inl ErrConstraint
  else
    let '(d, i) := mint d in
    let m := {| m_ID := i; m_Target := m_Target m; m_ProjectID := m_ProjectID m; m_RoleKey := m_RoleKey m;
                m_Field := m_Field m; m_Value := m_Value m; m_CreatedBy := m_CreatedBy m; m_UpdatedBy := m_CreatedBy m;
                m_CreatedAt := now d; m_UpdatedAt := now d |} in
    inr (set_mappings d (mappings (tables d) ++ [m]), m).

Definition with_value (m : RoleMapping) (value actor : string) (t : Z) : RoleMapping :=
  {| m_ID := m_ID m; m_Target := m_Target m; m_ProjectID := m_ProjectID m; m_RoleKey := m_RoleKey m;
     m_Field := m_Field m; m_Value := value; m_CreatedBy := m_CreatedBy m; m_UpdatedBy := actor;
     m_CreatedAt := m_CreatedAt m; m_UpdatedAt := t |}.
Definition UpdateRoleMappingValue (d : Db) (i value actor : string) : PolicyError + Db :=
  if blank value then inl ErrMappingInvalid
  else if negb (looksLikeUUID i) then inl ErrMappingNotFound
  else match mapping_by_id d i with
  | None => inl ErrMappingNotFound
  | Some _ =>
      if negb (canonical_term value) then inl ErrConstraint
      else inr (set_mappings d ((λ m, if m_ID m =? i then with_value m value actor (now d) else m) <$> mappings (tables d)))
  end.
Definition DeleteRoleMapping (d : Db) (i : string) : PolicyError + Db :=
  if negb (looksLikeUUID i) then inl ErrMappingNotFound
  else match mapping_by_id d i with
  | None => inl ErrMappingNotFound
  | Some _ => inr (set_mappings d (filter (λ m, m_ID m ≠ i) (mappings (tables d))))
  end.
Definition GetRoleMapping (d : Db) (i : string) : PolicyError + RoleMapping :=
  if negb (looksLikeUUID i) then inl ErrMappingNotFound
  else from_option inr (inl ErrMappingNotFound) (mapping_by_id d i).

(** [ORDER BY target, project_id, role_key, field] *)
Definition mapping_order : RoleMapping → RoleMapping → comparison :=
  cmp_then (cmp_on m_Target String.compare) (cmp_then (cmp_on m_ProjectID String.compare)
    (cmp_then (cmp_on m_RoleKey String.compare) (cmp_on m_Field String.compare))).
Definition ListRoleMappings (d : Db) (tgt : string) : list RoleMapping :=
  stable_sort mapping_order (filter (λ m, tgt = "" ∨ m_Target m = tgt) (mappings (tables d))).
(** The join on (project, role) pairs: a row per role listed. *)
Definition MappingsForRoles (d : Db) (tgt : string) (roles : list RoleRef) : list RoleMapping :=
  stable_sort mapping_order
    (filter (λ m, m_Target m = tgt) (mappings (tables d)) ≫= λ m,
       const m <$> filter (λ r, ref_ProjectID r = m_ProjectID m ∧ ref_RoleKey r = m_RoleKey m) roles).
Definition TargetsMappedToRole (d : Db) (project role : string) : list string :=
  sort_strings (remove_dups (m_Target <$>
    filter (λ m, m_ProjectID m = project ∧ m_RoleKey m = role ∧ active d (m_Target m) = true) (mappings (tables d)))).

(** ** Mapping versions *)
Definition bindingKey (project role field : string) : string := project +:+ NUL +:+ role +:+ NUL +:+ field.
Definition contentKey (project role field value : string) : string := bindingKey project role field +:+ NUL +:+ value.
Definition entry_of (m : RoleMapping) : MappingVersionEntry :=
  {| me_ProjectID := m_ProjectID m; me_RoleKey := m_RoleKey m; me_Field := m_Field m; me_Value := m_Value m |}.
Definition entry_content (e : MappingVersionEntry) : string :=
  contentKey (me_ProjectID e) (me_RoleKey e) (me_Field e) (me_Value e).
Definition entry_binding (e : MappingVersionEntry) : string := bindingKey (me_ProjectID e) (me_RoleKey e) (me_Field e).

Definition count_binding (have : gmap string nat) (m : RoleMapping) : gmap string nat :=
  let k := entry_content (entry_of m) in <[k := S (default 0 (have !! k))]> have.
Fixpoint take_bindings (have : gmap string nat) (snapshot : list MappingVersionEntry) : bool :=
  match snapshot with
  | [] => true
  | e :: snapshot =>
      match default 0 (have !! entry_content e) with
      | 0 => false
      | S n => take_bindings (<[entry_content e := n]> have) snapshot
      end
  end.
Definition sameBindings (live : list RoleMapping) (snapshot : list MappingVersionEntry) : bool :=
  (length live =? length snapshot) && take_bindings (foldl count_binding ∅ live) snapshot.

Definition versions_of (d : Db) (tgt : string) : list MappingVersion :=
  stable_sort (cmp_on (λ v, - mv_Version v)%Z Z.compare) (filter (λ v, mv_Target v = tgt) (mapping_versions (tables d))).
Definition refuseIfUnchanged (d : Db) (tgt : string) : option PolicyError :=
  match versions_of d tgt with
  | [] => None
  | latest :: _ => if sameBindings (ListRoleMappings d tgt) (mv_Entries latest) then Some ErrNothingToPublish else None
  end.
Definition next_version (d : Db) (tgt : string) : Z := foldr Z.max 0%Z (mv_Version <$> versions_of d tgt) + 1.
Definition PublishMappingVersion (d : Db) (tgt note actor : string) : PolicyError + (Db * Z) :=
  match refuseIfUnchanged d tgt with
  | Some e => inl e
  | None =>
      if bool_decide (targets d !! tgt = None) then inl ErrConstraint
      else
        let '(d, i) := mint d in
        let v := {| mv_ID := i; mv_Target := tgt; mv_Version := next_version d tgt; mv_Note := note; mv_PublishedBy := actor;
                    mv_Entries := entry_of <$> filter (λ m, m_Target m = tgt) (mappings (tables d)) |} in
        inr (with_tables d (with_mappings (tables d) (mappings (tables d)) (mapping_versions (tables d) ++ [v])), mv_Version v)
  end.

(** The restoring [INSERT ... SELECT], a row at a time. *)
Definition restored (tgt actor : string) (t : Z) (e : MappingVersionEntry) (i : string) : RoleMapping :=
  {| m_ID := i; m_Target := tgt; m_ProjectID := me_ProjectID e; m_RoleKey := TrimSpace (me_RoleKey e);
     m_Field := TrimSpace (me_Field e); m_Value := TrimSpace (me_Value e); m_CreatedBy := actor; m_UpdatedBy := actor;
     m_CreatedAt := t; m_UpdatedAt := t |}.
Fixpoint restore (d : Db) (tgt actor : string) (entries : list MappingVersionEntry) : PolicyError + Db :=
  match entries with
  | [] => inr d
  | e :: entries =>
      let '(d, i) := mint d in
      let m := restored tgt actor (now d) e i in
      if existsb (binds_same m) (mappings (tables d)) || negb (project_fkey d m) then inl ErrConstraint
      else restore (set_mappings d (mappings (tables d) ++ [m])) tgt actor entries
  end.
Definition RollbackMappingVersion (d : Db) (tgt : string) (version : Z) (actor : string) : PolicyError + Db :=
  match head (filter (λ v, mv_Target v = tgt ∧ mv_Version v = version) (mapping_versions (tables d))) with
  | None => inl ErrMappingNotFound
  | Some v => restore (set_mappings d (filter (λ m, m_Target m ≠ tgt) (mappings (tables d)))) tgt actor (mv_Entries v)
  end.
End mappings.

(** What the working copy changed since a version. *)
Record MappingChange := {
  mc_Kind : string;
  mc_ProjectID : string;
  mc_RoleKey : string;
  mc_Field : string;
  mc_Value : string;
  mc_WasValue : string;
  mc_Actor : string;
  mc_At : option Z;
}.
Definition actorOf (m : RoleMapping) : string := if negb (blank (m_UpdatedBy m)) then m_UpdatedBy m else m_CreatedBy m.
Definition touchedAt (m : RoleMapping) : option Z :=
  let at_ := if IsZero (m_UpdatedAt m) then m_CreatedAt m else m_UpdatedAt m in
  if IsZero at_ then None else Some at_.
Definition live_change (was : gmap string MappingVersionEntry) (m : RoleMapping) : list MappingChange :=
  let change kind prior :=
    {| mc_Kind := kind; mc_ProjectID := m_ProjectID m; mc_RoleKey := m_RoleKey m; mc_Field := m_Field m;
       mc_Value := m_Value m; mc_WasValue := prior; mc_Actor := actorOf m; mc_At := touchedAt m |} in
  match was !! entry_binding (entry_of m) with
  | None => [change "added" ""]
  | Some prior => if me_Value prior <>? m_Value m then [change "changed" (me_Value prior)] else []
  end.
Definition removal (e : MappingVersionEntry) : MappingChange :=
  {| mc_Kind := "removed"; mc_ProjectID := me_ProjectID e; mc_RoleKey := me_RoleKey e; mc_Field := me_Field e;
     mc_Value := ""; mc_WasValue := me_Value e; mc_Actor := ""; mc_At := None |}.
Definition was_of (snapshot : list MappingVersionEntry) : gmap string MappingVersionEntry :=
  foldl (λ m e, <[entry_binding e := e]> m) ∅ snapshot.
Definition classifyMappingChanges (live : list RoleMapping) (snapshot : list MappingVersionEntry) : list MappingChange :=
  let was := was_of snapshot in
  let seen : gset string := list_to_set ((λ m, entry_binding (entry_of m)) <$> live) in
  (live ≫= live_change was) ++ (removal <$> filter (λ e, entry_binding e ∉ seen) snapshot).

Record MappingHistory := {
  mh_CurrentVersion : Z;
  mh_Unpublished : bool;
  mh_Changes : list MappingChange;
  mh_Versions : list MappingVersion;
}.
(** The holder counts beside each change are not modelled. *)
Definition ListMappingHistory (d : Db) (tgt : string) : option MappingHistory :=
  if blank tgt then None
  else
    let live := ListRoleMappings d tgt in
    match versions_of d tgt with
    | [] => Some {| mh_CurrentVersion := 0; mh_Unpublished := (0 <? length live)%nat;
                    mh_Changes := classifyMappingChanges live []; mh_Versions := [] |}
    | (latest :: _) as vs =>
        Some {| mh_CurrentVersion := mv_Version latest; mh_Unpublished := negb (sameBindings live (mv_Entries latest));
                mh_Changes := classifyMappingChanges live (mv_Entries latest); mh_Versions := vs |}
    end.

(** ** A target's project *)
Definition TargetProject (d : Db) (tgt : string) : PolicyError + string :=
  if bool_decide (targets d !! tgt = None) then inl ErrNoTarget
  else inr (default "" (target_projects (tables d) !! tgt)).
Definition RequireTargetProject (d : Db) (tgt : string) : option PolicyError :=
  if tgt =? TargetZitadel then None
  else match TargetProject d tgt with
  | inl e => Some e
  | inr project => if project =? "" then Some ErrProjectRequired else None
  end.
(** The two refusals are the schema's: a project serves one target, and a
    mapping's project is its target's. Writing the project it has changes
    nothing, so it is not refused. *)
Definition SetTargetProject (d : Db) (tgt project : string) : PolicyError + Db :=
  if bool_decide (targets d !! tgt = None) then inl ErrNoTarget
  else
    let ps := target_projects (tables d) in
    match head (filter (λ x : string * string, x.2 = project ∧ x.1 ≠ tgt) (map_to_list ps)) with
    | Some (holder, _) => inl (ErrProjectTaken holder)
    | None =>
        let mapped := filter (λ m, m_Target m = tgt) (mappings (tables d)) in
        if negb (bool_decide (ps !! tgt = Some project)) && (0 <? length mapped)%nat then inl (ErrMappingsExist (length mapped))
        else inr (with_tables d (with_target_projects (tables d) (<[tgt := project]> ps)))
    end.
Definition TargetServingProject (d : Db) (project : string) : option string :=
  fst <$> head (filter (λ x : string * string, x.2 = project ∧ active d x.1 = true) (map_to_list (target_projects (tables d)))).
Definition PendingApplyWants (d : Db) (tgt user : string) (desired : gmap string FieldValue) : bool :=
  existsb (λ r, (op_type r =? op_apply) && (target r =? tgt) && (user_id r =? user) && unresolved r &&
    match (i ← plan_subject_id r; s ← find_subject d i; k ← ps_SnapshotID s;
           head (filter (λ n, sn_ID n = k) (snapshots (tables d)))) with
    | Some n => bool_decide (sn_State n = desired)
    | None => false
    end) (outbox d).

(** ** Allowances *)
Definition InForce (a : Allowance) (t : Z) : bool :=
  if bool_decide (is_Some (al_LiftedAt a)) then false
  else match al_ExpiresAt a with Some e => (t <? e)%Z | None => true end.
Definition ReviewDue (a : Allowance) (t : Z) : bool :=
  InForce a t && match al_ReviewDate a with Some r => negb (t <? r)%Z | None => false end.
Definition bounded (a : Allowance) : bool :=
  bool_decide (is_Some (al_ExpiresAt a)) || bool_decide (is_Some (al_ReviewDate a)).
Definition allowance_refusal (a : Allowance) : option PolicyError :=
  if existsb blank [al_SubjectID a; al_Target a; al_Field a; al_Value a; al_ActorID a; al_Reason a]
  then Some ErrAllowanceInvalid
  else if al_Direction a =? AllowanceSet then if bounded a then None else Some ErrAllowanceUnbounded
  else if al_Direction a =? AllowanceAllow then Some ErrAllowanceAdditiveUnsupported
  else if al_Direction a <>? AllowanceDeny then Some ErrAllowanceInvalid
  else if bounded a then None else Some ErrAllowanceUnbounded.

(** The statements' own predicate: not lifted, and not expired on the
    database's clock. *)
Definition in_force (d : Db) (a : Allowance) : bool :=
  (al_LiftedAt a =? None) && from_option (λ e, now d <? e)%Z true (al_ExpiresAt a).
Definition lift (t : Z) (by_ : string) (a : Allowance) : Allowance :=
  {| al_ID := al_ID a; al_SubjectID := al_SubjectID a; al_Target := al_Target a; al_Field := al_Field a;
     al_Value := al_Value a; al_Direction := al_Direction a; al_ActorID := al_ActorID a; al_Reason := al_Reason a;
     al_CreatedAt := al_CreatedAt a; al_ExpiresAt := al_ExpiresAt a; al_ReviewDate := al_ReviewDate a;
     al_LiftedAt := Some t; al_LiftedBy := Some by_ |}.
Definition set_allowances (d : Db) (l : list Allowance) : Db := with_tables d (with_allowances (tables d) l).
Definition same_field (a b : Allowance) : bool :=
  (al_SubjectID b =? al_SubjectID a) && (al_Target b =? al_Target a) && (al_Field b =? al_Field a).

(** The request, told which row is in force and until when. *)
Definition as_in_force (a b : Allowance) : Allowance :=
  {| al_ID := al_ID b; al_SubjectID := al_SubjectID a; al_Target := al_Target a; al_Field := al_Field a;
     al_Value := al_Value a; al_Direction := al_Direction a; al_ActorID := al_ActorID a; al_Reason := al_Reason a;
     al_CreatedAt := al_CreatedAt a; al_ExpiresAt := al_ExpiresAt b; al_ReviewDate := al_ReviewDate a;
     al_LiftedAt := al_LiftedAt a; al_LiftedBy := al_LiftedBy a |}.

Section allowances.
Context `{!Uuids}.

Definition insert_allowance (d : Db) (a : Allowance) : PolicyError + (Db * Allowance) :=
  if negb (canonical_term (al_Field a) && canonical_term (al_Value a)) || bool_decide (targets d !! al_Target a = None)
  then inl ErrConstraint
  else
    let '(d, i) := mint d in
    let a := {| al_ID := i; al_SubjectID := al_SubjectID a; al_Target := al_Target a; al_Field := al_Field a;
                al_Value := al_Value a; al_Direction := al_Direction a; al_ActorID := al_ActorID a;
                al_Reason := al_Reason a; al_CreatedAt := now d; al_ExpiresAt := al_ExpiresAt a;
                al_ReviewDate := al_ReviewDate a; al_LiftedAt := None; al_LiftedBy := None |} in
    inr (set_allowances d (allowances (tables d) ++ [a]), a).
Definition CreateAllowance (d : Db) (a : Allowance) : PolicyError + (Db * Allowance) :=
  match allowance_refusal a with
  | Some e => inl e
  | None =>
      if al_Direction a =? AllowanceSet then
        insert_allowance (set_allowances d
          ((λ b, if same_field a b && (al_Direction b =? AllowanceSet) && in_force d b then lift (now d) (al_ActorID a) b
                 else b) <$> allowances (tables d))) a
      else
        match head (filter (λ b, (same_field a b && (al_Value b =? al_Value a) && (al_Direction b =? al_Direction a)
                                  && in_force d b) = true) (allowances (tables d))) with
        | Some b => inl (ErrAllowanceAlreadyInForce (as_in_force a b))
        | None => insert_allowance d a
        end
  end.
End allowances.

Definition LiftAllowance (d : Db) (i actor : string) : PolicyError + (Db * string * string) :=
  if negb (looksLikeUUID i) then inl ErrAllowanceNotFound
  else match head (filter (λ a, al_ID a = i ∧ al_LiftedAt a = None) (allowances (tables d))) with
  | None => inl ErrAllowanceNotFound
  | Some a =>
      inr (set_allowances d ((λ b, if (al_ID b =? i) && (al_LiftedAt b =? None) then lift (now d) actor b else b)
             <$> allowances (tables d)), al_SubjectID a, al_Target a)
  end.
Definition AllowancesInForce (d : Db) (subject tgt : string) : list Allowance :=
  stable_sort (cmp_on al_CreatedAt Z.compare)
    (filter (λ a, al_SubjectID a = subject ∧ al_Target a = tgt ∧ in_force d a = true) (allowances (tables d))).
Definition AllowancesInForceOnTargets (d : Db) (tgts : list string) : list Allowance :=
  stable_sort (cmp_then (cmp_on al_SubjectID String.compare) (cmp_on al_CreatedAt Z.compare))
    (filter (λ a, al_Target a ∈ tgts ∧ in_force d a = true) (allowances (tables d))).
Definition AllowancesForSubject (d : Db) (subject : string) : list Allowance :=
  stable_sort (cmp_on (λ a, - al_CreatedAt a)%Z Z.compare) (filter (λ a, al_SubjectID a = subject) (allowances (tables d))).
Definition AllowancesDueForReview (d : Db) : list Allowance :=
  stable_sort (cmp_on (λ a, default 0%Z (al_ReviewDate a)) Z.compare)
    (filter (λ a, (al_Direction a = AllowanceDeny ∨ al_Direction a = AllowanceSet) ∧ in_force d a = true ∧
                  from_option (λ r, r <=? now d)%Z false (al_ReviewDate a) = true) (allowances (tables d))).
Definition lapsed (d : Db) (a : Allowance) : bool :=
  (al_LiftedAt a =? None) && from_option (λ e, e <=? now d)%Z false (al_ExpiresAt a).
Definition LapsedAllowances (d : Db) (limit : Z) : list Allowance :=
  take (Z.to_nat (if (limit <=? 0)%Z then 500%Z else limit))
    (stable_sort (cmp_on (λ a, default 0%Z (al_ExpiresAt a)) Z.compare) (filter (λ a, lapsed d a = true) (allowances (tables d)))).
Definition ResolveLapsedAllowance (d : Db) (i : string) : Db :=
  let hit a := (al_ID a =? i) && lapsed d a in
  with_outbox (set_allowances d ((λ a, if hit a then lift (now d) "expiry_sweep" a else a) <$> allowances (tables d)))
    (outbox d)
    ((λ a, {| a_actor := "system"; a_subject := al_SubjectID a; a_action := "allowance." +:+ al_Target a +:+ ".lapsed";
              a_resource := al_ID a; a_cascade := None; a_details := "" |})
       <$> filter (λ a, hit a = true) (allowances (tables d))).

(** ** The policy invariant *)
Definition binding (m : RoleMapping) : string * string * string * string :=
  (m_Target m, m_ProjectID m, m_RoleKey m, m_Field m).
Definition same_kind (a b : Allowance) : Prop :=
  same_field a b = true ∧ al_Direction a = al_Direction b ∧ (al_Direction a = AllowanceSet ∨ al_Value a = al_Value b).
Record policy_wf `{!Uuids} (d : Db) : Prop := {
  po_bindings : NoDup (binding <$> mappings (tables d));
  po_mappings : ∀ m, m ∈ mappings (tables d) →
    canonical_term (m_Field m) = true ∧ canonical_term (m_Value m) = true ∧ project_fkey d m = true;
  po_versions : NoDup ((λ v, (mv_Target v, mv_Version v)) <$> mapping_versions (tables d));
  po_projects : ∀ t t' p, target_projects (tables d) !! t = Some p → target_projects (tables d) !! t' = Some p → t = t';
  po_allowances : ∀ a, a ∈ allowances (tables d) →
    allowance_refusal a = None ∧ canonical_term (al_Field a) = true ∧ canonical_term (al_Value a) = true ∧
    (al_LiftedAt a = None ↔ al_LiftedBy a = None);
  po_one_in_force : ∀ i j a b, allowances (tables d) !! i = Some a → allowances (tables d) !! j = Some b →
    in_force d a = true → in_force d b = true → same_kind a b → i = j;
}.

Inductive policy_step `{!Uuids} : Db → Db → Prop :=
  | po_create_mapping d m d' m' : CreateRoleMapping d m = inr (d', m') → policy_step d d'
  | po_update_mapping d i value actor d' : UpdateRoleMappingValue d i value actor = inr d' → policy_step d d'
  | po_delete_mapping d i d' : DeleteRoleMapping d i = inr d' → policy_step d d'
  | po_publish d tgt note actor d' v : PublishMappingVersion d tgt note actor = inr (d', v) → policy_step d d'
  | po_rollback d tgt v actor d' : RollbackMappingVersion d tgt v actor = inr d' → policy_step d d'
  | po_set_project d tgt project d' : SetTargetProject d tgt project = inr d' → policy_step d d'
  | po_create_allowance d a d' a' : CreateAllowance d a = inr (d', a') → policy_step d d'
  | po_lift d i actor d' s t : LiftAllowance d i actor = inr (d', s, t) → policy_step d d'
  | po_resolve d i : policy_step d (ResolveLapsedAllowance d i)
  | po_other d d' : (now d ≤ now d')%Z → (∀ t, is_Some (targets d !! t) → is_Some (targets d' !! t)) →
      mappings (tables d') = mappings (tables d) → mapping_versions (tables d') = mapping_versions (tables d) →
      target_projects (tables d') = target_projects (tables d) → allowances (tables d') = allowances (tables d) →
      policy_step d d'.

(** ** Facts: mappings *)
Lemma binds_same_iff a b : binds_same a b = true ↔ binding a = binding b.
Proof.
  unfold binds_same, binding. rewrite !andb_true_iff, !bool_decide_eq_true. split; [|by intros [= -> -> -> ->]].
  intros [[[-> ->] ->] ->]. done.
Qed.
Lemma NoDup_binding_app l m : NoDup (binding <$> l) → existsb (binds_same m) l = false → NoDup (binding <$> l ++ [m]).
Proof.
  intros Hl Hno. rewrite fmap_app. apply NoDup_app. split; [done|]. split; [|apply NoDup_singleton].
  intros k Hk ->%list_elem_of_singleton. apply list_elem_of_fmap in Hk as (m' & E & Hm').
  apply not_true_iff_false in Hno. apply Hno, existsb_elem. exists m'. split; [done|]. by apply binds_same_iff.
Qed.
Lemma project_fkey_ext d d' m :
  (∀ t, is_Some (targets d !! t) → is_Some (targets d' !! t)) →
  target_projects (tables d') !! m_Target m = target_projects (tables d) !! m_Target m →
  project_fkey d m = true → project_fkey d' m = true.
Proof.
  intros Ht Hp. unfold project_fkey. rewrite Hp, !andb_true_iff, !bool_decide_eq_true. naive_solver.
Qed.
Lemma TrimSpace_canonical s : canonical_term (TrimSpace s) = true.
Proof. apply bool_decide_eq_true, TrimSpace_idem. Qed.

(** The part of the invariant the mapping statements touch. *)
Record mappings_wf (d : Db) : Prop := {
  mw_bindings : NoDup (binding <$> mappings (tables d));
  mw_mappings : ∀ m, m ∈ mappings (tables d) →
    canonical_term (m_Field m) = true ∧ canonical_term (m_Value m) = true ∧ project_fkey d m = true;
}.
Lemma mappings_wf_filter d (P : RoleMapping → Prop) `{!∀ m, Decision (P m)} :
  mappings_wf d → mappings_wf (set_mappings d (filter P (mappings (tables d)))).
Proof.
  intros [H1 H2]. split; simpl.
  - eapply sublist_NoDup; [exact H1|]. apply fmap_sublist, sublist_filter.
  - intros m [_ Hm]%list_elem_of_filter. by apply H2.
Qed.
Lemma mappings_wf_insert d m :
  mappings_wf d → existsb (binds_same m) (mappings (tables d)) = false →
  canonical_term (m_Field m) = true → canonical_term (m_Value m) = true → project_fkey d m = true →
  mappings_wf (set_mappings d (mappings (tables d) ++ [m])).
Proof.
  intros [H1 H2] Hno Hf Hv Hp. split; simpl; [by apply NoDup_binding_app|].
  intros m' [Hm'| ->%list_elem_of_singleton]%elem_of_app; [by apply H2|done].
Qed.
Lemma restore_ok `{!Uuids} tgt actor entries d d' :
  mappings_wf d → restore d tgt actor entries = inr d' →
  mappings_wf d' ∧ now d' = now d ∧ targets d' = targets d ∧ allowances (tables d') = allowances (tables d) ∧
  target_projects (tables d') = target_projects (tables d) ∧ mapping_versions (tables d') = mapping_versions (tables d).
Proof.
  revert d; induction entries as [|e entries IH]; intros d Hwf; cbn [restore]; [by intros [= <-]|].
  destruct (mint d) as [d1 i] eqn:Hm. injection Hm as <- <-. destruct (existsb _ _) eqn:Hex; [done|].
  destruct (project_fkey _ _) eqn:Hp; [|done]. cbn [negb orb]. intros E%IH; [destruct E as (? & ? & ? & ? & ? & ?); by split_and!|].
  by apply mappings_wf_insert; simpl; auto using TrimSpace_canonical; destruct Hwf; split.
Qed.

(** ** Facts: allowances *)
Definition kinds_ok (l : list Allowance) : Prop := ∀ a, a ∈ l →
  allowance_refusal a = None ∧ canonical_term (al_Field a) = true ∧ canonical_term (al_Value a) = true ∧
  (al_LiftedAt a = None ↔ al_LiftedBy a = None).
Definition one_in_force (t : Z) (l : list Allowance) : Prop := ∀ i j a b,
  l !! i = Some a → l !! j = Some b → InForce a t = true → InForce b t = true → same_kind a b → i = j.

Lemma in_force_InForce d a : in_force d a = InForce a (now d).
Proof.
  unfold in_force, InForce. by destruct (al_LiftedAt a), (al_ExpiresAt a).
Qed.
Lemma InForce_later a t t' : (t ≤ t')%Z → InForce a t' = true → InForce a t = true.
Proof.
  intros Hle. unfold InForce. case_bool_decide; [done|]. destruct (al_ExpiresAt a) as [e|]; [|done].
  rewrite !Z.ltb_lt. lia.
Qed.
Lemma InForce_lift t t' by_ a : InForce (lift t by_ a) t' = false.
Proof. done. Qed.

(** Lifting some rows keeps both. *)
Lemma kinds_ok_lift t by_ (P : Allowance → bool) l :
  kinds_ok l → kinds_ok ((λ a, if P a then lift t by_ a else a) <$> l).
Proof.
  intros Hl a (a0 & -> & Ha)%list_elem_of_fmap. destruct (Hl a0 Ha) as (? & ? & ? & ?).
  destruct (P a0); [|done]. split_and!; done.
Qed.
Lemma one_in_force_lift t t' by_ (P : Allowance → bool) l :
  one_in_force t' l → one_in_force t' ((λ a, if P a then lift t by_ a else a) <$> l).
Proof.
  intros Hl i j a b. rewrite !list_lookup_fmap, !fmap_Some.
  intros (a0 & Ha & ->) (b0 & Hb & ->). destruct (P a0); [by rewrite InForce_lift|]. destruct (P b0); [by rewrite InForce_lift|].
  eauto.
Qed.
Lemma one_in_force_later t t' l : (t ≤ t')%Z → one_in_force t l → one_in_force t' l.
Proof. intros Hle Hl i j a b Ha Hb Hia Hib. eauto using InForce_later. Qed.
Lemma same_kind_sym a b : same_kind a b → same_kind b a.
Proof.
  unfold same_kind, same_field. rewrite !andb_true_iff, !bool_decide_eq_true.
  intros ([[? ?] ?] & ? & Hv). split_and!; try congruence. destruct Hv; [left|right]; congruence.
Qed.
(** A row of a kind none in force has may be added. *)
Lemma one_in_force_insert t l a :
  one_in_force t l → (∀ b, b ∈ l → InForce b t = true → ¬ same_kind a b) → one_in_force t (l ++ [a]).
Proof.
  intros Hl Hno i j x y Hx Hy Hix Hiy Hk.
  apply lookup_app_Some in Hx as [Hx|[Hlx Hx]]; apply lookup_app_Some in Hy as [Hy|[Hly Hy]].
  - eauto.
  - apply list_lookup_singleton_Some in Hy as [_ <-]. exfalso.
    eapply Hno; [by eapply list_elem_of_lookup_2|done|by apply same_kind_sym].
  - apply list_lookup_singleton_Some in Hx as [_ <-]. exfalso. by eapply Hno; [eapply list_elem_of_lookup_2| |].
  - apply list_lookup_singleton_Some in Hx as [? _]. apply list_lookup_singleton_Some in Hy as [? _]. lia.
Qed.

Lemma insert_allowance_ok `{!Uuids} d a d' a' :
  insert_allowance d a = inr (d', a') → allowance_refusal a = None → kinds_ok (allowances (tables d)) →
  (now d' = now d ∧ targets d' = targets d ∧ mappings (tables d') = mappings (tables d) ∧
   mapping_versions (tables d') = mapping_versions (tables d) ∧ target_projects (tables d') = target_projects (tables d)) ∧
  allowances (tables d') = allowances (tables d) ++ [a'] ∧ kinds_ok (allowances (tables d')) ∧
  (∀ b, same_kind a' b ↔ same_kind a b) ∧ al_SubjectID a' = al_SubjectID a ∧ al_Target a' = al_Target a ∧
  al_Field a' = al_Field a ∧ al_Value a' = al_Value a ∧ al_Direction a' = al_Direction a ∧
  al_ExpiresAt a' = al_ExpiresAt a ∧ al_LiftedAt a' = None ∧ al_ID a' = uuid (next_uuid d).
Proof.
  unfold insert_allowance. destruct (canonical_term (al_Field a)) eqn:Hf; [|done].
  destruct (canonical_term (al_Value a)) eqn:Hv; [|done]. case_bool_decide; [done|]. cbn [negb orb andb mint].
  intros [= <- <-] Hr Hk. split_and!; try done. intros b. simpl. rewrite elem_of_app, list_elem_of_singleton.
  intros [Hb| ->]; [by apply Hk|]. by split_and!.
Qed.
Lemma CreateAllowance_ok `{!Uuids} d a d' a' :
  kinds_ok (allowances (tables d)) → one_in_force (now d) (allowances (tables d)) →
  CreateAllowance d a = inr (d', a') →
  (now d' = now d ∧ targets d' = targets d ∧ mappings (tables d') = mappings (tables d) ∧
   mapping_versions (tables d') = mapping_versions (tables d) ∧ target_projects (tables d') = target_projects (tables d)) ∧
  kinds_ok (allowances (tables d')) ∧ one_in_force (now d') (allowances (tables d')).
Proof.
  intros Hk Ho. unfold CreateAllowance. destruct (allowance_refusal a) eqn:Hr; [done|].
  case_bool_decide as Hset.
  - intros E. apply insert_allowance_ok in E as ((En & Et & Em & Ev & Ep) & Ea & Hk' & Hkind & _);
      [|done|by apply kinds_ok_lift]. split; [by split_and!|]. split; [done|]. rewrite Ea, En. cbn in *.
    apply one_in_force_insert; [by apply one_in_force_lift|].
    intros b Hb Hf. apply list_elem_of_fmap in Hb as (b0 & -> & Hb0). revert Hf.
    destruct (same_field a b0 && _ && _) eqn:Hc; [by rewrite InForce_lift|].
    intros Hf (Hs & Hdir & _)%Hkind. rewrite Hs, in_force_InForce, Hf, <-Hdir in Hc. by rewrite bool_decide_eq_true_2 in Hc.
  - destruct (head _) eqn:Hh; [done|]. intros E.
    apply insert_allowance_ok in E as ((En & Et & Em & Ev & Ep) & Ea & Hk' & Hkind & _); [|done..].
    split; [by split_and!|]. split; [done|]. rewrite Ea, En. apply one_in_force_insert; [done|].
    intros b Hb Hf (Hs & Hdir & Hval)%Hkind. destruct Hval as [?|Hval]; [done|].
    apply head_None in Hh. eapply filter_nil_not_elem_of; [exact Hh| |exact Hb].
    cbn beta. by rewrite Hs, Hdir, Hval, in_force_InForce, Hf, !bool_decide_eq_true_2.
Qed.

(** ** Facts: every statement keeps the policy well formed *)
Lemma policy_wf_iff `{!Uuids} d :
  policy_wf d ↔
  mappings_wf d ∧ NoDup ((λ v, (mv_Target v, mv_Version v)) <$> mapping_versions (tables d)) ∧
  (∀ t t' p, target_projects (tables d) !! t = Some p → target_projects (tables d) !! t' = Some p → t = t') ∧
  kinds_ok (allowances (tables d)) ∧ one_in_force (now d) (allowances (tables d)).
Proof.
  split.
  - intros [H1 H2 H3 H4 H5 H6]. split_and!; try done. intros i j a b. rewrite <-!in_force_InForce. apply H6.
  - intros ([H1 H2] & H3 & H4 & H5 & H6). split; try done. intros i j a b. rewrite !in_force_InForce. apply H6.
Qed.
Lemma mappings_wf_ext d d' :
  (∀ t, is_Some (targets d !! t) → is_Some (targets d' !! t)) → mappings (tables d') = mappings (tables d) →
  target_projects (tables d') = target_projects (tables d) → mappings_wf d → mappings_wf d'.
Proof.
  intros Ht Em Ep [H1 H2]. split; rewrite Em; [done|]. intros m Hm. destruct (H2 m Hm) as (? & ? & ?).
  split_and!; [done..|]. eapply project_fkey_ext; [exact Ht| |done]. by rewrite Ep.
Qed.
Lemma next_version_above d tgt v : v ∈ mapping_versions (tables d) → mv_Target v = tgt → (mv_Version v < next_version d tgt)%Z.
Proof.
  intros Hv Ht. unfold next_version. assert (v ∈ versions_of d tgt) as Hin.
  { unfold versions_of. by rewrite stable_sort_elem, list_elem_of_filter. }
  clear Hv. induction Hin as [v l|v w l _ IH]; csimpl; [lia|]. specialize (IH Ht). lia.
Qed.
Lemma UpdateRoleMappingValue_ok d i value actor d' :
  mappings_wf d → UpdateRoleMappingValue d i value actor = inr d' →
  ∃ ms, d' = set_mappings d ms ∧ mappings_wf d'.
Proof.
  intros [H1 H2]. unfold UpdateRoleMappingValue. destruct (blank value); [done|]. destruct (looksLikeUUID i); [|done].
  destruct (mapping_by_id d i); [|done]. destruct (canonical_term value) eqn:Hv; [|done]. cbn [negb]. intros [= <-].
  eexists. split; [done|]. split; simpl.
  - rewrite <-list_fmap_compose. erewrite list_fmap_ext; [exact H1|]. intros k m _. simpl. by case_bool_decide.
  - intros m (m0 & -> & Hm0)%list_elem_of_fmap. destruct (H2 m0 Hm0) as (? & ? & ?). case_bool_decide; [|done].
    split_and!; done.
Qed.
Lemma SetTargetProject_ok d tgt project d' :
  SetTargetProject d tgt project = inr d' →
  d' = with_tables d (with_target_projects (tables d) (<[tgt := project]> (target_projects (tables d)))) ∧
  (∀ t, target_projects (tables d) !! t = Some project → t = tgt) ∧
  ∀ m, m ∈ mappings (tables d) → m_Target m = tgt → target_projects (tables d) !! tgt = Some project.
Proof.
  unfold SetTargetProject. case_bool_decide; [done|]. destruct (head _) as [[h ?]|] eqn:Hh; [done|].
  apply head_None in Hh. destruct (negb _ && _) eqn:Hc; [done|]. intros [= <-]. split; [done|]. split.
  - intros t Ht. destruct (decide (t = tgt)) as [|Hne]; [done|exfalso].
    eapply (filter_nil_not_elem_of (λ x : string * string, x.2 = project ∧ x.1 ≠ tgt) _ (t, project)); [exact Hh|done|].
    by apply elem_of_map_to_list.
  - intros m Hm Et. apply andb_false_iff in Hc as [Hc|Hc].
    + by apply negb_false_iff, bool_decide_eq_true in Hc.
    + exfalso. apply Nat.ltb_ge in Hc. assert (m ∈ filter (λ m, m_Target m = tgt) (mappings (tables d))) as Hin
        by (by apply list_elem_of_filter).
      destruct (filter (λ m, m_Target m = tgt) _); [by apply elem_of_nil in Hin|simpl in Hc; lia].
Qed.

Lemma policy_wf_step `{!Uuids} d d' : policy_wf d → policy_step d d' → policy_wf d'.
Proof.
  intros Hd Hs. apply policy_wf_iff. apply policy_wf_iff in Hd as (Hm & Hv & Hp & Hk & Ho).
  destruct Hs as [d m d' m' E|d i value actor d' E|d i d' E|d tgt note actor d' v E|d tgt v actor d' E|d tgt project d' E
    |d a d' a' E|d i actor d' s t E|d i|d d' Hn Ht Em Ev Ep Ea].
  - unfold CreateRoleMapping in E. destruct (mapping_valid m); [|done].
    destruct (canonical_term (m_Field m)) eqn:Hcf; [|done]. destruct (canonical_term (m_Value m)) eqn:Hcv; [|done].
    destruct (existsb _ _) eqn:Hex; [done|]. destruct (project_fkey d m) eqn:Hf; [|done]. cbn [negb andb mint] in E.
    injection E as <- <-. split_and!; try done. apply (mappings_wf_insert (mint d).1); try done.
    by apply (mappings_wf_ext d).
  - apply UpdateRoleMappingValue_ok in E as (ms & -> & Hm'); [|done]. by split_and!.
  - unfold DeleteRoleMapping in E. destruct (looksLikeUUID i); [|done]. destruct (mapping_by_id d i); [|done].
    injection E as <-. split_and!; try done. by apply mappings_wf_filter.
  - unfold PublishMappingVersion in E. destruct (refuseIfUnchanged d tgt); [done|]. case_bool_decide; [done|].
    cbn [mint] in E. injection E as <- <-. split_and!; try done; [by apply (mappings_wf_ext d)|]. simpl.
    rewrite fmap_app. apply NoDup_app. split; [done|]. split; [|apply NoDup_singleton].
    intros x Hx ->%list_elem_of_singleton. apply list_elem_of_fmap in Hx as (w & [= Et Ew] & Hw).
    pose proof (next_version_above d tgt w Hw (eq_sym Et)) as Hlt. change (next_version _ tgt) with (next_version d tgt) in Ew. lia.
  - unfold RollbackMappingVersion in E. destruct (head _) as [w|]; [|done].
    apply restore_ok in E as (Hm' & En & Et & Ea & Ep & Ev); [|by apply mappings_wf_filter].
    simpl in *. rewrite Ev, Ep, Ea, En. by split_and!.
  - apply SetTargetProject_ok in E as (-> & Hu & Hmap). split_and!; try done.
    + destruct Hm as [H1 H2]. split; [done|]. intros m Hin. simpl in Hin. destruct (H2 m Hin) as (? & ? & Hf).
      split_and!; [done..|]. apply (project_fkey_ext d); [done| |exact Hf]. simpl.
      destruct (decide (m_Target m = tgt)) as [E|]; [|by rewrite lookup_insert_ne].
      rewrite E, lookup_insert_eq. symmetry. by eapply Hmap.
    + simpl. intros t t' p. rewrite !lookup_insert_Some. naive_solver.
  - apply CreateAllowance_ok in E as ((En & Et & Em & Ev & Ep) & Hk' & Ho'); [|done..].
    rewrite Ev, Ep. split_and!; try done. apply (mappings_wf_ext d); try done. by rewrite Et.
  - unfold LiftAllowance in E. destruct (looksLikeUUID i); [|done]. destruct (head _) as [a|]; [|done].
    injection E as <- <- <-. split_and!; try done; [by apply (mappings_wf_ext d)|by apply kinds_ok_lift|by apply one_in_force_lift].
  - split_and!; try done; simpl; [by apply (mappings_wf_ext d)|by apply kinds_ok_lift|by apply one_in_force_lift].
  - rewrite Ev, Ep, Ea. split_and!; try done; [by apply (mappings_wf_ext d)|by apply (one_in_force_later (now d))].
Qed.

(** ** Facts: restoring a version *)
Definition canonical_entry (e : MappingVersionEntry) : Prop :=
  TrimSpace (me_RoleKey e) = me_RoleKey e ∧ TrimSpace (me_Field e) = me_Field e ∧ TrimSpace (me_Value e) = me_Value e.
Definition entry_at (tgt : string) (e : MappingVersionEntry) : string * string * string * string :=
  (tgt, me_ProjectID e, me_RoleKey e, me_Field e).
Lemma restored_entry tgt actor t e i :
  canonical_entry e → entry_of (restored tgt actor t e i) = e ∧ binding (restored tgt actor t e i) = entry_at tgt e.
Proof. intros (H1 & H2 & H3). unfold entry_of, binding, entry_at. destruct e; simpl in *. by rewrite H1, H2, H3. Qed.

Lemma restore_total `{!Uuids} tgt actor entries d :
  Forall canonical_entry entries → NoDup ((binding <$> mappings (tables d)) ++ (entry_at tgt <$> entries)) →
  is_Some (targets d !! tgt) → Forall (λ e, target_projects (tables d) !! tgt = Some (me_ProjectID e)) entries →
  ∃ d' new, restore d tgt actor entries = inr d' ∧ mappings (tables d') = mappings (tables d) ++ new ∧
    entry_of <$> new = entries ∧ Forall (λ m, m_Target m = tgt) new.
Proof.
  revert d; induction entries as [|e entries IH]; intros d Hc Hnd Ht Hp; cbn [restore].
  { exists d, []. rewrite app_nil_r. split_and!; auto. }
  apply Forall_cons in Hc as [He Hc]. apply Forall_cons in Hp as [Hpe Hp].
  destruct (mint d) as [d1 i] eqn:Hm. injection Hm as <- <-. set (d1 := {| now := now d |}).
  destruct (restored_entry tgt actor (now d1) e (uuid (next_uuid d)) He) as [Hent Hb].
  set (m := restored _ _ _ _ _) in *.
  assert (existsb (binds_same m) (mappings (tables d1)) = false) as ->.
  { apply not_true_iff_false. rewrite existsb_elem. intros (m' & Hm' & E%binds_same_iff).
    apply NoDup_app in Hnd as (_ & Hno & _). apply (Hno (binding m')); [by apply list_elem_of_fmap_2|].
    rewrite <-E, Hb. csimpl. left. }
  assert (project_fkey d1 m = true) as ->.
  { unfold project_fkey. simpl. by rewrite !bool_decide_eq_true_2. }
  cbn [negb orb]. destruct (IH (set_mappings d1 (mappings (tables d1) ++ [m]))) as (d' & new & E & Em & Ee & HF); try done.
  { simpl. rewrite fmap_app, <-(assoc_L (++)). csimpl. by rewrite Hb. }
  exists d', (m :: new). split_and!; [exact E| | |by constructor].
  - rewrite Em. simpl. by rewrite <-(assoc_L (++)).
  - csimpl. by rewrite Hent, Ee.
Qed.

Lemma PublishMappingVersion_ok `{!Uuids} d tgt note actor d1 v :
  PublishMappingVersion d tgt note actor = inr (d1, v) →
  ∃ w, w ∈ mapping_versions (tables d1) ∧ mv_Target w = tgt ∧ mv_Version w = v ∧
    mv_Entries w = entry_of <$> filter (λ m, m_Target m = tgt) (mappings (tables d)) ∧
    target_projects (tables d1) = target_projects (tables d).
Proof.
  unfold PublishMappingVersion. destruct (refuseIfUnchanged d tgt); [done|]. case_bool_decide; [done|]. cbn [mint].
  intros [= <- <-]. eexists. simpl. split; [apply elem_of_app; right; by apply list_elem_of_singleton|done].
Qed.
Lemma find_version d tgt v w :
  NoDup ((λ v, (mv_Target v, mv_Version v)) <$> mapping_versions (tables d)) → w ∈ mapping_versions (tables d) →
  mv_Target w = tgt → mv_Version w = v →
  head (filter (λ v', mv_Target v' = tgt ∧ mv_Version v' = v) (mapping_versions (tables d))) = Some w.
Proof.
  intros Hnd Hw Et Ev. rewrite (list_filter_iff _ (λ v', (mv_Target v', mv_Version v') = (tgt, v))).
  - apply head_filter_key; [done|]. by rewrite Et, Ev.
  - intros x. split; [by intros [-> ->]|by intros [= -> ->]].
Qed.

(** ** Facts: comparing a working copy with a version *)
Definition entry_ok (e : MappingVersionEntry) : Prop :=
  nul_free (me_ProjectID e) ∧ nul_free (me_RoleKey e) ∧ nul_free (me_Field e).
Definition entry_triple (e : MappingVersionEntry) : string * string * string := (me_ProjectID e, me_RoleKey e, me_Field e).
Lemma entry_binding_inj e f : entry_ok e → entry_ok f → entry_binding e = entry_binding f → entry_triple e = entry_triple f.
Proof.
  intros (H1 & H2 & _) (H3 & H4 & _) [E1 E]%nul_split; [|done..]. apply nul_split in E as [E2 E3]; [|done..].
  unfold entry_triple. congruence.
Qed.
Lemma entry_content_inj e f : entry_ok e → entry_ok f → entry_content e = entry_content f → e = f.
Proof.
  intros (H1 & H2 & H3) (H4 & H5 & H6). unfold entry_content, contentKey, bindingKey. rewrite !string_app_assoc.
  intros [E1 E]%nul_split; [|done..]. apply nul_split in E as [E2 E]; [|done..].
  apply nul_split in E as [E3 E4]; [|done..]. destruct e, f; simpl in *. congruence.
Qed.

(** The counting loop decides inclusion of multisets. *)
Definition counts (have : gmap string nat) (l : list string) : Prop :=
  ∀ k, default 0 (have !! k) = length (filter (λ x, x = k) l).
Lemma counts_bindings live have l :
  counts have l → counts (foldl count_binding have live) (l ++ (entry_content ∘ entry_of <$> live)).
Proof.
  revert have l; induction live as [|m live IH]; intros have l Hc; csimpl; [by rewrite app_nil_r|].
  rewrite cons_middle, (assoc_L (++)). apply IH. intros k. unfold count_binding.
  rewrite filter_app, length_app. destruct (decide (entry_content (entry_of m) = k)) as [<-|Hne].
  - rewrite lookup_insert_eq, filter_cons_True by done. simpl. rewrite Hc. lia.
  - rewrite lookup_insert_ne, filter_cons_False by done. simpl. rewrite Hc. lia.
Qed.
Lemma take_bindings_iff snapshot have l :
  counts have l → take_bindings have snapshot = true ↔ (entry_content <$> snapshot) ⊆+ l.
Proof.
  revert have l; induction snapshot as [|e snapshot IH]; intros have l Hc; csimpl.
  { split; [intros _; apply submseteq_nil_l|done]. }
  pose proof (Hc (entry_content e)) as Hn. destruct (default 0 _) as [|n] eqn:E.
  - split; [done|]. intros Hs. exfalso. assert (entry_content e ∈ l) as Hin by (eapply elem_of_submseteq; [|exact Hs]; left).
    destruct (filter _ l) eqn:Ef; [|done]. by eapply (filter_nil_not_elem_of (λ x, x = entry_content e)).
  - assert (entry_content e ∈ l) as [l' Hl]%elem_of_Permutation.
    { destruct (filter _ l) as [|x xs] eqn:Ef; [done|]. assert (x ∈ filter (λ x, x = entry_content e) l) as Hx by (rewrite Ef; left).
      by apply list_elem_of_filter in Hx as [-> ?]. }
    rewrite Hl, (IH _ l'); [split; [apply submseteq_skip|apply (submseteq_app_inv_l _ _ [_])]|]. intros k. specialize (Hc k). rewrite Hl in Hc.
    destruct (decide (entry_content e = k)) as [<-|Hne].
    + rewrite lookup_insert_eq. rewrite filter_cons_True in Hc by done. rewrite E in Hc. simpl in *. lia.
    + rewrite lookup_insert_ne by done. by rewrite filter_cons_False in Hc by done.
Qed.
Lemma sameBindings_iff live snapshot :
  sameBindings live snapshot = true ↔ (entry_content <$> snapshot) ≡ₚ (entry_content ∘ entry_of <$> live).
Proof.
  unfold sameBindings. rewrite andb_true_iff, bool_decide_eq_true.
  rewrite (take_bindings_iff _ _ ([] ++ (entry_content ∘ entry_of <$> live))).
  2: { apply counts_bindings. intros k. by rewrite lookup_empty. }
  simpl. split.
  - intros [Hl Hs]. apply submseteq_length_Permutation; [done|]. rewrite !length_fmap. lia.
  - intros Hp. split; [|by rewrite Hp]. apply Permutation_length in Hp. by rewrite !length_fmap in Hp.
Qed.

(** The map the changes are read against holds the snapshot's own entries. *)
Lemma was_lookup snapshot e :
  Forall entry_ok snapshot → NoDup (entry_triple <$> snapshot) → entry_ok e →
  ∀ f, was_of snapshot !! entry_binding e = Some f ↔
       f ∈ snapshot ∧ entry_triple f = entry_triple e.
Proof.
  intros Hok Hnd He f. unfold was_of. set (b := λ (m : gmap string MappingVersionEntry) e, <[entry_binding e := e]> m).
  assert (Hfold : ∀ l m, Forall entry_ok l → NoDup (entry_triple <$> l) → foldl b m l !! entry_binding e = Some f ↔
    (f ∈ l ∧ entry_triple f = entry_triple e) ∨
    (m !! entry_binding e = Some f ∧ ∀ g, g ∈ l → entry_triple g ≠ entry_triple e)).
  { intros l. induction l as [|x l IH]; intros m Hl Hn; csimpl in *.
    { split; [intros; right; split; [done|]; by intros g ?%elem_of_nil|by intros [[?%elem_of_nil _]|[? _]]]. }
    apply Forall_cons in Hl as [Hx Hl]. apply NoDup_cons in Hn as [Hni Hn]. rewrite IH by done. unfold b.
    setoid_rewrite elem_of_cons. destruct (decide (entry_binding x = entry_binding e)) as [E|Hne].
    - rewrite E, lookup_insert_eq. apply entry_binding_inj in E; [|done..].
      assert (∀ g, g ∈ l → entry_triple g ≠ entry_triple e).
      { intros g Hg Eg. apply Hni. rewrite E, <-Eg. by apply list_elem_of_fmap_2. }
      split; [intros [[? ?]|[[= <-] _]]; left; auto|].
      intros [[[->|Hf] Ef]|[_ Hno]]; [by right|by left|]. destruct (Hno x); auto.
    - rewrite lookup_insert_ne by done. assert (entry_triple x ≠ entry_triple e) as Hne'.
      { intros Et. apply Hne. unfold entry_triple in Et. injection Et as E1 E2 E3. unfold entry_binding. by rewrite E1, E2, E3. }
      split.
      + intros [[? ?]|[? Hno]]; [left; auto|right]. split; [done|]. intros g [->|?]; auto.
      + intros [[[->|?] ?]|[? Hno]]; [done|left; auto|right; split; auto]. }
  rewrite Hfold by done. rewrite lookup_empty. split; [by intros [?|[? _]]|by left].
Qed.

Lemma classify_nil_iff live snapshot :
  Forall entry_ok snapshot → NoDup (entry_triple <$> snapshot) → Forall (entry_ok ∘ entry_of) live →
  classifyMappingChanges live snapshot = [] ↔
  (∀ m, m ∈ live → entry_of m ∈ snapshot) ∧ (∀ e, e ∈ snapshot → ∃ m, m ∈ live ∧ entry_triple (entry_of m) = entry_triple e).
Proof.
  intros Hs Hn Hl. rewrite Forall_forall in Hl. unfold classifyMappingChanges. set (was := was_of snapshot).
  assert (Hwas : ∀ m, m ∈ live → live_change was m = [] ↔ entry_of m ∈ snapshot).
  { intros m Hm. pose proof (was_lookup snapshot (entry_of m) Hs Hn (Hl m Hm)) as Hw. fold was in Hw.
    unfold live_change. destruct (was !! _) as [f|] eqn:E.
    - destruct (proj1 (Hw f) eq_refl) as [Hf Ht]. case_bool_decide as Hv; simpl.
      + split; [intros _|done]. assert (entry_of m = f) as ->; [|done].
        destruct f; unfold entry_of, entry_triple in *; simpl in *. congruence.
      + split; [done|]. intros Hin. exfalso. apply Hv.
        assert (Some f = Some (entry_of m)) as [= ->] by (by apply Hw). done.
    - split; [done|]. intros Hin. by assert (None = Some (entry_of m)) by (by apply Hw). }
  assert (Hbind : (live ≫= live_change was) = [] ↔ ∀ m, m ∈ live → live_change was m = []).
  { clear Hwas Hl. induction live as [|m l IH]; csimpl; [split; [by intros _ m ?%elem_of_nil|done]|].
    setoid_rewrite elem_of_cons. split.
    - intros [Hm Hr]%app_eq_nil. rewrite IH in Hr. intros x [->|]; auto.
    - intros H. rewrite H by auto. apply IH. auto. }
  assert (Hrem : removal <$> filter (λ e, entry_binding e ∉ (list_to_set ((λ m, entry_binding (entry_of m)) <$> live) : gset string)) snapshot = []
    ↔ ∀ e, e ∈ snapshot → ∃ m, m ∈ live ∧ entry_triple (entry_of m) = entry_triple e).
  { rewrite Forall_forall in Hs. split.
    - intros E%fmap_nil_inv e He.  destruct (decide (entry_binding e ∈ (list_to_set ((λ m, entry_binding (entry_of m)) <$> live) : gset string))) as [Hin|Hni].
      + apply elem_of_list_to_set, list_elem_of_fmap in Hin as (m & Eb & Hm). exists m. split; [done|].
        symmetry. apply entry_binding_inj; auto. by apply (Hl m).
      + by destruct (filter_nil_not_elem_of _ _ _ E Hni).
    - intros Hall. rewrite filter_none; [done|]. intros e He Hni. destruct (Hall e He) as (m & Hm & Et). apply Hni.
      apply elem_of_list_to_set, list_elem_of_fmap. exists m. split; [|done].
      unfold entry_triple in Et. injection Et as E1 E2 E3. unfold entry_binding. simpl. by rewrite <-E1, <-E2, <-E3. }
  rewrite app_nil, Hbind, Hrem. apply and_iff_compat_r. split; intros H m Hm; apply Hwas; auto.
Qed.

(** ** Properties *)

(** Policy rows never contradict each other. Whatever sequence of mapping
    edits, publishes, rollbacks, project changes, holds created, lifted and
    swept runs, from tables with none: one binding per (target, project, role,
    field), every stored term canonical, every mapping in its target's own
    project, a project serving one target, one version per number; every
    allowance complete, bounded and either a hold or one person's own value; and
    at most one in force of each kind, one value per field. *)
Theorem policy_invariant `{!Uuids} d0 d :
  mappings (tables d0) = [] → mapping_versions (tables d0) = [] → target_projects (tables d0) = ∅ →
  allowances (tables d0) = [] → rtc policy_step d0 d → policy_wf d.
Proof.
  intros Em Ev Ep Ea Hs. assert (policy_wf d0) as Hd0.
  { split; rewrite ?Em, ?Ev, ?Ep, ?Ea; csimpl; try apply NoDup_nil_2; try (by intros ? ?%elem_of_nil).
    - intros t t' p. by rewrite lookup_empty.
    - by intros i j a b []. }
  clear Em Ev Ep Ea. induction Hs; eauto using policy_wf_step.
Qed.

(** Rolling back restores what was published. After any edits in between
    (the target keeping its project), rolling a target back to a version gives
    it exactly the bindings it had when that version was published, in order,
    and leaves every other target's alone; it never fails. Role keys must be
    stored trimmed, which the schema checks for fields and values only. *)
Theorem rollback_restores `{!Uuids} d tgt note actor d1 v d2 actor2 :
  policy_wf d → PublishMappingVersion d tgt note actor = inr (d1, v) →
  (∀ m, m ∈ mappings (tables d) → m_Target m = tgt → TrimSpace (m_RoleKey m) = m_RoleKey m) →
  policy_wf d2 → (∀ w, w ∈ mapping_versions (tables d1) → w ∈ mapping_versions (tables d2)) →
  is_Some (targets d2 !! tgt) → target_projects (tables d2) !! tgt = target_projects (tables d1) !! tgt →
  ∃ d3, RollbackMappingVersion d2 tgt v actor2 = inr d3 ∧
    entry_of <$> filter (λ m, m_Target m = tgt) (mappings (tables d3)) =
    entry_of <$> filter (λ m, m_Target m = tgt) (mappings (tables d)) ∧
    filter (λ m, m_Target m ≠ tgt) (mappings (tables d3)) = filter (λ m, m_Target m ≠ tgt) (mappings (tables d2)).
Proof.
  intros Hd E Hk Hd2 Hkeep Ht Hp. apply PublishMappingVersion_ok in E as (w & Hw & Et & Ev & Ee & Ep).
  unfold RollbackMappingVersion. rewrite (find_version d2 tgt v w) by (done || apply Hd2 || auto).
  set (d2' := set_mappings d2 _). destruct (restore_total tgt actor2 (mv_Entries w) d2') as (d3 & new & E & Em & En & HF).
  - rewrite Ee. apply Forall_fmap, Forall_forall. intros m [Emt Hm]%list_elem_of_filter.
    destruct (po_mappings _ Hd m Hm) as (Hf & Hv & _). apply bool_decide_eq_true in Hf, Hv. split_and!; simpl; auto.
  - rewrite Ee. simpl. apply NoDup_app. split_and!.
    + eapply sublist_NoDup; [apply (po_bindings _ Hd2)|]. apply fmap_sublist, sublist_filter.
    + intros b (m & -> & [Hne _]%list_elem_of_filter)%list_elem_of_fmap Hb.
      rewrite <-list_fmap_compose in Hb. apply list_elem_of_fmap in Hb as (m' & [= Eb _ _ _] & _). done.
    + rewrite <-list_fmap_compose.
      rewrite (list_fmap_ext (entry_at tgt ∘ entry_of) binding); [|intros i m Hi].
      * eapply sublist_NoDup; [apply (po_bindings _ Hd)|]. apply fmap_sublist, sublist_filter.
      * apply list_elem_of_lookup_2, list_elem_of_filter in Hi as [Emt _]. unfold binding. by rewrite Emt.
  - done.
  - rewrite Ee. apply Forall_fmap, Forall_forall. intros m [Emt Hm]%list_elem_of_filter.
    destruct (po_mappings _ Hd m Hm) as (_ & _ & Hf). unfold project_fkey in Hf.
    rewrite andb_true_iff, !bool_decide_eq_true in Hf. simpl. rewrite Hp, Ep, <-Emt. apply Hf.
  - exists d3. split; [done|]. rewrite Em, !filter_app. simpl. rewrite Forall_forall in HF. split.
    + rewrite filter_none by (by intros m [? _]%list_elem_of_filter). simpl. rewrite filter_every by done.
      by rewrite En, Ee.
    + rewrite (filter_none _ new) by (intros m Hm; rewrite (HF m Hm); tauto). rewrite app_nil_r.
      rewrite filter_every; [done|]. by intros m [? _]%list_elem_of_filter.
Qed.

(** "Something to publish" and "what changed" agree: for a working copy and
    a version with one binding per (project, role, field), stored texts holding
    no NUL, the content comparison says they match exactly when the list of
    changes is empty, and exactly when they hold the same bindings. *)
Theorem nothing_changed_iff_same live snapshot :
  Forall (entry_ok ∘ entry_of) live → Forall entry_ok snapshot →
  NoDup (entry_triple ∘ entry_of <$> live) → NoDup (entry_triple <$> snapshot) →
  (sameBindings live snapshot = true ↔ classifyMappingChanges live snapshot = []) ∧
  (sameBindings live snapshot = true ↔ (entry_of <$> live) ≡ₚ snapshot).
Proof.
  intros Hl Hs Hnl Hns. rewrite classify_nil_iff by done.
  rewrite Forall_forall in Hl. rewrite Forall_forall in Hs.
  assert (Hperm : sameBindings live snapshot = true ↔ (entry_of <$> live) ≡ₚ snapshot).
  { rewrite sameBindings_iff, list_fmap_compose. split; [|intros ->; done]. intros Hp.
    rewrite list_fmap_compose in Hnl. apply NoDup_Permutation; [by eapply NoDup_fmap_1|by eapply NoDup_fmap_1|].
    intros e. assert (Hiff : ∀ k, k ∈ entry_content <$> snapshot ↔ k ∈ entry_content <$> (entry_of <$> live)) by (by setoid_rewrite Hp).
    split; intros He.
    - pose proof (proj2 (Hiff (entry_content e)) (list_elem_of_fmap_2 _ _ _ He)) as (f & Ef & Hf)%list_elem_of_fmap.
      apply list_elem_of_fmap in He as (m & -> & Hm). apply entry_content_inj in Ef; auto; [by rewrite Ef|by apply (Hl m)].
    - pose proof (proj1 (Hiff (entry_content e)) (list_elem_of_fmap_2 _ _ _ He)) as (f & Ef & Hf)%list_elem_of_fmap.
      pose proof Hf as (m & -> & Hm)%list_elem_of_fmap. apply entry_content_inj in Ef; auto; [by rewrite Ef|by apply (Hl m)]. }
  split; [|done]. rewrite Hperm. split.
  - intros Hp. split.
    + intros m Hm. rewrite <-Hp. by apply list_elem_of_fmap_2.
    + intros e He. rewrite <-Hp in He. apply list_elem_of_fmap in He as (m & -> & Hm). eauto.
  - intros [H1 H2]. rewrite list_fmap_compose in Hnl.
    apply NoDup_Permutation; [by eapply NoDup_fmap_1|by eapply NoDup_fmap_1|]. intros e. split.
    + intros (m & -> & Hm)%list_elem_of_fmap. auto.
    + intros He. destruct (H2 e He) as (m & Hm & Et). assert (entry_of m = e) as <-; [|by apply list_elem_of_fmap_2].
      specialize (H1 m Hm). apply list_elem_of_lookup in H1 as [i Hi], He as [j Hj].
      assert (i = j) as <-; [|congruence]. eapply NoDup_lookup; [exact Hns| |]; rewrite list_lookup_fmap.
      * by rewrite Hi.
      * rewrite Hj. simpl. by rewrite <-Et.
Qed.

(** ** A mapped target *)
#[local] Existing Instance hex_uuids.
Definition demo_mapping : RoleMapping :=
  {| m_ID := uuid 7; m_Target := "nas"; m_ProjectID := "p"; m_RoleKey := "laser"; m_Field := "group"; m_Value := "makers";
     m_CreatedBy := "op"; m_UpdatedBy := "op"; m_CreatedAt := 1; m_UpdatedAt := 1 |}.
Definition demo_policy : Db :=
  with_tables demo_addons (with_mappings (with_target_projects (tables demo_addons) {["nas" := "p"]}) [demo_mapping] []).
Lemma demo_policy_wf : policy_wf demo_policy.
Proof.
  split; csimpl.
  - apply NoDup_singleton.
  - by intros m ->%list_elem_of_singleton.
  - apply NoDup_nil_2.
  - intros t t' p [<- _]%lookup_singleton_Some [<- _]%lookup_singleton_Some. done.
  - by intros a ?%elem_of_nil.
  - by intros i j a b [].
Qed.
Lemma policy_invariant_witness :
  ∃ d, RequireTargetProject d "nas" = None ∧ policy_wf d.
Proof.
  exists (with_tables demo_addons (with_target_projects (tables demo_addons) (<["nas" := "p"]> ∅))).
  split; [by vm_compute|]. apply (policy_invariant demo_addons); try reflexivity. apply rtc_once.
  eapply (po_set_project _ "nas" "p"). reflexivity.
Defined.
Lemma rollback_restores_witness :
  ∃ d1 v d3, PublishMappingVersion demo_policy "nas" "" "op" = inr (d1, v) ∧
    RollbackMappingVersion d1 "nas" v "op" = inr d3 ∧ length (mappings (tables d3)) = 1.
Proof.
  destruct (PublishMappingVersion demo_policy "nas" "" "op") as [e|[d1 v]] eqn:E; [by vm_compute in E|].
  assert (policy_wf d1) as Hd1 by (eapply policy_wf_step; [apply demo_policy_wf|by eapply po_publish]).
  assert (∃ d1 v, PublishMappingVersion demo_policy "nas" "" "op" = inr (d1, v) ∧ targets d1 !! "nas" = Some true ∧
            filter (λ m, m_Target m ≠ "nas") (mappings (tables d1)) = []) as (? & ? & E' & Ht & Hm)
    by (do 2 eexists; split; [reflexivity|by vm_compute]).
  rewrite E in E'. injection E' as <- <-.
  destruct (rollback_restores demo_policy "nas" "" "op" d1 v d1 "op" demo_policy_wf E) as (d3 & Hr & He & Ho).
  - intros m Hin _. apply list_elem_of_singleton in Hin as ->. reflexivity.
  - exact Hd1.
  - intros w Hw. exact Hw.
  - exists true. exact Ht.
  - reflexivity.
  - exists d1, v, d3. split; [reflexivity|]. split; [exact Hr|]. rewrite Hm in Ho.
    apply (f_equal length) in He. rewrite !length_fmap in He. simpl in He.
    assert (filter (λ m, m_Target m = "nas") (mappings (tables d3)) = mappings (tables d3)) as Hf.
    { apply filter_every. intros m Hin. destruct (decide (m_Target m = "nas")) as [|Hne]; [done|].
      by destruct (filter_nil_not_elem_of _ _ m Ho Hne). }
    rewrite Hf in He. exact He.
Defined.
Lemma nothing_changed_iff_same_witness :
  sameBindings [demo_mapping] [entry_of demo_mapping] = true ∧
  classifyMappingChanges [demo_mapping] [entry_of demo_mapping] = [].
Proof.
  destruct (nothing_changed_iff_same [demo_mapping] [entry_of demo_mapping]) as [H _].
  - repeat constructor; done.
  - repeat constructor; done.
  - apply NoDup_singleton.
  - apply NoDup_singleton.
  - assert (sameBindings [demo_mapping] [entry_of demo_mapping] = true) as Hs by by vm_compute.
    split; [exact Hs|]. by apply H.
Defined.
