(* ===== verification/Holdings.v ===== *)
(** * Holdings: what a person holds, and what a change to it moves

    The reads of backend/internal/db/bundles.go, bundle_versions.go, rules.go,
    grants.go and mappings.go that say what somebody holds, and the functions of
    services/cascade.go, views.go, entitlement.go, expected.go and holding.go
    that compute with them: a base from the tables, its closure under the
    mapping rules, the difference two closures owe Zitadel. Rows a statement
    returns in an order nothing depends on are in table order. *)

From S2P Require Import Prelude Access Tables Outbox.

(** ** The role key *)
Abbreviation roleKey := Role.
#[export] Instance Role_eq_dec : EqDecision Role.
Proof. unfold Role. apply _. Defined.
#[export] Instance Role_countable : Countable Role.
Proof. unfold Role. apply _. Defined.
Definition role_compare (a b : Role) : comparison := cmp_then (cmp_on fst String.compare) (cmp_on snd String.compare) a b.

(** ** Bundles and their versions *)

(** bundle_version_effective_roles: a version's own roles, and each included
    version's with the bundle they come through. *)
Definition version_gives (c : Catalog) (version : string) : list BundleRole :=
  ((λ x : string * Role, {| br_ProjectID := x.2.1; br_RoleKey := x.2.2; br_ViaBundleID := None |})
     <$> filter (λ x, x.1 = version) (version_roles c)) ++
  (filter (λ i, in_Owner i = version) (version_includes c) ≫= λ i,
     (λ x : string * Role, {| br_ProjectID := x.2.1; br_RoleKey := x.2.2; br_ViaBundleID := Some (in_ChildBundleID i) |})
       <$> filter (λ x, x.1 = in_ChildVersionID i) (version_roles c)).
Definition br_key (r : BundleRole) : Role := (br_ProjectID r, br_RoleKey r).

(** [DISTINCT ON (key) ... ORDER BY key, via NULLS FIRST] *)
Definition via_compare (a b : BundleRole) : comparison :=
  match br_ViaBundleID a, br_ViaBundleID b with
  | None, None => Eq | None, Some _ => Lt | Some _, None => Gt
  | Some x, Some y => String.compare x y
  end.
Fixpoint distinct_on {A K} `{EqDecision K} (key : A → K) (l : list A) : list A :=
  match l with
  | [] => []
  | x :: l => x :: filter (λ y, key y ≠ key x) (distinct_on key l)
  end.
Definition distinct_roles (l : list BundleRole) : list BundleRole :=
  distinct_on br_key (stable_sort (cmp_then (cmp_on br_key role_compare) via_compare) l).

Definition GetRolesForVersion (c : Catalog) (version : string) : list BundleRole :=
  if existsb (λ v, v_ID v =? version) (versions c) then distinct_roles (version_gives c version) else [].
Definition LatestVersion (c : Catalog) (bundle : string) : option BundleVersion :=
  head (stable_sort (cmp_on (λ v, - v_Version v)%Z Z.compare) (filter (λ v, v_BundleID v = bundle) (versions c))).
Definition LatestVersionRoles (c : Catalog) (bundle : string) : option (BundleVersion * list BundleRole) :=
  v ← LatestVersion c bundle; Some (v, GetRolesForVersion c (v_ID v)).
Definition VersionBelongsTo (c : Catalog) (bundle version : string) : bool :=
  existsb (λ v, (v_ID v =? version) && (v_BundleID v =? bundle)) (versions c).
Definition GetBundleByID (c : Catalog) (i : string) : option Bundle := head (filter (λ b, b_ID b = i) (bundles c)).
Definition GetRolesForBundle (c : Catalog) (bundle : string) : list BundleRole :=
  (λ x : string * Role, {| br_ProjectID := x.2.1; br_RoleKey := x.2.2; br_ViaBundleID := None |})
    <$> filter (λ x, x.1 = bundle) (bundle_roles c).

(** What each of a person's bundles gives them, through the version they are
    pinned to, keyed by bundle: a bundle that gives nothing has no key. *)
Definition add_bundle_role (m : gmap string (list BundleRole)) (x : string * BundleRole) : gmap string (list BundleRole) :=
  <[x.1 := default [] (m !! x.1) ++ [x.2]]> m.
Definition GetUserBundleRolesGrouped (c : Catalog) (user : string) : gmap string (list BundleRole) :=
  let joined := filter (λ a, as_UserID a = user) (assignments c) ≫= λ a, (as_BundleID a,.) <$> version_gives c (as_VersionID a) in
  let by_key := cmp_then (cmp_on fst String.compare) (cmp_then (cmp_on (br_key ∘ snd) role_compare) (cmp_on snd via_compare)) in
  foldl add_bundle_role ∅ (distinct_on (λ x : string * BundleRole, (x.1, br_key x.2)) (stable_sort by_key joined)).

Definition GetUsersForBundle (c : Catalog) (bundle : string) : list string :=
  as_UserID <$> filter (λ a, as_BundleID a = bundle) (assignments c).

(** ** Rules *)
Definition GetActiveMappingRules (c : Catalog) : list MappingRule :=
  rule <$> filter (λ r, rule_RetiredAt r = None) (rules c).
Definition GetMappingRuleByID (c : Catalog) (i : string) : option RuleRow :=
  head (filter (λ r, RuleID (rule r) = i) (rules c)).

(** ** The ledger *)
Definition unexpired (d : Db) (g : Grant) : bool := from_option (λ t, now d <? t)%Z true (g_expires_at g).
Definition GetDirectGrantsForUser (d : Db) (user : string) (includeExpired : bool) : list Grant :=
  filter (λ g, g_user g = user ∧ (includeExpired || unexpired d g) = true) (ledger d).
Definition GetAllKnownUserIDs (d : Db) : list string :=
  remove_dups ((g_user <$> ledger d) ++ (as_UserID <$> assignments (catalog (tables d))) ++
               (fst ∘ fst <$> map_to_list (grant_index d))).

(** Everybody's recorded base: unexpired direct grants, and the roles of the
    version each assignment is pinned to. *)
Definition held_rows (d : Db) : list (string * Role) :=
  ((λ g, (g_user g, (g_project g, g_role g))) <$> filter (λ g, unexpired d g = true) (ledger d)) ++
  (assignments (catalog (tables d)) ≫= λ a,
     (λ r, (as_UserID a, br_key r)) <$> version_gives (catalog (tables d)) (as_VersionID a)).
Definition add_held (m : gmap string (gmap Role bool)) (x : string * Role) : gmap string (gmap Role bool) :=
  <[x.1 := <[x.2 := true]> (default ∅ (m !! x.1))]> m.
Definition HeldRecords (d : Db) : gmap string (gmap Role bool) := foldl add_held ∅ (held_rows d).

(** ** The base, as the cascades read it *)
Definition hold_all (m : gmap Role bool) (ks : list Role) : gmap Role bool := foldl (λ m k, <[k := true]> m) m ks.
Definition delete_all (m : gmap Role bool) (ks : list Role) : gmap Role bool := foldl (λ m k, delete k m) m ks.
Definition ref_key (r : RoleRef) : Role := (ref_ProjectID r, ref_RoleKey r).
Definition grant_key (g : Grant) : Role := (g_project g, g_role g).

(** [direct], [byBundle] and [revoking] are the fields of db.PersonAccess it reads. *)
Definition baseFrom (direct : list Grant) (byBundle : gmap string (list BundleRole)) (revoking : list RoleRef)
    (excludeBundleID : string) : gmap Role bool :=
  let base := hold_all ∅ (grant_key <$> direct) in
  let base := map_fold (λ b roles base, if b =? excludeBundleID then base else hold_all base (br_key <$> roles))
                base byBundle in
  delete_all base (ref_key <$> revoking).
Definition userBaseHoldingsExcludingBundle (d : Db) (user excludeBundleID : string) : gmap Role bool :=
  baseFrom (GetDirectGrantsForUser d user false) (GetUserBundleRolesGrouped (catalog (tables d)) user)
    (QueuedRevocations d user) excludeBundleID.
Definition userBaseHoldings (d : Db) (user : string) : gmap Role bool := userBaseHoldingsExcludingBundle d user "".
Definition subtractQueuedRevocations (d : Db) (user : string) (base : gmap Role bool) : gmap Role bool :=
  delete_all base (ref_key <$> QueuedRevocations d user).
Definition userBaseHoldingsWithBundleAt (d : Db) (user bundle : string) (roles : list BundleRole) : gmap Role bool :=
  subtractQueuedRevocations d user
    (hold_all (userBaseHoldingsExcludingBundle d user bundle) (br_key <$> roles)).
Definition userBaseHoldingsExcludingGrant (d : Db) (user excludeGrantID : string) : gmap Role bool :=
  let base := hold_all ∅ (grant_key <$> filter (λ g, g_id g ≠ excludeGrantID) (GetDirectGrantsForUser d user false)) in
  let base := map_fold (λ _ roles base, hold_all base (br_key <$> roles)) base
                (GetUserBundleRolesGrouped (catalog (tables d)) user) in
  subtractQueuedRevocations d user base.
Definition directGrantRoleKey (d : Db) (user grantID : string) : option Role :=
  grant_key <$> head (filter (λ g, g_id g = grantID) (GetDirectGrantsForUser d user true)).

(** ** Closures and their difference *)
Definition effectiveClosure (base : gmap Role bool) (rules : list MappingRule) : gmap Role bool :=
  Closure NewRole base rules.
Definition sortRoleKeys (ks : list Role) : list Role := stable_sort role_compare ks.
Definition missing (from within : gmap Role bool) : list Role :=
  filter (λ k, holds within k = false) (map_to_list from).*1.
Definition closureDelta (before after : gmap Role bool) : list Role * list Role :=
  (sortRoleKeys (missing after before), sortRoleKeys (missing before after)).

(** What the rules owe beyond a change to a person's base. *)
Definition derived_only (before after : gmap Role bool) (ks : list Role) : list Role :=
  filter (λ k, holds before k = holds after k) ks.
Definition ruleDelta (before after : gmap Role bool) (rules : list MappingRule)
    : list Role * list Role * gmap Role bool * gmap Role bool :=
  let closureBefore := effectiveClosure before rules in
  let closureAfter := effectiveClosure after rules in
  let '(adds, revokes) := closureDelta closureBefore closureAfter in
  (derived_only before after adds, derived_only before after revokes, closureBefore, closureAfter).
Definition ruleReachingRule (rules : list MappingRule) (closure : gmap Role bool) (k : Role) : option MappingRule :=
  head (filter (λ r, TargetProject r = k.1 ∧ TargetRole r = k.2 ∧
                     holds closure (SourceProject r, SourceRole r) = true) rules).
Definition ruleReaching (rules : list MappingRule) (closure : gmap Role bool) (k : Role) : string :=
  from_option RuleID "" (ruleReachingRule rules closure k).

(** RulesFollowing: what the rules would give with [roles], and the rule named
    for each. The sentence, in the directory's names, is not modelled. *)
Record FollowRow := { rr_ProjectID : string; rr_RoleKey : string; rr_RuleID : string }.
Definition RulesFollowing (d : Db) (user : string) (roles : list Role) : list FollowRow :=
  match GetActiveMappingRules (catalog (tables d)) with
  | [] => []
  | rules =>
      let before := userBaseHoldings d user in
      let after := hold_all before roles in
      let '(adds, _, _, closureAfter) := ruleDelta before after rules in
      (λ k : Role, {| rr_ProjectID := k.1; rr_RoleKey := k.2; rr_RuleID := ruleReaching rules closureAfter k |}) <$> adds
  end.

(** ** A person's roles with their reasons (views.go) *)
Record RoleReason := {
  re_Kind : string;
  re_Description : string;
  re_BundleID : string;
  re_ViaBundleID : string;
  re_TriggerProject : string;
  re_TriggerRole : string;
}.
#[export] Instance RoleReason_eq_dec : EqDecision RoleReason.
Proof. solve_decision. Defined.
(** models.EffectiveRole without the directory's project name. *)
Record EffectiveRole := { ef_IsSource : bool; ef_Reasons : list RoleReason; ef_Ends : option Z }.

Definition same_reason (a b : RoleReason) : bool :=
  (re_Kind a =? re_Kind b) && (re_Description a =? re_Description b) && (re_BundleID a =? re_BundleID b)
  && (re_TriggerProject a =? re_TriggerProject b) && (re_TriggerRole a =? re_TriggerRole b).
Definition upsertRole (m : gmap Role EffectiveRole) (k : Role) (isSource : bool) (why : RoleReason) : gmap Role EffectiveRole :=
  let cur := default {| ef_IsSource := isSource; ef_Reasons := []; ef_Ends := None |} (m !! k) in
  <[k := {| ef_IsSource := isSource || ef_IsSource cur;
            ef_Reasons := if existsb (λ e, same_reason e why) (ef_Reasons cur) then ef_Reasons cur
                          else ef_Reasons cur ++ [why];
            ef_Ends := ef_Ends cur |}]> m.

Definition hold (base : gmap Role Z) (k : Role) (e : Z) : gmap Role Z :=
  <[k := match base !! k with Some cur => Later cur e | None => e end]> base.

(** GetBundlesForUser: the live bundles, with the version each is pinned at. *)
Definition GetBundlesForUser (c : Catalog) (user : string) : list (Bundle * Z) :=
  filter (λ a, as_UserID a = user) (assignments c) ≫= λ a,
    filter (λ b, b_ID b = as_BundleID a ∧ b_RetiredAt b = None) (bundles c) ≫= λ b,
      (λ v, (b, v_Version v)) <$> filter (λ v, v_ID v = as_VersionID a) (versions c).

Definition direct_reason (g : Grant) : RoleReason :=
  {| re_Kind := "direct"; re_Description := if g_reason g <>? "" then g_reason g else "Direct Zitadel grant";
     re_BundleID := ""; re_ViaBundleID := ""; re_TriggerProject := ""; re_TriggerRole := "" |}.
Definition via_name (c : Catalog) (i : string) : string := from_option b_Name i (GetBundleByID c i).
Definition bundle_reason (c : Catalog) (b : Bundle) (pinned : Z) (r : BundleRole) : RoleReason :=
  {| re_Kind := "bundle";
     re_Description := match br_ViaBundleID r with
                       | None => "Given by bundle " +:+ b_Name b +:+ " v" +:+ pretty pinned
                       | Some i => "Via " +:+ b_Name b +:+ ", from " +:+ via_name c i
                       end;
     re_BundleID := b_ID b; re_ViaBundleID := default "" (br_ViaBundleID r);
     re_TriggerProject := ""; re_TriggerRole := "" |}.
Definition mapping_reason (r : MappingRule) : RoleReason :=
  {| re_Kind := "mapping"; re_Description := "Derived from " +:+ SourceProject r +:+ ":" +:+ SourceRole r;
     re_BundleID := ""; re_ViaBundleID := ""; re_TriggerProject := SourceProject r; re_TriggerRole := SourceRole r |}.

(** The roles and the dated base the loops build. *)
Definition hold_grant (st : gmap Role EffectiveRole * gmap Role Z) (g : Grant) : gmap Role EffectiveRole * gmap Role Z :=
  (upsertRole st.1 (grant_key g) true (direct_reason g), hold st.2 (grant_key g) (default 0%Z (g_expires_at g))).
Definition hold_bundle_role (c : Catalog) (b : Bundle) (pinned : Z) (st : gmap Role EffectiveRole * gmap Role Z)
    (r : BundleRole) : gmap Role EffectiveRole * gmap Role Z :=
  (upsertRole st.1 (br_key r) true (bundle_reason c b pinned r), hold st.2 (br_key r) 0%Z).
Definition hold_bundle (c : Catalog) (byBundle : gmap string (list BundleRole))
    (st : gmap Role EffectiveRole * gmap Role Z) (x : Bundle * Z) : gmap Role EffectiveRole * gmap Role Z :=
  foldl (hold_bundle_role c x.1 x.2) st (default [] (byBundle !! b_ID x.1)).
Definition derive_rule (m : gmap Role EffectiveRole) (r : MappingRule) : gmap Role EffectiveRole :=
  upsertRole m (TargetProject r, TargetRole r) false (mapping_reason r).
Definition stamp_end (dated : gmap Role Z) (k : Role) (r : EffectiveRole) : EffectiveRole :=
  match dated !! k with
  | Some e => if IsZero e then r else {| ef_IsSource := ef_IsSource r; ef_Reasons := ef_Reasons r; ef_Ends := Some e |}
  | None => r
  end.
Definition collectUserRoles (d : Db) (user : string) : gmap Role EffectiveRole :=
  let c := catalog (tables d) in
  let st := foldl hold_grant (∅, ∅) (GetDirectGrantsForUser d user false) in
  let '(m, base) := foldl (hold_bundle c (GetUserBundleRolesGrouped c user)) st (GetBundlesForUser c user) in
  let rules := GetActiveMappingRules c in
  let dated := Ends NewRole base rules in
  let closure := (λ _, true) <$> dated in
  map_imap (λ k r, Some (stamp_end dated k r)) (foldl derive_rule m (Fired NewRole closure rules)).

Definition effectiveRoleRefs (d : Db) (user : string) : list RoleRef :=
  (λ k : Role, {| ref_ProjectID := k.1; ref_RoleKey := k.2 |}) <$>
  stable_sort role_compare (map_to_list (collectUserRoles d user)).*1.
Definition UserExpectsRole (d : Db) (user project role : string) : bool :=
  bool_decide (is_Some (collectUserRoles d user !! (project, role))).

(** The people a mapping on a role reaches; [left] is the directory's answer. *)
Definition MappingHolders (d : Db) (left : string → bool) (project role : string) : list string :=
  sort_strings
    (filter (λ u, left u = false ∧
       holds (Closure NewRole (default ∅ (HeldRecords d !! u)) (GetActiveMappingRules (catalog (tables d)))) (project, role) = true)
     (map_to_list (HeldRecords d)).*1).

(** ** Facts: sets of roles *)
Lemma holds_insert (m : gmap Role bool) k k' : holds (<[k := true]> m) k' = bool_decide (k = k') || holds m k'.
Proof.
  unfold holds. destruct (decide (k = k')) as [->|Hne].
  - by rewrite lookup_insert_eq, bool_decide_eq_true_2.
  - by rewrite lookup_insert_ne, bool_decide_eq_false_2.
Qed.
Lemma holds_hold_all m ks k : holds (hold_all m ks) k = true ↔ holds m k = true ∨ k ∈ ks.
Proof.
  unfold hold_all. revert m; induction ks as [|k' ks IH]; intros m; simpl; [by rewrite elem_of_nil; tauto|].
  rewrite IH, holds_insert, orb_true_iff, bool_decide_eq_true, elem_of_cons. naive_solver.
Qed.
Lemma holds_delete_all m ks k : holds (delete_all m ks) k = true ↔ holds m k = true ∧ k ∉ ks.
Proof.
  unfold delete_all. revert m; induction ks as [|k' ks IH]; intros m; simpl; [set_solver|].
  rewrite IH, not_elem_of_cons. unfold holds. destruct (decide (k' = k)) as [->|Hne].
  - rewrite lookup_delete_eq. simpl. naive_solver.
  - rewrite lookup_delete_ne by done. naive_solver.
Qed.
Lemma holds_map_fold (skip : string → bool) (m : gmap string (list BundleRole)) base k :
  holds (map_fold (λ b roles base, if skip b then base else hold_all base (br_key <$> roles)) base m) k = true ↔
  holds base k = true ∨ ∃ b roles, m !! b = Some roles ∧ skip b = false ∧ k ∈ br_key <$> roles.
Proof.
  revert k. apply (map_fold_weak_ind (λ r m, ∀ k, holds r k = true ↔
    holds base k = true ∨ ∃ b roles, m !! b = Some roles ∧ skip b = false ∧ k ∈ br_key <$> roles)).
  { intros k. split; [by left|]. by intros [?|(b & roles & [=] & _)]. }
  intros b roles m' r Hb IH k. destruct (skip b) eqn:Hs; rewrite ?holds_hold_all, IH.
  - split; (intros [?|(b' & rs & Hl & Hs' & ?)]; [by left|right; exists b', rs]).
    + rewrite lookup_insert_ne by congruence. done.
    + apply lookup_insert_Some in Hl as [[-> ->]|[? ?]]; [congruence|done].
  - split.
    + intros [[?|(b' & rs & ? & ? & ?)]|Hk]; [by left| |]; right.
      * exists b', rs. rewrite lookup_insert_ne by congruence. done.
      * exists b, roles. by rewrite lookup_insert_eq.
    + intros [?|(b' & rs & Hl & Hs' & ?)]; [by left; left|].
      apply lookup_insert_Some in Hl as [[-> ->]|[? ?]]; [by right|left; right; eauto].
Qed.

Lemma distinct_on_keys {A K} `{EqDecision K} (key : A → K) l k : k ∈ key <$> distinct_on key l ↔ k ∈ key <$> l.
Proof.
  induction l as [|x l IH]; csimpl; [done|]. rewrite !elem_of_cons, <-IH.
  destruct (decide (k = key x)) as [E|Hne]; [tauto|]. rewrite !list_elem_of_fmap.
  setoid_rewrite list_elem_of_filter. split; (intros [?|(y & -> & Hy)]; [by left|right; exists y]); tauto.
Qed.
Lemma sorted_keys {A K} (cmp : A → A → comparison) (key : A → K) l k : k ∈ key <$> stable_sort cmp l ↔ k ∈ key <$> l.
Proof. rewrite !list_elem_of_fmap. by setoid_rewrite stable_sort_elem. Qed.
Lemma distinct_on_sub {A K} `{EqDecision K} (key : A → K) l x : x ∈ distinct_on key l → x ∈ l.
Proof.
  induction l as [|y l IH]; simpl; [done|]. rewrite !elem_of_cons, list_elem_of_filter. naive_solver.
Qed.

(** ** Facts: what a bundle gives a person *)
Definition bundle_gives (c : Catalog) (user b : string) (k : Role) : Prop :=
  ∃ a, a ∈ assignments c ∧ as_UserID a = user ∧ as_BundleID a = b ∧ k ∈ br_key <$> version_gives c (as_VersionID a).

Lemma add_bundle_roles l m b :
  default [] (foldl add_bundle_role m l !! b) = default [] (m !! b) ++ (snd <$> filter (λ x, x.1 = b) l).
Proof.
  revert m; induction l as [|[b' r] l IH]; intros m; simpl; [by rewrite app_nil_r|].
  rewrite IH. unfold add_bundle_role. simpl. destruct (decide (b' = b)) as [->|Hne].
  - rewrite lookup_insert_eq, filter_cons_True by done. csimpl. by rewrite <-(assoc_L (++)).
  - by rewrite lookup_insert_ne, filter_cons_False.
Qed.
Lemma GetUserBundleRolesGrouped_gives c user b k :
  (∃ roles, GetUserBundleRolesGrouped c user !! b = Some roles ∧ k ∈ br_key <$> roles) ↔ bundle_gives c user b k.
Proof.
  trans (k ∈ br_key <$> default [] (GetUserBundleRolesGrouped c user !! b)).
  { destruct (_ !! b); simpl; [naive_solver|]. split; [by intros (? & [=] & _)|by intros ?%elem_of_nil]. }
  unfold GetUserBundleRolesGrouped. rewrite add_bundle_roles, lookup_empty. simpl.
  set (by_key := cmp_then _ _). set (joined := _ ≫= _).
  trans ((b, k) ∈ (λ x : string * BundleRole, (x.1, br_key x.2)) <$> joined).
  - rewrite <-(sorted_keys by_key), <-(distinct_on_keys (λ x : string * BundleRole, (x.1, br_key x.2))).
    set (l := distinct_on _ _). clearbody l. rewrite !list_elem_of_fmap. split.
    + intros (r & -> & Hr). apply list_elem_of_fmap in Hr as ([b' r'] & -> & [E Hx]%list_elem_of_filter).
      simpl in *. subst. by exists (b, r').
    + intros ([b' r] & [= -> ->] & Hx). exists r. split; [done|]. apply list_elem_of_fmap. exists (b', r).
      by rewrite list_elem_of_filter.
  - unfold joined. rewrite list_elem_of_fmap. split.
    + intros ([b' r] & [= -> ->] & Hx). apply list_elem_of_bind in Hx as (a & Hr & [Hu Ha]%list_elem_of_filter).
      apply list_elem_of_fmap in Hr as (r' & [= -> ->] & Hr). exists a. split_and!; try done. by apply list_elem_of_fmap_2.
    + intros (a & Ha & Hu & <- & Hk). apply list_elem_of_fmap in Hk as (r & -> & Hr).
      exists (as_BundleID a, r). split; [done|]. apply list_elem_of_bind. exists a. split.
      * by apply list_elem_of_fmap_2.
      * by apply list_elem_of_filter.
Qed.

(** ** What is given, with no map and no loop *)
Definition directly (d : Db) (user : string) (k : Role) : Prop :=
  ∃ g, g ∈ ledger d ∧ g_user g = user ∧ unexpired d g = true ∧ grant_key g = k.
Definition given (d : Db) (user excl : string) (k : Role) : Prop :=
  directly d user k ∨ ∃ b, b ≠ excl ∧ bundle_gives (catalog (tables d)) user b k.
Definition revoking (d : Db) (user : string) (k : Role) : Prop := k ∈ ref_key <$> QueuedRevocations d user.

Lemma directly_iff d user k : k ∈ grant_key <$> GetDirectGrantsForUser d user false ↔ directly d user k.
Proof.
  unfold GetDirectGrantsForUser, directly. rewrite list_elem_of_fmap. setoid_rewrite list_elem_of_filter. simpl. naive_solver.
Qed.
Lemma userBaseHoldingsExcludingBundle_iff d user excl k :
  holds (userBaseHoldingsExcludingBundle d user excl) k = true ↔ given d user excl k ∧ ¬ revoking d user k.
Proof.
  unfold userBaseHoldingsExcludingBundle, baseFrom. rewrite holds_delete_all.
  rewrite (holds_map_fold (λ b, b =? excl)), holds_hold_all, directly_iff.
  unfold given, revoking. apply and_iff_compat_r. setoid_rewrite bool_decide_eq_false.
  setoid_rewrite <-GetUserBundleRolesGrouped_gives.
  assert (holds (∅ : gmap Role bool) k = true ↔ False) as -> by (by unfold holds; rewrite lookup_empty). naive_solver.
Qed.
Lemma userBaseHoldingsExcludingGrant_iff d user i k :
  holds (userBaseHoldingsExcludingGrant d user i) k = true ↔
  ((∃ g, g ∈ ledger d ∧ g_user g = user ∧ unexpired d g = true ∧ g_id g ≠ i ∧ grant_key g = k) ∨
   ∃ b, bundle_gives (catalog (tables d)) user b k) ∧ ¬ revoking d user k.
Proof.
  unfold userBaseHoldingsExcludingGrant, subtractQueuedRevocations. rewrite holds_delete_all.
  rewrite (holds_map_fold (λ _, false)), holds_hold_all. apply and_iff_compat_r.
  setoid_rewrite <-GetUserBundleRolesGrouped_gives.
  assert (holds (∅ : gmap Role bool) k = true ↔ False) as -> by (by unfold holds; rewrite lookup_empty).
  unfold GetDirectGrantsForUser. rewrite list_elem_of_fmap. setoid_rewrite list_elem_of_filter.
  setoid_rewrite list_elem_of_filter. simpl. naive_solver.
Qed.

(** ** Facts: the closure difference *)
#[export] Instance role_compare_good : Comparison role_compare.
Proof. unfold role_compare. apply _. Qed.
Lemma missing_elem base rules base' rules' k :
  k ∈ missing (effectiveClosure base rules) (effectiveClosure base' rules') ↔
  reaches NewRole rules base k ∧ ¬ reaches NewRole rules' base' k.
Proof.
  unfold missing, effectiveClosure. rewrite list_elem_of_filter, list_elem_of_fmap.
  rewrite <-!(Closure_reaches NewRole), not_true_iff_false.
  assert ((∃ x, k = x.1 ∧ x ∈ map_to_list (Closure NewRole base rules)) ↔ holds (Closure NewRole base rules) k = true)
    as ->; [|tauto]. split.
  - intros ([k' v] & -> & Hin%elem_of_map_to_list). simpl. rewrite Closure_lookup in Hin. by destruct (holds _ _).
  - intros Hk. exists (k, true). split; [done|]. apply elem_of_map_to_list. by rewrite Closure_lookup, Hk.
Qed.
Lemma missing_NoDup (m m' : gmap Role bool) : NoDup (missing m m').
Proof. apply NoDup_filter, NoDup_fst_map_to_list. Qed.
Lemma sortRoleKeys_NoDup ks : NoDup ks → NoDup (sortRoleKeys ks).
Proof. intros. unfold sortRoleKeys. by rewrite stable_sort_perm. Qed.
Lemma sortRoleKeys_elem ks k : k ∈ sortRoleKeys ks ↔ k ∈ ks.
Proof. apply stable_sort_elem. Qed.

Lemma closureDelta_elem base rules base' rules' k :
  let delta := closureDelta (effectiveClosure base rules) (effectiveClosure base' rules') in
  (k ∈ delta.1 ↔ reaches NewRole rules' base' k ∧ ¬ reaches NewRole rules base k) ∧
  (k ∈ delta.2 ↔ reaches NewRole rules base k ∧ ¬ reaches NewRole rules' base' k).
Proof. simpl. by rewrite !sortRoleKeys_elem, !missing_elem. Qed.
Lemma closureDelta_NoDup before after :
  NoDup (closureDelta before after).1 ∧ NoDup (closureDelta before after).2.
Proof. split; apply sortRoleKeys_NoDup, missing_NoDup. Qed.

(** Replaying a difference over the closure it starts from. *)
Lemma hold_all_true m ks : (∀ k, m !! k ≠ Some false) → ∀ k, hold_all m ks !! k ≠ Some false.
Proof.
  unfold hold_all. revert m; induction ks as [|k' ks IH]; intros m Hm; simpl; [done|]. apply IH.
  intros k. destruct (decide (k' = k)) as [->|]; [by rewrite lookup_insert_eq|by rewrite lookup_insert_ne].
Qed.
Lemma delete_all_true m ks : (∀ k, m !! k ≠ Some false) → ∀ k, delete_all m ks !! k ≠ Some false.
Proof.
  unfold delete_all. revert m; induction ks as [|k' ks IH]; intros m Hm; simpl; [done|]. apply IH.
  intros k. destruct (decide (k' = k)) as [->|]; [by rewrite lookup_delete_eq|by rewrite lookup_delete_ne].
Qed.
Lemma closure_true base rules k : effectiveClosure base rules !! k ≠ Some false.
Proof. unfold effectiveClosure. rewrite Closure_lookup. by destruct (holds _ _). Qed.
(** Maps with no [false] in them are the sets they hold. *)
Lemma true_maps_eq (m m' : gmap Role bool) :
  (∀ k, m !! k ≠ Some false) → (∀ k, m' !! k ≠ Some false) → (∀ k, holds m k = true ↔ holds m' k = true) → m = m'.
Proof.
  intros Hm Hm' E. apply map_eq. intros k. specialize (Hm k). specialize (Hm' k). specialize (E k).
  unfold holds in E. destruct (m !! k) as [[]|], (m' !! k) as [[]|]; simpl in E; naive_solver.
Qed.
Lemma closureDelta_replays base rules base' rules' :
  let before := effectiveClosure base rules in
  let after := effectiveClosure base' rules' in
  delete_all (hold_all before (closureDelta before after).1) (closureDelta before after).2 = after.
Proof.
  cbn zeta. apply true_maps_eq; auto using delete_all_true, hold_all_true, closure_true.
  intros k. rewrite holds_delete_all, holds_hold_all.
  destruct (closureDelta_elem base rules base' rules' k) as [Ha Hr]. rewrite Ha, Hr.
  unfold effectiveClosure. rewrite !Closure_reaches.
  rewrite <-(Closure_reaches NewRole base), <-(Closure_reaches NewRole base').
  destruct (holds (Closure NewRole base rules) k), (holds (Closure NewRole base' rules') k); naive_solver.
Qed.

(** ** Facts: a person's roles *)

(** Loops that only ever add keys. *)
Lemma foldl_adds {S X} (f : S → X → S) (P : S → Role → Prop) (Q : X → Role → Prop) l st k :
  (∀ st x, x ∈ l → P (f st x) k ↔ P st k ∨ Q x k) → P (foldl f st l) k ↔ P st k ∨ ∃ x, x ∈ l ∧ Q x k.
Proof.
  revert st; induction l as [|x l IH]; intros st Hf; simpl.
  - split; [by left|]. intros [?|(? & ?%elem_of_nil & _)]; done.
  - rewrite IH, Hf by (left || (intros; apply Hf; by right)). setoid_rewrite elem_of_cons. naive_solver.
Qed.

Section keys.
Implicit Types (m : gmap Role EffectiveRole) (base : gmap Role Z) (st : gmap Role EffectiveRole * gmap Role Z).
Definition roles_of_key (st : gmap Role EffectiveRole * gmap Role Z) (k : Role) : Prop := is_Some (st.1 !! k).
Definition base_of_key (st : gmap Role EffectiveRole * gmap Role Z) (k : Role) : Prop := is_Some (st.2 !! k).

Lemma insert_is_Some {A} (m : gmap Role A) k x k' : is_Some (<[k := x]> m !! k') ↔ is_Some (m !! k') ∨ k' = k.
Proof.
  destruct (decide (k = k')) as [->|]; [rewrite lookup_insert_eq|rewrite lookup_insert_ne by done]; naive_solver.
Qed.
Lemma hold_grants_keys l st k :
  (roles_of_key (foldl hold_grant st l) k ↔ roles_of_key st k ∨ ∃ g, g ∈ l ∧ k = grant_key g) ∧
  (base_of_key (foldl hold_grant st l) k ↔ base_of_key st k ∨ ∃ g, g ∈ l ∧ k = grant_key g).
Proof.
  split; [apply (foldl_adds _ roles_of_key (λ g k, k = grant_key g))|
          apply (foldl_adds _ base_of_key (λ g k, k = grant_key g))]; intros; apply insert_is_Some.
Qed.
Lemma hold_bundle_keys c byBundle l st k :
  let Q x := k ∈ br_key <$> default [] (byBundle !! b_ID x.1) in
  (roles_of_key (foldl (hold_bundle c byBundle) st l) k ↔ roles_of_key st k ∨ ∃ x : Bundle * Z, x ∈ l ∧ Q x) ∧
  (base_of_key (foldl (hold_bundle c byBundle) st l) k ↔ base_of_key st k ∨ ∃ x : Bundle * Z, x ∈ l ∧ Q x).
Proof.
  cbn zeta. set (Q (x : Bundle * Z) k := k ∈ br_key <$> default [] (byBundle !! b_ID x.1)).
  split; [apply (foldl_adds _ roles_of_key Q)|apply (foldl_adds _ base_of_key Q)];
    intros st' x _; unfold Q; rewrite list_elem_of_fmap; unfold hold_bundle.
  - rewrite (foldl_adds _ roles_of_key (λ r k, k = br_key r)) by (intros; apply insert_is_Some). naive_solver.
  - rewrite (foldl_adds _ base_of_key (λ r k, k = br_key r)) by (intros; apply insert_is_Some). naive_solver.
Qed.
End keys.

(** Every assignment is to a live bundle, pinned to a version that exists. *)
Definition catalog_ok (c : Catalog) : Prop :=
  ∀ a, a ∈ assignments c → as_BundleID a ≠ "" ∧
    (∃ b, b ∈ bundles c ∧ b_ID b = as_BundleID a ∧ b_RetiredAt b = None) ∧
    ∃ v, v ∈ versions c ∧ v_ID v = as_VersionID a.
Definition recorded (d : Db) (user : string) (k : Role) : Prop :=
  directly d user k ∨ ∃ b, bundle_gives (catalog (tables d)) user b k.
Lemma given_recorded d user k : catalog_ok (catalog (tables d)) → given d user "" k ↔ recorded d user k.
Proof.
  intros Hok. unfold given, recorded. split; (intros [?|(b & H)]; [by left|right; exists b]); [tauto|].
  split; [|done]. destruct H as (a & Ha & _ & <- & _). by apply Hok.
Qed.

Lemma held_keys d user k : holds (default ∅ (HeldRecords d !! user)) k = true ↔ recorded d user k.
Proof.
  unfold HeldRecords.
  rewrite (foldl_adds _ (λ m k, holds (default ∅ (m !! user)) k = true) (λ x k, x = (user, k))).
  2: { intros m [u k'] _. unfold add_held. simpl. destruct (decide (u = user)) as [->|Hne].
       - rewrite lookup_insert_eq. simpl. rewrite holds_insert, orb_true_iff, bool_decide_eq_true. naive_solver.
       - rewrite lookup_insert_ne by done. naive_solver. }
  rewrite lookup_empty. simpl. unfold held_rows.
  trans ((user, k) ∈ held_rows d); [|unfold held_rows].
  { split; [intros [?|(x & ? & ->)]; [done|done]|by right; eauto]. }
  rewrite elem_of_app, list_elem_of_fmap, list_elem_of_bind. unfold recorded, directly, bundle_gives.
  setoid_rewrite list_elem_of_filter. setoid_rewrite list_elem_of_fmap. unfold grant_key. split.
  - intros [(g & [= -> ->] & ? & ?)|(a & (r & [= -> ->] & ?) & ?)]; [left; by exists g|right; eauto 10].
  - intros [(g & ? & <- & ? & <-)|(b & a & ? & <- & <- & (r & -> & ?))]; [left; by exists g|right; eauto 10].
Qed.

Lemma GetBundlesForUser_gives c user k :
  catalog_ok c →
  (∃ x, x ∈ GetBundlesForUser c user ∧ k ∈ br_key <$> default [] (GetUserBundleRolesGrouped c user !! b_ID x.1)) ↔
  ∃ b, bundle_gives c user b k.
Proof.
  intros Hok. setoid_rewrite <-GetUserBundleRolesGrouped_gives. split.
  - intros (x & _ & Hk). exists (b_ID x.1). destruct (_ !! _) as [roles|]; [by exists roles|by apply elem_of_nil in Hk].
  - intros (b & Hg). pose proof Hg as (a & Ha & Hu & Hb & _)%GetUserBundleRolesGrouped_gives.
    destruct Hg as (roles & Hl & Hk), (Hok a Ha) as (_ & (b' & Hb' & Hi & Hr) & v & Hv & Hvi).
    exists (b', v_Version v). simpl. rewrite Hi, Hb, Hl. split; [|done].
    unfold GetBundlesForUser. apply list_elem_of_bind. exists a. split; [|by apply list_elem_of_filter].
    apply list_elem_of_bind. exists b'. split; [|by apply list_elem_of_filter].
    apply list_elem_of_fmap. exists v. split; [done|]. by apply list_elem_of_filter.
Qed.
Lemma derives_dom rules (base : gmap Role Z) (held : gmap Role bool) k :
  (∀ k, is_Some (base !! k) ↔ holds held k = true) →
  (∃ e, derives NewRole rules base k e) ↔ reaches NewRole rules held k.
Proof.
  intros Hb. split.
  - intros (e & Hd). induction Hd as [k e He|r e Hr _ IH]; [|by apply reaches_rule]. apply reaches_base, Hb. eauto.
  - induction 1 as [k Hk|r Hr _ (e & IH)]; [|exists e; by apply derives_rule]. apply Hb in Hk as [e He].
    exists e. by constructor.
Qed.
Lemma collectUserRoles_keys d user k :
  catalog_ok (catalog (tables d)) →
  is_Some (collectUserRoles d user !! k) ↔
  reaches NewRole (GetActiveMappingRules (catalog (tables d))) (default ∅ (HeldRecords d !! user)) k.
Proof.
  intros Hok. unfold collectUserRoles. set (c := catalog (tables d)) in *. set (rules := GetActiveMappingRules c).
  destruct (foldl (hold_bundle _ _) _ _) as [m base] eqn:Est.
  assert (Hkeys : ∀ k, (is_Some (m !! k) ↔ holds (default ∅ (HeldRecords d !! user)) k = true) ∧
                       (is_Some (base !! k) ↔ holds (default ∅ (HeldRecords d !! user)) k = true)).
  { intros k'. change (is_Some (m !! k')) with (roles_of_key (m, base) k').
    change (is_Some (base !! k')) with (base_of_key (m, base) k'). rewrite <-Est, held_keys. unfold recorded. fold c.
    rewrite <-(GetBundlesForUser_gives c user k' Hok), <-directly_iff, list_elem_of_fmap.
    destruct (hold_bundle_keys c (GetUserBundleRolesGrouped c user) (GetBundlesForUser c user)
      (foldl hold_grant (∅, ∅) (GetDirectGrantsForUser d user false)) k') as [H1 H2]. rewrite H1, H2.
    destruct (hold_grants_keys (GetDirectGrantsForUser d user false) (∅, ∅) k') as [H3 H4]. rewrite H3, H4.
    assert (roles_of_key (∅, ∅) k' ↔ False) as -> by (split; [by intros [? [=]]|done]).
    assert (base_of_key (∅, ∅) k' ↔ False) as -> by (split; [by intros [? [=]]|done]). naive_solver. }
  assert (Hd : ∀ k, is_Some (Ends NewRole base rules !! k) ↔ reaches NewRole rules (default ∅ (HeldRecords d !! user)) k).
  { intros k'. rewrite Ends_domain. apply derives_dom. intros k2. apply Hkeys. }
  rewrite map_lookup_imap. trans (is_Some (foldl derive_rule m (Fired NewRole ((λ _, true) <$> Ends NewRole base rules) rules) !! k)).
  { destruct (foldl derive_rule _ _ !! k); simpl; split; intros [? [=]]; eauto. }
  rewrite (foldl_adds _ (λ m k, is_Some (m !! k)) (λ r k, k = tgt NewRole r)) by (intros; apply insert_is_Some).
  rewrite (proj1 (Hkeys k)). unfold Fired. split.
  - intros [Hk|(r & Hr & ->)]; [by apply reaches_base|]. apply list_elem_of_In, filter_In in Hr as [Hin Hs].
    apply reaches_rule; [by apply list_elem_of_In|]. apply Hd. unfold holds in Hs. rewrite lookup_fmap in Hs.
    destruct (Ends _ _ _ !! _); [eauto|done].
  - destruct 1 as [k Hk|r Hr Hs]; [by left|right]. exists r. split; [|done]. apply list_elem_of_In, filter_In.
    split; [by apply list_elem_of_In|]. apply Hd in Hs as [e He]. unfold holds. by rewrite lookup_fmap, He.
Qed.

(** Every role carries a reason. *)
Definition explained (m : gmap Role EffectiveRole) : Prop := ∀ k r, m !! k = Some r → ef_Reasons r ≠ [].
Lemma upsertRole_explained m k b why : explained m → explained (upsertRole m k b why).
Proof.
  intros Hm k' r. unfold upsertRole. destruct (decide (k = k')) as [->|Hne]; [|rewrite lookup_insert_ne by done; apply Hm].
  rewrite lookup_insert_eq. intros [= <-]. simpl. destruct (existsb _ _) eqn:E.
  - apply existsb_elem in E as (x & Hx & _). intros E. rewrite E in Hx. by apply elem_of_nil in Hx.
  - by destruct (ef_Reasons _).
Qed.
Lemma foldl_keeps {S X} (P : S → Prop) (f : S → X → S) l st : (∀ st x, P st → P (f st x)) → P st → P (foldl f st l).
Proof. intros Hf. revert st; induction l; simpl; auto. Qed.
Lemma collectUserRoles_explained d user : explained (collectUserRoles d user).
Proof.
  unfold collectUserRoles. destruct (foldl (hold_bundle _ _) _ _) as [m base] eqn:Est.
  assert (explained m) as Hm.
  { change m with (m, base).1. rewrite <-Est. apply (foldl_keeps (λ st, explained st.1)).
    - intros st x Hst. apply (foldl_keeps (λ st, explained st.1)); [|done]. intros. by apply upsertRole_explained.
    - apply (foldl_keeps (λ st, explained st.1)); [intros; by apply upsertRole_explained|]. by intros k r [=]. }
  intros k r. rewrite map_lookup_imap. destruct (foldl derive_rule _ _ !! k) as [r0|] eqn:Er; [|done].
  intros [= <-]. assert (ef_Reasons r0 ≠ []) as Hr0.
  { revert Er. apply (foldl_keeps explained); [|done]. intros. by apply upsertRole_explained. }
  unfold stamp_end. destruct (Ends _ _ _ !! k) as [e|]; [|done]. by destruct (IsZero e).
Qed.

Lemma effectiveRoleRefs_elem d user p r :
  {| ref_ProjectID := p; ref_RoleKey := r |} ∈ effectiveRoleRefs d user ↔ UserExpectsRole d user p r = true.
Proof.
  unfold effectiveRoleRefs, UserExpectsRole. rewrite bool_decide_eq_true, list_elem_of_fmap. split.
  - intros ([p' r'] & [= -> ->] & Hk). rewrite stable_sort_elem in Hk.
    apply list_elem_of_fmap in Hk as ([k v] & [= <-] & Hk%elem_of_map_to_list). eauto.
  - intros [v Hv]. exists (p, r). split; [done|]. rewrite stable_sort_elem. apply list_elem_of_fmap.
    exists ((p, r), v). split; [done|]. by apply elem_of_map_to_list.
Qed.

(** ** Properties *)

(** What a change owes Zitadel is exactly the difference it makes. For any
    base and rules before and after, the adds are the roles a chain of rules
    reaches after and not before, the revokes those it reached before and no
    longer does, each once and in key order; so a role still reached another way
    is never revoked, and replaying the difference over the closure before gives
    the closure after. *)
Theorem closureDelta_spec base rules base' rules' :
  let before := effectiveClosure base rules in
  let after := effectiveClosure base' rules' in
  let '(adds, revokes) := closureDelta before after in
  (∀ k, k ∈ adds ↔ reaches NewRole rules' base' k ∧ ¬ reaches NewRole rules base k) ∧
  (∀ k, k ∈ revokes ↔ reaches NewRole rules base k ∧ ¬ reaches NewRole rules' base' k) ∧
  NoDup adds ∧ NoDup revokes ∧
  StronglySorted (cmp_le role_compare) adds ∧ StronglySorted (cmp_le role_compare) revokes ∧
  delete_all (hold_all before adds) revokes = after.
Proof.
  cbn zeta. set (before := effectiveClosure base rules). set (after := effectiveClosure base' rules').
  rewrite (surjective_pairing (closureDelta before after)).
  split_and!; try apply closureDelta_NoDup; try apply stable_sort_ascending.
  - intros k. apply closureDelta_elem.
  - intros k. apply closureDelta_elem.
  - apply closureDelta_replays.
Qed.

(** One answer to "what does this person hold". With every assignment on a
    live bundle and an existing version, the roles on a person's page, the roles
    the entitlement resolver reads, the drift check's expectation and the cohort
    a mapping reaches are the same: the roles reached by the rules in force from
    their unexpired grants and the versions they are pinned to. Each is listed
    once and has a reason. *)
Theorem holdings_agree d left user project role :
  catalog_ok (catalog (tables d)) →
  let held := reaches NewRole (GetActiveMappingRules (catalog (tables d))) (default ∅ (HeldRecords d !! user)) in
  (∀ k, holds (default ∅ (HeldRecords d !! user)) k = true ↔ recorded d user k) ∧
  (UserExpectsRole d user project role = true ↔ held (project, role)) ∧
  ({| ref_ProjectID := project; ref_RoleKey := role |} ∈ effectiveRoleRefs d user ↔ held (project, role)) ∧
  NoDup (effectiveRoleRefs d user) ∧
  (user ∈ MappingHolders d left project role ↔ left user = false ∧ held (project, role)) ∧
  (∀ k r, collectUserRoles d user !! k = Some r → ef_Reasons r ≠ []).
Proof.
  intros Hok held. split_and!.
  - intros k. apply held_keys.
  - unfold UserExpectsRole. rewrite bool_decide_eq_true. by apply collectUserRoles_keys.
  - rewrite effectiveRoleRefs_elem. unfold UserExpectsRole. rewrite bool_decide_eq_true. by apply collectUserRoles_keys.
  - unfold effectiveRoleRefs. apply NoDup_fmap_2; [by intros [] [] [= -> ->]|].
    rewrite stable_sort_perm. apply NoDup_fst_map_to_list.
  - unfold MappingHolders. rewrite sort_strings_elem, list_elem_of_filter, Closure_reaches. fold held.
    split; [tauto|]. intros [Hl Hh]. split; [done|]. destruct (HeldRecords d !! user) as [m|] eqn:Em.
    + apply list_elem_of_fmap. exists (user, m). split; [done|]. by apply elem_of_map_to_list.
    + exfalso. unfold held in Hh. simpl in Hh.
      by induction Hh as [k Hk|]; [unfold holds in Hk; rewrite lookup_empty in Hk|].
  - apply collectUserRoles_explained.
Qed.

(** Ada holds the bundle Makers at v1, which gives laser; a rule derives safety. *)
Definition demo_catalog : Catalog :=
  {| bundles := [{| b_ID := "b1"; b_Name := "Makers"; b_Description := ""; b_IsWelcome := false; b_CreatedAt := 1; b_RetiredAt := None; b_RetiredBy := None |}];
     bundle_roles := [("b1", ("p", "laser"))];
     versions := [{| v_ID := "v1"; v_BundleID := "b1"; v_Version := 1; v_Note := ""; v_PublishedBy := "system" |}];
     version_roles := [("v1", ("p", "laser"))]; includes := []; version_includes := [];
     assignments := [{| as_UserID := "ada"; as_BundleID := "b1"; as_VersionID := "v1"; as_Source := "direct";
                        as_AssignedBy := Some "op"; as_MovedFrom := None |}];
     rules := [{| rule := demo_rule "laser" "safety"; rule_RetiredAt := None; rule_RetiredBy := None |}] |}.
Definition demo_holdings : Db := with_tables (demo_db []) (with_catalog empty_tables demo_catalog).
Lemma demo_catalog_ok : catalog_ok demo_catalog.
Proof.
  intros a ->%list_elem_of_singleton. split; [done|]. split; eexists; (split; [left|done]).
Qed.
Lemma holdings_agree_witness :
  UserExpectsRole demo_holdings "ada" "p" "safety" = true ∧
  "ada" ∈ MappingHolders demo_holdings (λ _, false) "p" "safety".
Proof.
  destruct (holdings_agree demo_holdings (λ _, false) "ada" "p" "safety" demo_catalog_ok) as (_ & H1 & _ & _ & H2 & _).
  assert (UserExpectsRole demo_holdings "ada" "p" "safety" = true) as Hx by by vm_compute.
  split; [exact Hx|]. apply H2. split; [reflexivity|]. by apply H1.
Defined.
