(* ===== verification/Entitlement.v ===== *)
(** * Entitlement: what a person's roles mean on a target

    backend/internal/services/entitlement.go and lifecycle_trigger.go: a target's
    desired state for one person, resolved from the roles they hold, the target's
    mappings and the allowances in force, and the convergences a role change
    queues. The directory is a parameter: [find_user] is the status it reports,
    [None] when the lookup fails or finds nobody. Reads that fail are not
    modelled. *)

From S2P Require Import Prelude Access Tables Extcall Outbox Lifecycle Plans Policy Holdings.

Definition FieldEnabled : string := "enabled".
Definition FieldSMBEnabled : string := "smb_enabled".
Definition IsLifecycleField (field : string) : bool := (field =? FieldEnabled) || (field =? FieldSMBEnabled).

Record SuppressedEntitlement := {
  su_Field : string;
  su_Value : string;
  su_AllowanceID : string;
  su_ActorID : string;
  su_Reason : string;
  su_Since : Z;
}.
Record LifecycleState := {
  lf_Enabled : bool;
  lf_SMBEnabled : bool;
  lf_NotAMember : bool;
  lf_Reason : string;
}.
Record EntitlementSet := {
  es_SubjectID : string;
  es_Target : string;
  es_Fields : gmap string (list string);
  es_Suppressed : list SuppressedEntitlement;
  es_Lifecycle : LifecycleState;
  es_Given : gmap string (list Role);
}.

Definition termKey (field value : string) : string := field +:+ NUL +:+ value.
Definition suppression (field value : string) (a : Allowance) : SuppressedEntitlement :=
  {| su_Field := field; su_Value := value; su_AllowanceID := al_ID a; su_ActorID := al_ActorID a;
     su_Reason := al_Reason a; su_Since := al_CreatedAt a |}.

(** The two maps the allowances fill: denials by term, own values by field. *)
Definition read_allowance (st : gmap string Allowance * gmap string Allowance) (a : Allowance)
    : gmap string Allowance * gmap string Allowance :=
  let '(denied, overrides) := st in
  if al_Direction a =? AllowanceSet then
    (denied, match overrides !! al_Field a with
             | Some prev => if (al_CreatedAt prev <? al_CreatedAt a)%Z then <[al_Field a := a]> overrides else overrides
             | None => <[al_Field a := a]> overrides
             end)
  else if al_Direction a <>? AllowanceDeny then (denied, overrides)
  else (<[termKey (al_Field a) (al_Value a) := a]> denied, overrides).

(** The loop over the mappings. *)
Record Resolved := {
  rs_mappedAny : bool;
  rs_suppressed : list SuppressedEntitlement;
  rs_values : gmap string (gset string);
  rs_given : gmap string (list Role);
}.
Definition resolve_mapping (denied : gmap string Allowance) (st : Resolved) (m : RoleMapping) : Resolved :=
  if IsLifecycleField (m_Field m) then st
  else match denied !! termKey (m_Field m) (m_Value m) with
  | Some a =>
      {| rs_mappedAny := true; rs_suppressed := rs_suppressed st ++ [suppression (m_Field m) (m_Value m) a];
         rs_values := rs_values st; rs_given := rs_given st |}
  | None =>
      let key := termKey (m_Field m) (m_Value m) in
      {| rs_mappedAny := true; rs_suppressed := rs_suppressed st;
         rs_values := <[m_Field m := default ∅ (rs_values st !! m_Field m) ∪ {[m_Value m]}]> (rs_values st);
         rs_given := <[key := default [] (rs_given st !! key) ++ [(m_ProjectID m, m_RoleKey m)]]> (rs_given st) |}
  end.
Definition sorted_values (values : gmap string (gset string)) (f : string) : list string :=
  sort_strings (elements (default ∅ (values !! f))).
(** Every mapped field appears, even when everything in it was suppressed. *)
Definition add_field (values : gmap string (gset string)) (fields : gmap string (list string)) (m : RoleMapping)
    : gmap string (list string) :=
  if IsLifecycleField (m_Field m) then fields
  else match fields !! m_Field m with
  | Some _ => fields
  | None => <[m_Field m := sorted_values values (m_Field m)]> fields
  end.
Definition override_field (f : string) (a : Allowance) (fields : gmap string (list string)) : gmap string (list string) :=
  if IsLifecycleField f then fields else <[f := [al_Value a]]> fields.

(** The state and what it suppresses, in the loop's order. *)
Definition resolveLifecycle (mappedAny : bool) (denied : gmap string Allowance) : LifecycleState * list SuppressedEntitlement :=
  let off := denied !! termKey FieldEnabled "true" in
  let smb := denied !! termKey FieldSMBEnabled "true" in
  ({| lf_Enabled := mappedAny && bool_decide (off = None);
      lf_SMBEnabled := mappedAny && bool_decide (off = None) && bool_decide (smb = None);
      lf_NotAMember := false; lf_Reason := "" |},
   from_option (λ a, [suppression FieldEnabled "true" a]) [] off ++
   from_option (λ a, [suppression FieldSMBEnabled "true" a]) [] smb).

Definition suppressed_order : SuppressedEntitlement → SuppressedEntitlement → comparison :=
  cmp_then (cmp_on su_Field String.compare) (cmp_on su_Value String.compare).

#[export] Instance Allowance_eq_dec : EqDecision Allowance.
Proof. solve_decision. Defined.

Section resolve.
Context (find_user : string → option string).

Definition applyDirectoryStanding (subject : string) (l : LifecycleState) : LifecycleState :=
  match find_user subject with
  | Some status =>
      if Left status then
        {| lf_Enabled := false; lf_SMBEnabled := false; lf_NotAMember := true;
           lf_Reason := "the directory reports this person as " +:+ ToLower (TrimSpace status) |}
      else l
  | None => l
  end.

Definition ResolveEntitlements (d : Db) (subject tgt : string) : EntitlementSet :=
  let held := effectiveRoleRefs d subject in
  let mappings := MappingsForRoles d tgt held in
  let '(denied, overrides) := foldl read_allowance (∅, ∅) (AllowancesInForce d subject tgt) in
  let st := foldl (resolve_mapping denied)
    {| rs_mappedAny := false; rs_suppressed := []; rs_values := ∅; rs_given := ∅ |} mappings in
  let fields := foldl (add_field (rs_values st)) ∅ mappings in
  let fields := if rs_mappedAny st then map_fold override_field fields overrides else fields in
  let '(lifecycle, off) := resolveLifecycle (rs_mappedAny st) denied in
  {| es_SubjectID := subject; es_Target := tgt; es_Fields := fields;
     es_Suppressed := stable_sort suppressed_order (rs_suppressed st ++ off);
     es_Lifecycle := applyDirectoryStanding subject lifecycle; es_Given := rs_given st |}.

(** The wire's field map; the lifecycle fields are always present. *)
Definition Desired (s : EntitlementSet) : gmap string FieldValue :=
  <[FieldSMBEnabled := Flag (lf_SMBEnabled (es_Lifecycle s))]>
  (<[FieldEnabled := Flag (lf_Enabled (es_Lifecycle s))]>
   (map_imap (λ f vs, if IsLifecycleField f then None else Some (Values vs)) (es_Fields s))).

(** ** The lifecycle trigger *)
Context `{!Uuids} (sha256hex : string → string) (clock : Z).

Definition convergeOn (d : Db) (actor user tgt : string) : PlanError + Db :=
  match RecordSystemConvergence sha256hex d clock
    {| sc_Target := tgt; sc_SubjectID := user; sc_Actor := actor; sc_Reason := "Their roles changed.";
       sc_Desired := Some (Desired (ResolveEntitlements d user tgt)); sc_WithdrawsOnly := false |} with
  | inl e => inl e
  | inr (d, _, _) => inr d
  end.
Definition targetsReachedBy (d : Db) (changed : list Role) : list string :=
  sort_strings (elements (list_to_set (changed ≫= λ k, TargetsMappedToRole d k.1 k.2) : gset string)).
Fixpoint converge_all (d : Db) (actor user : string) (tgts : list string) : PlanError + Db :=
  match tgts with
  | [] => inr d
  | t :: tgts => match convergeOn d actor user t with inl e => inl e | inr d => converge_all d actor user tgts end
  end.
Definition triggerTargetConvergence (d : Db) (actor user : string) (changed : list Role) : PlanError + Db :=
  match changed with
  | [] => inr d
  | _ => converge_all d actor user (targetsReachedBy d changed)
  end.
Definition ConvergeProjectChange (d : Db) (actor user project : string) : PlanError + Db :=
  match TargetServingProject d project with
  | None => inr d
  | Some tgt => convergeOn d actor user tgt
  end.

(** withLockedAccess's list of who changed: merged per actor and person. *)
Record pendingConvergence := { pc_actor : string; pc_user : string; pc_changed : list Role }.
Fixpoint add_pending (items : list pendingConvergence) (actor user : string) (changed : list Role) : list pendingConvergence :=
  match items with
  | [] => [{| pc_actor := actor; pc_user := user; pc_changed := changed |}]
  | it :: items =>
      if (pc_actor it =? actor) && (pc_user it =? user)
      then {| pc_actor := actor; pc_user := user; pc_changed := pc_changed it ++ changed |} :: items
      else it :: add_pending items actor user changed
  end.
Definition deferTargetConvergence (items : list pendingConvergence) (actor user : string) (changed : list Role)
    : list pendingConvergence :=
  match changed with [] => items | _ => add_pending items actor user changed end.
Fixpoint flush (d : Db) (items : list pendingConvergence) : PlanError + Db :=
  match items with
  | [] => inr d
  | it :: items =>
      match triggerTargetConvergence d (pc_actor it) (pc_user it) (pc_changed it) with
      | inl e => inl e
      | inr d => flush d items
      end
  end.
End resolve.

(** ** Terms *)
Definition NormaliseTerm (field value : string) : string * string := (TrimSpace field, TrimSpace value).
Definition NormaliseValue (value : string) : string := (NormaliseTerm "" value).2.
Definition ValidateAllowanceTerm (declared : list string) (field value : string) : option (string * string) :=
  let '(field, value) := NormaliseTerm field value in
  if (field =? "") || (value =? "") then None
  else if negb (bool_decide (field ∈ declared)) then None
  else if IsLifecycleField field && (value <>? "true") then None
  else Some (field, value).
Definition ValidateMappingField (declared : list string) (field : string) : bool :=
  let field := TrimSpace field in
  (field <>? "") && negb (IsLifecycleField field) && bool_decide (field ∈ declared).

(** ** What a person is owed on a target, with no map and no loop *)
Section spec.
Context (d : Db) (user tgt : string).
Definition mapped (f v : string) : Prop :=
  IsLifecycleField f = false ∧ ∃ m, m ∈ mappings (tables d) ∧ m_Target m = tgt ∧ m_Field m = f ∧ m_Value m = v ∧
    UserExpectsRole d user (m_ProjectID m) (m_RoleKey m) = true.
Definition reached : Prop := ∃ f v, mapped f v.
Definition allowed (direction f v : string) (a : Allowance) : Prop :=
  a ∈ allowances (tables d) ∧ al_SubjectID a = user ∧ al_Target a = tgt ∧ in_force d a = true ∧
  al_Direction a = direction ∧ al_Field a = f ∧ al_Value a = v.
Definition on_hold (f v : string) : Prop := ∃ a, allowed AllowanceDeny f v a.
Definition own_value (f v : string) : Prop := ∃ a, allowed AllowanceSet f v a.
End spec.
(** No stored field holds a NUL: the database's text cannot. *)
Definition texts_ok (d : Db) : Prop :=
  (∀ m, m ∈ mappings (tables d) → nul_free (m_Field m)) ∧ (∀ a, a ∈ allowances (tables d) → nul_free (al_Field a)).

Lemma MappingsForRoles_elem d tgt roles m :
  m ∈ MappingsForRoles d tgt roles ↔
  m ∈ mappings (tables d) ∧ m_Target m = tgt ∧ {| ref_ProjectID := m_ProjectID m; ref_RoleKey := m_RoleKey m |} ∈ roles.
Proof.
  unfold MappingsForRoles. rewrite stable_sort_elem, list_elem_of_bind. setoid_rewrite list_elem_of_fmap.
  setoid_rewrite list_elem_of_filter. split.
  - intros (m' & (r & -> & (E1 & E2) & Hr) & Ht & Hm). split_and!; [done..|]. destruct r; simpl in *. congruence.
  - intros (Hm & Ht & Hr). exists m. split; [|done]. eexists. split; [done|]. by split; [|exact Hr].
Qed.
Lemma AllowancesInForce_elem d user tgt a :
  a ∈ AllowancesInForce d user tgt ↔
  a ∈ allowances (tables d) ∧ al_SubjectID a = user ∧ al_Target a = tgt ∧ in_force d a = true.
Proof. unfold AllowancesInForce. rewrite stable_sort_elem, list_elem_of_filter. tauto. Qed.

(** ** Facts: the allowances *)
Definition term_of (a : Allowance) : string := termKey (al_Field a) (al_Value a).
Lemma denied_lookup l st k :
  is_Some ((foldl read_allowance st l).1 !! k) ↔
  is_Some (st.1 !! k) ∨ ∃ a, a ∈ l ∧ al_Direction a = AllowanceDeny ∧ term_of a = k.
Proof.
  revert st; induction l as [|a l IH]; intros [denied overrides]; cbn [foldl].
  { split; [by left|]. intros [?|(? & ?%elem_of_nil & _)]; done. }
  rewrite IH. setoid_rewrite elem_of_cons. unfold read_allowance.
  destruct (decide (al_Direction a = AllowanceSet)) as [Es|Es].
  { rewrite bool_decide_eq_true_2 by done. simpl. split; [intros [?|(b & ? & ?)]; eauto|].
    intros [?|(b & [->|?] & Ed & ?)]; [by left|by rewrite Es in Ed|right; eauto]. }
  rewrite bool_decide_eq_false_2 by done. destruct (decide (al_Direction a = AllowanceDeny)) as [Ed|Ed].
  - rewrite bool_decide_eq_true_2 by done. simpl. fold (term_of a). destruct (decide (term_of a = k)) as [<-|Hne].
    + rewrite lookup_insert_eq. split; intros _; [right; exists a; auto|left; eauto].
    + rewrite lookup_insert_ne by done. split; [intros [?|(b & ? & ?)]; eauto|].
      intros [?|(b & [->|?] & ? & ?)]; [by left|congruence|right; eauto].
  - rewrite bool_decide_eq_false_2 by done. simpl. split; [intros [?|(b & ? & ?)]; eauto|].
    intros [?|(b & [->|?] & ? & ?)]; [by left|congruence|right; eauto].
Qed.
Lemma overrides_lookup l st f :
  (is_Some ((foldl read_allowance st l).2 !! f) ↔
     is_Some (st.2 !! f) ∨ ∃ a, a ∈ l ∧ al_Direction a = AllowanceSet ∧ al_Field a = f) ∧
  (∀ a, (foldl read_allowance st l).2 !! f = Some a →
     st.2 !! f = Some a ∨ a ∈ l ∧ al_Direction a = AllowanceSet ∧ al_Field a = f).
Proof.
  revert st; induction l as [|a l IH]; intros [denied overrides]; cbn [foldl].
  { split; [|by left]. split; [by left|]. intros [?|(? & ?%elem_of_nil & _)]; done. }
  destruct (IH (read_allowance (denied, overrides) a)) as [H1 H2]. rewrite H1. setoid_rewrite elem_of_cons.
  assert (Hstep : (is_Some ((read_allowance (denied, overrides) a).2 !! f) ↔
            is_Some (overrides !! f) ∨ al_Direction a = AllowanceSet ∧ al_Field a = f) ∧
          (∀ b, (read_allowance (denied, overrides) a).2 !! f = Some b →
            overrides !! f = Some b ∨ b = a ∧ al_Direction a = AllowanceSet ∧ al_Field a = f)).
  { unfold read_allowance. case_bool_decide as Es; [|case_bool_decide; simpl; naive_solver]. simpl.
    destruct (decide (al_Field a = f)) as [<-|Hne].
    - destruct (overrides !! al_Field a) as [prev|] eqn:Ep; [case_match|].
      + rewrite lookup_insert_eq. naive_solver.
      + rewrite Ep. naive_solver.
      + rewrite lookup_insert_eq. naive_solver.
    - destruct (overrides !! al_Field a); [case_match|]; rewrite ?lookup_insert_ne by done; naive_solver. }
  destruct Hstep as [Hs1 Hs2]. split; [rewrite Hs1; naive_solver|]. intros b [Hb|?]%H2; [|naive_solver].
  apply Hs2 in Hb. naive_solver.
Qed.

(** ** Facts: the mappings *)
Definition live_mapping (m : RoleMapping) : bool := negb (IsLifecycleField (m_Field m)).
Lemma resolve_mappings denied l st :
  let st' := foldl (resolve_mapping denied) st l in
  (rs_mappedAny st' = true ↔ rs_mappedAny st = true ∨ ∃ m, m ∈ l ∧ live_mapping m = true) ∧
  (∀ f v, v ∈ default ∅ (rs_values st' !! f) ↔
     v ∈ default ∅ (rs_values st !! f) ∨
     ∃ m, m ∈ l ∧ live_mapping m = true ∧ m_Field m = f ∧ m_Value m = v ∧ denied !! termKey f v = None).
Proof.
  cbn zeta. revert st; induction l as [|m l IH]; intros st; cbn [foldl].
  { split; [|intros f v]; (split; [by left|]); intros [?|(? & ?%elem_of_nil & _)]; done. }
  destruct (IH (resolve_mapping denied st m)) as [H1 H2]. setoid_rewrite elem_of_cons.
  assert (Hstep : (rs_mappedAny (resolve_mapping denied st m) = true ↔ rs_mappedAny st = true ∨ live_mapping m = true) ∧
    (∀ f v, v ∈ default ∅ (rs_values (resolve_mapping denied st m) !! f) ↔ v ∈ default ∅ (rs_values st !! f) ∨
       live_mapping m = true ∧ m_Field m = f ∧ m_Value m = v ∧ denied !! termKey f v = None)).
  { unfold resolve_mapping, live_mapping. destruct (IsLifecycleField (m_Field m)); simpl; [split; naive_solver|].
    destruct (denied !! termKey (m_Field m) (m_Value m)) eqn:Ed; simpl; (split; [naive_solver|]); intros f v.
    - split; [by left|]. intros [?|(_ & <- & <- & E)]; [done|]. by rewrite Ed in E.
    - destruct (decide (m_Field m = f)) as [<-|Hne].
      + rewrite lookup_insert_eq. simpl. rewrite elem_of_union, elem_of_singleton. naive_solver.
      + rewrite lookup_insert_ne by done. naive_solver. }
  destruct Hstep as [Hs1 Hs2]. rewrite H1, Hs1. setoid_rewrite H2. setoid_rewrite Hs2. split; [naive_solver|].
  intros f v. split.
  - intros [[?|?]|(m' & ? & ?)]; [by left|right; exists m; auto|right; exists m'; auto].
  - intros [?|(m' & [->|?] & ?)]; [by left; left|by left; right|right; exists m'; auto].
Qed.
Lemma add_fields values l fields f :
  (∀ vs, fields !! f = Some vs → vs = sorted_values values f) →
  let fields' := foldl (add_field values) fields l in
  (is_Some (fields' !! f) ↔ is_Some (fields !! f) ∨ ∃ m, m ∈ l ∧ live_mapping m = true ∧ m_Field m = f) ∧
  (∀ vs, fields' !! f = Some vs → vs = sorted_values values f).
Proof.
  cbn zeta. revert fields; induction l as [|m l IH]; intros fields Hv; cbn [foldl].
  { split; [|done]. split; [by left|]. intros [?|(? & ?%elem_of_nil & _)]; done. }
  assert (Hstep : (is_Some (add_field values fields m !! f) ↔ is_Some (fields !! f) ∨ live_mapping m = true ∧ m_Field m = f) ∧
                  (∀ vs, add_field values fields m !! f = Some vs → vs = sorted_values values f)).
  { unfold add_field, live_mapping. destruct (IsLifecycleField (m_Field m)); simpl; [split; [naive_solver|done]|].
    destruct (decide (m_Field m = f)) as [<-|Hne].
    - destruct (fields !! m_Field m) as [vs|] eqn:E; [rewrite E; naive_solver|]. rewrite lookup_insert_eq. naive_solver.
    - destruct (fields !! m_Field m); rewrite ?lookup_insert_ne by done; naive_solver. }
  destruct Hstep as [Hs1 Hs2]. destruct (IH (add_field values fields m) Hs2) as [H1 H2]. split; [|done].
  rewrite H1, Hs1. setoid_rewrite elem_of_cons. naive_solver.
Qed.
Lemma override_fields (overrides : gmap string Allowance) fields f :
  map_fold override_field fields overrides !! f =
  match overrides !! f with
  | Some a => if IsLifecycleField f then fields !! f else Some [al_Value a]
  | None => fields !! f
  end.
Proof.
  revert f. apply (map_fold_weak_ind (λ r m, ∀ f, r !! f = match m !! f with
    | Some a => if IsLifecycleField f then fields !! f else Some [al_Value a] | None => fields !! f end)); [done|].
  intros g a m r Hg IH f. unfold override_field. destruct (decide (g = f)) as [->|Hne].
  - rewrite lookup_insert_eq. destruct (IsLifecycleField f); [by rewrite IH, Hg|by rewrite lookup_insert_eq].
  - rewrite lookup_insert_ne by done. destruct (IsLifecycleField g); [done|by rewrite lookup_insert_ne].
Qed.

(** ** The resolver, read through its loops *)
Section resolver.
Context (find_user : string → option string) (d : Db) (user tgt : string) (Htexts : texts_ok d).

Lemma denied_iff f v :
  nul_free f →
  (foldl read_allowance (∅, ∅) (AllowancesInForce d user tgt)).1 !! termKey f v = None ↔ ¬ on_hold d user tgt f v.
Proof using Htexts.
  intros Hf. rewrite eq_None_not_Some. apply not_iff_compat. rewrite denied_lookup. simpl. rewrite lookup_empty.
  setoid_rewrite AllowancesInForce_elem. split.
  - intros [[? [=]]|(a & (Ha & ? & ? & ?) & ? & E)]. apply nul_split in E as [? ?]; [|by apply Htexts|done]. by exists a.
  - intros (a & Ha & ? & ? & ? & ? & <- & <-). right. by exists a.
Qed.
Lemma mapped_iff f v :
  (∃ m, m ∈ MappingsForRoles d tgt (effectiveRoleRefs d user) ∧ live_mapping m = true ∧ m_Field m = f ∧ m_Value m = v) ↔
  mapped d user tgt f v.
Proof.
  setoid_rewrite MappingsForRoles_elem. setoid_rewrite effectiveRoleRefs_elem. unfold mapped, live_mapping.
  setoid_rewrite negb_true_iff. naive_solver.
Qed.
Lemma nul_free_field f v : mapped d user tgt f v → nul_free f.
Proof using Htexts. intros (_ & m & Hm & _ & <- & _). by apply Htexts. Qed.

Lemma ResolveEntitlements_reads :
  let set := ResolveEntitlements find_user d user tgt in
  let '(denied, overrides) := foldl read_allowance (∅, ∅) (AllowancesInForce d user tgt) in
  ∃ any, (any = true ↔ reached d user tgt) ∧
    (∀ f, IsLifecycleField f = false → es_Fields set !! f =
       match (if any then overrides !! f else None) with
       | Some a => Some [al_Value a]
       | None => es_Fields set !! f
       end) ∧
    (∀ f vs, (if any then overrides !! f else None) = None → es_Fields set !! f = Some vs →
       (∃ v, mapped d user tgt f v) ∧ StronglySorted String.le vs ∧ NoDup vs ∧
       ∀ v, v ∈ vs ↔ mapped d user tgt f v ∧ ¬ on_hold d user tgt f v) ∧
    (∀ f v, mapped d user tgt f v → is_Some (es_Fields set !! f)) ∧
    es_Lifecycle set = applyDirectoryStanding find_user user (resolveLifecycle any denied).1.
Proof using Htexts.
  unfold ResolveEntitlements. pose proof denied_iff as Hden.
  destruct (foldl read_allowance (∅, ∅) (AllowancesInForce d user tgt)) as [denied overrides] eqn:Ea. simpl in Hden.
  set (l := MappingsForRoles d tgt (effectiveRoleRefs d user)).
  set (st := foldl (resolve_mapping denied) _ l).
  destruct (resolve_mappings denied l {| rs_mappedAny := false; rs_suppressed := []; rs_values := ∅; rs_given := ∅ |})
    as [Hany Hvals]. fold st in Hany, Hvals.
  assert (Hany' : rs_mappedAny st = true ↔ reached d user tgt).
  { rewrite Hany. simpl. unfold reached. setoid_rewrite <-mapped_iff. fold l. naive_solver. }
  assert (Hfield : ∀ f, (is_Some (foldl (add_field (rs_values st)) ∅ l !! f) ↔ ∃ v, mapped d user tgt f v) ∧
    ∀ vs, foldl (add_field (rs_values st)) ∅ l !! f = Some vs → vs = sorted_values (rs_values st) f).
  { intros f. destruct (add_fields (rs_values st) l ∅ f) as [H1 H2]; [by intros vs; rewrite lookup_empty|].
    split; [|done]. rewrite H1, lookup_empty. setoid_rewrite <-mapped_iff. fold l. split.
    - intros [[? [=]]|(m & ? & ? & ?)]. by exists (m_Value m), m.
    - intros (v & m & ? & ? & ? & _). right. by exists m. }
  assert (Hsorted : ∀ f vs, foldl (add_field (rs_values st)) ∅ l !! f = Some vs →
    (∃ v, mapped d user tgt f v) ∧ StronglySorted String.le vs ∧ NoDup vs ∧
    ∀ v, v ∈ vs ↔ mapped d user tgt f v ∧ ¬ on_hold d user tgt f v).
  { intros f vs Hf. destruct (proj1 (proj1 (Hfield f)) ltac:(eauto)) as [v0 Hv0]. apply Hfield in Hf as ->.
    unfold sorted_values. split_and!; [eauto|apply sort_strings_sorted|rewrite sort_strings_perm; apply NoDup_elements|].
    intros v. rewrite sort_strings_elem, elem_of_elements, Hvals. simpl. rewrite lookup_empty. simpl.
    rewrite elem_of_empty, <-mapped_iff. fold l. rewrite <-(Hden f v) by (by eapply nul_free_field). naive_solver. }
  exists (rs_mappedAny st). destruct (resolveLifecycle _ _) as [lf off] eqn:El. simpl.
  split_and!; [done|..].
  - intros f Hlf. destruct (rs_mappedAny st); [|done]. rewrite override_fields, Hlf. by destruct (overrides !! f).
  - intros f vs Ho. destruct (rs_mappedAny st); [|apply Hsorted]. rewrite override_fields, Ho. apply Hsorted.
  - intros f v Hm. assert (is_Some (foldl (add_field (rs_values st)) ∅ l !! f)) by (apply Hfield; eauto).
    destruct (rs_mappedAny st); [|done]. rewrite override_fields. destruct (overrides !! f); [|done].
    destruct (IsLifecycleField f); eauto.
  - done.
Qed.
End resolver.

Lemma Desired_lookup s f :
  Desired s !! f = if f =? FieldSMBEnabled then Some (Flag (lf_SMBEnabled (es_Lifecycle s)))
    else if f =? FieldEnabled then Some (Flag (lf_Enabled (es_Lifecycle s))) else Values <$> es_Fields s !! f.
Proof.
  unfold Desired. case_bool_decide as E1; [by rewrite E1, lookup_insert_eq|].
  rewrite lookup_insert_ne by done. case_bool_decide as E2; [by rewrite E2, lookup_insert_eq|].
  rewrite lookup_insert_ne, map_lookup_imap by done. unfold IsLifecycleField. rewrite !bool_decide_eq_false_2 by done.
  by destruct (es_Fields s !! f).
Qed.
Lemma standing_iff find_user user l P Q :
  l = applyDirectoryStanding find_user user {| lf_Enabled := P; lf_SMBEnabled := Q; lf_NotAMember := false; lf_Reason := "" |} →
  let gone := ∃ status, find_user user = Some status ∧ Left status = true in
  (lf_Enabled l = true ↔ P = true ∧ ¬ gone) ∧ (lf_SMBEnabled l = true ↔ Q = true ∧ ¬ gone).
Proof.
  intros ->. cbn zeta. unfold applyDirectoryStanding. destruct (find_user user) as [s|].
  - destruct (Left s) eqn:El; simpl.
    + split; (split; [done|]); intros [_ Hno]; destruct Hno; eauto.
    + split; (split; [intros ->; split; [done|]|tauto]); intros (s' & [= <-] & ?); congruence.
  - simpl. split; (split; [intros ->; split; [done|]|tauto]); by intros (? & [=] & _).
Qed.
(** One person's own value for a field, as the map holds it. *)
Lemma own_value_lookup `{!Uuids} d user tgt f :
  policy_wf d →
  let overrides := (foldl read_allowance (∅, ∅) (AllowancesInForce d user tgt)).2 in
  match overrides !! f with
  | Some a => ∀ v, own_value d user tgt f v ↔ v = al_Value a
  | None => ¬ ∃ v, own_value d user tgt f v
  end.
Proof.
  intros Hwf. cbn zeta. destruct (overrides_lookup (AllowancesInForce d user tgt) (∅, ∅) f) as [H1 H2].
  destruct (_.2 !! f) as [a|] eqn:E.
  - destruct (H2 a eq_refl) as [He|(Ha & Hd & Hf)]; [by simpl in He; rewrite lookup_empty in He|].
    apply AllowancesInForce_elem in Ha as (Hin & Hs & Ht & Hi). intros v. split.
    + intros (b & Hb & Hbs & Hbt & Hbi & Hbd & Hbf & <-).
      apply list_elem_of_lookup in Hin as [i Hia], Hb as [j Hjb].
      assert (i = j) as <-; [|congruence]. eapply po_one_in_force; try done.
      unfold same_kind, same_field. rewrite !andb_true_iff, !bool_decide_eq_true. split_and!; [congruence..|by left].
    + intros ->. exists a. by split_and!.
  - intros (v & b & Hb & Hbs & Hbt & Hbi & Hbd & Hbf & _). assert (is_Some (@None Allowance)) as [? [=]].
    apply H1. right. exists b. by rewrite AllowancesInForce_elem.
Qed.

(** ** Facts: the trigger only queues convergences *)
Lemma converges_trans `{!Uuids} d1 d2 d3 : converges d1 d2 → converges d2 d3 → converges d1 d3.
Proof.
  intros [? ? ? ? ? (n1 & E1 & F1) ?] [? ? ? ? ? (n2 & E2 & F2) ?]. split; [congruence|congruence|lia|congruence|congruence| |congruence].
  exists (n1 ++ n2). rewrite E2, E1, (assoc_L (++)). split; [done|]. by apply Forall_app.
Qed.
Section trigger.
Context `{!Returning, !Uuids} (find_user : string → option string) (sha256hex : string → string) (clock : Z).
Lemma convergeOn_ok d actor user tgt d' :
  convergeOn find_user sha256hex clock d actor user tgt = inr d' → steps d d' ∧ converges d d'.
Proof.
  unfold convergeOn. destruct (RecordSystemConvergence _ _ _ _) as [e|[[d1 p] i]] eqn:E; [done|]. intros [= <-].
  by apply (RecordSystemConvergence_ok _ _ _ _ _ _ _ E).
Qed.
Lemma converge_all_ok tgts d actor user d' :
  converge_all find_user sha256hex clock d actor user tgts = inr d' → steps d d' ∧ converges d d'.
Proof.
  revert d; induction tgts as [|t tgts IH]; intros d; simpl; [intros [= <-]; split; [done|apply converges_refl]|].
  destruct (convergeOn _ _ _ _ _ _ _) as [e|d1] eqn:E; [done|]. apply convergeOn_ok in E as [? ?].
  intros [? ?]%IH. split; [by etrans|by eapply converges_trans].
Qed.
Lemma triggerTargetConvergence_ok d actor user changed d' :
  triggerTargetConvergence find_user sha256hex clock d actor user changed = inr d' → steps d d' ∧ converges d d'.
Proof.
  unfold triggerTargetConvergence. destruct changed; [intros [= <-]; split; [done|apply converges_refl]|].
  apply converge_all_ok.
Qed.
Lemma flush_ok items d d' : flush find_user sha256hex clock d items = inr d' → steps d d' ∧ converges d d'.
Proof.
  revert d; induction items as [|it items IH]; intros d; simpl; [intros [= <-]; split; [done|apply converges_refl]|].
  destruct (triggerTargetConvergence _ _ _ _ _ _ _) as [e|d1] eqn:E; [done|]. apply triggerTargetConvergence_ok in E as [? ?].
  intros [? ?]%IH. split; [by etrans|by eapply converges_trans].
Qed.
End trigger.

(** ** Facts: what the resolver answers *)
Section resolved.
Context `{!Uuids} (find_user : string → option string) (d : Db) (user tgt : string).
Let set := ResolveEntitlements find_user d user tgt.
Let gone := ∃ status, find_user user = Some status ∧ Left status = true.
Lemma ResolveEntitlements_fields f :
  policy_wf d → texts_ok d → IsLifecycleField f = false →
  (∀ vs, es_Fields set !! f = Some vs → StronglySorted String.le vs ∧ NoDup vs ∧
     ∀ v, v ∈ vs ↔ own_value d user tgt f v ∨
       (¬ ∃ w, own_value d user tgt f w) ∧ mapped d user tgt f v ∧ ¬ on_hold d user tgt f v) ∧
  (is_Some (es_Fields set !! f) ↔ (∃ v, mapped d user tgt f v) ∨ reached d user tgt ∧ ∃ v, own_value d user tgt f v).
Proof.
  intros Hwf Htx Hf. pose proof (ResolveEntitlements_reads find_user d user tgt Htx) as Hr. fold set in Hr.
  pose proof (own_value_lookup d user tgt f Hwf) as Hown.
  destruct (foldl read_allowance (∅, ∅) _) as [denied overrides]. simpl in Hown.
  destruct Hr as (any & Hany & Hov & Hvals & Hpres & _). split.
  - intros vs Hvs. destruct any.
    + specialize (Hov f Hf). destruct (overrides !! f) as [a|] eqn:Eo.
      * rewrite Hov in Hvs. simplify_eq Hvs. intros <-. split; [repeat constructor|]. split; [apply NoDup_singleton|].
        intros v. rewrite list_elem_of_singleton, <-Hown. split; [by left|]. intros [?|[Hno _]]; [done|].
        destruct Hno. exists (al_Value a). by apply Hown.
      * destruct (Hvals f vs) as (_ & ? & ? & Hv); [by rewrite Eo|done|]. split_and!; [done..|]. intros v. rewrite Hv. naive_solver.
    + destruct (Hvals f vs eq_refl Hvs) as ([v0 Hv0] & _). exfalso. by assert (false = true) by (apply Hany; by exists f, v0).
  - split.
    + intros [vs Hvs]. destruct any.
      * destruct (overrides !! f) as [a|] eqn:Eo; [|left; by eapply (Hvals f vs); [rewrite Eo|]].
        right. split; [by apply Hany|]. exists (al_Value a). by apply Hown.
      * left. by apply (Hvals f vs).
    + intros [[v Hv]|[Hre [v Hv]]]; [by eapply Hpres|]. apply Hany in Hre as ->. rewrite (Hov f Hf).
      destruct (overrides !! f) as [a|]; [eauto|]. destruct Hown. eauto.
Qed.
Lemma ResolveEntitlements_lifecycle :
  texts_ok d →
  (lf_Enabled (es_Lifecycle set) = true ↔ reached d user tgt ∧ ¬ on_hold d user tgt FieldEnabled "true" ∧ ¬ gone) ∧
  (lf_SMBEnabled (es_Lifecycle set) = true ↔ reached d user tgt ∧ ¬ on_hold d user tgt FieldEnabled "true" ∧
     ¬ on_hold d user tgt FieldSMBEnabled "true" ∧ ¬ gone).
Proof.
  intros Htx. pose proof (ResolveEntitlements_reads find_user d user tgt Htx) as Hr. fold set in Hr.
  pose proof (denied_iff d user tgt Htx) as Hden.
  destruct (foldl read_allowance (∅, ∅) _) as [denied overrides]. simpl in Hden.
  destruct Hr as (any & Hany & _ & _ & _ & Hlf).
  destruct (standing_iff find_user user _ _ _ Hlf) as [He Hs]. fold gone in He, Hs.
  rewrite He, Hs, !andb_true_iff, !bool_decide_eq_true, Hany, !Hden by (by repeat split). tauto.
Qed.
End resolved.

(** ** Properties *)

(** C31. A target's desired state is what the roles say, less what is on hold.
    With policy rows that do not contradict each other: a field holds, sorted
    and once each, the person's own value if they have one in force (even one that
    is on hold), and otherwise exactly the values some role they hold is mapped to
    that no hold in force takes away; a field is present exactly when a held role
    maps it (even if all of it is on hold) or it has an own value and some role
    reaches the target. The account is enabled exactly when some held role is
    mapped, whether or not a hold takes away what it is mapped to, nobody holds the
    account itself off and the directory does not report the person gone; its SMB
    access additionally needs no hold of its own. The wire carries those two
    fields always, and every other field as resolved. The code's comment says that
    lifecycle is computed from what survived the holds; it is not
    ([all_on_hold_stays_enabled]), and a hold gives way to an own value
    ([hold_and_own_value]). *)
Theorem ResolveEntitlements_spec `{!Uuids} find_user d user tgt :
  policy_wf d → texts_ok d →
  let set := ResolveEntitlements find_user d user tgt in
  let gone := ∃ status, find_user user = Some status ∧ Left status = true in
  (∀ f vs, IsLifecycleField f = false → es_Fields set !! f = Some vs →
     StronglySorted String.le vs ∧ NoDup vs ∧
     ∀ v, v ∈ vs ↔ own_value d user tgt f v ∨
       (¬ ∃ w, own_value d user tgt f w) ∧ mapped d user tgt f v ∧ ¬ on_hold d user tgt f v) ∧
  (∀ f, IsLifecycleField f = false → is_Some (es_Fields set !! f) ↔
     (∃ v, mapped d user tgt f v) ∨ reached d user tgt ∧ ∃ v, own_value d user tgt f v) ∧
  (lf_Enabled (es_Lifecycle set) = true ↔ reached d user tgt ∧ ¬ on_hold d user tgt FieldEnabled "true" ∧ ¬ gone) ∧
  (lf_SMBEnabled (es_Lifecycle set) = true ↔ reached d user tgt ∧ ¬ on_hold d user tgt FieldEnabled "true" ∧
     ¬ on_hold d user tgt FieldSMBEnabled "true" ∧ ¬ gone) ∧
  (∀ f, Desired set !! f = if f =? FieldSMBEnabled then Some (Flag (lf_SMBEnabled (es_Lifecycle set)))
     else if f =? FieldEnabled then Some (Flag (lf_Enabled (es_Lifecycle set))) else Values <$> es_Fields set !! f).
Proof.
  intros Hwf Htx set gone. destruct (ResolveEntitlements_lifecycle find_user d user tgt Htx) as [He Hs].
  split_and!; [| |exact He|exact Hs|intros f; apply Desired_lookup].
  - intros f vs Hf. by apply ResolveEntitlements_fields.
  - intros f Hf. by apply ResolveEntitlements_fields.
Qed.

(** A hold that was accepted takes effect. A term the validation lets
    through, recorded as a hold that has not already lapsed, is in the resolved
    state: a hold on the account disables it and its SMB access, one on SMB
    disables that, and one on a field's value keeps the value out of the field,
    unless the person has a value of their own for it. No accepted spelling of
    a term is silently inert. *)
Theorem accepted_hold_takes_effect `{!Uuids} find_user d declared field value a d' a' :
  policy_wf d → texts_ok d' →
  ValidateAllowanceTerm declared field value = Some (al_Field a, al_Value a) → al_Direction a = AllowanceDeny →
  from_option (λ e, now d <? e)%Z true (al_ExpiresAt a) = true → CreateAllowance d a = inr (d', a') →
  let set := ResolveEntitlements find_user d' (al_SubjectID a) (al_Target a) in
  if al_Field a =? FieldEnabled then lf_Enabled (es_Lifecycle set) = false ∧ lf_SMBEnabled (es_Lifecycle set) = false
  else if al_Field a =? FieldSMBEnabled then lf_SMBEnabled (es_Lifecycle set) = false
  else (¬ ∃ w, own_value d' (al_SubjectID a) (al_Target a) (al_Field a) w) →
       ∀ vs, es_Fields set !! al_Field a = Some vs → al_Value a ∉ vs.
Proof.
  intros Hwf Htx Hval Hdir Hexp E set. assert (policy_wf d') as Hwf' by (eapply policy_wf_step; [done|by eapply po_create_allowance]).
  assert (on_hold d' (al_SubjectID a) (al_Target a) (al_Field a) (al_Value a)) as Hhold.
  { unfold CreateAllowance in E. destruct (allowance_refusal a) eqn:Hr; [done|]. rewrite bool_decide_eq_false_2 in E by (by rewrite Hdir).
    destruct (head _); [done|]. apply policy_wf_iff in Hwf as (_ & _ & _ & Hk & _).
    apply insert_allowance_ok in E as ((En & _) & Ea & _ & _ & ? & ? & ? & ? & ? & Ex & El & _); [|done..].
    exists a'. split_and!; try done; [rewrite Ea, elem_of_app, list_elem_of_singleton; auto| |congruence].
    unfold in_force. by rewrite El, Ex, En, Hexp. }
  destruct (ResolveEntitlements_lifecycle find_user d' (al_SubjectID a) (al_Target a) Htx) as [He Hs].
  fold set in He, Hs.
  unfold ValidateAllowanceTerm in Hval. destruct (NormaliseTerm field value) as [f v].
  destruct (_ || _); [done|]. destruct (negb _); [done|]. destruct (IsLifecycleField f && _) eqn:Hlf; [done|].
  injection Hval as -> ->. assert (IsLifecycleField (al_Field a) = true → al_Value a = "true") as Htrue.
  { intros Hl. rewrite Hl in Hlf. simpl in Hlf. by apply negb_false_iff, bool_decide_eq_true in Hlf. }
  clear Hlf. case_bool_decide as E1; [|case_bool_decide as E2].
  - rewrite E1 in Hhold, Htrue. specialize (Htrue eq_refl). rewrite Htrue in Hhold. split; apply not_true_iff_false; [rewrite He|rewrite Hs]; tauto.
  - rewrite E2 in Hhold, Htrue. specialize (Htrue eq_refl). rewrite Htrue in Hhold. apply not_true_iff_false. rewrite Hs. tauto.
  - intros Hno vs Hvs. destruct (ResolveEntitlements_fields find_user d' (al_SubjectID a) (al_Target a) (al_Field a)) as [Hv _];
      [done..|unfold IsLifecycleField; by rewrite !bool_decide_eq_false_2|].
    destruct (Hv vs Hvs) as (_ & _ & Hv'). rewrite Hv'. naive_solver.
Qed.

(** ** Ada on the NAS *)
#[local] Existing Instance hex_uuids.
Definition demo_hold (direction field value : string) : Allowance :=
  {| al_ID := ""; al_SubjectID := "ada"; al_Target := "nas"; al_Field := field; al_Value := value;
     al_Direction := direction; al_ActorID := "op"; al_Reason := "on leave"; al_CreatedAt := 0; al_ExpiresAt := None;
     al_ReviewDate := Some 5000%Z; al_LiftedAt := None; al_LiftedBy := None |}.
Definition demo_entitled : Db := with_tables demo_policy (with_catalog (tables demo_policy) demo_catalog).
Lemma demo_entitled_wf : policy_wf demo_entitled.
Proof. destruct demo_policy_wf. by split. Qed.
Lemma demo_entitled_texts : texts_ok demo_entitled.
Proof. split; [by intros m ->%list_elem_of_singleton|by intros ? ?%elem_of_nil]. Qed.
Lemma ResolveEntitlements_spec_witness :
  mapped demo_entitled "ada" "nas" "group" "makers" ∧
  lf_Enabled (es_Lifecycle (ResolveEntitlements (λ _, None) demo_entitled "ada" "nas")) = true ∧
  ∃ vs, es_Fields (ResolveEntitlements (λ _, None) demo_entitled "ada" "nas") !! "group" = Some vs ∧ "makers" ∈ vs.
Proof.
  assert (mapped demo_entitled "ada" "nas" "group" "makers") as Hm.
  { split; [done|]. exists demo_mapping. by split_and!; [left|vm_compute..]. }
  assert (∀ f v, ¬ on_hold demo_entitled "ada" "nas" f v ∧ ¬ own_value demo_entitled "ada" "nas" f v) as Hno
    by (intros f v; split; by intros (a & ?%elem_of_nil & _)).
  destruct (ResolveEntitlements_spec (λ _, None) demo_entitled "ada" "nas" demo_entitled_wf demo_entitled_texts)
    as (Hv & Hp & He & _). split; [exact Hm|]. split.
  - apply He. split_and!; [by exists "group", "makers"|apply Hno|by intros (? & [=] & _)].
  - destruct (proj2 (Hp "group" eq_refl)) as [vs Hvs]; [by left; exists "makers"|]. exists vs. split; [exact Hvs|].
    apply (proj2 (proj2 (Hv "group" vs eq_refl Hvs))). right. split_and!; [by intros [w ?%Hno]|exact Hm|apply Hno].
Defined.
Lemma accepted_hold_takes_effect_witness :
  ∃ d' a', CreateAllowance demo_entitled (demo_hold AllowanceDeny "enabled" "true") = inr (d', a') ∧
    lf_Enabled (es_Lifecycle (ResolveEntitlements (λ _, None) d' "ada" "nas")) = false.
Proof.
  do 2 eexists. split; [reflexivity|]. refine (proj1 (accepted_hold_takes_effect (λ _, None) demo_entitled ["enabled"] " enabled" "true "
    (demo_hold AllowanceDeny "enabled" "true") _ _ demo_entitled_wf _ _ _ _ _)); try reflexivity.
  split; [by intros m ->%list_elem_of_singleton|by intros a ->%list_elem_of_singleton].
Defined.

(** A hold and an own value for the same field: the resolved state lists the
    held value as suppressed and as given. *)
Example hold_and_own_value :
  ∃ d1 a1 d2 a2,
    CreateAllowance demo_entitled (demo_hold AllowanceDeny "group" "makers") = inr (d1, a1) ∧
    CreateAllowance d1 (demo_hold AllowanceSet "group" "makers") = inr (d2, a2) ∧
    let set := ResolveEntitlements (λ _, None) d2 "ada" "nas" in
    es_Fields set !! "group" = Some ["makers"] ∧ su_Value <$> es_Suppressed set = ["makers"].
Proof. do 4 eexists. split; [reflexivity|]. split; [reflexivity|]. by vm_compute. Qed.
(** Everything a person's roles are mapped to is on hold: the field is empty and
    the account stays enabled, SMB too, with nothing to reach. *)
Example all_on_hold_stays_enabled :
  ∃ d1 a1, CreateAllowance demo_entitled (demo_hold AllowanceDeny "group" "makers") = inr (d1, a1) ∧
    let set := ResolveEntitlements (λ _, None) d1 "ada" "nas" in
    map_to_list (es_Fields set) = [("group", [])] ∧ su_Value <$> es_Suppressed set = ["makers"] ∧
    lf_Enabled (es_Lifecycle set) = true ∧ lf_SMBEnabled (es_Lifecycle set) = true.
Proof. do 2 eexists. split; [reflexivity|]. by vm_compute. Qed.
