(* ===== verification/Enqueue.v ===== *)
(** * Enqueue: the one outbox insert, and cancelling what was never sent

    backend/internal/db/withdraw.go, cancel_gate.go, propagation_enqueue.go and
    the helpers they use in cascade.go and access_requests.go. A function that
    runs on a transaction returns either an error, and then the transaction is
    rolled back and the database is unchanged, or the new state. The gate is the
    one shared object that survives a rollback, so it is returned either way.
    The mapping rules that follow a named write (services.followRules) are an
    interface with laws, which Cascade.v discharges. *)

From S2P Require Import Prelude Access Tables Extcall Outbox Lifecycle.

(** ** Data *)
Inductive EndRule := EndKept | EndSet.

Record EnqueueParams := {
  UserID : string;
  e_ProjectID : string;
  e_RoleKeys : list string;
  GrantedBy : string;
  e_Reason : string;
  ExpiresAt : option Z;
  Source : string;
  SourceRef : string;
  e_OpType : OpType;
  ZitadelGrantID : string;
  PayloadJSON : string;
  NoPropagation : bool;
  e_EndRule : EndRule;
  e_WaitReason : string;
}.

Record QueuedChange := {
  c_ID : string;
  c_OpType : OpType;
  c_UserID : string;
  c_ProjectID : string;
  c_RoleKeys : list string;
  c_Source : string;
  c_SourceRef : string;
  c_InitiatedBy : string;
  c_Reason : string;
  c_QueuedAt : Z;
}.

Record CascadeAudit := {
  ca_Actor : string;
  ca_Target : string;
  ca_Action : string;
  ca_ResourceID : string;
  ca_Reason : string;
}.

(** The operator's acknowledgement riding one request. [asks]: whether the
    caller is someone to ask, where the gate was given a way to tell. *)
Record CancelGate := {
  acked : gset string;
  reviewed : bool;
  refused : list QueuedChange;
  asks : option bool;
}.

Inductive EnqueueError :=
  | ErrWouldCancel
  | ErrRules
  | PanicNoWrite.   (* params[0] of an empty list *)

Definition cascadeGroupSources : list string := ["bundle"; "rule"; "lifecycle_cascade"].
Definition IsCascadeGroupSource (source : string) : bool := bool_decide (source ∈ cascadeGroupSources).
Definition outboxSource (p : EnqueueParams) : string := if Source p =? "" then "direct" else Source p.
Definition cascadeGroupVisible (params : list EnqueueParams) : bool :=
  existsb (λ p, IsCascadeGroupSource (outboxSource p)) params.
Definition jsonOrEmpty (s : string) : string := if s =? "" then "{}" else s.

(** ** The cancel gate *)
Definition GuardCancellations (ids : list string) (asks : option bool) : CancelGate :=
  {| acked := list_to_set ids; reviewed := false; refused := []; asks := asks |}.
Definition CancellationsReviewed (g : option CancelGate) : option CancelGate :=
  match g with
  | None => None
  | Some g => Some {| acked := acked g; reviewed := true; refused := refused g; asks := asks g |}
  end.
Definition CancellationsNamed (g : option CancelGate) (ids : list string) : option CancelGate :=
  match g with
  | None => None
  | Some g => Some {| acked := acked g ∪ list_to_set ids; reviewed := reviewed g; refused := refused g;
                      asks := asks g |}
  end.
Definition AdmitCancellations (g : option CancelGate) (changes : list QueuedChange)
    : option CancelGate * bool :=
  match g with
  | None => (g, true)
  | Some gate =>
      if bool_decide (asks gate = Some false) then (g, true)
      else if reviewed gate then (g, true)
      else if forallb (λ c, bool_decide (c_ID c ∈ acked gate)) changes then (g, true)
      else (Some {| acked := acked gate; reviewed := reviewed gate; refused := refused gate ++ changes;
                    asks := asks gate |}, false)
  end.

(** ** Which queued change a write answers *)
Definition answersAny (p : EnqueueParams) : bool :=
  (length (e_RoleKeys p) =? 1) && ((e_OpType p =? op_add) || (e_OpType p =? op_revoke)).

Definition Answers (p : EnqueueParams) (c : QueuedChange) : bool :=
  if negb (answersAny p) || (c_UserID c <>? UserID p) || (c_ProjectID c <>? e_ProjectID p)
     || (c_RoleKeys c <>? e_RoleKeys p) then false
  else if e_OpType p =? op_add then c_OpType c =? op_revoke
  else if (c_OpType c <>? op_add) && (c_OpType c <>? op_replace) then false
  else
    let source := outboxSource p in
    (c_Source c =? source) && ((source =? "direct") || (c_SourceRef c =? SourceRef p)).

Fixpoint AnsweredBy (p : EnqueueParams) (queued : list QueuedChange) : list QueuedChange :=
  match queued with
  | [] => []
  | c :: queued => if Answers p c then c :: AnsweredBy p queued else AnsweredBy p queued
  end.

Definition candidateWhere (tgt : string) (p : EnqueueParams) (r : Row) : bool :=
  (target r =? tgt) && (row_status r =? pending) && (user_id r =? UserID p)
  && bool_decide (project_id r = Some (e_ProjectID p)) && bool_decide (role_keys r = Some (e_RoleKeys p)).

Definition scanQueuedChange (r : Row) : QueuedChange :=
  {| c_ID := id r; c_OpType := op_type r; c_UserID := user_id r; c_ProjectID := ProjectID r;
     c_RoleKeys := RoleKeys r; c_Source := source r; c_SourceRef := default "" (source_ref r);
     c_InitiatedBy := initiated_by r; c_Reason := default "" (reason r); c_QueuedAt := created_at r |}.
Definition candidates (d : Db) (tgt : string) (p : EnqueueParams) : list QueuedChange :=
  scanQueuedChange <$>
  stable_sort (cmp_on created_at Z.compare) (filter (λ r, candidateWhere tgt p r = true) (outbox d)).

Definition WouldCancel (d : Db) (p : EnqueueParams) : list QueuedChange :=
  if negb (answersAny p) then [] else AnsweredBy p (candidates d "zitadel" p).

(** ** What still stands *)
(** [COALESCE(MAX(intent_seq) FILTER (...), 0)] *)
Definition max_seq (keep : Row → bool) (t : list Row) : Z :=
  foldr Z.max 0%Z (intent_seq <$> affected keep t).
Definition delivered_row (tgt user project role : string) (r : Row) : bool :=
  (target r =? tgt) && (user_id r =? user) && (row_status r =? applied)
  && bool_decide (project_id r = Some project) && bool_decide (role ∈ RoleKeys r).
(** The last applied row naming the role is an add or a replace. *)
Definition standingFor (d : Db) (tgt user project role : string) : bool :=
  let gives r := delivered_row tgt user project role r && ((op_type r =? op_add) || (op_type r =? op_replace)) in
  let takes r := delivered_row tgt user project role r && (op_type r =? op_revoke) in
  (max_seq takes (outbox d) <? max_seq gives (outbox d))%Z.

Definition OwedAfterCancel (p : EnqueueParams) (standing : bool) : bool :=
  Bool.eqb standing (e_OpType p =? op_revoke).

(** ** The record of a cancellation *)
Record CancelledChange := {
  x_Kind : string; x_ProjectID : string; x_RoleKey : string; x_UserID : string;
  x_InitiatedBy : string; x_QueuedAt : Z; x_Reason : string;
}.
Record CancelCause := { x_Action : string; x_Via : string }.
Record CancelledUnsent := { x_Cancelled : CancelledChange; x_Cause : CancelCause }.

Definition cancelledUnsentAudit : string := "propagation.cancelled_unsent".
Definition CancelledUnsentDetails (c : QueuedChange) (p : EnqueueParams) : CancelledUnsent :=
  let via := if Source p =? "" then "direct" else Source p in
  {| x_Cancelled :=
       {| x_Kind := if c_OpType c =? op_revoke then "remove" else "give"; x_ProjectID := c_ProjectID c;
          x_RoleKey := default "" (head (c_RoleKeys c)); x_UserID := c_UserID c;
          x_InitiatedBy := c_InitiatedBy c; x_QueuedAt := c_QueuedAt c; x_Reason := c_Reason c |};
     x_Cause :=
       {| x_Action := if e_OpType p =? op_revoke then "remove"
                      else if (via =? "direct") && (SourceRef p <>? "") then "approve" else "grant";
          x_Via := via |} |}.

Definition withdrawnReason : string := "withdrawn before it was sent: the change that queued it was undone".
Definition givenBackReason : string := "cancelled before it was sent: the role was given back".

(** The mapping rules, the JSON encoding of audit details, and fresh ids. *)
Class EnqueueEnv := {
  env_uuids :: Uuids;
  env_returning :: Returning;
  Marshal : CancelledUnsent → string;
  (** services.followRules (Cascade.v): from the state before and after the
      write, the writes the rules owe, and the state after the convergences
      they queue on mapped targets; [None] when it fails. *)
  FollowRules : Db → EnqueueParams → Db → option (Db * list EnqueueParams);
  FollowRules_runs d0 p d d' owed : FollowRules d0 p d = Some (d', owed) → steps d d';
  FollowRules_converges d0 p d d' owed : FollowRules d0 p d = Some (d', owed) → converges d d';
}.

Definition Outcome (A : Type) : Type := option CancelGate * (EnqueueError + A).

Section enqueue.
Context `{!EnqueueEnv}.

Definition withdrawUndelivered (d : Db) (g : option CancelGate) (tgt : string) (p : EnqueueParams)
    : Outcome (Db * bool) :=
  if negb (answersAny p) then (g, inr (d, true))
  else
    let why := if e_OpType p =? op_add then givenBackReason else withdrawnReason in
    let answered := AnsweredBy p (candidates d tgt p) in
    match answered with
    | [] => (g, inr (d, true))
    | _ :: _ =>
        match AdmitCancellations g answered with
        | (g, false) => (g, inl ErrWouldCancel)
        | (g, true) =>
            let cancelled := c_ID <$> answered in
            let actor := if GrantedBy p =? "" then "system" else GrantedBy p in
            let d := with_outbox d
              (update (λ r, bool_decide (id r ∈ cancelled))
                 (λ r, terminate (now d) superseded (Some why) (progress r)) (outbox d))
              ((λ c, {| a_actor := actor; a_subject := UserID p; a_action := cancelledUnsentAudit;
                        a_resource := c_ID c; a_cascade := None;
                        a_details := Marshal (CancelledUnsentDetails c p) |}) <$> answered) in
            (g, inr (d, OwedAfterCancel p
                   (standingFor d tgt (UserID p) (e_ProjectID p) (default "" (head (e_RoleKeys p))))))
        end
    end.

(** ** The ledger and the requests a write answers *)
Definition givenNote (source : string) : string :=
  if (source =? "") || (source =? "direct") then "Given directly, so there was nothing left to decide."
  else if source =? "bundle" then "Given through a bundle, so there was nothing left to decide."
  else if source =? "rule" then "Given by a rule, so there was nothing left to decide."
  else "Given another way, so there was nothing left to decide.".

Definition with_requests (d : Db) (rs : list AccessRequest) (logs : list AuditLog) : Db :=
  {| now := now d; outbox := outbox d; targets := targets d; role_waits := role_waits d; ledger := ledger d;
     audit_logs := audit_logs d ++ logs; memory := memory d; requests := rs; grant_index := grant_index d;
     gave_up_seen := gave_up_seen d; tables := tables d; next_intent := next_intent d; next_uuid := next_uuid d |}.

Definition closeGivenRequests (d : Db) (p : EnqueueParams) : Db :=
  if (e_OpType p =? op_revoke) || (length (e_RoleKeys p) =? 0) then d
  else
    let by_ := if GrantedBy p =? "" then "system" else GrantedBy p in
    let answers q := (q_status q =? "pending") && (q_user q =? UserID p) && (q_project q =? e_ProjectID p)
                     && bool_decide (q_role q ∈ e_RoleKeys p) in
    with_requests d
      ((λ q, if answers q then {| q_id := q_id q; q_user := q_user q; q_project := q_project q;
                                  q_role := q_role q; q_status := "fulfilled"; q_reviewer := by_;
                                  q_note := givenNote (Source p); q_ask := q_ask q; q_resolved := Some (now d);
                                  q_ended_before := q_ended_before q; q_ends_after := q_ends_after q |} else q) <$> requests d)
      ((λ q, {| a_actor := by_; a_subject := q_user q; a_action := "access_request.closed_as_given";
                a_resource := q_id q; a_cascade := None; a_details := "" |})
       <$> filter (λ q, answers q = true) (requests d)).

Definition opTypeAuditVerb (op : OpType) : string :=
  match op with op_revoke => "revoked" | op_replace => "replaced" | _ => "upserted" end.

(** [INSERT ... ON CONFLICT (user, project, role) DO UPDATE ... RETURNING id] *)
Definition upsertGrant (d : Db) (p : EnqueueParams) (role : string) : Db * string :=
  let clash g := (g_user g =? UserID p) && (g_project g =? e_ProjectID p) && (g_role g =? role) in
  let write i expires :=
    {| g_id := i; g_user := UserID p; g_project := e_ProjectID p; g_role := role; g_granted_by := GrantedBy p;
       g_reason := e_Reason p; g_expires_at := expires; g_source := outboxSource p;
       g_source_ref := NULLIF (SourceRef p) |} in
  match head (filter (λ g, clash g = true) (ledger d)) with
  | Some g0 =>
      (with_ledger d ((λ g, if clash g
                            then write (g_id g) (match e_EndRule p with EndSet => ExpiresAt p | EndKept => g_expires_at g end)
                            else g) <$> ledger d), g_id g0)
  | None => let '(d, i) := mint d in (with_ledger d (ledger d ++ [write i (ExpiresAt p)]), i)
  end.
(** The rows for each role; the first one's id. *)
Fixpoint upsertGrants (d : Db) (p : EnqueueParams) (roles : list string) : Db * string :=
  match roles with
  | [] => (d, "")
  | role :: roles => let '(d, i) := upsertGrant d p role in ((upsertGrants d p roles).1, i)
  end.
Definition log (d : Db) (actor subject action resource : string) (cascade : option string) (details : string) : Db :=
  with_outbox d (outbox d) [{| a_actor := actor; a_subject := subject; a_action := action;
                               a_resource := resource; a_cascade := cascade; a_details := details |}].
Definition enqueueLedger (d : Db) (p : EnqueueParams) : Db :=
  let '(d, firstGrantID) := if e_OpType p =? op_revoke then (d, "") else upsertGrants d p (e_RoleKeys p) in
  let d := closeGivenRequests d p in
  log d (GrantedBy p) (UserID p) ("direct_grant." +:+ opTypeAuditVerb (e_OpType p)) firstGrantID None "".

(** ** The insert *)
Definition outbox_row (p : EnqueueParams) (key : string) (cascade : option string) (grantID why : string)
    (i : string) (seq t : Z) : Row :=
  {| id := i; target := "zitadel"; op_type := e_OpType p; user_id := UserID p;
     project_id := Some (e_ProjectID p); role_keys := Some (e_RoleKeys p); source := outboxSource p;
     source_ref := NULLIF (SourceRef p); cascade_id := cascade; zitadel_grant_id := NULLIF grantID;
     payload_json := jsonOrEmpty (PayloadJSON p); idempotency_key := key; initiated_by := GrantedBy p;
     reason := NULLIF why; withdraws_only := false; intent_seq := seq; created_at := t;
     plan_subject_id := None; snapshot := None;
     progress := fresh_progress (NULLIF (e_WaitReason p)) |}.

(** An identical add already waiting. *)
Definition queued_add (d : Db) (p : EnqueueParams) : option string :=
  id <$> head (stable_sort (cmp_on created_at Z.compare)
    (filter (λ r, candidateWhere "zitadel" p r && (op_type r =? op_add) = true) (outbox d))).

Definition row (d : Db) (g : option CancelGate) (p : EnqueueParams) (ownKey : option string)
    (cascadeID why : string) : Outcome (Db * string) :=
  match withdrawUndelivered d g "zitadel" p with
  | (g, inl e) => (g, inl e)
  | (g, inr (d, false)) => (g, inr (d, ""))
  | (g, inr (d, true)) =>
      match ownKey with
      | Some key =>
          match (if e_OpType p =? op_add then queued_add d p else None) with
          | Some queued => (g, inr (d, queued))
          | None => (g, inr (insert_row d (outbox_row p key None (ZitadelGrantID p) why)))
          end
      | None =>
          let grantID := if (e_OpType p =? op_revoke) && (ZitadelGrantID p =? "")
                         then default "" (grant_index d !! (UserID p, e_ProjectID p)) else ZitadelGrantID p in
          let '(d, key) := mint d in
          (g, inr (insert_row d (outbox_row p key (Some cascadeID) grantID why)))
      end
  end.

(** The rows of a cascade, in order; a row that only cancelled one has no id. *)
Fixpoint rows (d : Db) (g : option CancelGate) (params : list EnqueueParams) (cascadeID why : string)
    : Outcome (Db * list string) :=
  match params with
  | [] => (g, inr (d, []))
  | p :: params =>
      match row (closeGivenRequests d p) g p None cascadeID why with
      | (g, inl e) => (g, inl e)
      | (g, inr (d, i)) =>
          match rows d g params cascadeID why with
          | (g, inl e) => (g, inl e)
          | (g, inr (d, ids)) => (g, inr (d, if i =? "" then ids else i :: ids))
          end
      end
  end.

Definition log_cascade (cascade : option string) (d : Db) (a : CascadeAudit) : Db :=
  log d (ca_Actor a) (if ca_Target a =? "" then "-" else ca_Target a) (ca_Action a) (ca_ResourceID a) cascade (ca_Reason a).

(** [key]: [Some] for a write a person named, whose one write is [params]'s
    head; [None] for a cascade. *)
Definition enqueueWrites (d : Db) (g : option CancelGate) (audits : list CascadeAudit)
    (params : list EnqueueParams) (key : option string) : Outcome (Db * list string) :=
  let '(d, cascadeID) := mint d in
  let why := default "" (head (filter (λ s, s ≠ "") (ca_Reason <$> audits))) in
  match key, params with
  | Some _, [] => (g, inl PanicNoWrite)
  | Some k, p :: _ =>
      let d1 := enqueueLedger d p in
      match (if NoPropagation p then (g, inr (d1, "")) else row d1 g p (Some k) cascadeID why) with
      | (g, inl e) => (g, inl e)
      | (g, inr (d2, own)) =>
          match FollowRules d p d2 with
          | None => (g, inl ErrRules)
          | Some (d2, owed) =>
              match rows d2 g owed cascadeID why with
              | (g, inl e) => (g, inl e)
              | (g, inr (d3, ids)) => (g, inr (d3, own :: ids))
              end
          end
      end
  | None, _ =>
      let cascade := if cascadeGroupVisible params then Some cascadeID else None in
      rows (foldl (log_cascade cascade) d audits) g params cascadeID why
  end.

Definition ownAndRules (ids : list string) : string * list string :=
  match ids with [] => ("", []) | own :: rules => (own, rules) end.
Definition enqueuedStatus (outboxID : string) : string := if outboxID =? "" then "applied" else "pending".

Record EnqueueResult := {
  er_OutboxID : string; er_IdempotencyKey : string; er_Status : string; er_RuleOutboxIDs : list string;
}.
Definition EnqueueDirectGrantPropagation (d : Db) (g : option CancelGate) (p : EnqueueParams)
    : Outcome (Db * EnqueueResult) :=
  let '(d, key) := mint d in
  match enqueueWrites d g [] [p] (Some key) with
  | (g, inl e) => (g, inl e)
  | (g, inr (d, ids)) =>
      let '(own, rules) := ownAndRules ids in
      (g, inr (d, {| er_OutboxID := own; er_IdempotencyKey := key; er_Status := enqueuedStatus own;
                     er_RuleOutboxIDs := rules |}))
  end.
End enqueue.

(** ** Facts *)
Lemma AnsweredBy_elem p c l : c ∈ AnsweredBy p l ↔ c ∈ l ∧ Answers p c = true.
Proof.
  induction l as [|x l IH]; simpl; [rewrite elem_of_nil; tauto|].
  destruct (Answers p x) eqn:E; rewrite ?elem_of_cons, IH.
  - split; [|tauto]. intros [->|[? ?]]; tauto.
  - split; [tauto|]. intros [[->|?] ?]; [congruence|tauto].
Qed.
Lemma candidates_elem d tgt p c :
  c ∈ candidates d tgt p ↔ ∃ r, r ∈ outbox d ∧ candidateWhere tgt p r = true ∧ c = scanQueuedChange r.
Proof.
  unfold candidates. rewrite list_elem_of_fmap. setoid_rewrite stable_sort_elem.
  setoid_rewrite list_elem_of_filter. split; intros (r & ? & ?); exists r; tauto.
Qed.
Lemma answersAny_spec p :
  answersAny p = true ↔ (∃ role, e_RoleKeys p = [role]) ∧ (e_OpType p = op_add ∨ e_OpType p = op_revoke).
Proof.
  unfold answersAny. rewrite andb_true_iff, orb_true_iff, !bool_decide_eq_true.
  apply and_iff_compat_r. destruct (e_RoleKeys p) as [|role [|role' l]]; simpl; split; intros H;
    try done; try (by exists role); by destruct H.
Qed.
Lemma Answers_opposite p c : Answers p c = true → (c_OpType c = op_revoke ↔ e_OpType p = op_add).
Proof.
  unfold Answers. destruct (negb (answersAny p) || _ || _ || _) eqn:E; [done|].
  rewrite !orb_false_iff, negb_false_iff in E. destruct E as [[[[_ Hany]%answersAny_spec _] _] _].
  destruct Hany as [->| ->], (c_OpType c); simpl; done.
Qed.
Lemma candidate_pending tgt p r : candidateWhere tgt p r = true → row_status r = pending.
Proof. unfold candidateWhere. rewrite !andb_true_iff, !bool_decide_eq_true. tauto. Qed.

Lemma AdmitCancellations_ok g cs g' :
  AdmitCancellations g cs = (g', true) →
  g' = g ∧ ∀ gate, g = Some gate → asks gate ≠ Some false → reviewed gate = false →
                   ∀ c, c ∈ cs → c_ID c ∈ acked gate.
Proof.
  unfold AdmitCancellations. destruct g as [gate|]; [|by intros [= <-]].
  case_bool_decide; [intros [= <-]; split; [done|]; by intros ? [= <-] ?|].
  destruct (reviewed gate) eqn:Hv; [intros [= <-]; split; [done|]; intros ? [= <-] ? ?; congruence|].
  destruct (forallb _ _) eqn:E; [|done]. intros [= <-]. split; [done|]. intros ? [= <-] _ _ c Hc.
  rewrite forallb_forall in E. specialize (E c). rewrite bool_decide_eq_true in E.
  apply E. by apply list_elem_of_In.
Qed.

Section facts.
Context `{!EnqueueEnv}.

(** A write that goes ahead: it cancelled what it answers, all of it admitted
    by the gate, or there was nothing to cancel. *)
Lemma withdraw_ok d g tgt p g' d' owed :
  withdrawUndelivered d g tgt p = (g', inr (d', owed)) →
  g' = g ∧
  let answered := if answersAny p then AnsweredBy p (candidates d tgt p) else [] in
  (answered = [] ∧ d' = d ∧ owed = true ∨
   answered ≠ [] ∧ AdmitCancellations g answered = (g, true) ∧
   outbox d' = update (λ r, bool_decide (id r ∈ (c_ID <$> answered)))
     (λ r, terminate (now d) superseded
             (Some (if e_OpType p =? op_add then givenBackReason else withdrawnReason)) (progress r)) (outbox d) ∧
   (∃ logs, audit_logs d' = audit_logs d ++ logs ∧ a_resource <$> logs = c_ID <$> answered ∧
            Forall (λ l, a_action l = cancelledUnsentAudit ∧ a_subject l = UserID p) logs ∧
            d' = with_outbox d (outbox d') logs) ∧
   owed = OwedAfterCancel p (standingFor d' tgt (UserID p) (e_ProjectID p) (default "" (head (e_RoleKeys p))))).
Proof.
  unfold withdrawUndelivered. destruct (answersAny p); simpl; [|intros; simplify_eq; auto].
  destruct (AnsweredBy p (candidates d tgt p)) as [|c cs] eqn:E; [intros; simplify_eq; auto|].
  destruct (AdmitCancellations g (c :: cs)) as [g1 []] eqn:Ha; [|done].
  pose proof (AdmitCancellations_ok _ _ _ Ha) as [-> _].
  intros Heq. apply pair_eq in Heq as [<- Heq]. injection Heq as <- <-.
  split; [done|]. right. split_and!; try done. eexists. split_and!; [done| | |done].
  - csimpl. f_equal. by rewrite <-list_fmap_compose.
  - constructor; [done|]. by apply Forall_fmap, Forall_true.
Qed.

(** What an enqueue does to the requests: nothing, or it closes those a write
    answers. *)
Definition closes (d d' : Db) : Prop := requests d' = requests d ∨ ∃ p, d' = closeGivenRequests d p.

(** A relation between states every part of the enqueue keeps. *)
Section preserved.
Context (g : option CancelGate) (R : Db → Db → Prop) `{!PreOrder R}.
Context (R_withdraw : ∀ d p g' d' owed, withdrawUndelivered d g "zitadel" p = (g', inr (d', owed)) → R d d').
Context (R_other : ∀ d d', outbox d' = outbox d → next_intent d' = next_intent d →
                           next_uuid d ≤ next_uuid d' → now d' = now d → closes d d' → R d d').
Context (R_insert : ∀ d p key cascade grantID why, R d (insert_row d (outbox_row p key cascade grantID why)).1).
Context (R_follow : ∀ d0 p d d' owed, FollowRules d0 p d = Some (d', owed) → R d d').

Lemma row_preserves d p own cascadeID why g' d' i :
  row d g p own cascadeID why = (g', inr (d', i)) → g' = g ∧ R d d'.
Proof.
  unfold row. destruct (withdrawUndelivered d g "zitadel" p) as [g1 [e|[d1 owed]]] eqn:Hw; [done|].
  pose proof (R_withdraw _ _ _ _ _ Hw) as H1. apply withdraw_ok in Hw as [-> _].
  destruct owed; [|intros; by simplify_eq]. destruct own as [key|].
  - destruct (if e_OpType p =? op_add then _ else _) as [q|]; [intros; by simplify_eq|].
    intros E. pose proof (R_insert d1 p key None (ZitadelGrantID p) why) as H2.
    apply pair_eq in E as [<- [= <- _]]. split; [done|]. by etrans.
  - destruct (mint d1) as [d2 key] eqn:Hm. set (grantID := if _ && _ then _ else _).
    intros E. pose proof (R_insert d2 p key (Some cascadeID) grantID why) as H2.
    apply pair_eq in E as [<- [= <- _]]. split; [done|]. etrans; [exact H1|]. etrans; [|exact H2].
    injection Hm as <- <-. apply R_other; simpl; try done; [lia|by left].
Qed.

Lemma close_preserves d p : R d (closeGivenRequests d p).
Proof.
  apply R_other; [..|by right; exists p]; unfold closeGivenRequests; by destruct (_ || _).
Qed.

Lemma rows_preserves params d cascadeID why g' d' ids :
  rows d g params cascadeID why = (g', inr (d', ids)) → g' = g ∧ R d d'.
Proof.
  revert d g' d' ids; induction params as [|p params IH]; intros d g' d' ids; simpl; [intros; by simplify_eq|].
  destruct (row (closeGivenRequests d p) g p None cascadeID why) as [g1 [e|[d1 i]]] eqn:Hr; [done|].
  apply row_preserves in Hr as [-> H1].
  destruct (rows d1 g params cascadeID why) as [g2 [e|[d2 ids']]] eqn:Hs; [done|].
  apply IH in Hs as [-> H2]. intros E. apply pair_eq in E as [<- [= <- _]]. split; [done|].
  etrans; [apply close_preserves|]. by etrans.
Qed.

Lemma upsertGrants_preserves roles d p : R d (upsertGrants d p roles).1.
Proof.
  revert d; induction roles as [|role roles IH]; intros d; simpl; [done|].
  assert (Hu : R d (upsertGrant d p role).1).
  { unfold upsertGrant. destruct (head _); simpl; apply R_other; simpl; try done; [by left|lia|by left]. }
  destruct (upsertGrant d p role) as [d1 i]. simpl in *. by etrans.
Qed.
Lemma ledger_preserves d p : R d (enqueueLedger d p).
Proof.
  unfold enqueueLedger.
  assert (H1 : R d (if e_OpType p =? op_revoke then (d, "") else upsertGrants d p (e_RoleKeys p)).1).
  { destruct (e_OpType p =? op_revoke); [done|apply upsertGrants_preserves]. }
  destruct (if e_OpType p =? op_revoke then _ else _) as [d1 i]. simpl in *.
  etrans; [exact H1|]. etrans; [apply close_preserves|]. apply R_other; try done. by left.
Qed.

Lemma enqueueWrites_preserves d audits params key g' d' ids :
  enqueueWrites d g audits params key = (g', inr (d', ids)) → g' = g ∧ R d d'.
Proof.
  unfold enqueueWrites. destruct (mint d) as [d0 cascadeID] eqn:Hm. set (why := default _ _).
  assert (H0 : R d d0) by (injection Hm as <- <-; apply R_other; simpl; try done; [lia|by left]).
  destruct key as [k|].
  - destruct params as [|p params]; [done|].
    set (out := if NoPropagation p then _ else _). destruct out as [g1 [e|[d2 own]]] eqn:Ho; [done|].
    assert (g1 = g ∧ R (enqueueLedger d0 p) d2) as [-> H2].
    { subst out. destruct (NoPropagation p); [by simplify_eq|]. by eapply row_preserves. }
    destruct (FollowRules d0 p d2) as [[d2' owed]|] eqn:Hf; [|done]. apply R_follow in Hf.
    destruct (rows d2' g owed cascadeID why) as [g3 [e|[d3 ids3]]] eqn:Hs; [done|].
    apply rows_preserves in Hs as [-> H3]. intros E. apply pair_eq in E as [<- [= <- _]].
    split; [done|]. etrans; [exact H0|]. etrans; [apply ledger_preserves|]. etrans; [exact H2|]. by etrans.
  - intros E. apply rows_preserves in E as [-> H3]. split; [done|]. etrans; [exact H0|]. etrans; [|exact H3].
    clear -R_other PreOrder0. generalize (if cascadeGroupVisible params then Some cascadeID else None) as c.
    intros c. induction audits as [|a audits IH] using rev_ind; simpl; [done|].
    rewrite foldl_app. simpl. etrans; [exact IH|]. apply R_other; try done. by left.
Qed.
End preserved.
End facts.

(** ** Facts: the enqueue is a run of the row machine *)
Lemma update_ext where1 where2 set_ t :
  (∀ r, r ∈ t → where1 r = where2 r) → update where1 set_ t = update where2 set_ t.
Proof. intros H. unfold update. apply map_ext_in. intros r Hr. rewrite H; [done|]. by apply list_elem_of_In. Qed.

(** What a write cancels is pending. *)
Lemma answered_pending d tgt p r :
  NoDup (id <$> outbox d) → r ∈ outbox d → id r ∈ (c_ID <$> AnsweredBy p (candidates d tgt p)) →
  row_status r = pending ∧ candidateWhere tgt p r = true ∧ Answers p (scanQueuedChange r) = true.
Proof.
  intros Hnd Hr (c & E & Hc)%list_elem_of_fmap. apply AnsweredBy_elem in Hc as [Hc Ha].
  apply candidates_elem in Hc as (r0 & Hr0 & Hw & ->). simpl in E.
  rewrite (same_id (outbox d) r r0) by done. split; [by eapply candidate_pending|done].
Qed.

Lemma withdraw_steps `{!EnqueueEnv} d g tgt p g' d' owed :
  wf d → withdrawUndelivered d g tgt p = (g', inr (d', owed)) → steps d d'.
Proof.
  intros Hwf Hw. apply withdraw_ok in Hw as [-> Hw]. destruct (answersAny p); simpl in Hw;
    [|destruct Hw as [(_ & -> & _)|(? & _)]; [apply rtc_refl|done]].
  destruct Hw as [(_ & -> & _)|(Hne & _ & Ho & (logs & _ & _ & _ & Hd') & _)]; [apply rtc_refl|].
  rewrite Hd', Ho. apply rtc_once. erewrite update_ext;
    [apply (step_cancel d (c_ID <$> AnsweredBy p (candidates d tgt p)))|].
  intros r Hr. simpl. destruct (decide (id r ∈ (c_ID <$> AnsweredBy p (candidates d tgt p)))) as [Hin|Hin];
    [|by rewrite (bool_decide_eq_false_2 _ Hin)]. rewrite (bool_decide_eq_true_2 _ Hin). symmetry. apply bool_decide_eq_true.
  eapply answered_pending; [|done..]. by destruct Hwf as [[]].
Qed.

Lemma insert_step `{!EnqueueEnv} d p key cascade grantID why :
  step d (insert_row d (outbox_row p key cascade grantID why)).1.
Proof. apply step_insert. split_and!; try done. by exists (NULLIF (e_WaitReason p)). Qed.

Definition runs `{!EnqueueEnv} (d d' : Db) : Prop := wf d → steps d d' ∧ wf d'.
#[export] Instance runs_preorder `{!EnqueueEnv} : PreOrder runs.
Proof.
  split; [intros d Hwf; split; [apply rtc_refl|done]|].
  intros d1 d2 d3 H12 H23 Hwf. destruct (H12 Hwf) as [? Hwf2], (H23 Hwf2) as [? ?]. split; [by etrans|done].
Qed.
Lemma runs_step `{!EnqueueEnv} d d' : step d d' → runs d d'.
Proof. intros Hst Hwf. split; [by apply rtc_once|by eapply wf_step]. Qed.

(** No change the operator was not shown is cancelled. *)
Definition respects (gate : CancelGate) (d d' : Db) : Prop :=
  ∀ r', r' ∈ outbox d' → row_status r' = superseded →
    id r' ∈ acked gate ∨ ∃ r, r ∈ outbox d ∧ id r = id r' ∧ row_status r = superseded.
#[export] Instance respects_preorder gate : PreOrder (respects gate).
Proof.
  split; [intros d r' Hr' Hs; right; eauto|].
  intros d1 d2 d3 H12 H23 r' Hr' Hs. destruct (H23 r' Hr' Hs) as [|(r & Hr & <- & Hs')]; [by left|].
  by apply H12.
Qed.
Lemma respects_same gate d d' : outbox d' = outbox d → respects gate d d'.
Proof. intros E r' Hr' Hs. rewrite E in Hr'. right. eauto. Qed.

(** The pieces of the enqueue under each relation. *)
Lemma withdraw_respects `{!EnqueueEnv} gate d p g' d' owed :
  asks gate ≠ Some false → reviewed gate = false →
  withdrawUndelivered d (Some gate) "zitadel" p = (g', inr (d', owed)) → respects gate d d'.
Proof.
  intros Ha Hr Hw. apply withdraw_ok in Hw as [-> Hw]. revert Hw.
  set (answered := if answersAny p then _ else _). cbn zeta. intros [(_ & -> & _)|(_ & Had & Ho & _)]; [done|].
  intros r' Hr' Hs. rewrite Ho, update_elem in Hr'. destruct Hr' as (r & Hin & ->).
  case_bool_decide as Hc; [|right; eauto]. left.
  apply list_elem_of_fmap in Hc as (c & E & Hc). simpl. rewrite E.
  apply AdmitCancellations_ok in Had as [_ Had]. by apply (Had gate).
Qed.
Lemma insert_respects `{!EnqueueEnv} gate d p key cascade grantID why :
  respects gate d (insert_row d (outbox_row p key cascade grantID why)).1.
Proof.
  intros r'. simpl. rewrite elem_of_app, list_elem_of_singleton. intros [Hr'| ->]; [right; eauto|done].
Qed.

Lemma converges_respects `{!Uuids} gate d d' : converges d d' → respects gate d d'.
Proof.
  intros [_ _ _ _ _ (new & E & Hnew)] r'. rewrite E, elem_of_app. intros [Hr'|Hr'] Hs; [right; eauto|].
  rewrite Forall_forall in Hnew. destruct (Hnew r' Hr') as (_ & _ & _ & Hp). congruence.
Qed.
(** ** Properties *)

(** Every access change is a run of the outbox's own state machine: from a
    well-formed table, a successful enqueue (a named write with its rules, or a
    cascade) only cancels pending rows and appends fresh ones, so all of the
    table's invariants hold afterwards. *)
Theorem enqueueWrites_runs `{!EnqueueEnv} d g audits params key g' d' ids :
  wf d → enqueueWrites d g audits params key = (g', inr (d', ids)) → steps d d' ∧ wf d'.
Proof.
  intros Hwf E. cut (runs d d'); [auto|].
  eapply (enqueueWrites_preserves g runs); [| | | |exact E].
  - intros. intros Hwf'. assert (steps d0 d'0) by (by eapply withdraw_steps). split; [done|by eapply wf_steps].
  - intros. apply runs_step, step_other; try done. lia.
  - intros. apply runs_step, insert_step.
  - intros d0 p d1 d2 owed Hf Hwf1. apply FollowRules_runs in Hf. split; [exact Hf|by eapply wf_steps].
Qed.

(** C34. Never invisibly: on a request that carries a gate and a caller to ask,
    and no reviewed plan, no enqueue cancels a queued change the operator did
    not acknowledge, whatever rows it writes; an enqueue that goes ahead leaves
    the gate, and the refusals recorded on it, as they were. *)
Theorem enqueueWrites_gate `{!EnqueueEnv} d gate audits params key g' d' ids :
  asks gate ≠ Some false → reviewed gate = false →
  enqueueWrites d (Some gate) audits params key = (g', inr (d', ids)) →
  g' = Some gate ∧
  ∀ r', r' ∈ outbox d' → row_status r' = superseded →
    id r' ∈ acked gate ∨ ∃ r, r ∈ outbox d ∧ id r = id r' ∧ row_status r = superseded.
Proof.
  intros Ha Hr E. eapply (enqueueWrites_preserves (Some gate) (respects gate)); [| | | |exact E].
  - intros. by eapply withdraw_respects.
  - intros. by apply respects_same.
  - intros. apply insert_respects.
  - intros d0 p d1 d2 owed Hf. by apply converges_respects, (FollowRules_converges d0 p _ _ owed).
Qed.

(** A deployment with no mapping rules. *)
#[local, refine] Instance no_rules : EnqueueEnv :=
  {| env_uuids := decimal_uuids; env_returning := table_order; Marshal := x_Kind ∘ x_Cancelled;
     FollowRules := λ _ _ d, Some (d, []) |}.
Proof.
  - intros _ _ d d' owed [= -> _]. apply rtc_refl.
  - intros _ _ d d' owed [= -> _]. apply converges_refl.
Defined.
Definition demo_params (op : OpType) : EnqueueParams :=
  {| UserID := "ada"; e_ProjectID := "lab"; e_RoleKeys := ["viewer"]; GrantedBy := "op"; e_Reason := "";
     ExpiresAt := None; Source := ""; SourceRef := ""; e_OpType := op; ZitadelGrantID := ""; PayloadJSON := "";
     NoPropagation := false; e_EndRule := EndKept; e_WaitReason := "" |}.
Definition demo_start : Db := demo_db [].
Definition result_db {A} (o : Outcome (Db * A)) (d : Db) : Db :=
  match o with (_, inr (d', _)) => d' | _ => d end.
(** ada is given the role, nothing sent yet. *)
Definition demo_given : Db :=
  result_db (enqueueWrites demo_start None [] [demo_params op_add] (Some "k")) demo_start.

Lemma enqueueWrites_runs_witness : steps demo_start demo_given ∧ wf demo_given.
Proof.
  eapply (enqueueWrites_runs demo_start None [] [demo_params op_add] (Some "k") None demo_given ["2"]);
    [by apply wf_empty|vm_compute; reflexivity].
Defined.

(** Removing it again, acknowledged: the queued add is cancelled. *)
Definition demo_taken : Db :=
  result_db (enqueueWrites demo_given (Some (GuardCancellations ["2"] (Some true))) []
               [demo_params op_revoke] None) demo_given.
Lemma enqueueWrites_gate_witness :
  ∃ r', r' ∈ outbox demo_taken ∧ row_status r' = superseded ∧
    (id r' ∈ acked (GuardCancellations ["2"] (Some true)) ∨
     ∃ r, r ∈ outbox demo_given ∧ id r = id r' ∧ row_status r = superseded).
Proof.
  assert (Hs : ∃ r', head (outbox demo_taken) = Some r' ∧ row_status r' = superseded)
    by (eexists; split; [vm_compute; reflexivity|done]).
  destruct Hs as (r' & Hh & Hr'). exists r'.
  assert (Hin : r' ∈ outbox demo_taken).
  { destruct (outbox demo_taken); [done|]. injection Hh as ->. left. }
  split_and!; [done..|].
  refine (proj2 (enqueueWrites_gate demo_given (GuardCancellations ["2"] (Some true)) []
    [demo_params op_revoke] None _ demo_taken [] _ _ _) r' Hin Hr'); [done|done|vm_compute; reflexivity].
Defined.

(** Cancelling rows that are not applied does not change what stands. *)
Lemma max_seq_ext k1 k2 t t' :
  intent_seq <$> affected k1 t = intent_seq <$> affected k2 t' → max_seq k1 t = max_seq k2 t'.
Proof. unfold max_seq. by intros ->. Qed.
Lemma affected_update keep where_ set_ t :
  (∀ r, r ∈ t → where_ r = true → keep r = false ∧ keep (with_progress r (set_ r)) = false) →
  intent_seq <$> affected keep (update where_ set_ t) = intent_seq <$> affected keep t.
Proof.
  unfold affected, update. induction t as [|r t IH]; intros H; csimpl; [done|].
  assert (IH' := IH (λ r' Hr', H r' (list_elem_of_further _ _ _ Hr'))). clear IH.
  destruct (where_ r) eqn:Hw.
  - destruct (H r ltac:(left) Hw) as [H1 H2]. rewrite !filter_cons_False by congruence. done.
  - rewrite !filter_cons. destruct (decide (keep r = true)); csimpl; by rewrite IH'.
Qed.

Lemma standing_cancelled d d' tgt u p role (ids : list string) why t :
  (∀ r, r ∈ outbox d → id r ∈ ids → row_status r = pending) →
  outbox d' = update (λ r, bool_decide (id r ∈ ids)) (λ r, terminate t superseded why (progress r)) (outbox d) →
  standingFor d' tgt u p role = standingFor d tgt u p role.
Proof.
  intros Hp E. unfold standingFor. rewrite E. cbn zeta. f_equal; apply max_seq_ext, affected_update;
    intros r Hr Hin%bool_decide_eq_true; specialize (Hp r Hr Hin); unfold delivered_row;
    rewrite !andb_false_iff; split; left; left; left; right; by rewrite ?Hp.
Qed.

(** ** What the accepted changes left in Zitadel

    The reference [standingFor] stands for: the accepted rows of one person and
    project, replayed in intent order. *)
Definition accepted (tgt u p : string) (r : Row) : bool :=
  (target r =? tgt) && (user_id r =? u) && (row_status r =? applied) && bool_decide (project_id r = Some p).
Definition replay_row (role : string) (held : bool) (r : Row) : bool :=
  match op_type r with
  | op_add => held || bool_decide (role ∈ RoleKeys r)
  | op_replace => bool_decide (role ∈ RoleKeys r)
  | op_revoke => held && bool_decide (role ∉ RoleKeys r)
  | op_apply => held
  end.
Definition history (d : Db) (tgt u p : string) : list Row :=
  stable_sort by_intent (affected (accepted tgt u p) (outbox d)).
Definition in_zitadel (d : Db) (tgt u p role : string) : bool :=
  foldl (replay_row role) false (history d tgt u p).

Lemma max_seq_perm k t t' : t ≡ₚ t' → max_seq k t = max_seq k t'.
Proof.
  intros Hp. unfold max_seq. apply (foldr_permutation eq); [apply _| |].
  - intros. lia.
  - unfold affected. by rewrite Hp.
Qed.
Lemma max_seq_snoc k t r :
  max_seq k (t ++ [r]) = if k r then Z.max (max_seq k t) (Z.max (intent_seq r) 0) else max_seq k t.
Proof.
  unfold max_seq, affected. rewrite filter_app, filter_cons, filter_nil.
  destruct (k r) eqn:E; [rewrite decide_True by done|rewrite decide_False by done; by rewrite app_nil_r].
  rewrite fmap_app, foldr_app. csimpl. generalize (intent_seq <$> filter (λ r, k r = true) t) as l.
  intros l. induction l as [|z l IH]; simpl; [lia|]. rewrite IH. lia.
Qed.
Lemma max_seq_lt k t z : (0 < z)%Z → (∀ r, r ∈ t → intent_seq r < z)%Z → (max_seq k t < z)%Z.
Proof.
  intros Hz Ht. unfold max_seq.
  assert (Ha : ∀ r, r ∈ affected k t → (intent_seq r < z)%Z) by (intros r [_ ?]%affected_elem; auto).
  revert Ha. generalize (affected k t) as l. induction l as [|r l IH]; csimpl; intros Ha; [done|].
  specialize (IH (λ r Hr, Ha r (list_elem_of_further _ _ _ Hr))). specialize (Ha r ltac:(left)). lia.
Qed.

Definition takes (role : string) (r : Row) : bool := bool_decide (role ∈ RoleKeys r) && (op_type r =? op_revoke).
Definition gives (role : string) (r : Row) : bool :=
  bool_decide (role ∈ RoleKeys r) && ((op_type r =? op_add) || (op_type r =? op_replace)).
Lemma last_word role l :
  StronglySorted (λ r r', intent_seq r < intent_seq r')%Z l → Forall (λ r, 0 < intent_seq r)%Z l →
  Forall (λ r, op_type r = op_replace → role ∈ RoleKeys r) l →
  (max_seq (takes role) l <? max_seq (gives role) l)%Z = foldl (replay_row role) false l.
Proof.
  induction l as [|r l IH] using rev_ind; [done|]. intros Hs Hp Hr.
  apply StronglySorted_app in Hs as (Hlt & Hs & _). apply Forall_app in Hp as [Hp Hp'].
  apply Forall_app in Hr as [Hr Hr']. apply Forall_cons in Hp' as [Hp' _], Hr' as [Hr' _]. specialize (IH Hs Hp Hr).
  rewrite foldl_app. simpl. rewrite <-IH, !max_seq_snoc. clear IH.
  assert (max_seq (takes role) l < intent_seq r)%Z by (apply max_seq_lt; [exact Hp'|]; intros; by apply Hlt; [|left]).
  assert (max_seq (gives role) l < intent_seq r)%Z by (apply max_seq_lt; [exact Hp'|]; intros; by apply Hlt; [|left]).
  unfold replay_row, takes at 1, gives at 1. destruct (decide (role ∈ RoleKeys r)) as [Hin|Hin].
  - rewrite (bool_decide_eq_true_2 _ Hin), (bool_decide_eq_false_2 (role ∉ _)) by tauto.
    destruct (op_type r); simpl; rewrite ?orb_true_r, ?andb_false_r; lia.
  - rewrite (bool_decide_eq_false_2 _ Hin), (bool_decide_eq_true_2 (role ∉ _)) by tauto.
    destruct (op_type r) eqn:Eo; simpl; rewrite ?orb_false_r, ?andb_true_r; try done. destruct Hin. by apply Hr'.
Qed.

Lemma history_sorted d tgt u p :
  NoDup (intent_seq <$> outbox d) →
  StronglySorted (λ r r', intent_seq r < intent_seq r')%Z (history d tgt u p).
Proof.
  intros Hnd. unfold history.
  assert (Hn : NoDup (intent_seq <$> stable_sort by_intent (affected (accepted tgt u p) (outbox d)))).
  { rewrite stable_sort_perm. eapply sublist_NoDup; [exact Hnd|]. apply fmap_sublist, sublist_filter. }
  pose proof (stable_sort_ascending (cmp := by_intent) (affected (accepted tgt u p) (outbox d))) as Hs.
  revert Hn Hs. generalize (stable_sort by_intent (affected (accepted tgt u p) (outbox d))) as l. intros l Hn Hs.
  induction Hs as [|r l Hs IH Hf]; [constructor|]. csimpl in Hn. apply NoDup_cons in Hn as [Hr Hn].
  constructor; [auto|]. rewrite Forall_forall in Hf |- *. intros r' Hr'. specialize (Hf r' Hr').
  unfold cmp_le, by_intent, cmp_on in Hf. rewrite Z.compare_le_iff in Hf.
  assert (intent_seq r ≠ intent_seq r') by (intros E; apply Hr; rewrite E; by apply list_elem_of_fmap_2). lia.
Qed.

(** Where no accepted replace left the role out, the standing test is the
    truth about Zitadel: the role is standing exactly when replaying every
    accepted change of that person and project, in intent order, leaves it. *)
Theorem standingFor_is_replay d u p role :
  NoDup (intent_seq <$> outbox d) → (∀ r, r ∈ outbox d → 0 < intent_seq r)%Z →
  (∀ r, r ∈ outbox d → accepted "zitadel" u p r = true → op_type r = op_replace → role ∈ RoleKeys r) →
  standingFor d "zitadel" u p role = in_zitadel d "zitadel" u p role.
Proof.
  intros Hnd Hpos Hrep. unfold in_zitadel. rewrite <-last_word.
  - unfold standingFor. cbn zeta. f_equal; unfold history;
      (erewrite (max_seq_perm _ (stable_sort _ _)); [|apply stable_sort_perm]); unfold max_seq; do 2 f_equal;
      unfold affected; rewrite list_filter_filter; apply list_filter_iff; intros r;
      unfold delivered_row, accepted, takes, gives; rewrite !andb_true_iff, !bool_decide_eq_true; tauto.
  - by apply history_sorted.
  - apply Forall_forall. intros r Hr. unfold history in Hr. rewrite stable_sort_elem, affected_elem in Hr. naive_solver.
  - apply Forall_forall. intros r Hr. unfold history in Hr. rewrite stable_sort_elem, affected_elem in Hr. naive_solver.
Qed.

Definition sent (r : Row) : Row := with_progress r (terminate 1000 applied None (progress r)).
Definition demo_delivered : Db :=
  demo_db [sent (demo_row "1" "ada" op_add 1 (fresh_progress None));
           sent (demo_row "2" "ada" op_revoke 2 (fresh_progress None))].
Lemma standingFor_is_replay_witness :
  standingFor demo_delivered "zitadel" "ada" "lab" "viewer" = in_zitadel demo_delivered "zitadel" "ada" "lab" "viewer".
Proof.
  apply standingFor_is_replay.
  - apply (bool_decide_unpack _). by vm_compute.
  - intros r Hr. simpl in Hr. repeat (apply elem_of_cons in Hr as [->|Hr]; [done|]). by apply elem_of_nil in Hr.
  - intros r Hr. simpl in Hr. repeat (apply elem_of_cons in Hr as [->|Hr]; [done|]). by apply elem_of_nil in Hr.
Defined.

(** C35. A write drops only what nothing needs, as far as the standing test sees:
    what it cancels is what the preview names, all of it pending changes of the same
    person, project and role that it answers, each audited; and it is not sent
    itself only when it cancelled something and the standing test says that the role
    is already the way the write wants it. Where intents are numbered apart and no
    accepted replace left the role out, that is the truth: replaying every accepted
    change of the person and project in intent order leaves the role in Zitadel
    exactly if the write adds it. An accepted replace that left it out is one the
    test does not see ([standingFor_misses_replace]). *)
Theorem withdrawUndelivered_spec `{!EnqueueEnv} d g p g' d' owed :
  NoDup (id <$> outbox d) →
  withdrawUndelivered d g "zitadel" p = (g', inr (d', owed)) →
  (∃ logs, audit_logs d' = audit_logs d ++ logs ∧ a_resource <$> logs = c_ID <$> WouldCancel d p) ∧
  (∀ r, r ∈ outbox d → id r ∈ (c_ID <$> WouldCancel d p) →
     row_status r = pending ∧ user_id r = UserID p ∧ project_id r = Some (e_ProjectID p) ∧
     role_keys r = Some (e_RoleKeys p) ∧ (op_type r = op_revoke ↔ e_OpType p = op_add)) ∧
  (∀ r', r' ∈ outbox d' → ∃ r, r ∈ outbox d ∧ id r = id r' ∧
     row_status r' = if bool_decide (id r ∈ (c_ID <$> WouldCancel d p)) then superseded else row_status r) ∧
  (owed = false → WouldCancel d p ≠ [] ∧
     ∃ role, e_RoleKeys p = [role] ∧
       (standingFor d "zitadel" (UserID p) (e_ProjectID p) role = true ↔ e_OpType p = op_add) ∧
       (NoDup (intent_seq <$> outbox d) → (∀ r, r ∈ outbox d → 0 < intent_seq r)%Z →
        (∀ r, r ∈ outbox d → accepted "zitadel" (UserID p) (e_ProjectID p) r = true → op_type r = op_replace → role ∈ RoleKeys r) →
        (in_zitadel d "zitadel" (UserID p) (e_ProjectID p) role = true ↔ e_OpType p = op_add))).
Proof.
  intros Hnd Hw. apply withdraw_ok in Hw as [_ Hw]. cbn zeta in Hw.
  assert (HW : WouldCancel d p = if answersAny p then AnsweredBy p (candidates d "zitadel" p) else [])
    by (unfold WouldCancel; by destruct (answersAny p)).
  rewrite <-HW in Hw.
  assert (Hpend : ∀ r, r ∈ outbox d → id r ∈ (c_ID <$> WouldCancel d p) →
     row_status r = pending ∧ candidateWhere "zitadel" p r = true ∧ Answers p (scanQueuedChange r) = true ∧
     answersAny p = true).
  { intros r Hr Hin. rewrite HW in Hin. destruct (answersAny p); [|by apply elem_of_nil in Hin].
    destruct (answered_pending d "zitadel" p r Hnd Hr Hin) as (? & ? & ?). auto. }
  split_and!.
  - destruct Hw as [(-> & -> & _)|(_ & _ & _ & (logs & ? & ? & _) & _)]; [exists []|by exists logs].
    by rewrite app_nil_r.
  - intros r Hr Hin. destruct (Hpend r Hr Hin) as (Hs & Hc & Ha & Hany).
    unfold candidateWhere in Hc. rewrite !andb_true_iff, !bool_decide_eq_true in Hc.
    split_and!; try tauto. by apply (Answers_opposite p (scanQueuedChange r)).
  - destruct Hw as [(-> & -> & _)|(_ & _ & Ho & _)].
    + intros r' Hr'. exists r'. done.
    + rewrite Ho. intros r' (r & Hr & ->)%update_elem. exists r.
      by destruct (bool_decide (id r ∈ (c_ID <$> WouldCancel d p))).
  - intros ->. destruct Hw as [(_ & _ & ?)|(Hne & _ & Ho & _ & Howed)]; [done|]. split; [done|].
    rewrite (standing_cancelled d d' _ _ _ _ (c_ID <$> WouldCancel d p)
               (Some (if e_OpType p =? op_add then givenBackReason else withdrawnReason)) (now d)) in Howed;
      [|by intros; edestruct Hpend as [? _]|done].
    destruct (answersAny p) eqn:Hany; [|by rewrite HW in Hne].
    apply answersAny_spec in Hany as [[role Er] Hop]. exists role. split; [done|].
    assert (standingFor d "zitadel" (UserID p) (e_ProjectID p) role = true ↔ e_OpType p = op_add) as Hst.
    { unfold OwedAfterCancel in Howed. rewrite Er in Howed. simpl in Howed.
      destruct (standingFor _ _ _ _ _), Hop as [E|E]; rewrite E in *; by (vm_compute in Howed || done). }
    split; [exact Hst|]. intros Hi Hpos Hrep. by rewrite <-(standingFor_is_replay d _ _ role Hi Hpos Hrep).
Qed.

Lemma withdrawUndelivered_spec_witness :
  c_ID <$> WouldCancel demo_given (demo_params op_revoke) = ["2"] ∧
  ∃ role, e_RoleKeys (demo_params op_revoke) = [role] ∧
    (in_zitadel demo_given "zitadel" "ada" "lab" role = true ↔ op_revoke = op_add).
Proof.
  split; [by vm_compute|].
  destruct (withdrawUndelivered demo_given None "zitadel" (demo_params op_revoke)) as [g [e|[d' []]]] eqn:E;
    [by vm_compute in E|by vm_compute in E|].
  assert (∀ r, r ∈ outbox demo_given → (0 <? intent_seq r)%Z = true ∧ (op_type r =? op_replace) = false) as Hf.
  { assert (forallb (λ r, (0 <? intent_seq r)%Z && negb (op_type r =? op_replace)) (outbox demo_given) = true) as Hb by by vm_compute.
    intros r Hr. rewrite forallb_forall in Hb. apply list_elem_of_In in Hr. specialize (Hb r Hr). by apply andb_true_iff in Hb as [? ?%negb_true_iff]. }
  destruct (withdrawUndelivered_spec demo_given None (demo_params op_revoke) g d' false) as (_ & _ & _ & Ho);
    [apply (bool_decide_unpack _); by vm_compute|exact E|].
  destruct (Ho eq_refl) as (_ & role & Er & _ & Hz). exists role. split; [exact Er|]. apply Hz.
  - apply (bool_decide_unpack _). by vm_compute.
  - intros r Hr. apply Z.ltb_lt. apply (Hf r Hr).
  - intros r Hr _ Hop. destruct (Hf r Hr) as [_ Hr']. by rewrite Hop in Hr'.
Defined.

(** An accepted replace that leaves a role out is a removal the standing
    test does not see. Then the role is gone from Zitadel, the test says it
    stands, and giving it back cancels a queued removal and queues nothing: the
    person is recorded as holding a role nothing will ever deliver. *)
Theorem standingFor_misses_replace :
  ∃ (d d' : Db) (p : EnqueueParams),
    e_OpType p = op_add ∧ e_RoleKeys p = ["viewer"] ∧
    in_zitadel d "zitadel" "ada" "lab" "viewer" = false ∧
    standingFor d "zitadel" "ada" "lab" "viewer" = true ∧
    enqueueWrites d None [] [p] None = (None, inr (d', [])) ∧
    (∀ r, r ∈ outbox d' → unresolved r = false).
Proof.
  set (d := demo_db [sent (demo_row "1" "ada" op_add 1 (fresh_progress None));
                     sent {| id := "2"; target := "zitadel"; op_type := op_replace; user_id := "ada";
                             project_id := Some "lab"; role_keys := Some ["editor"]; source := "direct";
                             source_ref := None; cascade_id := None; zitadel_grant_id := None;
                             payload_json := "{}"; idempotency_key := "2"; initiated_by := "op"; reason := None;
                             withdraws_only := false; intent_seq := 2; created_at := 2; plan_subject_id := None; snapshot := None;
                             progress := fresh_progress None |};
                     demo_row "3" "ada" op_revoke 3 (fresh_progress None)]).
  exists d, (result_db (enqueueWrites d None [] [demo_params op_add] None) d), (demo_params op_add).
  split_and!; try (by vm_compute).
  intros r Hr. vm_compute in Hr. repeat (apply elem_of_cons in Hr as [->|Hr]; [done|]). by apply elem_of_nil in Hr.
Qed.
