(* ===== verification/Requests.v ===== *)
(** * Requests: asking for a role, and deciding

    backend/internal/db/access_requests.go, handlers/request_kinds.go and the
    request handlers of handlers/access.go. What Zitadel was last seen to give
    (zitadel_grants_index), the catalogue of roles it offers and whether a read
    answers are arguments. The zone's calendar is a class: days are numbered, and
    each begins at a midnight. What follows an approval's commit is the
    convergence of Entitlement.v; sending the row is the drain's. *)

From S2P Require Import Prelude Access Tables Extcall Outbox Lifecycle Plans Entitlement Enqueue.

(** ** The calendar (clock/clock.go) *)
Class Zone := {
  day_of : Z → Z;
  midnight : Z → Z;
  zone_day t : (midnight (day_of t) ≤ t < midnight (day_of t + 1))%Z;
  zone_step d : (midnight d + second < midnight (d + 1))%Z;
}.

Section clock.
Context `{!Zone}.
(** A day's last second; [Day] and [EndOfDay] of the day an instant is in. *)
Definition EndOfDay (day : Z) : Z := (midnight (day + 1) - second)%Z.
Definition EndAfterDays (t n : Z) : Z := (midnight (day_of t + n + 1) - second)%Z.
End clock.

(** ** What is held, and what may be asked (request_kinds.go) *)
Inductive HoldingKind := HoldingNone | HoldingForGood | HoldingUntil.
#[export] Instance HoldingKind_eq_dec : EqDecision HoldingKind.
Proof. solve_decision. Defined.
Record Held := { h_Kind : HoldingKind; h_Until : option Z; h_Waiting : bool }.

Definition requestKindAccess : string := "access".
Definition requestKindExtend : string := "extend".

Inductive KindError :=
  | errNothingToExtend | errExtensionShortens | errAskEnded | errNothingHeldToExtend | errRequestAlreadyHeld.

Inductive approvalEffect := effectGive | effectExtend | effectGiveAgain.
Record approvalPlan := { ap_Effect : approvalEffect; ap_ExpiresAt : option Z; ap_EndRule : EndRule }.

(** [t.After(u)] *)
Definition After (t u : Z) : bool := (u <? t)%Z.

Section kinds.
Context `{!Zone}.

Definition endAfter (now : Z) (days : option Z) : option Z :=
  match days with Some n => if (n <=? 0)%Z then None else Some (EndAfterDays now n) | None => None end.
Definition askedEnd (until : Z) : Z := EndOfDay (day_of until).
Definition extendEnd (now : Z) (h : Held) (days until : option Z) : option Z :=
  match until with
  | Some u => Some (askedEnd u)
  | None =>
      let base := match h_Kind h, h_Until h with HoldingUntil, Some u => if After u now then u else now | _, _ => now end in
      endAfter base days
  end.
Definition checkExtension (h : Held) (newEnd : option Z) : option KindError :=
  match h_Kind h, h_Until h with
  | HoldingUntil, Some u =>
      match newEnd with Some e => if After e u then None else Some errExtensionShortens | None => None end
  | _, _ => Some errNothingToExtend
  end.
Definition ask_ended (until : option Z) (now : Z) : bool :=
  match until with Some u => negb (After (askedEnd u) now) | None => false end.
Definition checkRequestKind (kind : string) (h : Held) (days until : option Z) (now : Z) : option KindError :=
  if ask_ended until now then Some errAskEnded
  else if kind =? requestKindExtend then
    if h_Kind h =? HoldingNone then Some errNothingHeldToExtend else checkExtension h (extendEnd now h days until)
  else if h_Kind h <>? HoldingNone then Some errRequestAlreadyHeld else None.

Definition planApproval (k : Ask) (h : Held) (now : Z) : KindError + approvalPlan :=
  if ask_ended (k_until k) now then inl errAskEnded
  else
    let end_ := match k_until k with Some u => Some (askedEnd u) | None => endAfter now (k_days k) end in
    let end_ := if k_kind k =? requestKindExtend then extendEnd now h (k_days k) (k_until k) else end_ in
    if k_kind k <>? requestKindExtend then
      if h_Kind h <>? HoldingNone then inl errRequestAlreadyHeld
      else inr {| ap_Effect := effectGive; ap_ExpiresAt := end_; ap_EndRule := EndKept |}
    else if h_Kind h =? HoldingNone then inr {| ap_Effect := effectGiveAgain; ap_ExpiresAt := end_; ap_EndRule := EndKept |}
    else match checkExtension h end_ with
         | Some errNothingToExtend => inl errRequestAlreadyHeld
         | Some e => inl e
         | None => inr {| ap_Effect := effectExtend; ap_ExpiresAt := end_; ap_EndRule := EndSet |}
         end.
End kinds.

Definition holdingEnd (h : Held) : option Z := if h_Kind h =? HoldingUntil then h_Until h else None.
Definition approvalReason (e : approvalEffect) : string :=
  match e with
  | effectExtend => "Kept longer, from a request"
  | effectGiveAgain => "Given again, from a request to keep it longer"
  | effectGive => "Approved from access request"
  end.

(** ** The table (db/access_requests.go) *)
Section table.
Context `{!EnqueueEnv}.

Definition waiting_for (user project role : string) (q : AccessRequest) : bool :=
  (q_user q =? user) && (q_project q =? project) && (q_role q =? role) && (q_status q =? "pending").

(** The roles Zitadel was last seen to give a person in a project. *)
Context (observed : string → string → list string).

Definition queued_row (user project : string) (r : Row) : bool :=
  (target r =? "zitadel") && unresolved r && (user_id r =? user) && bool_decide (project_id r = Some project).
Definition RequestHolding (d : Db) (user project role : string) : Held :=
  let queued := filter (λ r, queued_row user project r = true) (outbox d) in
  let names r := bool_decide (role ∈ RoleKeys r) in
  let leaving := existsb (λ r, ((op_type r =? op_revoke) && names r) || ((op_type r =? op_replace) && negb (names r))) queued in
  let grants := filter (λ g, g_user g = user ∧ g_project g = project ∧ g_role g = role) (ledger d) in
  let until := head grants ≫= g_expires_at in
  let granted := (0 <? length grants)%nat && negb leaving in
  let seen := bool_decide (role ∈ observed user project) && negb leaving in
  let waiting := existsb (λ r, ((op_type r =? op_add) || (op_type r =? op_replace)) && names r) queued in
  if granted && bool_decide (is_Some until) then {| h_Kind := HoldingUntil; h_Until := until; h_Waiting := waiting |}
  else if granted || seen || waiting then {| h_Kind := HoldingForGood; h_Until := None; h_Waiting := waiting |}
  else {| h_Kind := HoldingNone; h_Until := None; h_Waiting := false |}.

(** The new request's id, or the waiting one's with ErrAlreadyAsked. *)
Definition CreateAccessRequestOfKind (d : Db) (kind user project role justification : string) (days until : option Z)
    : Db * (string + string) :=
  match head (filter (λ q, waiting_for user project role q = true) (requests d)) with
  | Some q => (d, inl (q_id q))
  | None =>
      let '(d, i) := mint d in
      (with_requests d (requests d ++
         [{| q_id := i; q_user := user; q_project := project; q_role := role; q_status := "pending"; q_reviewer := "";
             q_note := "";
             q_ask := {| k_kind := kind; k_justification := justification; k_days := days; k_until := until; k_created := now d |};
             q_resolved := None; q_ended_before := None; q_ends_after := None |}]) [], inr i)
  end.
Definition CreateAccessRequest (d : Db) (user project role justification : string) (days : option Z) : Db * (string + string) :=
  CreateAccessRequestOfKind d "access" user project role justification days None.

Definition GetAccessRequestByID (d : Db) (i : string) : option AccessRequest :=
  head (filter (λ q, q_id q = i) (requests d)).
Definition GetAccessRequests (d : Db) (status : string) : list AccessRequest :=
  stable_sort (cmp_on (λ q, k_created (q_ask q)) (λ a b, Z.compare b a))
    (filter (λ q, (status =? "") || (q_status q =? status) = true) (requests d)).

(** [UPDATE access_requests SET ... WHERE ...] *)
Definition settled (q : AccessRequest) (status reviewer note : string) (t : Z) (before after : option Z) : AccessRequest :=
  {| q_id := q_id q; q_user := q_user q; q_project := q_project q; q_role := q_role q; q_status := status;
     q_reviewer := reviewer; q_note := note; q_ask := q_ask q; q_resolved := Some t; q_ended_before := before;
     q_ends_after := after |}.
Definition update_requests (d : Db) (where_ : AccessRequest → bool) (set_ : AccessRequest → AccessRequest) : Db * nat :=
  (with_requests d ((λ q, if where_ q then set_ q else q) <$> requests d) [],
   length (filter (λ q, where_ q = true) (requests d))).

(** [None] is ErrRequestNotPending. *)
Definition ResolveAccessRequest (d : Db) (i status reviewer note : string) (endedBefore : option Z) : option Db :=
  let '(d', n) := update_requests d (λ q, (q_id q =? i) && (q_status q =? "pending"))
                    (λ q, settled q status reviewer note (now d) endedBefore (q_ends_after q)) in
  if n =? 0 then None else Some d'.
Definition WithdrawAccessRequest (d : Db) (i requester : string) : option Db :=
  let '(d', n) := update_requests d (λ q, (q_id q =? i) && (q_user q =? requester) && (q_status q =? "pending"))
                    (λ q, settled q "withdrawn" (q_reviewer q) (q_note q) (now d) (q_ended_before q) (q_ends_after q)) in
  if n =? 0 then None else Some d'.

Inductive ApproveError := ErrRequestNotPending | ErrEnqueue (e : EnqueueError).
Definition ApproveRequestAndEnqueue (d : Db) (g : option CancelGate) (i reviewer note : string) (p : EnqueueParams)
    (endedBefore endsAfter : option Z) : option CancelGate * (ApproveError + Db * EnqueueResult) :=
  let '(d, key) := mint d in
  let '(d, n) := update_requests d (λ q, (q_id q =? i) && (q_status q =? "pending"))
                   (λ q, settled q "approved" reviewer note (now d) endedBefore endsAfter) in
  if n =? 0 then (g, inl ErrRequestNotPending)
  else match enqueueWrites d g [] [p] (Some key) with
       | (g, inl e) => (g, inl (ErrEnqueue e))
       | (g, inr (d, ids)) =>
           let '(own, rules) := ownAndRules ids in
           (g, inr (d, {| er_OutboxID := own; er_IdempotencyKey := key; er_Status := enqueuedStatus own;
                          er_RuleOutboxIDs := rules |}))
       end.

(** ** Deciding (handlers/access.go) *)
Inductive Offer := Offered | NotOffered | CatalogueUnread.
(** The catalogue as the guard reads it ([None]: unread) and the lookup in it. *)
Definition offeredCatalogue (configured : bool) (tag : string) (projects : option (list (string * list string)))
    : option (list (string * list string)) :=
  if configured && (tag <>? "zitadel") then None else projects.
Definition roleOfferedInDirectory (catalogue : option (list (string * list string))) (project role : string) : Offer :=
  match catalogue with
  | None => CatalogueUnread
  | Some ps => if existsb (λ p, (p.1 =? project) && bool_decide (role ∈ p.2)) ps then Offered else NotOffered
  end.
Inductive DecideError :=
  | errRequestNotFound
  | errRequestAlreadyResolved
  | HoldingUnread
  | Unfit (e : KindError)
  | errRoleNotOffered
  | errCatalogueUnread
  | NotQueued (e : EnqueueError).

Record decisionResult := { dr_Effect : option approvalEffect; dr_Until : option Z; dr_Queued : option EnqueueResult }.

Context `{!Zone} (offered : string → string → Offer) (find_user : string → option string) (sha256hex : string → string).

Definition grant_of (q : AccessRequest) (plan : approvalPlan) (reviewer payload : string) : EnqueueParams :=
  {| UserID := q_user q; e_ProjectID := q_project q; e_RoleKeys := [q_role q]; GrantedBy := reviewer;
     e_Reason := approvalReason (ap_Effect plan); ExpiresAt := ap_ExpiresAt plan; Source := "direct";
     SourceRef := q_id q; e_OpType := op_add; ZitadelGrantID := ""; PayloadJSON := payload; NoPropagation := false;
     e_EndRule := ap_EndRule plan; e_WaitReason := "" |}.

(** Best effort, after the grant is committed (grant_convergence.go). *)
Definition convergeAfterGrant (clock : Z) (d : Db) (actor user project : string) : Db :=
  match ConvergeProjectChange find_user sha256hex clock d actor user project with inr d => d | inl _ => d end.

Definition audit (d : Db) (actor subject action i : string) : Db := log d actor subject action i None "".

(** [d0]: the state the reads saw, before the transaction that runs on [d];
    [reads]: whether the holding could be read; [clock]: time.Now. *)
Definition resolveAccessRequestOutcome (d0 d : Db) (g : option CancelGate) (reads : bool) (clock : Z)
    (i status reviewer note payload : string) : option CancelGate * (DecideError + Db * decisionResult) :=
  match GetAccessRequestByID d0 i with
  | None => (g, inl errRequestNotFound)
  | Some q =>
      if q_status q <>? "pending" then (g, inl errRequestAlreadyResolved)
      else
        let h := RequestHolding d0 (q_user q) (q_project q) (q_role q) in
        let extend := k_kind (q_ask q) =? requestKindExtend in
        let action := if (status =? "approved") && (reviewer =? q_user q) then "access_request.self_approved"
                      else "access_request." +:+ status in
        if status =? "approved" then
          if negb reads then (g, inl HoldingUnread)
          else match planApproval (q_ask q) h clock with
               | inl e => (g, inl (Unfit e))
               | inr plan =>
                   match offered (q_project q) (q_role q) with
                   | NotOffered => (g, inl errRoleNotOffered)
                   | CatalogueUnread => (g, inl errCatalogueUnread)
                   | Offered =>
                       match ApproveRequestAndEnqueue d g i reviewer note (grant_of q plan reviewer payload)
                               (if extend then holdingEnd h else None) (if extend then ap_ExpiresAt plan else None) with
                       | (g, inl ErrRequestNotPending) => (g, inl errRequestAlreadyResolved)
                       | (g, inl (ErrEnqueue e)) => (g, inl (NotQueued e))
                       | (g, inr (d, queued)) =>
                           let d := convergeAfterGrant clock d reviewer (q_user q) (q_project q) in
                           (g, inr (audit d reviewer (q_user q) action i,
                                    {| dr_Effect := Some (ap_Effect plan); dr_Until := ap_ExpiresAt plan; dr_Queued := Some queued |}))
                       end
                   end
               end
        else
          match ResolveAccessRequest d i status reviewer note (if extend && reads then holdingEnd h else None) with
          | None => (g, inl errRequestAlreadyResolved)
          | Some d => (g, inr (audit d reviewer (q_user q) action i,
                               {| dr_Effect := None; dr_Until := None; dr_Queued := None |}))
          end
  end.
Definition resolveOneAccessRequest (d0 d : Db) (g : option CancelGate) (reads : bool) (clock : Z)
    (i status reviewer note payload : string) : option CancelGate * (DecideError + Db) :=
  let '(g, r) := resolveAccessRequestOutcome d0 d g reads clock i status reviewer note payload in
  (g, match r with inl e => inl e | inr (d, _) => inr d end).

(** ** Asking (handleCreateAccessRequest) *)
Record CreateForm := {
  cf_RequesterID : string; cf_ProjectID : string; cf_RoleKey : string; cf_Justification : string;
  cf_DurationDays : Z; cf_Until : option Z; cf_Kind : string;
}.
Inductive CreateError :=
  | Invalid (field : string)
  | RoleNotOffered
  | CreateCatalogueUnread
  | CreateHoldingUnread
  | CreateUnfit (e : KindError)
  | ALREADY_ASKED (waiting : string).

Definition filled (s : string) : bool := TrimSpace s <>? "".
(** Who acts: the person signed in, else the one the body names. *)
Definition resolveActor (self bodyValue : string) : string :=
  if self <>? "" then self else if filled bodyValue then TrimSpace bodyValue else "system".
(** [self]: the person signed in; [operator]: whether they may ask for others. *)
Definition handleCreateAccessRequest (d0 d : Db) (operator reads : bool) (self : string) (clock : Z) (f : CreateForm)
    : Db * (CreateError + string) :=
  let requester := if operator then cf_RequesterID f else self in
  let kind := if cf_Kind f =? "" then requestKindAccess else cf_Kind f in
  let days := if (0 <? cf_DurationDays f)%Z then Some (cf_DurationDays f) else None in
  if negb (filled requester && filled (cf_ProjectID f) && filled (cf_RoleKey f) && filled (cf_Justification f))
  then (d, inl (Invalid "requester_id"))
  else if (cf_DurationDays f <? 0)%Z then (d, inl (Invalid "duration_days"))
  else if match cf_Until f with Some u => negb (After u clock) | None => false end then (d, inl (Invalid "until"))
  else if (kind <>? requestKindAccess) && (kind <>? requestKindExtend) then (d, inl (Invalid "kind"))
  else match offered (cf_ProjectID f) (cf_RoleKey f) with
       | NotOffered => (d, inl RoleNotOffered)
       | CatalogueUnread => (d, inl CreateCatalogueUnread)
       | Offered =>
           if negb reads then (d, inl CreateHoldingUnread)
           else
             let h := RequestHolding d0 requester (cf_ProjectID f) (cf_RoleKey f) in
             match checkRequestKind kind h days (cf_Until f) clock with
             | Some errAskEnded => (d, inl (Invalid "until"))
             | Some e => (d, inl (CreateUnfit e))
             | None =>
                 match CreateAccessRequestOfKind d kind requester (cf_ProjectID f) (cf_RoleKey f) (cf_Justification f) days (cf_Until f) with
                 | (d, inl waiting) => (d, inl (ALREADY_ASKED waiting))
                 | (d, inr i) =>
                     (audit d (resolveActor self requester) requester "access_request.created" i, inr i)
                 end
             end
       end.

(** The decision's own checks (handleResolveAccessRequest). *)
Inductive ResolveError := MissingID | BadStatus | MissingReviewer | Undecided (e : DecideError).
Definition handleResolveAccessRequest (d0 d : Db) (g : option CancelGate) (reads : bool) (clock : Z)
    (self i status reviewerID note payload : string) : option CancelGate * (ResolveError + Db * decisionResult) :=
  let status := ToLower (TrimSpace status) in
  let reviewer := resolveActor self reviewerID in
  if negb (filled i) then (g, inl MissingID)
  else if (status <>? "approved") && (status <>? "rejected") then (g, inl BadStatus)
  else if (status =? "approved") && (reviewer =? "system") then (g, inl MissingReviewer)
  else match resolveAccessRequestOutcome d0 d g reads clock i status reviewer note payload with
       | (g, inl e) => (g, inl (Undecided e))
       | (g, inr r) => (g, inr r)
       end.

(** Taking a request back: nobody is signed in in dev mode. *)
Inductive WithdrawError := WithdrawNotFound | WithdrawForbidden | WithdrawResolved.
Definition handleWithdrawAccessRequest (d0 d : Db) (self i : string) : Db * (WithdrawError + unit) :=
  match GetAccessRequestByID d0 i with
  | None => (d, inl WithdrawNotFound)
  | Some q =>
      if (self <>? "") && (self <>? q_user q) then (d, inl WithdrawForbidden)
      else match WithdrawAccessRequest d i (q_user q) with
           | None => (d, inl WithdrawResolved)
           | Some d => (audit d (q_user q) (q_user q) "access_request.withdrawn" i, inr ())
           end
  end.

(** ** Listing (handleGetAccessRequests) *)
Record RequestView := {
  v_Request : AccessRequest; v_Holding : option Held; v_CurrentUntil : option Z; v_Until : option Z;
}.
(** [reads]: which holdings could be read. *)
Definition withHolding (d : Db) (reads : AccessRequest → bool) (clock : Z) (l : list AccessRequest) : list RequestView :=
  (λ q, if (q_status q <>? "pending") || negb (reads q)
        then {| v_Request := q; v_Holding := None; v_CurrentUntil := None; v_Until := None |}
        else
          let h := RequestHolding d (q_user q) (q_project q) (q_role q) in
          if k_kind (q_ask q) =? requestKindExtend
          then {| v_Request := q; v_Holding := Some h; v_CurrentUntil := h_Until h;
                  v_Until := match planApproval (q_ask q) h clock with inr p => ap_ExpiresAt p | inl _ => None end |}
          else {| v_Request := q; v_Holding := Some h; v_CurrentUntil := None; v_Until := None |}) <$> l.
Definition handleGetAccessRequests (d : Db) (reads : AccessRequest → bool) (operator mine : bool) (self : string) (clock : Z)
    (status : string) : option (list RequestView) :=
  let status := TrimSpace status in
  if bool_decide (status ∉ [""; "pending"; "approved"; "rejected"; "withdrawn"; "fulfilled"]) then None
  else
    let all := GetAccessRequests d status in
    Some (withHolding d reads clock (if negb operator || mine then filter (λ q, q_user q = self) all else all)).

(** ** Giving directly (handleUpsertUserDirectGrant, grant_convergence.go) *)
Record UpsertForm := {
  uf_ProjectID : string; uf_RoleKey : string; uf_Reason : string; uf_GrantedBy : string; uf_DurationDays : Z; uf_Extend : bool;
}.
Inductive UpsertError :=
  | UpsertInvalid (field : string)
  | UpsertNotOffered
  | UpsertCatalogueUnread
  | UpsertHoldingUnread
  | ALREADY_HELD (h : Held)
  | NOTHING_TO_EXTEND
  | ALREADY_RUNS_PAST
  | UpsertNotQueued (e : EnqueueError).

Definition grantDirect (clock : Z) (d : Db) (g : option CancelGate) (p : EnqueueParams) : Outcome (Db * EnqueueResult) :=
  match EnqueueDirectGrantPropagation d g p with
  | (g, inr (d, r)) => (g, inr (convergeAfterGrant clock d (GrantedBy p) (UserID p) (e_ProjectID p), r))
  | x => x
  end.
Definition upsert_end (clock : Z) (f : UpsertForm) : option Z :=
  if (0 <? uf_DurationDays f)%Z then Some (EndAfterDays clock (uf_DurationDays f)) else None.
Definition upsert_params (self : string) (clock : Z) (user payload : string) (f : UpsertForm) (rule : EndRule) : EnqueueParams :=
  {| UserID := user; e_ProjectID := uf_ProjectID f; e_RoleKeys := [uf_RoleKey f];
     GrantedBy := resolveActor self (uf_GrantedBy f); e_Reason := uf_Reason f; ExpiresAt := upsert_end clock f;
     Source := "direct"; SourceRef := ""; e_OpType := op_add; ZitadelGrantID := ""; PayloadJSON := payload;
     NoPropagation := false; e_EndRule := rule; e_WaitReason := "" |}.
(** What the handler does before it delivers. *)
Definition handleUpsertUserDirectGrant (d0 d : Db) (g : option CancelGate) (reads : bool) (self : string) (clock : Z)
    (user payload : string) (f : UpsertForm) : option CancelGate * (UpsertError + Db * EnqueueResult) :=
  if negb (filled user) then (g, inl (UpsertInvalid "id"))
  else if negb (filled (uf_ProjectID f) && filled (uf_RoleKey f)) then (g, inl (UpsertInvalid "project_id"))
  else if (uf_DurationDays f <? 0)%Z then (g, inl (UpsertInvalid "duration_days"))
  else
    let expiresAt := upsert_end clock f in
    let give rule :=
      match grantDirect clock d g (upsert_params self clock user payload f rule) with
      | (g, inl e) => (g, inl (UpsertNotQueued e))
      | (g, inr r) => (g, inr r)
      end in
    match offered (uf_ProjectID f) (uf_RoleKey f) with
    | NotOffered => (g, inl UpsertNotOffered)
    | CatalogueUnread => (g, inl UpsertCatalogueUnread)
    | Offered =>
        if negb reads then (g, inl UpsertHoldingUnread)
        else
          let h := RequestHolding d0 user (uf_ProjectID f) (uf_RoleKey f) in
          if uf_Extend f then
            match checkExtension h expiresAt with
            | Some errNothingToExtend => (g, inl NOTHING_TO_EXTEND)
            | Some errExtensionShortens => (g, inl ALREADY_RUNS_PAST)
            | _ => give EndSet
            end
          else if h_Kind h <>? HoldingNone then (g, inl (ALREADY_HELD h)) else give EndKept
    end.
End table.

(** ** Facts: what may be asked and what is approved *)
Section kind_facts.
Context `{!Zone}.

Lemma EndAfterDays_later t n : (1 ≤ n)%Z → (t < EndAfterDays t n)%Z.
Proof.
  intros Hn. unfold EndAfterDays. pose proof (zone_day t) as [_ Ht].
  assert (Hm : ∀ k : nat, (midnight (day_of t + 1) + second < midnight (day_of t + 1 + 1 + Z.of_nat k))%Z).
  { induction k as [|k IH]; [rewrite Z.add_0_r; apply zone_step|].
    pose proof (zone_step (day_of t + 1 + 1 + Z.of_nat k)) as Hs. unfold second in *.
    replace (day_of t + 1 + 1 + Z.of_nat (S k))%Z with (day_of t + 1 + 1 + Z.of_nat k + 1)%Z by lia. lia. }
  specialize (Hm (Z.to_nat (n - 1))). replace (day_of t + 1 + 1 + Z.of_nat (Z.to_nat (n - 1)))%Z with (day_of t + n + 1)%Z in Hm by lia. lia.
Qed.
Lemma endAfter_later t days e : endAfter t days = Some e → (t < e)%Z.
Proof.
  unfold endAfter. destruct days as [n|]; [|done]. destruct (Z.leb_spec n 0); [done|]. intros [= <-].
  apply EndAfterDays_later. lia.
Qed.
Lemma extendEnd_later now h days until e : ask_ended until now = false → extendEnd now h days until = Some e → (now < e)%Z.
Proof.
  unfold ask_ended, extendEnd, After. destruct until as [u|].
  - rewrite negb_false_iff, Z.ltb_lt. by intros ? [= <-].
  - intros _ He. apply endAfter_later in He. repeat case_match; try done. rewrite Z.ltb_lt in *. lia.
Qed.
Lemma checkExtension_ok h e : checkExtension h e = None ↔ ∃ u, h_Kind h = HoldingUntil ∧ h_Until h = Some u ∧ ∀ t, e = Some t → (u < t)%Z.
Proof.
  unfold checkExtension, After. destruct (h_Kind h), (h_Until h) as [u|]; split; try done; try (by intros (? & ? & ? & _)).
  - destruct e as [t|]; [|intros _; exists u; by split_and!]. destruct (Z.ltb_spec u t); [|done]. intros _. exists u.
    split_and!; [done|done|]. by intros ? [= <-].
  - intros (? & _ & [= <-] & Hlt). destruct e as [t|]; [|done]. specialize (Hlt t eq_refl). apply Z.ltb_lt in Hlt. by rewrite Hlt.
Qed.
Lemma checkExtension_cases h e : checkExtension h e = None ∨ checkExtension h e = Some errNothingToExtend ∨ checkExtension h e = Some errExtensionShortens.
Proof. unfold checkExtension. repeat case_match; auto. Qed.
End kind_facts.

(** ** Properties of the rules *)

(** An approval gives what was asked, and only more than is held. What it gives
    has not ended; a date that was asked for is the date it gives, however late
    it is decided; a role is given only to one who does not have it, and an
    extension moves an end that is there, later. *)
Theorem approval_gives_only_more `{!Zone} k h now p :
  planApproval k h now = inr p →
  (∀ e, ap_ExpiresAt p = Some e → (now < e)%Z) ∧
  (∀ u, k_until k = Some u → ap_ExpiresAt p = Some (askedEnd u)) ∧
  match ap_Effect p with
  | effectGive => k_kind k ≠ requestKindExtend ∧ h_Kind h = HoldingNone ∧ (k_until k = None → ap_ExpiresAt p = endAfter now (k_days k))
  | effectGiveAgain => k_kind k = requestKindExtend ∧ h_Kind h = HoldingNone ∧ (k_until k = None → ap_ExpiresAt p = endAfter now (k_days k))
  | effectExtend => k_kind k = requestKindExtend ∧ ap_EndRule p = EndSet ∧
      ∃ u, h_Kind h = HoldingUntil ∧ h_Until h = Some u ∧ (∀ e, ap_ExpiresAt p = Some e → (u < e)%Z) ∧
        (k_until k = None → ap_ExpiresAt p = endAfter (Z.max now u) (k_days k))
  end.
Proof.
  unfold planApproval. destruct (ask_ended (k_until k) now) eqn:Ha; [done|].
  destruct (decide (k_kind k = requestKindExtend)) as [Hk|Hk].
  - rewrite (bool_decide_true (k_kind k = _)) by done. cbn [negb].
    case_bool_decide as Hn.
    + intros [= <-]. simpl. split_and!; try done; [intros e; by apply extendEnd_later|by intros u ->|].
      intros Hu. unfold extendEnd. by rewrite Hu, Hn.
    + destruct (checkExtension h _) as [[]|] eqn:Hc; try done. intros [= <-]. simpl.
      apply checkExtension_ok in Hc as (u & Hh & Hu & Hlt).
      split_and!; try done; [intros e; by apply extendEnd_later|by intros v ->|]. exists u. split_and!; try done.
      intros Hnone. unfold extendEnd, After. rewrite Hnone, Hh, Hu. f_equal. destruct (Z.ltb_spec now u); lia.
  - rewrite (bool_decide_false (k_kind k = _)) by done. cbn [negb]. case_bool_decide as Hn; [|done]. intros [= <-]. simpl.
    split_and!; try done; [|by intros u ->|by intros ->]. intros e. destruct (k_until k) as [u|] eqn:Hu.
    + intros [= <-]. unfold ask_ended, After in Ha. by rewrite negb_false_iff, Z.ltb_lt in Ha.
    + apply endAfter_later.
Qed.

(** What may be asked is what could be approved: a request is taken when it is
    made exactly if approving it then and there would give the role or move its
    end. *)
Theorem asking_agrees_with_approving `{!Zone} k h now :
  checkRequestKind (k_kind k) h (k_days k) (k_until k) now = None ↔
  ∃ p, planApproval k h now = inr p ∧ ap_Effect p ≠ effectGiveAgain.
Proof.
  unfold checkRequestKind, planApproval. destruct (ask_ended (k_until k) now); [split; [done|by intros (? & ? & _)]|].
  destruct (decide (k_kind k = requestKindExtend)) as [Hk|Hk].
  - rewrite (bool_decide_true (k_kind k = _)) by done. cbn [negb]. case_bool_decide.
    + split; [done|]. by intros (p & [= <-] & Hp).
    + destruct (checkExtension_cases h (extendEnd now h (k_days k) (k_until k))) as [->|[->| ->]];
        split; try done; try (by intros (? & ? & _)). intros _. by eexists.
  - rewrite (bool_decide_false (k_kind k = _)) by done. cbn [negb]. case_bool_decide; [|by split; [|intros (? & ? & _)]].
    split; [|done]. intros _. by eexists.
Qed.

(** ** Facts: the table only files and settles *)
Definition asked_for (q : AccessRequest) : string * string * string := (q_user q, q_project q, q_role q).
Definition is_waiting (q : AccessRequest) : Prop := q_status q = "pending".
#[local] Instance is_waiting_dec q : Decision (is_waiting q) := decide (q_status q = "pending").

(** Some waiting requests are settled. *)
Definition settles (d d' : Db) : Prop :=
  next_uuid d ≤ next_uuid d' ∧
  ∃ f, requests d' = f <$> requests d ∧
    ∀ q, q_id (f q) = q_id q ∧ asked_for (f q) = asked_for q ∧ q_ask (f q) = q_ask q ∧
         (f q = q ∨ (is_waiting q ∧ ¬ is_waiting (f q))).
(** One request is filed, for what nobody waits for. *)
Definition files `{!Uuids} (d d' : Db) : Prop :=
  ∃ q n, requests d' = requests d ++ [q] ∧ is_waiting q ∧ q_id q = uuid n ∧ next_uuid d ≤ n < next_uuid d' ∧
    ∀ q', q' ∈ requests d → is_waiting q' → asked_for q' ≠ asked_for q.
Definition moves `{!Uuids} : Db → Db → Prop := rtc (λ d d', settles d d' ∨ files d d').

(** One waiting request per person and role, ids drawn once. *)
Record requests_wf `{!Uuids} (d : Db) : Prop := {
  rw_one : NoDup (asked_for <$> filter is_waiting (requests d));
  rw_ids : NoDup (q_id <$> requests d);
  rw_drawn : ∀ q, q ∈ requests d → ∃ n, n < next_uuid d ∧ q_id q = uuid n;
}.

Lemma settles_same d d' : requests d' = requests d → next_uuid d ≤ next_uuid d' → settles d d'.
Proof. intros E Hu. split; [done|]. exists (λ q, q). rewrite E, list_fmap_id. split; [done|]. intros q. split_and!; auto. Qed.

Section table_facts.
Context `{!EnqueueEnv}.

Lemma settles_close d p : settles d (closeGivenRequests d p).
Proof.
  unfold closeGivenRequests. destruct (_ || _); [by apply settles_same|]. split; [done|].
  eexists. split; [reflexivity|]. intros q. simpl. destruct (_ && _ && _ && _) eqn:Ea; [|split_and!; auto].
  rewrite !andb_true_iff, !bool_decide_eq_true in Ea. destruct Ea as [[[Hp _] _] _]. split_and!; try done. by right.
Qed.
Lemma update_settles d (w : AccessRequest → bool) s :
  (∀ q, w q = true → is_waiting q) →
  (∀ q, q_id (s q) = q_id q ∧ asked_for (s q) = asked_for q ∧ q_ask (s q) = q_ask q ∧ ¬ is_waiting (s q)) →
  settles d (update_requests d w s).1.
Proof.
  intros Hw Hs. split; [done|]. eexists. split; [reflexivity|]. intros q. simpl. destruct (w q) eqn:E; [|split_and!; auto].
  destruct (Hs q) as (? & ? & ? & ?). split_and!; auto.
Qed.

Lemma moves_once d d' : settles d d' → moves d d'.
Proof. intros. apply rtc_once. by left. Qed.

Lemma enqueueWrites_moves d g audits params key g' d' ids :
  enqueueWrites d g audits params key = (g', inr (d', ids)) → moves d d'.
Proof.
  intros E. eapply (enqueueWrites_preserves g moves); [..|exact E].
  - intros d1 p g1 d2 owed Hw. apply moves_once. apply withdraw_ok in Hw as [_ Hw].
    destruct (if answersAny p then _ else _) eqn:Ea; [by destruct Hw as [(_ & -> & _)|(? & _)]; [apply settles_same|]|].
    destruct Hw as [(_ & -> & _)|(_ & _ & _ & (logs & _ & _ & _ & ->) & _)]; by apply settles_same.
  - intros d1 d2 _ _ Hu _ [Hr|[p ->]]; apply moves_once; [by apply settles_same|apply settles_close].
  - intros d1 p k c gi why. apply moves_once, settles_same; simpl; [done|lia].
  - intros d0 p d1 d2 owed Hf%FollowRules_converges. apply moves_once, settles_same; apply Hf.
Qed.

Lemma settles_wf d d' : requests_wf d → settles d d' → requests_wf d'.
Proof.
  intros [H1 H2 H3] (Hu & f & Hf & Hq). split.
  - rewrite Hf. clear Hf H2 H3. induction (requests d) as [|q l IH]; [done|]. csimpl in *.
    rewrite filter_cons in H1 |- *. destruct (Hq q) as (_ & Ha & _ & Hor).
    assert (Hsub : ∀ x, x ∈ asked_for <$> filter is_waiting (f <$> l) → x ∈ asked_for <$> filter is_waiting l).
    { intros x (y & -> & [Hy (z & -> & Hz)%list_elem_of_fmap]%list_elem_of_filter)%list_elem_of_fmap.
      destruct (Hq z) as (_ & Hz1 & _ & [Hz2|[? ?]]); [|done]. rewrite Hz1. apply list_elem_of_fmap_2, list_elem_of_filter.
      split; [by rewrite Hz2 in Hy|done]. }
    destruct (decide (is_waiting q)) as [Hw|Hw]; csimpl in *.
    + apply NoDup_cons in H1 as [Hn H1]. destruct (decide (is_waiting (f q))); [|by apply IH]. csimpl.
      apply NoDup_cons. split; [rewrite Ha; by intros ?%Hsub|by apply IH].
    + destruct (decide (is_waiting (f q))) as [Hw'|]; [|by apply IH]. destruct Hor as [Hor|[? ?]]; [by rewrite Hor in Hw'|done].
  - rewrite Hf, <- list_fmap_compose. erewrite list_fmap_ext; [exact H2|]. intros ? q _. apply Hq.
  - intros q'. rewrite Hf. intros (q & -> & Hin)%list_elem_of_fmap. destruct (H3 q Hin) as (n & ? & ?).
    exists n. split; [lia|]. destruct (Hq q) as [-> _]. done.
Qed.
Lemma files_wf d d' : requests_wf d → files d d' → requests_wf d'.
Proof.
  intros [H1 H2 H3] (q & n & Hr & Hw & Hi & Hn & Hnew). split.
  - rewrite Hr, filter_app, fmap_app. apply NoDup_app. split_and!; [done| |].
    + intros x (q' & -> & [Hq' Hin]%list_elem_of_filter)%list_elem_of_fmap.
      rewrite filter_cons_True by done. rewrite filter_nil. csimpl. rewrite list_elem_of_singleton. by apply Hnew.
    + rewrite filter_cons_True by done. rewrite filter_nil. apply NoDup_singleton.
  - rewrite Hr. apply NoDup_fmap_snoc; [done|]. intros (q' & E & Hin)%list_elem_of_fmap.
    destruct (H3 q' Hin) as (m & Hm & E'). rewrite Hi, E' in E. apply uuid_inj in E. lia.
  - intros q'. rewrite Hr. intros [Hin| ->%list_elem_of_singleton]%elem_of_app; [|exists n; split; [lia|done]].
    destruct (H3 q' Hin) as (m & ? & ?). exists m. split; [lia|done].
Qed.

(** What settling and filing keep of each request. *)
Lemma moves_keep d d' :
  moves d d' → requests_wf d →
  requests_wf d' ∧ (∀ q, q ∈ requests d → ¬ is_waiting q → q ∈ requests d') ∧
  (∀ q, q ∈ requests d → ∃ q', q' ∈ requests d' ∧ q_id q' = q_id q ∧ asked_for q' = asked_for q ∧ q_ask q' = q_ask q).
Proof.
  induction 1 as [d|d d1 d' Hs _ IH]; intros Hwf; [split_and!; [done..|]; intros q Hq; by exists q|].
  assert (Hwf1 : requests_wf d1) by (destruct Hs; [by eapply settles_wf|by eapply files_wf]).
  destruct (IH Hwf1) as (Hwf' & Hset & Hkeep). split; [done|].
  destruct Hs as [(_ & f & Hf & Hq)|(q1 & n & Hr & _)].
  - split.
    + intros q Hin Hw. apply Hset; [|done]. rewrite Hf. destruct (Hq q) as (_ & _ & _ & [<-|[? _]]); [|done].
      apply list_elem_of_fmap. exists q. split; [|done]. destruct (Hq q) as (_ & _ & _ & [E|[? _]]); congruence.
    + intros q Hin. destruct (Hkeep (f q)) as (q' & Hq' & E1 & E2 & E3); [rewrite Hf; by apply list_elem_of_fmap_2|].
      destruct (Hq q) as (F1 & F2 & F3 & _). exists q'. split_and!; [done|congruence..].
  - split.
    + intros q Hin Hw. apply Hset; [|done]. rewrite Hr. apply elem_of_app. by left.
    + intros q Hin. apply Hkeep. rewrite Hr. apply elem_of_app. by left.
Qed.
End table_facts.

(** ** Facts: every operation files and settles *)
Section operations.
Context `{!EnqueueEnv} `{!Zone} (observed : string → string → list string) (offered : string → string → Offer)
  (find_user : string → option string) (sha256hex : string → string).
Abbreviation decide_request := (resolveAccessRequestOutcome observed offered find_user sha256hex).

Lemma Create_moves d kind user project role why days until :
  moves d (CreateAccessRequestOfKind d kind user project role why days until).1.
Proof.
  unfold CreateAccessRequestOfKind. destruct (head _) as [q|] eqn:Eh; [apply rtc_refl|]. simpl.
  apply rtc_once. right. eexists _, (next_uuid d). split_and!; [reflexivity|done|done|lia|simpl; lia|].
  intros q' Hin Hw [= E1 E2 E3]. apply head_None in Eh.
  assert (Hq : q' ∈ filter (λ q, waiting_for user project role q = true) (requests d)).
  { apply list_elem_of_filter. split; [|done]. unfold waiting_for. rewrite !andb_true_iff, !bool_decide_eq_true. by split_and!. }
  rewrite Eh in Hq. by apply not_elem_of_nil in Hq.
Qed.
Lemma Resolve_moves d i status reviewer note before d' :
  status ≠ "pending" → ResolveAccessRequest d i status reviewer note before = Some d' → moves d d'.
Proof.
  intros Hs. unfold ResolveAccessRequest. cbn [update_requests]. case_match; [done|]. intros [= <-].
  apply moves_once, (update_settles d (λ q, (q_id q =? i) && (q_status q =? "pending"))).
  - intros q. rewrite andb_true_iff, !bool_decide_eq_true. by intros [_ ?].
  - intros q. split_and!; done.
Qed.
Lemma Withdraw_moves d i requester d' : WithdrawAccessRequest d i requester = Some d' → moves d d'.
Proof.
  unfold WithdrawAccessRequest. cbn [update_requests]. case_match; [done|]. intros [= <-].
  apply moves_once, (update_settles d (λ q, (q_id q =? i) && (q_user q =? requester) && (q_status q =? "pending"))).
  - intros q. rewrite !andb_true_iff, !bool_decide_eq_true. by intros [_ ?].
  - intros q. split_and!; done.
Qed.

(** What an approval's transaction did. *)
Lemma Approve_ok d g i reviewer note p before after g' d' res :
  ApproveRequestAndEnqueue d g i reviewer note p before after = (g', inr (d', res)) →
  ∃ d1 q ids key, settles d d1 ∧ q ∈ requests d ∧ q_id q = i ∧ is_waiting q ∧ ledger d1 = ledger d ∧
    settled q "approved" reviewer note (now d) before after ∈ requests d1 ∧
    enqueueWrites d1 g [] [p] (Some key) = (g', inr (d', ids)).
Proof.
  unfold ApproveRequestAndEnqueue. destruct (mint d) as [d0 key] eqn:Em. injection Em as <- <-.
  set (d0 := {| now := now d |}). set (w := λ q, (q_id q =? i) && (q_status q =? "pending")).
  set (s := λ q, settled q "approved" reviewer note (now d0) before after).
  change (update_requests d0 _ _) with (update_requests d0 w s). cbn [update_requests].
  destruct (length _ =? 0) eqn:El; [done|]. destruct (enqueueWrites _ _ _ _ _) as [g1 [e|[d2 ids]]] eqn:E; [done|].
  destruct (ownAndRules ids) as [own rules]. intros [= <- <- _].
  apply bool_decide_eq_false in El. destruct (filter _ (requests d0)) as [|q l] eqn:Ef; [done|].
  assert (Hq : q ∈ filter (λ q, w q = true) (requests d0)) by (rewrite Ef; left).
  apply list_elem_of_filter in Hq as [Hq Hin]. unfold w in Hq. rewrite andb_true_iff, !bool_decide_eq_true in Hq.
  destruct Hq as [Hi Hp]. eexists _, q, ids, _. split_and!; [| | | | | |exact E].
  - destruct (update_settles d0 w s) as [Hu Hf]; [| |split; [simpl in *; lia|exact Hf]].
    + intros q'. unfold w. rewrite andb_true_iff, !bool_decide_eq_true. by intros [_ ?].
    + intros q'. split_and!; done.
  - done.
  - done.
  - done.
  - done.
  - simpl. apply list_elem_of_fmap. exists q. split; [|done]. unfold w. by rewrite Hi, Hp, !bool_decide_true.
Qed.
Lemma Approve_moves d g i reviewer note p before after g' d' res :
  ApproveRequestAndEnqueue d g i reviewer note p before after = (g', inr (d', res)) → moves d d'.
Proof.
  intros (d1 & q & ids & key & Hs & _ & _ & _ & _ & _ & E)%Approve_ok. etrans; [by apply moves_once|].
  by eapply enqueueWrites_moves.
Qed.

Lemma converge_moves d actor user project clock d' :
  ConvergeProjectChange find_user sha256hex clock d actor user project = inr d' → converges d d'.
Proof.
  unfold ConvergeProjectChange. case_match; [|intros [= <-]; apply converges_refl]. intros E.
  eapply convergeOn_ok in E as [_ ?]; done.
Qed.
Lemma convergeAfterGrant_ok clock d actor user project :
  converges d (convergeAfterGrant find_user sha256hex clock d actor user project).
Proof.
  unfold convergeAfterGrant. destruct (ConvergeProjectChange _ _ _ _ _ _ _) eqn:E; [apply converges_refl|by eapply converge_moves].
Qed.
Lemma convergeAfterGrant_settles clock d actor user project :
  settles d (convergeAfterGrant find_user sha256hex clock d actor user project).
Proof. destruct (convergeAfterGrant_ok clock d actor user project). by apply settles_same. Qed.
Lemma decide_moves d0 d g reads clock i status reviewer note payload g' d' r :
  status ≠ "pending" → decide_request d0 d g reads clock i status reviewer note payload = (g', inr (d', r)) → moves d d'.
Proof.
  intros Hs. unfold resolveAccessRequestOutcome. destruct (GetAccessRequestByID d0 i) as [q|]; [|done].
  case_match; [done|]. destruct (status =? "approved") eqn:Ea.
  - destruct (negb reads); [done|]. destruct (planApproval _ _ _) as [|plan]; [done|].
    destruct (offered _ _); try done.
    destruct (ApproveRequestAndEnqueue _ _ _ _ _ _ _ _) as [g1 [[]|[d1 res]]] eqn:E; try done.
    intros [= <- <- _]. apply Approve_moves in E. etrans; [exact E|]. etrans; [apply moves_once, convergeAfterGrant_settles|].
    apply moves_once. by apply settles_same.
  - destruct (ResolveAccessRequest _ _ _ _ _ _) as [d1|] eqn:E; [|done]. intros [= <- <- _].
    etrans; [by eapply Resolve_moves|]. apply moves_once. by apply settles_same.
Qed.
Lemma ask_moves d0 d operator reads self clock f :
  moves d (handleCreateAccessRequest observed offered d0 d operator reads self clock f).1.
Proof.
  unfold handleCreateAccessRequest. set (requester := if operator then _ else _). set (kind := if cf_Kind f =? "" then _ else _).
  set (days := if (0 <? cf_DurationDays f)%Z then _ else _). cbv zeta.
  clearbody requester kind days. repeat (case_match; try apply rtc_refl).
  all: match goal with E : CreateAccessRequestOfKind _ ?a ?b ?c ?e ?h ?x ?y = _ |- _ =>
      pose proof (Create_moves d a b c e h x y) as Hm; rewrite E in Hm end.
  all: first [exact Hm|etrans; [exact Hm|]; apply moves_once; by apply settles_same].
Qed.
Lemma direct_ok d g p g' d' r :
  EnqueueDirectGrantPropagation d g p = (g', inr (d', r)) →
  ∃ d1 ids key, requests d1 = requests d ∧ ledger d1 = ledger d ∧ next_uuid d ≤ next_uuid d1 ∧
    enqueueWrites d1 g [] [p] (Some key) = (g', inr (d', ids)).
Proof.
  unfold EnqueueDirectGrantPropagation. destruct (mint d) as [d1 key] eqn:Em. injection Em as <- <-.
  destruct (enqueueWrites _ _ _ _ _) as [g1 [e|[d2 ids]]] eqn:E; [done|]. destruct (ownAndRules ids) as [own rules].
  intros [= <- <- _]. eexists _, ids, _. split_and!; [..|exact E]; simpl; try done; lia.
Qed.
Lemma grant_moves clock d g p g' d' r : grantDirect find_user sha256hex clock d g p = (g', inr (d', r)) → moves d d'.
Proof.
  unfold grantDirect. destruct (EnqueueDirectGrantPropagation d g p) as [g1 [e|[d1 r1]]] eqn:E; [done|]. intros [= <- <- _].
  apply direct_ok in E as (d0 & ids & key & Hr & _ & Hu & E%enqueueWrites_moves).
  etrans; [by apply moves_once, settles_same|]. etrans; [exact E|]. apply moves_once, convergeAfterGrant_settles.
Qed.
Lemma take_back_moves d0 d self i : moves d (handleWithdrawAccessRequest d0 d self i).1.
Proof.
  unfold handleWithdrawAccessRequest. repeat (case_match; try apply rtc_refl).
  match goal with E : WithdrawAccessRequest _ _ _ = _ |- _ => apply Withdraw_moves in E end.
  etrans; [eassumption|]. apply moves_once. by apply settles_same.
Qed.
End operations.

(** ** Facts: the grant of an approval *)
Section ledger_facts.
Context `{!EnqueueEnv}.

Lemma close_ledger d p : ledger (closeGivenRequests d p) = ledger d.
Proof. unfold closeGivenRequests. by destruct (_ || _). Qed.
Lemma withdraw_ledger d g tgt p g' d' owed : withdrawUndelivered d g tgt p = (g', inr (d', owed)) → ledger d' = ledger d.
Proof.
  intros [_ Hw]%withdraw_ok. destruct Hw as [(_ & -> & _)|(_ & _ & _ & (logs & _ & _ & _ & ->) & _)]; done.
Qed.
Lemma row_ledger d g p own cascadeID why g' d' i : row d g p own cascadeID why = (g', inr (d', i)) → ledger d' = ledger d.
Proof.
  unfold row. destruct (withdrawUndelivered d g "zitadel" p) as [g1 [e|[d1 owed]]] eqn:Hw; [done|].
  apply withdraw_ledger in Hw. destruct owed; [|by intros [= _ <- _]].
  destruct own as [key|]; [destruct (if e_OpType p =? op_add then _ else _); by intros [= _ <- _]|].
  cbn [mint]. by intros [= _ <- _].
Qed.
Lemma rows_ledger params d g cascadeID why g' d' ids :
  rows d g params cascadeID why = (g', inr (d', ids)) → ledger d' = ledger d.
Proof.
  revert d g g' d' ids. induction params as [|p params IH]; intros d g g' d' ids; simpl; [by intros [= _ <- _]|].
  destruct (row (closeGivenRequests d p) g p None cascadeID why) as [g1 [e|[d1 i]]] eqn:Hr; [done|].
  apply row_ledger in Hr. rewrite close_ledger in Hr.
  destruct (rows d1 g1 params cascadeID why) as [g2 [e|[d2 ids']]] eqn:Hs; [done|].
  apply IH in Hs. intros [= _ <- _]. congruence.
Qed.

Lemma log_ledger d actor subject action i cascade x : ledger (log d actor subject action i cascade x) = ledger d.
Proof. done. Qed.

(** The grant a person has directly of a role. *)
Definition direct_grant (d : Db) (user project role : string) : option Grant :=
  head (filter (λ g, (g_user g =? user) && (g_project g =? project) && (g_role g =? role) = true) (ledger d)).

Lemma upsertGrant_ok d p role :
  ∃ gr, gr ∈ ledger (upsertGrant d p role).1 ∧ g_user gr = UserID p ∧ g_project gr = e_ProjectID p ∧ g_role gr = role ∧
    g_granted_by gr = GrantedBy p ∧ g_source_ref gr = NULLIF (SourceRef p) ∧
    g_expires_at gr = match direct_grant d (UserID p) (e_ProjectID p) role, e_EndRule p with
                      | Some g0, EndKept => g_expires_at g0
                      | _, _ => ExpiresAt p
                      end.
Proof.
  unfold upsertGrant, direct_grant. cbv zeta.
  destruct (head (filter _ (ledger d))) as [g0|] eqn:Eh; cbn [mint fst ledger with_ledger].
  - apply head_Some_elem_of, list_elem_of_filter in Eh as [Hc Hin].
    eexists. split; [apply list_elem_of_fmap; exists g0; split; [|done]; rewrite Hc; reflexivity|].
    split_and!; try done; simpl; by destruct (e_EndRule p).
  - eexists. split; [apply elem_of_app; right; left|]. by split_and!.
Qed.

(** A named write's one role is in the ledger afterwards: with the write's end
    where the write sets it or there was no grant, else with the end there was. *)
Lemma enqueueWrites_grants d g p key role g' d' ids :
  e_OpType p ≠ op_revoke → e_RoleKeys p = [role] →
  enqueueWrites d g [] [p] (Some key) = (g', inr (d', ids)) →
  ∃ gr, gr ∈ ledger d' ∧ g_user gr = UserID p ∧ g_project gr = e_ProjectID p ∧ g_role gr = role ∧
    g_granted_by gr = GrantedBy p ∧ g_source_ref gr = NULLIF (SourceRef p) ∧
    g_expires_at gr = match direct_grant d (UserID p) (e_ProjectID p) role, e_EndRule p with
                      | Some g0, EndKept => g_expires_at g0
                      | _, _ => ExpiresAt p
                      end.
Proof.
  intros Hop Hr. unfold enqueueWrites. cbn [mint]. set (d0 := {| now := now d |}).
  set (out := if NoPropagation p then _ else _). destruct out as [g1 [e|[d2 own]]] eqn:Ho; [done|].
  assert (H2 : ledger d2 = ledger (enqueueLedger d0 p)).
  { subst out. destruct (NoPropagation p); [by injection Ho as _ <- _|by apply row_ledger in Ho]. }
  destruct (FollowRules d0 p d2) as [[d2' owed]|] eqn:Hf; [|done]. apply FollowRules_converges in Hf as [_ Hl _ _ _ _ _].
  destruct (rows d2' g1 owed _ _) as [g3 [e|[d3 ids3]]] eqn:Hs; [done|]. apply rows_ledger in Hs. intros [= _ <- _].
  rewrite Hs, Hl, H2. unfold enqueueLedger. rewrite (bool_decide_false (e_OpType p = op_revoke)) by done. rewrite Hr.
  cbn [upsertGrants]. destruct (upsertGrant_ok d0 p role) as (gr & Hin & Hgr).
  destruct (upsertGrant d0 p role) as [d4 i4]. cbn [fst] in *. rewrite log_ledger, close_ledger. by exists gr.
Qed.
Lemma grantDirect_grants find_user sha256hex clock d g p role g' d' r :
  e_OpType p ≠ op_revoke → e_RoleKeys p = [role] → grantDirect find_user sha256hex clock d g p = (g', inr (d', r)) →
  ∃ gr, gr ∈ ledger d' ∧ g_user gr = UserID p ∧ g_project gr = e_ProjectID p ∧ g_role gr = role ∧ g_granted_by gr = GrantedBy p ∧
    g_expires_at gr = match direct_grant d (UserID p) (e_ProjectID p) role, e_EndRule p with
                      | Some g0, EndKept => g_expires_at g0
                      | _, _ => ExpiresAt p
                      end.
Proof.
  intros Hop Hk. unfold grantDirect. destruct (EnqueueDirectGrantPropagation d g p) as [g1 [e|[d1 r1]]] eqn:E; [done|].
  intros [= <- <- _]. apply direct_ok in E as (d2 & ids & key & _ & Hl & _ & E).
  apply (enqueueWrites_grants _ _ _ _ role) in E as (gr & ? & ? & ? & ? & ? & _ & He); [|done..].
  exists gr. destruct (convergeAfterGrant_ok find_user sha256hex clock d1 (GrantedBy p) (UserID p) (e_ProjectID p)) as [_ Hc].
  rewrite Hc. split_and!; try done. rewrite He. unfold direct_grant. by rewrite Hl.
Qed.
End ledger_facts.

(** ** Properties of the table *)
Section table_properties.
Context `{!EnqueueEnv} `{!Zone} (observed : string → string → list string) (offered : string → string → Offer)
  (find_user : string → option string) (sha256hex : string → string).

(** A request is asked, decided or taken back, each on whatever state its reads
    saw; a write of roles closes what it answers; anything else leaves the
    requests alone. *)
Inductive request_step : Db → Db → Prop :=
  | rq_ask d0 d operator reads self clock f :
      request_step d (handleCreateAccessRequest observed offered d0 d operator reads self clock f).1
  | rq_decide d0 d g reads clock i status reviewer note payload g' d' r :
      status ≠ "pending" →
      resolveAccessRequestOutcome observed offered find_user sha256hex d0 d g reads clock i status reviewer note payload = (g', inr (d', r)) →
      request_step d d'
  | rq_take_back d0 d self i : request_step d (handleWithdrawAccessRequest d0 d self i).1
  | rq_give d g p clock g' d' r :
      grantDirect find_user sha256hex clock d g p = (g', inr (d', r)) → request_step d d'
  | rq_write d g audits params key g' d' ids :
      enqueueWrites d g audits params key = (g', inr (d', ids)) → request_step d d'
  | rq_other d d' : requests d' = requests d → next_uuid d ≤ next_uuid d' → request_step d d'.

Lemma request_step_moves d d' : request_step d d' → moves d d'.
Proof.
  destruct 1.
  - apply ask_moves.
  - by eapply decide_moves.
  - apply take_back_moves.
  - by eapply grant_moves.
  - by eapply enqueueWrites_moves.
  - apply moves_once. by apply settles_same.
Qed.
Lemma request_steps_move d d' : rtc request_step d d' → moves d d'.
Proof. induction 1 as [|d d1 d' Hst _ IH]; [apply rtc_refl|]. etrans; [by apply request_step_moves|done]. Qed.
Lemma request_steps_wf d d' : rtc request_step d d' → requests_wf d → requests_wf d'.
Proof. intros Hs%request_steps_move Hwf. by destruct (moves_keep _ _ Hs Hwf). Qed.

(** C8. Nobody waits twice for the same role, and a decision stands. However the
    operations follow one another and however old the state each one read: at
    most one request per person, project and role is waiting; no request is lost
    or its ask changed; and one that is settled is never touched again, so of two
    decisions on a request one is refused. *)
Theorem requests_invariant d d' :
  requests_wf d → rtc request_step d d' →
  requests_wf d' ∧ (∀ q, q ∈ requests d → q_status q ≠ "pending" → q ∈ requests d') ∧
  (∀ q, q ∈ requests d → ∃ q', q' ∈ requests d' ∧ q_id q' = q_id q ∧ asked_for q' = asked_for q ∧ q_ask q' = q_ask q).
Proof.
  intros Hwf Hs. apply moves_keep; [by apply request_steps_move|done].
Qed.

(** C9. An approval grants, at once, what the rules planned: the request was
    waiting and is approved by its reviewer, and the ledger has the person's
    grant of the role, from this request, ending as planned, unless the plan
    keeps the end of a grant that was there. *)
Theorem approval_grants d0 d g reads clock i reviewer note payload g' d' r :
  requests_wf d →
  resolveAccessRequestOutcome observed offered find_user sha256hex d0 d g reads clock i "approved" reviewer note payload =
    (g', inr (d', r)) →
  ∃ q plan, GetAccessRequestByID d0 i = Some q ∧ offered (q_project q) (q_role q) = Offered ∧
    planApproval (q_ask q) (RequestHolding observed d0 (q_user q) (q_project q) (q_role q)) clock = inr plan ∧
    dr_Until r = ap_ExpiresAt plan ∧
    (∃ p, p ∈ requests d ∧ q_id p = i ∧ q_status p = "pending") ∧
    (∃ p, p ∈ requests d' ∧ q_id p = i ∧ q_status p = "approved" ∧ q_reviewer p = reviewer ∧ q_note p = note) ∧
    ∃ gr, gr ∈ ledger d' ∧ g_user gr = q_user q ∧ g_project gr = q_project q ∧ g_role gr = q_role q ∧
      g_source_ref gr = NULLIF i ∧ g_granted_by gr = reviewer ∧
      g_expires_at gr = match direct_grant d (q_user q) (q_project q) (q_role q), ap_EndRule plan with
                        | Some g0, EndKept => g_expires_at g0
                        | _, _ => ap_ExpiresAt plan
                        end.
Proof.
  intros Hwf. unfold resolveAccessRequestOutcome. destruct (GetAccessRequestByID d0 i) as [q|] eqn:Eq; [|done].
  case_match; [done|]. rewrite (bool_decide_true ("approved" = "approved")) by done.
  destruct (negb reads); [done|]. destruct (planApproval _ _ _) as [|plan] eqn:Ep; [done|].
  destruct (offered _ _) eqn:Eo; try done.
  destruct (ApproveRequestAndEnqueue _ _ _ _ _ _ _ _) as [g1 [[]|[d1 res]]] eqn:E; try done.
  apply Approve_ok in E as (d2 & p & ids & key & Hs & Hin & Hi & Hw & Hl & Hset & E). intros [= <- Hd' <-].
  assert (Hq : q_id q = i) by (apply head_Some_elem_of, list_elem_of_filter in Eq as [? _]; done).
  assert (Hk : requests d' = requests d1 ∧ ledger d' = ledger d1).
  { subst d'. by destruct (convergeAfterGrant_ok find_user sha256hex clock d1 reviewer (q_user q) (q_project q)). }
  destruct Hk as [Hkr Hkl]. exists q, plan. rewrite Hkr, Hkl. split_and!; [done..|by exists p| |].
  - eexists (settled p _ _ _ _ _ _). split_and!; [|done..].
    apply enqueueWrites_moves, moves_keep in E as (_ & Hkeep & _); [|by eapply settles_wf].
    apply Hkeep; [exact Hset|done].
  - apply (enqueueWrites_grants _ _ _ _ (q_role q)) in E as (gr & ? & ? & ? & ? & ? & ? & He); [|done..].
    exists gr. split_and!; try done; [by rewrite <- Hq|]. rewrite He. unfold direct_grant. by rewrite Hl.
Qed.

(** Giving a role by hand gives only more. It is given to one who does not have
    it, or its end is moved later; either way the role is offered, whoever acts
    is the one who granted it, and the ledger has the grant. *)
Theorem direct_grant_gives_only_more d0 d g reads self clock user payload f g' d' r :
  handleUpsertUserDirectGrant observed offered find_user sha256hex d0 d g reads self clock user payload f = (g', inr (d', r)) →
  let h := RequestHolding observed d0 user (uf_ProjectID f) (uf_RoleKey f) in
  let expires := upsert_end clock f in
  offered (uf_ProjectID f) (uf_RoleKey f) = Offered ∧
  (uf_Extend f = false → h_Kind h = HoldingNone) ∧
  (uf_Extend f = true → ∃ u, h_Kind h = HoldingUntil ∧ h_Until h = Some u ∧ ∀ e, expires = Some e → (u < e)%Z) ∧
  ∃ gr, gr ∈ ledger d' ∧ g_user gr = user ∧ g_project gr = uf_ProjectID f ∧ g_role gr = uf_RoleKey f ∧
    g_granted_by gr = resolveActor self (uf_GrantedBy f) ∧
    g_expires_at gr = match direct_grant d user (uf_ProjectID f) (uf_RoleKey f), uf_Extend f with
                      | Some g0, false => g_expires_at g0
                      | _, _ => expires
                      end.
Proof.
  unfold handleUpsertUserDirectGrant. destruct (negb (filled user)); [done|]. destruct (negb _); [done|].
  destruct (uf_DurationDays f <? 0)%Z; [done|]. cbv zeta. set (h := RequestHolding _ _ _ _ _).
  destruct (offered _ _) eqn:Eo; try done. destruct (negb reads); [done|].
  assert (Hgive : ∀ rule, match grantDirect find_user sha256hex clock d g (upsert_params self clock user payload f rule) with
                          | (g, inl e) => (g, inl (UpsertNotQueued e)) | (g, inr r) => (g, inr r) end = (g', inr (d', r)) →
    ∃ gr, gr ∈ ledger d' ∧ g_user gr = user ∧ g_project gr = uf_ProjectID f ∧ g_role gr = uf_RoleKey f ∧
      g_granted_by gr = resolveActor self (uf_GrantedBy f) ∧
      g_expires_at gr = match direct_grant d user (uf_ProjectID f) (uf_RoleKey f), rule with
                        | Some g0, EndKept => g_expires_at g0
                        | _, _ => upsert_end clock f
                        end).
  { intros rule. destruct (grantDirect _ _ _ _ _ _) as [g1 [e|[d1 r1]]] eqn:Eg; [done|]. intros [= <- <- <-].
    by eapply grantDirect_grants in Eg. }
  destruct (uf_Extend f).
  - destruct (checkExtension_cases h (upsert_end clock f)) as [Hc|[Hc|Hc]]; rewrite Hc; [|done..].
    apply checkExtension_ok in Hc as (u & ? & ? & ?). intros (gr & Hgr)%Hgive. split_and!; [done|done|intros _; by exists u|].
    exists gr. by destruct (direct_grant _ _ _ _).
  - case_bool_decide as Hn; [|done]. intros (gr & Hgr)%Hgive. split_and!; [done..|]. exists gr. by destruct (direct_grant _ _ _ _).
Qed.
End table_properties.

(** ** Witnesses *)
#[local] Definition day : Z := (86400 * second)%Z.
#[local, refine] Instance utc : Zone := {| day_of t := (t `div` day)%Z; midnight d := (d * day)%Z |}.
Proof.
  - intros t. pose proof (Z.div_mod t day ltac:(done)). pose proof (Z.mod_pos_bound t day ltac:(done)). lia.
  - intros d. unfold day, second. lia.
Defined.
#[local, refine] Instance no_rules' : EnqueueEnv :=
  {| env_uuids := decimal_uuids; env_returning := table_order; Marshal := x_Kind ∘ x_Cancelled;
     FollowRules := λ _ _ d, Some (d, []) |}.
Proof.
  - intros _ _ d d' owed [= -> _]. apply rtc_refl.
  - intros _ _ d d' owed [= -> _]. apply converges_refl.
Defined.

Definition demo_days (kind : string) (n : Z) : Ask :=
  {| k_kind := kind; k_justification := "term project"; k_days := Some n; k_until := None; k_created := 0 |}.
(** Ada's viewer role ends on day 3; on day 1 she asks for seven days more. *)
Lemma approval_gives_only_more_witness :
  ∃ p, planApproval (demo_days "extend" 7) {| h_Kind := HoldingUntil; h_Until := Some (EndOfDay 3); h_Waiting := false |} day = inr p ∧
    ap_Effect p = effectExtend ∧ ∀ e, ap_ExpiresAt p = Some e → (day < e)%Z.
Proof.
  eexists. split; [vm_compute; reflexivity|]. split; [done|].
  refine (proj1 (approval_gives_only_more (demo_days "extend" 7)
    {| h_Kind := HoldingUntil; h_Until := Some (EndOfDay 3); h_Waiting := false |} day _ _)). vm_compute. reflexivity.
Defined.

(** Ada asks for the viewer role of the lab for seven days; an operator approves. *)
Definition demo_form : CreateForm :=
  {| cf_RequesterID := ""; cf_ProjectID := "lab"; cf_RoleKey := "viewer"; cf_Justification := "term project";
     cf_DurationDays := 7; cf_Until := None; cf_Kind := "" |}.
Definition demo_ask (d : Db) : Db * (CreateError + string) :=
  handleCreateAccessRequest (λ _ _, []) (λ _ _, Offered) d d false true "ada" 1000 demo_form.
Definition demo_approve (d : Db) (g : option CancelGate) (i : string) : option CancelGate * (DecideError + Db * decisionResult) :=
  resolveAccessRequestOutcome (λ _ _, []) (λ _ _, Offered) (λ _, None) (λ s, s) d d g true 1000 i "approved" "op" "ok" "".
Definition demo_asked : Db := (demo_ask (demo_db [])).1.

Lemma demo_db_wf t : requests_wf (demo_db t).
Proof. split; [apply NoDup_nil_2|apply NoDup_nil_2|by intros q ?%elem_of_nil]. Qed.

(** Ada asks twice; the second is told of the first. *)
Lemma requests_invariant_witness :
  (demo_ask demo_asked).2 = inl (ALREADY_ASKED "0") ∧ requests_wf (demo_ask demo_asked).1.
Proof.
  split; [vm_compute; reflexivity|].
  refine (proj1 (requests_invariant (λ _ _, []) (λ _ _, Offered) (λ _, None) (λ s, s) (demo_db []) _ (demo_db_wf []) _)).
  eapply rtc_l; [exact (rq_ask _ _ _ _ (demo_db []) (demo_db []) false true "ada" 1000 demo_form)|].
  apply rtc_once. exact (rq_ask _ _ _ _ demo_asked demo_asked false true "ada" 1000 demo_form).
Defined.

Lemma approval_grants_witness :
  ∃ g' d' r, demo_approve demo_asked None "0" = (g', inr (d', r)) ∧
    ∃ gr, gr ∈ ledger d' ∧ g_user gr = "ada" ∧ g_role gr = "viewer" ∧ g_expires_at gr = Some (EndOfDay 7).
Proof.
  do 3 eexists. split; [vm_compute; reflexivity|].
  edestruct (approval_grants (λ _ _, []) (λ _ _, Offered) (λ _, None) (λ s, s) demo_asked demo_asked None true 1000 "0" "op" "ok" "")
    as (q & plan & Hq & _ & Hp & _ & _ & _ & gr & Hin & Hu & _ & Hr & _ & _ & He).
  - refine (request_steps_wf (λ _ _, []) (λ _ _, Offered) (λ _, None) (λ s, s) (demo_db []) _ _ (demo_db_wf [])).
    apply rtc_once. exact (rq_ask _ _ _ _ (demo_db []) (demo_db []) false true "ada" 1000 demo_form).
  - vm_compute. reflexivity.
  - exists gr. split; [exact Hin|]. vm_compute in Hq. injection Hq as <-. vm_compute in Hp. injection Hp as <-.
    split_and!; [exact Hu|exact Hr|exact He].
Defined.

(** A role whose removal is queued reads as not held, so it may be asked for
    again. But the ledger still has the grant, and an approval keeps the end of
    a grant that is there: approved for seven days, the role stays for good,
    while the decision says when it ends. *)
Definition demo_leaving : Db :=
  let d := result_db (enqueueWrites (demo_db []) None [] [demo_params op_add] (Some "k")) (demo_db []) in
  with_outbox d [demo_row "9" "ada" op_revoke 2 (fresh_progress None)] [].
Example given_back_keeps_the_old_end :
  ∃ i d r, (demo_ask demo_leaving).2 = inr i ∧ demo_approve (demo_ask demo_leaving).1 None i = (None, inr (d, r)) ∧
    dr_Until r = Some (EndOfDay 7) ∧
    ((λ g, (g_user g, g_role g, g_expires_at g)) <$> ledger d) = [("ada", "viewer", None)].
Proof. do 3 eexists. split_and!; [vm_compute; reflexivity..]. Qed.

Definition demo_upsert : UpsertForm :=
  {| uf_ProjectID := "lab"; uf_RoleKey := "viewer"; uf_Reason := ""; uf_GrantedBy := ""; uf_DurationDays := 7; uf_Extend := false |}.
Definition demo_hand (d : Db) : option CancelGate * (UpsertError + Db * EnqueueResult) :=
  handleUpsertUserDirectGrant (λ _ _, []) (λ _ _, Offered) (λ _, None) (λ s, s) d d None true "op" 1000 "ada" "" demo_upsert.
Lemma direct_grant_gives_only_more_witness :
  ∃ g' d' r, demo_hand (demo_db []) = (g', inr (d', r)) ∧
    ∃ gr, gr ∈ ledger d' ∧ g_user gr = "ada" ∧ g_granted_by gr = "op" ∧ g_expires_at gr = Some (EndOfDay 7).
Proof.
  do 3 eexists. split; [vm_compute; reflexivity|].
  edestruct (direct_grant_gives_only_more (λ _ _, []) (λ _ _, Offered) (λ _, None) (λ s, s) (demo_db []) (demo_db []) None true
    "op" 1000 "ada" "" demo_upsert) as (_ & _ & _ & gr & Hin & Hu & _ & _ & Hb & He); [vm_compute; reflexivity|].
  exists gr. split_and!; [exact Hin|exact Hu|exact Hb|exact He].
Defined.
