(* ===== verification/Cascade.v ===== *)
(** * Cascade: a change to what people hold, and what it owes Zitadel

    backend/internal/services/cascade.go, rule_follow.go (followRules) and
    withLockedAccess of lifecycle_trigger.go, over the transactions of
    backend/internal/db/cascade.go and db/bundles.go (retiring). A cascade reads
    under the access lock, simulates the change in memory, writes the change and
    the rows it owes in one transaction, then queues the convergences of the
    targets the changed roles are mapped to. It answers the ids of the rows it
    queued, which the caller hands to the drain (Drain.v); its read-only plan
    and the drain's report are not part of the answer here. [followRules]
    discharges the interface Enqueue.v is proved against. *)

From S2P Require Import Prelude Tables Extcall Outbox Lifecycle Plans Policy Holdings Entitlement Enqueue Access.

Inductive CascadeError :=
  | NoRows                                    (* pgx.ErrNoRows *)
  | Violates (constraint : string)
  | ErrRetired (at_ : Z)
  | ErrBundleIncluded (includers : list string)
  | Enqueuing (e : EnqueueError)
  | Converging (e : PlanError)
  (* bundle versions and includes *)
  | NotItsVersion
  | ErrIncludeSelf
  | NestingError (bundle : string) (includes : bool) (other : string)
  | NothingToPublish (latest : Z)
  | BadIncluderAction (bundle : string)
  | ErrIncludersUnanswered (names : list string)
  | DoesNotInclude (bundle : string).
Definition Cascaded (A : Type) : Type := option CancelGate * (CascadeError + A).

(** ** The writes of a delta *)
Definition single_write (user source sourceRef : string) (op : OpType) (k : Role) : EnqueueParams :=
  {| UserID := user; e_ProjectID := k.1; e_RoleKeys := [k.2]; GrantedBy := ""; e_Reason := ""; ExpiresAt := None;
     Source := source; SourceRef := sourceRef; e_OpType := op; ZitadelGrantID := ""; PayloadJSON := "";
     NoPropagation := false; e_EndRule := EndKept; e_WaitReason := "" |}.
Definition deltaWrites (user : string) (adds revokes : list Role) (source sourceRef : string) : list EnqueueParams :=
  (single_write user source sourceRef op_add <$> adds) ++ (single_write user source sourceRef op_revoke <$> revokes).
Definition stamp (actor reason ref : string) (p : EnqueueParams) : EnqueueParams :=
  {| UserID := UserID p; e_ProjectID := e_ProjectID p; e_RoleKeys := e_RoleKeys p; GrantedBy := actor;
     e_Reason := reason; ExpiresAt := ExpiresAt p; Source := Source p; SourceRef := ref; e_OpType := e_OpType p;
     ZitadelGrantID := ZitadelGrantID p; PayloadJSON := "{}"; NoPropagation := NoPropagation p;
     e_EndRule := e_EndRule p; e_WaitReason := e_WaitReason p |}.
(** It also registers the convergence, to be resolved after the write. *)
Definition deltaParams (items : list pendingConvergence) (user : string) (adds revokes : list Role)
    (actor reason source sourceRef : string) : list pendingConvergence * list EnqueueParams :=
  (deferTargetConvergence items actor user (adds ++ revokes),
   stamp actor reason sourceRef <$> deltaWrites user adds revokes source sourceRef).
(** The loop over people; somebody whose delta is empty adds nothing to either
    list, so the loops that skip them are this one too. *)
Fixpoint delta_params (delta : string → list Role * list Role) (actor reason source sourceRef : string)
    (users : list string) (items : list pendingConvergence) : list pendingConvergence * list EnqueueParams :=
  match users with
  | [] => (items, [])
  | u :: users =>
      let '(adds, revokes) := delta u in
      let '(items, rows) := deltaParams items u adds revokes actor reason source sourceRef in
      let '(items, params) := delta_params delta actor reason source sourceRef users items in
      (items, rows ++ params)
  end.

(** ** The rules that follow a named write *)
Section follow.
Context `{!Uuids} (find_user : string → option string) (sha256hex : string → string) (clock : Z).
Definition name_rule (rules : list MappingRule) (closureBefore closureAfter : gmap Role bool) (actor : string)
    (p : EnqueueParams) : EnqueueParams :=
  let k := (e_ProjectID p, default "" (head (e_RoleKeys p))) in
  let reached := if e_OpType p =? op_revoke then closureBefore else closureAfter in
  stamp actor "Mapping rule cascade" (ruleReaching rules reached k) p.
(** [d0] is the state before the write, [d] the state after it. *)
Definition followRules (d0 : Db) (p : EnqueueParams) (d : Db) : option (Db * list EnqueueParams) :=
  match GetActiveMappingRules (catalog (tables d0)) with
  | [] => Some (d, [])
  | rules =>
      let before := userBaseHoldings d0 (UserID p) in
      let after := userBaseHoldings d (UserID p) in
      let '(adds, revokes, closureBefore, closureAfter) := ruleDelta before after rules in
      match adds ++ revokes with
      | [] => Some (d, [])
      | changed =>
          match triggerTargetConvergence find_user sha256hex clock d (GrantedBy p) (UserID p) changed with
          | inl _ => None
          | inr d => Some (d, name_rule rules closureBefore closureAfter (GrantedBy p) <$>
                              deltaWrites (UserID p) adds revokes "rule" "")
          end
      end
  end.

Lemma followRules_ok `{!Returning} d0 p d d' owed :
  followRules d0 p d = Some (d', owed) → steps d d' ∧ converges d d'.
Proof.
  unfold followRules. destruct (GetActiveMappingRules _); [intros [= <- _]; split; [done|apply converges_refl]|].
  destruct (ruleDelta _ _ _) as [[[adds revokes] cb] ca]. destruct (adds ++ revokes) as [|k ks];
    [intros [= <- _]; split; [done|apply converges_refl]|].
  destruct (triggerTargetConvergence _ _ _ _ _ _ _) as [e|d1] eqn:E; [done|]. intros [= <- _].
  exact (triggerTargetConvergence_ok _ _ _ _ _ _ _ _ E).
Qed.
(** The service as Enqueue.v's interface asks for it. *)
Definition live_rules `{!Returning} (marshal : CancelledUnsent → string) : EnqueueEnv :=
  {| Marshal := marshal; FollowRules := followRules;
     FollowRules_runs d0 p d d' owed E := proj1 (followRules_ok d0 p d d' owed E);
     FollowRules_converges d0 p d d' owed E := proj2 (followRules_ok d0 p d d' owed E) |}.
End follow.

(** ** One transaction each: the change and the rows it owes *)
Definition set_catalog (d : Db) (c : Catalog) : Db := with_tables d (with_catalog (tables d) c).
Definition WelcomeActor : string := "system:onboarding".
(** [btrim(s) <> ''] *)
Definition not_blank (s : string) : bool := existsb (λ c, negb (bool_decide (c = " "%char))) (list_ascii_of_string s).
(** mapping_rules' checks and its unique index over the rules in force, for a
    row with this id. *)
Definition rule_violates (c : Catalog) (r : MappingRule) : option string :=
  if negb (not_blank (SourceProject r) && not_blank (SourceRole r)) then Some "ck_mapping_rules_source_not_blank"
  else if negb (not_blank (TargetProject r) && not_blank (TargetRole r)) then Some "ck_mapping_rules_target_not_blank"
  else if (SourceProject r =? TargetProject r) && (SourceRole r =? TargetRole r) then Some "ck_mapping_rules_not_self_edge"
  else if existsb (λ x, (RuleID (rule x) <>? RuleID r) && bool_decide (rule_RetiredAt x = None) &&
                        (SourceProject (rule x) =? SourceProject r) && (SourceRole (rule x) =? SourceRole r) &&
                        (TargetProject (rule x) =? TargetProject r) && (TargetRole (rule x) =? TargetRole r)) (rules c)
       then Some "idx_mapping_rules_logic"
  else None.

Section cascades.
Context `{!EnqueueEnv}.

Definition cascadeWrites (d : Db) (g : option CancelGate) (audits : list CascadeAudit) (params : list EnqueueParams)
    : Cascaded (Db * list string) :=
  match enqueueWrites d g audits params None with
  | (g, inl e) => (g, inl (Enqueuing e))
  | (g, inr x) => (g, inr x)
  end.
Definition audit (actor tgt action resource reason : string) : CascadeAudit :=
  {| ca_Actor := actor; ca_Target := tgt; ca_Action := action; ca_ResourceID := resource; ca_Reason := reason |}.

Definition AssignBundleAndEnqueue (d : Db) (g : option CancelGate) (actor reason user bundle version : string)
    (params : list EnqueueParams) : Cascaded (Db * (list string * bool)) :=
  let c := catalog (tables d) in
  let '(source, assignedBy) := if actor =? WelcomeActor then ("welcome", None) else ("direct", Some actor) in
  if existsb (λ a, (as_UserID a =? user) && (as_BundleID a =? bundle)) (assignments c) then (g, inr (d, ([], false)))
  else if negb (bool_decide (is_Some (GetBundleByID c bundle))) then (g, inl (Violates "bundle_id"))
  else if negb (existsb (λ v, v_ID v =? version) (versions c)) then (g, inl (Violates "version_id"))
  else
    let a := {| as_UserID := user; as_BundleID := bundle; as_VersionID := version; as_Source := source;
                as_AssignedBy := assignedBy; as_MovedFrom := None |} in
    match cascadeWrites (set_catalog d (with_assignments c (assignments c ++ [a]))) g
            [audit actor user "bundle.assigned" bundle reason] params with
    | (g, inl e) => (g, inl e)
    | (g, inr (d, ids)) => (g, inr (d, (ids, true)))
    end.

Definition AddRoleToBundleAndEnqueue (d : Db) (g : option CancelGate) (actor bundle project role : string)
    (params : list EnqueueParams) : Cascaded (Db * list string) :=
  let c := catalog (tables d) in
  let audits := [audit actor bundle "bundle.role_added" (project +:+ "/" +:+ role) ""] in
  if negb (not_blank project && not_blank role) then (g, inl (Violates "ck_bundle_roles_not_blank"))
  else if bool_decide ((bundle, (project, role)) ∈ bundle_roles c) then cascadeWrites d g audits params
  else if negb (bool_decide (is_Some (GetBundleByID c bundle))) then (g, inl (Violates "bundle_id"))
  else cascadeWrites (set_catalog d (with_working c (bundle_roles c ++ [(bundle, (project, role))]) (includes c)))
         g audits params.
Definition RemoveRoleFromBundleAndEnqueue (d : Db) (g : option CancelGate) (actor bundle project role : string)
    (params : list EnqueueParams) : Cascaded (Db * list string) :=
  let c := catalog (tables d) in
  cascadeWrites (set_catalog d (with_working c (filter (λ x, x ≠ (bundle, (project, role))) (bundle_roles c)) (includes c)))
    g [audit actor bundle "bundle.role_removed" (project +:+ "/" +:+ role) ""] params.

Definition CreateMappingRuleAndEnqueue (d : Db) (g : option CancelGate) (actor sp sr tp tr : string)
    (params : list EnqueueParams) : Cascaded (Db * (string * list string)) :=
  let '(d, ruleID) := mint d in
  let c := catalog (tables d) in
  let r := {| RuleID := ruleID; SourceProject := sp; SourceRole := sr; TargetProject := tp; TargetRole := tr |} in
  match rule_violates c r with
  | Some ck => (g, inl (Violates ck))
  | None =>
      let row := {| rule := r; rule_RetiredAt := None; rule_RetiredBy := None |} in
      match cascadeWrites (set_catalog d (with_rules c (rules c ++ [row]))) g
              [audit actor "" "mapping_rule.created" ruleID ""]
              ((λ p, {| UserID := UserID p; e_ProjectID := e_ProjectID p; e_RoleKeys := e_RoleKeys p;
                        GrantedBy := GrantedBy p; e_Reason := e_Reason p; ExpiresAt := ExpiresAt p; Source := Source p;
                        SourceRef := ruleID; e_OpType := e_OpType p; ZitadelGrantID := ZitadelGrantID p;
                        PayloadJSON := PayloadJSON p; NoPropagation := NoPropagation p; e_EndRule := e_EndRule p;
                        e_WaitReason := e_WaitReason p |}) <$> params) with
      | (g, inl e) => (g, inl e)
      | (g, inr (d, ids)) => (g, inr (d, (ruleID, ids)))
      end
  end.
(** A rule in force with this id. *)
Definition in_force_rule (i : string) (x : RuleRow) : bool := (RuleID (rule x) =? i) && bool_decide (rule_RetiredAt x = None).
Definition UpdateMappingRuleAndEnqueue (d : Db) (g : option CancelGate) (actor i sp sr tp tr : string)
    (params : list EnqueueParams) : Cascaded (Db * list string) :=
  let c := catalog (tables d) in
  let r := {| RuleID := i; SourceProject := sp; SourceRole := sr; TargetProject := tp; TargetRole := tr |} in
  if negb (existsb (in_force_rule i) (rules c)) then (g, inl NoRows)
  else match rule_violates c r with
  | Some ck => (g, inl (Violates ck))
  | None =>
      cascadeWrites
        (set_catalog d (with_rules c ((λ x, if in_force_rule i x then {| rule := r; rule_RetiredAt := rule_RetiredAt x;
                                                                         rule_RetiredBy := rule_RetiredBy x |} else x) <$> rules c)))
        g [audit actor "" "mapping_rule.updated" i ""] params
  end.
Definition RetireMappingRuleAndEnqueue (d : Db) (g : option CancelGate) (actor i : string) (params : list EnqueueParams)
    : Cascaded (Db * list string) :=
  let c := catalog (tables d) in
  if negb (existsb (in_force_rule i) (rules c)) then (g, inl NoRows)
  else
    cascadeWrites
      (set_catalog d (with_rules c ((λ x, if in_force_rule i x then {| rule := rule x; rule_RetiredAt := Some (now d);
                                                                       rule_RetiredBy := Some actor |} else x) <$> rules c)))
      g [audit actor "" "mapping_rule.retired" i ""] params.

Definition RemoveBundleFromUserAndEnqueue (d : Db) (g : option CancelGate) (actor reason user bundle : string)
    (params : list EnqueueParams) : Cascaded (Db * list string) :=
  let c := catalog (tables d) in
  cascadeWrites (set_catalog d (with_assignments c (filter (λ a, ¬ (as_UserID a = user ∧ as_BundleID a = bundle)) (assignments c))))
    g [audit actor user "bundle.unassigned" bundle reason] params.
Definition retire_bundle (t : Z) (actor : string) (b : Bundle) : Bundle :=
  {| b_ID := b_ID b; b_Name := b_Name b; b_Description := b_Description b; b_IsWelcome := false;
     b_CreatedAt := b_CreatedAt b; b_RetiredAt := Some t; b_RetiredBy := Some actor |}.
Definition live_bundle (i : string) (b : Bundle) : bool := (b_ID b =? i) && bool_decide (b_RetiredAt b = None).
Definition RetireBundleAndEnqueue (d : Db) (g : option CancelGate) (actor bundle : string) (params : list EnqueueParams)
    : Cascaded (Db * list string) :=
  let c := catalog (tables d) in
  if negb (existsb (live_bundle bundle) (bundles c)) then (g, inl NoRows)
  else
    cascadeWrites
      (set_catalog d (with_assignments
         (with_bundles c ((λ b, if live_bundle bundle b then retire_bundle (now d) actor b else b) <$> bundles c))
         (filter (λ a, as_BundleID a ≠ bundle) (assignments c))))
      g [audit actor "" "bundle.retired" bundle ""] params.

(** ** The lock: the writes, then the convergences they registered *)
Context (find_user : string → option string) (sha256hex : string → string) (clock : Z).
Definition withLockedAccess {A} (fn : Cascaded (Db * list pendingConvergence * A)) : Cascaded (Db * A) :=
  match fn with
  | (g, inl e) => (g, inl e)
  | (g, inr (d, items, x)) =>
      match flush find_user sha256hex clock d items with
      | inl e => (g, inl (Converging e))
      | inr d => (g, inr (d, x))
      end
  end.
(** Beside what the cascade registered. *)
Definition registering {A} (items : list pendingConvergence) (o : Cascaded (Db * A))
    : Cascaded (Db * list pendingConvergence * A) :=
  match o with
  | (g, inl e) => (g, inl e)
  | (g, inr (d, x)) => (g, inr (d, items, x))
  end.
(** svcGetBundleByID, then refuseRetired. *)
Definition refuseRetired (c : Catalog) (bundle : string) : option CascadeError :=
  match GetBundleByID c bundle with
  | None => Some NoRows
  | Some b => ErrRetired <$> b_RetiredAt b
  end.

(** ** Bundles given and taken back *)
Definition CascadeBundleAssignedToUser (d : Db) (g : option CancelGate) (actor user bundle : string)
    : Cascaded (Db * (list string * bool)) :=
  let c := catalog (tables d) in
  withLockedAccess
    match refuseRetired c bundle, LatestVersionRoles c bundle with
    | Some e, _ => (g, inl e)
    | None, None => (g, inl NoRows)
    | None, Some (version, roles) =>
        let rules := GetActiveMappingRules c in
        let before := userBaseHoldings d user in
        let after := hold_all before (br_key <$> roles) in
        let '(adds, revokes) := closureDelta (effectiveClosure before rules) (effectiveClosure after rules) in
        let '(items, params) := deltaParams [] user adds revokes actor "Bundle membership cascade" "bundle" bundle in
        registering items (AssignBundleAndEnqueue d g actor "" user bundle (v_ID version) params)
    end.

(** A person's difference if one bundle were gone. *)
Definition removal_delta (d : Db) (bundle u : string) : list Role * list Role :=
  let rules := GetActiveMappingRules (catalog (tables d)) in
  closureDelta (effectiveClosure (userBaseHoldings d u) rules)
    (effectiveClosure (userBaseHoldingsExcludingBundle d u bundle) rules).
Definition CascadeBundleRemovedFromUser (d : Db) (g : option CancelGate) (actor user bundle : string)
    : Cascaded (Db * list string) :=
  withLockedAccess
    match refuseRetired (catalog (tables d)) bundle with
    | Some e => (g, inl e)
    | None =>
        let '(adds, revokes) := removal_delta d bundle user in
        let '(items, params) := deltaParams [] user adds revokes actor "Bundle removal cascade" "bundle" bundle in
        registering items (RemoveBundleFromUserAndEnqueue d g actor "" user bundle params)
    end.

(** The versions that count: a bundle's latest, and any somebody holds. *)
Definition counts (c : Catalog) (v : BundleVersion) : bool :=
  forallb (λ w, (v_BundleID w <>? v_BundleID v) || (v_Version w <=? v_Version v)%Z) (versions c)
  || existsb (λ a, as_VersionID a =? v_ID v) (assignments c).
Definition working_include (c : Catalog) (parent child : string) : bool :=
  existsb (λ i, (in_Owner i =? parent) && (in_ChildBundleID i =? child)) (includes c).
Definition version_include (c : Catalog) (parent child : string) : bool :=
  existsb (λ i, (in_ChildBundleID i =? child) &&
    existsb (λ v, (v_ID v =? in_Owner i) && (v_BundleID v =? parent) && counts c v) (versions c)) (version_includes c).
Definition includerOf (c : Catalog) (child : string) : list string :=
  b_Name <$> stable_sort (cmp_on b_Name String.compare)
    (filter (λ b, b_ID b ≠ child ∧ b_RetiredAt b = None ∧
                  (working_include c (b_ID b) child || version_include c (b_ID b) child) = true) (bundles c)).
Definition RetireBlockers (c : Catalog) (child : string) : list string := includerOf c child.

Definition CascadeBundleRetired (d : Db) (g : option CancelGate) (actor bundle : string) : Cascaded (Db * list string) :=
  let c := catalog (tables d) in
  withLockedAccess
    match refuseRetired c bundle, RetireBlockers c bundle with
    | Some e, _ => (g, inl e)
    | None, _ :: _ => (g, inl (ErrBundleIncluded (RetireBlockers c bundle)))
    | None, [] =>
        let '(items, params) := delta_params (removal_delta d bundle) actor "Bundle deletion cascade" "bundle" bundle
                                  (GetUsersForBundle c bundle) [] in
        registering items (RetireBundleAndEnqueue d g actor bundle params)
    end.

(** EditBundleWorkingCopy cascades to nobody. *)
Definition EditBundleWorkingCopy (d : Db) (g : option CancelGate) (actor bundle project role : string) (add : bool)
    : Cascaded (Db * list string) :=
  if add then AddRoleToBundleAndEnqueue d g actor bundle project role []
  else RemoveRoleFromBundleAndEnqueue d g actor bundle project role [].

(** ** Rules created, changed and retired *)

(** Everybody's difference between two rule sets. *)
Definition rules_delta (d : Db) (rulesBefore rulesAfter : list MappingRule) (u : string) : list Role * list Role :=
  let base := userBaseHoldings d u in
  closureDelta (effectiveClosure base rulesBefore) (effectiveClosure base rulesAfter).
Definition rule_cascade (d : Db) (rulesAfter : list MappingRule) (actor reason ref : string)
    : list pendingConvergence * list EnqueueParams :=
  delta_params (rules_delta d (GetActiveMappingRules (catalog (tables d))) rulesAfter) actor reason "rule" ref
    (GetAllKnownUserIDs d) [].
Definition CascadeRuleCreated (d : Db) (g : option CancelGate) (actor sp sr tp tr : string)
    : Cascaded (Db * (string * list string)) :=
  let rulesAfter := GetActiveMappingRules (catalog (tables d)) ++
    [{| RuleID := ""; SourceProject := sp; SourceRole := sr; TargetProject := tp; TargetRole := tr |}] in
  let '(items, params) := rule_cascade d rulesAfter actor "Mapping rule cascade" "" in
  withLockedAccess (registering items (CreateMappingRuleAndEnqueue d g actor sp sr tp tr params)).
(** The first rule with this id, replaced. *)
Fixpoint replace_rule (r : MappingRule) (rules : list MappingRule) : list MappingRule :=
  match rules with
  | [] => []
  | x :: rules => if RuleID x =? RuleID r then r :: rules else x :: replace_rule r rules
  end.
Definition CascadeRuleUpdated (d : Db) (g : option CancelGate) (actor : string) (old : MappingRule) (sp sr tp tr : string)
    : Cascaded (Db * list string) :=
  let new := {| RuleID := RuleID old; SourceProject := sp; SourceRole := sr; TargetProject := tp; TargetRole := tr |} in
  let '(items, params) := rule_cascade d (replace_rule new (GetActiveMappingRules (catalog (tables d)))) actor
                            "Mapping-rule update cascade" (RuleID old) in
  withLockedAccess (registering items (UpdateMappingRuleAndEnqueue d g actor (RuleID old) sp sr tp tr params)).
Definition CascadeRuleRetired (d : Db) (g : option CancelGate) (actor : string) (old : MappingRule)
    : Cascaded (Db * list string) :=
  let '(items, params) := rule_cascade d (filter (λ r, RuleID r ≠ RuleID old) (GetActiveMappingRules (catalog (tables d))))
                            actor "Mapping-rule deletion cascade" (RuleID old) in
  withLockedAccess (registering items (RetireMappingRuleAndEnqueue d g actor (RuleID old) params)).
End cascades.

(** ** Facts: what the cascades simulate *)

(** What a person holds, as a cascade reads it, and what one state owes beyond
    another. *)
Definition closure_of (d : Db) (u : string) : gmap Role bool :=
  effectiveClosure (userBaseHoldings d u) (GetActiveMappingRules (catalog (tables d))).
Definition owed (d d1 : Db) (u : string) : list Role * list Role := closureDelta (closure_of d u) (closure_of d1 u).

Lemma reaches_ext rules rules' (base base' : gmap Role bool) k :
  (∀ k, holds base k = true → holds base' k = true) →
  (∀ r, r ∈ rules → ∃ r', r' ∈ rules' ∧ src NewRole r' = src NewRole r ∧ tgt NewRole r' = tgt NewRole r) →
  reaches NewRole rules base k → reaches NewRole rules' base' k.
Proof.
  intros Hb Hr. induction 1 as [k Hk|r Hin _ IH]; [by apply reaches_base, Hb|].
  destruct (Hr r Hin) as (r' & Hin' & Es & Et). rewrite <-Et. apply reaches_rule; [done|]. by rewrite Es.
Qed.
Lemma effectiveClosure_ext base base' rules rules' :
  (∀ k, holds base k = true ↔ holds base' k = true) →
  (∀ r, r ∈ rules → ∃ r', r' ∈ rules' ∧ src NewRole r' = src NewRole r ∧ tgt NewRole r' = tgt NewRole r) →
  (∀ r, r ∈ rules' → ∃ r', r' ∈ rules ∧ src NewRole r' = src NewRole r ∧ tgt NewRole r' = tgt NewRole r) →
  effectiveClosure base rules = effectiveClosure base' rules'.
Proof.
  intros Hb H1 H2. apply true_maps_eq; auto using closure_true. intros k. unfold effectiveClosure. rewrite !Closure_reaches.
  split; apply reaches_ext; try done; intros; by apply Hb.
Qed.
Lemma effectiveClosure_base base base' rules :
  (∀ k, holds base k = true ↔ holds base' k = true) → effectiveClosure base rules = effectiveClosure base' rules.
Proof. intros. apply effectiveClosure_ext; [done|eauto..]. Qed.
Lemma closureDelta_same base rules :
  closureDelta (effectiveClosure base rules) (effectiveClosure base rules) = ([], []).
Proof.
  destruct (closureDelta _ _) as [adds revokes] eqn:E.
  pose proof (closureDelta_elem base rules base rules) as Hd. rewrite E in Hd. simpl in Hd.
  f_equal; apply elem_of_nil_inv; intros k Hk; apply Hd in Hk; tauto.
Qed.
(** No role is derived from nothing. *)
Lemma empty_base base rules : (∀ k, holds base k = false) → ∀ k, ¬ reaches NewRole rules base k.
Proof. intros Hb k. induction 1 as [k Hk|]; [by rewrite Hb in Hk|done]. Qed.

Lemma set_catalog_revoking d c u k : revoking (set_catalog d c) u k ↔ revoking d u k.
Proof. done. Qed.
Lemma base_iff d u k : holds (userBaseHoldings d u) k = true ↔ given d u "" k ∧ ¬ revoking d u k.
Proof. exact (userBaseHoldingsExcludingBundle_iff d u "" k). Qed.
(** Dropping assignments drops what they gave. *)
Lemma base_without d c' (keep : Assignment → bool) excl u :
  (∀ v, version_gives c' v = version_gives (catalog (tables d)) v) →
  assignments c' = filter (λ a, keep a = true) (assignments (catalog (tables d))) →
  (∀ a, a ∈ assignments (catalog (tables d)) → as_UserID a = u → as_BundleID a ≠ "" →
        keep a = negb (as_BundleID a =? excl)) →
  catalog_ok (catalog (tables d)) →
  ∀ k, holds (userBaseHoldings (set_catalog d c') u) k = true ↔ holds (userBaseHoldingsExcludingBundle d u excl) k = true.
Proof.
  intros Hv Ha Hkeep Hok k. rewrite base_iff, userBaseHoldingsExcludingBundle_iff, set_catalog_revoking.
  apply and_iff_compat_r. unfold given, bundle_gives. simpl. rewrite Ha. setoid_rewrite Hv. setoid_rewrite list_elem_of_filter.
  split; (intros [?|(b & Hb & a & Hin & Hu & <- & Hk)]; [by left|right; exists (as_BundleID a)]).
  - destruct Hin as [Hka Hin]. rewrite Hkeep in Hka by done. apply negb_true_iff, bool_decide_eq_false in Hka.
    split; [done|]. by exists a.
  - split; [by apply Hok|]. exists a. split_and!; try done. rewrite Hkeep; [|done..|by apply Hok].
    by apply negb_true_iff, bool_decide_eq_false.
Qed.

(** ** Facts: the loop over people *)
Definition writes_of (actor reason source ref u : string) (delta : list Role * list Role) : list EnqueueParams :=
  stamp actor reason ref <$> deltaWrites u delta.1 delta.2 source ref.
Lemma writes_of_user actor reason source ref u delta p : p ∈ writes_of actor reason source ref u delta → UserID p = u.
Proof.
  unfold writes_of, deltaWrites. rewrite fmap_app, elem_of_app, !list_elem_of_fmap.
  intros [(q & -> & Hq)|(q & -> & Hq)]; apply list_elem_of_fmap in Hq as (? & -> & _); done.
Qed.
Lemma filter_writes_of actor reason source ref u u' delta :
  filter (λ p, UserID p = u) (writes_of actor reason source ref u' delta) =
  if bool_decide (u' = u) then writes_of actor reason source ref u' delta else [].
Proof.
  case_bool_decide as E.
  - apply filter_every. intros p ->%writes_of_user. done.
  - apply filter_none. intros p ->%writes_of_user. done.
Qed.
(** What was registered to converge. *)
Definition registered (items : list pendingConvergence) (actor u : string) (k : Role) : Prop :=
  ∃ it, it ∈ items ∧ pc_actor it = actor ∧ pc_user it = u ∧ k ∈ pc_changed it.
Lemma deferTargetConvergence_registers items actor user changed a u k :
  registered (deferTargetConvergence items actor user changed) a u k ↔
  registered items a u k ∨ a = actor ∧ u = user ∧ k ∈ changed.
Proof.
  unfold deferTargetConvergence. destruct changed as [|k0 changed]; [rewrite elem_of_nil; tauto|].
  generalize (k0 :: changed) as ks. intros ks. unfold registered. induction items as [|it items IH]; simpl.
  - setoid_rewrite list_elem_of_singleton. setoid_rewrite elem_of_nil. naive_solver.
  - destruct ((pc_actor it =? actor) && (pc_user it =? user)) eqn:E.
    + apply andb_true_iff in E as [<-%bool_decide_eq_true <-%bool_decide_eq_true]. setoid_rewrite elem_of_cons. split.
      * intros (it' & [->|Hin] & <- & <- & Hk); simpl in *; [|left; eauto 10].
        rewrite elem_of_app in Hk. destruct Hk; [left; eauto 10|by right].
      * intros [(it' & [->|Hin] & <- & <- & Hk)|(-> & -> & Hk)]; [|eauto 10|];
          (eexists; split; [by left|]; simpl; rewrite elem_of_app; auto).
    + setoid_rewrite elem_of_cons. split.
      * intros (it' & [->|Hin] & ? & ? & Hk); [left; eauto 10|].
        destruct (proj1 IH) as [(it2 & ? & ? & ? & ?)|?]; [by exists it'|left; eauto 10|by right].
      * intros [(it' & [->|Hin] & ? & ? & Hk)|H]; [eauto 10| |].
        -- destruct (proj2 IH) as (it2 & ? & ? & ? & ?); [by left; exists it'|eauto 10].
        -- destruct (proj2 IH) as (it2 & ? & ? & ? & ?); [by right|eauto 10].
Qed.

Section loop.
Context (delta : string → list Role * list Role) (actor reason source ref : string).
Lemma delta_params_cons u users items :
  delta_params delta actor reason source ref (u :: users) items =
  let rest := delta_params delta actor reason source ref users
                (deferTargetConvergence items actor u ((delta u).1 ++ (delta u).2)) in
  (rest.1, writes_of actor reason source ref u (delta u) ++ rest.2).
Proof. simpl. destruct (delta u) as [adds revokes]. simpl. by destruct (delta_params _ _ _ _ _ _ _). Qed.
Lemma delta_params_user users items u :
  NoDup users → filter (λ p, UserID p = u) (delta_params delta actor reason source ref users items).2 =
    if bool_decide (u ∈ users) then writes_of actor reason source ref u (delta u) else [].
Proof.
  intros Hnd. revert items; induction Hnd as [|u' users Hin Hnd IH]; intros items; [done|].
  rewrite delta_params_cons. cbn [snd]. rewrite filter_app, filter_writes_of, IH.
  destruct (decide (u' = u)) as [->|Hne].
  - rewrite (bool_decide_eq_true_2 (u = u)), (bool_decide_eq_false_2 (u ∈ users)), (bool_decide_eq_true_2 (u ∈ _ :: _)) by (done || by left).
    by rewrite app_nil_r.
  - rewrite (bool_decide_eq_false_2 (u' = u)) by done. simpl.
    rewrite (bool_decide_ext (u ∈ u' :: users) (u ∈ users)) by (rewrite elem_of_cons; naive_solver). done.
Qed.
Lemma delta_params_registers users items a u k :
  registered (delta_params delta actor reason source ref users items).1 a u k ↔
  registered items a u k ∨ a = actor ∧ u ∈ users ∧ k ∈ (delta u).1 ++ (delta u).2.
Proof.
  revert items; induction users as [|u' users IH]; intros items; [simpl; rewrite elem_of_nil; tauto|].
  rewrite delta_params_cons. cbn [fst]. rewrite IH, deferTargetConvergence_registers, elem_of_cons. naive_solver.
Qed.
End loop.

(** ** Facts: the difference each cascade queues *)

(** [d1] is the state with the change written and nothing queued yet. *)
Record difference_queued (d d1 : Db) (actor reason source ref : string) (items : list pendingConvergence)
    (params : list EnqueueParams) : Prop := {
  dq_outbox : outbox d1 = outbox d;
  dq_ledger : ledger d1 = ledger d;
  dq_writes u : filter (λ p, UserID p = u) params = writes_of actor reason source ref u (owed d d1 u);
  dq_items a u k : registered items a u k ↔ a = actor ∧ k ∈ (owed d d1 u).1 ++ (owed d d1 u).2;
}.
Lemma loop_queues d d1 delta actor reason source ref users :
  outbox d1 = outbox d → ledger d1 = ledger d → NoDup users →
  (∀ u, u ∈ users → delta u = owed d d1 u) → (∀ u, u ∉ users → owed d d1 u = ([], [])) →
  difference_queued d d1 actor reason source ref (delta_params delta actor reason source ref users []).1
    (delta_params delta actor reason source ref users []).2.
Proof.
  intros Ho Hl Hnd Hin Hout. split; [done..| |].
  - intros u. rewrite delta_params_user by done. case_bool_decide; [by rewrite Hin|]. by rewrite Hout.
  - intros a u k. rewrite delta_params_registers. split.
    + intros [(it & ?%elem_of_nil & _)|(-> & Hu & Hk)]; [done|]. by rewrite <-Hin.
    + intros [-> Hk]. right. destruct (decide (u ∈ users)) as [Hu|Hu]; [by rewrite Hin|]. rewrite Hout in Hk by done.
      by apply elem_of_nil in Hk.
Qed.

Lemma closure_without d c' (keep : Assignment → bool) excl u :
  (∀ v, version_gives c' v = version_gives (catalog (tables d)) v) → rules c' = rules (catalog (tables d)) →
  assignments c' = filter (λ a, keep a = true) (assignments (catalog (tables d))) →
  (∀ a, a ∈ assignments (catalog (tables d)) → as_UserID a = u → as_BundleID a ≠ "" →
        keep a = negb (as_BundleID a =? excl)) →
  catalog_ok (catalog (tables d)) →
  closure_of (set_catalog d c') u =
  effectiveClosure (userBaseHoldingsExcludingBundle d u excl) (GetActiveMappingRules (catalog (tables d))).
Proof.
  intros Hv Hr Ha Hkeep Hok. unfold closure_of. cbn [catalog tables set_catalog with_tables with_catalog].
  unfold GetActiveMappingRules. rewrite Hr. by apply effectiveClosure_base, (base_without d c' keep).
Qed.
Lemma removal_owed d c' (keep : Assignment → bool) bundle u :
  (∀ v, version_gives c' v = version_gives (catalog (tables d)) v) → rules c' = rules (catalog (tables d)) →
  assignments c' = filter (λ a, keep a = true) (assignments (catalog (tables d))) → catalog_ok (catalog (tables d)) →
  ((∀ a, a ∈ assignments (catalog (tables d)) → as_UserID a = u → keep a = negb (as_BundleID a =? bundle)) →
     removal_delta d bundle u = owed d (set_catalog d c') u) ∧
  ((∀ a, a ∈ assignments (catalog (tables d)) → as_UserID a = u → keep a = true) →
     owed d (set_catalog d c') u = ([], [])).
Proof.
  intros Hv Hr Ha Hok. unfold removal_delta, owed. split; intros Hkeep.
  - rewrite (closure_without d c' keep bundle u) by auto. done.
  - rewrite (closure_without d c' keep "" u); try done; [apply closureDelta_same|]. intros a Hin Hu Hne. rewrite Hkeep by done.
    by rewrite bool_decide_eq_false_2.
Qed.

(** Rules. *)
Lemma unknown_holds_nothing d u : u ∉ GetAllKnownUserIDs d → ∀ k, holds (userBaseHoldings d u) k = false.
Proof.
  unfold GetAllKnownUserIDs. rewrite elem_of_remove_dups, !elem_of_app. intros Hu k. apply not_true_iff_false.
  rewrite base_iff. intros [[(g & Hg & <- & _)|(b & _ & a & Ha & <- & _)] _]; apply Hu.
  - left. by apply list_elem_of_fmap_2.
  - right. left. by apply list_elem_of_fmap_2.
Qed.
Lemma rules_owed d d1 rulesAfter u :
  userBaseHoldings d1 u = userBaseHoldings d u →
  (∀ r, r ∈ GetActiveMappingRules (catalog (tables d1)) → ∃ r', r' ∈ rulesAfter ∧ src NewRole r' = src NewRole r ∧ tgt NewRole r' = tgt NewRole r) →
  (∀ r, r ∈ rulesAfter → ∃ r', r' ∈ GetActiveMappingRules (catalog (tables d1)) ∧ src NewRole r' = src NewRole r ∧ tgt NewRole r' = tgt NewRole r) →
  rules_delta d (GetActiveMappingRules (catalog (tables d))) rulesAfter u = owed d d1 u ∧
  (u ∉ GetAllKnownUserIDs d → owed d d1 u = ([], [])).
Proof.
  intros Eb H1 H2. assert (rules_delta d (GetActiveMappingRules (catalog (tables d))) rulesAfter u = owed d d1 u) as E.
  { unfold rules_delta, owed, closure_of. rewrite Eb. f_equal. by apply effectiveClosure_ext. }
  split; [done|]. intros Hu. pose proof (unknown_holds_nothing d u Hu) as Hn. rewrite <-E. unfold rules_delta.
  pose proof (closureDelta_elem (userBaseHoldings d u) (GetActiveMappingRules (catalog (tables d))) (userBaseHoldings d u) rulesAfter) as Hd.
  destruct (closureDelta _ _) as [adds revokes]. simpl in Hd. f_equal; apply elem_of_nil_inv; intros k Hk.
  - destruct (proj1 (proj1 (Hd k)) Hk) as [Hr _]. exact (empty_base _ _ Hn k Hr).
  - destruct (proj1 (proj2 (Hd k)) Hk) as [Hr _]. exact (empty_base _ _ Hn k Hr).
Qed.
Lemma rule_cascade_queues d d1 rulesAfter actor reason ref :
  outbox d1 = outbox d → ledger d1 = ledger d → (∀ u, userBaseHoldings d1 u = userBaseHoldings d u) →
  (∀ r, r ∈ GetActiveMappingRules (catalog (tables d1)) → ∃ r', r' ∈ rulesAfter ∧ src NewRole r' = src NewRole r ∧ tgt NewRole r' = tgt NewRole r) →
  (∀ r, r ∈ rulesAfter → ∃ r', r' ∈ GetActiveMappingRules (catalog (tables d1)) ∧ src NewRole r' = src NewRole r ∧ tgt NewRole r' = tgt NewRole r) →
  difference_queued d d1 actor reason "rule" ref (rule_cascade d rulesAfter actor reason ref).1
    (rule_cascade d rulesAfter actor reason ref).2.
Proof.
  intros Ho Hl Hb H1 H2. apply loop_queues; [done..|apply NoDup_remove_dups| |].
  - intros u _. by apply rules_owed.
  - intros u. by apply (rules_owed d d1 rulesAfter).
Qed.

Section rule_rows.
Context (c : Catalog).
Lemma active_created r :
  GetActiveMappingRules (with_rules c (rules c ++ [{| rule := r; rule_RetiredAt := None; rule_RetiredBy := None |}])) =
  GetActiveMappingRules c ++ [r].
Proof. unfold GetActiveMappingRules. simpl. by rewrite filter_app, fmap_app. Qed.
Lemma active_retired t actor i :
  GetActiveMappingRules (with_rules c ((λ x, if in_force_rule i x then {| rule := rule x; rule_RetiredAt := Some t;
                                             rule_RetiredBy := Some actor |} else x) <$> rules c)) =
  filter (λ r, RuleID r ≠ i) (GetActiveMappingRules c).
Proof.
  unfold GetActiveMappingRules. simpl. induction (rules c) as [|x l IH]; [done|]. csimpl. unfold in_force_rule at 1.
  destruct (decide (rule_RetiredAt x = None)) as [El|El].
  - rewrite (bool_decide_eq_true_2 _ El), andb_true_r, (filter_cons_True _ x) by done. csimpl.
    destruct (decide (RuleID (rule x) = i)) as [Ei|Ei].
    + rewrite bool_decide_eq_true_2 by done. rewrite filter_cons_False by done. rewrite filter_cons_False by (simpl; tauto).
      exact IH.
    + rewrite bool_decide_eq_false_2 by done. rewrite filter_cons_True by done. csimpl.
      rewrite filter_cons_True by done. by f_equal.
  - rewrite (bool_decide_eq_false_2 _ El), andb_false_r. by rewrite !filter_cons_False.
Qed.
Lemma replace_rule_absent r l : (∀ x, x ∈ l → RuleID x ≠ RuleID r) → replace_rule r l = l.
Proof.
  induction l as [|x l IH]; intros H; [done|]. simpl. rewrite bool_decide_eq_false_2 by (apply H; left).
  by rewrite IH by (intros; apply H; by right).
Qed.
Lemma active_updated r :
  NoDup ((RuleID ∘ rule) <$> rules c) →
  GetActiveMappingRules (with_rules c ((λ x, if in_force_rule (RuleID r) x then {| rule := r; rule_RetiredAt := rule_RetiredAt x;
                                             rule_RetiredBy := rule_RetiredBy x |} else x) <$> rules c)) =
  replace_rule r (GetActiveMappingRules c).
Proof.
  unfold GetActiveMappingRules. simpl. induction (rules c) as [|x l IH]; [done|]. csimpl. intros [Hx Hnd]%NoDup_cons.
  specialize (IH Hnd). unfold in_force_rule at 1. destruct (decide (rule_RetiredAt x = None)) as [El|El].
  - rewrite (bool_decide_eq_true_2 _ El), andb_true_r, (filter_cons_True _ x) by done. csimpl.
    destruct (decide (RuleID (rule x) = RuleID r)) as [Ei|Ei].
    + rewrite !bool_decide_eq_true_2 by done. rewrite filter_cons_True by done. csimpl. f_equal.
      rewrite IH. apply replace_rule_absent. intros y (z & -> & Hz)%list_elem_of_fmap E.
      apply list_elem_of_filter in Hz as [_ Hz]. apply Hx. rewrite Ei, <-E.
      exact (list_elem_of_fmap_2 (RuleID ∘ rule) l z Hz).
    + rewrite !bool_decide_eq_false_2 by done. rewrite filter_cons_True by done. csimpl. by f_equal.
  - rewrite (bool_decide_eq_false_2 _ El), andb_false_r. by rewrite !filter_cons_False.
Qed.
End rule_rows.

(** ** Facts: queueing leaves what is recorded alone *)

(** The tables, the ledger and the clock. *)
Definition same_record (d d' : Db) : Prop :=
  tables d' = tables d ∧ ledger d' = ledger d ∧ now d' = now d ∧ targets d' = targets d ∧ next_uuid d ≤ next_uuid d'.
#[export] Instance same_record_preorder : PreOrder same_record.
Proof. split; [done|]. intros d1 d2 d3 (? & ? & ? & ? & ?) (? & ? & ? & ? & ?). split_and!; congruence || lia. Qed.

Section record.
Context `{!EnqueueEnv}.
Lemma close_same_record d p : same_record d (closeGivenRequests d p).
Proof. unfold closeGivenRequests. by destruct (_ || _). Qed.
Lemma row_same_record d g p own cascadeID why g' d' i :
  row d g p own cascadeID why = (g', inr (d', i)) → same_record d d'.
Proof.
  unfold row. destruct (withdrawUndelivered d g "zitadel" p) as [g1 [e|[d1 owing]]] eqn:Hw; [done|].
  assert (same_record d d1) as H1.
  { apply withdraw_ok in Hw as [_ Hw]. cbn zeta in Hw. destruct Hw as [(_ & -> & _)|(_ & _ & _ & (logs & _ & _ & _ & ->) & _)]; done. }
  destruct owing; [|intros; by simplify_eq]. destruct own as [key|].
  - destruct (if e_OpType p =? op_add then _ else _); [intros; by simplify_eq|]. intros E. injection E as _ <- _. etrans; [exact H1|]. split_and!; try done. simpl. lia.
  - intros E. injection E as _ <- _. etrans; [exact H1|]. split_and!; try done. simpl. lia.
Qed.
(** Nothing unresolved appears but the write itself. *)
Lemma row_unresolved d g p own cascadeID why g' d' i o :
  row d g p own cascadeID why = (g', inr (d', i)) → o ∈ outbox d' → unresolved o = true →
  o ∈ outbox d ∨ op_type o = e_OpType p.
Proof.
  unfold row. destruct (withdrawUndelivered d g "zitadel" p) as [g1 [e|[d1 owing]]] eqn:Hw; [done|].
  assert (o ∈ outbox d1 → unresolved o = true → o ∈ outbox d) as H1.
  { apply withdraw_ok in Hw as [_ Hw]. cbn zeta in Hw. destruct Hw as [(_ & -> & _)|(_ & _ & Eo & _)]; [done|].
    rewrite Eo. unfold update. intros (r & -> & Hr)%list_elem_of_fmap. cbn beta.
    destruct (bool_decide (id r ∈ _)); [|done]. intros Hu. by vm_compute in Hu. }
  destruct owing; [|intros; simplify_eq; auto]. destruct own as [key|].
  - destruct (if e_OpType p =? op_add then _ else _); [intros; simplify_eq; auto|]. intros E. injection E as _ <- _. simpl.
    rewrite elem_of_app, list_elem_of_singleton. intros [?| ->]; auto.
  - intros E. injection E as _ <- _. simpl. rewrite elem_of_app, list_elem_of_singleton. intros [?| ->]; auto.
Qed.
Lemma rows_same_record params d g cascadeID why g' d' ids :
  rows d g params cascadeID why = (g', inr (d', ids)) → same_record d d'.
Proof.
  revert d g g' d' ids; induction params as [|p params IH]; intros d g g' d' ids; simpl; [intros; by simplify_eq|].
  destruct (row (closeGivenRequests d p) g p None cascadeID why) as [g1 [e|[d1 i]]] eqn:Hr; [done|].
  destruct (rows d1 g1 params cascadeID why) as [g2 [e|[d2 ids']]] eqn:Hs; [done|]. intros E. injection E as _ <- _.
  etrans; [apply close_same_record|]. etrans; [by eapply row_same_record|by eapply IH].
Qed.
Lemma cascadeWrites_same_record d g audits params g' d' ids :
  enqueueWrites d g audits params None = (g', inr (d', ids)) → same_record d d'.
Proof.
  unfold enqueueWrites. destruct (mint d) as [d0 cascadeID] eqn:Em. intros E%rows_same_record. etrans; [|exact E].
  trans d0; [injection Em as <- _; split_and!; try done; simpl; lia|]. clear.
  generalize (if cascadeGroupVisible params then Some cascadeID else None) as c. intros c.
  revert d0; induction audits as [|a audits IH]; intros d0; simpl; [done|]. by etrans; [|apply IH].
Qed.
End record.

(** ** Facts: what a cascade is *)
Section cascade.
Context `{!EnqueueEnv} (find_user : string → option string) (sha256hex : string → string) (clock : Z).

(** The cascades that take the records as they are: a bundle taken back or
    retired, a rule created, changed or retired. *)
Inductive cascades (d : Db) (g : option CancelGate) (actor : string) :
    string → string → option CancelGate → Db → list string → Prop :=
  | cascade_removed user bundle g' d' ids :
      CascadeBundleRemovedFromUser find_user sha256hex clock d g actor user bundle = (g', inr (d', ids)) →
      cascades d g actor "bundle" bundle g' d' ids
  | cascade_retired bundle g' d' ids :
      CascadeBundleRetired find_user sha256hex clock d g actor bundle = (g', inr (d', ids)) →
      cascades d g actor "bundle" bundle g' d' ids
  | cascade_rule_created sp sr tp tr i g' d' ids :
      CascadeRuleCreated find_user sha256hex clock d g actor sp sr tp tr = (g', inr (d', (i, ids))) →
      cascades d g actor "rule" i g' d' ids
  | cascade_rule_updated old sp sr tp tr g' d' ids :
      CascadeRuleUpdated find_user sha256hex clock d g actor old sp sr tp tr = (g', inr (d', ids)) →
      cascades d g actor "rule" (RuleID old) g' d' ids
  | cascade_rule_retired old g' d' ids :
      CascadeRuleRetired find_user sha256hex clock d g actor old = (g', inr (d', ids)) →
      cascades d g actor "rule" (RuleID old) g' d' ids.

(** The tables' primary keys. *)
Record keys_ok (c : Catalog) : Prop := {
  assignments_key : NoDup ((λ a, (as_UserID a, as_BundleID a)) <$> assignments c);
  rules_key : NoDup ((RuleID ∘ rule) <$> rules c);
}.

Lemma withLockedAccess_ok {A} items (o : Cascaded (Db * A)) g' d' x :
  withLockedAccess find_user sha256hex clock (registering items o) = (g', inr (d', x)) →
  ∃ d2, o = (g', inr (d2, x)) ∧ flush find_user sha256hex clock d2 items = inr d'.
Proof.
  unfold withLockedAccess, registering. destruct o as [g1 [e|[d2 y]]]; [done|].
  destruct (flush _ _ _ _ _) as [e|d3] eqn:Ef; [done|]. intros E. injection E as <- <- <-. eauto.
Qed.
Lemma cascadeWrites_ok d g audits params g' d' ids :
  cascadeWrites d g audits params = (g', inr (d', ids)) → enqueueWrites d g audits params None = (g', inr (d', ids)).
Proof. unfold cascadeWrites. destruct (enqueueWrites _ _ _ _ _) as [g1 [e|x]]; [done|]. intros E. by injection E as <- <-. Qed.

(** How a cascade ends: [d1] has the change written, [d2] its rows queued. *)
Definition ends_with (d : Db) (g : option CancelGate) (actor source ref : string) (g' : option CancelGate) (d' : Db)
    (ids : list string) : Prop :=
  ∃ d1 d2 reason audits items params,
    difference_queued d d1 actor reason source ref items params ∧
    enqueueWrites d1 g audits params None = (g', inr (d2, ids)) ∧ same_record d1 d2 ∧
    flush find_user sha256hex clock d2 items = inr d' ∧ converges d2 d'.
Lemma ends_with_intro d d1 g actor reason source ref audits items params g' d' ids :
  difference_queued d d1 actor reason source ref items params →
  withLockedAccess find_user sha256hex clock (registering items (cascadeWrites d1 g audits params)) = (g', inr (d', ids)) →
  ends_with d g actor source ref g' d' ids.
Proof.
  intros Hd (d2 & E & Hf)%withLockedAccess_ok. apply cascadeWrites_ok in E.
  exists d1, d2, reason, audits, items, params. split_and!; [done..|by eapply cascadeWrites_same_record|done|].
  by apply (flush_ok _ _ _ _ _ _ Hf).
Qed.
Context (d : Db) (Hok : catalog_ok (catalog (tables d))).
Lemma CascadeBundleRemovedFromUser_ends g actor user bundle g' d' ids :
  CascadeBundleRemovedFromUser find_user sha256hex clock d g actor user bundle = (g', inr (d', ids)) →
  ends_with d g actor "bundle" bundle g' d' ids.
Proof.
  unfold CascadeBundleRemovedFromUser. destruct (refuseRetired _ _); [done|].
  destruct (removal_delta d bundle user) as [adds revokes] eqn:Edel.
  unfold deltaParams, RemoveBundleFromUserAndEnqueue. set (c' := with_assignments _ _). apply ends_with_intro with "Bundle removal cascade".
  set (keep a := bool_decide (¬ (as_UserID a = user ∧ as_BundleID a = bundle))).
  pose proof (λ u, removal_owed d c' keep bundle u (λ v, eq_refl) eq_refl) as Howed.
  assert (assignments c' = filter (λ a, keep a = true) (assignments (catalog (tables d)))) as Ea.
  { apply list_filter_iff. intros a. unfold keep. by rewrite bool_decide_eq_true. }
  pose proof (loop_queues d (set_catalog d c') (removal_delta d bundle) actor "Bundle removal cascade" "bundle" bundle [user]
    eq_refl eq_refl (NoDup_singleton user)) as Hq.
  rewrite (surjective_pairing (removal_delta d bundle user)) in Edel. injection Edel as <- <-.
  simpl in Hq. destruct (removal_delta d bundle user) as [adds revokes] eqn:Edel. rewrite app_nil_r in Hq.
  apply Hq; clear Hq.
  - intros u ->%list_elem_of_singleton. rewrite Edel, <-(proj1 (Howed user Ea Hok)); [done|]. intros a Ha Hu. unfold keep.
    rewrite <-bool_decide_not. apply bool_decide_ext. naive_solver.
  - intros u Hu. rewrite list_elem_of_singleton in Hu. apply (Howed u Ea Hok). intros a _ Ha. apply bool_decide_eq_true. naive_solver.
Qed.
Lemma GetUsersForBundle_NoDup c bundle :
  NoDup ((λ a, (as_UserID a, as_BundleID a)) <$> assignments c) → NoDup (GetUsersForBundle c bundle).
Proof.
  unfold GetUsersForBundle. induction (assignments c) as [|a l IH]; intros Hkey; [apply NoDup_nil_2|].
  csimpl in Hkey. apply NoDup_cons in Hkey as [Ha Hl]. destruct (decide (as_BundleID a = bundle)) as [<-|Hne].
  - rewrite filter_cons_True by done. csimpl. constructor; [|by apply IH]. intros (b & E & Hb)%list_elem_of_fmap.
    apply list_elem_of_filter in Hb as [Eb Hb]. apply Ha. rewrite E, <-Eb. by apply (list_elem_of_fmap_2 (λ a, (as_UserID a, as_BundleID a))).
  - rewrite filter_cons_False by done. by apply IH.
Qed.
Lemma CascadeBundleRetired_ends g actor bundle g' d' ids :
  NoDup ((λ a, (as_UserID a, as_BundleID a)) <$> assignments (catalog (tables d))) →
  CascadeBundleRetired find_user sha256hex clock d g actor bundle = (g', inr (d', ids)) →
  ends_with d g actor "bundle" bundle g' d' ids.
Proof.
  intros Hkey. unfold CascadeBundleRetired. destruct (refuseRetired _ _); [done|]. destruct (RetireBlockers _ _); [|done].
  unfold RetireBundleAndEnqueue. destruct (negb _); [by destruct (delta_params _ _ _ _ _ _ _)|].
  set (c' := with_assignments _ _). set (reason := "Bundle deletion cascade").
  set (loop := delta_params _ _ _ _ _ _ _). rewrite (surjective_pairing loop). apply ends_with_intro with reason.
  set (keep a := negb (as_BundleID a =? bundle)).
  pose proof (λ u, removal_owed d c' keep bundle u (λ v, eq_refl) eq_refl) as Howed.
  assert (assignments c' = filter (λ a, keep a = true) (assignments (catalog (tables d)))) as Ea.
  { apply list_filter_iff. intros a. unfold keep. by rewrite negb_true_iff, bool_decide_eq_false. }
  assert (∀ u, u ∈ GetUsersForBundle (catalog (tables d)) bundle ↔
               ∃ a, a ∈ assignments (catalog (tables d)) ∧ as_UserID a = u ∧ as_BundleID a = bundle) as Husers.
  { intros u. unfold GetUsersForBundle. rewrite list_elem_of_fmap. setoid_rewrite list_elem_of_filter. naive_solver. }
  apply loop_queues; [done|done| | |].
  - by apply GetUsersForBundle_NoDup.
  - intros u _. by apply (Howed u Ea Hok).
  - intros u Hu. apply (Howed u Ea Hok). intros a Ha Hau. unfold keep. apply negb_true_iff, bool_decide_eq_false.
    intros Eb. apply Hu, Husers. eauto.
Qed.
Lemma CascadeRuleCreated_ends g actor sp sr tp tr i g' d' ids :
  CascadeRuleCreated find_user sha256hex clock d g actor sp sr tp tr = (g', inr (d', (i, ids))) →
  ends_with d g actor "rule" i g' d' ids.
Proof.
  unfold CascadeRuleCreated. set (after := _ ++ _). set (loop := rule_cascade _ _ _ _ _).
  rewrite (surjective_pairing loop). intros (d2 & E & Hf)%withLockedAccess_ok. unfold CreateMappingRuleAndEnqueue in E.
  destruct (mint d) as [d0 ruleID] eqn:Em. destruct (rule_violates _ _); [done|].
  set (d1 := set_catalog _ _) in E. destruct (cascadeWrites _ _ _ _) as [g1 [e|[d3 ids']]] eqn:Ew; [done|].
  injection E as <- <- <- <-. apply cascadeWrites_ok in Ew.
  set (restamp := (λ p, {| UserID := UserID p |})) in Ew.
  exists d1, d3, "Mapping rule cascade". do 3 eexists. split_and!; [|exact Ew|by eapply cascadeWrites_same_record|exact Hf|].
  2: by apply (flush_ok _ _ _ _ _ _ Hf).
  assert (difference_queued d d1 actor "Mapping rule cascade" "rule" "" loop.1 loop.2) as [Ho Hl Hw Hi].
  { injection Em as <- <-. apply rule_cascade_queues; [done..| |].
    - intros r. unfold d1. cbn [catalog tables set_catalog with_tables with_catalog]. rewrite active_created. unfold after.
      rewrite elem_of_app, list_elem_of_singleton. setoid_rewrite elem_of_app. setoid_rewrite list_elem_of_singleton.
      intros [?| ->]; eauto.
    - intros r. unfold d1. cbn [catalog tables set_catalog with_tables with_catalog]. rewrite active_created. unfold after.
      rewrite elem_of_app, list_elem_of_singleton. setoid_rewrite elem_of_app. setoid_rewrite list_elem_of_singleton.
      intros [?| ->]; eauto. }
  split; [done..| |done]. intros u.
  trans (restamp <$> filter (λ p, UserID p = u) loop.2).
  { clear. induction loop.2 as [|p l IH]; [done|]. csimpl. destruct (decide (UserID p = u)) as [E|E].
    - rewrite !filter_cons_True by done. csimpl. by f_equal.
    - by rewrite !filter_cons_False. }
  rewrite Hw. unfold writes_of, deltaWrites. by rewrite !fmap_app, <-!list_fmap_compose.
Qed.
Lemma CascadeRuleUpdated_ends g actor old sp sr tp tr g' d' ids :
  NoDup ((RuleID ∘ rule) <$> rules (catalog (tables d))) →
  CascadeRuleUpdated find_user sha256hex clock d g actor old sp sr tp tr = (g', inr (d', ids)) →
  ends_with d g actor "rule" (RuleID old) g' d' ids.
Proof.
  intros Hkey. unfold CascadeRuleUpdated. set (new := {| RuleID := RuleID old |}). set (loop := rule_cascade _ _ _ _ _).
  rewrite (surjective_pairing loop). unfold UpdateMappingRuleAndEnqueue. destruct (negb _); [done|]. fold new.
  destruct (rule_violates _ _); [done|]. apply ends_with_intro with "Mapping-rule update cascade".
  set (d1 := set_catalog _ _). assert (GetActiveMappingRules (catalog (tables d1)) = replace_rule new (GetActiveMappingRules (catalog (tables d)))) as E
    by exact (active_updated _ new Hkey).
  apply rule_cascade_queues; [done..| |]; rewrite E; eauto.
Qed.
Lemma CascadeRuleRetired_ends g actor old g' d' ids :
  CascadeRuleRetired find_user sha256hex clock d g actor old = (g', inr (d', ids)) →
  ends_with d g actor "rule" (RuleID old) g' d' ids.
Proof.
  unfold CascadeRuleRetired. set (loop := rule_cascade _ _ _ _ _). rewrite (surjective_pairing loop).
  unfold RetireMappingRuleAndEnqueue. destruct (negb _); [done|]. apply ends_with_intro with "Mapping-rule deletion cascade".
  set (d1 := set_catalog _ _).
  assert (GetActiveMappingRules (catalog (tables d1)) = filter (λ r, RuleID r ≠ RuleID old) (GetActiveMappingRules (catalog (tables d)))) as E
    by exact (active_retired _ (now d) actor (RuleID old)).
  apply rule_cascade_queues; [done..| |]; rewrite E; eauto.
Qed.
Lemma cascades_end g actor source ref g' d' ids :
  keys_ok (catalog (tables d)) → cascades d g actor source ref g' d' ids → ends_with d g actor source ref g' d' ids.
Proof.
  intros [Ha Hr]. destruct 1; eauto using CascadeBundleRemovedFromUser_ends, CascadeBundleRetired_ends,
    CascadeRuleCreated_ends, CascadeRuleUpdated_ends, CascadeRuleRetired_ends.
Qed.
End cascade.

(** ** Facts: what the convergences say *)
Lemma ResolveEntitlements_same find_user d d' u t :
  standing_policy (tables d') = standing_policy (tables d) → ledger d' = ledger d → now d' = now d →
  ResolveEntitlements find_user d' u t = ResolveEntitlements find_user d u t.
Proof.
  intros Hp Hl Hn. injection Hp as Hc Hm _ _ Ha. unfold ResolveEntitlements.
  assert (effectiveRoleRefs d' u = effectiveRoleRefs d u) as ->.
  { unfold effectiveRoleRefs, collectUserRoles, GetDirectGrantsForUser, unexpired. by rewrite Hc, Hl, Hn. }
  unfold MappingsForRoles, AllowancesInForce, in_force. by rewrite Hm, Ha, Hn.
Qed.
Section flushed.
Context `{!EnqueueEnv} (find_user : string → option string) (sha256hex : string → string) (clock : Z).
(** [u]'s state on [t], as [d] has it, is queued on the way from [d2] to [d']. *)
Definition converged_on (d d2 d' : Db) (actor u t : string) : Prop :=
  ∃ e e' planID i, converges d2 e ∧ converges e' d' ∧
    RecordSystemConvergence sha256hex e clock
      {| sc_Target := t; sc_SubjectID := u; sc_Actor := actor; sc_Reason := "Their roles changed.";
         sc_Desired := Some (Desired (ResolveEntitlements find_user d u t)); sc_WithdrawsOnly := false |}
    = inr (e', planID, i).
Lemma converged_on_later d d1 d2 d' d'' actor u t :
  converges d1 d2 → converges d' d'' → converged_on d d2 d' actor u t → converged_on d d1 d'' actor u t.
Proof. intros H1 H2 (e & e' & p & i & ? & ? & E). exists e, e', p, i. split_and!; [by eapply converges_trans..|done]. Qed.
Lemma converge_all_on tgts d actor u d' t :
  converge_all find_user sha256hex clock d actor u tgts = inr d' → t ∈ tgts → converged_on d d d' actor u t.
Proof.
  revert d; induction tgts as [|t' tgts IH]; intros d; [by intros _ ?%elem_of_nil|]. simpl.
  destruct (convergeOn find_user sha256hex clock d actor u t') as [e|d1] eqn:E; [done|]. intros Hall Ht.
  pose proof (proj2 (convergeOn_ok _ _ _ _ _ _ _ _ E)) as H1. pose proof (proj2 (converge_all_ok _ _ _ _ _ _ _ _ Hall)) as H2.
  apply elem_of_cons in Ht as [->|Ht].
  - unfold convergeOn in E. destruct (RecordSystemConvergence _ _ _ _) as [|[[e' p] i]] eqn:Er; [done|]. injection E as ->.
    exists d, d1, p, i. split_and!; [apply converges_refl|done..].
  - apply (IH d1 Hall) in Ht. eapply (converged_on_later _ d d1 d' d'); [done|apply converges_refl|].
    destruct Ht as (e & e' & p & i & ? & ? & Er). exists e, e', p, i. split_and!; [done..|].
    by rewrite <-(ResolveEntitlements_same find_user d d1) by (apply H1).
Qed.
Lemma flush_converges items d d' actor u k t :
  flush find_user sha256hex clock d items = inr d' → registered items actor u k → t ∈ TargetsMappedToRole d k.1 k.2 →
  converged_on d d d' actor u t.
Proof.
  revert d; induction items as [|it items IH]; intros d; [by intros _ (? & ?%elem_of_nil & _)|]. simpl.
  destruct (triggerTargetConvergence find_user sha256hex clock d (pc_actor it) (pc_user it) (pc_changed it)) as [e|d1] eqn:E; [done|].
  intros Hf (it' & Hin & <- & <- & Hk) Ht.
  pose proof (proj2 (triggerTargetConvergence_ok _ _ _ _ _ _ _ _ E)) as H1. pose proof (proj2 (flush_ok _ _ _ _ _ _ Hf)) as H2.
  apply elem_of_cons in Hin as [->|Hin].
  - eapply (converged_on_later _ d d d1 d'); [apply converges_refl|done|]. unfold triggerTargetConvergence in E.
    destruct (pc_changed it) as [|k0 ks] eqn:Ec; [by apply elem_of_nil in Hk|]. rewrite <-Ec in *.
    eapply converge_all_on; [exact E|]. unfold targetsReachedBy. rewrite sort_strings_elem, elem_of_elements, elem_of_list_to_set.
    apply list_elem_of_bind. exists k. split; [exact Ht|done].
  - eapply (converged_on_later _ d d1 d' d'); [done|apply converges_refl|].
    destruct (IH d1 Hf) as (e & e' & p & i & ? & ? & Er); [by exists it'| |].
    { unfold TargetsMappedToRole, active in *. pose proof (cv_policy _ _ H1) as Hp. injection Hp as _ Hm _ _ _.
      by rewrite Hm, (cv_targets _ _ H1). }
    exists e, e', p, i. split_and!; [done..|]. by rewrite <-(ResolveEntitlements_same find_user d d1) by (apply H1).
Qed.
End flushed.

(** ** Facts: a role given by name *)
Section give.
Context `{!EnqueueEnv}.
Implicit Types (p : EnqueueParams).
Definition write_keys (p : EnqueueParams) : list Role := (e_ProjectID p,.) <$> e_RoleKeys p.

(** A ledger whose only news is that [p]'s roles are in it. *)
Definition gives_only (p : EnqueueParams) (ks : list Role) (l l' : list Grant) : Prop :=
  (∀ g, g ∈ l' → g ∈ l ∨ g_user g = UserID p ∧ grant_key g ∈ ks) ∧
  (∀ g, g ∈ l → ∃ g', g' ∈ l' ∧ g_user g' = g_user g ∧ grant_key g' = grant_key g ∧
                      (g' = g ∨ g_user g = UserID p ∧ grant_key g ∈ ks)) ∧
  (∀ k, k ∈ ks → ∃ g, g ∈ l' ∧ g_user g = UserID p ∧ grant_key g = k).
Lemma upsertGrant_gives d p role :
  gives_only p [(e_ProjectID p, role)] (ledger d) (ledger (upsertGrant d p role).1).
Proof.
  unfold upsertGrant. set (clash g := (g_user g =? UserID p) && (g_project g =? e_ProjectID p) && (g_role g =? role)).
  assert (Hcl : ∀ g, clash g = true ↔ g_user g = UserID p ∧ grant_key g = (e_ProjectID p, role)).
  { intros g. unfold clash, grant_key. rewrite !andb_true_iff, !bool_decide_eq_true. split; [intros [[? ?] ?]; split; congruence|intros [? [= ? ?]]; done]. }
  destruct (head (filter _ (ledger d))) as [g0|] eqn:Eh; simpl.
  - assert (g0 ∈ ledger d ∧ clash g0 = true) as [Hg0 Hc0].
    { apply head_Some_elem_of in Eh. apply list_elem_of_filter in Eh. naive_solver. }
    split_and!.
    + intros g (g1 & -> & Hg1)%list_elem_of_fmap. cbn beta. fold (clash g1). destruct (clash g1); [|left; exact Hg1].
      right. split; [done|]. by apply list_elem_of_singleton.
    + intros g Hg. eexists. split; [by apply list_elem_of_fmap_2|]. cbn beta. fold (clash g). destruct (clash g) eqn:Ec; [|by auto].
      pose proof Ec as [Eu Ek]%Hcl. split_and!; [done..|]. right. split; [done|]. by apply list_elem_of_singleton.
    + intros k ->%list_elem_of_singleton. eexists. split; [by apply list_elem_of_fmap_2|]. cbn beta. fold (clash g0). by rewrite Hc0.
  - split_and!.
    + intros g. rewrite elem_of_app, list_elem_of_singleton. intros [?| ->]; [by left|]. right. split; [done|].
      by apply list_elem_of_singleton.
    + intros g Hg. exists g. rewrite elem_of_app. naive_solver.
    + intros k ->%list_elem_of_singleton. eexists. rewrite elem_of_app, list_elem_of_singleton. split; [by right|done].
Qed.
Lemma gives_only_trans p ks1 ks2 l1 l2 l3 :
  gives_only p ks1 l1 l2 → gives_only p ks2 l2 l3 → gives_only p (ks1 ++ ks2) l1 l3.
Proof.
  intros (A1 & B1 & C1) (A2 & B2 & C2). split_and!.
  - intros g Hg. destruct (A2 g Hg) as [H0|[? ?]]; [destruct (A1 g H0) as [?|[? ?]]|]; rewrite ?elem_of_app; auto.
  - intros g Hg. destruct (B1 g Hg) as (g1 & H1 & Eu1 & Ek1 & O1), (B2 g1 H1) as (g2 & H2 & Eu2 & Ek2 & O2).
    exists g2. rewrite elem_of_app. split_and!; [done|congruence..|].
    destruct O1 as [->|[? ?]]; [|by auto]. destruct O2 as [->|[? ?]]; auto.
  - intros k [Hk|Hk]%elem_of_app; [|by apply C2]. destruct (C1 k Hk) as (g & Hg & <- & <-).
    destruct (B2 g Hg) as (g2 & ? & ? & ? & _). eauto.
Qed.
Lemma upsertGrants_gives roles d p :
  gives_only p ((e_ProjectID p,.) <$> roles) (ledger d) (ledger (upsertGrants d p roles).1).
Proof.
  revert d; induction roles as [|role roles IH]; intros d; simpl.
  - split_and!; [by left|naive_solver|by intros ? ?%elem_of_nil].
  - pose proof (upsertGrant_gives d p role) as H1. destruct (upsertGrant d p role) as [d1 i]. simpl in *.
    exact (gives_only_trans _ [_] _ _ _ _ H1 (IH d1)).
Qed.
Lemma upsertGrants_record roles d p :
  let d' := (upsertGrants d p roles).1 in tables d' = tables d ∧ outbox d' = outbox d ∧ now d' = now d.
Proof.
  revert d; induction roles as [|role roles IH]; intros d; simpl; [done|].
  assert (tables (upsertGrant d p role).1 = tables d ∧ outbox (upsertGrant d p role).1 = outbox d ∧
          now (upsertGrant d p role).1 = now d) as H1 by (unfold upsertGrant; by destruct (head _)).
  destruct (upsertGrant d p role) as [d1 i]. simpl in *. destruct (IH d1) as (-> & -> & ->). done.
Qed.
Lemma directly_after d d' p k :
  gives_only p (write_keys p) (ledger d) (ledger d') → now d' = now d →
  (∀ g, g ∈ ledger d' → g_user g = UserID p → grant_key g ∈ write_keys p → unexpired d' g = true) →
  directly d' (UserID p) k ↔ directly d (UserID p) k ∨ k ∈ write_keys p.
Proof.
  intros (A & B & C) En Hun. unfold directly. split.
  - intros (g & Hg & Hu & Hx & <-). destruct (A g Hg) as [Hg'|[_ Hk]]; [|by right]. left. exists g. split_and!; try done.
    revert Hx. unfold unexpired. by rewrite En.
  - intros [(g & Hg & Hu & Hx & <-)|Hk].
    + destruct (B g Hg) as (g' & Hg' & Eu & Ek & Ho). exists g'. split_and!; [done|congruence| |done].
      destruct Ho as [->|[_ Hin]]; [revert Hx; unfold unexpired; by rewrite En|]. apply Hun; [done|congruence|by rewrite Ek].
    + destruct (C k Hk) as (g & Hg & Hu & <-). exists g. split_and!; auto.
Qed.
End give.

(** No unresolved row takes a role from this person. *)
Definition nothing_taken (d : Db) (u : string) : Prop :=
  ∀ o, o ∈ outbox d → user_id o = u → unresolved o = true → op_type o ≠ op_revoke ∧ op_type o ≠ op_replace.
Lemma nothing_taken_revoking d u k : nothing_taken d u → ¬ revoking d u k.
Proof.
  intros Hn Hr. unfold revoking in Hr. apply list_elem_of_fmap in Hr as ([p r] & -> & Hr).
  apply QueuedRevocations_elem in Hr as (o & Ho & Hr). apply row_revokes_elem in Hr as (Hu & Hun & _ & ks & _ & Hc).
  destruct (Hn o Ho Hu Hun). naive_solver.
Qed.
Lemma ruleDelta_ext before after after' rules :
  (∀ k, holds after k = true ↔ holds after' k = true) → ruleDelta before after rules = ruleDelta before after' rules.
Proof.
  intros E. unfold ruleDelta. rewrite (effectiveClosure_base after after' rules E).
  destruct (closureDelta _ _) as [adds revokes]. unfold derived_only.
  assert (∀ k, holds before k = holds after k ↔ holds before k = holds after' k) as He.
  { intros k. specialize (E k). by destruct (holds after k), (holds after' k), (holds before k); naive_solver. }
  by rewrite (list_filter_iff _ _ adds He), (list_filter_iff _ _ revokes He).
Qed.
(** Giving takes nothing away. *)
Lemma ruleDelta_gives before ks rules : (ruleDelta before (hold_all before ks) rules).1.1.2 = [].
Proof.
  unfold ruleDelta. destruct (closureDelta _ _) as [adds revokes] eqn:E. simpl. apply elem_of_nil_inv. intros k.
  unfold derived_only. rewrite list_elem_of_filter. intros [_ Hk].
  pose proof (closureDelta_elem before rules (hold_all before ks) rules k) as [_ Hr]. rewrite E in Hr. simpl in Hr.
  apply Hr in Hk as [H1 H2]. apply H2. revert H1. apply reaches_ext; [|eauto]. intros k' Hk'. apply holds_hold_all. by left.
Qed.
Section written.
Context `{!EnqueueEnv}.
Lemma enqueueLedger_gives d p :
  e_OpType p ≠ op_revoke →
  gives_only p (write_keys p) (ledger d) (ledger (enqueueLedger d p)) ∧
  tables (enqueueLedger d p) = tables d ∧ outbox (enqueueLedger d p) = outbox d ∧ now (enqueueLedger d p) = now d.
Proof.
  intros Hop. unfold enqueueLedger. rewrite (bool_decide_eq_false_2 _ Hop).
  pose proof (upsertGrants_gives (e_RoleKeys p) d p) as Hg. pose proof (upsertGrants_record (e_RoleKeys p) d p) as Hr.
  destruct (upsertGrants d p (e_RoleKeys p)) as [d1 i]. simpl in Hg, Hr.
  destruct Hr as (Ht & Ho & Hn). unfold closeGivenRequests. destruct (_ || _); by split_and!.
Qed.
(** What a give leaves recorded, with nothing being taken away. *)
Lemma give_base d g p own cascadeID why g' d2 i :
  nothing_taken d (UserID p) → e_OpType p = op_add →
  row (enqueueLedger d p) g p own cascadeID why = (g', inr (d2, i)) →
  (∀ gr, gr ∈ ledger d2 → g_user gr = UserID p → grant_key gr ∈ write_keys p → unexpired d2 gr = true) →
  tables d2 = tables d ∧
  ∀ k, holds (userBaseHoldings d2 (UserID p)) k = true ↔
       holds (hold_all (userBaseHoldings d (UserID p)) (write_keys p)) k = true.
Proof.
  intros Hn Hop Hr Hun. destruct (enqueueLedger_gives d p) as (Hg & Et & Eo & En); [congruence|].
  pose proof (row_same_record _ _ _ _ _ _ _ _ _ Hr) as (Et2 & El2 & En2 & _). split; [congruence|].
  assert (nothing_taken d2 (UserID p)) as Hn2.
  { intros o Ho Hu Hres. destruct (row_unresolved _ _ _ _ _ _ _ _ _ o Hr Ho Hres) as [H1| ->]; [|by rewrite Hop].
    rewrite Eo in H1. by apply Hn. }
  intros k. rewrite holds_hold_all, !base_iff. unfold given.
  rewrite (directly_after d d2 p k); [|by rewrite El2|congruence|done]. rewrite Et2, Et.
  pose proof (nothing_taken_revoking d _ k Hn). pose proof (nothing_taken_revoking d2 _ k Hn2). tauto.
Qed.
End written.

(** ** Properties *)

(** C6. Every cascade queues exactly the difference it makes, for everybody.
    When a bundle is taken back or retired, or a rule is created, changed or
    retired, the writes queued for any person, known to Syndra or not, are the
    adds and revokes between the closure they had and the closure the written
    tables give them: computed from a simulation before the write, it is what a
    read after the write says. Nobody is missed, nobody is written for twice,
    and what is recorded is the change alone. *)
Theorem cascades_queue_the_difference `{!EnqueueEnv} find_user sha256hex clock d g actor source ref g' d' ids :
  catalog_ok (catalog (tables d)) → keys_ok (catalog (tables d)) →
  cascades find_user sha256hex clock d g actor source ref g' d' ids →
  ∃ d1 d2 reason audits params,
    outbox d1 = outbox d ∧ ledger d1 = ledger d ∧
    (∀ u, filter (λ p, UserID p = u) params = writes_of actor reason source ref u (owed d d1 u)) ∧
    enqueueWrites d1 g audits params None = (g', inr (d2, ids)) ∧ converges d2 d' ∧
    standing_policy (tables d') = standing_policy (tables d1) ∧ ledger d' = ledger d.
Proof.
  intros Hok Hk Hc. apply cascades_end in Hc as (d1 & d2 & reason & audits & items & params & [Ho Hl Hw _] & E & Hs & _ & Hv); [|done..].
  exists d1, d2, reason, audits, params. destruct Hs as (Ht & El & _). destruct Hv. split_and!; try done; congruence.
Qed.

(** A cascade reaches the targets its roles are mapped to, with the state
    after the write. For every person whose difference holds a role some active
    target is mapped to, that target is queued the state the person's roles mean
    once the change is recorded, never the state before it, inside the same
    transaction. *)
Theorem cascades_converge_targets `{!EnqueueEnv} find_user sha256hex clock d g actor source ref g' d' ids :
  catalog_ok (catalog (tables d)) → keys_ok (catalog (tables d)) →
  cascades find_user sha256hex clock d g actor source ref g' d' ids →
  ∃ d1 d2, outbox d1 = outbox d ∧ standing_policy (tables d') = standing_policy (tables d1) ∧ tables d2 = tables d1 ∧
    ∀ u k t, k ∈ (owed d d1 u).1 ++ (owed d d1 u).2 → t ∈ TargetsMappedToRole d1 k.1 k.2 →
      ∃ e e' planID i, converges d2 e ∧ converges e' d' ∧
        RecordSystemConvergence sha256hex e clock
          {| sc_Target := t; sc_SubjectID := u; sc_Actor := actor; sc_Reason := "Their roles changed.";
             sc_Desired := Some (Desired (ResolveEntitlements find_user d1 u t)); sc_WithdrawsOnly := false |}
        = inr (e', planID, i).
Proof.
  intros Hok Hk Hc. apply cascades_end in Hc as (d1 & d2 & reason & audits & items & params & [Ho Hl _ Hi] & _ & Hs & Hf & Hv); [|done..].
  destruct Hs as (Et & El & En & Eg & _). exists d1, d2. split_and!; try done; [rewrite <-Et; apply Hv|]. intros u k t Hk1 Ht.
  assert (registered items actor u k) as Hr by (by apply Hi).
  destruct (flush_converges find_user sha256hex clock items d2 d' actor u k t Hf Hr) as (e & e' & p & i & ? & ? & E).
  { unfold TargetsMappedToRole, active in *. by rewrite Et, Eg. }
  exists e, e', p, i. split_and!; [done..|]. by rewrite <-(ResolveEntitlements_same find_user d1 d2) by (done || by rewrite Et).
Qed.

(** The preview is the queue. When nothing is being taken from a person and
    the grants a give records are unexpired, the writes the mapping rules add to
    that give are exactly the rows the confirmation listed beforehand: the same
    roles in the same order, each naming the same rule, and nothing taken away. *)
Theorem preview_is_queue `{!EnqueueEnv} find_user sha256hex clock d g p own cascadeID why g' d2 i :
  nothing_taken d (UserID p) → e_OpType p = op_add →
  row (enqueueLedger d p) g p own cascadeID why = (g', inr (d2, i)) →
  (∀ gr, gr ∈ ledger d2 → g_user gr = UserID p → grant_key gr ∈ write_keys p → unexpired d2 gr = true) →
  ∀ d3 rows, followRules find_user sha256hex clock d p d2 = Some (d3, rows) →
  rows = (λ f, stamp (GrantedBy p) "Mapping rule cascade" (rr_RuleID f)
                 (single_write (UserID p) "rule" "" op_add (rr_ProjectID f, rr_RoleKey f)))
         <$> RulesFollowing d (UserID p) (write_keys p).
Proof.
  intros Hn Hop Hr Hun d3 rows. destruct (give_base d g p own cascadeID why g' d2 i Hn Hop Hr Hun) as [Et Hb].
  unfold followRules, RulesFollowing. destruct (GetActiveMappingRules (catalog (tables d))) as [|r0 rs]; [by intros [= _ <-]|].
  set (rules := r0 :: rs). rewrite (ruleDelta_ext _ _ _ rules Hb).
  pose proof (ruleDelta_gives (userBaseHoldings d (UserID p)) (write_keys p) rules) as Hno.
  destruct (ruleDelta _ _ rules) as [[[adds revokes] cb] ca]. simpl in Hno. subst revokes. rewrite app_nil_r.
  destruct adds as [|k adds]; [by intros [= _ <-]|].
  destruct (triggerTargetConvergence _ _ _ _ _ _ _); [done|]. intros [= _ <-]. unfold deltaWrites. simpl.
  rewrite app_nil_r, <-!list_fmap_compose. by f_equal.
Qed.

(** A bundle is given once, at the version that was projected. A success
    that assigned it pinned the person to the latest published version, and
    queued exactly what their closure gains when that version's roles join their
    base, a role whose revocation is still queued included, since the give is
    the newer decision; nothing is revoked. A success that did not assign it
    wrote no Zitadel row: they already held it. *)
Theorem CascadeBundleAssignedToUser_spec `{!EnqueueEnv} find_user sha256hex clock d g actor user bundle g' d' ids assigned :
  bundle ≠ "" →
  CascadeBundleAssignedToUser find_user sha256hex clock d g actor user bundle = (g', inr (d', (ids, assigned))) →
  let c := catalog (tables d) in
  if assigned then
    ∃ v roles a d1 d2 after audits,
      LatestVersionRoles c bundle = Some (v, roles) ∧
      as_UserID a = user ∧ as_BundleID a = bundle ∧ as_VersionID a = v_ID v ∧
      d1 = set_catalog d (with_assignments c (assignments c ++ [a])) ∧
      (∀ k, holds after k = true ↔ given d1 user "" k ∧ (¬ revoking d user k ∨ k ∈ br_key <$> version_gives c (v_ID v))) ∧
      let delta := closureDelta (closure_of d user) (effectiveClosure after (GetActiveMappingRules c)) in
      delta.2 = [] ∧
      enqueueWrites d1 g audits (writes_of actor "Bundle membership cascade" "bundle" bundle user delta) None
        = (g', inr (d2, ids)) ∧
      converges d2 d' ∧ catalog (tables d') = catalog (tables d1)
  else
    ids = [] ∧ (∃ a, a ∈ assignments c ∧ as_UserID a = user ∧ as_BundleID a = bundle) ∧ converges d d'.
Proof.
  intros Hb. unfold CascadeBundleAssignedToUser. destruct (refuseRetired _ _); [done|].
  destruct (LatestVersionRoles _ _) as [[v roles]|] eqn:Ev; [|done]. set (c := catalog (tables d)) in *.
  set (rules := GetActiveMappingRules c). set (after := hold_all _ _).
  destruct (closureDelta _ _) as [adds revokes] eqn:Ed. cbn [deltaParams].
  intros (d2 & E & Hf)%withLockedAccess_ok. pose proof (proj2 (flush_ok _ _ _ _ _ _ Hf)) as Hv.
  unfold AssignBundleAndEnqueue in E. fold c in E.
  destruct (if actor =? WelcomeActor then ("welcome", None) else ("direct", Some actor)) as [source by_].
  destruct (existsb _ (assignments c)) eqn:Eh.
  { injection E as _ <- <- <-. split; [done|]. split; [|exact Hv]. apply existsb_elem in Eh as (a & Ha & Hab).
    apply andb_true_iff in Hab as [?%bool_decide_eq_true ?%bool_decide_eq_true]. eauto. }
  destruct (negb _); [done|]. destruct (negb _) eqn:Ex; [done|]. set (a := {| as_UserID := user |}) in E.
  destruct (cascadeWrites _ _ _ _) as [g1 [e|[d3 ids']]] eqn:Ew; [done|]. injection E as <- <- <- <-.
  apply cascadeWrites_ok in Ew. exists v, roles, a, (set_catalog d (with_assignments c (assignments c ++ [a]))), d3, after. eexists.
  unfold closure_of. fold c rules. rewrite Ed. split_and!; try done; [| |].
  - intros k. unfold after. rewrite holds_hold_all, base_iff. unfold LatestVersionRoles in Ev.
    destruct (LatestVersion c bundle) as [v'|] eqn:El; [|done]. simpl in Ev. injection Ev as <- <-.
    unfold GetRolesForVersion. apply negb_false_iff in Ex. rewrite Ex. unfold distinct_roles.
    rewrite distinct_on_keys, sorted_keys. unfold given, bundle_gives. simpl. fold c.
    setoid_rewrite elem_of_app. setoid_rewrite list_elem_of_singleton. change (version_gives (with_assignments c _)) with (version_gives c).
    split.
    + intros [[[?|(b & ? & x & ? & ? & ? & ?)] ?]|Hk].
      * tauto.
      * split; [right; exists b; split; [done|]; exists x; tauto|by left].
      * split; [|by right]. right. exists bundle. split; [done|]. exists a. tauto.
    + intros [[?|(b & ? & x & [?| ->] & ? & ? & ?)] [?|?]]; try tauto.
      left. split; [|done]. right. exists b. split; [done|]. by exists x.
  - pose proof (closureDelta_elem (userBaseHoldings d user) rules after rules) as Hd. rewrite Ed in Hd. simpl in Hd.
    apply elem_of_nil_inv. intros k Hk. destruct (proj1 (proj2 (Hd k)) Hk) as [H1 H2]. apply H2. revert H1.
    apply reaches_ext; [|eauto]. intros k' Hk'. apply holds_hold_all. by left.
  - pose proof (cascadeWrites_same_record _ _ _ _ _ _ _ Ew) as (Et & _). pose proof (cv_policy _ _ Hv) as Hp.
    injection Hp as Hc _ _ _ _. by rewrite Hc, Et.
Qed.

(** ** Ada's bundle *)
#[local] Existing Instance hex_uuids.
Definition demo_live : EnqueueEnv := live_rules (λ _, None) (λ s, s) 1000 (x_Kind ∘ x_Cancelled).
#[local] Existing Instance demo_live.
Definition nobody : string → option string := λ _, None.
Lemma demo_keys_ok : keys_ok (catalog (tables demo_entitled)).
Proof. split; apply NoDup_singleton. Qed.
Definition demo_removed : Cascaded (Db * list string) :=
  CascadeBundleRemovedFromUser nobody (λ s, s) 1000 demo_entitled None "op" "ada" "b1".
Lemma demo_entitled_catalog_ok : catalog_ok (catalog (tables demo_entitled)).
Proof. exact demo_catalog_ok. Qed.
Lemma cascades_queue_the_difference_witness :
  ∃ g' d' ids d2, demo_removed = (g', inr (d', ids)) ∧ length ids = 2 ∧ converges d2 d'.
Proof.
  destruct demo_removed as [g' [e|[d' ids]]] eqn:E; [by vm_compute in E|].
  destruct (cascades_queue_the_difference nobody (λ s, s) 1000 demo_entitled None "op" "bundle" "b1" g' d' ids)
    as (d1 & d2 & reason & audits & params & _ & _ & _ & _ & Hc & _).
  - exact demo_entitled_catalog_ok.
  - exact demo_keys_ok.
  - exact (cascade_removed nobody (λ s, s) 1000 demo_entitled None "op" "ada" "b1" g' d' ids E).
  - exists g', d', ids, d2. split_and!; [done| |done]. vm_compute in E. by injection E as <- <- <-.
Defined.
Lemma cascades_converge_targets_witness :
  ∃ g' d' ids d1, demo_removed = (g', inr (d', ids)) ∧ standing_policy (tables d') = standing_policy (tables d1).
Proof.
  destruct demo_removed as [g' [e|[d' ids]]] eqn:E; [by vm_compute in E|].
  destruct (cascades_converge_targets nobody (λ s, s) 1000 demo_entitled None "op" "bundle" "b1" g' d' ids)
    as (d1 & d2 & _ & Hp & _).
  - exact demo_entitled_catalog_ok.
  - exact demo_keys_ok.
  - exact (cascade_removed nobody (λ s, s) 1000 demo_entitled None "op" "ada" "b1" g' d' ids E).
  - exists g', d', ids, d1. by split.
Defined.

Definition demo_give : EnqueueParams :=
  {| UserID := "bob"; e_ProjectID := "p"; e_RoleKeys := ["laser"]; GrantedBy := "op"; e_Reason := ""; ExpiresAt := None;
     Source := ""; SourceRef := ""; e_OpType := op_add; ZitadelGrantID := ""; PayloadJSON := ""; NoPropagation := false;
     e_EndRule := EndSet; e_WaitReason := "" |}.
Lemma preview_is_queue_witness :
  ∃ d2 d3 rows, followRules nobody (λ s, s) 1000 demo_entitled demo_give d2 = Some (d3, rows) ∧
    (λ p, (e_ProjectID p, e_RoleKeys p)) <$> rows = [("p", ["safety"])].
Proof.
  destruct (row (enqueueLedger demo_entitled demo_give) None demo_give (Some "key") "cascade" "") as [g' [e|[d2 i]]] eqn:Er;
    [by vm_compute in Er|]. pose proof Er as E2. vm_compute in E2. injection E2 as _ E2 _.
  destruct (followRules nobody (λ s, s) 1000 demo_entitled demo_give d2) as [[d3 rows]|] eqn:Ef;
    [|rewrite <-E2 in Ef; by vm_compute in Ef].
  exists d2, d3, rows. split; [done|].
  assert (rows = _) as -> by (refine (preview_is_queue nobody (λ s, s) 1000 demo_entitled None demo_give (Some "key") "cascade" ""
    g' d2 i _ _ Er _ d3 rows Ef); [by intros o ?%elem_of_nil|done|rewrite <-E2; by intros gr ->%list_elem_of_singleton]).
  by vm_compute.
Defined.
Lemma CascadeBundleAssignedToUser_spec_witness :
  ∃ d' ids a, CascadeBundleAssignedToUser nobody (λ s, s) 1000 demo_entitled None "op" "bob" "b1" = (None, inr (d', (ids, true))) ∧
    a ∈ assignments (catalog (tables d')) ∧ as_UserID a = "bob" ∧ as_VersionID a = "v1".
Proof.
  destruct (CascadeBundleAssignedToUser nobody (λ s, s) 1000 demo_entitled None "op" "bob" "b1") as [g' [e|[d' [ids b]]]] eqn:E;
    [by vm_compute in E|]. assert (g' = None ∧ b = true) as [-> ->] by (vm_compute in E; by simplify_eq).
  destruct (CascadeBundleAssignedToUser_spec nobody (λ s, s) 1000 demo_entitled None "op" "bob" "b1" None d' ids true)
    as (v & roles & a & d1 & d2 & after & audits & Hv & Hu & Hb & Hp & -> & _ & _ & _ & _ & Hc); [done|exact E|].
  exists d', ids, a. rewrite Hc. split_and!; [done| |done|]; [apply elem_of_app; right; by apply list_elem_of_singleton|].
  rewrite Hp. vm_compute in Hv. by injection Hv as <- _.
Defined.

(** Assigning a bundle to somebody who already holds an older version of it is a
    no-op that still queues a convergence: the difference was registered before
    the conflict was known. *)
Definition demo_behind : Db :=
  let c := demo_catalog in
  set_catalog (with_tables demo_policy (with_mappings (tables demo_policy)
    [{| m_ID := uuid 7; m_Target := "nas"; m_ProjectID := "p"; m_RoleKey := "printer"; m_Field := "group"; m_Value := "print";
        m_CreatedBy := "op"; m_UpdatedBy := "op"; m_CreatedAt := 1; m_UpdatedAt := 1 |}] []))
    (with_versions c (versions c ++ [{| v_ID := "v2"; v_BundleID := "b1"; v_Version := 2; v_Note := ""; v_PublishedBy := "op" |}])
       (version_roles c ++ [("v2", ("p", "laser")); ("v2", ("p", "printer"))]) []).
Example noop_assign_still_queues :
  outbox demo_behind = [] ∧
  match CascadeBundleAssignedToUser nobody (λ s, s) 1000 demo_behind None "op" "ada" "b1" with
  | (_, inr (d', (ids, assigned))) =>
      assigned = false ∧ ids = [] ∧ (λ r, (target r, op_type r)) <$> outbox d' = [("nas", op_apply)]
  | _ => False
  end.
Proof. by vm_compute. Qed.

(** A give made while a revocation of the same role is being sent: the rules'
    targets are promised to the operator and expected of the person, and never
    queued, because the base read after the write still subtracts the role. *)
Definition demo_revoking : Db :=
  with_outbox (set_catalog demo_policy (with_assignments demo_catalog []))
    [{| id := uuid 8; target := "zitadel"; op_type := op_revoke; user_id := "bob"; project_id := Some "p";
        role_keys := Some ["laser"]; source := "direct"; source_ref := None; cascade_id := None; zitadel_grant_id := None;
        payload_json := "{}"; idempotency_key := uuid 9; initiated_by := "op"; reason := None; withdraws_only := false;
        intent_seq := 1; created_at := 1; plan_subject_id := None; snapshot := None;
        progress := set_status in_flight (fresh_progress None) |}] [].
Theorem given_during_revoke_loses_rules :
  rr_RoleKey <$> RulesFollowing demo_revoking "bob" (write_keys demo_give) = ["safety"] ∧
  match EnqueueDirectGrantPropagation demo_revoking None demo_give with
  | (_, inr (d', _)) =>
      UserExpectsRole d' "bob" "p" "safety" = true ∧
      (λ r, (op_type r, role_keys r)) <$> outbox d' = [(op_revoke, Some ["laser"]); (op_add, Some ["laser"])]
  | _ => False
  end.
Proof. by vm_compute. Qed.
