(* ===== verification/Bundles.v ===== *)
(** * Bundles: working copies, versions and the people pinned to them

    backend/internal/db/bundles.go, bundle_versions.go and bundle_includes.go. A
    bundle has a working copy (its roles and the bundles it includes), published
    versions that freeze it, and holders each pinned to a version. What decides
    access is the version a person is pinned to; a working copy reaches nobody.
    Lists a statement orders by name are ordered by the name's bytes, where
    Postgres uses its collation; only the order of the names reported depends on
    it. *)

From S2P Require Import Prelude Tables Extcall Outbox Lifecycle Plans Policy Holdings Entitlement Enqueue Access Cascade.

(** ** Reads *)
Definition GetAllBundles (c : Catalog) : list Bundle :=
  stable_sort (cmp_on (λ b, - b_CreatedAt b)%Z Z.compare) (filter (λ b, b_RetiredAt b = None) (bundles c)).
Definition GetRetiredBundles (c : Catalog) : list Bundle :=
  stable_sort (cmp_on (λ b, - default 0 (b_RetiredAt b))%Z Z.compare) (filter (λ b, b_RetiredAt b ≠ None) (bundles c)).
(** [MAX(version)] of a bundle, 0 when it has none. *)
Definition latest_number (c : Catalog) (bundle : string) : Z :=
  foldr Z.max 0%Z (v_Version <$> filter (λ v, v_BundleID v = bundle) (versions c)).
Definition ListBundleVersions (c : Catalog) (bundle : string) : list (BundleVersion * nat) :=
  (λ v, (v, length (filter (λ a, as_VersionID a = v_ID v) (assignments c)))) <$>
  stable_sort (cmp_on (λ v, - v_Version v)%Z Z.compare) (filter (λ v, v_BundleID v = bundle) (versions c)).
(** A holder with the version they are pinned to. *)
Record BundleHolder := {
  h_UserID : string; h_VersionID : string; h_Version : Z;
  h_AssignedBy : option string; h_Source : string; h_MovedFrom : option Z;
}.
Definition holder_order : BundleHolder → BundleHolder → comparison :=
  cmp_then (cmp_on (λ h, - h_Version h)%Z Z.compare) (cmp_on h_UserID String.compare).
Definition GetBundleHoldersByVersion (c : Catalog) (bundle : string) : list BundleHolder :=
  stable_sort holder_order
    (filter (λ a, as_BundleID a = bundle) (assignments c) ≫= λ a,
       (λ v, {| h_UserID := as_UserID a; h_VersionID := v_ID v; h_Version := v_Version v;
                h_AssignedBy := as_AssignedBy a; h_Source := as_Source a; h_MovedFrom := as_MovedFrom a |})
         <$> filter (λ v, v_ID v = as_VersionID a) (versions c)).
Definition GetUserBundleVersions (c : Catalog) (user : string) : gmap string (BundleVersion * Z) :=
  foldl (λ m v, <[v_BundleID v := (v, latest_number c (v_BundleID v))]> m) ∅
    (filter (λ a, as_UserID a = user) (assignments c) ≫= λ a, filter (λ v, v_ID v = as_VersionID a) (versions c)).
Definition count_by (m : gmap string nat) (k : string) : gmap string nat := <[k := S (default 0 (m !! k))]> m.
Definition GetStaleHolderCounts (c : Catalog) : gmap string nat :=
  foldl count_by ∅ (assignments c ≫= λ a,
    (λ _, as_BundleID a) <$> filter (λ v, v_ID v = as_VersionID a ∧ (v_Version v < latest_number c (as_BundleID a))%Z) (versions c)).
Definition GetBundleHolderCounts (c : Catalog) : gmap string nat :=
  foldl count_by ∅ (fst <$> remove_dups ((λ a, (as_BundleID a, as_UserID a)) <$> assignments c)).
Definition GetBundleRoleCounts (c : Catalog) : gmap string nat :=
  foldl count_by ∅ (fst <$> remove_dups
    (filter (λ v, v_Version v = latest_number c (v_BundleID v)) (versions c) ≫= λ v,
       (λ r, (v_BundleID v, br_key r)) <$> version_gives c (v_ID v))).
(** Every (person, role) an assignment explains, for the drift sweep. *)
Definition derived_order : string * Role → string * Role → comparison :=
  cmp_then (cmp_on fst String.compare) (cmp_on snd role_compare).
Definition GetAllBundleDerivedGrants (c : Catalog) : list (string * Role) :=
  stable_sort derived_order (remove_dups (assignments c ≫= λ a, (λ r, (as_UserID a, br_key r)) <$> version_gives c (as_VersionID a))).

(** ** Includes *)

(** An include with the name and numbers the statement joins. *)
Record Include := {
  ic_ChildBundleID : string; ic_ChildName : string; ic_ChildVersionID : string; ic_ChildVersion : Z; ic_ChildLatest : Z;
}.
Definition join_include (c : Catalog) (i : BundleInclude) : list Include :=
  filter (λ b, b_ID b = in_ChildBundleID i) (bundles c) ≫= λ b,
    (λ v, {| ic_ChildBundleID := in_ChildBundleID i; ic_ChildName := b_Name b; ic_ChildVersionID := in_ChildVersionID i;
             ic_ChildVersion := v_Version v; ic_ChildLatest := latest_number c (in_ChildBundleID i) |})
      <$> filter (λ v, v_ID v = in_ChildVersionID i) (versions c).
Definition list_includes (c : Catalog) (owner : string) (l : list BundleInclude) : list Include :=
  stable_sort (cmp_on ic_ChildName String.compare) (filter (λ i, in_Owner i = owner) l ≫= join_include c).
Definition GetWorkingIncludes (c : Catalog) (bundle : string) : list Include := list_includes c bundle (includes c).
Definition GetVersionIncludes (c : Catalog) (version : string) : list Include := list_includes c version (version_includes c).
Definition BundleIncludesAnything (c : Catalog) (bundle : string) : bool :=
  existsb (λ i, in_Owner i =? bundle) (includes c)
  || existsb (λ i, existsb (λ v, (v_ID v =? in_Owner i) && (v_BundleID v =? bundle) && counts c v) (versions c)) (version_includes c).
Record Includer := {
  ir_BundleID : string; ir_Name : string; ir_IncludedVersion : Z; ir_DraftVersion : Z; ir_People : nat;
}.
Definition version_number (c : Catalog) (version : string) : Z :=
  from_option v_Version 0%Z (head (filter (λ v, v_ID v = version) (versions c))).
Definition latest_include (c : Catalog) (parent child : string) : Z :=
  match LatestVersion c parent with
  | None => 0
  | Some l =>
      from_option (λ i, version_number c (in_ChildVersionID i)) 0%Z
        (head (filter (λ i, in_Owner i = v_ID l ∧ in_ChildBundleID i = child) (version_includes c)))
  end.
Definition working_include_version (c : Catalog) (parent child : string) : Z :=
  from_option (λ i, version_number c (in_ChildVersionID i)) 0%Z
    (head (filter (λ i, in_Owner i = parent ∧ in_ChildBundleID i = child) (includes c))).
Definition ever_included (c : Catalog) (parent child : string) : bool :=
  working_include c parent child
  || existsb (λ i, (in_ChildBundleID i =? child) && existsb (λ v, (v_ID v =? in_Owner i) && (v_BundleID v =? parent)) (versions c))
       (version_includes c).
Definition ListIncluders (c : Catalog) (child : string) : list Includer :=
  (λ b, let included := latest_include c (b_ID b) child in
        let draft := working_include_version c (b_ID b) child in
        {| ir_BundleID := b_ID b; ir_Name := b_Name b; ir_IncludedVersion := included;
           ir_DraftVersion := if (draft =? included)%Z then 0 else draft;
           ir_People := length (filter (λ a, as_BundleID a = b_ID b ∧
             existsb (λ i, (in_Owner i =? as_VersionID a) && (in_ChildBundleID i =? child)) (version_includes c) = true)
             (assignments c)) |})
  <$> stable_sort (cmp_on b_Name String.compare)
        (filter (λ b, b_RetiredAt b = None ∧ ever_included c (b_ID b) child = true) (bundles c)).

(** ** Creating and renaming *)
Definition InitialVersionNote (roles : nat) : string :=
  match roles with
  | 0 => "Created empty."
  | 1 => "Created with 1 role."
  | _ => "Created with " +:+ Itoa roles +:+ " roles."
  end.
(** [INSERT ... ON CONFLICT DO NOTHING] of one key. *)
Definition insert_new {A} `{EqDecision A} (l : list A) (x : A) : list A := if bool_decide (x ∈ l) then l else l ++ [x].
Definition name_taken (c : Catalog) (i name : string) : bool :=
  existsb (λ b, (b_ID b <>? i) && bool_decide (b_RetiredAt b = None) && (b_Name b =? name)) (bundles c).
Section bundles.
Context `{!EnqueueEnv}.
Definition CreateBundle (d : Db) (name description : string) (roles : list Role) : CascadeError + (Db * string) :=
  let '(d, i) := mint d in
  let '(d, v) := mint d in
  let c := catalog (tables d) in
  if name_taken c i name then inl (Violates "bundles_name_key")
  else if negb (forallb (λ k : Role, not_blank k.1 && not_blank k.2) roles) then inl (Violates "ck_bundle_roles_not_blank")
  else
    let b := {| b_ID := i; b_Name := name; b_Description := description; b_IsWelcome := false; b_CreatedAt := now d;
                b_RetiredAt := None; b_RetiredBy := None |} in
    let ver := {| v_ID := v; v_BundleID := i; v_Version := 1; v_Note := InitialVersionNote (length roles);
                  v_PublishedBy := "system" |} in
    let c := with_bundles c (bundles c ++ [b]) in
    let c := with_working c (foldl insert_new (bundle_roles c) ((i,.) <$> roles)) (includes c) in
    let c := with_versions c (versions c ++ [ver]) (foldl insert_new (version_roles c) ((v,.) <$> roles)) (version_includes c) in
    inr (set_catalog d c, i).
Definition UpdateBundle (d : Db) (i name description : string) : CascadeError + Db :=
  let c := catalog (tables d) in
  if negb (existsb (live_bundle i) (bundles c)) then inl NoRows
  else if name_taken c i name then inl (Violates "bundles_name_key")
  else inr (set_catalog d (with_bundles c ((λ b, if live_bundle i b then
         {| b_ID := b_ID b; b_Name := name; b_Description := description; b_IsWelcome := b_IsWelcome b;
            b_CreatedAt := b_CreatedAt b; b_RetiredAt := b_RetiredAt b; b_RetiredBy := b_RetiredBy b |} else b) <$> bundles c))).

(** ** Publishing, and moving people between versions *)
Definition repin (c : Catalog) (version bundle : string) (users : list string) (actor : string) (a : Assignment) : Assignment :=
  if (as_BundleID a =? bundle) && bool_decide (as_UserID a ∈ users) && (as_VersionID a <>? version) then
    match head (filter (λ v, v_ID v = as_VersionID a) (versions c)) with
    | Some old => {| as_UserID := as_UserID a; as_BundleID := as_BundleID a; as_VersionID := version; as_Source := "moved";
                     as_AssignedBy := Some actor; as_MovedFrom := Some (v_Version old) |}
    | None => a
    end
  else a.
Definition repinHolders (c : Catalog) (version bundle : string) (users : list string) (actor : string) : Catalog :=
  with_assignments c (repin c version bundle users actor <$> assignments c).
Definition PublishVersionAndEnqueue (d : Db) (g : option CancelGate) (actor bundle note : string) (roles : list Role)
    (moved : list string) (params : list EnqueueParams) : Cascaded (Db * (BundleVersion * list string)) :=
  let '(d, i) := mint d in
  let c := catalog (tables d) in
  if negb (bool_decide (is_Some (GetBundleByID c bundle))) then (g, inl (Violates "bundle_id"))
  else
    let v := {| v_ID := i; v_BundleID := bundle; v_Version := latest_number c bundle + 1; v_Note := note;
                v_PublishedBy := actor |} in
    let c := with_versions c (versions c ++ [v]) (foldl insert_new (version_roles c) ((i,.) <$> roles)) (version_includes c) in
    let c := match moved with [] => c | _ => repinHolders c i bundle moved actor end in
    match cascadeWrites (set_catalog d c) g
            [audit actor "" "bundle.version_published" (bundle +:+ "@v" +:+ pretty (v_Version v)) ""] params with
    | (g, inl e) => (g, inl e)
    | (g, inr (d, ids)) => (g, inr (d, (v, ids)))
    end.
Definition MoveHoldersAndEnqueue (d : Db) (g : option CancelGate) (actor bundle version : string) (users : list string)
    (params : list EnqueueParams) : Cascaded (Db * list string) :=
  let c := catalog (tables d) in
  if negb (VersionBelongsTo c bundle version) then (g, inl NotItsVersion)
  else cascadeWrites (set_catalog d (repinHolders c version bundle users actor)) g
         ((λ u, audit actor u "bundle.holder_moved" version "") <$> users) params.
(** The working copy, reset to the latest version. *)
Definition DiscardBundleDraft (d : Db) (g : option CancelGate) (actor bundle : string) : Cascaded (Db * list string) :=
  let c := catalog (tables d) in
  match LatestVersion c bundle with
  | None => (g, inl NoRows)
  | Some latest =>
      let roles := (λ x : string * Role, (bundle, x.2)) <$> filter (λ x, x.1 = v_ID latest) (version_roles c) in
      let ins := (λ i, {| in_Owner := bundle; in_ChildBundleID := in_ChildBundleID i; in_ChildVersionID := in_ChildVersionID i |})
                 <$> filter (λ i, in_Owner i = v_ID latest) (version_includes c) in
      cascadeWrites
        (set_catalog d (with_working c (filter (λ x, x.1 ≠ bundle) (bundle_roles c) ++ roles)
                                       (filter (λ i, in_Owner i ≠ bundle) (includes c) ++ ins)))
        g [audit actor bundle "bundle.draft_discarded" (v_ID latest) ""] []
  end.

(** ** Includes, one level deep *)
Definition bundleName (c : Catalog) (i : string) : option string := b_Name <$> head (filter (λ b, live_bundle i b = true) (bundles c)).
Definition pinned_version (c : Catalog) (child : string) (number : Z) : option BundleVersion :=
  if (number <=? 0)%Z then LatestVersion c child
  else head (filter (λ v, v_BundleID v = child ∧ v_Version v = number) (versions c)).
(** [INSERT ... ON CONFLICT (owner, child) DO UPDATE SET child_version_id] *)
Definition upsert_include (l : list BundleInclude) (i : BundleInclude) : list BundleInclude :=
  let same j := (in_Owner j =? in_Owner i) && (in_ChildBundleID j =? in_ChildBundleID i) in
  if existsb same l then (λ j, if same j then i else j) <$> l else l ++ [i].
Definition no_include : Include :=
  {| ic_ChildBundleID := ""; ic_ChildName := ""; ic_ChildVersionID := ""; ic_ChildVersion := 0; ic_ChildLatest := 0 |}.
Definition SetWorkingInclude (d : Db) (g : option CancelGate) (actor parent child : string) (childVersion : Z)
    : Cascaded (Db * Include) :=
  let c := catalog (tables d) in
  if parent =? child then (g, inl ErrIncludeSelf)
  else match bundleName c parent, bundleName c child with
  | None, _ | Some _, None => (g, inl NoRows)
  | Some parentName, Some childName =>
      if BundleIncludesAnything c child then (g, inl (NestingError childName true ""))
      else
        let parentIncluder := default "" (head (includerOf c parent)) in
        if parentIncluder <>? "" then (g, inl (NestingError parentName false parentIncluder))
        else match pinned_version c child childVersion with
        | None => (g, inl NoRows)
        | Some v =>
            let i := {| in_Owner := parent; in_ChildBundleID := child; in_ChildVersionID := v_ID v |} in
            match cascadeWrites (set_catalog d (with_working c (bundle_roles c) (upsert_include (includes c) i))) g
                    [audit actor parent "bundle.include_set" child ""] [] with
            | (g, inl e) => (g, inl e)
            | (g, inr (d, _)) =>
                (g, inr (d, default no_include
                   (head (filter (λ x, ic_ChildBundleID x = child) (GetWorkingIncludes (catalog (tables d)) parent)))))
            end
        end
  end.
Fixpoint SnapshotVersionIncludes (d : Db) (version : string) (ins : list Include) : CascadeError + Db :=
  match ins with
  | [] => inr d
  | x :: ins =>
      let c := catalog (tables d) in
      if existsb (λ j, (in_Owner j =? version) && (in_ChildBundleID j =? ic_ChildBundleID x)) (version_includes c)
      then inl (Violates "bundle_version_includes_pkey")
      else if negb (existsb (λ v, v_ID v =? version) (versions c)) then inl (Violates "version_id")
      else if negb (bool_decide (is_Some (GetBundleByID c (ic_ChildBundleID x)))) then inl (Violates "child_bundle_id")
      else if negb (existsb (λ v, v_ID v =? ic_ChildVersionID x) (versions c)) then inl (Violates "child_version_id")
      else SnapshotVersionIncludes
             (set_catalog d (with_versions c (versions c) (version_roles c)
                (version_includes c ++ [{| in_Owner := version; in_ChildBundleID := ic_ChildBundleID x;
                                           in_ChildVersionID := ic_ChildVersionID x |}]))) version ins
  end.
(** In a bundle being created: in its working copy and in its v1. *)
Definition IncludeInFirstVersion (d : Db) (g : option CancelGate) (actor bundle child : string) : Cascaded Db :=
  match SetWorkingInclude d g actor bundle child 0 with
  | (g, inl e) => (g, inl e)
  | (g, inr (d, x)) =>
      match head (filter (λ v, v_BundleID v = bundle ∧ v_Version v = 1%Z) (versions (catalog (tables d)))) with
      | None => (g, inr d)
      | Some v =>
          match SnapshotVersionIncludes d (v_ID v)
                  [{| ic_ChildBundleID := child; ic_ChildName := ic_ChildName x; ic_ChildVersionID := ic_ChildVersionID x;
                      ic_ChildVersion := ic_ChildVersion x; ic_ChildLatest := ic_ChildLatest x |}] with
          | inl e => (g, inl e)
          | inr d => (g, inr d)
          end
      end
  end.
Definition RemoveWorkingInclude (d : Db) (g : option CancelGate) (actor parent child : string) : Cascaded (Db * bool) :=
  let c := catalog (tables d) in
  let same i := (in_Owner i =? parent) && (in_ChildBundleID i =? child) in
  if negb (existsb same (includes c)) then (g, inr (d, false))
  else
    match cascadeWrites (set_catalog d (with_working c (bundle_roles c) (filter (λ i, same i = false) (includes c)))) g
            [audit actor parent "bundle.include_removed" child ""] [] with
    | (g, inl e) => (g, inl e)
    | (g, inr (d, _)) => (g, inr (d, true))
    end.
End bundles.

(** ** What the catalog always satisfies *)
Record catalog_wf `{!Uuids} (c : Catalog) (n : nat) : Prop := {
  cw_bundles : NoDup (b_ID <$> bundles c);
  cw_bundle_fresh b : b ∈ bundles c → ∃ m, m < n ∧ b_ID b = uuid m;
  cw_names : NoDup (b_Name <$> filter (λ b, b_RetiredAt b = None) (bundles c));
  cw_published b : b ∈ bundles c → ∃ v, v ∈ versions c ∧ v_BundleID v = b_ID b;
  cw_versions : NoDup (v_ID <$> versions c);
  cw_version_fresh v : v ∈ versions c → ∃ m, m < n ∧ v_ID v = uuid m;
  cw_numbers : NoDup ((λ v, (v_BundleID v, v_Version v)) <$> versions c);
  cw_version_of v : v ∈ versions c → (1 ≤ v_Version v)%Z ∧ v_BundleID v ∈ b_ID <$> bundles c;
  cw_role_owner x : x ∈ version_roles c → x.1 ∈ v_ID <$> versions c;
  cw_include_owner i : i ∈ version_includes c → in_Owner i ∈ v_ID <$> versions c ∧ in_ChildVersionID i ∈ v_ID <$> versions c;
  cw_working_include i : i ∈ includes c → in_ChildVersionID i ∈ v_ID <$> versions c;
  cw_holders : NoDup ((λ a, (as_UserID a, as_BundleID a)) <$> assignments c);
  cw_pinned a : a ∈ assignments c →
    (∃ b, b ∈ bundles c ∧ b_ID b = as_BundleID a ∧ b_RetiredAt b = None) ∧
    ∃ v, v ∈ versions c ∧ v_ID v = as_VersionID a ∧ v_BundleID v = as_BundleID a;
  cw_rules : NoDup ((RuleID ∘ rule) <$> rules c);
  cw_rule_fresh r : r ∈ rules c → ∃ m, m < n ∧ RuleID (rule r) = uuid m;
}.

Section wf.
Context `{!Uuids}.
Implicit Types (c : Catalog) (n : nat).

Lemma catalog_wf_later c n n' : n ≤ n' → catalog_wf c n → catalog_wf c n'.
Proof.
  intros Hn []. split; try done; intros x Hx.
  - destruct (cw_bundle_fresh0 x Hx) as (m & ? & ?). exists m. split; [lia|done].
  - destruct (cw_version_fresh0 x Hx) as (m & ? & ?). exists m. split; [lia|done].
  - destruct (cw_rule_fresh0 x Hx) as (m & ? & ?). exists m. split; [lia|done].
Qed.
Lemma catalog_wf_empty : catalog_wf empty_catalog 0.
Proof. split; simpl; try apply NoDup_nil_2; by intros ? ?%elem_of_nil. Qed.
Lemma catalog_wf_working c n roles ins :
  catalog_wf c n → (∀ i, i ∈ ins → in_ChildVersionID i ∈ v_ID <$> versions c) → catalog_wf (with_working c roles ins) n.
Proof. by intros [] ?. Qed.
Lemma catalog_wf_version_includes c n i :
  catalog_wf c n → in_Owner i ∈ v_ID <$> versions c → in_ChildVersionID i ∈ v_ID <$> versions c →
  catalog_wf (with_versions c (versions c) (version_roles c) (version_includes c ++ [i])) n.
Proof. intros [] Hi Hc. split; simpl; try done. intros x. rewrite elem_of_app, list_elem_of_singleton. intros [?| ->]; auto. Qed.
Lemma insert_new_elem {A} `{EqDecision A} (l new : list A) x : x ∈ foldl insert_new l new ↔ x ∈ l ∨ x ∈ new.
Proof.
  revert l; induction new as [|y new IH]; intros l; simpl; [rewrite elem_of_nil; tauto|]. rewrite IH, elem_of_cons.
  unfold insert_new. case_bool_decide; [|rewrite elem_of_app, list_elem_of_singleton]; naive_solver.
Qed.

Lemma fresh_id {A} (key : A → string) (l : list A) n :
  (∀ x, x ∈ l → ∃ m, m < n ∧ key x = uuid m) → uuid n ∉ key <$> l.
Proof. intros Hf (x & E & Hx)%list_elem_of_fmap. destruct (Hf x Hx) as (m & Hm & Em). rewrite Em in E. apply uuid_inj in E. lia. Qed.
Lemma catalog_wf_create c n b v roles1 (roles2 : list Role) :
  catalog_wf c n → b_ID b = uuid n → v_ID v = uuid (S n) → v_BundleID v = uuid n → v_Version v = 1%Z →
  b_RetiredAt b = None → b_Name b ∉ b_Name <$> filter (λ b, b_RetiredAt b = None) (bundles c) →
  catalog_wf (with_versions (with_working (with_bundles c (bundles c ++ [b])) roles1 (includes c)) (versions c ++ [v])
                (foldl insert_new (version_roles c) ((v_ID v,.) <$> roles2)) (version_includes c)) (S (S n)).
Proof.
  intros [] Eb Ev Evb Enum Hr Hname. split; simpl; try done.
  - apply NoDup_fmap_snoc; [done|]. rewrite Eb. by apply fresh_id.
  - intros x. rewrite elem_of_app, list_elem_of_singleton. intros [Hx| ->]; [|exists n; split; [lia|done]].
    destruct (cw_bundle_fresh0 x Hx) as (m & ? & ?). exists m. split; [lia|done].
  - rewrite filter_app, filter_cons_True, filter_nil by done. by apply NoDup_fmap_snoc.
  - intros x. setoid_rewrite elem_of_app. setoid_rewrite list_elem_of_singleton. intros [Hx| ->].
    + destruct (cw_published0 x Hx) as (w & ? & ?). eauto.
    + exists v. split; [by right|congruence].
  - apply NoDup_fmap_snoc; [done|]. rewrite Ev. intros (x & E & Hx)%list_elem_of_fmap.
    destruct (cw_version_fresh0 x Hx) as (m & Hm & Em). rewrite Em in E. apply uuid_inj in E. lia.
  - intros x. rewrite elem_of_app, list_elem_of_singleton. intros [Hx| ->]; [|exists (S n); split; [lia|done]].
    destruct (cw_version_fresh0 x Hx) as (m & ? & ?). exists m. split; [lia|done].
  - apply NoDup_fmap_snoc; [done|]. rewrite Evb. intros (x & [= E _] & Hx)%list_elem_of_fmap.
    destruct (cw_version_of0 x Hx) as [_ Hb]. rewrite <-E in Hb. by apply (fresh_id b_ID (bundles c) n).
  - intros x. rewrite elem_of_app, list_elem_of_singleton, fmap_app, elem_of_app. intros [Hx| ->].
    + destruct (cw_version_of0 x Hx). auto.
    + rewrite Enum, Evb, <-Eb. split; [done|]. right. by left.
  - intros x. rewrite insert_new_elem, fmap_app, elem_of_app. intros [?|(k & -> & _)%list_elem_of_fmap]; [auto|]. right. by left.
  - intros i Hi. rewrite fmap_app, !elem_of_app. destruct (cw_include_owner0 i Hi). auto.
  - intros i Hi. rewrite fmap_app, elem_of_app. auto.
  - intros a Ha. destruct (cw_pinned0 a Ha) as [(x & ? & ?) (w & ? & ?)]. split; [exists x|exists w]; rewrite elem_of_app; auto.
  - intros r Hx. destruct (cw_rule_fresh0 r Hx) as (m & ? & ?). exists m. split; [lia|done].
Qed.
(** Renaming and retiring keep ids; who is left is on a live bundle. *)
Lemma catalog_wf_rewrite c n (h : Bundle → Bundle) (keep : Assignment → Prop) `{∀ a, Decision (keep a)} :
  catalog_wf c n → (∀ b, b_ID (h b) = b_ID b) →
  NoDup (b_Name <$> filter (λ b, b_RetiredAt b = None) (h <$> bundles c)) →
  (∀ a b, a ∈ assignments c → keep a → b ∈ bundles c → b_ID b = as_BundleID a → b_RetiredAt b = None → b_RetiredAt (h b) = None) →
  catalog_wf (with_assignments (with_bundles c (h <$> bundles c)) (filter keep (assignments c))) n.
Proof.
  intros [] Hid Hnames Hlive. split; simpl; try done.
  - by apply NoDup_fmap_same.
  - intros x (b & -> & Hb)%list_elem_of_fmap. rewrite Hid. by apply cw_bundle_fresh0.
  - intros x (b & -> & Hb)%list_elem_of_fmap. rewrite Hid. by apply cw_published0.
  - intros v Hv. destruct (cw_version_of0 v Hv) as [? Hb]. split; [done|].
    rewrite <-list_fmap_compose, (list_fmap_ext (b_ID ∘ h) b_ID) by (intros; apply Hid). done.
  - by apply NoDup_fmap_filter.
  - intros a [Hk Ha]%list_elem_of_filter. destruct (cw_pinned0 a Ha) as [(b & Hb & Eb & Er) Hv]. split; [|done].
    exists (h b). split; [by apply list_elem_of_fmap_2|]. rewrite Hid. split; [done|]. by eapply Hlive.
Qed.
Lemma catalog_wf_assign c n a :
  catalog_wf c n → (as_UserID a, as_BundleID a) ∉ (λ a, (as_UserID a, as_BundleID a)) <$> assignments c →
  (∃ b, b ∈ bundles c ∧ b_ID b = as_BundleID a ∧ b_RetiredAt b = None) →
  (∃ v, v ∈ versions c ∧ v_ID v = as_VersionID a ∧ v_BundleID v = as_BundleID a) →
  catalog_wf (with_assignments c (assignments c ++ [a])) n.
Proof.
  intros [] Hnew Hb Hv. split; simpl; try done.
  - by apply NoDup_fmap_snoc.
  - intros x. rewrite elem_of_app, list_elem_of_singleton. intros [?| ->]; auto.
Qed.
Lemma catalog_wf_filter c n (keep : Assignment → Prop) `{∀ a, Decision (keep a)} :
  catalog_wf c n → catalog_wf (with_assignments c (filter keep (assignments c))) n.
Proof.
  intros []. split; simpl; try done; [by apply NoDup_fmap_filter|]. intros a [_ Ha]%list_elem_of_filter. auto.
Qed.
Lemma catalog_wf_repin c n version bundle users actor :
  catalog_wf c n → (∃ v, v ∈ versions c ∧ v_ID v = version ∧ v_BundleID v = bundle) →
  catalog_wf (repinHolders c version bundle users actor) n.
Proof.
  intros [] Hv. assert (∀ a, as_UserID (repin c version bundle users actor a) = as_UserID a ∧
                             as_BundleID (repin c version bundle users actor a) = as_BundleID a) as Hid.
  { intros a. unfold repin. destruct (_ && _ && _); [|done]. by destruct (head _). }
  split; simpl; try done.
  - apply NoDup_fmap_same; [|done]. intros a. by destruct (Hid a) as [-> ->].
  - intros x (a & -> & Ha)%list_elem_of_fmap. destruct (cw_pinned0 a Ha) as [Hb Hp]. destruct (Hid a) as [_ ->].
    split; [done|]. unfold repin. destruct ((as_BundleID a =? bundle) && bool_decide (as_UserID a ∈ users) && (as_VersionID a <>? version)) eqn:E;
      [|done]. destruct (head _); [|done]. simpl. rewrite !andb_true_iff, bool_decide_eq_true in E. destruct E as [[-> _] _]. done.
Qed.
Lemma latest_number_ge c v : v ∈ versions c → (v_Version v ≤ latest_number c (v_BundleID v))%Z.
Proof.
  intros Hv. unfold latest_number. assert (v ∈ filter (λ w, v_BundleID w = v_BundleID v) (versions c)) as Hin by (by apply list_elem_of_filter).
  induction (filter _ _) as [|x l IH]; [by apply elem_of_nil in Hin|]. csimpl.
  apply elem_of_cons in Hin as [->|Hin]; [lia|]. specialize (IH Hin). lia.
Qed.
Lemma latest_number_nonneg c b : (0 ≤ latest_number c b)%Z.
Proof. unfold latest_number. induction (filter _ _); csimpl; lia. Qed.
Lemma catalog_wf_publish c n v (roles : list Role) :
  catalog_wf c n → v_ID v = uuid n → v_Version v = (latest_number c (v_BundleID v) + 1)%Z → v_BundleID v ∈ b_ID <$> bundles c →
  catalog_wf (with_versions c (versions c ++ [v]) (foldl insert_new (version_roles c) ((v_ID v,.) <$> roles)) (version_includes c)) (S n).
Proof.
  intros Hwf Ev En Hb. pose proof (catalog_wf_later c n (S n) ltac:(lia) Hwf) as []. destruct Hwf. split; simpl; try done.
  - intros b Hin. destruct (cw_published0 b Hin) as (w & ? & ?). exists w. rewrite elem_of_app. auto.
  - apply NoDup_fmap_snoc; [done|]. rewrite Ev. by apply fresh_id.
  - intros x. rewrite elem_of_app, list_elem_of_singleton. intros [Hx| ->]; [auto|]. exists n. split; [lia|done].
  - apply NoDup_fmap_snoc; [done|]. intros (x & [= E1 E2] & Hx)%list_elem_of_fmap.
    pose proof (latest_number_ge c x Hx) as Hle. rewrite <-E1 in Hle. lia.
  - intros x. rewrite elem_of_app, list_elem_of_singleton. intros [Hx| ->]; [auto|]. split; [|done].
    pose proof (latest_number_nonneg c (v_BundleID v)). lia.
  - intros x. rewrite insert_new_elem, fmap_app, elem_of_app. intros [?|(k & -> & _)%list_elem_of_fmap]; [auto|]. right. by left.
  - intros i Hi. rewrite fmap_app, !elem_of_app. destruct (cw_include_owner0 i Hi). auto.
  - intros i Hi. rewrite fmap_app, elem_of_app. auto.
  - intros a Ha. destruct (cw_pinned0 a Ha) as [Hlive (w & ? & ?)]. split; [done|]. exists w. rewrite elem_of_app. auto.
Qed.
Lemma catalog_wf_rules c n rs :
  catalog_wf c n → NoDup ((RuleID ∘ rule) <$> rs) → (∀ r, r ∈ rs → ∃ m, m < n ∧ RuleID (rule r) = uuid m) →
  catalog_wf (with_rules c rs) n.
Proof. by intros [] ? ?. Qed.
End wf.

(** ** Facts: every operation keeps it *)
Definition catalog_inv `{!Uuids} (d : Db) : Prop := catalog_wf (catalog (tables d)) (next_uuid d).
Section steps.
Context `{!EnqueueEnv} (find_user : string → option string) (sha256hex : string → string) (clock : Z).

Inductive catalog_step (d d' : Db) : Prop :=
  | cs_create name description roles i : CreateBundle d name description roles = inr (d', i) → catalog_step d d'
  | cs_update i name description : UpdateBundle d i name description = inr d' → catalog_step d d'
  | cs_edit g actor bundle project role add g' ids :
      EditBundleWorkingCopy d g actor bundle project role add = (g', inr (d', ids)) → catalog_step d d'
  | cs_include g actor parent child v g' x :
      SetWorkingInclude d g actor parent child v = (g', inr (d', x)) → catalog_step d d'
  | cs_include_first g actor bundle child g' : IncludeInFirstVersion d g actor bundle child = (g', inr d') → catalog_step d d'
  | cs_uninclude g actor parent child g' b : RemoveWorkingInclude d g actor parent child = (g', inr (d', b)) → catalog_step d d'
  | cs_discard g actor bundle g' ids : DiscardBundleDraft d g actor bundle = (g', inr (d', ids)) → catalog_step d d'
  | cs_publish g actor bundle note roles moved params g' x :
      PublishVersionAndEnqueue d g actor bundle note roles moved params = (g', inr (d', x)) → catalog_step d d'
  | cs_snapshot version ins : SnapshotVersionIncludes d version ins = inr d' → catalog_step d d'
  | cs_move g actor bundle version users params g' ids :
      MoveHoldersAndEnqueue d g actor bundle version users params = (g', inr (d', ids)) → catalog_step d d'
  | cs_assign g actor user bundle g' x :
      CascadeBundleAssignedToUser find_user sha256hex clock d g actor user bundle = (g', inr (d', x)) → catalog_step d d'
  | cs_remove g actor user bundle g' ids :
      CascadeBundleRemovedFromUser find_user sha256hex clock d g actor user bundle = (g', inr (d', ids)) → catalog_step d d'
  | cs_retire g actor bundle g' ids :
      CascadeBundleRetired find_user sha256hex clock d g actor bundle = (g', inr (d', ids)) → catalog_step d d'
  | cs_rule_create g actor sp sr tp tr g' x :
      CascadeRuleCreated find_user sha256hex clock d g actor sp sr tp tr = (g', inr (d', x)) → catalog_step d d'
  | cs_rule_update g actor old sp sr tp tr g' ids :
      CascadeRuleUpdated find_user sha256hex clock d g actor old sp sr tp tr = (g', inr (d', ids)) → catalog_step d d'
  | cs_rule_retire g actor old g' ids :
      CascadeRuleRetired find_user sha256hex clock d g actor old = (g', inr (d', ids)) → catalog_step d d'
  | cs_other : catalog (tables d') = catalog (tables d) → next_uuid d ≤ next_uuid d' → catalog_step d d'.

Lemma writes_keep d1 g audits params g' d' ids :
  cascadeWrites d1 g audits params = (g', inr (d', ids)) → catalog_inv d1 → catalog_inv d'.
Proof.
  intros E%cascadeWrites_ok. apply cascadeWrites_same_record in E as (Et & _ & _ & _ & En). unfold catalog_inv. rewrite Et.
  by apply catalog_wf_later.
Qed.
Lemma locked_keeps {A} items (o : Cascaded (Db * A)) g' d' x :
  withLockedAccess find_user sha256hex clock (registering items o) = (g', inr (d', x)) →
  (∀ d2, o = (g', inr (d2, x)) → catalog_inv d2) → catalog_inv d'.
Proof.
  intros (d2 & E & Hf)%withLockedAccess_ok Ho. apply flush_ok in Hf as [_ Hv].
  pose proof (cv_policy _ _ Hv) as Hp. injection Hp as Hc _ _ _ _. unfold catalog_inv. rewrite Hc.
  eapply catalog_wf_later; [apply (cv_uuid _ _ Hv)|]. by apply Ho.
Qed.
Lemma snapshot_keeps ins d version d' : SnapshotVersionIncludes d version ins = inr d' → catalog_inv d → catalog_inv d'.
Proof.
  revert d; induction ins as [|x ins IH]; intros d; [by intros [= <-]|]. cbn [SnapshotVersionIncludes].
  destruct (existsb _ (version_includes _)); [done|]. destruct (existsb (λ v, v_ID v =? version) _) eqn:Ev; [|done].
  cbn [negb]. case_match; [done|]. destruct (existsb (λ v, v_ID v =? ic_ChildVersionID x) _) eqn:Ec; [|done]. cbn [negb].
  intros E Hwf. apply (IH _ E). apply catalog_wf_version_includes; [done|..]; simpl.
  - apply existsb_elem in Ev as (v & Hv & <-%bool_decide_eq_true). by apply list_elem_of_fmap_2.
  - apply existsb_elem in Ec as (v & Hv & <-%bool_decide_eq_true). by apply list_elem_of_fmap_2.
Qed.
Lemma LatestVersion_elem c b v : LatestVersion c b = Some v → v ∈ versions c ∧ v_BundleID v = b.
Proof. intros E. apply head_Some_elem_of in E. rewrite stable_sort_elem in E. apply list_elem_of_filter in E. tauto. Qed.
Lemma pinned_version_elem c b n v : pinned_version c b n = Some v → v ∈ versions c.
Proof.
  unfold pinned_version. destruct (_ <=? _)%Z; [by intros [? _]%LatestVersion_elem|].
  intros E%head_Some_elem_of. apply list_elem_of_filter in E. tauto.
Qed.
Lemma include_keeps d g actor parent child v g' d' x :
  SetWorkingInclude d g actor parent child v = (g', inr (d', x)) → catalog_inv d → catalog_inv d'.
Proof.
  unfold SetWorkingInclude. case_bool_decide; [done|]. destruct (bundleName _ parent) as [pn|]; [|done]. destruct (bundleName _ child) as [cn|]; [|done].
  destruct (BundleIncludesAnything _ _); [done|]. case_bool_decide; [|done]. destruct (pinned_version _ _ _) as [w|] eqn:Ep; [|done].
  destruct (cascadeWrites _ _ _ _) as [g1 [e|[d2 ids]]] eqn:E; [done|]. intros Heq Hwf. injection Heq as _ <- _.
  eapply writes_keep; [exact E|]. apply catalog_wf_working; [done|]. intros i. unfold upsert_include.
  assert (v_ID w ∈ v_ID <$> versions (catalog (tables d))) as Hw by (apply list_elem_of_fmap_2; eapply pinned_version_elem, Ep).
  destruct (existsb _ _).
  - intros (j & -> & Hj)%list_elem_of_fmap. cbn beta. destruct (_ && _); [done|]. by apply (cw_working_include _ _ Hwf).
  - rewrite elem_of_app, list_elem_of_singleton. intros [Hi| ->]; [by apply (cw_working_include _ _ Hwf)|done].
Qed.
Lemma create_keeps d name description roles d' i :
  CreateBundle d name description roles = inr (d', i) → catalog_inv d → catalog_inv d'.
Proof.
  unfold CreateBundle. cbn [mint]. destruct (name_taken _ _ _) eqn:En; [done|]. destruct (negb _); [done|].
  intros [= <- <-] Hwf. unfold catalog_inv. simpl. apply catalog_wf_create; try done.
  intros (b & E & Hb)%list_elem_of_fmap. apply list_elem_of_filter in Hb as [Hr Hb]. simpl in E.
  apply not_true_iff_false in En. apply En. unfold name_taken. apply existsb_elem. exists b. split; [done|].
  rewrite !andb_true_iff, negb_true_iff, !bool_decide_eq_true, bool_decide_eq_false. split_and!; try done.
  destruct (cw_bundle_fresh _ _ Hwf b Hb) as (m & Hm & ->). intros Ee%uuid_inj. lia.
Qed.
Lemma catalog_wf_bundles c n h :
  catalog_wf c n → (∀ b, b_ID (h b) = b_ID b) → (∀ b, b_RetiredAt (h b) = b_RetiredAt b) →
  NoDup (b_Name <$> filter (λ b, b_RetiredAt b = None) (h <$> bundles c)) → catalog_wf (with_bundles c (h <$> bundles c)) n.
Proof.
  intros Hwf Hid Hret Hn. pose proof (catalog_wf_rewrite c n h (λ _, True) Hwf Hid Hn) as H1.
  rewrite (filter_every (λ _ : Assignment, True)) in H1 by done. destruct c. apply H1. intros. by rewrite Hret.
Qed.
Lemma NoDup_renamed (l : list Bundle) i name :
  NoDup (b_ID <$> l) → NoDup (b_Name <$> l) → (∀ b, b ∈ l → b_ID b ≠ i → b_Name b ≠ name) →
  NoDup ((λ b, if b_ID b =? i then name else b_Name b) <$> l).
Proof.
  induction l as [|b l IH]; intros Hi Hn Ho; [apply NoDup_nil_2|]. csimpl in *.
  apply NoDup_cons in Hi as [Hi Hi'], Hn as [Hn Hn']. apply NoDup_cons. split; [|apply IH; auto; intros; apply Ho; [by right|done]].
  intros (b' & E & Hb')%list_elem_of_fmap. case_bool_decide as E1; case_bool_decide as E2.
  - apply Hi. rewrite E1, <-E2. by apply list_elem_of_fmap_2.
  - eapply (Ho b'); [by right|done|done].
  - eapply (Ho b); [by left|done|done].
  - apply Hn. rewrite E. by apply list_elem_of_fmap_2.
Qed.
Lemma update_keeps d i name description d' : UpdateBundle d i name description = inr d' → catalog_inv d → catalog_inv d'.
Proof.
  unfold UpdateBundle. destruct (negb _); [done|]. destruct (name_taken _ _ _) eqn:En; [done|]. intros [= <-] Hwf.
  set (h := (λ b, if live_bundle i b then _ else b)). unfold catalog_inv. simpl.
  assert (∀ b, b_RetiredAt (h b) = b_RetiredAt b) as Hret by (intros b; unfold h; by destruct (live_bundle i b)).
  apply catalog_wf_bundles; [done| |done|]. { intros b. unfold h. by destruct (live_bundle i b). }
  rewrite filter_fmap, <-list_fmap_compose. rewrite (list_filter_iff _ (λ b, b_RetiredAt b = None)) by (intros b; by rewrite Hret).
  set (l := filter _ _). rewrite (Forall_fmap_ext_1 _ (λ b, if b_ID b =? i then name else b_Name b)).
  - apply NoDup_renamed; [by apply NoDup_fmap_filter, Hwf|by apply Hwf|]. intros b [Hr Hb]%list_elem_of_filter Hne E.
    apply not_true_iff_false in En. apply En. unfold name_taken. apply existsb_elem. exists b. split; [done|].
    by rewrite !andb_true_iff, negb_true_iff, !bool_decide_eq_true, bool_decide_eq_false.
  - apply Forall_forall. intros b [Hr _]%list_elem_of_filter. unfold h, live_bundle. simpl.
    rewrite (bool_decide_eq_true_2 _ Hr), andb_true_r. by destruct (b_ID b =? i).
Qed.
Lemma retire_keeps d g actor bundle g' d' ids :
  CascadeBundleRetired find_user sha256hex clock d g actor bundle = (g', inr (d', ids)) → catalog_inv d → catalog_inv d'.
Proof.
  unfold CascadeBundleRetired. destruct (refuseRetired _ _); [done|]. destruct (RetireBlockers _ _); [|done].
  destruct (delta_params _ _ _ _ _ _ _) as [items params]. intros E Hwf. apply (locked_keeps _ _ _ _ _ E). clear E. intros d2.
  unfold RetireBundleAndEnqueue. destruct (negb _); [done|]. intros E. apply (writes_keep _ _ _ _ _ _ _ E). clear E.
  set (h := (λ b, if live_bundle bundle b then _ else b)). unfold catalog_inv. simpl. apply catalog_wf_rewrite; [done|..].
  - intros b. unfold h. by destruct (live_bundle bundle b).
  - rewrite filter_fmap, <-list_fmap_compose.
    rewrite (list_fmap_ext (b_Name ∘ h) b_Name) by (intros _ b _; unfold h; simpl; by destruct (live_bundle bundle b)).
    eapply NoDup_fewer; [|apply Hwf]. intros b. unfold h. simpl. by destruct (live_bundle bundle b).
  - intros a b _ Hk _ Eb Hr. unfold h, live_bundle. rewrite (bool_decide_eq_false_2 (b_ID b = bundle)) by congruence. done.
Qed.
Lemma assign_keeps d g actor user bundle g' d' x :
  CascadeBundleAssignedToUser find_user sha256hex clock d g actor user bundle = (g', inr (d', x)) → catalog_inv d → catalog_inv d'.
Proof.
  unfold CascadeBundleAssignedToUser. destruct (refuseRetired _ _) eqn:Hr; [done|].
  destruct (LatestVersionRoles _ _) as [[v roles]|] eqn:Ev; [|done]. destruct (closureDelta _ _) as [adds revokes]. cbn [deltaParams].
  intros E Hwf. apply (locked_keeps _ _ _ _ _ E). clear E. intros d2. unfold AssignBundleAndEnqueue.
  destruct (if actor =? WelcomeActor then ("welcome", None) else ("direct", Some actor)) as [source by_].
  destruct (existsb _ (assignments _)) eqn:Eh; [by intros [= _ <- _]|]. destruct (negb _); [done|]. destruct (negb _) eqn:Ex; [done|].
  set (a := {| as_UserID := user |}). destruct (cascadeWrites _ _ _ _) as [g1 [e|[d3 ids]]] eqn:Ew; [done|]. intros [= _ <- _].
  apply (writes_keep _ _ _ _ _ _ _ Ew). clear Ew. unfold catalog_inv. simpl. apply catalog_wf_assign; [done|..].
  - intros (b & E & Hb)%list_elem_of_fmap. apply not_true_iff_false in Eh. apply Eh, existsb_elem. exists b. split; [done|].
    simpl in E. by simplify_eq E; intros -> ->; rewrite !bool_decide_eq_true_2.
  - unfold refuseRetired in Hr. destruct (GetBundleByID _ bundle) as [b|] eqn:Eb; [|done]. unfold GetBundleByID in Eb.
    apply head_Some_elem_of, list_elem_of_filter in Eb as [Ei Hb]. exists b. destruct (b_RetiredAt b); [done|]. by split_and!.
  - unfold LatestVersionRoles in Ev. destruct (LatestVersion _ bundle) as [v'|] eqn:El; [|done]. simpl in Ev. injection Ev as <- _.
    apply LatestVersion_elem in El as [Hv Ei]. exists v'. by split_and!.
Qed.
Lemma remove_keeps d g actor user bundle g' d' ids :
  CascadeBundleRemovedFromUser find_user sha256hex clock d g actor user bundle = (g', inr (d', ids)) → catalog_inv d → catalog_inv d'.
Proof.
  unfold CascadeBundleRemovedFromUser. destruct (refuseRetired _ _); [done|]. destruct (removal_delta _ _ _). cbn [deltaParams].
  intros E Hwf. apply (locked_keeps _ _ _ _ _ E). intros d2 Ew. apply (writes_keep _ _ _ _ _ _ _ Ew). by apply catalog_wf_filter.
Qed.
Lemma publish_keeps d g actor bundle note roles moved params g' d' x :
  PublishVersionAndEnqueue d g actor bundle note roles moved params = (g', inr (d', x)) → catalog_inv d → catalog_inv d'.
Proof.
  unfold PublishVersionAndEnqueue. cbn [mint]. set (d1 := {| now := now d |}). destruct (negb _) eqn:Eb; [done|].
  set (v := {| v_ID := uuid (next_uuid d) |}). set (c := with_versions _ _ _ _). intros E Hwf.
  destruct (cascadeWrites _ _ _ _) as [g1 [e|[d3 ids]]] eqn:Ew; [done|]. injection E as _ <- _.
  apply (writes_keep _ _ _ _ _ _ _ Ew). clear Ew. unfold catalog_inv. simpl.
  assert (catalog_wf c (S (next_uuid d))) as Hc.
  { apply catalog_wf_publish; [done..|]. apply negb_false_iff, bool_decide_eq_true in Eb as [b Eb]. unfold GetBundleByID in Eb.
    apply head_Some_elem_of, list_elem_of_filter in Eb as [<- Hb]. apply list_elem_of_fmap. by exists b. }
  destruct moved as [|u moved]; [done|]. apply catalog_wf_repin; [done|]. exists v. split_and!; [|done..].
  simpl. apply elem_of_app. right. by left.
Qed.
Lemma move_keeps d g actor bundle version users params g' d' ids :
  MoveHoldersAndEnqueue d g actor bundle version users params = (g', inr (d', ids)) → catalog_inv d → catalog_inv d'.
Proof.
  unfold MoveHoldersAndEnqueue. destruct (VersionBelongsTo _ _ _) eqn:Eb; [|done]. intros E Hwf.
  apply (writes_keep _ _ _ _ _ _ _ E). apply catalog_wf_repin; [done|].
  apply existsb_elem in Eb as (v & Hv & Ev). rewrite andb_true_iff, !bool_decide_eq_true in Ev. naive_solver.
Qed.
Lemma rule_created_keeps d g actor sp sr tp tr g' d' x :
  CascadeRuleCreated find_user sha256hex clock d g actor sp sr tp tr = (g', inr (d', x)) → catalog_inv d → catalog_inv d'.
Proof.
  unfold CascadeRuleCreated. destruct (rule_cascade _ _ _ _ _) as [items params]. intros E Hwf.
  apply (locked_keeps _ _ _ _ _ E). intros d2. clear E. unfold CreateMappingRuleAndEnqueue. cbn [mint].
  destruct (rule_violates _ _); [done|]. destruct (cascadeWrites _ _ _ _) as [g1 [e|[d3 ids]]] eqn:Ew; [done|]. intros [= _ <- _].
  apply (writes_keep _ _ _ _ _ _ _ Ew). clear Ew. unfold catalog_inv. simpl.
  pose proof (catalog_wf_later (catalog (tables d)) (next_uuid d) (S (next_uuid d)) ltac:(lia) Hwf) as Hwf'. apply catalog_wf_rules; [done|..].
  - apply NoDup_fmap_snoc; [apply Hwf|]. by apply fresh_id, Hwf.
  - intros r. rewrite elem_of_app, list_elem_of_singleton. intros [Hr| ->]; [by apply Hwf'|]. exists (next_uuid d). split; [lia|done].
Qed.
(** Rules rewritten in place keep their ids. *)
Lemma rules_rewritten d c' h n :
  catalog_wf c' n → rules c' = rules (catalog (tables d)) → (∀ x, RuleID (rule (h x)) = RuleID (rule x)) →
  catalog_wf (with_rules c' (h <$> rules (catalog (tables d)))) n.
Proof.
  intros Hwf Er Hid. rewrite <-Er. apply catalog_wf_rules; [done|..].
  - apply NoDup_fmap_same; [exact Hid|apply Hwf].
  - intros r (x & -> & Hx)%list_elem_of_fmap. rewrite Hid. by apply Hwf.
Qed.
Lemma rule_updated_keeps d g actor old sp sr tp tr g' d' ids :
  CascadeRuleUpdated find_user sha256hex clock d g actor old sp sr tp tr = (g', inr (d', ids)) → catalog_inv d → catalog_inv d'.
Proof.
  unfold CascadeRuleUpdated. destruct (rule_cascade _ _ _ _ _) as [items params]. intros E Hwf.
  apply (locked_keeps _ _ _ _ _ E). intros d2. clear E. unfold UpdateMappingRuleAndEnqueue. destruct (negb _); [done|].
  destruct (rule_violates _ _); [done|]. intros Ew. apply (writes_keep _ _ _ _ _ _ _ Ew). clear Ew.
  apply rules_rewritten; [done..|]. intros x. unfold in_force_rule.
  destruct ((RuleID (rule x) =? RuleID old) && _) eqn:Ei; [|done]. apply andb_true_iff in Ei as [Ei%bool_decide_eq_true _]. done.
Qed.
Lemma rule_retired_keeps d g actor old g' d' ids :
  CascadeRuleRetired find_user sha256hex clock d g actor old = (g', inr (d', ids)) → catalog_inv d → catalog_inv d'.
Proof.
  unfold CascadeRuleRetired. destruct (rule_cascade _ _ _ _ _) as [items params]. intros E Hwf.
  apply (locked_keeps _ _ _ _ _ E). intros d2. clear E. unfold RetireMappingRuleAndEnqueue. destruct (negb _); [done|].
  intros Ew. apply (writes_keep _ _ _ _ _ _ _ Ew). clear Ew. apply rules_rewritten; [done..|]. intros x. by destruct (in_force_rule _ x).
Qed.
Lemma working_keeps d g actor bundle project role add g' d' ids :
  EditBundleWorkingCopy d g actor bundle project role add = (g', inr (d', ids)) → catalog_inv d → catalog_inv d'.
Proof.
  unfold EditBundleWorkingCopy, AddRoleToBundleAndEnqueue, RemoveRoleFromBundleAndEnqueue. destruct add.
  - destruct (negb _); [done|]. case_bool_decide; [by apply writes_keep|]. destruct (negb _); [done|].
    intros E Hwf. apply (writes_keep _ _ _ _ _ _ _ E). apply catalog_wf_working; [done|]. apply (cw_working_include _ _ Hwf).
  - intros E Hwf. apply (writes_keep _ _ _ _ _ _ _ E). apply catalog_wf_working; [done|]. apply (cw_working_include _ _ Hwf).
Qed.
Lemma catalog_step_keeps d d' : catalog_step d d' → catalog_inv d → catalog_inv d'.
Proof.
  destruct 1 as [| | | |g actor bundle child g' E|g actor parent child g' b E|g actor bundle g' ids E| | | | | | | | | |Ec En];
    eauto using create_keeps, update_keeps, working_keeps, include_keeps, publish_keeps, snapshot_keeps, move_keeps,
      assign_keeps, remove_keeps, retire_keeps, rule_created_keeps, rule_updated_keeps, rule_retired_keeps.
  - unfold IncludeInFirstVersion in E. destruct (SetWorkingInclude _ _ _ _ _ _) as [g1 [e|[d1 x]]] eqn:Es; [done|].
    intros Hwf%(include_keeps _ _ _ _ _ _ _ _ _ Es). destruct (head _) as [v|]; [|by injection E as _ <-].
    destruct (SnapshotVersionIncludes _ _ _) as [e|d2] eqn:Ev; [done|]. injection E as _ <-. by eapply snapshot_keeps.
  - unfold RemoveWorkingInclude in E. destruct (negb _); [by injection E as _ <- _|].
    destruct (cascadeWrites _ _ _ _) as [g1 [e|[d1 ids]]] eqn:Ew; [done|]. injection E as _ <- _. intros Hwf.
    apply (writes_keep _ _ _ _ _ _ _ Ew). apply catalog_wf_working; [done|]. intros i [_ Hi]%list_elem_of_filter. by apply (cw_working_include _ _ Hwf).
  - unfold DiscardBundleDraft in E. destruct (LatestVersion _ _); [|done]. intros Hwf. apply (writes_keep _ _ _ _ _ _ _ E).
    apply catalog_wf_working; [done|]. intros i. rewrite elem_of_app. intros [[_ Hi]%list_elem_of_filter|(j & -> & Hj)%list_elem_of_fmap];
      [by apply (cw_working_include _ _ Hwf)|]. apply list_elem_of_filter in Hj as [_ Hj]. cbn [in_ChildVersionID].
    exact (proj2 (cw_include_owner _ _ Hwf j Hj)).
  - intros Hwf. unfold catalog_inv. rewrite Ec. by eapply catalog_wf_later.
Qed.
Lemma catalog_inv_ok d : (∀ n, uuid n ≠ "") → catalog_inv d → catalog_ok (catalog (tables d)) ∧ keys_ok (catalog (tables d)).
Proof.
  intros Hne Hwf. split; [|by split; apply Hwf]. intros a Ha.
  destruct (cw_pinned _ _ Hwf a Ha) as [(b & Hb & Eb & Er) (v & Hv & Ev & _)]. split_and!; [|by exists b|by exists v].
  rewrite <-Eb. destruct (cw_bundle_fresh _ _ Hwf b Hb) as (m & _ & ->). apply Hne.
Qed.
End steps.

(** ** Properties *)

(** C24. The catalog stays sound. From an empty catalog, whatever bundles,
    versions, includes, assignments and rules are created, changed, published,
    moved, given, taken back or retired, in any order: ids are unique, live
    bundles have distinct names, a bundle's versions are numbered apart from 1
    up, every bundle has a version to give, nobody holds a bundle twice, and
    every holder is on a live bundle, pinned to one of that bundle's own
    versions. So the cascades and the holdings reads always find what they
    assume. *)
Theorem catalog_invariant `{!EnqueueEnv} find_user sha256hex clock d d' :
  (∀ n, uuid n ≠ "") → catalog (tables d) = empty_catalog → rtc (catalog_step find_user sha256hex clock) d d' →
  catalog_inv d' ∧ catalog_ok (catalog (tables d')) ∧ keys_ok (catalog (tables d')) ∧
  ∀ b, b ∈ bundles (catalog (tables d')) → is_Some (LatestVersionRoles (catalog (tables d')) (b_ID b)).
Proof.
  intros Hne E Hs. assert (catalog_inv d) as H0.
  { unfold catalog_inv. rewrite E. eapply catalog_wf_later; [|apply catalog_wf_empty]. lia. }
  clear E. assert (catalog_inv d') as Hwf by (induction Hs; eauto using catalog_step_keeps). clear H0.
  destruct (catalog_inv_ok d' Hne Hwf). split_and!; [done..|].
  intros b Hb. destruct (cw_published _ _ Hwf b Hb) as (v & Hv & Ev). unfold LatestVersionRoles.
    destruct (LatestVersion _ (b_ID b)) as [w|] eqn:El; [by eexists|]. exfalso. unfold LatestVersion in El.
    apply head_None in El. assert (v ∈ @nil BundleVersion) as Hin; [|by apply elem_of_nil in Hin].
    rewrite <-El, stable_sort_elem. by apply list_elem_of_filter.
Qed.

#[local] Existing Instance hex_uuids.
#[local] Existing Instance demo_live.
Lemma catalog_invariant_witness :
  ∃ d' i, CreateBundle demo_addons "Makers" "" [("p", "laser")] = inr (d', i) ∧ catalog_inv d' ∧
    is_Some (LatestVersionRoles (catalog (tables d')) i).
Proof.
  destruct (CreateBundle demo_addons "Makers" "" [("p", "laser")]) as [e|[d' i]] eqn:E; [by vm_compute in E|].
  destruct (catalog_invariant nobody (λ s, s) 1000 demo_addons d') as (Hwf & _ & _ & Hl).
  - intros n. simpl. unfold hex_uuid. by destruct (_ <? _)%N.
  - reflexivity.
  - apply rtc_once. by eapply cs_create.
  - exists d', i. split_and!; [done..|].
    assert (∃ b, b ∈ bundles (catalog (tables d')) ∧ b_ID b = i) as (b & Hb & <-); [|by apply Hl].
    vm_compute in E. injection E as <- <-. eexists. split; [by left|done].
Defined.
