(* ===== verification/Publish.v ===== *)
(** * Publish: a bundle's next version, and moving people between versions

    backend/internal/services/bundle_publish.go, with the plan rows of bulk.go
    and cancels.go it fills. A publish is rehearsed and applied under one lock:
    the draft is read once, each holder's difference is computed from their own
    base, and the version, its includes, the repinned holders and the rows they
    are owed are written together. Parameters: the digest [sha256hex], the order
    of names [compare_names] (golang.org/x/text/collate) and the text of a day
    [formatDay]. The directory's names on a plan are not modelled. *)

From S2P Require Import Fingerprint.
From S2P Require Import Prelude Tables Extcall Outbox Lifecycle Plans Policy Holdings Entitlement Enqueue Access Cascade Bundles.

(** ** Plans as rows *)
Definition EffectApply : string := "apply".
Definition EffectNoChange : string := "no_change".
Definition EffectBlocked : string := "blocked".
Definition EffectFailed : string := "failed".
Definition EffectApplied : string := "applied".
Definition EffectQueued : string := "queued".
Record BulkOutcome := {
  bo_UserID : string; bo_Effect : string; bo_Detail : string; bo_Consequence : string;
  bo_GrantIDs : list string; bo_CancelIDs : list string; bo_Fingerprint : string;
}.
Definition planned (u effect detail consequence fp : string) : BulkOutcome :=
  {| bo_UserID := u; bo_Effect := effect; bo_Detail := detail; bo_Consequence := consequence; bo_GrantIDs := [];
     bo_CancelIDs := []; bo_Fingerprint := fp |}.
Record BulkSummary := {
  bs_Total : nat; bs_Apply : nat; bs_NoChange : nat; bs_Blocked : nat; bs_Failed : nat; bs_Succeeded : nat; bs_Queued : nat;
}.
Record BulkPlan := {
  bp_Op : string; bp_Applied : bool; bp_RequestFingerprint : string; bp_Outcomes : list BulkOutcome; bp_Summary : BulkSummary;
}.
Definition count_effect (e : string) (l : list BulkOutcome) : nat := length (filter (λ o, bo_Effect o = e) l).
Definition SummarizeOutcomes (l : list BulkOutcome) : BulkSummary :=
  {| bs_Total := length l; bs_Apply := count_effect EffectApply l; bs_NoChange := count_effect EffectNoChange l;
     bs_Blocked := count_effect EffectBlocked l; bs_Failed := count_effect EffectFailed l;
     bs_Succeeded := count_effect EffectApplied l; bs_Queued := count_effect EffectQueued l |}.
Definition markApplied (l : list BulkOutcome) : list BulkOutcome :=
  (λ o, if bo_Effect o =? EffectApply then
          {| bo_UserID := bo_UserID o; bo_Effect := EffectApplied; bo_Detail := bo_Detail o;
             bo_Consequence := bo_Consequence o; bo_GrantIDs := bo_GrantIDs o; bo_CancelIDs := bo_CancelIDs o;
             bo_Fingerprint := bo_Fingerprint o |} else o) <$> l.
Definition applied_plan (p : BulkPlan) : BulkPlan :=
  {| bp_Op := bp_Op p; bp_Applied := true; bp_RequestFingerprint := bp_RequestFingerprint p;
     bp_Outcomes := markApplied (bp_Outcomes p); bp_Summary := SummarizeOutcomes (markApplied (bp_Outcomes p)) |}.

(** ** The draft *)
Record IncludeChange := { ch_ChildBundleID : string; ch_ChildName : string; ch_From : Z; ch_To : Z }.
Record DraftDiff := {
  df_BundleID : string;
  df_LatestVersion : Z;
  df_NextVersion : Z;
  df_Added : list BundleRole;
  df_Removed : list BundleRole;
  df_HolderCount : nat;
  df_Working : list BundleRole;
  df_Includes : list Include;
  df_WorkingEffective : list BundleRole;
  df_IncludeChanges : list IncludeChange;
}.
Definition Empty (d : DraftDiff) : bool :=
  match df_Added d, df_Removed d, df_IncludeChanges d with [], [], [] => true | _, _, _ => false end.

Definition sortRoles (l : list BundleRole) : list BundleRole := stable_sort (cmp_on br_key role_compare) l.
Definition not_in (l : list BundleRole) (r : BundleRole) : Prop := br_key r ∉ br_key <$> l.
#[export] Instance not_in_dec l r : Decision (not_in l r).
Proof. unfold not_in. apply _. Defined.
Definition diffRoles (prev next : list BundleRole) : list BundleRole * list BundleRole :=
  (sortRoles (filter (not_in prev) next), sortRoles (filter (not_in next) prev)).

(** A version's roles, as a bundle that includes it gives them. *)
Definition via (child : string) (r : BundleRole) : BundleRole :=
  {| br_ProjectID := br_ProjectID r; br_RoleKey := br_RoleKey r; br_ViaBundleID := Some child |}.
Definition effective_roles (c : Catalog) (working : list BundleRole) (ins : list Include) : list BundleRole :=
  working ++ (ins ≫= λ i, via (ic_ChildBundleID i) <$> GetRolesForVersion c (ic_ChildVersionID i)).

Section publish.
Context (sha256hex : string → string) (compare_names : string → string → comparison) (formatDay : Z → string).

(** Each next include against what was published, which it takes out of [was]. *)
Fixpoint next_includes (was : gmap string Include) (next : list Include) : gmap string Include * list IncludeChange :=
  match next with
  | [] => (was, [])
  | n :: next =>
      let change :=
        match was !! ic_ChildBundleID n with
        | None => [{| ch_ChildBundleID := ic_ChildBundleID n; ch_ChildName := ic_ChildName n; ch_From := 0; ch_To := ic_ChildVersion n |}]
        | Some p =>
            if ic_ChildVersionID p <>? ic_ChildVersionID n then
              [{| ch_ChildBundleID := ic_ChildBundleID n; ch_ChildName := ic_ChildName n; ch_From := ic_ChildVersion p;
                  ch_To := ic_ChildVersion n |}]
            else []
        end in
      let '(was, out) := next_includes (delete (ic_ChildBundleID n) was) next in
      (was, change ++ out)
  end.
Definition diffIncludes (prev next : list Include) : list IncludeChange :=
  let was := foldl (λ m p, <[ic_ChildBundleID p := p]> m) ∅ prev in
  let '(was, out) := next_includes was next in
  stable_sort (cmp_on ch_ChildName compare_names)
    (out ++ ((λ x : string * Include, {| ch_ChildBundleID := ic_ChildBundleID x.2; ch_ChildName := ic_ChildName x.2;
                                         ch_From := ic_ChildVersion x.2; ch_To := 0 |}) <$> map_to_list was)).

Definition BundleDraft (c : Catalog) (bundle : string) : option DraftDiff :=
  latest ← LatestVersion c bundle;
  let working := GetRolesForBundle c bundle in
  let published := GetRolesForVersion c (v_ID latest) in
  let ins := GetWorkingIncludes c bundle in
  let effective := effective_roles c working ins in
  let '(added, removed) := diffRoles published effective in
  Some {| df_BundleID := bundle; df_LatestVersion := v_Version latest; df_NextVersion := v_Version latest + 1;
          df_Added := added; df_Removed := removed; df_HolderCount := length (GetUsersForBundle c bundle);
          df_Working := working; df_Includes := ins; df_WorkingEffective := effective;
          df_IncludeChanges := diffIncludes (GetVersionIncludes c (v_ID latest)) ins |}.

(** ** One holder's move *)
Definition holderDelta (d : Db) (user bundle : string) (next : list BundleRole) (rules : list MappingRule)
    : list Role * list Role :=
  closureDelta (effectiveClosure (userBaseHoldings d user) rules)
    (effectiveClosure (userBaseHoldingsWithBundleAt d user bundle next) rules).
Definition keyList (ks : list Role) : string := Join (sort_strings (snd <$> ks)) ", ".
Definition describeMove (from to : Z) (adds revokes : list Role) : string * string * string :=
  let move := "v" +:+ pretty from +:+ " → v" +:+ pretty to in
  match adds, revokes with
  | [], [] => (EffectNoChange, move +:+ ", no change to their access",
               "Everything in this version they already hold from another source.")
  | _, [] => (EffectApply, move +:+ ", gains " +:+ keyList adds, "")
  | [], _ => (EffectApply, move +:+ ", LOSES " +:+ keyList revokes,
              "Nothing else grants that — it is removed from the identity provider.")
  | _, _ => (EffectApply, move +:+ ", gains " +:+ keyList adds +:+ " and LOSES " +:+ keyList revokes,
             "Nothing else grants what they lose — it is removed from the identity provider.")
  end.

(** ** What it cancels *)
Definition cancelsLine (d : Db) (params : list EnqueueParams) : list QueuedChange := params ≫= WouldCancel d.
Definition DescribeCancels (changes : list QueuedChange) : string :=
  match changes with
  | [] => ""
  | _ =>
      let part c := "the " +:+ (if c_OpType c =? op_revoke then "removal" else "grant") +:+ " of " +:+ Join (c_RoleKeys c) ", " +:+
                    " queued " +:+ formatDay (c_QueuedAt c) +:+ (if c_Reason c <>? "" then " (" +:+ c_Reason c +:+ ")" else "") in
      "Cancels " +:+ (match changes with [_] => "a change" | _ => Itoa (length changes) +:+ " changes" end) +:+
      " waiting for you to send: " +:+ Join (part <$> changes) "; " +:+ "."
  end.
Definition WithCancels (out : BulkOutcome) (changes : list QueuedChange) : BulkOutcome :=
  match changes with
  | [] => out
  | _ =>
      let line := DescribeCancels changes in
      {| bo_UserID := bo_UserID out; bo_Effect := bo_Effect out; bo_Detail := bo_Detail out;
         bo_Consequence := if bo_Consequence out =? "" then line else bo_Consequence out +:+ " " +:+ line;
         bo_GrantIDs := bo_GrantIDs out; bo_CancelIDs := bo_CancelIDs out;
         bo_Fingerprint := Fingerprint sha256hex ([bo_Fingerprint out; "cancels"] ++ (c_ID <$> changes)) |}
  end.

(** ** Fingerprints *)
Definition role_text (k : Role) : string := k.1 +:+ NUL +:+ k.2.
Definition publishedContents (draft : DraftDiff) : list BundleRole :=
  df_WorkingEffective draft ++
  ((λ i, {| br_ProjectID := "include:" +:+ ic_ChildBundleID i; br_RoleKey := ic_ChildVersionID i; br_ViaBundleID := None |})
     <$> df_Includes draft).
Definition holderFields (holders : list BundleHolder) : list string :=
  sort_strings ((λ h, h_UserID h +:+ NUL +:+ pretty (h_Version h)) <$> holders).
Definition FingerprintBundlePublish (bundle : string) (migrate : bool) (working : list BundleRole) (holders : list BundleHolder) : string :=
  Fingerprint sha256hex
    (["bundle_publish"; bundle; "migrate"; if migrate then "true" else "false"; "contains"] ++
     sort_strings ((role_text ∘ br_key) <$> working) ++ "holders" :: holderFields holders).
Definition FingerprintMoveHolders (bundle version : string) (target : list BundleRole) (users : list string) : string :=
  Fingerprint sha256hex
    (["move_bundle_holders"; bundle; version; "contains"] ++ sort_strings ((role_text ∘ br_key) <$> target) ++
     "subjects" :: sort_strings users).
Definition sortedRoleKeys (ks : list Role) : list string := sort_strings (role_text <$> ks).
Definition fingerprintHolderMove (kind bundle : string) (h : BundleHolder) (adds revokes : list Role) : string :=
  Fingerprint sha256hex
    ([kind; bundle; h_UserID h; "from"; pretty (h_Version h); "gains"] ++ sortedRoleKeys adds ++
     "loses" :: sortedRoleKeys revokes).

(** ** Publishing *)
Record PublishRequest := { rq_BundleID : string; rq_Note : string; rq_Migrate : bool; rq_Includers : list (string * string) }.
Definition publish_outcome (d : Db) (req : PublishRequest) (draft : DraftDiff) (rules : list MappingRule) (h : BundleHolder) : BulkOutcome :=
  if rq_Migrate req then
    let '(adds, revokes) := holderDelta d (h_UserID h) (rq_BundleID req) (df_WorkingEffective draft) rules in
    let '(effect, detail, consequence) := describeMove (h_Version h) (df_NextVersion draft) adds revokes in
    WithCancels
      {| bo_UserID := h_UserID h; bo_Effect := effect; bo_Detail := detail; bo_Consequence := consequence;
         bo_GrantIDs := []; bo_CancelIDs := []; bo_Fingerprint := fingerprintHolderMove "bundle_publish_move" (rq_BundleID req) h adds revokes |}
      (cancelsLine d (deltaWrites (h_UserID h) adds revokes "bundle" (rq_BundleID req)))
  else
    {| bo_UserID := h_UserID h; bo_Effect := EffectNoChange; bo_Detail := "stays on v" +:+ pretty (h_Version h);
       bo_Consequence := "Nothing changes for them. The new version applies to new assignments only.";
       bo_GrantIDs := []; bo_CancelIDs := []; bo_Fingerprint := Fingerprint sha256hex ["bundle_publish_stay"; rq_BundleID req; h_UserID h; pretty (h_Version h)] |}.
Definition RehearseBundlePublish (d : Db) (req : PublishRequest) : option (BulkPlan * DraftDiff) :=
  let c := catalog (tables d) in
  draft ← BundleDraft c (rq_BundleID req);
  let holders := GetBundleHoldersByVersion c (rq_BundleID req) in
  let outcomes := publish_outcome d req draft (GetActiveMappingRules c) <$> holders in
  Some ({| bp_Op := "publish_bundle_version"; bp_Applied := false;
           bp_RequestFingerprint := FingerprintBundlePublish (rq_BundleID req) (rq_Migrate req) (publishedContents draft) holders;
           bp_Outcomes := outcomes; bp_Summary := SummarizeOutcomes outcomes |}, draft).

(** The parents to update; [asked] is what the request answered. *)
Fixpoint read_choices (asked : gmap string string) (l : list (string * string)) : CascadeError + gmap string string :=
  match l with
  | [] => inr asked
  | (b, action) :: l =>
      if (action <>? "update") && (action <>? "leave") then inl (BadIncluderAction b)
      else read_choices (<[b := action]> asked) l
  end.
Fixpoint answer_includers (asked : gmap string string) (l : list Includer) : gmap string string * list string * list string :=
  match l with
  | [] => (asked, [], [])
  | i :: l =>
      if (ir_DraftVersion i =? 0)%Z && (ir_IncludedVersion i =? 0)%Z then answer_includers asked l
      else
        let action := default "" (asked !! ir_BundleID i) in
        let '(rest, missing, update) := answer_includers (delete (ir_BundleID i) asked) l in
        if action =? "update" then (rest, missing, ir_BundleID i :: update)
        else if action =? "leave" then (rest, missing, update)
        else (rest, ir_Name i :: missing, update)
  end.
Definition checkIncluderChoices (c : Catalog) (req : PublishRequest) : CascadeError + list string :=
  match read_choices ∅ (rq_Includers req) with
  | inl e => inl e
  | inr asked =>
      let '(rest, missing, update) := answer_includers asked (ListIncluders c (rq_BundleID req)) in
      match missing with
      | _ :: _ => inl (ErrIncludersUnanswered missing)
      | [] => match map_to_list rest with [] => inr update | (b, _) :: _ => inl (DoesNotInclude b) end
      end
  end.

Context `{!EnqueueEnv} (find_user : string → option string) (clock : Z).
Fixpoint update_includers (d : Db) (g : option CancelGate) (actor : string) (parents : list string) (child : string) (v : Z)
    : Cascaded Db :=
  match parents with
  | [] => (g, inr d)
  | parent :: parents =>
      match SetWorkingInclude d g actor parent child v with
      | (g, inl e) => (g, inl e)
      | (g, inr (d, _)) => update_includers d g actor parents child v
      end
  end.
Definition publish_moves (d : Db) (actor : string) (req : PublishRequest) (draft : DraftDiff)
    : list string * (list pendingConvergence * list EnqueueParams) :=
  let c := catalog (tables d) in
  let bundle := rq_BundleID req in
  if rq_Migrate req then
    let moved := h_UserID <$> GetBundleHoldersByVersion c bundle in
    (moved, delta_params (λ u, holderDelta d u bundle (df_WorkingEffective draft) (GetActiveMappingRules c)) actor
              ("Bundle published at v" +:+ pretty (df_NextVersion draft)) "bundle" bundle moved [])
  else ([], ([], [])).
Definition PublishBundleVersion (d : Db) (g : option CancelGate) (actor : string) (req : PublishRequest)
    : Cascaded (Db * (BulkPlan * BundleVersion * list string)) :=
  let bundle := rq_BundleID req in
  withLockedAccess find_user sha256hex clock
    match RehearseBundlePublish d req with
    | None => (g, inl NoRows)
    | Some (plan, draft) =>
        if Empty draft then (g, inl (NothingToPublish (df_LatestVersion draft)))
        else match checkIncluderChoices (catalog (tables d)) req with
        | inl e => (g, inl e)
        | inr includers =>
            let '(moved, (items, params)) := publish_moves d actor req draft in
            match PublishVersionAndEnqueue d g actor bundle (rq_Note req) (br_key <$> df_Working draft) moved params with
            | (g, inl e) => (g, inl e)
            | (g, inr (d, (version, ids))) =>
                match SnapshotVersionIncludes d (v_ID version) (df_Includes draft) with
                | inl e => (g, inl e)
                | inr d =>
                    match update_includers d g actor includers bundle (v_Version version) with
                    | (g, inl e) => (g, inl e)
                    | (g, inr d) => (g, inr (d, items, (applied_plan plan, version, ids)))
                    end
                end
            end
        end
    end.

(** ** Moving holders *)
Record MoveHoldersRequest := { mq_BundleID : string; mq_VersionID : string; mq_UserIDs : list string }.
Definition move_outcome (d : Db) (req : MoveHoldersRequest) (target : list BundleRole) (targetVersion : Z)
    (wanted : gmap string BundleHolder) (u : string) : BulkOutcome :=
  let bundle := mq_BundleID req in
  match wanted !! u with
  | None =>
      {| bo_UserID := u; bo_Effect := EffectBlocked; bo_Detail := "does not hold this bundle"; bo_Consequence := "";
         bo_GrantIDs := []; bo_CancelIDs := []; bo_Fingerprint := Fingerprint sha256hex ["move_holders_absent"; bundle; u] |}
  | Some h =>
      if h_VersionID h =? mq_VersionID req then
        {| bo_UserID := u; bo_Effect := EffectNoChange; bo_Detail := "already on v" +:+ pretty (h_Version h); bo_Consequence := "";
           bo_GrantIDs := []; bo_CancelIDs := []; bo_Fingerprint := fingerprintHolderMove "move_holders_already" bundle h [] [] |}
      else
        let '(adds, revokes) := holderDelta d u bundle target (GetActiveMappingRules (catalog (tables d))) in
        let '(effect, detail, consequence) := describeMove (h_Version h) targetVersion adds revokes in
        WithCancels
          {| bo_UserID := u; bo_Effect := effect;
             bo_Detail := if effect =? EffectNoChange
                          then "v" +:+ pretty (h_Version h) +:+ " → v" +:+ pretty targetVersion +:+ ", no change to their access"
                          else detail;
             bo_Consequence := consequence; bo_GrantIDs := []; bo_CancelIDs := [];
             bo_Fingerprint := fingerprintHolderMove "move_holders" bundle h adds revokes |}
          (cancelsLine d (deltaWrites u adds revokes "bundle" bundle))
  end.
Definition wanted_holders (c : Catalog) (bundle : string) : gmap string BundleHolder :=
  foldl (λ m h, <[h_UserID h := h]> m) ∅ (GetBundleHoldersByVersion c bundle).
Definition RehearseMoveHolders (d : Db) (req : MoveHoldersRequest) : CascadeError + BulkPlan :=
  let c := catalog (tables d) in
  if negb (VersionBelongsTo c (mq_BundleID req) (mq_VersionID req)) then inl NotItsVersion
  else
    let target := GetRolesForVersion c (mq_VersionID req) in
    let wanted := wanted_holders c (mq_BundleID req) in
    let targetVersion := from_option (v_Version ∘ fst) 0%Z
      (head (filter (λ x : BundleVersion * nat, v_ID x.1 = mq_VersionID req) (ListBundleVersions c (mq_BundleID req)))) in
    let outcomes := move_outcome d req target targetVersion wanted <$> mq_UserIDs req in
    inr {| bp_Op := "move_bundle_holders"; bp_Applied := false;
           bp_RequestFingerprint := FingerprintMoveHolders (mq_BundleID req) (mq_VersionID req) target (mq_UserIDs req);
           bp_Outcomes := outcomes; bp_Summary := SummarizeOutcomes outcomes |}.
Definition MoveHolders (d : Db) (g : option CancelGate) (actor : string) (req : MoveHoldersRequest)
    : Cascaded (Db * (BulkPlan * list string)) :=
  let c := catalog (tables d) in
  let bundle := mq_BundleID req in
  match RehearseMoveHolders d req with
  | inl e => (g, inl e)
  | inr plan =>
      let target := GetRolesForVersion c (mq_VersionID req) in
      match bo_UserID <$> filter (λ o, bo_Effect o ≠ EffectBlocked) (bp_Outcomes plan) with
      | [] => (g, inr (d, (plan, [])))              (* errNothingToMove *)
      | actionable =>
          let '(items, params) := delta_params (λ u, holderDelta d u bundle target (GetActiveMappingRules c)) actor
                                    "Bundle holder moved between versions" "bundle" bundle actionable [] in
          match withLockedAccess find_user sha256hex clock
                  (registering items (MoveHoldersAndEnqueue d g actor bundle (mq_VersionID req) actionable params)) with
          | (g, inl e) => (g, inl e)
          | (g, inr (d, ids)) => (g, inr (d, (applied_plan plan, ids)))
          end
      end
  end.
End publish.

(** ** Facts: what versions give *)
Lemma version_gives_keys c w k :
  k ∈ br_key <$> version_gives c w ↔
  (w, k) ∈ version_roles c ∨ ∃ j, j ∈ version_includes c ∧ in_Owner j = w ∧ (in_ChildVersionID j, k) ∈ version_roles c.
Proof.
  unfold version_gives. rewrite fmap_app, elem_of_app, !list_elem_of_fmap. setoid_rewrite list_elem_of_fmap.
  setoid_rewrite list_elem_of_bind. setoid_rewrite list_elem_of_fmap. setoid_rewrite list_elem_of_filter. split.
  - intros [(r & -> & [w' [p r']] & -> & E & Hx)|(r & -> & j & ([w' [p r']] & -> & E & Hx) & <- & Hj)]; simpl in E; subst w';
      [by left|right; by exists j].
  - destruct k as [p r]. intros [Hx|(j & Hj & <- & Hx)]; [left|right].
    + eexists. split; [|exists (w, (p, r)); by split_and!]. done.
    + eexists. split; [|exists j; split; [exists (in_ChildVersionID j, (p, r)); by split_and!|done]]. done.
Qed.
Lemma GetRolesForVersion_keys c w k :
  w ∈ v_ID <$> versions c → k ∈ br_key <$> GetRolesForVersion c w ↔ k ∈ br_key <$> version_gives c w.
Proof.
  intros (v & -> & Hv)%list_elem_of_fmap. unfold GetRolesForVersion.
  assert (existsb (λ x, v_ID x =? v_ID v) (versions c) = true) as ->.
  { apply existsb_elem. exists v. split; [done|]. by apply bool_decide_eq_true. }
  unfold distinct_roles. by rewrite distinct_on_keys, sorted_keys.
Qed.
Lemma effective_roles_keys c working ins k :
  (∀ i, i ∈ ins → ic_ChildVersionID i ∈ v_ID <$> versions c) →
  k ∈ br_key <$> effective_roles c working ins ↔
  k ∈ br_key <$> working ∨ ∃ i, i ∈ ins ∧ k ∈ br_key <$> version_gives c (ic_ChildVersionID i).
Proof.
  intros Hi. unfold effective_roles. rewrite fmap_app, elem_of_app. apply or_iff_compat_l. rewrite list_elem_of_fmap.
  setoid_rewrite list_elem_of_bind. split.
  - intros (r & -> & i & (r' & -> & Hr')%list_elem_of_fmap & Hin). exists i. split; [done|].
    rewrite <-GetRolesForVersion_keys by auto. change (br_key (via _ r')) with (br_key r'). by apply list_elem_of_fmap_2.
  - intros (i & Hin & Hk). rewrite <-GetRolesForVersion_keys in Hk by auto. apply list_elem_of_fmap in Hk as (r & -> & Hr).
    exists (via (ic_ChildBundleID i) r). split; [done|]. exists i. split; [by apply list_elem_of_fmap_2|done].
Qed.
Lemma diffRoles_empty prev next :
  diffRoles prev next = ([], []) ↔ ∀ k, k ∈ br_key <$> prev ↔ k ∈ br_key <$> next.
Proof.
  unfold diffRoles, sortRoles. split.
  - intros E. assert (filter (not_in prev) next = [] ∧ filter (not_in next) prev = []) as [E1 E2].
    { injection E as E1 E2. split; apply Permutation_nil_r; [rewrite <-E1|rewrite <-E2]; symmetry; apply stable_sort_perm. }
    intros k. split; intros (r & -> & Hr)%list_elem_of_fmap; apply dec_stable; intros Hn.
    + by apply (filter_nil_not_elem_of _ _ r E2 Hn).
    + by apply (filter_nil_not_elem_of _ _ r E1 Hn).
  - intros E. rewrite !filter_none; [done|..]; intros r Hr Hn; apply Hn, E; by apply list_elem_of_fmap_2.
Qed.

(** ** Facts: moving people *)
Section moved.
Context (d : Db) (Hok : catalog_ok (catalog (tables d))).
Context (c' c0 : Catalog) (version bundle : string) (users : list string) (actor : string) (next : list BundleRole).
Let c := catalog (tables d).
Context (Hassign : assignments c' = repin c0 version bundle users actor <$> assignments c).
Context (Hold : ∀ a k, a ∈ assignments c → k ∈ br_key <$> version_gives c' (as_VersionID a) ↔ k ∈ br_key <$> version_gives c (as_VersionID a)).
Context (Hnew : ∀ k, k ∈ br_key <$> version_gives c' version ↔ k ∈ br_key <$> next).
Context (Hrow : ∀ a, a ∈ assignments c → as_VersionID a ∈ v_ID <$> versions c0).
Context (Hholds : ∀ u, u ∈ users → ∃ a, a ∈ assignments c ∧ as_UserID a = u ∧ as_BundleID a = bundle).

Lemma repin_ids a :
  as_UserID (repin c0 version bundle users actor a) = as_UserID a ∧
  as_BundleID (repin c0 version bundle users actor a) = as_BundleID a.
Proof. unfold repin. destruct (_ && _ && _); [|done]. by destruct (head _). Qed.
Lemma repin_version a :
  a ∈ assignments c →
  as_VersionID (repin c0 version bundle users actor a) =
  if (as_BundleID a =? bundle) && bool_decide (as_UserID a ∈ users) then version else as_VersionID a.
Proof.
  intros Ha. unfold repin. destruct ((as_BundleID a =? bundle) && _); [|done]. simpl. case_bool_decide as E; [done|].
  destruct (head _) eqn:Eh; [done|]. apply head_None in Eh. apply Hrow, list_elem_of_fmap in Ha as (v & Ev & Hv).
  by destruct (filter_nil_not_elem_of _ _ v Eh (eq_sym Ev)).
Qed.
Lemma base_moved u k :
  holds (userBaseHoldings (set_catalog d c') u) k = true ↔
  holds (if bool_decide (u ∈ users) then userBaseHoldingsWithBundleAt d u bundle next else userBaseHoldings d u) k = true.
Proof.
  assert (holds (userBaseHoldings (set_catalog d c') u) k = true ↔
          (directly d u k ∨ ∃ a, a ∈ assignments c ∧ as_UserID a = u ∧
             k ∈ br_key <$> version_gives c' (if (as_BundleID a =? bundle) && bool_decide (u ∈ users) then version else as_VersionID a))
          ∧ ¬ revoking d u k) as ->.
  { rewrite base_iff, set_catalog_revoking. apply and_iff_compat_r. unfold given, bundle_gives. simpl. rewrite Hassign.
    apply or_iff_compat_l. split.
    - intros (b & _ & a' & Ha' & <- & _ & Hk). apply list_elem_of_fmap in Ha' as (a & -> & Ha).
      rewrite repin_version in Hk by done. destruct (repin_ids a) as [-> _]. eauto.
    - intros (a & Ha & <- & Hk). exists (as_BundleID a). split; [by apply Hok|]. exists (repin c0 version bundle users actor a).
      destruct (repin_ids a) as [-> ->]. split_and!; try done; [by apply list_elem_of_fmap_2|]. by rewrite repin_version. }
  case_bool_decide as Hu.
  - unfold userBaseHoldingsWithBundleAt, subtractQueuedRevocations. rewrite holds_delete_all, holds_hold_all.
    rewrite userBaseHoldingsExcludingBundle_iff. fold (revoking d u k). unfold given, bundle_gives. fold c. split.
    + intros [[Hd|(a & Ha & <- & Hk)] Hr]; [tauto|]. split; [|done]. case_bool_decide as Eb; simpl in Hk; [right; by apply Hnew|].
      left. split; [|done]. right. exists (as_BundleID a). split; [done|]. exists a. rewrite Hold in Hk by done. done.
    + intros [[[[Hd|(b & Hb & a & Ha & <- & <- & Hk)] _]|Hk] Hr]; (split; [|done]); [by left| |]; right.
      * exists a. rewrite (bool_decide_eq_false_2 _ Hb). simpl. by rewrite Hold.
      * destruct (Hholds u Hu) as (a & Ha & <- & Eb). exists a. rewrite (bool_decide_eq_true_2 _ Eb). simpl. by rewrite Hnew.
  - rewrite base_iff. apply and_iff_compat_r. unfold given, bundle_gives. fold c. setoid_rewrite andb_false_r. split.
    + intros [?|(a & Ha & Hu' & Hk)]; [by left|]. rewrite Hold in Hk by done. right. exists (as_BundleID a). split; [by apply Hok|]. by exists a.
    + intros [?|(b & _ & a & Ha & Hu' & _ & Hk)]; [by left|]. right. exists a. by rewrite Hold.
Qed.
Lemma moved_queues actor' reason ref :
  rules c' = rules c → NoDup users →
  difference_queued d (set_catalog d c') actor' reason "bundle" ref
    (delta_params (λ u, holderDelta d u bundle next (GetActiveMappingRules c)) actor' reason "bundle" ref users []).1
    (delta_params (λ u, holderDelta d u bundle next (GetActiveMappingRules c)) actor' reason "bundle" ref users []).2.
Proof.
  intros Hr Hnd. assert (∀ u, closure_of (set_catalog d c') u = effectiveClosure
    (if bool_decide (u ∈ users) then userBaseHoldingsWithBundleAt d u bundle next else userBaseHoldings d u) (GetActiveMappingRules c)) as Hc.
  { intros u. unfold closure_of. cbn [catalog tables set_catalog with_tables with_catalog]. unfold GetActiveMappingRules. rewrite Hr.
    apply effectiveClosure_base. intros k. apply base_moved. }
  apply loop_queues; [done..| |].
  - intros u Hu. unfold owed, holderDelta, closure_of at 1. by rewrite Hc, bool_decide_eq_true_2.
  - intros u Hu. unfold owed, closure_of at 1. rewrite Hc, bool_decide_eq_false_2 by done. apply closureDelta_same.
Qed.
End moved.

Lemma GetBundleHoldersByVersion_elem c bundle h :
  h ∈ GetBundleHoldersByVersion c bundle →
  ∃ a, a ∈ assignments c ∧ as_UserID a = h_UserID h ∧ as_BundleID a = bundle ∧ as_VersionID a = h_VersionID h.
Proof.
  unfold GetBundleHoldersByVersion. rewrite stable_sort_elem, list_elem_of_bind. intros (a & Hh & [Eb Ha]%list_elem_of_filter).
  apply list_elem_of_fmap in Hh as (v & -> & [Ev _]%list_elem_of_filter). by exists a.
Qed.

Section move.
Context (sha256hex : string → string) (formatDay : Z → string).
Lemma WithCancels_same out changes :
  bo_UserID (WithCancels sha256hex formatDay out changes) = bo_UserID out ∧
  bo_Effect (WithCancels sha256hex formatDay out changes) = bo_Effect out.
Proof. by destruct changes. Qed.
Lemma describeMove_effect from to adds revokes : (describeMove from to adds revokes).1.1 ≠ EffectBlocked.
Proof. by destruct adds, revokes. Qed.
Lemma move_outcome_who d req target tv wanted u :
  bo_UserID (move_outcome sha256hex formatDay d req target tv wanted u) = u ∧
  (bo_Effect (move_outcome sha256hex formatDay d req target tv wanted u) ≠ EffectBlocked ↔ is_Some (wanted !! u)).
Proof.
  unfold move_outcome. destruct (wanted !! u) as [h|]; [|split; [done|]; split; [done|by intros [? [=]]]].
  case_bool_decide; [by split|]. destruct (holderDelta _ _ _ _ _) as [adds revokes].
  pose proof (describeMove_effect (h_Version h) tv adds revokes) as He.
  destruct (describeMove _ _ _ _) as [[effect detail] consequence]. simpl in He. set (out := {| bo_UserID := u |}).
  destruct (WithCancels_same out (cancelsLine d (deltaWrites u adds revokes "bundle" (mq_BundleID req)))) as [-> ->]. by split.
Qed.
Lemma actionable_users d req target tv wanted :
  bo_UserID <$> filter (λ o, bo_Effect o ≠ EffectBlocked) (move_outcome sha256hex formatDay d req target tv wanted <$> mq_UserIDs req) =
  filter (λ u, is_Some (wanted !! u)) (mq_UserIDs req).
Proof.
  rewrite filter_fmap, <-list_fmap_compose.
  rewrite (list_filter_iff _ (λ u, is_Some (wanted !! u))) by (intros u; apply move_outcome_who).
  trans ((λ u : string, u) <$> filter (λ u, is_Some (wanted !! u)) (mq_UserIDs req)); [|apply list_fmap_id].
  apply list_fmap_ext. intros _ u _. apply move_outcome_who.
Qed.
Lemma wanted_holds c bundle u h :
  wanted_holders c bundle !! u = Some h →
  ∃ a, a ∈ assignments c ∧ as_UserID a = u ∧ as_BundleID a = bundle.
Proof.
  intros E. assert (h ∈ GetBundleHoldersByVersion c bundle ∧ h_UserID h = u) as [Hin <-].
  { revert E. unfold wanted_holders. induction (GetBundleHoldersByVersion c bundle) as [|x l IH] using rev_ind; simpl; [done|].
    rewrite foldl_app, elem_of_app, list_elem_of_singleton. simpl. rewrite lookup_insert_Some.
    intros [[<- ->]|[_ E]]; [auto|]. destruct (IH E). auto. }
  apply GetBundleHoldersByVersion_elem in Hin as (a & ? & ? & ? & _). eauto.
Qed.
Lemma holder_complete c bundle a :
  a ∈ assignments c → as_BundleID a = bundle → as_VersionID a ∈ v_ID <$> versions c →
  as_UserID a ∈ h_UserID <$> GetBundleHoldersByVersion c bundle.
Proof.
  intros Ha Hb (v & Ev & Hv)%list_elem_of_fmap. unfold GetBundleHoldersByVersion. apply list_elem_of_fmap. eexists.
  rewrite stable_sort_elem, list_elem_of_bind. split; [|exists a; split; [apply list_elem_of_fmap; exists v; split; [reflexivity|]|];
    by apply list_elem_of_filter]. done.
Qed.
Lemma wanted_complete c bundle a :
  a ∈ assignments c → as_BundleID a = bundle → as_VersionID a ∈ v_ID <$> versions c →
  is_Some (wanted_holders c bundle !! as_UserID a).
Proof.
  intros Ha Hb Hv. destruct (proj1 (list_elem_of_fmap _ _ _) (holder_complete c bundle a Ha Hb Hv)) as (h & -> & Hh).
  unfold wanted_holders. induction (GetBundleHoldersByVersion c bundle) as [|x l IH] using rev_ind; [by apply elem_of_nil in Hh|].
  rewrite foldl_app. simpl. apply elem_of_app in Hh as [Hh| ->%list_elem_of_singleton].
  - destruct (decide (h_UserID x = h_UserID h)) as [->|]; [rewrite lookup_insert_eq; eauto|rewrite lookup_insert_ne by done; auto].
  - rewrite lookup_insert_eq. eauto.
Qed.
End move.

(** ** Facts: publishing *)
Definition snap (version : string) (x : Include) : BundleInclude :=
  {| in_Owner := version; in_ChildBundleID := ic_ChildBundleID x; in_ChildVersionID := ic_ChildVersionID x |}.
(** A catalog with one more version of a bundle and its holders moved. *)
Record published (c c' : Catalog) (v : BundleVersion) (bundle actor : string) (moved : list string) (roles : list Role)
    (ins : list Include) : Prop := {
  pb_bundles : bundles c' = bundles c;
  pb_rules : rules c' = rules c;
  pb_working : bundle_roles c' = bundle_roles c;
  pb_own_includes : filter (λ i, in_Owner i = bundle) (includes c') = filter (λ i, in_Owner i = bundle) (includes c);
  pb_versions : versions c' = versions c ++ [v];
  pb_roles w k : (w, k) ∈ version_roles c' ↔ (w, k) ∈ version_roles c ∨ w = v_ID v ∧ k ∈ roles;
  pb_includes : version_includes c' = version_includes c ++ (snap (v_ID v) <$> ins);
  pb_assign : ∃ c0, versions c0 = versions c ++ [v] ∧ assignments c' = repin c0 (v_ID v) bundle moved actor <$> assignments c;
}.
Lemma repin_nobody c0 version bundle actor (l : list Assignment) : repin c0 version bundle [] actor <$> l = l.
Proof.
  rewrite <-(list_fmap_id l) at 2. apply list_fmap_ext. intros _ a _. unfold repin.
  rewrite (bool_decide_eq_false_2 (_ ∈ [])) by apply not_elem_of_nil. by rewrite andb_false_r.
Qed.
Lemma filter_untouched {A} (P : A → Prop) `{∀ x, Decision (P x)} (h : A → A) (l : list A) :
  (∀ x, P (h x) → h x = x) → (∀ x, P x → h x = x) → filter P (h <$> l) = filter P l.
Proof.
  intros H1 H2. induction l as [|x l IH]; [done|]. rewrite fmap_cons. destruct (decide (P (h x))) as [Hp|Hp].
  - rewrite filter_cons_True, IH by done. rewrite H1 in Hp |- * by done. by rewrite filter_cons_True.
  - rewrite filter_cons_False, IH by done. rewrite filter_cons_False; [done|]. intros Hx. apply Hp. by rewrite H2.
Qed.
Section published.
Context `{!EnqueueEnv}.
Lemma PublishVersionAndEnqueue_ok d g actor bundle note roles moved params g' d' v ids :
  PublishVersionAndEnqueue d g actor bundle note roles moved params = (g', inr (d', (v, ids))) →
  v_ID v = uuid (next_uuid d) ∧ v_BundleID v = bundle ∧ v_Version v = (latest_number (catalog (tables d)) bundle + 1)%Z ∧
  published (catalog (tables d)) (catalog (tables d')) v bundle actor moved roles [] ∧
  ∃ d1 audits, outbox d1 = outbox d ∧ ledger d1 = ledger d ∧ now d1 = now d ∧
    enqueueWrites d1 g audits params None = (g', inr (d', ids)).
Proof.
  unfold PublishVersionAndEnqueue. cbn [mint]. destruct (negb _); [done|].
  set (w := {| v_ID := uuid (next_uuid d) |}). set (c1 := with_versions _ _ _ _). set (c2 := match moved with [] => c1 | _ => _ end).
  destruct (cascadeWrites _ _ _ _) as [g1 [e|[d3 ids3]]] eqn:Ew; [done|]. intros [= <- <- <- <-].
  apply cascadeWrites_ok in Ew. pose proof (cascadeWrites_same_record _ _ _ _ _ _ _ Ew) as (Et & _).
  split_and!; [done..| |].
  - rewrite Et. assert (assignments c2 = repin c1 (uuid (next_uuid d)) bundle moved actor <$> assignments (catalog (tables d)) ∧
      c2 = with_assignments c1 (assignments c2)) as [Ea Ec2].
    { unfold c2. destruct moved; [|done]. by rewrite repin_nobody. }
    cbn [tables set_catalog with_tables catalog with_catalog]. rewrite Ec2.
    split; simpl; try done; [|by rewrite app_nil_r|by exists c1].
    intros w' k. rewrite insert_new_elem, list_elem_of_fmap. apply or_iff_compat_l. split.
    + intros (k' & [= -> ->] & ?). done.
    + intros [-> ?]. by exists k.
  - eexists _, _. split_and!; [| | |exact Ew]; done.
Qed.
Lemma SnapshotVersionIncludes_ok ins d version d' :
  SnapshotVersionIncludes d version ins = inr d' →
  catalog (tables d') = with_versions (catalog (tables d)) (versions (catalog (tables d))) (version_roles (catalog (tables d)))
    (version_includes (catalog (tables d)) ++ (snap version <$> ins)) ∧ NoDup (ic_ChildBundleID <$> ins) ∧
  (∀ x, x ∈ ins → ∀ j, j ∈ version_includes (catalog (tables d)) → in_Owner j = version → in_ChildBundleID j ≠ ic_ChildBundleID x).
Proof.
  revert d; induction ins as [|x ins IH]; intros d.
  - intros [= <-]. simpl. rewrite app_nil_r. split_and!; [by destruct (catalog (tables d))|apply NoDup_nil_2|by intros ? ?%elem_of_nil].
  - cbn [SnapshotVersionIncludes]. destruct (existsb _ (version_includes _)) eqn:Ex; [done|].
    do 3 (case_match; [done|]). intros (Ec & Hnd & Hnew)%IH. cbn [catalog tables set_catalog with_tables with_catalog] in *.
    csimpl in *. split_and!.
    + rewrite Ec, <-(assoc_L (++)). done.
    + constructor; [|done]. intros (y & E & Hy)%list_elem_of_fmap. eapply (Hnew y Hy (snap version x)); [|done|done].
      apply elem_of_app. right. by left.
    + intros y [->|Hy]%elem_of_cons j Hj Ho.
      * intros E. apply not_true_iff_false in Ex. apply Ex, existsb_elem. exists j. split; [done|].
        by rewrite (bool_decide_eq_true_2 _ Ho), (bool_decide_eq_true_2 _ E).
      * apply (Hnew y Hy j); [|done]. apply elem_of_app. by left.
Qed.
Lemma update_includers_ok parents d g actor child v g' d' :
  update_includers d g actor parents child v = (g', inr d') →
  ∃ ins, catalog (tables d') = with_working (catalog (tables d)) (bundle_roles (catalog (tables d))) ins ∧
    filter (λ i, in_Owner i = child) ins = filter (λ i, in_Owner i = child) (includes (catalog (tables d))) ∧
    ledger d' = ledger d ∧ now d' = now d.
Proof.
  revert d g; induction parents as [|parent parents IH]; intros d g; simpl.
  { intros [= _ <-]. exists (includes (catalog (tables d))). by destruct (catalog (tables d)). }
  destruct (SetWorkingInclude d g actor parent child v) as [g1 [e|[d1 x]]] eqn:E; [done|]. intros (ins & Ec & Ef & El & En)%IH.
  unfold SetWorkingInclude in E. case_bool_decide as Hne; [done|]. destruct (bundleName _ parent) as [pn|]; [|done].
  destruct (bundleName _ child) as [cn|]; [|done]. destruct (BundleIncludesAnything _ _); [done|]. case_bool_decide; [|done].
  destruct (pinned_version _ _ _) as [w|]; [|done]. set (i := {| in_Owner := parent |}) in E.
  destruct (cascadeWrites _ _ _ _) as [g2 [e|[d2 ids]]] eqn:Ew; [done|]. injection E as _ <- _.
  apply cascadeWrites_ok, cascadeWrites_same_record in Ew as (Et & El2 & En2 & _). exists ins. rewrite Ec, Ef, Et, El, En.
  cbn [catalog tables set_catalog with_tables with_catalog bundle_roles includes with_working]. split_and!; [done| |done..].
  unfold upsert_include. destruct (existsb _ _).
  - apply filter_untouched; intros j; simpl; case_bool_decide; simpl; try done; case_bool_decide; simpl; congruence.
  - rewrite filter_app, filter_cons_False by (simpl; congruence). by rewrite app_nil_r.
Qed.
End published.

Section contents.
Context `{!Uuids} (c c' : Catalog) (n : nat) (v : BundleVersion) (bundle actor : string) (moved : list string).
Context (working : list BundleRole) (ins : list Include).
Context (Hwf : catalog_wf c n) (Hid : v_ID v = uuid n) (Hpub : published c c' v bundle actor moved (br_key <$> working) ins).
Context (Hchild : ∀ x, x ∈ ins → ic_ChildVersionID x ∈ v_ID <$> versions c).
Lemma new_id w : w ∈ v_ID <$> versions c → w ≠ v_ID v.
Proof. intros Hw ->. rewrite Hid in Hw. revert Hw. by apply fresh_id, Hwf. Qed.
Lemma gives_old w k : w ∈ v_ID <$> versions c → k ∈ br_key <$> version_gives c' w ↔ k ∈ br_key <$> version_gives c w.
Proof.
  intros Hw. pose proof (new_id w Hw) as Hne. rewrite !version_gives_keys. setoid_rewrite (pb_roles _ _ _ _ _ _ _ _ Hpub).
  rewrite (pb_includes _ _ _ _ _ _ _ _ Hpub). setoid_rewrite elem_of_app. split.
  - intros [[?|[? _]]|(j & [Hj|(x & -> & _)%list_elem_of_fmap] & Ho & Hk)]; [by left|done| |simpl in Ho; congruence].
    right. exists j. split_and!; try done. destruct Hk as [?|[E _]]; [done|].
    destruct (cw_include_owner _ _ Hwf j Hj) as [_ Hc]. by apply new_id in Hc.
  - intros [?|(j & Hj & Ho & Hk)]; [by left; left|right; exists j; auto].
Qed.
Lemma gives_new k :
  (∀ x j, x ∈ ins → j ∈ version_includes c → in_Owner j ≠ ic_ChildVersionID x) →
  k ∈ br_key <$> version_gives c' (v_ID v) ↔ k ∈ br_key <$> effective_roles c working ins.
Proof.
  intros Hone. rewrite effective_roles_keys by done. rewrite version_gives_keys. setoid_rewrite (pb_roles _ _ _ _ _ _ _ _ Hpub).
  rewrite (pb_includes _ _ _ _ _ _ _ _ Hpub). setoid_rewrite elem_of_app. setoid_rewrite version_gives_keys. split.
  - intros [[Hr|[_ ?]]|(j & [Hj|(x & -> & Hx)%list_elem_of_fmap] & Ho & Hk)]; [|by left| |].
    + by apply (cw_role_owner _ _ Hwf), new_id in Hr.
    + destruct (cw_include_owner _ _ Hwf j Hj) as [Hin _]. by apply new_id in Hin.
    + right. exists x. split; [done|]. left. destruct Hk as [?|[E _]]; [done|]. simpl in E. specialize (Hchild x Hx).
      by apply new_id in Hchild.
  - intros [?|(x & Hx & [Hk|(j & Hj & Ho & _)])]; [by left; right| |by destruct (Hone x j Hx Hj)].
    right. exists (snap (v_ID v) x). split_and!; [|done|by left]. right. by apply list_elem_of_fmap_2.
Qed.
End contents.
Lemma GetWorkingIncludes_versions c bundle x : x ∈ GetWorkingIncludes c bundle → ic_ChildVersionID x ∈ v_ID <$> versions c.
Proof.
  unfold GetWorkingIncludes, list_includes. rewrite stable_sort_elem, list_elem_of_bind. intros (i & Hx & _).
  unfold join_include in Hx. apply list_elem_of_bind in Hx as (b & Hx & _).
  apply list_elem_of_fmap in Hx as (w & -> & [Ew Hw]%list_elem_of_filter). simpl. rewrite <-Ew. by apply list_elem_of_fmap_2.
Qed.
Lemma filter_key {A} (key : A → string) (l : list A) k :
  NoDup (key <$> l) → filter (λ x, key x = k) l = option_list (head (filter (λ x, key x = k) l)).
Proof.
  induction l as [|x l IH]; [done|]. csimpl. intros [Hx Hnd]%NoDup_cons. destruct (decide (key x = k)) as [<-|Hne].
  - rewrite filter_cons_True by done. simpl. f_equal. apply filter_none. intros y Hy E. apply Hx. rewrite <-E. by apply list_elem_of_fmap_2.
  - rewrite filter_cons_False by done. auto.
Qed.
Lemma holders_NoDup `{!Uuids} c n bundle : catalog_wf c n → NoDup (h_UserID <$> GetBundleHoldersByVersion c bundle).
Proof.
  intros Hwf. unfold GetBundleHoldersByVersion. rewrite stable_sort_perm.
  pose proof (GetUsersForBundle_NoDup c bundle (cw_holders _ _ Hwf)) as Hnd. unfold GetUsersForBundle in Hnd.
  eapply sublist_NoDup; [exact Hnd|]. clear Hnd. induction (filter _ (assignments c)) as [|a l IH]; [done|]. csimpl.
  rewrite (filter_key v_ID) by apply Hwf. destruct (head _); csimpl; [by apply sublist_skip|by apply sublist_cons].
Qed.
Lemma head_sorted {A} (f : A → Z) (l : list A) x :
  head (stable_sort (cmp_on f Z.compare) l) = Some x → x ∈ l ∧ ∀ y, y ∈ l → (f x ≤ f y)%Z.
Proof.
  intros E. pose proof (stable_sort_ascending (cmp:=cmp_on f Z.compare) l) as Hs. split.
  - rewrite <-(stable_sort_elem (cmp_on f Z.compare)). by apply head_Some_elem_of.
  - intros y Hy. rewrite <-(stable_sort_elem (cmp_on f Z.compare)) in Hy. destruct (stable_sort _ l) as [|z l']; [done|].
    simpl in E. injection E as ->. apply elem_of_cons in Hy as [->|Hy]; [done|]. apply StronglySorted_inv in Hs as [_ Hs].
    rewrite Forall_forall in Hs. specialize (Hs y Hy). unfold cmp_le, cmp_on in Hs. destruct (Z.compare_spec (f x) (f y)); [lia..|done].
Qed.
Lemma LatestVersion_number c bundle v :
  (∀ v, v ∈ versions c → (1 ≤ v_Version v)%Z) → LatestVersion c bundle = Some v →
  v ∈ versions c ∧ v_BundleID v = bundle ∧ v_Version v = latest_number c bundle.
Proof.
  intros Hpos E. apply (head_sorted (λ v, - v_Version v)%Z) in E as [[Hb Hv]%list_elem_of_filter Hmax]. split_and!; [done..|].
  pose proof (latest_number_ge c v Hv) as Hge. rewrite Hb in Hge. apply Z.le_antisymm; [done|].
  assert (∀ y, y ∈ filter (λ v, v_BundleID v = bundle) (versions c) → (v_Version y ≤ v_Version v)%Z) as Hle
    by (intros y Hy; specialize (Hmax y Hy); lia).
  specialize (Hpos v Hv). clear -Hle Hpos. unfold latest_number. induction (filter _ _) as [|y l IH]; csimpl; [lia|].
  apply Z.max_lub; [apply Hle; by left|]. apply IH. intros. apply Hle. by right.
Qed.
Lemma LatestVersion_published c c' v bundle actor moved roles ins :
  published c c' v bundle actor moved roles ins → v_BundleID v = bundle → v_Version v = (latest_number c bundle + 1)%Z →
  LatestVersion c' bundle = Some v.
Proof.
  intros Hpub Hb Hnum. assert (v ∈ filter (λ w, v_BundleID w = bundle) (versions c')) as Hv.
  { apply list_elem_of_filter. split; [done|]. rewrite (pb_versions _ _ _ _ _ _ _ _ Hpub), elem_of_app. right. by left. }
  destruct (LatestVersion c' bundle) as [w|] eqn:E.
  - apply (head_sorted (λ v, - v_Version v)%Z) in E as [[Hwb Hw]%list_elem_of_filter Hmax]. specialize (Hmax v Hv).
    rewrite (pb_versions _ _ _ _ _ _ _ _ Hpub), elem_of_app, list_elem_of_singleton in Hw. destruct Hw as [Hw| ->]; [|done].
    pose proof (latest_number_ge c w Hw) as Hge. rewrite Hwb in Hge. lia.
  - apply head_None in E. rewrite <-(stable_sort_elem (cmp_on (λ v, - v_Version v)%Z Z.compare)), E in Hv. by apply elem_of_nil in Hv.
Qed.
Section publish_facts.
Context `{!EnqueueEnv} (sha256hex : string → string) (compare_names : string → string → comparison) (formatDay : Z → string).
Context (find_user : string → option string) (clock : Z).
Lemma BundleDraft_fields c bundle draft :
  BundleDraft compare_names c bundle = Some draft →
  ∃ latest, LatestVersion c bundle = Some latest ∧ df_NextVersion draft = (v_Version latest + 1)%Z ∧
    df_Working draft = GetRolesForBundle c bundle ∧ df_Includes draft = GetWorkingIncludes c bundle ∧
    df_WorkingEffective draft = effective_roles c (df_Working draft) (df_Includes draft).
Proof.
  unfold BundleDraft. destruct (LatestVersion c bundle) as [latest|]; [|done]. cbn [mbind option_bind].
  destruct (diffRoles _ _). intros [= <-]. by exists latest.
Qed.
Lemma PublishBundleVersion_ok d g actor req g' d' plan v ids :
  PublishBundleVersion sha256hex compare_names formatDay find_user clock d g actor req = (g', inr (d', (plan, v, ids))) →
  ∃ draft d1 d2 g1 audits items params moved,
    BundleDraft compare_names (catalog (tables d)) (rq_BundleID req) = Some draft ∧ Empty draft = false ∧
    publish_moves d actor req draft = (moved, (items, params)) ∧
    v_ID v = uuid (next_uuid d) ∧ v_BundleID v = rq_BundleID req ∧
    v_Version v = (latest_number (catalog (tables d)) (rq_BundleID req) + 1)%Z ∧
    published (catalog (tables d)) (catalog (tables d')) v (rq_BundleID req) actor moved (br_key <$> df_Working draft) (df_Includes draft) ∧
    NoDup (ic_ChildBundleID <$> df_Includes draft) ∧ outbox d1 = outbox d ∧ ledger d1 = ledger d ∧
    enqueueWrites d1 g audits params None = (g1, inr (d2, ids)).
Proof.
  unfold PublishBundleVersion, RehearseBundlePublish. set (c := catalog (tables d)) in *. set (bundle := rq_BundleID req).
  destruct (BundleDraft compare_names c bundle) as [draft|] eqn:Ed; [|done]. cbn [mbind option_bind].
  destruct (Empty draft) eqn:Ee; [done|]. destruct (checkIncluderChoices c req) as [e|includers]; [done|].
  destruct (publish_moves d actor req draft) as [moved [items params]] eqn:Em.
  destruct (PublishVersionAndEnqueue _ _ _ _ _ _ _ _) as [g1 [e|[d2 [v2 ids2]]]] eqn:Ep; [done|].
  destruct (SnapshotVersionIncludes d2 (v_ID v2) (df_Includes draft)) as [e|d3] eqn:Es; [done|].
  destruct (update_includers _ _ _ _ _ _) as [g2 [e|d4]] eqn:Eu; [done|]. unfold withLockedAccess.
  destruct (flush _ _ _ _ _) as [e|d5] eqn:Ef; [done|]. intros E. injection E as -> <- _ -> ->.
  apply PublishVersionAndEnqueue_ok in Ep as (Hid & Hb & Hnum & [P1 P2 P3 P4 P5 P6 P7 P8] & d1 & audits & Ho & Hl & _ & Ew).
  apply SnapshotVersionIncludes_ok in Es as (Ec3 & Hnd & _). apply update_includers_ok in Eu as (ins & Ec4 & Ei & _).
  assert (catalog (tables d5) = with_working (with_versions (catalog (tables d2)) (versions (catalog (tables d2)))
     (version_roles (catalog (tables d2))) (version_includes (catalog (tables d2)) ++ (snap (v_ID v) <$> df_Includes draft)))
     (bundle_roles (catalog (tables d2))) ins) as Ec5.
  { pose proof (cv_policy _ _ (proj2 (flush_ok _ _ _ _ _ _ Ef))) as Hp. injection Hp as Hc _ _ _ _. by rewrite Hc, Ec4, Ec3. }
  exists draft, d1, d2, g1, audits, items, params, moved. split_and!; try done. rewrite Ec5. rewrite Ec3 in Ei.
  split; try done; simpl; [rewrite Ei; exact P4|by rewrite P7, app_nil_r].
Qed.
Lemma publish_moves_users d actor req draft moved items params :
  publish_moves d actor req draft = (moved, (items, params)) →
  ∃ reason, (items, params) = delta_params (λ u, holderDelta d u (rq_BundleID req) (df_WorkingEffective draft)
      (GetActiveMappingRules (catalog (tables d)))) actor reason "bundle" (rq_BundleID req) moved [] ∧
    moved = if rq_Migrate req then h_UserID <$> GetBundleHoldersByVersion (catalog (tables d)) (rq_BundleID req) else [].
Proof.
  unfold publish_moves. destruct (rq_Migrate req); intros E; apply pair_eq in E as [<- E].
  - eexists. split; [symmetry; exact E|done].
  - exists "". by rewrite <-E.
Qed.
(** Publishing and moving are steps of the catalog. *)
Lemma update_includers_inv parents d g actor child v g' d' :
  update_includers d g actor parents child v = (g', inr d') → catalog_inv d → catalog_inv d'.
Proof.
  revert d g; induction parents as [|parent parents IH]; intros d g; simpl; [by intros [= _ <-]|].
  destruct (SetWorkingInclude d g actor parent child v) as [g1 [e|[d1 x]]] eqn:E; [done|]. eauto using include_keeps.
Qed.
Lemma PublishBundleVersion_inv d g actor req g' d' x :
  PublishBundleVersion sha256hex compare_names formatDay find_user clock d g actor req = (g', inr (d', x)) → catalog_inv d → catalog_inv d'.
Proof.
  unfold PublishBundleVersion. destruct (RehearseBundlePublish _ _ _ _ _) as [[plan draft]|]; [|done].
  destruct (Empty draft); [done|]. destruct (checkIncluderChoices _ req) as [e|includers]; [done|].
  destruct (publish_moves d actor req draft) as [moved [items params]].
  destruct (PublishVersionAndEnqueue _ _ _ _ _ _ _ _) as [g1 [e|[d2 [v2 ids2]]]] eqn:Ep; [done|].
  destruct (SnapshotVersionIncludes d2 (v_ID v2) (df_Includes draft)) as [e|d3] eqn:Es; [done|].
  destruct (update_includers _ _ _ _ _ _) as [g2 [e|d4]] eqn:Eu; [done|]. intros E Hd.
  apply (locked_keeps find_user sha256hex clock items (g2, inr (d4, (applied_plan plan, v2, ids2))) g' d' x E).
  intros d5 [= _ <- _]. eauto using update_includers_inv, snapshot_keeps, publish_keeps.
Qed.
End publish_facts.

(** ** Facts: nothing left to publish *)
Definition core (x : Include) : string * string := (ic_ChildBundleID x, ic_ChildVersionID x).
Lemma joined_core c' c i v :
  bundles c' = bundles c → versions c' = versions c ++ [v] → in_ChildVersionID i ≠ v_ID v →
  core <$> join_include c' i = core <$> join_include c i.
Proof.
  intros Hb Hv Hne. unfold join_include. rewrite Hb, Hv, filter_app, (filter_cons_False _ v) by congruence.
  rewrite filter_nil, app_nil_r. induction (filter _ (bundles c)) as [|b l IH]; [done|]. csimpl. rewrite !fmap_app, IH. f_equal.
  by rewrite <-!list_fmap_compose.
Qed.
Lemma joined_once `{!Uuids} c n i :
  catalog_wf c n → in_ChildBundleID i ∈ b_ID <$> bundles c → in_ChildVersionID i ∈ v_ID <$> versions c →
  core <$> join_include c i = [(in_ChildBundleID i, in_ChildVersionID i)].
Proof.
  intros Hwf (b & Eib & Hb)%list_elem_of_fmap (w & Eiw & Hw)%list_elem_of_fmap. unfold join_include.
  rewrite (filter_key b_ID), (filter_key v_ID) by apply Hwf.
  destruct (head (filter _ (bundles c))) as [b'|] eqn:Eb; [|apply head_None in Eb; by destruct (filter_nil_not_elem_of _ _ b Eb (eq_sym Eib))].
  destruct (head (filter _ (versions c))) as [w'|] eqn:Ew; [done|]. apply head_None in Ew. by destruct (filter_nil_not_elem_of _ _ w Ew (eq_sym Eiw)).
Qed.
Lemma was_found (prev : list Include) p :
  NoDup (ic_ChildBundleID <$> prev) → p ∈ prev →
  foldl (λ m p, <[ic_ChildBundleID p := p]> m) (∅ : gmap string Include) prev !! ic_ChildBundleID p = Some p.
Proof.
  induction prev as [|q prev IH] using rev_ind; [by intros _ ?%elem_of_nil|].
  rewrite fmap_app, NoDup_app, foldl_app, elem_of_app, list_elem_of_singleton. simpl. intros (Hnd & Hq & _) [Hp| ->]; [|apply lookup_insert_eq].
  rewrite lookup_insert_ne; [auto|]. intros E. apply (Hq (ic_ChildBundleID p)); [by apply list_elem_of_fmap_2|]. rewrite E. by left.
Qed.
Lemma was_only (prev : list Include) k p :
  foldl (λ m p, <[ic_ChildBundleID p := p]> m) (∅ : gmap string Include) prev !! k = Some p → p ∈ prev ∧ ic_ChildBundleID p = k.
Proof.
  induction prev as [|q prev IH] using rev_ind; [done|]. rewrite foldl_app, elem_of_app, list_elem_of_singleton. simpl.
  rewrite lookup_insert_Some. intros [[<- <-]|[_ E]]; [auto|]. destruct (IH E). auto.
Qed.
Lemma next_includes_same was next :
  NoDup (ic_ChildBundleID <$> next) →
  (∀ x, x ∈ next → ∃ p, was !! ic_ChildBundleID x = Some p ∧ ic_ChildVersionID p = ic_ChildVersionID x) →
  ∃ rest, next_includes was next = (rest, []) ∧ ∀ k p, rest !! k = Some p → was !! k = Some p ∧ k ∉ ic_ChildBundleID <$> next.
Proof.
  revert was; induction next as [|x next IH]; intros was; csimpl.
  { intros _ _. exists was. split; [done|]. intros k p ?. split; [done|apply not_elem_of_nil]. }
  intros [Hx Hnd]%NoDup_cons Hwas. destruct (Hwas x ltac:(by left)) as (p & -> & Ep). rewrite (bool_decide_eq_true_2 _ Ep). cbn [negb].
  destruct (IH (delete (ic_ChildBundleID x) was) Hnd) as (rest & -> & Hrest).
  { intros y Hy. destruct (Hwas y ltac:(by right)) as (q & Eq & ?). exists q. rewrite lookup_delete_ne; [done|].
    intros E. apply Hx. rewrite E. by apply list_elem_of_fmap_2. }
  exists rest. split; [done|]. intros k q [[Hne Hq]%lookup_delete_Some Hk]%Hrest. split; [done|]. rewrite not_elem_of_cons. auto.
Qed.
Lemma diffIncludes_same compare_names prev next :
  core <$> prev ≡ₚ core <$> next → NoDup (ic_ChildBundleID <$> next) → diffIncludes compare_names prev next = [].
Proof.
  intros Hp Hnd. assert (ic_ChildBundleID <$> prev ≡ₚ ic_ChildBundleID <$> next) as Hc.
  { change ic_ChildBundleID with (fst ∘ core). rewrite !list_fmap_compose. by rewrite Hp. }
  unfold diffIncludes. set (was := foldl _ _ _).
  destruct (next_includes_same was next Hnd) as (rest & -> & Hrest).
  - intros x Hx. assert (core x ∈ core <$> prev) as (p & [= Eb Ev] & Hin)%list_elem_of_fmap by (rewrite Hp; by apply list_elem_of_fmap_2).
    exists p. rewrite Eb. split; [|done]. apply was_found; [by rewrite Hc|done].
  - assert (rest = ∅) as ->; [|done]. apply map_empty. intros k. destruct (rest !! k) as [p|] eqn:E; [|done].
    apply Hrest in E as [[Hin <-]%was_only Hk]. exfalso. apply Hk. rewrite <-Hc. by apply list_elem_of_fmap_2.
Qed.
Lemma list_includes_core c owner l :
  core <$> list_includes c owner l ≡ₚ filter (λ i, in_Owner i = owner) l ≫= λ i, core <$> join_include c i.
Proof.
  unfold list_includes. rewrite stable_sort_perm. induction (filter _ l) as [|i l' IH]; [done|]. csimpl. by rewrite fmap_app, IH.
Qed.
Section nothing_left.
Context `{!Uuids} (c c' : Catalog) (n : nat) (v : BundleVersion) (bundle actor : string) (moved : list string) (roles : list Role).
Let ins := GetWorkingIncludes c bundle.
Context (Hwf : catalog_wf c n) (Hid : v_ID v = uuid n) (Hpub : published c c' v bundle actor moved roles ins).
Lemma working_same : core <$> GetWorkingIncludes c' bundle ≡ₚ core <$> ins.
Proof.
  unfold ins, GetWorkingIncludes. rewrite !list_includes_core, (pb_own_includes _ _ _ _ _ _ _ _ Hpub).
  apply reflexive_eq. assert (∀ i, i ∈ filter (λ i, in_Owner i = bundle) (includes c) → core <$> join_include c' i = core <$> join_include c i) as Hj.
  2:{ induction (filter _ (includes c)) as [|i l IH]; [done|]. csimpl. rewrite Hj by (by left). f_equal. apply IH. intros. apply Hj. by right. }
  intros i [_ Hi]%list_elem_of_filter. eapply joined_core; [apply Hpub|apply Hpub|]. eapply new_id; [exact Hwf|exact Hid|]. by apply (cw_working_include _ _ Hwf).
Qed.
Lemma version_same : core <$> GetVersionIncludes c' (v_ID v) ≡ₚ core <$> ins.
Proof.
  unfold GetVersionIncludes. rewrite list_includes_core, (pb_includes _ _ _ _ _ _ _ _ Hpub), filter_app, filter_none.
  2:{ intros j Hj Ho. destruct (cw_include_owner _ _ Hwf j Hj) as [Hin _]. eapply new_id; eauto. }
  rewrite filter_every by (by intros j (x & -> & _)%list_elem_of_fmap). apply reflexive_eq. simpl.
  assert (∀ x, x ∈ ins → core <$> join_include c' (snap (v_ID v) x) = [core x]) as Hone.
  { intros x Hx. assert (ic_ChildBundleID x ∈ b_ID <$> bundles c ∧ ic_ChildVersionID x ∈ v_ID <$> versions c) as [Hb Hv].
    { unfold ins, GetWorkingIncludes, list_includes in Hx. rewrite stable_sort_elem, list_elem_of_bind in Hx. destruct Hx as (i & Hx & _).
      unfold join_include in Hx. apply list_elem_of_bind in Hx as (b & Hx & [Eb Hb]%list_elem_of_filter).
      apply list_elem_of_fmap in Hx as (w & -> & [Ew Hw]%list_elem_of_filter). simpl. rewrite <-Eb, <-Ew. split; by apply list_elem_of_fmap_2. }
    erewrite joined_core; [by eapply joined_once|apply Hpub|apply Hpub|]. eapply new_id; eauto. }
  clear -Hone. induction ins as [|x l IH]; [done|]. csimpl. rewrite Hone by (by left). simpl. f_equal. apply IH. intros. apply Hone. by right.
Qed.
(** The published version gives what the new working copy gives. *)
Lemma effective_same k :
  roles = br_key <$> GetRolesForBundle c bundle →
  (∀ x j, x ∈ ins → j ∈ version_includes c → in_Owner j ≠ ic_ChildVersionID x) →
  k ∈ br_key <$> GetRolesForVersion c' (v_ID v) ↔
  k ∈ br_key <$> effective_roles c' (GetRolesForBundle c' bundle) (GetWorkingIncludes c' bundle).
Proof.
  intros Hr Hone. pose proof Hpub as Hpub'. rewrite Hr in Hpub'. pose proof (λ x, GetWorkingIncludes_versions c bundle x) as Hchild.
  rewrite GetRolesForVersion_keys by (apply list_elem_of_fmap_2; rewrite (pb_versions _ _ _ _ _ _ _ _ Hpub), elem_of_app; right; by left).
  rewrite (gives_new _ _ _ _ _ _ _ _ _ Hwf Hid Hpub' Hchild k Hone), !effective_roles_keys by (intros i; apply GetWorkingIncludes_versions).
  unfold GetRolesForBundle at 2. rewrite (pb_working _ _ _ _ _ _ _ _ Hpub). apply or_iff_compat_l. split.
  - intros (i & Hi & Hk). assert (core i ∈ core <$> GetWorkingIncludes c' bundle) as (i' & [= _ Ei] & Hi')%list_elem_of_fmap
      by (rewrite working_same; by apply list_elem_of_fmap_2).
    exists i'. split; [done|]. rewrite <-Ei. apply (gives_old _ _ _ _ _ _ _ _ _ Hwf Hid Hpub'); auto.
  - intros (i & Hi & Hk). assert (core i ∈ core <$> ins) as (i' & [= _ Ei] & Hi')%list_elem_of_fmap
      by (rewrite <-working_same; by apply list_elem_of_fmap_2).
    exists i'. split; [done|]. rewrite Ei in Hk. apply (gives_old _ _ _ _ _ _ _ _ _ Hwf Hid Hpub') in Hk; auto.
Qed.
End nothing_left.

(** ** Properties *)

(** Moving people between versions queues exactly what it changes. Whoever
    of the named people holds the bundle is pinned to the version, which is one
    of the bundle's own, and everybody's queued writes, those who were not named
    or do not hold it included, are the difference between the closure they had
    and the closure their new pin gives. People who hold nothing to move leave
    everything as it was. *)
Theorem MoveHolders_queues_the_difference `{!EnqueueEnv} sha256hex formatDay find_user clock d g actor req g' d' plan ids :
  (∀ n, uuid n ≠ "") → catalog_inv d → NoDup (mq_UserIDs req) →
  MoveHolders sha256hex formatDay find_user clock d g actor req = (g', inr (d', (plan, ids))) →
  d' = d ∧ ids = [] ∨
  ∃ d1 d2 reason audits params,
    outbox d1 = outbox d ∧ ledger d1 = ledger d ∧
    (∀ u, filter (λ p, UserID p = u) params = writes_of actor reason "bundle" (mq_BundleID req) u (owed d d1 u)) ∧
    enqueueWrites d1 g audits params None = (g', inr (d2, ids)) ∧ converges d2 d' ∧
    catalog (tables d') = catalog (tables d1) ∧
    VersionBelongsTo (catalog (tables d)) (mq_BundleID req) (mq_VersionID req) = true ∧
    ∀ a, a ∈ assignments (catalog (tables d')) → as_UserID a ∈ mq_UserIDs req → as_BundleID a = mq_BundleID req →
         as_VersionID a = mq_VersionID req.
Proof.
  intros Hne Hwf Hnd. set (c := catalog (tables d)). unfold MoveHolders, RehearseMoveHolders. fold c.
  destruct (VersionBelongsTo c _ _) eqn:Eo; [|done]. cbn [negb bp_Outcomes]. set (target := GetRolesForVersion c _).
  rewrite actionable_users. set (wanted := wanted_holders _ _). set (users := filter _ (mq_UserIDs req)).
  assert (∀ u, u ∈ users → ∃ a, a ∈ assignments c ∧ as_UserID a = u ∧ as_BundleID a = mq_BundleID req) as Hholds.
  { intros u [[h Hh] _]%list_elem_of_filter. by eapply wanted_holds. }
  assert (NoDup users) as Hnu by (by apply NoDup_filter).
  assert (∀ a, a ∈ assignments c → as_VersionID a ∈ v_ID <$> versions c → as_BundleID a = mq_BundleID req →
               as_UserID a ∈ mq_UserIDs req → as_UserID a ∈ users) as Hall.
  { intros a Ha Hv Hb Hu. apply list_elem_of_filter. split; [|done]. by apply wanted_complete. }
  clearbody users.
  destruct (catalog_inv_ok d Hne Hwf) as [Hok _].
  assert (∀ a, a ∈ assignments c → as_VersionID a ∈ v_ID <$> versions c) as Hrow.
  { intros a Ha. destruct (cw_pinned _ _ Hwf a Ha) as [_ (v & Hv & <- & _)]. by apply list_elem_of_fmap_2. }
  destruct users as [|u0 us]; [intros [= _ <- _ <-]; by left|]. set (users := u0 :: us) in *. fold c. fold target.
  set (loop := delta_params _ _ _ _ _ _ _). rewrite (surjective_pairing loop).
  destruct (withLockedAccess _ _ _ _) as [g1 [e|[d3 ids3]]] eqn:El; [done|]. intros [= -> -> _ ->]. right.
  apply withLockedAccess_ok in El as (d2 & Em & Hf). unfold MoveHoldersAndEnqueue in Em. fold c in Em. rewrite Eo in Em. cbn [negb] in Em.
  apply cascadeWrites_ok in Em. set (c' := repinHolders c _ _ _ _) in Em.
  pose proof (cascadeWrites_same_record _ _ _ _ _ _ _ Em) as (Et & _). pose proof (proj2 (flush_ok _ _ _ _ _ _ Hf)) as Hv.
  assert (catalog (tables d') = c') as Ec by (pose proof (cv_policy _ _ Hv) as Hp; injection Hp as Hc _ _ _ _; by rewrite Hc, Et).
  assert (mq_VersionID req ∈ v_ID <$> versions c) as Hver.
  { apply existsb_elem in Eo as (v & Hin & Hvo). apply andb_true_iff in Hvo as [<-%bool_decide_eq_true _]. by apply list_elem_of_fmap_2. }
  destruct (moved_queues d Hok c' c (mq_VersionID req) (mq_BundleID req) users actor target eq_refl (λ a k _, iff_refl _)
    (λ k, iff_sym (GetRolesForVersion_keys c _ k Hver)) Hrow Hholds actor "Bundle holder moved between versions" (mq_BundleID req) eq_refl Hnu)
    as [Ho Hl Hw _].
  exists (set_catalog d c'), d2. do 3 eexists. split_and!; [exact Ho|exact Hl|exact Hw|exact Em|done|exact Ec|done|].
  intros a. rewrite Ec. unfold c', repinHolders. cbn [assignments with_assignments]. intros (a0 & -> & Ha)%list_elem_of_fmap. destruct (repin_ids c (mq_VersionID req) (mq_BundleID req) users actor a0) as [-> ->].
  intros Hu Hb. rewrite (repin_version d c _ _ _ _ Hrow) by done. rewrite (bool_decide_eq_true_2 (as_BundleID a0 = _)) by done.
  rewrite bool_decide_eq_true_2; [done|]. auto.
Qed.

(** C23. Where includes are not nested, a publish gives what was reviewed. For a
    bundle whose working copy includes only versions that include nothing
    themselves, the version a successful publish cuts is the bundle's latest, one
    above the last, and gives exactly the roles the draft said: the working copy's
    own and those of the versions it includes. Everybody's queued writes are the
    difference between the closure they had and the closure the published catalog
    gives them; when the holders come along they are all pinned to it, and when they
    do not nothing is queued. The condition is needed: with an include of an
    include, which the code lets come about, holders are queued roles of the second
    level that the published version does not give ([nested_include_overgrants]). *)
Theorem PublishBundleVersion_spec `{!EnqueueEnv} sha256hex compare_names formatDay find_user clock d g actor req g' d' plan v ids :
  (∀ n, uuid n ≠ "") → catalog_inv d →
  (∀ x j, x ∈ GetWorkingIncludes (catalog (tables d)) (rq_BundleID req) → j ∈ version_includes (catalog (tables d)) →
          in_Owner j ≠ ic_ChildVersionID x) →
  PublishBundleVersion sha256hex compare_names formatDay find_user clock d g actor req = (g', inr (d', (plan, v, ids))) →
  let c' := catalog (tables d') in
  ∃ draft d1 d2 g1 reason audits params,
    BundleDraft compare_names (catalog (tables d)) (rq_BundleID req) = Some draft ∧ Empty draft = false ∧
    LatestVersion c' (rq_BundleID req) = Some v ∧ v_Version v = df_NextVersion draft ∧
    (∀ k, k ∈ br_key <$> GetRolesForVersion c' (v_ID v) ↔ k ∈ br_key <$> df_WorkingEffective draft) ∧
    outbox d1 = outbox d ∧ ledger d1 = ledger d ∧
    (∀ u, filter (λ p, UserID p = u) params =
          writes_of actor reason "bundle" (rq_BundleID req) u (owed d (set_catalog d c') u)) ∧
    enqueueWrites d1 g audits params None = (g1, inr (d2, ids)) ∧
    (∀ a, a ∈ assignments c' → as_BundleID a = rq_BundleID req → rq_Migrate req = true → as_VersionID a = v_ID v) ∧
    (rq_Migrate req = false → params = []).
Proof.
  intros Hne Hwf Hone E c'. destruct (catalog_inv_ok d Hne Hwf) as [Hok _].
  apply PublishBundleVersion_ok in E as (draft & d1 & d2 & g1 & audits & items & params & moved & Ed & Ee & Em & Hid & Hb & Hnum & Hpub & _ & Ho & Hl & Ew).
  fold c' in Hpub. apply publish_moves_users in Em as (reason & Em & Emoved).
  destruct (BundleDraft_fields compare_names _ _ _ Ed) as (latest & El & Enext & Ework & Eins & Eeff).
  pose proof (λ x, GetWorkingIncludes_versions (catalog (tables d)) (rq_BundleID req) x) as Hchild. rewrite <-Eins in Hchild, Hone.
  pose proof (λ k, gives_new _ _ _ _ _ _ _ _ _ Hwf Hid Hpub Hchild k Hone) as Hnew. rewrite <-Eeff in Hnew.
  assert (v ∈ versions c') as Hv by (rewrite (pb_versions _ _ _ _ _ _ _ _ Hpub), elem_of_app; right; by left).
  assert (∀ a, a ∈ assignments (catalog (tables d)) → as_VersionID a ∈ v_ID <$> versions (catalog (tables d))) as Hrow.
  { intros a Ha. destruct (cw_pinned _ _ Hwf a Ha) as [_ (w & Hw & <- & _)]. by apply list_elem_of_fmap_2. }
  destruct (pb_assign _ _ _ _ _ _ _ _ Hpub) as (c0 & Ev0 & Eassign).
  assert (∀ a, a ∈ assignments (catalog (tables d)) → as_VersionID a ∈ v_ID <$> versions c0) as Hrow0.
  { intros a Ha. rewrite Ev0, fmap_app, elem_of_app. left. auto. }
  assert (∀ u, u ∈ moved → ∃ a, a ∈ assignments (catalog (tables d)) ∧ as_UserID a = u ∧ as_BundleID a = rq_BundleID req) as Hholds.
  { intros u. rewrite Emoved. destruct (rq_Migrate req); [|by intros ?%elem_of_nil].
    intros (h & -> & Hh)%list_elem_of_fmap. apply GetBundleHoldersByVersion_elem in Hh as (a & ? & ? & ? & _). eauto. }
  destruct (moved_queues d Hok c' c0 (v_ID v) (rq_BundleID req) moved actor (df_WorkingEffective draft) Eassign) with
    (actor' := actor) (reason := reason) (ref := rq_BundleID req) as [_ _ Hw _]; try done.
  { intros a k Ha. eapply gives_old; eauto. }
  { apply Hpub. }
  { rewrite Emoved. destruct (rq_Migrate req); [by eapply holders_NoDup|apply NoDup_nil_2]. }
  exists draft, d1, d2, g1, reason, audits, params. rewrite <-Em in Hw. split_and!; try done.
  - by eapply LatestVersion_published.
  - rewrite Hnum, Enext. f_equal. symmetry. eapply LatestVersion_number; [|done]. intros w Hw0. by apply (cw_version_of _ _ Hwf).
  - intros k. rewrite GetRolesForVersion_keys by (by apply list_elem_of_fmap_2). apply Hnew.
  - intros a. rewrite Eassign. intros (a0 & -> & Ha)%list_elem_of_fmap.
    destruct (repin_ids c0 (v_ID v) (rq_BundleID req) moved actor a0) as [_ ->]. intros Hb0 Hmig.
    rewrite (repin_version d c0 _ _ _ _ Hrow0) by done. rewrite (bool_decide_eq_true_2 _ Hb0). simpl.
    rewrite bool_decide_eq_true_2; [done|]. rewrite Emoved, Hmig. by apply holder_complete; auto.
  - intros Hm. rewrite Hm in Emoved. subst moved. by injection Em.
Qed.

(** Publishing leaves nothing to publish. Right after a publish, with
    nothing nested two levels deep, the bundle's draft is empty: the version
    just cut gives what the working copy gives and includes the same versions,
    whichever parents the request updated. So publishing again is refused. *)
Theorem publish_empties_draft `{!EnqueueEnv} sha256hex compare_names formatDay find_user clock d g actor req g' d' plan v ids :
  catalog_inv d →
  (∀ x j, x ∈ GetWorkingIncludes (catalog (tables d)) (rq_BundleID req) → j ∈ version_includes (catalog (tables d)) →
          in_Owner j ≠ ic_ChildVersionID x) →
  PublishBundleVersion sha256hex compare_names formatDay find_user clock d g actor req = (g', inr (d', (plan, v, ids))) →
  Empty <$> BundleDraft compare_names (catalog (tables d')) (rq_BundleID req) = Some true ∧
  ∀ g2 actor2, PublishBundleVersion sha256hex compare_names formatDay find_user clock d' g2 actor2 req =
    (g2, inl (NothingToPublish (v_Version v))).
Proof.
  intros Hwf Hone E.
  apply PublishBundleVersion_ok in E as (draft & _ & _ & _ & _ & _ & _ & moved & Ed & _ & _ & Hid & Hb & Hnum & Hpub & Hnd & _).
  destruct (BundleDraft_fields compare_names _ _ _ Ed) as (latest & _ & _ & Ework & Eins & _). rewrite Ework, Eins in Hpub. rewrite Eins in Hnd.
  pose proof (λ x, GetWorkingIncludes_versions (catalog (tables d)) (rq_BundleID req) x) as Hchild.
  pose proof (LatestVersion_published _ _ _ _ _ _ _ _ Hpub Hb Hnum) as Hl.
  pose proof (working_same _ _ _ _ _ _ _ _ Hwf Hid Hpub) as Hw. pose proof (version_same _ _ _ _ _ _ _ _ Hwf Hid Hpub) as Hv.
  assert (∃ draft', BundleDraft compare_names (catalog (tables d')) (rq_BundleID req) = Some draft' ∧ Empty draft' = true ∧
            df_LatestVersion draft' = v_Version v) as (draft' & Ed' & He & Hn).
  { unfold BundleDraft. rewrite Hl. cbn [mbind option_bind].
    rewrite diffIncludes_same; [|by rewrite Hw, Hv|].
    2:{ change ic_ChildBundleID with (fst ∘ core). rewrite list_fmap_compose, Hw, <-list_fmap_compose. exact Hnd. }
    assert (diffRoles (GetRolesForVersion (catalog (tables d')) (v_ID v)) (effective_roles (catalog (tables d'))
      (GetRolesForBundle (catalog (tables d')) (rq_BundleID req)) (GetWorkingIncludes (catalog (tables d')) (rq_BundleID req))) = ([], [])) as ->
      by (apply diffRoles_empty; intros k; by eapply effective_same).
    by eexists. }
  split; [by rewrite Ed'; simpl; rewrite He|]. intros g2 actor2. unfold PublishBundleVersion, RehearseBundlePublish.
  rewrite Ed'. cbn [mbind option_bind]. by rewrite He, Hn.
Qed.

(** ** Witnesses *)
#[local] Existing Instance demo_live.
(** The state a step leaves, and the state itself when it is refused. *)
Definition after {A} (d : Db) (r : Cascaded (Db * A)) : Db := match r with (_, inr (d', _)) => d' | (_, inl _) => d end.
Definition made (d : Db) (name : string) (roles : list Role) : Db :=
  match CreateBundle d name "" roles with inr (d', _) => d' | inl _ => d end.
Definition given_to (d : Db) (user bundle : string) : Db :=
  after d (CascadeBundleAssignedToUser nobody (λ s, s) 1000 d None "op" user bundle).
Definition demo_publish (bundle : string) : PublishRequest :=
  {| rq_BundleID := bundle; rq_Note := ""; rq_Migrate := true; rq_Includers := [] |}.
#[local] Notation publishing d bundle :=
  (PublishBundleVersion (λ s, s) String.compare (λ _, "") nobody 1000 d None "op" (demo_publish bundle)).
Definition makers : string := uuid 0.
Definition makers_v1 : string := uuid 1.
(** Ada holds Makers, whose working copy has gained a role since. *)
Definition demo_makers : Db := given_to (made demo_addons "Makers" [("p", "laser")]) "ada" makers.
Definition demo_drafted : Db := after demo_makers (EditBundleWorkingCopy demo_makers None "op" makers "p" "printer" true).
Definition demo_published : Db := after demo_drafted (publishing demo_drafted makers).
Lemma after_step {A} d (r : Cascaded (Db * A)) :
  (∀ g' d' x, r = (g', inr (d', x)) → catalog_step nobody (λ s, s) 1000 d d') → catalog_inv d → catalog_inv (after d r).
Proof.
  destruct r as [g' [e|[d' x]]] eqn:E; simpl; [done|]. intros Hs Hd.
  exact (@catalog_step_keeps demo_live _ _ _ d d' (Hs _ _ _ eq_refl) Hd).
Qed.
Lemma demo_drafted_inv : catalog_inv demo_drafted.
Proof.
  apply after_step; [intros g' d' ids E; by eapply cs_edit|]. apply after_step; [intros g' d' x E; by eapply cs_assign|].
  unfold made. destruct (CreateBundle _ _ _ _) as [e|[d' i]] eqn:E.
  - by vm_compute in E.
  - refine (@catalog_step_keeps demo_live nobody (λ s, s) 1000 demo_addons d' _ _); [by eapply cs_create|].
    eapply catalog_wf_later; [|apply catalog_wf_empty]. lia.
Qed.
Lemma demo_no_includes : GetWorkingIncludes (catalog (tables demo_drafted)) makers = [].
Proof. by vm_compute. Qed.
Lemma hex_uuid_some (n : nat) : uuid n ≠ "".
Proof. simpl. unfold hex_uuid. by destruct (_ <? _)%N. Qed.
Definition demo_move : MoveHoldersRequest := {| mq_BundleID := makers; mq_VersionID := makers_v1; mq_UserIDs := ["ada"; "bob"] |}.
Lemma PublishBundleVersion_spec_witness :
  ∃ g' d' plan v ids, publishing demo_drafted makers = (g', inr (d', (plan, v, ids))) ∧ length ids = 1 ∧ v_Version v = 2%Z ∧
    ∀ a, a ∈ assignments (catalog (tables d')) → as_BundleID a = makers → as_VersionID a = v_ID v.
Proof.
  destruct (publishing demo_drafted makers) as [g' [e|[d' [[plan v] ids]]]] eqn:E; [by vm_compute in E|].
  destruct (PublishBundleVersion_spec (λ s, s) String.compare (λ _, "") nobody 1000 demo_drafted None "op" (demo_publish makers) g' d' plan v ids)
    as (draft & d1 & d2 & g1 & reason & audits & params & Ed & _ & _ & Hv & _ & _ & _ & _ & _ & Ha & _).
  - exact hex_uuid_some.
  - exact demo_drafted_inv.
  - cbn [demo_publish rq_BundleID]. rewrite demo_no_includes. intros x j Hx. destruct (proj1 (elem_of_nil x) Hx).
  - exact E.
  - exists g', d', plan, v, ids. split_and!; [done| |rewrite Hv; vm_compute in Ed; by injection Ed as <-|intros a Hin Hb; by apply Ha].
    vm_compute in E. by injection E as _ _ _ _ <-.
Defined.
Lemma publish_empties_draft_witness :
  ∃ g' d' plan v ids, publishing demo_drafted makers = (g', inr (d', (plan, v, ids))) ∧
    publishing d' makers = (None, inl (NothingToPublish (v_Version v))).
Proof.
  destruct (publishing demo_drafted makers) as [g' [e|[d' [[plan v] ids]]]] eqn:E; [by vm_compute in E|].
  exists g', d', plan, v, ids. split; [done|].
  apply (publish_empties_draft (λ s, s) String.compare (λ _, "") nobody 1000 demo_drafted None "op" (demo_publish makers) g' d' plan v ids).
  - exact demo_drafted_inv.
  - cbn [demo_publish rq_BundleID]. rewrite demo_no_includes. intros x j Hx. destruct (proj1 (elem_of_nil x) Hx).
  - exact E.
Defined.
Lemma demo_published_inv : catalog_inv demo_published.
Proof.
  unfold demo_published, after. destruct (publishing demo_drafted makers) as [g' [e|[d' x]]] eqn:E; [exact demo_drafted_inv|].
  exact (@PublishBundleVersion_inv demo_live _ _ _ _ _ _ _ _ _ _ _ _ E demo_drafted_inv).
Qed.
(** Ada goes back to the first version, which cancels the grant still waiting;
    Bob, who does not hold the bundle, is left out. *)
Lemma demo_moved :
  match MoveHolders (λ s, s) (λ _, "") nobody 1000 demo_published None "op" demo_move with
  | (_, inr (d', _)) => row_status <$> outbox d' = [pending; superseded]
  | _ => False
  end.
Proof. by vm_compute. Qed.
Lemma MoveHolders_queues_the_difference_witness :
  ∃ g' d' plan ids, MoveHolders (λ s, s) (λ _, "") nobody 1000 demo_published None "op" demo_move = (g', inr (d', (plan, ids))) ∧
    ∀ a, a ∈ assignments (catalog (tables d')) → as_UserID a = "ada" → as_BundleID a = makers → as_VersionID a = makers_v1.
Proof.
  destruct (MoveHolders (λ s, s) (λ _, "") nobody 1000 demo_published None "op" demo_move) as [g' [e|[d' [plan ids]]]] eqn:E; [by vm_compute in E|].
  exists g', d', plan, ids. split; [done|].
  destruct (MoveHolders_queues_the_difference (λ s, s) (λ _, "") nobody 1000 demo_published None "op" demo_move g' d' plan ids)
    as [[-> _]|(d1 & d2 & reason & audits & params & _ & _ & _ & _ & _ & _ & _ & Ha)].
  - exact hex_uuid_some.
  - exact demo_published_inv.
  - by apply (bool_decide_unpack _); vm_compute.
  - exact E.
  - pose proof demo_moved as Hm. rewrite E in Hm. by vm_compute in Hm.
  - intros a Hin Hu Hb. apply (Ha a Hin); [rewrite Hu; by left|exact Hb].
Defined.

(** ** Includes two levels deep *)
(** A bundle can include a version of another that itself includes a third,
    when that version is neither the latest nor held: its holders are queued
    the third bundle's roles, which the published version does not give them. *)
Definition third : string := uuid 0.
Definition child : string := uuid 2.
Definition parent : string := uuid 10.
Definition demo_nested : Db :=
  let d := made (made demo_addons "Third" [("p", "third")]) "Child" [("p", "child")] in
  let d := after d (SetWorkingInclude d None "op" child third 0) in
  let d := after d (publishing d child) in
  let d := after d (RemoveWorkingInclude d None "op" child third) in
  let d := after d (publishing d child) in
  let d := given_to (made d "Parent" [("p", "parent")]) "ada" parent in
  let d := after d (SetWorkingInclude d None "op" parent child 2) in
  after d (publishing d parent).
Example nested_include_overgrants :
  (λ r, (op_type r, role_keys r)) <$> outbox demo_nested =
    [(op_add, Some ["parent"]); (op_add, Some ["child"]); (op_add, Some ["third"])] ∧
  UserExpectsRole demo_nested "ada" "p" "child" = true ∧ UserExpectsRole demo_nested "ada" "p" "third" = false.
Proof. by vm_compute. Qed.

(** ** A revocation that is still waiting *)
(** Giving a bundle cancels a waiting revocation of a role it gives. Publishing a
    version that gives the role to its holders neither queues it nor cancels the
    revocation, because the base it moves them to subtracts what is queued. *)
Definition with_waiting (d : Db) (role : string) : Db :=
  with_outbox d (outbox d ++
    [{| id := uuid 98; target := "zitadel"; op_type := op_revoke; user_id := "ada"; project_id := Some "p";
        role_keys := Some [role]; source := "direct"; source_ref := None; cascade_id := None; zitadel_grant_id := None;
        payload_json := "{}"; idempotency_key := uuid 99; initiated_by := "op"; reason := None; withdraws_only := false;
        intent_seq := 1; created_at := 1; plan_subject_id := None; snapshot := None; progress := fresh_progress None |}]) [].
Definition queue (d : Db) : list (OpType * option (list string) * Status) := (λ r, (op_type r, role_keys r, row_status r)) <$> outbox d.
Example publish_keeps_waiting_revocation :
  let d := with_waiting demo_drafted "printer" in
  queue (after d (publishing d makers)) = [(op_add, Some ["laser"], pending); (op_revoke, Some ["printer"], pending)] ∧
  queue (given_to (with_waiting (made demo_addons "Makers" [("p", "laser")]) "laser") "ada" makers) =
    [(op_revoke, Some ["laser"], superseded); (op_add, Some ["laser"], pending)].
Proof. by vm_compute. Qed.

(** ** Parents that no longer include it *)
(** A parent whose working copy has dropped the bundle still has to be answered
    for, and "update" puts the bundle back into its working copy. *)
Definition demo_dropped : Db :=
  let d := made (made demo_addons "Makers" [("p", "laser")]) "Parent" [("p", "parent")] in
  let d := after d (SetWorkingInclude d None "op" child makers 0) in
  let d := after d (publishing d child) in
  let d := after d (RemoveWorkingInclude d None "op" child makers) in
  after d (EditBundleWorkingCopy d None "op" makers "p" "printer" true).
Definition demo_answers (action : string) : PublishRequest :=
  {| rq_BundleID := makers; rq_Note := ""; rq_Migrate := true; rq_Includers := [(child, action)] |}.
Example dropped_parent_is_asked :
  let publish req := PublishBundleVersion (λ s, s) String.compare (λ _, "") nobody 1000 demo_dropped None "op" req in
  includes (catalog (tables demo_dropped)) = [] ∧
  (publish (demo_publish makers)).2 = inl (ErrIncludersUnanswered ["Parent"]) ∧
  match publish (demo_answers "update") with
  | (_, inr (d', _)) => in_Owner <$> includes (catalog (tables d')) = [child]
  | _ => False
  end.
Proof. by vm_compute. Qed.
