(* ===== verification/PlanGate.v ===== *)
(** * PlanGate: rehearse, approve, apply

    backend/internal/handlers/plan_gate.go over the plans of Plans.v, and the
    rehearsal of handlers/requests_bulk.go whose rows it records. A rehearsal is
    stored with a fingerprint per subject; an apply cites it, rehearses afresh and
    is refused if any subject's fingerprint moved. The instant's text (RFC 3339),
    the day's text and the sentences of the rules, which name roles as the
    directory does, are arguments; names and emails on a plan are not modelled. *)

From S2P Require Import Fingerprint.
From S2P Require Import Prelude Text Access Tables Outbox Lifecycle Plans Policy Holdings Entitlement Enqueue Cascade Bundles Publish Requests.

(** ** Issuing an approval (plan_gate.go) *)
Definition planSurfaceBulkDecision : string := "requests.bulk_decision".

(** PLAN_COHORT_LIMIT, and PLAN_LIFETIME as time.ParseDuration reads it. *)
Definition cohortLimit (env : string) : Z :=
  match ParseInt env with Some n => if (0 <? n)%Z then n else 25 | None => 25 end.
Definition planLifetime (env : option Z) : Z :=
  match env with Some n => if (0 <? n)%Z then n else 15 * 60 * second | None => 15 * 60 * second end.

Definition planEffect (e : string) : option string :=
  if e =? EffectApply then Some PlanEffectApply
  else if e =? EffectNoChange then Some PlanEffectNoChange
  else if e =? EffectBlocked then Some PlanEffectBlocked
  else None.

Inductive GateError :=
  | CohortTooLarge (affected : nat) (limit : Z)
  | NotAPlanEffect (e : string)
  | ErrPlanStale (moved : list string)
  | ErrPlan (e : PlanError).

Definition plan_subject (out : BulkOutcome) : GateError + NewPlanSubject :=
  match planEffect (bo_Effect out) with
  | None => inl (NotAPlanEffect (bo_Effect out))
  | Some effect =>
      inr {| np_SubjectID := bo_UserID out; np_SnapshotID := ""; np_DesiredState := None; np_Fingerprint := bo_Fingerprint out;
             np_Outcome := {| o_Effect := effect; o_GrantIDs := bo_GrantIDs out; o_CancelIDs := bo_CancelIDs out |} |}
  end.
Fixpoint plan_rows (outs : list BulkOutcome) : GateError + list NewPlanSubject :=
  match outs with
  | [] => inr []
  | out :: outs =>
      match plan_subject out with
      | inl e => inl e
      | inr s => match plan_rows outs with inl e => inl e | inr l => inr (s :: l) end
      end
  end.

Definition planCitation (surface actor requestFP planID : string) : PlanCitation :=
  {| ci_PlanID := TrimSpace planID; ci_Target := TargetZitadel; ci_Surface := surface; ci_Actor := actor;
     ci_RequestFingerprint := requestFP |}.

(** Keyed by subject: the last row of a subject stands. *)
Definition indexOutcomes (outs : list BulkOutcome) : gmap string BulkOutcome :=
  foldl (λ m o, <[bo_UserID o := o]> m) ∅ outs.
Definition has_moved (live : gmap string BulkOutcome) (row : PlanSubject) : bool :=
  match live !! ps_SubjectID row with Some fresh => bo_Fingerprint fresh <>? ps_Fingerprint row | None => true end.
Definition moved_subjects (live : gmap string BulkOutcome) (rows : list PlanSubject) : list string :=
  sort_strings (ps_SubjectID <$> filter (λ r, has_moved live r = true) rows).

Section gate.
Context `{!Uuids}.

(** The plan's id, or none where nothing was rehearsed. [clock]: time.Now. *)
Definition issuePlan (d : Db) (limit lifetime clock : Z) (surface actor requestFP : string) (ack : bool) (plan : BulkPlan)
    : GateError + (Db * option string) :=
  if negb ack && (limit <? Z.of_nat (bs_Apply (bp_Summary plan)))%Z then inl (CohortTooLarge (bs_Apply (bp_Summary plan)) limit)
  else match plan_rows (bp_Outcomes plan) with
       | inl e => inl e
       | inr [] => inr (d, None)
       | inr subjects =>
           match CreatePlan d {| n_Target := TargetZitadel; n_Surface := surface; n_CreatedBy := actor; n_Lifetime := lifetime;
                                 n_Provisional := false; n_StateReadAt := clock; n_RequestFingerprint := requestFP;
                                 n_Subjects := subjects |} with
           | inl e => inl (ErrPlan e)
           | inr (d, created) => inr (d, Some (pl_ID created))
           end
       end.

(** [live]: the fresh rehearsal, read inside the claim's transaction. What
    verification refuses is not spent. *)
Definition claimPlan (d : Db) (clock : Z) (surface actor requestFP planID : string) (live : list BulkOutcome)
    : GateError + (Db * list PlanSubject) :=
  match ClaimPlanTx d (planCitation surface actor requestFP planID) clock with
  | inl e => inl (ErrPlan e)
  | inr (d', _, rows) =>
      match moved_subjects (indexOutcomes live) rows with
      | [] => inr (d', rows)
      | moved => inl (ErrPlanStale moved)
      end
  end.

(** The approved rows, worded from the fresh read beside them. *)
Definition no_outcome (u : string) : BulkOutcome := planned u "" "" "" "".
Definition planApprovedRows (op : string) (subjects : list PlanSubject) (live : gmap string BulkOutcome) : BulkPlan :=
  let outs := (λ s, let fresh := default (no_outcome (ps_SubjectID s)) (live !! ps_SubjectID s) in
                    {| bo_UserID := ps_SubjectID s; bo_Effect := o_Effect (ps_Outcome s); bo_Detail := bo_Detail fresh;
                       bo_Consequence := bo_Consequence fresh; bo_GrantIDs := o_GrantIDs (ps_Outcome s); bo_CancelIDs := [];
                       bo_Fingerprint := "" |}) <$> subjects in
  {| bp_Op := op; bp_Applied := true; bp_RequestFingerprint := ""; bp_Outcomes := outs; bp_Summary := SummarizeOutcomes outs |}.
End gate.

(** ** Rehearsing decisions (requests_bulk.go) *)
Definition settledDetail (status : string) : string :=
  if status =? "approved" then "Already approved."
  else if status =? "rejected" then "Already declined."
  else if status =? "withdrawn" then "Withdrawn by the person who asked."
  else if status =? "fulfilled" then "Already closed: the role was given another way."
  else "Already " +:+ status +:+ ".".

(** Which reads answer for a request. *)
Record DecisionReads := { holding_read : bool; cancels_read : bool; rules_read : bool }.

Section rehearsal.
Context `{!Zone} (observed : string → string → list string) (offered : string → string → Offer)
  (sha256hex : string → string) (formatDay rfc3339 : Z → string) (sentences : list FollowRow → string).

Definition endPhrase (t : option Z) : string :=
  match t with None => "with no end date" | Some t => "until " +:+ formatDay t end.
Definition reviewed_request (q : AccessRequest) : Fingerprint.AccessRequest :=
  {| Fingerprint.r_ID := q_id q; Fingerprint.r_Status := q_status q; Fingerprint.r_RequesterID := q_user q;
     Fingerprint.r_ProjectID := q_project q; Fingerprint.r_RoleKey := q_role q; Fingerprint.r_DurationDays := k_days (q_ask q);
     Fingerprint.r_AskedUntil := rfc3339 <$> k_until (q_ask q) |}.

Definition with_rules (out : BulkOutcome) (rows : list FollowRow) : BulkOutcome :=
  match rows with
  | [] => out
  | _ => {| bo_UserID := bo_UserID out; bo_Effect := bo_Effect out; bo_Detail := bo_Detail out;
            bo_Consequence := TrimSpace (bo_Consequence out +:+ " " +:+ sentences rows);
            bo_GrantIDs := bo_GrantIDs out; bo_CancelIDs := bo_CancelIDs out;
            bo_Fingerprint := Fingerprint sha256hex
              ([bo_Fingerprint out; "rules"] ++ (rows ≫= λ r, [rr_RuleID r; rr_ProjectID r; rr_RoleKey r])) |}
  end.

Definition blocked_row (i fp detail : string) : BulkOutcome := planned i EffectBlocked detail "" fp.
(** [planApproval] returns no other error. *)
Definition unfit_detail (e : KindError) : string :=
  match e with
  | errExtensionShortens => "Already has this past the end this asks for, so approving would shorten it. Decline it to close the request."
  | errAskEnded => "The end date this asked for has already passed, so approving would give access that has already ended. Decline it, and they can ask again."
  | _ => "Already has this, so approving would change nothing. Decline it to close the request."
  end.
(** Approving mints a grant, and this says which. *)
Definition approval_words (q : AccessRequest) (p : approvalPlan) : string * string :=
  match ap_Effect p with
  | effectExtend => ("Keeps " +:+ q_role q +:+ " longer, " +:+ endPhrase (ap_ExpiresAt p) +:+ ".",
                     "Approving moves the end of the grant they have, the same as extending it from Expiring access.")
  | effectGiveAgain => ("Gets " +:+ q_role q +:+ " back, " +:+ endPhrase (ap_ExpiresAt p) +:+ ".",
                        "It ended while this waited, so approving gives it again for the time asked.")
  | effectGive =>
      ("Gains " +:+ q_role q +:+ ".",
       match k_until (q_ask q), k_days (q_ask q) with
       | Some u, _ => "Approving mints a direct grant until " +:+ formatDay u +:+ ", the end date they asked for, the same as granting it by hand."
       | None, Some n => if (0 <? n)%Z
           then "Approving mints a direct grant for " +:+ pretty n +:+ " days, the same as granting it by hand."
           else "Approving mints a direct grant, the same as granting it by hand."
       | None, None => "Approving mints a direct grant, the same as granting it by hand."
       end)
  end.
Definition cancelling (q : AccessRequest) : EnqueueParams :=
  {| UserID := q_user q; e_ProjectID := q_project q; e_RoleKeys := [q_role q]; GrantedBy := ""; e_Reason := ""; ExpiresAt := None;
     Source := "direct"; SourceRef := ""; e_OpType := op_add; ZitadelGrantID := ""; PayloadJSON := ""; NoPropagation := false;
     e_EndRule := EndKept; e_WaitReason := "" |}.

Definition rehearse_one (d : Db) (reads : DecisionReads) (clock : Z) (status i : string) : BulkOutcome :=
  match GetAccessRequestByID d i with
  | None => blocked_row i (Fingerprint sha256hex ["request"; i; "absent"]) "No such request. It may have been withdrawn."
  | Some q =>
      let fp := FingerprintAccessRequest sha256hex (reviewed_request q) in
      if q_status q <>? "pending" then planned i EffectNoChange (settledDetail (q_status q)) "" fp
      else if status =? "approved" then
        if negb (holding_read reads)
        then blocked_row i fp "Syndra couldn't read what they already have, so it won't approve this blind. Try again."
        else match planApproval (q_ask q) (RequestHolding observed d (q_user q) (q_project q) (q_role q)) clock with
             | inl e => blocked_row i fp (unfit_detail e)
             | inr p =>
                 match offered (q_project q) (q_role q) with
                 | NotOffered => blocked_row i fp "This role no longer exists in Zitadel, so it can't be approved. Decline it to close the request."
                 | CatalogueUnread => blocked_row i fp "Syndra couldn't read Zitadel's list of roles to check this one exists. Try again shortly."
                 | Offered =>
                     let '(detail, consequence) := approval_words q p in
                     if negb (cancels_read reads)
                     then planned i EffectBlocked "Syndra couldn't read the changes waiting for you to send for them, so it won't approve this blind. Try again." consequence fp
                     else if negb (rules_read reads)
                     then blocked_row i fp "Syndra couldn't read the automatic rules, so what approving sets off is unknown. Try again."
                     else WithCancels sha256hex formatDay
                            (with_rules (planned i EffectApply detail consequence fp)
                               (RulesFollowing d (q_user q) [(q_project q, q_role q)]))
                            (WouldCancel d (cancelling q))
                 end
             end
      else planned i EffectApply ("Declined for " +:+ q_role q +:+ ".") "Nothing about their current access changes." fp
  end.
Definition rehearseDecisionBatch (d : Db) (reads : string → DecisionReads) (clock : Z) (ids : list string) (status : string) : BulkPlan :=
  let outs := (λ i, rehearse_one d (reads i) clock status i) <$> ids in
  {| bp_Op := "decide_requests"; bp_Applied := false; bp_RequestFingerprint := ""; bp_Outcomes := outs;
     bp_Summary := SummarizeOutcomes outs |}.
End rehearsal.

(** ** Facts: rows keep their verdict while they gain words *)
Lemma with_rules_effect sha256hex sentences out rows : bo_Effect (with_rules sha256hex sentences out rows) = bo_Effect out.
Proof. by destruct rows. Qed.
Lemma WithCancels_effect sha256hex formatDay out changes : bo_Effect (WithCancels sha256hex formatDay out changes) = bo_Effect out.
Proof. by destruct changes. Qed.

(** ** Facts: a waiting request can be decided *)
Section pending_facts.
Context `{!EnqueueEnv}.

Lemma update_hits d q (w : AccessRequest → bool) s : q ∈ requests d → w q = true → (update_requests d w s).2 ≠ 0.
Proof.
  intros Hq Hw. simpl. intros E. apply length_zero_iff_nil in E. apply (not_elem_of_nil q). rewrite <- E.
  by apply list_elem_of_filter.
Qed.
Lemma Resolve_waiting d i q status reviewer note before :
  q ∈ requests d → q_id q = i → q_status q = "pending" → is_Some (ResolveAccessRequest d i status reviewer note before).
Proof.
  intros Hq Hi Hp. unfold ResolveAccessRequest. cbn [update_requests]. rewrite bool_decide_false; [by eexists|].
  apply (update_hits d q _ (λ q, q)); [done|]. by rewrite Hi, Hp, !bool_decide_true.
Qed.
Lemma Approve_waiting d g i q reviewer note p before after :
  q ∈ requests d → q_id q = i → q_status q = "pending" →
  (ApproveRequestAndEnqueue d g i reviewer note p before after).2 ≠ inl ErrRequestNotPending.
Proof.
  intros Hq Hi Hp. unfold ApproveRequestAndEnqueue. destruct (mint d) as [d0 key] eqn:Em. injection Em as <- <-.
  cbn [update_requests]. rewrite bool_decide_false.
  - destruct (enqueueWrites _ _ _ _ _) as [g1 [e|[d2 ids]]]; [done|]. by destruct (ownAndRules ids).
  - apply (update_hits d q _ (λ q, q)); [done|]. by rewrite Hi, Hp, !bool_decide_true.
Qed.
End pending_facts.

(** ** Properties of the rehearsal *)

(** C11. What the screen says is what deciding does, for one state and one
    moment. A row of the rehearsal that says it will change is decided: the
    decision is not refused, except that the writes it queues may be (for a
    queued change they would cancel that nobody acknowledged, or rules that
    fail: [NotQueued]). And where the rehearsal could read what the decision
    cancels and which rules follow it, a row that says anything else is one
    whose decision is refused; unread, the rehearsal blocks what a decision
    might still do. *)
Theorem rehearsal_agrees_with_decision `{!EnqueueEnv} `{!Zone} observed offered find_user sha256hex formatDay rfc3339 sentences
    d g reads clock status i reviewer note payload :
  status = "approved" ∨ status = "rejected" →
  let effect := bo_Effect (rehearse_one observed offered sha256hex formatDay rfc3339 sentences d reads clock status i) in
  let decided := match (resolveAccessRequestOutcome observed offered find_user sha256hex d d g (holding_read reads) clock i status
                          reviewer note payload).2 with
                 | inr _ | inl (NotQueued _) => True
                 | inl _ => False
                 end in
  (effect = EffectApply → decided) ∧
  (cancels_read reads = true → rules_read reads = true → decided → effect = EffectApply).
Proof.
  intros Hst. unfold rehearse_one, resolveAccessRequestOutcome.
  destruct (GetAccessRequestByID d i) as [q|] eqn:Eq; [|done].
  assert (Hq : q ∈ requests d ∧ q_id q = i) by (apply head_Some_elem_of, list_elem_of_filter in Eq as [? ?]; done).
  destruct Hq as [Hq Hi]. destruct (q_status q <>? "pending") eqn:Ep; [done|].
  apply negb_false_iff, bool_decide_eq_true in Ep. destruct Hst as [->| ->].
  - rewrite (bool_decide_true ("approved" = "approved")) by done. destruct (holding_read reads); cbn [negb]; [|done].
    destruct (planApproval _ _ _) as [e|p]; [done|]. destruct (offered _ _); try done.
    destruct (approval_words _ _ _) as [detail consequence].
    match goal with |- context [ApproveRequestAndEnqueue d g i reviewer note ?ps ?b ?a] =>
      pose proof (Approve_waiting d g i q reviewer note ps b a Hq Hi Ep) as Hno end.
    destruct (ApproveRequestAndEnqueue _ _ _ _ _ _ _ _) as [g1 [[]|[d1 res]]]; try done.
    all: destruct (cancels_read reads), (rules_read reads); cbn [negb]; rewrite ?WithCancels_effect, ?with_rules_effect; done.
  - rewrite (bool_decide_false ("rejected" = "approved")) by done.
    edestruct (Resolve_waiting d i q) as [d1 E]; [exact Hq|exact Hi|exact Ep|]. by rewrite E.
Qed.

(** ** Facts: what an issued plan recorded *)
Section issued.
Context `{!Uuids}.

Lemma insert_subjects_plain l d planID tgt by_ d' :
  (∀ n, n ∈ l → np_DesiredState n = None) → insert_subjects d planID tgt by_ l = inr d' →
  ∃ new, plan_subjects (tables d') = plan_subjects (tables d) ++ new ∧
    Forall2 (λ s n, ps_PlanID s = planID ∧ ps_SubjectID s = np_SubjectID n ∧ ps_Fingerprint s = np_Fingerprint n ∧
                    ps_Outcome s = np_Outcome n) new l.
Proof.
  revert d. induction l as [|n l IH]; intros d Hl; cbn [insert_subjects]; [intros [= <-]; exists []; by rewrite app_nil_r|].
  rewrite (Hl n) by left. intros E. apply IH in E as (new & Hs & HF); [|intros m ?; apply Hl; by right].
  destruct (insert_subject_ok d planID n (NULLIF (np_SnapshotID n))) as (_ & _ & _ & _ & Hs1).
  eexists. split; [by rewrite Hs, Hs1, <- (assoc_L (++))|]. by constructor.
Qed.
Lemma createPlanTx_plain d p d' pl :
  (∀ n, n ∈ n_Subjects p → np_DesiredState n = None) → createPlanTx d p = inr (d', pl) →
  ∃ new, plan_subjects (tables d') = plan_subjects (tables d) ++ new ∧
    Forall2 (λ s n, ps_PlanID s = pl_ID pl ∧ ps_SubjectID s = np_SubjectID n ∧ ps_Fingerprint s = np_Fingerprint n ∧
                    o_Effect (ps_Outcome s) = o_Effect (np_Outcome n)) new (n_Subjects p).
Proof.
  intros Hd. unfold createPlanTx. destruct (negb (validate p)); [done|]. destruct (negb _); [done|]. case_bool_decide; [done|]. cbn [mint].
  destruct (insert_subjects _ _ _ _ _) as [e|d2] eqn:Hi; [done|]. intros [= <- <-].
  apply insert_subjects_plain in Hi as (new & Hs & HF).
  - exists new. split; [exact Hs|]. unfold canonicalSubjects in HF. apply Forall2_fmap_r in HF.
    eapply Forall2_impl; [exact HF|]. intros s n (? & ? & ? & ->). by split_and!.
  - intros n (m & -> & Hm)%list_elem_of_fmap. exact (Hd m Hm).
Qed.
Lemma plan_rows_ok outs l :
  plan_rows outs = inr l →
  Forall2 (λ n o, np_DesiredState n = None ∧ np_SubjectID n = bo_UserID o ∧ np_Fingerprint n = bo_Fingerprint o ∧
                  o_Effect (np_Outcome n) = bo_Effect o) l outs.
Proof.
  revert l. induction outs as [|o outs IH]; intros l; cbn [plan_rows]; [intros [= <-]; constructor|].
  unfold plan_subject, planEffect. destruct (plan_rows outs) as [e|l0] eqn:E; repeat case_bool_decide; try done.
  all: intros [= <-]; constructor; [|by apply IH]; by split_and!.
Qed.

(** An issued plan: its one record, and a row for each row of the rehearsal. *)
Lemma issuePlan_ok d limit lifetime clock surface actor fp ack plan d1 planID :
  issuePlan d limit lifetime clock surface actor fp ack plan = inr (d1, Some planID) →
  ∃ pl new, plans (tables d1) = plans (tables d) ++ [pl] ∧ pl_ID pl = planID ∧ planID = uuid (next_uuid d) ∧
    pl_AppliedAt pl = None ∧ pl_Target pl = TargetZitadel ∧ pl_Surface pl = surface ∧ pl_CreatedBy pl = actor ∧
    pl_RequestFingerprint pl = fp ∧ pl_ExpiresAt pl = Some (now d + Z.quot lifetime second * second)%Z ∧
    plan_subjects (tables d1) = plan_subjects (tables d) ++ new ∧
    Forall2 (λ s o, ps_PlanID s = planID ∧ ps_SubjectID s = bo_UserID o ∧ ps_Fingerprint s = bo_Fingerprint o ∧
                    o_Effect (ps_Outcome s) = bo_Effect o) new (bp_Outcomes plan).
Proof.
  unfold issuePlan. destruct (negb ack && _); [done|]. destruct (plan_rows (bp_Outcomes plan)) as [e|l] eqn:Er; [done|].
  destruct l as [|n0 l0] eqn:El; [done|]. rewrite <- El in *. unfold CreatePlan. destruct (negb (validate _)); [done|].
  destruct (createPlanTx d _) as [e|[d2 pl]] eqn:Ec; [done|]. intros [= <- <-]. apply plan_rows_ok in Er.
  pose proof Ec as Ec'. apply createPlanTx_plain in Ec' as (new & Hs & HF).
  2: { apply Forall_forall. eapply Forall2_Forall_l; [exact Er|]. apply Forall_true. by intros o n (? & _). }
  apply createPlanTx_ok in Ec as (_ & Hp & Hid & Ha & Hpl & _). exists pl, new. rewrite Hpl in *.
  split_and!; try done. clear -HF Er. cbn [n_Subjects] in HF. eapply Forall2_trans; [|exact HF|exact Er].
  intros s n o (? & -> & -> & ->) (_ & -> & -> & ->). by split_and!.
Qed.
End issued.

(** ** Facts: verification *)
Lemma indexOutcomes_in outs u o : indexOutcomes outs !! u = Some o → o ∈ outs ∧ bo_UserID o = u.
Proof.
  unfold indexOutcomes. assert (Hm : ∀ (l : list BulkOutcome) (m : gmap string BulkOutcome), (∀ v x, m !! v = Some x → x ∈ outs ∧ bo_UserID x = v) → l ⊆ outs →
    foldl (λ m o, <[bo_UserID o := o]> m) m l !! u = Some o → o ∈ outs ∧ bo_UserID o = u).
  { induction l as [|x l IH]; intros m Hm Hl; cbn [foldl]; [apply Hm|]. apply IH; [|intros y ?; apply Hl; by right].
    intros v y. destruct (decide (bo_UserID x = v)) as [<-|Hn].
    - rewrite lookup_insert_eq. intros [= <-]. split; [apply Hl; left|done].
    - rewrite lookup_insert_ne by done. apply Hm. }
  apply Hm; [by intros v x; rewrite lookup_empty|done].
Qed.
Lemma moved_none live rows :
  moved_subjects live rows = [] ↔
  ∀ s, s ∈ rows → ∃ o, live !! ps_SubjectID s = Some o ∧ bo_Fingerprint o = ps_Fingerprint s.
Proof.
  unfold moved_subjects. split.
  - intros E s Hs. destruct (has_moved live s) eqn:Em.
    + exfalso. assert (Hin : ps_SubjectID s ∈ sort_strings (ps_SubjectID <$> filter (λ r, has_moved live r = true) rows))
        by (apply sort_strings_elem, list_elem_of_fmap_2, list_elem_of_filter; done).
      rewrite E in Hin. by apply not_elem_of_nil in Hin.
    + unfold has_moved in Em. destruct (live !! _) as [o|]; [|done]. exists o. split; [done|].
      by apply negb_false_iff, bool_decide_eq_true in Em.
  - intros Hall. assert (Hf : filter (λ r, has_moved live r = true) rows = []).
    { apply filter_none. intros s Hs. destruct (Hall s Hs) as (o & Ho & E). unfold has_moved. rewrite Ho, E. by rewrite bool_decide_true. }
    by rewrite Hf.
Qed.
Lemma planRefusal_accepts p c t :
  planRefusal p c t = None →
  pl_Target p = ci_Target c ∧ pl_Surface p = ci_Surface c ∧ pl_CreatedBy p = ci_Actor c ∧
  pl_RequestFingerprint p = ci_RequestFingerprint c ∧ pl_AppliedAt p = None ∧ ∀ e, pl_ExpiresAt p = Some e → (t < e)%Z.
Proof.
  unfold planRefusal. destruct (decide (pl_Target p = ci_Target c)) as [E1|]; [|by rewrite bool_decide_false].
  destruct (decide (pl_Surface p = ci_Surface c)) as [E2|]; [|rewrite (bool_decide_true (pl_Target p = _)) by done; by rewrite bool_decide_false].
  rewrite !bool_decide_true by done. cbn [negb orb].
  destruct (decide (pl_CreatedBy p = ci_Actor c)) as [E3|]; [|by rewrite bool_decide_false]. rewrite bool_decide_true by done. cbn [negb].
  destruct (decide (pl_RequestFingerprint p = ci_RequestFingerprint c)) as [E4|]; [|by rewrite bool_decide_false].
  rewrite bool_decide_true by done. cbn [negb].
  destruct (pl_AppliedAt p) as [a|]; [by rewrite bool_decide_true by by eexists|].
  rewrite bool_decide_false by by intros [? [=]]. destruct (pl_ExpiresAt p) as [e|].
  - destruct (Z.ltb_spec t e); [|done]. intros _. split_and!; try done. by intros ? [= <-].
  - intros _. by split_and!.
Qed.

(** ** Facts: a plan just issued *)
Lemma uuid_trimmed s : looksLikeUUID s = true → TrimSpace s = s.
Proof.
  unfold looksLikeUUID. intros [_ H]%andb_true_iff. apply TrimSpace_visible, Forall_lookup. intros i a Ha.
  rewrite forallb_forall in H. specialize (H (i, a)). rewrite <- list_elem_of_In in H.
  specialize (H ltac:(apply list_elem_of_lookup; exists i; by rewrite list_lookup_imap, Ha)).
  unfold uuid_byte in H. case_bool_decide; [apply Ascii.eqb_eq in H as ->; by vm_compute|].
  revert H. apply (all_bytes (λ a, hex_byte a = true → visible a)). by vm_compute.
Qed.
Section fresh.
Context `{!Uuids}.

(** Issuing is a step of the plans' tables. *)
Lemma issuePlan_authorised d limit lifetime clock surface actor fp ack plan d1 planID :
  authorised d → issuePlan d limit lifetime clock surface actor fp ack plan = inr (d1, planID) → authorised d1.
Proof.
  intros Hd. unfold issuePlan. destruct (negb ack && _); [done|]. destruct (plan_rows _) as [e|[|n l]]; [done|by intros [= <- _]|].
  unfold CreatePlan. destruct (negb (validate _)); [done|]. destruct (createPlanTx d _) as [e|[d2 pl]] eqn:E; [done|].
  intros [= <- _]. by eapply authorised_create.
Qed.

(** A plan's rows are those of its rehearsal: its id is new, so no row of
    before cites it. *)
Lemma issued_subjects d limit lifetime clock surface actor fp ack plan d1 planID d2 :
  plans_wf d → issuePlan d limit lifetime clock surface actor fp ack plan = inr (d1, Some planID) →
  plan_subjects (tables d2) = plan_subjects (tables d1) →
  ∃ new, planSubjectsTx d2 planID ≡ₚ new ∧
    Forall2 (λ s o, ps_PlanID s = planID ∧ ps_SubjectID s = bo_UserID o ∧ ps_Fingerprint s = bo_Fingerprint o ∧
                    o_Effect (ps_Outcome s) = bo_Effect o) new (bp_Outcomes plan).
Proof.
  intros Hwf Hi Hs. apply issuePlan_ok in Hi as (pl & new & _ & _ & Hid & _ & _ & _ & _ & _ & _ & Hs1 & HF).
  exists new. split; [|done]. unfold planSubjectsTx. rewrite stable_sort_perm, Hs, Hs1, filter_app.
  rewrite (filter_none _ (plan_subjects (tables d))), (filter_every _ new); [done| |].
  - intros s Hin. apply list_elem_of_lookup in Hin as [i Hin]. eapply Forall2_lookup_l in HF as (o & _ & ? & _); [|exact Hin]. done.
  - intros s Hin E. destruct (pw_has_plan _ Hwf s Hin) as (p & Hp & Ep). destruct (pw_plan_ids _ Hwf p Hp) as (n & Hn & En).
    assert (uuid n = uuid (next_uuid d)) as ?%uuid_inj by congruence. lia.
Qed.
Lemma claim_accepted d c clock p :
  plans_wf d → looksLikeUUID (ci_PlanID c) = true → p ∈ plans (tables d) → pl_ID p = ToLower (ci_PlanID c) →
  planRefusal p c (now d) = None →
  ∃ d', ClaimPlanTx d c clock = inr (d', spent (now d) p, planSubjectsTx d (ToLower (ci_PlanID c))).
Proof.
  intros Hwf Hl Hp Hid Hr. assert (Hf : find_plan d (ToLower (ci_PlanID c)) = Some p) by (by apply find_plan_Some).
  destruct (ClaimPlanTx d c clock) as [e|[[d' q] rows]] eqn:E.
  - apply ClaimPlanTx_refused in E as [[_ [?|?]]|(_ & q & why & ? & ?)]; [congruence..|done].
  - apply ClaimPlanTx_ok in E as (q0 & Hq & Hqi & _ & -> & -> & _ & _); [|done].
    assert (find_plan d (ToLower (ci_PlanID c)) = Some q0) by (by apply find_plan_Some).
    assert (q0 = p) as -> by congruence. exists d'. by rewrite Hid.
Qed.
Lemma planRefusal_none p c t :
  pl_Target p = ci_Target c → pl_Surface p = ci_Surface c → pl_CreatedBy p = ci_Actor c →
  pl_RequestFingerprint p = ci_RequestFingerprint c → pl_AppliedAt p = None → (∀ e, pl_ExpiresAt p = Some e → (t < e)%Z) →
  planRefusal p c t = None.
Proof.
  intros E1 E2 E3 E4 E5 He. unfold planRefusal. rewrite !bool_decide_true by done. cbn [negb orb].
  rewrite E5, bool_decide_false by by intros [? [=]]. destruct (pl_ExpiresAt p) as [e|]; [|done].
  destruct (Z.ltb_spec t e); [done|]. specialize (He e eq_refl). lia.
Qed.
End fresh.

(** ** Properties of the gate *)

(** C10. An apply goes ahead only on what was reviewed. If a plan is claimed, it was
    issued to this operator, on this screen, for this very request, it is not
    spent nor expired, and every subject it recorded is in the fresh rehearsal
    under the fingerprint it was reviewed with. It is spent by the claim, so no
    other apply can cite it, and the claim changes nothing but that; a refusal
    changes nothing at all. *)
Theorem claimed_as_reviewed `{!Uuids} d clock surface actor fp planID live d' rows :
  plans_wf d → claimPlan d clock surface actor fp planID live = inr (d', rows) →
  (∃ p, p ∈ plans (tables d) ∧ pl_ID p = ToLower (TrimSpace planID) ∧ pl_Target p = TargetZitadel ∧ pl_Surface p = surface ∧
     pl_CreatedBy p = actor ∧ pl_RequestFingerprint p = fp ∧ pl_AppliedAt p = None ∧
     (∀ t, pl_ExpiresAt p = Some t → (now d < t)%Z) ∧
     ∀ s, s ∈ rows ↔ s ∈ plan_subjects (tables d) ∧ ps_PlanID s = pl_ID p) ∧
  (∀ s, s ∈ rows → ∃ o, o ∈ live ∧ bo_UserID o = ps_SubjectID s ∧ bo_Fingerprint o = ps_Fingerprint s) ∧
  d' = with_tables d (with_plans (tables d)
         ((λ q, if pl_ID q =? ToLower (TrimSpace planID) then spent (now d) q else q) <$> plans (tables d)) (plan_subjects (tables d))) ∧
  (∀ clock' surface' actor' fp' live', ∃ e, claimPlan d' clock' surface' actor' fp' planID live' = inl e).
Proof.
  intros Hwf. unfold claimPlan.
  destruct (ClaimPlanTx d _ clock) as [e|[[d1 p] rs]] eqn:Ec; [done|].
  destruct (moved_subjects (indexOutcomes live) rs) as [|m ms] eqn:Em; [|done]. intros [= <- <-].
  rewrite moved_none in Em.
  pose proof Ec as Ec'. apply ClaimPlanTx_ok in Ec' as (p0 & Hp & Hid & Hr & _ & -> & _ & Hd); [|done].
  apply planRefusal_accepts in Hr as (H1 & H2 & H3 & H4 & H5 & H6). cbn [planCitation ci_PlanID ci_Target ci_Surface ci_Actor ci_RequestFingerprint] in *.
  split_and!; [exists p0; split_and!; try done; [congruence..|]| |by rewrite <- Hid|].
  - intros s. unfold planSubjectsTx. rewrite stable_sort_elem, list_elem_of_filter. tauto.
  - intros s Hs. destruct (Em s Hs) as (o & Ho & E). apply indexOutcomes_in in Ho as [Ho Hu]. by exists o.
  - intros clock' surface' actor' fp' live'. 
    destruct (ClaimPlanTx_spent d _ clock _ _ _ (planCitation surface' actor' fp' planID) clock' Hwf Ec) as [e ->]; [done|]. by eexists.
Qed.

(** C12. What was reviewed can be applied: an issued plan, cited before it expires
    by the operator it was issued to, for the same request on the same screen,
    is claimed if the fresh rehearsal has every reviewed row under the same
    fingerprint, and the claim returns the rows that were reviewed, each with
    the verdict it was shown with. *)
Theorem issued_plan_is_claimed `{!Uuids} d limit lifetime clock surface actor fp ack plan d1 planID d2 clock' live :
  plans_wf d → issuePlan d limit lifetime clock surface actor fp ack plan = inr (d1, Some planID) →
  plans_wf d2 → plans (tables d2) = plans (tables d1) → plan_subjects (tables d2) = plan_subjects (tables d1) →
  looksLikeUUID planID = true → (now d2 < now d + Z.quot lifetime second * second)%Z →
  (∀ o, o ∈ bp_Outcomes plan → ∃ o', indexOutcomes live !! bo_UserID o = Some o' ∧ bo_Fingerprint o' = bo_Fingerprint o) →
  ∃ d3 rows, claimPlan d2 clock' surface actor fp planID live = inr (d3, rows) ∧
    ((λ s, (ps_SubjectID s, ps_Fingerprint s, o_Effect (ps_Outcome s))) <$> rows) ≡ₚ
    ((λ o, (bo_UserID o, bo_Fingerprint o, bo_Effect o)) <$> bp_Outcomes plan).
Proof.
  intros Hwf Hi Hwf2 Hp Hs Hl Ht Hlive.
  destruct (issued_subjects _ _ _ _ _ _ _ _ _ _ _ d2 Hwf Hi Hs) as (new & Hperm & HF).
  apply issuePlan_ok in Hi as (pl & _ & Hpl & Hid & Hu & E1 & E2 & E3 & E4 & E5 & E6 & _ & _).
  destruct (claim_accepted d2 (planCitation surface actor fp planID) clock' pl) as [d3 Ec]; cbn [planCitation ci_PlanID];
    rewrite ?uuid_trimmed by done; [done|done|rewrite Hp, Hpl; set_solver|by rewrite Hu, uuid_lower, <- Hu| |].
  { apply planRefusal_none; try done. intros e. rewrite E6. by intros [= <-]. }
  unfold claimPlan. rewrite Ec. cbn [planCitation ci_PlanID]. rewrite uuid_trimmed, Hu, uuid_lower, <- Hu by done.
  rewrite (proj2 (moved_none (indexOutcomes live) (planSubjectsTx d2 planID))).
  - exists d3, (planSubjectsTx d2 planID). split; [done|]. rewrite Hperm. clear -HF.
    induction HF as [|s o new outs (_ & E1 & E2 & E3) _ IH]; [done|]. csimpl. by rewrite E1, E2, E3, IH.
  - intros s Hin. rewrite Hperm in Hin. apply list_elem_of_lookup in Hin as [i Hin].
    eapply Forall2_lookup_l in HF as (o & Ho & _ & Eu & Ef & _); [|exact Hin].
    destruct (Hlive o) as (o' & Hl' & Ef'); [by eapply list_elem_of_lookup_2|]. exists o'. by rewrite Eu, Ef.
Qed.

(** ** Witnesses *)
#[local] Existing Instance Requests.utc.
#[local] Existing Instance hex_uuids.

(** Ada asks for the viewer role for seven days; [seen] is what the directory
    shows she has when the decision is rehearsed. *)
Definition demo_waiting : Db :=
  with_requests demo_addons
    [{| q_id := "r1"; q_user := "ada"; q_project := "lab"; q_role := "viewer"; q_status := "pending"; q_reviewer := "";
        q_note := ""; q_ask := demo_days "access" 7; q_resolved := None; q_ended_before := None; q_ends_after := None |}] [].
Definition demo_rehearsal (seen : list string) (d : Db) : BulkPlan :=
  rehearseDecisionBatch (λ _ _, seen) (λ _ _, Offered) (λ s, s) (λ _, "") (λ _, "") (λ _, "") d
    (λ _, {| holding_read := true; cancels_read := true; rules_read := true |}) 1000 ["r1"] "approved".
Definition demo_issue : GateError + (Db * option string) :=
  issuePlan demo_waiting 25 (900 * second) 1000 planSurfaceBulkDecision "op" "fp" false (demo_rehearsal [] demo_waiting).
Definition demo_issued : Db := match demo_issue with inr (d, _) => d | inl _ => demo_waiting end.
Definition demo_claim (seen : list string) (d : Db) : GateError + (Db * list PlanSubject) :=
  claimPlan d 1000 planSurfaceBulkDecision "op" "fp" (hex_uuid 0) (bp_Outcomes (demo_rehearsal seen d)).

Lemma demo_waiting_authorised : authorised demo_waiting.
Proof. split; [split|..]; simpl; try apply NoDup_nil_2; try (by intros ? ?%elem_of_nil). by intros ? ? ? ?%elem_of_nil. Qed.
Lemma demo_issue_is : demo_issue = inr (demo_issued, Some (hex_uuid 0)).
Proof. vm_compute. reflexivity. Qed.
Lemma demo_issued_wf : plans_wf demo_issued.
Proof. eapply au_plans, issuePlan_authorised, demo_issue_is. exact demo_waiting_authorised. Qed.

Lemma issued_plan_is_claimed_witness :
  ∃ d3 rows, demo_claim [] demo_issued = inr (d3, rows) ∧ (ps_SubjectID <$> rows) = ["r1"].
Proof.
  destruct (issued_plan_is_claimed demo_waiting 25 (900 * second) 1000 planSurfaceBulkDecision "op" "fp" false
    (demo_rehearsal [] demo_waiting) demo_issued (hex_uuid 0) demo_issued 1000 (bp_Outcomes (demo_rehearsal [] demo_issued)))
    as (d3 & rows & E & Hp).
  - apply au_plans, demo_waiting_authorised.
  - apply demo_issue_is.
  - apply demo_issued_wf.
  - reflexivity.
  - reflexivity.
  - vm_compute. reflexivity.
  - vm_compute. reflexivity.
  - intros o Ho. vm_compute in Ho. apply list_elem_of_singleton in Ho as ->. eexists. split; vm_compute; reflexivity.
  - exists d3, rows. split; [exact E|]. apply (fmap_Permutation (λ x, x.1.1)) in Hp.
    rewrite <- !list_fmap_compose in Hp. apply Permutation_singleton_r in Hp. exact Hp.
Defined.

Lemma claimed_as_reviewed_witness :
  ∃ d3 rows, demo_claim [] demo_issued = inr (d3, rows) ∧ ∃ e, demo_claim [] d3 = inl e.
Proof.
  destruct (demo_claim [] demo_issued) as [e|[d3 rows]] eqn:E; [vm_compute in E; discriminate E|].
  exists d3, rows. split; [reflexivity|].
  apply (claimed_as_reviewed demo_issued 1000 planSurfaceBulkDecision "op" "fp" (hex_uuid 0)
    (bp_Outcomes (demo_rehearsal [] demo_issued)) d3 rows demo_issued_wf E).
Defined.

(** A request's fingerprint is of the request alone, so what the requester has
    may move under a review. Reviewed when Ada had nothing, approved after the
    role was given to her in Zitadel: the plan is claimed, and its row is to be
    applied while the fresh read beside it says that it cannot be. *)
Example approved_row_disagrees_with_the_fresh_read :
  ∃ d3 rows, demo_claim ["viewer"] demo_issued = inr (d3, rows) ∧
    ((λ o, (bo_UserID o, bo_Effect o, bo_Detail o)) <$>
       bp_Outcomes (planApprovedRows "decide_requests" rows (indexOutcomes (bp_Outcomes (demo_rehearsal ["viewer"] demo_issued))))) =
    [("r1", EffectApply, "Already has this, so approving would change nothing. Decline it to close the request.")].
Proof. do 2 eexists. split; vm_compute; reflexivity. Qed.

(** On Ada's waiting request both say yes; on an absent one both say no. *)
Lemma rehearsal_agrees_with_decision_witness :
  bo_Effect (rehearse_one (λ _ _, []) (λ _ _, Offered) (λ s, s) (λ _, "") (λ _, "") (λ _, "") demo_waiting
    {| holding_read := true; cancels_read := true; rules_read := true |} 1000 "approved" "r1") = EffectApply ∧
  bo_Effect (rehearse_one (λ _ _, []) (λ _ _, Offered) (λ s, s) (λ _, "") (λ _, "") (λ _, "") demo_waiting
    {| holding_read := true; cancels_read := true; rules_read := true |} 1000 "approved" "r2") ≠ EffectApply.
Proof.
  pose (reads := {| holding_read := true; cancels_read := true; rules_read := true |}).
  pose proof (λ i, rehearsal_agrees_with_decision (H := Requests.no_rules') (λ _ _, []) (λ _ _, Offered) (λ _, None) (λ s, s)
    (λ _, "") (λ _, "") (λ _, "") demo_waiting None reads 1000 "approved" i "op" "ok" "" (or_introl eq_refl)) as Hagree.
  split.
  - apply (proj2 (Hagree "r1")); [reflexivity|reflexivity|]. vm_compute. exact I.
  - intros E. pose proof (proj1 (Hagree "r2") E) as Hd. vm_compute in Hd. exact Hd.
Defined.
