(* ===== verification/Bindings.v ===== *)
(** * Bindings: which account on a target is whose

    backend/internal/db/target_bindings.go, binding_conflicts.go and
    merge_bases.go, with the unique indexes of target_account_bindings (one
    account per subject, one subject per account name and per uid) and of
    target_binding_conflicts (one standing finding per account). A refused
    statement rolls its transaction back. A conflict's id is read in the usual
    text form of a uuid; the values of a merge base are JSON texts. *)

From S2P Require Import Prelude Access Tables Extcall Outbox Lifecycle Plans.

Inductive BindingError :=
  | ErrInvalidTargetBinding
  | ErrBindingConflict
  | ErrNoSuchConflict
  | ErrNothingObserved
  | ErrNoSuchTarget              (* the foreign key on targets *)
  | ErrInvalidUUID.

(** ** Bindings *)
Definition same_subject (a b : TargetBinding) : bool := (tb_Target a =? tb_Target b) && (tb_SubjectID a =? tb_SubjectID b).
Definition same_account (a b : TargetBinding) : bool :=
  (tb_Target a =? tb_Target b) &&
  ((tb_Username a =? tb_Username b) || (bool_decide (is_Some (tb_AccountUID a)) && (tb_AccountUID a =? tb_AccountUID b))).
Definition bound_at (b : TargetBinding) (t : Z) : TargetBinding :=
  {| tb_Target := tb_Target b; tb_SubjectID := tb_SubjectID b; tb_Username := tb_Username b;
     tb_AccountUID := tb_AccountUID b; tb_BoundBy := tb_BoundBy b; tb_BoundAt := t; tb_LastSeenAt := t |}.
Definition rebound (x b : TargetBinding) (t : Z) : TargetBinding :=
  {| tb_Target := tb_Target x; tb_SubjectID := tb_SubjectID x; tb_Username := tb_Username b;
     tb_AccountUID := match tb_AccountUID b with Some u => Some u | None => tb_AccountUID x end;
     tb_BoundBy := tb_BoundBy x; tb_BoundAt := tb_BoundAt x; tb_LastSeenAt := t |}.
(** The INSERT ... ON CONFLICT (target, subject_id) DO UPDATE. *)
Definition upsert_binding (d : Db) (b : TargetBinding) : BindingError + Db :=
  let bs := bindings (tables d) in
  let put w l := if existsb (λ x, negb (same_subject x w) && same_account x w) bs then inl ErrBindingConflict
                 else inr (with_tables d (with_bindings (tables d) l (conflicts (tables d)))) in
  match head (filter (λ x, same_subject x b = true) bs) with
  | Some x =>
      let w := rebound x b (now d) in
      put w ((λ y, if same_subject y b then w else y) <$> bs)
  | None =>
      let w := bound_at b (now d) in
      match put w (bs ++ [w]) with
      | inr d' => if targets d !! tb_Target b =? None then inl ErrNoSuchTarget else inr d'
      | e => e
      end
  end.
Definition binding_invalid (b : TargetBinding) : bool :=
  blank (tb_Target b) || (tb_Target b =? TargetZitadel) || blank (tb_SubjectID b) || blank (tb_Username b) || blank (tb_BoundBy b).
Definition RecordTargetBinding (d : Db) (b : TargetBinding) : BindingError + Db :=
  if binding_invalid b then inl ErrInvalidTargetBinding else upsert_binding d b.
Definition GetTargetBinding (d : Db) (tgt subject : string) : option TargetBinding :=
  head (filter (λ b, tb_Target b = tgt ∧ tb_SubjectID b = subject) (bindings (tables d))).
Definition ListTargetBindings (d : Db) (tgt : string) : list TargetBinding :=
  stable_sort (cmp_on tb_Username String.compare) (filter (λ b, tb_Target b = tgt) (bindings (tables d))).
Definition forget_binding (bs : list TargetBinding) (tgt subject : string) : list TargetBinding :=
  filter (λ b, ¬ (tb_Target b = tgt ∧ tb_SubjectID b = subject)) bs.
Definition ForgetTargetBinding (d : Db) (tgt subject : string) : Db :=
  with_tables d (with_bindings (tables d) (forget_binding (bindings (tables d)) tgt subject) (conflicts (tables d))).

(** A binding that holds the account, by its name or its uid. *)
Definition BindingHolder (d : Db) (tgt username : string) (uid : Z) : option string :=
  tb_SubjectID <$> head (filter (λ b, tb_Target b = tgt ∧
    (tb_Username b = username ∨ uid ≠ 0%Z ∧ tb_AccountUID b = Some uid)) (bindings (tables d))).

(** ** Conflicts *)
Definition standing (c : BindingConflict) : bool := bc_Resolved c =? None.
Definition conflict_invalid (c : BindingConflict) : bool :=
  blank (bc_Target c) || blank (bc_Username c) || blank (bc_ConvergedSubjectID c) || blank (bc_BoundSubjectID c)
  || (bc_ConvergedSubjectID c =? bc_BoundSubjectID c).
Definition same_finding (c x : BindingConflict) : bool :=
  standing x && (bc_Target x =? bc_Target c) && (bc_Username x =? bc_Username c).
Section conflicts.
Context `{!Uuids}.
Definition RecordBindingConflict (d : Db) (c : BindingConflict) : BindingError + Db :=
  if conflict_invalid c then inl ErrInvalidTargetBinding
  else if negb (looksLikeUUID (bc_OutboxID c)) then inl ErrInvalidUUID
  else if existsb (same_finding c) (conflicts (tables d)) then inr d
  else if targets d !! bc_Target c =? None then inl ErrNoSuchTarget
  else
    let '(d, i) := mint d in
    inr (with_tables d (with_bindings (tables d) (bindings (tables d)) (conflicts (tables d) ++
      [{| bc_ID := i; bc_Target := bc_Target c; bc_Username := bc_Username c; bc_AccountUID := bc_AccountUID c;
          bc_ConvergedSubjectID := bc_ConvergedSubjectID c; bc_BoundSubjectID := bc_BoundSubjectID c;
          bc_OutboxID := bc_OutboxID c; bc_DetectedAt := now d; bc_Resolved := None |}]))).
End conflicts.
Definition StandingBindingConflicts (d : Db) (tgt : string) : list BindingConflict :=
  stable_sort (cmp_on (λ c, - bc_DetectedAt c)%Z Z.compare)
    (filter (λ c, bc_Target c = tgt ∧ standing c = true) (conflicts (tables d))).
Definition closed (t : Z) (by_ note : string) (c : BindingConflict) : BindingConflict :=
  {| bc_ID := bc_ID c; bc_Target := bc_Target c; bc_Username := bc_Username c; bc_AccountUID := bc_AccountUID c;
     bc_ConvergedSubjectID := bc_ConvergedSubjectID c; bc_BoundSubjectID := bc_BoundSubjectID c;
     bc_OutboxID := bc_OutboxID c; bc_DetectedAt := bc_DetectedAt c; bc_Resolved := Some (t, by_, note) |}.
Definition winning (c : BindingConflict) (owner actor : string) (t : Z) : TargetBinding :=
  {| tb_Target := bc_Target c; tb_SubjectID := owner; tb_Username := bc_Username c; tb_AccountUID := bc_AccountUID c;
     tb_BoundBy := actor; tb_BoundAt := t; tb_LastSeenAt := t |}.
Definition ResolveBindingConflict (d : Db) (i owner actor note : string) : BindingError + (Db * BindingConflict) :=
  if blank actor || blank note then inl ErrNoSuchConflict
  else if negb (looksLikeUUID i) then inl ErrNoSuchConflict
  else match filter (λ c, bc_ID c = ToLower i ∧ standing c = true) (conflicts (tables d)) with
  | [] => inl ErrNoSuchConflict
  | c :: _ =>
      if (owner <>? bc_ConvergedSubjectID c) && (owner <>? bc_BoundSubjectID c) then inl ErrInvalidTargetBinding
      else
        let loser := if owner =? bc_ConvergedSubjectID c then bc_BoundSubjectID c else bc_ConvergedSubjectID c in
        match upsert_binding (ForgetTargetBinding d (bc_Target c) loser) (winning c owner actor (now d)) with
        | inl e => inl e
        | inr d =>
            let cs := (λ x, if bc_ID x =? ToLower i then closed (now d) actor note x else x) <$> conflicts (tables d) in
            inr (with_outbox (with_tables d (with_bindings (tables d) (bindings (tables d)) cs)) (outbox d)
                   [{| a_actor := actor; a_subject := owner;
                       a_action := "target." +:+ bc_Target c +:+ ".binding_conflict_resolved"; a_resource := bc_Username c;
                       a_cascade := None; a_details := "" |}], c)
        end
  end.

(** ** Merge bases *)
Definition RecordMergeBase (d : Db) (tgt subject : string) (base : gmap string string) : BindingError + Db :=
  if blank tgt || blank subject || (base =? ∅) then inl ErrNothingObserved
  else if (targets d !! tgt =? None) then inl ErrNoSuchTarget
  else inr (with_tables d (with_merge_bases (tables d)
              (<[(tgt, subject) := {| mb_Base := base; mb_ObservedAt := now d |}]> (merge_bases (tables d))))).
Definition MergeBasesFor (d : Db) (tgt : string) : gmap string MergeBase :=
  list_to_map ((λ x : string * string * MergeBase, (x.1.2, x.2)) <$>
                 filter (λ x : string * string * MergeBase, x.1.1 = tgt) (map_to_list (merge_bases (tables d)))).
Definition ForgetMergeBase (d : Db) (tgt subject : string) : Db :=
  with_tables d (with_merge_bases (tables d) (delete (tgt, subject) (merge_bases (tables d)))).

(** ** Facts *)
Definition subject_key (b : TargetBinding) : string * string := (tb_Target b, tb_SubjectID b).
Lemma same_subject_key a b : same_subject a b = true ↔ subject_key a = subject_key b.
Proof. unfold same_subject, subject_key. rewrite andb_true_iff, !bool_decide_eq_true. split; [by intros [-> ->]|by intros [= -> ->]]. Qed.
Lemma same_subject_key_false a b : same_subject a b = false ↔ subject_key a ≠ subject_key b.
Proof. by rewrite <-not_true_iff_false, same_subject_key. Qed.
(** One account per subject and one subject per account. *)
Record bindings_wf (bs : list TargetBinding) : Prop := {
  bw_subject : NoDup (subject_key <$> bs);
  bw_account a b : a ∈ bs → b ∈ bs → same_account a b = true → a = b;
}.
Record conflicts_wf `{!Uuids} (cs : list BindingConflict) (n : nat) : Prop := {
  cf_ids : NoDup (bc_ID <$> cs);
  cf_fresh c : c ∈ cs → ∃ m, m < n ∧ bc_ID c = uuid m;
  cf_two c : c ∈ cs → bc_ConvergedSubjectID c ≠ bc_BoundSubjectID c;
  cf_one a b : a ∈ cs → b ∈ cs → standing a = true → standing b = true →
    bc_Target a = bc_Target b → bc_Username a = bc_Username b → a = b;
}.
Definition accounts_inv `{!Uuids} (d : Db) : Prop :=
  bindings_wf (bindings (tables d)) ∧ conflicts_wf (conflicts (tables d)) (next_uuid d).

Lemma key_elem_eq bs a b : NoDup (subject_key <$> bs) → a ∈ bs → b ∈ bs → subject_key a = subject_key b → a = b.
Proof.
  induction bs as [|x bs IH]; [by intros _ ?%elem_of_nil|]. csimpl. intros [Hx Hnd]%NoDup_cons.
  rewrite !elem_of_cons. intros [->|Ha] [->|Hb] E; [done|..]; [| |auto]; exfalso; apply Hx.
  - rewrite E. by apply list_elem_of_fmap_2.
  - rewrite <-E. by apply list_elem_of_fmap_2.
Qed.
Lemma same_account_sym a b : same_account a b = same_account b a.
Proof.
  unfold same_account. repeat case_bool_decide; simpl; try done; try congruence;
    match goal with H : is_Some _, H' : ¬ is_Some _ |- _ => exfalso; apply H'; congruence end.
Qed.
(** What a successful upsert leaves: the subject's row, and everybody else's. *)
Lemma upsert_binding_ok d b d' :
  upsert_binding d b = inr d' → bindings_wf (bindings (tables d)) →
  ∃ w bs', d' = with_tables d (with_bindings (tables d) bs' (conflicts (tables d))) ∧ bindings_wf bs' ∧
    subject_key w = subject_key b ∧ tb_Username w = tb_Username b ∧
    (∀ u, tb_AccountUID b = Some u → tb_AccountUID w = Some u) ∧
    ∀ x, x ∈ bs' ↔ x = w ∨ x ∈ bindings (tables d) ∧ subject_key x ≠ subject_key b.
Proof.
  intros E [Hs Ha]. unfold upsert_binding in E. set (bs := bindings (tables d)) in *.
  assert (∃ w bs', d' = with_tables d (with_bindings (tables d) bs' (conflicts (tables d))) ∧ subject_key w = subject_key b ∧
    tb_Username w = tb_Username b ∧ (∀ u, tb_AccountUID b = Some u → tb_AccountUID w = Some u) ∧
    existsb (λ x, negb (same_subject x w) && same_account x w) bs = false ∧ NoDup (subject_key <$> bs') ∧
    ∀ x, x ∈ bs' ↔ x = w ∨ x ∈ bs ∧ subject_key x ≠ subject_key b) as (w & bs' & -> & Hk & Hn & Hu & Hf & Hnd & Hin).
  { destruct (head (filter _ bs)) as [x|] eqn:Ex.
    - apply head_Some_elem_of, list_elem_of_filter in Ex as [Ex%same_subject_key Hx].
      set (w := rebound x b (now d)) in E. destruct (existsb _ bs) eqn:Ef; [done|]. injection E as <-.
      exists w, ((λ y, if same_subject y b then w else y) <$> bs).
      assert (subject_key w = subject_key b) as Hk by done. split_and!; try done.
      + intros u Hu. simpl. by rewrite Hu.
      + apply NoDup_fmap_same; [|done]. intros y. destruct (same_subject y b) eqn:Ey; [|done].
        apply same_subject_key in Ey. congruence.
      + intros y. rewrite list_elem_of_fmap. split.
        * intros (z & -> & Hz). destruct (same_subject z b) eqn:Ez; [by left|right]. split; [done|]. by apply same_subject_key_false.
        * intros [->|[Hy Hne]]; [exists x|exists y]; (split; [|done]).
          { by rewrite (proj2 (same_subject_key x b)). }
          { by rewrite (proj2 (same_subject_key_false y b)). }
    - set (w := bound_at b (now d)) in E. destruct (existsb _ bs) eqn:Ef; [done|]. destruct (_ =? None); [done|].
      injection E as <-. exists w, (bs ++ [w]). apply head_None in Ex.
      assert (∀ y, y ∈ bs → subject_key y ≠ subject_key b) as Hne.
      { intros y Hy Ey. by apply (filter_nil_not_elem_of _ _ y Ex (proj2 (same_subject_key y b) Ey)). }
      split_and!; try done.
      + apply NoDup_fmap_snoc; [done|]. intros (y & Ey & Hy)%list_elem_of_fmap. by apply (Hne y).
      + intros y. rewrite elem_of_app, list_elem_of_singleton. naive_solver. }
  exists w, bs'. split_and!; try done. split; [done|].
  assert (∀ x, x ∈ bs → subject_key x ≠ subject_key b → same_account x w = false) as Hno.
  { intros x Hx Hne. apply not_true_is_false. intros Hsa. apply not_true_iff_false in Hf. apply Hf, existsb_elem. exists x.
    split; [done|]. rewrite Hsa, andb_true_r. apply negb_true_iff, same_subject_key_false. congruence. }
  intros x y Hx%Hin Hy%Hin Hxy. destruct Hx as [->|[Hx Hxk]], Hy as [->|[Hy Hyk]]; [done|..].
  - rewrite same_account_sym, Hno in Hxy by done. done.
  - rewrite Hno in Hxy by done. done.
  - by apply Ha.
Qed.
Lemma forget_wf bs tgt subject : bindings_wf bs → bindings_wf (forget_binding bs tgt subject).
Proof.
  intros [Hs Ha]. split; [by apply NoDup_fmap_filter|]. intros a b [_ ?]%list_elem_of_filter [_ ?]%list_elem_of_filter. auto.
Qed.
Lemma conflicts_wf_later `{!Uuids} cs n m : n ≤ m → conflicts_wf cs n → conflicts_wf cs m.
Proof. intros Hle []. split; try done. intros c Hc. destruct (cf_fresh0 c Hc) as (k & ? & ?). exists k. split; [lia|done]. Qed.
Lemma conflicts_wf_close `{!Uuids} cs n i t by_ note :
  conflicts_wf cs n → conflicts_wf ((λ x, if bc_ID x =? i then closed t by_ note x else x) <$> cs) n.
Proof.
  intros []. set (h := λ x, if bc_ID x =? i then closed t by_ note x else x).
  assert (∀ c, bc_ID (h c) = bc_ID c ∧ bc_ConvergedSubjectID (h c) = bc_ConvergedSubjectID c ∧ bc_BoundSubjectID (h c) = bc_BoundSubjectID c
    ∧ (standing (h c) = true → h c = c)) as Hh.
  { intros c. unfold h. destruct (bc_ID c =? i); by split_and!. }
  split.
  - apply NoDup_fmap_same; [|done]. intros c. apply Hh.
  - intros c (x & -> & Hx)%list_elem_of_fmap. destruct (Hh x) as [-> _]. auto.
  - intros c (x & -> & Hx)%list_elem_of_fmap. destruct (Hh x) as (_ & -> & -> & _). auto.
  - intros a b (x & -> & Hx)%list_elem_of_fmap (y & -> & Hy)%list_elem_of_fmap Sa Sb.
    destruct (Hh x) as (_ & _ & _ & Ex), (Hh y) as (_ & _ & _ & Ey). specialize (Ex Sa). specialize (Ey Sb). rewrite Ex, Ey in *. by apply cf_one0.
Qed.
Lemma conflict_recorded `{!Uuids} d c d' :
  RecordBindingConflict d c = inr d' →
  (d' = d ∧ existsb (same_finding c) (conflicts (tables d)) = true ∨
   ∃ x, tables d' = with_bindings (tables d) (bindings (tables d)) (conflicts (tables d) ++ [x]) ∧ bc_ID x = uuid (next_uuid d) ∧
     next_uuid d' = S (next_uuid d) ∧ bc_Target x = bc_Target c ∧ bc_Username x = bc_Username c ∧ standing x = true ∧
     bc_ConvergedSubjectID x = bc_ConvergedSubjectID c ∧ bc_BoundSubjectID x = bc_BoundSubjectID c ∧
     existsb (same_finding c) (conflicts (tables d)) = false) ∧ bc_ConvergedSubjectID c ≠ bc_BoundSubjectID c.
Proof.
  unfold RecordBindingConflict. destruct (conflict_invalid c) eqn:Ei; [done|]. destruct (negb _); [done|].
  assert (bc_ConvergedSubjectID c ≠ bc_BoundSubjectID c) as Hne.
  { unfold conflict_invalid in Ei. rewrite !orb_false_iff, bool_decide_eq_false in Ei. tauto. }
  destruct (existsb _ _) eqn:Ef; [intros [= <-]; split; [by left|done]|]. destruct (_ =? None); [done|]. cbn [mint].
  intros [= <-]. split; [right|done]. eexists. by split_and!.
Qed.
Section account_steps.
Context `{!Uuids}.
Inductive account_step (d d' : Db) : Prop :=
  | ac_record b : RecordTargetBinding d b = inr d' → account_step d d'
  | ac_forget tgt subject : d' = ForgetTargetBinding d tgt subject → account_step d d'
  | ac_conflict c : RecordBindingConflict d c = inr d' → account_step d d'
  | ac_resolve i owner actor note c : ResolveBindingConflict d i owner actor note = inr (d', c) → account_step d d'
  | ac_other : bindings (tables d') = bindings (tables d) → conflicts (tables d') = conflicts (tables d) →
      next_uuid d ≤ next_uuid d' → account_step d d'.
Lemma resolve_ok d i owner actor note d' c :
  ResolveBindingConflict d i owner actor note = inr (d', c) → accounts_inv d →
  ∃ w bs', bindings_wf bs' ∧ c ∈ conflicts (tables d) ∧ bc_ID c = ToLower i ∧ standing c = true ∧
    (owner = bc_ConvergedSubjectID c ∨ owner = bc_BoundSubjectID c) ∧ next_uuid d' = next_uuid d ∧
    bindings (tables d') = bs' ∧
    conflicts (tables d') = ((λ x, if bc_ID x =? bc_ID c then closed (now d) actor note x else x) <$> conflicts (tables d)) ∧
    subject_key w = (bc_Target c, owner) ∧ tb_Username w = bc_Username c ∧
    (∀ u, bc_AccountUID c = Some u → tb_AccountUID w = Some u) ∧
    ∀ x, x ∈ bs' ↔ x = w ∨ x ∈ bindings (tables d) ∧ subject_key x ≠ (bc_Target c, bc_ConvergedSubjectID c) ∧
                           subject_key x ≠ (bc_Target c, bc_BoundSubjectID c).
Proof.
  intros E [Hb Hc]. unfold ResolveBindingConflict in E. destruct (_ || _); [done|]. destruct (negb _); [done|].
  destruct (filter _ _) as [|c0 l] eqn:Ef; [done|].
  assert (c0 ∈ c0 :: l) as Hin by (by left). rewrite <-Ef in Hin. apply list_elem_of_filter in Hin as [[Hi Hst] Hin].
  destruct ((owner <>? _) && _) eqn:Eo; [done|]. set (loser := if owner =? _ then _ else _) in E.
  destruct (upsert_binding _ _) as [e|d1] eqn:Eu; [done|]. injection E as <- <-.
  apply upsert_binding_ok in Eu as (w & bs' & -> & Hwf & Hk & Hn & Hu & Hin'); [|by apply forget_wf].
  assert (owner = bc_ConvergedSubjectID c0 ∨ owner = bc_BoundSubjectID c0) as Ho.
  { apply andb_false_iff in Eo as [Eo|Eo]; apply negb_false_iff, bool_decide_eq_true in Eo; auto. }
  exists w, bs'. split_and!; try done; [by rewrite Hi|].
  intros x. rewrite Hin'. simpl. unfold forget_binding. rewrite list_elem_of_filter.
  change (subject_key (winning _ _ _ _)) with (bc_Target c0, owner). apply or_iff_compat_l. unfold subject_key, loser.
  assert (∀ a b s : string, (a, b) ≠ (bc_Target c0, s) ↔ ¬ (a = bc_Target c0 ∧ b = s)) as Hp by (intros a b s; rewrite pair_equal_spec; done).
  rewrite !Hp. pose proof (cf_two _ _ Hc c0 Hin). case_bool_decide as Eo'; [subst owner; tauto|].
  destruct Ho as [?| ->]; [done|]. tauto.
Qed.
Lemma account_step_inv d d' : account_step d d' → accounts_inv d → accounts_inv d'.
Proof.
  intros Hs [Hb Hc]. destruct Hs as [b E|tgt subject ->|c E|i owner actor note c E|Eb Ec Hn].
  - unfold RecordTargetBinding in E. destruct (binding_invalid b); [done|].
    apply upsert_binding_ok in E as (w & bs' & -> & Hwf & _); [|done]. by split.
  - split; [by apply forget_wf|done].
  - apply conflict_recorded in E as [[[-> _]|(x & Et & Hi & Hn & Hta & Hus & _ & Hco & Hbo & Hf)] Hne]; [done|]. split; rewrite Et; [done|].
    rewrite Hn. simpl. destruct (conflicts_wf_later _ (next_uuid d) (S (next_uuid d)) (Nat.le_succ_diag_r _) Hc).
    assert (∀ y, y ∈ conflicts (tables d) → standing y = true → bc_Target y = bc_Target x → bc_Username y = bc_Username x → False) as Hno.
    { intros y Hy Hst Et' Eu'. apply not_true_iff_false in Hf. apply Hf, existsb_elem. exists y. split; [done|].
      unfold same_finding. rewrite Hst. simpl. apply andb_true_iff. rewrite !bool_decide_eq_true. split; congruence. }
    split.
    + apply NoDup_fmap_snoc; [done|]. rewrite Hi. intros (y & Ey & Hy)%list_elem_of_fmap.
      destruct (cf_fresh _ _ Hc y Hy) as (m & Hm & Em). rewrite Em in Ey. apply uuid_inj in Ey. lia.
    + intros y. rewrite elem_of_app, list_elem_of_singleton. intros [Hy| ->]; [auto|]. exists (next_uuid d). split; [lia|done].
    + intros y. rewrite elem_of_app, list_elem_of_singleton. intros [Hy| ->]; [auto|congruence].
    + intros a b. rewrite !elem_of_app, !list_elem_of_singleton. intros [Ha| ->] [Hb'| ->] Sa Sb Et' Eu'; [eauto| | |done]; exfalso.
      * by apply (Hno a).
      * by apply (Hno b).
  - pose proof (resolve_ok _ _ _ _ _ _ _ E (conj Hb Hc)) as (w & bs' & Hwf & _ & _ & _ & _ & Hn & Eb & Ec & _).
    split; [by rewrite Eb|]. rewrite Ec, Hn. by apply conflicts_wf_close.
  - split; [by rewrite Eb|]. rewrite Ec. by eapply conflicts_wf_later.
Qed.
Lemma accounts_inv_empty d : bindings (tables d) = [] → conflicts (tables d) = [] → accounts_inv d.
Proof.
  unfold accounts_inv. intros -> ->. split; split; csimpl; try apply NoDup_nil_2; intros c.
  - by intros b ?%elem_of_nil.
  - by intros ?%elem_of_nil.
  - by intros ?%elem_of_nil.
  - by intros b ?%elem_of_nil.
Qed.
End account_steps.

(** ** Properties *)

(** C36. An account belongs to one person. From tables that record no accounts,
    whatever bindings are recorded, forgotten, found in conflict and resolved, in
    any order: a person has one account per target, no account name and no
    account uid of a target is two people's, every finding names two different
    people, and an account has one standing finding. *)
Theorem accounts_invariant `{!Uuids} d0 d :
  bindings (tables d0) = [] → conflicts (tables d0) = [] → rtc account_step d0 d →
  NoDup (subject_key <$> bindings (tables d)) ∧
  (∀ a b, a ∈ bindings (tables d) → b ∈ bindings (tables d) → tb_Target a = tb_Target b →
     tb_Username a = tb_Username b ∨ (∃ u, tb_AccountUID a = Some u ∧ tb_AccountUID b = Some u) → a = b) ∧
  (∀ c, c ∈ conflicts (tables d) → bc_ConvergedSubjectID c ≠ bc_BoundSubjectID c) ∧
  ∀ tgt, NoDup (bc_Username <$> StandingBindingConflicts d tgt).
Proof.
  intros Eb Ec Hs. pose proof (accounts_inv_empty d0 Eb Ec) as H0. clear Eb Ec. assert (accounts_inv d) as [[Hk Ha] []] by (induction Hs; eauto using account_step_inv). clear H0 Hs d0.
  split_and!; [done| |done|].
  - intros a b Hin Hin' Et Hor. apply Ha; [done..|]. unfold same_account. rewrite (bool_decide_eq_true_2 _ Et). simpl.
    destruct Hor as [E|(u & -> & ->)]; [by rewrite (bool_decide_eq_true_2 _ E)|]. by rewrite (bool_decide_eq_true_2 (is_Some _)), (bool_decide_eq_true_2 (Some u = _)), orb_true_r by eauto.
  - intros tgt. unfold StandingBindingConflicts. rewrite stable_sort_perm.
    apply NoDup_fmap_2_strong; [|by apply NoDup_filter, (NoDup_fmap_1 bc_ID)].
    intros x y [[Tx Sx] Hx]%list_elem_of_filter [[Ty Sy] Hy]%list_elem_of_filter E. apply cf_one0; congruence || done.
Qed.

(** Resolving a conflict gives the account to the one who was chosen. Of the
    two people it names, the chosen one holds exactly that account on the target
    afterwards and the other holds none there; every other binding stands, the
    finding stands no more, and no other finding changed. An owner it does not
    name is refused. *)
Theorem ResolveBindingConflict_spec `{!Uuids} d i owner actor note d' c :
  accounts_inv d → ResolveBindingConflict d i owner actor note = inr (d', c) →
  c ∈ conflicts (tables d) ∧ standing c = true ∧ (owner = bc_ConvergedSubjectID c ∨ owner = bc_BoundSubjectID c) ∧
  (∃ w, GetTargetBinding d' (bc_Target c) owner = Some w ∧ tb_Username w = bc_Username c ∧
        ∀ u, bc_AccountUID c = Some u → tb_AccountUID w = Some u) ∧
  (∀ s, s = bc_ConvergedSubjectID c ∨ s = bc_BoundSubjectID c → s ≠ owner → GetTargetBinding d' (bc_Target c) s = None) ∧
  (∀ b, tb_Target b ≠ bc_Target c ∨ tb_SubjectID b ≠ bc_ConvergedSubjectID c ∧ tb_SubjectID b ≠ bc_BoundSubjectID c →
        b ∈ bindings (tables d') ↔ b ∈ bindings (tables d)) ∧
  (∀ x, x ∈ conflicts (tables d') ∧ standing x = true ↔ x ∈ conflicts (tables d) ∧ standing x = true ∧ x ≠ c).
Proof.
  intros Hinv E. pose proof (resolve_ok _ _ _ _ _ _ _ E Hinv) as (w & bs' & Hwf & Hc & Hid & Hst & Ho & _ & Eb & Ec & Hk & Hn & Hu & Hin).
  destruct Hinv as [_ Hcf]. injection Hk as Hkt Hks. split_and!; try done.
  - unfold GetTargetBinding. rewrite Eb. destruct (head (filter _ bs')) as [x|] eqn:Ex.
    + apply head_Some_elem_of, list_elem_of_filter in Ex as [[Tx Sx] Hx]. exists x. split; [done|].
      assert (x = w) as ->; [|done]. eapply key_elem_eq; [apply Hwf|done|by apply Hin; left|]. unfold subject_key. congruence.
    + exfalso. apply head_None in Ex. apply (filter_nil_not_elem_of _ _ w Ex); [done|]. apply Hin. by left.
  - intros s Hs Hne. unfold GetTargetBinding. rewrite Eb. rewrite filter_none; [done|].
    intros x Hx [Tx Sx]. apply Hin in Hx as [->|(_ & H1 & H2)]; [congruence|].
    destruct Hs; subst; unfold subject_key in *; congruence.
  - intros b Hb. rewrite Eb, Hin. split; [|intros Hx; right; split; [done|]].
    + intros [->|[? _]]; [|done]. destruct Hb as [?|[? ?]]; [done|]. destruct Ho; congruence.
    + unfold subject_key. split; intros [= E1 E2]; destruct Hb as [?|[? ?]]; done.
  - intros x. rewrite Ec. split.
    + intros [(y & -> & Hy)%list_elem_of_fmap Hsx]. case_bool_decide as Ey; [done|]. split_and!; try done. by intros ->.
    + intros (Hx & Hsx & Hne). split; [|done]. apply list_elem_of_fmap. exists x. split; [|done].
      rewrite bool_decide_eq_false_2; [done|]. intros Ei. apply Hne.
      pose proof (cf_ids _ _ Hcf) as Hnd. clear -Hnd Hx Hc Ei. induction (conflicts (tables d)) as [|z l IH]; [by apply elem_of_nil in Hx|].
      csimpl in Hnd. apply NoDup_cons in Hnd as [Hz Hnd]. rewrite !elem_of_cons in *.
      destruct Hx as [->|Hx], Hc as [->|Hc]; [done|..]; [| |auto]; exfalso; apply Hz; [rewrite Ei|rewrite <-Ei]; by apply list_elem_of_fmap_2.
Qed.

#[local] Existing Instance hex_uuids.
Definition demo_account (subject name : string) (uid : option Z) : TargetBinding :=
  {| tb_Target := "nas"; tb_SubjectID := subject; tb_Username := name; tb_AccountUID := uid; tb_BoundBy := "op"; tb_BoundAt := 0; tb_LastSeenAt := 0 |}.
Definition ok_or (d : Db) (r : BindingError + Db) : Db := match r with inr d' => d' | inl _ => d end.
Definition demo_finding : BindingConflict :=
  {| bc_ID := ""; bc_Target := "nas"; bc_Username := "ada"; bc_AccountUID := Some 7%Z; bc_ConvergedSubjectID := "bob";
     bc_BoundSubjectID := "ada"; bc_OutboxID := uuid 99; bc_DetectedAt := 0; bc_Resolved := None |}.
Definition demo_bound : Db := ok_or demo_addons (RecordTargetBinding demo_addons (demo_account "ada" "ada" (Some 7%Z))).
Definition demo_disputed : Db := ok_or demo_bound (RecordBindingConflict demo_bound demo_finding).
Lemma demo_disputed_steps : rtc account_step demo_addons demo_disputed.
Proof.
  eapply rtc_l; [by apply (ac_record _ demo_bound (demo_account "ada" "ada" (Some 7%Z)))|].
  apply rtc_once. by apply (ac_conflict _ _ demo_finding).
Qed.
Lemma demo_disputed_inv : accounts_inv demo_disputed.
Proof.
  pose proof (accounts_inv_empty demo_addons eq_refl eq_refl) as H0.
  pose proof demo_disputed_steps as Hs. induction Hs; eauto using account_step_inv.
Qed.
Lemma accounts_invariant_witness :
  bc_Username <$> StandingBindingConflicts demo_disputed "nas" = ["ada"] ∧
  NoDup (subject_key <$> bindings (tables demo_disputed)).
Proof.
  split; [reflexivity|]. apply (accounts_invariant demo_addons); [reflexivity..|exact demo_disputed_steps].
Defined.
Lemma ResolveBindingConflict_spec_witness :
  ∃ d' c, ResolveBindingConflict demo_disputed (uuid 0) "bob" "op" "renamed" = inr (d', c) ∧
    GetTargetBinding d' "nas" "ada" = None.
Proof.
  destruct (ResolveBindingConflict demo_disputed (uuid 0) "bob" "op" "renamed") as [e|[d' c]] eqn:E; [by vm_compute in E|].
  exists d', c. split; [done|].
  destruct (ResolveBindingConflict_spec demo_disputed (uuid 0) "bob" "op" "renamed" d' c demo_disputed_inv E) as (Hc & _ & _ & _ & Hlose & _).
  vm_compute in Hc. apply list_elem_of_singleton in Hc. subst c. apply Hlose; [by right|done].
Defined.

(** ** The holder of a disputed account *)
(** An account that was renamed: the name is one person's and the uid another's.
    The statement that names "the other claimant" may find the claimant. *)
Definition demo_renamed : Db :=
  ok_or demo_bound (RecordTargetBinding demo_bound (demo_account "bob" "bob" (Some 9%Z))).
Example holder_may_be_the_claimant :
  RecordTargetBinding demo_renamed (demo_account "ada" "bob" (Some 7%Z)) = inl ErrBindingConflict ∧
  BindingHolder demo_renamed "nas" "bob" 7 = Some "ada".
Proof. by vm_compute. Qed.
