(* ===== verification/Transport.v ===== *)
(** * Transport: one call to an add-on, and what may be said of it afterwards

    backend/internal/addons: the classification and the breaker of transport.go,
    the one request path of pipe.go, Apply of entitlement.go, Plan and Health of
    read.go, and health_monitor.go. The network is a class: one exchange answers
    or fails, and the clock is part of it. Bodies are kept as the structures they
    encode on the way out and as the bytes that came back, whose JSON decoding is
    a parameter. Texts of errors, signatures and TLS are not modelled; a request
    is always well formed. *)

From S2P Require Import Prelude Tables.

(** ** Outcomes *)
Inductive CallOutcome := OutcomeSucceeded | OutcomeRejected | OutcomeUnreached | OutcomeIndeterminate.
#[export] Instance CallOutcome_eq_dec : EqDecision CallOutcome.
Proof. solve_decision. Defined.
Definition AllOutcomes : list CallOutcome := [OutcomeSucceeded; OutcomeRejected; OutcomeUnreached; OutcomeIndeterminate].
Definition Terminal (o : CallOutcome) : bool := (o =? OutcomeSucceeded) || (o =? OutcomeRejected).
Definition Retryable (o : CallOutcome) : bool := o =? OutcomeUnreached.
Definition classifyStatus (code : Z) (retryAfter : bool) : CallOutcome :=
  if (200 <=? code)%Z && (code <? 300)%Z then OutcomeSucceeded
  else if (code =? 429)%Z then OutcomeUnreached
  else if (code =? 408)%Z then OutcomeIndeterminate
  else if (code =? 503)%Z && retryAfter then OutcomeUnreached
  else if (500 <=? code)%Z then OutcomeIndeterminate
  else OutcomeRejected.

(** Why a response is not a success; [ErrAnswer] stands for the errors that only
    explain the status or the body. *)
Inductive CallError := ErrNoCallRecord | ErrCircuitOpen | ErrCredential | ErrClaim | ErrCancelled | ErrNotDelivered | ErrAnswer
                     | ErrNotRegistered | ErrNoFingerprint | ErrNoSubjects.
#[export] Instance CallError_eq_dec : EqDecision CallError.
Proof. solve_decision. Defined.
Record CallResponse := {
  r_Outcome : CallOutcome;
  r_Status : Z;
  r_Body : string;
  r_Err : option CallError;
  r_LifecycleRefusal : bool;
}.
Definition refused (e : CallError) : CallResponse :=
  {| r_Outcome := OutcomeUnreached; r_Status := 0; r_Body := ""; r_Err := Some e; r_LifecycleRefusal := false |}.

(** ** The breaker *)
Definition second_ns : Z := 10^9.
Definition breakerThreshold : nat := 5.
Definition breakerCooldown : Z := 30 * second_ns.
Record breaker := { failures : nat; openUntil : option Z }.
Definition closed_breaker : breaker := {| failures := 0; openUntil := None |}.
Definition allow (b : breaker) (t : Z) : bool := from_option (λ u, u <=? t)%Z true (openUntil b).
Definition record (b : breaker) (t : Z) (resp : CallResponse) : breaker :=
  if Terminal (r_Outcome resp) then closed_breaker
  else if r_LifecycleRefusal resp then b
  else {| failures := S (failures b);
          openUntil := if breakerThreshold <=? S (failures b) then Some (t + breakerCooldown)%Z else openUntil b |}.

(** ** What travels *)
Record ApplyRequest := {
  q_Target : string;
  q_Subject : string;
  q_Email : string;
  q_Fingerprint : string;
  q_CallID : string;
  q_PlanID : string;
  q_Actor : string;
  q_Desired : gmap string FieldValue;
}.
Record PlanSubjectReq := { pq_Subject : string; pq_Email : string; pq_Desired : gmap string FieldValue }.
Inductive Envelope :=
  | NoBody
  | applyEnvelope (r : ApplyRequest)
  | planEnvelope (subjects : list PlanSubjectReq) (acknowledgeScope : bool).
Record sendSpec := {
  s_Method : string;
  s_Path : string;
  s_Body : Envelope;
  s_Write : bool;
  s_TraceID : string;
  s_IdempotencyKey : string;
  s_SkipBreaker : bool;
}.
Record HttpAnswer := { h_Status : Z; h_RetryAfter : bool; h_Body : string; h_ReadErr : bool }.
(** [dial_failed]: the request was certainly not delivered (dialFailed). *)
Inductive NetError := dial_failed | answer_lost.

Definition maxResponseBytes : Z := 2^20.

(** ** The network *)
Class Wire (W : Type) := {
  (** target, method, path, body, idempotency key *)
  exchange : W → string → string → string → Envelope → option string → W * (NetError + HttpAnswer);
  timeNow : W → Z;
  cancelled : W → bool;
  registered : W → string → bool;
  credentialFor : W → string → bool;
}.

(** The network and the process's own memory of it. *)
Record HealthRecord := {
  checkedAt : Z;
  answeredAt : option Z;
  hr_failures : nat;
  firstFailedAt : option Z;
  everSucceeded : bool;
  lastLifecycle : string;
  recent : list string;
}.
Record Link (W : Type) := { net : W; breakers : gmap string breaker; monitor : gmap string HealthRecord }.
Arguments net {_} _. Arguments breakers {_} _. Arguments monitor {_} _.

Section transport.
Context {W : Type} `{!Wire W}.
Definition set_net (l : Link W) (w : W) : Link W := {| net := w; breakers := breakers l; monitor := monitor l |}.
Definition br (l : Link W) (tgt : string) : breaker := default closed_breaker (breakers l !! tgt).
Definition set_br (l : Link W) (tgt : string) (b : breaker) : Link W :=
  {| net := net l; breakers := <[tgt := b]> (breakers l); monitor := monitor l |}.

Definition answered (a : HttpAnswer) : CallResponse :=
  let oversized := (maxResponseBytes <? Z.of_nat (String.length (h_Body a)))%Z in
  let lifecycle := (h_Status a =? 503)%Z && h_RetryAfter a in
  let o := classifyStatus (h_Status a) lifecycle in
  let succeeded := o =? OutcomeSucceeded in
  let o' := if (h_ReadErr a || oversized) && succeeded then OutcomeIndeterminate else o in
  {| r_Outcome := o'; r_Status := h_Status a; 
     r_Body := if oversized then substring 0 (Z.to_nat maxResponseBytes) (h_Body a) else h_Body a;
     r_Err := if (o' =? OutcomeSucceeded) then None else Some ErrAnswer; r_LifecycleRefusal := lifecycle |}.
Definition doAuthenticatedWith (w : W) (tgt : string) (s : sendSpec) (key : option string) : W * CallResponse :=
  if cancelled w then (w, refused ErrCancelled)
  else match exchange w tgt (s_Method s) (s_Path s) (s_Body s) key with
  | (w, inl dial_failed) => (w, refused ErrNotDelivered)
  | (w, inl answer_lost) => (w, {| r_Outcome := OutcomeIndeterminate; r_Status := 0; r_Body := ""; r_Err := Some ErrAnswer;
                                   r_LifecycleRefusal := false |})
  | (w, inr a) => (w, answered a)
  end.
Definition firstNonEmpty (a b : string) : string := if a <>? "" then a else b.
(** [claim] takes the one-shot claim on the operation's record. The boolean says
    whether the request was handed to the network. *)
Definition send (l : Link W) (tgt : string) (s : sendSpec) (claim : option (W → W * bool)) : Link W * CallResponse * bool :=
  if s_Write s && bool_decide (claim = None) && (s_TraceID s =? "") then (l, refused ErrNoCallRecord, false)
  else if negb (s_SkipBreaker s) && negb (allow (br l tgt) (timeNow (net l))) then (l, refused ErrCircuitOpen, false)
  else if negb (credentialFor (net l) tgt) then (l, refused ErrCredential, false)
  else
    let '(w, claimed) := match claim with None => (net l, true) | Some f => f (net l) end in
    let l := set_net l w in
    if negb claimed then (l, refused ErrClaim, false)
    else
      let k := firstNonEmpty (s_IdempotencyKey s) (s_TraceID s) in
      let '(w, resp) := doAuthenticatedWith (net l) tgt s (if s_Write s && (k <>? "") then Some k else None) in
      let l := set_net l w in
      (if s_SkipBreaker s then l else set_br l tgt (record (br l tgt) (timeNow w) resp), resp, true).
Definition CircuitOpen (l : Link W) (tgt : string) : bool := negb (allow (br l tgt) (timeNow (net l))).

(** ** Decoding *)
Record ApplyBody := {
  ab_Effect : string; ab_Username : string; ab_UID : Z; ab_Detail : string; ab_Fingerprint : string;
  ab_Observed : gmap string string; ab_Unverified : bool; ab_Code : string;
}.
Definition no_apply : ApplyBody :=
  {| ab_Effect := ""; ab_Username := ""; ab_UID := 0; ab_Detail := ""; ab_Fingerprint := ""; ab_Observed := ∅;
     ab_Unverified := false; ab_Code := "" |}.
Record SubjectOutcome := { so_Subject : string; so_Effect : string; so_Detail : string; so_Fingerprint : string }.
(** [TakenAt]: [None] when the text is not a time. *)
Record PlanBody := { pb_Outcomes : list SubjectOutcome; pb_Current : bool; pb_TakenAt : option Z; pb_Truncated : bool }.
Record HealthBody := { hb_Reachable : bool; hb_Lifecycle : string; hb_LogHead : string; hb_LogRecords : Z }.
Record Decoders := {
  decode_apply : string → option ApplyBody;
  decode_refusal : string → option (string * string);
  decode_plan : string → option PlanBody;
  decode_health : string → option HealthBody;
}.
Context (J : Decoders).

Definition effectBlocked : string := "blocked".
Definition CodePlanStale : string := "PLAN_STALE".

(** ** Apply *)
Record ApplyResponse := {
  ap_Outcome : CallOutcome; ap_Status : Z; ap_Err : option CallError; ap_Body : ApplyBody; ap_LifecycleRefusal : bool;
}.
Definition apply_refused (e : CallError) : ApplyResponse :=
  {| ap_Outcome := OutcomeUnreached; ap_Status := 0; ap_Err := Some e; ap_Body := no_apply; ap_LifecycleRefusal := false |}.
Definition with_refusal (b : ApplyBody) (code detail : string) : ApplyBody :=
  {| ab_Effect := ab_Effect b; ab_Username := ab_Username b; ab_UID := ab_UID b; ab_Detail := detail;
     ab_Fingerprint := ab_Fingerprint b; ab_Observed := ab_Observed b; ab_Unverified := ab_Unverified b; ab_Code := code |}.
Definition read_apply (resp : CallResponse) : ApplyResponse :=
  let '(o, e, body) :=
    match r_Outcome resp with
    | OutcomeSucceeded =>
        match decode_apply J (r_Body resp) with
        | None => (OutcomeIndeterminate, Some ErrAnswer, no_apply)
        | Some b => if ab_Effect b =? effectBlocked then (OutcomeRejected, Some ErrAnswer, b) else (OutcomeSucceeded, r_Err resp, b)
        end
    | OutcomeRejected =>
        (OutcomeRejected, r_Err resp,
         match decode_refusal J (r_Body resp) with Some (code, detail) => with_refusal no_apply code detail | None => no_apply end)
    | o => (o, r_Err resp, no_apply)
    end in
  {| ap_Outcome := o; ap_Status := r_Status resp; ap_Err := e; ap_Body := body; ap_LifecycleRefusal := r_LifecycleRefusal resp |}.
Definition apply_spec (req : ApplyRequest) : sendSpec :=
  {| s_Method := "POST"; s_Path := "/apply"; s_Body := applyEnvelope req; s_Write := true; s_TraceID := q_CallID req;
     s_IdempotencyKey := ""; s_SkipBreaker := false |}.
(** The boolean says whether the request was handed to the network. *)
Definition Apply (l : Link W) (req : ApplyRequest) : Link W * ApplyResponse * bool :=
  if negb (registered (net l) (q_Target req)) then (l, apply_refused ErrNotRegistered, false)
  else if q_CallID req =? "" then (l, apply_refused ErrNoCallRecord, false)
  else if q_Fingerprint req =? "" then (l, apply_refused ErrNoFingerprint, false)
  else
    let '(l, resp, sent) := send l (q_Target req) (apply_spec req) None in
    (l, if sent then read_apply resp else apply_refused (default ErrAnswer (r_Err resp)), sent).

(** ** Plan *)
Record PlanResult := { pa_Outcomes : list SubjectOutcome; pa_Current : bool; pa_Truncated : bool; pa_Outcome : CallOutcome }.
Definition no_plan (o : CallOutcome) : PlanResult := {| pa_Outcomes := []; pa_Current := false; pa_Truncated := false; pa_Outcome := o |}.
Definition read_plan (resp : CallResponse) : PlanResult :=
  match r_Outcome resp with
  | OutcomeSucceeded =>
      match decode_plan J (r_Body resp) with
      | None => no_plan OutcomeIndeterminate
      | Some b => {| pa_Outcomes := pb_Outcomes b; pa_Current := pb_Current b; pa_Truncated := pb_Truncated b;
                     pa_Outcome := if negb (pb_Current b) && (pb_TakenAt b =? None) then OutcomeIndeterminate else OutcomeSucceeded |}
      end
  | o => no_plan o
  end.
Definition plan_spec (subjects : list PlanSubjectReq) (acknowledgeScope : bool) : sendSpec :=
  {| s_Method := "POST"; s_Path := "/plan"; s_Body := planEnvelope subjects acknowledgeScope; s_Write := false; s_TraceID := "";
     s_IdempotencyKey := ""; s_SkipBreaker := false |}.
Definition PlanCall (l : Link W) (tgt : string) (subjects : list PlanSubjectReq) (acknowledgeScope : bool) : Link W * PlanResult :=
  match subjects with
  | [] => (l, no_plan OutcomeUnreached)
  | _ =>
      if negb (registered (net l) tgt) then (l, no_plan OutcomeUnreached)
      else
        let '(l, resp, sent) := send l tgt (plan_spec subjects acknowledgeScope) None in
        (l, if sent then read_plan resp else no_plan OutcomeUnreached)
  end.

(** ** Health, and what is remembered of it *)
Definition offlineThreshold : nat := 3.
Definition fresh_record : HealthRecord :=
  {| checkedAt := 0; answeredAt := None; hr_failures := 0; firstFailedAt := None; everSucceeded := false; lastLifecycle := ""; recent := [] |}.
Definition observe (r : option HealthRecord) (reachable : bool) (lifecycle : string) (t : Z) : HealthRecord :=
  let r := default fresh_record r in
  let all := recent r ++ [if reachable then "answered" else "missed"] in
  let kept := if offlineThreshold <? length all then drop (length all - offlineThreshold) all else all in
  if reachable then
    {| checkedAt := t; answeredAt := Some t; hr_failures := 0; firstFailedAt := None; everSucceeded := true;
       lastLifecycle := lifecycle; recent := kept |}
  else
    {| checkedAt := t; answeredAt := answeredAt r; hr_failures := S (hr_failures r);
       firstFailedAt := if hr_failures r =? 0 then Some t else firstFailedAt r; everSucceeded := everSucceeded r;
       lastLifecycle := lastLifecycle r; recent := kept |}.
Inductive HealthStatus := HealthOnline | HealthOffline | HealthUnknown.
Record HealthState := {
  hs_Status : HealthStatus; hs_CheckedAt : option Z; hs_LastAnsweredAt : option Z; hs_ReachableSince : option Z;
  hs_Lifecycle : string; hs_Recent : list string; hs_MissedSince : option Z;
}.
Definition state (r : option HealthRecord) : HealthState :=
  match r with
  | None => {| hs_Status := HealthUnknown; hs_CheckedAt := None; hs_LastAnsweredAt := None; hs_ReachableSince := None;
               hs_Lifecycle := ""; hs_Recent := []; hs_MissedSince := None |}
  | Some r =>
      let offline := offlineThreshold <=? hr_failures r in
      {| hs_Status := if offline then HealthOffline else if everSucceeded r then HealthOnline else HealthUnknown;
         hs_CheckedAt := Some (checkedAt r); hs_LastAnsweredAt := answeredAt r;
         hs_ReachableSince := if offline then firstFailedAt r else None; hs_Lifecycle := lastLifecycle r;
         hs_Recent := recent r; hs_MissedSince := if 0 <? hr_failures r then firstFailedAt r else None |}
  end.
Record TargetHealth := {
  th_Outcome : CallOutcome; th_Err : option CallError; th_Reachable : bool; th_Lifecycle : string;
  th_LogHead : string; th_LogRecords : Z;
}.
Definition no_health (o : CallOutcome) (e : option CallError) : TargetHealth :=
  {| th_Outcome := o; th_Err := e; th_Reachable := false; th_Lifecycle := ""; th_LogHead := ""; th_LogRecords := 0 |}.
Definition health_spec : sendSpec :=
  {| s_Method := "GET"; s_Path := "/health"; s_Body := NoBody; s_Write := false; s_TraceID := ""; s_IdempotencyKey := ""; s_SkipBreaker := false |}.
Definition readHealth (l : Link W) (tgt : string) : Link W * TargetHealth :=
  if negb (registered (net l) tgt) then (l, no_health OutcomeUnreached (Some ErrNotRegistered))
  else
    let '(l, resp, sent) := send l tgt health_spec None in
    (l, if negb sent then no_health OutcomeUnreached (r_Err resp)
        else match r_Outcome resp with
        | OutcomeSucceeded =>
            match decode_health J (r_Body resp) with
            | None => no_health OutcomeIndeterminate (Some ErrAnswer)
            | Some b => {| th_Outcome := OutcomeSucceeded; th_Err := None; th_Reachable := hb_Reachable b; th_Lifecycle := hb_Lifecycle b;
                           th_LogHead := hb_LogHead b; th_LogRecords := hb_LogRecords b |}
            end
        | o => no_health o (r_Err resp)
        end).
Definition observeHealth (l : Link W) (tgt : string) (h : TargetHealth) : Link W :=
  if th_Err h =? Some ErrCircuitOpen then l
  else {| net := net l; breakers := breakers l;
          monitor := <[tgt := observe (monitor l !! tgt) ((th_Outcome h =? OutcomeSucceeded) && th_Reachable h) (th_Lifecycle h)
                                (timeNow (net l))]> (monitor l) |}.
Definition Health (l : Link W) (tgt : string) : Link W * TargetHealth :=
  if negb (registered (net l) tgt) then (l, no_health OutcomeUnreached (Some ErrNotRegistered))
  else let '(l, h) := readHealth l tgt in (observeHealth l tgt h, h).
Definition HealthOf (l : Link W) (tgt : string) : HealthState := state (monitor l !! tgt).
Fixpoint ProbeAll (l : Link W) (targets : list string) : Link W :=
  match targets with [] => l | t :: ts => ProbeAll (Health l t).1 ts end.
End transport.

(** ** Facts: what was handed to the network *)
Record Sent := { x_Target : string; x_Path : string; x_Body : Envelope; x_Key : option string }.
(** A network that remembers its exchanges; no clock, registration or credential
    read is one. *)
Class WireLog (W : Type) `{!Wire W} := {
  sent : W → list Sent;
  sent_exchange w tgt m p b k :
    sent (exchange w tgt m p b k).1 = sent w ++ [{| x_Target := tgt; x_Path := p; x_Body := b; x_Key := k |}];
}.
Section log.
Context {W : Type} `{!Wire W, !WireLog W} (J : Decoders).
Implicit Types l : Link W.
Definition sending_of (tgt : string) (sp : sendSpec) : Sent :=
  let k := firstNonEmpty (s_IdempotencyKey sp) (s_TraceID sp) in
  {| x_Target := tgt; x_Path := s_Path sp; x_Body := s_Body sp; x_Key := if s_Write sp && (k <>? "") then Some k else None |}.
(** Either nothing left and the call is safe to repeat, or exactly this did. *)
Lemma send_sent l tgt sp l' resp b :
  send l tgt sp None = (l', resp, b) →
  sent (net l') = sent (net l) ∧ r_Outcome resp = OutcomeUnreached ∨
  b = true ∧ sent (net l') = sent (net l) ++ [sending_of tgt sp].
Proof.
  unfold send. destruct (s_Write sp && _ && _); [intros [= <- <- <-]; by left|].
  destruct (negb (s_SkipBreaker sp) && _); [intros [= <- <- <-]; by left|].
  destruct (negb (credentialFor _ _)); [intros [= <- <- <-]; by left|]. simpl.
  unfold doAuthenticatedWith. destruct (cancelled _); [intros [= <- <- <-]; left; by destruct (s_SkipBreaker sp)|].
  set (k := if s_Write sp && _ then _ else _).
  pose proof (sent_exchange (net l) tgt (s_Method sp) (s_Path sp) (s_Body sp) k) as Hs.
  destruct (exchange _ _ _ _ _ _) as [w [[]|a]]; simpl in Hs; intros [= <- <- <-];
    (right; split; [done|]; destruct (s_SkipBreaker sp); exact Hs).
Qed.
Lemma Apply_sent l req l' resp b :
  Apply J l req = (l', resp, b) →
  sent (net l') = sent (net l) ∧ ap_Outcome resp = OutcomeUnreached ∨
  q_CallID req ≠ "" ∧ q_Fingerprint req ≠ "" ∧
    sent (net l') = sent (net l) ++
      [{| x_Target := q_Target req; x_Path := "/apply"; x_Body := applyEnvelope req; x_Key := Some (q_CallID req) |}].
Proof.
  unfold Apply. destruct (negb _); [intros [= <- <- <-]; by left|].
  destruct (q_CallID req =? "") eqn:Ec; [intros [= <- <- <-]; by left|].
  destruct (q_Fingerprint req =? "") eqn:Ef; [intros [= <- <- <-]; by left|].
  destruct (send l (q_Target req) (apply_spec req) None) as [[l1 r1] s1] eqn:Es. intros [= <- <- <-].
  apply bool_decide_eq_false in Ec, Ef. apply send_sent in Es as [[Hs Ho]|[-> Hs]].
  - left. split; [done|]. destruct s1; [|done]. unfold read_apply. by rewrite Ho.
  - right. split_and!; [done..|]. rewrite Hs. unfold sending_of. simpl. unfold firstNonEmpty. simpl.
    by rewrite (bool_decide_false (q_CallID req = "")) by done.
Qed.
Lemma PlanCall_sent l tgt subjects ack l' answer :
  PlanCall J l tgt subjects ack = (l', answer) →
  sent (net l') = sent (net l) ∧ pa_Outcome answer = OutcomeUnreached ∨
  sent (net l') = sent (net l) ++ [{| x_Target := tgt; x_Path := "/plan"; x_Body := planEnvelope subjects ack; x_Key := None |}].
Proof.
  unfold PlanCall. destruct subjects as [|x subjects]; [intros [= <- <-]; by left|].
  destruct (negb _); [intros [= <- <-]; by left|].
  destruct (send l tgt _ None) as [[l1 r1] s1] eqn:Es. intros [= <- <-]. apply send_sent in Es as [[Hs Ho]|[-> Hs]].
  - left. split; [done|]. destruct s1; [|done]. unfold read_plan. by rewrite Ho.
  - right. by rewrite Hs.
Qed.
End log.

(** ** Facts: the breaker and the monitor as functions of their history *)

(** A history of one target splits at the last call its add-on read and decided. *)
Definition decided (x : Z * CallResponse) : bool := Terminal (r_Outcome x.2).
Definition counted (x : Z * CallResponse) : Prop := r_LifecycleRefusal x.2 = false.
#[export] Instance counted_dec x : Decision (counted x).
Proof. unfold counted. apply _. Defined.
Definition recorded (h : list (Z * CallResponse)) : breaker := foldl (λ b x, record b x.1 x.2) closed_breaker h.
(** [post] is everything after the last element of [h] that satisfies [P]. *)
Definition splits {A} (P : A → bool) (h pre post : list A) : Prop :=
  h = pre ++ post ∧ (∀ x, x ∈ post → P x = false) ∧ ∀ x, last pre = Some x → P x = true.
Lemma splits_snoc {A} (P : A → bool) h pre post x :
  splits P h pre post → if P x then splits P (h ++ [x]) (h ++ [x]) [] else splits P (h ++ [x]) pre (post ++ [x]).
Proof.
  intros (-> & Hpost & Hpre). destruct (P x) eqn:Ex.
  - split_and!; [by rewrite app_nil_r|by intros y ?%elem_of_nil|]. intros y. rewrite last_snoc. by intros [= <-].
  - split_and!; [by rewrite (assoc_L (++))| |done]. intros y. rewrite elem_of_app, list_elem_of_singleton. intros [?| ->]; auto.
Qed.
Lemma splits_exists {A} (P : A → bool) h : ∃ pre post, splits P h pre post.
Proof.
  induction h as [|x h (pre & post & IH)] using rev_ind.
  - exists [], []. split_and!; [done|by intros ? ?%elem_of_nil|done].
  - apply (splits_snoc P _ _ _ x) in IH. destruct (P x); eauto.
Qed.
Lemma splits_unique {A} (P : A → bool) h pre post pre' post' :
  splits P h pre post → splits P h pre' post' → pre = pre' ∧ post = post'.
Proof.
  revert pre post pre' post'. induction h as [|x h IH] using rev_ind.
  - intros pre post pre' post' (E & _) (E' & _). symmetry in E, E'. apply app_eq_nil in E as [-> ->]. apply app_eq_nil in E' as [-> ->]. done.
  - assert (∀ pre post, splits P (h ++ [x]) pre post →
      if P x then pre = h ++ [x] ∧ post = [] else ∃ post0, post = post0 ++ [x] ∧ splits P h pre post0) as Hcase.
    { intros pre post (E & Hpost & Hpre). destruct post as [|y post _] using rev_ind.
      - rewrite app_nil_r in E. subst pre. rewrite last_snoc in Hpre. by rewrite (Hpre x eq_refl).
      - rewrite (assoc_L (++)) in E. apply app_inj_tail in E as [-> ->]. rewrite Hpost by (apply elem_of_app; right; by left).
        exists post. split_and!; [done|]. split_and!; [done| |done]. intros z Hz. apply Hpost, elem_of_app. by left. }
    intros pre post pre' post' H1%Hcase H2%Hcase. destruct (P x).
    + by destruct H1 as [-> ->], H2 as [-> ->].
    + destruct H1 as (q1 & -> & H1), H2 as (q2 & -> & H2). destruct (IH _ _ _ _ H1 H2) as [-> ->]. done.
Qed.
Lemma recorded_state h pre post :
  splits decided h pre post →
  failures (recorded h) = length (filter counted post) ∧
  openUntil (recorded h) = if breakerThreshold <=? length (filter counted post)
                           then (λ t, t + breakerCooldown)%Z <$> (fst <$> last (filter counted post)) else None.
Proof.
  revert pre post. induction h as [|[t r] h IH] using rev_ind; intros pre post Hs.
  - destruct Hs as (E & _). symmetry in E. apply app_eq_nil in E as [-> ->]. done.
  - destruct (splits_exists decided h) as (pre0 & post0 & Hs0). destruct (IH _ _ Hs0) as [Hf Ho].
    pose proof (splits_snoc decided h pre0 post0 (t, r) Hs0) as Hs1. unfold recorded in *. rewrite foldl_app. simpl.
    set (b := foldl _ _ h) in *. clearbody b. destruct (decided (t, r)) eqn:Ed; destruct (splits_unique _ _ _ _ _ _ Hs Hs1) as [-> ->]; unfold decided in Ed; simpl in Ed;
      unfold record; rewrite Ed; [done|].
    rewrite filter_app, length_app. destruct (r_LifecycleRefusal r) eqn:El.
    + rewrite filter_cons_False by (unfold counted; simpl; by rewrite El). rewrite filter_nil, app_nil_r, Nat.add_0_r. done.
    + rewrite filter_cons_True by done. rewrite filter_nil. simpl. rewrite Hf, Ho, last_snoc, Nat.add_1_r. split; [done|].
      by destruct (length (filter counted post0)) as [|[|[|[|n]]]].
Qed.

(** ** Properties *)

(** C37. The breaker cuts a target off for a while, and only when it is down. On
    any history of calls, a call is refused exactly when, since the add-on last
    read a call and decided it, at least five calls were lost that were not a
    declared maintenance refusal, and the last of those is less than the
    cool-down ago. So one answer reopens it, a maintenance window neither counts
    nor forgives, and it never stays closed longer than the cool-down. *)
Theorem breaker_spec h :
  ∃ pre post, splits decided h pre post ∧
    let lost := filter counted post in
    ∀ t, allow (recorded h) t = false ↔
      breakerThreshold ≤ length lost ∧ ∃ x, last lost = Some x ∧ (t < x.1 + breakerCooldown)%Z.
Proof.
  destruct (splits_exists decided h) as (pre & post & Hs). exists pre, post. split; [done|]. intros lost t.
  destruct (recorded_state h pre post Hs) as [_ Ho]. unfold allow. rewrite Ho. fold lost.
  destruct (breakerThreshold <=? length lost) eqn:Eb.
  - apply Nat.leb_le in Eb. destruct (last lost) as [x|] eqn:El; simpl.
    + rewrite Z.leb_gt. split; [intros ?; split; [done|by exists x]|]. by intros (_ & y & [= <-] & ?).
    + split; [done|]. by intros (_ & y & ? & _).
  - apply Nat.leb_gt in Eb. split; [done|]. intros [? _]. lia.
Qed.

(** One target's health reads, oldest first: when, whether it answered, and the
    lifecycle it reported. *)
Definition observed (h : list (Z * bool * string)) : option HealthRecord :=
  foldl (λ r x, Some (observe r x.1.2 x.2 x.1.1)) None h.
Definition answering (x : Z * bool * string) : bool := x.1.2.
Definition result_of (x : Z * bool * string) : string := if x.1.2 then "answered" else "missed".
Lemma observed_state h pre post :
  splits answering h pre post → h ≠ [] →
  ∃ r, observed h = Some r ∧ hr_failures r = length post ∧ firstFailedAt r = (λ x, x.1.1) <$> head post ∧
    everSucceeded r = bool_decide (pre ≠ []) ∧ answeredAt r = (λ x, x.1.1) <$> last pre ∧
    recent r = drop (length h - offlineThreshold) (result_of <$> h) ∧ Some (checkedAt r) = (λ x, x.1.1) <$> last h.
Proof.
  revert pre post. induction h as [|[[t ok] lc] h IH] using rev_ind; [done|]. intros pre post Hs _.
  destruct (splits_exists answering h) as (pre0 & post0 & Hs0).
  pose proof (splits_snoc answering h pre0 post0 (t, ok, lc) Hs0) as Hs1.
  unfold observed. rewrite foldl_app. fold (observed h). simpl. eexists. split; [done|].
  set (r0 := default fresh_record (observed h)).
  assert (hr_failures r0 = length post0 ∧ firstFailedAt r0 = (λ x, x.1.1) <$> head post0 ∧
    everSucceeded r0 = bool_decide (pre0 ≠ []) ∧ answeredAt r0 = (λ x, x.1.1) <$> last pre0 ∧
    recent r0 = drop (length h - offlineThreshold) (result_of <$> h)) as (Hf & Hff & He & Ha & Hr).
  { destruct (decide (h = [])) as [->|Hne].
    - destruct Hs0 as (E & _). symmetry in E. apply app_eq_nil in E as [-> ->]. done.
    - destruct (IH pre0 post0 Hs0 Hne) as (r & E & ? & ? & ? & ? & ? & _). unfold r0. rewrite E. done. }
  assert (∀ res, (if offlineThreshold <? length (recent r0 ++ [res]) then drop (length (recent r0 ++ [res]) - offlineThreshold) (recent r0 ++ [res])
    else recent r0 ++ [res]) = drop (length (h ++ [(t, ok, lc)]) - offlineThreshold) ((result_of <$> h) ++ [res])) as Hk.
  { intros res. rewrite Hr, !length_app, length_drop, length_fmap. simpl. unfold offlineThreshold.
    destruct (decide (length h < 3)) as [Hl|Hl].
    - rewrite (proj2 (Nat.ltb_ge _ _)) by lia. replace (length h - 3) with 0 by lia. replace (length h + 1 - 3) with 0 by lia. done.
    - rewrite (proj2 (Nat.ltb_lt _ _)) by lia. replace (length h - (length h - 3) + 1 - 3) with 1 by lia.
      replace (length h + 1 - 3) with (length h - 3 + 1) by lia.
      rewrite <-drop_drop, <-drop_app_le by (rewrite length_fmap; lia). done. }
  rewrite fmap_app, last_snoc. unfold observe. fold r0. destruct ok; cbn [answering fst snd] in Hs1;
    destruct (splits_unique _ _ _ _ _ _ Hs Hs1) as [-> ->]; simpl; rewrite Hk; split_and!; try done.
  - by rewrite bool_decide_eq_true_2 by (by destruct h).
  - by rewrite last_snoc.
  - rewrite Hf, length_app. simpl. lia.
  - rewrite Hf. destruct post0; simpl; [done|]. by rewrite Hff.
Qed.

(** "Offline" means confirmed. On any non-empty history of health reads of
    a target, it is called offline exactly when the last three or more all
    missed, since the first of that run; online when it has answered and fewer
    missed since; and otherwise nothing is claimed. The last answer's time, the
    first miss of the run and the last three results are reported as they were. *)
Theorem monitor_spec h :
  h ≠ [] → ∃ pre post, splits answering h pre post ∧
    let s := state (observed h) in
    hs_Status s = (if offlineThreshold <=? length post then HealthOffline
                   else match pre with [] => HealthUnknown | _ => HealthOnline end) ∧
    hs_ReachableSince s = (if offlineThreshold <=? length post then (λ x, x.1.1) <$> head post else None) ∧
    hs_MissedSince s = (λ x, x.1.1) <$> head post ∧ hs_LastAnsweredAt s = (λ x, x.1.1) <$> last pre ∧
    hs_CheckedAt s = (λ x, x.1.1) <$> last h ∧
    hs_Recent s = drop (length h - offlineThreshold) (result_of <$> h).
Proof.
  intros Hne. destruct (splits_exists answering h) as (pre & post & Hs). exists pre, post. split; [done|].
  destruct (observed_state h pre post Hs Hne) as (r & -> & Hf & Hff & He & Ha & Hr & Hc).
  cbn zeta. unfold state. cbn [hs_Status hs_ReachableSince hs_MissedSince hs_LastAnsweredAt hs_CheckedAt hs_Recent].
  rewrite Hf, Hff, He. split_and!; try done.
  - destruct (_ <=? _); [done|]. by destruct pre.
  - by destruct post.
Qed.
Lemma monitor_spec_witness :
  ∃ pre post, splits answering [(1%Z, true, "active"); (2%Z, false, ""); (3%Z, false, ""); (4%Z, false, "")] pre post ∧
    hs_ReachableSince (state (observed [(1%Z, true, "active"); (2%Z, false, ""); (3%Z, false, ""); (4%Z, false, "")])) = Some 2%Z.
Proof.
  destruct (monitor_spec [(1%Z, true, "active"); (2%Z, false, ""); (3%Z, false, ""); (4%Z, false, "")]) as (pre & post & Hs & _); [discriminate|].
  exists pre, post. split; [exact Hs|reflexivity].
Defined.
