(* ===== verification/LogAnchor.v ===== *)
(** * LogAnchor: what the backend remembers of an add-on's mutation log

    backend/internal/db/log_anchor.go, anchorLog of services/drift/addon.go and
    the table of migration 000033. A call's transaction may fail at any of its
    statements, and its commit may be lost with or without having happened. *)

From S2P Require Import Prelude Fingerprint MutationLog Extcall Transport.

Definition AnchorFirstSighting : string := "first_sighting".
Definition AnchorExtended : string := "extended".
Definition AnchorUnchanged : string := "unchanged".
Definition AnchorRecordsDecreased : string := "records_decreased".
Definition AnchorHeadRewritten : string := "head_rewritten".

Record LogAnchor := {
  la_Target : string;
  la_Head : string;
  la_Records : Z;                       (* int64 *)
  la_AnchoredAt : Z;
  la_ViolationReason : string;
  la_ViolationHead : string;
  la_ViolationRecords : option Z;
  la_ViolationAt : option Z;
}.
Definition Compromised (a : LogAnchor) : bool := la_ViolationReason a <>? "".

Definition ClassifyLogHead (prevHead : string) (prevRecords : Z) (head : string) (records : Z) : string :=
  if (records <? prevRecords)%Z then AnchorRecordsDecreased
  else if (records =? prevRecords)%Z && (head <>? prevHead) then AnchorHeadRewritten
  else if (records =? prevRecords)%Z then AnchorUnchanged
  else if head =? prevHead then AnchorHeadRewritten
  else AnchorExtended.
Definition AnchorViolation (verdict : string) : bool :=
  (verdict =? AnchorRecordsDecreased) || (verdict =? AnchorHeadRewritten).

(** ** The table *)
Record AnchorRow := {
  ar_target : string;
  ar_head : string;
  ar_records : Z;
  ar_anchored_at : Z;
  ar_reason : option string;
  ar_vhead : option string;
  ar_vrecords : option Z;
  ar_vat : option Z;
}.
Record AuditRow := { au_actor : string; au_subject : string; au_action : string; au_resource : string }.
Record AnchorDb := {
  targets : gset string;
  anchors : gmap string AnchorRow;
  audits : list AuditRow;
}.
Definition set_anchor (d : AnchorDb) (r : AnchorRow) : AnchorDb :=
  {| targets := targets d; anchors := <[ar_target r := r]> (anchors d); audits := audits d |}.
Definition add_audit (d : AnchorDb) (a : AuditRow) : AnchorDb :=
  {| targets := targets d; anchors := anchors d; audits := audits d ++ [a] |}.

(** Where a transaction fails; a lost commit may have taken effect. *)
Inductive TxFault := tx_begin | tx_read | tx_write | tx_audit | tx_back | tx_commit (applied : bool).
#[export] Instance TxFault_eq_dec : EqDecision TxFault.
Proof. solve_decision. Defined.
Inductive AnchorError :=
  | err_no_target | err_negative | err_no_head | err_unknown_target
  | err_tx (f : TxFault)
  | ErrNoAnchorFinding | ErrAnchorMoved.

(** WHERE ($1 = '' OR target = $1), the first row of it. *)
Definition anchorSelect (d : AnchorDb) (tgt : string) : option AnchorRow :=
  if tgt =? "" then snd <$> head (map_to_list (anchors d)) else anchors d !! tgt.
Definition readAnchor (r : AnchorRow) : LogAnchor :=
  {| la_Target := ar_target r; la_Head := ar_head r; la_Records := ar_records r; la_AnchoredAt := ar_anchored_at r;
     la_ViolationReason := default "" (ar_reason r); la_ViolationHead := default "" (ar_vhead r);
     la_ViolationRecords := ar_vrecords r; la_ViolationAt := ar_vat r |}.
(** The read-back and the commit that end both transactions. *)
Definition finish {A} (before after : AnchorDb) (tgt : string) (f : option TxFault) (k : LogAnchor → A) : AnchorDb * (AnchorError + A) :=
  if f =? Some tx_back then (before, inl (err_tx tx_back))
  else match anchorSelect after tgt, f with
  | None, _ => (before, inl (err_tx tx_back))
  | Some _, Some (tx_commit applied) => (if applied then after else before, inl (err_tx (tx_commit applied)))
  | Some r, _ => (after, inr (k (readAnchor r)))
  end.

Definition flagged (r : AnchorRow) (verdict head : string) (records now : Z) : AnchorRow :=
  {| ar_target := ar_target r; ar_head := ar_head r; ar_records := ar_records r; ar_anchored_at := ar_anchored_at r;
     ar_reason := Some verdict; ar_vhead := Some head; ar_vrecords := Some records; ar_vat := Some now |}.
Definition advanced (r : AnchorRow) (head : string) (records now : Z) : AnchorRow :=
  {| ar_target := ar_target r; ar_head := head; ar_records := records; ar_anchored_at := now;
     ar_reason := ar_reason r; ar_vhead := ar_vhead r; ar_vrecords := ar_vrecords r; ar_vat := ar_vat r |}.
Definition sighted (tgt head : string) (records now : Z) : AnchorRow :=
  {| ar_target := tgt; ar_head := head; ar_records := records; ar_anchored_at := now;
     ar_reason := None; ar_vhead := None; ar_vrecords := None; ar_vat := None |}.
Definition RecordLogHead (d : AnchorDb) (f : option TxFault) (now : Z) (tgt head : string) (records : Z) :
    AnchorDb * (AnchorError + LogAnchor * string) :=
  if TrimSpace tgt =? "" then (d, inl err_no_target)
  else if (records <? 0)%Z then (d, inl err_negative)
  else if f =? Some tx_begin then (d, inl (err_tx tx_begin))
  else if f =? Some tx_read then (d, inl (err_tx tx_read))
  else match anchors d !! tgt with
  | None =>
      if TrimSpace head =? "" then (d, inl err_no_head)
      else if negb (bool_decide (tgt ∈ targets d)) then (d, inl err_unknown_target)
      else if f =? Some tx_write then (d, inl (err_tx tx_write))
      else finish d (set_anchor d (sighted tgt head records now)) tgt f (λ a, (a, AnchorFirstSighting))
  | Some r =>
      let verdict := ClassifyLogHead (ar_head r) (ar_records r) head records in
      if AnchorViolation verdict then
        if f =? Some tx_write then (d, inl (err_tx tx_write))
        else finish d (set_anchor d (flagged r verdict head records now)) tgt f (λ a, (a, verdict))
      else if default "" (ar_reason r) =? "" then
        if f =? Some tx_write then (d, inl (err_tx tx_write))
        else finish d (set_anchor d (advanced r head records now)) tgt f (λ a, (a, verdict))
      else finish d d tgt f (λ a, (a, verdict))
  end.
Definition rebaselined (r : AnchorRow) (head : string) (records now : Z) : AnchorRow :=
  sighted (ar_target r) head records now.
Definition ResolveLogViolation (d : AnchorDb) (f : option TxFault) (now : Z) (tgt actor note citedHead : string) :
    AnchorDb * (AnchorError + LogAnchor) :=
  if TrimSpace actor =? "" then (d, inl ErrNoAnchorFinding)
  else if TrimSpace note =? "" then (d, inl ErrNoAnchorFinding)
  else if f =? Some tx_begin then (d, inl (err_tx tx_begin))
  else if f =? Some tx_read then (d, inl (err_tx tx_read))
  else match anchors d !! tgt with
  | None => (d, inl ErrNoAnchorFinding)
  | Some r =>
      let head := default "" (ar_vhead r) in
      if default "" (ar_reason r) =? "" then (d, inl ErrNoAnchorFinding)
      else if head <>? citedHead then (d, inl ErrAnchorMoved)
      else if f =? Some tx_write then (d, inl (err_tx tx_write))
      else if f =? Some tx_audit then (d, inl (err_tx tx_audit))
      else finish d (add_audit (set_anchor d (rebaselined r head (default 0%Z (ar_vrecords r)) now))
                       {| au_actor := actor; au_subject := ""; au_action := "target." +:+ tgt +:+ ".log_finding_resolved"; au_resource := note |})
             tgt f id
  end.
Definition GetLogAnchor (d : AnchorDb) (fails : bool) (tgt : string) : AnchorError + option LogAnchor :=
  if fails then inl (err_tx tx_read) else inr (readAnchor <$> anchorSelect d tgt).

(** One reading of a reconcile pass: the add-on's health over the network, and
    what it says of the log. *)
Definition anchorLog `{!Wire W} (J : Decoders) (l : Link W) (d : AnchorDb) (f : option TxFault) (now : Z) (tgt : string) :
    Link W * AnchorDb * string :=
  let '(l, h) := Health J l tgt in
  if negb (th_Outcome h =? OutcomeSucceeded) then (l, d, "")
  else match RecordLogHead d f now tgt (th_LogHead h) (th_LogRecords h) with
  | (d, inl _) => (l, d, "")
  | (d, inr (_, verdict)) => (l, d, verdict)
  end.

(** ** Facts *)
(** What it is for one report to follow another: more records under another
    head, or nothing new. *)
Definition extends (a b : string * Z) : Prop := ((a.2 < b.2)%Z ∧ a.1 ≠ b.1) ∨ a = b.
#[export] Instance extends_dec a b : Decision (extends a b).
Proof. apply _. Defined.
Definition anchored (r : AnchorRow) : string * Z := (ar_head r, ar_records r).
Definition finding (r : AnchorRow) : option (string * Z) :=
  match ar_reason r, ar_vhead r, ar_vrecords r with Some _, Some h, Some n => Some (h, n) | _, _, _ => None end.
Lemma Classify_violates a b : AnchorViolation (ClassifyLogHead a.1 a.2 b.1 b.2) = negb (bool_decide (extends a b)).
Proof.
  destruct a as [h n], b as [h' n']. destruct (decide (extends (h, n) (h', n'))) as [Hx|Hx];
    [rewrite (bool_decide_true (extends _ _)) by done|rewrite (bool_decide_false (extends _ _)) by done]; unfold ClassifyLogHead; simpl.
  - destruct Hx as [[Hn Hh]|[= -> ->]]; simpl in *.
    + destruct (Z.ltb_spec n' n); [lia|]. destruct (Z.eqb_spec n' n); [lia|]. simpl. by rewrite bool_decide_false by congruence.
    + rewrite Z.ltb_irrefl, Z.eqb_refl. by rewrite bool_decide_true by done.
  - destruct (Z.ltb_spec n' n); [done|]. destruct (Z.eqb_spec n' n) as [->|Hn]; simpl.
    + rewrite bool_decide_false; [done|]. intros ->. apply Hx. by right.
    + rewrite bool_decide_true; [done|]. apply dec_stable. intros Hh. apply Hx. left. simpl. split; [lia|congruence].
Qed.
Lemma Classify_reason a b : AnchorViolation (ClassifyLogHead a.1 a.2 b.1 b.2) = true →
  ClassifyLogHead a.1 a.2 b.1 b.2 ∈ [AnchorRecordsDecreased; AnchorHeadRewritten].
Proof. unfold AnchorViolation. intros [E|E]%orb_true_iff; apply bool_decide_eq_true in E as ->; set_solver. Qed.

(** *** The constraints of the table *)
Definition whole (k : string) (r : AnchorRow) : Prop :=
  ar_target r = k ∧ TrimSpace k ≠ "" ∧ (0 <= ar_records r)%Z ∧
  match ar_reason r, ar_vhead r, ar_vrecords r, ar_vat r with
  | None, None, None, None => True
  | Some why, Some _, Some n, Some _ => why ∈ [AnchorRecordsDecreased; AnchorHeadRewritten] ∧ (0 <= n)%Z
  | _, _, _, _ => False
  end.
Definition anchors_whole (d : AnchorDb) : Prop := map_Forall (λ k r, whole k r ∧ k ∈ targets d) (anchors d).
Inductive anchor_step (d : AnchorDb) : AnchorDb → Prop :=
  | step_records f now tgt head records d' res :
      RecordLogHead d f now tgt head records = (d', res) → anchor_step d d'
  | step_resolves f now tgt actor note cited d' res :
      ResolveLogViolation d f now tgt actor note cited = (d', res) → anchor_step d d'.
Lemma finish_outcome {A} before after tgt f (k : LogAnchor → A) d' res :
  finish before after tgt f k = (d', res) → d' = before ∨ d' = after.
Proof. unfold finish. intros E. repeat (case_match || simplify_eq/=); auto. Qed.
Lemma set_anchor_whole d k r : anchors_whole d → whole k r → k ∈ targets d → anchors_whole (set_anchor d r).
Proof.
  intros Hd Hr Hk. pose proof Hr as (Ek & _). unfold anchors_whole, set_anchor. simpl. rewrite Ek. apply map_Forall_insert_2; [done|].
  eapply map_Forall_impl; [exact Hd|]. done.
Qed.
Lemma whole_clean k r : whole k r → default "" (ar_reason r) = "" → ar_reason r = None.
Proof. intros (_ & _ & _ & Hv). repeat case_match; try done. simpl. intros ->. destruct Hv as [Hv _]. set_solver. Qed.
(** What one call leaves: the table as it was, or one row of it rewritten. *)
Inductive rewrites (d d' : AnchorDb) : Prop :=
  | rewrites_nothing : d' = d → rewrites d d'
  | rewrites_sighting tgt head records now :
      anchors d !! tgt = None → TrimSpace tgt ≠ "" → TrimSpace head ≠ "" → (0 <= records)%Z → tgt ∈ targets d →
      d' = set_anchor d (sighted tgt head records now) → rewrites d d'
  | rewrites_flag tgt r head records now :
      anchors d !! tgt = Some r → ¬ extends (anchored r) (head, records) → (0 <= records)%Z →
      d' = set_anchor d (flagged r (ClassifyLogHead (ar_head r) (ar_records r) head records) head records now) → rewrites d d'
  | rewrites_advance tgt r head records now :
      anchors d !! tgt = Some r → default "" (ar_reason r) = "" → extends (anchored r) (head, records) → (0 <= records)%Z →
      d' = set_anchor d (advanced r head records now) → rewrites d d'
  | rewrites_resolved tgt r actor note now :
      anchors d !! tgt = Some r → default "" (ar_reason r) ≠ "" → TrimSpace actor ≠ "" → TrimSpace note ≠ "" →
      d' = add_audit (set_anchor d (rebaselined r (default "" (ar_vhead r)) (default 0%Z (ar_vrecords r)) now))
             {| au_actor := actor; au_subject := ""; au_action := "target." +:+ tgt +:+ ".log_finding_resolved"; au_resource := note |} →
      rewrites d d'.
Lemma RecordLogHead_rewrites d f now tgt head records d' res :
  RecordLogHead d f now tgt head records = (d', res) → rewrites d d'.
Proof.
  unfold RecordLogHead. case_bool_decide as Ht; [intros [= <- <-]; by apply rewrites_nothing|]. destruct (Z.ltb_spec records 0); [intros [= <- <-]; by apply rewrites_nothing|].
  do 2 (case_bool_decide; [intros [= <- <-]; by apply rewrites_nothing|]). destruct (anchors d !! tgt) as [r|] eqn:Er.
  - pose proof (Classify_violates (anchored r) (head, records)) as Hv. simpl in Hv. rewrite Hv. destruct (bool_decide (extends _ _)) eqn:Ex; simpl.
    + apply bool_decide_eq_true in Ex. case_bool_decide as Hr.
      * case_bool_decide; [intros [= <- <-]; by apply rewrites_nothing|]. intros [->| ->]%finish_outcome; [by apply rewrites_nothing|]. by eapply rewrites_advance.
      * intros [->| ->]%finish_outcome; by apply rewrites_nothing.
    + apply bool_decide_eq_false in Ex. case_bool_decide; [intros [= <- <-]; by apply rewrites_nothing|]. intros [->| ->]%finish_outcome; [by apply rewrites_nothing|]. by eapply rewrites_flag.
  - case_bool_decide; [intros [= <- <-]; by apply rewrites_nothing|]. case_bool_decide; [|intros [= <- <-]; by apply rewrites_nothing]. simpl.
    case_bool_decide; [intros [= <- <-]; by apply rewrites_nothing|]. intros [->| ->]%finish_outcome; [by apply rewrites_nothing|]. by eapply rewrites_sighting.
Qed.
Lemma ResolveLogViolation_rewrites d f now tgt actor note cited d' res :
  ResolveLogViolation d f now tgt actor note cited = (d', res) → rewrites d d'.
Proof.
  unfold ResolveLogViolation. do 4 (case_bool_decide; [intros [= <- <-]; by apply rewrites_nothing|]).
  destruct (anchors d !! tgt) as [r|] eqn:Er; [|intros [= <- <-]; by apply rewrites_nothing]. case_bool_decide; [intros [= <- <-]; by apply rewrites_nothing|].
  case_bool_decide as Hc; simpl; [|intros [= <- <-]; by apply rewrites_nothing]. do 2 (case_bool_decide; [intros [= <- <-]; by apply rewrites_nothing|]).
  intros [->| ->]%finish_outcome; [by apply rewrites_nothing|]. by apply (rewrites_resolved _ _ tgt r actor note now).
Qed.
Lemma anchor_step_rewrites d d' : anchor_step d d' → rewrites d d'.
Proof. destruct 1 as [?????? ? E|??????? ? E]; [by eapply RecordLogHead_rewrites|by eapply ResolveLogViolation_rewrites]. Qed.
Lemma anchors_whole_step d d' : anchors_whole d → anchor_step d d' → anchors_whole d'.
Proof.
  intros Hd Hst. apply anchor_step_rewrites in Hst as [->|tgt h n now Hn Ht Hh Hz Hk ->|tgt r h n now Hr Hx Hz ->|tgt r h n now Hr Hc Hx Hz ->|tgt r a note now Hr Hc Ha Ho ->]; [done|..].
  - by eapply (set_anchor_whole _ tgt).
  - destruct (Hd _ _ Hr) as [(Ek & Ht & Hp & Hv) Hk]. eapply (set_anchor_whole _ tgt); [done| |done]. split_and!; try done. simpl. split; [|done].
    apply (Classify_reason (anchored r) (h, n)). rewrite Classify_violates, bool_decide_false by done. done.
  - destruct (Hd _ _ Hr) as [(Ek & Ht & Hp & Hv) Hk]. eapply (set_anchor_whole _ tgt); [done| |done]. by split_and!.
  - destruct (Hd _ _ Hr) as [(Ek & Ht & Hp & Hv) Hk].
    eapply (set_anchor_whole d tgt); [done| |done]. split_and!; try done. simpl. repeat case_match; simpl in *; try done. tauto.
Qed.

(** *** One row through a history of readings *)
Record Reading := { rd_target : string; rd_fault : option TxFault; rd_now : Z; rd_head : string; rd_records : Z }.
Definition record_all (d : AnchorDb) (xs : list Reading) : AnchorDb :=
  fold_left (λ d x, (RecordLogHead d (rd_fault x) (rd_now x) (rd_target x) (rd_head x) (rd_records x)).1) xs d.
(** The transaction took effect. *)
Definition kept (f : option TxFault) : bool :=
  match f with None | Some tx_audit | Some (tx_commit true) => true | _ => false end.
(** What reached the table about one target. *)
Definition reported (tgt : string) (x : Reading) : option (string * Z) :=
  if (rd_target x =? tgt) && kept (rd_fault x) && (0 <=? rd_records x)%Z then Some (rd_head x, rd_records x) else None.
Definition after_report (r : AnchorRow) (x : string * Z) (now : Z) : AnchorRow :=
  if decide (extends (anchored r) x)
  then if decide (default "" (ar_reason r) = "") then advanced r x.1 x.2 now else r
  else flagged r (ClassifyLogHead (ar_head r) (ar_records r) x.1 x.2) x.1 x.2 now.
Fixpoint chain_from (a : string * Z) (rs : list (string * Z)) : Prop :=
  match rs with [] => True | b :: rs => extends a b ∧ chain_from b rs end.
Lemma chain_from_snoc a rs b : chain_from a (rs ++ [b]) ↔ chain_from a rs ∧ extends (default a (last rs)) b.
Proof. revert a. induction rs as [|c rs IH]; intros a; simpl; [tauto|]. rewrite IH, last_cons. destruct (last rs); simpl; tauto. Qed.
(** The reports since the row held [start], split at the first that did not
    follow: the row is where the part before it ended, and its finding is the
    last report that does not follow that. *)
Definition remembers (start : string * Z) (reports : list (string * Z)) (r : AnchorRow) : Prop :=
  ∃ healthy rest, reports = healthy ++ rest ∧ chain_from start healthy ∧ anchored r = default start (last healthy) ∧
    match rest with [] => True | bad :: _ => ¬ extends (anchored r) bad end ∧
    finding r = last (filter (λ x, ¬ extends (anchored r) x) rest).

Lemma finish_row {A} d r' tgt f (k : LogAnchor → A) :
  ar_target r' = tgt → tgt ≠ "" →
  (finish d (set_anchor d r') tgt f k).1 = (if kept f then set_anchor d r' else d) ∨ f ∈ [Some tx_begin; Some tx_read; Some tx_write].
Proof.
  intros <- Ht. unfold finish, anchorSelect. rewrite (bool_decide_false (_ = "")) by done. simpl. rewrite lookup_insert_eq. simpl.
  destruct f as [[]|]; try (right; set_solver); left; try done. by destruct applied.
Qed.
Lemma finish_same {A} d tgt f (k : LogAnchor → A) : (finish d d tgt f k).1 = d.
Proof. unfold finish. by repeat case_match. Qed.
Lemma RecordLogHead_row d f now tgt h n r :
  anchors d !! tgt = Some r → whole tgt r →
  anchors (RecordLogHead d f now tgt h n).1 !! tgt = Some (if kept f && (0 <=? n)%Z then after_report r (h, n) now else r).
Proof.
  intros Er (Ek & Ht & _). assert (tgt ≠ "") as Hne by (intros ->; by vm_compute in Ht).
  unfold RecordLogHead, after_report. rewrite bool_decide_false by done.
  destruct (Z.ltb_spec n 0), (Z.leb_spec 0 n); try lia; [by rewrite andb_false_r|]. rewrite andb_true_r.
  case_bool_decide as F1; [by subst f|]. case_bool_decide as F2; [by subst f|]. rewrite Er.
  pose proof (Classify_violates (anchored r) (h, n)) as Hv. simpl in Hv. rewrite Hv. destruct (decide (extends (anchored r) (h, n))) as [Hx|Hx].
  - rewrite (bool_decide_true (extends _ _)) by done. simpl. destruct (decide (default "" (ar_reason r) = "")) as [Hc|Hc].
    + rewrite (bool_decide_true (default "" _ = "")) by done. destruct (decide (f = Some tx_write)) as [->|F3]; [done|]. rewrite (bool_decide_false (f = Some tx_write)) by done.
      destruct (finish_row d (advanced r h n now) tgt f (λ a, (a, ClassifyLogHead (ar_head r) (ar_records r) h n)) Ek Hne) as [->|?]; [|set_solver].
      destruct (kept f); [|done]. simpl. rewrite Ek. by rewrite lookup_insert_eq.
    + rewrite (bool_decide_false (default "" _ = "")) by done. rewrite finish_same. by destruct (kept f).
  - rewrite (bool_decide_false (extends _ _)) by done. simpl. destruct (decide (f = Some tx_write)) as [->|F3]; [done|]. rewrite (bool_decide_false (f = Some tx_write)) by done.
    destruct (finish_row d (flagged r (ClassifyLogHead (ar_head r) (ar_records r) h n) h n now) tgt f (λ a, (a, ClassifyLogHead (ar_head r) (ar_records r) h n)) Ek Hne) as [->|?]; [|set_solver].
    destruct (kept f); [|done]. simpl. rewrite Ek. by rewrite lookup_insert_eq.
Qed.
Lemma set_anchor_other d r k : ar_target r ≠ k → anchors (set_anchor d r) !! k = anchors d !! k.
Proof. intros. unfold set_anchor. simpl. by rewrite lookup_insert_ne. Qed.
Lemma RecordLogHead_other d f now tgt h n k :
  tgt ≠ k → anchors_whole d → anchors (RecordLogHead d f now tgt h n).1 !! k = anchors d !! k.
Proof.
  intros Hk Hd. destruct (RecordLogHead d f now tgt h n) as [d' res] eqn:E. simpl. revert E. unfold RecordLogHead.
  repeat (case_bool_decide; [by intros [= <- <-]|]). destruct (n <? 0)%Z; [by intros [= <- <-]|].
  repeat (case_bool_decide; [by intros [= <- <-]|]). destruct (anchors d !! tgt) as [r|] eqn:Er.
  - destruct (Hd _ _ Er) as [(Ek & _) _]. destruct (AnchorViolation _).
    + case_bool_decide; [by intros [= <- <-]|]. intros [->| ->]%finish_outcome; [done|]. apply set_anchor_other. simpl. congruence.
    + case_bool_decide; [|by intros [->| ->]%finish_outcome].
      case_bool_decide; [by intros [= <- <-]|]. intros [->| ->]%finish_outcome; [done|]. apply set_anchor_other. simpl. congruence.
  - repeat (case_bool_decide; [by intros [= <- <-]|]). destruct (negb _); [by intros [= <- <-]|].
    case_bool_decide; [by intros [= <- <-]|]. intros [->| ->]%finish_outcome; [done|]. by apply set_anchor_other.
Qed.
Lemma record_all_snoc d xs x :
  record_all d (xs ++ [x]) = (RecordLogHead (record_all d xs) (rd_fault x) (rd_now x) (rd_target x) (rd_head x) (rd_records x)).1.
Proof. unfold record_all. by rewrite fold_left_app. Qed.
Lemma record_all_whole d xs : anchors_whole d → anchors_whole (record_all d xs).
Proof.
  intros Hd. induction xs as [|x xs IH] using rev_ind; [done|]. rewrite record_all_snoc.
  destruct (RecordLogHead _ _ _ _ _ _) as [d' res] eqn:E. simpl. eapply anchors_whole_step; [exact IH|]. by eapply step_records.
Qed.
Lemma record_all_snoc_row d xs x tgt r :
  anchors_whole d → anchors (record_all d xs) !! tgt = Some r →
  anchors (record_all d (xs ++ [x])) !! tgt = Some (match reported tgt x with Some y => after_report r y (rd_now x) | None => r end).
Proof.
  intros Hd Er. rewrite record_all_snoc. unfold reported. destruct (decide (rd_target x = tgt)) as [->|Hne].
  - rewrite (bool_decide_true (_ = tgt)) by done. simpl. rewrite (RecordLogHead_row _ _ _ _ _ _ r Er).
    + by destruct (kept _ && _).
    + by apply (record_all_whole d xs Hd).
  - rewrite (bool_decide_false (_ = tgt)) by done. simpl. rewrite RecordLogHead_other by (done || by apply record_all_whole). done.
Qed.
Lemma whole_finding k r : whole k r → finding r = None ↔ default "" (ar_reason r) = "".
Proof.
  intros Hw. split.
  - destruct Hw as (_ & _ & _ & Hv). unfold finding. repeat case_match; simplify_eq/=; done.
  - intros E%(whole_clean k); [|done]. unfold finding. by rewrite E.
Qed.
Lemma last_filter_nil {A} (P : A → Prop) `{!∀ x, Decision (P x)} x xs : P x → last (filter P (x :: xs)) ≠ None.
Proof. intros Hx E%last_None. rewrite filter_cons_True in E by done. done. Qed.
Lemma remembers_report k start reports r x now :
  whole k r → remembers start reports r → remembers start (reports ++ [x]) (after_report r x now).
Proof.
  intros Hw (healthy & rest & -> & Hc & Ha & Hb & Hf). unfold after_report. rewrite <-app_assoc.
  destruct (decide (extends (anchored r) x)) as [Hx|Hx].
  - destruct rest as [|bad rest].
    + destruct (decide _) as [Hcl|Hcl]; [|destruct Hcl; by apply (whole_finding k)]. exists (healthy ++ [x]), [].
      rewrite app_nil_r, chain_from_snoc, last_snoc. split_and!; try done; [by rewrite <-Ha|by destruct x].
    + destruct (decide _) as [Hcl|Hcl].
      { apply (whole_finding k) in Hcl; [|done]. rewrite Hcl in Hf. by destruct (last_filter_nil (λ x, ¬ extends (anchored r) x) bad rest Hb). }
      exists healthy, ((bad :: rest) ++ [x]). split_and!; try done. rewrite filter_app, (filter_cons_False _ x []), filter_nil, app_nil_r; auto.
  - exists healthy, (rest ++ [x]). change (anchored (flagged _ _ _ _ _)) with (anchored r). split_and!; try done; [by destruct rest|].
    rewrite filter_app, filter_cons_True, filter_nil, last_snoc by done. by destruct x.
Qed.

(** *** The anchor of a log that is what it says it is *)
Section honest.
Context (sha256hex : string → string) `{!LogCodec, !Clock} (tgt : string).
(** The add-on works on its log; a pass reads its head and count. *)
Inductive watched_step (s : LogState) (d : AnchorDb) : LogState → AnchorDb → Prop :=
  | watched_works s' : log_step sha256hex s s' → watched_step s d s' d
  | watched_read l f now d' res :
      s_log s = Some l → RecordLogHead d f now tgt (Head l).1 (Z.of_N (Head l).2) = (d', res) → watched_step s d s d'.
Definition watched (x y : LogState * AnchorDb) : Prop := watched_step x.1 x.2 y.1 y.2.
(** The anchor is the end of a part of the log that is still its beginning. *)
Definition anchored_in (hist : list Record_) (a : AnchorRow) : Prop :=
  ar_reason a = None ∧ ar_target a = tgt ∧ ∃ seen r, (seen ++ [r]) `prefix_of` hist ∧ anchored a = (Digest r, Z.of_nat (S (length seen))).
Definition trusts (s : LogState) (d : AnchorDb) : Prop :=
  log_sound sha256hex s ∧ anchors_whole d ∧ ∀ a, anchors d !! tgt = Some a → anchored_in (s_hist s) a.
Lemma log_step_grows s s' : log_step sha256hex s s' → s_hist s `prefix_of` s_hist s'.
Proof. destruct 1; simpl; [done|by eexists|done|by eexists]. Qed.
Lemma chained_lookup hist i r : chained sha256hex "" 0 hist → hist !! i = Some r → Digest r = digestOf sha256hex r ∧ Seq r = N.of_nat (S i).
Proof.
  intros Hc Hi. destruct (list_elem_of_split_length _ _ _ Hi) as (a & b & -> & ->). apply chained_app in Hc as [Ha (Hs & _ & Hd & _)].
  split; [done|]. rewrite Hs, (chained_seq _ _ _ _ Ha). lia.
Qed.
(** A head once reported is followed by every later one, or SHA-256 collides. *)
Lemma later_extends hist seen r seen' r' :
  chained sha256hex "" 0 hist → (seen ++ [r]) `prefix_of` hist → hist = seen' ++ [r'] →
  collide sha256hex hist hist ∨ extends (Digest r, Z.of_nat (S (length seen))) (Digest r', Z.of_nat (S (length seen'))).
Proof.
  intros Hc Hp Eh. assert (hist !! length seen = Some r) as Hi.
  { destruct Hp as [k ->]. rewrite <-app_assoc. by apply list_lookup_middle. }
  assert (hist !! length seen' = Some r') as Hi' by (rewrite Eh; by apply list_lookup_middle).
  destruct (chained_lookup _ _ _ Hc Hi) as [Ed Es], (chained_lookup _ _ _ Hc Hi') as [Ed' Es'].
  assert (length seen ≤ length seen') as Hle. { apply prefix_length in Hp. rewrite Eh, !length_app in Hp. simpl in Hp. lia. }
  destruct (decide (length seen = length seen')) as [El|Hne].
  - right. right. rewrite El in Hi. congruence.
  - destruct (decide (Digest r = Digest r')) as [E|?]; [|right; left; simpl; split; [lia|done]].
    rewrite Ed, Ed' in E. destruct (digestOf_inj _ _ _ E) as [?|(E1 & _)]; [left|lia].
    exists r, r'. split_and!; [by eapply list_elem_of_lookup_2..|done].
Qed.
Lemma RecordLogHead_sighting d f now h n a :
  anchors d !! tgt = None → anchors (RecordLogHead d f now tgt h n).1 !! tgt = Some a → a = sighted tgt h n now ∧ h ≠ "".
Proof.
  intros En. destruct (RecordLogHead d f now tgt h n) as [d' res] eqn:E. simpl. revert E. unfold RecordLogHead. rewrite En.
  case_bool_decide; [intros [= <- <-]; congruence|]. destruct (n <? 0)%Z; [intros [= <- <-]; congruence|].
  do 2 (case_bool_decide; [intros [= <- <-]; congruence|]). case_bool_decide as Hh; [intros [= <- <-]; congruence|].
  destruct (negb _); [intros [= <- <-]; congruence|]. case_bool_decide; [intros [= <- <-]; congruence|].
  intros [->| ->]%finish_outcome; [congruence|]. simpl. rewrite lookup_insert_eq. intros [= <-]. split; [done|]. intros ->. by vm_compute in Hh.
Qed.
Lemma watched_trusts s d s' d' : trusts s d → watched_step s d s' d' → collide sha256hex (s_hist s') (s_hist s') ∨ trusts s' d'.
Proof.
  intros (Hs & Hw & Ha). destruct 1 as [s' Hst|l f now d' res Hl E].
  - right. split_and!; [by eapply log_step_sound|done|]. intros a (Hr & Ht & seen & r & Hp & He)%Ha. split_and!; [done|done|].
    exists seen, r. split; [|done]. etrans; [exact Hp|by apply log_step_grows].
  - assert (anchors_whole d') as Hw' by (eapply anchors_whole_step; [exact Hw|]; by eapply step_records).
    pose proof (log_sound_head _ _ _ Hs Hl) as Hh. assert (d' = (RecordLogHead d f now tgt (Head l).1 (Z.of_N (Head l).2)).1) as Ed by by rewrite E.
    assert (chained sha256hex "" 0 (s_hist s)) as Hc. { destruct Hs as (_ & ? & ? & ? & Hh' & _). apply Hh'. }
    clear E Hl. destruct (anchors d !! tgt) as [a|] eqn:Ea.
    + destruct (Ha a eq_refl) as (Hr & Ht & seen & r & Hp & He). destruct (Hw _ _ Ea) as [Hwa _].
      destruct (s_hist s) as [|r' hist' _] eqn:Eh using rev_ind; [apply prefix_nil_inv in Hp; by destruct seen|].
      rewrite last_snoc, length_app, Nat.add_1_r in Hh. rewrite Hh in Ed. cbn [fst snd] in Ed. rewrite nat_N_Z in Ed.
      destruct (later_extends _ seen r hist' r' Hc Hp eq_refl) as [?|Hx]; [by left|right]. rewrite <-He in Hx. split_and!; [done|done|].
      subst d'. rewrite (RecordLogHead_row _ _ _ _ _ _ a Ea Hwa). intros a' [= <-]. destruct (_ && _); [|rewrite Eh; by apply Ha].
      unfold after_report. rewrite decide_True by done. rewrite decide_True by by rewrite Hr. split_and!; [done|done|].
      exists hist', r'. by rewrite Eh.
    + right. split_and!; [done|done|]. intros a Ea'. rewrite Ed in Ea'. apply RecordLogHead_sighting in Ea' as [-> Hne]; [|done].
      destruct (s_hist s) as [|r' hist' _] eqn:Eh using rev_ind; [by rewrite Hh in Hne|].
      rewrite last_snoc, length_app, Nat.add_1_r in Hh. split_and!; [done|done|]. exists hist', r'. split; [done|].
      rewrite Hh. cbn [fst snd]. by rewrite nat_N_Z.
Qed.
Lemma watched_all_trusts x y : rtc watched x y → trusts x.1 x.2 → collide sha256hex (s_hist y.1) (s_hist y.1) ∨ trusts y.1 y.2.
Proof.
  induction 1 as [|x z y Hxz Hzy IH]; [by right|]. intros Hx. destruct (watched_trusts _ _ _ _ Hx Hxz) as [(u & v & Hu & Hv & Hc)|?]; [left|auto].
  assert (s_hist z.1 `prefix_of` s_hist y.1) as [k ->]; [|exists u, v; set_solver].
  clear -Hzy. induction Hzy as [|a b c Hab _ IH]; [done|]. etrans; [|exact IH]. destruct Hab; [by apply log_step_grows|done].
Qed.
End honest.

(** ** Properties *)

(** C20. The anchor is a memory that tampering cannot move. Whatever readings
    arrive, of this target and of others, with transactions that fail or whose
    commit is lost: the row stands at the last report before the first that does
    not follow the one before it (more records under another head, or nothing
    new), and from then on it does not move; what it shows as the finding is the
    last report that does not follow where it stands. *)
Theorem anchor_remembers d xs tgt r0 :
  anchors_whole d → anchors d !! tgt = Some r0 → ar_reason r0 = None →
  ∃ r, anchors (record_all d xs) !! tgt = Some r ∧ remembers (anchored r0) (omap (reported tgt) xs) r ∧
       Compromised (readAnchor r) = bool_decide (is_Some (finding r)).
Proof.
  intros Hd E0 Hr0. assert (∃ r, anchors (record_all d xs) !! tgt = Some r ∧ remembers (anchored r0) (omap (reported tgt) xs) r) as (r & Er & Hm).
  { induction xs as [|x xs (r & Er & Hm)] using rev_ind.
    - exists r0. split; [done|]. exists [], []. split_and!; try done. unfold finding. by rewrite Hr0.
    - eexists. split; [by apply record_all_snoc_row|]. rewrite omap_app. csimpl. destruct (reported tgt x) as [y|]; [|by rewrite app_nil_r].
      eapply remembers_report; [|done]. by apply (record_all_whole d xs Hd). }
  exists r. split_and!; [done..|]. assert (whole tgt r) as Hw by by apply (record_all_whole d xs Hd).
  unfold Compromised. simpl. destruct (finding r) as [y|] eqn:Ef.
  - rewrite (bool_decide_true (is_Some _)) by eauto. rewrite bool_decide_false; [done|]. intros E. apply (whole_finding tgt) in E; [congruence|done].
  - rewrite (bool_decide_false (is_Some _)) by by intros []. apply (whole_finding tgt) in Ef; [|done]. by rewrite Ef.
Qed.
(** Only an extension or a person's decision moves an anchor. Through any
    history of readings and resolutions, the rows satisfy the constraints of the
    table; and whenever one call changes where a row stands, either the row
    carried no finding and the new pair extends the old, or an operator named
    the finding's own head with an explanation, the row now stands at that
    finding, and the audit trail of the same transaction says so. *)
Theorem anchor_moves_by_extension_or_decision ts d d' tgt r r' :
  rtc anchor_step {| targets := ts; anchors := ∅; audits := [] |} d → anchor_step d d' →
  anchors d !! tgt = Some r → anchors d' !! tgt = Some r' → anchored r ≠ anchored r' →
  whole tgt r ∧ whole tgt r' ∧ ar_reason r' = None ∧
  ((ar_reason r = None ∧ (ar_records r < ar_records r')%Z ∧ audits d' = audits d) ∨
   (finding r = Some (anchored r') ∧ ∃ actor note, TrimSpace actor ≠ "" ∧ TrimSpace note ≠ "" ∧
      audits d' = audits d ++ [{| au_actor := actor; au_subject := ""; au_action := "target." +:+ tgt +:+ ".log_finding_resolved";
                                  au_resource := note |}])).
Proof.
  intros Hst Hs Er Er' Hne. assert (anchors_whole d) as Hd.
  { assert (anchors_whole {| targets := ts; anchors := ∅; audits := [] |}) as H0 by by apply map_Forall_empty.
    revert H0. clear -Hst. induction Hst; eauto using anchors_whole_step. }
  pose proof (anchors_whole_step _ _ Hd Hs) as Hd'. destruct (Hd _ _ Er) as [Hw _], (Hd' _ _ Er') as [Hw' _].
  split_and!; [done|done|..]; apply anchor_step_rewrites in Hs as [->|k h n now Hn Ht Hh Hz Hk ->|k q h n now Hr Hx Hz ->|k q h n now Hr Hc Hx Hz ->|k q a note now Hr Hc Ha Ho ->];
    try congruence; simpl in Er';
    (destruct (decide (k = tgt)) as [->|Hk']; [|try (destruct (Hd _ _ Hr) as [(Ek & _) _]; rewrite Ek in Er'); rewrite lookup_insert_ne in Er' by done; congruence]);
    try congruence; rewrite Er in Hr; injection Hr as <-; rewrite (proj1 Hw), lookup_insert_eq in Er'; injection Er' as <-; try done.
  - simpl. by eapply whole_clean.
  - left. split_and!; [by eapply whole_clean| |done]. destruct Hx as [[? ?]|?]; done.
  - right. split; [|by exists a, note]. unfold finding. destruct Hw as (_ & _ & _ & Hv). repeat case_match; simplify_eq/=; done.
Qed.
(** An honest log is never accused. From an empty log and a table without
    the target, however the add-on starts, writes, rotates and crashes and
    whenever its head is read in between, with transactions that fail: the anchor
    carries no finding and stands at the end of some part of the log that is
    still its beginning, unless two records of the log are a collision of SHA-256. *)
Theorem honest_log_never_accused sha256hex `{!LogCodec, !Clock} tgt s0 d0 s d a :
  s_dir s0 = ∅ → s_log s0 = None → s_hist s0 = [] → s_time s0 = 0%Z → anchors_whole d0 → anchors d0 !! tgt = None →
  rtc (watched sha256hex tgt) (s0, d0) (s, d) → anchors d !! tgt = Some a →
  collide sha256hex (s_hist s) (s_hist s) ∨ (Compromised (readAnchor a) = false ∧
    ∃ seen r, (seen ++ [r]) `prefix_of` s_hist s ∧ ar_head a = Digest r ∧ ar_records a = Z.of_nat (length (seen ++ [r]))).
Proof.
  intros Ed El Eh Et Hw Hn Hst Ha. destruct (watched_all_trusts sha256hex tgt _ _ Hst) as [?|(_ & _ & Ht)]; [|by left|right].
  { split_and!; [by apply log_empty_sound|done|]. simpl. congruence. }
  destruct (Ht a Ha) as (Hr & _ & seen & r & Hp & [= E1 E2]). split; [unfold Compromised; simpl; by rewrite Hr|].
  exists seen, r. split_and!; [done|done|]. rewrite length_app. simpl. lia.
Qed.
(** What is not flagged at the same count is what was anchored. Let a log
    that verifies be anchored, and a log that verifies be reported later with no
    more records. Unless it is flagged, its records are those that were anchored,
    as far back as both logs go, or two of them are a collision of SHA-256. *)
Theorem unflagged_log_is_the_anchored_one sha256hex `{!LogCodec} d d' r r' :
  VerifyLog sha256hex d = None → VerifyLog sha256hex d' = None → below_wrap (log_records d) → below_wrap (log_records d') →
  last (log_records d) = Some r → last (log_records d') = Some r' → (Seq r' <= Seq r)%N →
  AnchorViolation (ClassifyLogHead (Digest r) (Z.of_N (Seq r)) (Digest r') (Z.of_N (Seq r'))) = false →
  collide sha256hex (log_records d) (log_records d') ∨ log_records d `suffix_of` log_records d' ∨ log_records d' `suffix_of` log_records d.
Proof.
  intros Hv Hv' Hb Hb' Hr Hr' Hle Hc. pose proof (Classify_violates (Digest r, Z.of_N (Seq r)) (Digest r', Z.of_N (Seq r'))) as E.
  simpl in E. rewrite Hc in E. symmetry in E. apply negb_false_iff, bool_decide_eq_true in E.
  assert (Digest r = Digest r') as Ed. { destruct E as [[Hlt _]|[=]]; [simpl in Hlt; lia|done]. }
  by eapply linked_suffix; [apply VerifyLog_linked|apply VerifyLog_linked|..].
Qed.

(** ** Concrete histories *)
Definition no_anchors : AnchorDb := {| targets := {["nas"]}; anchors := ∅; audits := [] |}.
Definition reading (h : string) (n : Z) : Reading :=
  {| rd_target := "nas"; rd_fault := None; rd_now := n; rd_head := h; rd_records := n |}.
Definition one_anchor : AnchorDb := record_all no_anchors [reading "a" 1].
Lemma no_anchors_whole : anchors_whole no_anchors.
Proof. by apply map_Forall_empty. Qed.
(** Growth, a truncation, and growth past where it was. *)
Lemma anchor_remembers_witness :
  ∃ r, anchors (record_all one_anchor [reading "b" 3; reading "c" 2; reading "d" 9]) !! "nas" = Some r ∧
       anchored r = ("b", 3%Z) ∧ finding r = Some ("c", 2%Z) ∧ Compromised (readAnchor r) = true.
Proof.
  destruct (anchor_remembers one_anchor [reading "b" 3; reading "c" 2; reading "d" 9] "nas" (sighted "nas" "a" 1 1)
    (record_all_whole _ _ no_anchors_whole) eq_refl eq_refl) as (r & Er & _ & Hc).
  exists r. split; [exact Er|]. rewrite Hc. vm_compute in Er. injection Er as <-. split_and!; vm_compute; reflexivity.
Defined.
Definition frozen_anchor : AnchorDb := record_all no_anchors [reading "a" 3; reading "b" 2].
Definition resolved_anchor : AnchorDb := (ResolveLogViolation frozen_anchor None 9 "nas" "op" "the volume was replaced" "b").1.
Lemma anchor_moves_by_extension_or_decision_witness :
  finding (flagged (sighted "nas" "a" 3 3) AnchorRecordsDecreased "b" 2 2) = Some ("b", 2%Z) ∧ length (audits resolved_anchor) = 1.
Proof.
  assert (rtc anchor_step no_anchors frozen_anchor) as Hst.
  { apply rtc_l with (record_all no_anchors [reading "a" 3]).
    - eapply (step_records _ None 3 "nas" "a" 3). apply surjective_pairing.
    - apply rtc_once. eapply (step_records _ None 2 "nas" "b" 2). apply surjective_pairing. }
  assert (anchor_step frozen_anchor resolved_anchor) as Hs.
  { eapply (step_resolves _ None 9 "nas" "op" "the volume was replaced" "b"). apply surjective_pairing. }
  assert (anchors frozen_anchor !! "nas" = Some (flagged (sighted "nas" "a" 3 3) AnchorRecordsDecreased "b" 2 2)) as Er by (vm_compute; reflexivity).
  assert (anchors resolved_anchor !! "nas" = Some (sighted "nas" "b" 2 9)) as Er' by (vm_compute; reflexivity).
  destruct (anchor_moves_by_extension_or_decision {["nas"]} frozen_anchor resolved_anchor "nas" _ _ Hst Hs Er Er') as (_ & _ & _ & [(Hn & _)|(Hf & a & n & _ & _ & Ha)]).
  - intros E. discriminate E.
  - discriminate Hn.
  - split; [exact Hf|]. rewrite Ha. vm_compute. reflexivity.
Defined.
Definition head_of (s : LogState) : string * Z :=
  match s_log s with Some l => ((Head l).1, Z.of_N (Head l).2) | None => ("", 0%Z) end.
Definition read_head (s : LogState) (d : AnchorDb) (now : Z) : AnchorDb :=
  (RecordLogHead d None now "nas" (head_of s).1 (head_of s).2).1.
Definition demo_first : LogState := appended (reopened demo_unopened) 3 "ada".
Definition demo_watch : AnchorDb := read_head demo_log (read_head demo_first no_anchors 3) 5.
Lemma read_head_step s d now : is_Some (s_log s) → watched no_hash "nas" (s, d) (s, read_head s d now).
Proof.
  unfold read_head, head_of. intros [l El]. rewrite El. eapply (watched_read _ _ _ _ l None now); [done|]. apply surjective_pairing.
Qed.
Lemma demo_watched : rtc (watched no_hash "nas") (demo_unopened, no_anchors) (demo_log, demo_watch).
Proof.
  apply rtc_l with (reopened demo_unopened, no_anchors); [apply watched_works; by apply reopened_step|].
  apply rtc_l with (demo_first, no_anchors); [apply watched_works, appended_step; by vm_compute|].
  apply rtc_l with (demo_first, read_head demo_first no_anchors 3); [apply read_head_step; vm_compute; by eexists|].
  apply rtc_l with (demo_log, read_head demo_first no_anchors 3); [apply watched_works, appended_step; by vm_compute|].
  apply rtc_once, read_head_step. vm_compute. by eexists.
Qed.
Lemma honest_log_never_accused_witness :
  ∃ a, anchors demo_watch !! "nas" = Some a ∧ Compromised (readAnchor a) = false.
Proof.
  destruct (anchors demo_watch !! "nas") as [a|] eqn:Ea; [|vm_compute in Ea; discriminate Ea].
  exists a. split; [reflexivity|].
  destruct (honest_log_never_accused no_hash "nas" demo_unopened no_anchors demo_log demo_watch a eq_refl eq_refl eq_refl eq_refl
    no_anchors_whole eq_refl demo_watched Ea) as [(x & y & _ & _ & Hne & E)|[Hc _]]; [destruct (Hne E)|exact Hc].
Defined.
Lemma unflagged_log_is_the_anchored_one_witness :
  log_records (s_dir demo_log) `suffix_of` log_records (s_dir demo_log) ∨ log_records (s_dir demo_log) `suffix_of` log_records (s_dir demo_log).
Proof.
  assert (VerifyLog no_hash (s_dir demo_log) = None) as Hv by (vm_compute; reflexivity).
  assert (below_wrap (log_records (s_dir demo_log))) as Hb.
  { assert (forallb (λ r, (Seq r + 1 <? 2^64)%N) (log_records (s_dir demo_log)) = true) as Hf by (vm_compute; reflexivity).
    intros r Hr. rewrite forallb_forall in Hf. apply N.ltb_lt, Hf. by apply list_elem_of_In. }
  destruct (last (log_records (s_dir demo_log))) as [r|] eqn:Er; [|vm_compute in Er; discriminate Er].
  destruct (unflagged_log_is_the_anchored_one no_hash _ _ r r Hv Hv Hb Hb Er Er (N.le_refl _)) as [(x & y & _ & _ & Hne & E)|Hs];
    [|destruct (Hne E)|exact Hs].
  unfold ClassifyLogHead. rewrite Z.ltb_irrefl, Z.eqb_refl. rewrite bool_decide_true by reflexivity. reflexivity.
Defined.
(** A log made anew that has grown past the anchored count reads as an
    extension: it verifies, the anchored record is not in it, and the
    anchor moves to the new one. *)
Definition other_log : LogState :=
  appended (appended (appended (reopened demo_unopened) 3 "eve") 5 "mallory") 6 "oscar".
Example regrown_log_is_adopted :
  let '(_, res) := RecordLogHead (read_head demo_log no_anchors 5) None 7 "nas" (head_of other_log).1 (head_of other_log).2 in
  VerifyLog no_hash (s_dir other_log) = None ∧
  forallb (λ r, Digest r <>? (head_of demo_log).1) (log_records (s_dir other_log)) = true ∧
  match res with inr (a, verdict) => verdict = AnchorExtended ∧ la_Head a = (head_of other_log).1 | inl _ => False end.
Proof. by vm_compute. Qed.
