(* ===== verification/Nas.v ===== *)
(** * Nas: the add-on's store, its lifecycle and what it reads of the target

    addons/truenas: store.go, lifecycle.go, identity.go, subjects.go, home.go
    and what they use of nas.go, settings.go and storage_status.go. The TrueNAS
    middleware is a class of typed calls, each of which may fail and may change
    the world; the disk may fail any access of the store. The read of the shares
    (reach.go) is one of the calls. A stored value is the structure it encodes,
    and a desired value is what the backend sends for a field. *)

From S2P Require Import Prelude Text Username Tables.

(** ** Texts and numbers *)
(** path.Clean, path.Join and path.Dir. *)
Definition segments (p : string) : list string := string_of_list_ascii <$> split_on "/" (list_ascii_of_string p).
Definition clean_segment (rooted : bool) (out : list string) (w : string) : list string :=   (* newest first *)
  if (w =? "") || (w =? ".") then out
  else if w =? ".." then
    match out with
    | x :: out' => if x =? ".." then ".." :: out else out'
    | [] => if rooted then [] else [".."]
    end
  else w :: out.
Definition Clean (p : string) : string :=
  let rooted := HasPrefix p "/" in
  let out := rev (foldl (clean_segment rooted) [] (segments p)) in
  if rooted then "/" +:+ Join out "/" else if bool_decide (out = []) then "." else Join out "/".
Definition PathJoin (a b : string) : string :=
  let parts := filter (λ x, x ≠ "") [a; b] in
  if bool_decide (parts = []) then "" else Clean (Join parts "/").
Definition Dir_ (p : string) : string :=
  match rev (segments p) with
  | _ :: ((_ :: _) as ws) => Clean (Join (rev ws) "/" +:+ "/")
  | _ => "."
  end.
(** A float64 holds an int64 to 53 bits, ties to even; %.1f of it over 2^30. *)
Definition round_even (n d : Z) : Z :=
  let q := (n / d)%Z in let r := (2 * (n mod d))%Z in
  if (r <? d)%Z then q else if (d <? r)%Z then (q + 1)%Z else if Z.even q then q else (q + 1)%Z.
Definition float64 (n : Z) : Z :=
  let e := (Z.log2 (Z.abs n) - 52)%Z in if (e <=? 0)%Z then n else (round_even n (2 ^ e) * 2 ^ e)%Z.
Definition humanBytes (n : Z) : string :=
  let gib := (2 ^ 30)%Z in
  if (n mod gib =? 0)%Z then pretty (n / gib)%Z +:+ " GiB"
  else let t := round_even (float64 n * 10) gib in pretty (t / 10)%Z +:+ "." +:+ pretty (t mod 10)%Z +:+ " GiB".

Example paths_and_numbers :
  Dir_ <$> ["/mnt/tank/homes/ana"; "/mnt"; "/"; "a"; "a/b/"; ""; "../x"] = ["/mnt/tank/homes"; "/"; "/"; "."; "a/b"; "."; ".."] ∧
  Clean <$> ["/mnt//tank/./a/../b/"; "a/../.."; "/.."; ""; "./x"] = ["/mnt/tank/b"; ".."; "/"; "."; "x"] ∧
  PathJoin "/mnt/tank/homes" "ana" = "/mnt/tank/homes/ana" ∧
  ParseInt <$> ["12"; "-7"; "+3"; ""; "-"; "1x"; "9223372036854775808"] = [Some 12; Some (-7); Some 3; None; None; None; None]%Z ∧
  humanBytes <$> [2^30; 3 * 2^29; 0]%Z = ["1 GiB"; "1.5 GiB"; "0 GiB"].
Proof. by vm_compute. Qed.

(** ** What the target holds *)
(** A record key, as the token it arrived as. *)
Definition apiID : Type := string.
Definition Trim (cut : string) (s : string) : string :=
  string_of_list_ascii (TrimRight cut (drop_while (is_one_of cut) (list_ascii_of_string s))).
Definition quote_mark : string := String (ascii_of_N 34) "".
Definition id_String (i : apiID) : string := Trim quote_mark i.
Definition known (i : apiID) : bool := (id_String i <>? "") && (id_String i <>? "null").

Record nasUser := {
  u_ID : apiID; u_Username : string; u_UID : Z; u_Locked : bool; u_SMB : bool; u_PasswordDisabled : bool;
  u_Builtin : bool; u_Groups : list apiID; u_Home : string;
}.
Record nasGroup := { gr_ID : apiID; gr_GID : Z; gr_Name : string; gr_Builtin : bool; gr_Users : list apiID }.
Record aclPlace := { pl_share : string; pl_folder : string; pl_path : string }.
Record shareRead := { places : list aclPlace; mounts : gmap string string }.

Inductive ErrKind := ErrTargetUnreachable | ErrTargetRefused | ErrRateLimited | ErrNoSuchPath | ErrStore | ErrOther.
#[export] Instance ErrKind_eq_dec : EqDecision ErrKind.
Proof. solve_decision. Defined.
Record Err := { e_kind : ErrKind; e_text : string }.
Definition wrapped (prefix : string) (e : Err) : Err := {| e_kind := e_kind e; e_text := prefix +:+ e_text e |}.

Inductive Filter := every_user | by_username (name : string) | by_uid (uid : Z).
(** user.update and user.create: the fields they carry. *)
Record Update := {
  up_groups : option (list apiID); up_locked : option bool; up_smb : option bool; up_home : option string;
}.
Record Create := {
  cr_username : string; cr_locked : bool; cr_groups : option (list apiID); cr_uid : Z; cr_group : apiID; cr_home : option string;
}.
Inductive StoreOp :=
  | op_recall | op_remember | op_get_binding | op_put_binding | op_bind | op_bound_names | op_claim | op_get_snapshot | op_get_setting | op_put_setting
  | op_delete_binding.

Class Nas (W : Type) := {
  user_query : W → Filter → W * (Err + list nasUser);
  group_query : W → option string → W * (Err + list nasGroup);
  highest_uid : W → Z → Z → W * (Err + option Z);
  highest_gid : W → Z → Z → W * (Err + option Z);
  user_update : W → apiID → Update → W * option Err;
  user_create : W → Create → W * (Err + apiID);
  group_create : W → string → Z → W * (Err + apiID);
  group_delete : W → apiID → W * option Err;
  filesystem_stat : W → string → W * (Err + Z);
  get_quota : W → string → Z → W * (Err + list (Z * Z));
  set_quota : W → string → Z → Z → W * option Err;
  readACLs : W → W * (Err + shareRead);
  selfName : W → string;
  version : W → string;
  clock : W → Z;
  store_fails : W → StoreOp → bool;
}.

(** ** The store *)
Record Subject := {
  s_ID : apiID; s_Username : string; s_UID : Z; s_Groups : list string; s_Home : string; s_Enabled : bool; s_SMBEnabled : bool;
  s_PasswordSet : bool; s_Self : bool; s_builtinGroups : list apiID;
}.
Record Snapshot := { sn_TakenAt : Z; sn_Subjects : list Subject; sn_Truncated : bool }.
Record Binding := {
  b_SubjectID : string; b_Username : string; b_UID : Z; b_BoundAt : option Z; b_BoundBy : string; b_WantsSMB : option bool;
}.
Record BindingConflict := { bc_Username : string; bc_UID : Z; bc_Adoptable : bool; bc_BoundTo : string }.
Inductive Observed := ob_list (l : list string) | ob_flag (b : bool).
Record ApplyOutcome := {
  ao_Subject : string; ao_Effect : string; ao_Detail : string; ao_Consequence : string; ao_Username : string; ao_UID : Z;
  ao_Fingerprint : string; ao_Observed : gmap string Observed; ao_Unverified : bool; ao_Conflict : option BindingConflict;
}.
(** A stored result: an apply's, or an operation's as bytes. *)
Inductive Cached := cached_apply (o : ApplyOutcome) | cached_operation (raw : string).
Record idempotencyEntry := { ie_StoredAt : Z; ie_Kind : string; ie_Result : Cached }.
Record Setting := { se_Value : string; se_SetBy : string; se_SetAt : Z }.
Record Store := {
  idempotency : gmap string idempotencyEntry;
  bindings : gmap string Binding;
  snapshot : option Snapshot;
  high_water : option Z;
  settings : gmap string Setting;
}.
Definition idempotencyTTL : Z := 30 * 24 * 3600 * 10^9.
Definition kindApply : string := "apply".

Definition Remember (st : Store) (now : Z) (callID kind : string) (result : Cached) : Store :=
  {| idempotency := <[callID := {| ie_StoredAt := now; ie_Kind := kind; ie_Result := result |}]> (idempotency st);
     bindings := bindings st; snapshot := snapshot st; high_water := high_water st; settings := settings st |}.
Inductive Recalled := recall_absent | recall_found (r : Cached) | recall_mismatch.
Definition expired (now : Z) (e : idempotencyEntry) : bool := (idempotencyTTL <? now - ie_StoredAt e)%Z.
Definition Recall (st : Store) (now : Z) (callID kind : string) : Recalled :=
  match idempotency st !! callID with
  | None => recall_absent
  | Some e =>
      if expired now e then recall_absent
      else if (ie_Kind e <>? "") && (ie_Kind e <>? kind) then recall_mismatch
      else recall_found (ie_Result e)
  end.
Definition SweepIdempotency (st : Store) (now : Z) : Store * nat :=
  let kept := filter (λ '(_, e), expired now e = false) (idempotency st) in
  ({| idempotency := kept; bindings := bindings st; snapshot := snapshot st; high_water := high_water st; settings := settings st |},
   size (idempotency st) - size kept).
Definition set_bindings (st : Store) (b : gmap string Binding) : Store :=
  {| idempotency := idempotency st; bindings := b; snapshot := snapshot st; high_water := high_water st; settings := settings st |}.
Definition stamped (b : Binding) (now : Z) : Binding :=
  {| b_SubjectID := b_SubjectID b; b_Username := b_Username b; b_UID := b_UID b;
     b_BoundAt := Some (default now (b_BoundAt b)); b_BoundBy := b_BoundBy b; b_WantsSMB := b_WantsSMB b |}.
Definition PutBinding (st : Store) (now : Z) (b : Binding) : Store :=
  set_bindings st (<[b_SubjectID b := stamped b now]> (bindings st)).
(** bbolt walks its keys in byte order. *)
Definition in_key_order (st : Store) : list (string * Binding) :=
  stable_sort (cmp_on fst String.compare) (map_to_list (bindings st)).
(** Who else holds the name. *)
Definition held_by (st : Store) (b : Binding) : option string :=
  head (omap (λ '(k, other), if (b_Username other =? b_Username b) && (k <>? b_SubjectID b) then Some k else None) (in_key_order st)).
Definition BindIfFree (st : Store) (now : Z) (b : Binding) : string + Store :=
  match held_by st b with Some owner => inl owner | None => inr (PutBinding st now b) end.
Definition DeleteBinding (st : Store) (subject : string) : Store := set_bindings st (delete subject (bindings st)).
(** Of two bindings with one name the later subject stands. *)
Definition BoundUsernames (st : Store) : gmap string string :=
  foldl (λ m '(_, b), <[b_Username b := b_SubjectID b]> m) ∅ (in_key_order st).
Definition PutSnapshot (st : Store) (snap : Snapshot) : Store :=
  {| idempotency := idempotency st; bindings := bindings st; snapshot := Some snap; high_water := high_water st; settings := settings st |}.
(** int64 arithmetic wraps. *)
Definition int64 (n : Z) : Z := ((n + 2^63) mod 2^64 - 2^63)%Z.
Definition ClaimID (st : Store) (floor ceiling observedMax : Z) : Store * option Z :=
  let last := int64 (floor - 1) in
  let last := match high_water st with Some n => if (last <? n)%Z then n else last | None => last end in
  let last := if (last <? observedMax)%Z then observedMax else last in
  let claimed := int64 (last + 1) in
  if (ceiling <? claimed)%Z then (st, None)
  else ({| idempotency := idempotency st; bindings := bindings st; snapshot := snapshot st; high_water := Some claimed;
           settings := settings st |}, Some claimed).
Definition PutSetting (st : Store) (name : string) (v : Setting) : Store :=
  {| idempotency := idempotency st; bindings := bindings st; snapshot := snapshot st; high_water := high_water st;
     settings := <[name := v]> (settings st) |}.

(** ** Lifecycle *)
Definition LifecycleActive : string := "active".
Definition LifecycleDraining : string := "draining".
Definition LifecycleReadOnly : string := "read_only".
Record lifecycle := { lc_state : string; lc_reason : string; inFlight : Z }.
Definition lifecycle_states : list string := [LifecycleActive; LifecycleDraining; LifecycleReadOnly].
Definition Set_ (l : lifecycle) (state reason : string) : option lifecycle :=
  if bool_decide (state ∈ lifecycle_states) then Some {| lc_state := state; lc_reason := reason; inFlight := inFlight l |} else None.
Definition newLifecycle (state : string) : lifecycle :=
  default {| lc_state := LifecycleReadOnly; lc_reason := "configured lifecycle state was not recognised"; inFlight := 0 |}
    (Set_ {| lc_state := ""; lc_reason := ""; inFlight := 0 |} state "startup").
Definition Begin (l : lifecycle) : option lifecycle :=
  if lc_state l <>? LifecycleActive then None
  else Some {| lc_state := lc_state l; lc_reason := lc_reason l; inFlight := inFlight l + 1 |}.
Definition done_ (l : lifecycle) : lifecycle := {| lc_state := lc_state l; lc_reason := lc_reason l; inFlight := inFlight l - 1 |}.
Definition Drained (l : lifecycle) : bool := (lc_state l <>? LifecycleActive) && (inFlight l =? 0)%Z.

(** ** The server *)
(** A call of the mutation log. *)
Record LogCall := { lg_operation : string; lg_subject : string; lg_actor : string; lg_call : string; lg_outcome : string }.
Record Server (W : Type) := { nas : W; store : Store; journal : list LogCall; life : lifecycle }.
Arguments nas {_} _. Arguments store {_} _. Arguments journal {_} _. Arguments life {_} _.
Definition with_nas {W} (s : Server W) (w : W) : Server W := {| nas := w; store := store s; journal := journal s; life := life s |}.
Definition with_store {W} (s : Server W) (st : Store) : Server W := {| nas := nas s; store := st; journal := journal s; life := life s |}.
Definition with_journal {W} (s : Server W) (j : list LogCall) : Server W := {| nas := nas s; store := store s; journal := j; life := life s |}.
Definition with_life {W} (s : Server W) (l : lifecycle) : Server W := {| nas := nas s; store := store s; journal := journal s; life := l |}.

(** Work that threads the server and may fail. *)
Definition M (W A : Type) : Type := Server W → Server W * (Err + A).
#[export] Instance M_ret W : MRet (M W) := λ A a s, (s, inr a).
#[export] Instance M_bind W : MBind (M W) := λ A B k m s,
  match m s with (s, inl e) => (s, inl e) | (s, inr a) => k a s end.
Definition fails {W A} (e : Err) : M W A := λ s, (s, inl e).
Definition attempt {W A} (m : M W A) : M W (Err + A) := λ s, let '(s, r) := m s in (s, inr r).
Definition wrap {W A} (prefix : string) (m : M W A) : M W A := λ s,
  match m s with (s, inl e) => (s, inl (wrapped prefix e)) | r => r end.
Definition from_sum {W A} (r : Err + A) : M W A := λ s, (s, r).
Definition server {W} : M W (Server W) := λ s, (s, inr s).
Definition on_nas {W A} (f : W → W * (Err + A)) : M W A := λ s, let '(w, r) := f (nas s) in (with_nas s w, r).
Definition on_nas_unit {W} (f : W → W * option Err) : M W unit := λ s,
  let '(w, r) := f (nas s) in (with_nas s w, match r with Some e => inl e | None => inr () end).
Definition store_error : Err := {| e_kind := ErrStore; e_text := "the local store could not be read" |}.
(** A read and a write of the store. *)
Definition reading_store {W} `{!Nas W} {A} (op : StoreOp) (f : Store → A) : M W A := λ s,
  if store_fails (nas s) op then (s, inl store_error) else (s, inr (f (store s))).
Definition writing_store {W} `{!Nas W} (op : StoreOp) (f : Store → Store) : M W unit := λ s,
  if store_fails (nas s) op then (s, inl store_error) else (with_store s (f (store s)), inr ()).

Definition defaultIDFloor : Z := 200000.
Definition defaultIDCeiling : Z := 999999.
Definition subjectReadCap : nat := 5000.
Definition systemUIDCeiling : Z := 1000.
Definition noHome : string := "/var/empty".
Definition homeOf (raw : string) : string :=
  if (raw =? "") || (raw =? noHome) || (raw =? "/nonexistent") then "" else raw.
(** strings.EqualFold on account names, which are ASCII. *)
Definition EqualFold (a b : string) : bool := ToLower a =? ToLower b.
Definition withoutSystemAccounts (users : list nasUser) : list nasUser :=
  filter (λ u, negb (u_Builtin u || (u_UID u <? systemUIDCeiling)%Z) = true) users.
Record Groups := { byID : gmap string string; byName : gmap string apiID; builtin : gset string }.
Definition index_group (g : Groups) (x : nasGroup) : Groups :=
  {| byID := <[id_String (gr_ID x) := gr_Name x]> (byID g); byName := <[gr_Name x := gr_ID x]> (byName g);
     builtin := if gr_Builtin x then {[gr_Name x]} ∪ builtin g else builtin g |}.
Definition index_groups (gs : list nasGroup) : Groups := foldl index_group {| byID := ∅; byName := ∅; builtin := ∅ |} gs.
Definition subject_of (self : string) (g : Groups) (u : nasUser) : Subject :=
  {| s_ID := u_ID u; s_Username := u_Username u; s_UID := u_UID u;
     s_Groups := omap (λ i, n ← byID g !! id_String i; if bool_decide (n ∈ builtin g) then None else Some n) (u_Groups u);
     s_Home := homeOf (u_Home u); s_Enabled := negb (u_Locked u); s_SMBEnabled := u_SMB u;
     s_PasswordSet := negb (u_PasswordDisabled u); s_Self := (self <>? "") && EqualFold (u_Username u) self;
     s_builtinGroups := filter (λ i, bool_decide (is_Some (n ← byID g !! id_String i; if bool_decide (n ∈ builtin g) then Some n else None)) = true)
                          (u_Groups u) |}.
Definition errGroupsTruncated : Err :=
  {| e_kind := ErrOther; e_text := "the target has more groups than one read returns, so this list would be partial" |}.
Definition quoted_text (s : string) : string := quote_mark +:+ s +:+ quote_mark.

Section reads.
Context {W : Type} `{!Nas W} (idFloor idCeiling : Z).

Definition idRange : Z * Z :=
  (if (idFloor <=? 0)%Z then defaultIDFloor else idFloor, if (idCeiling <=? 0)%Z then defaultIDCeiling else idCeiling).
Definition claiming (floor ceiling observed : Z) : M W Z := λ s,
  if store_fails (nas s) op_claim then (s, inl store_error)
  else match ClaimID (store s) floor ceiling observed with
  | (_, None) => (s, inl {| e_kind := ErrOther; e_text := "the identity range " +:+ pretty floor +:+ "–" +:+ pretty ceiling +:+ " is used up; raise TRUENAS_ID_CEILING" |})
  | (st, Some n) => (with_store s st, inr n)
  end.
Definition nextIdentity : M W Z :=
  let '(floor, ceiling) := idRange in
  users ← wrap "read the highest uid in range: " (on_nas (λ w, highest_uid w floor ceiling));
  groups ← wrap "read the highest gid in range: " (on_nas (λ w, highest_gid w floor ceiling));
  let observed := default 0%Z users in
  let observed := match groups with Some g => if (observed <? g)%Z then g else observed | None => observed end in
  claiming floor ceiling observed.
(** Best effort. *)
Definition undoGroup (i : apiID) : M W unit :=
  if negb (known i) then mret () else _ ← attempt (on_nas_unit (λ w, group_delete w i)); mret ().

(** *** Accounts and groups *)
Definition readGroups : M W (list nasGroup) :=
  gs ← wrap "read groups: " (on_nas (λ w, group_query w None));
  if subjectReadCap <? length gs then fails errGroupsTruncated else mret gs.
Definition groupIndex : M W Groups := gs ← readGroups; mret (index_groups gs).
Definition readSubjectsWhere (f : Filter) : M W Snapshot :=
  users ← on_nas (λ w, user_query w f);
  let truncated := subjectReadCap <? length users in
  let users := withoutSystemAccounts (if truncated then take subjectReadCap users else users) in
  g ← groupIndex;
  s ← server;
  mret {| sn_TakenAt := clock (nas s); sn_Subjects := subject_of (selfName (nas s)) g <$> users; sn_Truncated := truncated |}.
Definition readSubjects : M W Snapshot := readSubjectsWhere every_user.
Definition matches (f : Filter) (x : Subject) : bool :=
  match f with by_username n => s_Username x =? n | by_uid n => (s_UID x =? n)%Z | every_user => false end.
Definition subjectWhere (f : Filter) : M W (option Subject * bool) :=
  snap ← readSubjectsWhere f;
  mret (head (filter (λ x, matches f x = true) (sn_Subjects snap)), sn_Truncated snap).
Fixpoint ids_for (g : Groups) (names : list string) : Err + list apiID :=
  match names with
  | [] => inr []
  | n :: names =>
      if bool_decide (n ∈ builtin g)
      then inl {| e_kind := ErrOther; e_text := quoted_text n +:+ " is a built-in group, which Syndra does not manage" |}
      else match byName g !! n with
      | None => inl {| e_kind := ErrOther; e_text := "this target has no group named " +:+ quoted_text n |}
      | Some i => match ids_for g names with inl e => inl e | inr ids => inr (i :: ids) end
      end
  end.
Definition groupIDsFor (names : list string) : M W (list apiID) :=
  if bool_decide (names = []) then mret []
  else g ← groupIndex; from_sum (ids_for g names).
Definition readBack (username : string) : M W Subject :=
  found ← subjectWhere (by_username username);
  match found.1 with
  | Some x => mret x
  | None => fails {| e_kind := ErrTargetRefused; e_text := "the target refused the call: " +:+ username +:+ " is not on the target after being created" |}
  end.
(** An empty group of this name, in this add-on's range. *)
Definition emptyGroupNamed (name : string) : M W (option (apiID * Z)) :=
  r ← attempt (on_nas (λ w, group_query w (Some name)));
  let '(floor, ceiling) := idRange in
  mret match r with
  | inr [g] =>
      if negb (gr_Builtin g) && bool_decide (gr_Users g = []) && known (gr_ID g) && (floor <=? gr_GID g)%Z && (gr_GID g <=? ceiling)%Z
      then Some (gr_ID g, gr_GID g) else None
  | _ => None
  end.
End reads.

(** ** Desired state *)
Definition FieldGroup : string := "group".
Definition FieldEnabled : string := "enabled".
Definition FieldSMBEnabled : string := "smb_enabled".
Definition FieldHome : string := "home".
Definition FieldHomeQuota : string := "home_quota".
Record desiredState := {
  d_groups : list string; d_enabled : bool; d_smbEnabled : bool; d_wantsHome : bool; d_homeRoot : string; d_homeQuota : Z;
  d_homeUnlimited : bool; d_managed : gset string;
}.
Definition managed (d : desiredState) (field : string) : bool := bool_decide (field ∈ d_managed d).
Definition undecided : desiredState :=
  {| d_groups := []; d_enabled := false; d_smbEnabled := false; d_wantsHome := false; d_homeRoot := ""; d_homeQuota := 0;
     d_homeUnlimited := false; d_managed := ∅ |}.
(** The limits, as numbers. *)
Fixpoint limits (l : list string) : option (list Z) :=
  match l with
  | [] => Some []
  | x :: l => n ← ParseInt (TrimSpace x); if (n <? 0)%Z then None else ns ← limits l; Some (n :: ns)
  end.
Definition decode_field (d : desiredState) (field : string) (value : FieldValue) : option desiredState :=
  let m := {[field]} ∪ d_managed d in
  if field =? FieldGroup then
    match value with
    | Values gs => Some {| d_groups := sort_strings gs; d_enabled := d_enabled d; d_smbEnabled := d_smbEnabled d; d_wantsHome := d_wantsHome d;
                           d_homeRoot := d_homeRoot d; d_homeQuota := d_homeQuota d; d_homeUnlimited := d_homeUnlimited d; d_managed := m |}
    | Flag _ => None
    end
  else if field =? FieldEnabled then
    match value with
    | Flag b => Some {| d_groups := d_groups d; d_enabled := b; d_smbEnabled := d_smbEnabled d; d_wantsHome := d_wantsHome d;
                        d_homeRoot := d_homeRoot d; d_homeQuota := d_homeQuota d; d_homeUnlimited := d_homeUnlimited d; d_managed := m |}
    | Values _ => None
    end
  else if field =? FieldSMBEnabled then
    match value with
    | Flag b => Some {| d_groups := d_groups d; d_enabled := d_enabled d; d_smbEnabled := b; d_wantsHome := d_wantsHome d;
                        d_homeRoot := d_homeRoot d; d_homeQuota := d_homeQuota d; d_homeUnlimited := d_homeUnlimited d; d_managed := m |}
    | Values _ => None
    end
  else if field =? FieldHome then
    match value with
    | Values gives =>
        if forallb (λ g, g =? "true") gives
        then Some {| d_groups := d_groups d; d_enabled := d_enabled d; d_smbEnabled := d_smbEnabled d; d_wantsHome := 0 <? length gives;
                     d_homeRoot := d_homeRoot d; d_homeQuota := d_homeQuota d; d_homeUnlimited := d_homeUnlimited d; d_managed := m |}
        else None
    | Flag _ => None
    end
  else if field =? FieldHomeQuota then
    match value with
    | Values ls =>
        ns ← limits ls;
        Some {| d_groups := d_groups d; d_enabled := d_enabled d; d_smbEnabled := d_smbEnabled d; d_wantsHome := d_wantsHome d;
                d_homeRoot := d_homeRoot d; d_homeQuota := foldl Z.max (d_homeQuota d) ns;
                d_homeUnlimited := d_homeUnlimited d || existsb (λ n, (n =? 0)%Z) ns; d_managed := m |}
    | Flag _ => None
    end
  else None.
(** The fields arrive as a map; each one sets its own part, so the order does
    not show. Which of several bad fields is named is not modelled. *)
Definition bad_field : Err := {| e_kind := ErrOther; e_text := "a field is not in this add-on's entitlement schema or not of its type" |}.
Definition decodeDesiredFields (raw : gmap string FieldValue) : option desiredState :=
  foldl (λ acc '(f, v), d ← acc; decode_field d f v) (Some undecided) (map_to_list raw).
Definition with_homeRoot (d : desiredState) (root : string) : desiredState :=
  {| d_groups := d_groups d; d_enabled := d_enabled d; d_smbEnabled := d_smbEnabled d; d_wantsHome := d_wantsHome d;
     d_homeRoot := root; d_homeQuota := d_homeQuota d; d_homeUnlimited := d_homeUnlimited d; d_managed := d_managed d |}.
Definition settingHomeRoot : string := "home_root".

(** ** Home folders *)
Record homeDecision := { hd_path : string; hd_note : string }.
Definition no_home : homeDecision := {| hd_path := ""; hd_note := "" |}.
Definition datasetOf (p : string) : string :=
  if negb (HasPrefix p "/mnt/") then "" else Trim "/" (string_of_list_ascii (drop 5 (list_ascii_of_string p))).
Definition dedupe_sorted (l : list string) : list string := sort_strings (remove_dups l).
Definition trim_slash (v : string) : string := string_of_list_ascii (TrimRight "/" (list_ascii_of_string (TrimSpace v))).
Definition uniqueSorted (l : list string) : list string := dedupe_sorted (filter (λ v, v ≠ "") (trim_slash <$> l)).
Definition quotaWords (want : Z) : string :=
  if (want =? 0)%Z then "Home folder limit lifted." else "Home folder limit set to " +:+ humanBytes want +:+ ".".

Section homes.
Context {W : Type} `{!Nas W}.
Implicit Types d : desiredState.

Definition homeRoot : M W string :=
  v ← wrap "read where home folders go: " (reading_store op_get_setting (λ st, settings st !! settingHomeRoot));
  mret (default "" (se_Value <$> v)).
Definition decodeDesired (raw : gmap string FieldValue) : M W desiredState :=
  match decodeDesiredFields raw with
  | None => fails bad_field
  | Some d => if negb (d_wantsHome d) then mret d else root ← homeRoot; mret (with_homeRoot d root)
  end.
(** Whose the folder is; nobody's when there is none. *)
Definition statOwner (p : string) : M W (option Z) :=
  r ← attempt (on_nas (λ w, filesystem_stat w p));
  match r with
  | inr uid => mret (Some uid)
  | inl e => if e_kind e =? ErrNoSuchPath then mret None else fails (wrapped ("read " +:+ p +:+ ": ") e)
  end.
Definition decideHome d (username current : string) (uid : Z) : M W homeDecision :=
  if negb (managed d FieldHome) || negb (d_wantsHome d) then mret no_home
  else if managed d FieldEnabled && negb (d_enabled d) then mret no_home
  else if d_homeRoot d =? "" then
    mret {| hd_path := ""; hd_note := username +:+ "'s role gives a home folder, and this system has no place for home folders chosen yet, so none was made." |}
  else
    let want := PathJoin (d_homeRoot d) username in
    if current =? want then mret no_home
    else if current <>? "" then mret no_home
    else
      owner ← statOwner want;
      mret match owner with
      | None => {| hd_path := want; hd_note := "" |}
      | Some owner =>
          if (0 <=? uid)%Z && (owner =? uid)%Z then {| hd_path := want; hd_note := "" |}
          else {| hd_path := ""; hd_note := "A folder already exists at " +:+ want +:+ " and belongs to someone else (uid " +:+ pretty owner
                                            +:+ "), so it was not made " +:+ username +:+ "'s home." |}
      end.
Definition homePlaces : M W (list string) :=
  r ← on_nas readACLs;
  mret (uniqueSorted (pl_path <$> filter (λ p, (pl_folder p <>? "") && negb (HasPrefix (pl_folder p) ".")
                                                && (default "" (mounts r !! pl_path p) <>? "") = true) (places r))).
Record Owed := { qo_dataset : string; qo_want : Z }.
Definition quotaOwed d (home : string) (uid : Z) : M W (option Owed) :=
  if negb (managed d FieldHomeQuota) || (home =? "") || ((d_homeQuota d =? 0)%Z && negb (d_homeUnlimited d)) then mret None
  else
    let want := if d_homeUnlimited d then 0%Z else d_homeQuota d in
    ps ← wrap "read where home folders may go: " homePlaces;
    if negb (bool_decide (Dir_ home ∈ ps)) then mret None
    else
      let dataset := datasetOf (Dir_ home) in
      if dataset =? "" then mret None
      else
        rows ← wrap "read the home folder limit: " (on_nas (λ w, get_quota w dataset uid));
        if existsb (λ '(i, q), (i =? uid)%Z && (q =? want)%Z) rows then mret None
        else if (want =? 0)%Z && bool_decide (rows = []) then mret None
        else mret (Some {| qo_dataset := dataset; qo_want := want |}).
Definition convergeQuota d (home : string) (uid : Z) : M W string :=
  owed ← quotaOwed d home uid;
  match owed with
  | None => mret ""
  | Some o =>
      _ ← wrap "set the home folder limit: " (on_nas_unit (λ w, set_quota w (qo_dataset o) uid (qo_want o)));
      mret (quotaWords (qo_want o))
  end.
End homes.
