(* ===== verification/NasApply.v ===== *)
(** * NasApply: converging one account of the NAS

    addons/truenas/apply.go with the version gate of nas.go. The texts an
    operator reads are the code's. A request that does not decode is [None]. *)

From S2P Require Import Prelude Text Fingerprint Username Tables Nas.

Definition ContractVersion : Z := 1.
Definition EffectApplied : string := "applied".
Definition EffectNoChange : string := "no_change".
Definition EffectBlocked : string := "blocked".
Definition EffectApply : string := "apply".

Record ApplyRequest := {
  aq_ContractVersion : Z; aq_CallID : string; aq_Subject : string; aq_Email : string; aq_Fingerprint : string; aq_PlanID : string;
  aq_Actor : string; aq_Desired : gmap string FieldValue;
}.
Record Failure := { f_status : Z; f_err : Err; f_stale : bool }.
(** An outcome with its status, or an error with one. *)
Definition Reply : Type := Failure + ApplyOutcome * Z.

Definition outcome (subject effect detail consequence username : string) (uid : Z) (fingerprint : string) : ApplyOutcome :=
  {| ao_Subject := subject; ao_Effect := effect; ao_Detail := detail; ao_Consequence := consequence; ao_Username := username;
     ao_UID := uid; ao_Fingerprint := fingerprint; ao_Observed := ∅; ao_Unverified := false; ao_Conflict := None |}.
Definition with_observed (o : ApplyOutcome) (m : gmap string Observed) : ApplyOutcome :=
  {| ao_Subject := ao_Subject o; ao_Effect := ao_Effect o; ao_Detail := ao_Detail o; ao_Consequence := ao_Consequence o;
     ao_Username := ao_Username o; ao_UID := ao_UID o; ao_Fingerprint := ao_Fingerprint o; ao_Observed := m;
     ao_Unverified := ao_Unverified o; ao_Conflict := ao_Conflict o |}.
Definition with_conflict (o : ApplyOutcome) (c : BindingConflict) : ApplyOutcome :=
  {| ao_Subject := ao_Subject o; ao_Effect := ao_Effect o; ao_Detail := ao_Detail o; ao_Consequence := ao_Consequence o;
     ao_Username := ao_Username o; ao_UID := ao_UID o; ao_Fingerprint := ao_Fingerprint o; ao_Observed := ao_Observed o;
     ao_Unverified := ao_Unverified o; ao_Conflict := Some c |}.
Definition unverified (o : ApplyOutcome) : ApplyOutcome :=
  {| ao_Subject := ao_Subject o; ao_Effect := ao_Effect o; ao_Detail := ao_Detail o; ao_Consequence := ao_Consequence o;
     ao_Username := ao_Username o; ao_UID := ao_UID o; ao_Fingerprint := ao_Fingerprint o; ao_Observed := ao_Observed o;
     ao_Unverified := true; ao_Conflict := ao_Conflict o |}.

(** ** Words *)
Definition smbWaiting (current : Subject) : string :=
  if s_PasswordSet current
  then "Waiting for " +:+ s_Username current +:+ " to set their password again: TrueNAS switches SMB on only together with a new password."
  else "Waiting for " +:+ s_Username current +:+ " to set a password before SMB can be enabled.".
Definition describeChange (u : Update) (names : list string) : string :=
  let parts :=
    match up_groups u with
    | Some _ => [if bool_decide (names = []) then "removed from every managed group" else "groups set to " +:+ Join names ", "]
    | None => []
    end ++
    match up_locked u with Some l => [if l then "account disabled" else "account enabled"] | None => [] end ++
    match up_smb u with Some b => [if b then "SMB enabled" else "SMB disabled"] | None => [] end in
  if bool_decide (parts = []) then "" else Join parts "; " +:+ ".".
Definition describeHolding (s : Subject) : string :=
  if negb (s_Enabled s) then "The account is disabled and reaches nothing until it is enabled again."
  else if bool_decide (s_Groups s = []) then "The account is enabled and in no managed group, so it reaches nothing."
  else "Reaches " +:+ Join (s_Groups s) ", " +:+ ".".
Definition notes (note base : string) (extra : list string) : string :=
  TrimSpace (foldl (λ base e, if e <>? "" then base +:+ " " +:+ e else base) base (note :: extra)).
Definition statusFor (e : Err) : Z :=
  match e_kind e with ErrTargetUnreachable => 503 | ErrRateLimited => 429 | _ => 502 end.

(** ** The decision *)
Definition sameSet (a b : list string) : bool := (length a =? length b) && (sort_strings a =? sort_strings b).
Record change := { c_groups : option (list string); c_locked : option bool; c_smbOff : bool; c_smbPending : bool; c_home : homeDecision }.
Definition decide_ (current : option Subject) (d : desiredState) (home : homeDecision) : change :=
  let differs (f : Subject → bool) := match current with Some s => f s | None => true end in
  {| c_groups := if managed d FieldGroup && differs (λ s, negb (sameSet (s_Groups s) (d_groups d))) then Some (d_groups d) else None;
     c_locked := if managed d FieldEnabled && differs (λ s, s_Enabled s <>? d_enabled d) then Some (negb (d_enabled d)) else None;
     c_smbOff := match current with
                 | Some s => managed d FieldSMBEnabled && (s_SMBEnabled s <>? d_smbEnabled d) && negb (d_smbEnabled d)
                 | None => false
                 end;
     c_smbPending := match current with
                     | Some s => managed d FieldSMBEnabled && (s_SMBEnabled s <>? d_smbEnabled d) && d_smbEnabled d
                     | None => false
                     end;
     c_home := home |}.
Definition writes (c : change) : bool :=
  bool_decide (is_Some (c_groups c)) || bool_decide (is_Some (c_locked c)) || c_smbOff c || (hd_path (c_home c) <>? "").
Definition applyTo (c : change) (s : Subject) : Subject :=
  {| s_ID := s_ID s; s_Username := s_Username s; s_UID := s_UID s; s_Groups := default (s_Groups s) (c_groups c);
     s_Home := if hd_path (c_home c) <>? "" then hd_path (c_home c) else s_Home s;
     s_Enabled := match c_locked c with Some l => negb l | None => s_Enabled s end;
     s_SMBEnabled := if c_smbOff c then false else s_SMBEnabled s;
     s_PasswordSet := s_PasswordSet s; s_Self := s_Self s; s_builtinGroups := s_builtinGroups s |}.
Definition entitlementState (s : Subject) : gmap string Observed :=
  <[FieldGroup := ob_list (sort_strings (s_Groups s))]> (<[FieldEnabled := ob_flag (s_Enabled s)]>
    (<[FieldSMBEnabled := ob_flag (s_SMBEnabled s)]> {[FieldHome := ob_list (if s_Home s <>? "" then ["true"] else [])]})).
Definition observedFields (d : desiredState) (s : Subject) : gmap string Observed :=
  filter (λ '(f, _), f ∈ d_managed d) (entitlementState s).

(** ** The version gate *)
Fixpoint take_while {A} (p : A → bool) (l : list A) : list A :=
  match l with [] => [] | x :: l => if p x then x :: take_while p l else [] end.
Definition digit_byte (a : ascii) : bool := between 48 57 a.
(** The first digits, dot, digits. *)
Fixpoint releaseNumber (l : list ascii) : option (list ascii) :=
  match l with
  | [] => None
  | _ :: l' =>
      let a := take_while digit_byte l in
      let here :=
        match drop (length a) l with
        | dot :: r => let b := take_while digit_byte r in
                      if bool_decide (dot = "."%char) && negb (bool_decide (a = [])) && negb (bool_decide (b = [])) then Some (a ++ dot :: b) else None
        | [] => None
        end in
      match here with Some m => Some m | None => releaseNumber l' end
  end.
Definition majorOf (v : string) : string :=
  match releaseNumber (list_ascii_of_string v) with Some m => string_of_list_ascii m | None => TrimSpace v end.
Definition MajorSupported (supported : gset string) (v : string) : bool * string :=
  if v =? "" then (false, "the target version has not been read yet")
  else if bool_decide (majorOf v ∈ supported) then (true, "")
  else (false, "TrueNAS " +:+ majorOf v +:+ " is outside the tested range for this add-on").

Section apply.
Context {W : Type} `{!Nas W, !Unicode} (sha256hex sha256 : string → string) (idFloor idCeiling : Z) (supported : gset string).
Implicit Types (req : ApplyRequest) (d : desiredState).

Definition bool_text (b : bool) : string := if b then "true" else "false".
Definition fingerprint_fields (s : option Subject) : list string :=
  match s with
  | None => ["absent"]
  | Some s => ["present"; s_Username s; pretty (s_UID s); bool_text (s_Enabled s); bool_text (s_SMBEnabled s)] ++ sort_strings (s_Groups s)
  end.
Definition fingerprintSubject (s : option Subject) : string := Fingerprint sha256hex (fingerprint_fields s).

Definition replying (o : ApplyOutcome) (status : Z) : M W Reply := mret (inr (o, status)).
Definition failing (status : Z) (e : Err) : M W Reply := mret (inl {| f_status := status; f_err := e; f_stale := false |}).
(** Go on with the result, or answer with the status its error has. *)
Definition or_fail {A} (status : Err → Z) (m : M W A) (k : A → M W Reply) : M W Reply :=
  r ← attempt m; match r with inl e => failing (status e) e | inr a => k a end.
Definition record (operation subject actor callID outcome : string) : M W unit := λ s,
  (with_journal s (journal s ++ [{| lg_operation := operation; lg_subject := subject;
                                    lg_actor := if TrimSpace actor =? "" then "syndra" else actor; lg_call := callID; lg_outcome := outcome |}]), inr ()).

(** ** Finding the account *)
Record Located := { lo_current : option Subject; lo_binding : Binding; lo_conflict : option BindingConflict; lo_truncated : bool }.
Inductive LocateError := no_identity | locate_failed (e : Err).
Definition no_binding : Binding := {| b_SubjectID := ""; b_Username := ""; b_UID := 0; b_BoundAt := None; b_BoundBy := ""; b_WantsSMB := None |}.
Definition with_uid (b : Binding) (uid : Z) : Binding :=
  {| b_SubjectID := b_SubjectID b; b_Username := b_Username b; b_UID := uid; b_BoundAt := b_BoundAt b; b_BoundBy := b_BoundBy b; b_WantsSMB := b_WantsSMB b |}.
Definition with_username (b : Binding) (name : string) : Binding :=
  {| b_SubjectID := b_SubjectID b; b_Username := name; b_UID := b_UID b; b_BoundAt := b_BoundAt b; b_BoundBy := b_BoundBy b; b_WantsSMB := b_WantsSMB b |}.
(** Best effort. *)
Definition saveBinding (b : Binding) : M W unit := λ s,
  let '(s, _) := writing_store op_put_binding (λ st, PutBinding st (clock (nas s)) b) s in (s, inr ()).
Definition in_range (uid : Z) : bool := let '(floor, ceiling) := idRange idFloor idCeiling in (floor <=? uid)%Z && (uid <=? ceiling)%Z.
Definition taken_by_other (claimed : gmap string string) (subject candidate : string) : bool :=
  match claimed !! candidate with Some owner => owner <>? subject | None => false end.
Definition derived_name (claimed : gmap string string) (email subject : string) : string :=
  DeriveUsername sha256 email subject (taken_by_other claimed subject).
Definition at_ (x : option Subject) (b : Binding) (c : option BindingConflict) (t : bool) : M W (LocateError + Located) :=
  mret (inr {| lo_current := x; lo_binding := b; lo_conflict := c; lo_truncated := t |}).
Definition giving {A} (m : M W A) (k : A → M W (LocateError + Located)) : M W (LocateError + Located) :=
  r ← attempt m; match r with inl e => mret (inl (locate_failed e)) | inr a => k a end.
Definition locate req : M W (LocateError + Located) :=
  giving (reading_store op_get_binding (λ st, bindings st !! aq_Subject req)) (λ bound,
  match bound with
  | Some b =>
      giving (subjectWhere (by_username (b_Username b))) (λ '(found, cut),
      let owned := in_range (b_UID b) in
      match found with
      | Some x =>
          if owned && negb (s_UID x =? b_UID b)%Z
          then at_ None b (Some {| bc_Username := s_Username x; bc_UID := s_UID x; bc_Adoptable := false; bc_BoundTo := "" |}) false
          else if negb owned && in_range (s_UID x) then _ ← saveBinding (with_uid b (s_UID x)); at_ (Some x) (with_uid b (s_UID x)) None false
          else at_ (Some x) b None false
      | None =>
          if negb owned then at_ None b None cut
          else giving (subjectWhere (by_uid (b_UID b))) (λ '(byUID, cutUID),
               match byUID with
               | Some x => _ ← saveBinding (with_username b (s_Username x)); at_ (Some x) (with_username b (s_Username x)) None false
               | None => at_ None b None (cut || cutUID)
               end)
      end)
  | None =>
      if TrimSpace (aq_Email req) =? "" then mret (inl no_identity)
      else
        giving (reading_store op_bound_names BoundUsernames) (λ claimed,
        let derived := derived_name claimed (aq_Email req) (aq_Subject req) in
        giving (subjectWhere (by_username derived)) (λ '(existing, cut),
        match existing with
        | Some x =>
            let owner := default "" (claimed !! derived) in
            at_ None no_binding (Some {| bc_Username := derived; bc_UID := s_UID x; bc_Adoptable := owner =? ""; bc_BoundTo := owner |}) false
        | None =>
            at_ None {| b_SubjectID := aq_Subject req; b_Username := derived; b_UID := 0; b_BoundAt := None; b_BoundBy := ""; b_WantsSMB := None |}
              None cut
        end))
  end).

(** ** Converging an account that exists *)
Definition update_of (c : change) (ids : option (list apiID)) (current : Subject) (home : homeDecision) : Update :=
  {| up_groups := (λ ids, ids ++ s_builtinGroups current) <$> ids; up_locked := c_locked c; up_smb := if c_smbOff c then Some false else None;
     up_home := if hd_path home <>? "" then Some (hd_path home) else None |}.
Definition group_ids (names : option (list string)) : M W (option (list apiID)) :=
  match names with None => mret None | Some names => ids ← groupIDsFor names; mret (Some ids) end.
Definition converge req d (current : Subject) : M W Reply :=
  let c := decide_ (Some current) d no_home in
  or_fail (λ _, 422%Z) (group_ids (c_groups c)) (λ ids,
  let smbPending := c_smbPending c in
  let smbWait := smbWaiting current in
  or_fail statusFor (decideHome d (s_Username current) (s_Home current) (s_UID current)) (λ home,
  let c := decide_ (Some current) d home in
  let update := update_of c ids current home in
  let homeAfter := if hd_path home <>? "" then hd_path home else s_Home current in
  let unchanged (effect detail consequence : string) :=
    outcome (aq_Subject req) effect detail consequence (s_Username current) (s_UID current) (fingerprintSubject (Some current)) in
  if negb (writes c) then
    or_fail statusFor (convergeQuota d homeAfter (s_UID current)) (λ quota,
    if quota <>? "" then
      _ ← record "apply" (aq_Subject req) (aq_Actor req) (aq_CallID req) "succeeded";
      replying (unchanged EffectApplied (notes (hd_note home) quota (if smbPending then [smbWait] else [])) "") 200
    else if smbPending then
      replying (unchanged EffectNoChange (notes (hd_note home) smbWait [])
        ("The account exists and is otherwise converged. TrueNAS switches SMB on "
         +:+ "only in the call that sets a password, so this completes itself when the member sets one.")) 200
    else replying (unchanged EffectNoChange (notes (hd_note home) "Already in the requested state." []) "") 200)
  else
    or_fail statusFor (on_nas_unit (λ w, user_update w (s_ID current) update)) (λ _,
    r ← attempt (readBack (s_Username current));
    match r with
    | inl _ =>
        _ ← record "apply.unverified" (aq_Subject req) (aq_Actor req) (aq_CallID req) "succeeded";
        replying (unverified (outcome (aq_Subject req) EffectApplied
          (describeChange update (d_groups d) +:+ " The account could not be read back afterwards, so what the target now holds has not been confirmed.")
          ("The change was written to " +:+ s_Username current
           +:+ " and the account could not be read back, so what the target now holds has not been confirmed. The next plan reads it fresh.")
          (s_Username current) (s_UID current) "")) 200
    | inr applied =>
        q ← attempt (convergeQuota d homeAfter (s_UID current));
        let quota := match q with inr t => t | inl e => "The home folder limit could not be set yet: " +:+ e_text e +:+ "." end in
        _ ← record "apply" (aq_Subject req) (aq_Actor req) (aq_CallID req) "succeeded";
        let detail := describeChange update (d_groups d) in
        let detail := notes (hd_note home) detail (if hd_path home <>? "" then ["Home folder created at " +:+ hd_path home +:+ "."; quota] else [quota]) in
        let detail := if smbPending then detail +:+ " " +:+ smbWait else detail in
        replying (with_observed (outcome (aq_Subject req) EffectApplied detail (describeHolding applied) (s_Username applied) (s_UID applied)
          (fingerprintSubject (Some applied))) (observedFields d applied)) 200
    end))).

(** ** Making the account *)
Definition bind_created (b : Binding) : M W unit := λ s,
  if store_fails (nas s) op_bind then (s, inl store_error)
  else match BindIfFree (store s) (clock (nas s)) b with
  | inl owner => (s, inl {| e_kind := ErrOther; e_text := b_Username b +:+ " is already bound to another subject (" +:+ owner +:+ ")" |})
  | inr st => (with_store s st, inr ())
  end.
(** The personal group, made or taken over: its key, the number, and whether it
    was there before. *)
Definition personal_group (name : string) (number : Z) : M W (apiID * Z * bool) :=
  r ← attempt (on_nas (λ w, group_create w name number));
  match r with
  | inr i => mret (i, number, false)
  | inl e =>
      orphan ← emptyGroupNamed idFloor idCeiling name;
      match orphan with
      | Some (i, gid) => mret (i, gid, true)
      | None => fails (wrapped ("make " +:+ name +:+ "'s personal group: ") e)
      end
  end.
Definition undo_unless (adopted : bool) (i : apiID) : M W unit := if adopted then mret () else undoGroup i.
Definition createAndConverge req d (binding : Binding) : M W Reply :=
  let name := b_Username binding in
  if negb (ValidUsername name)
  then failing 422 {| e_kind := ErrOther; e_text := "derived name " +:+ quoted_text name +:+ " is not valid on this target" |}
  else
    let want := decide_ None d no_home in
    or_fail (λ _, 422%Z) (group_ids (c_groups want)) (λ ids,
    or_fail statusFor (nextIdentity idFloor idCeiling) (λ number,
    or_fail statusFor (personal_group name number) (λ '(groupID, number, adopted),
    h ← attempt (decideHome d name "" (-1));
    match h with
    | inl e => _ ← undo_unless adopted groupID; failing (statusFor e) e
    | inr home =>
        let create := {| cr_username := name; cr_locked := default false (c_locked want); cr_groups := ids; cr_uid := number; cr_group := groupID;
                         cr_home := if hd_path home <>? "" then Some (hd_path home) else None |} in
        r ← attempt (on_nas (λ w, user_create w create));
        match r with
        | inl e => _ ← undo_unless adopted groupID; failing (statusFor e) e
        | inr _ =>
            back ← attempt (readBack name);
            let uid := match back with inr x => s_UID x | inl _ => number end in
            let b := {| b_SubjectID := aq_Subject req; b_Username := name; b_UID := uid; b_BoundAt := b_BoundAt binding;
                        b_BoundBy := "apply"; b_WantsSMB := b_WantsSMB binding |} in
            or_fail (λ _, 500%Z) (wrap ("account " +:+ name +:+ " was created and its binding could not be recorded: ") (bind_created b)) (λ _,
            match back with
            | inl e => failing (statusFor e) (wrapped ("account " +:+ name +:+ " was created and could not be read back: ") e)
            | inr created =>
                q ← attempt (convergeQuota d (hd_path home) (s_UID created));
                let detail := "Created " +:+ name +:+ "." in
                let detail := if hd_path home <>? "" then detail +:+ " Home folder created at " +:+ hd_path home +:+ "." else detail in
                let detail := match q with
                              | inl e => detail +:+ " The home folder limit could not be set yet: " +:+ e_text e +:+ "."
                              | inr quota => if quota <>? "" then detail +:+ " " +:+ quota else detail
                              end in
                let detail := if hd_note home <>? "" then detail +:+ " " +:+ hd_note home else detail in
                _ ← record "apply.create" (aq_Subject req) (aq_Actor req) (aq_CallID req) "succeeded";
                replying (with_observed (outcome (aq_Subject req) EffectApplied detail (describeHolding created) name (s_UID created)
                  (fingerprintSubject (Some created))) (observedFields d created)) 200
            end)
        end
    end))).

(** ** One apply *)
Definition rememberWantedSMB (subject : string) d (reply : Reply) : M W unit := λ s,
  if bool_decide (is_Some (match reply with inl _ => None | inr o => Some o end)) && managed d FieldSMBEnabled then
    if store_fails (nas s) op_get_binding then (s, inr ())
    else match bindings (store s) !! subject with
    | None => (s, inr ())
    | Some b => saveBinding {| b_SubjectID := b_SubjectID b; b_Username := b_Username b; b_UID := b_UID b; b_BoundAt := b_BoundAt b;
                               b_BoundBy := b_BoundBy b; b_WantsSMB := Some (d_smbEnabled d) |} s
    end
  else (s, inr ()).
Definition absence_proves_nothing : string :=
  "The account list was longer than one read returns, so this subject's absence from it proves nothing.".
Definition already_exists (name : string) : string := "An account named " +:+ name +:+ " already exists and is not bound to anyone.".
Definition applyOne req : M W Reply :=
  or_fail (λ _, 400%Z) (decodeDesired (aq_Desired req)) (λ d,
  l ← locate req;
  match l with
  | inl no_identity =>
      replying (outcome (aq_Subject req) EffectBlocked
        "This subject has no account here and the call carried no identity to derive a name from." "Nothing was changed." "" 0 "") 422
  | inl (locate_failed e) => failing 502 e
  | inr l =>
      match lo_conflict l with
      | Some c =>
          replying (with_conflict (outcome (aq_Subject req) EffectBlocked (already_exists (bc_Username c))
            "Nothing was changed. Adopt it, or create under a suffixed name." (bc_Username c) 0 "") c) 409
      | None =>
          if aq_Fingerprint req <>? fingerprintSubject (lo_current l)
          then mret (inl {| f_status := 409; f_err := {| e_kind := ErrOther; e_text := "the subject's state on the target has changed since the plan: " +:+ aq_Subject req |};
                            f_stale := true |})
          else
            match lo_current l with
            | None =>
                if lo_truncated l
                then replying (outcome (aq_Subject req) EffectBlocked absence_proves_nothing "Nothing was changed." "" 0 "") 409
                else out ← createAndConverge req d (lo_binding l); _ ← rememberWantedSMB (aq_Subject req) d out; mret out
            | Some current => out ← converge req d current; _ ← rememberWantedSMB (aq_Subject req) d out; mret out
            end
      end
  end).

(** ** The endpoint *)
Inductive Answer :=
  | answer_outcome (status : Z) (o : ApplyOutcome)
  | answer_error (status : Z) (code detail : string)
  | answer_lifecycle (state : string).
Context (decode_operation : string → option ApplyOutcome).
Definition handleApply (s : Server W) (body : option ApplyRequest) : Server W * Answer :=
  match body with
  | None => (s, answer_error 400 "BAD_REQUEST" "")
  | Some req =>
      if negb (aq_ContractVersion req =? ContractVersion)%Z then (s, answer_error 422 "CONTRACT_VERSION_MISMATCH" "")
      else if (TrimSpace (aq_CallID req) =? "") || (TrimSpace (aq_Subject req) =? "") then (s, answer_error 400 "BAD_REQUEST" "")
      else if TrimSpace (aq_Fingerprint req) =? "" then
        (s, answer_error 400 "FINGERPRINT_REQUIRED" "this call carries no fingerprint, so there is nothing to verify the plan against")
      else if store_fails (nas s) op_recall then (s, answer_error 500 "STORE_UNREADABLE" "")
      else match Recall (store s) (clock (nas s)) (aq_CallID req) kindApply with
      | recall_mismatch => (s, answer_error 409 "CALL_ID_REUSED" "")
      | recall_found (cached_apply o) => (s, answer_outcome 200 o)
      | recall_found (cached_operation raw) =>
          (s, match decode_operation raw with Some o => answer_outcome 200 o | None => answer_error 500 "STORE_UNREADABLE" "" end)
      | recall_absent =>
          match Begin (life s) with
          | None => (s, answer_lifecycle (lc_state (life s)))
          | Some l =>
              let s := with_life s l in
              let '(s, a) :=
                match MajorSupported supported (version (nas s)) with
                | (false, why) => (s, answer_error 422 "TARGET_VERSION_UNSUPPORTED" why)
                | (true, _) =>
                    match applyOne req s with
                    | (s, inl e) => (s, answer_error 502 "APPLY_FAILED" (e_text e))
                    | (s, inr (inl f)) =>
                        (s, if f_stale f then answer_error (f_status f) "PLAN_STALE" "the subject's state on the target has changed since the plan was computed"
                            else answer_error (f_status f) "APPLY_FAILED" (e_text (f_err f)))
                    | (s, inr (inr (o, status))) =>
                        (if (status / 100 =? 2)%Z && negb (store_fails (nas s) op_remember)
                         then with_store s (Remember (store s) (clock (nas s)) (aq_CallID req) kindApply (cached_apply o)) else s,
                         answer_outcome status o)
                    end
                end in
              (with_life s (done_ (life s)), a)
          end
      end
  end.
End apply.
