(* ===== verification/NasPlan.v ===== *)
(** * NasPlan: what an apply would do

    addons/truenas/plan.go. *)

From S2P Require Import Prelude Text Fingerprint Username Tables Nas NasApply.

Record PlanSubject := { ps_Subject : string; ps_Email : string; ps_Desired : gmap string FieldValue }.
Record PlanRequest := { pr_ContractVersion : Z; pr_Subjects : list PlanSubject; pr_AcknowledgeScope : bool }.
Record PlanResponse := { pn_Outcomes : list ApplyOutcome; pn_Current : bool; pn_TakenAt : Z; pn_Truncated : bool }.
Definition perRequestSubjectCap : nat := 200.

Definition diffSets (before after : list string) : list string * list string :=
  (filter (λ a, a ∉ before) after, filter (λ b, b ∉ after) before).
Definition suffixList (rest : list string) : string := if bool_decide (rest = []) then "" else "; " +:+ Join rest "; ".
Definition upper_first (s : string) : string :=
  match s with String a r => String (if between 97 122 a then ascii_of_N (N_of_ascii a - 32) else a) r | "" => "" end.
Definition describePlannedChange (before after : Subject) : string :=
  let '(gained, lost) := diffSets (s_Groups before) (s_Groups after) in
  let same := sameSet (s_Groups before) (s_Groups after) in
  let parts :=
    (if (s_Home after <>? s_Home before) && (s_Home after <>? "") then ["gets a home folder at " +:+ s_Home after] else []) ++
    (if negb same && negb (bool_decide (gained = [])) then ["joins " +:+ Join gained ", "] else []) ++
    (if negb same && negb (bool_decide (lost = [])) then ["leaves " +:+ Join lost ", "] else []) ++
    (if s_Enabled before <>? s_Enabled after then [if s_Enabled after then "account enabled" else "account disabled"] else []) ++
    (if s_SMBEnabled before <>? s_SMBEnabled after then [if s_SMBEnabled after then "SMB enabled" else "SMB disabled"] else []) in
  match parts with [] => "No change." | p :: rest => upper_first p +:+ suffixList rest +:+ "." end.
Definition blank_account (username : string) : Subject :=
  {| s_ID := ""; s_Username := username; s_UID := 0; s_Groups := []; s_Home := ""; s_Enabled := true; s_SMBEnabled := false;
     s_PasswordSet := false; s_Self := false; s_builtinGroups := [] |}.
Definition projected (d : desiredState) (username : string) : Subject :=
  let out := applyTo (decide_ None d no_home) (blank_account username) in
  if managed d FieldHome && d_wantsHome d && (d_homeRoot d <>? "") && (negb (managed d FieldEnabled) || d_enabled d)
  then applyTo {| c_groups := None; c_locked := None; c_smbOff := false; c_smbPending := false;
                  c_home := {| hd_path := PathJoin (d_homeRoot d) username; hd_note := "" |} |} out
  else out.

Section plan.
Context {W : Type} `{!Nas W, !Unicode} (sha256hex sha256 : string → string).

Definition planOne (req : PlanSubject) (byName : gmap string Subject) (claimed : gmap string string) (truncated : bool) : M W ApplyOutcome :=
  let blocked detail consequence username fingerprint :=
    outcome (ps_Subject req) EffectBlocked detail consequence username 0 fingerprint in
  dd ← attempt (decodeDesired (ps_Desired req));
  match dd with
  | inl e => mret (blocked (e_text e) "" "" "")
  | inr d =>
      b ← attempt (reading_store op_get_binding (λ st, bindings st !! ps_Subject req));
      match b with
      | inl _ => mret (blocked "The local binding store could not be read." "" "" "")
      | inr bound =>
          let name := match bound with
                      | Some b => b_Username b
                      | None => derived_name sha256 claimed (ps_Email req) (ps_Subject req)
                      end in
          match bound, byName !! name with
          | None, Some existing =>
              let owner := default "" (claimed !! name) in
              mret (with_conflict (blocked (already_exists name) "Nothing would change. Adopt it, or create under a suffixed name." name
                (fingerprintSubject sha256hex (Some existing)))
                {| bc_Username := name; bc_UID := s_UID existing; bc_Adoptable := owner =? ""; bc_BoundTo := owner |})
          | _, None =>
              let fingerprint := fingerprintSubject sha256hex None in
              mret (if truncated then blocked absence_proves_nothing "Nothing would change." "" fingerprint
                    else outcome (ps_Subject req) EffectApply ("Creates " +:+ name +:+ ".") (describeHolding (projected d name)) name 0 fingerprint)
          | Some _, Some current =>
              let fingerprint := fingerprintSubject sha256hex (Some current) in
              h ← attempt (decideHome d (s_Username current) (s_Home current) (s_UID current));
              match h with
              | inl e => mret (blocked ("Where the home folder would go could not be read: " +:+ e_text e +:+ ".") "Nothing would change."
                                 (s_Username current) fingerprint)
              | inr home =>
                  let c := decide_ (Some current) d home in
                  let after := applyTo c current in
                  q ← attempt (quotaOwed d (s_Home after) (s_UID current));
                  let quota := match q with inr (Some o) => Some (qo_want o) | _ => None end in
                  mret match writes c, quota with
                  | false, None =>
                      let detail := if managed d FieldSMBEnabled && d_smbEnabled d && negb (s_SMBEnabled current)
                                    then smbWaiting current else "Already in the requested state." in
                      let detail := if hd_note home <>? "" then detail +:+ " " +:+ hd_note home else detail in
                      outcome (ps_Subject req) EffectNoChange detail (describeHolding current) (s_Username current) 0 fingerprint
                  | changes, quota =>
                      let detail := if changes then describePlannedChange current after else "" in
                      let detail := match quota with Some want => TrimSpace (detail +:+ " " +:+ quotaWords want) | None => detail end in
                      outcome (ps_Subject req) EffectApply detail (describeHolding after) (s_Username current) 0 fingerprint
                  end
              end
          end
      end
  end.
Fixpoint plan_each (reqs : list PlanSubject) (byName : gmap string Subject) (claimed : gmap string string) (truncated : bool) : M W (list ApplyOutcome) :=
  match reqs with
  | [] => mret []
  | r :: reqs => o ← planOne r byName claimed truncated; os ← plan_each reqs byName claimed truncated; mret (o :: os)
  end.
Definition by_name (snap : Snapshot) : gmap string Subject := foldl (λ m x, <[s_Username x := x]> m) ∅ (sn_Subjects snap).
Inductive PlanAnswer := plan_answer (r : PlanResponse) | plan_error (status : Z) (code detail : string).
(** A live read, or the mirror. *)
Definition plan_view : M W (Err + Snapshot * bool) :=
  r ← attempt readSubjects;
  match r with
  | inr snap => mret (inr (snap, true))
  | inl e =>
      cached ← attempt (reading_store op_get_snapshot snapshot);
      mret match cached with inr (Some snap) => inr (snap, false) | _ => inl e end
  end.
Definition handlePlan (body : option PlanRequest) : M W PlanAnswer :=
  match body with
  | None => mret (plan_error 400 "BAD_REQUEST" "")
  | Some req =>
      if negb (pr_ContractVersion req =? ContractVersion)%Z then mret (plan_error 422 "CONTRACT_VERSION_MISMATCH" "")
      else if (perRequestSubjectCap <? length (pr_Subjects req)) && negb (pr_AcknowledgeScope req)
      then mret (plan_error 422 "SCOPE_ACKNOWLEDGEMENT_REQUIRED" "")
      else
        v ← plan_view;
        match v with
        | inl e => mret (plan_error (statusFor e) "TARGET_UNREADABLE" (e_text e))
        | inr (snap, current) =>
            c ← attempt (reading_store op_bound_names BoundUsernames);
            match c with
            | inl _ => mret (plan_error 500 "STORE_UNREADABLE" "")
            | inr claimed =>
                os ← plan_each (pr_Subjects req) (by_name snap) claimed (sn_Truncated snap);
                mret (plan_answer {| pn_Outcomes := os; pn_Current := current; pn_TakenAt := sn_TakenAt snap; pn_Truncated := sn_Truncated snap |})
            end
        end
  end.
End plan.
