(* ===== verification/NasConverge.v ===== *)
(** * NasConverge: what an apply does to the NAS

    Facts about NasApply.v and NasPlan.v. [NasLog] remembers the mutating calls
    made and what the answers told, [NasModel] says what the target's calls do to
    its accounts, and a [Keeping] relation is what a computation that only reads
    leaves alone. *)

From S2P Require Import Prelude Text Fingerprint Username Tables Nas NasApply NasPlan.

(** ** The mutating calls of a computation *)
Inductive Mutation :=
  | m_update (i : apiID) (u : Update)
  | m_create (c : Create)
  | m_group (name : string) (gid : Z)
  | m_group_delete (i : apiID)
  | m_quota (dataset : string) (uid want : Z).
(** What an answer told: the accounts and the groups a query found, the key of a
    group that was made. *)
Inductive Told :=
  | told_users (f : Filter) (us : list nasUser)
  | told_groups (name : option string) (gs : list nasGroup)
  | told_made (name : string) (gid : Z) (i : apiID).
Definition answered {A} (t : A → Told) (r : Err + A) : list Told := match r with inr a => [t a] | inl _ => [] end.
(** The target remembers the calls made of it and what it told. *)
Class NasLog (W : Type) `{!Nas W} := {
  mutations : W → list Mutation;
  told : W → list Told;
  history w : list Mutation * list Told := (mutations w, told w);
  grown w ms ts : list Mutation * list Told := (mutations w ++ ms, told w ++ ts);
  log_user_query w f : history (user_query w f).1 = grown w [] (answered (told_users f) (user_query w f).2);
  log_group_query w n : history (group_query w n).1 = grown w [] (answered (told_groups n) (group_query w n).2);
  log_highest_uid w a b : history (highest_uid w a b).1 = grown w [] [];
  log_highest_gid w a b : history (highest_gid w a b).1 = grown w [] [];
  log_stat w p : history (filesystem_stat w p).1 = grown w [] [];
  log_get_quota w ds uid : history (get_quota w ds uid).1 = grown w [] [];
  log_readACLs w : history (readACLs w).1 = grown w [] [];
  log_user_update w i u : history (user_update w i u).1 = grown w [m_update i u] [];
  log_user_create w c : history (user_create w c).1 = grown w [m_create c] [];
  log_group_create w n gid : history (group_create w n gid).1 = grown w [m_group n gid] (answered (told_made n gid) (group_create w n gid).2);
  log_group_delete w i : history (group_delete w i).1 = grown w [m_group_delete i] [];
  log_set_quota w ds uid q : history (set_quota w ds uid q).1 = grown w [m_quota ds uid q] [];
}.

Section calls.
Context {W : Type} `{!Nas W, !NasLog W}.

(** Run from any server, the computation makes some calls and is told something;
    [Q] is what holds of its result and of them. *)
Definition makes {A} (m : M W A) (Q : Err + A → list Mutation → list Told → Prop) : Prop :=
  ∀ s s' r, m s = (s', r) →
    ∃ ms ts, mutations (nas s') = mutations (nas s) ++ ms ∧ told (nas s') = told (nas s) ++ ts ∧ Q r ms ts.
Definition reads {A} (m : M W A) : Prop := makes m (λ _ ms _, ms = []).
(** It reads, and [P] holds of what it returns and was told. *)
Definition reads_for {A} (m : M W A) (P : A → list Told → Prop) : Prop :=
  makes m (λ r ms ts, ms = [] ∧ match r with inr a => P a ts | inl _ => True end).

Lemma makes_weaken {A} (m : M W A) (Q R : Err + A → list Mutation → list Told → Prop) :
  makes m Q → (∀ r ms ts, Q r ms ts → R r ms ts) → makes m R.
Proof. intros Hm Hi s s' r E. destruct (Hm _ _ _ E) as (ms & ts & ? & ? & ?). eauto 6. Qed.
Lemma makes_ret {A} (a : A) (Q : Err + A → list Mutation → list Told → Prop) : Q (inr a) [] [] → makes (mret a) Q.
Proof. intros HQ s s' r [= <- <-]. exists [], []. by rewrite !app_nil_r. Qed.
Lemma makes_fails {A} e (Q : Err + A → list Mutation → list Told → Prop) : Q (inl e) [] [] → makes (fails e) Q.
Proof. intros HQ s s' r [= <- <-]. exists [], []. by rewrite !app_nil_r. Qed.
Lemma makes_bind {A B} (m : M W A) (k : A → M W B) (Q : Err + A → list Mutation → list Told → Prop) (R : Err + B → list Mutation → list Told → Prop) :
  makes m Q → (∀ e ms ts, Q (inl e) ms ts → R (inl e) ms ts) →
  (∀ a ms ts, Q (inr a) ms ts → makes (k a) (λ r ms' ts', R r (ms ++ ms') (ts ++ ts'))) → makes (m ≫= k) R.
Proof.
  intros Hm He Hk s s' r E. unfold mbind, M_bind in E. destruct (m s) as [s1 [e|a]] eqn:E1.
  - injection E as <- <-. destruct (Hm _ _ _ E1) as (ms & ts & ? & ? & ?). eauto 6.
  - destruct (Hm _ _ _ E1) as (ms & ts & Hms & Hts & HQ). destruct (Hk _ _ _ HQ _ _ _ E) as (ms' & ts' & Hms' & Hts' & HR).
    exists (ms ++ ms'), (ts ++ ts'). by rewrite Hms', Hms, Hts', Hts, !(assoc_L (++)).
Qed.
Lemma makes_attempt {A} (m : M W A) (Q : Err + A → list Mutation → list Told → Prop) (R : Err + (Err + A) → list Mutation → list Told → Prop) :
  makes m Q → (∀ r ms ts, Q r ms ts → R (inr r) ms ts) → makes (attempt m) R.
Proof.
  intros Hm Hi s s' r E. unfold attempt in E. destruct (m s) as [s1 r1] eqn:E1. injection E as <- <-.
  destruct (Hm _ _ _ E1) as (ms & ts & ? & ? & ?). eauto 6.
Qed.
Lemma makes_wrap {A} p (m : M W A) (Q R : Err + A → list Mutation → list Told → Prop) :
  makes m Q → (∀ e ms ts, Q (inl e) ms ts → R (inl (wrapped p e)) ms ts) → (∀ a ms ts, Q (inr a) ms ts → R (inr a) ms ts) →
  makes (wrap p m) R.
Proof.
  intros Hm He Ha s s' r E. unfold wrap in E. destruct (m s) as [s1 [e|a]] eqn:E1; injection E as <- <-;
    destruct (Hm _ _ _ E1) as (ms & ts & ? & ? & ?); eauto 6.
Qed.
Lemma makes_on_nas {A} (f : W → W * (Err + A)) ms (tell : Err + A → list Told) (Q : Err + A → list Mutation → list Told → Prop) :
  (∀ w, history (f w).1 = grown w ms (tell (f w).2)) → (∀ r, Q r ms (tell r)) → makes (on_nas f) Q.
Proof.
  intros Hf HQ s s' r E. unfold on_nas in E. pose proof (Hf (nas s)) as Hw. destruct (f (nas s)) as [w r1]. injection E as <- <-.
  injection Hw as Hm Ht. eauto 6.
Qed.
Lemma makes_on_nas_unit (f : W → W * option Err) (Q : Err + unit → list Mutation → list Told → Prop) ms :
  (∀ w, history (f w).1 = grown w ms []) → (∀ r, Q r ms []) → makes (on_nas_unit f) Q.
Proof.
  intros Hf HQ s s' r E. unfold on_nas_unit in E. pose proof (Hf (nas s)) as Hw. destruct (f (nas s)) as [w r1]. injection E as <- <-.
  injection Hw as Hm Ht. eauto 6.
Qed.
(** A step that does not ask the target, and does not fail. *)
Lemma makes_quiet {A B} (m : M W A) (k : A → M W B) (R : Err + B → list Mutation → list Told → Prop) :
  (∀ s, nas (m s).1 = nas s ∧ ∃ a, (m s).2 = inr a) → (∀ a, makes (k a) R) → makes (m ≫= k) R.
Proof.
  intros Hm Hk s s' r E. unfold mbind, M_bind in E. destruct (Hm s) as [Hn [a Ha]]. destruct (m s) as [s1 r1]. simpl in *. subst r1.
  destruct (Hk a _ _ _ E) as (ms & ts & Hms & Hts & HR). rewrite Hn in Hms, Hts. eauto 6.
Qed.
Lemma reads_bind {A B} (m : M W A) (k : A → M W B) (P : A → list Told → Prop) (Q : B → list Told → Prop) :
  reads_for m P → (∀ a ts, P a ts → reads_for (k a) (λ b ts', Q b (ts ++ ts'))) → reads_for (m ≫= k) Q.
Proof.
  intros Hm Hk. eapply makes_bind; [exact Hm|by intros e ms ts [-> _]|]. intros a ms ts [-> Ha]. exact (Hk a ts Ha).
Qed.
Lemma reads_ret {A} (a : A) (P : A → list Told → Prop) : P a [] → reads_for (mret a) P.
Proof. intros Ha. by apply makes_ret. Qed.
Lemma reads_fails {A} e (P : A → list Told → Prop) : reads_for (fails e) P.
Proof. by apply makes_fails. Qed.
Lemma reads_wrap {A} p (m : M W A) (P : A → list Told → Prop) : reads_for m P → reads_for (wrap p m) P.
Proof. intros Hm. eapply makes_wrap; [exact Hm|done..]. Qed.
Lemma reads_asking {A} (f : W → W * (Err + A)) (t : A → Told) :
  (∀ w, history (f w).1 = grown w [] (answered t (f w).2)) → reads_for (on_nas f) (λ a ts, ts = [t a]).
Proof. intros Hf. eapply makes_on_nas; [exact Hf|]. by intros []. Qed.
Lemma reads_any {A} (m : M W A) : reads m → reads_for m (λ _ _, True).
Proof. intros Hm. eapply makes_weaken; [exact Hm|]. by intros [] ms ts ->. Qed.
End calls.

(** ** What a computation that only reads leaves alone *)
(** What is kept of a server before in the server after: something is the same, or
    has only grown. *)
Record Keeping (W : Type) := { kept :> Server W → Server W → Prop; #[global] kept_preorder :: PreOrder kept }.
Arguments kept {W}.
Class Observes {W : Type} `{!Nas W} (R : Keeping W) := {
  obs_user_query s f : R s (with_nas s (user_query (nas s) f).1);
  obs_group_query s n : R s (with_nas s (group_query (nas s) n).1);
  obs_highest_uid s a b : R s (with_nas s (highest_uid (nas s) a b).1);
  obs_highest_gid s a b : R s (with_nas s (highest_gid (nas s) a b).1);
  obs_stat s p : R s (with_nas s (filesystem_stat (nas s) p).1);
  obs_get_quota s ds uid : R s (with_nas s (get_quota (nas s) ds uid).1);
  obs_readACLs s : R s (with_nas s (readACLs (nas s)).1);
}.
(** ... and so does the add-on's own bookkeeping, the remembered results apart. *)
Class ObservesWork {W : Type} `{!Nas W} (R : Keeping W) := {
  #[global] work_observes :: Observes R;
  obs_store s st : idempotency st = idempotency (store s) → R s (with_store s st);
  obs_journal s j : R s (with_journal s j);
}.
Definition steady {W A} (R : Keeping W) (m : M W A) : Prop := ∀ s, R s (m s).1.
(** Something is the same. *)
Program Definition same {W X} (obs : Server W → X) : Keeping W := {| kept s s' := obs s' = obs s |}.
Next Obligation. intros W X obs. split; [done|]. intros s1 s2 s3 H12 H23. by rewrite H23. Qed.

Section steady.
Context {W : Type} (R : Keeping W).
Lemma steady_ret {A} (a : A) : steady R (mret a).
Proof. intros s. change (R s s). reflexivity. Qed.
Lemma steady_fails {A} e : steady R (@fails W A e).
Proof. intros s. change (R s s). reflexivity. Qed.
Lemma steady_bind {A B} (m : M W A) (k : A → M W B) : steady R m → (∀ a, steady R (k a)) → steady R (m ≫= k).
Proof.
  intros Hm Hk s. unfold mbind, M_bind. pose proof (Hm s) as Hs. destruct (m s) as [s1 [e|a]]; [done|]. etransitivity; [exact Hs|apply Hk].
Qed.
Lemma steady_attempt {A} (m : M W A) : steady R m → steady R (attempt m).
Proof. intros Hm s. unfold attempt. pose proof (Hm s). by destruct (m s). Qed.
Lemma steady_wrap {A} p (m : M W A) : steady R m → steady R (wrap p m).
Proof. intros Hm s. unfold wrap. pose proof (Hm s). by destruct (m s) as [? []]. Qed.
Lemma steady_on_nas {A} (f : W → W * (Err + A)) : (∀ s, R s (with_nas s (f (nas s)).1)) → steady R (on_nas f).
Proof. intros Hf s. unfold on_nas. pose proof (Hf s). by destruct (f (nas s)). Qed.
Lemma steady_on_nas_unit (f : W → W * option Err) : (∀ s, R s (with_nas s (f (nas s)).1)) → steady R (on_nas_unit f).
Proof. intros Hf s. unfold on_nas_unit. pose proof (Hf s). by destruct (f (nas s)). Qed.
Lemma steady_store `{!Nas W} {A} op (f : Store → A) : steady R (reading_store op f).
Proof. intros s. unfold reading_store. case_match; simpl; reflexivity. Qed.
Lemma steady_server : steady R (@server W).
Proof. intros s. change (R s s). reflexivity. Qed.
Lemma steady_from_sum {A} (r : Err + A) : steady R (from_sum r).
Proof. intros s. change (R s s). reflexivity. Qed.
End steady.
Create HintDb nas_reads.
#[export] Hint Resolve steady_ret steady_fails steady_attempt steady_wrap steady_store steady_server steady_from_sum : nas_reads.
#[export] Hint Extern 1 (steady _ (on_nas _)) =>
  apply steady_on_nas; intros; first [apply obs_user_query|apply obs_group_query|apply obs_highest_uid|apply obs_highest_gid|apply obs_stat|apply obs_get_quota|apply obs_readACLs] : nas_reads.
(** A computation that does nothing. *)
Ltac idle := first [apply steady_ret|apply steady_fails|apply steady_server|simpl; reflexivity].
(** Walk through a computation that only reads. *)
Ltac reading :=
  repeat match goal with
  | |- steady _ (_ ≫= _) => apply steady_bind; [|intros]
  | |- steady _ (match ?x with _ => _ end) => destruct x
  | |- steady _ (let '_ := ?x in _) => destruct x
  | |- steady _ _ => solve [auto with nas_reads]
  | |- steady _ (wrap _ _) => apply steady_wrap
  | |- steady _ (attempt _) => apply steady_attempt
  end.

Section readers.
Context {W : Type} `{!Nas W, !Unicode} (R : Keeping W) `{!Observes R} (sha256hex sha256 : string → string) (idFloor idCeiling : Z).
Lemma steady_readGroups : steady R readGroups.
Proof. unfold readGroups. reading. Qed.
Hint Resolve steady_readGroups : nas_reads.
Lemma steady_groupIndex : steady R groupIndex.
Proof. unfold groupIndex. reading. Qed.
Hint Resolve steady_groupIndex : nas_reads.
Lemma steady_readSubjectsWhere f : steady R (readSubjectsWhere f).
Proof. unfold readSubjectsWhere. reading. Qed.
Hint Resolve steady_readSubjectsWhere : nas_reads.
Lemma steady_subjectWhere f : steady R (subjectWhere f).
Proof. unfold subjectWhere. reading. Qed.
Hint Resolve steady_subjectWhere : nas_reads.
Lemma steady_groupIDsFor names : steady R (groupIDsFor names).
Proof. unfold groupIDsFor. reading. Qed.
Hint Resolve steady_groupIDsFor : nas_reads.
Lemma steady_group_ids names : steady R (group_ids names).
Proof. unfold group_ids. reading. Qed.
Lemma steady_readBack name : steady R (readBack name).
Proof. unfold readBack. reading. Qed.
Lemma steady_emptyGroupNamed name : steady R (emptyGroupNamed idFloor idCeiling name).
Proof. unfold emptyGroupNamed. reading. Qed.
Lemma steady_homeRoot : steady R homeRoot.
Proof. unfold homeRoot. reading. Qed.
Hint Resolve steady_homeRoot : nas_reads.
Lemma steady_decodeDesired raw : steady R (decodeDesired raw).
Proof. unfold decodeDesired. reading. Qed.
Lemma steady_statOwner p : steady R (statOwner p).
Proof. unfold statOwner. reading. Qed.
Hint Resolve steady_statOwner : nas_reads.
Lemma steady_decideHome d name current uid : steady R (decideHome d name current uid).
Proof. unfold decideHome. reading. Qed.
Lemma steady_homePlaces : steady R homePlaces.
Proof. unfold homePlaces. reading. Qed.
Hint Resolve steady_homePlaces : nas_reads.
Lemma steady_quotaOwed d home uid : steady R (quotaOwed d home uid).
Proof. unfold quotaOwed. reading. Qed.
Hint Resolve steady_decodeDesired steady_decideHome steady_quotaOwed : nas_reads.
Lemma steady_planOne req byName claimed truncated : steady R (planOne sha256hex sha256 req byName claimed truncated).
Proof. unfold planOne. reading. Qed.
Hint Resolve steady_planOne : nas_reads.
Lemma steady_plan_each reqs byName claimed truncated : steady R (plan_each sha256hex sha256 reqs byName claimed truncated).
Proof. induction reqs; simpl; reading. Qed.
Hint Resolve steady_plan_each : nas_reads.
Lemma steady_handlePlan body : steady R (handlePlan sha256hex sha256 body).
Proof.
  unfold handlePlan, plan_view, readSubjects. destruct body as [req|]; [|reading]. destruct (negb _); [reading|]. destruct (_ && _); [reading|].
  apply steady_bind; [|intros [e|[snap current]]]; reading.
Qed.
End readers.
#[export] Hint Extern 1 (steady _ _) =>
  first [apply steady_group_ids|apply steady_readBack|apply steady_emptyGroupNamed|apply steady_decodeDesired|apply steady_decideHome|apply steady_quotaOwed
    |apply steady_subjectWhere]; apply _ : nas_reads.

Section work.
Context {W : Type} `{!Nas W, !Unicode} (R : Keeping W) `{!ObservesWork R} (sha256hex sha256 : string → string) (idFloor idCeiling : Z).
Lemma steady_claiming a b c : steady R (claiming a b c).
Proof.
  intros s. unfold claiming. destruct (store_fails _ _); [done|]. unfold ClaimID. destruct (_ <? _)%Z; [done|]. by apply obs_store.
Qed.
Hint Resolve steady_claiming : nas_reads.
Lemma steady_nextIdentity : steady R (nextIdentity idFloor idCeiling).
Proof. unfold nextIdentity. reading. Qed.
Lemma steady_saveBinding b : steady R (saveBinding b).
Proof. intros s. unfold saveBinding, writing_store. destruct (store_fails _ _); [done|]. by apply obs_store. Qed.
Hint Resolve steady_saveBinding : nas_reads.
Lemma steady_giving {A} (m : M W A) k : steady R m → (∀ a, steady R (k a)) → steady R (giving m k).
Proof. intros Hm Hk. unfold giving. apply steady_bind; [by apply steady_attempt|]. intros []; [auto with nas_reads|done]. Qed.
Lemma steady_at x b c t : steady R (at_ x b c t).
Proof. unfold at_. auto with nas_reads. Qed.
Hint Resolve steady_at : nas_reads.
Lemma steady_locate req : steady R (locate sha256 idFloor idCeiling req).
Proof.
  unfold locate. apply steady_giving; [auto with nas_reads|]. intros [b|].
  - apply steady_giving; [auto with nas_reads|]. intros [[x|] cut]; [reading|]. destruct (negb _); [reading|].
    apply steady_giving; [auto with nas_reads|]. intros [[y|] cut']; reading.
  - case_bool_decide; [reading|]. apply steady_giving; [auto with nas_reads|]. intros claimed.
    apply steady_giving; [auto with nas_reads|]. intros [[x|] cut]; reading.
Qed.
Lemma steady_record a b c e f : steady R (record a b c e f).
Proof. intros s. apply obs_journal. Qed.
Lemma steady_bind_created b : steady R (bind_created b).
Proof. intros s. unfold bind_created, BindIfFree. destruct (store_fails _ _); [done|]. destruct (held_by _ _); [done|]. by apply obs_store. Qed.
Lemma steady_rememberWantedSMB subject d reply : steady R (rememberWantedSMB subject d reply).
Proof.
  intros s. unfold rememberWantedSMB. destruct (_ && _); [|done]. destruct (store_fails _ _); [done|].
  destruct (bindings _ !! _); [|done]. apply steady_saveBinding.
Qed.
End work.
#[export] Hint Extern 1 (steady _ _) =>
  first [apply steady_nextIdentity|apply steady_locate|apply steady_record|apply steady_bind_created|apply steady_rememberWantedSMB]; apply _ : nas_reads.


(** No call is made, and what was told is kept. *)
Program Definition hears `{!Nas W, !NasLog W} : Keeping W :=
  {| kept s s' := mutations (nas s') = mutations (nas s) ∧ ∃ ts, told (nas s') = told (nas s) ++ ts |}.
Next Obligation.
  split; [intros s; split; [done|exists []; by rewrite app_nil_r]|]. intros s1 s2 s3 [H1 [ts1 E1]] [H2 [ts2 E2]].
  split; [by rewrite H2|]. exists (ts1 ++ ts2). by rewrite E2, E1, (assoc_L (++)).
Qed.
Lemma hears_answer `{!Nas W, !NasLog W} (s : Server W) w ts : history w = grown (nas s) [] ts → hears s (with_nas s w).
Proof. intros [= Hm Ht]. rewrite app_nil_r in Hm. split; [done|by exists ts]. Qed.
#[export] Instance Observes_hears `{!Nas W, !NasLog W} : ObservesWork (hears (W := W)).
Proof.
  assert (∀ s s' : Server W, nas s' = nas s → hears s s') as Hq
    by (intros s s' E; simpl; rewrite E; split; [done|exists []; by rewrite app_nil_r]).
  split; [split|..]; intros; first [by apply Hq|eapply hears_answer];
    first [apply log_user_query|apply log_group_query|apply log_highest_uid|apply log_highest_gid|apply log_stat|apply log_get_quota|apply log_readACLs].
Qed.
Lemma reads_steady `{!Nas W, !NasLog W} {A} (m : M W A) : steady hears m → reads m.
Proof. intros Hm s s' r E. destruct (Hm s) as [H1 [ts H2]]. rewrite E in H1, H2. exists [], ts. by rewrite app_nil_r. Qed.
#[export] Hint Extern 1 (reads _) => apply reads_steady : nas_reads.

(** ** What an apply may touch *)
Definition wanted_quota (d : desiredState) : Z := if d_homeUnlimited d then 0%Z else d_homeQuota d.
Definition home_allowed (d : desiredState) (username home p : string) : Prop :=
  managed d FieldHome = true ∧ d_wantsHome d = true ∧ (managed d FieldEnabled = true → d_enabled d = true) ∧ home = "" ∧
  p = PathJoin (d_homeRoot d) username.
(** The account as the target told it: a record a query of accounts answered,
    with the names of a group list that was read. *)
Definition heard_subject (ts : list Told) (x : Subject) : Prop :=
  ∃ self f us u gs, told_users f us ∈ ts ∧ u ∈ us ∧ told_groups None gs ∈ ts ∧ x = subject_of self (index_groups gs) u.
(** The keys of these groups, as a group list that was read has them. *)
Definition resolved (ts : list Told) (names : list string) (ids : list apiID) : Prop :=
  names = [] ∧ ids = [] ∨ ∃ gs, told_groups None gs ∈ ts ∧ ids_for (index_groups gs) names = inr ids.
(** A call an apply of this desired state may make on this account: an update of
    its record carrying managed fields only, towards what is wanted, with its
    built-in groups; or the limit that is wanted, of its number where its home is. *)
Definition touches (ts : list Told) (d : desiredState) (x : Subject) (m : Mutation) : Prop :=
  match m with
  | m_update i u =>
      i = s_ID x ∧
      (∀ gs, up_groups u = Some gs → managed d FieldGroup = true ∧ ∃ ids, resolved ts (d_groups d) ids ∧ gs = ids ++ s_builtinGroups x) ∧
      (∀ l, up_locked u = Some l → managed d FieldEnabled = true ∧ l = negb (d_enabled d)) ∧
      (∀ b, up_smb u = Some b → managed d FieldSMBEnabled = true ∧ b = false ∧ d_smbEnabled d = false) ∧
      (∀ p, up_home u = Some p → home_allowed d (s_Username x) (s_Home x) p)
  | m_quota ds uid q =>
      uid = s_UID x ∧ managed d FieldHomeQuota = true ∧ q = wanted_quota d ∧
      ∃ h, (h = s_Home x ∨ home_allowed d (s_Username x) (s_Home x) h) ∧ ds = datasetOf (Dir_ h)
  | _ => False
  end.
(** The group an account is made with: made under its name in this run, or an
    empty one of that name that was there. *)
Definition own_group (ts : list Told) (name : string) (gid : Z) (i : apiID) : Prop :=
  told_made name gid i ∈ ts ∨
  ∃ g, told_groups (Some name) [g] ∈ ts ∧ gr_ID g = i ∧ gr_GID g = gid ∧ gr_Users g = [] ∧ gr_Builtin g = false.
(** A call an apply may make to found this account. *)
Definition founds (ts : list Told) (d : desiredState) (name : string) (m : Mutation) : Prop :=
  match m with
  | m_group n _ => n = name
  | m_group_delete i => ∃ gid, told_made name gid i ∈ ts
  | m_create c =>
      cr_username c = name ∧ cr_locked c = managed d FieldEnabled && negb (d_enabled d) ∧
      match cr_groups c with
      | Some ids => managed d FieldGroup = true ∧ resolved ts (d_groups d) ids
      | None => managed d FieldGroup = false
      end ∧
      (∀ p, cr_home c = Some p → home_allowed d name "" p) ∧ own_group ts name (cr_uid c) (cr_group c)
  | m_quota ds uid q =>
      managed d FieldHomeQuota = true ∧ q = wanted_quota d ∧ (∃ y, heard_subject ts y ∧ s_Username y = name ∧ uid = s_UID y) ∧
      ∃ h, home_allowed d name "" h ∧ ds = datasetOf (Dir_ h)
  | m_update _ _ => False
  end.
Lemma heard_mono ts ts' x : heard_subject ts x → ts ⊆ ts' → heard_subject ts' x.
Proof. intros (self & f & us & u & gs & H1 & H2 & H3 & ->) Hs. exists self, f, us, u, gs. auto. Qed.
Lemma resolved_mono ts ts' names ids : resolved ts names ids → ts ⊆ ts' → resolved ts' names ids.
Proof. intros [?|(gs & H1 & H2)] Hs; [by left|]. right. exists gs. auto. Qed.
Lemma own_group_mono ts ts' name gid i : own_group ts name gid i → ts ⊆ ts' → own_group ts' name gid i.
Proof. intros [?|(g & ? & H)] Hs; [by left; auto|]. right. exists g. auto. Qed.
Lemma touches_mono ts ts' d x m : touches ts d x m → ts ⊆ ts' → touches ts' d x m.
Proof.
  intros Ht Hs. destruct m; try done. destruct Ht as (? & Hg & ?). split_and!; [done| |tauto..].
  intros gs E. destruct (Hg gs E) as (? & ids & ? & ?). split; [done|]. exists ids. split; [by eapply resolved_mono|done].
Qed.
Lemma founds_mono ts ts' d name m : founds ts d name m → ts ⊆ ts' → founds ts' d name m.
Proof.
  intros Hf Hs. destruct m as [|c| |i|]; try done.
  - destruct Hf as (? & ? & Hg & ? & Ho). split_and!; [done..| |done|by eapply own_group_mono].
    destruct (cr_groups c); [|done]. destruct Hg. split; [done|by eapply resolved_mono].
  - destruct Hf as [gid ?]. exists gid. auto.
  - destruct Hf as (? & ? & (y & ? & ?) & ?). split_and!; [done..| |done]. exists y. split; [by eapply heard_mono|done].
Qed.
(** What was told is told in the whole. *)
Ltac told_later := first [eapply touches_mono|eapply founds_mono|eapply resolved_mono|eapply own_group_mono|eapply heard_mono]; [eassumption|set_solver].

Section touching.
Context {W : Type} `{!Nas W, !NasLog W, !Unicode} (sha256hex sha256 : string → string) (idFloor idCeiling : Z).
Implicit Types (req : ApplyRequest) (d : desiredState).

Lemma decideHome_path d name home uid :
  reads_for (decideHome d name home uid) (λ h _, hd_path h ≠ "" → home_allowed d name home (hd_path h)).
Proof.
  unfold decideHome. destruct (negb (managed d FieldHome) || negb (d_wantsHome d)) eqn:E1; [by apply reads_ret|].
  destruct (managed d FieldEnabled && negb (d_enabled d)) eqn:E2; [by apply reads_ret|].
  case_bool_decide; [by apply reads_ret|]. case_bool_decide; [by apply reads_ret|]. case_bool_decide as Hh; simpl; [|by apply reads_ret].
  apply orb_false_iff in E1 as [E1%negb_false_iff E3%negb_false_iff].
  assert (home_allowed d name home (PathJoin (d_homeRoot d) name)) as Ha.
  { split_and!; try done. intros Hm. rewrite Hm in E2. simpl in E2. by apply negb_false_iff in E2. }
  eapply reads_bind; [apply reads_any, reads_steady, steady_statOwner; apply _|]. intros owner ts _. apply reads_ret. by repeat case_match.
Qed.
Lemma quotaOwed_want d home uid :
  reads_for (quotaOwed d home uid) (λ o _, ∀ w, o = Some w →
    managed d FieldHomeQuota = true ∧ qo_want w = wanted_quota d ∧ home ≠ "" ∧ qo_dataset w = datasetOf (Dir_ home)).
Proof.
  unfold quotaOwed. destruct (_ || _) eqn:E; [by apply reads_ret|]. apply orb_false_iff in E as [[E%negb_false_iff Eh%bool_decide_eq_false]%orb_false_iff _].
  eapply reads_bind; [apply reads_any, reads_steady, steady_wrap, steady_homePlaces; apply _|]. intros ps ts _.
  destruct (negb _); [by apply reads_ret|]. case_bool_decide; [by apply reads_ret|].
  eapply reads_bind; [apply reads_any, reads_steady, steady_wrap, steady_on_nas; intros; apply obs_get_quota|]. intros rows ts' _.
  destruct (existsb _ _); [by apply reads_ret|]. destruct (_ && _); [by apply reads_ret|]. apply reads_ret. by intros ? [= <-].
Qed.
Lemma convergeQuota_calls d home uid :
  makes (convergeQuota d home uid) (λ r ms _,
    (ms = [] ∨ ms = [m_quota (datasetOf (Dir_ home)) uid (wanted_quota d)] ∧ managed d FieldHomeQuota = true ∧ home ≠ "") ∧ (r = inr "" → ms = [])).
Proof.
  unfold convergeQuota. eapply makes_bind; [apply quotaOwed_want|intros e ms ts [-> _]; auto|]. intros [o|] ms ts [-> Ho]; [|apply makes_ret; auto].
  destruct (Ho o eq_refl) as (Hm & Hw & Hh & Hd). eapply (makes_bind _ _ (λ _ ms _, ms = [m_quota (qo_dataset o) uid (qo_want o)])).
  - eapply (makes_wrap _ _ (λ _ ms _, ms = [m_quota (qo_dataset o) uid (qo_want o)])); [|done..].
    eapply (makes_on_nas_unit _ _ [_]); [|done]. intros w. apply log_set_quota.
  - intros e ms ts' ->. rewrite Hw, Hd. split; [by right|done].
  - intros _ ms ts' ->. apply makes_ret. rewrite Hw, Hd. split; [by right|]. unfold quotaWords. by case_match.
Qed.

Lemma makes_or_fail {A} (st : Err → Z) (m : M W A) (P : A → list Told → Prop) (k : A → M W Reply) (R : Err + Reply → list Mutation → list Told → Prop) :
  reads_for m P → (∀ e ts, R (inr (inl {| f_status := st e; f_err := e; f_stale := false |})) [] ts) →
  (∀ a ts, P a ts → makes (k a) (λ r ms ts', R r ms (ts ++ ts'))) → makes (or_fail st m k) R.
Proof.
  intros Hm He Hk. unfold or_fail. eapply makes_bind.
  - eapply (makes_attempt _ _ (λ r ms ts, match r with inr r => ms = [] ∧ match r with inr a => P a ts | inl _ => True end | inl _ => False end)); [exact Hm|done].
  - done.
  - intros [e|a] ms ts [-> Ha]; [apply makes_ret, He|]. by apply Hk.
Qed.
Lemma groupIndex_heard : reads_for groupIndex (λ g ts, ∃ gs, told_groups None gs ∈ ts ∧ g = index_groups gs).
Proof.
  unfold groupIndex, readGroups. eapply (reads_bind _ _ (λ gs ts, told_groups None gs ∈ ts)).
  - eapply reads_bind; [apply reads_wrap, reads_asking; intros w; apply log_group_query|]. intros gs ts ->.
    case_match; [apply reads_fails|apply reads_ret; set_solver].
  - intros gs ts Hg. apply reads_ret. exists gs. split; [set_solver|done].
Qed.
Lemma group_ids_some names :
  reads_for (group_ids names) (λ ids ts, match ids, names with Some ids, Some names => resolved ts names ids | None, None => True | _, _ => False end).
Proof.
  unfold group_ids. destruct names as [names|]; [|by apply reads_ret].
  eapply (reads_bind _ _ (λ ids ts, resolved ts names ids)).
  - unfold groupIDsFor. case_bool_decide; [apply reads_ret; by left|]. eapply reads_bind; [apply groupIndex_heard|]. intros g ts (gs & Hg & ->).
    unfold from_sum. intros s s' r [= <- <-]. exists [], []. rewrite !app_nil_r. split_and!; [done..|]. destruct (ids_for _ _) eqn:E; [done|]. right. eauto.
  - intros ids ts Hr. apply reads_ret. by rewrite app_nil_r.
Qed.
Lemma subjectWhere_heard f : reads_for (subjectWhere f) (λ r ts, ∀ x, r.1 = Some x → heard_subject ts x ∧ matches f x = true).
Proof.
  unfold subjectWhere, readSubjectsWhere. eapply (reads_bind _ _ (λ sn ts, ∀ x, x ∈ sn_Subjects sn → heard_subject ts x)).
  - eapply reads_bind; [apply reads_asking; intros w; apply log_user_query|]. intros us ts ->. cbv zeta.
    eapply reads_bind; [apply groupIndex_heard|]. intros g ts (gs & Hg & ->). intros s s' r [= <- <-]. exists [], []. rewrite !app_nil_r.
    split_and!; [done..|]. cbn [sn_Subjects]. intros x (u & -> & Hu)%list_elem_of_fmap. apply list_elem_of_filter in Hu as [_ Hu].
    exists (selfName (nas s)), f, us, u, gs. split_and!; [set_solver| |set_solver|done]. case_match; [|done]. eapply elem_of_take in Hu as (i & Hu & _). by eapply list_elem_of_lookup_2.
  - intros sn ts Hs. apply reads_ret. rewrite app_nil_r. cbn [fst]. intros x Hx. destruct (filter _ (sn_Subjects sn)) as [|y l] eqn:Ef; [done|].
    injection Hx as ->. assert (x ∈ filter (λ x, matches f x = true) (sn_Subjects sn)) as [??]%list_elem_of_filter by (rewrite Ef; by left). auto.
Qed.
Lemma readBack_heard name : reads_for (readBack name) (λ y ts, heard_subject ts y ∧ s_Username y = name).
Proof.
  unfold readBack. eapply reads_bind; [apply subjectWhere_heard|]. intros [[x|] cut] ts Hfound; simpl; [|apply reads_fails].
  apply reads_ret. destruct (Hfound x eq_refl) as [Hx Hn]. apply bool_decide_eq_true in Hn. by rewrite app_nil_r.
Qed.
Lemma emptyGroupNamed_heard name :
  reads_for (emptyGroupNamed idFloor idCeiling name) (λ r ts, ∀ i gid, r = Some (i, gid) → own_group ts name gid i).
Proof.
  unfold emptyGroupNamed. eapply (makes_bind _ _ (λ r ms ts, ms = [] ∧ match r with inr (inr gs) => ts = [told_groups (Some name) gs] | _ => True end)).
  - eapply makes_attempt; [apply (reads_asking _ (told_groups (Some name))); intros w; apply log_group_query|]. by intros [].
  - by intros e ms ts [-> _].
  - intros r ms ts [-> Hr]. destruct (idRange _ _). apply makes_ret. split; [done|]. rewrite app_nil_r. destruct r as [|[|g [|]]]; try done.
    destruct (_ && _) eqn:E; [|done]. rewrite !andb_true_iff in E. destruct E as [[[[Eb Eu] _] _] _]. intros i gid [= <- <-]. right. exists g.
    apply negb_true_iff in Eb. apply bool_decide_eq_true in Eu. subst ts. split_and!; [set_solver|done..].
Qed.
(** *** Converging *)
Definition convergent d (x : Subject) (r : Err + Reply) (ms : list Mutation) (ts : list Told) : Prop :=
  Forall (touches ts d x) ms ∧
  match r with
  | inl _ => False
  | inr (inl f) => f_stale f = false
  | inr (inr (o, st)) => st = 200%Z ∧ (ao_Effect o = EffectApplied ∨ ao_Effect o = EffectNoChange ∧ ms = [])
  end.
Lemma decided_touches ts d x home ids :
  match ids, c_groups (decide_ (Some x) d no_home) with Some ids, Some names => resolved ts names ids | None, None => True | _, _ => False end →
  (hd_path home ≠ "" → home_allowed d (s_Username x) (s_Home x) (hd_path home)) →
  touches ts d x (m_update (s_ID x) (update_of (decide_ (Some x) d home) ids x home)).
Proof.
  intros Hi Hh. split_and!; [done|..]; unfold update_of; cbn [up_groups up_locked up_smb up_home].
  - intros gs. destruct ids as [ids|]; [|done]. intros [= <-]. simpl in Hi. destruct (managed d FieldGroup); [|done]. simpl in Hi.
    destruct (negb _); [|done]. split; [done|]. by exists ids.
  - intros l Hl. simpl in Hl. destruct (managed d FieldEnabled); [|done]. simpl in Hl. case_bool_decide; [done|]. by injection Hl as <-.
  - intros b Hb. simpl in Hb. destruct (managed d FieldSMBEnabled); [|done]. simpl in Hb. destruct (_ && _) eqn:E; [|done]. injection Hb as <-.
    apply andb_true_iff in E as [_ E%negb_true_iff]. done.
  - intros p. case_bool_decide as Hp; simpl; [done|]. intros [= <-]. auto.
Qed.
Lemma quota_touches ts d x home ms :
  (hd_path home ≠ "" → home_allowed d (s_Username x) (s_Home x) (hd_path home)) →
  let h := if hd_path home <>? "" then hd_path home else s_Home x in
  (ms = [] ∨ ms = [m_quota (datasetOf (Dir_ h)) (s_UID x) (wanted_quota d)] ∧ managed d FieldHomeQuota = true ∧ h ≠ "") →
  Forall (touches ts d x) ms.
Proof.
  intros Hh h [->|(-> & Hm & _)]; [done|]. constructor; [|done]. split_and!; [done..|]. exists h. split; [|done].
  subst h. case_bool_decide; simpl; auto.
Qed.
Lemma makes_attempt_bind {A B} (m : M W A) (k : Err + A → M W B) Q (R : Err + B → list Mutation → list Told → Prop) :
  makes m Q → (∀ r ms ts, Q r ms ts → makes (k r) (λ r' ms' ts', R r' (ms ++ ms') (ts ++ ts'))) → makes (attempt m ≫= k) R.
Proof.
  intros Hm Hk. eapply (makes_bind _ _ (λ r ms ts, match r with inr r => Q r ms ts | inl _ => False end)); [by eapply makes_attempt|done|]. intros r ms ts. apply Hk.
Qed.
Lemma record_quiet a b c e f (s : Server W) : nas (record a b c e f s).1 = nas s ∧ ∃ u, (record a b c e f s).2 = inr u.
Proof. split; [done|by eexists]. Qed.
Lemma converge_calls req d x : makes (converge sha256hex req d x) (convergent d x).
Proof.
  unfold converge. eapply makes_or_fail; [apply group_ids_some|by split|]. intros ids ts1 Hids.
  eapply makes_or_fail; [apply decideHome_path|by split|]. intros home ts2 Hhome.
  destruct (writes _); cbn [negb].
  - unfold or_fail. eapply (makes_attempt_bind _ _ (λ _ ms _, ms = [m_update (s_ID x) (update_of (decide_ (Some x) d home) ids x home)])).
    { eapply (makes_on_nas_unit _ _ [_]); [|done]. intros w. apply log_user_update. }
    pose proof (decided_touches ts1 d x home ids Hids Hhome) as Ht. intros [e|_] ms ts3 ->; [apply makes_ret; split; [constructor; [told_later|done]|done]|].
    eapply makes_attempt_bind; [apply readBack_heard|]. intros [e|y] ms ts4 [-> _]; simpl.
    + apply makes_quiet; [apply record_quiet|]. intros []. apply makes_ret. split; [constructor; [told_later|done]|]. split; [done|by left].
    + eapply makes_attempt_bind; [apply convergeQuota_calls|]. intros q ms ts5 [Hq _].
      apply makes_quiet; [apply record_quiet|]. intros []. apply makes_ret. rewrite app_nil_r. split; [|split; [done|by left]].
      constructor; [told_later|]. exact (quota_touches _ d x home _ Hhome Hq).
  - unfold or_fail. eapply makes_attempt_bind; [apply convergeQuota_calls|]. intros r ms ts3 [Hq Hn].
    assert (∀ ts, Forall (touches ts d x) ms) as Ht by (intros; exact (quota_touches _ d x home _ Hhome Hq)). clear Hq. destruct r as [e|q].
    + apply makes_ret. rewrite app_nil_r. by split.
    + case_bool_decide as Eq; simpl.
      * subst q. rewrite (Hn eq_refl). destruct (_ && _); apply makes_ret; (split; [done|]; split; [done|by right]).
      * apply makes_quiet; [apply record_quiet|]. intros []. apply makes_ret. rewrite app_nil_r. split; [done|]. split; [done|by left].
Qed.
(** *** Founding *)
Definition founding d (name : string) (r : Err + Reply) (ms : list Mutation) (ts : list Told) : Prop :=
  Forall (founds ts d name) ms ∧
  match r with
  | inl _ => False
  | inr (inl f) => f_stale f = false
  | inr (inr (o, st)) => st = 200%Z ∧ ao_Effect o = EffectApplied
  end.
Lemma undo_calls adopted i :
  makes (undo_unless adopted i) (λ r ms _, (∃ u, r = inr u) ∧ (ms = [] ∨ adopted = false ∧ ms = [m_group_delete i])).
Proof.
  unfold undo_unless, undoGroup. destruct adopted; [apply makes_ret; split; [by eexists|by left]|].
  destruct (negb _); [apply makes_ret; split; [by eexists|by left]|].
  eapply (makes_attempt_bind _ _ (λ _ ms _, ms = [m_group_delete i])).
  { eapply (makes_on_nas_unit _ _ [_]); [|done]. intros w. apply log_group_delete. }
  intros r ms ts ->. apply makes_ret. split; [by eexists|by right].
Qed.
Lemma personal_group_calls name number :
  makes (personal_group idFloor idCeiling name number) (λ r ms ts, ms = [m_group name number] ∧
    match r with inr (i, gid, adopted) => own_group ts name gid i ∧ (adopted = false → told_made name gid i ∈ ts) | inl _ => True end).
Proof.
  unfold personal_group. eapply (makes_attempt_bind _ _ (λ r ms ts, ms = [m_group name number] ∧ match r with inr i => told_made name number i ∈ ts | _ => True end)).
  { eapply (makes_on_nas _ [_]); [intros w; apply log_group_create|]. intros []; (split; [done|]); [done|by left]. }
  intros [e|i] ms ts [-> Hi]; [|apply makes_ret; rewrite !app_nil_r; split; [done|]; split; [by left|done]].
  eapply makes_bind; [apply emptyGroupNamed_heard|by intros ? ms' ts' [-> _]|].
  intros [[j gid]|] ms' ts' [-> Ho]; [|by apply makes_fails]. apply makes_ret. split; [done|]. split; [|done].
  eapply own_group_mono; [by apply Ho|set_solver].
Qed.
Lemma undo_then_fail d name ms ts gid adopted i f :
  Forall (founds ts d name) ms → (adopted = false → told_made name gid i ∈ ts) → f_stale f = false →
  makes (undo_unless adopted i ≫= λ _, mret (inl f)) (λ r ms' ts', founding d name r (ms ++ ms') (ts ++ ts')).
Proof.
  intros Hm Ha Hf. eapply makes_bind; [apply undo_calls|by intros e ? ? [[? [=]] _]|]. intros u ms' ts' [_ Hu]. apply makes_ret. rewrite app_nil_r.
  split; [|done]. apply Forall_app. split; [eapply Forall_impl; [exact Hm|intros; told_later]|].
  destruct Hu as [->|[Had ->]]; [done|]. constructor; [|done]. exists gid. specialize (Ha Had). set_solver.
Qed.
Lemma create_founds ts1 ts d name ids number groupID home :
  match ids, c_groups (decide_ None d no_home) with Some ids, Some names => resolved ts1 names ids | None, None => True | _, _ => False end →
  ts1 ⊆ ts → own_group ts name number groupID → (hd_path home ≠ "" → home_allowed d name "" (hd_path home)) →
  founds ts d name (m_create {| cr_username := name; cr_locked := default false (c_locked (decide_ None d no_home)); cr_groups := ids; cr_uid := number;
    cr_group := groupID; cr_home := if hd_path home <>? "" then Some (hd_path home) else None |}).
Proof.
  intros Hi Hs Ho Hh. split_and!; cbn [cr_username cr_locked cr_groups cr_home cr_uid cr_group]; [done|..|done].
  - simpl. by destruct (managed d FieldEnabled).
  - revert Hi. simpl. destruct (managed d FieldGroup), ids; simpl; try done. split; [done|by eapply resolved_mono].
  - intros p. case_bool_decide; simpl; [done|]. intros [= <-]. auto.
Qed.
Lemma create_calls req d b : makes (createAndConverge sha256hex idFloor idCeiling req d b)
  (λ r ms ts, founding d (b_Username b) r ms ts ∧ (ms ≠ [] → ValidUsername (b_Username b) = true)).
Proof.
  unfold createAndConverge. set (name := b_Username b). destruct (ValidUsername name) eqn:Hv; cbn [negb]; [|by apply makes_ret].
  eapply makes_weaken with (Q := founding d name); [|auto].
  eapply makes_or_fail; [apply group_ids_some|by split|]. intros ids ts1 Hids.
  eapply makes_or_fail; [apply reads_any, reads_steady, steady_nextIdentity; apply _|by split|]. intros number ts2 _.
  unfold or_fail at 1. eapply makes_attempt_bind; [apply personal_group_calls|]. intros [e|[[groupID num] adopted]] ms ts3 [-> Hgr].
  { apply makes_ret. split; [by constructor|done]. }
  destruct Hgr as [Hgr Hmade]. set (ts := ts1 ++ ts2 ++ ts3).
  eapply makes_weaken with (Q := λ r ms' ts', founding d name r ([m_group name number] ++ ms') (ts ++ ts'));
    [|intros r ms ts'; unfold ts; by rewrite <-!(assoc_L (++))].
  eapply makes_attempt_bind; [apply decideHome_path|]. intros [e|home] ms ts4 [-> Hhome].
  { eapply makes_weaken; [apply (undo_then_fail d name [m_group name number] (ts ++ ts4) num); [by constructor|set_solver|done]|].
    intros r ms ts'. cbn beta. by rewrite <-(assoc_L (++)). }
  set (cr := Build_Create _ _ _ _ _ _).
  assert (founds ts d name (m_create cr)) as Hcr by (apply (create_founds ts1); [done|set_solver|told_later|done]).
  eapply (makes_attempt_bind _ _ (λ _ ms _, ms = [m_create cr])).
  { eapply (makes_on_nas _ [_] (λ _, [])); [|done]. intros w. apply log_user_create. }
  intros [e|i] ms ts5 ->; simpl app.
  { eapply makes_weaken; [apply (undo_then_fail d name [m_group name number; m_create cr] (ts ++ ts4 ++ ts5) num)|].
    - constructor; [done|]. constructor; [told_later|done].
    - set_solver.
    - done.
    - intros r ms ts'. cbn beta. by rewrite <-!(assoc_L (++)). }
  eapply makes_attempt_bind; [apply readBack_heard|]. intros back ms ts6 [-> Hback]. simpl app.
  unfold or_fail. eapply makes_attempt_bind; [apply reads_any, reads_steady, steady_wrap, steady_bind_created; apply _|]. intros [e|[]] ms ts7 [-> _]; simpl app.
  { apply makes_ret. split; [|done]. constructor; [done|]. constructor; [told_later|done]. }
  destruct back as [e|created]; [apply makes_ret; split; [|done]; constructor; [done|]; constructor; [told_later|done]|].
  eapply makes_attempt_bind; [apply convergeQuota_calls|]. intros q ms ts8 [Hq _]. apply makes_quiet; [apply record_quiet|]. intros [].
  apply makes_ret. rewrite !app_nil_r. split; [|done]. constructor; [done|]. constructor; [told_later|].
  destruct Hq as [->|(-> & Hm & Hne)]; [done|]. constructor; [|done]. destruct Hback as [Hy Hyn]. split_and!; [done..| |eauto].
  exists created. split_and!; [told_later|done..].
Qed.
(** *** Whose account it is *)
Lemma giving_inv {A} (m : M W A) k s s' l :
  giving m k s = (s', inr (inr l)) → ∃ s1 a, m s = (s1, inr a) ∧ k a s1 = (s', inr (inr l)).
Proof.
  unfold giving, mbind, M_bind, attempt. destruct (m s) as [s1 [e|a]]; [by intros [=]|]. eauto.
Qed.
Lemma reading_store_inv {A} op (f : Store → A) s s' a : reading_store op f s = (s', inr a) → s' = s ∧ a = f (store s).
Proof. unfold reading_store. case_match; by intros [= <- <-]. Qed.
Lemma bind_inv {A B} (m : M W A) (k : A → M W B) s s' b :
  (m ≫= k) s = (s', inr b) → ∃ s1 a, m s = (s1, inr a) ∧ k a s1 = (s', inr b).
Proof. unfold mbind, M_bind. destruct (m s) as [s1 [e|a]]; [by intros [=]|]. eauto. Qed.
Lemma subjectWhere_inv f s s' x cut : subjectWhere f s = (s', inr (Some x, cut)) → matches f x = true.
Proof.
  unfold subjectWhere. intros (s1 & snap & _ & E)%bind_inv. injection E as _ E _.
  destruct (filter (λ x, matches f x = true) (sn_Subjects snap)) as [|y l] eqn:Ef; [done|]. injection E as ->.
  assert (x ∈ filter (λ x, matches f x = true) (sn_Subjects snap)) as Hx by (rewrite Ef; by left). by apply list_elem_of_filter in Hx as [? _].
Qed.
(** The account this binding is of: its name, with its number where the number is
    this add-on's; or, under another name, that number. *)
Definition bound_account (b : Binding) (x : Subject) : Prop :=
  (s_Username x = b_Username b ∧ (in_range idFloor idCeiling (b_UID b) = true → s_UID x = b_UID b)) ∨
  (in_range idFloor idCeiling (b_UID b) = true ∧ s_UID x = b_UID b).
Definition located_for (st : Store) req (l : Located) : Prop :=
  match lo_current l, bindings st !! aq_Subject req with
  | Some x, Some b => bound_account b x
  | Some _, None => False
  | None, Some b => b_Username (lo_binding l) = b_Username b
  | None, None => b_Username (lo_binding l) = derived_name sha256 (BoundUsernames st) (aq_Email req) (aq_Subject req) ∧ TrimSpace (aq_Email req) ≠ ""
  end.
Lemma save_at b x b' t s s' l :
  (_ ← saveBinding b; at_ x b' None t) s = (s', inr (inr l)) → lo_current l = x ∧ lo_binding l = b'.
Proof. intros (s1 & [] & _ & E)%bind_inv. by injection E as _ <-. Qed.
Lemma locate_spec req s s' l :
  locate sha256 idFloor idCeiling req s = (s', inr (inr l)) → lo_conflict l = None → located_for (store s) req l.
Proof.
  unfold locate, located_for. intros (s1 & bound & [-> ->]%reading_store_inv & E)%giving_inv Hc. destruct (bindings (store s) !! aq_Subject req) as [b|] eqn:Eb.
  - apply giving_inv in E as (s1 & [[x|] cut] & Ex & E).
    + apply subjectWhere_inv in Ex. simpl in Ex. apply bool_decide_eq_true in Ex.
      destruct (in_range idFloor idCeiling (b_UID b)) eqn:Er; simpl in E.
      * destruct (Z.eqb_spec (s_UID x) (b_UID b)); simpl in E; injection E as _ <-; [|done]. simpl. by left.
      * destruct (in_range idFloor idCeiling (s_UID x)); [apply save_at in E as [-> _]|injection E as _ <-]; left; by rewrite Er.
    + destruct (in_range idFloor idCeiling (b_UID b)) eqn:Er; simpl in E; [|by injection E as _ <-].
      apply giving_inv in E as (s2 & [[x|] cut'] & Ey & E); [|by injection E as _ <-]. apply subjectWhere_inv in Ey. simpl in Ey.
      apply Z.eqb_eq in Ey. apply save_at in E as [-> _]. by right.
  - case_bool_decide as Hm; [by injection E|]. apply giving_inv in E as (s1 & claimed & [-> ->]%reading_store_inv & E).
    apply giving_inv in E as (s2 & [[x|] cut] & _ & E); injection E as _ <-; [done|]. by split.
Qed.
Lemma reads_giving {A} (m : M W A) k (P : A → list Told → Prop) (Q : LocateError + Located → list Told → Prop) :
  reads_for m P → (∀ e ts, Q (inl (locate_failed e)) ts) → (∀ a ts, P a ts → reads_for (k a) (λ l ts', Q l (ts ++ ts'))) → reads_for (giving m k) Q.
Proof.
  intros Hm He Hk. unfold giving. eapply makes_attempt_bind; [exact Hm|]. intros [e|a] ms ts [-> Ha]; [by apply reads_ret|]. exact (Hk a ts Ha).
Qed.
(** The account that was found is as it was told. *)
Lemma locate_heard req :
  reads_for (locate sha256 idFloor idCeiling req) (λ r ts, ∀ l x, r = inr l → lo_current l = Some x → heard_subject ts x).
Proof.
  assert (∀ {A} op (f : Store → A), reads_for (reading_store op f) (λ _ _, True)) as Hst
    by (intros; apply reads_any, reads_steady, steady_store; apply _).
  assert (∀ x b c t (F : list Told → list Told), (∀ y ts, x = Some y → heard_subject (F ts) y) →
    reads_for (W := W) (at_ x b c t) (λ r ts, ∀ l y, r = inr l → lo_current l = Some y → heard_subject (F ts) y)) as Hat.
  { intros x b c t F Hx. apply reads_ret. intros l y [= <-]. apply Hx. }
  assert (∀ b' x b c t (F : list Told → list Told), (∀ y ts, x = Some y → heard_subject (F ts) y) →
    reads_for (W := W) (_ ← saveBinding b'; at_ x b c t) (λ r ts, ∀ l y, r = inr l → lo_current l = Some y → heard_subject (F ts) y)) as Hsave.
  { intros b' x b c t F Hx. eapply makes_quiet; [|intros _; by apply Hat]. intros s. unfold saveBinding, writing_store. destruct (store_fails _ _); (split; [done|by eexists]). }
  unfold locate. eapply reads_giving; [apply Hst|done|]. intros [b|] ts0 _.
  - eapply reads_giving; [apply subjectWhere_heard|done|]. intros [[x|] cut] ts1 Hx.
    + assert (∀ y ts', Some x = Some y → heard_subject (ts0 ++ ts1 ++ ts') y) as Hy by (intros y ts' [= <-]; destruct (Hx x eq_refl); told_later).
      destruct (_ && _); [by apply reads_ret; intros ? ? [= <-]|]. destruct (_ && _); [by apply Hsave|by apply Hat].
    + destruct (negb _); [by apply reads_ret; intros ? ? [= <-]|]. eapply reads_giving; [apply subjectWhere_heard|done|].
      intros [[x|] cut'] ts2 Hy; [|by apply reads_ret; intros ? ? [= <-]].
      apply Hsave. intros y ts' [= <-]. destruct (Hy x eq_refl). told_later.
  - case_bool_decide; [by apply reads_ret|]. eapply reads_giving; [apply Hst|done|]. intros claimed ts1 _.
    eapply reads_giving; [apply subjectWhere_heard|done|]. intros [[x|] cut] ts2 _; apply reads_ret; by intros ? ? [= <-].
Qed.

(** *** The whole apply *)
(** The calls of an apply, the reply they go with, and what authorised them. *)
Definition authorised_calls (st : Store) req d (ms : list Mutation) (ts : list Told) : Prop :=
  (∃ x b, bindings st !! aq_Subject req = Some b ∧ bound_account b x ∧ heard_subject ts x ∧
     aq_Fingerprint req = fingerprintSubject sha256hex (Some x) ∧ Forall (touches ts d x) ms) ∨
  (∃ name, ValidUsername name = true ∧
     name = match bindings st !! aq_Subject req with
            | Some b => b_Username b
            | None => derived_name sha256 (BoundUsernames st) (aq_Email req) (aq_Subject req)
            end ∧
     aq_Fingerprint req = fingerprintSubject sha256hex None ∧ Forall (founds ts d name) ms).
Lemma decodeDesired_keeps raw s : (decodeDesired raw s).1 = s.
Proof.
  unfold decodeDesired. destruct (decodeDesiredFields raw) as [d|]; [|done]. destruct (negb _); [done|].
  unfold homeRoot, wrap, reading_store, mbind, M_bind. by destruct (store_fails _ _).
Qed.
Lemma or_fail_run {A} (st : Err → Z) (m : M W A) k s :
  or_fail st m k s = match m s with
                     | (s1, inl e) => (s1, inr (inl {| f_status := st e; f_err := e; f_stale := false |}))
                     | (s1, inr a) => k a s1
                     end.
Proof. unfold or_fail, mbind, M_bind, attempt, failing. by destruct (m s) as [s1 [e|a]]. Qed.
Lemma bind_run {A B} (m : M W A) (k : A → M W B) s :
  (m ≫= k) s = match m s with (s1, inl e) => (s1, inl e) | (s1, inr a) => k a s1 end.
Proof. done. Qed.
(** A conclusion with the wanted state of SMB remembered after it. *)
Lemma remember_quiet subject d reply (s : Server W) :
  nas (rememberWantedSMB subject d reply s).1 = nas s ∧ ∃ u, (rememberWantedSMB subject d reply s).2 = inr u.
Proof.
  unfold rememberWantedSMB. destruct (_ && _); [|split; [done|by eexists]]. destruct (store_fails _ _); [split; [done|by eexists]|].
  destruct (bindings _ !! _); [|split; [done|by eexists]]. unfold saveBinding, writing_store. destruct (store_fails _ _); (split; [done|by eexists]).
Qed.
Lemma then_remember req d (m : M W Reply) Q :
  makes m Q → makes (out ← m; _ ← rememberWantedSMB (aq_Subject req) d out; mret out) Q.
Proof.
  intros Hm. eapply makes_bind; [exact Hm|done|]. intros out ms ts HQ. apply makes_quiet; [apply remember_quiet|]. intros _. apply makes_ret.
  by rewrite !app_nil_r.
Qed.
Definition never_fails {A} (m : M W A) : Prop := ∀ s, is_Some (match (m s).2 with inr a => Some a | inl _ => None end).
Lemma giving_never {A} (m : M W A) k : (∀ a, never_fails (k a)) → never_fails (giving m k).
Proof. intros Hk s. unfold giving, mbind, M_bind, attempt. destruct (m s) as [s1 [e|a]]; [by eexists|apply Hk]. Qed.
Lemma save_at_never b x b' t : never_fails (_ ← saveBinding b; at_ x b' None t).
Proof. intros s. unfold saveBinding, mbind, M_bind. destruct (writing_store _ _ _) as [s1 [|]]; by eexists. Qed.
Lemma at_never x b c t : never_fails (at_ x b c t).
Proof. intros s. by eexists. Qed.
Lemma locate_never req : never_fails (locate sha256 idFloor idCeiling req).
Proof.
  unfold locate. apply giving_never. intros [b|].
  - apply giving_never. intros [[x|] cut]; [repeat case_match; apply at_never || apply save_at_never|]. destruct (negb _); [apply at_never|].
    apply giving_never. intros [[y|] cut']; [apply save_at_never|apply at_never].
  - case_bool_decide; [intros s; by eexists|]. apply giving_never. intros claimed. apply giving_never. intros [[x|] cut]; apply at_never.
Qed.
Lemma applyOne_calls req s s' r :
  applyOne sha256hex sha256 idFloor idCeiling req s = (s', r) →
  ∃ ms ts, mutations (nas s') = mutations (nas s) ++ ms ∧ told (nas s') = told (nas s) ++ ts ∧
    (ms = [] ∨ ∃ d, (decodeDesired (aq_Desired req) s).2 = inr d ∧ authorised_calls (store s) req d ms ts) ∧
    match r with
    | inl _ => False
    | inr (inl f) => f_stale f = true → ms = []
    | inr (inr (o, _)) => ao_Effect o ≠ EffectApplied → ms = []
    end.
Proof.
  unfold applyOne. rewrite or_fail_run. pose proof (decodeDesired_keeps (aq_Desired req) s) as Hk. destruct (decodeDesired (aq_Desired req) s) as [s0 [e|d]] eqn:Ed; simpl in Hk; subst s0.
  { intros [= <- <-]. exists [], []. by rewrite !app_nil_r; auto. }
  rewrite bind_run. pose proof (locate_never req s) as Hn. destruct (locate sha256 idFloor idCeiling req s) as [s1 l] eqn:El.
  destruct (locate_heard req _ _ _ El) as (ms & ts1 & Hms & Hts & -> & Hheard).
  destruct l as [e|[[|e]|l]]; [by destruct Hn|intros [= <- <-]; exists [], ts1; auto..|].
  destruct (lo_conflict l) eqn:Ec; [intros [= <- <-]; exists [], ts1; auto|]. pose proof (locate_spec _ _ _ _ El Ec) as Hl. unfold located_for in Hl.
  case_bool_decide as Ef; cbn [negb]; [|intros [= <- <-]; exists [], ts1; auto]. rewrite app_nil_r in Hms. destruct (lo_current l) as [x|] eqn:Ex.
  - intros E. destruct (then_remember req d _ _ (converge_calls req d x) _ _ _ E) as (ms & ts2 & Hms' & Hts' & Ht & Hr).
    exists ms, (ts1 ++ ts2). rewrite Hms', Hms, Hts', Hts, (assoc_L (++)). split_and!; [done..| |].
    + destruct (bindings (store s) !! aq_Subject req) as [b|] eqn:Eb; [|done]. specialize (Hheard l x eq_refl Ex).
      right. exists d. split; [done|]. left. exists x, b. split_and!; [done..|told_later|done|]. eapply Forall_impl; [exact Ht|intros; told_later].
    + destruct r as [|[f|[o st]]]; [done|congruence|]. destruct Hr as [_ [?|[_ ->]]]; [done|done].
  - destruct (lo_truncated l); [intros [= <- <-]; exists [], ts1; rewrite app_nil_r; auto|]. intros E.
    destruct (then_remember req d _ _ (create_calls req d (lo_binding l)) _ _ _ E) as (ms & ts2 & Hms' & Hts' & [Ht Hr] & Hv).
    exists ms, (ts1 ++ ts2). rewrite Hms', Hms, Hts', Hts, (assoc_L (++)). split_and!; [done..| |destruct r as [|[f|[o st]]]; [done|congruence|by destruct Hr]].
    destruct (decide (ms = [])) as [|Hne]; [by left|]. right. exists d. split; [done|]. right. exists (b_Username (lo_binding l)).
    split_and!; [auto| |done|eapply Forall_impl; [exact Ht|intros; told_later]]. by destruct (bindings (store s) !! aq_Subject req) as [b|]; [|destruct Hl].
Qed.
End touching.

(** ** The target's accounts *)
Definition selected (f : Filter) (u : nasUser) : bool :=
  match f with every_user => true | by_username n => u_Username u =? n | by_uid n => (u_UID u =? n)%Z end.
Definition updated (p : Update) (u : nasUser) : nasUser :=
  {| u_ID := u_ID u; u_Username := u_Username u; u_UID := u_UID u; u_Locked := default (u_Locked u) (up_locked p);
     u_SMB := default (u_SMB u) (up_smb p); u_PasswordDisabled := u_PasswordDisabled u; u_Builtin := u_Builtin u;
     u_Groups := default (u_Groups u) (up_groups p); u_Home := default (u_Home u) (up_home p) |}.
(** What the calls read of the accounts and groups and do to them; a failed
    update may have done anything. *)
Class NasModel (W : Type) `{!Nas W} := {
  accounts : W → list nasUser;
  groups_on : W → list nasGroup;
  table w : list nasUser * list nasGroup := (accounts w, groups_on w);
  user_query_reads w f w' us : user_query w f = (w', inr us) → us = take (S subjectReadCap) (filter (λ u, selected f u = true) (accounts w));
  group_query_reads w w' gs : group_query w None = (w', inr gs) → gs = take (S subjectReadCap) (groups_on w);
  keep_user_query w f : table (user_query w f).1 = table w;
  keep_group_query w n : table (group_query w n).1 = table w;
  keep_highest_uid w a b : table (highest_uid w a b).1 = table w;
  keep_highest_gid w a b : table (highest_gid w a b).1 = table w;
  keep_stat w p : table (filesystem_stat w p).1 = table w;
  keep_get_quota w ds uid : table (get_quota w ds uid).1 = table w;
  keep_set_quota w ds uid q : table (set_quota w ds uid q).1 = table w;
  keep_readACLs w : table (readACLs w).1 = table w;
  user_update_writes w i p w' : user_update w i p = (w', None) →
    table w' = ((λ u, if u_ID u =? i then updated p u else u) <$> accounts w, groups_on w);
}.
#[export] Instance Observes_table `{!Nas W, !NasModel W} : ObservesWork (same (λ s : Server W, table (nas s))).
Proof.
  repeat split; intros; simpl; first [apply keep_user_query|apply keep_group_query|apply keep_highest_uid|apply keep_highest_gid|apply keep_stat|apply keep_get_quota
    |apply keep_readACLs|done].
Qed.

(** *** Groups, by key and by name *)
Definition groups_ok (gs : list nasGroup) : Prop :=
  NoDup (gr_Name <$> gs) ∧ NoDup (id_String ∘ gr_ID <$> gs) ∧ length gs ≤ subjectReadCap.
Lemma index_snoc gs g : index_groups (gs ++ [g]) = index_group (index_groups gs) g.
Proof. unfold index_groups. by rewrite foldl_app. Qed.
Lemma byName_spec gs n i : NoDup (gr_Name <$> gs) → byName (index_groups gs) !! n = Some i ↔ ∃ g, g ∈ gs ∧ gr_Name g = n ∧ gr_ID g = i.
Proof.
  induction gs as [|g gs IH] using rev_ind; [split; [done|by intros (? & ?%not_elem_of_nil & _)]|].
  rewrite fmap_app, index_snoc. intros (H1 & H2 & _)%NoDup_app. simpl. destruct (decide (gr_Name g = n)) as [<-|Hne].
  - rewrite lookup_insert_eq. split; [intros [= <-]; exists g; set_solver|]. intros (g' & [Hg|Hg%list_elem_of_singleton]%elem_of_app & En & <-); [|by subst].
    destruct (H2 (gr_Name g')); [by apply list_elem_of_fmap_2|]. rewrite En. by left.
  - rewrite lookup_insert_ne by done. rewrite IH by done. split; intros (g' & Hg & En & Ei); exists g'; [set_solver|].
    apply elem_of_app in Hg as [|Hg%list_elem_of_singleton]; [done|]. by subst.
Qed.
Lemma byID_spec gs t n : NoDup (id_String ∘ gr_ID <$> gs) →
  byID (index_groups gs) !! t = Some n ↔ ∃ g, g ∈ gs ∧ id_String (gr_ID g) = t ∧ gr_Name g = n.
Proof.
  induction gs as [|g gs IH] using rev_ind; [split; [done|by intros (? & ?%not_elem_of_nil & _)]|].
  rewrite fmap_app, index_snoc. intros (H1 & H2 & _)%NoDup_app. simpl. destruct (decide (id_String (gr_ID g) = t)) as [<-|Hne].
  - rewrite lookup_insert_eq. split; [intros [= <-]; exists g; set_solver|]. intros (g' & [Hg|Hg%list_elem_of_singleton]%elem_of_app & En & <-); [|by subst].
    destruct (H2 (id_String (gr_ID g'))); [apply list_elem_of_fmap; by exists g'|]. rewrite En. by left.
  - rewrite lookup_insert_ne by done. rewrite IH by done. split; intros (g' & Hg & En & Ei); exists g'; [set_solver|].
    apply elem_of_app in Hg as [|Hg%list_elem_of_singleton]; [done|]. by subst.
Qed.
(** A group's name, unless it is the machine's; and the reverse. *)
Definition named (g : Groups) (i : apiID) : option string := n ← byID g !! id_String i; if bool_decide (n ∈ builtin g) then None else Some n.
Definition machines (g : Groups) (i : apiID) : bool :=
  bool_decide (is_Some (n ← byID g !! id_String i; if bool_decide (n ∈ builtin g) then Some n else None)).
Lemma machines_named g i : machines g i = true → named g i = None.
Proof.
  unfold machines, named. intros [n Hn]%bool_decide_eq_true. destruct (byID g !! id_String i) as [m|]; [|done]. simpl in *. by case_bool_decide.
Qed.
Lemma named_machines g i n : named g i = Some n → machines g i = false.
Proof.
  unfold machines, named. destruct (byID g !! id_String i) as [m|]; simpl; [|done]. intros E. apply bool_decide_eq_false. case_bool_decide; [done|]. by intros [].
Qed.
Lemma ids_for_named gs names ids :
  groups_ok gs → ids_for (index_groups gs) names = inr ids → Forall2 (λ n i, named (index_groups gs) i = Some n) names ids.
Proof.
  intros (Hn & Hi & _). revert ids. induction names as [|n names IH]; intros ids; simpl; [intros [= <-]; constructor|].
  case_bool_decide as Hb; [done|]. destruct (byName _ !! n) as [i|] eqn:E; [|done]. destruct (ids_for _ names) as [|ids'] eqn:E'; [done|]. intros [= <-].
  constructor; [|by apply IH]. apply byName_spec in E as (g & Hg & <- & <-); [|done]. unfold named.
  assert (byID (index_groups gs) !! id_String (gr_ID g) = Some (gr_Name g)) as -> by (apply byID_spec; eauto). simpl. by rewrite bool_decide_false.
Qed.
(** Written as keys with the machine's groups after them, the names come back. *)
Lemma written_names_read g names ids bids :
  Forall2 (λ n i, named g i = Some n) names ids → Forall (λ i, machines g i = true) bids →
  omap (named g) (ids ++ bids) = names ∧ filter (λ i, machines g i = true) (ids ++ bids) = bids.
Proof.
  intros Hn Hb. rewrite omap_app, filter_app. assert (omap (named g) ids = names ∧ filter (λ i, machines g i = true) ids = []) as [-> ->].
  { clear Hb. induction Hn as [|n i names ids H1 _ [IH1 IH2]]; [done|]. csimpl. rewrite H1. split; [by rewrite IH1|].
    rewrite filter_cons_False; [done|]. by rewrite (named_machines _ _ _ H1). }
  assert (omap (named g) bids = [] ∧ filter (λ i, machines g i = true) bids = bids) as [-> ->].
  { induction Hb as [|i bids H1 _ [IH1 IH2]]; [done|]. csimpl. rewrite (machines_named _ _ H1), IH1. split; [done|].
    rewrite filter_cons_True by done. by rewrite IH2. }
  by rewrite app_nil_r.
Qed.

(** *** What a convergence leaves *)
(** The account's groups, lock and SMB wanted off are as wanted where the request
    manages them. SMB wanted on, a home and its limit are not part of it. *)
Definition settled (d : desiredState) (y : Subject) : Prop :=
  (managed d FieldGroup = true → s_Groups y ≡ₚ d_groups d) ∧ (managed d FieldEnabled = true → s_Enabled y = d_enabled d) ∧
  (managed d FieldSMBEnabled = true → d_smbEnabled d = false → s_SMBEnabled y = false).
(** The fields that are not managed, and the machine's groups, are as they were;
    so is SMB where it is wanted on (it comes on with a password, not here); and the
    home is what it was, or the one the request may give an account without one. *)
Definition kept_fields (d : desiredState) (x y : Subject) : Prop :=
  s_ID y = s_ID x ∧ s_Username y = s_Username x ∧ s_UID y = s_UID x ∧ s_builtinGroups y = s_builtinGroups x ∧
  (managed d FieldGroup = false → s_Groups y = s_Groups x) ∧ (managed d FieldEnabled = false → s_Enabled y = s_Enabled x) ∧
  (managed d FieldSMBEnabled = false → s_SMBEnabled y = s_SMBEnabled x) ∧ s_PasswordSet y = s_PasswordSet x ∧
  (managed d FieldHome = false → s_Home y = s_Home x) ∧ (s_Home x ≠ "" → s_Home y = s_Home x) ∧
  (d_smbEnabled d = true → s_SMBEnabled y = s_SMBEnabled x) ∧
  (s_Home y = s_Home x ∨ ∃ p, home_allowed d (s_Username x) (s_Home x) p ∧ s_Home y = homeOf p).
Lemma sameSet_perm a b : sameSet a b = true ↔ a ≡ₚ b.
Proof.
  unfold sameSet. rewrite andb_true_iff, !bool_decide_eq_true. split.
  - intros [_ E]. rewrite <-(sort_strings_perm a), E. apply sort_strings_perm.
  - intros Hp. split; [by apply Permutation_length|by apply sort_strings_unique].
Qed.
Lemma settled_writes d y : settled d y → writes (decide_ (Some y) d no_home) = false.
Proof.
  intros (Hg & He & Hs). unfold writes, decide_. cbn [c_groups c_locked c_smbOff c_home]. 
  destruct (managed d FieldGroup) eqn:E1; [rewrite (proj2 (sameSet_perm _ _) (Hg eq_refl))|]; cbn [andb negb];
    (destruct (managed d FieldEnabled) eqn:E2; [rewrite (He eq_refl), (bool_decide_true (d_enabled d = d_enabled d)) by done|]; cbn [andb negb];
     (destruct (managed d FieldSMBEnabled) eqn:E3; [|done]; cbn [andb]; destruct (d_smbEnabled d) eqn:E4; [by rewrite andb_false_r|by rewrite (Hs eq_refl eq_refl)])).
Qed.
Lemma unwritten_settled d x home : writes (decide_ (Some x) d home) = false → settled d x ∧ hd_path home = "".
Proof.
  unfold writes, decide_. cbn [c_groups c_locked c_smbOff c_home]. rewrite !orb_false_iff, !bool_decide_eq_false. intros (((H1 & H2) & H3) & H4).
  split; [|apply negb_false_iff, bool_decide_eq_true in H4; done]. split_and!.
  - intros Hm. rewrite Hm in H1. simpl in H1. destruct (sameSet _ _) eqn:E; [by apply sameSet_perm|]. destruct H1. eauto.
  - intros Hm. rewrite Hm in H2. destruct (s_Enabled x), (d_enabled d); try done; destruct H2; by eexists.
  - intros Hm Hd. rewrite Hm, Hd in H3. simpl in H3. rewrite andb_true_r in H3. by destruct (s_SMBEnabled x).
Qed.
Section settling.
Context {W : Type} `{!Nas W, !NasModel W, !Unicode} (sha256hex sha256 : string → string) (idFloor idCeiling : Z).
Lemma groupIndex_reads (s s1 : Server W) g : groups_ok (groups_on (nas s)) → groupIndex s = (s1, inr g) → g = index_groups (groups_on (nas s)).
Proof.
  intros (_ & _ & Hl) (s4 & gs & E & [= _ <-])%bind_inv. f_equal. apply bind_inv in E as (s5 & gs' & E & E2). revert E. unfold wrap, on_nas.
  destruct (group_query (nas s) None) as [w [e|gs0]] eqn:Eq; [done|]. intros [= _ <-]. apply group_query_reads in Eq. rewrite take_ge in Eq by lia.
  subst gs0. revert E2. case_match; [done|]. by intros [= _ <-].
Qed.
Lemma group_ids_run names (s s1 : Server W) ids :
  groups_ok (groups_on (nas s)) → group_ids names s = (s1, inr ids) →
  match names with
  | None => ids = None
  | Some ns => ∃ l, ids = Some l ∧ Forall2 (λ n i, named (index_groups (groups_on (nas s))) i = Some n) ns l
  end.
Proof.
  intros Hg. unfold group_ids. destruct names as [ns|]; [|by intros [= _ <-]]. intros (s2 & l & E & [= _ <-])%bind_inv. exists l. split; [done|].
  revert E. unfold groupIDsFor. case_bool_decide as Hn; [intros [= _ <-]; subst; constructor|].
  intros (s3 & g & E & [= _ E'])%bind_inv. apply groupIndex_reads in E as ->; [|done]. by apply ids_for_named.
Qed.
Definition tbl (s : Server W) : list nasUser * list nasGroup := table (nas s).
#[local] Instance tbl_observes : ObservesWork (same tbl) := Observes_table.
Lemma steady_convergeQuota d home uid : steady (same tbl) (convergeQuota d home uid).
Proof.
  unfold convergeQuota. apply steady_bind; [by apply steady_quotaOwed; apply _|]. intros [o|]; [|done].
  apply steady_bind; [|done]. apply steady_wrap, steady_on_nas_unit. intros s0. apply keep_set_quota.
Qed.
Lemma decideHome_result d name home uid (s : Server W) :
  match (decideHome d name home uid s).2 with inr h => hd_path h ≠ "" → home_allowed d name home (hd_path h) | inl _ => True end.
Proof.
  unfold decideHome. destruct (negb (managed d FieldHome) || negb (d_wantsHome d)) eqn:E1; [done|].
  destruct (managed d FieldEnabled && negb (d_enabled d)) eqn:E2; [done|].
  case_bool_decide; [done|]. case_bool_decide; [done|]. case_bool_decide as Hh; simpl; [|done].
  apply orb_false_iff in E1 as [E1%negb_false_iff E3%negb_false_iff].
  assert (home_allowed d name home (PathJoin (d_homeRoot d) name)) as Ha.
  { split_and!; try done. intros Hm. rewrite Hm in E2. simpl in E2. by apply negb_false_iff in E2. }
  unfold mbind, M_bind. destruct (statOwner _ s) as [s1 [e|owner]]; simpl; [done|]. by repeat case_match.
Qed.
Definition after_update (i : apiID) (p : Update) (w : W) : list nasUser * list nasGroup :=
  ((λ u, if u_ID u =? i then updated p u else u) <$> accounts w, groups_on w).
Lemma converge_run req d x (s s' : Server W) o st :
  converge sha256hex req d x s = (s', inr (inr (o, st))) → groups_ok (groups_on (nas s)) →
  ∃ home ids, let c := decide_ (Some x) d home in
    match c_groups c with
    | None => ids = None
    | Some ns => ∃ l, ids = Some l ∧ Forall2 (λ n i, named (index_groups (groups_on (nas s))) i = Some n) ns l
    end ∧
    (hd_path home ≠ "" → home_allowed d (s_Username x) (s_Home x) (hd_path home)) ∧
    table (nas s') = if writes c then after_update (s_ID x) (update_of c ids x home) (nas s) else table (nas s).
Proof.
  unfold converge. rewrite or_fail_run. intros E Hg. pose proof (steady_group_ids (same tbl) (c_groups (decide_ (Some x) d no_home)) s) as T1.
  destruct (group_ids _ s) as [s1 [e|ids]] eqn:E1; [done|]. apply (group_ids_run _ _ _ _ Hg) in E1. simpl in T1.
  rewrite or_fail_run in E. pose proof (steady_decideHome (same tbl) d (s_Username x) (s_Home x) (s_UID x) s1) as T2.
  pose proof (decideHome_result d (s_Username x) (s_Home x) (s_UID x) s1) as Hh.
  destruct (decideHome _ _ _ _ s1) as [s2 [e|home]] eqn:E2; [done|]. simpl in T2, Hh. exists home, ids. cbv zeta. split; [exact E1|]. split; [exact Hh|].
  destruct (writes (decide_ (Some x) d home)) eqn:Ew; cbn [negb] in E.
  - rewrite or_fail_run in E. set (p := update_of _ _ _ _) in *. unfold on_nas_unit in E. destruct (user_update (nas s2) (s_ID x) p) as [w [e|]] eqn:Eu; [done|].
    apply user_update_writes in Eu. unfold after_update.
    assert (table (nas s') = table w) as ->.
    { revert E. unfold tbl in T1, T2. set (s3 := with_nas s2 w). change (table w) with (tbl s3). clearbody s3. intros E.
      apply bind_inv in E as (s4 & r & E4 & E). pose proof (steady_attempt (same tbl) _ (steady_readBack (same tbl) (s_Username x)) s3) as T4. rewrite E4 in T4. simpl in T4.
      destruct r as [e|y].
      - apply bind_inv in E as (s5 & [] & [= <-] & [= <- _ _]). done.
      - apply bind_inv in E as (s5 & q & E5 & E). pose proof (steady_attempt (same tbl) _ (steady_convergeQuota d (if hd_path home <>? "" then hd_path home else s_Home x) (s_UID x)) s4) as T5. rewrite E5 in T5. simpl in T5.
        apply bind_inv in E as (s6 & [] & [= <-] & [= <- _ _]). by rewrite <-T4, <-T5. }
    rewrite Eu. unfold tbl in T1, T2. unfold table in T1, T2. injection T2 as -> ->. injection T1 as -> ->. done.
  - rewrite or_fail_run in E. pose proof (steady_convergeQuota d (if hd_path home <>? "" then hd_path home else s_Home x) (s_UID x) s2) as T3.
    destruct (convergeQuota _ _ _ s2) as [s3 [e|q]]; [done|]. simpl in T3. transitivity (tbl s3); [|by rewrite T3, T2, T1].
    revert E. destruct (q <>? ""); [intros (s5 & [] & [= <-] & [= <- _ _])%bind_inv; done|]. destruct (c_smbPending _); by intros [= <- _ _].
Qed.
Lemma updated_settles self self' g u d home ids :
  let x := subject_of self g u in let c := decide_ (Some x) d home in
  match c_groups c with None => ids = None | Some ns => ∃ l, ids = Some l ∧ Forall2 (λ n i, named g i = Some n) ns l end →
  (hd_path home ≠ "" → home_allowed d (s_Username x) (s_Home x) (hd_path home)) →
  let y := subject_of self' g (updated (update_of c ids x home) u) in settled d y ∧ kept_fields d x y.
Proof.
  intros x c Hids Hhome y.
  assert (s_Groups y = default (s_Groups x) (c_groups c) ∧ s_builtinGroups y = s_builtinGroups x) as [Hg Hb].
  { destruct (c_groups c) as [ns|]; [|by subst ids]. destruct Hids as (l & -> & Hl).
    change (omap (named g) (l ++ s_builtinGroups x) = ns ∧ filter (λ i, machines g i = true) (l ++ s_builtinGroups x) = s_builtinGroups x).
    apply written_names_read; [done|]. change (s_builtinGroups x) with (filter (λ i, machines g i = true) (u_Groups u)).
    apply Forall_forall. intros i Hi. by apply list_elem_of_filter in Hi as [? _]. }
  assert (s_Enabled y = match c_locked c with Some l => negb l | None => s_Enabled x end) as He
    by (change (negb (default (u_Locked u) (c_locked c)) = match c_locked c with Some l => negb l | None => negb (u_Locked u) end); by destruct (c_locked c)).
  assert (s_SMBEnabled y = if c_smbOff c then false else s_SMBEnabled x) as Hs
    by (change (default (u_SMB u) (if c_smbOff c then Some false else None) = if c_smbOff c then false else u_SMB u); by destruct (c_smbOff c)).
  assert (s_Home y = if hd_path home <>? "" then homeOf (hd_path home) else s_Home x) as Hh.
  { change (homeOf (default (u_Home u) (if hd_path home <>? "" then Some (hd_path home) else None)) = if hd_path home <>? "" then homeOf (hd_path home) else homeOf (u_Home u)).
    by destruct (hd_path home <>? ""). }
  split; [split_and!|split_and!; try done].
  - intros Hm. rewrite Hg. subst c. unfold decide_. cbn [c_groups]. rewrite Hm. cbn [andb]. destruct (sameSet _ _) eqn:E; [by apply sameSet_perm|done].
  - intros Hm. rewrite He. subst c. unfold decide_. cbn [c_locked]. rewrite Hm. cbn [andb]. destruct (s_Enabled x), (d_enabled d); done.
  - intros Hm Hd. rewrite Hs. subst c. unfold decide_. cbn [c_smbOff]. rewrite Hm, Hd. cbn [andb negb]. destruct (s_SMBEnabled x); done.
  - intros Hm. rewrite Hg. subst c. unfold decide_. cbn [c_groups]. by rewrite Hm.
  - intros Hm. rewrite He. subst c. unfold decide_. cbn [c_locked]. by rewrite Hm.
  - intros Hm. rewrite Hs. subst c. unfold decide_. cbn [c_smbOff]. by rewrite Hm.
  - intros Hm. rewrite Hh. case_bool_decide as Hp; [done|]. destruct (Hhome Hp) as [? _]. congruence.
  - intros Hx. rewrite Hh. case_bool_decide as Hp; [done|]. by destruct (Hhome Hp) as (_ & _ & _ & ? & _).
  - intros Hd. rewrite Hs. subst c. unfold decide_. cbn [c_smbOff]. by rewrite Hd, andb_false_r.
  - rewrite Hh. case_bool_decide as Hp; [by left|]. right. eauto.
Qed.
Definition accounts_ok (us : list nasUser) : Prop := NoDup (u_ID <$> us) ∧ NoDup (u_Username <$> us).
Definition of_people (u : nasUser) : Prop := u_Builtin u = false ∧ (systemUIDCeiling <= u_UID u)%Z.
Lemma filter_unique {A B} (f : A → B) `{!EqDecision B} (l : list A) v : NoDup (f <$> l) → v ∈ l → filter (λ x, f x = f v) l = [v].
Proof.
  induction l as [|x l IH]; [by intros _ ?%not_elem_of_nil|]. rewrite fmap_cons. intros [Hx Hn]%NoDup_cons [->|Hv]%elem_of_cons.
  - rewrite filter_cons_True by done. f_equal. apply filter_none. intros y Hy E. apply Hx. rewrite <-E. by apply list_elem_of_fmap_2.
  - rewrite filter_cons_False; [by apply IH|]. intros E. apply Hx. rewrite E. by apply list_elem_of_fmap_2.
Qed.
Lemma subjectWhere_finds (s s1 : Server W) v o cut :
  accounts_ok (accounts (nas s)) → groups_ok (groups_on (nas s)) → v ∈ accounts (nas s) → of_people v →
  subjectWhere (by_username (u_Username v)) s = (s1, inr (o, cut)) →
  tbl s1 = tbl s ∧ ∃ self, o = Some (subject_of self (index_groups (groups_on (nas s))) v).
Proof.
  intros [_ Hn] Hg Hv [Hb Hu] E. pose proof (steady_subjectWhere (same tbl) (by_username (u_Username v)) s) as T. rewrite E in T. split; [exact T|]. clear T.
  revert E. unfold subjectWhere. intros (s2 & snap & E & [= _ <- _])%bind_inv. revert E. unfold readSubjectsWhere.
  intros (s3 & us & E & E2)%bind_inv. unfold on_nas in E. destruct (user_query (nas s) _) as [w us'] eqn:Eq. injection E as <- ->.
  pose proof (keep_user_query (nas s) (by_username (u_Username v))) as Kt. rewrite Eq in Kt. apply user_query_reads in Eq.
  assert (us = [v]) as ->.
  { rewrite Eq. rewrite (list_filter_iff _ (λ u, u_Username u = u_Username v)) by (intros u; simpl; apply bool_decide_eq_true).
    rewrite (filter_unique u_Username) by done. done. }
  cbn [length] in E2. change (subjectReadCap <? 1) with false in E2. cbv iota zeta in E2.
  assert (withoutSystemAccounts [v] = [v]) as Hw.
  { unfold withoutSystemAccounts. rewrite filter_cons_True; [done|]. rewrite Hb. destruct (Z.ltb_spec (u_UID v) systemUIDCeiling); [lia|done]. }
  rewrite Hw in E2. apply bind_inv in E2 as (s4 & g & E4 & E2). apply bind_inv in E2 as (s5 & sv & _ & [= _ <-]).
  assert (g = index_groups (groups_on (nas s))) as ->.
  { unfold table in Kt. simpl in Kt. injection Kt as _ Kg. rewrite <-Kg. eapply (groupIndex_reads (with_nas s w)); [|exact E4]. simpl. by rewrite Kg. }
  eexists. simpl. rewrite filter_cons_True by (simpl; by apply bool_decide_eq_true). done.
Qed.
End settling.

(** ** Replays *)
Section replays.
Context {W : Type} `{!Nas W, !Unicode} (sha256hex sha256 : string → string) (idFloor idCeiling : Z) (supported : gset string)
  (decode : string → option ApplyOutcome).
Definition idem (s : Server W) : gmap string idempotencyEntry := idempotency (store s).
#[local] Instance idem_observes : ObservesWork (same idem).
Proof. by repeat split. Qed.
Lemma steady_or_fail {A} st (m : M W A) k : steady (same idem) m → (∀ a, steady (same idem) (k a)) → steady (same idem) (or_fail st m k).
Proof. intros Hm Hk. unfold or_fail. apply steady_bind; [by apply steady_attempt|]. intros []; [done|apply Hk]. Qed.
Lemma steady_replying o st : steady (same idem) (@replying W o st).
Proof. done. Qed.
Lemma steady_failing st e : steady (same idem) (@failing W st e).
Proof. done. Qed.
Lemma steady_call {A} (f : W → W * (Err + A)) : steady (same idem) (on_nas f).
Proof. by apply steady_on_nas. Qed.
Lemma steady_call_unit (f : W → W * option Err) : steady (same idem) (on_nas_unit f).
Proof. by apply steady_on_nas_unit. Qed.
Hint Resolve steady_replying steady_failing steady_call steady_call_unit : nas_reads.
Lemma idem_convergeQuota d home uid : steady (same idem) (convergeQuota d home uid).
Proof. unfold convergeQuota. reading. Qed.
Hint Resolve idem_convergeQuota : nas_reads.
Lemma idem_converge req d x : steady (same idem) (converge sha256hex req d x).
Proof.
  unfold converge. apply steady_or_fail; [auto with nas_reads|]. intros ids. apply steady_or_fail; [auto with nas_reads|]. intros home.
  destruct (negb _); (apply steady_or_fail; [auto with nas_reads|]); intros; reading.
Qed.
Lemma idem_create req d b : steady (same idem) (createAndConverge sha256hex idFloor idCeiling req d b).
Proof.
  unfold createAndConverge. destruct (negb _); [done|]. apply steady_or_fail; [auto with nas_reads|]. intros ids.
  apply steady_or_fail; [auto with nas_reads|]. intros number. apply steady_or_fail; [unfold personal_group; reading|]. intros [[groupID num] adopted].
  assert (∀ i, steady (same idem) (undo_unless adopted i)) as Hu by (intros i; unfold undo_unless, undoGroup; reading).
  apply steady_bind; [auto with nas_reads|]. intros [e|home]; [apply steady_bind; [apply Hu|done]|].
  apply steady_bind; [auto with nas_reads|]. intros [e|i]; [apply steady_bind; [apply Hu|done]|].
  apply steady_bind; [auto with nas_reads|]. intros back. apply steady_or_fail; [auto with nas_reads|]. intros _. destruct back; reading.
Qed.
Lemma idem_applyOne req : steady (same idem) (applyOne sha256hex sha256 idFloor idCeiling req).
Proof.
  pose proof idem_converge. pose proof idem_create.
  unfold applyOne. apply steady_or_fail; [auto with nas_reads|]. intros d. apply steady_bind; [auto with nas_reads|].
  intros [[]|l]; [done..|]. destruct (lo_conflict l); [done|]. destruct (negb _); [done|].
  destruct (lo_current l); [|destruct (lo_truncated l); [done|]]; (apply steady_bind; [auto|]; intros out; reading).
Qed.
Notation apply_ := (handleApply sha256hex sha256 idFloor idCeiling supported decode).
(** What an apply does to the remembered results: nothing, or the one it answers
    under its call id. *)
Lemma handleApply_idem (s : Server W) req s' a :
  apply_ s (Some req) = (s', a) →
  idem s' = idem s ∨
  ∃ st o, a = answer_outcome st o ∧
    idem s' = <[aq_CallID req := {| ie_StoredAt := clock (nas s'); ie_Kind := kindApply; ie_Result := cached_apply o |}]> (idem s).
Proof.
  unfold handleApply. destruct (negb _); [intros [= <- <-]; by left|]. destruct (_ || _); [intros [= <- <-]; by left|].
  destruct (bool_decide _); [intros [= <- <-]; by left|]. destruct (store_fails _ op_recall); [intros [= <- <-]; by left|].
  destruct (Recall _ _ _ _) as [|[|]|]; [|intros [= <- <-]; by left..]. destruct (Begin _) as [l|]; [|intros [= <- <-]; by left].
  destruct (MajorSupported _ _) as [[] why]; [|intros [= <- <-]; by left]. pose proof (idem_applyOne req (with_life s l)) as Hi.
  destruct (applyOne _ _ _ _ req (with_life s l)) as [s1 [e|[f|[o st]]]]; simpl in Hi; [intros [= <- <-]; by left..|].
  destruct (_ && _); intros [= <- <-]; [right|by left]. exists st, o. split; [done|]. change (idem s) with (idem (with_life s l)). by rewrite <-Hi.
Qed.
(** Other work on the server, up to a time: applies of other calls, and sweeps. *)
Inductive other_work (call : string) (until : Z) (s : Server W) : Server W → Prop :=
  | other_apply body s' a : (∀ req, body = Some req → aq_CallID req ≠ call) → apply_ s body = (s', a) → other_work call until s s'
  | sweeps now : (now <= until)%Z → other_work call until s (with_store s (SweepIdempotency (store s) now).1).
Lemma other_work_keeps call until s s' e :
  other_work call until s s' → idem s !! call = Some e → expired until e = false → idem s' !! call = Some e.
Proof.
  destruct 1 as [body s' a Hb E|now Hn]; intros He Hx.
  - destruct body as [req|]; [|by injection E as <- _]. destruct (handleApply_idem _ _ _ _ E) as [->|(st & o & _ & ->)]; [done|].
    rewrite lookup_insert_ne; [done|]. by apply Hb.
  - unfold idem, SweepIdempotency. simpl. apply map_lookup_filter_Some. split; [done|]. unfold expired in *. apply Z.ltb_ge in Hx. apply Z.ltb_ge. lia.
Qed.
End replays.
(** ** Properties *)
Ltac no_calls := intros [= <- <-]; exists [], []; split_and!; [by rewrite app_nil_r|by rewrite app_nil_r|done|done].

(** C15. Nothing on the NAS is touched but what was approved. Whatever a request
    to /apply holds and whatever the target answers, the mutating calls made are
    none, unless: the request is of this contract, its call has no stored result,
    the add-on is active and the target's version is one that was tested. Then one
    of two holds. The calls are on the account bound to this subject (under its
    number where this add-on gave it), a record the target told in this run whose
    state has the fingerprint the request carries; they update that record, by its
    key, in managed fields only, to what is wanted: its groups are the keys a group
    list read in this run gives the wanted names, its built-in groups kept; a limit
    is the wanted one, of that account's number, where its home is. Or the request
    carries the fingerprint of an absent account and the calls found the account of
    the recorded or derived name, a valid one, with the wanted groups' keys and a
    group of its own: one made in this run under its name, or an empty one of that
    name; a group deleted is one made in this run, and a limit is of the number
    read back under that name. Any answer but applied and a failed call means no
    call was made. *)
Theorem apply_touches_only_what_was_approved `{!Nas W, !NasLog W, !Unicode} sha256hex sha256 floor ceiling supported decode s body s' a :
  handleApply sha256hex sha256 floor ceiling supported decode s body = (s', a) →
  ∃ ms ts, mutations (nas s') = mutations (nas s) ++ ms ∧ told (nas s') = told (nas s) ++ ts ∧
    (ms ≠ [] → ∃ req d, body = Some req ∧ aq_ContractVersion req = ContractVersion ∧
       Recall (store s) (clock (nas s)) (aq_CallID req) kindApply = recall_absent ∧ lc_state (life s) = LifecycleActive ∧
       (MajorSupported supported (version (nas s))).1 = true ∧ (decodeDesired (aq_Desired req) s).2 = inr d ∧
       authorised_calls sha256hex sha256 floor ceiling (store s) req d ms ts) ∧
    match a with
    | answer_outcome _ o => ao_Effect o ≠ EffectApplied → ms = []
    | answer_error _ code _ => code ≠ "APPLY_FAILED" → ms = []
    | answer_lifecycle _ => ms = []
    end.
Proof.
  unfold handleApply. destruct body as [req|]; [|no_calls].
  destruct (Z.eqb_spec (aq_ContractVersion req) ContractVersion) as [Hcv|]; cbn [negb]; [|no_calls].
  destruct ((TrimSpace (aq_CallID req) =? "") || (TrimSpace (aq_Subject req) =? "")); [no_calls|].
  destruct (TrimSpace (aq_Fingerprint req) =? ""); [no_calls|].
  destruct (store_fails _ op_recall); [no_calls|].
  destruct (Recall _ _ _ _) as [|[o|raw]|] eqn:Er; [|no_calls|intros [= <- <-]; exists [], []; split_and!; [by rewrite app_nil_r|by rewrite app_nil_r|done|by case_match]|no_calls].
  unfold Begin. case_bool_decide as Hl; cbn [negb]; [|no_calls].
  set (s0 := with_life _ _). assert (store s0 = store s ∧ nas s0 = nas s) as [Hst Hna] by done.
  destruct (MajorSupported supported (version (nas s0))) as [[|] why] eqn:Em; [|no_calls].
  destruct (applyOne _ _ _ _ req s0) as [s1 r] eqn:E. destruct (applyOne_calls _ _ _ _ _ _ _ _ E) as (ms & ts & Hms & Hts & Hau & Hr).
  assert (ms ≠ [] → ∃ req0 d, Some req = Some req0 ∧ aq_ContractVersion req0 = ContractVersion ∧
       Recall (store s) (clock (nas s)) (aq_CallID req0) kindApply = recall_absent ∧ lc_state (life s) = LifecycleActive ∧
       (MajorSupported supported (version (nas s))).1 = true ∧ (decodeDesired (aq_Desired req0) s).2 = inr d ∧
       authorised_calls sha256hex sha256 floor ceiling (store s) req0 d ms ts) as Hwhy.
  { intros Hne. destruct Hau as [|(d & Hd & Ha)]; [done|]. exists req, d. split_and!; try done; [by rewrite <-Hna, Em|].
    revert Hd. unfold decodeDesired, homeRoot, reading_store, wrap. destruct (decodeDesiredFields _) as [d0|]; [|done]. destruct (negb _); [done|].
    unfold mbind, M_bind. rewrite Hst, Hna. by destruct (store_fails _ _). }
  destruct r as [e|[f|[o st]]]; [done|..].
  - intros [= <- <-]. exists ms, ts. split_and!; [done..|]. destruct (f_stale f) eqn:Es; [by intros _; apply Hr|done].
  - intros [= <- <-]. exists ms, ts. split_and!; [by destruct (_ && _)|by destruct (_ && _)|done|done].
Qed.

Lemma same_account_id us u v : accounts_ok us → u ∈ us → v ∈ us → u_ID u = u_ID v → u = v.
Proof.
  intros [Ha _] Hu Hv E. pose proof (filter_unique u_ID _ v Ha Hv) as Hf. assert (u ∈ filter (λ u, u_ID u = u_ID v) us) as Hin by by apply list_elem_of_filter.
  rewrite Hf in Hin. by apply list_elem_of_singleton in Hin.
Qed.
(** A bound person's account that is on the target is found, or the lookup fails,
    or another account has taken the name. *)
Lemma locate_finds `{!Nas W, !NasModel W, !Unicode} sha256 floor ceiling req (s s1 : Server W) l b v :
  locate sha256 floor ceiling req s = (s1, inr l) → bindings (store s) !! aq_Subject req = Some b → v ∈ accounts (nas s) →
  u_Username v = b_Username b → of_people v → accounts_ok (accounts (nas s)) → groups_ok (groups_on (nas s)) →
  (∃ e, l = inl (locate_failed e)) ∨
  ∃ l0, l = inr l0 ∧ tbl s1 = tbl s ∧
    (is_Some (lo_conflict l0) ∨ lo_conflict l0 = None ∧ ∃ self, lo_current l0 = Some (subject_of self (index_groups (groups_on (nas s))) v)).
Proof.
  intros El Eb Hv Hn Hp Ha Hg. revert El. unfold locate, giving. intros (s2 & r & E0 & El)%bind_inv. unfold attempt, reading_store in E0.
  destruct (store_fails (nas s) op_get_binding); injection E0 as <- <-; [injection El as _ <-; left; by eexists|]. rewrite Eb in El.
  rewrite <-Hn in El. apply bind_inv in El as (s3 & r & Er & El). unfold attempt in Er.
  destruct (subjectWhere (by_username (u_Username v)) s) as [s4 [e|[x cut]]] eqn:Ew; injection Er as <- <-; [injection El as _ <-; left; by eexists|].
  apply subjectWhere_finds in Ew as [T (self & ->)]; [|done..]. right. revert El.
  destruct (_ && _); [intros [= <- <-]; eexists; split_and!; [done|done|by left; eexists]|].
  destruct (_ && _); [|intros [= <- <-]; eexists; split_and!; [done|done|right; split; [done|by eexists]]].
  intros (s5 & [] & E5 & [= <- <-])%bind_inv. eexists. split_and!; [done| |right; split; [done|by eexists]]. rewrite <-T.
  match type of E5 with saveBinding ?b0 _ = _ => pose proof (steady_saveBinding (same tbl) b0 s4) as T5 end. by rewrite E5 in T5.
Qed.
Lemma replaced_one us v v' f : accounts_ok us → v ∈ us → f v = v' → (λ u, if u_ID u =? u_ID v then f u else u) <$> us = (λ u, if u_ID u =? u_ID v then v' else u) <$> us.
Proof.
  intros Ha Hv <-. apply list_fmap_ext. intros i u Hu%list_elem_of_lookup_2. case_bool_decide as Hid; [|done]. by rewrite (same_account_id us u v).
Qed.

(** C16. A convergence reaches what was asked of groups, lock and SMB off, and
    changes nothing else. When the apply for a bound person whose account is on the
    target under its bound name succeeds (200), on a target whose answers are its
    tables (no two accounts of one key or name, no two groups of one key or name,
    no more groups than one read returns), then: the account's groups and lock are
    as wanted where the request manages them, and SMB is off where it is managed
    and wanted off; SMB wanted on is as it was, for it comes on with the member's
    password; the home is as it was, or the account had none and has the wanted
    one; the fields that are not managed, the number, the name and the machine's
    groups are as they were; and no other account changed. A further apply of the
    same desired state would write no group, lock or SMB change. Whether a home was
    made, and its limit, are not claimed: the code answers 200 with a note when
    either could not be. *)
Theorem apply_reaches_the_desired_state `{!Nas W, !NasModel W, !Unicode} sha256hex sha256 floor ceiling req (s s' : Server W) o b v :
  applyOne sha256hex sha256 floor ceiling req s = (s', inr (inr (o, 200%Z))) →
  bindings (store s) !! aq_Subject req = Some b → v ∈ accounts (nas s) → u_Username v = b_Username b → of_people v →
  accounts_ok (accounts (nas s)) → groups_ok (groups_on (nas s)) →
  let g := index_groups (groups_on (nas s)) in
  ∃ d v', (decodeDesired (aq_Desired req) s).2 = inr d ∧
    accounts (nas s') = (λ u, if u_ID u =? u_ID v then v' else u) <$> accounts (nas s) ∧
    settled d (subject_of "" g v') ∧ kept_fields d (subject_of "" g v) (subject_of "" g v') ∧
    writes (decide_ (Some (subject_of "" g v')) d no_home) = false.
Proof.
  intros E Eb Hv Hn Hp Ha Hg g. revert E. unfold applyOne. rewrite or_fail_run. pose proof (decodeDesired_keeps (aq_Desired req) s) as Hk.
  destruct (decodeDesired (aq_Desired req) s) as [s0 [e|d]] eqn:Ed; simpl in Hk; subst s0; [done|]. intros (s1 & l & El & E)%bind_inv.
  destruct (locate_finds _ _ _ _ _ _ _ _ _ El Eb Hv Hn Hp Ha Hg) as [[e ->]|(l0 & -> & T1 & Hl)]; [done|]. fold g in Hl.
  destruct Hl as [[c Hc]|[Hc [self Hx]]]; rewrite Hc in E; [done|]. rewrite Hx in E. destruct (bool_decide _) in E; [|done]. cbn [negb] in E.
  apply bind_inv in E as (s2 & out & Econv & E). apply bind_inv in E as (s3 & u & Erem & [= <- ->]).
  pose proof (steady_rememberWantedSMB (same tbl) (aq_Subject req) d (inr (o, 200%Z)) s2) as T3. rewrite Erem in T3. simpl in T3.
  unfold tbl, table in T1. injection T1 as Ta Tg. apply converge_run in Econv as (home & ids & Hids & Hhome & T2); [|by rewrite Tg].
  unfold tbl, table in T3. injection T3 as T3 _. rewrite Tg in Hids. cbv zeta in Hids, T2. fold g in Hids.
  set (x := subject_of self g v) in *. set (c := decide_ (Some x) d home) in *. exists d. destruct (writes c) eqn:Ew; unfold after_update, table in T2; injection T2 as T2 _.
  - exists (updated (update_of c ids x home) v). destruct (updated_settles self "" g v d home ids Hids Hhome) as [Hst Hkp].
    split_and!; [done| |exact Hst|exact Hkp|by apply settled_writes]. rewrite T3, T2, Ta. by apply replaced_one.
  - apply unwritten_settled in Ew as [Hst _]. exists v. split_and!; [done| |exact Hst|split_and!; try done; by left|by apply (settled_writes d x)].
    rewrite T3, T2, Ta. rewrite <-(replaced_one _ v v id) by done. rewrite <-(list_fmap_id (accounts (nas s))) at 1. apply list_fmap_ext. intros i u' _. by case_bool_decide.
Qed.

(** C25. A call is carried out once. Once an apply was answered with a result
    that was stored, any request under the same call id within thirty days,
    whatever else the add-on did and swept in the meantime, is answered with that
    same result; nothing is read from the target, nothing is written to it. *)
Theorem replay_repeats_the_answer `{!Nas W, !Unicode} sha256hex sha256 floor ceiling supported decode (s s1 s2 : Server W) req st o req' :
  Recall (store s) (clock (nas s)) (aq_CallID req) kindApply = recall_absent →
  handleApply sha256hex sha256 floor ceiling supported decode s (Some req) = (s1, answer_outcome st o) →
  (st / 100 = 2)%Z → store_fails (nas s1) op_remember = false →
  rtc (other_work sha256hex sha256 floor ceiling supported decode (aq_CallID req) (clock (nas s2))) s1 s2 →
  (clock (nas s2) - clock (nas s1) <= idempotencyTTL)%Z → store_fails (nas s2) op_recall = false →
  aq_CallID req' = aq_CallID req → aq_ContractVersion req' = ContractVersion → TrimSpace (aq_CallID req) ≠ "" →
  TrimSpace (aq_Subject req') ≠ "" → TrimSpace (aq_Fingerprint req') ≠ "" →
  handleApply sha256hex sha256 floor ceiling supported decode s2 (Some req') = (s2, answer_outcome 200 o).
Proof.
  intros Hr E Hst Hf Hw Ht Hf2 Hid Hcv Hc Hsu Hfp.
  assert (idem s1 !! aq_CallID req = Some {| ie_StoredAt := clock (nas s1); ie_Kind := kindApply; ie_Result := cached_apply o |}) as Hi.
  { revert E. unfold handleApply. destruct (negb _); [done|]. destruct (_ || _); [done|]. destruct (bool_decide _); [done|].
    destruct (store_fails (nas s) op_recall); [done|]. rewrite Hr. destruct (Begin _) as [l|]; [|done].
    destruct (MajorSupported _ _) as [[] why]; [|done]. destruct (applyOne _ _ _ _ req (with_life s l)) as [s0 [e|[f|[o0 st0]]]]; [done|by destruct (f_stale f)|].
    intros E. injection E as <- -> ->. revert Hf. rewrite Hst. change (2 =? 2)%Z with true. cbn [andb].
    destruct (store_fails (nas s0) op_remember) eqn:Ef; cbn [negb]; [cbn; congruence|]. intros _. unfold idem. cbn. by rewrite lookup_insert_eq. }
  assert (idem s2 !! aq_CallID req = Some {| ie_StoredAt := clock (nas s1); ie_Kind := kindApply; ie_Result := cached_apply o |}) as Hi2.
  { assert (expired (clock (nas s2)) {| ie_StoredAt := clock (nas s1); ie_Kind := kindApply; ie_Result := cached_apply o |} = false) as Hx by by apply Z.ltb_ge.
    revert Hi Hx. generalize (Build_idempotencyEntry (clock (nas s1)) kindApply (cached_apply o)). intros en Hi Hx. clear -Hw Hi Hx. revert Hw Hx. generalize (clock (nas s2)) as t. intros t Hw Hx. revert Hi.
    induction Hw as [|a b c Hab _ IH]; [done|]. intros Hi. apply IH. by eapply other_work_keeps. }
  unfold handleApply. rewrite Hcv, Hid. change (ContractVersion =? ContractVersion)%Z with true. cbn [negb].
  rewrite (bool_decide_false (TrimSpace (aq_CallID req) = "")), (bool_decide_false (TrimSpace (aq_Subject req') = "")) by done. cbn [orb].
  rewrite (bool_decide_false (TrimSpace (aq_Fingerprint req') = "")) by done. rewrite Hf2. unfold Recall. unfold idem in Hi2. rewrite Hi2.
  assert (expired (clock (nas s2)) {| ie_StoredAt := clock (nas s1); ie_Kind := kindApply; ie_Result := cached_apply o |} = false) as -> by by apply Z.ltb_ge.
  done.
Qed.

(** ** A target that answers *)
Module Demo.
Record Target := { t_users : list nasUser; t_groups : list nasGroup; t_calls : list Mutation; t_told : list Told; t_clock : Z }.
Definition called (t : Target) (m : Mutation) : Target :=
  {| t_users := t_users t; t_groups := t_groups t; t_calls := t_calls t ++ [m]; t_told := t_told t; t_clock := t_clock t |}.
Definition telling (t : Target) (x : Told) : Target :=
  {| t_users := t_users t; t_groups := t_groups t; t_calls := t_calls t; t_told := t_told t ++ [x]; t_clock := t_clock t |}.
Definition with_users (t : Target) (us : list nasUser) : Target :=
  {| t_users := us; t_groups := t_groups t; t_calls := t_calls t; t_told := t_told t; t_clock := t_clock t |}.
Definition with_groups (t : Target) (gs : list nasGroup) : Target :=
  {| t_users := t_users t; t_groups := gs; t_calls := t_calls t; t_told := t_told t; t_clock := t_clock t |}.
Definition highest (floor ceiling : Z) (l : list Z) : option Z :=
  foldl (λ acc n, if (floor <=? n)%Z && (n <=? ceiling)%Z then Some (Z.max n (default n acc)) else acc) None l.
Definition new_key {A} (l : list A) : apiID := pretty (length l + 1000).
#[export] Instance target_nas : Nas Target := {|
  user_query t f := let us := take (S subjectReadCap) (filter (λ u, selected f u = true) (t_users t)) in (telling t (told_users f us), inr us);
  group_query t n :=
    let gs := take (S subjectReadCap) (match n with Some n => filter (λ g, gr_Name g = n) (t_groups t) | None => t_groups t end) in (telling t (told_groups n gs), inr gs);
  highest_uid t a b := (t, inr (highest a b (u_UID <$> t_users t)));
  highest_gid t a b := (t, inr (highest a b (gr_GID <$> t_groups t)));
  user_update t i p := (with_users (called t (m_update i p)) ((λ u, if u_ID u =? i then updated p u else u) <$> t_users t), None);
  user_create t c :=
    (with_users (called t (m_create c)) (t_users t ++ [{| u_ID := new_key (t_users t); u_Username := cr_username c; u_UID := cr_uid c; u_Locked := cr_locked c;
       u_SMB := false; u_PasswordDisabled := true; u_Builtin := false; u_Groups := default [] (cr_groups c); u_Home := default noHome (cr_home c) |}]),
     inr (new_key (t_users t)));
  group_create t n gid :=
    (with_groups (telling (called t (m_group n gid)) (told_made n gid (new_key (t_groups t)))) (t_groups t ++ [{| gr_ID := new_key (t_groups t); gr_GID := gid; gr_Name := n; gr_Builtin := false; gr_Users := [] |}]),
     inr (new_key (t_groups t)));
  group_delete t i := (with_groups (called t (m_group_delete i)) (filter (λ g, gr_ID g ≠ i) (t_groups t)), None);
  filesystem_stat t p := (t, inl {| e_kind := ErrNoSuchPath; e_text := "no such path" |});
  get_quota t ds uid := (t, inr []);
  set_quota t ds uid q := (called t (m_quota ds uid q), None);
  readACLs t := (t, inr {| places := []; mounts := ∅ |});
  selfName t := "syndra";
  version t := "TrueNAS-25.10.1";
  clock := t_clock;
  store_fails t op := false;
|}.
#[export] Instance target_log : NasLog Target.
Proof. refine {| mutations := t_calls; told := t_told |}; intros; cbn; by rewrite ?app_nil_r. Defined.
#[export] Instance target_model : NasModel Target.
Proof.
  refine {| accounts := t_users; groups_on := t_groups |}; intros; try done.
  - by simplify_eq/=.
  - by simplify_eq/=.
  - by simplify_eq/=.
Defined.
#[export] Instance ascii_only : Unicode.
Proof. by refine {| to_lower r := if (65 <=? r)%N && (r <=? 90)%N then (r + 32)%N else r |}. Defined.

Definition key (n : N) : apiID := pretty n.
Definition staff : nasGroup := {| gr_ID := "40"; gr_GID := 3000; gr_Name := "staff"; gr_Builtin := false; gr_Users := [] |}.
Definition eng : nasGroup := {| gr_ID := "41"; gr_GID := 3001; gr_Name := "eng"; gr_Builtin := false; gr_Users := [] |}.
Definition builtin_users : nasGroup := {| gr_ID := "7"; gr_GID := 545; gr_Name := "builtin_users"; gr_Builtin := true; gr_Users := [] |}.
Definition ana : nasUser :=
  {| u_ID := "70"; u_Username := "ana"; u_UID := 200001; u_Locked := false; u_SMB := true; u_PasswordDisabled := false; u_Builtin := false;
     u_Groups := ["40"; "7"]; u_Home := "/mnt/tank/homes/ana" |}.
Definition bob : nasUser :=
  {| u_ID := "71"; u_Username := "bob"; u_UID := 200002; u_Locked := false; u_SMB := false; u_PasswordDisabled := true; u_Builtin := false;
     u_Groups := ["40"]; u_Home := noHome |}.
Definition target : Target := {| t_users := [ana; bob]; t_groups := [staff; eng; builtin_users]; t_calls := []; t_told := []; t_clock := 1000 |}.
Definition ana_bound (uid : Z) : Binding :=
  {| b_SubjectID := "s-ana"; b_Username := "ana"; b_UID := uid; b_BoundAt := Some 5%Z; b_BoundBy := "apply"; b_WantsSMB := None |}.
Definition store0 : Store :=
  {| idempotency := ∅; bindings := {["s-ana" := ana_bound 200001]}; snapshot := None; high_water := Some 200002%Z; settings := ∅ |}.
Definition at0 : Server Target := {| nas := target; store := store0; journal := []; life := newLifecycle LifecycleActive |}.
Definition digest (s : string) : string := "h:" +:+ s.
Definition ask (call subject email : string) (fp : string) (desired : gmap string FieldValue) : ApplyRequest :=
  {| aq_ContractVersion := ContractVersion; aq_CallID := call; aq_Subject := subject; aq_Email := email; aq_Fingerprint := fp; aq_PlanID := "p1";
     aq_Actor := "ops"; aq_Desired := desired |}.
Definition read_as (u : nasUser) : Subject := subject_of "syndra" (index_groups (t_groups target)) u.
Definition wanted : gmap string FieldValue := {[FieldGroup := Values ["eng"]; FieldSMBEnabled := Flag false]}.
Definition move_ana : ApplyRequest := ask "c-1" "s-ana" "ana@acme.com" (fingerprintSubject digest (Some (read_as ana))) wanted.
Definition found_eve : ApplyRequest := ask "c-2" "s-eve" "Eve.X@acme.com" (fingerprintSubject digest None) {[FieldGroup := Values ["eng"]]}.
Definition tested : gset string := {["25.10"]}.
Definition applied (s : Server Target) (r : ApplyRequest) : Server Target * Answer := handleApply digest digest 0 0 tested (λ _, None) s (Some r).
Example moves_ana :
  (t_calls (nas (applied at0 move_ana).1), match (applied at0 move_ana).2 with answer_outcome st o => (st, ao_Effect o, ao_Detail o) | _ => (0%Z, "", "") end) =
  ([m_update "70" {| up_groups := Some ["41"; "7"]; up_locked := None; up_smb := Some false; up_home := None |}],
   (200%Z, "applied", "groups set to eng; SMB disabled.")).
Proof. by vm_compute. Qed.
Example founds_eve :
  t_calls (nas (applied at0 found_eve).1) =
    [m_group "eve.x" 200003; m_create {| cr_username := "eve.x"; cr_locked := false; cr_groups := Some ["41"]; cr_uid := 200003; cr_group := new_key (t_groups target); cr_home := None |}]
  ∧ b_UID <$> bindings (store (applied at0 found_eve).1) !! "s-eve" = Some 200003%Z.
Proof. by vm_compute. Qed.
End Demo.
Import Demo.

Lemma apply_touches_only_what_was_approved_witness :
  ∃ req d, Some move_ana = Some req ∧ aq_ContractVersion req = ContractVersion ∧ Recall store0 1000 (aq_CallID req) kindApply = recall_absent ∧
    LifecycleActive = LifecycleActive ∧ (MajorSupported tested "TrueNAS-25.10.1").1 = true ∧ (decodeDesired (aq_Desired req) at0).2 = inr d ∧
    authorised_calls digest digest 0 0 store0 req d (t_calls (nas (applied at0 move_ana).1)) (t_told (nas (applied at0 move_ana).1)).
Proof.
  destruct (apply_touches_only_what_was_approved digest digest 0 0 tested (λ _, None) at0 (Some move_ana) (applied at0 move_ana).1 (applied at0 move_ana).2)
    as (ms & ts & Hms & Hts & H & _); [by apply surjective_pairing|].
  change (t_calls (nas (applied at0 move_ana).1) = ms) in Hms. change (t_told (nas (applied at0 move_ana).1) = ts) in Hts. rewrite Hms, Hts. apply H. intros ->. revert Hms. by vm_compute.
Defined.

Definition run_ana : Server Target * (Err + Reply) := applyOne digest digest 0 0 move_ana at0.
Definition ana_outcome : ApplyOutcome := match run_ana.2 with inr (inr (o, _)) => o | _ => outcome "" "" "" "" "" 0 "" end.
Lemma apply_reaches_the_desired_state_witness :
  ∃ d v', (decodeDesired (aq_Desired move_ana) at0).2 = inr d ∧
    accounts (nas run_ana.1) = (λ u, if u_ID u =? u_ID ana then v' else u) <$> accounts (nas at0) ∧
    settled d (subject_of "" (index_groups (groups_on (nas at0))) v') ∧
    kept_fields d (subject_of "" (index_groups (groups_on (nas at0))) ana) (subject_of "" (index_groups (groups_on (nas at0))) v') ∧
    writes (decide_ (Some (subject_of "" (index_groups (groups_on (nas at0))) v')) d no_home) = false.
Proof.
  eapply (apply_reaches_the_desired_state digest digest 0 0 move_ana at0 run_ana.1 ana_outcome (ana_bound 200001) ana).
  - vm_compute. reflexivity.
  - vm_compute. reflexivity.
  - exact (list_elem_of_here ana [bob]).
  - reflexivity.
  - split; [reflexivity|]. vm_compute. discriminate.
  - split; apply (bool_decide_unpack _); vm_compute; exact I.
  - split; [|split]; [apply (bool_decide_unpack _); vm_compute; exact I..|]. vm_compute. lia.
Defined.

Definition after_ana : Server Target := (applied at0 move_ana).1.
Definition after_eve : Server Target := (applied after_ana found_eve).1.
Definition again : ApplyRequest := ask "c-1" "s-ana" "" "anything" ∅.
Lemma replay_repeats_the_answer_witness : applied after_eve again = (after_eve, answer_outcome 200 ana_outcome).
Proof.
  apply (replay_repeats_the_answer digest digest 0 0 tested (λ _, None) at0 after_ana after_eve move_ana 200 ana_outcome again).
  - vm_compute. reflexivity.
  - vm_compute. reflexivity.
  - reflexivity.
  - reflexivity.
  - apply rtc_once. apply (other_apply _ _ _ _ _ _ _ _ _ (Some found_eve) _ (applied after_ana found_eve).2); [|apply surjective_pairing].
    intros req [= <-]. vm_compute. discriminate.
  - vm_compute. discriminate.
  - reflexivity.
  - reflexivity.
  - reflexivity.
  - vm_compute. discriminate.
  - vm_compute. discriminate.
  - vm_compute. discriminate.
Defined.
