(* ===== verification/NasPlanned.v ===== *)
(** * NasPlanned: a plan against the apply it announces

    Facts about NasPlan.v beside NasApply.v, and the numbers identity.go hands
    out. *)

From S2P Require Import Prelude Text Fingerprint Username Tables Nas NasApply NasPlan NasConverge.

(** ** A plan only reads *)
(** Everything of the server that is not the target. *)
Definition own {W} (s : Server W) : Store * list LogCall * lifecycle := (store s, journal s, life s).
#[export] Instance own_observes `{!Nas W} : Observes (same (@own W)).
Proof. by split. Qed.

Section planned.
Context {W : Type} `{!Nas W, !NasLog W, !NasModel W, !Unicode} (sha256hex sha256 : string → string).

Lemma planOne_fingerprint req byName claimed cut (s s' : Server W) o b x :
  planOne sha256hex sha256 req byName claimed cut s = (s', inr o) → bindings (store s) !! ps_Subject req = Some b → byName !! b_Username b = Some x →
  ao_Effect o ≠ EffectBlocked → ao_Fingerprint o = fingerprintSubject sha256hex (Some x).
Proof.
  intros E Hb Hx He. revert E. unfold planOne. intros (s1 & dd & E1 & E)%bind_inv.
  assert (store s1 = store s) as Hs.
  { pose proof (steady_attempt (same own) _ (steady_decodeDesired (same own) (ps_Desired req)) s) as Ho. rewrite E1 in Ho. by injection Ho. }
  destruct dd as [e|d]; [injection E as _ <-; done|]. apply bind_inv in E as (s2 & r & E2 & E).
  unfold attempt, reading_store in E2. rewrite Hs, Hb in E2. destruct (store_fails _ _); injection E2 as _ <-; [injection E as _ <-; done|].
  rewrite Hx in E. apply bind_inv in E as (s3 & h & _ & E). destruct h as [e|home]; [injection E as _ <-; done|].
  apply bind_inv in E as (s4 & q & _ & [= _ <-]). by destruct (writes _), q as [|[]].
Qed.
Lemma plan_each_lookup reqs byName claimed cut (s s' : Server W) os i r o :
  plan_each sha256hex sha256 reqs byName claimed cut s = (s', inr os) → reqs !! i = Some r → os !! i = Some o →
  ∃ s1 s2, own s1 = own s ∧ planOne sha256hex sha256 r byName claimed cut s1 = (s2, inr o).
Proof.
  revert s os i. induction reqs as [|r0 reqs IH]; intros s os i; [done|]. simpl.
  intros (s1 & o0 & E1 & (s2 & os' & E2 & [= <- <-])%bind_inv)%bind_inv. pose proof (steady_planOne (same own) sha256hex sha256 r0 byName claimed cut s) as Ho.
  rewrite E1 in Ho. simpl in Ho. destruct i as [|i]; simpl; [intros [= ->] [= ->]; eauto|]. intros Hr Hos. destruct (IH _ _ _ E2 Hr Hos) as (s3 & s4 & ? & ?).
  exists s3, s4. split; [congruence|done].
Qed.
Lemma by_name_lookup xs (m : gmap string Subject) x : NoDup (s_Username <$> xs) → x ∈ xs → foldl (λ m x, <[s_Username x := x]> m) m xs !! s_Username x = Some x.
Proof.
  induction xs as [|y xs IH] using rev_ind; [by intros _ ?%not_elem_of_nil|]. rewrite fmap_app, foldl_app. simpl. intros (Hn & Hd & _)%NoDup_app.
  intros [Hx| ->%list_elem_of_singleton]%elem_of_app; [|by rewrite lookup_insert_eq]. rewrite lookup_insert_ne; [by apply IH|].
  intros E. apply (Hd (s_Username x)); [by apply list_elem_of_fmap_2|]. rewrite <-E. set_solver.
Qed.
Lemma readSubjects_finds (s s1 : Server W) snap v :
  readSubjects s = (s1, inr snap) → sn_Truncated snap = false → accounts_ok (accounts (nas s)) → groups_ok (groups_on (nas s)) →
  v ∈ accounts (nas s) → of_people v →
  ∃ self, by_name snap !! u_Username v = Some (subject_of self (index_groups (groups_on (nas s))) v).
Proof.
  intros E Hc [_ Hn] Hg Hv [Hb Hu]. revert E Hc. unfold readSubjects, readSubjectsWhere. intros (s3 & us & E & E2)%bind_inv.
  unfold on_nas in E. destruct (user_query (nas s) _) as [w us'] eqn:Eq. injection E as <- ->.
  pose proof (keep_user_query (nas s) every_user) as Kt. rewrite Eq in Kt. apply user_query_reads in Eq.
  assert (filter (λ u, selected every_user u = true) (accounts (nas s)) = accounts (nas s)) as Hall.
  { clear. generalize (accounts (nas s)). intros us. induction us as [|u l IH]; [done|]. rewrite filter_cons_True by done. by f_equal. }
  rewrite Hall in Eq.
  revert E2. intros (s4 & g & E4 & (s5 & sv & _ & [= _ <-])%bind_inv)%bind_inv. cbn [sn_Truncated]. intros Hc. rewrite Hc. apply Nat.ltb_ge in Hc.
  rewrite take_ge in Eq by (rewrite Eq, length_take in Hc; lia). subst us.
  assert (g = index_groups (groups_on (nas s))) as ->.
  { unfold table in Kt. simpl in Kt. injection Kt as _ Kg. rewrite <-Kg. eapply (groupIndex_reads (with_nas s w)); [|exact E4]. simpl. by rewrite Kg. }
  exists (selfName (nas sv)). set (h := subject_of _ _). change (u_Username v) with (s_Username (h v)). unfold by_name. cbn [sn_Subjects].
  apply by_name_lookup; [|apply list_elem_of_fmap_2, list_elem_of_filter; split; [|done]].
  - rewrite <-list_fmap_compose. change (NoDup (u_Username <$> withoutSystemAccounts (accounts (nas s)))). eapply sublist_NoDup; [exact Hn|].
    apply fmap_sublist, sublist_filter.
  - rewrite Hb. destruct (Z.ltb_spec (u_UID v) systemUIDCeiling); [lia|done].
Qed.
Lemma handlePlan_inv preq (s s1 : Server W) r :
  handlePlan sha256hex sha256 (Some preq) s = (s1, inr (plan_answer r)) → pn_Current r = true →
  ∃ snap s2 s3 claimed, readSubjects s = (s2, inr snap) ∧ own s2 = own s ∧ pn_Truncated r = sn_Truncated snap ∧
    plan_each sha256hex sha256 (pr_Subjects preq) (by_name snap) claimed (sn_Truncated snap) s2 = (s3, inr (pn_Outcomes r)).
Proof.
  unfold handlePlan. destruct (negb _); [done|]. destruct (_ && _); [done|]. intros (s2 & v & E & E2)%bind_inv Hc.
  destruct v as [e|[snap current]]; [done|]. apply bind_inv in E2 as (s3 & c & Ec & E2).
  unfold attempt, reading_store in Ec. destruct (store_fails _ _); injection Ec as <- <-; [done|].
  apply bind_inv in E2 as (s4 & os & E4 & [= <- <-]). simpl in *. subst current. exists snap, s2, s4. eexists. split_and!; [|..|done|exact E4].
  - revert E. unfold plan_view. intros (s5 & v & E & E5)%bind_inv. unfold attempt in E. destruct (readSubjects s) as [s6 r6] eqn:E6. injection E as <- <-.
    destruct r6 as [e|snap']; [|by injection E5 as <- <-]. by apply bind_inv in E5 as (s7 & [e7|[sn|]] & _ & [=]).
  - unfold plan_view in E.
    revert E. intros (s5 & v & E & E5)%bind_inv. pose proof (steady_attempt (same own) _ (steady_readSubjectsWhere (same own) every_user) s) as Ho.
    unfold readSubjects in E. rewrite E in Ho. destruct v as [e|snap']; [|by injection E5 as <- _]. by apply bind_inv in E5 as (s7 & [e7|[sn|]] & _ & [=]).
Qed.
End planned.

(** ** Properties *)
(** C27. A plan only reads, and the state it announces for a bound account is the
    state the apply finds. Asking for a plan changes nothing: no mutating call is
    made, and the store, the log and the lifecycle are as they were. When a current
    and complete plan does not block a bound person whose account is on the target
    under its bound name, an apply that carries the plan's fingerprint, while the
    accounts, the groups and the bindings are as the plan saw them, is not turned
    away as stale. The target's answers are its tables, with no two accounts or
    groups of one key or name. The bound name is needed: an account renamed on the
    target is planned as a creation, with the fingerprint of an absent account,
    while the apply finds it by its number and is turned away
    ([plan_misses_a_rename]). *)
Theorem planned_apply_is_not_stale `{!Nas W, !NasLog W, !NasModel W, !Unicode} sha256hex sha256 floor ceiling preq (s s1 : Server W) r :
  handlePlan sha256hex sha256 (Some preq) s = (s1, inr (plan_answer r)) →
  mutations (nas s1) = mutations (nas s) ∧ own s1 = own s ∧
  (pn_Current r = true → pn_Truncated r = false → accounts_ok (accounts (nas s)) → groups_ok (groups_on (nas s)) →
   ∀ i ps o b v req s2 s3 f, pr_Subjects preq !! i = Some ps → pn_Outcomes r !! i = Some o → ao_Effect o ≠ EffectBlocked →
     bindings (store s) !! ps_Subject ps = Some b → v ∈ accounts (nas s) → u_Username v = b_Username b → of_people v →
     tbl s2 = tbl s → bindings (store s2) = bindings (store s) → aq_Subject req = ps_Subject ps → aq_Fingerprint req = ao_Fingerprint o →
     applyOne sha256hex sha256 floor ceiling req s2 = (s3, inr (inl f)) → f_stale f = false).
Proof.
  intros E. split_and!.
  - destruct (steady_handlePlan hears sha256hex sha256 (Some preq) s) as [Hm _]. by rewrite E in Hm.
  - pose proof (steady_handlePlan (same own) sha256hex sha256 (Some preq) s) as Hm. by rewrite E in Hm.
  - intros Hc Ht Ha Hg i ps o b v req s2 s3 f Hps Ho He Hb Hv Hn Hp T2 Tb Hsub Hfp Eap.
    destruct (handlePlan_inv _ _ _ _ _ _ E Hc) as (snap & s4 & s5 & claimed & Er & Hown & Htr & Ep). rewrite Htr in Ht.
    destruct (readSubjects_finds _ _ _ _ Er Ht Ha Hg Hv Hp) as [self Hx]. destruct (plan_each_lookup _ _ _ _ _ _ _ _ _ _ _ _ Ep Hps Ho) as (s6 & s7 & Ho6 & Eo).
    rewrite Hown in Ho6. injection Ho6 as Hst _ _. rewrite Hn in Hx. eapply planOne_fingerprint in Eo; [|by rewrite Hst|exact Hx|done]. rewrite Eo in Hfp.
    unfold tbl, table in T2. injection T2 as Ta Tg. revert Eap. unfold applyOne. rewrite or_fail_run.
    pose proof (decodeDesired_keeps (aq_Desired req) s2) as Hk. destruct (decodeDesired (aq_Desired req) s2) as [s8 [e|d]] eqn:Ed; simpl in Hk; subst s8; [by intros [= <- <-]|].
    intros (s9 & l & El & Eap)%bind_inv. eapply locate_finds in El; [|by rewrite Tb, Hsub|by rewrite Ta|done|done|by rewrite Ta|by rewrite Tg].
    destruct El as [[e ->]|(l0 & -> & _ & Hl)]; [by injection Eap as _ <-|]. destruct Hl as [[c Hcf]|[Hcf [self' Hx']]]; rewrite Hcf in Eap; [done|].
    rewrite Tg in Hx'. rewrite Hx' in Eap. rewrite Hfp, bool_decide_true in Eap by done. cbn [negb] in Eap.
    destruct (then_remember req d _ _ (converge_calls sha256hex req d _) _ _ _ Eap) as (ms & ts & _ & _ & _ & Hf). exact Hf.
Qed.

(** ** Numbers *)
(** Claims one after another, each with the range it was configured with and the
    highest number then seen on the target. *)
Fixpoint claim_all (st : Store) (asks : list (Z * Z * Z)) : list (option Z) :=
  match asks with
  | [] => []
  | (floor, ceiling, seen) :: asks => let '(st, n) := ClaimID st floor ceiling seen in n :: claim_all st asks
  end.
Definition int64_max : Z := 2^63 - 1.
Definition ask_ok '(floor, ceiling, seen) : Prop := (0 < floor <= int64_max ∧ ceiling < int64_max ∧ seen <= ceiling)%Z.
Definition low_water (st : Store) (n : Z) : Prop := ∀ h, high_water st = Some h → (h <= n)%Z.
Lemma int64_id n : (- 2^63 <= n < 2^63)%Z → int64 n = n.
Proof. intros Hn. unfold int64. rewrite Z.mod_small; lia. Qed.
Lemma ClaimID_spec st floor ceiling seen st' n :
  ask_ok (floor, ceiling, seen) → low_water st (int64_max - 1) → ClaimID st floor ceiling seen = (st', n) →
  low_water st' (int64_max - 1) ∧
  match n with
  | Some n => (floor <= n <= ceiling)%Z ∧ (seen < n)%Z ∧ low_water st (n - 1) ∧ high_water st' = Some n
  | None => st' = st ∧ ((ceiling < floor)%Z ∨ (ceiling <= seen)%Z ∨ ∃ h, high_water st = Some h ∧ (ceiling <= h)%Z)
  end.
Proof.
  unfold ask_ok, low_water, int64_max. intros (Hf & Hc & Hs) Hh. unfold ClaimID.
  rewrite (int64_id (floor - 1)) by lia. set (a := match high_water st with Some n => _ | None => _ end).
  assert (floor - 1 <= a < 2^63 - 1 ∧ (∀ h, high_water st = Some h → h <= a) ∧ (a = floor - 1 ∨ high_water st = Some a))%Z as (Ha & Hah & Haw).
  { subst a. destruct (high_water st) as [h|]; [|split_and!; [lia..|done|by left]]. specialize (Hh h eq_refl).
    destruct (Z.ltb_spec (floor - 1) h); split_and!; try lia; auto; intros ? [= <-]; lia. }
  clearbody a. set (last := if (a <? seen)%Z then seen else a).
  assert (a <= last ∧ seen <= last ∧ (last = a ∨ last = seen))%Z as (H1 & H2 & H3) by (subst last; destruct (Z.ltb_spec a seen); lia).
  clearbody last. rewrite (int64_id (last + 1)) by lia. destruct (Z.ltb_spec ceiling (last + 1)) as [Hlt|Hle]; intros [= <- <-].
  - split; [done|]. split; [done|]. destruct H3 as [->| ->]; [|right; left; lia]. destruct Haw as [->|Hw]; [left; lia|right; right; exists a; split; [done|lia]].
  - simpl. split_and!; [intros h [= <-]; lia|lia..| |done]. intros h Hh'. specialize (Hah h Hh'). lia.
Qed.
Lemma claim_all_above st asks n : low_water st (int64_max - 1) → Forall ask_ok asks → Some n ∈ claim_all st asks → low_water st (n - 1).
Proof.
  intros Hl Ha. revert st Hl. induction Ha as [|[[floor ceiling] seen] asks Hok Ha IH]; intros st Hl; [by intros ?%not_elem_of_nil|]. simpl.
  destruct (ClaimID st floor ceiling seen) as [st' m] eqn:E. destruct (ClaimID_spec _ _ _ _ _ _ Hok Hl E) as [Hl' Hm].
  intros [<-|Hn]%elem_of_cons; [by destruct Hm as (_ & _ & ? & _)|]. specialize (IH _ Hl' Hn). destruct m as [m|]; [|by destruct Hm as [-> _]].
  destruct Hm as (_ & _ & Hlow & Hw). intros h Hh. specialize (Hlow h Hh). specialize (IH m Hw). lia.
Qed.

(** A number is given once. Over any sequence of claims, the ranges
    reconfigured and the target read in between as it may, each number claimed lies
    in the range then configured, above every number then seen on the target and
    above every number claimed before, also those of accounts since deleted, and
    the 64-bit arithmetic does not wrap; a claim is refused only when the range has
    none left above those. *)
Theorem claimed_numbers_increase st asks :
  low_water st (int64_max - 1) → Forall ask_ok asks → length (claim_all st asks) = length asks ∧
  (∀ i floor ceiling seen n, asks !! i = Some (floor, ceiling, seen) → claim_all st asks !! i = Some (Some n) →
     (floor <= n <= ceiling ∧ seen < n)%Z ∧ low_water st (n - 1)) ∧
  (∀ i j m n, i < j → claim_all st asks !! i = Some (Some m) → claim_all st asks !! j = Some (Some n) → (m < n)%Z) ∧
  (∀ i floor ceiling seen, asks !! i = Some (floor, ceiling, seen) → claim_all st asks !! i = Some None →
     (ceiling < floor)%Z ∨ (ceiling <= seen)%Z ∨ (∃ h, high_water st = Some h ∧ (ceiling <= h)%Z) ∨ ∃ j n, j < i ∧ claim_all st asks !! j = Some (Some n) ∧ (ceiling <= n)%Z).
Proof.
  intros Hl Ha. revert st Hl. induction Ha as [|[[floor ceiling] seen] asks Hok Ha IH]; intros st Hl; [done|]. simpl.
  destruct (ClaimID st floor ceiling seen) as [st' m] eqn:E. destruct (ClaimID_spec _ _ _ _ _ _ Hok Hl E) as [Hl' Hm].
  destruct (IH _ Hl') as (Hlen & Hin & Hord & Hno). split_and!.
  - simpl. by rewrite Hlen.
  - intros [|i] f c o n; simpl; [intros [= <- <- <-] [= ->]; by destruct Hm as (? & ? & ? & _)|]. intros Hi Hn. destruct (Hin _ _ _ _ _ Hi Hn) as [? _]. split; [done|].
    eapply (claim_all_above st ((floor, ceiling, seen) :: asks)); [done|by constructor|]. simpl. rewrite E. apply elem_of_cons. right. by eapply list_elem_of_lookup_2.
  - intros [|i] [|j] a b Hij; simpl; [lia|intros [= ->] Hn|lia|intros Hm' Hn; apply (Hord i j); [lia|done..]].
    apply list_elem_of_lookup_2, claim_all_above in Hn; [|done..]. destruct Hm as (_ & _ & _ & Hw). specialize (Hn _ Hw). lia.
  - intros [|i] f c o; simpl; [intros [= <- <- <-] [= ->]; destruct Hm as [_ ?]; naive_solver|]. intros Hi Hn.
    destruct (Hno _ _ _ _ Hi Hn) as [?|[?|[(h & Hh & Hc)|(j & n & Hj & Hj' & Hc)]]]; [auto..| |].
    + destruct m as [m|]; [|destruct Hm as [-> _]; eauto 6]. destruct Hm as (_ & _ & _ & Hw). rewrite Hw in Hh. injection Hh as <-.
      right; right; right. exists 0, m. split_and!; [lia|done|done].
    + right; right; right. exists (S j), n. split_and!; [lia|done|done].
Qed.

(** ** On the target of NasConverge *)
Import Demo.
Definition plan_for (subject email : string) (desired : gmap string FieldValue) : PlanRequest :=
  {| pr_ContractVersion := ContractVersion; pr_Subjects := [{| ps_Subject := subject; ps_Email := email; ps_Desired := desired |}]; pr_AcknowledgeScope := false |}.
Definition planned (s : Server Target) (subject email : string) (desired : gmap string FieldValue) : Server Target * (Err + PlanAnswer) :=
  handlePlan digest digest (Some (plan_for subject email desired)) s.
Definition answer_of (r : Server Target * (Err + PlanAnswer)) : PlanResponse :=
  match r.2 with inr (plan_answer r) => r | _ => {| pn_Outcomes := []; pn_Current := false; pn_TakenAt := 0; pn_Truncated := true |} end.
Definition only_outcome (r : PlanResponse) : ApplyOutcome := default (outcome "" "" "" "" "" 0 "") (head (pn_Outcomes r)).
Definition ana_planned : ApplyOutcome := only_outcome (answer_of (planned at0 "s-ana" "" wanted)).
(** An apply that fails for another reason. *)
Definition ill_formed : ApplyRequest := ask "c-9" "s-ana" "" (ao_Fingerprint ana_planned) {[FieldGroup := Flag true]}.
Definition failed_with : Failure := {| f_status := 400; f_err := bad_field; f_stale := false |}.
Lemma planned_apply_is_not_stale_witness :
  ao_Effect ana_planned = EffectApply ∧ applyOne digest digest 0 0 ill_formed at0 = (at0, inr (inl failed_with)) ∧ f_stale failed_with = false.
Proof.
  split; [vm_compute; reflexivity|]. split; [vm_compute; reflexivity|].
  destruct (planned_apply_is_not_stale digest digest 0 0 (plan_for "s-ana" "" wanted) at0 (planned at0 "s-ana" "" wanted).1
    (answer_of (planned at0 "s-ana" "" wanted))) as (_ & _ & H); [vm_compute; reflexivity|].
  eapply (H eq_refl eq_refl) with (i := 0) (o := ana_planned) (b := ana_bound 200001) (v := ana) (req := ill_formed) (s2 := at0) (s3 := at0).
  - split; apply (bool_decide_unpack _); vm_compute; exact I.
  - split; [|split]; [apply (bool_decide_unpack _); vm_compute; exact I..|]. vm_compute. lia.
  - reflexivity.
  - vm_compute. reflexivity.
  - vm_compute. discriminate.
  - vm_compute. reflexivity.
  - exact (list_elem_of_here ana [bob]).
  - reflexivity.
  - split; [reflexivity|]. vm_compute. discriminate.
  - reflexivity.
  - reflexivity.
  - reflexivity.
  - reflexivity.
  - vm_compute. reflexivity.
Defined.

Definition four_asks : list (Z * Z * Z) := [(200000, 999999, 200002); (200000, 999999, 0); (300000, 300000, 0); (300000, 300000, 0)]%Z.
Lemma claimed_numbers_increase_witness :
  claim_all store0 four_asks = [Some 200003%Z; Some 200004%Z; Some 300000%Z; None] ∧
  (∀ i j m n, i < j → claim_all store0 four_asks !! i = Some (Some m) → claim_all store0 four_asks !! j = Some (Some n) → (m < n)%Z).
Proof.
  split; [vm_compute; reflexivity|]. apply (claimed_numbers_increase store0 four_asks).
  - intros h [= <-]. vm_compute. discriminate.
  - repeat constructor; vm_compute; congruence.
Defined.

(** A bound account's name is now another account's: the plan says the change
    would be applied and carries that account's fingerprint, the apply refuses. *)
Definition ana_replaced : Server Target := with_store at0 (set_bindings store0 {["s-ana" := ana_bound 200077]}).
Example plan_misses_a_reused_name :
  let o := only_outcome (answer_of (planned ana_replaced "s-ana" "" wanted)) in
  ao_Effect o = EffectApply ∧
  match (applied ana_replaced (ask "c-3" "s-ana" "" (ao_Fingerprint o) wanted)).2 with
  | answer_outcome st o' => st = 409%Z ∧ ao_Effect o' = EffectBlocked
  | _ => False
  end.
Proof. by vm_compute. Qed.
(** A person with no account here and no address: the plan announces an account
    the apply has no name for. *)
Example plan_misses_a_blank_address :
  let o := only_outcome (answer_of (planned at0 "s-new" "" wanted)) in
  ao_Effect o = EffectApply ∧
  match (applied at0 (ask "c-4" "s-new" "" (ao_Fingerprint o) wanted)).2 with
  | answer_outcome st o' => st = 422%Z ∧ ao_Effect o' = EffectBlocked
  | _ => False
  end.
Proof. by vm_compute. Qed.
(** A bound account was renamed on the target: the plan announces the creation of
    an account of the old name, with the fingerprint of an absent one; the apply
    finds the account by its number and answers that the plan is stale. *)
Definition renamed (name : string) (u : nasUser) : nasUser :=
  {| u_ID := u_ID u; u_Username := name; u_UID := u_UID u; u_Locked := u_Locked u; u_SMB := u_SMB u; u_PasswordDisabled := u_PasswordDisabled u;
     u_Builtin := u_Builtin u; u_Groups := u_Groups u; u_Home := u_Home u |}.
Definition ana_renamed : Server Target := with_nas at0 (with_users target [renamed "ana2" ana; bob]).
Example plan_misses_a_rename :
  let o := only_outcome (answer_of (planned ana_renamed "s-ana" "" wanted)) in
  (ao_Effect o, ao_Detail o, ao_Fingerprint o) = (EffectApply, "Creates ana.", fingerprintSubject digest None) ∧
  match (applied ana_renamed (ask "c-5" "s-ana" "" (ao_Fingerprint o) wanted)).2 with
  | answer_error st code _ => st = 409%Z ∧ code = "PLAN_STALE"
  | _ => False
  end.
Proof. by vm_compute. Qed.
