(* ===== verification/NasReach.v ===== *)
(** * NasReach: where people connect

    addons/truenas/reach.go, with the pages that read it: storage_status.go,
    handleHomes of home.go and settings.go. The middleware's calls are a class;
    the last read of the folder permissions is a cache the functions thread. Where
    the code sorts by a key two elements share, the model keeps their order. *)

From S2P Require Import Prelude Text Username Tables Nas NasApply.

(** ** Permissions *)
Definition accessNone : string := "".
Definition accessRead : string := "read".
Definition accessChange : string := "change".
Definition reachMaxAge : Z := 5 * 60 * 10^9.

Record PlaceUsage := { us_UsedBytes : Z; us_QuotaBytes : Z }.
Record Place := {
  pc_Share : string; pc_Folder : string; pc_Path : string; pc_Access : string; pc_Dataset : string; pc_Home : bool;
  pc_Usage : option PlaceUsage;
}.
Record aclEntry := { ac_Tag : string; ac_ID : Z; ac_Type : string; ac_Perms : gmap string bool; ac_Flags : gmap string bool }.
(** A folder as read, aclPlace of the code. *)
Record aclFolder := { fo_share : string; fo_folder : string; fo_path : string; fo_dataset : string; fo_ownerGID : Z; fo_acl : list aclEntry }.
Definition no_folder : aclFolder := {| fo_share := ""; fo_folder := ""; fo_path := ""; fo_dataset := ""; fo_ownerGID := 0; fo_acl := [] |}.
Definition principals : Type := gset Z.

Definition named (m : gmap string bool) (k : string) : bool := default false (m !! k).
Definition applies (p : aclFolder) (who : principals) (perm : string) (e : aclEntry) : bool :=
  negb (named (ac_Flags e) "INHERIT_ONLY" || negb (named (ac_Perms e) perm)) &&
  ((ac_Tag e =? "everyone@") || (ac_Tag e =? "GROUP") && bool_decide (ac_ID e ∈ who) || (ac_Tag e =? "group@") && bool_decide (fo_ownerGID p ∈ who)).
Fixpoint first_allows (p : aclFolder) (who : principals) (perm : string) (acl : list aclEntry) : bool :=
  match acl with
  | [] => false
  | e :: acl => if applies p who perm e then ac_Type e =? "ALLOW" else first_allows p who perm acl
  end.
Definition allowed (p : aclFolder) (who : principals) (perm : string) : bool := first_allows p who perm (fo_acl p).
Definition access (p : aclFolder) (who : principals) : string :=
  if negb (allowed p who "READ_DATA") then accessNone else if allowed p who "WRITE_DATA" then accessChange else accessRead.
Definition accessRank (a : string) : nat := if a =? accessChange then 2 else if a =? accessRead then 1 else 0.

Definition place_compare : Place → Place → comparison :=
  cmp_then (cmp_on (λ p, if pc_Home p then 0 else 1) Nat.compare) (cmp_then (cmp_on pc_Share String.compare) (cmp_on pc_Folder String.compare)).
Definition sortPlaces (ps : list Place) : list Place := stable_sort place_compare ps.
Definition roots_of (read : list aclFolder) : gmap string aclFolder :=
  foldl (λ m p, if fo_folder p =? "" then <[fo_share p := p]> m else m) ∅ read.
Definition baseline (p : aclFolder) (beyond : option principals) : nat :=
  match beyond with Some b => accessRank (access p b) | None => 0 end.
Definition place_of (p : aclFolder) (a : string) : Place :=
  {| pc_Share := fo_share p; pc_Folder := fo_folder p; pc_Path := fo_path p; pc_Access := a; pc_Dataset := fo_dataset p; pc_Home := false; pc_Usage := None |}.
Definition place_for (roots : gmap string aclFolder) (who : principals) (beyond : option principals) (p : aclFolder) : option Place :=
  let got := access p who in
  let floor := baseline p beyond in
  let root := default no_folder (roots !! fo_share p) in
  if (fo_folder p <>? "") && negb (allowed root who "EXECUTE") then None
  else
    let floor := if (fo_folder p <>? "") && (floor <? accessRank (access root who)) then accessRank (access root who) else floor in
    if accessRank got <=? floor then None else Some (place_of p got).
Definition placesFor (read : list aclFolder) (who : principals) (beyond : option principals) : list Place :=
  sortPlaces (omap (place_for (roots_of read) who beyond) read).

(** ** Shares and datasets *)
Record smbShare := { sh_Name : string; sh_Path : string; sh_Enabled : bool }.
Definition trim_right_slash (s : string) : string := string_of_list_ascii (TrimRight "/" (list_ascii_of_string s)).
Definition splitList (raw : string) : list string :=
  filter (λ v, v ≠ "") ((λ w, TrimSpace (string_of_list_ascii w)) <$> split_on "," (list_ascii_of_string raw)).
Definition shareScope (names : list string) : option (gset string) :=
  if bool_decide (names = []) then None else Some (list_to_set names).
Definition considers (scope : option (gset string)) (share : string) : bool :=
  match scope with None => true | Some s => bool_decide (share ∈ s) end.
Definition has_under (at_ path : string) : option string :=
  string_of_list_ascii <$> drop_prefix (list_ascii_of_string (path +:+ "/")) (list_ascii_of_string at_).
Fixpoint shareAt (shares : list smbShare) (at_ : string) : option (smbShare * string) :=
  match shares with
  | [] => None
  | sh :: shares =>
      if at_ =? sh_Path sh then Some (sh, "")
      else match has_under at_ (sh_Path sh) with Some inside => Some (sh, inside) | None => shareAt shares at_ end
  end.
Fixpoint dataset_from (fuel : nat) (mounts : gmap string string) (p : string) : string :=
  match fuel with
  | 0 => ""
  | S fuel =>
      if (p =? "/") || (p =? ".") then ""
      else match mounts !! p with Some name => name | None => dataset_from fuel mounts (Dir_ p) end
  end.
Definition datasetAt (mounts : gmap string string) (at_ : string) : string := dataset_from (String.length at_ + 2) mounts at_.
Definition gidsOf (groups : list nasGroup) : gmap string Z := foldl (λ m g, <[id_String (gr_ID g) := gr_GID g]> m) ∅ groups.

(** ** Reading *)
Record AclAnswer := { an_ACLType : string; an_GID : Z; an_ACL : list aclEntry }.
(** An account as storage.status reads it. *)
Record accountRow := { ar_UID : Z; ar_SMB : bool; ar_Locked : bool; ar_PasswordDisabled : bool; ar_Groups : list apiID; ar_Home : string }.
Class Shares (W : Type) := {
  smb_query : W → W * (Err + list smbShare);
  dataset_query : W → W * (Err + list (string * string));
  getacl : W → string → W * (Err + AclAnswer);
  listdir : W → string → W * (Err + list (string * string));
  quota_table : W → string → W * (Err + list (Z * (Z * Z)));
  account_rows : W → string → W * (Err + list accountRow);
}.
(** One read of the permissions, shareRead of the code. *)
Record aclRead := { rd_places : list aclFolder; rd_shares : list smbShare; rd_mounts : gmap string string }.
Definition nothing_read : aclRead := {| rd_places := []; rd_shares := []; rd_mounts := ∅ |}.
Record reachCache := { readAt : option Z; last : aclRead }.
Definition no_cache : reachCache := {| readAt := None; last := nothing_read |}.

Section reach.
Context {W : Type} `{!Nas W, !Shares W} (scope : option (gset string)).

Definition enabledShares : M W (list smbShare) :=
  all ← wrap "read shares: " (on_nas smb_query);
  let trimmed := (λ sh, {| sh_Name := sh_Name sh; sh_Path := trim_right_slash (sh_Path sh); sh_Enabled := sh_Enabled sh |}) <$> all in
  mret (stable_sort (λ a b, Nat.compare (String.length (sh_Path b)) (String.length (sh_Path a)))
    (filter (λ sh, sh_Enabled sh && HasPrefix (sh_Path sh) "/mnt/" && considers scope (sh_Name sh) = true) trimmed)).
Definition datasetMounts : M W (gmap string string) :=
  rows ← wrap "read datasets: " (on_nas dataset_query);
  mret (foldl (λ m '(name, mountpoint), if mountpoint <>? "" then <[trim_right_slash mountpoint := name]> m else m) ∅ rows).
Definition readACL (at_ : string) : M W aclFolder :=
  got ← wrap ("read the permissions of " +:+ at_ +:+ ": ") (on_nas (λ w, getacl w at_));
  mret {| fo_share := ""; fo_folder := ""; fo_path := at_; fo_dataset := ""; fo_ownerGID := an_GID got;
          fo_acl := if an_ACLType got =? "NFS4" then an_ACL got else [] |}.
Definition placed (p : aclFolder) (share folder dataset : string) : aclFolder :=
  {| fo_share := share; fo_folder := folder; fo_path := fo_path p; fo_dataset := dataset; fo_ownerGID := fo_ownerGID p; fo_acl := fo_acl p |}.
Fixpoint read_dirs (mounts : gmap string string) (share : string) (dirs : list (string * string)) : M W (list aclFolder) :=
  match dirs with
  | [] => mret []
  | (name, path) :: dirs =>
      r ← attempt (readACL path);
      match r with
      | inl e => if e_kind e =? ErrNoSuchPath then read_dirs mounts share dirs else fails e
      | inr p => ps ← read_dirs mounts share dirs; mret (placed p share name (datasetAt mounts path) :: ps)
      end
  end.
Fixpoint read_shares (mounts : gmap string string) (shares : list smbShare) : M W (list aclFolder) :=
  match shares with
  | [] => mret []
  | sh :: shares =>
      root ← readACL (sh_Path sh);
      dirs ← wrap ("list " +:+ sh_Name sh +:+ ": ") (on_nas (λ w, listdir w (sh_Path sh)));
      inside ← read_dirs mounts (sh_Name sh) dirs;
      ps ← read_shares mounts shares;
      mret (placed root (sh_Name sh) "" (datasetAt mounts (sh_Path sh)) :: inside ++ ps)
  end.
Definition readSharesACLs : M W aclRead :=
  shares ← enabledShares;
  mounts ← datasetMounts;
  ps ← read_shares mounts shares;
  mret {| rd_places := ps; rd_shares := shares; rd_mounts := mounts |}.
(** The read, when it was made and whether it is current; fails only when
    nothing was ever read. *)
Definition readACLs_ (c : reachCache) : M W (reachCache * (Err + aclRead * Z * bool)) := λ s,
  let reread := λ s : Server W,
    match readSharesACLs s with
    | (s, inl e) =>
        (s, inr (c, match readAt c with
                    | None => inl (wrapped "the folder permissions have not been read yet: " e)
                    | Some t => inr (last c, t, false)
                    end))
    | (s, inr fresh) => let c := {| readAt := Some (clock (nas s)); last := fresh |} in (s, inr (c, inr (fresh, clock (nas s), true)))
    end in
  match readAt c with
  | Some t => if (clock (nas s) - t <? reachMaxAge)%Z then (s, inr (c, inr (last c, t, true))) else reread s
  | None => reread s
  end.
Definition userQuotas (dataset : string) : M W (option (gmap Z PlaceUsage)) :=
  r ← attempt (on_nas (λ w, quota_table w dataset));
  mret match r with
       | inl _ => None
       | inr rows => Some (foldl (λ m '(i, (used, quota)), <[i := {| us_UsedBytes := used; us_QuotaBytes := quota |}]> m) ∅ rows)
       end.
(** One read of a dataset's table. *)
Definition quotas_of (seen : gmap string (option (gmap Z PlaceUsage))) (dataset : string) :
    M W (gmap string (option (gmap Z PlaceUsage)) * option (gmap Z PlaceUsage)) :=
  match seen !! dataset with
  | Some table => mret (seen, table)
  | None => table ← userQuotas dataset; mret (<[dataset := table]> seen, table)
  end.

(** *** What each group opens *)
Record ReachResponse := { re_ReadAt : Z; re_Current : bool; re_Groups : gmap string (list Place); re_Everyone : list Place }.
Inductive Answered (A : Type) := answered (a : A) | refused (status : Z) (code : string).
#[global] Arguments answered {_} _.
#[global] Arguments refused {_} _ _.
Definition group_reach (read : list aclFolder) (groups : list nasGroup) : gmap string (list Place) :=
  foldl (λ m g, if gr_Builtin g then m else <[gr_Name g := placesFor read {[gr_GID g]} (Some ∅)]> m) ∅ groups.
Definition handleReach (c : reachCache) : M W (reachCache * Answered ReachResponse) :=
  r ← attempt readGroups;
  match r with
  | inl e => mret (c, refused (statusFor e) "TARGET_UNREADABLE")
  | inr groups =>
      '(c, r) ← readACLs_ c;
      mret (c, match r with
               | inl _ => refused 503 "REACH_NEVER_READ"
               | inr (read, at_, current) =>
                   answered {| re_ReadAt := at_; re_Current := current; re_Groups := group_reach (rd_places read) groups;
                               re_Everyone := placesFor (rd_places read) ∅ None |}
               end)
  end.

(** *** One person's places *)
Definition groups_gids (byID : gmap string Z) (ids : list apiID) : principals := list_to_set (omap (λ i, byID !! id_String i) ids).
Definition with_usage (p : Place) (u : PlaceUsage) : Place :=
  {| pc_Share := pc_Share p; pc_Folder := pc_Folder p; pc_Path := pc_Path p; pc_Access := pc_Access p; pc_Dataset := pc_Dataset p;
     pc_Home := pc_Home p; pc_Usage := Some u |}.
Fixpoint fill_usage (uid : Z) (seen : gmap string (option (gmap Z PlaceUsage))) (ps : list Place) : M W (list Place) :=
  match ps with
  | [] => mret []
  | p :: ps =>
      if (pc_Access p <>? accessChange) || (pc_Dataset p =? "") then ps ← fill_usage uid seen ps; mret (p :: ps)
      else
        '(seen, table) ← quotas_of seen (pc_Dataset p);
        ps ← fill_usage uid seen ps;
        mret (match table with
              | None => p
              | Some t => with_usage p (default {| us_UsedBytes := 0; us_QuotaBytes := 0 |} (t !! uid))
              end :: ps)
  end.
Definition memberPlaces (c : reachCache) (uid : Z) (groupIDs : list apiID) (home : string) : M W (reachCache * (Err + list Place)) :=
  r ← attempt readGroups;
  match r with
  | inl e => mret (c, inl e)
  | inr groups =>
      '(c, r) ← readACLs_ c;
      match r with
      | inl e => mret (c, inl e)
      | inr (read, _, _) =>
          let who := groups_gids (gidsOf groups) groupIDs in
          let ps := placesFor (rd_places read) who None in
          let ps := match shareAt (rd_shares read) home with
                    | Some (sh, inside) =>
                        if inside <>? "" then
                          sortPlaces (ps ++ [{| pc_Share := sh_Name sh; pc_Folder := inside; pc_Path := home; pc_Access := accessChange;
                                                pc_Dataset := datasetAt (rd_mounts read) home; pc_Home := true; pc_Usage := None |}])
                        else ps
                    | None => ps
                    end in
          ps ← fill_usage uid ∅ ps;
          mret (c, inr ps)
      end
  end.

(** *** storage.status *)
Record ShareUsage := { su_Share : string; su_UsedBytes : Z; su_QuotaBytes : Z }.
Record StorageStatus := {
  ss_Username : string; ss_Usable : bool; ss_NeedsPassword : bool; ss_SMBEnabled : bool; ss_Shares : list ShareUsage; ss_UsageReadable : bool;
  ss_NeedsNewPassword : bool; ss_Places : list Place; ss_PlacesReadable : bool;
}.
Fixpoint usage_each (uid : Z) (shares : list smbShare) : M W (list ShareUsage) :=
  match shares with
  | [] => mret []
  | sh :: shares =>
      if negb (sh_Enabled sh) || negb (considers scope (sh_Name sh)) || (datasetOf (sh_Path sh) =? "") then usage_each uid shares
      else
        r ← attempt (on_nas (λ w, quota_table w (datasetOf (sh_Path sh))));
        us ← usage_each uid shares;
        mret match r with
             | inl _ => us
             | inr rows => match list_find (λ row : Z * (Z * Z), row.1 = uid) rows with
                           | Some (_, (_, (used, quota))) => {| su_Share := sh_Name sh; su_UsedBytes := used; su_QuotaBytes := quota |} :: us
                           | None => us
                           end
             end
  end.
Definition shareUsage (uid : Z) : M W (list ShareUsage) := shares ← on_nas smb_query; usage_each uid shares.
(** The account of a binding, as it is. *)
Definition storage_of (c : reachCache) (b : Binding) : M W (reachCache * (Z * string + StorageStatus)) :=
  r ← attempt (on_nas (λ w, account_rows w (b_Username b)));
  match r with
  | inl e => mret (c, inl (statusFor e, "your account could not be read"))
  | inr [] => mret (c, inl (422%Z, "the account this binding names is not on the target"))
  | inr (a :: _) =>
      let new := negb (ar_PasswordDisabled a) && negb (ar_SMB a) && default false (b_WantsSMB b) in
      '(c, ps) ← memberPlaces c (ar_UID a) (ar_Groups a) (homeOf (ar_Home a));
      us ← attempt (shareUsage (ar_UID a));
      mret (c, inr {| ss_Username := b_Username b; ss_Usable := negb (ar_PasswordDisabled a) && negb (ar_Locked a) && negb new;
                      ss_NeedsPassword := ar_PasswordDisabled a; ss_SMBEnabled := ar_SMB a;
                      ss_Shares := match us with inr l => l | inl _ => [] end; ss_UsageReadable := match us with inr _ => true | inl _ => false end;
                      ss_NeedsNewPassword := new;
                      ss_Places := match ps with inr l => l | inl _ => [] end; ss_PlacesReadable := match ps with inr _ => true | inl _ => false end |})
  end.

(** *** Home folders in use *)
Record HomeUsage := { hu_Username : string; hu_UID : Z; hu_Home : string; hu_UsedBytes : Z; hu_QuotaBytes : Z }.
Record HomesResponse := { hr_Homes : list HomeUsage; hr_UsageRead : bool }.
Fixpoint homes_each (shares : list smbShare) (seen : gmap string (option (gmap Z PlaceUsage))) (subs : list Subject) : M W HomesResponse :=
  match subs with
  | [] => mret {| hr_Homes := []; hr_UsageRead := true |}
  | sub :: subs =>
      match shareAt shares (s_Home sub) with
      | Some (_, inside) =>
          if inside =? "" then homes_each shares seen subs
          else
            '(seen, table) ← quotas_of seen (datasetOf (Dir_ (s_Home sub)));
            out ← homes_each shares seen subs;
            let used := match table with Some t => t !! s_UID sub | None => None end in
            mret {| hr_Homes := {| hu_Username := s_Username sub; hu_UID := s_UID sub; hu_Home := s_Home sub;
                                   hu_UsedBytes := match used with Some u => us_UsedBytes u | None => 0 end;
                                   hu_QuotaBytes := match used with Some u => us_QuotaBytes u | None => 0 end |} :: hr_Homes out;
                    hr_UsageRead := bool_decide (is_Some table) && hr_UsageRead out |}
      | None => homes_each shares seen subs
      end
  end.
Definition handleHomes : M W (Answered HomesResponse) :=
  r ← attempt readSubjects;
  match r with
  | inl e => mret (refused (statusFor e) "TARGET_UNREADABLE")
  | inr snap =>
      r ← attempt enabledShares;
      match r with
      | inl e => mret (refused (statusFor e) "TARGET_UNREADABLE")
      | inr shares =>
          out ← homes_each shares ∅ (sn_Subjects snap);
          mret (answered {| hr_Homes := stable_sort (cmp_on hu_Username String.compare) (hr_Homes out); hr_UsageRead := hr_UsageRead out |})
      end
  end.

(** *** Where home folders go *)
Record SettingView := { sv_Value : string; sv_SetBy : string; sv_SetAt : option Z; sv_Values : list string; sv_Labels : gmap string string; sv_ValuesRead : bool }.
Definition home_places (read : aclRead) : list string * gmap string string :=
  let ps := filter (λ p, (fo_folder p <>? "") && negb (HasPrefix (fo_folder p) ".") && (default "" (rd_mounts read !! fo_path p) <>? "") = true)
              (rd_places read) in
  (uniqueSorted (fo_path <$> ps), foldl (λ m p, <[fo_path p := fo_share p +:+ " › " +:+ fo_folder p]> m) ∅ ps).
Definition homeRootView (c : reachCache) : M W (reachCache * SettingView) :=
  v ← reading_store op_get_setting (λ st, settings st !! settingHomeRoot);
  '(c, r) ← readACLs_ c;
  mret (c, {| sv_Value := default "" (se_Value <$> v); sv_SetBy := default "" (se_SetBy <$> v); sv_SetAt := se_SetAt <$> v;
              sv_Values := match r with inr (read, _, _) => (home_places read).1 | inl _ => [] end;
              sv_Labels := match r with inr (read, _, _) => (home_places read).2 | inl _ => ∅ end;
              sv_ValuesRead := match r with inr _ => true | inl _ => false end |}).
Definition viewing (c : reachCache) : M W (reachCache * Answered SettingView) :=
  r ← attempt (homeRootView c);
  mret match r with inr (c, v) => (c, answered v) | inl _ => (c, refused 500 "SETTINGS_UNREADABLE") end.
Definition handleSettings : reachCache → M W (reachCache * Answered SettingView) := viewing.
Record putSettingRequest := { ps_Value : string; ps_Actor : string }.
(** Write the setting and show it. *)
Definition save_setting (c : reachCache) (req : putSettingRequest) : M W (reachCache * Answered SettingView) :=
  s ← server;
  r ← attempt (writing_store op_put_setting (λ st, PutSetting st settingHomeRoot {| se_Value := ps_Value req; se_SetBy := ps_Actor req; se_SetAt := clock (nas s) |}));
  match r with
  | inl _ => mret (c, refused 500 "SETTING_NOT_SAVED")
  | inr _ => _ ← record ("settings." +:+ settingHomeRoot) "" (ps_Actor req) "" "succeeded"; viewing c
  end.
Definition handlePutSetting (c : reachCache) (name : string) (body : option putSettingRequest) : M W (reachCache * Answered SettingView) :=
  if name <>? settingHomeRoot then mret (c, refused 404 "NO_SUCH_SETTING")
  else match body with
  | None => mret (c, refused 400 "INVALID_BODY")
  | Some req =>
      if ps_Value req =? "" then save_setting c req
      else
        '(c, r) ← readACLs_ c;
        match r with
        | inl _ | inr (_, _, false) => mret (c, refused 503 "TARGET_UNREADABLE")
        | inr (_, _, true) =>
            '(c, r) ← readACLs_ c;
            match r with
            | inl e => mret (c, refused (statusFor e) "TARGET_UNREADABLE")
            | inr (read, _, _) =>
                if bool_decide (ps_Value req ∈ (home_places read).1) then save_setting c req else mret (c, refused 422 "NOT_A_HOME_PLACE")
            end
        end
  end.
End reach.

(** ** Climbing to the dataset *)
Definition cost (l : list string) : nat := sum_list ((λ w, S (String.length w)) <$> l).
Lemma cost_cons w l : cost (w :: l) = S (String.length w) + cost l.
Proof. done. Qed.
Lemma cost_app l k : cost (l ++ k) = cost l + cost k.
Proof. induction l as [|w l IH]; [done|]. change ((w :: l) ++ k) with (w :: (l ++ k)). rewrite !cost_cons, IH. lia. Qed.
Lemma length_ascii s : length (list_ascii_of_string s) = String.length s.
Proof. induction s; simpl; congruence. Qed.
Lemma length_string l : String.length (string_of_list_ascii l) = length l.
Proof. induction l; simpl; congruence. Qed.
Lemma segments_cost p : cost (segments p) = S (String.length p).
Proof.
  unfold segments. rewrite <-length_ascii. generalize (list_ascii_of_string p) as l. clear p. intros l.
  induction l as [|a l IH]; [done|]. simpl. destruct (split_on "/" l) as [|w ws] eqn:E; [by apply split_on_ne in E|].
  rewrite fmap_cons, cost_cons, length_string in IH. case_bool_decide; rewrite !fmap_cons, !cost_cons, !length_string; simpl; lia.
Qed.
Lemma segments_slash q : segments (q +:+ "/") = segments q ++ [""].
Proof. unfold segments. rewrite list_ascii_app. change (list_ascii_of_string "/") with ["/"%char]. by rewrite split_on_snoc, fmap_app. Qed.
Lemma join_length l : l ≠ [] → S (String.length (Join l "/")) = cost l.
Proof.
  induction l as [|w l IH]; [done|]. intros _. destruct l as [|w' l]; [simpl; unfold cost; simpl; lia|].
  change (Join (w :: w' :: l) "/") with (w +:+ "/" +:+ Join (w' :: l) "/"). rewrite cost_cons, <-IH by done. rewrite !string_length_app. simpl. lia.
Qed.
Lemma clean_segment_cost rooted out w : cost (clean_segment rooted out w) ≤ cost out + (if w =? "" then 0 else S (String.length w)).
Proof.
  unfold clean_segment. destruct (decide (w = "")) as [->|Hw]; [simpl; lia|]. rewrite (bool_decide_false (w = "")) by done. cbn [orb].
  case_bool_decide; [lia|]. case_bool_decide as H2; [subst w|rewrite cost_cons; lia].
  destruct out as [|x out]; [destruct rooted; unfold cost; simpl; lia|]. case_bool_decide; rewrite ?cost_cons; simpl; lia.
Qed.
Lemma clean_segments_cost rooted ws out : cost (foldl (clean_segment rooted) out ws) ≤ cost out + cost ws.
Proof.
  revert out. induction ws as [|w ws IH]; intros out; [simpl; lia|]. simpl. rewrite cost_cons. specialize (IH (clean_segment rooted out w)).
  pose proof (clean_segment_cost rooted out w). destruct (bool_decide (w = "")); lia.
Qed.
Lemma cost_rev l : cost (rev l) = cost l.
Proof. induction l as [|w l IH]; [done|]. simpl. rewrite cost_app, IH, !cost_cons. unfold cost. simpl. lia. Qed.
Lemma Clean_slash_length q : String.length (Clean (q +:+ "/")) ≤ Nat.max 1 (String.length q).
Proof.
  unfold Clean. rewrite segments_slash, foldl_app. cbn [foldl]. change (clean_segment ?r ?o "") with o. pose proof (segments_cost q) as Hc.
  destruct (HasPrefix (q +:+ "/") "/") eqn:Hp.
  - destruct q as [|a q]; [simpl; lia|]. apply HasPrefix_iff in Hp as [u Hu]. injection Hu as -> _.
    assert (∃ ws, segments (String "/" q) = "" :: ws) as [ws Ew].
    { unfold segments. simpl. destruct (split_on "/" (list_ascii_of_string q)) as [|w ws] eqn:E; [by apply split_on_ne in E|]. by eexists. }
    rewrite Ew in *. cbn [foldl]. change (clean_segment true [] "") with (@nil string). rewrite cost_cons in Hc.
    pose proof (clean_segments_cost true ws []) as Hl. set (out := foldl _ _ _) in *. rewrite string_length_app.
    change (cost []) with 0 in Hl. change (String.length "/") with 1. change (String.length "") with 0 in Hc. change (foldl (clean_segment true) [] ws) with out.
    destruct (decide (rev out = [])) as [->|Hne]; [simpl; lia|]. apply join_length in Hne. rewrite cost_rev in Hne. lia.
  - pose proof (clean_segments_cost false (segments q) []) as Hl. set (out := foldl _ _ _) in *. case_bool_decide as Hne; [simpl; lia|].
    apply join_length in Hne. rewrite cost_rev in Hne. change (cost []) with 0 in Hl. lia.
Qed.
Lemma Dir_length p : String.length (Dir_ p) ≤ Nat.max 1 (String.length p - 1).
Proof.
  unfold Dir_. pose proof (segments_cost p) as Hc. rewrite <-(cost_rev (segments p)) in Hc. destruct (rev (segments p)) as [|x [|y ws]] eqn:E; [simpl; lia..|].
  pose proof (Clean_slash_length (Join (rev (y :: ws)) "/")) as Hl. assert (rev (y :: ws) ≠ []) as Hne by (simpl; by destruct (rev ws)).
  apply join_length in Hne. rewrite cost_rev in Hne. rewrite cost_cons in Hc. lia.
Qed.
Lemma Dir_short p : String.length p ≤ 1 → p ≠ "/" → Dir_ p = ".".
Proof.
  destruct p as [|a [|b p]]; simpl; [done| |lia]. intros _ Ha. unfold Dir_, segments. simpl. rewrite bool_decide_false; [done|]. by intros ->.
Qed.

(** ** What is listed *)
Lemma placesFor_elem read who beyond q : q ∈ placesFor read who beyond ↔ ∃ p, p ∈ read ∧ place_for (roots_of read) who beyond p = Some q.
Proof. unfold placesFor, sortPlaces. rewrite stable_sort_elem, list_elem_of_omap. naive_solver. Qed.
Lemma roots_of_spec read share r : roots_of read !! share = Some r → r ∈ read ∧ fo_folder r = "" ∧ fo_share r = share.
Proof.
  unfold roots_of. revert r. induction read as [|p read IH] using rev_ind; intros r; [done|]. rewrite foldl_app. simpl. case_bool_decide as Hp.
  - destruct (decide (fo_share p = share)) as [<-|Hne]; [rewrite lookup_insert_eq; intros [= <-]; set_solver|].
    rewrite lookup_insert_ne by done. intros (? & ? & ?)%IH. set_solver.
  - intros (? & ? & ?)%IH. set_solver.
Qed.
Lemma place_for_spec roots who beyond p q :
  let root := default no_folder (roots !! fo_share p) in
  place_for roots who beyond p = Some q ↔
  q = place_of p (access p who) ∧ baseline p beyond < accessRank (access p who) ∧
  (fo_folder p ≠ "" → allowed root who "EXECUTE" = true ∧ accessRank (access root who) < accessRank (access p who)).
Proof.
  intros root. unfold place_for. fold root. destruct (decide (fo_folder p = "")) as [Hf|Hf].
  - rewrite (bool_decide_true _ Hf). cbn [negb andb]. destruct (Nat.leb_spec (accessRank (access p who)) (baseline p beyond)); naive_solver lia.
  - rewrite (bool_decide_false _ Hf). cbn [negb andb]. destruct (allowed root who "EXECUTE"); cbn [negb]; [|naive_solver].
    destruct (Nat.ltb_spec (baseline p beyond) (accessRank (access root who))).
    + destruct (Nat.leb_spec (accessRank (access p who)) (accessRank (access root who))); split; [done|..]; naive_solver lia.
    + destruct (Nat.leb_spec (accessRank (access p who)) (baseline p beyond)); split; [done|..]; naive_solver lia.
Qed.
(** Access is what the first entry that applies says. *)
Lemma allowed_first p who perm :
  allowed p who perm = true ↔
  ∃ before e after, fo_acl p = before ++ e :: after ∧ Forall (λ e, applies p who perm e = false) before ∧ applies p who perm e = true ∧ ac_Type e = "ALLOW".
Proof.
  unfold allowed. induction (fo_acl p) as [|e acl IH]; simpl; [split; [done|by intros ([] & ? & ? & ? & _)]|]. destruct (applies p who perm e) eqn:E.
  - rewrite bool_decide_eq_true. split.
    + intros Ht. exists [], e, acl. by split_and!.
    + intros ([|e' before] & e2 & after & [= -> ->] & Hf & Ha & Ht); [done|]. apply Forall_cons in Hf as [? _]. congruence.
  - rewrite IH. split.
    + intros (before & e2 & after & -> & Hf & Ha & Ht). exists (e :: before), e2, after. split_and!; [done|by constructor|done..].
    + intros ([|e' before] & e2 & after & [= -> ->] & Hf & Ha & Ht); [congruence|]. apply Forall_cons in Hf as [_ ?]. by exists before, e2, after.
Qed.
(** *** What an ACL gives, said without the code *)
(** The entry is about this permission and these people. *)
Definition concerns (p : aclFolder) (who : principals) (perm : string) (e : aclEntry) : Prop :=
  named (ac_Flags e) "INHERIT_ONLY" = false ∧ named (ac_Perms e) perm = true ∧
  (ac_Tag e = "everyone@" ∨ ac_Tag e = "GROUP" ∧ ac_ID e ∈ who ∨ ac_Tag e = "group@" ∧ fo_ownerGID p ∈ who).
(** They have it: the first entry about it allows it. *)
Definition may (p : aclFolder) (who : principals) (perm : string) : Prop :=
  ∃ before e after, fo_acl p = before ++ e :: after ∧ (∀ x, x ∈ before → ¬ concerns p who perm x) ∧ concerns p who perm e ∧ ac_Type e = "ALLOW".
Definition grants (p : aclFolder) (who : principals) (a : string) : Prop :=
  may p who "READ_DATA" ∧ (a = accessChange ∧ may p who "WRITE_DATA" ∨ a = accessRead ∧ ¬ may p who "WRITE_DATA").
(** The root of a share, as last read. *)
Definition is_root (read : list aclFolder) (share : string) (r : aclFolder) : Prop :=
  ∃ before after, read = before ++ r :: after ∧ fo_folder r = "" ∧ fo_share r = share ∧ (∀ x, x ∈ after → fo_folder x = "" → fo_share x ≠ share).
(** They can connect to the place with this access: its ACL gives it, and a folder
    is behind a share's root that lets them pass. *)
Definition opens (read : list aclFolder) (who : principals) (p : aclFolder) (a : string) : Prop :=
  grants p who a ∧ (fo_folder p ≠ "" → ∃ r, is_root read (fo_share p) r ∧ may r who "EXECUTE").

Lemma applies_concerns p who perm e : applies p who perm e = true ↔ concerns p who perm e.
Proof.
  unfold applies, concerns. rewrite andb_true_iff, negb_true_iff, orb_false_iff, negb_false_iff, !orb_true_iff, !andb_true_iff, !bool_decide_eq_true. tauto.
Qed.
Lemma allowed_may p who perm : allowed p who perm = true ↔ may p who perm.
Proof.
  rewrite allowed_first. unfold may. setoid_rewrite <-applies_concerns. setoid_rewrite Forall_forall. setoid_rewrite not_true_iff_false. naive_solver.
Qed.
Lemma access_grants p who a : grants p who a ↔ access p who = a ∧ 0 < accessRank a.
Proof.
  unfold grants, access. rewrite <-!allowed_may. destruct (allowed p who "READ_DATA"), (allowed p who "WRITE_DATA"); simpl; split.
  all: try (intros [? [[-> ?]|[-> ?]]]; first [done|split; [done|vm_compute; lia]]).
  all: try (intros [<- Hr]; first [vm_compute in Hr; lia|split; [done|by left]|split; [done|by right]]).
Qed.
Lemma roots_of_root read share r : roots_of read !! share = Some r ↔ is_root read share r.
Proof.
  unfold roots_of, is_root. revert r. induction read as [|p read IH] using rev_ind; intros r; [split; [done|by intros ([] & ? & ? & _)]|]. rewrite foldl_app. simpl.
  assert (∀ before after, read ++ [p] = before ++ r :: after → (after = [] ∧ before = read ∧ r = p) ∨ ∃ after', after = after' ++ [p] ∧ read = before ++ r :: after') as Hlast.
  { intros before after E. destruct after as [|x after _] using rev_ind; [left; apply app_inj_tail in E as [-> ->]; by split_and!|].
    right. exists after. rewrite app_comm_cons, (assoc_L (++)) in E. apply app_inj_tail in E as [-> ->]. done. }
  assert (fo_folder p ≠ "" ∨ fo_share p ≠ share →
    (is_root (read ++ [p]) share r ↔ is_root read share r)) as Hold.
  { intros Hp. split.
    - intros (before & after & E & Hf & Hs & Ha). destruct (Hlast _ _ E) as [(-> & -> & ->)|(after' & -> & ->)]; [naive_solver|].
      exists before, after'. split_and!; [done..|]. intros x Hx. apply Ha. set_solver.
    - intros (before & after & -> & Hf & Hs & Ha). exists before, (after ++ [p]). rewrite <-(assoc_L (++)). split_and!; [done..|].
      intros x [Hx| ->%list_elem_of_singleton]%elem_of_app; [by apply Ha|naive_solver]. }
  case_bool_decide as Hp; [|rewrite IH; symmetry; apply Hold; by left]. destruct (decide (fo_share p = share)) as [<-|Hne].
  - rewrite lookup_insert_eq. split.
    + intros [= <-]. exists read, []. split_and!; [done..|]. by intros x ?%elem_of_nil.
    + intros (before & after & E & Hf & Hs & Ha). destruct (Hlast _ _ E) as [(-> & -> & ->)|(after' & -> & ->)]; [done|].
      exfalso. apply (Ha p); [set_solver|done..].
  - rewrite lookup_insert_ne by done. rewrite IH. symmetry. apply Hold. by right.
Qed.
Lemma placesFor_spec read who beyond q :
  q ∈ placesFor read who beyond ↔ ∃ p a, p ∈ read ∧ q = place_of p a ∧ opens read who p a ∧ baseline p beyond < accessRank a ∧
    (fo_folder p ≠ "" → ∀ r, is_root read (fo_share p) r → accessRank (access r who) < accessRank a).
Proof.
  rewrite placesFor_elem. split.
  - intros (p & Hp & H). apply place_for_spec in H as (-> & Hb & Hr). exists p, (access p who). split_and!; [done|done| |done|].
    + split; [apply access_grants; split; [done|lia]|]. intros Hf. destruct (Hr Hf) as [Hx _]. destruct (roots_of read !! fo_share p) as [r|] eqn:Er; [|done].
      exists r. by rewrite <-roots_of_root, <-allowed_may.
    + intros Hf r Hroot%roots_of_root. destruct (Hr Hf) as [_ Hl]. by rewrite Hroot in Hl.
  - intros (p & a & Hp & -> & [Hg Hx] & Hb & Hl). exists p. split; [done|]. apply access_grants in Hg as [<- _]. apply place_for_spec. split_and!; [done|done|].
    intros Hf. destruct (Hx Hf) as (r & Hroot & Hm). specialize (Hl Hf r Hroot). apply roots_of_root in Hroot as ->. simpl. split; [by apply allowed_may|done].
Qed.
Lemma group_reach_lookup read groups name l :
  group_reach read groups !! name = Some l →
  ∃ g, g ∈ groups ∧ gr_Name g = name ∧ gr_Builtin g = false ∧ l = placesFor read {[gr_GID g]} (Some ∅).
Proof.
  unfold group_reach. induction groups as [|g groups IH] using rev_ind; [done|]. rewrite foldl_app. simpl. destruct (gr_Builtin g) eqn:Eb.
  - intros (g' & ? & ?)%IH. exists g'. set_solver.
  - destruct (decide (gr_Name g = name)) as [<-|Hne]; [rewrite lookup_insert_eq; intros [= <-]; exists g; set_solver|].
    rewrite lookup_insert_ne by done. intros (g' & ? & ?)%IH. exists g'. set_solver.
Qed.
(** Where they connect to a place and its share lets everyone pass, the lists for
    the group and for everyone together show it or its share. *)
Lemma opens_listed read who p a :
  p ∈ read → opens read who p a → (fo_folder p ≠ "" → ∃ r, is_root read (fo_share p) r ∧ may r ∅ "EXECUTE") →
  ∃ q b, q ∈ read ∧ fo_share q = fo_share p ∧ (q = p ∨ is_root read (fo_share p) q) ∧ accessRank a ≤ accessRank b ∧
    (place_of q b ∈ placesFor read who (Some ∅) ∨ place_of q b ∈ placesFor read ∅ None).
Proof.
  intros Hp [Hg Hw] He. apply access_grants in Hg as [<- Ha].
  assert (∀ q, q ∈ read → 0 < accessRank (access q who) → (fo_folder q ≠ "" → q = p ∧ ∀ r, is_root read (fo_share p) r →
      accessRank (access r who) < accessRank (access p who) ∧ accessRank (access r ∅) < accessRank (access p ∅) ∨ accessRank (access p ∅) < accessRank (access p who) ∧ accessRank (access r who) < accessRank (access p who)) →
    ∃ b, accessRank (access q who) ≤ accessRank b ∧ (place_of q b ∈ placesFor read who (Some ∅) ∨ place_of q b ∈ placesFor read ∅ None)) as Hlist.
  { intros q Hq Hpos Hf. destruct (decide (accessRank (access q ∅) < accessRank (access q who))) as [Hlt|Hge].
    - exists (access q who). split; [lia|left]. apply placesFor_spec. exists q, (access q who). split_and!; [done|done| |done|].
      + split; [by apply access_grants|]. intros Hff. by destruct (Hf Hff) as [-> _]; auto.
      + intros Hff r Hr. destruct (Hf Hff) as [-> Hl]. destruct (Hl r Hr) as [[? _]|[_ ?]]; done.
    - exists (access q ∅). split; [lia|right]. apply placesFor_spec. exists q, (access q ∅). split_and!; [done|done| |simpl; lia|].
      + split; [apply access_grants; split; [done|lia]|]. intros Hff. by destruct (Hf Hff) as [-> _]; auto.
      + intros Hff r Hr. destruct (Hf Hff) as [-> Hl]. destruct (Hl r Hr) as [[_ ?]|[? _]]; [done|lia]. }
  assert (∀ r, is_root read (fo_share p) r → r ∈ read ∧ fo_folder r = "" ∧ fo_share r = fo_share p) as Hroot.
  { intros r (before & after & -> & Hf & Hs & _). split_and!; [set_solver|done..]. }
  assert (∀ r r', is_root read (fo_share p) r → is_root read (fo_share p) r' → r = r') as Huniq.
  { intros r r' H1%roots_of_root H2%roots_of_root. congruence. }
  destruct (decide (fo_folder p = "")) as [Hf|Hf].
  { destruct (Hlist p Hp Ha) as (b & Hb & Hin); [done|]. exists p, b. split_and!; [done|done|by left|done|done]. }
  destruct (Hw Hf) as (r & Hr & _). destruct (Hroot r Hr) as (Hrr & Hrf & Hrs).
  destruct (decide (accessRank (access p who) ≤ accessRank (access r who))) as [Hle|Hgt].
  { destruct (Hlist r Hrr) as (b & Hb & Hin); [lia|done|]. exists r, b. split_and!; [done|done|by right|lia|done]. }
  destruct (decide (accessRank (access p ∅) < accessRank (access p who) ∨ accessRank (access r ∅) < accessRank (access p ∅))) as [Hc|Hc].
  { destruct (Hlist p Hp Ha) as (b & Hb & Hin).
    - intros _. split; [done|]. intros r' Hr'. rewrite (Huniq r' r Hr' Hr). lia.
    - exists p, b. split_and!; [done|done|by left|done|done]. }
  exists r, (access r ∅). split_and!; [done|done|by right|lia|]. right. apply placesFor_spec. exists r, (access r ∅). split_and!; [done|done| |simpl; lia|done].
  split; [|done]. apply access_grants. split; [done|lia].
Qed.

(** ** Properties *)
(** C26. The page of what each group opens is right, and complete where shares let
    everyone pass. What connecting takes is said apart from the code: the first ACL
    entry about a permission and these people allows it ([may]), and a folder is
    behind a share's root they may pass ([opens]). A list the page has under a name
    is of a group of that name that is not the machine's. Each place in it is one
    its people, in this group alone, can connect to with exactly that access, and
    more access than the place's ACL gives everyone; each place on the list for
    everyone is one anyone can connect to with exactly that access. And each place
    the group's people can connect to, if it is a share or its share's root lets
    everyone pass, is on one of the two lists with at least that access, itself or
    as the share holding it. Where only the group may pass a root, a folder whose
    own ACL is open to everyone is on neither list ([reach_misses_a_place]). *)
Theorem group_reach_complete read groups name l :
  group_reach read groups !! name = Some l →
  ∃ g, g ∈ groups ∧ gr_Name g = name ∧ gr_Builtin g = false ∧
    (∀ pl, pl ∈ l → ∃ p a, p ∈ read ∧ pl = place_of p a ∧ opens read {[gr_GID g]} p a ∧ ∀ b, grants p ∅ b → accessRank b < accessRank a) ∧
    (∀ pl, pl ∈ placesFor read ∅ None → ∃ p a, p ∈ read ∧ pl = place_of p a ∧ opens read ∅ p a) ∧
    (∀ p a, p ∈ read → opens read {[gr_GID g]} p a → (fo_folder p ≠ "" → ∃ r, is_root read (fo_share p) r ∧ may r ∅ "EXECUTE") →
       ∃ q b, q ∈ read ∧ fo_share q = fo_share p ∧ (q = p ∨ is_root read (fo_share p) q) ∧ accessRank a ≤ accessRank b ∧
         (place_of q b ∈ l ∨ place_of q b ∈ placesFor read ∅ None)).
Proof.
  intros (g & Hg & Hn & Hb & ->)%group_reach_lookup. exists g. split_and!; [done|done|done|..].
  - intros pl (p & a & Hp & -> & Ho & Hlt & _)%placesFor_spec. exists p, a. split_and!; [done|done|done|]. simpl in Hlt. by intros b [<- _]%access_grants.
  - intros pl (p & a & Hp & -> & Ho & _)%placesFor_spec. by exists p, a.
  - intros p a Hp Ho He. by apply opens_listed.
Qed.
Definition entry (tag : string) (id : Z) (perms : list string) : aclEntry :=
  {| ac_Tag := tag; ac_ID := id; ac_Type := "ALLOW"; ac_Perms := list_to_map ((., true) <$> perms); ac_Flags := ∅ |}.
Definition main_share : aclFolder :=
  {| fo_share := "main"; fo_folder := ""; fo_path := "/mnt/tank/main"; fo_dataset := "tank/main"; fo_ownerGID := 0;
     fo_acl := [entry "everyone@" 0 ["EXECUTE"]] |}.
Definition laser : aclFolder :=
  {| fo_share := "main"; fo_folder := "laser"; fo_path := "/mnt/tank/main/laser"; fo_dataset := "tank/main"; fo_ownerGID := 0;
     fo_acl := [entry "GROUP" 3001 ["READ_DATA"; "WRITE_DATA"]; entry "everyone@" 0 ["READ_DATA"]] |}.
Definition makers : nasGroup := {| gr_ID := "41"; gr_GID := 3001; gr_Name := "makers"; gr_Builtin := false; gr_Users := [] |}.
Lemma group_reach_complete_witness :
  ∃ l, group_reach [main_share; laser] [makers] !! "makers" = Some l ∧ place_of laser accessChange ∈ l ∧
    ∃ g, g ∈ [makers] ∧ opens [main_share; laser] {[gr_GID g]} laser accessChange.
Proof.
  exists [place_of laser accessChange]. split; [by vm_compute|]. split; [left|].
  destruct (group_reach_complete [main_share; laser] [makers] "makers" [place_of laser accessChange]) as (g & Hg & _ & _ & Hl & _); [by vm_compute|].
  exists g. split; [exact Hg|]. destruct (Hl _ (list_elem_of_here _ [])) as (p & a & Hp & E & Ho & _).
  apply elem_of_cons in Hp as [->|[->|[]%elem_of_nil]%elem_of_cons]; [discriminate E|]. by injection E as <-.
Defined.
(** A share only a group may pass through, and a folder in it everyone may read:
    the group's people reach the folder and the page lists it nowhere. *)
Definition closed_share : aclFolder :=
  {| fo_share := "main"; fo_folder := ""; fo_path := "/mnt/tank/main"; fo_dataset := "tank/main"; fo_ownerGID := 0;
     fo_acl := [entry "GROUP" 3001 ["EXECUTE"]] |}.
Definition notices : aclFolder :=
  {| fo_share := "main"; fo_folder := "notices"; fo_path := "/mnt/tank/main/notices"; fo_dataset := "tank/main"; fo_ownerGID := 0;
     fo_acl := [entry "everyone@" 0 ["READ_DATA"]] |}.
Example reach_misses_a_place :
  placesFor [closed_share; notices] {[3001%Z]} None = [place_of notices accessRead] ∧
  placesFor [closed_share; notices] {[3001%Z]} (Some ∅) = [] ∧ placesFor [closed_share; notices] ∅ None = [].
Proof. by vm_compute. Qed.

Definition climb (k : nat) (p : string) : string := Nat.iter k Dir_ p.
Lemma climb_S k p : climb (S k) p = climb k (Dir_ p).
Proof. unfold climb. by rewrite Nat.iter_succ_r. Qed.
Definition top (p : string) : bool := (p =? "/") || (p =? ".").
(** The search for a path's dataset ends. Whatever the path and the mount
    points, after at most one step more than the path has bytes it has met the root
    or a mount point, the nearest above the path, and that one's dataset, or none,
    is what it returns; no step is cut short by the fuel. *)
Theorem datasetAt_nearest mounts at_ :
  ∃ k, k ≤ S (String.length at_) ∧ (∀ j, j < k → top (climb j at_) = false ∧ mounts !! climb j at_ = None) ∧
    (top (climb k at_) = true ∧ datasetAt mounts at_ = "" ∨ top (climb k at_) = false ∧ mounts !! climb k at_ = Some (datasetAt mounts at_)).
Proof.
  assert (∀ n fuel p, String.length p ≤ n → n + 2 ≤ fuel →
    ∃ k, k ≤ S (String.length p) ∧ (∀ j, j < k → top (climb j p) = false ∧ mounts !! climb j p = None) ∧
      (top (climb k p) = true ∧ dataset_from fuel mounts p = "" ∨ top (climb k p) = false ∧ mounts !! climb k p = Some (dataset_from fuel mounts p))) as H;
    [|by apply (H (String.length at_))].
  induction n as [n IH] using lt_wf_ind. intros [|fuel] p Hp Hf; [lia|]. simpl. fold (top p).
  destruct (top p) eqn:Et; [exists 0; split_and!; [lia|lia|by left]|]. destruct (mounts !! p) as [name|] eqn:Em; [exists 0; split_and!; [lia|lia|by right]|].
  assert (∃ k, k ≤ String.length p ∧ (∀ j, j < k → top (climb j (Dir_ p)) = false ∧ mounts !! climb j (Dir_ p) = None) ∧
    (top (climb k (Dir_ p)) = true ∧ dataset_from fuel mounts (Dir_ p) = "" ∨
     top (climb k (Dir_ p)) = false ∧ mounts !! climb k (Dir_ p) = Some (dataset_from fuel mounts (Dir_ p)))) as (k & Hk & Hj & Hr).
  { destruct (decide (String.length p ≤ 1)) as [Hs|Hs].
    - exists 0. rewrite Dir_short by (try done; intros ->; done). split_and!; [lia|lia|left]. split; [done|]. by destruct fuel.
    - pose proof (Dir_length p) as Hd. destruct (IH (n - 1) ltac:(lia) fuel (Dir_ p)) as (k & Hk & ? & ?); [lia..|]. exists k. split_and!; [lia|done|done]. }
  exists (S k). rewrite climb_S. split_and!; [lia| |done]. intros [|j] Hlt; [done|]. rewrite climb_S. apply Hj. lia.
Qed.
