(* ===== verification/NasOps.v ===== *)
(** * NasOps: the one-shot operations

    addons/truenas/operations.go, with recordID, lookupOne, groupsOf and
    primaryGroupID of subjects.go. The middleware's calls, the random source and
    the decoding of JSON and of times are classes. *)

From S2P Require Import Prelude Text Username Tables Nas NasApply NasReach.

(** A parameter of a call: a text, or another JSON value. *)
Inductive Param := p_text (s : string) | p_other.
Record OperationRequest := {
  oq_ContractVersion : Z; oq_CallID : string; oq_Operation : string; oq_Subject : string; oq_Actor : string; oq_PlanID : string;
  oq_Fingerprint : string; oq_Params : gmap string Param;
}.
Record ActivityEvent := { ev_At : string; ev_Event : string; ev_Share : string; ev_Success : bool; ev_Address : string; ev_Detail : string }.
Record ActivityReport := { ar_Events : list ActivityEvent; ar_UncoveredShares : list string; ar_Truncated : bool }.
Record SystemInfo := { sy_Hostname : string; sy_Version : string; sy_UptimeSeconds : string }.   (* a JSON number, as its token *)
Record TargetAlert := { al_Level : string; al_Class : string; al_Text : string; al_At : string; al_Dismissed : bool }.
Record PoolStatus := { po_Name : string; po_Status : string; po_Healthy : bool; po_Warning : bool; po_Free : Z; po_Allocated : Z; po_Size : Z }.
Record ServiceState := { sv_Service : string; sv_State : string; sv_Enabled : bool }.
Record TargetHealth := {
  th_System : option SystemInfo; th_Alerts : list TargetAlert; th_Pools : list PoolStatus; th_Services : list ServiceState; th_Degraded : list string;
}.
Record OperationResult := {
  or_Operation : string; or_Subject : string; or_Outcome : string; or_Detail : string; or_Rotated : bool; or_Activity : option ActivityReport;
  or_Storage : option StorageStatus; or_Health : option TargetHealth; or_AccountUID : Z;
}.
Record auditRow := { aw_Timestamp : Z; aw_Event : string; aw_Success : bool; aw_Address : string; aw_EventData : string }.
Record alertRow := { aw_Level : string; aw_Klass : string; aw_Formatted : option string; aw_Text : option string; aw_Dismissed : bool; aw_Datetime : Z }.
Record shareAudit := { sa_Name : string; sa_Enabled : bool; sa_WatchList : list string; sa_IgnoreList : list string }.

Class Ops (W : Type) := {
  user_lookup : W → Filter → W * (Err + list nasUser);               (* user.query, two rows at most *)
  set_credential : W → apiID → string → bool → W * option Err;       (* user.update: password, password_disabled, smb when true *)
  mint_bytes : W → W * option string;                                (* crypto/rand, encoded *)
  elevated : W → string → W * option Err;
  user_delete : W → apiID → W * option Err;                          (* on the elevated session *)
  audit_query : W → string → option Z → W * (Err + list auditRow);
  share_audits : W → W * (Err + list shareAudit);
  account_groups : W → string → W * (Err + list (string * list apiID));
  health_read : W → string → W * (Err + string);
}.
(** encoding/json and package time, as the code uses them. *)
Class Decoding := {
  marshal_result : OperationResult → string;
  unmarshal_result : string → option OperationResult;
  outcome_as_result : ApplyOutcome → option OperationResult;
  event_fields : string → option (string * string);
  record_id : string → option apiID;
  decode_system : string → option SystemInfo;
  decode_alerts : string → option (list alertRow);
  decode_pools : string → option (list PoolStatus);
  decode_services : string → option (list ServiceState);
  rfc3339 : Z → string;
  parse_rfc3339 : string → option Z;
  carried : OperationResult → Prop;                                  (* no payload of a read, valid UTF-8 *)
  unmarshal_marshal r : carried r → unmarshal_result (marshal_result r) = Some r;
}.

(** ** Texts *)
Definition activityLimit : nat := 200.
Definition token_byte (a : ascii) : bool := between 65 90 a || between 48 57 a || (a =? "_"%char).
Definition statusToken (s : string) : string :=
  if (s =? "") || (64 <? String.length s) || negb (forallb token_byte (list_ascii_of_string s)) then "" else s.
(** strings.Fields. *)
Fixpoint fields_from (fuel : nat) (word : list ascii) (l : list ascii) : list string :=   (* the word so far, newest first *)
  let flush rest := if bool_decide (word = []) then rest else string_of_list_ascii (reverse word) :: rest in
  match fuel, l with
  | S fuel, a :: r =>
      match strip_one white_space l with
      | Some r => flush (fields_from fuel [] r)
      | None => fields_from fuel (a :: word) r
      end
  | _, _ => flush []
  end.
Definition Fields (l : list ascii) : list string := fields_from (length l) [] l.
(** The text written so far, newest byte first. *)
Definition markup_step (st : list ascii * nat) (r : ascii) : list ascii * nat :=
  let '(b, depth) := st in
  if r =? "<"%char then (match b with [] => [] | a :: _ => if a =? " "%char then b else " "%char :: b end, S depth)
  else if r =? ">"%char then (b, depth - 1)
  else if depth =? 0 then (r :: b, depth) else (b, depth).
Definition stripMarkup (s : string) : string := Join (Fields (reverse (foldl markup_step ([], 0) (list_ascii_of_string s)).1)) " ".
Definition epoch_text `{!Decoding} (ms : Z) : string := if (ms =? 0)%Z then "" else rfc3339 (ms / 1000).
Definition requireSecret (params : gmap string Param) (name : string) : string + string :=
  match params !! name with
  | Some (p_text v) => if TrimSpace v =? "" then inl (name +:+ " is required") else inr v
  | _ => inl (name +:+ " is required")
  end.
Definition decodeAnswer {A} (raw : string) (into : string → option A) : option A :=
  let trimmed := TrimSpace raw in if (trimmed =? "") || (trimmed =? "null") then None else into trimmed.
Definition eventDetail `{!Decoding} (raw : string) : string * string :=
  if raw =? "" then ("", "") else match event_fields raw with Some (share, parsed) => (share, statusToken parsed) | None => ("", "") end.
Definition watches (sh : shareAudit) (memberOf : gset string) : bool :=
  if negb (sa_Enabled sh) then false
  else if existsb (λ g, bool_decide (g ∈ memberOf)) (sa_IgnoreList sh) then false
  else bool_decide (sa_WatchList sh = []) || existsb (λ g, bool_decide (g ∈ memberOf)) (sa_WatchList sh).
Definition primaryGroupID `{!Decoding} (raw : string) : option apiID :=
  let trimmed := TrimSpace raw in
  if (trimmed =? "") || (trimmed =? "null") then None
  else if HasPrefix trimmed "{" then match record_id trimmed with Some i => if known i then Some i else None | None => None end
  else if HasPrefix trimmed "[" then None
  else if known trimmed then Some trimmed else None.
Definition mutatingOperation (name : string) : bool := bool_decide (name ∈ ["password.set"; "password.rotate"; "account.purge"; "account.adopt"]).
Definition kindOperation : string := "operation:".
Definition succeeded (operation subject detail : string) : OperationResult :=
  {| or_Operation := operation; or_Subject := subject; or_Outcome := "succeeded"; or_Detail := detail; or_Rotated := false; or_Activity := None;
     or_Storage := None; or_Health := None; or_AccountUID := 0 |}.

(** A refusal with its status and text, or the result. *)
Definition Done : Type := (Z * string) + OperationResult.

Section operations.
Context {W : Type} `{!Nas W, !Shares W, !Ops W, !Unicode, !Decoding} (scope : option (gset string)).
Implicit Types req : OperationRequest.

Definition refusing (status : Z) (text : string) : M W Done := mret (inl (status, text)).
Definition result (r : OperationResult) : M W Done := mret (inr r).
(** Go on with the result, or refuse. *)
Definition or_refuse {A} (why : Err → Z * string) (m : M W A) (k : A → M W Done) : M W Done :=
  r ← attempt m; match r with inl e => mret (inl (why e)) | inr a => k a end.

(** ** The account of a binding *)
Inductive LookupError := errNoSuchAccount | errAmbiguousAccount | lookup_failed (e : Err).
Definition lookupOne (f : Filter) : M W (LookupError + apiID) :=
  r ← attempt (on_nas (λ w, user_lookup w f));
  mret match r with
  | inl e => inl (lookup_failed e)
  | inr (_ :: _ :: _) => inl errAmbiguousAccount
  | inr [] => inl errNoSuchAccount
  | inr [u] => if known (u_ID u) then inr (u_ID u) else inl errNoSuchAccount
  end.
Definition recordID (b : Binding) : M W (LookupError + apiID) :=
  if negb (b_UID b =? 0)%Z then
    r ← lookupOne (by_uid (b_UID b));
    match r with
    | inl errNoSuchAccount => lookupOne (by_username (b_Username b))
    | _ => mret r
    end
  else lookupOne (by_username (b_Username b)).
Definition statusForLookup (e : LookupError) : Z :=
  match e with errNoSuchAccount => 422 | errAmbiguousAccount => 409 | lookup_failed e => statusFor e end.
Definition lookupRefusal (e : LookupError) : string :=
  match e with
  | errNoSuchAccount => "the bound account no longer exists on the target"
  | errAmbiguousAccount => "more than one account on the target matches the binding"
  | lookup_failed _ => "the bound account could not be located on the target"
  end.
Definition boundAccount (subject : string) (k : Binding → M W Done) : M W Done :=
  or_refuse (λ e, (422%Z, e_text e)) (reading_store op_get_binding (λ st, bindings st !! subject)) (λ b,
  match b with None => refusing 422 "no account is bound to this subject yet" | Some b => k b end).
Definition locating (b : Binding) (k : apiID → M W Done) : M W Done :=
  r ← recordID b; match r with inl e => refusing (statusForLookup e) (lookupRefusal e) | inr i => k i end.

(** ** Credentials *)
Definition desiredSMB (subject : string) : M W (bool * bool) :=
  r ← attempt (reading_store op_get_binding (λ st, bindings st !! subject));
  mret match r with inr (Some b) => match b_WantsSMB b with Some v => (v, true) | None => (false, false) end | _ => (false, false) end.
Definition setPassword req : M W Done :=
  match requireSecret (oq_Params req) "password" with
  | inl why => refusing 400 why
  | inr password =>
      boundAccount (oq_Subject req) (λ binding,
      locating binding (λ i,
      '(smb, known_) ← desiredSMB (oq_Subject req);
      or_refuse (λ e, (statusFor e, "the target refused the credential change")) (on_nas_unit (λ w, set_credential w i password (known_ && smb))) (λ _,
      _ ← record "password.set" (oq_Subject req) (oq_Actor req) (oq_CallID req) "succeeded";
      result (succeeded "password.set" (oq_Subject req) ("The credential was set on " +:+ b_Username binding +:+ ".")))))
  end.
Definition mintCredential : M W string :=
  on_nas (λ w, let '(w, r) := mint_bytes w in
               (w, match r with Some v => inr v | None => inl {| e_kind := ErrOther; e_text := "the random source failed" |} end)).
Definition rotatePassword req : M W Done :=
  boundAccount (oq_Subject req) (λ binding,
  or_refuse (λ _, (500%Z, "could not mint a credential")) mintCredential (λ minted,
  locating binding (λ i,
  or_refuse (λ e, (statusFor e, "the target refused the rotation")) (on_nas_unit (λ w, set_credential w i minted false)) (λ _,
  _ ← record "password.rotate" (oq_Subject req) (oq_Actor req) (oq_CallID req) "succeeded";
  let r := succeeded "password.rotate" (oq_Subject req)
    ("A new credential was set on " +:+ b_Username binding +:+ ". Established sessions end when they next reconnect, not immediately.") in
  result {| or_Operation := or_Operation r; or_Subject := or_Subject r; or_Outcome := or_Outcome r; or_Detail := or_Detail r; or_Rotated := true;
            or_Activity := None; or_Storage := None; or_Health := None; or_AccountUID := 0 |})))).

(** ** Bindings and deletion *)
Definition is_self (w : W) (username : string) : bool := (selfName w <>? "") && EqualFold (TrimSpace username) (selfName w).
Definition self_refusal (w : W) : string :=
  selfName w +:+ " is the account this add-on authenticates to the target with; adopting or deleting it would remove Syndra's own access and cannot be undone".
Definition refuseSelfAccount (username : string) (k : M W Done) : M W Done :=
  s ← server; if is_self (nas s) username then refusing 422 (self_refusal (nas s)) else k.
Definition delete_binding (subject : string) : M W unit := writing_store op_delete_binding (λ st, DeleteBinding st subject).
Definition releaseAccount req : M W Done :=
  or_refuse (λ e, (500%Z, e_text e)) (reading_store op_get_binding (λ st, bindings st !! oq_Subject req)) (λ b,
  match b with
  | None => result (succeeded "account.release" (oq_Subject req) "No account was bound to this subject.")
  | Some binding =>
      or_refuse (λ _, (500%Z, "the binding could not be released")) (delete_binding (oq_Subject req)) (λ _,
      _ ← record "account.release" (oq_Subject req) (oq_Actor req) (oq_CallID req) "succeeded";
      result (succeeded "account.release" (oq_Subject req)
        ("Syndra no longer manages " +:+ b_Username binding +:+ ". Nothing on the target was changed — the account still exists and still works.")))
  end).
Definition purgeAccount req : M W Done :=
  match requireSecret (oq_Params req) "elevated_key" with
  | inl why => refusing 400 why
  | inr key =>
      boundAccount (oq_Subject req) (λ binding,
      s ← server;
      if selfName (nas s) =? "" then
        refusing 422 ("this add-on could not confirm which target account it authenticates as, so it will not delete one; " +:+ "try again shortly")
      else
        refuseSelfAccount (b_Username binding)
          (locating binding (λ i,
           or_refuse (λ _, (502%Z, "the elevated session could not be established")) (on_nas_unit (λ w, elevated w key)) (λ _,
           or_refuse (λ e, (statusFor e, "the target refused the deletion")) (on_nas_unit (λ w, user_delete w i)) (λ _,
           gone ← attempt (delete_binding (oq_Subject req));
           _ ← record "account.purge" (oq_Subject req) (oq_Actor req) (oq_CallID req) "succeeded";
           result (succeeded "account.purge" (oq_Subject req)
             ("Deleted " +:+ b_Username binding +:+ "." +:+
              match gone with
              | inr _ => ""
              | inl _ => " The binding to this subject could not be removed and is still recorded; release it before the next apply."
              end)))))))
  end.
Definition adopted (subject username : string) (uid : Z) (detail : string) : OperationResult :=
  {| or_Operation := "account.adopt"; or_Subject := subject; or_Outcome := "succeeded"; or_Detail := detail; or_Rotated := false; or_Activity := None;
     or_Storage := None; or_Health := None; or_AccountUID := uid |}.
Definition bind_if_free (b : Binding) : M W ((bool * string) + unit) := λ s,   (* taken, or the store failed *)
  if store_fails (nas s) op_bind then (s, inr (inl (false, e_text store_error)))
  else match BindIfFree (store s) (clock (nas s)) b with
  | inl owner => (s, inr (inl (true, b_Username b +:+ " is already bound to another subject (" +:+ owner +:+ ")")))
  | inr st => (with_store s st, inr (inr ()))
  end.
Definition adoptAccount req : M W Done :=
  let username := TrimSpace (match oq_Params req !! "username" with Some (p_text v) => v | _ => "" end) in
  if username =? "" then refusing 400 "no account named"
  else if TrimSpace (oq_Subject req) =? "" then refusing 400 "no subject to bind it to"
  else
    refuseSelfAccount username
      (or_refuse (λ e, (500%Z, e_text e)) (reading_store op_get_binding (λ st, bindings st !! oq_Subject req)) (λ b,
       match b with
       | Some existing =>
           if b_Username existing =? username
           then result (adopted (oq_Subject req) username (b_UID existing) (username +:+ " was already bound to this subject."))
           else refusing 409 ("this subject is already bound to " +:+ b_Username existing)
       | None =>
           or_refuse (λ e, (500%Z, e_text e)) (reading_store op_bound_names BoundUsernames) (λ claimed,
           match claimed !! username with
           | Some owner => refusing 409 (username +:+ " is already bound to another subject (" +:+ owner +:+ ")")
           | None =>
               or_refuse (λ e, (statusFor e, e_text e)) readSubjects (λ snap,
               match head (filter (λ x, s_Username x = username) (sn_Subjects snap)) with
               | None => refusing 404 ("the target has no adoptable account named " +:+ username +:+ " (system accounts are never adoptable)")
               | Some account =>
                   r ← bind_if_free {| b_SubjectID := oq_Subject req; b_Username := s_Username account; b_UID := s_UID account; b_BoundAt := None;
                                       b_BoundBy := oq_Actor req; b_WantsSMB := None |};
                   match r : (bool * string) + unit with
                   | inl (taken, why) => refusing (if taken : bool then 409 else 500)%Z why
                   | inr _ =>
                       _ ← record "account.adopt" (oq_Subject req) (oq_Actor req) (oq_CallID req) "succeeded";
                       result (adopted (oq_Subject req) username (s_UID account)
                         (s_Username account +:+ " is now bound to this subject. Nothing on the account was changed."))
                   end
               end)
           end)
       end)).

(** ** Reads *)
Definition groupsOf (username : string) : M W (gset string) :=
  accounts ← on_nas (λ w, account_groups w username);
  match accounts with
  | [] => fails {| e_kind := ErrOther; e_text := "the account this binding names is not on the target" |}
  | (primary, ids) :: _ =>
      g ← groupIndex;
      let ids := match primaryGroupID primary with Some i => ids ++ [i] | None => ids end in
      mret (list_to_set (omap (λ i, byID g !! id_String i) ids))
  end.
Definition readShareAudit : M W (list shareAudit) :=
  shares ← on_nas share_audits; mret (filter (λ sh, considers scope (sa_Name sh) = true) shares).
Definition unauditedShares : M W (list string) :=
  shares ← readShareAudit; mret (sa_Name <$> filter (λ sh, sa_Enabled sh = false) shares).
Definition sharesNotWatching (username : string) : M W (list string) :=
  shares ← readShareAudit;
  memberOf ← groupsOf username;
  mret (sa_Name <$> filter (λ sh, watches sh memberOf = false) shares).
Definition event_of (r : auditRow) : ActivityEvent :=
  let '(share, detail) := eventDetail (aw_EventData r) in
  {| ev_At := rfc3339 (aw_Timestamp r); ev_Event := aw_Event r; ev_Share := share; ev_Success := aw_Success r; ev_Address := aw_Address r; ev_Detail := detail |}.
Definition smbActivity req : M W Done :=
  boundAccount (oq_Subject req) (λ binding,
  let since := match oq_Params req !! "since" with Some (p_text v) => TrimSpace v | _ => "" end in
  let at_ : option (option Z) := if since =? "" then Some None else t ← parse_rfc3339 since; Some (Some t) in
  match at_ with
  | None => refusing 400 "since must be an RFC3339 timestamp"
  | Some since =>
      or_refuse (λ e, (statusFor e, "the audit log could not be read")) (on_nas (λ w, audit_query w (b_Username binding) since)) (λ rows,
      let truncated := activityLimit <? length rows in
      let events := event_of <$> (if truncated then take activityLimit rows else rows) in
      blind ← attempt (sharesNotWatching (b_Username binding));
      let r := succeeded "activity.get" (oq_Subject req) "" in
      result {| or_Operation := or_Operation r; or_Subject := or_Subject r; or_Outcome := or_Outcome r; or_Detail := ""; or_Rotated := false;
                or_Activity := Some {| ar_Events := events; ar_Truncated := truncated;
                  ar_UncoveredShares := match blind with
                                        | inr l => l
                                        | inl _ => ["(the audit coverage of the shares could not be read, so coverage is unknown)"]
                                        end |};
                or_Storage := None; or_Health := None; or_AccountUID := 0 |})
  end).
Definition storageStatus (c : reachCache) req : M W (reachCache * Done) :=
  b ← attempt (reading_store op_get_binding (λ st, bindings st !! oq_Subject req));
  match b with
  | inl e => mret (c, inl (422%Z, e_text e))
  | inr None => mret (c, inl (422%Z, "no account is bound to this subject yet"))
  | inr (Some binding) =>
      '(c, r) ← storage_of scope c binding;
      mret (c, match r with
               | inl f => inl f
               | inr st => inr {| or_Operation := "storage.status"; or_Subject := oq_Subject req; or_Outcome := "succeeded"; or_Detail := ""; or_Rotated := false;
                                  or_Activity := None; or_Storage := Some st; or_Health := None; or_AccountUID := 0 |}
               end)
  end.
Definition alert_of (a : alertRow) : TargetAlert :=
  {| al_Level := aw_Level a; al_Class := aw_Klass a; al_Text := stripMarkup (default (default "" (aw_Text a)) (aw_Formatted a));
     al_At := epoch_text (aw_Datetime a); al_Dismissed := aw_Dismissed a |}.
Definition no_health : TargetHealth := {| th_System := None; th_Alerts := []; th_Pools := []; th_Services := []; th_Degraded := [] |}.
Definition degraded (h : TargetHealth) (name : string) : TargetHealth :=
  {| th_System := th_System h; th_Alerts := th_Alerts h; th_Pools := th_Pools h; th_Services := th_Services h; th_Degraded := th_Degraded h ++ [name] |}.
Definition health_sources : list (string * string * (TargetHealth → string → option TargetHealth)) :=
  [("system", "system.info", λ h raw, i ← decodeAnswer raw decode_system;
      Some {| th_System := Some i; th_Alerts := th_Alerts h; th_Pools := th_Pools h; th_Services := th_Services h; th_Degraded := th_Degraded h |});
   ("alerts", "alert.list", λ h raw, l ← decodeAnswer raw decode_alerts;
      Some {| th_System := th_System h; th_Alerts := alert_of <$> l; th_Pools := th_Pools h; th_Services := th_Services h; th_Degraded := th_Degraded h |});
   ("pools", "pool.query", λ h raw, l ← decodeAnswer raw decode_pools;
      Some {| th_System := th_System h; th_Alerts := th_Alerts h; th_Pools := l; th_Services := th_Services h; th_Degraded := th_Degraded h |});
   ("services", "service.query", λ h raw, l ← decodeAnswer raw decode_services;
      Some {| th_System := th_System h; th_Alerts := th_Alerts h; th_Pools := th_Pools h; th_Services := l; th_Degraded := th_Degraded h |})].
Fixpoint read_sources (h : TargetHealth) (sources : list (string * string * (TargetHealth → string → option TargetHealth))) : M W TargetHealth :=
  match sources with
  | [] => mret h
  | (name, method, decode) :: sources =>
      r ← attempt (on_nas (λ w, health_read w method));
      read_sources (match r with inr raw => default (degraded h name) (decode h raw) | inl _ => degraded h name end) sources
  end.
Definition targetHealth req : M W Done :=
  h ← read_sources no_health health_sources;
  if length (th_Degraded h) =? length health_sources then refusing 503 "the target answered none of the health reads"
  else result {| or_Operation := "health.get"; or_Subject := oq_Subject req; or_Outcome := "succeeded"; or_Detail := ""; or_Rotated := false;
                 or_Activity := None; or_Storage := None; or_Health := Some h; or_AccountUID := 0 |}.

(** ** The endpoint *)
Definition keeping (c : reachCache) (m : M W Done) : M W (reachCache * Done) := r ← m; mret (c, r).
Definition runOperation (c : reachCache) (name : string) req : M W (reachCache * Done) :=
  if name =? "password.set" then keeping c (setPassword req)
  else if name =? "password.rotate" then keeping c (rotatePassword req)
  else if name =? "account.purge" then keeping c (purgeAccount req)
  else if name =? "account.adopt" then keeping c (adoptAccount req)
  else if name =? "account.release" then keeping c (releaseAccount req)
  else if name =? "activity.get" then keeping c (smbActivity req)
  else if name =? "storage.status" then storageStatus c req
  else if name =? "health.get" then keeping c (targetHealth req)
  else keeping c (refusing 404 "no such operation").
Inductive OpAnswer := op_answer (r : OperationResult) | op_error (status : Z) (code detail : string) | op_lifecycle (state : string).
Context (supported : gset string).
(** The work of a call that is new; a result of a mutation is remembered. *)
Definition run_and_remember (s : Server W) (c : reachCache) (name : string) req : Server W * reachCache * OpAnswer :=
  match runOperation c name req s with
  | (s, inl e) => (s, c, op_error 500 "OPERATION_FAILED" (e_text e))
  | (s, inr (c, inl (status, why))) => (s, c, op_error status "OPERATION_FAILED" why)
  | (s, inr (c, inr r)) =>
      (if mutatingOperation name && negb (store_fails (nas s) op_remember)
       then with_store s (Remember (store s) (clock (nas s)) (oq_CallID req) (kindOperation +:+ name) (cached_operation (marshal_result r))) else s,
       c, op_answer r)
  end.
Definition handleOperation (s : Server W) (c : reachCache) (name : string) (body : option OperationRequest) : Server W * reachCache * OpAnswer :=
  match body with
  | None => (s, c, op_error 400 "BAD_REQUEST" "")
  | Some req =>
      if negb (oq_ContractVersion req =? ContractVersion)%Z then (s, c, op_error 422 "CONTRACT_VERSION_MISMATCH" "")
      else if TrimSpace (oq_CallID req) =? "" then (s, c, op_error 400 "BAD_REQUEST" "")
      else if (oq_Operation req <>? "") && (oq_Operation req <>? name)
      then (s, c, op_error 400 "OPERATION_MISMATCH" "the operation named in the body is not the one this route runs")
      else if store_fails (nas s) op_recall then (s, c, op_error 500 "STORE_UNREADABLE" "")
      else match Recall (store s) (clock (nas s)) (oq_CallID req) (kindOperation +:+ name) with
      | recall_mismatch => (s, c, op_error 409 "CALL_ID_REUSED" "")
      | recall_found cached =>
          (s, c, match match cached with cached_operation raw => unmarshal_result raw | cached_apply o => outcome_as_result o end with
                 | Some r => op_answer r
                 | None => op_error 500 "STORE_UNREADABLE" ""
                 end)
      | recall_absent =>
          if negb (mutatingOperation name) then run_and_remember s c name req
          else match Begin (life s) with
          | None => (s, c, op_lifecycle (lc_state (life s)))
          | Some l =>
              let s := with_life s l in
              let '(s, c, a) :=
                match MajorSupported supported (version (nas s)) with
                | (false, why) => (s, c, op_error 422 "TARGET_VERSION_UNSUPPORTED" why)
                | (true, _) => run_and_remember s c name req
                end in
              (with_life s (done_ (life s)), c, a)
          end
      end
  end.
End operations.
