(* ===== verification/NasOpsFacts.v ===== *)
(** * NasOpsFacts: what an operation may do

    Facts about NasOps.v: the account an operation works on, what is kept of a
    credential, and calls that come twice. *)

From S2P Require MutationLog.
From S2P Require Import Prelude Text Username Tables Nas NasApply NasConverge NasReach NasOps.

(** ** The calls of an operation *)
Inductive OpCall := oc_credential (i : apiID) (secret : string) (smb : bool) | oc_delete (i : apiID).
(** The calls that change an account are remembered, also when they fail; a
    lookup answers from the accounts, with two rows at most. *)
Class OpsLog (W : Type) `{!Nas W, !Shares W, !Ops W} := {
  op_calls : W → list OpCall;
  on_target : W → list nasUser;
  seen w : list OpCall * list nasUser := (op_calls w, on_target w);
  seen_user_query w f : seen (user_query w f).1 = seen w;
  seen_group_query w n : seen (group_query w n).1 = seen w;
  seen_highest_uid w a b : seen (highest_uid w a b).1 = seen w;
  seen_highest_gid w a b : seen (highest_gid w a b).1 = seen w;
  seen_stat w p : seen (filesystem_stat w p).1 = seen w;
  seen_get_quota w ds uid : seen (get_quota w ds uid).1 = seen w;
  seen_readACLs w : seen (readACLs w).1 = seen w;
  seen_smb_query w : seen (smb_query w).1 = seen w;
  seen_dataset_query w : seen (dataset_query w).1 = seen w;
  seen_getacl w p : seen (getacl w p).1 = seen w;
  seen_listdir w p : seen (listdir w p).1 = seen w;
  seen_quota_table w ds : seen (quota_table w ds).1 = seen w;
  seen_account_rows w n : seen (account_rows w n).1 = seen w;
  seen_user_lookup w f : seen (user_lookup w f).1 = seen w;
  seen_mint_bytes w : seen (mint_bytes w).1 = seen w;
  seen_elevated w k : seen (elevated w k).1 = seen w;
  seen_audit_query w n t : seen (audit_query w n t).1 = seen w;
  seen_share_audits w : seen (share_audits w).1 = seen w;
  seen_account_groups w n : seen (account_groups w n).1 = seen w;
  seen_health_read w m : seen (health_read w m).1 = seen w;
  user_lookup_reads w f w' us : user_lookup w f = (w', inr us) → us = take 2 (filter (λ u, selected f u = true) (on_target w));
  set_credential_calls w i p smb : op_calls (set_credential w i p smb).1 = op_calls w ++ [oc_credential i p smb];
  user_delete_calls w i : op_calls (user_delete w i).1 = op_calls w ++ [oc_delete i];
}.
(** What the calls that change no account leave alone. *)
Class ObservesLook {W : Type} `{!Nas W, !Shares W, !Ops W} (R : Keeping W) := {
  #[global] look_work :: ObservesWork R;
  look_smb_query s : R s (with_nas s (smb_query (nas s)).1);
  look_dataset_query s : R s (with_nas s (dataset_query (nas s)).1);
  look_getacl s p : R s (with_nas s (getacl (nas s) p).1);
  look_listdir s p : R s (with_nas s (listdir (nas s) p).1);
  look_quota_table s ds : R s (with_nas s (quota_table (nas s) ds).1);
  look_account_rows s n : R s (with_nas s (account_rows (nas s) n).1);
  look_user_lookup s f : R s (with_nas s (user_lookup (nas s) f).1);
  look_mint_bytes s : R s (with_nas s (mint_bytes (nas s)).1);
  look_elevated s k : R s (with_nas s (elevated (nas s) k).1);
  look_audit_query s n t : R s (with_nas s (audit_query (nas s) n t).1);
  look_share_audits s : R s (with_nas s (share_audits (nas s)).1);
  look_account_groups s n : R s (with_nas s (account_groups (nas s) n).1);
  look_health_read s m : R s (with_nas s (health_read (nas s) m).1);
}.
(** A target call that changes no account. *)
Ltac looking := first [apply look_smb_query|apply look_dataset_query|apply look_getacl|apply look_listdir|apply look_quota_table
  |apply look_account_rows|apply look_user_lookup|apply look_mint_bytes|apply look_elevated|apply look_audit_query|apply look_share_audits
  |apply look_account_groups|apply look_health_read].
#[export] Hint Extern 2 (steady _ (on_nas _)) => apply steady_on_nas; intros; looking : nas_reads.
#[export] Hint Extern 2 (steady _ (on_nas_unit _)) => apply steady_on_nas_unit; intros; looking : nas_reads.

Section reading.
Context {W : Type} `{!Nas W, !Shares W, !Ops W, !Unicode, !Decoding} (scope : option (gset string)) (R : Keeping W) `{!ObservesLook R}.
Lemma obs_readGroups : steady R readGroups.
Proof. apply steady_readGroups, _. Qed.
Lemma obs_groupIndex : steady R groupIndex.
Proof. apply steady_groupIndex, _. Qed.
Lemma obs_readSubjects : steady R readSubjects.
Proof. apply steady_readSubjectsWhere, _. Qed.
Hint Resolve obs_readGroups obs_groupIndex obs_readSubjects : nas_reads.
Lemma obs_readSharesACLs : steady R (readSharesACLs scope).
Proof.
  unfold readSharesACLs, enabledShares, datasetMounts. reading.
  assert (∀ m share dirs, steady R (read_dirs m share dirs)) as Hd.
  { intros m share dirs. induction dirs as [|[n p] dirs IH]; simpl; [idle|]. unfold readACL. reading. }
  match goal with |- steady _ (read_shares ?m ?l) => induction l as [|sh l IH]; simpl; [idle|] end. unfold readACL. reading; auto.
Qed.
Lemma obs_readACLs c : steady R (readACLs_ scope c).
Proof.
  intros s. unfold readACLs_. pose proof (obs_readSharesACLs s) as Hr. destruct (readAt c); [case_match; [idle|]|]; destruct (readSharesACLs scope s) as [s1 [|]]; exact Hr.
Qed.
Hint Resolve obs_readACLs : nas_reads.
Lemma obs_quotas_of seen_ ds : steady R (quotas_of seen_ ds).
Proof. unfold quotas_of, userQuotas. reading. Qed.
Hint Resolve obs_quotas_of : nas_reads.
Lemma obs_fill_usage uid sn ps : steady R (fill_usage uid sn ps).
Proof. revert sn. induction ps as [|p ps IH]; intros sn; simpl; [idle|]. reading; auto. Qed.
Hint Resolve obs_fill_usage : nas_reads.
Lemma obs_memberPlaces c uid ids home : steady R (memberPlaces scope c uid ids home).
Proof. unfold memberPlaces. reading. Qed.
Hint Resolve obs_memberPlaces : nas_reads.
Lemma obs_usage_each uid l : steady R (usage_each scope uid l).
Proof. induction l; simpl; reading. Qed.
Hint Resolve obs_usage_each : nas_reads.
Lemma obs_lookupOne f : steady R (lookupOne f).
Proof. unfold lookupOne. reading. Qed.
Hint Resolve obs_lookupOne : nas_reads.
Lemma obs_recordID b : steady R (recordID b).
Proof. unfold recordID. reading. Qed.
Lemma obs_or_refuse {A} why (m : M W A) k : steady R m → (∀ a, steady R (k a)) → steady R (or_refuse why m k).
Proof. intros Hm Hk. unfold or_refuse. apply steady_bind; [by apply steady_attempt|]. intros []; [idle|apply Hk]. Qed.
Lemma obs_boundAccount subject k : (∀ b, steady R (k b)) → steady R (boundAccount subject k).
Proof. intros Hk. apply obs_or_refuse; [apply steady_store|]. intros [b|]; [apply Hk|idle]. Qed.
Lemma obs_delete_binding subject : steady R (delete_binding subject).
Proof. intros s. unfold delete_binding, writing_store. case_match; [idle|]. by apply obs_store. Qed.
Hint Resolve obs_delete_binding : nas_reads.
Lemma obs_record a b c e f : steady R (record a b c e f).
Proof. intros s. apply obs_journal. Qed.
Lemma obs_result r : steady R (result r).
Proof. idle. Qed.
Hint Resolve obs_record obs_result : nas_reads.
Lemma obs_adopt req : steady R (adoptAccount req).
Proof.
  unfold adoptAccount, refuseSelfAccount. destruct (bool_decide _); [idle|]. destruct (bool_decide _); [idle|].
  apply steady_bind; [idle|]. intros s0. destruct (is_self _ _); [idle|]. apply obs_or_refuse; [auto with nas_reads|]. intros [b|]; [destruct (bool_decide _); idle|].
  apply obs_or_refuse; [auto with nas_reads|]. intros claimed. destruct (claimed !! _); [idle|]. apply obs_or_refuse; [auto with nas_reads|]. intros snap.
  destruct (head _) as [x|]; [|idle]. apply steady_bind; [|intros [[] |]; [idle|reading]].
  intros s1. unfold bind_if_free, BindIfFree. destruct (store_fails _ _); [idle|]. destruct (held_by _ _); [idle|]. by apply obs_store.
Qed.
Lemma obs_release req : steady R (releaseAccount req).
Proof.
  unfold releaseAccount. apply obs_or_refuse; [auto with nas_reads|]. intros [b|]; [|idle]. apply obs_or_refuse; [auto with nas_reads|]. intros; reading.
Qed.
Lemma obs_activity req : steady R (smbActivity scope req).
Proof.
  unfold smbActivity. apply obs_boundAccount. intros b. cbv zeta. match goal with |- steady _ (match ?x with _ => _ end) => destruct x as [since|] end; [|idle].
  apply obs_or_refuse; [auto with nas_reads|]. intros rows. unfold sharesNotWatching, readShareAudit, groupsOf. reading.
Qed.
Lemma obs_storage c req : steady R (storageStatus scope c req).
Proof. unfold storageStatus, storage_of, shareUsage. reading. Qed.
Lemma obs_health req : steady R (targetHealth req).
Proof.
  unfold targetHealth. apply steady_bind; [|intros; destruct (bool_decide _); idle]. generalize no_health as h.
  induction health_sources as [|[[n m] d] l IH]; intros h; simpl; [idle|]. reading; auto.
Qed.

End reading.

(** ** The account of an operation *)
(** The one account a binding stands for: that with its number, or where there is
    none that can be named, that with its name. *)
Definition names_account (us : list nasUser) (b : Binding) (i : apiID) : Prop :=
  known i = true ∧
  (b_UID b ≠ 0%Z ∧ (∃ u, filter (λ u, u_UID u = b_UID b) us = [u] ∧ u_ID u = i) ∨
   (b_UID b = 0%Z ∨ filter (λ u, u_UID u = b_UID b) us = [] ∨ ∃ u, filter (λ u, u_UID u = b_UID b) us = [u] ∧ known (u_ID u) = false) ∧
   (∃ u, filter (λ u, u_Username u = b_Username b) us = [u] ∧ u_ID u = i)).
Section account.
Context {W : Type} `{!Nas W, !Shares W, !Ops W, !OpsLog W, !Unicode, !Decoding}.
Definition obs (s : Server W) : list OpCall * list nasUser := seen (nas s).
#[export] Instance obs_look : ObservesLook (same obs).
Proof.
  repeat split; intros; unfold obs; simpl; first [apply seen_user_query|apply seen_group_query|apply seen_highest_uid|apply seen_highest_gid|apply seen_stat
    |apply seen_get_quota|apply seen_readACLs|apply seen_smb_query|apply seen_dataset_query|apply seen_getacl|apply seen_listdir|apply seen_quota_table
    |apply seen_account_rows|apply seen_user_lookup|apply seen_mint_bytes|apply seen_elevated|apply seen_audit_query|apply seen_share_audits
    |apply seen_account_groups|apply seen_health_read|done].
Qed.
Lemma two_rows {A} (l : list A) : match take 2 l with [] => l = [] | [x] => l = [x] | _ => True end.
Proof. by destruct l as [|x [|y l]]. Qed.
Lemma lookupOne_run f (s s1 : Server W) r :
  lookupOne f s = (s1, inr r) →
  match r with
  | inr i => known i = true ∧ ∃ u, filter (λ u, selected f u = true) (on_target (nas s)) = [u] ∧ u_ID u = i
  | inl errNoSuchAccount => filter (λ u, selected f u = true) (on_target (nas s)) = [] ∨
      ∃ u, filter (λ u, selected f u = true) (on_target (nas s)) = [u] ∧ known (u_ID u) = false
  | _ => True
  end.
Proof.
  unfold lookupOne. intros (s2 & r2 & E & [= _ <-])%bind_inv. unfold attempt, on_nas in E. destruct (user_lookup (nas s) f) as [w r3] eqn:El.
  injection E as _ <-. destruct r3 as [e|us]; [done|]. apply user_lookup_reads in El. pose proof (two_rows (filter (λ u, selected f u = true) (on_target (nas s)))) as H2.
  rewrite <-El in H2. destruct us as [|u [|u' us]]; [by left| |done]. destruct (known (u_ID u)) eqn:Ek; [|right; eauto]. eauto.
Qed.
Lemma selected_uid (us : list nasUser) n : filter (λ u, selected (by_uid n) u = true) us = filter (λ u, u_UID u = n) us.
Proof. apply list_filter_iff. intros u. simpl. apply Z.eqb_eq. Qed.
Lemma selected_name (us : list nasUser) n : filter (λ u, selected (by_username n) u = true) us = filter (λ u, u_Username u = n) us.
Proof. apply list_filter_iff. intros u. simpl. apply bool_decide_eq_true. Qed.
Lemma lookup_target f (s s1 : Server W) r : lookupOne f s = (s1, r) → on_target (nas s1) = on_target (nas s).
Proof. intros E. pose proof (obs_lookupOne (same obs) f s) as H2. rewrite E in H2. unfold obs, seen in H2. simpl in H2. congruence. Qed.
Lemma recordID_names b (s s1 : Server W) i : recordID b s = (s1, inr (inr i)) → names_account (on_target (nas s)) b i.
Proof.
  unfold recordID, names_account. destruct (Z.eqb_spec (b_UID b) 0) as [Hz|Hz]; cbn [negb].
  - intros E. apply lookupOne_run in E as [Hk Hu]. rewrite selected_name in Hu. split; [done|]. right. auto.
  - intros (s2 & r & E & E2)%bind_inv. pose proof (lookup_target _ _ _ _ E) as Ht. apply lookupOne_run in E. rewrite selected_uid in E.
    destruct r as [[| |e]|j]; [|by injection E2 as <-..|].
    + apply lookupOne_run in E2 as [Hk Hu]. rewrite selected_name, Ht in Hu. split; [done|]. right. split; [by right|done].
    + injection E2 as _ ->. destruct E as [Hk Hu]. split; [done|]. left. auto.
Qed.
Lemma boundAccount_run subject k (s s' : Server W) r :
  boundAccount subject k s = (s', r) →
  (s' = s ∧ ∃ f, r = inr (inl f)) ∨ ∃ b, bindings (store s) !! subject = Some b ∧ k b s = (s', r).
Proof.
  unfold boundAccount, or_refuse. rewrite bind_run. unfold attempt, reading_store. destruct (store_fails _ _); [intros [= <- <-]; left; eauto|].
  destruct (bindings (store s) !! subject) as [b|]; [eauto|]. intros [= <- <-]. left. eauto.
Qed.
Lemma recordID_never b (s : Server W) : ∃ s1 r, recordID b s = (s1, inr r).
Proof.
  assert (∀ f (s : Server W), ∃ s1 r, lookupOne f s = (s1, inr r)) as H1.
  { intros f s0. unfold lookupOne, mbind, M_bind, attempt. destruct (on_nas _ s0) as [s1 r]. by eexists _, _. }
  unfold recordID. destruct (negb _); [|apply H1]. rewrite bind_run. destruct (H1 (by_uid (b_UID b)) s) as (s1 & r & ->). destruct r as [[]|]; eauto.
Qed.
Lemma locating_run b k (s s' : Server W) r :
  locating b k s = (s', r) →
  (obs s' = obs s ∧ ∃ f, r = inr (inl f)) ∨
  ∃ i s1, names_account (on_target (nas s)) b i ∧ obs s1 = obs s ∧ recordID b s = (s1, inr (inr i)) ∧ k i s1 = (s', r).
Proof.
  unfold locating. rewrite bind_run. pose proof (obs_recordID (same obs) b s) as Ho. destruct (recordID_never b s) as (s1 & r1 & Er). rewrite Er in Ho. simpl in Ho. rewrite Er.
  destruct r1 as [e|i]; [intros [= <- <-]; left; eauto|]. intros E. right. exists i, s1. split_and!; [by eapply recordID_names|done|done|done].
Qed.
Lemma or_refuse_run {A} why (m : M W A) k s :
  or_refuse why m k s = match m s with (s1, inl e) => (s1, inr (inl (why e))) | (s1, inr a) => k a s1 end.
Proof. unfold or_refuse, mbind, M_bind, attempt. by destruct (m s) as [s1 []]. Qed.
End account.

Section calls.
Context {W : Type} `{!Nas W, !Shares W, !Ops W, !OpsLog W, !Unicode, !Decoding} (scope : option (gset string)).
Implicit Types req : OperationRequest.
(** What is not the target. *)
Definition kept_of (s : Server W) : Store * list LogCall * lifecycle := (store s, journal s, life s).
Lemma lookupOne_keeps f s : kept_of (lookupOne f s).1 = kept_of s.
Proof. unfold lookupOne, mbind, M_bind, attempt, on_nas. by destruct (user_lookup (nas s) f). Qed.
Lemma recordID_keeps b s : kept_of (recordID b s).1 = kept_of s.
Proof.
  unfold recordID. destruct (negb _); [|apply lookupOne_keeps]. rewrite bind_run. pose proof (lookupOne_keeps (by_uid (b_UID b)) s) as Hk.
  destruct (lookupOne (by_uid (b_UID b)) s) as [s1 [e|[[| |e]|i]]]; simpl in Hk; [done| |done..]. by rewrite lookupOne_keeps.
Qed.
Lemma lookupOne_nas f (s s0 : Server W) :
  nas s0 = nas s → nas (lookupOne f s0).1 = nas (lookupOne f s).1 ∧ (lookupOne f s0).2 = (lookupOne f s).2.
Proof. intros E. unfold lookupOne, mbind, M_bind, attempt, on_nas. rewrite E. by destruct (user_lookup (nas s) f). Qed.
Lemma recordID_nas b (s s0 : Server W) : nas s0 = nas s → nas (recordID b s0).1 = nas (recordID b s).1.
Proof.
  intros E. unfold recordID. destruct (negb _); [|by apply lookupOne_nas]. rewrite !bind_run. destruct (lookupOne_nas (by_uid (b_UID b)) s s0 E) as [E1 E2].
  destruct (lookupOne (by_uid (b_UID b)) s) as [s1 r1], (lookupOne (by_uid (b_UID b)) s0) as [s2 r2]. simpl in E1, E2. subst r2.
  destruct r1 as [e|[[| |e]|i]]; [done| |done..]. by apply lookupOne_nas.
Qed.
(** The SMB an apply last wanted of a binding, where the binding can be read once
    the account is located; off where nothing is known. *)
Definition known_smb (s : Server W) (b : Binding) : bool :=
  negb (store_fails (nas (recordID b s).1) op_get_binding) && bool_decide (b_WantsSMB b = Some true).
(** The calls an operation may make: the given credential with the SMB last
    wanted, the one the random source answers just then with SMB off, or the
    deletion. *)
Definition allowed_calls (s : Server W) (name : string) req (cs : list OpCall) : Prop :=
  ∃ b i, bindings (store s) !! oq_Subject req = Some b ∧ names_account (on_target (nas s)) b i ∧
    (name = "password.set" ∧ (∃ p, requireSecret (oq_Params req) "password" = inr p ∧ cs = [oc_credential i p (known_smb s b)]) ∨
     name = "password.rotate" ∧ (∃ p, (mint_bytes (nas s)).2 = Some p ∧ cs = [oc_credential i p false]) ∨
     name = "account.purge" ∧ cs = [oc_delete i] ∧ selfName (nas s) ≠ "" ∧ EqualFold (TrimSpace (b_Username b)) (selfName (nas s)) = false).
Definition calls_of (s : Server W) (name : string) req (m : M W Done) : Prop :=
  ∃ cs, op_calls (nas (m s).1) = op_calls (nas s) ++ cs ∧ (cs = [] ∨ allowed_calls s name req cs).
Lemma no_call s name req (m : M W Done) : obs (m s).1 = obs s → calls_of s name req m.
Proof. intros Ho. exists []. rewrite app_nil_r. split; [|by left]. unfold obs, seen in Ho. congruence. Qed.
Lemma silent name req s (m : M W Done) : steady (same obs) m → calls_of s name req m.
Proof. intros Ho. apply no_call, Ho. Qed.
Lemma obs_calls (s s' : Server W) : obs s' = obs s → op_calls (nas s') = op_calls (nas s) ∧ on_target (nas s') = on_target (nas s).
Proof. unfold obs, seen. intros [= -> ->]. done. Qed.
Lemma credential_calls i p smb (s s' : Server W) r :
  on_nas_unit (λ w, set_credential w i p smb) s = (s', r) → op_calls (nas s') = op_calls (nas s) ++ [oc_credential i p smb].
Proof. unfold on_nas_unit. pose proof (set_credential_calls (nas s) i p smb) as Hc. destruct (set_credential _ _ _ _) as [w e]. intros [= <- <-]. exact Hc. Qed.
Lemma desiredSMB_run subject (s s1 : Server W) smb kn b :
  desiredSMB subject s = (s1, inr (smb, kn)) → bindings (store s) !! subject = Some b →
  s1 = s ∧ kn && smb = negb (store_fails (nas s) op_get_binding) && bool_decide (b_WantsSMB b = Some true).
Proof.
  unfold desiredSMB, mbind, M_bind, attempt, reading_store. intros E Hb. destruct (store_fails _ _); [by injection E as <- <- <-|].
  rewrite Hb in E. destruct (b_WantsSMB b) as [v|]; injection E as <- <- <-; (split; [done|]); [|done]. cbn [andb negb]. by destruct v.
Qed.
Lemma set_calls req s : calls_of s "password.set" req (setPassword req).
Proof.
  unfold setPassword. destruct (requireSecret _ _) as [why|p] eqn:Ep; [by apply silent|]. unfold calls_of.
  destruct (boundAccount _ _ s) as [s' r] eqn:E. simpl. apply boundAccount_run in E as [[-> _]|(b & Hb & E)]; [exists []; rewrite app_nil_r; auto|].
  apply locating_run in E as [[Ho _]|(i & s1 & Hi & Ho & Er & E)]; [apply obs_calls in Ho as [-> _]; exists []; rewrite app_nil_r; auto|].
  apply obs_calls in Ho as [Hc _]. pose proof (recordID_keeps b s) as Hk. rewrite Er in Hk. injection Hk as Hst _ _.
  rewrite bind_run in E. destruct (desiredSMB (oq_Subject req) s1) as [s2 [e|[smb kn]]] eqn:Ed.
  { exfalso. revert Ed. unfold desiredSMB, mbind, M_bind, attempt. by destruct (reading_store _ _ _) as [? []]. }
  apply (desiredSMB_run _ _ _ _ _ b) in Ed as [-> Hsmb]; [|by rewrite Hst]. rewrite or_refuse_run in E.
  destruct (on_nas_unit _ s1) as [s3 r3] eqn:E3. apply credential_calls in E3. exists [oc_credential i p (kn && smb)].
  assert (op_calls (nas s') = op_calls (nas s3)) as -> by (destruct r3; injection E as <- _; done). rewrite E3, Hc. split; [done|]. right. exists b, i.
  split_and!; [done|done|]. left. split; [done|]. exists p. split; [done|]. unfold known_smb. by rewrite Er, Hsmb.
Qed.
Lemma rotate_calls req s : calls_of s "password.rotate" req (rotatePassword req).
Proof.
  unfold rotatePassword, calls_of. destruct (boundAccount _ _ s) as [s' r] eqn:E. simpl.
  apply boundAccount_run in E as [[-> _]|(b & Hb & E)]; [exists []; rewrite app_nil_r; auto|]. rewrite or_refuse_run in E.
  assert (steady (same obs) (@mintCredential W _)) as Hm.
  { intros s0. unfold mintCredential, on_nas, obs. pose proof (seen_mint_bytes (nas s0)) as Hs. by destruct (mint_bytes (nas s0)). }
  assert (∀ s1 p, mintCredential s = (s1, inr p) → (mint_bytes (nas s)).2 = Some p) as Hp.
  { intros s1 p. unfold mintCredential, on_nas. destruct (mint_bytes (nas s)) as [w [v|]]; by intros [= _ <-]. }
  specialize (Hm s). destruct (mintCredential s) as [s1 [e|p]]; [clear Hp|specialize (Hp _ _ eq_refl)]; simpl in Hm; apply obs_calls in Hm as [Hc Ht]; [injection E as <- _; exists []; rewrite app_nil_r; auto|].
  apply locating_run in E as [[Ho _]|(i & s2 & Hi & Ho & _ & E)]; [apply obs_calls in Ho as [-> _]; exists []; rewrite app_nil_r; auto|].
  apply obs_calls in Ho as [Hc2 _]. rewrite or_refuse_run in E. destruct (on_nas_unit _ s2) as [s3 r3] eqn:E3. apply credential_calls in E3.
  exists [oc_credential i p false]. assert (op_calls (nas s') = op_calls (nas s3)) as -> by (destruct r3; injection E as <- _; done). rewrite E3, Hc2, Hc.
  split; [done|]. right. exists b, i. rewrite Ht in Hi. split_and!; [done|done|]. right; left. eauto.
Qed.
Lemma purge_calls req s : calls_of s "account.purge" req (purgeAccount req).
Proof.
  unfold purgeAccount. destruct (requireSecret _ _) as [why|p] eqn:Ep; [by apply silent|]. unfold calls_of.
  destruct (boundAccount _ _ s) as [s' r] eqn:E. simpl. apply boundAccount_run in E as [[-> _]|(b & Hb & E)]; [exists []; rewrite app_nil_r; auto|].
  rewrite bind_run in E. cbn [server] in E. case_bool_decide as Hself; [injection E as <- _; exists []; rewrite app_nil_r; auto|].
  unfold refuseSelfAccount in E. rewrite bind_run in E. cbn [server] in E. destruct (is_self _ _) eqn:Es; [injection E as <- _; exists []; rewrite app_nil_r; auto|].
  apply locating_run in E as [[Ho _]|(i & s1 & Hi & Ho & _ & E)]; [apply obs_calls in Ho as [-> _]; exists []; rewrite app_nil_r; auto|].
  apply obs_calls in Ho as [Hc _]. rewrite or_refuse_run in E. destruct (on_nas_unit (λ w, elevated w p) s1) as [s2 r2] eqn:E2.
  assert (op_calls (nas s2) = op_calls (nas s1)) as Hc2.
  { unfold on_nas_unit in E2. pose proof (seen_elevated (nas s1) p) as Hs. destruct (elevated (nas s1) p). injection E2 as <- _. simpl in *. unfold seen in Hs. congruence. }
  destruct r2 as [e|u]; [injection E as <- _; exists []; rewrite app_nil_r; split; [congruence|by left]|]. rewrite or_refuse_run in E.
  destruct (on_nas_unit (λ w, user_delete w i) s2) as [s3 r3] eqn:E3.
  assert (op_calls (nas s3) = op_calls (nas s2) ++ [oc_delete i]) as Hc3.
  { unfold on_nas_unit in E3. pose proof (user_delete_calls (nas s2) i) as Hs. destruct (user_delete (nas s2) i). injection E3 as <- _. done. }
  exists [oc_delete i]. assert (op_calls (nas s') = op_calls (nas s3)) as ->.
  { destruct r3; [by injection E as <- _|].
    revert E. rewrite bind_run. unfold attempt, delete_binding, writing_store. destruct (store_fails _ _); by intros [= <- _]. }
  rewrite Hc3, Hc2, Hc. split; [done|]. right. exists b, i. split_and!; [done|done|]. right; right. split_and!; [done|done|done|].
  unfold is_self in Es. rewrite (bool_decide_false _ Hself) in Es. exact Es.
Qed.
Lemma runOperation_calls c name req s :
  ∃ cs, op_calls (nas (runOperation scope c name req s).1) = op_calls (nas s) ++ cs ∧ (cs = [] ∨ allowed_calls s name req cs).
Proof.
  assert (∀ m, calls_of s name req m → ∃ cs, op_calls (nas (keeping c m s).1) = op_calls (nas s) ++ cs ∧ (cs = [] ∨ allowed_calls s name req cs)) as Hkeep.
  { intros m (cs & Hc & Ha). exists cs. rewrite <-Hc. unfold keeping. rewrite bind_run. by destruct (m s) as [s1 []]. }
  unfold runOperation.
  case_bool_decide; [subst; apply Hkeep, set_calls|]. case_bool_decide; [subst; apply Hkeep, rotate_calls|]. case_bool_decide; [subst; apply Hkeep, purge_calls|].
  case_bool_decide; [apply Hkeep, silent, obs_adopt, _|]. case_bool_decide; [apply Hkeep, silent, obs_release, _|]. case_bool_decide; [apply Hkeep, silent, obs_activity, _|].
  case_bool_decide; [|case_bool_decide; [apply Hkeep, silent, obs_health, _|by apply Hkeep, silent]].
  exists []. rewrite app_nil_r. split; [|by left]. apply obs_calls; exact (obs_storage scope (same obs) c req s).
Qed.
End calls.

(** ** Calls that come again *)
Section again.
Context {W : Type} `{!Nas W, !Shares W, !Ops W, !Unicode, !Decoding} (sha256hex sha256 : string → string) (idFloor idCeiling : Z)
  (supported : gset string) (decode : string → option ApplyOutcome) (scope : option (gset string)).
#[local] Instance idem_look : ObservesLook (same (@idem W)).
Proof. by repeat split. Qed.
Lemma idem_credential i p smb : steady (same (@idem W)) (on_nas_unit (λ w, set_credential w i p smb)).
Proof. by apply steady_on_nas_unit. Qed.
Hint Resolve idem_credential : nas_reads.
Lemma idem_locating b k : (∀ i, steady (same (@idem W)) (k i)) → steady (same idem) (locating b k).
Proof. intros Hk. unfold locating. apply steady_bind; [apply obs_recordID, _|]. intros []; [done|apply Hk]. Qed.
Lemma idem_set req : steady (same (@idem W)) (setPassword req).
Proof.
  unfold setPassword. destruct (requireSecret _ _); [done|]. apply obs_boundAccount. intros b. apply idem_locating. intros i.
  apply steady_bind; [unfold desiredSMB; reading|]. intros [smb kn]. apply obs_or_refuse; [auto with nas_reads|]. done.
Qed.
Lemma idem_rotate req : steady (same (@idem W)) (rotatePassword req).
Proof.
  unfold rotatePassword. apply obs_boundAccount. intros b. apply obs_or_refuse; [by apply steady_on_nas|]. intros minted. apply idem_locating. intros i.
  apply obs_or_refuse; [auto with nas_reads|]. done.
Qed.
Lemma idem_purge req : steady (same (@idem W)) (purgeAccount req).
Proof.
  unfold purgeAccount, refuseSelfAccount. destruct (requireSecret _ _); [done|]. apply obs_boundAccount. intros b. apply steady_bind; [done|]. intros s0.
  destruct (bool_decide _); [done|]. apply steady_bind; [done|]. intros s1. destruct (is_self _ _); [done|]. apply idem_locating. intros i.
  apply obs_or_refuse; [by apply steady_on_nas_unit|]. intros _. apply obs_or_refuse; [by apply steady_on_nas_unit|]. intros _.
  apply steady_bind; [apply steady_attempt, obs_delete_binding, _|done].
Qed.
Lemma idem_runOperation c name req : steady (same (@idem W)) (runOperation scope c name req).
Proof.
  assert (∀ m, steady (same (@idem W)) m → steady (same idem) (keeping c m)) as Hkeep by (intros m Hm; by apply steady_bind).
  unfold runOperation. case_bool_decide; [apply Hkeep, idem_set|]. case_bool_decide; [apply Hkeep, idem_rotate|]. case_bool_decide; [apply Hkeep, idem_purge|].
  case_bool_decide; [apply Hkeep, obs_adopt, _|]. case_bool_decide; [apply Hkeep, obs_release, _|]. case_bool_decide; [apply Hkeep, obs_activity, _|].
  case_bool_decide; [apply obs_storage, _|]. case_bool_decide; [apply Hkeep, obs_health, _|by apply Hkeep].
Qed.
(** A result is remembered under the call it was made for, or nothing is. *)
Definition remembered (name call : string) (a : OpAnswer) (s s' : Server W) : Prop :=
  idem s' = idem s ∨
  ∃ r, a = op_answer r ∧
    idem s' = <[call := {| ie_StoredAt := clock (nas s'); ie_Kind := kindOperation +:+ name; ie_Result := cached_operation (marshal_result r) |}]> (idem s).
Lemma run_and_remember_idem (s : Server W) c name req s' c' a :
  run_and_remember scope s c name req = (s', c', a) → remembered name (oq_CallID req) a s s'.
Proof.
  unfold run_and_remember. pose proof (idem_runOperation c name req s) as Hi. destruct (runOperation scope c name req s) as [s1 [e|[c1 [[st why]|r]]]]; simpl in Hi.
  - intros [= <- _ _]. by left.
  - intros [= <- _ _]. by left.
  - destruct (_ && _); intros [= <- _ <-]; [right|by left]. exists r. split; [done|]. by rewrite <-Hi.
Qed.
Lemma handleOperation_idem (s : Server W) c name req s' c' a :
  handleOperation scope supported s c name (Some req) = (s', c', a) → remembered name (oq_CallID req) a s s'.
Proof.
  unfold handleOperation. destruct (negb _); [intros [= <- _ _]; by left|]. destruct (bool_decide _); [intros [= <- _ _]; by left|].
  destruct (_ && _); [intros [= <- _ _]; by left|]. destruct (store_fails _ _); [intros [= <- _ _]; by left|].
  destruct (Recall _ _ _ _); [|intros [= <- _ _]; by left..]. destruct (negb _); [apply run_and_remember_idem|].
  destruct (Begin _) as [l|]; [|intros [= <- _ _]; by left]. destruct (MajorSupported _ _) as [[] why]; [|intros [= <- _ _]; by left].
  destruct (run_and_remember scope (with_life s l) c name req) as [[s1 c1] a1] eqn:E. intros [= <- _ <-].
  destruct (run_and_remember_idem _ _ _ _ _ _ _ E) as [Hi|(r & -> & Hi)]; [by left|right; eauto].
Qed.
(** Other calls answered in between: applies, operations and sweeps. *)
Inductive busy (call : string) (until : Z) (s : Server W) : Server W → Prop :=
  | busy_apply s' : other_work sha256hex sha256 idFloor idCeiling supported decode call until s s' → busy call until s s'
  | busy_operation name body c s' c' a :
      (∀ req, body = Some req → oq_CallID req ≠ call) → handleOperation scope supported s c name body = (s', c', a) → busy call until s s'.
Lemma busy_keeps call until s s' e : busy call until s s' → expired until e = false → idem s !! call = Some e → idem s' !! call = Some e.
Proof.
  intros [s1 Hw|name body c s1 c' a Hb E] Hx He; [by eapply other_work_keeps|]. destruct body as [req|]; [|by injection E as <- _ _].
  destruct (handleOperation_idem _ _ _ _ _ _ _ E) as [->|(r & _ & ->)]; [done|]. rewrite lookup_insert_ne; [done|]. by apply Hb.
Qed.
Lemma busy_rtc call until s s' e : rtc (busy call until) s s' → expired until e = false → idem s !! call = Some e → idem s' !! call = Some e.
Proof. intros Hw Hx. induction Hw as [|a b c Hab _ IH]; [done|]. intros Hi. apply IH. by eapply busy_keeps. Qed.
End again.

(** ** Properties *)
Ltac no_op_call := intros [= <- _ _]; exists []; split_and!; [by rewrite app_nil_r|simpl; lia|done].

Definition with_password (req : OperationRequest) (p : string) : OperationRequest :=
  {| oq_ContractVersion := oq_ContractVersion req; oq_CallID := oq_CallID req; oq_Operation := oq_Operation req; oq_Subject := oq_Subject req;
     oq_Actor := oq_Actor req; oq_PlanID := oq_PlanID req; oq_Fingerprint := oq_Fingerprint req;
     oq_Params := <["password" := p_text p]> (oq_Params req) |}.
(** The target answers two credentials with the same kind of answer. *)
Definition answers_alike `{!Nas W, !Ops W} (p q : string) : Prop := ∀ w i smb,
  (e_kind <$> (set_credential w i p smb).2) = (e_kind <$> (set_credential w i q smb).2) ∧
  clock (set_credential w i p smb).1 = clock (set_credential w i q smb).1 ∧
  ∀ op, store_fails (set_credential w i p smb).1 op = store_fails (set_credential w i q smb).1 op.
Lemma requireSecret_password req p : TrimSpace p ≠ "" → requireSecret (oq_Params (with_password req p)) "password" = inr p.
Proof. intros Hp. unfold requireSecret. simpl. rewrite lookup_insert_eq. by rewrite bool_decide_false. Qed.
(** A run, what is kept of it beside the target. *)
Definition same_run `{!Nas W} {A} (r1 r2 : Server W * A) : Prop :=
  kept_of r1.1 = kept_of r2.1 ∧ clock (nas r1.1) = clock (nas r2.1) ∧ (∀ op, store_fails (nas r1.1) op = store_fails (nas r2.1) op) ∧ r1.2 = r2.2.
Lemma same_run_refl `{!Nas W} {A} (r : Server W * A) : same_run r r.
Proof. by split_and!. Qed.
Lemma setPassword_alike `{!Nas W, !Shares W, !Ops W} req p q (s : Server W) :
  answers_alike p q → TrimSpace p ≠ "" → TrimSpace q ≠ "" → same_run (setPassword (with_password req p) s) (setPassword (with_password req q) s).
Proof.
  intros Ha Hp Hq. unfold setPassword. rewrite !requireSecret_password by done. cbn [oq_Subject oq_Actor oq_CallID with_password].
  unfold boundAccount. rewrite !or_refuse_run. destruct (reading_store _ _ s) as [s1 [e|[b|]]]; [by split_and!| |by split_and!].
  unfold locating. rewrite !bind_run. destruct (recordID b s1) as [s2 [e|[e|i]]]; [by split_and!..|]. rewrite !bind_run.
  destruct (desiredSMB (oq_Subject req) s2) as [s3 [e|[smb kn]]]; [by split_and!|]. rewrite !or_refuse_run. unfold on_nas_unit.
  destruct (Ha (nas s3) i (kn && smb)) as (Hk & Hc & Hf). destruct (set_credential (nas s3) i p _) as [w1 e1], (set_credential (nas s3) i q _) as [w2 e2].
  simpl in Hk, Hc, Hf. destruct e1 as [e1|], e2 as [e2|]; try done.
  injection Hk as Hk. split_and!; try done. simpl. unfold statusFor. by rewrite Hk.
Qed.
(** C18. A member's password is not kept. Two calls that set different passwords,
    to which the target gives the same kind of answer, leave the same store, the
    same log and the same lifecycle behind and get the same answer: nothing the
    add-on keeps or says depends on the password. *)
Theorem the_password_leaves_no_trace `{!Nas W, !Shares W, !Ops W, !Unicode, !Decoding} scope supported (s : Server W) c req p q :
  answers_alike p q → TrimSpace p ≠ "" → TrimSpace q ≠ "" →
  let r1 := handleOperation scope supported s c "password.set" (Some (with_password req p)) in
  let r2 := handleOperation scope supported s c "password.set" (Some (with_password req q)) in
  kept_of r1.1.1 = kept_of r2.1.1 ∧ r1.1.2 = r2.1.2 ∧ r1.2 = r2.2.
Proof.
  intros Ha Hp Hq. unfold handleOperation. cbn [oq_ContractVersion oq_CallID oq_Operation with_password].
  destruct (negb _); [done|]. destruct (bool_decide _); [done|]. destruct (_ && _); [done|]. destruct (store_fails _ _); [done|]. destruct (Recall _ _ _ _); [|done..].
  change (mutatingOperation "password.set") with true. cbn [negb]. destruct (Begin _) as [l|]; [|done]. destruct (MajorSupported _ _) as [[] why]; [|done].
  unfold run_and_remember. change (runOperation scope c "password.set") with (λ req, keeping c (setPassword req)). cbv beta. unfold keeping. rewrite !bind_run.
  destruct (setPassword_alike req p q (with_life s l) Ha Hp Hq) as (Hk & Hc & Hf & Hr).
  destruct (setPassword (with_password req p) (with_life s l)) as [s1 r1], (setPassword (with_password req q) (with_life s l)) as [s2 r2].
  cbn [fst snd] in Hk, Hc, Hf, Hr. subst r2. injection Hk as Hst Hj Hl. destruct r1 as [e|[[st why']|r]]; cbn [mret M_ret]; [by cbn; unfold kept_of; cbn; rewrite Hst, Hj, Hl..|].
  rewrite (Hf op_remember). change (mutatingOperation "password.set") with true. destruct (negb _); cbn; unfold kept_of; cbn; rewrite Hst, Hj, Hl, ?Hc; done.
Qed.

(** A change is made once. Once a mutating operation was answered and its
    result stored, any request under the same call id to the same operation within
    thirty days, whatever applies, operations and sweeps ran in between, is answered
    with that result and changes nothing. *)
Theorem operation_is_made_once `{!Nas W, !Shares W, !Ops W, !Unicode, !Decoding} sha256hex sha256 floor ceiling supported decode scope
    (s s1 s2 : Server W) c c1 c2 name req r req' :
  mutatingOperation name = true → Recall (store s) (clock (nas s)) (oq_CallID req) (kindOperation +:+ name) = recall_absent →
  handleOperation scope supported s c name (Some req) = (s1, c1, op_answer r) → carried r → store_fails (nas s1) op_remember = false →
  rtc (busy sha256hex sha256 floor ceiling supported decode scope (oq_CallID req) (clock (nas s2))) s1 s2 →
  (clock (nas s2) - clock (nas s1) <= idempotencyTTL)%Z → store_fails (nas s2) op_recall = false →
  oq_CallID req' = oq_CallID req → oq_ContractVersion req' = ContractVersion → TrimSpace (oq_CallID req) ≠ "" →
  (oq_Operation req' = "" ∨ oq_Operation req' = name) →
  handleOperation scope supported s2 c2 name (Some req') = (s2, c2, op_answer r).
Proof.
  intros Hm Hr E Hcr Hf Hw Ht Hf2 Hid Hcv Hc Hop. set (e := {| ie_StoredAt := clock (nas s1); ie_Kind := kindOperation +:+ name; ie_Result := cached_operation (marshal_result r) |}).
  assert (idem s1 !! oq_CallID req = Some e) as Hi.
  { revert E. unfold handleOperation. destruct (negb _); [done|]. destruct (bool_decide _); [done|]. destruct (_ && _); [done|].
    destruct (store_fails (nas s) op_recall); [done|]. rewrite Hr, Hm. cbn [negb]. destruct (Begin _) as [l|]; [|done]. destruct (MajorSupported _ _) as [[] why]; [|done].
    unfold run_and_remember. rewrite Hm. destruct (runOperation scope c name req (with_life s l)) as [s0 [e0|[c0 [[st why']|r0]]]]; [done..|].
    intros E. injection E as <- _ ->. revert Hf. destruct (store_fails (nas s0) op_remember) eqn:Ef; cbn; [by rewrite Ef|]. intros _. unfold idem. cbn. by rewrite lookup_insert_eq. }
  assert (expired (clock (nas s2)) e = false) as Hx by by apply Z.ltb_ge. apply (busy_rtc _ _ _ _ _ _ _ _ _ _ _ _ Hw Hx) in Hi.
  unfold handleOperation. rewrite Hcv, Hid. change (ContractVersion =? ContractVersion)%Z with true. cbn [negb]. rewrite (bool_decide_false (TrimSpace _ = "")) by done.
  assert ((oq_Operation req' <>? "") && (oq_Operation req' <>? name) = false) as ->.
  { destruct Hop as [->|H']; [done|]. rewrite (bool_decide_true _ H'). apply andb_false_r. }
  rewrite Hf2. unfold Recall. unfold idem in Hi. rewrite Hi, Hx. subst e. cbn [ie_Kind ie_Result].
  rewrite (bool_decide_true (kindOperation +:+ name = kindOperation +:+ name)) by done. rewrite andb_false_r. by rewrite unmarshal_marshal by done.
Qed.

(** ** The target of NasConverge, with operations *)
Import Demo.
Record Machine := { box : Target; done_calls : list OpCall }.
Definition via {A} (f : Target → Target * A) (m : Machine) : Machine * A := let '(t, r) := f (box m) in ({| box := t; done_calls := done_calls m |}, r).
Definition after_call (m : Machine) (c : OpCall) : Machine := {| box := box m; done_calls := done_calls m ++ [c] |}.
#[export] Instance machine_nas : Nas Machine := {|
  user_query m f := via (λ t, user_query t f) m;
  group_query m n := via (λ t, group_query t n) m;
  highest_uid m a b := via (λ t, highest_uid t a b) m;
  highest_gid m a b := via (λ t, highest_gid t a b) m;
  user_update m i p := via (λ t, user_update t i p) m;
  user_create m c := via (λ t, user_create t c) m;
  group_create m n g := via (λ t, group_create t n g) m;
  group_delete m i := via (λ t, group_delete t i) m;
  filesystem_stat m p := via (λ t, filesystem_stat t p) m;
  get_quota m d u := via (λ t, get_quota t d u) m;
  set_quota m d u q := via (λ t, set_quota t d u q) m;
  readACLs m := via readACLs m;
  selfName m := selfName (box m);
  version m := version (box m);
  clock m := clock (box m);
  store_fails m op := store_fails (box m) op;
|}.
#[export] Instance machine_shares : Shares Machine := {|
  smb_query m := (m, inr []);
  dataset_query m := (m, inr []);
  getacl m p := (m, inl {| e_kind := ErrNoSuchPath; e_text := "no such path" |});
  listdir m p := (m, inr []);
  quota_table m d := (m, inr []);
  account_rows m n := (m, inr []);
|}.
#[export] Instance machine_ops : Ops Machine := {|
  user_lookup m f := (m, inr (take 2 (filter (λ u, selected f u = true) (t_users (box m)))));
  set_credential m i p smb := (after_call m (oc_credential i p smb), None);
  mint_bytes m := (m, Some "minted");
  elevated m k := (m, None);
  user_delete m i := ({| box := with_users (box m) (filter (λ u, u_ID u ≠ i) (t_users (box m))); done_calls := done_calls m ++ [oc_delete i] |}, None);
  audit_query m n t := (m, inr []);
  share_audits m := (m, inr []);
  account_groups m n := (m, inr []);
  health_read m x := (m, inl {| e_kind := ErrTargetUnreachable; e_text := "unreachable" |});
|}.
#[export] Instance machine_log : OpsLog Machine.
Proof. refine {| op_calls := done_calls; on_target m := t_users (box m) |}; intros; simpl; try done. by simplify_eq/=. Defined.
#[export] Instance bits_decoding : Decoding.
Proof.
  refine {|
    marshal_result r := MutationLog.bits_text (encode (or_Operation r, or_Subject r, or_Outcome r, or_Detail r, or_Rotated r, or_AccountUID r)) +:+ "}";
    unmarshal_result t := match MutationLog.bits_read t ≫= decode with
      | Some (o, s, u, d, b, z) => Some {| or_Operation := o; or_Subject := s; or_Outcome := u; or_Detail := d; or_Rotated := b; or_Activity := None;
                                           or_Storage := None; or_Health := None; or_AccountUID := z |}
      | None => None
      end;
    outcome_as_result _ := None; event_fields _ := None; record_id _ := None; decode_system _ := None; decode_alerts _ := None; decode_pools _ := None;
    decode_services _ := None; rfc3339 _ := ""; parse_rfc3339 _ := None;
    carried r := or_Activity r = None ∧ or_Storage r = None ∧ or_Health r = None |}.
  intros [o s u d b a st h z] (Ha & Hs & Hh). simpl in *. subst. rewrite MutationLog.bits_read_text. simpl. rewrite decode_encode. reflexivity.
Defined.
Definition machine (st : Store) : Server Machine :=
  {| nas := {| box := target; done_calls := [] |}; store := st; journal := []; life := newLifecycle LifecycleActive |}.
Definition call_of (id operation subject : string) (params : gmap string Param) : OperationRequest :=
  {| oq_ContractVersion := ContractVersion; oq_CallID := id; oq_Operation := operation; oq_Subject := subject; oq_Actor := "ops"; oq_PlanID := "";
     oq_Fingerprint := ""; oq_Params := params |}.
Definition operate (s : Server Machine) (req : OperationRequest) : Server Machine * reachCache * OpAnswer :=
  handleOperation None tested s no_cache (oq_Operation req) (Some req).
Definition ana_wants_smb : Store :=
  set_bindings store0 {["s-ana" := {| b_SubjectID := "s-ana"; b_Username := "ana.old"; b_UID := 200001; b_BoundAt := Some 5%Z; b_BoundBy := "apply"; b_WantsSMB := Some true |}]}.
Definition set_ana : OperationRequest := call_of "o-1" "password.set" "s-ana" {["password" := p_text "hunter2"]}.
Definition set_once : Server Machine * reachCache * OpAnswer := operate (machine ana_wants_smb) set_ana.
Lemma the_password_leaves_no_trace_witness :
  kept_of (operate (machine ana_wants_smb) (with_password set_ana "hunter2")).1.1 =
    kept_of (operate (machine ana_wants_smb) (with_password set_ana "correct horse")).1.1 ∧
  (operate (machine ana_wants_smb) (with_password set_ana "hunter2")).2 = (operate (machine ana_wants_smb) (with_password set_ana "correct horse")).2.
Proof.
  destruct (the_password_leaves_no_trace None tested (machine ana_wants_smb) no_cache set_ana "hunter2" "correct horse") as (H1 & _ & H3).
  - intros w i smb. split; [reflexivity|]. split; [reflexivity|]. intros op. reflexivity.
  - vm_compute. discriminate.
  - vm_compute. discriminate.
  - split; [exact H1|exact H3].
Defined.
Definition purge_bob : OperationRequest := call_of "o-2" "account.release" "s-bob" ∅.
Definition after_other : Server Machine := (operate set_once.1.1 purge_bob).1.1.
Definition set_answer : OperationResult := match set_once.2 with op_answer r => r | _ => succeeded "" "" "" end.
Lemma operation_is_made_once_witness : operate after_other set_ana = (after_other, no_cache, op_answer set_answer).
Proof.
  apply (operation_is_made_once digest digest 0 0 tested (λ _, None) None (machine ana_wants_smb) set_once.1.1 after_other no_cache no_cache no_cache "password.set"
    set_ana set_answer set_ana).
  - reflexivity.
  - vm_compute. reflexivity.
  - vm_compute. reflexivity.
  - split; [reflexivity|]. split; reflexivity.
  - reflexivity.
  - apply rtc_once. eapply (busy_operation _ _ _ _ _ _ _ _ _ _ "account.release" (Some purge_bob) no_cache _ _ (operate set_once.1.1 purge_bob).2); [|vm_compute; reflexivity].
    intros req [= <-]. vm_compute. discriminate.
  - vm_compute. discriminate.
  - reflexivity.
  - reflexivity.
  - reflexivity.
  - vm_compute. discriminate.
  - right. reflexivity.
Defined.

(** *** What the guards miss *)
Definition bound_as (subject name : string) (uid : Z) : Binding :=
  {| b_SubjectID := subject; b_Username := name; b_UID := uid; b_BoundAt := Some 5%Z; b_BoundBy := "ops"; b_WantsSMB := None |}.
Definition own_account : nasUser :=
  {| u_ID := "99"; u_Username := "syndra"; u_UID := 200009; u_Locked := false; u_SMB := false; u_PasswordDisabled := false; u_Builtin := false;
     u_Groups := []; u_Home := noHome |}.
Definition with_own : Server Machine :=
  {| nas := {| box := with_users target [ana; own_account]; done_calls := [] |};
     store := set_bindings store0 {["s-svc" := bound_as "s-svc" "svc.old" 200009]}; journal := []; life := newLifecycle LifecycleActive |}.
(** A binding recorded under an earlier name of the add-on's own account passes
    the check of the name, is found by its number, and the account is deleted. *)
Example purge_deletes_its_own_account :
  let r := operate with_own (call_of "o-3" "account.purge" "s-svc" {["elevated_key" := p_text "k"]}) in
  op_calls (nas r.1.1) = [oc_delete "99"] ∧ match r.2 with op_answer a => or_Detail a = "Deleted svc.old." | _ => False end.
Proof. by vm_compute. Qed.
(** An account renamed on the target is still bound to ana by its number; under
    its new name it is adopted for eve, whose password then is ana's. *)
Example adopt_takes_a_renamed_account :
  let r := operate (machine ana_wants_smb) (call_of "o-4" "account.adopt" "s-eve" {["username" := p_text "ana"]}) in
  match r.2 with op_answer a => or_Outcome a = "succeeded" | _ => False end ∧
  (b_UID <$> bindings (store r.1.1) !! "s-ana", b_UID <$> bindings (store r.1.1) !! "s-eve") = (Some 200001, Some 200001)%Z ∧
  op_calls (nas (operate r.1.1 (call_of "o-5" "password.set" "s-eve" {["password" := p_text "mine"]})).1.1) = [oc_credential "70" "mine" false].
Proof. by vm_compute. Qed.
(** A release that comes again after the account was adopted anew releases it
    again: its result is not remembered. *)
Example release_is_made_twice :
  let release := call_of "o-6" "account.release" "s-ana" ∅ in
  let s1 := (operate (machine store0) release).1.1 in
  let s2 := (operate s1 (call_of "o-7" "account.adopt" "s-ana" {["username" := p_text "ana"]})).1.1 in
  bindings (store s2) !! "s-ana" ≠ None ∧ bindings (store (operate s2 release).1.1) !! "s-ana" = None.
Proof. vm_compute. split; [discriminate|reflexivity]. Qed.
(** Alerts lose their markup. *)
Example alert_text : stripMarkup "Pool <b>tank</b> is<br>DEGRADED: a > b" = "Pool tank is DEGRADED: a b".
Proof. by vm_compute. Qed.
