(* ===== verification/Drain.v ===== *)
(** * Drain: sending the outbox to Zitadel (backend/internal/services/propagation)

    drain.go, drainbatch.go, revocations.go, retry.go and the classification and
    live read of deps.go. Zitadel's management API is a class: the state of the
    other side, and each call as a function of it that may answer an error. The
    database calls are Outbox.v's; [db_fails] says which settling statements the
    connection loses, and one that is lost changes nothing (a lost claim or lock
    ends the drain with an error before anything is sent, and is not a case
    here). The add-on passes are an argument of the drains that run them;
    Addon.v defines them. *)

From S2P Require Import Prelude Access Tables Extcall Outbox Lifecycle Plans Enqueue.

(** ** Zitadel *)
Record ZitadelError := { z_Code : option Z;   (* of a StatusError *) z_Text : string }.
Record UserGrant := { u_ID : string; u_ProjectID : string; u_RoleKeys : list string }.
Record GrantPage := { Items : list UserGrant; Total : Z }.
Record Observation := { Grants : list UserGrant; Complete : bool }.

Class Zitadel := {
  World : Type;
  ListAllGrants : World → World * option ZitadelError;
  ListUserGrants : World → string → World * (ZitadelError + GrantPage);
  AddUserGrant : World → string → string → list string → World * option ZitadelError;
  UpdateUserGrant : World → string → string → list string → World * option ZitadelError;
  RemoveUserGrant : World → string → string → World * option ZitadelError;
  UserWithGrants : World → string → World * (ZitadelError + Observation);
}.

(** ** Classification *)
Inductive ackClass := ackApplied | ackFailed | ackTransient.
#[export] Instance ackClass_eq_dec : EqDecision ackClass.
Proof. solve_decision. Defined.

Definition zitadelStatusCode (e : ZitadelError) : Z := default 0%Z (z_Code e).
Definition classifyZitadelError (e : ZitadelError) : ackClass :=
  let code := zitadelStatusCode e in
  if (code =? 409)%Z then ackApplied
  else if (400 <=? code)%Z && (code <? 500)%Z && negb (RetryableStatus code) then ackFailed
  else ackTransient.

(** The first [zitadel api NNN] in the text. *)
Definition digit (a : ascii) : option Z :=
  let n := N_of_ascii a in if (48 <=? n)%N && (n <=? 57)%N then Some (Z.of_N (n - 48)) else None.
Definition api_status (s : string) : option Z :=
  if HasPrefix s "zitadel api " then
    match list_ascii_of_string (substring 12 3 s) with
    | [a; b; c] => match digit a, digit b, digit c with
                   | Some x, Some y, Some z => Some (100 * x + 10 * y + z)%Z
                   | _, _, _ => None
                   end
    | _ => None
    end
  else None.
Fixpoint zitadelStatus (s : string) : option Z :=
  match api_status s with
  | Some n => Some n
  | None => match s with EmptyString => None | String _ s' => zitadelStatus s' end
  end.
Definition RefusalCause (errMsg : string) : string :=
  match zitadelStatus errMsg with
  | None => "other"
  | Some code =>
      if bool_decide (code ∈ [401; 403]%Z) then "not_allowed"
      else if bool_decide (code ∈ [404; 410]%Z) then "not_found"
      else if bool_decide (code ∈ [400; 412; 422]%Z) then "invalid"
      else "other"
  end.

(** ** Results *)
Record PassResult := {
  pr_Target : string; pr_Applied : nat; pr_Failed : nat; pr_Requeued : nat; pr_Abandoned : nat;
  pr_Errored : nat; pr_Exhausted : nat; pr_Halted : bool; pr_Reason : string;
}.
Record DrainResult := {
  Applied : nat;
  Failed : nat;
  Requeued : nat;
  Abandoned : nat;
  Awaiting : list string;
  Errored : nat;
  Exhausted : nat;
  Halted : bool;
  Reason : string;
  HaltedTarget : string;
  Passes : list PassResult;
  Refused : gmap string string;
}.
Definition zero : DrainResult :=
  {| Applied := 0; Failed := 0; Requeued := 0; Abandoned := 0; Awaiting := []; Errored := 0; Exhausted := 0;
     Halted := false; Reason := ""; HaltedTarget := ""; Passes := []; Refused := ∅ |}.
Definition halted (why : string) : DrainResult :=
  {| Applied := 0; Failed := 0; Requeued := 0; Abandoned := 0; Awaiting := []; Errored := 0; Exhausted := 0;
     Halted := true; Reason := why; HaltedTarget := ""; Passes := []; Refused := ∅ |}.

(** Counters moved by one row. *)
Definition count (r : DrainResult) (a f q b e x : nat) (refused : gmap string string) : DrainResult :=
  {| Applied := Applied r + a; Failed := Failed r + f; Requeued := Requeued r + q; Abandoned := Abandoned r + b;
     Awaiting := Awaiting r; Errored := Errored r + e; Exhausted := Exhausted r + x; Halted := Halted r;
     Reason := Reason r; HaltedTarget := HaltedTarget r; Passes := Passes r; Refused := refused ∪ Refused r |}.
Definition with_awaiting (r : DrainResult) (l : list string) : DrainResult :=
  {| Applied := Applied r; Failed := Failed r; Requeued := Requeued r; Abandoned := Abandoned r; Awaiting := l;
     Errored := Errored r; Exhausted := Exhausted r; Halted := Halted r; Reason := Reason r;
     HaltedTarget := HaltedTarget r; Passes := Passes r; Refused := Refused r |}.
Definition with_halt (r : DrainResult) (why : string) : DrainResult :=
  {| Applied := Applied r; Failed := Failed r; Requeued := Requeued r; Abandoned := Abandoned r;
     Awaiting := Awaiting r; Errored := Errored r; Exhausted := Exhausted r; Halted := true;
     Reason := if Reason r =? "" then why else Reason r; HaltedTarget := HaltedTarget r; Passes := Passes r;
     Refused := Refused r |}.

Definition merge (r : DrainResult) (target : string) (p : DrainResult) : DrainResult :=
  let first := Halted p && negb (Halted r) in
  {| Applied := Applied r + Applied p; Failed := Failed r + Failed p; Requeued := Requeued r + Requeued p;
     Abandoned := Abandoned r + Abandoned p; Awaiting := Awaiting r; Errored := Errored r + Errored p;
     Exhausted := Exhausted r + Exhausted p;
     Halted := if first then true else Halted r;
     Reason := if first then Reason p else Reason r;
     HaltedTarget := if first then target else HaltedTarget r;
     Passes := Passes r ++ [{| pr_Target := target; pr_Applied := Applied p; pr_Failed := Failed p;
                               pr_Requeued := Requeued p; pr_Abandoned := Abandoned p; pr_Errored := Errored p;
                               pr_Exhausted := Exhausted p; pr_Halted := Halted p; pr_Reason := Reason p |}];
     Refused := Refused p ∪ Refused r |}.

(** ** The environment of one drain *)
Inductive DbCall := call_reconcile | call_remember | call_forget | call_applied | call_confirmed | call_refused
                  | call_failed | call_requeue | call_intent | call_binding | call_holder | call_conflict
                  | call_merge_base | call_release.
Class DrainEnv := {
  env_zitadel :: Zitadel;
  env_returning :: Returning;
  db_fails : DbCall → Row → bool;
  draw : nat → Z → Z;
  maxRetries : nat;
  retentionDays : Z;
  autoRetry : bool;
  (** The JSON of a retry's audit details: the mark, the outcome, and the row's
      target, operation, project and roles. *)
  retry_details : gmap string (string + Z) → string → Row → string;
}.

(** Why a settle did not happen: the row was no longer in flight, or the
    statement was lost. *)
Inductive SettleError := not_in_flight | lost.
Definition settle_result {A} (r : Error + A) : SettleError + A :=
  match r with inr a => inr a | inl ErrPropagationNotInFlight => inl not_in_flight | inl _ => inl lost end.

Section drain.
Context `{!DrainEnv}.

(** Everything a drain changes: the tables, Zitadel, and the people whose
    cached claims it asked to refresh. *)
Record State := { db : Db; world : World; refreshed : list (string * string) }.
Definition set_db (s : State) (d : Db) : State := {| db := d; world := world s; refreshed := refreshed s |}.
Definition set_world (s : State) (w : World) : State := {| db := db s; world := w; refreshed := refreshed s |}.
Definition refreshAfterRow (s : State) (row : Row) : State :=
  {| db := db s; world := world s; refreshed := refreshed s ++ [(user_id row, ProjectID row)] |}.

Definition zitadelReachable (w : World) : World * bool :=
  let '(w, err) := ListAllGrants w in (w, match err with None => true | Some _ => false end).

(** The one grant of a person on a project, from a read that saw everything. *)
Definition incomplete (userID : string) (total : Z) (returned : nat) : ZitadelError :=
  {| z_Code := None; z_Text := "incomplete grant read for user " +:+ userID +:+ ": " +:+ pretty total
                               +:+ " grants exist, " +:+ Itoa returned +:+ " returned" |}.
Definition of_project (projectID : string) (gs : list UserGrant) : list UserGrant :=
  filter (λ g, u_ProjectID g = projectID) gs.
Definition roles_of (gs : list UserGrant) : gset string := list_to_set (gs ≫= u_RoleKeys).
Definition liveUserGrant (w : World) (userID projectID : string)
    : World * (ZitadelError + string * gset string) :=
  match ListUserGrants w userID with
  | (w, inl e) => (w, inl e)
  | (w, inr page) =>
      if (Z.of_nat (length (Items page)) <? Total page)%Z 
      then (w, inl (incomplete userID (Total page) (length (Items page))))
      else
        let mine := of_project projectID (Items page) in
        (w, inr (default "" (last (u_ID <$> mine)), roles_of mine))
  end.

(** ** Skipping a call that has nothing to do *)
Definition alreadyExists (w : World) (row : Row) : World * bool :=
  match op_type row with
  | op_apply => (w, false)
  | op =>
      match liveUserGrant w (user_id row) (ProjectID row) with
      | (w, inl _) => (w, false)
      | (w, inr (_, live)) =>
          (w, match op with
              | op_add => forallb (λ k, bool_decide (k ∈ live)) (RoleKeys row)
              | op_replace => (size live =? length (RoleKeys row))
                              && forallb (λ k, bool_decide (k ∈ live)) (RoleKeys row)
              | _ => forallb (λ k, bool_decide (k ∉ live)) (RoleKeys row)
              end)
      end
  end.

(** ** The call *)
Definition classified (r : World * option ZitadelError) : World * (ackClass * string) :=
  match r with
  | (w, None) => (w, (ackApplied, ""))
  | (w, Some e) => (w, (classifyZitadelError e, z_Text e))
  end.
Definition merged_roles (live : gset string) (ks : list string) : list string :=
  sort_strings (elements live ++ filter (λ k, k ∉ live) ks).
Definition remaining_roles (live : gset string) (ks : list string) : list string :=
  filter (λ k, k ∉ ks) (elements live).
Definition classifyDispatch (w : World) (row : Row) : World * (ackClass * string) :=
  match op_type row with
  | op_add =>
      match liveUserGrant w (user_id row) (ProjectID row) with
      | (w, inl e) => (w, (classifyZitadelError e, "add: could not read live grant: " +:+ z_Text e))
      | (w, inr (grantID, live)) =>
          classified (if grantID =? "" then AddUserGrant w (user_id row) (ProjectID row) (RoleKeys row)
                      else UpdateUserGrant w (user_id row) grantID (merged_roles live (RoleKeys row)))
      end
  | op_replace =>
      match liveUserGrant w (user_id row) (ProjectID row) with
      | (w, inl e) => (w, (classifyZitadelError e, "replace: could not read live grant: " +:+ z_Text e))
      | (w, inr (grantID, _)) =>
          if grantID =? "" then
            if length (RoleKeys row) =? 0 then (w, (ackApplied, ""))
            else classified (AddUserGrant w (user_id row) (ProjectID row) (RoleKeys row))
          else classified (UpdateUserGrant w (user_id row) grantID (RoleKeys row))
      end
  | op_revoke =>
      match liveUserGrant w (user_id row) (ProjectID row) with
      | (w, inl e) => (w, (classifyZitadelError e, "revoke: could not read live grant roles: " +:+ z_Text e))
      | (w, inr (grantID, live)) =>
          if grantID =? "" then (w, (ackApplied, ""))
          else
            let remaining := remaining_roles live (RoleKeys row) in
            classified (if length remaining =? 0 then RemoveUserGrant w (user_id row) grantID
                        else UpdateUserGrant w (user_id row) grantID remaining)
      end
  | op_apply => (w, (ackFailed, "unknown op_type " +:+ String (ascii_of_N 34) ("apply" +:+ String (ascii_of_N 34) "")))
  end.

(** ** Looking back *)
Definition observedAfterWrite (w : World) (row : Row) : World * bool :=
  if (ProjectID row =? "") || (length (RoleKeys row) =? 0) then (w, false)
  else match UserWithGrants w (user_id row) with
  | (w, inl _) => (w, false)
  | (w, inr obs) =>
      let live := roles_of (of_project (ProjectID row) (Grants obs)) in
      (w, match op_type row with
          | op_add | op_replace => forallb (λ k, bool_decide (k ∈ live)) (RoleKeys row)
          | op_revoke => Complete obs && forallb (λ k, bool_decide (k ∉ live)) (RoleKeys row)
          | op_apply => false
          end)
  end.

(** ** Recording the outcome *)
Definition field (row : Row) (role : string) : string := ProjectID row +:+ "/" +:+ role.
Definition savePropagation (row : Row) (d : Db) (role : string) : Db :=
  if db_fails call_remember row then d
  else match RecordPropagation d (target row) (user_id row) (field row role) (id row) (initiated_by row) with
       | inl _ => d
       | inr d => d
       end.
Definition rememberPropagation (d : Db) (row : Row) : SettleError + Db :=
  match op_type row with
  | op_revoke =>
      if db_fails call_forget row then inl lost
      else inr (ForgetPropagatedFields d (target row) (user_id row) (field row <$> RoleKeys row))
  | op_add => inr (foldl (savePropagation row) d (RoleKeys row))
  | op_replace =>
      let d := foldl (savePropagation row) d (RoleKeys row) in
      if db_fails call_forget row then inl lost
      else settle_result (ForgetPropagatedFieldsExcept d (target row) (user_id row) (ProjectID row)
                            (field row <$> RoleKeys row))
  | op_apply => inr d
  end.

Definition settle (call : DbCall) (row : Row) (r : Error + Db) : SettleError + Db :=
  if db_fails call row then inl lost else settle_result r.

Definition applyRow (s : State) (row : Row) : State * option SettleError :=
  let reconcile := bool_decide (op_type row = op_revoke ∨ op_type row = op_replace) in
  if reconcile && db_fails call_reconcile row then (s, Some lost)
  else
    let s := if reconcile then set_db s (ReconcileLedgerOnApplied (db s) (id row)) else s in
    match rememberPropagation (db s) row with
    | inl e => (s, Some e)
    | inr d =>
        let s := set_db s d in
        match settle call_applied row (MarkPropagationApplied (db s) (id row)) with
        | inl e => (s, Some e)
        | inr d =>
            let '(w, seen) := observedAfterWrite (world s) row in
            let d := if seen && negb (db_fails call_confirmed row) then MarkPropagationConfirmed d (id row) else d in
            (refreshAfterRow (set_world (set_db s d) w) row, None)
        end
    end.

Definition settle_failed (res : DrainResult) (e : SettleError) : DrainResult :=
  match e with
  | not_in_flight => count res 0 0 0 1 0 0 ∅
  | lost => count res 0 0 0 0 1 0 ∅
  end.
Definition apply_outcome (s : State) (res : DrainResult) (row : Row) : State * DrainResult :=
  match applyRow s row with
  | (s, Some e) => (s, settle_failed res e)
  | (s, None) => (s, count res 1 0 0 0 0 0 ∅)
  end.
Definition out_of_retries (n : nat) (errMsg : string) : string :=
  "out of retries after " +:+ Itoa n +:+ " attempts: " +:+ errMsg.

(** One claimed row; the boolean says whether the pass halts. *)
Definition processRow (s : State) (res : DrainResult) (row : Row) : State * DrainResult * bool :=
  let '(w, exists_) := alreadyExists (world s) row in
  let s := set_world s w in
  if exists_ then (apply_outcome s res row, false)
  else
    let '(w, (class, errMsg)) := classifyDispatch (world s) row in
    let s := set_world s w in
    match class with
    | ackApplied => (apply_outcome s res row, false)
    | ackFailed =>
        match settle call_refused row (MarkPropagationRefused (db s) (id row) errMsg (RefusalCause errMsg)) with
        | inl e => (s, settle_failed res e, false)
        | inr d => (refreshAfterRow (set_db s d) row,
                    count res 0 1 0 0 0 0 {[id row := RefusalCause errMsg]}, false)
        end
    | ackTransient =>
        if maxRetries <=? attempts (progress row) then
          match settle call_failed row (MarkPropagationFailed (db s) (id row) (out_of_retries (attempts (progress row)) errMsg)) with
          | inl e => (s, settle_failed res e, false)
          | inr d => (refreshAfterRow (set_db s d) row, count res 0 1 0 0 0 1 ∅, false)
          end
        else
          match (if db_fails call_requeue row then inl lost
                 else settle_result (RequeuePropagation draw (db s) (id row) errMsg)) with
          | inl e => (s, settle_failed res e, false)
          | inr (d, _) => (set_db s d, count res 0 0 1 0 0 0 ∅, false)
          end
    end.

(** A pass over claimed rows, stopping where a row says so. *)
Fixpoint process_rows (s : State) (res : DrainResult) (rows : list Row) : State * DrainResult :=
  match rows with
  | [] => (s, res)
  | row :: rows =>
      let '(s, res, halt) := processRow s res row in
      if halt then (s, res) else process_rows s res rows
  end.

Definition claimBatch : Z := 100.
Definition drainZitadelPass (locked : Row → bool) (s : State) : State * DrainResult :=
  let '(w, up) := zitadelReachable (world s) in
  let s := set_world s w in
  if negb up then (s, halted "zitadel_offline")
  else
    let '(d, rows) := ClaimPendingPropagations locked (db s) TargetZitadel claimBatch in
    process_rows (set_db s d) zero rows.

(** The add-on passes, in the order of their targets. [None]: the pass erred. *)
Definition AddonPass : Type := State → string → State * option DrainResult.
Definition addonDrainTargets (registered : list string) : list string :=
  sort_strings (filter (λ t, t ≠ TargetZitadel) registered).
Fixpoint addon_passes (pass : AddonPass) (s : State) (res : DrainResult) (ts : list string) : State * DrainResult :=
  match ts with
  | [] => (s, res)
  | t :: ts =>
      match pass s t with
      | (s, None) => addon_passes pass s (merge res t (halted "pass_error")) ts
      | (s, Some p) => addon_passes pass s (merge res t p) ts
      end
  end.

Definition pruneAfterDrain (s : State) : State :=
  set_db s (PruneSpentPlans (PruneTerminalPropagations (db s) retentionDays).1 retentionDays).1.

(** [acquired]: whether the drain lock was free. *)
Definition Drain (acquired : bool) (locked : Row → bool) (pass : AddonPass) (registered : list string)
    (s : State) : State * DrainResult :=
  if negb acquired then (s, halted "drain_in_progress")
  else
    let '(s, zitadel) := drainZitadelPass locked s in
    let '(s, res) := addon_passes pass s (merge zero TargetZitadel zitadel) (addonDrainTargets registered) in
    let res := with_awaiting res (TargetsAwaitingDispatch (db s) "") in
    (pruneAfterDrain s, res).

Definition undispatchableTargets (d : Db) (i : string) : list string :=
  match UndispatchableTarget d TargetZitadel i with "" => [] | t => [t] end.

Definition DrainOne (acquired : bool) (s : State) (outboxID : string) : State * DrainResult :=
  if negb acquired then (s, halted "drain_in_progress")
  else
    let '(w, up) := zitadelReachable (world s) in
    let s := set_world s w in
    if negb up then (s, halted "zitadel_offline")
    else match ClaimPropagationByID (db s) TargetZitadel outboxID with
    | (d, None) => (set_db s d, with_awaiting zero (undispatchableTargets d outboxID))
    | (d, Some row) => (processRow (set_db s d) zero row).1
    end.

(** [claim_fails]: the claim of that row was lost. *)
Fixpoint drain_ids (claim_fails : string → bool) (s : State) (res : DrainResult) (ids : list string)
    : State * DrainResult :=
  match ids with
  | [] => (s, res)
  | i :: ids =>
      if claim_fails i then drain_ids claim_fails s (with_halt res "claim_error") ids
      else match ClaimPropagationByID (db s) TargetZitadel i with
      | (d, None) =>
          let fresh := filter (λ t, t ∉ Awaiting res) (undispatchableTargets d i) in
          drain_ids claim_fails (set_db s d) (with_awaiting res (Awaiting res ++ fresh)) ids
      | (d, Some row) =>
          let '(s, res, halt) := processRow (set_db s d) res row in
          if halt then (s, res) else drain_ids claim_fails s res ids
      end
  end.
Definition DrainBatch (acquired : bool) (claim_fails : string → bool) (s : State) (ids : list string)
    : State * DrainResult :=
  match ids with
  | [] => (s, zero)
  | _ =>
      if negb acquired then (s, halted "drain_in_progress")
      else
        let '(w, up) := zitadelReachable (world s) in
        let s := set_world s w in
        if negb up then (s, halted "zitadel_offline") else drain_ids claim_fails s zero ids
  end.

(** ** The background drain *)
Definition RetryRule : Policy :=
  {| Attempts := Z.of_nat maxRetries + 1; Base := Base OutboxRetry; Max := Max OutboxRetry;
     Timeout := Timeout OutboxRetry |}.

Definition RowRetry (row : Row) : option RetryState :=
  if negb (row_status row =? pending) || (attempts (progress row) =? 0) || (not_before (progress row) =? None)
  then None
  else if (WaitReason row =? "role_waits") || (WaitReason row =? "manual") then None
  else if negb autoRetry
  then Some {| Extcall.State := RetryWaiting; Try := Z.of_nat (attempts (progress row));
               Of := Attempts RetryRule; NextTry := None |}
  else Some (Retrying RetryRule (Z.of_nat (attempts (progress row))) (not_before (progress row))).

Definition retryOutcome (before after : DrainResult) : string :=
  if Applied before <? Applied after then "applied"
  else if Exhausted before <? Exhausted after then "gave_up"
  else if Failed before <? Failed after then "failed"
  else if Requeued before <? Requeued after then "retrying"
  else "not_recorded".

Definition auditRetry (s : State) (row : Row) (outcome : string) : State :=
  set_db s (with_outbox (db s) (outbox (db s))
    [{| a_actor := "system"; a_subject := user_id row; a_action := "propagation.retried"; a_resource := id row;
        a_cascade := None;
        a_details := retry_details (AuditMark RetryRule (Z.of_nat (attempts (progress row)) + 1)) outcome row |}]).

(** [send]: the dispatcher of the row's target. *)
Definition automatic (send : State → DrainResult → Row → State * DrainResult * bool) (s : State) (res : DrainResult)
    (row : Row) : State * DrainResult * bool :=
  let '(s, after, halt) := send s res row in
  (if 0 <? attempts (progress row) then auditRetry s row (retryOutcome res after) else s, after, halt).
Fixpoint automatic_rows (send : State → DrainResult → Row → State * DrainResult * bool) (s : State) (res : DrainResult)
    (rows : list Row) : State * DrainResult :=
  match rows with
  | [] => (s, res)
  | row :: rows =>
      let '(s, res, halt) := automatic send s res row in
      if halt then (s, res) else automatic_rows send s res rows
  end.

Definition DrainRevocations (acquired : bool) (locked : Row → bool) (pass : AddonPass)
    (registered : list string) (s : State) : State * DrainResult :=
  if negb acquired then (s, halted "drain_in_progress")
  else
    let '(w, up) := zitadelReachable (world s) in
    let s := set_world s w in
    let '(s, res) :=
      if negb up then (s, merge zero TargetZitadel (halted "zitadel_offline"))
      else
        let '(d, revocations) := ClaimPendingRevocations locked (db s) TargetZitadel claimBatch in
        let '(d, retries) := ClaimDueRetries locked d TargetZitadel claimBatch in
        let '(s, p) := automatic_rows processRow (set_db s d) zero (revocations ++ retries) in
        (s, merge zero TargetZitadel p) in
    addon_passes pass s res (addonDrainTargets registered).
End drain.

(** ** What Zitadel promises

    One grant per person and project. A read tells the truth about it and
    changes nothing; a call that answers without an error did what it says and
    touched no other grant; an error has a text. Nothing is promised of a call
    that answers an error: it may have landed. *)
Class ZitadelLaws (Z : Zitadel) := {
  held : World → string → string → option (string * gset string);
  list_reads w u : held (ListUserGrants w u).1 = held w;
  list_complete w u w' page p :
    ListUserGrants w u = (w', inr page) → (Total page <= Z.of_nat (length (Items page)))%Z →
    match held w u p with
    | None => of_project p (Items page) = []
    | Some (gid, roles) => gid ≠ "" ∧ ∃ g, of_project p (Items page) = [g] ∧ u_ID g = gid ∧
                             list_to_set (u_RoleKeys g) = roles
    end;
  add_lands w u p ks w' :
    AddUserGrant w u p ks = (w', None) → held w u p = None →
    (∃ gid, gid ≠ "" ∧ held w' u p = Some (gid, list_to_set ks)) ∧
    ∀ u' p', (u', p') ≠ (u, p) → held w' u' p' = held w u' p';
  update_lands w u p gid roles ks w' :
    UpdateUserGrant w u gid ks = (w', None) → held w u p = Some (gid, roles) →
    held w' u p = Some (gid, list_to_set ks) ∧ ∀ u' p', (u', p') ≠ (u, p) → held w' u' p' = held w u' p';
  remove_lands w u p gid roles w' :
    RemoveUserGrant w u gid = (w', None) → held w u p = Some (gid, roles) →
    held w' u p = None ∧ ∀ u' p', (u', p') ≠ (u, p) → held w' u' p' = held w u' p';
  add_text w u p ks w' e : AddUserGrant w u p ks = (w', Some e) → z_Text e ≠ "";
  update_text w u gid ks w' e : UpdateUserGrant w u gid ks = (w', Some e) → z_Text e ≠ "";
  remove_text w u gid w' e : RemoveUserGrant w u gid = (w', Some e) → z_Text e ≠ "";
}.

(** The roles a person holds on a project, in Zitadel. *)
Definition zroles `{!DrainEnv, !ZitadelLaws env_zitadel} (w : World) (u p : string) : gset string :=
  match held w u p with Some (_, roles) => roles | None => ∅ end.
(** What an operation asks for. *)
Definition wanted (op : OpType) (now_ : gset string) (ks : list string) : gset string :=
  match op with
  | op_add => now_ ∪ list_to_set ks
  | op_revoke => now_ ∖ list_to_set ks
  | op_replace => list_to_set ks
  | op_apply => now_
  end.

Section dispatch_facts.
Context `{!DrainEnv, !ZitadelLaws env_zitadel}.
Implicit Types w : World.

Lemma liveUserGrant_reads w u p : held (liveUserGrant w u p).1 = held w.
Proof.
  unfold liveUserGrant. pose proof (list_reads w u) as Hr. destruct (ListUserGrants w u) as [w' [e|page]]; [done|].
  simpl in *. by destruct (_ <? _)%Z.
Qed.
Lemma liveUserGrant_truth w u p w' gid live :
  liveUserGrant w u p = (w', inr (gid, live)) →
  held w' = held w ∧ live = zroles w u p ∧
  (if gid =? "" then held w u p = None else held w u p = Some (gid, live)).
Proof.
  intros E. pose proof (liveUserGrant_reads w u p) as Hr. rewrite E in Hr. split; [done|].
  unfold liveUserGrant in E. destruct (ListUserGrants w u) as [w1 [e|page]] eqn:Hl; [done|].
  destruct (Z.ltb_spec (Z.of_nat (length (Items page))) (Total page)); [done|].
  injection E as -> <- <-. pose proof (list_complete w u w' page p Hl ltac:(lia)) as Hc.
  unfold zroles. destruct (held w u p) as [[gid roles]|].
  - destruct Hc as (Hne & g & Hg & <- & <-). rewrite Hg. unfold roles_of. simpl. rewrite app_nil_r.
    by rewrite bool_decide_false.
  - rewrite Hc. done.
Qed.

Definition settled_as (op : OpType) (w w' : World) (u p : string) (ks : list string) : Prop :=
  zroles w' u p = wanted op (zroles w u p) ks ∧
  ∀ u' p', (u', p') ≠ (u, p) → zroles w' u' p' = zroles w u' p'.

Lemma settled_as_intro op w w1 w' u p ks (x : option (string * gset string)) :
  held w1 = held w → held w' u p = x → (match x with Some (_, rs) => rs | None => ∅ end) = wanted op (zroles w u p) ks →
  (∀ u' p', (u', p') ≠ (u, p) → held w' u' p' = held w1 u' p') → settled_as op w w' u p ks.
Proof.
  intros Hw Hx Hk Ho. split; [unfold zroles at 1; by rewrite Hx|].
  intros u' p' Hne. unfold zroles. by rewrite Ho, Hw.
Qed.

Lemma merged_set (live : gset string) ks :
  list_to_set (merged_roles live ks) = live ∪ list_to_set ks.
Proof.
  apply set_eq. intros x. unfold merged_roles.
  rewrite elem_of_list_to_set, sort_strings_elem, elem_of_app, elem_of_elements, list_elem_of_filter,
    elem_of_union, elem_of_list_to_set. destruct (decide (x ∈ live)); tauto.
Qed.
Lemma remaining_set (live : gset string) ks :
  list_to_set (remaining_roles live ks) = live ∖ list_to_set ks.
Proof.
  apply set_eq. intros x. unfold remaining_roles.
  rewrite elem_of_list_to_set, list_elem_of_filter, elem_of_elements, elem_of_difference, elem_of_list_to_set. tauto.
Qed.

Lemma classified_ok r w' : classified r = (w', (ackApplied, "")) →
  (∀ w1 e, r = (w1, Some e) → z_Text e ≠ "") → r = (w', None).
Proof.
  destruct r as [w1 [e|]]; simpl; [|by intros [= ->]]. intros [= -> Hc Ht] Hne. by destruct (Hne w' e).
Qed.
End dispatch_facts.

(** ** A Zitadel that keeps these promises

    Two projects, one grant each per person. [lossy]: an added grant lands and
    its answer is lost on the way back (a 503). *)
Definition grant_id (p : string) : string := "g:" +:+ p.
Definition projects : list string := ["lab"; "door"].
Definition Store : Type := string → string → option (gset string).
Definition put (s : Store) (u p : string) (x : option (gset string)) : Store :=
  λ u' p', if bool_decide (u' = u ∧ p' = p) then x else s u' p'.
Definition store_grants (s : Store) (u : string) : list UserGrant :=
  omap (λ p, (λ rs, {| u_ID := grant_id p; u_ProjectID := p; u_RoleKeys := elements (rs : gset string) |}) <$> s u p) projects.
Definition status_error (code : Z) : ZitadelError :=
  {| z_Code := Some code; z_Text := "zitadel api " +:+ pretty code |}.
Definition by_grant (s : Store) (u gid : string) : option string :=
  head (filter (λ p, grant_id p = gid ∧ is_Some (s u p)) projects).
Definition store_zitadel (lossy : bool) : Zitadel :=
  {| World := Store;
     ListAllGrants := λ s, (s, None);
     ListUserGrants := λ s u, (s, inr {| Items := store_grants s u; Total := Z.of_nat (length (store_grants s u)) |});
     AddUserGrant := λ s u p ks,
       if bool_decide (p ∉ projects) then (s, Some (status_error 404))
       else if bool_decide (is_Some (s u p)) then (s, Some (status_error 409))
       else (put s u p (Some (list_to_set ks)), if lossy then Some (status_error 503) else None);
     UpdateUserGrant := λ s u gid ks,
       match by_grant s u gid with
       | Some p => (put s u p (Some (list_to_set ks)), None)
       | None => (s, Some (status_error 404))
       end;
     RemoveUserGrant := λ s u gid,
       match by_grant s u gid with
       | Some p => (put s u p None, None)
       | None => (s, Some (status_error 404))
       end;
     UserWithGrants := λ s u, (s, inr {| Grants := store_grants s u; Complete := true |}) |}.

Definition store_held (s : Store) (u p : string) : option (string * gset string) :=
  if bool_decide (p ∈ projects) then (λ rs, (grant_id p, rs)) <$> s u p else None.
Lemma grant_id_inj p q : grant_id p = grant_id q → p = q.
Proof. unfold grant_id. rewrite !string_app_cons, !string_app_nil. congruence. Qed.
Lemma by_grant_held s u p gid rs : store_held s u p = Some (gid, rs) → by_grant s u gid = Some p ∧ p ∈ projects.
Proof.
  unfold store_held. case_bool_decide as Hp; [|done]. destruct (s u p) as [rs'|] eqn:E; [|done].
  intros [= <- <-]. split; [|done]. unfold by_grant.
  assert (Hf : ∀ q, grant_id q = grant_id p ∧ is_Some (s u q) ↔ q = p).
  { intros q. split; [intros [?%grant_id_inj _]; done|]. intros ->. rewrite E. eauto. }
  rewrite (list_filter_iff _ (λ q, q = p)) by done.
  unfold projects in *. apply elem_of_cons in Hp as [->|[->|?%elem_of_nil]%elem_of_cons]; by vm_compute.
Qed.
Lemma store_held_put s u p x u' p' :
  p ∈ projects →
  store_held (put s u p x) u' p' =
  if bool_decide (u' = u ∧ p' = p) then (λ rs, (grant_id p, rs)) <$> x else store_held s u' p'.
Proof.
  intros Hp. unfold store_held, put. destruct (decide (u' = u ∧ p' = p)) as [[-> ->]|Hne].
  - rewrite !bool_decide_true by done. done.
  - by rewrite (bool_decide_eq_false_2 _ Hne).
Qed.

#[export] Instance store_laws lossy : ZitadelLaws (store_zitadel lossy).
Proof.
  refine {| held := (store_held : @World (store_zitadel lossy) → _) |}; simpl.
  - done.
  - intros w u w' page p [= <- <-] _. simpl. unfold store_held, store_grants, projects.
    destruct (decide (p = "lab")) as [->|H1]; [|destruct (decide (p = "door")) as [->|H2]].
    + rewrite bool_decide_true by set_solver. simpl.
      destruct (w u "lab") as [g|], (w u "door"); simpl; try done;
        (split; [done|]; exists {| u_ID := grant_id "lab"; u_ProjectID := "lab"; u_RoleKeys := elements g |};
         split; [done|]; split; [done|]; simpl; apply list_to_set_elements_L).
    + rewrite bool_decide_true by set_solver. simpl.
      destruct (w u "lab") as [?|], (w u "door") as [gd|]; simpl; try done;
        (split; [done|]; exists {| u_ID := grant_id "door"; u_ProjectID := "door"; u_RoleKeys := elements gd |};
         split; [done|]; split; [done|]; simpl; apply list_to_set_elements_L).
    + rewrite bool_decide_false by set_solver. unfold of_project. simpl.
      destruct (w u "lab"), (w u "door"); simpl; rewrite ?filter_cons_False by (simpl; congruence); done.
  - intros w u p ks w'. case_bool_decide as Hp; [done|].
    case_bool_decide; [done|]. destruct lossy; [done|]. intros [= <-] _. split.
    + exists (grant_id p). split; [done|]. rewrite store_held_put, bool_decide_true by done. done.
    + intros u' p' Hne. rewrite store_held_put, bool_decide_false by (done || naive_solver). done.
  - intros w u p gid roles ks w' E Hh. destruct (by_grant_held _ _ _ _ _ Hh) as [Hb Hp]. rewrite Hb in E.
    injection E as <-. split.
    + rewrite store_held_put, bool_decide_true by done. simpl. do 2 f_equal.
      unfold store_held in Hh. case_bool_decide; [|done]. destruct (w u p); simplify_eq/=; done.
    + intros u' p' Hne. rewrite store_held_put, bool_decide_false by (done || naive_solver). done.
  - intros w u p gid roles w' E Hh. destruct (by_grant_held _ _ _ _ _ Hh) as [Hb Hp]. rewrite Hb in E.
    injection E as <-. split.
    + rewrite store_held_put, bool_decide_true by done. done.
    + intros u' p' Hne. rewrite store_held_put, bool_decide_false by (done || naive_solver). done.
  - intros w u p ks w' e. case_bool_decide; [by intros [= _ <-]|]. case_bool_decide; [by intros [= _ <-]|].
    destruct lossy; [by intros [= _ <-]|done].
  - intros w u gid ks w' e. destruct (by_grant w u gid); [done|]. by intros [= _ <-].
  - intros w u gid w' e. destruct (by_grant w u gid); [done|]. by intros [= _ <-].
Defined.

Definition store_env (lossy : bool) : DrainEnv :=
  {| env_zitadel := store_zitadel lossy; env_returning := table_order; db_fails := λ _ _, false;
     draw := λ _ n, (n - 1)%Z; maxRetries := 5; retentionDays := 30; autoRetry := true;
     retry_details := λ _ outcome _, outcome |}.
Definition empty_store : Store := λ _ _, None.

(** ** Facts: settling one row *)
Lemma confirm_only_moved d d1 r p i (b : bool) :
  only_moved d d1 r p → status p = applied → id r = i →
  ∃ p', only_moved d (if b then MarkPropagationConfirmed d1 i else d1) r p' ∧ status p' = applied ∧
        (is_Some (confirmed_at p') ↔ b = true ∨ is_Some (confirmed_at p)).
Proof.
  intros Hm Hs <-. destruct b; [|exists p; split_and!; [done..|]; naive_solver]. destruct Hm as (H1 & H2 & H3).
  exists (if confirmed_at p =? None then set_confirmed (now d1) p else p).
  split; [|split; [by destruct (_ =? _)|]].
  2: { split; [auto|]. intros _. case_bool_decide as E; [by eexists|]. by destruct (confirmed_at p); [eexists|]. }
  unfold only_moved, MarkPropagationConfirmed. simpl.
  rewrite update_ids. split_and!; [done|..].
  - apply update_elem. exists (with_progress r p). split; [done|]. unfold row_status. simpl.
    rewrite Hs, (bool_decide_eq_true_2 (id r = id r)) by done. simpl. by destruct (_ =? _).
  - intros x Hx Hne. apply update_elem. exists x. split; [auto|]. by rewrite (bool_decide_eq_false_2 _ Hne).
Qed.

Section row_facts.
Context `{!DrainEnv}.

Lemma savePropagation_tables row d role :
  outbox (savePropagation row d role) = outbox d ∧ ledger (savePropagation row d role) = ledger d ∧
  now (savePropagation row d role) = now d.
Proof. unfold savePropagation, RecordPropagation. by repeat (destruct (_ : bool) || case_match; simplify_eq/=). Qed.
Lemma savePropagations_tables row ks d :
  outbox (foldl (savePropagation row) d ks) = outbox d ∧ ledger (foldl (savePropagation row) d ks) = ledger d ∧
  now (foldl (savePropagation row) d ks) = now d.
Proof.
  revert d; induction ks as [|k ks IH]; intros d; simpl; [done|].
  destruct (IH (savePropagation row d k)) as (-> & -> & ->). apply savePropagation_tables.
Qed.
Lemma remember_tables d row d' :
  rememberPropagation d row = inr d' → outbox d' = outbox d ∧ ledger d' = ledger d ∧ now d' = now d.
Proof.
  unfold rememberPropagation. destruct (op_type row).
  - intros [= <-]. apply savePropagations_tables.
  - destruct (db_fails _ _); [done|]. by intros [= <-].
  - destruct (savePropagations_tables row (RoleKeys row) d) as (Ho & Hl & Hn).
    destruct (db_fails _ _); [done|]. unfold ForgetPropagatedFieldsExcept, settle_result.
    destruct (_ =? _); [done|]. by intros [= <-].
  - by intros [= <-].
Qed.
Lemma reconcile_tables d i : outbox (ReconcileLedgerOnApplied d i) = outbox d ∧ now (ReconcileLedgerOnApplied d i) = now d.
Proof. unfold ReconcileLedgerOnApplied. by destruct (head _). Qed.

(** The state on the way to the terminal write. *)
Definition reconciled (s : State) (row : Row) : State :=
  if bool_decide (op_type row = op_revoke ∨ op_type row = op_replace)
  then set_db s (ReconcileLedgerOnApplied (db s) (id row)) else s.
Lemma reconciled_tables s row : outbox (db (reconciled s row)) = outbox (db s) ∧ now (db (reconciled s row)) = now (db s).
Proof. unfold reconciled. destruct (bool_decide _); [apply reconcile_tables|done]. Qed.

Lemma applyRow_failed s row s' e : applyRow s row = (s', Some e) → outbox (db s') = outbox (db s).
Proof.
  unfold applyRow. fold (reconciled s row). destruct (_ && db_fails call_reconcile row); [by intros [= <- <-]|].
  destruct (reconciled_tables s row) as [Ho _].
  destruct (rememberPropagation (db (reconciled s row)) row) as [e'|d] eqn:Hm; [by intros [= <- <-]|].
  apply remember_tables in Hm as (Hd & _). unfold settle.
  destruct (db_fails call_applied row); [intros [= <- <-]; simpl; congruence|].
  destruct (settle_result _) as [e'|d2]; [intros [= <- <-]; simpl; congruence|].
  by destruct (observedAfterWrite _ _).
Qed.

(** Applying a row that is in flight: it is applied, with everything it owes
    done first, or a statement was lost and it is still in flight. *)
Lemma applyRow_outcome s row s' o :
  NoDup (id <$> outbox (db s)) → row ∈ outbox (db s) → row_status row = in_flight →
  confirmed_at (progress row) = None →
  applyRow s row = (s', o) →
  match o with
  | Some e => e = lost ∧ outbox (db s') = outbox (db s)
  | None => ∃ p, only_moved (db s) (db s') row p ∧ status p = applied ∧
      (is_Some (confirmed_at p) ↔ (observedAfterWrite (world s) row).2 = true ∧ db_fails call_confirmed row = false) ∧
      ledger (db s') = ledger (db (reconciled s row)) ∧
      (∃ d, rememberPropagation (db (reconciled s row)) row = inr d ∧ memory (db s') = memory d) ∧
      refreshed s' = refreshed s ++ [(user_id row, ProjectID row)]
  end.
Proof.
  intros Hnd Hr Hs Hnc. unfold applyRow. fold (reconciled s row).
  destruct (_ && db_fails call_reconcile row); [by intros [= <- <-]|].
  destruct (reconciled_tables s row) as [Ho _].
  assert (Hrest : world (reconciled s row) = world s ∧ refreshed (reconciled s row) = refreshed s)
    by (unfold reconciled; by destruct (bool_decide _)).
  destruct (rememberPropagation (db (reconciled s row)) row) as [e'|d] eqn:Hm.
  { intros [= <- <-]. split; [|done]. revert Hm. clear. unfold rememberPropagation, ForgetPropagatedFieldsExcept.
    destruct (op_type row), (db_fails call_forget row); try done; try congruence.
    destruct (_ =? _); simpl; congruence. }
  pose proof (remember_tables _ _ _ Hm) as (Hd & Hl & _). rewrite <-Hd in Ho. cbn zeta.
  unfold settle. destruct (db_fails call_applied row); [intros [= <- <-]; split; [done|by simpl]|].
  simpl. unfold MarkPropagationApplied.
  destruct (settle_only_moved (db s) d (id row) (terminate (now d) applied None) row)
    as (d1 & E1 & Hmv & Hl1 & Hm1); [done..|by rewrite Ho|done|done|done|].
  rewrite E1. simpl. rewrite (proj1 Hrest).
  destruct (observedAfterWrite (world s) row) as [w seen]. simpl. intros [= <- <-]. simpl.
  destruct (confirm_only_moved _ _ _ _ (id row) (seen && negb (db_fails call_confirmed row)) Hmv)
    as (p' & Hmv' & Hp' & Hc); [done|done|].
  exists p'. split_and!; [done|done| | | |by rewrite (proj2 Hrest)].
  - rewrite Hc, andb_true_iff, negb_true_iff. simpl. rewrite Hnc. split; [|auto]. by intros [?|[? [=]]].
  - destruct (_ && _); simpl; congruence.
  - exists d. split; [done|]. destruct (_ && _); simpl; congruence.
Qed.
End row_facts.

(** ** Properties *)

(** A dispatch Zitadel accepted leaves the person with exactly the roles
    the row asks for on that project (an add keeps every other role of the one
    shared grant, a revoke strips only its own roles, a replace sets the exact
    set) and changes no other person's or project's grant. *)
Theorem classifyDispatch_effect `{!DrainEnv, !ZitadelLaws env_zitadel} (w w' : World) (row : Row) :
  classifyDispatch w row = (w', (ackApplied, "")) →
  zroles w' (user_id row) (ProjectID row)
    = wanted (op_type row) (zroles w (user_id row) (ProjectID row)) (RoleKeys row) ∧
  ∀ u p, (u, p) ≠ (user_id row, ProjectID row) → zroles w' u p = zroles w u p.
Proof.
  unfold classifyDispatch. set (u := user_id row). set (p := ProjectID row). set (ks := RoleKeys row).
  destruct (liveUserGrant w u p) as [w1 [e|[gid live]]] eqn:Hlive.
  { destruct (op_type row); intros [= _ _ Ht]; discriminate Ht. }
  apply liveUserGrant_truth in Hlive as (Hw1 & Hlv & Hgrant). fold (settled_as (op_type row) w w' u p ks).
  destruct (op_type row) eqn:Hop; [| | |by intros [= _]].
  - intros E. apply classified_ok in E; [|intros ? ?; destruct (gid =? ""); [apply add_text|apply update_text]].
    destruct (gid =? "").
    + destruct (add_lands _ _ _ _ _ E) as [(g' & _ & Hh) Ho]; [by rewrite Hw1|].
      eapply settled_as_intro; [exact Hw1|exact Hh| |exact Ho]. unfold wanted, zroles. rewrite Hgrant. set_solver.
    + destruct (update_lands _ _ p _ live _ _ E) as [Hh Ho]; [by rewrite Hw1|].
      eapply settled_as_intro; [exact Hw1|exact Hh| |exact Ho]. simpl. by rewrite merged_set, Hlv.
  - destruct (gid =? "").
    { intros [= <-]. split; [|intros; unfold zroles; by rewrite Hw1].
      unfold wanted, zroles. rewrite Hw1, Hgrant. set_solver. }
    intros E. apply classified_ok in E;
      [|intros ? ?; destruct (_ =? _); [apply remove_text|apply update_text]].
    pose proof (remaining_set live ks) as Hrem. destruct (_ =? 0) eqn:Hlen.
    + destruct (remove_lands _ _ p _ live _ E) as [Hh Ho]; [by rewrite Hw1|].
      eapply settled_as_intro; [exact Hw1|exact Hh| |exact Ho]. simpl. rewrite <-Hlv, <-Hrem.
      apply bool_decide_eq_true, length_zero_iff_nil in Hlen. by rewrite Hlen.
    + destruct (update_lands _ _ p _ live _ _ E) as [Hh Ho]; [by rewrite Hw1|].
      eapply settled_as_intro; [exact Hw1|exact Hh| |exact Ho]. simpl. by rewrite Hrem, Hlv.
  - destruct (gid =? ""); [destruct (_ =? 0) eqn:Hlen|].
    + intros [= <-]. apply bool_decide_eq_true, length_zero_iff_nil in Hlen.
      split; [|intros; unfold zroles; by rewrite Hw1]. unfold wanted, zroles. rewrite Hw1, Hgrant. by rewrite Hlen.
    + intros E. apply classified_ok in E; [|intros ? ?; apply add_text].
      destruct (add_lands _ _ _ _ _ E) as [(g' & _ & Hh) Ho]; [by rewrite Hw1|].
      by eapply settled_as_intro; [exact Hw1|exact Hh| |exact Ho].
    + intros E. apply classified_ok in E; [|intros ? ?; apply update_text].
      destruct (update_lands _ _ p _ live _ _ E) as [Hh Ho]; [by rewrite Hw1|].
      by eapply settled_as_intro; [exact Hw1|exact Hh| |exact Ho].
Qed.

(** ada holds viewer and editor on the lab; the row revokes viewer. *)
Definition ada_both : Store := put empty_store "ada" "lab" (Some (list_to_set ["viewer"; "editor"])).
Definition revoke_row : Row := demo_row "2" "ada" op_revoke 2 (start demo_queue (fresh_progress None)).
Lemma classifyDispatch_effect_witness :
  let E := store_env false in
  zroles (classifyDispatch (ada_both : @World (@env_zitadel E)) revoke_row).1 "ada" "lab" = {["editor"]}.
Proof.
  intros E. destruct (classifyDispatch (ada_both : @World (@env_zitadel E)) revoke_row) as [w' [c m]] eqn:H.
  assert ((c, m) = (ackApplied, "")) as [= -> ->].
  { change (c, m) with (w', (c, m)).2. rewrite <-H. by vm_compute. }
  etrans; [exact (proj1 (classifyDispatch_effect _ _ _ H))|]. apply (bool_decide_unpack _). by vm_compute.
Defined.

Lemma applyRow_not_in_flight_free `{!DrainEnv} s res row s' res' :
  NoDup (id <$> outbox (db s)) → row ∈ outbox (db s) → row_status row = in_flight →
  confirmed_at (progress row) = None → apply_outcome s res row = (s', res') →
  (res' = count res 0 0 0 0 1 0 ∅ ∧ outbox (db s') = outbox (db s)) ∨
  ∃ p, only_moved (db s) (db s') row p ∧ status p = applied ∧ res' = count res 1 0 0 0 0 0 ∅.
Proof.
  intros Hnd Hr Hs Hc. unfold apply_outcome. destruct (applyRow s row) as [s1 o] eqn:E.
  pose proof (applyRow_outcome _ _ _ _ Hnd Hr Hs Hc E) as Ho. destruct o as [e|]; intros [= <- <-].
  - destruct Ho as [-> Ho]. by left.
  - destruct Ho as (p & Hm & Hp & _). right. eauto.
Qed.

(** A row that is still in flight when its outcome is settled. *)
Lemma processRow_in_flight `{!DrainEnv} s res row s' res' halt :
  NoDup (id <$> outbox (db s)) → row ∈ outbox (db s) → row_status row = in_flight →
  confirmed_at (progress row) = None →
  processRow s res row = (s', res', halt) →
  halt = false ∧
  ((res' = count res 0 0 0 0 1 0 ∅ ∧ outbox (db s') = outbox (db s)) ∨
   ∃ p, only_moved (db s) (db s') row p ∧
     (status p = applied ∧ res' = count res 1 0 0 0 0 0 ∅ ∨
      status p = failed ∧ (∃ cause, res' = count res 0 1 0 0 0 0 {[id row := cause]}) ∨
      status p = failed ∧ maxRetries ≤ attempts (progress row) ∧ res' = count res 0 1 0 0 0 1 ∅ ∨
      status p = pending ∧ attempts p = S (attempts (progress row)) ∧ attempts p ≤ maxRetries ∧
        is_Some (not_before p) ∧ res' = count res 0 0 1 0 0 0 ∅)).
Proof.
  intros Hnd Hr Hs Hc. unfold processRow.
  destruct (alreadyExists (world s) row) as [w1 []].
  { destruct (apply_outcome _ _ _) as [s1 r1] eqn:E. intros [= <- <- <-]. split; [done|].
    apply (applyRow_not_in_flight_free (set_world s w1)) in E as [?|(p & ? & ? & ?)]; [by left|right|done..]. eauto 10. }
  simpl. destruct (classifyDispatch w1 row) as [w2 [class msg]]. set (s2 := set_world (set_world s w1) w2). simpl.
  pose proof (λ f, settle_only_moved (db s) (db s) (id row) f row Hnd eq_refl Hr eq_refl Hs) as Hset.
  destruct class.
  - destruct (apply_outcome s2 res row) as [s1 r1] eqn:E. intros [= <- <- <-]. split; [done|].
    apply (applyRow_not_in_flight_free s2) in E as [?|(p & ? & ? & ?)]; [by left|right|done..]. eauto 10.
  - unfold settle, MarkPropagationRefused. destruct (db_fails call_refused row); [intros [= <- <- <-]; split; [done|by left]|].
    edestruct Hset as (d' & E & Hm & _). change (db s2) with (db s). rewrite E. simpl. intros [= <- <- <-].
    split; [done|]. right. eexists. split; [exact Hm|]. right; left. split; [done|eauto].
  - destruct (Nat.leb_spec maxRetries (attempts (progress row))).
    + unfold settle, MarkPropagationFailed. destruct (db_fails call_failed row); [intros [= <- <- <-]; split; [done|by left]|].
      edestruct Hset as (d' & E & Hm & _). change (db s2) with (db s). rewrite E. simpl. intros [= <- <- <-].
      split; [done|]. right. eexists. split; [exact Hm|]. right; right; left. done.
    + destruct (db_fails call_requeue row); [intros [= <- <- <-]; split; [done|by left]|].
      unfold RequeuePropagation. edestruct Hset as (d' & E & Hm & _). change (db s2) with (db s). rewrite E. simpl.
      intros [= <- <- <-]. split; [done|]. right. eexists. split; [exact Hm|]. right; right; right.
      simpl. split_and!; [done|lia|lia|eauto|done].
Qed.

(** Settling a row that something else settled meanwhile changes nothing. *)
Definition settled_meanwhile (d : Db) (row : Row) : Prop :=
  ∀ r, r ∈ outbox d → id r = id row → row_status r ≠ in_flight.
Lemma settleOne_meanwhile d row f : settled_meanwhile d row → settleOne d (id row) f = inl ErrPropagationNotInFlight.
Proof.
  intros Hd. unfold settleOne. rewrite bool_decide_true; [done|]. apply filter_none. intros r Hr.
  unfold in_flight_row. rewrite andb_true_iff, !bool_decide_eq_true. intros [Hi Hs]. by apply (Hd r).
Qed.
Lemma in_flight_or_not d row :
  (∃ r, r ∈ outbox d ∧ id r = id row ∧ row_status r = in_flight) ∨ settled_meanwhile d row.
Proof.
  destruct (decide (Exists (λ r, id r = id row ∧ row_status r = in_flight) (outbox d))) as [He|He].
  - left. apply Exists_exists in He as (r & ? & ? & ?). eauto.
  - right. intros r Hr Hi Hs. apply He, Exists_exists. eauto.
Qed.
Lemma applyRow_meanwhile `{!DrainEnv} s row s' o :
  settled_meanwhile (db s) row → applyRow s row = (s', o) →
  outbox (db s') = outbox (db s) ∧ (o = Some lost ∨ o = Some not_in_flight).
Proof.
  intros Hm E. assert (Ho : o = Some lost ∨ o = Some not_in_flight).
  { revert E. unfold applyRow. fold (reconciled s row). destruct (_ && db_fails call_reconcile row); [intros [= _ <-]; auto|].
    destruct (rememberPropagation (db (reconciled s row)) row) as [[]|d] eqn:Er; [intros [= _ <-]; auto..|].
    apply remember_tables in Er as (Eo & _). destruct (reconciled_tables s row) as [Eo' _].
    unfold settle. destruct (db_fails call_applied row); [intros [= _ <-]; auto|]. unfold MarkPropagationApplied. cbn [db set_db].
    rewrite settleOne_meanwhile by (unfold settled_meanwhile; by rewrite Eo, Eo'). simpl. intros [= _ <-]. auto. }
  split; [|done]. destruct Ho as [-> | ->]; by eapply applyRow_failed.
Qed.
Lemma processRow_meanwhile `{!DrainEnv} s res row s' res' halt :
  settled_meanwhile (db s) row → processRow s res row = (s', res', halt) →
  halt = false ∧ outbox (db s') = outbox (db s) ∧ (res' = count res 0 0 0 0 1 0 ∅ ∨ res' = count res 0 0 0 1 0 0 ∅).
Proof.
  intros Hm. assert (Ha : ∀ s1 s' res', db s1 = db s → apply_outcome s1 res row = (s', res') →
    outbox (db s') = outbox (db s) ∧ (res' = count res 0 0 0 0 1 0 ∅ ∨ res' = count res 0 0 0 1 0 0 ∅)).
  { intros s1 s2 res2 E1. unfold apply_outcome. destruct (applyRow s1 row) as [s3 o] eqn:E.
    apply applyRow_meanwhile in E as [Ho [-> | ->]]; [| |by rewrite E1..]; intros [= <- <-]; rewrite Ho, E1; auto. }
  unfold processRow. destruct (alreadyExists (world s) row) as [w1 []].
  { destruct (apply_outcome _ _ _) as [s1 r1] eqn:E. intros [= <- <- <-]. split; [done|]. by eapply Ha, E. }
  simpl. destruct (classifyDispatch w1 row) as [w2 [class msg]]. destruct class.
  - destruct (apply_outcome _ _ _) as [s1 r1] eqn:E. intros [= <- <- <-]. split; [done|]. by eapply Ha, E.
  - unfold settle, MarkPropagationRefused. destruct (db_fails call_refused row); [intros [= <- <- <-]; auto|].
    cbn [db set_world]. rewrite settleOne_meanwhile by done. simpl. intros [= <- <- <-]. auto.
  - destruct (maxRetries <=? attempts (progress row))%nat.
    + unfold settle, MarkPropagationFailed. destruct (db_fails call_failed row); [intros [= <- <- <-]; auto|].
      cbn [db set_world]. rewrite settleOne_meanwhile by done. simpl. intros [= <- <- <-]. auto.
    + destruct (db_fails call_requeue row); [intros [= <- <- <-]; auto|]. unfold RequeuePropagation.
      cbn [db set_world]. rewrite settleOne_meanwhile by done. simpl. intros [= <- <- <-]. auto.
Qed.

(** C2. A claimed row has exactly one outcome and never stops the pass. While
    it is out, nothing changes it except what settles it for good, such as a
    deregistration of its target. If nothing did: it is applied, it is failed
    (refused by Zitadel, or out of retries, which is counted as failed and as
    exhausted), it goes back to pending with one more attempt, never more than
    the retry budget, and a date, or a statement was lost and it stays in flight
    for the next drain, counted as errored. If something did, the table is as it
    was and the row is counted as abandoned (or errored, if the statement that
    would have shown it was lost). No other row changes. *)
Theorem processRow_outcome `{!DrainEnv} s res row s' res' halt :
  NoDup (id <$> outbox (db s)) → confirmed_at (progress row) = None →
  (∀ r, r ∈ outbox (db s) → id r = id row → row_status r = in_flight → r = row) →
  processRow s res row = (s', res', halt) →
  halt = false ∧
  ((outbox (db s') = outbox (db s) ∧
      (res' = count res 0 0 0 0 1 0 ∅ ∨ res' = count res 0 0 0 1 0 0 ∅ ∧ settled_meanwhile (db s) row)) ∨
   row ∈ outbox (db s) ∧ row_status row = in_flight ∧
   ∃ p, only_moved (db s) (db s') row p ∧
     (status p = applied ∧ res' = count res 1 0 0 0 0 0 ∅ ∨
      status p = failed ∧ (∃ cause, res' = count res 0 1 0 0 0 0 {[id row := cause]}) ∨
      status p = failed ∧ maxRetries ≤ attempts (progress row) ∧ res' = count res 0 1 0 0 0 1 ∅ ∨
      status p = pending ∧ attempts p = S (attempts (progress row)) ∧ attempts p ≤ maxRetries ∧
        is_Some (not_before p) ∧ res' = count res 0 0 1 0 0 0 ∅)).
Proof.
  intros Hnd Hc Hsame E. destruct (in_flight_or_not (db s) row) as [(r & Hr & Hi & Hs)|Hm].
  - assert (r = row) as -> by auto. apply processRow_in_flight in E as [-> [[-> Ho]|Hp]]; [| |done..]; split; auto 10.
  - destruct (processRow_meanwhile _ _ _ _ _ _ Hm E) as (-> & Ho & [->| ->]); auto 10.
Qed.

Definition sending (row : Row) (w : Store) (lossy : bool) : @State (store_env lossy) :=
  let E := store_env lossy in {| db := demo_db [row]; world := (w : @World (@env_zitadel E)); refreshed := [] |}.
(** The row applied; and the row already settled when its answer came. *)
Lemma processRow_outcome_witness :
  let E := store_env false in
  (processRow (sending revoke_row ada_both false) zero revoke_row).2 = false ∧
  let gone := with_progress revoke_row (terminate 0 failed None (progress revoke_row)) in
  (processRow (sending gone ada_both false) zero revoke_row).1.2 = count zero 0 0 0 1 0 0 ∅ ∧
  outbox (db (processRow (sending gone ada_both false) zero revoke_row).1.1) = [gone].
Proof.
  intros E. split.
  - destruct (processRow (sending revoke_row ada_both false) zero revoke_row) as [[s' res'] h] eqn:H.
    refine (proj1 (@processRow_outcome (store_env false) (sending revoke_row ada_both false) zero revoke_row s' res' h (NoDup_singleton "2") eq_refl _ H)).
    intros r Hr. apply list_elem_of_singleton in Hr as ->. intros _ _. reflexivity.
  - intros gone. destruct (processRow (sending gone ada_both false) zero revoke_row) as [[s' res'] h] eqn:H.
    assert (Hres : res' = count zero 0 0 0 1 0 0 ∅) by (change res' with (s', res', h).1.2; rewrite <- H; vm_compute; reflexivity).
    destruct (@processRow_outcome (store_env false) (sending gone ada_both false) zero revoke_row s' res' h (NoDup_singleton "2") eq_refl
      ltac:(intros r Hr; apply list_elem_of_singleton in Hr as ->; intros _ Hs; vm_compute in Hs; discriminate Hs) H)
      as (_ & [[Ho _]|(Hin & _)]).
    + split; [exact Hres|exact Ho].
    + apply list_elem_of_singleton in Hin. apply (f_equal row_status) in Hin. vm_compute in Hin. discriminate Hin.
Defined.

(** What is remembered of a row that landed. *)
Definition remembered (d : Db) (row : Row) : Propagation :=
  {| p_applied_at := now d; p_outbox_id := NULLIF (id row); p_actor := initiated_by row |}.
Definition nameable (row : Row) (role : string) : Prop :=
  TrimSpace (target row) ≠ "" ∧ TrimSpace (user_id row) ≠ "" ∧ TrimSpace (field row role) ≠ "".
Definition remembered_all `{!DrainEnv} (d d' : Db) (row : Row) : Prop :=
  db_fails call_remember row = false → ∀ k, k ∈ RoleKeys row → nameable row k →
  memory d' !! (target row, user_id row, field row k) = Some (remembered d row).
(** An add or a replace remembers its roles, unless that statement fails, which
    is let pass; a revoke forgets its roles and a replace what it does not name. *)
Definition memory_follows `{!DrainEnv} (d d' : Db) (row : Row) : Prop :=
  match op_type row with
  | op_revoke => ∀ k, k ∈ RoleKeys row → memory d' !! (target row, user_id row, field row k) = None
  | op_add => remembered_all d d' row ∧ (db_fails call_remember row = true → memory d' = memory d)
  | op_replace => remembered_all d d' row ∧
      ∀ f, LIKE f (ProjectID row +:+ "/%") = true → f ∉ field row <$> RoleKeys row →
           memory d' !! (target row, user_id row, f) = None
  | op_apply => memory d' = memory d
  end.

Lemma savePropagation_stays `{!DrainEnv} row d d0 role key :
  now d = now d0 → memory d !! key = Some (remembered d0 row) →
  memory (savePropagation row d role) !! key = Some (remembered d0 row).
Proof.
  intros Hn Hk. unfold savePropagation, RecordPropagation. destruct (db_fails _ _); [done|]. do 3 (case_bool_decide; [done|]).
  simpl. destruct (decide (key = (target row, user_id row, field row role))) as [-> |].
  - rewrite lookup_insert_eq. unfold remembered. by rewrite Hn.
  - by rewrite lookup_insert_ne.
Qed.
Lemma savePropagations_stay `{!DrainEnv} row ks d d0 key :
  now d = now d0 → memory d !! key = Some (remembered d0 row) →
  memory (foldl (savePropagation row) d ks) !! key = Some (remembered d0 row).
Proof.
  revert d. induction ks as [|k ks IH]; intros d Hn Hk; [done|]. cbn [foldl]. apply IH; [|by apply savePropagation_stays].
  destruct (savePropagation_tables row d k) as (_ & _ & ->). done.
Qed.
Lemma savePropagations_saved `{!DrainEnv} row ks d k :
  db_fails call_remember row = false → k ∈ ks → nameable row k →
  memory (foldl (savePropagation row) d ks) !! (target row, user_id row, field row k) = Some (remembered d row).
Proof.
  intros Hf Hk (Ht & Hu & Hn). assert (Hd : ∀ d', now d' = now d → memory (foldl (savePropagation row) d' ks) !! (target row, user_id row, field row k) = Some (remembered d row)); [|by apply Hd].
  induction ks as [|x ks IH]; [by apply not_elem_of_nil in Hk|]. intros d' Hnow. cbn [foldl].
  destruct (savePropagation_tables row d' x) as (_ & _ & Hx).
  apply elem_of_cons in Hk as [<-|Hk]; [|apply IH; [done|congruence]]. apply savePropagations_stay; [congruence|].
  unfold savePropagation, RecordPropagation. rewrite Hf, !bool_decide_false by done. simpl. rewrite lookup_insert_eq.
  unfold remembered. by rewrite Hnow.
Qed.
Lemma savePropagations_lost `{!DrainEnv} row ks d :
  db_fails call_remember row = true → foldl (savePropagation row) d ks = d.
Proof.
  intros Hf. revert d. induction ks as [|k ks IH]; intros d; [done|]. cbn [foldl].
  replace (savePropagation row d k) with d by (unfold savePropagation; by rewrite Hf). apply IH.
Qed.
Lemma remember_memory `{!DrainEnv} d row d' : rememberPropagation d row = inr d' → memory_follows d d' row.
Proof.
  unfold rememberPropagation, memory_follows, remembered_all. destruct (op_type row).
  - intros [= <-]. split; [intros; by apply savePropagations_saved|intros; by rewrite savePropagations_lost].
  - destruct (db_fails call_forget row); [done|]. intros [= <-] k Hk. simpl. apply map_lookup_filter_None. right.
    intros x _ Hn. apply Hn. simpl. split_and!; [done..|]. by apply (list_elem_of_fmap_2 (field row)).
  - destruct (db_fails call_forget row); [done|]. unfold ForgetPropagatedFieldsExcept, settle_result.
    destruct (_ =? _); [done|]. intros [= <-]. split.
    + intros Hf k Hk Hn. simpl. apply map_lookup_filter_Some. split; [by apply savePropagations_saved|]. simpl.
      intros (_ & _ & _ & Hno). apply Hno. by apply list_elem_of_fmap_2.
    + intros f Hl Hno. simpl. apply map_lookup_filter_None. right. intros x _ Hn. by apply Hn.
  - by intros [= <-].
Qed.

(** C3. A row is marked applied last. If applying fails on the way (a statement
    is lost, or the row was settled meanwhile) no row changes, though what was
    written before the failure stays written. Once the row is applied: the ledger rows a
    revoke or replace takes away are gone; a revoke's roles, and those a replace
    does not name, are no longer remembered as landed, and what an add or replace
    asked for is remembered, unless that statement alone failed, which stops
    nothing; the person's cached claims were refreshed; and the row is confirmed
    exactly when the read-back saw the change and that statement was not lost. *)
Theorem applyRow_effects `{!DrainEnv} s row s' o :
  NoDup (id <$> outbox (db s)) → confirmed_at (progress row) = None →
  (∀ r, r ∈ outbox (db s) → id r = id row → row_status r = in_flight → r = row) →
  applyRow s row = (s', o) →
  match o with
  | Some e => outbox (db s') = outbox (db s) ∧ (e = not_in_flight → settled_meanwhile (db s) row)
  | None => row ∈ outbox (db s) ∧ row_status row = in_flight ∧
      ∃ p, only_moved (db s) (db s') row p ∧ status p = applied ∧
      (is_Some (confirmed_at p) ↔ (observedAfterWrite (world s) row).2 = true ∧ db_fails call_confirmed row = false) ∧
      ledger (db s') = (match op_type row with
                        | op_revoke | op_replace => ledger (ReconcileLedgerOnApplied (db s) (id row))
                        | _ => ledger (db s)
                        end) ∧
      memory_follows (db s) (db s') row ∧
      refreshed s' = refreshed s ++ [(user_id row, ProjectID row)]
  end.
Proof.
  intros Hnd Hc Hsame E. destruct (in_flight_or_not (db s) row) as [(r & Hr & Hi & Hs)|Hm].
  2: { apply applyRow_meanwhile in E as [Ho [-> | ->]]; done. }
  assert (r = row) as -> by auto. pose proof (applyRow_outcome _ _ _ _ Hnd Hr Hs Hc E) as Ho.
  destruct o as [e|]; [destruct Ho as [-> Ho]; done|]. destruct Ho as (p & Hm & Hp & Hcf & Hl & (d & Hd & Hmem) & Hrf).
  split_and!; [done..|]. exists p. split_and!; try done.
  - rewrite Hl. unfold reconciled. by destruct (op_type row).
  - assert (Hrec : memory (db (reconciled s row)) = memory (db s) ∧ now (db (reconciled s row)) = now (db s)).
    { split; [|apply reconciled_tables]. unfold reconciled, ReconcileLedgerOnApplied. case_bool_decide; [|done]. simpl. by case_match. }
    destruct Hrec as [Hrm Hrn]. apply remember_memory in Hd. unfold memory_follows, remembered_all, remembered in *.
    rewrite Hmem, <- Hrm, <- Hrn. exact Hd.
Qed.

Lemma applyRow_effects_witness :
  (user_id revoke_row, ProjectID revoke_row) ∈
  refreshed (@applyRow (store_env false) (sending revoke_row empty_store false) revoke_row).1.
Proof.
  assert (Hn : (@applyRow (store_env false) (sending revoke_row empty_store false) revoke_row).2 = None)
    by (vm_compute; reflexivity).
  destruct (@applyRow (store_env false) (sending revoke_row empty_store false) revoke_row) as [s' o] eqn:H.
  simpl in Hn. subst o.
  pose proof (@applyRow_effects (store_env false) (sending revoke_row empty_store false) revoke_row s' None
                (NoDup_singleton "2") eq_refl ltac:(intros r Hr; apply list_elem_of_singleton in Hr as ->; intros _ _; reflexivity) H) as Ho.
  destruct Ho as (_ & _ & p & _ & _ & _ & _ & _ & Hr). cbn [fst]. rewrite Hr. simpl. left.
Defined.

(** Rows accounted for by a result. *)
Definition accounted (r : DrainResult) : nat := Applied r + Failed r + Requeued r + Abandoned r + Errored r.
Lemma settle_failed_accounted res e : accounted (settle_failed res e) = S (accounted res).
Proof. destruct e; unfold accounted; simpl; lia. Qed.
Lemma processRow_accounted `{!DrainEnv} s res row s' res' halt :
  processRow s res row = (s', res', halt) → halt = false ∧ accounted res' = S (accounted res).
Proof.
  unfold processRow, apply_outcome. intros E. pose proof (settle_failed_accounted res) as Hf.
  repeat (case_match || simplify_eq/=); split; try done; try apply Hf; unfold accounted; simpl; lia.
Qed.
Lemma process_rows_accounted `{!DrainEnv} rows s res :
  accounted (process_rows s res rows).2 = accounted res + length rows.
Proof.
  revert s res; induction rows as [|row rows IH]; intros s res; simpl; [lia|].
  destruct (processRow s res row) as [[s1 r1] h] eqn:E. apply processRow_accounted in E as [-> Ha].
  rewrite IH, Ha. lia.
Qed.

(** A pass reports every row it claimed, once each: a Zitadel pass that
    could reach Zitadel accounts for exactly as many outcomes as it claimed
    rows, because no row, not even one out of retries, ends the pass early. *)
Theorem drainZitadelPass_accounts `{!DrainEnv} (locked : Row → bool) s :
  let up := (zitadelReachable (world s)).2 in
  let claimed := (ClaimPendingPropagations locked (db s) TargetZitadel claimBatch).2 in
  let res := (drainZitadelPass locked s).2 in
  if up then Halted res = false ∧ accounted res = length claimed
  else res = halted "zitadel_offline".
Proof.
  simpl. unfold drainZitadelPass. destruct (zitadelReachable (world s)) as [w []]; simpl; [|done].
  destruct (ClaimPendingPropagations locked (db s) TargetZitadel claimBatch) as [d rows]. simpl.
  rewrite process_rows_accounted. split; [|done].
  assert (Hh : ∀ rows s res, Halted res = false → Halted (process_rows s res rows).2 = false); [|by apply Hh].
  clear. induction rows as [|row rows IH]; intros s res Hr; simpl; [done|].
  destruct (processRow s res row) as [[s1 r1] h] eqn:E.
  assert (Halted r1 = Halted res) as Hr1.
  { revert E. clear. unfold processRow, apply_outcome, settle_failed. intros E.
    by repeat (case_match || simplify_eq/=). }
  destruct h; [simpl; congruence|]. apply IH. congruence.
Qed.

#[local] Existing Instance no_rules.
(** A pending row is not an unsent one. An add can land in Zitadel while
    its answer is lost; the drain then returns the row to pending to try again.
    If the role is taken away before that retry, the enqueue cancels the
    pending add as a delivery nobody heard of, finds no accepted delivery, and
    queues no revoke: the person keeps the role in Zitadel and nothing in the
    outbox will ever remove it. *)
Theorem lost_answer_leaves_access :
  let E := store_env true in
  ∃ (s1 : @State E) (d2 : Db),
    let add_row := demo_row "1" "ada" op_add 1 (start demo_queue (fresh_progress None)) in
    processRow (sending add_row empty_store true) zero add_row = (s1, count zero 0 0 1 0 0 0 ∅, false) ∧
    enqueueWrites (db s1) None [] [demo_params op_revoke] None = (None, inr (d2, [])) ∧
    (∀ r, r ∈ outbox d2 → unresolved r = false) ∧
    zroles (world s1) "ada" "lab" = {["viewer"]}.
Proof.
  intros E. set (add_row := demo_row "1" "ada" op_add 1 (start demo_queue (fresh_progress None))).
  set (s1 := (@processRow E (sending add_row empty_store true) zero add_row).1.1).
  exists s1, (result_db (enqueueWrites (db s1) None [] [demo_params op_revoke] None) (db s1)).
  split_and!.
  - assert (Hx : ∀ (x : @State E * DrainResult * bool) a b, x.1.2 = a → x.2 = b → x = (x.1.1, a, b)).
    { intros [[? ?] ?]; simpl. congruence. }
    apply Hx; vm_compute; reflexivity.
  - vm_compute. reflexivity.
  - intros r Hr. vm_compute in Hr. repeat (apply elem_of_cons in Hr as [->|Hr]; [done|]). by apply elem_of_nil in Hr.
  - apply (bool_decide_unpack _). by vm_compute.
Qed.
