(* ===== verification/Delivery.v ===== *)
(** * Delivery: what becomes of rows just written

    backend/internal/services/delivery.go and the reasons of db/role_waits.go:
    rows just written to the outbox either wait for the operator or go now, by
    the batch drain of Drain.v, and the outcome says which and why. Whether a read
    or a write of the decision answers is an argument ([Answers]). *)

From S2P Require Import Prelude Access Tables Extcall Outbox Lifecycle Drain.

(** ** Reasons (db/role_waits.go) *)
Definition WaitReasonRoleWaits : string := "role_waits".
Definition WaitReasonManual : string := "manual".
Definition IsRefused (reason : string) : bool := HasPrefix reason "refused:".
Definition ConfirmationModelRoles : string := "roles".

Record Delivery := {
  dl_Sent : list string;
  dl_Waiting : list string;
  dl_Reason : gmap string string;
  dl_Drain : DrainResult;
  dl_Retry : option RetryState;
  retrying : bool;
}.
Definition no_delivery : Delivery :=
  {| dl_Sent := []; dl_Waiting := []; dl_Reason := ∅; dl_Drain := zero; dl_Retry := None; retrying := false |}.
Definition reason_of (d : Delivery) (i : string) : string := default "" (dl_Reason d !! i).

Definition WaitReason_ (d : Delivery) : string :=
  match head (filter (λ r, IsRefused r = true) (reason_of d <$> dl_Sent d)), dl_Waiting d with
  | Some r, _ => r
  | None, i :: _ => reason_of d i
  | None, [] =>
      if retrying d then WaitReasonHalted HaltRetrying
      else if Halted (dl_Drain d) then WaitReasonHalted (Reason (dl_Drain d))
      else if 0 <? Requeued (dl_Drain d) + Errored (dl_Drain d) then WaitReasonHalted HaltRetrying
      else ""
  end.
Definition ReasonFor (d : Delivery) (i : string) : string :=
  if reason_of d i <>? "" then reason_of d i
  else if bool_decide (i ∉ dl_Sent d) then ""
  else if Halted (dl_Drain d) then WaitReasonHalted (Reason (dl_Drain d))
  else if 0 <? Requeued (dl_Drain d) + Errored (dl_Drain d) then WaitReasonHalted HaltRetrying
  else "".
Definition WaitingBesides (d : Delivery) (own : string) : nat := length (filter (λ i, i ≠ own) (dl_Waiting d)).

(** handlers/access.go: the reason of the act's own row, its next try, and how
    many rows of the rules wait. *)
Definition ownWait (d : Delivery) (own ownStatus : string) : string * option RetryState * nat :=
  if own =? "" then (WaitReason_ d, dl_Retry d, 0)
  else
    let reason := if (ownStatus =? "applied") && (reason_of d own =? "") then "" else ReasonFor d own in
    (reason, if reason =? WaitReasonHalted HaltRetrying then dl_Retry d else None, WaitingBesides d own).

(** What of one delivery's reads and writes answers: the roles that wait, the
    setting ([None]: unread), the recording of a reason, the drain lock ([None]:
    not to be had), a row's claim, the schedule, the queue. *)
Record Answers := {
  waits_read : bool;
  model_setting : option string;
  reason_written : string → bool;
  lock_free : option bool;
  claim_lost : string → bool;
  schedule_written : bool;
  queue_read : bool;
}.
Definition switchedOver (a : Answers) : bool := bool_decide (model_setting a = Some ConfirmationModelRoles).

Section delivery.
Context `{!DrainEnv}.

Definition wait (a : Answers) (s : State) (d : Delivery) (ids : list string) (reason : string) : State * Delivery :=
  match ids with
  | [] => (s, d)
  | _ =>
      (if reason_written a reason then set_db s (SetWaitReason (db s) ids reason) else s,
       {| dl_Sent := dl_Sent d;
          dl_Waiting := if (reason =? WaitReasonRoleWaits) || (reason =? WaitReasonManual) then dl_Waiting d ++ ids else dl_Waiting d;
          dl_Reason := foldl (λ m i, <[i := reason]> m) (dl_Reason d) ids;
          dl_Drain := dl_Drain d; dl_Retry := dl_Retry d; retrying := retrying d |})
  end.

Definition nextRetry (a : Answers) (s : State) (ids : list string) : option RetryState :=
  if negb (queue_read a) then None
  else head (omap RowRetry (filter (λ r, id r ∈ ids) (GetPendingPropagations (db s)))).

Definition svcDrainBatch (a : Answers) (s : State) (ids : list string) : State * DrainResult * bool :=
  match lock_free a with
  | None => (s, zero, true)
  | Some acquired => (DrainBatch acquired (claim_lost a) s ids, false)
  end.

Definition with_drain (d : Delivery) (dr : DrainResult) : Delivery :=
  {| dl_Sent := dl_Sent d; dl_Waiting := dl_Waiting d; dl_Reason := dl_Reason d; dl_Drain := dr; dl_Retry := dl_Retry d;
     retrying := retrying d |}.
Definition send (a : Answers) (s : State) (d : Delivery) : State * Delivery :=
  match dl_Sent d with
  | [] => (s, d)
  | _ =>
      let '(s, dr, err) := svcDrainBatch a s (dl_Sent d) in
      let d := with_drain d (if err then with_halt dr "drain_error" else dr) in
      let '(s, d) :=
        if negb (Halted (dl_Drain d)) then (s, d)
        else
          let '(s, scheduled, d) :=
            if schedule_written a then
              let '(db', ids) := ScheduleRetry draw (db s) (dl_Sent d) ("halted: " +:+ Reason (dl_Drain d)) in
              (set_db s db', ids, d)
            else let '(s, d) := wait a s d (dl_Sent d) (WaitReasonHalted (Reason (dl_Drain d))) in (s, [], d) in
          (s, {| dl_Sent := dl_Sent d; dl_Waiting := dl_Waiting d;
                 dl_Reason := foldl (λ m i, <[i := WaitReasonHalted HaltRetrying]> m) (dl_Reason d) scheduled;
                 dl_Drain := dl_Drain d; dl_Retry := dl_Retry d; retrying := negb (bool_decide (scheduled = [])) |}) in
      let refuse m i := match Refused (dl_Drain d) !! i with Some cause => <[i := WaitReasonRefused cause]> m | None => m end in
      (s, {| dl_Sent := dl_Sent d; dl_Waiting := dl_Waiting d; dl_Reason := foldl refuse (dl_Reason d) (dl_Sent d);
             dl_Drain := dl_Drain d;
             dl_Retry := if (0 <? Requeued (dl_Drain d)) || retrying d then nextRetry a s (dl_Sent d) else dl_Retry d;
             retrying := retrying d |})
  end.

(** Rows just written: [legacyWait] is what the caller's own mode said. *)
Definition Deliver (a : Answers) (s : State) (ids : list string) (legacyWait : bool) : State * Delivery :=
  match ids with
  | [] => (s, no_delivery)
  | _ =>
      if negb (waits_read a) then
        let reason := WaitReasonHalted "delivery_unread" in
        (if reason_written a reason then set_db s (SetWaitReason (db s) ids reason) else s,
         {| dl_Sent := []; dl_Waiting := ids; dl_Reason := foldl (λ m i, <[i := reason]> m) ∅ ids; dl_Drain := zero;
            dl_Retry := None; retrying := false |})
      else
        let waits := OutboxRowsWaitForRole (db s) ids in
        let legacy := legacyWait && negb (switchedOver a) in
        let held i := default false (waits !! i) in
        let roleWaits := filter (λ i, held i = true) ids in
        let rest := filter (λ i, held i = false) ids in
        let d := {| dl_Sent := if legacy then [] else rest; dl_Waiting := []; dl_Reason := ∅; dl_Drain := zero;
                    dl_Retry := None; retrying := false |} in
        let '(s, d) := wait a s d roleWaits WaitReasonRoleWaits in
        let '(s, d) := wait a s d (if legacy then rest else []) WaitReasonManual in
        send a s d
  end.

(** A planned change, whose writes were decided by the planner. *)
Record PlannedWrite := { w_Row : string; w_Waits : bool; w_Why : string }.
Definition DeliverChange (a : Answers) (s : State) (writes : list PlannedWrite) : State * Delivery :=
  let written := filter (λ w, w_Row w ≠ "") writes in
  let waiting := filter (λ w, w_Waits w = true) written in
  send a s
    {| dl_Sent := w_Row <$> filter (λ w, w_Waits w = false) written; dl_Waiting := w_Row <$> waiting;
       dl_Reason := foldl (λ m w, <[w_Row w := w_Why w]> m) ∅ waiting; dl_Drain := zero; dl_Retry := None;
       retrying := false |}.
End delivery.

(** ** Facts: a batch touches only its own rows *)
Definition only (ids : list string) (d d' : Db) : Prop :=
  id <$> outbox d' = id <$> outbox d ∧ ∀ x, x ∈ outbox d → id x ∉ ids → x ∈ outbox d'.
Lemma only_refl ids d : only ids d d.
Proof. by split. Qed.
Lemma only_same ids d d' : outbox d' = outbox d → only ids d d'.
Proof. intros E. split; by rewrite E. Qed.
Lemma only_trans ids d1 d2 d3 : only ids d1 d2 → only ids d2 d3 → only ids d1 d3.
Proof. intros [E1 H1] [E2 H2]. split; [congruence|auto]. Qed.
Lemma only_mono ids ids' d d' : ids ⊆ ids' → only ids d d' → only ids' d d'.
Proof. intros Hs [E Ho]. split; [done|]. intros x Hx Hn. apply Ho; [done|]. intros Hi. by apply Hn, Hs. Qed.
Lemma only_moved_only d d' r p : only_moved d d' r p → only [id r] d d'.
Proof. intros (E & _ & Ho). split; [done|]. intros x Hx Hn. apply Ho; [done|]. intros E'. apply Hn. rewrite E'. by left. Qed.
Lemma only_update ids d w s logs :
  (∀ r, w r = true → id r ∈ ids) → only ids d (with_outbox d (update w s (outbox d)) logs).
Proof.
  intros Hw. split; [simpl; apply update_ids|]. intros x Hx Hn. simpl. apply update_elem. exists x. split; [done|].
  destruct (w x) eqn:E; [by apply Hw in E|done].
Qed.
(** A row outside the batch is the row it was. *)
Lemma only_back ids d d' x : only ids d d' → NoDup (id <$> outbox d) → x ∈ outbox d' → id x ∉ ids → x ∈ outbox d.
Proof.
  intros [E Ho] Hnd Hx Hn. assert (Hi : id x ∈ id <$> outbox d) by (rewrite <- E; by apply list_elem_of_fmap_2).
  apply list_elem_of_fmap in Hi as (y & Hi & Hy). rewrite Hi in Hn. pose proof (Ho y Hy Hn) as Hy'.
  by rewrite (same_id (outbox d') x y) by (rewrite ?E; done).
Qed.

(** What the rows of a batch must be: known by their ids, and not confirmed
    before they are settled. *)
Definition ready (d : Db) (ids : list string) : Prop :=
  NoDup (id <$> outbox d) ∧ "" ∉ ids ∧
  ∀ r, r ∈ outbox d → id r ∈ ids → unresolved r = true → confirmed_at (progress r) = None.
Lemma ready_rest i ids d d' : NoDup (i :: ids) → ready d (i :: ids) → only [i] d d' → ready d' ids.
Proof.
  intros [Hi _]%NoDup_cons (Hnd & He & Hc) Ho. split_and!; [by rewrite (proj1 Ho)|by intros ?; apply He; right|].
  intros r Hr Hin Hu. apply Hc; [|by right|done]. eapply only_back; [exact Ho|done..|]. rewrite list_elem_of_singleton.
  intros E. by rewrite E in Hin.
Qed.
Lemma wf_ready `{!Uuids} d ids : wf d → "" ∉ ids → ready d ids.
Proof.
  intros Hwf He. split_and!; [apply Hwf|done|]. intros r Hr _ Hu. destruct (confirmed_at (progress r)) as [t|] eqn:E; [|done].
  apply unresolved_status in Hu. rewrite (wf_confirmed _ Hwf r Hr) in Hu by (by rewrite E). by destruct Hu.
Qed.

(** A claim by id takes its own row, as it was, into flight. *)
Lemma claim_only d tgt i : i ≠ "" → only [i] d (ClaimPropagationByID d tgt i).1.
Proof.
  intros Hi. unfold ClaimPropagationByID. cbn [claim_rows]. set (d1 := terminateSuperseded d tgt i).
  assert (H1 : only [i] d d1).
  { apply only_update. intros r. rewrite (bool_decide_false (i = "")) by done. cbn [orb].
    rewrite !andb_true_iff. intros [[_ Hr%bool_decide_eq_true] _]. rewrite Hr. by left. }
  eapply only_trans; [exact H1|]. apply only_update. intros r Hr%bool_decide_eq_true.
  apply list_elem_of_fmap in Hr as (x & -> & [[Hx _] _]%list_elem_of_filter). rewrite Hx. by left.
Qed.
Lemma claim_some d tgt i d' row :
  NoDup (id <$> outbox d) → ClaimPropagationByID d tgt i = (d', Some row) →
  row ∈ outbox d' ∧ id row = i ∧ row_status row = in_flight ∧
  ∃ r, r ∈ outbox d ∧ row = with_progress r (start d (progress r)) ∧ unresolved r = true.
Proof.
  intros Hnd. unfold ClaimPropagationByID. cbn [claim_rows]. set (d1 := terminateSuperseded d tgt i). intros [= <- Hh].
  apply head_Some_elem_of, list_elem_of_fmap in Hh as (r & -> & [Hin Hr]%affected_elem).
  pose proof Hin as Hin'. apply bool_decide_eq_true, list_elem_of_fmap in Hin as (x & Hx & [[Hxi Hc] Hx']%list_elem_of_filter).
  assert (Hnd1 : NoDup (id <$> outbox d1)) by (unfold d1; by rewrite terminateSuperseded_ids).
  rewrite (same_id (outbox d1) r x) in * by done. apply claimable_unresolved in Hc. split_and!; [|done|done|].
  - simpl. apply update_elem. exists x. by rewrite Hin'.
  - exists x. split_and!; [|done|done]. exact (terminateSuperseded_elem d tgt i x Hx' Hc).
Qed.
(** A row that could be claimed and was not had been overtaken. *)
Lemma claim_none d tgt i d' r :
  NoDup (id <$> outbox d) → ClaimPropagationByID d tgt i = (d', None) → r ∈ outbox d → id r = i → claimable d tgt r = true →
  ∃ p, with_progress r p ∈ outbox d' ∧ status p = superseded.
Proof.
  intros Hnd. unfold ClaimPropagationByID. cbn [claim_rows]. set (d1 := terminateSuperseded d tgt i). intros [= <- Hh] Hr <- Hc.
  set (p := terminate (now d) superseded (Some supersededReason) (progress r)).
  set (over := (target r =? tgt) && unresolved r && ((id r =? "") || (id r =? id r)) && supersededByLaterVersion (outbox d) r).
  assert (Hr1 : (if over then with_progress r p else r) ∈ outbox d1) by (apply update_elem; exists r; split; done).
  destruct over eqn:Eo.
  - exists p. split; [|done]. cbn [outbox with_outbox]. apply update_elem. exists (with_progress r p). split; [done|].
    rewrite bool_decide_false; [done|]. intros (x & Hx & [[_ Hcx] Hx']%list_elem_of_filter)%list_elem_of_fmap.
    assert (Hnd1 : NoDup (id <$> outbox d1)) by (unfold d1; by rewrite terminateSuperseded_ids).
    rewrite <- (same_id (outbox d1) (with_progress r p) x) in Hcx by done. by apply claimable_unresolved in Hcx.
  - exfalso. apply head_None, fmap_nil_inv in Hh. apply (not_elem_of_nil r). rewrite <- Hh. apply affected_elem.
    split; [|exact Hr1]. apply bool_decide_eq_true, list_elem_of_fmap_2, list_elem_of_filter. done.
Qed.

(** What became of a batch: the rows of other ids are as they were, and the
    result counts whatever did not go. *)
Definition clean (ids : list string) (r : DrainResult) : Prop :=
  Halted r = false ∧ Requeued r + Errored r = 0 ∧ ∀ i, i ∈ ids → Refused r !! i = None.
Definition went (d' : Db) (r : Row) : Prop :=
  ∃ p, with_progress r p ∈ outbox d' ∧ (status p = applied ∨ status p = superseded).

Section batch.
Context `{!DrainEnv}.

(** A drain leaves the registered targets alone. *)
Lemma savePropagation_targets row d role : targets (savePropagation row d role) = targets d.
Proof. unfold savePropagation, RecordPropagation. by repeat (destruct (_ : bool) || case_match; simplify_eq/=). Qed.
Lemma remember_targets d row d' : rememberPropagation d row = inr d' → targets d' = targets d.
Proof.
  assert (Hf : ∀ ks d, targets (foldl (savePropagation row) d ks) = targets d).
  { induction ks as [|k ks IH]; intros d0; simpl; [done|]. rewrite IH. apply savePropagation_targets. }
  unfold rememberPropagation, ForgetPropagatedFieldsExcept, settle_result.
  destruct (op_type row); repeat case_match; try done; intros [= <-]; simplify_eq/=; try apply Hf; done.
Qed.
Lemma settle_targets (call : DbCall) row d i set_ d' : settle call row (settleOne d i set_) = inr d' → targets d' = targets d.
Proof. unfold settle, settle_result, settleOne. repeat case_match; try done. all: intros [= <-]; by simplify_eq/=. Qed.
Lemma applyRow_targets s row : targets (db (applyRow s row).1) = targets (db s).
Proof.
  unfold applyRow. destruct (_ && _); [done|].
  assert (Hr : targets (db (reconciled s row)) = targets (db s)).
  { unfold reconciled, ReconcileLedgerOnApplied. destruct (bool_decide _); [|done]. simpl. by destruct (head _). }
  fold (reconciled s row). destruct (rememberPropagation _ row) as [e|d] eqn:Em; [done|]. apply remember_targets in Em.
  destruct (settle _ row _) as [e|d1] eqn:Es; [simpl; congruence|]. apply settle_targets in Es.
  destruct (observedAfterWrite _ _) as [w seen]. simpl in *. destruct (_ && _); simpl; congruence.
Qed.
Lemma processRow_targets s res row : targets (db (processRow s res row).1.1) = targets (db s).
Proof.
  assert (Ha : ∀ s0, targets (db (apply_outcome s0 res row).1) = targets (db s0)).
  { intros s0. unfold apply_outcome. pose proof (applyRow_targets s0 row). by destruct (applyRow s0 row) as [s1 [e|]]. }
  unfold processRow. destruct (alreadyExists _ _) as [w []].
  { specialize (Ha (set_world s w)). by destruct (apply_outcome _ _ _). }
  destruct (classifyDispatch _ _) as [w' [c msg]]. set (s2 := set_world (set_world s w) w'). change (db s) with (db s2).
  destruct c.
  - specialize (Ha s2). by destruct (apply_outcome s2 res row).
  - destruct (settle _ _ _) as [e|d] eqn:E; [done|]. by apply settle_targets in E.
  - destruct (_ <=? _); [destruct (settle _ _ _) as [e|d] eqn:E; [done|]; by apply settle_targets in E|].
    destruct (db_fails _ _); [done|]. unfold RequeuePropagation, settle_result, settleOne. by destruct (bool_decide _).
Qed.
Lemma claim_targets d tgt i : targets (ClaimPropagationByID d tgt i).1 = targets d.
Proof. done. Qed.

Lemma processRow_only all s res row s' res' halt :
  id row ∈ all → NoDup (id <$> outbox (db s)) → row ∈ outbox (db s) → row_status row = in_flight → confirmed_at (progress row) = None →
  processRow s res row = (s', res', halt) →
  halt = false ∧ only [id row] (db s) (db s') ∧ Halted res' = Halted res ∧
  (clean all res' → clean all res ∧ (attempts (progress row) < maxRetries →
     ∃ p, with_progress row p ∈ outbox (db s') ∧ status p = applied)).
Proof.
  intros Hall Hnd Hr Hs Hc E. apply processRow_in_flight in E as [-> [[-> Ho]|(p & Hm & Hp)]]; [| |done..].
  - split_and!; [done|by apply only_same|done|]. intros (_ & Hq & _). simpl in Hq. lia.
  - split; [done|]. split; [by eapply only_moved_only|]. destruct Hm as (_ & Hm & _).
    destruct Hp as [[Hp ->]|[(_ & cause & ->)|[(_ & Hp & ->)|(_ & _ & _ & _ & ->)]]]; (split; [done|]); intros (Hh & Hq & Hf); simpl in *.
    + split; [split_and!; [done|lia|]|].
      * intros i Hi. specialize (Hf i Hi). by rewrite (left_id_L ∅ (∪)) in Hf.
      * intros _. by exists p.
    + specialize (Hf _ Hall). by rewrite (lookup_union_Some_l _ _ _ cause) in Hf by by apply lookup_singleton_Some.
    + split; [split_and!; [done|lia|]|lia]. intros i Hi. specialize (Hf i Hi). by rewrite (left_id_L ∅ (∪)) in Hf.
    + lia.
Qed.

Lemma went_stays ids d d' r : only ids d d' → id r ∉ ids → went d r → went d' r.
Proof. intros [_ Ho] Hn (p & Hp & Hs). exists p. split; [by apply Ho|done]. Qed.

(** A batch through its rows. *)
Lemma drain_ids_only lost_claim all ids s res s' res' :
  ids ⊆ all → NoDup ids → ready (db s) ids → drain_ids lost_claim s res ids = (s', res') →
  only ids (db s) (db s') ∧ (Halted res = true → Halted res' = true) ∧
  (clean all res' → clean all res ∧ ∀ r, r ∈ outbox (db s) → id r ∈ ids → claimable (db s) TargetZitadel r = true →
     attempts (progress r) < maxRetries → went (db s') r).
Proof.
  revert s res. induction ids as [|i ids IH]; intros s res Hsub Hnd Hok; cbn [drain_ids].
  { intros [= <- <-]. split_and!; [apply only_refl|done|]. intros Hc. split; [done|]. by intros r _ ?%not_elem_of_nil. }
  pose proof Hok as (Hids & He & Hcf). pose proof Hnd as [Hi Hnd']%NoDup_cons.
  assert (Hsub' : ids ⊆ all) by (intros x ?; apply Hsub; by right).
  destruct (lost_claim i).
  { intros E. apply IH in E as (Ho & Hh & Hc); [|done|done|]; [|destruct Hok as (? & ? & ?); split_and!; [done|set_solver|]; intros ????; by apply Hcf; [|right|]].
    split_and!; [eapply only_mono; [|exact Ho]; set_solver|intros _; by apply Hh|]. intros Hcl. by destruct (Hc Hcl) as [[? _] _]. }
  assert (Hne : i ≠ "") by (intros ->; apply He; left). pose proof (claim_only (db s) TargetZitadel i Hne) as Hcl.
  pose proof (claim_targets (db s) TargetZitadel i) as Ht.
  destruct (ClaimPropagationByID (db s) TargetZitadel i) as [d [row|]] eqn:Ec; cbn [fst] in Hcl, Ht.
  - apply claim_some in Ec as (Hin & Hid & Hst & r0 & Hr0 & Hrow & Hu); [|done].
    destruct (processRow (set_db s d) res row) as [[s1 res1] halt] eqn:Ep.
    pose proof (processRow_targets (set_db s d) res row) as Ht1. rewrite Ep in Ht1. cbn in Ht1.
    apply (processRow_only all) in Ep as (-> & Ho1 & Hh1 & Hc1); [|rewrite Hid; apply Hsub; left|cbn [db set_db]; by rewrite (proj1 Hcl)|done|done|].
    2: { assert (id r0 ∈ i :: ids) by (rewrite <- Hid, Hrow; left). rewrite Hrow. by apply (Hcf r0). }
    rewrite Hid in Ho1. assert (Ho2 : only [i] (db s) (db s1)) by (eapply only_trans; [exact Hcl|exact Ho1]).
    intros E. apply IH in E as (Ho & Hh & Hc); [|done|done|by eapply ready_rest].
    split_and!; [eapply only_trans; [eapply only_mono; [|exact Ho2]; set_solver|eapply only_mono; [|exact Ho]; set_solver]
                |intros ?; apply Hh; congruence|].
    intros Hcl'. destruct (Hc Hcl') as [Hcl1 Hrest]. destruct (Hc1 Hcl1) as [Hres Happ]. split; [done|].
    intros r Hr Hri Hcb Hat. destruct (decide (id r = i)) as [Hir|Hir].
    + assert (r = r0) as -> by (apply (same_id (outbox (db s))); [done..|by rewrite Hir, <- Hid, Hrow]).
      destruct Happ as (p & Hp & Hps); [by rewrite Hrow|]. rewrite Hrow in Hp. eapply went_stays; [exact Ho|by rewrite Hir|].
      exists p. split; [exact Hp|by left].
    + apply Hrest; [|set_solver| |done].
      * apply Ho2; [done|]. by rewrite list_elem_of_singleton.
      * unfold claimable, active in *. by rewrite Ht1, Ht.
  - intros E. apply IH in E as (Ho & Hh & Hc); [|done|done|by eapply ready_rest].
    split_and!; [eapply only_trans; [eapply only_mono; [|exact Hcl]; set_solver|eapply only_mono; [|exact Ho]; set_solver]
                |exact Hh|].
    intros Hcl'. destruct (Hc Hcl') as [Hres Hrest]. split; [exact Hres|]. intros r Hr Hri Hcb Hat.
    destruct (decide (id r = i)) as [Hir|Hir].
    + destruct (claim_none _ _ _ _ _ Hids Ec Hr Hir Hcb) as (p & Hp & Hps). eapply went_stays; [exact Ho|by rewrite Hir|].
      exists p. split; [exact Hp|by right].
    + apply Hrest; [|set_solver| |done].
      * apply Hcl; [done|]. by rewrite list_elem_of_singleton.
      * unfold claimable, active in *. simpl. by rewrite Ht.
Qed.
End batch.

(** ** Facts: a send and the waits around it *)
Definition kept_row (d' : Db) (r : Row) : Prop :=
  ∃ p, with_progress r p ∈ outbox d' ∧ set_wait None p = set_wait None (progress r).

Section delivery_facts.
Context `{!DrainEnv}.

(** Recording a reason moves no row and changes only why pending rows wait. *)
Lemma SetWaitReason_ids d ids why : id <$> outbox (SetWaitReason d ids why) = id <$> outbox d.
Proof. apply update_ids. Qed.
Lemma SetWaitReason_kept d ids why r : r ∈ outbox d → kept_row (SetWaitReason d ids why) r.
Proof.
  intros Hr. set (hit := bool_decide (id r ∈ ids) && (row_status r =? pending)).
  exists (if hit then set_wait (Some why) (progress r) else progress r). split; [|by destruct hit].
  apply update_elem. exists r. split; [done|]. fold hit. destruct hit; [done|]. by destruct r.
Qed.
Lemma kept_refl d r : r ∈ outbox d → kept_row d r.
Proof. intros Hr. exists (progress r). split; [|done]. by destruct r. Qed.
Lemma kept_only ids d d' r : only ids d d' → id r ∉ ids → kept_row d r → kept_row d' r.
Proof. intros [_ Ho] Hn (p & Hp & E). exists p. split; [by apply Ho|done]. Qed.
Lemma kept_trans d r d' : kept_row d r → (∀ x, x ∈ outbox d → kept_row d' x) → kept_row d' r.
Proof.
  intros (p & Hp & E) Hx. destruct (Hx _ Hp) as (p' & Hp' & E'). exists p'. split; [done|]. by rewrite E', <- E.
Qed.
Lemma only_set_wait ids d why : only ids d (SetWaitReason d ids why).
Proof. apply only_update. intros r [Hr _]%andb_prop. by apply bool_decide_eq_true in Hr. Qed.
Lemma ready_set_wait d ids ids' why : ready d ids → ready (SetWaitReason d ids' why) ids.
Proof.
  intros (Hnd & He & Hc). split_and!; [by rewrite SetWaitReason_ids|done|]. intros r Hr Hi Hu.
  unfold SetWaitReason in Hr. cbn [outbox with_outbox] in Hr. apply update_elem in Hr as (x & Hx & ->).
  destruct (_ && _); [|by apply Hc]. by apply (Hc x).
Qed.

Lemma schedule_only dr d ids why : only ids d (ScheduleRetry dr d ids why).1.
Proof.
  apply only_update. intros r. rewrite !andb_true_iff. intros [[[[Hr _] _] _] _]. by apply bool_decide_eq_true in Hr.
Qed.

Lemma batch_only a s ids s' dr err :
  NoDup ids → ready (db s) ids → svcDrainBatch a s ids = (s', dr, err) →
  only ids (db s) (db s') ∧
  (err = false → clean ids dr → ∀ r, r ∈ outbox (db s) → id r ∈ ids → claimable (db s) TargetZitadel r = true →
     attempts (progress r) < maxRetries → went (db s') r).
Proof.
  intros Hnd Hok. unfold svcDrainBatch, DrainBatch. destruct (lock_free a) as [acquired|]; [|by intros [= <- <- <-]].
  destruct ids as [|i ids]; [intros [= <- <- <-]; split; [apply only_refl|by intros _ _ r _ ?%not_elem_of_nil]|].
  destruct acquired; cbn [negb]; [|intros [= <- <- <-]; split; [apply only_refl|by intros _ [? _]]].
  destruct (zitadelReachable (world s)) as [w []]; cbn [negb]; [|intros [= <- <- <-]; split; [by apply only_same|by intros _ [? _]]].
  destruct (drain_ids _ _ _ _) as [s1 dr1] eqn:E. intros [= <- <- <-]. apply (drain_ids_only _ (i :: ids)) in E as (Ho & _ & Hc); [|done..].
  split; [exact Ho|]. intros _ Hcl. by destruct (Hc Hcl).
Qed.

Lemma reasons_other {A} (f : A → option (string * string)) (l : list A) (m : gmap string string) i :
  (∀ x k v, x ∈ l → f x = Some (k, v) → k ≠ i) →
  foldl (λ m x, match f x with Some (k, v) => <[k := v]> m | None => m end) m l !! i = m !! i.
Proof.
  revert m. induction l as [|x l IH]; intros m Hf; simpl; [done|].
  rewrite IH by (intros ? ? ? ?; apply Hf; by right). destruct (f x) as [[k v]|] eqn:E; [|done].
  apply lookup_insert_ne. eapply Hf; [left|exact E].
Qed.
Lemma reasons_all (l : list string) why (m : gmap string string) i :
  foldl (λ m i, <[i := why]> m) m l !! i = if bool_decide (i ∈ l) then Some why else m !! i.
Proof.
  revert m. induction l as [|j l IH]; intros m; cbn [foldl]; [by rewrite bool_decide_false by apply not_elem_of_nil|].
  rewrite IH. case_bool_decide as Hi; [by rewrite bool_decide_true by (by right)|].
  destruct (decide (j = i)) as [->|Hn]; [rewrite lookup_insert_eq, bool_decide_true; [done|left]|].
  rewrite lookup_insert_ne by done. rewrite bool_decide_false; [done|]. by intros [->|?]%elem_of_cons.
Qed.
Lemma refusals (refused : gmap string string) (l : list string) (m : gmap string string) i :
  foldl (λ m i, match refused !! i with Some cause => <[i := WaitReasonRefused cause]> m | None => m end) m l !! i =
  match refused !! i with Some cause => if bool_decide (i ∈ l) then Some (WaitReasonRefused cause) else m !! i | None => m !! i end.
Proof.
  revert m. induction l as [|j l IH]; intros m; cbn [foldl].
  { destruct (refused !! i); [|done]. by rewrite bool_decide_false by apply not_elem_of_nil. }
  rewrite IH. destruct (decide (j = i)) as [->|Hn].
  - destruct (refused !! i); [|done]. rewrite lookup_insert_eq, (bool_decide_true (i ∈ i :: l)) by left. by case_bool_decide.
  - assert (Hj : (match refused !! j with Some c => <[j := WaitReasonRefused c]> m | None => m end : gmap string string) !! i = m !! i)
      by (destruct (refused !! j); [by apply lookup_insert_ne|done]).
    rewrite Hj. destruct (refused !! i); [|done]. case_bool_decide as Hi; [by rewrite bool_decide_true by (by right)|].
    rewrite bool_decide_false; [done|]. by intros [->|?]%elem_of_cons.
Qed.

(** A send touches only the rows it sends, and says nothing only if they all went. *)
Lemma send_spec a s d s' d' :
  NoDup (dl_Sent d) → ready (db s) (dl_Sent d) → retrying d = false → send a s d = (s', d') →
  only (dl_Sent d) (db s) (db s') ∧ dl_Sent d' = dl_Sent d ∧ dl_Waiting d' = dl_Waiting d ∧
  (∀ i, i ∉ dl_Sent d → dl_Reason d' !! i = dl_Reason d !! i) ∧
  (retrying d' = false → clean (dl_Sent d) (dl_Drain d') → ∀ r, r ∈ outbox (db s) → id r ∈ dl_Sent d →
     claimable (db s) TargetZitadel r = true → attempts (progress r) < maxRetries → went (db s') r) ∧
  (∀ i cause, i ∈ dl_Sent d → Refused (dl_Drain d') !! i = Some cause → dl_Reason d' !! i = Some (WaitReasonRefused cause)).
Proof.
  intros Hnd Hok Hret. unfold send. destruct (dl_Sent d) as [|i0 ids0] eqn:Es.
  { intros [= <- <-]. rewrite Es. split_and!; try done; try apply only_refl; intros; exfalso; by eapply not_elem_of_nil. }
  rewrite <- Es in *. clear i0 ids0 Es. destruct (svcDrainBatch a s (dl_Sent d)) as [[s1 dr] err] eqn:Eb.
  apply batch_only in Eb as [Ho Hwent]; [|done..]. set (dr' := if err then with_halt dr "drain_error" else dr).
  assert (Hw : clean (dl_Sent d) dr' → ∀ r, r ∈ outbox (db s) → id r ∈ dl_Sent d → claimable (db s) TargetZitadel r = true →
     attempts (progress r) < maxRetries → went (db s1) r) by (unfold dr'; destruct err; [by intros [? _]|by apply Hwent]).
  cbn [with_drain dl_Drain dl_Sent dl_Waiting dl_Reason dl_Retry retrying]. destruct (Halted dr') eqn:Eh; cbn [negb].
  2: { intros [= <- <-]. cbn [dl_Drain dl_Sent dl_Waiting dl_Reason retrying]. split_and!; try done.
    - intros i Hi. rewrite refusals. rewrite bool_decide_false by done. by destruct (Refused dr' !! i).
    - intros i cause Hi Hr. rewrite refusals, Hr. by rewrite bool_decide_true. }
  destruct (schedule_written a).
  - pose proof (schedule_only draw (db s1) (dl_Sent d) ("halted: " +:+ Reason dr')) as Hs.
    assert (Hsch : ∀ i, i ∈ (ScheduleRetry draw (db s1) (dl_Sent d) ("halted: " +:+ Reason dr')).2 → i ∈ dl_Sent d).
    { intros i (r & -> & [Hr _]%affected_elem)%list_elem_of_fmap. rewrite !andb_true_iff in Hr.
      destruct Hr as [[[[Hr _] _] _] _]. by apply bool_decide_eq_true in Hr. }
    destruct (ScheduleRetry _ _ _ _) as [d2 sched]. cbn [fst snd] in Hs, Hsch. intros [= <- <-].
    cbn [dl_Drain dl_Sent dl_Waiting dl_Reason retrying]. split_and!; try done.
    + eapply only_trans; [exact Ho|exact Hs].
    + intros i Hi. rewrite refusals, reasons_all. rewrite !bool_decide_false by auto. by destruct (Refused dr' !! i).
    + intros _ [? _]. congruence.
    + intros i cause Hi Hr. rewrite refusals, Hr. by rewrite bool_decide_true.
  - destruct (wait a s1 _ _ _) as [s2 d2] eqn:Ewait.
    assert (Hwt : only (dl_Sent d) (db s1) (db s2) ∧ dl_Sent d2 = dl_Sent d ∧ dl_Waiting d2 = dl_Waiting d ∧ dl_Drain d2 = dr' ∧
      (∀ i, i ∉ dl_Sent d → dl_Reason d2 !! i = dl_Reason d !! i)).
    { unfold wait in Ewait. destruct (dl_Sent d) as [|i0 ids0] eqn:Es; [by injection Ewait as <- <-|]. injection Ewait as <- <-.
      cbn [with_drain dl_Drain dl_Sent dl_Waiting dl_Reason]. split_and!; try done.
      - destruct (reason_written _ _); [apply only_set_wait|apply only_refl].
      - intros i Hi. etrans; [exact (reasons_all (i0 :: ids0) (WaitReasonHalted (Reason dr')) (dl_Reason d) i)|by rewrite bool_decide_false]. }
    destruct Hwt as (Ho2 & E1 & E2 & E3 & E4). intros [= <- <-]. cbn [dl_Drain dl_Sent dl_Waiting dl_Reason retrying foldl].
    rewrite E1, E2, E3. split_and!; try done.
    + eapply only_trans; [exact Ho|exact Ho2].
    + intros i Hi. rewrite refusals. rewrite bool_decide_false by done. rewrite E4 by done. by destruct (Refused dr' !! i).
    + intros _ [? _]. congruence.
    + intros i cause Hi Hr. rewrite refusals, Hr. by rewrite bool_decide_true.
Qed.

Lemma wait_spec a s d ids reason s' d' :
  bool_decide (reason = WaitReasonRoleWaits) || bool_decide (reason = WaitReasonManual) = true →
  wait a s d ids reason = (s', d') →
  (s' = s ∧ d' = d ∧ ids = [] ∨ db s' = db s ∨ db s' = SetWaitReason (db s) ids reason) ∧ (ids = [] → s' = s ∧ d' = d) ∧
  dl_Sent d' = dl_Sent d ∧ dl_Waiting d' = dl_Waiting d ++ ids ∧ dl_Drain d' = dl_Drain d ∧ retrying d' = retrying d ∧
  (∀ i, dl_Reason d' !! i = if bool_decide (i ∈ ids) then Some reason else dl_Reason d !! i).
Proof.
  intros Hr. unfold wait. destruct ids as [|i0 ids0].
  { intros [= <- <-]. rewrite app_nil_r. split_and!; try done. by left. }
  intros [= <- <-]. cbn [dl_Sent dl_Waiting dl_Drain retrying dl_Reason]. rewrite Hr. split_and!; try done.
  - destruct (reason_written a reason); auto.
  - intros i. exact (reasons_all (i0 :: ids0) reason (dl_Reason d) i).
Qed.
Lemma waits_lookup d ids r : NoDup (id <$> outbox d) → r ∈ outbox d → id r ∈ ids →
  OutboxRowsWaitForRole d ids !! id r = Some (role_waits_now d r).
Proof.
  intros Hnd Hr Hi. unfold OutboxRowsWaitForRole. apply elem_of_list_to_map_1.
  - rewrite <- list_fmap_compose. cbn. eapply sublist_NoDup; [exact Hnd|]. apply fmap_sublist, sublist_filter.
  - apply list_elem_of_fmap. exists r. split; [done|]. by apply list_elem_of_filter.
Qed.

Lemma wait_kept a s d ids reason s' d' : wait a s d ids reason = (s', d') →
  (∀ i, ready (db s) i → ready (db s') i) ∧ ∀ x, x ∈ outbox (db s) → kept_row (db s') x.
Proof.
  unfold wait. destruct ids as [|i0 ids0]; [intros [= <- <-]; split; [done|apply kept_refl]|]. intros [= <- <-].
  destruct (reason_written a reason); [|split; [done|apply kept_refl]].
  split; [intros i; apply ready_set_wait|intros x; apply SetWaitReason_kept].
Qed.
Lemma ready_sub d ids ids' : ids' ⊆ ids → ready d ids → ready d ids'.
Proof. intros Hs (? & He & Hc). split_and!; [done|by intros ?%Hs|]. intros r Hr Hi. apply Hc; [done|by apply Hs]. Qed.
Lemma split_by (f : string → bool) (l : list string) : filter (λ i, f i = false) l ++ filter (λ i, f i = true) l ≡ₚ l.
Proof.
  induction l as [|x l IH]; [done|]. rewrite !filter_cons. destruct (f x) eqn:E.
  - rewrite decide_False by done. rewrite decide_True by done. by rewrite <- Permutation_middle, IH.
  - rewrite decide_True by done. rewrite decide_False by done. by rewrite <- app_comm_cons, IH.
Qed.
Lemma halted_said why : WaitReasonHalted why ≠ "".
Proof. done. Qed.

(** Silence in a delivery's outcome. *)
Lemma said_nothing d : WaitReason_ d = "" →
  (∀ i, i ∈ dl_Sent d → IsRefused (reason_of d i) = false) ∧
  match dl_Waiting d with
  | i :: _ => reason_of d i = ""
  | [] => retrying d = false ∧ Halted (dl_Drain d) = false ∧ Requeued (dl_Drain d) + Errored (dl_Drain d) = 0
  end.
Proof.
  unfold WaitReason_. destruct (head _) as [r|] eqn:Eh.
  { intros ->. by apply head_Some_elem_of, list_elem_of_filter in Eh as [? _]. }
  apply head_None in Eh. intros E. split.
  - intros i Hi. destruct (IsRefused (reason_of d i)) eqn:Er; [|done]. exfalso. apply (not_elem_of_nil (reason_of d i)).
    rewrite <- Eh. apply list_elem_of_filter. split; [done|]. by apply list_elem_of_fmap_2.
  - destruct (dl_Waiting d); [|done]. destruct (retrying d); [done|]. destruct (Halted (dl_Drain d)); [done|].
    destruct (Nat.ltb_spec 0 (Requeued (dl_Drain d) + Errored (dl_Drain d))); [done|]. split_and!; [done..|lia].
Qed.

(** What a delivery sends, once it has set aside what waits. *)
Lemma Deliver_sends a s ids legacy :
  ids ≠ [] → NoDup ids → ready (db s) ids → waits_read a = true →
  ∃ s2 d2, Deliver a s ids legacy = send a s2 d2 ∧ dl_Sent d2 ++ dl_Waiting d2 ≡ₚ ids ∧ retrying d2 = false ∧
    ready (db s2) (dl_Sent d2) ∧ (∀ x, x ∈ outbox (db s) → kept_row (db s2) x) ∧ (dl_Waiting d2 = [] → s2 = s) ∧
    (∀ i, i ∈ dl_Waiting d2 → reason_of d2 i ≠ "") ∧
    (∀ r, r ∈ outbox (db s) → id r ∈ ids → role_waits_now (db s) r = true →
       id r ∈ dl_Waiting d2 ∧ reason_of d2 (id r) = WaitReasonRoleWaits).
Proof.
  intros Hne Hnd Hok Ew. unfold Deliver. destruct ids as [|i0 ids0] eqn:Eids; [done|]. rewrite <- Eids in *. clear i0 ids0 Eids Hne.
  rewrite Ew. cbn [negb]. cbv zeta. set (held := λ i, default false (OutboxRowsWaitForRole (db s) ids !! i)).
  match goal with |- context [Build_Delivery (if ?b then [] else ?l) _ _ _ _ _] => set (lg := b); set (rest := l) end.
  match goal with |- context [wait a s ?d0 ?l WaitReasonRoleWaits] =>
    set (roles := l); destruct (wait a s d0 roles WaitReasonRoleWaits) as [s1 d1] eqn:E1 end.
  assert (Hsplit : rest ++ roles ≡ₚ ids) by exact (split_by held ids).
  destruct (wait a s1 d1 _ _) as [s2 d2] eqn:E2.
  pose proof (wait_kept _ _ _ _ _ _ _ E1) as [Hr1 Hk1]. pose proof (wait_kept _ _ _ _ _ _ _ E2) as [Hr2 Hk2].
  apply wait_spec in E1 as (_ & Hn1 & S1 & W1 & _ & R1 & L1); [|done]. apply wait_spec in E2 as (_ & Hn2 & S2 & W2 & _ & R2 & L2); [|done].
  cbn [dl_Sent dl_Waiting retrying] in S1, W1, R1. rewrite S1 in S2. rewrite W1 in W2. rewrite R1 in R2. cbn [app] in W2.
  exists s2, d2. split; [done|]. rewrite S2, W2, R2. unfold reason_of. split_and!; try done.
  - destruct lg; [|by rewrite app_nil_r]. cbn [app]. by rewrite Permutation_app_comm.
  - eapply ready_sub, Hr2, Hr1, Hok. intros i Hi. rewrite <- Hsplit. apply elem_of_app. left. by destruct lg; [apply not_elem_of_nil in Hi|].
  - intros x Hx. by eapply kept_trans; [apply Hk1|exact Hk2].
  - intros [Hro Hre]%app_eq_nil. destruct (Hn1 Hro) as [-> ->]. by destruct (Hn2 Hre) as [-> _].
  - intros i [Hi|Hi]%elem_of_app; rewrite L2, L1; case_bool_decide; try done. by rewrite bool_decide_true.
  - intros r Hr Hi Hw. assert (Hheld : id r ∈ roles).
    { apply list_elem_of_filter. split; [|done]. unfold held. rewrite (waits_lookup _ _ r); [done|apply Hok|done|done]. }
    split; [apply elem_of_app; by left|]. rewrite L2, L1, (bool_decide_true (id r ∈ roles)) by done. rewrite bool_decide_false; [done|].
    destruct lg; [|apply not_elem_of_nil]. intros [Hf _]%list_elem_of_filter. apply list_elem_of_filter in Hheld as [Ht _]. congruence.
Qed.
End delivery_facts.

(** ** Properties *)

(** C33. What waits is kept, and silence means sent. However the reads, the writes
    and Zitadel answer, for distinct rows that are there to be delivered: a delivery
    splits the rows it is given into those sent and those that wait; a row that is
    not sent is as it was, but for why it waits; a row of a role that waits is among
    those that wait, with that as its reason, or, when which roles wait could not be
    read, with the reason halted:delivery_unread; in that case nothing at all is
    sent, Zitadel is not asked, and every row waits for that reason; and if the
    outcome names no reason, every row that had a try left is applied (or a later
    version had overtaken it). *)
Theorem Deliver_keeps_what_waits `{!DrainEnv} a s ids legacy s' d :
  NoDup ids → ready (db s) ids → Deliver a s ids legacy = (s', d) →
  dl_Sent d ++ dl_Waiting d ≡ₚ ids ∧
  (∀ r, r ∈ outbox (db s) → id r ∉ dl_Sent d → kept_row (db s') r) ∧
  (∀ r, r ∈ outbox (db s) → id r ∈ ids → role_waits_now (db s) r = true →
     id r ∈ dl_Waiting d ∧ id r ∉ dl_Sent d ∧
     reason_of d (id r) = if waits_read a then WaitReasonRoleWaits else WaitReasonHalted "delivery_unread") ∧
  (waits_read a = false → dl_Sent d = [] ∧ world s' = world s ∧
     ∀ i, i ∈ ids → i ∈ dl_Waiting d ∧ reason_of d i = WaitReasonHalted "delivery_unread") ∧
  (WaitReason_ d = "" → ∀ r, r ∈ outbox (db s) → id r ∈ ids → claimable (db s) TargetZitadel r = true →
     attempts (progress r) < maxRetries → went (db s') r).
Proof.
  intros Hnd Hok. unfold Deliver. destruct ids as [|i0 ids0] eqn:Eids.
  { intros [= <- <-]. split_and!; try done; [by intros; apply kept_refl|by intros r _ ?%not_elem_of_nil|by intros _; split_and!; [done..|intros i ?%not_elem_of_nil]|by intros _ r _ ?%not_elem_of_nil]. }
  rewrite <- Eids in *. destruct (waits_read a) eqn:Ew; cbn [negb].
  2: { assert (∀ i, i ∈ ids → default "" (foldl (λ (m : gmap string string) i, <[i := WaitReasonHalted "delivery_unread"]> m) ∅ ids !! i) = WaitReasonHalted "delivery_unread") as Hall.
    { intros i Hi. rewrite reasons_all. by rewrite bool_decide_true. }
    intros [= <- <-]. cbn [dl_Sent dl_Waiting]. split_and!; [done|..].
    - intros r Hr _. destruct (reason_written _ _); [by apply SetWaitReason_kept|by apply kept_refl].
    - intros r Hr Hi _. split_and!; [done|apply not_elem_of_nil|by apply Hall].
    - intros _. split_and!; [done|by destruct (reason_written _ _)|]. intros i Hi. split; [done|by apply Hall].
    - intros [_ E]%said_nothing. cbn [dl_Waiting] in E. rewrite Eids in E. revert E. unfold reason_of. cbn [dl_Reason].
      rewrite <-Eids. rewrite (Hall i0); [done|]. rewrite Eids. by left. }
  intros Es. assert (Hne : ids ≠ []) by (by rewrite Eids).
  destruct (Deliver_sends a s ids legacy Hne Hnd Hok Ew) as (s2 & d2 & Ed & Hp & Hret & Hr2 & Hk & Hsame & Hsaid & Hwait).
  unfold Deliver in Ed. rewrite Eids, Ew in Ed. cbn [negb] in Ed. rewrite <- Eids in Ed. rewrite Ed in Es. clear Ed i0 ids0 Eids.
  assert (Hnd2 : NoDup (dl_Sent d2 ++ dl_Waiting d2)) by (by rewrite Hp). apply NoDup_app in Hnd2 as (Hns & Hdisj & _).
  apply send_spec in Es as (Ho & Hs' & Hw' & Hother & Hwent & Href); [|done..]. rewrite Hs', Hw'.
  assert (Hreason : ∀ i, i ∈ dl_Waiting d2 → i ∉ dl_Sent d2 ∧ reason_of d i = reason_of d2 i).
  { intros i Hi. assert (i ∉ dl_Sent d2) by (intros Hi'; by eapply Hdisj). split; [done|]. unfold reason_of. by rewrite Hother. }
  split_and!; [done|by intros r Hr Hn; eapply kept_only; [exact Ho|done|apply Hk]| |done|].
  - intros r Hr Hi Hw. destruct (Hwait r Hr Hi Hw) as [Hin Hsay]. destruct (Hreason _ Hin) as [? ->]. done.
  - intros [Hrf Hq]%said_nothing. rewrite Hs' in Hrf. rewrite Hw' in Hq. destruct (dl_Waiting d2) as [|i l] eqn:Ewd.
    2: { destruct (Hreason i) as [_ E]; [left|]. rewrite E in Hq. exfalso. eapply Hsaid; [left|exact Hq]. }
    rewrite (Hsame eq_refl) in Hwent. destruct Hq as (Hrt & Hh & Hc). intros r Hr Hi Hcb Hat. apply Hwent; [done| |done| |done|done].
    + split_and!; [done..|]. intros i Hi'. destruct (Refused (dl_Drain d) !! i) as [cause|] eqn:Er; [|done].
      specialize (Hrf i Hi'). unfold reason_of in Hrf. rewrite (Href i cause Hi' Er) in Hrf.
      change (IsRefused (WaitReasonRefused cause) = false) in Hrf.
      assert (Ht : IsRefused (WaitReasonRefused cause) = true) by (apply HasPrefix_iff; by exists cause). congruence.
    + rewrite <- Hp, app_nil_r in Hi. done.
Qed.

(** ** Witnesses *)
Definition all_answer : Answers :=
  {| waits_read := true; model_setting := Some ConfirmationModelRoles; reason_written := λ _, true; lock_free := Some true;
     claim_lost := λ _, false; schedule_written := true; queue_read := true |}.
(** ada's role goes now; bob's, on the door, always waits for the operator. *)
Definition door_row : Row :=
  {| id := "2"; target := "zitadel"; op_type := op_add; user_id := "bob"; project_id := Some "door";
     role_keys := Some ["viewer"]; source := "rule"; source_ref := None; cascade_id := None; zitadel_grant_id := None;
     payload_json := "{}"; idempotency_key := "2"; initiated_by := "op"; reason := None; withdraws_only := false;
     intent_seq := 2; created_at := 2; plan_subject_id := None; snapshot := None; progress := fresh_progress None |}.
Definition demo_written : Db :=
  with_registry (demo_db [demo_row "1" "ada" op_add 1 (fresh_progress None); door_row]) {["zitadel" := true]} [("door", "viewer")].
Definition delivering (d : Db) (lossy : bool) : @State (store_env lossy) :=
  let E := store_env lossy in {| db := d; world := (empty_store : @World (@env_zitadel E)); refreshed := [] |}.

Lemma Deliver_keeps_what_waits_witness :
  let E := store_env false in
  ∃ s' d, Deliver all_answer (delivering demo_written false) ["1"; "2"] false = (s', d) ∧
    dl_Sent d = ["1"] ∧ reason_of d "2" = WaitReasonRoleWaits ∧ kept_row (db s') door_row.
Proof.
  intros E. destruct (Deliver all_answer (delivering demo_written false) ["1"; "2"] false) as [s' d] eqn:Ed.
  exists s', d. split; [reflexivity|]. assert (Hsent : dl_Sent d = ["1"]) by (change d with (s', d).2; rewrite <- Ed; vm_compute; reflexivity).
  assert (Hrow : door_row ∈ outbox demo_written) by (right; left).
  destruct (Deliver_keeps_what_waits all_answer (delivering demo_written false) ["1"; "2"] false s' d) as (_ & Hk & Hw & _); [| |exact Ed|].
  - apply (bool_decide_unpack _). vm_compute. reflexivity.
  - split_and!; [apply (bool_decide_unpack _); vm_compute; reflexivity|apply (bool_decide_unpack _); vm_compute; reflexivity|].
    intros r Hr _ _. apply elem_of_cons in Hr as [->|Hr]; [reflexivity|]. apply list_elem_of_singleton in Hr as ->. reflexivity.
  - split_and!; [exact Hsent|apply (Hw door_row Hrow); [right; left|vm_compute; reflexivity]|].
    apply (Hk door_row Hrow). rewrite Hsent. apply (bool_decide_unpack _). vm_compute. reflexivity.
Defined.

(** A row with no try left fails without a word: Zitadel answers nothing, the row
    is failed for good, and the outcome, which is said to be empty only when
    everything went, is empty. *)
Example exhausted_row_reads_as_sent :
  let E := store_env true in
  let last := demo_row "1" "ada" op_add 1
    {| status := pending; attempts := 5; last_error := None; started_at := None; completed_at := None; confirmed_at := None;
       not_before := None; wait_reason := None |} in
  let '(s', d) := Deliver all_answer (delivering (demo_db [last]) true) ["1"] false in
  WaitReason_ d = "" ∧ ReasonFor d "1" = "" ∧ GetPropagationStatus (db s') "1" = Some failed.
Proof. vm_compute. by split_and!. Qed.
