(* ===== verification/Addon.v ===== *)
(** * Addon: sending queued entitlement work to an add-on target

    backend/internal/services/propagation/addon.go and the add-on leg of
    revocations.go. The add-on is reached through Transport.v, whose link is a
    part of the world a drain changes; the tables are those of Plans.v and
    Bindings.v, and a statement that [db_fails] loses changes nothing. A stored
    snapshot is the structure it encodes, so an approved desired state can
    always be read; the directory that knows an email address is a parameter. *)

From S2P Require Import Prelude Access Tables Extcall Outbox Lifecycle Plans Planapply Enqueue Bindings Transport Drain.

Class AddonEnv `{!DrainEnv} := {
  Net : Type;
  env_wire :: Wire Net;
  env_decoders : Decoders;
  link : World → Link Net;
  set_link : World → Link Net → World;
  link_set w l : link (set_link w l) = l;
  subjectEmail : World → string → string;
}.

(** ** Texts *)
Definition quoted (s : string) : string := String (ascii_of_N 34) (s +:+ String (ascii_of_N 34) "").
Definition op_text (op : OpType) : string :=
  match op with op_add => "add" | op_revoke => "revoke" | op_replace => "replace" | op_apply => "apply" end.
Definition refusalReason (resp : ApplyResponse) : string :=
  if ab_Code (ap_Body resp) =? CodePlanStale
  then "PLAN_STALE: the subject moved on the target since the plan was approved; re-plan and re-approve"
  else if ab_Detail (ap_Body resp) <>? "" then "the target refused it: " +:+ ab_Detail (ap_Body resp)
  else "the target refused it (status " +:+ pretty (ap_Status resp) +:+ ")".
Definition binding_conflict_text (username tgt : string) : string :=
  "db: that account on that target is already bound to another subject: " +:+ username +:+ " on " +:+ tgt.
Definition bindingConflictReason (intent : EntitlementIntent) (resp : ApplyResponse) : string :=
  let name := ab_Username (ap_Body resp) in
  "the change was applied on " +:+ ei_Target intent +:+ " and could not be attributed: " +:+ name
  +:+ " already belongs to another subject here. " +:+ ei_SubjectID intent
  +:+ " now has entitlements written to an account Syndra records against somebody else. Do not retry — decide who the account belongs to first ("
  +:+ binding_conflict_text name (ei_Target intent) +:+ ")".
Definition reported_uid (resp : ApplyResponse) : option Z :=
  let uid := ab_UID (ap_Body resp) in if (uid =? 0)%Z then None else Some uid.

(** Why a record of the answer was not kept. *)
Inductive SaveError := save_lost | save_refused (e : BindingError).

Section addon.
Context `{!DrainEnv, !AddonEnv, !Uuids}.
Implicit Types (s : State) (row : Row) (intent : EntitlementIntent) (resp : ApplyResponse).

Definition on_link {A} s (f : Link Net → Link Net * A) : State * A :=
  let '(l, a) := f (link (world s)) in (set_world s (set_link (world s) l), a).
Definition addonReachable s (tgt : string) : State * bool :=
  let '(s, h) := on_link s (λ l, Health env_decoders l tgt) in
  (s, (th_Outcome h =? OutcomeSucceeded) && th_Reachable h).
Definition applyEntitlement s (req : ApplyRequest) : State * ApplyResponse :=
  on_link s (λ l, (Apply env_decoders l req).1).
Definition planOne s (tgt : string) (subject : PlanSubjectReq) : State * PlanResult :=
  on_link s (λ l, PlanCall env_decoders l tgt [subject] false).

(** [Desired] of the intent: the snapshot is never unreadable here. *)
Definition intent_Desired intent : option (gmap string FieldValue) := Some (ei_Desired intent).

Definition errored (res : DrainResult) : DrainResult := count res 0 0 0 0 1 0 ∅.
Definition mark_failed s (res : DrainResult) row (why : string) : State * DrainResult :=
  match settle call_failed row (MarkPropagationFailed (db s) (id row) why) with
  | inl e => (s, settle_failed res e)
  | inr d => (set_db s d, count res 0 1 0 0 0 0 ∅)
  end.

(** ** What a row verifies against *)
Definition fingerprintFor s (res : DrainResult) row intent (desired : gmap string FieldValue)
    : State * (DrainResult + string) :=
  if ei_Surface intent <>? SystemConvergenceSurface then (s, inr (ei_Fingerprint intent))
  else
    let '(s, answer) := planOne s (ei_Target intent)
      {| pq_Subject := ei_SubjectID intent; pq_Email := subjectEmail (world s) (ei_SubjectID intent);
         pq_Desired := desired |} in
    match pa_Outcome answer, pa_Outcomes answer with
    | OutcomeSucceeded, [o] =>
        if negb (pa_Current answer) then (s, inl (errored res))
        else if pa_Truncated answer then (s, inl (errored res))
        else if so_Effect o =? PlanEffectBlocked then
          let '(s, res) := mark_failed s res row ("the target refused: " +:+ so_Detail o) in (s, inl res)
        else (s, inr (so_Fingerprint o))
    | _, _ => (s, inl (errored res))
    end.

(** ** Keeping what the add-on answered *)
Definition recordBinding s row intent resp : State * option SaveError :=
  if ab_Username (ap_Body resp) =? "" then (s, None)
  else if db_fails call_binding row then (s, Some save_lost)
  else match RecordTargetBinding (db s)
    {| tb_Target := ei_Target intent; tb_SubjectID := ei_SubjectID intent; tb_Username := ab_Username (ap_Body resp);
       tb_AccountUID := reported_uid resp; tb_BoundBy := initiated_by row; tb_BoundAt := 0; tb_LastSeenAt := 0 |} with
  | inl e => (s, Some (save_refused e))
  | inr d => (set_db s d, None)
  end.
Definition recordConflict s row intent resp : State :=
  if db_fails call_holder row then s
  else match BindingHolder (db s) (ei_Target intent) (ab_Username (ap_Body resp)) (ab_UID (ap_Body resp)) with
  | None => s
  | Some holder =>
      if db_fails call_conflict row then s
      else match RecordBindingConflict (db s)
        {| bc_ID := ""; bc_Target := ei_Target intent; bc_Username := ab_Username (ap_Body resp);
           bc_AccountUID := reported_uid resp; bc_ConvergedSubjectID := ei_SubjectID intent; bc_BoundSubjectID := holder;
           bc_OutboxID := ei_OutboxID intent; bc_DetectedAt := 0; bc_Resolved := None |} with
      | inl _ => s
      | inr d => set_db s d
      end
  end.
Definition recordMergeBase s row intent resp : State :=
  if ab_Unverified (ap_Body resp) || (size (ab_Observed (ap_Body resp)) =? 0) then s
  else if db_fails call_merge_base row then s
  else match RecordMergeBase (db s) (ei_Target intent) (ei_SubjectID intent) (ab_Observed (ap_Body resp)) with
  | inl _ => s
  | inr d => set_db s d
  end.

(** ** One row *)
Definition apply_request s row intent (fingerprint : string) (desired : gmap string FieldValue) : ApplyRequest :=
  {| q_Target := ei_Target intent; q_Subject := ei_SubjectID intent;
     q_Email := subjectEmail (world s) (ei_SubjectID intent); q_Fingerprint := fingerprint; q_CallID := id row;
     q_PlanID := ei_PlanID intent; q_Actor := initiated_by row; q_Desired := desired |}.
(** Up to the call: the refusals, or the intent and the request to send. *)
Definition prepare s (res : DrainResult) row : State * (DrainResult + EntitlementIntent * ApplyRequest) :=
  let refuse why := let '(s, res) := mark_failed s res row why in (s, inl res) in
  if op_type row <>? op_apply
  then refuse ("op_type " +:+ quoted (op_text (op_type row)) +:+ " is not an entitlement apply")
  else if db_fails call_intent row then (s, inl (errored res))
  else match ReadEntitlementIntent (db s) (id row) with
  | inl _ => refuse "this row cites no approved desired state"
  | inr intent =>
      match intent_Desired intent with
      | None => refuse "the approved desired state could not be read"
      | Some desired =>
          if ei_Fingerprint intent =? "" then refuse "the cited plan subject carries no fingerprint to verify against"
          else
            let '(s, f) := fingerprintFor s res row intent desired in
            (s, match f with inl res => inl res | inr f => inr (intent, apply_request s row intent f desired) end)
      end
  end.
(** What the answer makes of the row. *)
Definition conclude s (res : DrainResult) row intent resp : State * DrainResult :=
  if ap_Outcome resp =? OutcomeSucceeded then
    match recordBinding s row intent resp with
    | (s, Some (save_refused ErrBindingConflict)) =>
        mark_failed (recordConflict s row intent resp) res row (bindingConflictReason intent resp)
    | (s, _) =>
        let s := recordMergeBase s row intent resp in
        match settle call_applied row (MarkPropagationApplied (db s) (id row)) with
        | inl e => (s, settle_failed res e)
        | inr d => (set_db s d, count res 1 0 0 0 0 0 ∅)
        end
    end
  else if ap_LifecycleRefusal resp then
    match settle call_release row (ReleasePropagation (db s) (id row) "the target is not accepting mutations") with
    | inl e => (s, settle_failed res e)
    | inr d => (set_db s d, count res 0 0 1 0 0 0 ∅)
    end
  else match ap_Outcome resp with
  | OutcomeRejected => mark_failed s res row (refusalReason resp)
  | OutcomeUnreached =>
      if maxRetries <=? attempts (progress row) then
        match settle call_failed row (MarkPropagationFailed (db s) (id row)
                (out_of_retries (attempts (progress row)) "the target could not be reached")) with
        | inl e => (s, settle_failed res e)
        | inr d => (set_db s d, count res 0 1 0 0 0 1 ∅)
        end
      else match (if db_fails call_requeue row then inl lost
                  else settle_result (RequeuePropagation draw (db s) (id row) "the target could not be reached")) with
      | inl e => (s, settle_failed res e)
      | inr (d, _) => (set_db s d, count res 0 0 1 0 0 0 ∅)
      end
  | _ => (s, errored res)
  end.
Definition dispatchEntitlement s (res : DrainResult) row : State * DrainResult * bool :=
  match prepare s res row with
  | (s, inl res) => (s, res, false)
  | (s, inr (intent, req)) => let '(s, resp) := applyEntitlement s req in (conclude s res row intent resp, false)
  end.

(** ** Passes *)
Fixpoint dispatch_rows s (res : DrainResult) (rows : list Row) : State * DrainResult :=
  match rows with
  | [] => (s, res)
  | row :: rows =>
      let '(s, res, halt) := dispatchEntitlement s res row in
      if halt then (s, res) else dispatch_rows s res rows
  end.
(** [claim_lost]: the claim failed, and the pass errs before anything is sent. *)
Definition drainAddonPass (locked : Row → bool) (claim_lost : bool) : AddonPass := λ s tgt,
  let '(s, up) := addonReachable s tgt in
  if negb up then (s, Some (halted "target_unreachable"))
  else if claim_lost then (s, None)
  else
    let '(d, rows) := ClaimPendingPropagations locked (db s) tgt claimBatch in
    let '(s, res) := dispatch_rows (set_db s d) (with_awaiting zero (TargetsAwaitingDispatch d tgt)) rows in
    (s, Some res).
Inductive DrainError := ErrBuiltInTarget | ErrClaimPending.
Definition DrainAddon (acquired : bool) (locked : Row → bool) (claim_lost : bool) s (tgt : string)
    : State * (DrainError + DrainResult) :=
  if tgt =? TargetZitadel then (s, inl ErrBuiltInTarget)
  else if negb acquired then (s, inr (halted "drain_in_progress"))
  else match drainAddonPass locked claim_lost s tgt with
  | (s, None) => (s, inl ErrClaimPending)
  | (s, Some res) => (pruneAfterDrain s, inr res)
  end.
(** The background runner's pass over one add-on target. *)
Definition revocationAddonPass (locked : Row → bool) (claim_lost : bool) : AddonPass := λ s tgt,
  let '(s, up) := addonReachable s tgt in
  if negb up then (s, Some (halted "target_unreachable"))
  else if claim_lost then (s, Some (halted "claim_error"))
  else
    let '(d, revocations) := ClaimPendingRevocations locked (db s) tgt claimBatch in
    let '(d, retries) := ClaimDueRetries locked d tgt claimBatch in
    let '(s, res) := automatic_rows dispatchEntitlement (set_db s d) zero (revocations ++ retries) in
    (s, Some res).


(** ** Facts: one row, one outcome *)

(** What one dispatch may do to the row and to the counters. *)
Definition dispatched (d d' : Db) (res res' : DrainResult) row : Prop :=
  outbox d' = outbox d ∧ (res' = errored res ∨ res' = count res 0 0 0 1 0 0 ∅ ∧ settled_meanwhile d row) ∨
  row ∈ outbox d ∧ row_status row = in_flight ∧ ∃ p, only_moved d d' row p ∧
    (status p = applied ∧ res' = count res 1 0 0 0 0 0 ∅ ∨
     status p = failed ∧ res' = count res 0 1 0 0 0 0 ∅ ∨
     status p = failed ∧ maxRetries ≤ attempts (progress row) ∧ res' = count res 0 1 0 0 0 1 ∅ ∨
     status p = pending ∧ attempts p = attempts (progress row) ∧ not_before p = not_before (progress row) ∧
       res' = count res 0 0 1 0 0 0 ∅ ∨
     status p = pending ∧ attempts p = S (attempts (progress row)) ∧ attempts p ≤ maxRetries ∧ is_Some (not_before p) ∧
       res' = count res 0 0 1 0 0 0 ∅).

Section one_row.
Context (d0 : Db) row (Hnd : NoDup (id <$> outbox d0))
  (Hsame : ∀ r, r ∈ outbox d0 → id r = id row → row_status r = in_flight → r = row).

(** Settling the row: it is settled, or something else settled it meanwhile. *)
Lemma settleOne_moves d set_ :
  outbox d = outbox d0 →
  settleOne d (id row) set_ = inl ErrPropagationNotInFlight ∧ settled_meanwhile d0 row ∨
  ∃ d', settleOne d (id row) set_ = inr d' ∧ row ∈ outbox d0 ∧ row_status row = in_flight ∧
        only_moved d0 d' row (set_ (progress row)).
Proof.
  intros Ho. destruct (in_flight_or_not d0 row) as [(r & Hr & Hi & Hs)|Hm].
  - right. assert (r = row) as -> by auto.
    destruct (settle_only_moved d0 d (id row) set_ row Hnd Ho Hr eq_refl Hs) as (d' & -> & Hm & _). by exists d'.
  - left. split; [|done]. apply settleOne_meanwhile. unfold settled_meanwhile. by rewrite Ho.
Qed.
Lemma settle_moves s call set_ :
  outbox (db s) = outbox d0 →
  settle call row (settleOne (db s) (id row) set_) = inl lost ∨
  settle call row (settleOne (db s) (id row) set_) = inl not_in_flight ∧ settled_meanwhile d0 row ∨
  ∃ d, settle call row (settleOne (db s) (id row) set_) = inr d ∧ row ∈ outbox d0 ∧ row_status row = in_flight ∧
       only_moved d0 d row (set_ (progress row)).
Proof.
  intros Ho. unfold settle. destruct (db_fails call row); [by left|]. right.
  destruct (settleOne_moves (db s) set_ Ho) as [[-> ?]|(d & -> & ? & ? & ?)]; [by left|right; by exists d].
Qed.
Lemma errored_dispatched s res : outbox (db s) = outbox d0 → dispatched d0 (db s) res (errored res) row.
Proof. left. auto. Qed.
Lemma mark_failed_dispatched s res why :
  outbox (db s) = outbox d0 →
  dispatched d0 (db (mark_failed s res row why).1) res (mark_failed s res row why).2 row.
Proof.
  intros Ho. unfold mark_failed, MarkPropagationFailed.
  destruct (settle_moves s call_failed (terminate (now (db s)) failed (Some why)) Ho) as [->|[[-> ?]|(d & -> & Hin & Hfl & Hm)]]; [left; auto..|].
  right. split_and!; [done..|]. eexists. split; [exact Hm|]. by right; left.
Qed.
Lemma recordBinding_outbox s intent resp : outbox (db (recordBinding s row intent resp).1) = outbox (db s).
Proof.
  unfold recordBinding, RecordTargetBinding, upsert_binding. destruct (_ =? ""); [done|]. destruct (db_fails _ _); [done|].
  destruct (binding_invalid _); [done|]. cbn zeta. destruct (head _); repeat (case_match || simplify_eq/=); done.
Qed.
Lemma recordConflict_outbox s intent resp : outbox (db (recordConflict s row intent resp)) = outbox (db s).
Proof.
  unfold recordConflict, RecordBindingConflict, mint. destruct (db_fails call_holder row); [done|].
  destruct (BindingHolder _ _ _ _); [|done]. destruct (db_fails call_conflict row); [done|].
  by repeat (case_match || simplify_eq/=).
Qed.
Lemma recordMergeBase_outbox s intent resp : outbox (db (recordMergeBase s row intent resp)) = outbox (db s).
Proof. unfold recordMergeBase, RecordMergeBase. by repeat (case_match || simplify_eq/=). Qed.

Lemma conclude_dispatched s res intent resp :
  outbox (db s) = outbox d0 →
  dispatched d0 (db (conclude s res row intent resp).1) res (conclude s res row intent resp).2 row.
Proof.
  intros Ho. unfold conclude. destruct (ap_Outcome resp =? OutcomeSucceeded).
  - pose proof (recordBinding_outbox s intent resp) as Hb. destruct (recordBinding s row intent resp) as [s1 e]. simpl in Hb.
    assert (dispatched d0 (db (mark_failed (recordConflict s1 row intent resp) res row (bindingConflictReason intent resp)).1) res
              (mark_failed (recordConflict s1 row intent resp) res row (bindingConflictReason intent resp)).2 row) as Hc
      by (apply mark_failed_dispatched; rewrite recordConflict_outbox; congruence).
    set (s2 := recordMergeBase s1 row intent resp).
    assert (outbox (db s2) = outbox d0) as Hs2 by (unfold s2; rewrite recordMergeBase_outbox; congruence).
    assert (dispatched d0 (db (match settle call_applied row (MarkPropagationApplied (db s2) (id row)) with
        | inl e => (s2, settle_failed res e) | inr d => (set_db s2 d, count res 1 0 0 0 0 0 ∅) end).1) res
      (match settle call_applied row (MarkPropagationApplied (db s2) (id row)) with
        | inl e => (s2, settle_failed res e) | inr d => (set_db s2 d, count res 1 0 0 0 0 0 ∅) end).2 row) as Ha.
    { unfold MarkPropagationApplied. destruct (settle_moves s2 call_applied (terminate (now (db s2)) applied None) Hs2) as [->|[[-> ?]|(d & -> & Hin & Hfl & Hm)]]; [left; auto..|].
      right. split_and!; [done..|]. eexists. split; [exact Hm|]. by left. }
    destruct e as [[|[]]|]; assumption.
  - destruct (ap_LifecycleRefusal resp).
    { unfold ReleasePropagation. destruct (settle_moves s call_release (released "the target is not accepting mutations") Ho) as [->|[[-> ?]|(d & -> & Hin & Hfl & Hm)]]; [left; auto..|].
      right. split_and!; [done..|]. eexists. split; [exact Hm|]. right; right; right; left. done. }
    destruct (ap_Outcome resp); try (by apply errored_dispatched); [by apply mark_failed_dispatched|].
    destruct (Nat.leb_spec maxRetries (attempts (progress row))).
    + unfold MarkPropagationFailed. edestruct (settle_moves s call_failed) as [->|[[-> ?]|(d & -> & Hin & Hfl & Hm)]]; [exact Ho|left; auto..|].
      right. split_and!; [done..|]. eexists. split; [exact Hm|]. by right; right; left.
    + unfold RequeuePropagation. destruct (db_fails call_requeue row); [left; auto|].
      destruct (settleOne_moves (db s) (requeued (db s) (backoffSchedule draw) "the target could not be reached") Ho)
        as [[-> ?]|(d & -> & Hin & Hfl & Hm)]; [left; auto|]. simpl.
      right. split_and!; [done..|]. eexists. split; [exact Hm|]. do 4 right. simpl. split_and!; [done|lia|lia|eauto|done].
Qed.
Lemma fingerprintFor_dispatched s res intent desired s1 r :
  outbox (db s) = outbox d0 → fingerprintFor s res row intent desired = (s1, r) →
  match r with inl res' => dispatched d0 (db s1) res res' row | inr _ => db s1 = db s end.
Proof.
  intros Ho. unfold fingerprintFor, planOne, on_link. destruct (_ <>? _); [by intros [= <- <-]|].
  destruct (PlanCall _ _ _ _ _) as [l answer]. cbv zeta iota. set (s2 := set_world s _).
  assert (outbox (db s2) = outbox d0) as Ho2 by done.
  pose proof (mark_failed_dispatched s2 res) as Hm.
  destruct (pa_Outcome answer), (pa_Outcomes answer) as [|o [|]];
    try (intros [= <- <-]; by apply errored_dispatched).
  destruct (negb _); [intros [= <- <-]; by apply errored_dispatched|].
  destruct (pa_Truncated _); [intros [= <- <-]; by apply errored_dispatched|].
  destruct (so_Effect o =? _); [|by intros [= <- <-]].
  specialize (Hm ("the target refused: " +:+ so_Detail o) Ho2).
  destruct (mark_failed s2 res row _) as [s3 res3]. by intros [= <- <-].
Qed.
Lemma prepare_dispatched s res s1 r :
  outbox (db s) = outbox d0 → prepare s res row = (s1, r) →
  match r with inl res' => dispatched d0 (db s1) res res' row | inr _ => db s1 = db s end.
Proof.
  intros Ho. unfold prepare. pose proof (λ why, mark_failed_dispatched s res why Ho) as Hm.
  assert (∀ why, (let '(s2, res2) := mark_failed s res row why in (s2, inl res2 : DrainResult + EntitlementIntent * ApplyRequest)) = (s1, r) →
    match r with inl res' => dispatched d0 (db s1) res res' row | inr _ => db s1 = db s end) as Hr.
  { intros why. specialize (Hm why). destruct (mark_failed s res row why). by intros [= <- <-]. }
  destruct (_ <>? _); [apply Hr|]. destruct (db_fails _ _); [intros [= <- <-]; by apply errored_dispatched|].
  destruct (ReadEntitlementIntent _ _) as [e|intent]; [apply Hr|]. cbn [intent_Desired]. destruct (_ =? ""); [apply Hr|].
  destruct (fingerprintFor s res row intent (ei_Desired intent)) as [s2 f] eqn:Ef.
  apply fingerprintFor_dispatched in Ef; [|done]. destruct f; by intros [= <- <-].
Qed.
End one_row.
End addon.

(** ** Facts: the traffic of one dispatch *)
Section traffic.
Context `{!DrainEnv, !AddonEnv, !Uuids, !WireLog Net}.
Definition traffic (s : State) : list Sent := sent (net (link (world s))).
(** A reading of the target's live state that may gate an apply. *)
Definition usable (answer : PlanResult) (fingerprint : string) : Prop :=
  pa_Outcome answer = OutcomeSucceeded ∧ pa_Current answer = true ∧ pa_Truncated answer = false ∧
  ∃ o, pa_Outcomes answer = [o] ∧ so_Effect o ≠ PlanEffectBlocked ∧ so_Fingerprint o = fingerprint.
(** What a fingerprint was established by: a person's review, or the read just sent. *)
Definition verified_by (s : State) (intent : EntitlementIntent) (reads : list Sent) (fingerprint : string) : Prop :=
  if ei_Surface intent =? SystemConvergenceSurface then
    let subject := {| pq_Subject := ei_SubjectID intent; pq_Email := subjectEmail (world s) (ei_SubjectID intent);
                      pq_Desired := ei_Desired intent |} in
    reads = [{| x_Target := ei_Target intent; x_Path := "/plan"; x_Body := planEnvelope [subject] false; x_Key := None |}] ∧
    usable (planOne s (ei_Target intent) subject).2 fingerprint
  else reads = [] ∧ fingerprint = ei_Fingerprint intent.

Lemma traffic_db s d : traffic (set_db s d) = traffic s.
Proof. done. Qed.
Lemma mark_failed_traffic s res row why : traffic (mark_failed s res row why).1 = traffic s.
Proof. unfold mark_failed. by destruct (settle _ _ _). Qed.
Lemma mark_failed_applied s res row why : Applied (mark_failed s res row why).2 = Applied res.
Proof. unfold mark_failed. destruct (settle _ _ _) as [[]|]; simpl; lia. Qed.
Lemma conclude_traffic s res row intent resp : traffic (conclude s res row intent resp).1 = traffic s.
Proof.
  unfold conclude, recordBinding. 
  assert (∀ s, traffic (recordConflict s row intent resp) = traffic s) as Hc.
  { intros s1. unfold recordConflict. by repeat case_match. }
  assert (∀ s, traffic (recordMergeBase s row intent resp) = traffic s) as Hm.
  { intros s1. unfold recordMergeBase. by repeat case_match. }
  repeat (case_match || simplify_eq/=); rewrite ?traffic_db, ?mark_failed_traffic, ?Hc, ?Hm; done.
Qed.
(** Only a call that succeeded counts a row as applied. *)
Lemma conclude_applied s res row intent resp :
  ap_Outcome resp ≠ OutcomeSucceeded → Applied (conclude s res row intent resp).2 = Applied res.
Proof.
  intros Ho. unfold conclude. rewrite bool_decide_false by done. unfold settle_failed.
  repeat (case_match || simplify_eq/=); rewrite ?mark_failed_applied; lia.
Qed.

Lemma fingerprintFor_traffic s res row intent s1 r :
  fingerprintFor s res row intent (ei_Desired intent) = (s1, r) →
  ∃ reads, traffic s1 = traffic s ++ reads ∧ Forall (λ x, x_Path x = "/plan") reads ∧
    match r with inl res' => Applied res' = Applied res | inr f => verified_by s intent reads f end.
Proof.
  unfold fingerprintFor, verified_by.
  destruct (ei_Surface intent =? SystemConvergenceSurface) eqn:Esf; cbn [negb];
    [|intros [= <- <-]; exists []; rewrite app_nil_r; done].
  set (subject := {| pq_Subject := ei_SubjectID intent |}). destruct (planOne s (ei_Target intent) subject) as [s2 answer] eqn:Ep.
  assert (∃ reads, traffic s2 = traffic s ++ reads ∧ Forall (λ x, x_Path x = "/plan") reads ∧
    (pa_Outcome answer = OutcomeSucceeded → reads = [{| x_Target := ei_Target intent; x_Path := "/plan";
       x_Body := planEnvelope [subject] false; x_Key := None |}])) as (reads & Ht & Hp & Hr).
  { unfold planOne, on_link in Ep. destruct (PlanCall _ _ _ _ _) as [l a] eqn:Ec. injection Ep as <- <-.
    unfold traffic. simpl. rewrite link_set. apply PlanCall_sent in Ec as [[Hs Ho]|Hs].
    - exists []. rewrite app_nil_r, Hs, Ho. done.
    - eexists. rewrite Hs. split_and!; [done| |done]. by apply Forall_singleton. }
  assert (∀ s3 r3, (s2, inl (errored res)) = (s3, r3) → ∃ reads, traffic s3 = traffic s ++ reads ∧ Forall (λ x, x_Path x = "/plan") reads ∧
    match r3 with inl res' => Applied res' = Applied res | inr f => reads = [{| x_Target := ei_Target intent; x_Path := "/plan";
       x_Body := planEnvelope [subject] false; x_Key := None |}] ∧ usable answer f end) as Herr.
  { intros s3 r3 [= <- <-]. exists reads. split_and!; [done..|]. simpl. lia. }
  destruct (pa_Outcome answer) eqn:Eo, (pa_Outcomes answer) as [|o [|]] eqn:Eos; try apply Herr.
  destruct (pa_Current answer) eqn:Ec; [|apply Herr]. destruct (pa_Truncated answer) eqn:Et; [apply Herr|]. cbn [negb].
  destruct (so_Effect o =? PlanEffectBlocked) eqn:Eb.
  - pose proof (mark_failed_traffic s2 res row ("the target refused: " +:+ so_Detail o)) as Hmt.
    pose proof (mark_failed_applied s2 res row ("the target refused: " +:+ so_Detail o)) as Hma.
    destruct (mark_failed _ _ _ _) as [s3 res3]. intros [= <- <-]. simpl in *. exists reads. split_and!; [congruence|done..].
  - intros [= <- <-]. apply bool_decide_eq_false in Eb. exists reads. split_and!; [done..|by apply Hr|].
    split_and!; [done..|]. by exists o.
Qed.
Lemma prepare_traffic s res row s1 r :
  prepare s res row = (s1, r) →
  ∃ reads, traffic s1 = traffic s ++ reads ∧ Forall (λ x, x_Path x = "/plan") reads ∧
    match r with
    | inl res' => Applied res' = Applied res
    | inr (intent, req) => op_type row = op_apply ∧ ReadEntitlementIntent (db s) (id row) = inr intent ∧
        req = apply_request s1 row intent (q_Fingerprint req) (ei_Desired intent) ∧ verified_by s intent reads (q_Fingerprint req)
    end.
Proof.
  unfold prepare.
  assert (∀ why, (let '(s2, res2) := mark_failed s res row why in (s2, inl res2 : DrainResult + EntitlementIntent * ApplyRequest)) = (s1, r) →
    ∃ reads, traffic s1 = traffic s ++ reads ∧ Forall (λ x, x_Path x = "/plan") reads ∧
      match r with inl res' => Applied res' = Applied res | inr _ => False end) as Hr.
  { intros why. pose proof (mark_failed_traffic s res row why) as Hmt. pose proof (mark_failed_applied s res row why) as Hma.
    destruct (mark_failed s res row why). intros [= <- <-]. exists []. rewrite app_nil_r. done. }
  assert (∀ P, (∃ reads, traffic s1 = traffic s ++ reads ∧ Forall (λ x, x_Path x = "/plan") reads ∧
      match r with inl res' => Applied res' = Applied res | inr _ => False end) →
    ∃ reads, traffic s1 = traffic s ++ reads ∧ Forall (λ x, x_Path x = "/plan") reads ∧
      match r with inl res' => Applied res' = Applied res | inr x => P reads x end) as Hw.
  { intros P (reads & ? & ? & Hx). exists reads. by destruct r. }
  destruct (op_type row =? op_apply) eqn:Eop; cbn [negb]; [|intros E; by eapply (Hw (λ _ '(_, _), _)), Hr].
  apply bool_decide_eq_true in Eop.
  destruct (db_fails call_intent row). { intros [= <- <-]. exists []. rewrite app_nil_r. split_and!; [done..|]. simpl. lia. }
  destruct (ReadEntitlementIntent (db s) (id row)) as [e|intent] eqn:Ei; [intros E; by eapply (Hw (λ _ '(_, _), _)), Hr|].
  cbn [intent_Desired]. destruct (_ =? ""); [intros E; by eapply (Hw (λ _ '(_, _), _)), Hr|].
  destruct (fingerprintFor s res row intent (ei_Desired intent)) as [s2 f] eqn:Ef.
  apply fingerprintFor_traffic in Ef as (reads & Ht & Hp & Hf).
  destruct f as [res2|f]; intros [= <- <-]; exists reads; split_and!; try done.
Qed.
End traffic.

Lemma dispatch_traffic `{!DrainEnv, !AddonEnv, !Uuids, !WireLog Net} s res row s' res' halt :
  dispatchEntitlement s res row = (s', res', halt) →
  ∃ reads applies, traffic s' = traffic s ++ reads ++ applies ∧ Forall (λ x, x_Path x = "/plan") reads ∧
    (Applied res' = Applied res ∨ applies ≠ []) ∧
    (applies = [] ∨
     ∃ intent req, op_type row = op_apply ∧ ReadEntitlementIntent (db s) (id row) = inr intent ∧
       applies = [{| x_Target := ei_Target intent; x_Path := "/apply"; x_Body := applyEnvelope req; x_Key := Some (id row) |}] ∧
       q_Target req = ei_Target intent ∧ q_Subject req = ei_SubjectID intent ∧ q_Desired req = ei_Desired intent ∧
       q_PlanID req = ei_PlanID intent ∧ q_Actor req = initiated_by row ∧ q_CallID req = id row ∧
       q_Fingerprint req ≠ "" ∧ verified_by s intent reads (q_Fingerprint req)).
Proof.
  unfold dispatchEntitlement. destruct (prepare s res row) as [s1 r] eqn:Ep.
  apply prepare_traffic in Ep as (reads & Ht & Hp & Hr). destruct r as [res1|[intent req]].
  { intros [= <- <- <-]. exists reads, []. rewrite app_nil_r. auto. }
  destruct Hr as (Hop & Hi & Hq & Hv). unfold applyEntitlement, on_link.
  destruct (Apply env_decoders (link (world s1)) req) as [[l resp] b] eqn:Ea. cbn [fst snd].
  set (s2 := set_world s1 (set_link (world s1) l)). pose proof (conclude_traffic s2 res row intent resp) as Hct.
  pose proof (conclude_applied s2 res row intent resp) as Hca.
  destruct (conclude s2 res row intent resp) as [s3 res3]. intros [= <- <- <-]. simpl in Hct, Hca. rewrite Hct. unfold s2, traffic at 1. simpl. rewrite link_set.
  apply Apply_sent in Ea as [[-> Ho]|(Hc & Hf & ->)]; fold (traffic s1); rewrite Ht.
  - exists reads, []. rewrite app_nil_r. split_and!; [done..| |by left]. left. apply Hca. congruence.
  - eexists reads, [_]. rewrite (assoc_L (++)). split_and!; [done..|by right|]. right. exists intent, req.
    rewrite Hq at 1 2 3. split_and!; try done; rewrite Hq; done.
Qed.

(** ** Facts: a drain as a sequence of plan steps *)
Section drain_steps.
Context `{!DrainEnv, !AddonEnv, !Uuids}.
(** A statement that inserts no row and leaves plans alone. *)
Lemma quiet_step d d' :
  step d d' → length (outbox d') ≤ length (outbox d) → plans (tables d') = plans (tables d) →
  plan_subjects (tables d') = plan_subjects (tables d) → snapshots (tables d') = snapshots (tables d) → plan_step d d'.
Proof.
  intros Hst Hlen Ep Es En. apply plan_other; try done.
  destruct (step_table _ _ Hst) as [HF _ _ _|r _ Eo _ _ _|keep Eo _ _ _ _]; intros x Hx _.
  - destruct (Forall2_back _ _ _ _ HF Hx) as (r & Hr & He). exists r. split; [done|]. apply He.
  - rewrite Eo, length_app in Hlen. simpl in Hlen. lia.
  - rewrite Eo in Hx. apply list_elem_of_filter in Hx as [_ Hx]. exists x. split; [done|]. apply with_progress_self.
Qed.
Lemma settle_quiet d d' i set_ : settleOne d i set_ = inr d' → step d d' → plan_step d d'.
Proof.
  intros E Hst. unfold settleOne in E. case_bool_decide; [done|]. injection E as <-.
  apply quiet_step; try done. simpl. unfold update. by rewrite length_map.
Qed.
Lemma settled_steps call (row : Row) d r d' (Hr : ∀ d', r = inr d' → plan_step d d') :
  settle call row r = inr d' → rtc plan_step d d'.
Proof.
  unfold settle. destruct (db_fails call row); [done|]. destruct r as [[]|d1]; try done. intros [= <-]. by apply rtc_once, Hr.
Qed.
Lemma mark_failed_steps s res row why : rtc plan_step (db s) (db (mark_failed s res row why).1).
Proof.
  unfold mark_failed. destruct (settle _ _ _) as [e|d] eqn:E; [apply rtc_refl|]. simpl.
  eapply settled_steps; [|exact E]. intros d' Ed. eapply settle_quiet; [exact Ed|]. by eapply step_failed.
Qed.
(** The records of an answer touch no plan and no row. *)
Lemma recordBinding_steps s row intent resp : rtc plan_step (db s) (db (recordBinding s row intent resp).1).
Proof.
  unfold recordBinding, RecordTargetBinding, upsert_binding. destruct (_ =? ""); [apply rtc_refl|].
  destruct (db_fails _ _); [apply rtc_refl|]. destruct (binding_invalid _); [apply rtc_refl|]. cbn zeta.
  destruct (head _); repeat (case_match || simplify_eq/=); try apply rtc_refl;
    apply rtc_once, quiet_step; try done; by apply step_other.
Qed.
Lemma recordConflict_steps s row intent resp : rtc plan_step (db s) (db (recordConflict s row intent resp)).
Proof.
  unfold recordConflict, RecordBindingConflict, mint. destruct (db_fails call_holder row); [apply rtc_refl|].
  destruct (BindingHolder _ _ _ _); [|apply rtc_refl]. destruct (db_fails call_conflict row); [apply rtc_refl|].
  repeat (case_match || simplify_eq/=); try apply rtc_refl.
  apply rtc_once, quiet_step; try done. apply step_other; simpl; done || lia.
Qed.
Lemma recordMergeBase_steps s row intent resp : rtc plan_step (db s) (db (recordMergeBase s row intent resp)).
Proof.
  unfold recordMergeBase, RecordMergeBase. repeat (case_match || simplify_eq/=); try apply rtc_refl.
  apply rtc_once, quiet_step; try done. by apply step_other.
Qed.
Lemma conclude_steps s res row intent resp : rtc plan_step (db s) (db (conclude s res row intent resp).1).
Proof.
  unfold conclude. destruct (ap_Outcome resp =? OutcomeSucceeded).
  - pose proof (recordBinding_steps s row intent resp) as Hb. destruct (recordBinding s row intent resp) as [s1 e].
    assert (rtc plan_step (db s) (db (match settle call_applied row (MarkPropagationApplied (db (recordMergeBase s1 row intent resp)) (id row)) with
      | inl e => (recordMergeBase s1 row intent resp, settle_failed res e)
      | inr d => (set_db (recordMergeBase s1 row intent resp) d, count res 1 0 0 0 0 0 ∅) end).1)) as Ha.
    { etrans; [exact Hb|]. etrans; [apply recordMergeBase_steps|]. destruct (settle _ _ _) eqn:E; [apply rtc_refl|].
      eapply settled_steps; [|exact E]. intros d' Ed. eapply settle_quiet; [exact Ed|]. by eapply step_applied. }
    destruct e as [[|[]]|]; try exact Ha.
    etrans; [exact Hb|]. etrans; [apply recordConflict_steps|apply mark_failed_steps].
  - destruct (ap_LifecycleRefusal resp).
    { destruct (settle _ _ _) eqn:E; [apply rtc_refl|]. eapply settled_steps; [|exact E].
      intros d' Ed. eapply settle_quiet; [exact Ed|]. by eapply step_release. }
    destruct (ap_Outcome resp); try apply rtc_refl; [apply mark_failed_steps|].
    destruct (_ <=? _).
    + destruct (settle _ _ _) eqn:E; [apply rtc_refl|]. eapply settled_steps; [|exact E].
      intros d' Ed. eapply settle_quiet; [exact Ed|]. by eapply step_failed.
    + destruct (db_fails call_requeue row); [apply rtc_refl|].
      destruct (RequeuePropagation _ _ _ _) as [[]|[d n]] eqn:E; try apply rtc_refl. simpl.
      pose proof (step_requeue draw (db s) d (id row) _ n E) as Hst. unfold RequeuePropagation in E.
      destruct (settleOne _ _ _) eqn:Es; [done|]. injection E as -> _. by eapply rtc_once, settle_quiet.
Qed.
Lemma prepare_steps s res row : rtc plan_step (db s) (db (prepare s res row).1).
Proof.
  unfold prepare.
  assert (∀ why, rtc plan_step (db s) (db (let '(s2, res2) := mark_failed s res row why in
    (s2, inl res2 : DrainResult + EntitlementIntent * ApplyRequest)).1)) as Hr.
  { intros why. pose proof (mark_failed_steps s res row why). by destruct (mark_failed s res row why). }
  destruct (_ <>? _); [apply Hr|]. destruct (db_fails _ _); [apply rtc_refl|].
  destruct (ReadEntitlementIntent _ _); [apply Hr|]. cbn [intent_Desired]. destruct (_ =? ""); [apply Hr|].
  unfold fingerprintFor, planOne, on_link. destruct (_ <>? _); [apply rtc_refl|].
  destruct (PlanCall _ _ _ _ _) as [l answer]. cbv zeta iota.
  destruct (pa_Outcome answer), (pa_Outcomes answer) as [|o [|]]; try apply rtc_refl.
  destruct (negb _); [apply rtc_refl|]. destruct (pa_Truncated _); [apply rtc_refl|].
  destruct (_ =? _); [|apply rtc_refl]. set (s2 := set_world s _).
  pose proof (mark_failed_steps s2 res row ("the target refused: " +:+ so_Detail o)). by destruct (mark_failed s2 res row _).
Qed.
Lemma dispatch_steps s res row : rtc plan_step (db s) (db (dispatchEntitlement s res row).1.1).
Proof.
  unfold dispatchEntitlement. pose proof (prepare_steps s res row) as Hp. destruct (prepare s res row) as [s1 [res1|[intent req]]]; [done|].
  unfold applyEntitlement, on_link. destruct (Apply _ _ _).1 as [l resp]. cbv zeta iota. set (s2 := set_world s1 _).
  pose proof (conclude_steps s2 res row intent resp) as Hc. destruct (conclude _ _ _ _ _). simpl in *. by etrans.
Qed.
Lemma dispatch_rows_steps rows s res : rtc plan_step (db s) (db (dispatch_rows s res rows).1).
Proof.
  revert s res. induction rows as [|row rows IH]; intros s res; cbn [dispatch_rows]; [apply rtc_refl|].
  pose proof (dispatch_steps s res row) as Hd. destruct (dispatchEntitlement s res row) as [[s1 r1] []]; [done|].
  etrans; [exact Hd|apply IH].
Qed.
Lemma claim_steps d tgt locked (where_ : Row → bool) order limit :
  NoDup (id <$> outbox d) → (∀ r, where_ r = true → unresolved r = true) →
  rtc plan_step d (claim_chosen (terminateSuperseded d tgt "")
             (chosen locked where_ order limit (outbox (terminateSuperseded d tgt "")))).1.
Proof.
  intros Hnd Hun. eapply rtc_l.
  - apply (quiet_step d (terminateSuperseded d tgt "")); try done; [apply step_supersede|]. simpl. unfold update. by rewrite length_map.
  - apply rtc_once, quiet_step; try done; [apply step_claim|simpl; unfold update; by rewrite length_map].
    intros r Hr (r0 & E & Hr0)%list_elem_of_fmap. apply chosen_elem in Hr0 as (Hin & Hw & _).
    rewrite (same_id (outbox (terminateSuperseded d tgt "")) r r0); auto. by rewrite terminateSuperseded_ids.
Qed.
Lemma prune_steps s : (0 <= retentionDays)%Z → rtc plan_step (db s) (db (pruneAfterDrain s)).
Proof.
  intros Hd. unfold pruneAfterDrain. simpl. eapply rtc_l; [|apply rtc_once, plan_prune].
  apply quiet_step; try done; [by apply step_prune|]. simpl. apply length_filter.
Qed.
Lemma addonReachable_db s tgt : db (addonReachable s tgt).1 = db s.
Proof. unfold addonReachable, on_link. by destruct (Health _ _ _). Qed.
Lemma drainAddonPass_steps locked claim_lost s tgt :
  NoDup (id <$> outbox (db s)) → rtc plan_step (db s) (db (drainAddonPass locked claim_lost s tgt).1).
Proof.
  intros Hnd. unfold drainAddonPass. pose proof (addonReachable_db s tgt) as Hdb. destruct (addonReachable s tgt) as [s1 up]. simpl in Hdb.
  destruct up; [|by rewrite <-Hdb]. destruct claim_lost; [by rewrite <-Hdb|]. cbn [negb].
  assert (rtc plan_step (db s1) (ClaimPendingPropagations locked (db s1) tgt claimBatch).1) as Hc.
  { apply claim_steps; [congruence|]. intros r. apply claimable_unresolved. }
  destruct (ClaimPendingPropagations _ _ _ _) as [d rows]. simpl in Hc. rewrite <-Hdb. etrans; [exact Hc|].
  pose proof (dispatch_rows_steps rows (set_db s1 d) (with_awaiting zero (TargetsAwaitingDispatch d tgt))) as Hr.
  by destruct (dispatch_rows _ _ _).
Qed.
End drain_steps.

(** ** Properties *)

(** C14. One outcome per row, and no row stops a pass. While a claimed row is out
    nothing changes it except what settles it for good, such as a deregistration
    of its target. If nothing did, the row handed to the add-on dispatcher ends
    applied, failed (out of retries, which is counted as exhausted too, or not),
    back in the queue with its retry budget untouched (the target declared a
    maintenance window), back in the queue with one more attempt within the
    budget and a date, or, when a statement or an answer is lost, exactly as it
    was and counted as errored. If something did, the table is as it was and the
    row is counted as abandoned (or errored). Exactly one of the counters of
    applied, failed, requeued, abandoned and errored rows moves, by one, and no
    other row of the outbox changes. *)
Theorem dispatchEntitlement_outcome `{!DrainEnv, !AddonEnv, !Uuids} s res row s' res' halt :
  NoDup (id <$> outbox (db s)) → (∀ r, r ∈ outbox (db s) → id r = id row → row_status r = in_flight → r = row) →
  dispatchEntitlement s res row = (s', res', halt) →
  halt = false ∧ dispatched (db s) (db s') res res' row ∧ accounted res' = S (accounted res).
Proof.
  intros Hnd Hsame. unfold dispatchEntitlement. destruct (prepare s res row) as [s1 r] eqn:Ep.
  apply (prepare_dispatched (db s) row Hnd Hsame) in Ep; [|done].
  assert (∀ d1 d2 res1, dispatched d1 d2 res res1 row → accounted res1 = S (accounted res)) as Ha.
  { unfold dispatched, accounted, errored.
    intros d1 d2 res1 [[_ [->|[-> _]]]|(_ & _ & p & _ & [[_ ->]|[[_ ->]|[(_ & _ & ->)|[(_ & _ & _ & ->)|(_ & _ & _ & _ & ->)]]]])]; simpl; lia. }
  destruct r as [res1|[intent req]].
  - intros [= <- <- <-]. split_and!; eauto.
  - unfold applyEntitlement, on_link. destruct (Apply _ _ _).1 as [l resp]. cbv zeta iota. set (s2 := set_world s1 _).
    pose proof (conclude_dispatched (db s) row Hnd Hsame s2 res intent resp ltac:(simpl; congruence)) as Hc.
    destruct (conclude s2 res row intent resp) as [s3 res3]. intros [= <- <- <-]. split_and!; eauto.
Qed.

(** What was approved is what is sent, and only that. One dispatch makes at
    most one call that changes the target: it goes to the target of the cited
    approval, under the row's own id as the deduplication key, names the
    approved subject, plan and operator and carries exactly the recorded desired
    state, never a fresh resolution. It is verified against the fingerprint the
    operator reviewed; for a convergence nobody reviewed, against one read from
    the target's live state just before, complete and not refused. A row that
    cites no approval causes no call, and no row counts as applied without one. *)
Theorem dispatch_sends_the_approval `{!DrainEnv, !AddonEnv, !Uuids, !WireLog Net} s res row s' res' halt :
  dispatchEntitlement s res row = (s', res', halt) →
  ∃ reads applies, traffic s' = traffic s ++ reads ++ applies ∧ Forall (λ x, x_Path x = "/plan") reads ∧
    (Applied res' = Applied res ∨ applies ≠ []) ∧
    (applies = [] ∨
     ∃ intent req, op_type row = op_apply ∧ ReadEntitlementIntent (db s) (id row) = inr intent ∧
       applies = [{| x_Target := ei_Target intent; x_Path := "/apply"; x_Body := applyEnvelope req; x_Key := Some (id row) |}] ∧
       q_Target req = ei_Target intent ∧ q_Subject req = ei_SubjectID intent ∧ q_Desired req = ei_Desired intent ∧
       q_PlanID req = ei_PlanID intent ∧ q_Actor req = initiated_by row ∧ q_CallID req = id row ∧
       q_Fingerprint req ≠ "" ∧ verified_by s intent reads (q_Fingerprint req)).
Proof. apply dispatch_traffic. Qed.

(** C7. The diff that was approved is the diff that lands. From the moment a
    row's approval can be read, through any number of plans created, claimed and
    pruned, rows queued and other outbox statements, the row the dispatcher
    finally sends, if it sends anything, goes to that target, for that subject,
    under that plan, with the very desired state recorded then; and unless the
    approval is the system's own, verified against the fingerprint reviewed then. *)
Theorem approved_is_what_is_sent `{!DrainEnv, !AddonEnv, !Uuids, !WireLog Net} d e s res row s' res' halt x :
  wf d → authorised d → ReadEntitlementIntent d (id row) = inr e → rtc plan_step d (db s) → row ∈ outbox (db s) →
  dispatchEntitlement s res row = (s', res', halt) → x ∈ traffic s' → x_Path x = "/apply" →
  x ∈ traffic s ∨
  ∃ req, x = {| x_Target := ei_Target e; x_Path := "/apply"; x_Body := applyEnvelope req; x_Key := Some (id row) |} ∧
    q_Subject req = ei_SubjectID e ∧ q_PlanID req = ei_PlanID e ∧ q_Desired req = ei_Desired e ∧
    (ei_Surface e ≠ SystemConvergenceSurface → q_Fingerprint req = ei_Fingerprint e).
Proof.
  intros Hwf Ha Hi Hst Hrow E Hx Hpath. pose proof (ReadEntitlementIntent_stable d (db s) (id row) e row Hwf Ha Hi Hst Hrow eq_refl) as Hi'.
  destruct (dispatch_traffic _ _ _ _ _ _ E) as (reads & applies & Ht & Hr & _ & Happ). rewrite Ht, !elem_of_app in Hx.
  destruct Hx as [?|[Hx|Hx]]; [by left| |].
  { rewrite Forall_forall in Hr. rewrite (Hr x Hx) in Hpath. done. }
  right. destruct Happ as [->|(intent & req & _ & Hri & -> & _ & Hs & Hd & Hp & _ & _ & _ & Hv)]; [by apply elem_of_nil in Hx|].
  assert (intent = e) as -> by congruence. apply list_elem_of_singleton in Hx. exists req. split_and!; try done.
  intros Hsf. unfold verified_by in Hv. rewrite bool_decide_false in Hv by done. apply Hv.
Qed.

(** C29. A drain of an add-on target keeps every approval: whatever the add-on
    answers and whichever statements are lost, what it does to the tables is a
    sequence of plan steps, so the outbox stays well formed, every queued
    convergence still cites the spent approval that authorises it, and no
    approval is behind two rows. *)
Theorem DrainAddon_keeps_approvals `{!DrainEnv, !AddonEnv, !Uuids} acquired locked claim_lost s tgt s' r :
  (0 <= retentionDays)%Z → wf (db s) → authorised (db s) → DrainAddon acquired locked claim_lost s tgt = (s', r) →
  rtc plan_step (db s) (db s') ∧ wf (db s') ∧ authorised (db s').
Proof.
  intros Hret Hwf Ha E.
  assert (rtc plan_step (db s) (db s')) as Hst.
  { revert E. unfold DrainAddon. destruct (_ =? _); [intros [= <- <-]; apply rtc_refl|].
    destruct acquired; [|intros [= <- <-]; apply rtc_refl]. cbn [negb].
    pose proof (drainAddonPass_steps locked claim_lost s tgt) as Hp. destruct (drainAddonPass locked claim_lost s tgt) as [s1 [res|]];
      intros [= <- <-]; simpl in Hp.
    - etrans; [apply Hp; by destruct Hwf as [[]]|]. by apply prune_steps.
    - apply Hp. by destruct Hwf as [[]]. }
  split_and!; [done|by eapply wf_steps, plan_steps_steps|]. by eapply authorised_steps.
Qed.

(** ** An add-on that answers *)
Record DemoNet := { traffic_log : list Sent; answers : string → HttpAnswer }.
#[export] Instance demo_wire : Wire DemoNet := {|
  exchange n tgt _ p b k :=
    ({| traffic_log := traffic_log n ++ [{| x_Target := tgt; x_Path := p; x_Body := b; x_Key := k |}]; answers := answers n |},
     inr (answers n p));
  timeNow _ := 0%Z; cancelled _ := false; registered _ tgt := tgt =? "nas"; credentialFor _ _ := true |}.
#[export] Instance demo_log : WireLog DemoNet := {| sent := traffic_log; sent_exchange := λ _ _ _ _ _ _, eq_refl |}.
Definition demo_decoders : Decoders :=
  {| decode_apply := λ _, Some {| ab_Effect := "apply"; ab_Username := "ada"; ab_UID := 7; ab_Detail := ""; ab_Fingerprint := "f2";
       ab_Observed := {["enabled" := "true"]}; ab_Unverified := false; ab_Code := "" |};
     decode_refusal := λ _, None;
     decode_plan := λ _, Some {| pb_Outcomes := [{| so_Subject := "ada"; so_Effect := "apply"; so_Detail := ""; so_Fingerprint := "f1" |}];
       pb_Current := true; pb_TakenAt := None; pb_Truncated := false |};
     decode_health := λ _, Some {| hb_Reachable := true; hb_Lifecycle := "active"; hb_LogHead := ""; hb_LogRecords := 0 |} |}.
(** A deployment with this one add-on and no Zitadel. *)
Definition link_zitadel : Zitadel :=
  {| World := Link DemoNet; ListAllGrants := λ w, (w, Some (status_error 503));
     ListUserGrants := λ w _, (w, inl (status_error 503)); AddUserGrant := λ w _ _ _, (w, Some (status_error 503));
     UpdateUserGrant := λ w _ _ _, (w, Some (status_error 503)); RemoveUserGrant := λ w _ _, (w, Some (status_error 503));
     UserWithGrants := λ w _, (w, inl (status_error 503)) |}.
Definition link_env : DrainEnv :=
  {| env_zitadel := link_zitadel; env_returning := table_order; db_fails := λ _ _, false; draw := λ _ n, (n - 1)%Z;
     maxRetries := 5; retentionDays := 30; autoRetry := true; retry_details := λ _ outcome _, outcome |}.
#[local] Existing Instance link_env.
Definition demo_addon : AddonEnv :=
  {| Net := DemoNet; env_decoders := demo_decoders; link := λ w : World, w; set_link := λ _ l, l;
     link_set := λ _ _, eq_refl; subjectEmail := λ _ subject, subject +:+ "@lab" |}.
#[local] Existing Instance demo_addon.
#[local] Existing Instance hex_uuids.
Definition demo_link (status : Z) (retryAfter : bool) : Link DemoNet :=
  {| net := {| traffic_log := []; answers := λ p, {| h_Status := if p =? "/apply" then status else 200; h_RetryAfter := retryAfter;
       h_Body := ""; h_ReadErr := false |} |}; breakers := ∅; monitor := ∅ |}.
(** ada's convergence, queued and claimed. *)
Definition demo_claimed : Db * list Row :=
  match RecordSystemConvergence (λ s, s) demo_addons 1000 demo_convergence with
  | inr (d, _, _) => ClaimPendingPropagations (λ _, false) d "nas" claimBatch
  | inl _ => (demo_addons, [])
  end.
Definition demo_dispatch (status : Z) (retryAfter : bool) : State :=
  {| db := demo_claimed.1; world := (demo_link status retryAfter : World); refreshed := [] |}.
Definition demo_apply : Row := default sent_row (head demo_claimed.2).

Lemma dispatchEntitlement_outcome_witness :
  ∃ s', dispatchEntitlement (demo_dispatch 200 false) zero demo_apply = (s', count zero 1 0 0 0 0 0 ∅, false) ∧
    dispatched demo_claimed.1 (db s') zero (count zero 1 0 0 0 0 0 ∅) demo_apply.
Proof.
  destruct (dispatchEntitlement (demo_dispatch 200 false) zero demo_apply) as [[s' res'] h] eqn:E.
  assert ((dispatchEntitlement (demo_dispatch 200 false) zero demo_apply).1.2 = count zero 1 0 0 0 0 0 ∅) as Hres by by vm_compute.
  rewrite E in Hres. simpl in Hres. subst res'.
  assert (NoDup (id <$> outbox demo_claimed.1)) as Hnd by (apply (bool_decide_unpack _); by vm_compute).
  assert (outbox demo_claimed.1 = [demo_apply]) as Hone by by vm_compute.
  assert (∀ r, r ∈ outbox demo_claimed.1 → id r = id demo_apply → row_status r = in_flight → r = demo_apply) as Hsame
    by (intros r Hr _ _; rewrite Hone in Hr; by apply list_elem_of_singleton in Hr).
  destruct (dispatchEntitlement_outcome (demo_dispatch 200 false) zero demo_apply s' (count zero 1 0 0 0 0 0 ∅) h Hnd Hsame E)
    as (-> & Hd & _).
  exists s'. split; [reflexivity|exact Hd].
Defined.
Lemma dispatch_sends_the_approval_witness :
  ∃ s' reads applies, dispatchEntitlement (demo_dispatch 200 false) zero demo_apply = (s', count zero 1 0 0 0 0 0 ∅, false) ∧
    traffic s' = reads ++ applies ∧ applies ≠ [] ∧ x_Path <$> traffic s' = ["/plan"; "/apply"].
Proof.
  destruct (dispatchEntitlement (demo_dispatch 200 false) zero demo_apply) as [[s' res'] h] eqn:E.
  assert ((dispatchEntitlement (demo_dispatch 200 false) zero demo_apply).1.2 = count zero 1 0 0 0 0 0 ∅) as Hres by by vm_compute.
  assert ((dispatchEntitlement (demo_dispatch 200 false) zero demo_apply).2 = false) as Hh by by vm_compute.
  assert (x_Path <$> traffic (dispatchEntitlement (demo_dispatch 200 false) zero demo_apply).1.1 = ["/plan"; "/apply"]) as Ht by by vm_compute.
  rewrite E in Hres, Hh, Ht. simpl in Hres, Hh, Ht. subst res' h.
  destruct (dispatch_sends_the_approval _ _ _ _ _ _ E) as (reads & applies & Htr & _ & Happ & _).
  exists s', reads, applies. split_and!; [reflexivity|exact Htr| |exact Ht]. destruct Happ as [Happ|Happ]; [discriminate Happ|exact Happ].
Defined.
(** A refused call, an unanswered one, a maintenance window. *)
Example dispatch_branches :
  (dispatchEntitlement (demo_dispatch 409 false) zero demo_apply).1.2 = count zero 0 1 0 0 0 0 ∅ ∧
  (dispatchEntitlement (demo_dispatch 500 false) zero demo_apply).1.2 = errored zero ∧
  (dispatchEntitlement (demo_dispatch 503 true) zero demo_apply).1.2 = count zero 0 0 1 0 0 0 ∅.
Proof. by vm_compute. Qed.

(** ada's row as it was queued, and the claim between that and its dispatch. *)
Definition demo_queued : Db :=
  match RecordSystemConvergence (λ s, s) demo_addons 1000 demo_convergence with inr (d, _, _) => d | inl _ => demo_addons end.
Lemma demo_queued_from : rtc plan_step demo_addons demo_queued.
Proof.
  unfold demo_queued. destruct (RecordSystemConvergence (λ s, s) demo_addons 1000 demo_convergence) as [e|[[d p] i]] eqn:E; [apply rtc_refl|].
  by eapply RecordSystemConvergence_plan_steps.
Qed.
Lemma demo_queued_ok : wf demo_queued ∧ authorised demo_queued.
Proof.
  split; [|eapply authorised_steps; [apply demo_authorised|apply demo_queued_from]].
  eapply wf_steps; [|apply plan_steps_steps, demo_queued_from]. by apply wf_empty.
Qed.
Lemma demo_claimed_from : rtc plan_step demo_queued (db (demo_dispatch 200 false)).
Proof.
  change (db (demo_dispatch 200 false)) with demo_claimed.1.
  assert (demo_claimed.1 = (ClaimPendingPropagations (λ _, false) demo_queued "nas" claimBatch).1) as -> by by vm_compute.
  apply claim_steps; [apply demo_queued_ok|]. intros r. apply claimable_unresolved.
Qed.
Lemma approved_is_what_is_sent_witness :
  ∃ e s' x, ReadEntitlementIntent demo_queued (id demo_apply) = inr e ∧ x ∈ traffic s' ∧
    ∃ req, x = {| x_Target := ei_Target e; x_Path := "/apply"; x_Body := applyEnvelope req; x_Key := Some (id demo_apply) |} ∧
      q_Desired req = ei_Desired e.
Proof.
  destruct (dispatchEntitlement (demo_dispatch 200 false) zero demo_apply) as [[s' res'] h] eqn:E.
  assert (x_Path <$> traffic (dispatchEntitlement (demo_dispatch 200 false) zero demo_apply).1.1 = ["/plan"; "/apply"]) as Ht by by vm_compute.
  rewrite E in Ht. cbn [fst snd] in Ht. destruct (traffic s') as [|x0 [|x [|]]] eqn:Et; try discriminate Ht. cbn [fmap list_fmap] in Ht. injection Ht as _ Hx.
  assert (match ReadEntitlementIntent demo_queued (id demo_apply) with inr _ => true | inl _ => false end = true) as Hi by by vm_compute.
  destruct (ReadEntitlementIntent demo_queued (id demo_apply)) as [|e] eqn:Ei; [discriminate Hi|].
  assert (outbox demo_claimed.1 = [demo_apply]) as Hone by by vm_compute.
  assert (demo_apply ∈ outbox demo_claimed.1) as Hin by (rewrite Hone; left).
  assert (x ∈ traffic s') as Hxin by (rewrite Et; right; left).
  change (outbox demo_claimed.1) with (outbox (db (demo_dispatch 200 false))) in Hin.
  pose proof (approved_is_what_is_sent demo_queued e (demo_dispatch 200 false) zero demo_apply s' res' h x
    (proj1 demo_queued_ok) (proj2 demo_queued_ok) Ei demo_claimed_from Hin E Hxin Hx) as Hok.
  destruct Hok as [Hold|(req & Hreq & _ & _ & Hd & _)]; [destruct (not_elem_of_nil x Hold)|].
  exists e, s', x. split_and!; [reflexivity|exact Hxin|]. exists req. split; [exact Hreq|exact Hd].
Defined.
Definition demo_before (status : Z) : State :=
  {| db := demo_queued; world := (demo_link status false : World); refreshed := [] |}.
Lemma DrainAddon_keeps_approvals_witness :
  ∃ s', DrainAddon true (λ _, false) false (demo_before 200) "nas" =
      (s', inr (with_awaiting (count zero 1 0 0 0 0 0 ∅) [])) ∧ authorised (db s').
Proof.
  destruct (DrainAddon true (λ _, false) false (demo_before 200) "nas") as [s' r] eqn:E.
  assert ((DrainAddon true (λ _, false) false (demo_before 200) "nas").2 = inr (with_awaiting (count zero 1 0 0 0 0 0 ∅) [])) as Hr by by vm_compute.
  rewrite E in Hr. simpl in Hr. subst r.
  assert (0 <= retentionDays)%Z as Hret by by vm_compute.
  destruct (DrainAddon_keeps_approvals true (λ _, false) false (demo_before 200) "nas" s' _ Hret (proj1 demo_queued_ok) (proj2 demo_queued_ok) E)
    as (_ & _ & Ha).
  exists s'. split; [reflexivity|exact Ha].
Defined.
